(* ===== verification/_CoqProject ===== *)
-Q . S2P
Prelude.v
SignalBits.v
Signal.v
Names.v
SignalRegistry.v
Fuel.v
Regions.v
RegionFree.v
RegionInv.v
RegionTeardown.v
RegionProps.v
MatchValue.v
MatchPattern.v
Decision.v
DecisionSpec.v
DecisionProof.v
DecisionTotal.v
MatchProps.v
BTreeNode.v
BTree.v
BTreeCell.v
BTreeArena.v
BTreeShape.v
BTreeSpec.v
BTreeInsert.v
BTreeRemove.v
BTreeIter.v
SortedStore.v
SortedStoreProps.v
LirRecord.v
LirInstr.v
LirCodec.v
LirCodecProps.v
LirBuild.v
LirView.v
LirSpec.v
LirBuildProps.v
LirSplit.v
LirGpu.v
LirProps.v
Bytes.v
Files.v
Template.v
TemplateProps.v
Live.v
LiveProps.v
Bytecode.v
EmitStack.v
Emit.v
Disasm.v
DisasmProps.v
EmitCode.v
EmitProps.v
ValueTree.v
ValueLaws.v
ValueEq.v
ValueEqLaws.v
SortedStruct.v
ValueProps.v
Scalar.v
ScalarProps.v
EmitRun.v
EmitSim.v
EmitBlocks.v
Text.v
Escape.v
Lexer.v
LexerProps.v
LexerTiles.v
SynReader.v
SynGrammar.v
SynPrint.v
ReaderProps.v
EpochRules.v
Epoch.v
EpochTemplate.v
EpochProps.v
Rewrite.v
RewriteProps.v
RewriteLex.v
