(* ===== verification/Prelude.v ===== *)
(** * Elle: a verification library for the Elle runtime and compiler

    Elle is a Lisp with a bytecode VM, cooperative fibers, region-based memory
    and a compile-time signal (effect) system.  This library models the parts of
    its Rust implementation (under [src/src/]) that carry the guarantees the
    rest of the system relies on, as executable definitions translated from the
    source, and proves what makes each part correct.

    ** The program's parts and the files that model them

    - Signals.  A raise is a 64-bit word of signal bits.  [SignalBits]
      ([value/fiber/signalbits.rs], [signals/mod.rs]) is the word and its
      operations, read as sets of bit positions.  [Signal]
      ([signals/constructors.rs], [signals/dispatch.rs], [signals/bound.rs],
      [vm/fiber/catch.rs], [value/closure.rs], [value/closure/boundary.rs],
      [vm/core/discard.rs]) is the signal inferred for a function, how a raise is
      routed, which raises a fiber mask absorbs and what a call boundary refuses.
      [SignalRegistry] ([signals/registry.rs]) names the bits; [Names]
      ([namehash.rs], [symbol.rs]) is the hash that identifies a symbol or a
      keyword and the memo that prints it; [Fuel] ([value/fiber/fuel.rs],
      [vm/dispatch/interp/opcodes.rs], [primitives/fibers/fuel.rs]) is the
      instruction budget of a fiber and its kill switch.
    - Regions.  A fiber heap is a table of regions with reference counts, an
      ownership forest and recorded content edges.  [Regions] holds the table
      and its operations ([value/fiberheap/regionstore.rs] with [alloc.rs],
      [refcount.rs], [ownership.rs], [counters.rs], [pointer.rs], [hydrate.rs]),
      [RegionFree] the wholesale free, the rescue of members that are still
      referenced, the cascade of decrefs and the closed allocation scope
      ([free.rs], [free/rescue.rs], [mintscope.rs]).  [Regions] begins with the
      loop all of them share.  [RegionInv] states the invariant and that each operation
      keeps it, [RegionTeardown] that the free does, [RegionProps] what the
      store guarantees over all its runs.
    - Pattern matching.  [MatchValue] is what a pattern can inspect of a value
      and the VM's reads of it ([vm/data.rs], [vm/data/structops.rs],
      [vm/types/predicate.rs], [value/repr/eq.rs]).  [MatchPattern] holds the
      patterns ([hir/pattern.rs]), what docs/match.md says they match, and the
      sequential lowering ([lir/lower/pattern/], [lir/lower/control/
      matcharms.rs]).  [Decision] is the decision-tree compiler
      ([hir/decision/]) and the code its tree is lowered to
      ([lir/lower/pattern.rs], [ctor.rs], [access.rs]).  [DecisionSpec],
      [DecisionProof] and [DecisionTotal] prove one split of a column exact,
      then the tree, then that the compiler is total; [MatchProps] states the
      guarantees.
    - Sorted stores.  [@set] and [@struct] keep their entries in a B-tree of
      order 6 whose nodes lie in one extent and name each other by index
      ([value/store/tree/]).  [BTreeNode] is a node with its child slots, its
      searches and edits ([node.rs], [node/edit.rs]); [BTree] the tree: descent,
      free list, insert, put, removal, loading and iteration ([tree.rs],
      [insert.rs], [remove.rs], [build.rs], [iter.rs]); [SortedStore] the two
      stores ([set.rs], [structs.rs]) and their operations as steps.
      [BTreeCell] says what each edit does to the part of a node the tree reads,
      [BTreeArena] what the nodes and the free list spell, [BTreeShape] shape,
      contents, search and descent, [BTreeSpec] the sorted map they refine;
      [BTreeInsert], [BTreeRemove] and [BTreeIter] prove the operations, [SortedStoreProps] states the guarantees.  A key's
      [Ord] is the interface [BTreeNode.KeyOrder], under which keys may compare
      equal without being the same key.
    - Frozen LIR.  The lowerer builds a function instruction by instruction; the
      builder stores each as a 48-byte record against the function's tables, and
      every back end reads the frozen records through one view ([lir/build/],
      [lir/code/]).  [LirRecord] holds the scalars, records and constants,
      [LirInstr] the instructions and opcodes, [LirCodec] the encoder and the
      decoder ([build/encode.rs], [code/decode.rs]), [LirBuild] the builder and
      freezing ([build/mod.rs], [build/freeze.rs]), [LirView] the view, the
      emission sites and the split ([code/view.rs], [code/owned.rs],
      [code/split.rs]), [LirGpu] the numeric tiers' test ([code/gpu.rs]).
      [LirSpec] is the function a sequence of builder calls describes;
      [LirCodecProps] and [LirBuildProps] prove that the records are it,
      [LirSplit] that a split function runs as the original, [LirProps] states
      the guarantees.
    - Bytecode.  The emitter turns a frozen function into bytes for a stack
      machine.  [Bytes] is the integers of both sides as bytes, [Files] the
      source-file interner behind spans ([syntax/files.rs], [syntax/span.rs]),
      [Template] the literals encoded inside the code ([value/template.rs]),
      [Live] the emitter's liveness analysis ([lir/emit/live.rs]), [Bytecode]
      the instruction set, the code object and the interpreter's operand readers
      ([compiler/bytecode/instruction.rs], [compiler/bytecode.rs],
      [vm/core/decode.rs]), [EmitStack] and [Emit] the emitter ([lir/emit/]),
      [Disasm] the interpreter's decode and the disassembler
      ([vm/dispatch/interp/opcodes.rs], [compiler/bytecode/disasm.rs]).
      [EmitRun] is the machine's operand stack as the opcodes move it
      ([vm/stack.rs]).  [TemplateProps], [LiveProps], [DisasmProps],
      [EmitCode], [EmitProps], [EmitSim] and [EmitBlocks] prove them.  The code region a lambda's
      payload is written to and the comparison of two heap constants are
      parameters of the emitter.
    - Values.  [ValueTree] is what the runtime uses of doubles, and values
      with the heap objects behind them, the order over them and struct keys
      ([value/heap.rs], [value/repr/], [value/types/key.rs]), [ValueEq] the two
      equality relations and hashing ([value/repr/eq.rs],
      [value/repr/traits.rs]), [SortedStruct] immutable structs
      ([value/types/sorted.rs]), [Scalar] the checked arithmetic and the opcodes
      that only touch the operand stack ([arithmetic.rs], [vm/arithmetic.rs],
      [vm/comparison.rs], [vm/types/predicate.rs],
      [vm/dispatch/interp/scalar.rs]).  [ValueLaws], [ValueEqLaws],
      [ValueProps] and [ScalarProps] prove them; [ValueProps] discharges the
      interface [BTreeNode.KeyOrder] of the sorted stores for both orders.
    - Reader.  Source text becomes tokens and tokens become syntax trees.
      [Text] is characters, UTF-8 lengths and the integers as text, [Escape]
      the escapes of string literals and their respelling between epochs
      ([reader/escape.rs]), [Lexer] tokens, lexicons and the s-expression lexer
      ([reader/token.rs], [reader/lexer.rs], [reader/numeric.rs]), [SynReader]
      the trees and the parser ([reader/syntax.rs],
      [reader/syntax/collections.rs], [syntax/kind.rs], [reader/mod.rs]),
      [SynPrint] the printer ([syntax/display.rs]).  [LexerProps], [LexerTiles],
      [SynGrammar] and [ReaderProps] prove them.  The Unicode tables and the text of a double are the classes
      [Text.Unicode] and [Lexer.FloatText].
    - Epochs.  A source declares the epoch it was written for; the prescan of
      that declaration chooses the lexicon, and the tree is migrated to the
      current epoch before expansion.  [EpochRules] is the registered
      migrations, the tables a range of them collapses to and the conversion of
      durations ([epoch/rules.rs], [epoch/rules/migrations.rs],
      [epoch/seconds.rs]), [Epoch] the prescan, the declaration checks and the
      walk over a tree ([epoch/mod.rs], [epoch/transform.rs]).  [EpochTemplate]
      proves that templates are filled, [EpochProps] states the guarantees.
    - Token rewriter.  [elle rewrite] migrates a file's text instead of its tree:
      [Rewrite] is the edits and their application, the collectors of every kind
      of rule, the rewrite of a file and a library's own rules ([rewrite/]).  It
      reads through the lexer and the rules of the epochs.  [RewriteProps] and
      [RewriteLex] prove it.
    [Prelude] (this file) holds the scope, the hint databases and the lemmas on
    machine words the components share.

    ** What the theorems show

    - Signals: what leaves a closure call lies within its effective signal, but
      for the compound raises a squelch mask lets through, which are told
      exactly; a raise out of a silent function, unless it halts or is terminal
      already, becomes an error no mask absorbs; the
      routing predicates agree on all 2^64 words; the [bound] entry check, the
      compile-time squelch and the boundary of a tail call are sound; a budget
      of n lets exactly n charges through; registration, keyword conversion and
      printing of signals behave on every branch.
    - Regions: in every store a run reaches the forest, the edges, the ids and
      the gauges are consistent.  A run ([RegionProps.store_step]) is any
      sequence of operations under the guards the release build leaves to the
      callers: mortal ids, adoption of a region nothing owns, a group free of
      members nothing owns, edge counts below 2^32.  [teardown_all] frees owned
      regions without counting them, so the gauge keeps counting those ([lost]).
      A subtree drop frees its roots and owned
      descendants only and never a member a surviving region references; the
      cascade ends; while callers materialize only minted or live ids
      ([RegionProps.tracked]), live, reserved and free ids stay disjoint and a
      mint returns a fresh one; each branch of a release does what it says.
    - Matching: on regular matches the decision tree selects the arm that trying
      the arms in order selects, with the same bindings; an arm reported
      unreachable is; a match typed as total never raises [:match-error];
      compilation ends on every match.
    - Sorted stores: every sequence of operations on a [@struct] or a [@set]
      answers what a sorted map answers and never panics, while it holds fewer
      than 2^32 - 1 entries at any one time ([SortedStore.abs_peak]); parent and
      child links, fills and the free list are right in every stored tree, and
      its height and size are bounded; the two node searches agree.
    - Frozen LIR: whatever calls the lowerer makes, a frozen function reads back
      as what they describe, or is refused for the one reason a node cannot hold
      an instruction; the answers read straight off a node are the
      instruction's; splitting keeps the runs of a function; the MLIR CPU test
      ends and is exact.
    - Bytecode: the interpreter and the disassembler read the emitted bytes back
      as the instructions written, and every jump lands on the instruction its
      label was placed at; an instruction's code is [DupN] copies and the opcodes
      a table apart from the emitter gives it ([EmitSim.own_code]), and run on
      the machine's stack a block's code gives every
      instruction the operands its registers name, and trimming the stack at an
      edge drops only dead registers; liveness is exact; a template decodes to itself, in
      the same process and in another, and decoding ends on any bytes; threads
      racing to intern one name agree.
    - Values: the order over struct keys is lawful, and decides as their
      equality does; the order over values is lawful while integers are ones a
      double holds exactly, and its equal values hash alike, immutable sets
      apart; immutable structs answer as the sorted map; the opcode chosen for
      proved integers computes what the general one does, the general one what
      the checked primitive does wherever that succeeds, and integer results are
      exact modulo 2^64.
    - Reader: the tokens tile the source, and lexing ends on every text; the
      parser accepts exactly the token sequences of the grammar and returns the
      tree they spell; spans nest; a printed tree reads back as itself under
      every epoch; respelling a string literal for another epoch keeps the
      string it denotes.
    - Epochs: the migration of a file ends, a template is filled as a tree is,
      both where no text holds a dollar sign; collapsed renames act as the
      rules one after the other, for any rules whose renames chain without
      meeting and for every range of the registered ones; the epoch the prescan sees is the one the
      tree declares.
    - Token rewriter: edits are applied all at once or refused; the walk over
      tokens finds the end of every form without byte literals; renaming leaves
      a text that lexes to the renamed tokens; rewriting ends on every source.
    - Some theorems state a behaviour that contradicts the documentation of the
      code (kind [error] in the manifest, with a finding each): a container freed
      while referenced, an id minted twice, a match on which the two lowerings
      differ, equal values that hash apart, an unquoted splice whose printed
      form reads as another tree, a migration that never ends, a rewrite that
      answers text that does not read and one that leaves old names behind.

    ** Conventions

    The definitions follow the release build: [debug_assert!] is compiled out
    and unsigned arithmetic that is neither saturating nor wrapping wraps.  A
    panic is [None] (or [Panicked] where exhaustion of fuel is told apart).
    Machine words are [N] below [2^w] with the wrap-around written out.  A hash
    map whose iteration order matters is an association list in an order that
    is a parameter ([RegionFree.EdgeOrder]).

    Fuel: the loops of the region store compute theirs from the store and
    [Regions.drain_enough] shows it suffices; [Decision.compile_matrix] takes a
    bound, [DecisionTotal.compile_ends] shows that some bound suffices on every
    input and [compile_refines] that a larger one changes nothing.
    A loop that follows the links of a B-tree gets the number of nodes as fuel,
    and [BTreeArena.path_fuel] shows that no path is longer.  The walk of the
    MLIR CPU test gets the square of the number of instructions, and
    [LirGpu.walk_total] shows that it never runs out.  The builder theorem
    bounds the table entries the calls can make below 2^32, the range of the
    indices a node stores.
    [Template.decode_fuel] is one round per byte and [TemplateProps] shows that
    it never runs out; [Live.loop_fuel] is one pass per register and block, and
    one more, and [LiveProps] shows that a pass past it changes nothing.
    [Epoch.rewrite_node] takes a bound, and [EpochProps.migration_ends] shows that
    some bound suffices; no bound does for the form of its counterexample.
    The lexer takes one round per character and the parser one level per token:
    [LexerTiles] and [SynGrammar] show that neither runs out.
    ** Not modelled

    The value reader, the Lua, JavaScript and Python readers, the macro expander, the HIR passes other than [match], the
    lowering of HIR to LIR other than [match], the interpreter loop beyond its
    decode, scalar opcodes, routing and fuel rules, the code generators of the
    JIT, WASM and MLIR tiers, I/O and FFI, and the tooling.  Inside
    the modelled parts: page layout and pointers (a pointer is the claim of its
    page), tracing and statistics, message texts, guards that mutate the
    scrutinee, cyclic values, the dead-alternative check of or-patterns, the
    growth and borrow guards of a store's extent ([value/store/extent.rs]), and
    the frozen function in region pages ([lir/code/body.rs], [compare.rs]).

    ** Plan

    Next: signal inference and its soundness against the call boundary
    ([hir/analyze/call.rs]); the dead-alternative check
    ([hir/decision/redundancy.rs]); the lookup of stale pointers by generation;
    fiber status and delivery ([value/fiber/delivery.rs]). *)

From stdpp Require Import base numbers list gmap sets fin_maps strings.
From Stdlib Require Import Btauto.

(** ** Notation and scope of the development *)

Declare Scope elle_scope.
Delimit Scope elle_scope with elle.

(** ** Hint databases

    [elle] collects the resolution lemmas of the components,
    [elle_bits] the rewriting rules that push [N.testbit] through the
    machine-word operations. *)

Create HintDb elle.
Create Rewrite HintDb elle_bits.

(** ** Unsigned machine words

    A Rust [u32] / [u64] is an [N] below [2 ^ w].  The bitwise
    complement of a [w]-bit word flips its low [w] bits. *)

Definition u64_max : N := N.ones 64.
Definition u32_max : N := N.ones 32.

Definition fits (w : N) (x : N) : Prop := (x < 2 ^ w)%N.

Definition not_w (w x : N) : N := N.lnot x w.

(** [saturating_add] of a [w]-bit unsigned word. *)
Definition saturating_add (w x y : N) : N := N.min (x + y) (N.ones w).

(** [wrapping_add] of a [w]-bit unsigned word. *)
Definition wrapping_add (w x y : N) : N := ((x + y) mod 2 ^ w)%N.

Lemma ones_pow2 (w : N) : (N.ones w < 2 ^ w)%N.
Proof. rewrite N.ones_equiv. pose proof (N.pow_nonzero 2 w). lia. Qed.

Lemma fits_testbit (w x i : N) : fits w x -> (w <= i)%N -> N.testbit x i = false.
Proof.
  unfold fits. intros Hx Hi. destruct (decide (x = 0%N)) as [->|Hne].
  - apply N.bits_0.
  - apply N.bits_above_log2. apply N.log2_lt_pow2; [lia|].
    eapply N.lt_le_trans; [exact Hx|]. apply N.pow_le_mono_r; lia.
Qed.

Lemma fits_of_testbit (w x : N) :
  (forall i, (w <= i)%N -> N.testbit x i = false) -> fits w x.
Proof.
  unfold fits. intros H. destruct (decide (x = 0%N)) as [->|Hne].
  - apply N.neq_0_lt_0, N.pow_nonzero. lia.
  - apply N.log2_lt_pow2; [lia|]. destruct (N.lt_ge_cases (N.log2 x) w) as [|Hge]; [done|].
    specialize (H _ Hge). rewrite N.bit_log2 in H; done.
Qed.

Lemma testbit_ones (w i : N) : N.testbit (N.ones w) i = (i <? w)%N.
Proof.
  destruct (N.ltb_spec i w).
  - by rewrite N.ones_spec_low.
  - by rewrite N.ones_spec_high.
Qed.

Lemma testbit_not_w (w x i : N) : N.testbit (not_w w x) i = xorb (N.testbit x i) (i <? w)%N.
Proof. unfold not_w, N.lnot. by rewrite N.lxor_spec, testbit_ones. Qed.

Lemma testbit_bit (p i : N) : N.testbit (N.shiftl 1 p) i = (i =? p)%N.
Proof.
  rewrite N.shiftl_1_l. rewrite N.pow2_bits_eqb. apply N.eqb_sym.
Qed.

Lemma testbit_nonzero (x : N) : x <> 0%N <-> exists i, N.testbit x i = true.
Proof.
  split.
  - intros Hne. exists (N.log2 x). by apply N.bit_log2.
  - intros [i Hi] ->. by rewrite N.bits_0 in Hi.
Qed.

#[export] Hint Rewrite N.land_spec N.lor_spec N.lxor_spec N.ldiff_spec N.bits_0
  testbit_not_w testbit_ones testbit_bit : elle_bits.

(** [bitwise]: equality of two words, bit by bit. *)
Ltac bitwise :=
  apply N.bits_inj; intros ?i; autorewrite with elle_bits; btauto.

