(* ===== verification/SignalBits.v ===== *)
(** * The signal bitset

    [value/fiber/signalbits.rs]: a newtype over [u64] naming the signals a
    fiber can raise, and [signals/mod.rs]: the canonical bit assignment.
    [mem s i] reads a word as the set of bit positions it holds; the lemmas
    below state every operation as the set operation it implements. *)

From stdpp Require Import base numbers list.
From S2P Require Import Prelude.

(** ** The newtype and its operations *)

Record SignalBits := mkBits { raw : N }.

#[export] Instance SignalBits_eq_dec : EqDecision SignalBits.
Proof. solve_decision. Defined.

Definition EMPTY : SignalBits := mkBits 0.

Definition ALL : SignalBits := mkBits (not_w 64 0).

(** [1u64 << pos]: a release build masks the shift amount to six bits; every
    caller passes a position below 64, where the mask changes nothing. *)
Definition from_bit (pos : N) : SignalBits := mkBits (N.shiftl 1 (pos mod 64)).

(** [v as u64]: two's complement of a 64-bit signed integer. *)
Definition from_i64 (v : Z) : SignalBits := mkBits (Z.to_N (v mod 2 ^ 64)).

Definition is_empty (s : SignalBits) : bool := (raw s =? 0)%N.

Definition intersects (s o : SignalBits) : bool := negb (N.land (raw s) (raw o) =? 0)%N.

Definition has_bit (s : SignalBits) (pos : N) : bool :=
  negb (N.land (raw s) (N.shiftl 1 (pos mod 64)) =? 0)%N.

Definition covers (s o : SignalBits) : bool := is_empty o || intersects s o.

Definition union (s o : SignalBits) : SignalBits := mkBits (N.lor (raw s) (raw o)).

Definition intersection (s o : SignalBits) : SignalBits := mkBits (N.land (raw s) (raw o)).

Definition subtract (s o : SignalBits) : SignalBits :=
  mkBits (N.land (raw s) (not_w 64 (raw o))).

Definition complement (s : SignalBits) : SignalBits := mkBits (not_w 64 (raw s)).

(** [u64::trailing_zeros]: the lowest set position, 64 for the empty word. *)
Fixpoint tz_pos (p : positive) : N :=
  match p with
  | xO q => N.succ (tz_pos q)
  | _ => 0%N
  end.

Definition trailing_zeros (s : SignalBits) : N :=
  match raw s with
  | N0 => 64%N
  | Npos p => tz_pos p
  end.

(** ** The canonical bit assignment (signals/mod.rs) *)

Definition SIG_OK : SignalBits := EMPTY.
Definition SIG_ERROR : SignalBits := mkBits (N.shiftl 1 0).
Definition SIG_YIELD : SignalBits := mkBits (N.shiftl 1 1).
Definition SIG_DEBUG : SignalBits := mkBits (N.shiftl 1 2).
Definition SIG_RESUME : SignalBits := mkBits (N.shiftl 1 3).
Definition SIG_FFI : SignalBits := mkBits (N.shiftl 1 4).
Definition SIG_PROPAGATE : SignalBits := mkBits (N.shiftl 1 5).
Definition SIG_QUERY : SignalBits := mkBits (N.shiftl 1 7).
Definition SIG_HALT : SignalBits := mkBits (N.shiftl 1 8).
Definition SIG_IO : SignalBits := mkBits (N.shiftl 1 9).
Definition SIG_TERMINAL : SignalBits := mkBits (N.shiftl 1 10).
Definition SIG_EXEC : SignalBits := mkBits (N.shiftl 1 11).
Definition SIG_FUEL : SignalBits := mkBits (N.shiftl 1 12).
Definition SIG_SWITCH : SignalBits := mkBits (N.shiftl 1 13).
Definition SIG_WAIT : SignalBits := mkBits (N.shiftl 1 14).
Definition SIG_GPU : SignalBits := mkBits (N.shiftl 1 15).
Definition SIG_OS_SIGNAL : SignalBits := mkBits (N.shiftl 1 16).
Definition SIG_FS : SignalBits := mkBits (N.shiftl 1 17).
Definition SIG_NET : SignalBits := mkBits (N.shiftl 1 18).
Definition SIG_ABORT : SignalBits := union SIG_ERROR SIG_TERMINAL.

Definition IO_ROUND_TRIP : SignalBits := union SIG_IO SIG_ERROR.

Definition VM_INTERNAL : SignalBits :=
  union (union (union (union (union (union SIG_RESUME SIG_PROPAGATE) SIG_QUERY)
    SIG_TERMINAL) SIG_FUEL) SIG_SWITCH) SIG_WAIT.

Definition SIG_PAUSE : SignalBits := SIG_FUEL.

Definition CAP_MASK : SignalBits :=
  mkBits (N.lxor (raw VM_INTERNAL) 0xFFFFFFFFFFFFFFFF).

(** [squelched_bits]: what a [squelch] boundary turns into a violation. *)
Definition squelched_bits (bits mask : SignalBits) : SignalBits :=
  if intersects bits (union (union SIG_ERROR SIG_HALT) SIG_PAUSE)
     || bool_decide (bits = SIG_SWITCH)
  then EMPTY
  else intersection bits mask.

(** [breaks_proof]: whether [bits] leaving a silent function break its proof. *)
Definition breaks_proof (bits : SignalBits) : bool :=
  negb (is_empty bits) && negb (intersects bits (union SIG_HALT SIG_TERMINAL)).

(** ** The set a word stands for *)

Definition mem (s : SignalBits) (i : N) : Prop := N.testbit (raw s) i = true.

Definition subset (s o : SignalBits) : Prop := forall i, mem s i -> mem o i.

Definition wf_bits (s : SignalBits) : Prop := fits 64 (raw s).

Declare Scope signal_scope.
Delimit Scope signal_scope with sig.
Notation "i ∈ₛ s" := (mem s i) (at level 70) : signal_scope.
Notation "s ⊆ₛ o" := (subset s o) (at level 70) : signal_scope.
Open Scope signal_scope.

(** ** Set reading of the operations *)

Lemma bits_ext (s o : SignalBits) : (forall i, i ∈ₛ s <-> i ∈ₛ o) -> s = o.
Proof.
  destruct s as [x], o as [y]. unfold mem; simpl. intros H. f_equal.
  apply N.bits_inj. intros i. specialize (H i).
  destruct (N.testbit x i), (N.testbit y i); naive_solver.
Qed.

Lemma mem_EMPTY i : i ∈ₛ EMPTY <-> False.
Proof. unfold mem; simpl. rewrite ?N.bits_0. naive_solver. Qed.

Lemma mem_ALL i : i ∈ₛ ALL <-> (i < 64)%N.
Proof.
  unfold mem, ALL; simpl raw. autorewrite with elle_bits.
  destruct (N.ltb_spec i 64); simpl; naive_solver lia.
Qed.

Lemma mem_bit (p i : N) : mem (mkBits (N.shiftl 1 p)) i <-> i = p.
Proof. unfold mem; simpl raw. rewrite testbit_bit. apply N.eqb_eq. Qed.

Lemma mem_union s o i : i ∈ₛ union s o <-> i ∈ₛ s \/ i ∈ₛ o.
Proof. unfold mem; simpl. rewrite N.lor_spec. apply orb_true_iff. Qed.

Lemma mem_intersection s o i : i ∈ₛ intersection s o <-> i ∈ₛ s /\ i ∈ₛ o.
Proof. unfold mem; simpl. rewrite N.land_spec. apply andb_true_iff. Qed.

Lemma mem_complement s i : wf_bits s -> i ∈ₛ complement s <-> (i < 64)%N /\ ~ i ∈ₛ s.
Proof.
  intros Hs. unfold mem; simpl. rewrite testbit_not_w.
  destruct (N.ltb_spec i 64) as [Hi|Hi].
  - destruct (N.testbit (raw s) i); naive_solver.
  - rewrite (fits_testbit 64) by done. simpl. split; [done|lia].
Qed.

Lemma mem_lt s i : wf_bits s -> i ∈ₛ s -> (i < 64)%N.
Proof.
  intros Hs Hi. destruct (N.lt_ge_cases i 64) as [|Hge]; [done|].
  unfold mem in Hi. rewrite (fits_testbit 64) in Hi by done. done.
Qed.

Lemma mem_subtract s o i : wf_bits s -> i ∈ₛ subtract s o <-> i ∈ₛ s /\ ~ i ∈ₛ o.
Proof.
  intros Hs. unfold mem at 1. unfold subtract. simpl raw. rewrite N.land_spec, testbit_not_w.
  rewrite andb_true_iff. split.
  - intros [H1 H2]. split; [done|]. intros H3. unfold mem in H3. rewrite H3 in H2.
    apply mem_lt in H1; [|done]. apply N.ltb_lt in H1. by rewrite H1 in H2.
  - intros [H1 H2]. split; [done|]. apply mem_lt in H1; [|done]. apply N.ltb_lt in H1.
    rewrite H1. unfold mem in H2. by destruct (N.testbit (raw o) i).
Qed.

Lemma is_empty_spec s : is_empty s = true <-> forall i, ~ i ∈ₛ s.
Proof.
  unfold is_empty. rewrite N.eqb_eq. split.
  - intros H i. unfold mem. rewrite H, N.bits_0. done.
  - intros H. destruct (decide (raw s = 0%N)) as [|Hne]; [done|].
    apply testbit_nonzero in Hne as [i Hi]. by destruct (H i).
Qed.

Lemma is_empty_eq s : is_empty s = true <-> s = EMPTY.
Proof.
  unfold is_empty, EMPTY. rewrite N.eqb_eq. destruct s as [x]; simpl.
  split; [by intros ->|by intros [= ->]].
Qed.

Lemma is_empty_false s : is_empty s = false <-> exists i, i ∈ₛ s.
Proof.
  unfold is_empty. rewrite N.eqb_neq. rewrite testbit_nonzero. done.
Qed.

Lemma intersects_spec s o : intersects s o = true <-> exists i, i ∈ₛ s /\ i ∈ₛ o.
Proof.
  unfold intersects. rewrite negb_true_iff, N.eqb_neq, testbit_nonzero.
  split; intros [i Hi]; exists i.
  - rewrite N.land_spec, andb_true_iff in Hi. done.
  - rewrite N.land_spec, andb_true_iff. done.
Qed.

Lemma intersects_false s o : intersects s o = false <-> forall i, i ∈ₛ s -> ~ i ∈ₛ o.
Proof.
  rewrite <- not_true_iff_false, intersects_spec. naive_solver.
Qed.

Lemma intersects_bit s p : intersects s (mkBits (N.shiftl 1 p)) = N.testbit (raw s) p.
Proof.
  apply eq_true_iff_eq. rewrite intersects_spec. split.
  - intros (i & Hi & Hp). apply mem_bit in Hp as ->. done.
  - intros H. exists p. split; [done|]. by apply mem_bit.
Qed.

Lemma intersects_sym s o : intersects s o = intersects o s.
Proof. unfold intersects. by rewrite N.land_comm. Qed.

Lemma intersects_union s a b : intersects s (union a b) = intersects s a || intersects s b.
Proof.
  apply eq_true_iff_eq. rewrite orb_true_iff, !intersects_spec.
  setoid_rewrite mem_union. naive_solver.
Qed.

Lemma has_bit_spec s p : (p < 64)%N -> has_bit s p = true <-> p ∈ₛ s.
Proof.
  intros Hp. unfold has_bit. rewrite N.mod_small by done.
  change (intersects s (mkBits (N.shiftl 1 p)) = true <-> p ∈ₛ s).
  by rewrite intersects_bit.
Qed.

Lemma mem_from_bit p i : (p < 64)%N -> i ∈ₛ from_bit p <-> i = p.
Proof. intros Hp. unfold from_bit. rewrite N.mod_small by done. apply mem_bit. Qed.

(** ** Words stay in range *)

Lemma wf_bits_of_mem s : (forall i, i ∈ₛ s -> (i < 64)%N) -> wf_bits s.
Proof.
  intros H. apply fits_of_testbit. intros i Hi.
  destruct (N.testbit (raw s) i) eqn:E; [|done]. specialize (H i E). lia.
Qed.

Lemma wf_union s o : wf_bits s -> wf_bits o -> wf_bits (union s o).
Proof.
  intros Hs Ho. apply wf_bits_of_mem. intros i. rewrite mem_union.
  intros [H|H]; [by apply (mem_lt s)|by apply (mem_lt o)].
Qed.

Lemma wf_intersection s o : wf_bits s -> wf_bits (intersection s o).
Proof.
  intros Hs. apply wf_bits_of_mem. intros i. rewrite mem_intersection.
  intros [H _]; eapply mem_lt; eauto.
Qed.

Lemma wf_subtract s o : wf_bits s -> wf_bits (subtract s o).
Proof.
  intros Hs. apply wf_bits_of_mem. intros i. rewrite mem_subtract by done.
  intros [H _]; eapply mem_lt; eauto.
Qed.

Lemma wf_from_bit p : wf_bits (from_bit p).
Proof.
  apply wf_bits_of_mem. intros i. unfold from_bit. rewrite mem_bit. intros ->.
  apply N.mod_lt. done.
Qed.

Lemma wf_EMPTY : wf_bits EMPTY.
Proof. reflexivity. Qed.

#[export] Hint Resolve wf_union wf_intersection wf_subtract wf_from_bit wf_EMPTY : elle.

(** ** Trailing zeros *)

Lemma tz_pos_spec p :
  N.testbit (Npos p) (tz_pos p) = true /\ forall i, (i < tz_pos p)%N -> N.testbit (Npos p) i = false.
Proof.
  induction p as [p IH|p IH|].
  - split; [done|]. simpl. lia.
  - destruct IH as [IH1 IH2]. change (tz_pos (xO p)) with (N.succ (tz_pos p)).
    change (Npos (xO p)) with (2 * Npos p)%N. split.
    + by rewrite N.double_bits_succ.
    + intros i Hi. destruct (decide (i = 0%N)) as [->|Hne]; [apply N.testbit_even_0|].
      replace i with (N.succ (N.pred i)) by lia. rewrite N.double_bits_succ. apply IH2. lia.
  - split; [done|]. simpl. lia.
Qed.

Lemma trailing_zeros_bit p : (p < 64)%N -> trailing_zeros (from_bit p) = p.
Proof.
  intros Hp. pose proof (proj2 (mem_from_bit p p Hp) eq_refl) as Hm.
  unfold trailing_zeros. destruct (raw (from_bit p)) as [|q] eqn:E.
  - unfold mem in Hm. by rewrite E in Hm.
  - pose proof (tz_pos_spec q) as [H1 _]. rewrite <- E in H1.
    by apply (mem_from_bit p) in H1.
Qed.

(** ** The bit assignment is consistent *)

(** The words of the assignment, as the positions they name. *)
Ltac sig_mem :=
  repeat first
    [ rewrite mem_union in * | rewrite mem_intersection in * | rewrite mem_bit in *
    | rewrite mem_EMPTY in * ].

Lemma mem_CAP_MASK i : i ∈ₛ CAP_MASK <-> (i < 64)%N /\ ~ i ∈ₛ VM_INTERNAL.
Proof.
  assert (CAP_MASK = complement VM_INTERNAL) as -> by reflexivity.
  apply mem_complement. reflexivity.
Qed.

(** ** Boundaries *)

Lemma squelched_bits_spec bits mask i :
  i ∈ₛ squelched_bits bits mask <->
    intersects bits (union (union SIG_ERROR SIG_HALT) SIG_PAUSE) = false /\
    bits <> SIG_SWITCH /\ i ∈ₛ bits /\ i ∈ₛ mask.
Proof.
  unfold squelched_bits.
  destruct (intersects bits _) eqn:E1; simpl.
  - rewrite mem_EMPTY. naive_solver.
  - destruct (bool_decide_reflect (bits = SIG_SWITCH)).
    + rewrite mem_EMPTY. naive_solver.
    + rewrite mem_intersection. naive_solver.
Qed.
