(* ===== verification/Signal.v ===== *)
(** * Compile-time signals, routing and call boundaries

    [signals/mod.rs] and [signals/constructors.rs]: the [Signal] a function is
    inferred to have, a bitset of emissions and a bitmask of the parameters
    whose signals flow through.  [signals/dispatch.rs]: the routing of a
    concrete raise.  [vm/fiber/catch.rs]: whether a fiber mask absorbs one.
    [Closure::effective_signal] and [value/closure/boundary.rs]: what a call
    boundary does to a signal that crosses it. *)

From stdpp Require Import base numbers list.
From S2P Require Import Prelude SignalBits.

(** ** The compile-time signal *)

Record Signal := mkSignal { bits : SignalBits; propagates : N }.

#[export] Instance Signal_eq_dec : EqDecision Signal.
Proof. solve_decision. Defined.

Definition is_silent (s : Signal) : bool := is_empty (bits s) && (propagates s =? 0)%N.

Definition may_suspend (s : Signal) : bool :=
  negb (is_empty (bits s)) || negb (propagates s =? 0)%N.

Definition may_yield (s : Signal) : bool := intersects (bits s) SIG_YIELD.

Definition may_park (s : Signal) : bool :=
  let non_park := union (union SIG_ERROR SIG_HALT) SIG_FFI in
  negb (propagates s =? 0)%N || negb (is_empty (subtract (bits s) non_park)).

Definition may_error (s : Signal) : bool := intersects (bits s) SIG_ERROR.
Definition may_halt (s : Signal) : bool := intersects (bits s) SIG_HALT.
Definition may_ffi (s : Signal) : bool := intersects (bits s) SIG_FFI.
Definition may_io (s : Signal) : bool := intersects (bits s) SIG_IO.
Definition is_polymorphic (s : Signal) : bool := negb (propagates s =? 0)%N.

(** [(0..32).filter(|i| mask & (1 << i) != 0)] *)
Definition propagated_params (s : Signal) : list nat :=
  List.filter (fun i => negb (N.land (propagates s) (N.shiftl 1 (N.of_nat i)) =? 0)%N) (seq 0 32).

(** ** Named constructors (signals/constructors.rs) *)

Definition silent : Signal := mkSignal (mkBits 0) 0.
Definition errors : Signal := mkSignal SIG_ERROR 0.
Definition yields : Signal := mkSignal SIG_YIELD 0.
Definition yields_errors : Signal := mkSignal (union SIG_YIELD SIG_ERROR) 0.
Definition halts : Signal := mkSignal (union SIG_HALT SIG_ERROR) 0.
Definition ffi : Signal := mkSignal SIG_FFI 0.
Definition ffi_errors : Signal := mkSignal (union SIG_FFI SIG_ERROR) 0.
Definition io_yields_errors : Signal := mkSignal IO_ROUND_TRIP 0.
Definition fs_errors : Signal := mkSignal (union SIG_FS SIG_ERROR) 0.
Definition fs_io_yields_errors : Signal := mkSignal (union IO_ROUND_TRIP SIG_FS) 0.
Definition net_errors : Signal := mkSignal (union SIG_NET SIG_ERROR) 0.
Definition net_io_yields_errors : Signal := mkSignal (union IO_ROUND_TRIP SIG_NET) 0.
Definition fs_net_errors : Signal := mkSignal (union (union SIG_FS SIG_NET) SIG_ERROR) 0.
Definition fs_net_io_yields_errors : Signal :=
  mkSignal (union (union IO_ROUND_TRIP SIG_FS) SIG_NET) 0.
Definition subprocess : Signal := mkSignal (union IO_ROUND_TRIP SIG_EXEC) 0.
Definition query_errors : Signal := mkSignal (union SIG_QUERY SIG_ERROR) 0.
Definition Signal_of (b : SignalBits) : Signal := mkSignal b 0.
Definition os_signal_errors : Signal := mkSignal (union SIG_OS_SIGNAL SIG_ERROR) 0.
Definition unknown : Signal := mkSignal CAP_MASK 0.

(** [1 << param] in a [u32]: a release build masks the amount to five bits. *)
Definition polymorphic (param : nat) : Signal :=
  mkSignal (mkBits 0) (N.shiftl 1 (N.of_nat param mod 32)).
Definition polymorphic_errors (param : nat) : Signal :=
  mkSignal SIG_ERROR (N.shiftl 1 (N.of_nat param mod 32)).

(** Every signal the primitive table can name. *)
Definition named_signals : list Signal :=
  [silent; errors; yields; yields_errors; halts; ffi; ffi_errors; io_yields_errors;
   fs_errors; fs_io_yields_errors; net_errors; net_io_yields_errors; fs_net_errors;
   fs_net_io_yields_errors; subprocess; query_errors; os_signal_errors; unknown].

Definition combine (s o : Signal) : Signal :=
  mkSignal (union (bits s) (bits o)) (N.lor (propagates s) (propagates o)).

Definition combine_all (l : list Signal) : Signal := fold_left combine l silent.

Definition squelch (s : Signal) (mask : SignalBits) : Signal :=
  let actually_squelched := intersection (bits s) mask in
  if is_empty actually_squelched then s
  else mkSignal (union (subtract (bits s) mask) SIG_ERROR) (propagates s).

(** ** Routing a raise (signals/dispatch.rs) *)

Inductive SignalAction :=
  | Ok | Resume | Propagate | Abort | Query | Error | Halt | Suspend.

#[export] Instance SignalAction_eq_dec : EqDecision SignalAction.
Proof. solve_decision. Defined.

(** The payload matters to [classify] only through [value.as_fiber().is_some()]. *)
Definition classify (b : SignalBits) (value_is_fiber : bool) : SignalAction :=
  if is_empty b then Ok
  else if bool_decide (b = SIG_RESUME) then Resume
  else if bool_decide (b = SIG_PROPAGATE) then Propagate
  else if bool_decide (b = SIG_ABORT) && value_is_fiber then Abort
  else if bool_decide (b = SIG_QUERY) then Query
  else if intersects b SIG_ERROR then Error
  else if intersects b SIG_HALT then Halt
  else Suspend.

Definition is_suspending (b : SignalBits) : bool :=
  if is_empty b || bool_decide (b = SIG_RESUME) || bool_decide (b = SIG_PROPAGATE)
     || bool_decide (b = SIG_QUERY)
  then false
  else negb (intersects b SIG_ERROR) && negb (intersects b SIG_HALT).

Definition parks (b : SignalBits) : bool := intersects b SIG_ERROR || is_suspending b.

(** ** Fiber masks (vm/fiber/catch.rs) *)

Definition mask_catches (mask b : SignalBits) : bool :=
  is_empty b || (covers mask b && negb (intersects b SIG_TERMINAL)).

Section Catch.
Context {Value Loc : Type}.

(** The error location the VM holds, and the one parked on the child. *)
Record CatchState := mkCatch {
  error_loc : option Loc;
  child_error_loc : option (Value * Loc);
}.

Definition absorbs (st : CatchState) (mask b : SignalBits) (value : Value) : bool * CatchState :=
  let caught := mask_catches mask b in
  let st' :=
    if caught && intersects b SIG_ERROR then
      match error_loc st with
      | Some loc => mkCatch None (Some (value, loc))
      | None => st
      end
    else st in
  (caught, st').
End Catch.

(** [reject_orphaned_signal]: with no parent fiber, a resumable signal is a
    [state-error] of the driving primitive.  The error kind the VM sets, if any. *)
Definition reject_orphaned_signal (has_parent : bool) (b : SignalBits) : bool :=
  negb has_parent && negb (intersects b SIG_ERROR) && negb (intersects b SIG_HALT).

(** ** Closures and call boundaries *)

Record ClosureTemplate := mkTemplate { template_signal : Signal }.

Record Closure := mkClosure { template : ClosureTemplate; squelch_mask : SignalBits }.

Definition effective_signal (c : Closure) : Signal :=
  let signal := template_signal (template c) in
  if is_empty (squelch_mask c) then signal
  else
    let template_bits := bits signal in
    let actually_squelched := intersection template_bits (squelch_mask c) in
    if is_empty actually_squelched then signal
    else mkSignal (union (subtract template_bits (squelch_mask c)) SIG_ERROR) (propagates signal).

Record Boundary := mkBoundary { squelch_of : SignalBits; proof : option ClosureTemplate }.

Definition Boundary_none : Boundary := mkBoundary EMPTY None.

Definition Boundary_of (c : Closure) : Boundary :=
  mkBoundary (squelch_mask c)
    (if is_silent (template_signal (template c)) then Some (template c) else None).

Definition Boundary_add (b other : Boundary) : Boundary :=
  mkBoundary (union (squelch_of b) (squelch_of other))
    (match proof b with None => proof other | p => p end).

Inductive RefusalKind := BrokenProof | SignalViolation.

(** The refusal [VM::boundary_violation] chooses: the bits the call leaves by
    instead, and the error kind.  [None]: the signal crosses as it is. *)
Definition boundary_refusal (b : SignalBits) (bd : Boundary) : option (SignalBits * RefusalKind) :=
  match proof bd with
  | Some _ =>
      if breaks_proof b then Some (union SIG_ERROR SIG_TERMINAL, BrokenProof)
      else if is_empty (squelched_bits b (squelch_of bd)) then None
      else Some (SIG_ERROR, SignalViolation)
  | None =>
      if is_empty (squelched_bits b (squelch_of bd)) then None
      else Some (SIG_ERROR, SignalViolation)
  end.

(** The bits a call boundary lets out for a callee that left by [b]. *)
Definition leaves_by (b : SignalBits) (bd : Boundary) : SignalBits :=
  match boundary_refusal b bd with Some (b', _) => b' | None => b end.

(** ** The entry check of a bounded parameter (signals/bound.rs) *)

Inductive Callee := CClosure (c : Closure) | CNative (declared : Signal) | COther.

Inductive BoundViolation := PassesOn | MayEmit (excess : SignalBits).

Definition violation (value : Callee) (allowed : SignalBits) : option BoundViolation :=
  let check (signal : Signal) :=
    if is_polymorphic signal then Some PassesOn
    else
      let excess := subtract (bits signal) allowed in
      if is_empty excess then None else Some (MayEmit excess) in
  match value with
  | CClosure c => check (effective_signal c)
  | CNative s => check s
  | COther => None
  end.

(** ** Well-formedness and order *)

Definition wf_signal (s : Signal) : Prop := wf_bits (bits s) /\ fits 32 (propagates s).

Definition le_signal (s o : Signal) : Prop :=
  subset (bits s) (bits o) /\ forall i, N.testbit (propagates s) i = true -> N.testbit (propagates o) i = true.

Notation "s ⊑ₛ o" := (le_signal s o) (at level 70) : signal_scope.

(** ** Order lemmas *)

Lemma Signal_eq (s o : Signal) : bits s = bits o -> propagates s = propagates o -> s = o.
Proof. destruct s, o; simpl; congruence. Qed.

Lemma mem_combine s o i : i ∈ₛ bits (combine s o) <-> i ∈ₛ bits s \/ i ∈ₛ bits o.
Proof. apply mem_union. Qed.

Lemma propagates_combine s o i :
  N.testbit (propagates (combine s o)) i = N.testbit (propagates s) i || N.testbit (propagates o) i.
Proof. simpl. apply N.lor_spec. Qed.

#[export] Instance le_signal_preorder : PreOrder le_signal.
Proof.
  split.
  - intros s. split; [intros i|]; auto.
  - intros a b c [H1 H2] [H3 H4]. split; [intros i Hi|intros i Hi]; auto.
Qed.

Lemma combine_comm s o : combine s o = combine o s.
Proof. apply Signal_eq; simpl; [|apply N.lor_comm]. apply bits_ext. intros i. rewrite !mem_union. tauto. Qed.

Lemma combine_assoc a b c : combine a (combine b c) = combine (combine a b) c.
Proof.
  apply Signal_eq; simpl; [|apply N.lor_assoc]. apply bits_ext. intros i. rewrite !mem_union. tauto.
Qed.

Lemma combine_idem s : combine s s = s.
Proof.
  apply Signal_eq; simpl; [|apply N.lor_diag]. apply bits_ext. intros i. rewrite !mem_union. tauto.
Qed.

Lemma combine_silent_l s : combine silent s = s.
Proof. destruct s as [[b] p]. reflexivity. Qed.

Lemma silent_le t : silent ⊑ₛ t.
Proof. split; intros i Hi; by destruct i. Qed.

Lemma le_silent s : s ⊑ₛ silent <-> is_silent s = true.
Proof.
  unfold is_silent, le_signal, subset. rewrite andb_true_iff, is_empty_spec, N.eqb_eq. split.
  - intros [H1 H2]. split; [intros i Hi; specialize (H1 i Hi); by destruct i|].
    apply N.bits_inj. intros i. rewrite N.bits_0. specialize (H2 i).
    destruct (N.testbit (propagates s) i); [|done]. specialize (H2 eq_refl). by destruct i.
  - intros [H1 H2]. split; [naive_solver|]. intros i. rewrite H2. by destruct i.
Qed.

Lemma combine_lub s o t : combine s o ⊑ₛ t <-> s ⊑ₛ t /\ o ⊑ₛ t.
Proof.
  unfold le_signal, subset. setoid_rewrite mem_combine. setoid_rewrite propagates_combine.
  setoid_rewrite orb_true_iff. naive_solver.
Qed.

Lemma le_combine_l s o : s ⊑ₛ combine s o.
Proof. apply (combine_lub s o (combine s o)). reflexivity. Qed.

Lemma le_combine_r s o : o ⊑ₛ combine s o.
Proof. apply (combine_lub s o (combine s o)). reflexivity. Qed.

Lemma le_signal_antisym s o : s ⊑ₛ o -> o ⊑ₛ s -> s = o.
Proof.
  intros [H1 H2] [H3 H4]. apply Signal_eq.
  - apply bits_ext. split; [apply H1|apply H3].
  - apply N.bits_inj. intros i. specialize (H2 i). specialize (H4 i).
    destruct (N.testbit (propagates s) i), (N.testbit (propagates o) i); naive_solver.
Qed.

Lemma fold_combine_lub l a t :
  fold_left combine l a ⊑ₛ t <-> a ⊑ₛ t /\ Forall (fun s => s ⊑ₛ t) l.
Proof.
  revert a. induction l as [|s l IH]; intros a; simpl.
  - rewrite Forall_nil. tauto.
  - rewrite IH, combine_lub, Forall_cons. tauto.
Qed.

#[export] Hint Resolve le_combine_l le_combine_r : elle.

(** ** Routing lemmas *)

Lemma is_suspending_spec b :
  is_suspending b = true <->
    is_empty b = false /\ b <> SIG_RESUME /\ b <> SIG_PROPAGATE /\ b <> SIG_QUERY /\
    intersects b SIG_ERROR = false /\ intersects b SIG_HALT = false.
Proof.
  unfold is_suspending.
  destruct (is_empty b); simpl; [naive_solver|].
  repeat case_bool_decide; simpl; try naive_solver.
  destruct (intersects b SIG_ERROR) eqn:?, (intersects b SIG_HALT) eqn:?; simpl; naive_solver.
Qed.

Lemma mask_catches_spec mask b :
  mask_catches mask b = true <->
    (forall i, ~ i ∈ₛ b) \/
    ((exists i, i ∈ₛ mask /\ i ∈ₛ b) /\ ~ 10%N ∈ₛ b).
Proof.
  unfold mask_catches, covers.
  change (intersects b SIG_TERMINAL) with (intersects b (mkBits (N.shiftl 1 10))).
  rewrite intersects_bit, !orb_true_iff, andb_true_iff, orb_true_iff, is_empty_spec, intersects_spec.
  rewrite negb_true_iff.
  assert (~ 10%N ∈ₛ b <-> N.testbit (raw b) 10 = false) as ->.
  { unfold mem. by rewrite not_true_iff_false. }
  naive_solver.
Qed.

(** ** Boundary lemmas *)

(** A raise a squelch lets out whole (it carries [:error], [:halt] or the
    [:fuel] pause, or is [:switch] and nothing else) although it holds a bit
    other than [:error] that the mask names. *)
Definition escapes_squelch (b mask : SignalBits) : Prop :=
  (0%N ∈ₛ b \/ 8%N ∈ₛ b \/ 12%N ∈ₛ b \/ b = SIG_SWITCH) /\ exists i, i ∈ₛ b /\ i ∈ₛ mask /\ i <> 0%N.

Lemma exempt_spec b :
  intersects b (union (union SIG_ERROR SIG_HALT) SIG_PAUSE) = true <-> 0%N ∈ₛ b \/ 8%N ∈ₛ b \/ 12%N ∈ₛ b.
Proof.
  rewrite !intersects_union, !orb_true_iff. unfold SIG_ERROR, SIG_HALT, SIG_PAUSE, SIG_FUEL.
  rewrite !intersects_bit. unfold mem. tauto.
Qed.

Lemma effective_signal_eq c : effective_signal c = squelch (template_signal (template c)) (squelch_mask c).
Proof.
  unfold effective_signal, squelch. destruct (is_empty (squelch_mask c)) eqn:E; [|done].
  assert (is_empty (intersection (bits (template_signal (template c))) (squelch_mask c)) = true) as ->; [|done].
  rewrite is_empty_spec in *. intros i. rewrite mem_intersection. naive_solver.
Qed.

Lemma mem_squelch s mask i : wf_signal s ->
  i ∈ₛ bits (squelch s mask) <->
    (i ∈ₛ bits s /\ ~ i ∈ₛ mask) \/
    (i = 0%N /\ exists j, j ∈ₛ bits s /\ j ∈ₛ mask).
Proof.
  intros [Hwf _]. unfold squelch. destruct (is_empty (intersection _ _)) eqn:E.
  - rewrite is_empty_spec in E. setoid_rewrite mem_intersection in E. naive_solver.
  - apply is_empty_false in E as [j Hj]. rewrite mem_intersection in Hj.
    simpl. rewrite mem_union, mem_subtract by done. unfold SIG_ERROR. rewrite mem_bit.
    naive_solver.
Qed.

(** What a boundary without a proof does: a raise it may refuse that holds a
    masked bit leaves as an error, every other one as it is. *)
Lemma leaves_by_cases b bd :
  proof bd = None ->
  (leaves_by b bd = b /\
     ((0%N ∈ₛ b \/ 8%N ∈ₛ b \/ 12%N ∈ₛ b \/ b = SIG_SWITCH) \/ forall i, i ∈ₛ b -> ~ i ∈ₛ squelch_of bd)) \/
  (leaves_by b bd = SIG_ERROR /\ ~ (0%N ∈ₛ b \/ 8%N ∈ₛ b \/ 12%N ∈ₛ b \/ b = SIG_SWITCH) /\
     exists i, i ∈ₛ b /\ i ∈ₛ squelch_of bd).
Proof.
  intros Hp. unfold leaves_by, boundary_refusal. rewrite Hp.
  destruct (is_empty (squelched_bits b (squelch_of bd))) eqn:E.
  - left. split; [done|]. rewrite is_empty_spec in E. setoid_rewrite squelched_bits_spec in E.
    destruct (intersects b (union (union SIG_ERROR SIG_HALT) SIG_PAUSE)) eqn:Ex; [apply exempt_spec in Ex; tauto|].
    destruct (decide (b = SIG_SWITCH)); [tauto|]. right. intros i Hi Hm. by apply (E i).
  - right. split; [done|]. apply is_empty_false in E as [i Hi].
    apply squelched_bits_spec in Hi as (Ex & Hs & Hb & Hm).
    split; [|by exists i]. apply not_true_iff_false in Ex. rewrite exempt_spec in Ex. tauto.
Qed.

Lemma breaks_proof_spec b : breaks_proof b = true <-> b <> EMPTY /\ ~ 8%N ∈ₛ b /\ ~ 10%N ∈ₛ b.
Proof.
  unfold breaks_proof, SIG_HALT, SIG_TERMINAL.
  rewrite intersects_union, !intersects_bit, negb_orb, !andb_true_iff, !negb_true_iff.
  unfold mem. rewrite !not_true_iff_false. split; [intros (H & ?)|intros (H & ?)]; (split; [|done]).
  - intros ->. done.
  - by rewrite <- not_true_iff_false, is_empty_eq.
Qed.

Lemma leaves_within_effective (c : Closure) (b : SignalBits) :
  wf_signal (template_signal (template c)) -> b ⊆ₛ bits (template_signal (template c)) ->
  leaves_by b (Boundary_of c) ⊆ₛ bits (effective_signal c) <-> ~ escapes_squelch b (squelch_mask c).
Proof.
  intros Hwf Hsub. unfold subset at 1. setoid_rewrite (effective_signal_eq c). setoid_rewrite (mem_squelch _ _ _ Hwf).
  destruct (is_silent (template_signal (template c))) eqn:Es.
  - apply andb_true_iff in Es as [Es _]. rewrite is_empty_spec in Es.
    assert (b = EMPTY) as -> by (apply bits_ext; intros j; rewrite mem_EMPTY; naive_solver).
    assert (leaves_by EMPTY (Boundary_of c) = EMPTY) as ->.
    { unfold leaves_by, boundary_refusal. change (squelched_bits EMPTY _) with EMPTY. by destruct (proof _). }
    unfold escapes_squelch. setoid_rewrite mem_EMPTY. naive_solver.
  - destruct (leaves_by_cases b (Boundary_of c)) as [[-> Hd]|(-> & Hn & j & Hj & Hm)];
      [unfold Boundary_of; by rewrite Es| |].
    + change (squelch_of (Boundary_of c)) with (squelch_mask c) in Hd. split.
      * intros Hin (_ & i & Hi & Hm & Hne). destruct (Hin i Hi) as [[_ Hnm]|[-> _]]; done.
      * intros Hne i Hi. destruct (decide (i = 0%N)) as [->|Hi0].
        -- destruct (N.testbit (raw (squelch_mask c)) 0) eqn:Em; [right; eauto|].
           left. split; [by apply Hsub|]. unfold mem. by rewrite Em.
        -- left. split; [by apply Hsub|]. intros Hm. destruct Hd as [Hd|Hd]; [|by apply (Hd i)].
           apply Hne. split; [done|eauto].
    + split; [by intros _ [? _]|]. intros _ i. unfold SIG_ERROR. rewrite mem_bit. intros ->. right. eauto.
Qed.

Lemma fold_combine_comm l a b : fold_left combine l (combine a b) = combine a (fold_left combine l b).
Proof.
  revert b. induction l as [|s l IH]; intros b; simpl; [done|].
  by rewrite <- IH, combine_assoc.
Qed.

Lemma combine_all_perm l k : l ≡ₚ k -> combine_all l = combine_all k.
Proof.
  unfold combine_all. induction 1 as [|s l k _ IH|s t l|l k m _ IH1 _ IH2]; simpl.
  - done.
  - rewrite !(combine_comm silent s), !fold_combine_comm. by f_equal.
  - by rewrite <- !combine_assoc, (combine_comm s t).
  - congruence.
Qed.

(** ** Properties *)

(** The three routing predicates agree: [is_suspending] is exactly the
    [Suspend] arm of [classify], and [parks] is exactly the error, abort and
    suspend arms, for every one of the 2^64 words and either kind of payload. *)
Theorem routing_agrees (b : SignalBits) (f : bool) :
  (classify b f = Suspend <-> is_suspending b = true) /\
  (parks b = true <-> classify b f = Suspend \/ classify b f = Error \/ classify b f = Abort).
Proof.
  unfold parks. rewrite orb_true_iff, !is_suspending_spec.
  destruct (decide (b = EMPTY)) as [->|H0]; [destruct f; vm_compute; naive_solver|].
  destruct (decide (b = SIG_RESUME)) as [->|H1]; [destruct f; vm_compute; naive_solver|].
  destruct (decide (b = SIG_PROPAGATE)) as [->|H2]; [destruct f; vm_compute; naive_solver|].
  destruct (decide (b = SIG_QUERY)) as [->|H3]; [destruct f; vm_compute; naive_solver|].
  destruct (decide (b = SIG_ABORT)) as [->|H4]; [destruct f; vm_compute; naive_solver|].
  assert (is_empty b = false) as E0 by (rewrite <- not_true_iff_false, is_empty_eq; done).
  unfold classify. rewrite E0, !bool_decide_eq_false_2 by done. simpl.
  destruct (intersects b SIG_ERROR) eqn:?, (intersects b SIG_HALT) eqn:?; naive_solver.
Qed.

(** A fiber mask absorbs a child's signal exactly when the child returned
    normally, or the two share a bit and the signal is not terminal; the error
    location the VM holds moves to the child exactly when an error was
    absorbed, and nothing else changes. *)
Theorem absorbs_spec {Value Loc} (st : @CatchState Value Loc) (mask b : SignalBits) (v : Value) :
  let '(caught, st') := absorbs st mask b v in
  (caught = true <->
     (forall i, ~ i ∈ₛ b) \/ ((exists i, i ∈ₛ mask /\ i ∈ₛ b) /\ ~ 10%N ∈ₛ b)) /\
  (caught = true -> 0%N ∈ₛ b -> error_loc st' = None) /\
  (forall loc, caught = true -> 0%N ∈ₛ b -> error_loc st = Some loc ->
     child_error_loc st' = Some (v, loc)) /\
  ((caught = false \/ ~ 0%N ∈ₛ b) -> st' = st).
Proof.
  unfold absorbs. split; [apply mask_catches_spec|].
  change (intersects b SIG_ERROR) with (intersects b (mkBits (N.shiftl 1 0))).
  rewrite intersects_bit. unfold mem.
  destruct (mask_catches mask b), (N.testbit (raw b) 0), st as [[l|] ?]; naive_solver.
Qed.

(** C28: the effective signal of a closure bounds what leaves its boundary,
    and exactly when.  Of everything the body can raise within its inferred
    bits, the bits the call leaves by, after the squelch mask and the silence
    proof have had their say, lie within [effective_signal] except for the
    raises a squelch lets out whole: one that carries [:error], [:halt] or the
    [:fuel] pause, or that is [:switch] alone, takes the masked bits it holds
    out with it.  A raise that holds a masked bit and is none of these leaves
    as [:error] and nothing else. *)
Theorem effective_signal_sound (c : Closure) (b : SignalBits) :
  wf_signal (template_signal (template c)) -> b ⊆ₛ bits (template_signal (template c)) ->
  (leaves_by b (Boundary_of c) ⊆ₛ bits (effective_signal c) <->
     ~ ((0%N ∈ₛ b \/ 8%N ∈ₛ b \/ 12%N ∈ₛ b \/ b = SIG_SWITCH) /\
        exists i, i ∈ₛ b /\ i ∈ₛ squelch_mask c /\ i <> 0%N)) /\
  (forall i, i ∈ₛ b -> i ∈ₛ squelch_mask c -> ~ (0%N ∈ₛ b \/ 8%N ∈ₛ b \/ 12%N ∈ₛ b \/ b = SIG_SWITCH) ->
     leaves_by b (Boundary_of c) = SIG_ERROR).
Proof.
  intros Hwf Hsub. split; [by apply leaves_within_effective|]. intros i Hi Hm Hex.
  destruct (leaves_by_cases b (Boundary_of c)) as [[_ [?|Hd]]|[? _]]; [|done|by destruct (Hd i)|done].
  unfold Boundary_of. simpl. destruct (is_silent (template_signal (template c))) eqn:Es; [|done].
  apply andb_true_iff in Es as [Es _]. rewrite is_empty_spec in Es. destruct (Es i). by apply Hsub.
Qed.

(** A generator that yields and reads files, under a squelch of [:yield]. *)
Definition squelched_generator : Closure :=
  mkClosure (mkTemplate (mkSignal (union SIG_YIELD SIG_IO) 0)) SIG_YIELD.

Lemma squelched_generator_wf : wf_signal (template_signal (template squelched_generator)).
Proof. split; reflexivity. Qed.

Lemma sig_yield_raised : SIG_YIELD ⊆ₛ bits (template_signal (template squelched_generator)).
Proof. intros i Hi. apply mem_union. left. exact Hi. Qed.

Lemma sig_yield_refused : ~ escapes_squelch SIG_YIELD (squelch_mask squelched_generator).
Proof. intros [[H|[H|[H|H]]] _]; discriminate. Qed.

Lemma effective_signal_sound_witness :
  leaves_by SIG_YIELD (Boundary_of squelched_generator) = SIG_ERROR /\
  leaves_by SIG_YIELD (Boundary_of squelched_generator) ⊆ₛ bits (effective_signal squelched_generator).
Proof.
  split; [reflexivity|].
  apply (effective_signal_sound squelched_generator SIG_YIELD squelched_generator_wf sig_yield_raised).
  exact sig_yield_refused.
Defined.

(** [Signal::squelch], the compile-time rule, computes the run-time
    [Closure::effective_signal] of the wrapped closure, for every signal and mask. *)
Theorem squelch_mirrors_effective_signal (s : Signal) (mask : SignalBits) :
  effective_signal (mkClosure (mkTemplate s) mask) = squelch s mask.
Proof. apply effective_signal_eq. Qed.

(** The entry check of [(bound p spec)] is sound: a closure it admits is
    not polymorphic, and whatever its body raises leaves the call within the
    allowed bits, unless it is a raise the closure's own squelch lets out
    whole. *)
Theorem bound_check_sound (c : Closure) (allowed b : SignalBits) :
  wf_signal (template_signal (template c)) ->
  violation (CClosure c) allowed = None -> ~ escapes_squelch b (squelch_mask c) ->
  b ⊆ₛ bits (template_signal (template c)) ->
  is_polymorphic (template_signal (template c)) = false /\ leaves_by b (Boundary_of c) ⊆ₛ allowed.
Proof.
  intros Hwf Hv Hb Hsub. unfold violation in Hv.
  destruct (is_polymorphic (effective_signal c)) eqn:Ep; [done|].
  destruct (is_empty (subtract (bits (effective_signal c)) allowed)) eqn:Ee; [|done]. split.
  - rewrite effective_signal_eq in Ep. unfold squelch in Ep.
    by destruct (is_empty (intersection _ _)).
  - intros i Hi. apply (proj2 (leaves_within_effective c b Hwf Hsub) Hb) in Hi.
    rewrite is_empty_spec in Ee. specialize (Ee i).
    assert (wf_bits (bits (effective_signal c))) as Hw.
    { rewrite effective_signal_eq. unfold squelch. destruct (is_empty _); [apply Hwf|].
      destruct Hwf. simpl. apply wf_union; [by apply wf_subtract|reflexivity]. }
    rewrite mem_subtract in Ee by done.
    destruct (decide (N.testbit (raw allowed) i = true)) as [|Hn]; [done|].
    destruct Ee. split; [done|exact Hn].
Qed.

Definition bounded_generator_allowed : SignalBits := union SIG_IO SIG_ERROR.

Lemma bound_check_sound_witness :
  violation (CClosure squelched_generator) bounded_generator_allowed = None /\
  leaves_by SIG_YIELD (Boundary_of squelched_generator) ⊆ₛ bounded_generator_allowed.
Proof.
  assert (violation (CClosure squelched_generator) bounded_generator_allowed = None) as Hv by reflexivity.
  split; [exact Hv|].
  apply (bound_check_sound squelched_generator bounded_generator_allowed SIG_YIELD
    squelched_generator_wf Hv sig_yield_refused sig_yield_raised).
Defined.

(** C29: a silent function's proof is enforced and cannot be swallowed.  At a
    boundary that a proof covers the call is refused as a broken proof exactly
    for a raise that is not empty and carries neither [:halt] nor [:terminal];
    the refused call leaves by [:error] and [:terminal], which no fiber mask
    absorbs, no enclosing boundary changes, and every tier routes as an error,
    its payload being an error value. *)
Theorem broken_proof_uncatchable (b : SignalBits) (bd : Boundary) (t : ClosureTemplate) :
  proof bd = Some t ->
  ((exists b', boundary_refusal b bd = Some (b', BrokenProof)) <-> b <> EMPTY /\ ~ 8%N ∈ₛ b /\ ~ 10%N ∈ₛ b) /\
  (b <> EMPTY -> ~ 8%N ∈ₛ b -> ~ 10%N ∈ₛ b ->
     boundary_refusal b bd = Some (SIG_ABORT, BrokenProof) /\
     (forall i, i ∈ₛ leaves_by b bd <-> i = 0%N \/ i = 10%N) /\
     (forall mask, mask_catches mask (leaves_by b bd) = false) /\
     (forall outer, leaves_by (leaves_by b bd) outer = leaves_by b bd) /\
     classify (leaves_by b bd) false = Error).
Proof.
  intros Hp. rewrite <- breaks_proof_spec. split.
  - unfold boundary_refusal. rewrite Hp. destruct (breaks_proof b); [naive_solver|].
    destruct (is_empty _); naive_solver.
  - intros H0 H8 H10. assert (boundary_refusal b bd = Some (SIG_ABORT, BrokenProof)) as E.
    { unfold boundary_refusal. rewrite Hp. by rewrite (proj2 (breaks_proof_spec b)). }
    unfold leaves_by at 1 2 4 5 6. rewrite E. split_and!; [done| | | |done].
    + intros i. unfold SIG_ABORT, SIG_ERROR, SIG_TERMINAL. by rewrite mem_union, !mem_bit.
    + intros mask. rewrite <- not_true_iff_false, mask_catches_spec. intros [H|[_ H]]; [by apply (H 0%N)|by apply H].
    + intros outer. unfold leaves_by, boundary_refusal.
      change (breaks_proof SIG_ABORT) with false. change (squelched_bits SIG_ABORT (squelch_of outer)) with EMPTY.
      by destruct (proof outer).
Qed.

Lemma broken_proof_uncatchable_witness :
  mask_catches ALL (leaves_by SIG_FUEL (Boundary_of (mkClosure (mkTemplate silent) EMPTY))) = false.
Proof.
  apply (broken_proof_uncatchable SIG_FUEL
    (Boundary_of (mkClosure (mkTemplate silent) EMPTY)) (mkTemplate silent)); [reflexivity|discriminate..].
Defined.

(** A boundary widened by a tail call refuses whatever either boundary
    would have refused: if a signal crosses the joined boundary untouched, it
    crosses each of the two untouched. *)
Theorem Boundary_add_widens (b : SignalBits) (b1 b2 : Boundary) :
  boundary_refusal b (Boundary_add b1 b2) = None ->
  boundary_refusal b b1 = None /\ boundary_refusal b b2 = None.
Proof.
  assert (forall m1 m2, is_empty (squelched_bits b (union m1 m2)) = true ->
    is_empty (squelched_bits b m1) = true /\ is_empty (squelched_bits b m2) = true) as Hu.
  { intros m1 m2. rewrite !is_empty_spec. setoid_rewrite squelched_bits_spec.
    setoid_rewrite mem_union. naive_solver. }
  unfold boundary_refusal, Boundary_add. simpl.
  destruct (is_empty (squelched_bits b (union _ _))) eqn:E; [|destruct (proof b1), (proof b2), (breaks_proof b); done].
  apply Hu in E as [-> ->].
  destruct (proof b1), (proof b2), (breaks_proof b); done.
Qed.

Lemma Boundary_add_widens_witness :
  boundary_refusal SIG_IO (Boundary_add (Boundary_of squelched_generator) Boundary_none) = None /\
  boundary_refusal SIG_IO (Boundary_of squelched_generator) = None.
Proof.
  assert (boundary_refusal SIG_IO (Boundary_add (Boundary_of squelched_generator) Boundary_none) = None)
    as H by reflexivity.
  split; [exact H|].
  apply (Boundary_add_widens SIG_IO (Boundary_of squelched_generator) Boundary_none H).
Defined.

(** [combine_all] is the least upper bound of the signals of a sequence, so
    it does not depend on their order, and the result is silent exactly when
    every signal is. *)
Theorem combine_all_lub (l : list Signal) :
  (forall t, combine_all l ⊑ₛ t <-> Forall (fun s => s ⊑ₛ t) l) /\
  (forall k, l ≡ₚ k -> combine_all l = combine_all k) /\
  (is_silent (combine_all l) = true <-> Forall (fun s => is_silent s = true) l).
Proof.
  assert (forall t, combine_all l ⊑ₛ t <-> Forall (fun s => s ⊑ₛ t) l) as Hlub.
  { intros t. unfold combine_all. rewrite fold_combine_lub.
    split; [by intros [_ H]|]. intros H. split; [|done].
    apply silent_le. }
  split; [done|]. split; [apply combine_all_perm|].
  rewrite <- le_silent, Hlub. apply Forall_iff. intros s. apply le_silent.
Qed.

(** What [squelch] promises and what the boundary enforces differ on a
    compound raise: [|:error :io|] crosses a squelch of [:io] whole, so bits
    that [effective_signal] has cleared do leave the call. *)
Theorem compound_error_escapes_squelch :
  exists (c : Closure) (b : SignalBits),
    b ⊆ₛ bits (template_signal (template c)) /\ SIG_IO ⊆ₛ squelch_mask c /\
    may_io (effective_signal c) = false /\
    leaves_by b (Boundary_of c) = b /\ intersects (leaves_by b (Boundary_of c)) SIG_IO = true.
Proof.
  exists (mkClosure (mkTemplate io_yields_errors) SIG_IO), IO_ROUND_TRIP.
  split_and!; try reflexivity; intros i Hi; exact Hi.
Qed.
