(* ===== verification/Names.v ===== *)
(** * Name identity and the display memo

    [namehash.rs]: the 64-bit hash that is a symbol's or a keyword's identity.
    [symbol.rs]: the per-instance hash-to-spelling memo.  An assertion failure
    (a Rust panic) is [None]. *)

From stdpp Require Import base numbers list gmap strings.
From S2P Require Import Prelude.

(** ** The hash *)

(** A name's UTF-8 bytes, as the numbers below 256 they are. *)
Definition bytes_of (name : string) : list N :=
  List.map Ascii.N_of_ascii (String.list_ascii_of_string name).

Definition FNV_OFFSET : N := 0xcbf29ce484222325.
Definition FNV_PRIME : N := 0x100000000000001b.

(** One iteration: [hash ^= byte; hash = hash.wrapping_mul(FNV_PRIME)]. *)
Definition hash_step (hash byte : N) : N := ((N.lxor hash byte * FNV_PRIME) mod 2 ^ 64)%N.

Definition name_hash (name : string) : N := fold_left hash_step (bytes_of name) FNV_OFFSET.

Definition keyword_hash (name : string) : N := name_hash name.

(** ** The memo *)

(** [SymbolId::SYNTHETIC], the reserved id no name may take. *)
Definition SYNTHETIC : N := u64_max.

Record SymbolTable := mkSymbolTable { names : gmap N string }.

Definition new : SymbolTable := mkSymbolTable ∅.

(** [record_raw]: the collision guard.  [None] is the panic. *)
Definition record_raw (t : SymbolTable) (hash : N) (name : string) : option SymbolTable :=
  match names t !! hash with
  | Some existing => if String.eqb existing name then Some t else None
  | None => Some (mkSymbolTable (<[hash := name]> (names t)))
  end.

Definition record_spelling (t : SymbolTable) (hash : N) (name : string) : option SymbolTable :=
  record_raw t hash name.

Definition intern (t : SymbolTable) (name : string) : option (N * SymbolTable) :=
  let id := name_hash name in
  if bool_decide (id = SYNTHETIC) then None
  else t' ← record_raw t id name; Some (id, t').

Definition keyword (t : SymbolTable) (name : string) : option (N * SymbolTable) :=
  let hash := keyword_hash name in
  t' ← record_raw t hash name; Some (hash, t').

Definition name_of (t : SymbolTable) (id : N) : option string := names t !! id.

Definition keyword_name (t : SymbolTable) (hash : N) : option string := names t !! hash.

(** A memo that only ever recorded names under their own hash. *)
Definition memo_ok (t : SymbolTable) : Prop :=
  forall h n, names t !! h = Some n -> h = name_hash n.

(** ** The hash is injective in each byte *)

Lemma hash_step_lt h b : (hash_step h b < 2 ^ 64)%N.
Proof. unfold hash_step. apply N.mod_lt. done. Qed.

(** [0x100000000000001b] is odd, so multiplying by it loses nothing mod 2^64. *)
Definition FNV_PRIME_INV : N := 0xf4bda12f684bda13.

Lemma prime_invertible : ((FNV_PRIME * FNV_PRIME_INV) mod 2 ^ 64 = 1)%N.
Proof. vm_compute. reflexivity. Qed.

Lemma mul_prime_inj x y :
  fits 64 x -> fits 64 y ->
  ((x * FNV_PRIME) mod 2 ^ 64 = (y * FNV_PRIME) mod 2 ^ 64)%N -> x = y.
Proof.
  unfold fits. intros Hx Hy H.
  assert (forall z, (z < 2 ^ 64)%N ->
    (((z * FNV_PRIME) mod 2 ^ 64 * FNV_PRIME_INV) mod 2 ^ 64 = z)%N) as Hinv.
  { intros z Hz. rewrite N.Div0.mul_mod_idemp_l, <- N.mul_assoc.
    rewrite <- N.Div0.mul_mod_idemp_r, prime_invertible, N.mul_1_r.
    by apply N.mod_small. }
  rewrite <- (Hinv x Hx), <- (Hinv y Hy), H. done.
Qed.

Lemma fits_lxor w x y : fits w x -> fits w y -> fits w (N.lxor x y).
Proof.
  intros Hx Hy. apply fits_of_testbit. intros i Hi.
  rewrite N.lxor_spec, !(fits_testbit w) by done. done.
Qed.

Lemma hash_step_inj h1 h2 b1 b2 :
  fits 64 h1 -> fits 64 h2 -> fits 64 b1 -> fits 64 b2 ->
  hash_step h1 b1 = hash_step h2 b2 -> N.lxor h1 b1 = N.lxor h2 b2.
Proof. intros. eapply mul_prime_inj; eauto using fits_lxor. Qed.

Lemma lxor_cancel_l h x y : N.lxor h x = N.lxor h y -> x = y.
Proof.
  intros H. apply (f_equal (N.lxor h)) in H.
  by rewrite <- !N.lxor_assoc, !N.lxor_nilpotent, !N.lxor_0_l in H.
Qed.

Lemma fold_hash_inj bs : Forall (fits 64) bs -> forall h1 h2,
  fits 64 h1 -> fits 64 h2 -> fold_left hash_step bs h1 = fold_left hash_step bs h2 -> h1 = h2.
Proof.
  induction 1 as [|b bs Hb _ IH]; intros h1 h2 H1 H2 E; simpl in E; [done|].
  apply IH in E; [|apply hash_step_lt..].
  apply hash_step_inj in E; [|done..].
  rewrite !(N.lxor_comm _ b) in E. by apply lxor_cancel_l in E.
Qed.

Lemma fold_hash_fits bs h : fits 64 h -> fits 64 (fold_left hash_step bs h).
Proof. revert h. induction bs as [|b bs IH]; intros h Hh; simpl; [done|]. apply IH, hash_step_lt. Qed.

Lemma bytes_fit name : Forall (fits 64) (bytes_of name).
Proof.
  unfold bytes_of. apply Forall_forall. intros b Hb.
  apply list_elem_of_In, in_map_iff in Hb as (a & <- & _).
  pose proof (Ascii.N_ascii_bounded a). unfold fits.
  eapply N.lt_trans; [exact H|]. done.
Qed.

(** ** The memo never lies *)

Lemma record_raw_lookup t h n t' :
  record_raw t h n = Some t' ->
  names t' !! h = Some n /\ forall k, k <> h -> names t' !! k = names t !! k.
Proof.
  unfold record_raw. destruct (names t !! h) as [e|] eqn:E.
  - destruct (String.eqb_spec e n); [|done]. intros [= <-]. naive_solver.
  - intros [= <-]. simpl. split; [apply lookup_insert_eq|].
    intros k Hk. by rewrite lookup_insert_ne.
Qed.

Lemma record_raw_ok t n t' : memo_ok t -> record_raw t (name_hash n) n = Some t' -> memo_ok t'.
Proof.
  intros Hok H h m Hm. apply record_raw_lookup in H as [H1 H2].
  destruct (decide (h = name_hash n)) as [->|Hne]; [congruence|].
  rewrite H2 in Hm by done. by apply Hok.
Qed.

Lemma record_raw_mono t h n t' k m :
  record_raw t h n = Some t' -> names t !! k = Some m -> names t' !! k = Some m.
Proof.
  intros H Hk. pose proof H as H'. apply record_raw_lookup in H' as [H1 H2].
  destruct (decide (k = h)) as [->|Hne]; [|by rewrite H2].
  unfold record_raw in H. rewrite Hk in H.
  destruct (String.eqb_spec m n); [|done]. congruence.
Qed.

(** ** Properties *)

(** Two names that differ in exactly one byte never share a hash, whatever
    surrounds the byte: the per-byte step of [name_hash] loses no information. *)
Theorem name_hash_one_byte (n1 n2 : string) (pre post : list N) (b1 b2 : N) :
  bytes_of n1 = pre ++ b1 :: post -> bytes_of n2 = pre ++ b2 :: post ->
  name_hash n1 = name_hash n2 -> b1 = b2.
Proof.
  intros E1 E2 H. pose proof (bytes_fit n1) as F1. pose proof (bytes_fit n2) as F2.
  rewrite E1 in F1. rewrite E2 in F2.
  apply Forall_app in F1 as [_ F1]. apply Forall_app in F2 as [_ F2].
  inversion F1; inversion F2; subst.
  unfold name_hash in H. rewrite E1, E2, !fold_left_app in H. simpl in H.
  assert (fits 64 (fold_left hash_step pre FNV_OFFSET)) by (by apply fold_hash_fits).
  apply fold_hash_inj in H; [|done|apply hash_step_lt..].
  apply hash_step_inj in H; [|done..]. by apply lxor_cancel_l in H.
Qed.

Lemma name_hash_one_byte_witness :
  bytes_of "map" = [109; 97]%N ++ 112%N :: [] /\ bytes_of "mat" = [109; 97]%N ++ 116%N :: []
  /\ name_hash "map" <> name_hash "mat".
Proof.
  split; [reflexivity|]. split; [reflexivity|]. intros H.
  pose proof (name_hash_one_byte "map" "mat" [109; 97]%N [] 112%N 116%N eq_refl eq_refl H). done.
Defined.

(** An interned name is what the memo prints for its id, every name already
    recorded keeps its spelling, and the memo stays truthful; a name whose hash
    is taken by another spelling is a panic and never a merge. *)
Theorem intern_spec (t : SymbolTable) (n : string) :
  memo_ok t ->
  match intern t n with
  | Some (id, t') =>
      id = name_hash n /\ name_of t' id = Some n /\ memo_ok t' /\
      forall k m, name_of t k = Some m -> name_of t' k = Some m
  | None =>
      name_hash n = SYNTHETIC \/ exists m, m <> n /\ name_of t (name_hash n) = Some m
  end.
Proof.
  intros Hok. unfold intern. case_bool_decide as Hs; [by left|].
  destruct (record_raw t (name_hash n) n) as [t'|] eqn:E; simpl.
  - split; [done|]. split; [unfold name_of; by apply record_raw_lookup in E as [? _]|].
    split; [by eapply record_raw_ok|]. intros k m. by eapply record_raw_mono.
  - right. unfold record_raw in E. unfold name_of.
    destruct (names t !! name_hash n) as [m|]; [|done].
    destruct (String.eqb_spec m n); [done|]. naive_solver.
Qed.

Lemma intern_spec_witness :
  memo_ok new /\ match intern new "map" with
  | Some (id, t') => id = name_hash "map" /\ name_of t' id = Some "map" /\ memo_ok t' /\
      forall k m, name_of new k = Some m -> name_of t' k = Some m
  | None => name_hash "map" = SYNTHETIC \/ exists m, m <> "map" /\ name_of new (name_hash "map") = Some m
  end.
Proof.
  assert (memo_ok new) as H by (intros h n; unfold new; simpl; by rewrite lookup_empty).
  split; [exact H|]. apply (intern_spec new "map" H).
Defined.
