(* ===== verification/SignalRegistry.v ===== *)
(** * The signal registry

    [signals/registry.rs]: the map from signal keywords to bit positions.
    Built-in names sit at their fixed bits, a declared user signal takes the
    next of bits 32 to 63.  The entries are a vector searched in order, as in
    the source; an error is the message's kind.  The process-wide instance and
    its mutex hold one such value and are not modelled further. *)

From stdpp Require Import base numbers list strings.
From Stdlib Require Import HexString.
From S2P Require Import Prelude SignalBits Names.

(** ** Data and operations *)

Record SignalEntry := mkEntry { entry_name : string; bit_position : N }.

#[export] Instance SignalEntry_eq_dec : EqDecision SignalEntry.
Proof. solve_decision. Defined.

Record SignalRegistry := mkRegistry { entries : list SignalEntry; next_user_bit : N }.

Inductive RegistryError := AlreadyRegistered (n : string) | Exhausted (n : string) | BuiltIn (n : string).

#[export] Instance RegistryError_eq_dec : EqDecision RegistryError.
Proof. solve_decision. Defined.

Definition new : SignalRegistry := mkRegistry [] 32.

Definition find_entry (r : SignalRegistry) (name : string) : option SignalEntry :=
  List.find (fun e => String.eqb (entry_name e) name) (entries r).

Definition any_named (r : SignalRegistry) (name : string) : bool :=
  existsb (fun e => String.eqb (entry_name e) name) (entries r).

Definition register_builtin (r : SignalRegistry) (name : string) (pos : N)
    : (RegistryError + N) * SignalRegistry :=
  if any_named r name then (inl (AlreadyRegistered name), r)
  else (inr pos, mkRegistry (entries r ++ [mkEntry name pos]) (next_user_bit r)).

Definition with_builtins : SignalRegistry :=
  fold_left (fun r '(name, sig) => snd (register_builtin r name (trailing_zeros sig)))
    [("error", SIG_ERROR); ("yield", SIG_YIELD); ("debug", SIG_DEBUG); ("ffi", SIG_FFI);
     ("halt", SIG_HALT); ("io", SIG_IO); ("exec", SIG_EXEC); ("fuel", SIG_FUEL);
     ("wait", SIG_WAIT); ("gpu", SIG_GPU); ("os-signal", SIG_OS_SIGNAL); ("fs", SIG_FS);
     ("net", SIG_NET)]
    new.

Definition register (r : SignalRegistry) (name : string) : (RegistryError + N) * SignalRegistry :=
  if any_named r name then (inl (AlreadyRegistered name), r)
  else if (63 <? next_user_bit r)%N then (inl (Exhausted name), r)
  else
    let pos := next_user_bit r in
    (inr pos, mkRegistry (entries r ++ [mkEntry name pos]) (next_user_bit r + 1)).

Definition register_or_get (r : SignalRegistry) (name : string) : (RegistryError + N) * SignalRegistry :=
  match find_entry r name with
  | Some e =>
      if (bit_position e <? 32)%N then (inl (BuiltIn name), r) else (inr (bit_position e), r)
  | None => register r name
  end.

Definition lookup (r : SignalRegistry) (name : string) : option N :=
  bit_position <$> find_entry r name.

Definition to_signal_bits (r : SignalRegistry) (name : string) : option SignalBits :=
  from_bit <$> lookup r name.

Definition bits_for_keyword_hash (r : SignalRegistry) (hash : N) : option SignalBits :=
  (fun e => from_bit (bit_position e)) <$>
    List.find (fun e => (keyword_hash (entry_name e) =? hash)%N) (entries r).

(** [bits_to_keywords]: the payload hashes of the keywords, and the memo with
    each name recorded.  [None] is the memo's collision panic. *)
Fixpoint memo_keywords (names : list string) (memo : option SymbolTable)
    : option (list N * option SymbolTable) :=
  match names with
  | [] => Some ([], memo)
  | n :: rest =>
      memo' ← (match memo with
               | Some m => '(_, m') ← keyword m n; Some (Some m')
               | None => Some None
               end);
      '(ks, memo'') ← memo_keywords rest memo';
      Some (keyword_hash n :: ks, memo'')
  end.

Definition bits_to_keywords (r : SignalRegistry) (b : SignalBits) (memo : option SymbolTable)
    : option (list N * option SymbolTable) :=
  memo_keywords
    (entry_name <$> List.filter (fun e => has_bit b (bit_position e)) (entries r)) memo.

(** [names.join(", ")] *)
Fixpoint join (sep : string) (l : list string) : string :=
  match l with
  | [] => ""
  | [x] => x
  | x :: rest => x +:+ sep +:+ join sep rest
  end.

(** The loop of [format_signal_bits] over the entries: the names met, and the
    bits they account for. *)
Definition format_step (b : SignalBits) (acc : list string * SignalBits) (e : SignalEntry)
    : list string * SignalBits :=
  if has_bit b (bit_position e)
  then (acc.1 ++ [":" +:+ entry_name e], union acc.2 (from_bit (bit_position e)))
  else acc.

Definition format_signal_bits (r : SignalRegistry) (b : SignalBits) : string :=
  let '(names, named) := fold_left (format_step b) (entries r) ([], EMPTY) in
  let unnamed := subtract b named in
  let names := if is_empty unnamed then names else names ++ [HexString.of_N (raw unnamed)] in
  match names with
  | [] => "{}"
  | _ => "{" +:+ join ", " names +:+ "}"
  end.

(** ** The registry invariant *)

Definition user_entry (e : SignalEntry) : bool := (32 <=? bit_position e)%N.

Definition user_entries (r : SignalRegistry) : list SignalEntry := List.filter user_entry (entries r).

Record registry_ok (r : SignalRegistry) : Prop := {
  ok_names : NoDup (entry_name <$> entries r);
  ok_bits : NoDup (bit_position <$> entries r);
  ok_range : Forall (fun e => (bit_position e < 64)%N) (entries r);
  ok_user : Forall (fun e => (bit_position e < next_user_bit r)%N) (entries r);
  ok_next : next_user_bit r = (32 + N.of_nat (length (user_entries r)))%N;
  ok_limit : (next_user_bit r <= 64)%N;
}.

(** ** Lemmas *)

Lemma any_named_spec r n : any_named r n = true <-> exists e, e ∈ entries r /\ entry_name e = n.
Proof.
  unfold any_named. rewrite existsb_exists.
  setoid_rewrite String.eqb_eq. setoid_rewrite <- list_elem_of_In. done.
Qed.

Lemma find_entry_Some r n e : find_entry r n = Some e -> e ∈ entries r /\ entry_name e = n.
Proof.
  intros H. apply find_some in H as [H1 H2]. apply String.eqb_eq in H2.
  by apply list_elem_of_In in H1.
Qed.

Lemma find_entry_None r n : find_entry r n = None <-> any_named r n = false.
Proof.
  unfold find_entry, any_named. induction (entries r) as [|e l IH]; simpl; [done|].
  by destruct (String.eqb (entry_name e) n).
Qed.

Lemma find_entry_In r e : NoDup (entry_name <$> entries r) -> e ∈ entries r ->
  find_entry r (entry_name e) = Some e.
Proof.
  unfold find_entry. induction (entries r) as [|x l IH]; intros Hnd Hin; [by apply elem_of_nil in Hin|].
  simpl. rewrite fmap_cons in Hnd. apply NoDup_cons in Hnd as [Hx Hnd].
  apply elem_of_cons in Hin as [->|Hin]; [by rewrite String.eqb_refl|].
  destruct (String.eqb_spec (entry_name x) (entry_name e)) as [E|]; [|by apply IH].
  destruct Hx. rewrite E. by apply list_elem_of_fmap_2.
Qed.

Lemma registry_bit_unique r e1 e2 :
  registry_ok r -> e1 ∈ entries r -> e2 ∈ entries r -> bit_position e1 = bit_position e2 -> e1 = e2.
Proof.
  intros [_ Hb _ _ _ _] H1 H2 E.
  apply list_elem_of_lookup in H1 as [i Hi]. apply list_elem_of_lookup in H2 as [j Hj].
  assert (i = j) as ->.
  { eapply (NoDup_lookup (bit_position <$> entries r)); [done| |];
      rewrite list_lookup_fmap, ?Hi, ?Hj; simpl; rewrite ?E; done. }
  congruence.
Qed.

Lemma NoDup_snoc {A} (l : list A) x : NoDup (l ++ [x]) <-> NoDup l /\ x ∉ l.
Proof.
  rewrite NoDup_app. split.
  - intros (H1 & H2 & _). split; [done|]. intros Hx. apply (H2 x Hx). by apply list_elem_of_singleton.
  - intros [H1 H2]. split; [done|]. split; [|apply NoDup_singleton].
    intros y Hy Hs. apply list_elem_of_singleton in Hs as ->. done.
Qed.

Lemma registry_ok_push r e next :
  registry_ok r -> any_named r (entry_name e) = false ->
  bit_position e ∉ (bit_position <$> entries r) -> (bit_position e < next <= 64)%N ->
  (next_user_bit r <= next)%N ->
  next = (32 + N.of_nat (length (List.filter user_entry (entries r ++ [e]))))%N ->
  registry_ok (mkRegistry (entries r ++ [e]) next).
Proof.
  intros [Hn Hb Hr Hu _ _] Hany Hbit [Hlt Hle] Hmono Hnext. split; simpl.
  - rewrite fmap_app. apply NoDup_snoc. split; [done|]. intros Hin.
    apply list_elem_of_fmap in Hin as (x & Hx & Hin). apply not_true_iff_false in Hany.
    apply Hany, any_named_spec. eauto.
  - rewrite fmap_app. by apply NoDup_snoc.
  - apply Forall_app. split; [done|]. apply Forall_singleton. lia.
  - apply Forall_app. split; [|by apply Forall_singleton].
    eapply Forall_impl; [exact Hu|]. simpl. intros x Hx. lia.
  - done.
  - done.
Qed.

Lemma user_entries_snoc l e :
  length (List.filter user_entry (l ++ [e])) =
  length (List.filter user_entry l) + (if user_entry e then 1 else 0).
Proof. rewrite List.filter_app, length_app. simpl. by destruct (user_entry e). Qed.

Lemma register_ok_fresh r name :
  registry_ok r -> any_named r name = false -> (next_user_bit r <= 63)%N ->
  registry_ok (mkRegistry (entries r ++ [mkEntry name (next_user_bit r)]) (next_user_bit r + 1)).
Proof.
  intros Hok Hany Hlim. pose proof Hok as [_ _ _ Hu Hnext _].
  apply registry_ok_push; simpl; try done; try lia.
  - intros Hin. apply list_elem_of_fmap in Hin as (x & Hx & Hin).
    eapply Forall_forall in Hu; [|exact Hin]. simpl in Hu. lia.
  - rewrite user_entries_snoc. unfold user_entries in Hnext.
    assert (user_entry (mkEntry name (next_user_bit r)) = true) as ->.
    { unfold user_entry. simpl. apply N.leb_le. lia. }
    lia.
Qed.

Lemma with_builtins_ok : registry_ok with_builtins.
Proof.
  split; try (vm_compute; done).
  - apply (bool_decide_unpack _). vm_compute. done.
  - apply (bool_decide_unpack _). vm_compute. done.
  - apply (bool_decide_unpack _). vm_compute. done.
  - apply (bool_decide_unpack _). vm_compute. done.
Qed.

#[export] Hint Resolve with_builtins_ok : elle.

Lemma lookup_In r e : registry_ok r -> e ∈ entries r -> lookup r (entry_name e) = Some (bit_position e).
Proof. intros Hok Hin. unfold lookup. rewrite find_entry_In; [done|apply Hok|done]. Qed.

Lemma filter_bit r e :
  registry_ok r -> e ∈ entries r ->
  List.filter (fun x => has_bit (from_bit (bit_position e)) (bit_position x)) (entries r) = [e].
Proof.
  intros Hok Hin. pose proof Hok as [Hn _ Hr _ _ _].
  assert (forall x, x ∈ entries r -> has_bit (from_bit (bit_position e)) (bit_position x) = true <-> x = e) as Hx.
  { intros x Hx. rewrite Forall_forall in Hr.
    rewrite has_bit_spec, mem_from_bit by (apply Hr; done). split; [|by intros ->].
    intros E. by apply (registry_bit_unique r). }
  apply NoDup_fmap_1 in Hn. revert Hn Hin Hx. clear.
  induction (entries r) as [|x l IH]; intros Hnd Hin Hx; [by apply elem_of_nil in Hin|].
  apply NoDup_cons in Hnd as [Hnx Hnd]. simpl.
  apply elem_of_cons in Hin as [->|Hin].
  - rewrite (proj2 (Hx x (list_elem_of_here _ _)) eq_refl). f_equal.
    assert (forall y, y ∈ l -> has_bit (from_bit (bit_position x)) (bit_position y) = false) as Hf.
    { intros y Hy. apply not_true_iff_false. rewrite Hx by (by apply list_elem_of_further). congruence. }
    clear -Hf. induction l as [|y l IH]; [done|]. simpl.
    rewrite Hf by apply list_elem_of_here. apply IH. intros z Hz. apply Hf. by apply list_elem_of_further.
  - destruct (has_bit (from_bit (bit_position e)) (bit_position x)) eqn:E.
    + apply Hx in E as ->; [done|apply list_elem_of_here].
    + apply IH; [done|done|]. intros y Hy. apply Hx. by apply list_elem_of_further.
Qed.

(** The loop of [format_signal_bits]: the names are empty exactly when no
    entry's bit is set, and the accounted bits are those of the entries met. *)
Lemma format_fold b l names named :
  let '(names', named') := fold_left (format_step b) l (names, named) in
  (names' = [] <-> names = [] /\ Forall (fun e => has_bit b (bit_position e) = false) l) /\
  (Forall (fun e => has_bit b (bit_position e) = false) l -> named' = named).
Proof.
  revert names named. induction l as [|e l IH]; intros names named; simpl.
  - rewrite Forall_nil. naive_solver.
  - unfold format_step at 2. destruct (has_bit b (bit_position e)) eqn:E; simpl.
    + specialize (IH (names ++ [":" +:+ entry_name e]) (union named (from_bit (bit_position e)))).
      destruct (fold_left _ _ _) as [names' named']. destruct IH as [IH1 IH2].
      rewrite Forall_cons. split; [|intros [H _]; congruence]. rewrite IH1. split.
      * intros [H _]. by apply app_eq_nil in H as [_ H].
      * intros (_ & H & _). congruence.
    + specialize (IH names named). destruct (fold_left _ _ _) as [names' named']. destruct IH as [IH1 IH2].
      rewrite Forall_cons. split; [rewrite IH1; tauto|]. intros [_ H]. by apply IH2.
Qed.

Lemma format_names_nonempty b l names named :
  Forall (fun s => s <> "") names -> Forall (fun s => s <> "") (fold_left (format_step b) l (names, named)).1.
Proof.
  revert names named. induction l as [|e l IH]; intros names named H; [done|].
  simpl. unfold format_step at 2. destruct (has_bit b (bit_position e)); apply IH; [|done].
  simpl. apply Forall_app. split; [done|]. by apply Forall_singleton.
Qed.

(** ** Properties *)

(** Declaring a signal, on every branch.  The registry invariant (distinct
    names, distinct bits, user bits allotted from 32 upward) is kept.  A built-in
    name is refused, a user name answers the bit it already has, and a fresh
    name takes the next bit and is found there afterwards; the 33rd is refused
    and changes nothing. *)
Theorem register_or_get_spec (r : SignalRegistry) (name : string) :
  registry_ok r ->
  let '(res, r') := register_or_get r name in
  registry_ok r' /\
  (forall n pos, lookup r n = Some pos -> lookup r' n = Some pos) /\
  match res with
  | inr pos => (32 <= pos < 64)%N /\ lookup r' name = Some pos /\
      (lookup r name = None -> length (user_entries r) < 32 /\
         pos = (32 + N.of_nat (length (user_entries r)))%N)
  | inl (BuiltIn _) => r' = r /\ exists pos, lookup r name = Some pos /\ (pos < 32)%N
  | inl (Exhausted _) => r' = r /\ lookup r name = None /\ length (user_entries r) = 32
  | inl (AlreadyRegistered _) => False
  end.
Proof.
  intros Hok. pose proof Hok as [_ _ Hr _ Hnext Hlim]. unfold register_or_get, lookup.
  destruct (find_entry r name) as [e|] eqn:E.
  - pose proof (find_entry_Some _ _ _ E) as [Hin _]. rewrite Forall_forall in Hr. specialize (Hr _ Hin).
    destruct (N.ltb_spec (bit_position e) 32).
    + split_and!; [done|naive_solver|done|]. simpl. eauto.
    + rewrite E. split_and!; [done|naive_solver|lia|lia|done|done].
  - unfold register. pose proof E as Hany. apply find_entry_None in Hany. rewrite Hany.
    destruct (N.ltb_spec 63 (next_user_bit r)) as [Hx|Hx].
    + split_and!; [done|naive_solver|done|done|]. unfold user_entries in *. lia.
    + pose proof (register_ok_fresh r name Hok Hany Hx) as Hok'. split; [done|]. split.
      * intros n pos Hn. destruct (find_entry r n) as [e|] eqn:En; [|done]. simpl in Hn.
        apply find_entry_Some in En as [Hin <-].
        rewrite (find_entry_In _ e); [done|apply Hok'|]. simpl. apply elem_of_app. by left.
      * split; [lia|]. split; [|intros _; unfold user_entries in *; lia].
        pose proof (find_entry_In _ (mkEntry name (next_user_bit r)) (ok_names _ Hok')) as F.
        simpl in F. rewrite F; [done|]. apply elem_of_app. right. by apply list_elem_of_singleton.
Qed.

Lemma register_or_get_spec_witness :
  registry_ok with_builtins /\
  exists r', register_or_get with_builtins "tick" = (inr 32%N, r') /\ lookup r' "tick" = Some 32%N.
Proof.
  split; [exact with_builtins_ok|].
  pose proof (register_or_get_spec with_builtins "tick" with_builtins_ok) as H.
  destruct (register_or_get with_builtins "tick") as [res r'] eqn:E.
  assert (res = inr 32%N) as -> by (change res with (fst (res, r')); rewrite <- E; vm_compute; reflexivity).
  exists r'. split; [reflexivity|]. apply H.
Defined.

(** A registered name round-trips through the bits: the word its keyword
    resolves to converts back to that one keyword, whatever else is registered. *)
Theorem keyword_bits_roundtrip (r : SignalRegistry) (name : string) (b : SignalBits) :
  registry_ok r -> to_signal_bits r name = Some b ->
  bits_to_keywords r b None = Some ([keyword_hash name], None).
Proof.
  intros Hok H. unfold to_signal_bits, lookup in H.
  destruct (find_entry r name) as [e|] eqn:E; [|done]. simpl in H. injection H as <-.
  apply find_entry_Some in E as [Hin <-]. unfold bits_to_keywords.
  rewrite filter_bit by done. reflexivity.
Qed.

Lemma keyword_bits_roundtrip_witness :
  to_signal_bits with_builtins "io" = Some SIG_IO /\
  bits_to_keywords with_builtins SIG_IO None = Some ([keyword_hash "io"], None).
Proof.
  assert (to_signal_bits with_builtins "io" = Some SIG_IO) as H by reflexivity.
  split; [exact H|]. apply (keyword_bits_roundtrip with_builtins "io" SIG_IO with_builtins_ok H).
Defined.

(** An error message never reads as [{}] for a signal that is not empty:
    [format_signal_bits] prints [{}] exactly for the empty word, VM-internal
    and unregistered bits included. *)
Theorem format_empty_iff (r : SignalRegistry) (b : SignalBits) :
  registry_ok r -> wf_bits b -> format_signal_bits r b = "{}" <-> b = EMPTY.
Proof.
  intros Hok Hwf. unfold format_signal_bits.
  pose proof (format_fold b (entries r) [] EMPTY) as Hf.
  destruct (fold_left _ _ _) as [names named] eqn:Ef. destruct Hf as [Hf1 Hf2].
  split.
  - intros H. apply is_empty_eq. destruct (is_empty b) eqn:Eb; [done|]. exfalso.
    set (names' := if is_empty (subtract b named) then names else _) in H.
    assert (names' <> []) as Hne.
    { unfold names'. destruct (is_empty (subtract b named)) eqn:Es; [|by destruct names].
      rewrite Hf1. intros [_ Hall]. rewrite (Hf2 Hall) in Es.
      rewrite is_empty_spec in Es. apply is_empty_false in Eb as [i Hi].
      apply (Es i). rewrite mem_subtract by done. rewrite mem_EMPTY. naive_solver. }
    destruct names' as [|x l] eqn:El; [done|].
    assert (x <> "") as Hx.
    { assert (Forall (fun s => s <> "") (x :: l)) as Hall; [|by apply Forall_cons in Hall as [? _]].
      rewrite <- El. unfold names'. pose proof (format_names_nonempty b (entries r) [] EMPTY) as Hn.
      rewrite Ef in Hn. destruct (is_empty _); [by apply Hn|].
      apply Forall_app. split; [by apply Hn|]. apply Forall_singleton. unfold HexString.of_N.
      by destruct (raw _). }
    destruct x as [|a x]; [done|].
    destruct l; simpl in H; injection H as _ H; destruct x; discriminate.
  - intros ->. assert (Forall (fun e => has_bit EMPTY (bit_position e) = false) (entries r)) as Hall.
    { apply Forall_forall. intros e _. unfold has_bit. by rewrite N.land_0_l. }
    rewrite (Hf2 Hall). change (is_empty (subtract EMPTY EMPTY)) with true. simpl.
    by rewrite (proj2 Hf1 (conj eq_refl Hall)).
Qed.

Lemma format_empty_iff_witness :
  format_signal_bits with_builtins SIG_RESUME = "{0x8}" /\ format_signal_bits with_builtins SIG_RESUME <> "{}".
Proof.
  split; [reflexivity|]. intros H.
  apply (format_empty_iff with_builtins SIG_RESUME with_builtins_ok) in H; [discriminate|reflexivity].
Defined.
