(* ===== verification/Fuel.v ===== *)
(** * Instruction budgets and the kill word

    [value/fiber/fuel.rs]: a fiber's fuel is one 64-bit word, a budget when it
    is at most [i64::MAX] and no budget above it; the kill word ends a fiber
    whose budget is below it.  [VM::charge_fuel] of
    [vm/dispatch/interp/opcodes.rs] is the charge every backward jump and call
    makes, and [primitives/fibers/fuel.rs] the program's access to the word. *)

From stdpp Require Import base numbers list.
From S2P Require Import Prelude SignalBits Signal.

(** ** Words *)

Record Fuel := mkFuel { word : N }.

#[export] Instance Fuel_eq_dec : EqDecision Fuel.
Proof. solve_decision. Defined.

Record KillSwitch := mkKill { kill_word : N }.

Definition SLACK : N := 0.
Definition PULLED : N := u64_max.

Definition KillSwitch_new : KillSwitch := mkKill SLACK.
Definition pull (k : KillSwitch) : KillSwitch := mkKill PULLED.
Definition limit (k : KillSwitch) : N := kill_word k.
Definition pulled (k : KillSwitch) : bool := (limit k =? PULLED)%N.

Definition LARGEST : N := 2 ^ 63 - 1.
Definition UNMETERED : N := N.shiftl 1 63 + N.shiftl 1 62.

Definition is_below (f : Fuel) (lim : N) : bool := (word f <? lim)%N.
Definition unmetered : Fuel := mkFuel UNMETERED.
Definition budget (n : N) : option Fuel := if (n <=? LARGEST)%N then Some (mkFuel n) else None.
Definition remaining (f : Fuel) : option N := if (word f <=? LARGEST)%N then Some (word f) else None.
Definition is_metered (f : Fuel) : bool := (word f <=? LARGEST)%N.

(** [self.0 -= u64::from(self.0 != 0)] *)
Definition spend (f : Fuel) : Fuel := mkFuel (word f - (if (word f =? 0)%N then 0 else 1)).

Definition charge (f : Fuel) : bool * Fuel :=
  if (word f =? 0)%N then (false, f) else (true, mkFuel (word f - 1)).

(** ** The charge site *)

Inductive ChargeExit := Killed | Paused (b : SignalBits).

(** [charge_fuel]: [None] when the instruction may run. *)
Definition charge_fuel (k : KillSwitch) (code_signal : Signal) (f : Fuel) : option ChargeExit * Fuel :=
  if is_below f (limit k) then (Some Killed, f)
  else if is_metered f && is_silent code_signal then (None, spend f)
  else
    let '(ok, f') := charge f in
    if ok then (None, f') else (Some (Paused SIG_FUEL), f').

(** A run of charge sites, each made by a function with the given signal, that
    ends at the first refused charge: the sites passed, and the refusal. *)
Fixpoint run_charges (k : KillSwitch) (sites : list Signal) (f : Fuel) : nat * option ChargeExit * Fuel :=
  match sites with
  | [] => (0, None, f)
  | s :: rest =>
      match charge_fuel k s f with
      | (Some x, f') => (0, Some x, f')
      | (None, f') => let '(n, x, f'') := run_charges k rest f' in (S n, x, f'')
      end
  end.

(** ** The fuel primitives (primitives/fibers/fuel.rs) *)

Inductive SetFuelError := NotNonNegative | NotInteger.

(** [fiber/set-fuel]: the second argument as [as_int] reads it. *)
Definition set_fuel (f : Fuel) (arg : option Z) : (SetFuelError + unit) * Fuel :=
  match arg with
  | Some n =>
      if (0 <=? n)%Z
      then match budget (Z.to_N n) with Some f' => (inr tt, f') | None => (inl NotNonNegative, f) end
      else (inl NotNonNegative, f)
  | None => (inl NotInteger, f)
  end.

Definition fiber_fuel (f : Fuel) : option Z := Z.of_N <$> remaining f.

Definition clear_fuel (f : Fuel) : Fuel := unmetered.

(** ** Lemmas *)

(** The words a fiber can hold: a budget, or an unmetered word that has been
    charged at most 2^62 times. *)
Definition reachable (f : Fuel) : Prop := (word f <= UNMETERED)%N.

Lemma unmetered_lt_pulled f : reachable f -> (word f < PULLED)%N.
Proof. unfold reachable. intros H. eapply N.le_lt_trans; [exact H|]. reflexivity. Qed.

Lemma charge_fuel_reachable k s f x f' : charge_fuel k s f = (x, f') -> reachable f -> reachable f'.
Proof.
  unfold charge_fuel, charge, spend, reachable. intros H Hr.
  destruct (is_below f (limit k)); [naive_solver|].
  destruct (is_metered f && is_silent s); [injection H as <- <-; simpl; destruct (word f =? 0)%N; lia|].
  destruct (word f =? 0)%N; simplify_eq; simpl; lia.
Qed.

Lemma is_below_slack f : is_below f SLACK = false.
Proof. unfold is_below, SLACK. apply N.ltb_ge. lia. Qed.

(** ** Properties *)

(** With nobody killing it, a fiber with a budget of [n] units passes
    exactly [n] charge sites of functions that may pause, and then pauses with
    [:fuel] at the next one, having spent the budget exactly. *)
Theorem budget_is_exact (n : nat) (sites : list Signal) :
  (N.of_nat n <= LARGEST)%N -> Forall (fun s => is_silent s = false) sites ->
  run_charges KillSwitch_new sites (mkFuel (N.of_nat n)) =
    if length sites <=? n
    then (length sites, None, mkFuel (N.of_nat (n - length sites)))
    else (n, Some (Paused SIG_FUEL), mkFuel 0).
Proof.
  intros Hn Hs. revert n Hn. induction Hs as [|s sites Hs _ IH]; intros n Hn; simpl.
  - by rewrite Nat.sub_0_r.
  - unfold charge_fuel. simpl limit. rewrite is_below_slack, Hs, andb_false_r.
    destruct n as [|n]; [done|]. unfold charge. simpl word.
    destruct (N.eqb_spec (N.of_nat (S n)) 0) as [|_]; [lia|].
    replace (N.of_nat (S n) - 1)%N with (N.of_nat n) by lia.
    rewrite IH by lia. simpl. by destruct (length sites <=? n).
Qed.

Lemma budget_is_exact_witness :
  run_charges KillSwitch_new [errors; yields; errors] (mkFuel 2) = (2, Some (Paused SIG_FUEL), mkFuel 0).
Proof.
  apply (budget_is_exact 2 [errors; yields; errors]).
  - vm_compute. discriminate.
  - repeat constructor.
Defined.

(** A silent function never pauses on fuel and never underflows the word:
    any run of its charge sites on a metered fiber passes, taking one unit per
    site until none is left. *)
Theorem silent_never_pauses (f : Fuel) (sites : list Signal) :
  is_metered f = true -> Forall (fun s => is_silent s = true) sites ->
  run_charges KillSwitch_new sites f = (length sites, None, mkFuel (word f - N.of_nat (length sites))).
Proof.
  intros Hm Hs. revert f Hm. induction Hs as [|s sites Hs _ IH]; intros [w] Hm; simpl.
  - by rewrite N.sub_0_r.
  - unfold charge_fuel. simpl limit. rewrite is_below_slack, Hm, Hs. simpl.
    rewrite IH.
    + unfold spend. simpl. do 2 f_equal. destruct (N.eqb_spec w 0); lia.
    + unfold is_metered, spend in *. simpl in *. apply N.leb_le in Hm. apply N.leb_le.
      destruct (N.eqb_spec w 0); lia.
Qed.

Lemma silent_never_pauses_witness :
  run_charges KillSwitch_new [silent; silent; silent] (mkFuel 1) = (3, None, mkFuel 0).
Proof.
  apply (silent_never_pauses (mkFuel 1) [silent; silent; silent]).
  - reflexivity.
  - repeat constructor.
Defined.

(** A pulled kill switch ends the fiber at its very next charge, whatever
    word it holds and whatever function charges, and takes no fuel; a slack
    switch never kills. *)
Theorem kill_switch_exact (f : Fuel) (s : Signal) (sites : list Signal) :
  reachable f ->
  run_charges (pull KillSwitch_new) (s :: sites) f = (0, Some Killed, f) /\
  (run_charges KillSwitch_new (s :: sites) f).1.2 <> Some Killed.
Proof.
  intros Hr. split.
  - assert (is_below f PULLED = true) as Hb by (by apply N.ltb_lt, unmetered_lt_pulled).
    cbn [run_charges]. unfold charge_fuel. change (limit (pull KillSwitch_new)) with PULLED.
    by rewrite Hb.
  - generalize (s :: sites) as l. intros l. clear Hr s sites. revert f.
    induction l as [|s l IH]; intros f; simpl; [done|].
    unfold charge_fuel. simpl limit. rewrite is_below_slack.
    destruct (is_metered f && is_silent s).
    + specialize (IH (spend f)). by destruct (run_charges _ _ _) as [[??]?].
    + unfold charge. destruct (word f =? 0)%N; [done|].
      specialize (IH (mkFuel (word f - 1))). by destruct (run_charges _ _ _) as [[??]?].
Qed.

Lemma kill_switch_exact_witness :
  run_charges (pull KillSwitch_new) [silent] unmetered = (0, Some Killed, unmetered).
Proof. apply (kill_switch_exact unmetered silent []). unfold reachable. apply N.le_refl. Defined.

(** What a program sets is what it reads back: [fiber/set-fuel] with any
    non-negative 64-bit integer never reaches the [expect] that would panic, and
    [fiber/fuel] then answers that integer; clearing it answers [nil]. *)
Theorem set_fuel_roundtrip (f : Fuel) (n : Z) :
  (- 2 ^ 63 <= n < 2 ^ 63)%Z ->
  fiber_fuel (clear_fuel f) = None /\
  if (0 <=? n)%Z
  then exists f', set_fuel f (Some n) = (inr tt, f') /\ fiber_fuel f' = Some n
  else set_fuel f (Some n) = (inl NotNonNegative, f).
Proof.
  intros Hn. split; [reflexivity|]. unfold set_fuel.
  destruct (Z.leb_spec 0 n) as [H0|H0]; [|done].
  assert (budget (Z.to_N n) = Some (mkFuel (Z.to_N n))) as ->.
  { unfold budget, LARGEST. rewrite (proj2 (N.leb_le _ _)); [done|]. lia. }
  eexists. split; [reflexivity|]. unfold fiber_fuel, remaining, LARGEST. simpl word.
  rewrite (proj2 (N.leb_le _ _)) by lia. simpl. f_equal. lia.
Qed.

Lemma set_fuel_roundtrip_witness :
  fiber_fuel (clear_fuel unmetered) = None /\
  exists f', set_fuel unmetered (Some 100%Z) = (inr tt, f') /\ fiber_fuel f' = Some 100%Z.
Proof. apply (set_fuel_roundtrip unmetered 100). lia. Defined.
