(* ===== verification/Regions.v ===== *)
(** * Draining a worklist

    The region store frees, collects and rescues with explicit stacks instead
    of native recursion: pop an item, act on the state, push follow-up items.
    [drain] is that loop with the top of the stack at the head of the list; a
    Rust [push]/[extend] of [new] puts its last element on top, so the new
    items go on reversed.  A potential that pays for every pushed item bounds
    the number of iterations ([drain_enough]), which makes the fuelled loop the
    total function [drained].  The store itself follows. *)

From stdpp Require Import base list option gmap fin_maps numbers sets.
From S2P Require Import Prelude.

Section Drain.
Context {S A : Type} (step : S -> A -> S * list A).

Fixpoint drain (fuel : nat) (s : S) (stack : list A) : option S :=
  match stack, fuel with
  | [], _ => Some s
  | _ :: _, O => None
  | x :: rest, Datatypes.S f => let '(s', new) := step s x in drain f s' (rev new ++ rest)
  end.

(** The loop run with the fuel a potential [phi] pays for. *)
Definition drained (phi : S -> nat) (s : S) (stack : list A) : S :=
  default s (drain (length stack + phi s) s stack).

Context (I : S -> list A -> Prop).

(** An invariant of one iteration is an invariant of the loop. *)
Lemma drain_inv fuel s stack s' :
  (forall s x rest s1 new, I s (x :: rest) -> step s x = (s1, new) -> I s1 (rev new ++ rest)) ->
  I s stack -> drain fuel s stack = Some s' -> I s' [].
Proof.
  intros Hstep. revert s stack. induction fuel as [|f IH]; intros s [|x rest] HI; simpl; try done.
  - by intros [= ->].
  - by intros [= ->].
  - destruct (step s x) as [s1 new] eqn:E. intros Hd. eapply IH; [|exact Hd]. by eapply Hstep.
Qed.

(** If the potential pays for every push, the loop ends within its fuel. *)
Lemma drain_enough (phi : S -> nat) fuel s stack :
  (forall s x rest s1 new, I s (x :: rest) -> step s x = (s1, new) -> I s1 (rev new ++ rest)) ->
  (forall s x rest s1 new, I s (x :: rest) -> step s x = (s1, new) -> length new + phi s1 <= phi s) ->
  I s stack -> length stack + phi s <= fuel ->
  exists s', drain fuel s stack = Some s'.
Proof.
  intros Hstep Hphi. revert s stack.
  induction fuel as [|f IH]; intros s [|x rest] HI Hlen; simpl in *; eauto; [lia|].
  destruct (step s x) as [s1 new] eqn:E. apply IH; [by eapply Hstep|].
  pose proof (Hphi _ _ _ _ _ HI E). rewrite length_app, length_rev. lia.
Qed.

(** More fuel does not change a result. *)
Lemma drain_mono f1 f2 s stack s' : f1 <= f2 -> drain f1 s stack = Some s' -> drain f2 s stack = Some s'.
Proof.
  revert f2 s stack. induction f1 as [|f1 IH]; intros f2 s [|x rest] Hle; simpl; try done.
  - by destruct f2.
  - by destruct f2.
  - destruct f2 as [|f2]; [lia|]. simpl. destruct (step s x). apply IH. lia.
Qed.

Lemma drained_spec (phi : S -> nat) s stack :
  (forall s x rest s1 new, I s (x :: rest) -> step s x = (s1, new) -> I s1 (rev new ++ rest)) ->
  (forall s x rest s1 new, I s (x :: rest) -> step s x = (s1, new) -> length new + phi s1 <= phi s) ->
  I s stack ->
  drain (length stack + phi s) s stack = Some (drained phi s stack) /\ I (drained phi s stack) [].
Proof.
  intros Hstep Hphi HI.
  destruct (drain_enough phi (length stack + phi s) s stack Hstep Hphi HI) as [s' Hs']; [lia|].
  unfold drained. rewrite Hs'. simpl. split; [done|].
  eapply drain_inv; [exact Hstep|exact HI|exact Hs'].
Qed.

End Drain.

(** ** Weighing a finite map

    The potentials of the loops are sums over the live regions. *)


Section Weight.
Context {K V : Type} `{Countable K} (w : V -> nat).

Definition weight (m : gmap K V) : nat := map_fold (fun _ e acc => w e + acc) 0 m.

Lemma weight_empty : weight ∅ = 0.
Proof. apply map_fold_empty. Qed.

Lemma weight_insert m k e : m !! k = None -> weight (<[k:=e]> m) = w e + weight m.
Proof. intros Hk. unfold weight. rewrite map_fold_insert_L; [done| |done]. intros; lia. Qed.

Lemma weight_delete m k e : m !! k = Some e -> weight m = w e + weight (delete k m).
Proof.
  intros Hk. rewrite <- (insert_delete_id m k e Hk) at 1. apply weight_insert. apply lookup_delete_eq.
Qed.

Lemma weight_delete_le m k : weight (delete k m) <= weight m.
Proof.
  destruct (m !! k) as [e|] eqn:E.
  - rewrite (weight_delete m k e E). lia.
  - by rewrite delete_id.
Qed.

Lemma weight_le (m1 m2 : gmap K V) :
  (forall k e, m1 !! k = Some e -> exists e', m2 !! k = Some e' /\ w e <= w e') ->
  weight m1 <= weight m2.
Proof.
  revert m2. induction m1 as [|k e m Hk IH] using map_ind; intros m2 Hle.
  - rewrite weight_empty. lia.
  - rewrite weight_insert by done.
    destruct (Hle k e) as (e' & Hk' & Hw); [by rewrite lookup_insert_eq|].
    rewrite (weight_delete m2 k e' Hk').
    assert (weight m <= weight (delete k m2)); [|lia].
    apply IH. intros k2 e2 Hk2. assert (k2 <> k) by congruence.
    rewrite lookup_delete_ne by done. apply Hle. by rewrite lookup_insert_ne.
Qed.

End Weight.

(** * The region store: data and operations

    [value/fiberheap/regionstore.rs] and its children: the table of mortal
    regions a fiber heap keeps, with reference counts, the ownership forest,
    the recorded content edges and the wholesale free.

    The definitions follow the release build: [debug_assert!] is compiled out
    and [u32] arithmetic that is neither [saturating_] nor [wrapping_] wraps.
    An [assert!], [expect] or [unwrap] that fails is [None].  The [u64]
    reclamation counters are unbounded [N]: each call moves them by at most the
    size of the heap, so no run is long enough to wrap one.  Tracing, the
    free log, the process-wide statistics and the page cache are left out.

    - [regions : Vec<Option<RegionEntry>>] is a finite map with the length of
      the vector beside it; [generations : Vec<u32>] likewise, a slot below the
      length that was never bumped holding 0.
    - [free_physical] is a stack: its top is the head of the list.
    - A heap pointer is named by the claim of the page it points into: the
      region that claimed the page and the [(generation, store)] stamp of that
      claim.  A pool owns exactly the pages of its own claim.
    - The iteration order of a [FxHashMap] is the parameter [EdgeOrder]. *)

(** ** Data *)

(** [RuntimeRegion::new]: ids 0 and 1 are reserved. *)
Definition RuntimeRegion_new (id : N) : option N := if (id <? 2)%N then None else Some id.

Record PageStamp := mkStamp { generation : N; store : N }.

#[export] Instance PageStamp_eq_dec : EqDecision PageStamp.
Proof. solve_decision. Defined.

Record Ptr := mkPtr { ptr_region : N; ptr_stamp : PageStamp }.

#[export] Instance Ptr_eq_dec : EqDecision Ptr.
Proof. solve_decision. Defined.

(** An activation-map entry: a region and its generation at the mapping. *)
Record MappedRegion := mkMapped { mapped : N; mapped_gen : N }.

(** What a parked fiber strands: [ParkedDues], the fiber's owner node, the
    parked signal's value and the value the discharge must leave standing. *)
Record ParkedState := mkParked {
  nodes : list N;
  deferred : list N;
  fiber_owner_node : option N;
  protect : option Ptr;
  owed : list Ptr;
  owed_regions : list MappedRegion;
  parked_signal : option Ptr }.

(** A heap object, as the store reads it: the heap pointers
    [find_object_cross_refs] checks, in its order, whether its tag needs a
    drop or holds values, and for a [Fiber] that is not executing, its parked
    state. *)
Record HeapObject := mkObj {
  obj_refs : list Ptr;
  needs_drop : bool;
  holds_value_refs : bool;
  obj_fiber : option ParkedState }.

(** [RegionPool]: the claim its pages carry, the number of pages, the object
    count and the two tracked object lists. *)
Record RegionPool := mkPool {
  pool_id : N;
  pool_stamp : PageStamp;
  pages : N;
  obj_count : N;
  dtors : list HeapObject;
  ref_objs : list HeapObject;
  image : bool }.

Inductive Reclaim :=
| Counted (rc : N)
| Owned (owner : N).

Record RegionEntry := mkEntry {
  pool : RegionPool;
  reclaim : Reclaim;
  owned_children : list N;
  outgoing : gmap N N;
  incoming : gmap N N }.

(** [RegionEntry::count] *)
Definition count (e : RegionEntry) : N :=
  match reclaim e with Counted rc => rc | Owned _ => 0%N end.

Record RegionMint := mkMint { region : N; gen : N }.

Record ReclaimCounters := mkCounters {
  region_frees : N; page_frees : N; object_frees : N; one_page_frees : N;
  empty_frees : N; one_object_frees : N; few_object_frees : N; many_object_frees : N;
  adopts : N; adopts_into_empty : N;
  owned_frees : N; owned_free_pages : N; owned_free_objects : N; owned_one_page_frees : N;
  rescues : N; rescue_survivors : N; extracts : N; reparents : N }.

Record RegionStore := mkStore {
  regions : gmap N RegionEntry;
  table_len : N;
  next_physical : N;
  free_physical : list N;
  generations : gmap N N;
  gen_len : N;
  store_id : N;
  mint_log : option (list (N * N));
  over_frees : N;
  counters : ReclaimCounters;
  images : list N }.

(** Field updates. *)
Definition set_pool (e : RegionEntry) (p : RegionPool) : RegionEntry :=
  mkEntry p (reclaim e) (owned_children e) (outgoing e) (incoming e).
Definition set_reclaim (e : RegionEntry) (r : Reclaim) : RegionEntry :=
  mkEntry (pool e) r (owned_children e) (outgoing e) (incoming e).
Definition set_children (e : RegionEntry) (l : list N) : RegionEntry :=
  mkEntry (pool e) (reclaim e) l (outgoing e) (incoming e).
Definition set_outgoing (e : RegionEntry) (m : gmap N N) : RegionEntry :=
  mkEntry (pool e) (reclaim e) (owned_children e) m (incoming e).
Definition set_incoming (e : RegionEntry) (m : gmap N N) : RegionEntry :=
  mkEntry (pool e) (reclaim e) (owned_children e) (outgoing e) m.

Definition with_regions (s : RegionStore) (m : gmap N RegionEntry) : RegionStore :=
  mkStore m (table_len s) (next_physical s) (free_physical s) (generations s) (gen_len s)
    (store_id s) (mint_log s) (over_frees s) (counters s) (images s).
Definition with_counters (s : RegionStore) (c : ReclaimCounters) : RegionStore :=
  mkStore (regions s) (table_len s) (next_physical s) (free_physical s) (generations s) (gen_len s)
    (store_id s) (mint_log s) (over_frees s) c (images s).
Definition with_over_frees (s : RegionStore) (n : N) : RegionStore :=
  mkStore (regions s) (table_len s) (next_physical s) (free_physical s) (generations s) (gen_len s)
    (store_id s) (mint_log s) n (counters s) (images s).
Definition with_mint_log (s : RegionStore) (l : option (list (N * N))) : RegionStore :=
  mkStore (regions s) (table_len s) (next_physical s) (free_physical s) (generations s) (gen_len s)
    (store_id s) l (over_frees s) (counters s) (images s).
Definition with_ids (s : RegionStore) (next : N) (free : list N) : RegionStore :=
  mkStore (regions s) (table_len s) next free (generations s) (gen_len s)
    (store_id s) (mint_log s) (over_frees s) (counters s) (images s).
Definition with_images (s : RegionStore) (l : list N) : RegionStore :=
  mkStore (regions s) (table_len s) (next_physical s) (free_physical s) (generations s) (gen_len s)
    (store_id s) (mint_log s) (over_frees s) (counters s) l.
Definition with_generations (s : RegionStore) (g : gmap N N) : RegionStore :=
  mkStore (regions s) (table_len s) (next_physical s) (free_physical s) g (gen_len s)
    (store_id s) (mint_log s) (over_frees s) (counters s) (images s).
Definition with_lengths (s : RegionStore) (tl gl : N) : RegionStore :=
  mkStore (regions s) tl (next_physical s) (free_physical s) (generations s) gl
    (store_id s) (mint_log s) (over_frees s) (counters s) (images s).

(** Update of one live entry in place. *)
Definition upd (s : RegionStore) (id : N) (f : RegionEntry -> RegionEntry) : RegionStore :=
  with_regions s (alter f id (regions s)).

Definition live (s : RegionStore) (id : N) : bool := bool_decide (is_Some (regions s !! id)).

(** ** Reclamation counters (counters.rs) *)

Definition no_counters : ReclaimCounters := mkCounters 0 0 0 0 0 0 0 0 0 0 0 0 0 0 0 0 0 0.

Definition b2n (b : bool) : N := if b then 1%N else 0%N.

Definition count_free (c : ReclaimCounters) (pgs objs : N) (owned : bool) : ReclaimCounters :=
  mkCounters
    (region_frees c + 1) (page_frees c + pgs) (object_frees c + objs)
    (one_page_frees c + b2n (pgs <=? 1)%N)
    (empty_frees c + b2n (objs =? 0)%N)
    (one_object_frees c + b2n (objs =? 1)%N)
    (few_object_frees c + b2n ((2 <=? objs)%N && (objs <=? 4)%N))
    (many_object_frees c + b2n (5 <=? objs)%N)
    (adopts c) (adopts_into_empty c)
    (owned_frees c + b2n owned)
    (owned_free_pages c + (if owned then pgs else 0))
    (owned_free_objects c + (if owned then objs else 0))
    (owned_one_page_frees c + b2n (owned && (pgs <=? 1)%N))
    (rescues c) (rescue_survivors c) (extracts c) (reparents c).

Definition count_adopt (c : ReclaimCounters) (into_empty : bool) : ReclaimCounters :=
  mkCounters (region_frees c) (page_frees c) (object_frees c) (one_page_frees c)
    (empty_frees c) (one_object_frees c) (few_object_frees c) (many_object_frees c)
    (adopts c + 1) (adopts_into_empty c + b2n into_empty)
    (owned_frees c) (owned_free_pages c) (owned_free_objects c) (owned_one_page_frees c)
    (rescues c) (rescue_survivors c) (extracts c) (reparents c).

Definition count_extract (c : ReclaimCounters) : ReclaimCounters :=
  mkCounters (region_frees c) (page_frees c) (object_frees c) (one_page_frees c)
    (empty_frees c) (one_object_frees c) (few_object_frees c) (many_object_frees c)
    (adopts c) (adopts_into_empty c)
    (owned_frees c) (owned_free_pages c) (owned_free_objects c) (owned_one_page_frees c)
    (rescues c) (rescue_survivors c) (extracts c + 1) (reparents c).

Definition count_reparents (c : ReclaimCounters) (n : N) : ReclaimCounters :=
  mkCounters (region_frees c) (page_frees c) (object_frees c) (one_page_frees c)
    (empty_frees c) (one_object_frees c) (few_object_frees c) (many_object_frees c)
    (adopts c) (adopts_into_empty c)
    (owned_frees c) (owned_free_pages c) (owned_free_objects c) (owned_one_page_frees c)
    (rescues c) (rescue_survivors c) (extracts c) (reparents c + n).

Definition count_rescue (c : ReclaimCounters) (rescued survivors : N) : ReclaimCounters :=
  mkCounters (region_frees c) (page_frees c) (object_frees c) (one_page_frees c)
    (empty_frees c) (one_object_frees c) (few_object_frees c) (many_object_frees c)
    (adopts c) (adopts_into_empty c)
    (owned_frees c) (owned_free_pages c) (owned_free_objects c) (owned_one_page_frees c)
    (rescues c + rescued) (rescue_survivors c + survivors) (extracts c) (reparents c).

(** The last row of [report], the adoptions that have not ended. *)
Definition report_owned (c : ReclaimCounters) : Z :=
  Z.of_N (adopts c) - Z.of_N (owned_frees c + rescues c + extracts c).

Definition is_owned (r : Reclaim) : bool := match r with Owned _ => true | Counted _ => false end.

Definition owned_weight (e : RegionEntry) : nat := if is_owned (reclaim e) then 1 else 0.

(** [owned_count]: a scan of the table. *)
Definition owned_count (s : RegionStore) : N := N.of_nat (weight owned_weight (regions s)).

(** ** Pointer classification (pointer.rs) *)

(** [RegionPool::owns] *)
Definition pool_owns (p : RegionPool) (ptr : Ptr) : bool :=
  bool_decide (ptr_region ptr = pool_id p) && bool_decide (ptr_stamp ptr = pool_stamp p).

Definition image_contains (p : RegionPool) (ptr : Ptr) : bool := image p && pool_owns p ptr.

Definition region_owns (s : RegionStore) (rid : N) (ptr : Ptr) : bool :=
  match regions s !! rid with Some e => pool_owns (pool e) ptr | None => false end.

Definition image_region_of (s : RegionStore) (ptr : Ptr) : option N :=
  List.find (fun id => match regions s !! id with
                       | Some e => image_contains (pool e) ptr
                       | None => false
                       end) (images s).

Definition owning_region (s : RegionStore) (ptr : Ptr) : N :=
  match image_region_of s ptr with
  | Some rid => rid
  | None => if (2 <=? ptr_region ptr)%N && region_owns s (ptr_region ptr) ptr
            then ptr_region ptr else 0%N
  end.

Definition owns (s : RegionStore) (ptr : Ptr) : bool :=
  List.existsb (fun '(_, e) => pool_owns (pool e) ptr) (map_to_list (regions s)).

Definition generation_raw (s : RegionStore) (id : N) : N := default 0%N (generations s !! id).

(** [region_of_ptr], with the debug build's stale check as [None]. *)
Definition region_of_ptr (debug : bool) (s : RegionStore) (ptr : Ptr) : option N :=
  match image_region_of s ptr with
  | Some rid => Some rid
  | None =>
      let rid := ptr_region ptr in
      if (2 <=? rid)%N && region_owns s rid ptr then Some rid
      else if debug && (2 <=? rid)%N && (store (ptr_stamp ptr) =? store_id s)%N
              && negb (generation (ptr_stamp ptr) =? generation_raw s rid)%N
      then None
      else Some rid
  end.

(** [RegionPool::find_object_cross_refs] and [find_region_cross_refs] *)
Definition find_object_cross_refs (own_id : N) (owner : Ptr -> N) (o : HeapObject) : list N :=
  List.filter (fun rid => (1 <? rid)%N && negb (rid =? own_id)%N) (owner <$> obj_refs o).

Definition live_objects (p : RegionPool) : list HeapObject := dtors p ++ ref_objs p.

Definition find_region_cross_refs (own_id : N) (owner : Ptr -> N) (p : RegionPool) : list N :=
  live_objects p ≫= find_object_cross_refs own_id owner.

(** ** Minting and lazy creation (alloc.rs) *)

Definition MAX_PLAUSIBLE_REGION_ID : N := N.shiftl 1 28.

(** [RegionStore::new] *)
Definition new (store_id : N) : RegionStore :=
  mkStore ∅ 0 2 [] ∅ 0 store_id None 0 no_counters [].

(** The recycled half of the mint loop: pop ids until one is not live. *)
Fixpoint pop_free (s : RegionStore) (free : list N) : option (N * list N) :=
  match free with
  | [] => None
  | id :: rest => if live s id then pop_free s rest else Some (id, rest)
  end.

(** The counter half: the free list is empty, so each round takes
    [next_physical] and increments it. *)
Fixpoint scan_next (fuel : nat) (s : RegionStore) (next : N) : option (N * N) :=
  match fuel with
  | O => None
  | S f => if live s next then scan_next f s (wrapping_add 32 next 1)
           else Some (next, wrapping_add 32 next 1)
  end.

(** The mint log records the id with the generation its pages will carry. *)
Definition log_mint (s : RegionStore) (id : N) : RegionStore :=
  match mint_log s with
  | Some log => with_mint_log s (Some (log ++ [(id, generation_raw s id)]))
  | None => s
  end.

(** [new_runtime_region]: the loop over the free list, then over the counter.
    At most one round per live region rejects a counter id. *)
Definition new_runtime_region (s : RegionStore) : option (N * RegionStore) :=
  '(id, s1) ← match pop_free s (free_physical s) with
               | Some (id, rest) => Some (id, with_ids s (next_physical s) rest)
               | None =>
                   match scan_next (S (size (regions s))) s (next_physical s) with
                   | Some (id, next) => Some (id, with_ids s next [])
                   | None => None
                   end
               end;
  r ← RuntimeRegion_new id;
  Some (r, log_mint s1 id).

Definition new_runtime_region_tracked (s : RegionStore) : option (RegionMint * RegionStore) :=
  '(r, s1) ← new_runtime_region s;
  Some (mkMint r (generation_raw s1 r), s1).

Definition recycle_unmaterialized (s : RegionStore) (mint : RegionMint) : RegionStore :=
  if live s (region mint) then s
  else if negb (generation_raw s (region mint) =? gen mint)%N then s
  else with_ids s (next_physical s) (region mint :: free_physical s).

Definition new_pool (id : N) (stamp : PageStamp) : RegionPool := mkPool id stamp 0 0 [] [] false.

Definition new_entry (s : RegionStore) (id : N) : RegionEntry :=
  mkEntry (new_pool id (mkStamp (generation_raw s id) (store_id s))) (Counted 1) [] ∅ ∅.

(** [ensure_raw]: the plausibility assertion guards every growth of the table. *)
Definition ensure_raw (s : RegionStore) (id : N) : option RegionStore :=
  if (table_len s <=? id)%N && (MAX_PLAUSIBLE_REGION_ID <? id)%N then None
  else
    let s1 := with_lengths s (N.max (table_len s) (id + 1)) (N.max (gen_len s) (id + 1)) in
    Some (match regions s !! id with
          | Some _ => s1
          | None => with_regions s1 (<[id := new_entry s id]> (regions s1))
          end).

(** ** Reference counting (refcount.rs) *)

Definition incref_entry (e : RegionEntry) : RegionEntry :=
  match reclaim e with
  | Counted rc => set_reclaim e (Counted (saturating_add 32 rc 1))
  | Owned _ => e
  end.

Definition incref (s : RegionStore) (id : N) : option RegionStore :=
  s1 ← ensure_raw s id;
  Some (upd s1 id incref_entry).

(** [decref_reaches_zero]: the bookkeeping half of a decref.  [from_cascade]
    is the source of a cascaded decref, [None] for a direct one. *)
Definition decref_reaches_zero (s : RegionStore) (id : N) (from_cascade : option N)
    : RegionStore * bool :=
  let direct := match from_cascade with None => true | Some _ => false end in
  let bump s' := with_over_frees s' (saturating_add 32 (over_frees s') 1) in
  match regions s !! id with
  | None => (if direct then bump s else s, false)
  | Some e =>
      match reclaim e with
      | Owned _ => (s, false)
      | Counted rc =>
          if (rc =? 0)%N then (if direct then bump s else s, true)
          else (upd s id (fun e => set_reclaim e (Counted (rc - 1))), (rc - 1 =? 0)%N)
      end
  end.

Definition rc_raw (s : RegionStore) (id : N) : N :=
  match regions s !! id with Some e => count e | None => 0%N end.

(** One more edge: [*map.entry(k).or_insert(0) += 1] *)
Definition bump_edge (m : gmap N N) (k : N) : gmap N N :=
  <[k := wrapping_add 32 (default 0%N (m !! k)) 1]> m.

Definition record_outgoing (s : RegionStore) (src dst : N) : RegionStore :=
  if (dst =? 0)%N || (dst =? 1)%N || (dst =? src)%N then s
  else match RuntimeRegion_new src, RuntimeRegion_new dst with
  | Some src_r, Some dst_r =>
      match regions s !! src with
      | Some _ =>
          let s1 := upd s src (fun e => set_outgoing e (bump_edge (outgoing e) dst_r)) in
          upd s1 dst (fun e => set_incoming e (bump_edge (incoming e) src_r))
      | None => s
      end
  | _, _ => s
  end.

Definition unmirror (m : gmap N N) (src n : N) : gmap N N :=
  match m !! src with
  | Some c => if (n <? c)%N then <[src := (c - n)%N]> m else delete src m
  | None => m
  end.

Definition unmirror_incoming (s : RegionStore) (src dst n : N) : RegionStore :=
  upd s dst (fun e => set_incoming e (unmirror (incoming e) src n)).

Definition unrecord_outgoing (s : RegionStore) (src dst : N) : RegionStore :=
  if (dst =? 0)%N || (dst =? 1)%N || (dst =? src)%N then s
  else match RuntimeRegion_new src, RuntimeRegion_new dst with
  | Some src_r, Some dst_r =>
      match regions s !! src with
      | Some e =>
          match outgoing e !! dst_r with
          | Some c =>
              let out' := if (1 <? c)%N then <[dst_r := (c - 1)%N]> (outgoing e)
                          else delete dst_r (outgoing e) in
              unmirror_incoming (upd s src (fun e => set_outgoing e out')) src_r dst_r 1
          | None => s
          end
      | None => s
      end
  | _, _ => s
  end.

(** [incref_cross_region_refs]: the references are resolved first, then each
    is increfed and recorded. *)
Fixpoint incref_refs (s : RegionStore) (own_id : N) (refs : list N) : option RegionStore :=
  match refs with
  | [] => Some s
  | rid :: rest =>
      s1 ← match RuntimeRegion_new rid with Some r => incref s r | None => Some s end;
      incref_refs (record_outgoing s1 own_id rid) own_id rest
  end.

Definition incref_cross_region_refs (s : RegionStore) (o : HeapObject) (own_id : N)
    : option RegionStore :=
  incref_refs s own_id (find_object_cross_refs own_id (owning_region s) o).

(** [RegionPool::alloc_obj]; [claims] is the number of pages the bump
    allocator claimed for it. *)
Definition pool_alloc_obj (p : RegionPool) (o : HeapObject) (claims : N) : RegionPool :=
  mkPool (pool_id p) (pool_stamp p) (pages p + claims) (obj_count p + 1)
    (if needs_drop o then dtors p ++ [o] else dtors p)
    (if needs_drop o then ref_objs p
     else if holds_value_refs o then ref_objs p ++ [o] else ref_objs p)
    (image p).

(** [alloc_obj]: the region is created lazily, the object's cross-region
    references are counted and recorded, then the object is stored. *)
Definition alloc_obj (s : RegionStore) (id : N) (o : HeapObject) (claims : N)
    : option (Ptr * RegionStore) :=
  s1 ← ensure_raw s id;
  s2 ← incref_cross_region_refs s1 o id;
  e ← regions s2 !! id;
  Some (mkPtr id (pool_stamp (pool e)),
        upd s2 id (fun e => set_pool e (pool_alloc_obj (pool e) o claims))).

(** [RegionPool::alloc_data], behind [alloc_region_slice] and [alloc_room]. *)
Definition alloc_data (s : RegionStore) (id : N) (claims : N) : option RegionStore :=
  s1 ← ensure_raw s id;
  Some (upd s1 id (fun e => set_pool e
    (mkPool (pool_id (pool e)) (pool_stamp (pool e)) (pages (pool e) + claims)
       (obj_count (pool e)) (dtors (pool e)) (ref_objs (pool e)) (image (pool e))))).

(** [install_hydrated_region] *)
Definition install_hydrated_region (s : RegionStore) (npages : N) (objs : list HeapObject)
    : option (N * RegionStore) :=
  '(id, s1) ← new_runtime_region s;
  s2 ← ensure_raw s1 id;
  let s3 := if (npages =? 0)%N then s2 else with_images s2 (images s2 ++ [id]) in
  Some (id, upd s3 id (fun e => set_pool e
    (mkPool (pool_id (pool e)) (pool_stamp (pool e)) npages (N.of_nat (length objs))
       (List.filter needs_drop objs)
       (List.filter (fun o => negb (needs_drop o) && holds_value_refs o) objs)
       (negb (npages =? 0)%N)))).

(** ** The ownership forest (ownership.rs) *)

Definition MAX_OWNER_DEPTH : nat := 64.

Definition adopt_region (s : RegionStore) (parent child : N) : option RegionStore :=
  s1 ← ensure_raw s parent;
  s2 ← ensure_raw s1 child;
  let s3 := upd s2 child (fun c => set_reclaim c (Owned parent)) in
  owner ← regions s3 !! parent;
  let s4 := with_counters s3 (count_adopt (counters s3) (obj_count (pool owner) =? 0)%N) in
  Some (upd s4 parent (fun e => set_children e (owned_children e ++ [child]))).

Definition region_is_owned (s : RegionStore) (id : N) : bool :=
  match regions s !! id with Some e => is_owned (reclaim e) | None => false end.

Fixpoint owner_walk (fuel : nat) (s : RegionStore) (cur : N) : N :=
  match fuel with
  | O => cur
  | S f => match regions s !! cur with
           | Some e => match reclaim e with Owned owner => owner_walk f s owner | Counted _ => cur end
           | None => cur
           end
  end.

Definition reclaim_root (s : RegionStore) (id : N) : N := owner_walk MAX_OWNER_DEPTH s id.

Definition children_of (regs : gmap N RegionEntry) (r : N) : list N :=
  match regs !! r with Some e => owned_children e | None => [] end.

(** The subtree walk [extract_owned_region] and the rescue share. *)
Definition subtree_step (regs : gmap N RegionEntry) (sub : gset N) (m : N) : gset N * list N :=
  if decide (m ∈ sub) then (sub, []) else ({[m]} ∪ sub, children_of regs m).

(** The entries a visited set has not reached yet. *)
Definition unvisited (regs : gmap N RegionEntry) (seen : gset N) : gmap N RegionEntry :=
  filter (fun kv => kv.1 ∉ seen) regs.

Definition child_weight (e : RegionEntry) : nat := length (owned_children e).

Definition subtree (regs : gmap N RegionEntry) (r : N) : gset N :=
  drained (subtree_step regs) (fun sub => weight child_weight (unvisited regs sub)) ∅ [r].

(** [.filter(|(s, _)| !subtree.contains(s)).map(|(_, n)| n).sum()] *)
Definition external_count (inc : gmap N N) (sub : gset N) : N :=
  (foldr N.add 0 (snd <$> map_to_list (filter (fun kv : N * N => kv.1 ∉ sub) inc)) mod 2 ^ 32)%N.

Definition extract_owned_region (s : RegionStore) (child : N) : RegionStore :=
  match regions s !! child with
  | Some e =>
      match reclaim e with
      | Owned owner =>
          let external := external_count (incoming e) (subtree (regions s) child) in
          let s1 := upd s child (fun e => set_reclaim e (Counted (wrapping_add 32 1 external))) in
          let s2 := with_counters s1 (count_extract (counters s1)) in
          upd s2 owner (fun o => set_children o (List.filter (fun c => negb (c =? child)%N) (owned_children o)))
      | Counted _ => s
      end
  | None => s
  end.

Fixpoint restamp (m : gmap N RegionEntry) (children : list N) (to : N) : option (gmap N RegionEntry) :=
  match children with
  | [] => Some m
  | c :: rest =>
      e ← m !! c;
      restamp (<[c := set_reclaim e (Owned to)]> m) rest to
  end.

Definition reparent_owned_children (s : RegionStore) (from to : N) : option RegionStore :=
  if (from =? to)%N then Some s
  else match regions s !! from with
  | None => Some s
  | Some e =>
      let children := owned_children e in
      let s1 := upd s from (fun e => set_children e []) in
      match children with
      | [] => Some s1
      | _ =>
          let s2 := with_counters s1 (count_reparents (counters s1) (N.of_nat (length children))) in
          s3 ← ensure_raw s2 to;
          m ← restamp (regions s3) children to;
          Some (upd (with_regions s3 m) to
            (fun e => set_children e (owned_children e ++ children)))
      end
  end.
