(* ===== verification/RegionFree.v ===== *)
(** * The wholesale free

    [value/fiberheap/regionstore/free.rs], [free/rescue.rs], the decref that
    drives it ([refcount.rs]), the teardown of the whole store
    ([regionstore.rs]) and the closed allocation scope ([mintscope.rs]).  A
    free collects the owned subtree of its roots, rescues the members a
    surviving region still references, unindexes the rest, turns their recorded
    edges into decrefs and tears their pages down; the decrefs that reach zero
    feed the same loop. *)

From stdpp Require Import base numbers list option gmap fin_maps sets.
From S2P Require Import Prelude Regions.

(** The iteration order of the [FxHashMap] edge tables: some enumeration of
    the entries, each exactly once. *)
Class EdgeOrder := {
  edges_of : gmap N N -> list (N * N);
  edges_of_perm m : edges_of m ≡ₚ map_to_list m }.

#[export] Instance default_order : EdgeOrder := {| edges_of := map_to_list; edges_of_perm m := reflexivity _ |}.

(** ** Phase 0: the candidates of a drop *)

Definition Candidate : Type := N * option N.

Definition collect_step (s : RegionStore) (st : gset N * list Candidate) (x : Candidate)
    : (gset N * list Candidate) * list Candidate :=
  let '(dying, candidates) := st in
  let '(r, expected_owner) := x in
  if (table_len s <=? r)%N || bool_decide (r ∈ dying) then (st, [])
  else match regions s !! r with
       | Some e => (({[r]} ∪ dying, candidates ++ [x]), (fun c => (c, Some r)) <$> owned_children e)
       | None => (st, [])
       end.

Definition collect (s : RegionStore) (roots : list N) : gset N * list Candidate :=
  drained (collect_step s) (fun st => weight child_weight (unvisited (regions s) st.1))
    (∅, []) (rev ((fun r => (r, None)) <$> roots)).

(** ** The rescue *)

(** Remove a member and its whole owned subtree from the dying set. *)
Definition prune_step (regs : gmap N RegionEntry) (dying : gset N) (m : N) : gset N * list N :=
  if decide (m ∈ dying) then (dying ∖ {[m]}, children_of regs m) else (dying, []).

Definition visited (regs : gmap N RegionEntry) (seen : gset N) : gmap N RegionEntry :=
  filter (fun kv => kv.1 ∈ seen) regs.

Definition prune (regs : gmap N RegionEntry) (dying : gset N) (r : N) : gset N :=
  drained (prune_step regs) (fun d => weight child_weight (visited regs d)) dying [r].

(** A live source outside the dying set still references the member. *)
Definition externally_referenced (regs : gmap N RegionEntry) (dying : gset N) (e : RegionEntry) : bool :=
  List.existsb (fun src => negb (bool_decide (src ∈ dying)) && bool_decide (is_Some (regs !! src)))
    (map_to_list (incoming e)).*1.

(** One pass of the fixpoint over the candidates. *)
Definition rescue_one (regs : gmap N RegionEntry) (st : gset N * list (N * N) * bool) (c : Candidate)
    : gset N * list (N * N) * bool :=
  let '(dying, rescued, changed) := st in
  match c with
  | (_, None) => st
  | (r, Some owner) =>
      if decide (r ∈ dying) then
        match regs !! r with
        | Some e =>
            if externally_referenced regs dying e
            then (prune regs dying r, rescued ++ [(r, owner)], true)
            else st
        | None => st
        end
      else st
  end.

Definition rescue_pass (regs : gmap N RegionEntry) (candidates : list Candidate)
    (dying : gset N) (rescued : list (N * N)) : gset N * list (N * N) * bool :=
  foldl (rescue_one regs) (dying, rescued, false) candidates.

(** A pass that changed something shrank the dying set, so its size bounds
    the number of passes. *)
Fixpoint rescue_loop (fuel : nat) (regs : gmap N RegionEntry) (candidates : list Candidate)
    (dying : gset N) (rescued : list (N * N)) : gset N * list (N * N) :=
  let '(dying', rescued', changed) := rescue_pass regs candidates dying rescued in
  match changed, fuel with
  | true, S f => rescue_loop f regs candidates dying' rescued'
  | _, _ => (dying', rescued')
  end.

Definition rescue_fixpoint (regs : gmap N RegionEntry) (candidates : list Candidate) (dying : gset N)
    : gset N * list (N * N) :=
  rescue_loop (size dying) regs candidates dying [].

(** Unlink a rescued member from the owner that listed it. *)
Definition unlink (m : gmap N RegionEntry) (ro : N * N) : gmap N RegionEntry :=
  alter (fun o => set_children o (List.filter (fun c => negb (c =? ro.1)%N) (owned_children o))) ro.2 m.

(** Rebuild a rescued member's count from its incoming edges, its own
    surviving subtree left out. *)
Definition recount (m : gmap N RegionEntry) (ro : N * N) : gmap N RegionEntry :=
  let sub := subtree m ro.1 in
  alter (fun e => set_reclaim e (Counted (external_count (incoming e) sub))) ro.1 m.

Definition rescue_externally_referenced (s : RegionStore) (candidates : list Candidate) (dying : gset N)
    : RegionStore * gset N :=
  let '(dying', rescued) := rescue_fixpoint (regions s) candidates dying in
  match rescued with
  | [] => (s, dying')
  | _ =>
      let s1 := with_counters s (count_rescue (counters s)
                  (N.of_nat (length rescued)) (N.of_nat (size dying - size dying'))) in
      let m1 := foldl unlink (regions s1) rescued in
      let m2 := foldl recount m1 rescued in
      (with_regions s1 m2, dying')
  end.

(** ** Phases 1 to 3 *)

Section Free.
Context `{EdgeOrder}.

(** Phase 1: take the still-dying members out of the table. *)
Definition take_member (dying : gset N) (st : gmap N RegionEntry * list (N * RegionEntry)) (c : Candidate)
    : gmap N RegionEntry * list (N * RegionEntry) :=
  let '(m, members) := st in
  if decide (c.1 ∈ dying) then
    match m !! c.1 with
    | Some e => (delete c.1 m, members ++ [(c.1, set_children e [])])
    | None => st
    end
  else st.

Definition take_members (m : gmap N RegionEntry) (candidates : list Candidate) (dying : gset N)
    : gmap N RegionEntry * list (N * RegionEntry) :=
  foldl (take_member dying) (m, []) candidates.

(** Phase 2: the recorded edges of one member into regions still indexed. *)
Definition live_edges (s : RegionStore) (me : N * RegionEntry) : list (N * N * N) :=
  (fun tc => (me.1, tc.1, tc.2)) <$> List.filter (fun tc => live s tc.1) (edges_of (outgoing me.2)).

Definition frontier_of (edges : list (N * N * N)) : list N :=
  edges ≫= fun e => replicate (N.to_nat e.2) e.1.2.

Definition retire (s : RegionStore) (edges : list (N * N * N)) : RegionStore :=
  foldl (fun s e => unmirror_incoming s e.1.1 e.1.2 e.2) s edges.

(** Phase 2b: what a dying parked fiber still holds.  The code takes the state
    out of the fiber's handle, so a second [Fiber] object on that handle finds
    nothing; here the state belongs to the object, one object per handle. *)
Definition discharge_fiber (s : RegionStore) (p : ParkedState) : list N :=
  let protected := owning_region s <$> protect p in
  nodes p ++ deferred p ++ option_list (fiber_owner_node p) ++
  List.filter (fun rid => (1 <? rid)%N && negb (bool_decide (protected = Some rid)))
    (owning_region s <$> owed p) ++
  List.filter (fun rid => negb (bool_decide (protected = Some rid)))
    (mapped <$> List.filter (fun m => (1 <? mapped m)%N && (generation_raw s (mapped m) =? mapped_gen m)%N
                                      && live s (mapped m)) (owed_regions p)) ++
  List.filter (fun rid => (1 <? rid)%N) (owning_region s <$> option_list (parked_signal p)).

Definition discharge_entry (s : RegionStore) (e : RegionEntry) : list N :=
  live_objects (pool e) ≫= fun o => match obj_fiber o with Some p => discharge_fiber s p | None => [] end.

(** [bump_generation] and [release_pages] *)
Definition bump_generation (s : RegionStore) (id : N) : RegionStore :=
  if (id <? gen_len s)%N
  then with_generations s (<[id := wrapping_add 32 (generation_raw s id) 1]> (generations s))
  else s.

Definition release_pages (s : RegionStore) (id : N) (e : RegionEntry) : RegionStore * N :=
  let s1 := with_images s (List.filter (fun r => negb (r =? id)%N) (images s)) in
  (bump_generation s1 id, obj_count (pool e)).

(** Phase 3: one member's pages go back and its id is recycled. *)
Definition teardown_member (st : RegionStore * N) (me : N * RegionEntry) : RegionStore * N :=
  let '(s, freed) := st in
  let '(r, e) := me in
  let s1 := with_counters s
              (count_free (counters s) (pages (pool e)) (obj_count (pool e)) (is_owned (reclaim e))) in
  let '(s2, n) := release_pages s1 r e in
  (with_ids s2 (next_physical s2) (r :: free_physical s2), (freed + n)%N).

(** [teardown_set]: objects freed and the cascade frontier. *)
Definition teardown_set (s : RegionStore) (roots : list N) : RegionStore * N * list N :=
  let '(dying0, candidates) := collect s roots in
  let '(s1, dying) := rescue_externally_referenced s candidates dying0 in
  let '(m, members) := take_members (regions s1) candidates dying in
  let s2 := with_regions s1 m in
  match members with
  | [] => (s2, 0%N, [])
  | _ =>
      let edges := members ≫= live_edges s2 in
      let s3 := retire s2 edges in
      let discharged := members ≫= fun me => discharge_entry s3 me.2 in
      let '(s4, freed) := foldl teardown_member (s3, 0%N) members in
      (s4, freed, frontier_of edges ++ discharged)
  end.

(** ** The cascade *)

Definition Work : Type := list N * option N.

(** Decrement every frontier reference, queueing those that reach zero. *)
Definition decref_frontier (src : option N) (st : RegionStore * list Work) (ref_id : N)
    : RegionStore * list Work :=
  let '(s, queued) := st in
  match RuntimeRegion_new ref_id with
  | Some r =>
      let '(s1, zero) := decref_reaches_zero s r src in
      (s1, if zero then queued ++ [([r], src)] else queued)
  | None => st
  end.

Definition cascade_step (st : RegionStore * N) (w : Work) : (RegionStore * N) * list Work :=
  let '(s, freed) := st in
  let '(s1, set_freed, frontier) := teardown_set s w.1 in
  let '(s2, queued) := foldl (decref_frontier (head w.1)) (s1, []) frontier in
  ((s2, (freed + set_freed)%N), queued).

(** Each live region pays for the references its own teardown can queue. *)
Definition dues_weight (e : RegionEntry) : nat :=
  sum_list_with (fun tc : N * N => N.to_nat tc.2) (edges_of (outgoing e)) +
  sum_list_with (fun o => match obj_fiber o with
    | Some p => length (nodes p) + length (deferred p) + length (option_list (fiber_owner_node p)) +
                length (owed p) + length (owed_regions p) + length (option_list (parked_signal p))
    | None => 0 end) (live_objects (pool e)).

Definition cascade_potential (st : RegionStore * N) : nat := weight dues_weight (regions st.1).

Definition free_region_set (s : RegionStore) (roots : list N) (from_cascade : option N)
    : RegionStore * N :=
  drained cascade_step cascade_potential (s, 0%N) [(roots, from_cascade)].

Definition free_runtime_region_pages (s : RegionStore) (id : N) (from_cascade : option N)
    : RegionStore * N := free_region_set s [id] from_cascade.

Definition free_region_group (s : RegionStore) (members : list N) : RegionStore * N :=
  free_region_set s members None.

Definition decref_with_cascade (s : RegionStore) (id : N) (from_cascade : option N)
    : RegionStore * N :=
  let '(s1, zero) := decref_reaches_zero s id from_cascade in
  if zero then free_runtime_region_pages s1 id from_cascade else (s1, 0%N).

Definition decref (s : RegionStore) (id : N) : RegionStore * N := decref_with_cascade s id None.

Definition decref_if_present (s : RegionStore) (id : N) : RegionStore * N :=
  if live s id then decref s id else (s, 0%N).

(** [teardown_all] (fiber death) *)
Definition teardown_all (s : RegionStore) : RegionStore :=
  foldl (fun s idx =>
    match regions s !! idx with
    | Some e => (release_pages (with_regions s (delete idx (regions s))) idx e).1
    | None => s
    end) s (N.of_nat <$> seq 0 (N.to_nat (table_len s))).

(** ** The closed allocation scope (mintscope.rs) *)

Definition begin_mint_log (s : RegionStore) : RegionStore := with_mint_log s (Some []).

(** Minted ids still naming the region the scope minted. *)
Definition still_minted (s : RegionStore) (m : N * N) : bool :=
  live s m.1 && (generation_raw s m.1 =? m.2)%N.

Definition survivor_step (s : RegionStore) (protected : list N) (st : gset N * list (N * N)) (m : N * N)
    : gset N * list (N * N) :=
  let '(surv, out) := st in
  if still_minted s m && negb (bool_decide (m.1 ∈ protected)) && negb (bool_decide (m.1 ∈ surv))
  then ({[m.1]} ∪ surv, out ++ [m]) else st.

Definition scope_survivors (s : RegionStore) (protected : list N) (log : list (N * N))
    : gset N * list (N * N) :=
  foldl (survivor_step s protected) (∅, []) log.

(** References a survivor receives from the contents of the other survivors. *)
Definition scope_in_degree (s : RegionStore) (surv : gset N) (survivors : list (N * N)) (id : N) : N :=
  let in_scope ptr := let rid := owning_region s ptr in if decide (rid ∈ surv) then rid else 0%N in
  N.of_nat (length (List.filter (fun to => (to =? id)%N)
    (survivors ≫= fun m => match regions s !! m.1 with
                           | Some e => find_region_cross_refs m.1 in_scope (pool e)
                           | None => []
                           end))).

Fixpoint balance (n : nat) (st : RegionStore * N) (m : N * N) : RegionStore * N :=
  match n with
  | O => st
  | S k =>
      let '(s, freed) := st in
      if still_minted s m then
        balance k (match RuntimeRegion_new m.1 with
                   | Some r => let '(s1, n1) := decref_with_cascade s r None in (s1, (freed + n1)%N)
                   | None => st
                   end) m
      else st
  end.

Definition reclaim_mint_scope (s : RegionStore) (protected : list N) : RegionStore * N :=
  match mint_log s with
  | None => (s, 0%N)
  | Some log =>
      let s0 := with_mint_log s None in
      let '(surv, survivors) := scope_survivors s0 protected log in
      let escape m := N.to_nat (rc_raw s0 m.1 - scope_in_degree s0 surv survivors m.1) in
      foldl (fun st em => balance em.2 st em.1) (s0, 0%N) ((fun m => (m, escape m)) <$> survivors)
  end.

End Free.

(** ** The store run on small heaps *)

Definition leaf : HeapObject := mkObj [] false false None.
Definition holding (ps : list Ptr) : HeapObject := mkObj ps false true None.

(** A chain of three regions 2 <- 3 <- 4 frees from its head, objects and ids. *)
Example chain_frees :
  ('(a, s) ← alloc_obj (new 1) 2 leaf 1;
   '(b, s) ← alloc_obj s 3 (holding [a]) 1;
   '(c, s) ← alloc_obj s 4 (holding [b; b]) 1;
   let d0 := decref s 2 in
   let d1 := decref d0.1 3 in
   let d2 := decref d1.1 4 in
   Some ([d0.2; d1.2; d2.2], size (regions d2.1), free_physical d2.1, over_frees d2.1)) ≫= Some
  = Some ([0; 0; 3]%N, 0, [2; 3; 4]%N, 0%N).
Proof. vm_compute. reflexivity. Qed.
