(* ===== verification/RegionInv.v ===== *)
(** * The invariant of the region store

    Three ledgers are kept in the same table: the ownership forest (a child
    list on the owner, an owner on the child), the recorded content edges (an
    [outgoing] table on the source, an [incoming] mirror on the target), and
    the reclamation gauges.  [shape] and [ledger] project an entry onto the
    first two; every operation that leaves a projection alone preserves its
    invariant by rewriting. *)

From stdpp Require Import base numbers list option gmap fin_maps sets.
From S2P Require Import Prelude Regions RegionFree.

(** ** Projections *)

Definition owner_of (r : Reclaim) : option N := match r with Owned p => Some p | Counted _ => None end.

Definition shape (e : RegionEntry) : option N * list N := (owner_of (reclaim e), owned_children e).

Definition ledger (e : RegionEntry) : gmap N N * gmap N N := (outgoing e, incoming e).

Abbreviation Forest := (gmap N (option N * list N)).

Abbreviation Edges := (gmap N (gmap N N * gmap N N)).

(** ** The invariants *)

(** Child lists and owners agree, and no child is listed twice. *)
Record forest_ok (f : Forest) : Prop := {
  fo_child p o cs c : f !! p = Some (o, cs) -> c ∈ cs -> exists cs', f !! c = Some (Some p, cs');
  fo_owner c p cs : f !! c = Some (Some p, cs) -> exists o cs', f !! p = Some (o, cs') /\ c ∈ cs';
  fo_nodup p o cs : f !! p = Some (o, cs) -> NoDup cs }.

(** Every mirrored incoming edge is a recorded outgoing edge of a live source,
    counted at least as often; a recorded edge leaves its region for a mortal one. *)
Record edges_ok (g : Edges) : Prop := {
  eo_mirror b out inc a n : g !! b = Some (out, inc) -> inc !! a = Some n ->
    (0 < n)%N /\ exists out' inc' m, g !! a = Some (out', inc') /\ out' !! b = Some m /\ (n <= m)%N;
  eo_outgoing a out inc b m : g !! a = Some (out, inc) -> out !! b = Some m ->
    (2 <= b)%N /\ b <> a /\ (0 < m < 2 ^ 32)%N }.

(** Live ids are mortal and lie inside both tables. *)
Record ids_ok (s : RegionStore) : Prop := {
  io_live r : is_Some (regions s !! r) -> (2 <= r < table_len s)%N;
  io_len : (table_len s <= gen_len s)%N }.

(** The gauge that reports the adoptions that have not ended agrees with the
    table, but for [lost]: [teardown_all] frees owned regions and moves no
    counter, so the adoptions it ended stay counted. *)
Definition gauge_ok (lost : N) (s : RegionStore) : Prop :=
  adopts (counters s) =
    (owned_count s + owned_frees (counters s) + rescues (counters s) + extracts (counters s) + lost)%N.

Record store_ok (lost : N) (s : RegionStore) : Prop := {
  so_ids : ids_ok s;
  so_forest : forest_ok (shape <$> regions s);
  so_edges : edges_ok (ledger <$> regions s);
  so_gauge : gauge_ok lost s }.

(** ** Projections of updates *)

Lemma fmap_alter_same {B} (g : RegionEntry -> B) f k (m : gmap N RegionEntry) :
  (forall e, g (f e) = g e) -> g <$> alter f k m = g <$> m.
Proof.
  intros Hf. apply map_eq. intros i. rewrite !lookup_fmap.
  destruct (decide (i = k)) as [->|Hne].
  - rewrite lookup_alter_eq. destruct (m !! k); simpl; by rewrite ?Hf.
  - by rewrite lookup_alter_ne.
Qed.

Lemma fmap_alter_comm {B} (g : RegionEntry -> B) f f' k (m : gmap N RegionEntry) :
  (forall e, g (f e) = f' (g e)) -> g <$> alter f k m = alter f' k (g <$> m).
Proof.
  intros Hf. apply map_eq. intros i. rewrite !lookup_fmap.
  destruct (decide (i = k)) as [->|Hne].
  - rewrite !lookup_alter_eq, lookup_fmap. destruct (m !! k); simpl; by rewrite ?Hf.
  - by rewrite !lookup_alter_ne, lookup_fmap.
Qed.

Lemma lookup_shape s r e : regions s !! r = Some e -> (shape <$> regions s) !! r = Some (shape e).
Proof. intros Hr. by rewrite lookup_fmap, Hr. Qed.

Lemma is_Some_alter {A} f k i (m : gmap N A) : is_Some (alter f k m !! i) <-> is_Some (m !! i).
Proof.
  destruct (decide (i = k)) as [->|Hne].
  - rewrite lookup_alter_eq. by rewrite fmap_is_Some.
  - by rewrite lookup_alter_ne.
Qed.

Lemma owned_weight_shape e : owned_weight e = match (shape e).1 with Some _ => 1 | None => 0 end.
Proof. unfold owned_weight, shape. by destruct (reclaim e). Qed.

Lemma owned_weight_children e l : owned_weight (set_children e l) = owned_weight e.
Proof. reflexivity. Qed.

Lemma owned_weight_owned e p : owned_weight (set_reclaim e (Owned p)) = 1.
Proof. reflexivity. Qed.

Lemma owned_weight_counted e rc : owned_weight (set_reclaim e (Counted rc)) = 0.
Proof. reflexivity. Qed.

Lemma weight_ext (w : RegionEntry -> nat) (m1 m2 : gmap N RegionEntry) :
  w <$> m1 = w <$> m2 -> weight w m1 = weight w m2.
Proof.
  intros Heq.
  assert (forall k, w <$> m1 !! k = w <$> m2 !! k) as Hk by (intros k; by rewrite <- !lookup_fmap, Heq).
  apply Nat.le_antisymm; apply weight_le; intros k e He; specialize (Hk k); rewrite He in Hk; simpl in Hk.
  - destruct (m2 !! k) as [e'|]; simplify_eq/=. exists e'. split; [done|]. lia.
  - destruct (m1 !! k) as [e'|]; simplify_eq/=. exists e'. split; [done|]. lia.
Qed.

Lemma owned_weight_of_shape (m1 m2 : gmap N RegionEntry) :
  shape <$> m1 = shape <$> m2 -> weight owned_weight m1 = weight owned_weight m2.
Proof.
  intros Heq. apply weight_ext.
  assert (forall m : gmap N RegionEntry, owned_weight <$> m = (fun sh : option N * list N => match sh.1 with Some _ => 1 | None => 0 end)
            <$> (shape <$> m)) as Hs.
  { intros m. rewrite <- map_fmap_compose. apply map_fmap_ext. intros. apply owned_weight_shape. }
  by rewrite !Hs, Heq.
Qed.

(** Two stores with the same projections, gauges and lengths. *)
Record same_ledgers (s s' : RegionStore) : Prop := {
  sl_shape : shape <$> regions s' = shape <$> regions s;
  sl_ledger : ledger <$> regions s' = ledger <$> regions s;
  sl_counters : counters s' = counters s;
  sl_lens : table_len s' = table_len s /\ gen_len s' = gen_len s }.

Lemma is_Some_shape (m1 m2 : gmap N RegionEntry) r :
  shape <$> m1 = shape <$> m2 -> is_Some (m1 !! r) <-> is_Some (m2 !! r).
Proof.
  intros Heq. assert ((shape <$> m1) !! r = (shape <$> m2) !! r) as Hr by by rewrite Heq.
  rewrite !lookup_fmap in Hr. destruct (m1 !! r), (m2 !! r); simplify_eq/=; split; intros []; eauto; done.
Qed.

Lemma same_ledgers_ok {lost} s s' : same_ledgers s s' -> store_ok lost s -> store_ok lost s'.
Proof.
  intros [Hs Hl Hc [Ht Hg]] [[Hi1 Hi2] Hf He Hga]. split.
  - split; [|by rewrite Ht, Hg]. intros r Hr. rewrite Ht. apply Hi1. by apply (is_Some_shape _ _ r Hs).
  - by rewrite Hs.
  - by rewrite Hl.
  - unfold gauge_ok, owned_count in *. by rewrite Hc, (owned_weight_of_shape _ _ Hs).
Qed.

Lemma upd_same_ledgers s k f :
  (forall e, shape (f e) = shape e) -> (forall e, ledger (f e) = ledger e) -> same_ledgers s (upd s k f).
Proof.
  intros H1 H2. split; simpl; [by apply fmap_alter_same|by apply fmap_alter_same|done|done].
Qed.

Lemma same_ledgers_refl s : same_ledgers s s.
Proof. by split. Qed.

Lemma same_ledgers_trans s1 s2 s3 : same_ledgers s1 s2 -> same_ledgers s2 s3 -> same_ledgers s1 s3.
Proof. intros [? ? ? []] [? ? ? []]. split; [congruence..|]. split; congruence. Qed.

#[export] Hint Resolve same_ledgers_refl : elle.

Section Lost.
Context {lost : N}.

(** ** The empty store, mints and lazy creation *)

Lemma store_ok_new i : store_ok 0 (new i).
Proof.
  split.
  - split; [|done]. intros r [e He]. done.
  - simpl. rewrite fmap_empty. split; naive_solver.
  - simpl. rewrite fmap_empty. split; naive_solver.
  - reflexivity.
Qed.

Lemma forest_fresh f r p o cs : forest_ok f -> f !! r = None -> f !! p = Some (o, cs) -> r ∉ cs.
Proof. intros Hf Hr Hp Hin. destruct (fo_child f Hf p o cs r Hp Hin) as [? ?]. congruence. Qed.

Lemma forest_insert_root f r : forest_ok f -> f !! r = None -> forest_ok (<[r := (None, [])]> f).
Proof.
  intros Hf Hr. split.
  - intros p o cs c Hp Hc. destruct (decide (p = r)) as [->|Hne].
    { rewrite lookup_insert_eq in Hp. simplify_eq. set_solver. }
    rewrite lookup_insert_ne in Hp by done. destruct (fo_child f Hf p o cs c Hp Hc) as [cs' Hc'].
    exists cs'. rewrite lookup_insert_ne; [done|]. congruence.
  - intros c p cs Hc. destruct (decide (c = r)) as [->|Hne]; [rewrite lookup_insert_eq in Hc; simplify_eq|].
    rewrite lookup_insert_ne in Hc by done. destruct (fo_owner f Hf c p cs Hc) as (o & cs' & Hp & Hin).
    exists o, cs'. rewrite lookup_insert_ne; [done|]. congruence.
  - intros p o cs Hp. destruct (decide (p = r)) as [->|Hne].
    + rewrite lookup_insert_eq in Hp. simplify_eq. apply NoDup_nil_2.
    + rewrite lookup_insert_ne in Hp by done. by eapply fo_nodup.
Qed.

Lemma edges_insert_empty g r : edges_ok g -> g !! r = None -> edges_ok (<[r := (∅, ∅)]> g).
Proof.
  intros Hg Hr. split.
  - intros b out inc a n Hb Ha. destruct (decide (b = r)) as [->|Hne].
    { rewrite lookup_insert_eq in Hb. simplify_eq. }
    rewrite lookup_insert_ne in Hb by done.
    destruct (eo_mirror g Hg b out inc a n Hb Ha) as (? & out' & inc' & m & Hga & ? & ?).
    split; [done|]. exists out', inc', m. rewrite lookup_insert_ne; [done|]. congruence.
  - intros a out inc b m Ha Hb. destruct (decide (a = r)) as [->|Hne].
    { rewrite lookup_insert_eq in Ha. simplify_eq. }
    rewrite lookup_insert_ne in Ha by done. by eapply eo_outgoing.
Qed.

Lemma ensure_raw_lookup s id s' : ensure_raw s id = Some s' ->
  regions s' = match regions s !! id with Some _ => regions s | None => <[id := new_entry s id]> (regions s) end
  /\ counters s' = counters s /\ table_len s' = N.max (table_len s) (id + 1)
  /\ gen_len s' = N.max (gen_len s) (id + 1) /\ is_Some (regions s' !! id).
Proof.
  unfold ensure_raw. destruct (_ && _); [done|]. destruct (regions s !! id) as [e|] eqn:E; intros [= <-]; simpl.
  - split_and!; eauto.
  - split_and!; try done. rewrite lookup_insert_eq. eauto.
Qed.

Lemma ensure_ok s id s' : (2 <= id)%N -> ensure_raw s id = Some s' -> store_ok lost s -> store_ok lost s'.
Proof.
  intros Hid He [[Hi1 Hi2] Hf Hed Hga].
  destruct (ensure_raw_lookup s id s' He) as (Hr & Hc & Ht & Hg & _).
  destruct (regions s !! id) as [e|] eqn:E.
  - split.
    + split; [|rewrite Ht, Hg; lia]. intros r. rewrite Hr, Ht. intros Hs. specialize (Hi1 r Hs). lia.
    + by rewrite Hr.
    + by rewrite Hr.
    + unfold gauge_ok, owned_count in *. by rewrite Hc, Hr.
  - assert ((shape <$> regions s) !! id = None) as Es by by rewrite lookup_fmap, E.
    assert ((ledger <$> regions s) !! id = None) as El by by rewrite lookup_fmap, E.
    split.
    + split; [|rewrite Ht, Hg; lia]. intros r. rewrite Hr, Ht.
      destruct (decide (r = id)) as [->|Hne]; [lia|]. rewrite lookup_insert_ne by done.
      intros Hs. specialize (Hi1 r Hs). lia.
    + rewrite Hr, fmap_insert. by apply forest_insert_root.
    + rewrite Hr, fmap_insert. by apply edges_insert_empty.
    + unfold gauge_ok, owned_count in *. rewrite Hc, Hr, weight_insert by done. simpl. done.
Qed.

Lemma ensure_owned s id s' c :
  ensure_raw s id = Some s' -> region_is_owned s' c = region_is_owned s c.
Proof.
  intros He. destruct (ensure_raw_lookup s id s' He) as (Hr & _). unfold region_is_owned. rewrite Hr.
  destruct (regions s !! id) eqn:E; [done|].
  destruct (decide (c = id)) as [->|Hne]; [by rewrite lookup_insert_eq, E|by rewrite lookup_insert_ne].
Qed.

Lemma log_mint_ledgers s id : same_ledgers s (log_mint s id).
Proof. unfold log_mint. by destruct (mint_log s). Qed.

Lemma new_runtime_region_ledgers s r s' : new_runtime_region s = Some (r, s') -> same_ledgers s s'.
Proof.
  unfold new_runtime_region. intros Hm.
  destruct (pop_free s (free_physical s)) as [[id rest]|].
  - simpl in Hm. destruct (RuntimeRegion_new id); simplify_eq/=.
    eapply same_ledgers_trans; [|apply log_mint_ledgers]. by split.
  - destruct (scan_next _ s (next_physical s)) as [[id next]|]; [|done].
    simpl in Hm. destruct (RuntimeRegion_new id); simplify_eq/=.
    eapply same_ledgers_trans; [|apply log_mint_ledgers]. by split.
Qed.

Lemma recycle_ledgers s m : same_ledgers s (recycle_unmaterialized s m).
Proof. unfold recycle_unmaterialized. repeat case_match; by split. Qed.

(** ** Counts *)

Lemma incref_entry_shape e : shape (incref_entry e) = shape e.
Proof. unfold incref_entry, shape. destruct (reclaim e) eqn:E; simpl; by rewrite ?E. Qed.

Lemma incref_entry_ledger e : ledger (incref_entry e) = ledger e.
Proof. unfold incref_entry. by destruct (reclaim e). Qed.

Lemma incref_ok s id s' : (2 <= id)%N -> incref s id = Some s' -> store_ok lost s -> store_ok lost s'.
Proof.
  unfold incref. intros Hid Hi Hok. destruct (ensure_raw s id) as [s1|] eqn:E; simplify_eq/=.
  eapply same_ledgers_ok; [|by eapply ensure_ok].
  apply upd_same_ledgers; [apply incref_entry_shape|apply incref_entry_ledger].
Qed.

Lemma decref_reaches_zero_ledgers s id fc s' z :
  decref_reaches_zero s id fc = (s', z) -> same_ledgers s s'.
Proof.
  unfold decref_reaches_zero. intros Hd.
  destruct (regions s !! id) as [e|] eqn:E; [destruct (reclaim e) as [rc|o] eqn:Er|].
  - destruct (N.eqb_spec rc 0); [destruct fc; simplify_eq/=; by split|].
    injection Hd as <- _. split; simpl; [|by apply fmap_alter_same|done|done].
    apply map_eq. intros i. rewrite !lookup_fmap. destruct (decide (i = id)) as [->|Hne].
    + rewrite lookup_alter_eq, E. simpl. unfold shape. simpl. by rewrite Er.
    + by rewrite lookup_alter_ne.
  - simplify_eq. auto with elle.
  - destruct fc; simplify_eq/=; by split.
Qed.

(** ** Recorded edges *)

Lemma lookup_two_alter {A} (f h : A -> A) (i j k : N) (m : gmap N A) :
  alter h j (alter f i m) !! k =
    (fun x => (if decide (k = j) then h else id) ((if decide (k = i) then f else id) x)) <$> m !! k.
Proof.
  destruct (decide (k = j)) as [->|Hj]; [rewrite lookup_alter_eq|rewrite lookup_alter_ne by done];
    (destruct (decide (_ = i)) as [->|Hi]; [rewrite lookup_alter_eq|rewrite lookup_alter_ne by done]);
    by destruct (m !! _).
Qed.

(** Changing one edge [src -> dst] in both ledgers, the rest of the tables
    staying as they are, preserves the mirror when the new mirror count is
    bounded by the new recorded count. *)
Lemma edges_change g src dst fo fi outs incs :
  edges_ok g -> src <> dst -> (2 <= dst)%N ->
  g !! src = Some (outs, incs) ->
  (forall k, k <> dst -> fo outs !! k = outs !! k) ->
  (forall inc k, k <> src -> fi inc !! k = inc !! k) ->
  (forall m, fo outs !! dst = Some m -> (0 < m < 2 ^ 32)%N) ->
  (forall outd incd n, g !! dst = Some (outd, incd) -> fi incd !! src = Some n ->
     (0 < n)%N /\ exists m, fo outs !! dst = Some m /\ (n <= m)%N) ->
  edges_ok (alter (fun x => (x.1, fi x.2)) dst (alter (fun x => (fo x.1, x.2)) src g)).
Proof.
  intros Hg Hne Hd2 Hsrc Hfo Hfi Hnew Hmir. split.
  - intros b out inc a n. rewrite lookup_two_alter. intros Hb Ha.
    destruct (g !! b) as [[outb incb]|] eqn:Eb; [|done]. simpl in Hb.
    assert (forall out0 inc0 m, g !! a = Some (out0, inc0) -> (a = src -> b <> dst) -> out0 !! b = Some m ->
      exists out' inc' m', alter (fun x => (x.1, fi x.2)) dst (alter (fun x => (fo x.1, x.2)) src g) !! a
        = Some (out', inc') /\ out' !! b = Some m' /\ m' = m) as Hsame.
    { intros out0 inc0 m Hga Hab Hm. rewrite lookup_two_alter, Hga. simpl.
      destruct (decide (a = dst)), (decide (a = src)); simplify_eq/=; do 3 eexists; split_and!; try done;
        rewrite ?Hfo by auto; done. }
    destruct (decide (b = dst)) as [->|Hbd]; simplify_eq/=.
    + destruct (decide (dst = src)); [done|]. simplify_eq/=.
      destruct (decide (a = src)) as [->|Has].
      * destruct (Hmir _ _ _ Eb Ha) as (Hn & m & Hm & Hle). split; [done|].
        exists (fo outs), incs, m. rewrite lookup_two_alter, Hsrc. simpl.
        by rewrite decide_False, decide_True.
      * rewrite Hfi in Ha by done. destruct (eo_mirror g Hg _ _ _ _ _ Eb Ha) as (Hn & o & i & m & Hga & Hm & Hle).
        split; [done|]. destruct (Hsame o i m Hga ltac:(done) Hm) as (o' & i' & m' & ? & ? & ->). eauto 10.
    + assert (incb !! a = Some n) as Ha' by (destruct (decide (b = src)); by simplify_eq/=).
      destruct (eo_mirror g Hg _ _ _ _ _ Eb Ha') as (Hn & o & i & m & Hga & Hm & Hle).
      split; [done|]. destruct (Hsame o i m Hga ltac:(done) Hm) as (o' & i' & m' & ? & ? & ->). eauto 10.
  - intros a out inc b m. rewrite lookup_two_alter. intros Ha Hb.
    destruct (g !! a) as [[outa inca]|] eqn:Ea; [|done]. simpl in Ha.
    destruct (decide (a = src)) as [->|Has].
    + rewrite (decide_False (P := src = dst)) in Ha by done. simplify_eq/=.
      destruct (decide (b = dst)) as [->|Hbd]; [by eauto|].
      rewrite Hfo in Hb by done. by eapply eo_outgoing.
    + assert (out = outa) as -> by (destruct (decide (a = dst)); by simplify_eq/=).
      by eapply eo_outgoing.
Qed.

(** The ledger of [record_outgoing] and [unrecord_outgoing]. *)
Lemma ledger_upd_out s src (h : gmap N N -> gmap N N) :
  ledger <$> regions (upd s src (fun e => set_outgoing e (h (outgoing e)))) =
  alter (fun x => (h x.1, x.2)) src (ledger <$> regions s).
Proof. by apply fmap_alter_comm. Qed.

Lemma ledger_upd_inc s dst (h : gmap N N -> gmap N N) :
  ledger <$> regions (upd s dst (fun e => set_incoming e (h (incoming e)))) =
  alter (fun x => (x.1, h x.2)) dst (ledger <$> regions s).
Proof. by apply fmap_alter_comm. Qed.

(** Changing edge tables only. *)
Lemma edge_upd_ok s s' :
  store_ok lost s -> shape <$> regions s' = shape <$> regions s -> counters s' = counters s ->
  table_len s' = table_len s -> gen_len s' = gen_len s ->
  edges_ok (ledger <$> regions s') -> store_ok lost s'.
Proof.
  intros [[Hi1 Hi2] Hf He Hga] Hs Hc Ht Hg He'. split; [|by rewrite Hs|done|].
  - split; [|by rewrite Ht, Hg]. intros r Hr. rewrite Ht. apply Hi1. by apply (is_Some_shape _ _ r Hs).
  - unfold gauge_ok, owned_count in *. by rewrite Hc, (owned_weight_of_shape _ _ Hs).
Qed.

(** How often [src]'s contents are recorded to reference [dst]. *)
Definition edge_count (s : RegionStore) (src dst : N) : N :=
  match regions s !! src with Some e => default 0%N (outgoing e !! dst) | None => 0%N end.

Lemma RuntimeRegion_new_Some x : (2 <= x)%N -> RuntimeRegion_new x = Some x.
Proof. intros Hx. unfold RuntimeRegion_new. destruct (N.ltb_spec x 2); [lia|done]. Qed.

Lemma RuntimeRegion_new_inv x r : RuntimeRegion_new x = Some r -> r = x /\ (2 <= x)%N.
Proof. unfold RuntimeRegion_new. destruct (N.ltb_spec x 2); [done|]. by intros [= ->]. Qed.

Lemma record_outgoing_ok s src dst :
  store_ok lost s -> (edge_count s src dst + 1 < 2 ^ 32)%N -> store_ok lost (record_outgoing s src dst).
Proof.
  intros Hok Hlt. unfold record_outgoing.
  destruct ((dst =? 0)%N || (dst =? 1)%N || (dst =? src)%N) eqn:Ed; [done|].
  destruct (RuntimeRegion_new src) as [src_r|] eqn:Es; [|done].
  destruct (RuntimeRegion_new dst) as [dst_r|] eqn:Et; [|done].
  apply RuntimeRegion_new_inv in Es as [-> Hs2], Et as [-> Hd2].
  destruct (regions s !! src) as [e|] eqn:E; [|done].
  assert (src <> dst) as Hne by (intros ->; rewrite N.eqb_refl in Ed; by rewrite orb_true_r in Ed).
  assert ((ledger <$> regions s) !! src = Some (ledger e)) as El by by rewrite lookup_fmap, E.
  unfold edge_count in Hlt. rewrite E in Hlt.
  assert (bump_edge (outgoing e) dst !! dst = Some (default 0 (outgoing e !! dst) + 1)%N) as Hb.
  { unfold bump_edge, wrapping_add. rewrite lookup_insert_eq. by rewrite N.mod_small. }
  eapply edge_upd_ok; [exact Hok| | | | |]; try done.
  - simpl. rewrite !fmap_alter_same; done.
  - rewrite (ledger_upd_inc _ dst (fun i => bump_edge i src)), (ledger_upd_out _ src (fun o => bump_edge o dst)).
    eapply (edges_change _ src dst (fun o => bump_edge o dst) (fun i => bump_edge i src)); try done.
    + by apply Hok.
    + intros k Hk. unfold bump_edge. by rewrite lookup_insert_ne.
    + intros inc k Hk. unfold bump_edge. by rewrite lookup_insert_ne.
    + intros m. simpl. rewrite Hb. intros [= <-]. lia.
    + intros outd incd n Hdst Hn. simpl. rewrite Hb.
      unfold bump_edge in Hn. rewrite lookup_insert_eq in Hn. injection Hn as Hn.
      assert (default 0 (incd !! src) <= default 0 (outgoing e !! dst))%N as Hle.
      { destruct (incd !! src) as [c|] eqn:Ec; simpl; [|lia].
        destruct (eo_mirror _ (so_edges lost s Hok) _ _ _ _ _ Hdst Ec) as (_ & o & i & m & Ho & Hm & ?).
        rewrite El in Ho. injection Ho as <- <-. rewrite Hm. done. }
      unfold wrapping_add in Hn. rewrite N.mod_small in Hn by lia. split; [lia|]. eexists. split; [done|lia].
Qed.

Lemma unmirror_other m src n k : k <> src -> unmirror m src n !! k = m !! k.
Proof.
  intros Hk. unfold unmirror. destruct (m !! src); [|done]. case_match.
  - by rewrite lookup_insert_ne.
  - by rewrite lookup_delete_ne.
Qed.

Lemma unmirror_at m src n c : unmirror m src n !! src = Some c ->
  exists c0, m !! src = Some c0 /\ (n < c0)%N /\ c = (c0 - n)%N.
Proof.
  unfold unmirror. destruct (m !! src) as [c0|] eqn:E; [|congruence].
  destruct (N.ltb_spec n c0).
  - rewrite lookup_insert_eq. intros [= <-]. eauto.
  - by rewrite lookup_delete_eq.
Qed.

Lemma unrecord_outgoing_ok s src dst : store_ok lost s -> store_ok lost (unrecord_outgoing s src dst).
Proof.
  intros Hok. unfold unrecord_outgoing.
  destruct ((dst =? 0)%N || (dst =? 1)%N || (dst =? src)%N) eqn:Ed; [done|].
  destruct (RuntimeRegion_new src) as [src_r|] eqn:Es; [|done].
  destruct (RuntimeRegion_new dst) as [dst_r|] eqn:Et; [|done].
  apply RuntimeRegion_new_inv in Es as [-> Hs2], Et as [-> Hd2].
  destruct (regions s !! src) as [e|] eqn:E; [|done].
  destruct (outgoing e !! dst) as [c|] eqn:Ec; [|done].
  assert (src <> dst) as Hne by (intros ->; rewrite N.eqb_refl in Ed; by rewrite orb_true_r in Ed).
  assert ((ledger <$> regions s) !! src = Some (ledger e)) as El by by rewrite lookup_fmap, E.
  destruct (eo_outgoing _ (so_edges lost s Hok) _ _ _ _ _ El Ec) as (_ & _ & Hc).
  set (out' := if (1 <? c)%N then <[dst:=(c - 1)%N]> (outgoing e) else delete dst (outgoing e)).
  unfold unmirror_incoming.
  eapply edge_upd_ok; [exact Hok| | | | |]; try done.
  - simpl. rewrite !fmap_alter_same; done.
  - rewrite (ledger_upd_inc _ dst (fun i => unmirror i src 1)), (ledger_upd_out _ src (fun _ => out')).
    eapply (edges_change _ src dst (fun _ => out') (fun i => unmirror i src 1)); try done.
    + by apply Hok.
    + intros k Hk. subst out'. simpl. case_match; by rewrite ?lookup_insert_ne, ?lookup_delete_ne.
    + intros inc k Hk. by apply unmirror_other.
    + intros m. subst out'. simpl. destruct (N.ltb_spec 1 c).
      * rewrite lookup_insert_eq. intros [= <-]. lia.
      * by rewrite lookup_delete_eq.
    + intros outd incd n Hdst Hn. apply unmirror_at in Hn as (c0 & Hc0 & Hlt & ->). split; [lia|].
      destruct (eo_mirror _ (so_edges lost s Hok) _ _ _ _ _ Hdst Hc0) as (_ & o & i & m & Ho & Hm & ?).
      rewrite El in Ho. injection Ho as <- <-. simplify_eq/=.
      exists (c - 1)%N. subst out'. destruct (N.ltb_spec 1 c); [|lia].
      rewrite lookup_insert_eq. split; [done|lia].
Qed.

(** ** The forest *)

Lemma forest_adopt f p c cs :
  forest_ok f -> f !! c = Some (None, cs) -> is_Some (f !! p) ->
  forest_ok (alter (fun x => (x.1, x.2 ++ [c])) p (alter (fun x => (Some p, x.2)) c f)).
Proof.
  intros Hf Hc [[op cp] Hp].
  assert (forall q o cq, f !! q = Some (o, cq) -> c ∉ cq) as Hfree.
  { intros q o cq Hq Hin. destruct (fo_child f Hf q o cq c Hq Hin) as [? ?]. congruence. }
  split.
  - intros q o cq x. rewrite lookup_two_alter. intros Hq Hx.
    destruct (f !! q) as [[o0 c0]|] eqn:Eq; [|done]. rewrite lookup_two_alter.
    assert (x ∈ c0 \/ (x = c /\ q = p)) as [Hx0|[-> ->]].
    { destruct (decide (q = p)), (decide (q = c)); simplify_eq/=; try (by left);
        apply elem_of_app in Hx as [|Hx]; auto; apply list_elem_of_singleton in Hx; auto. }
    + destruct (fo_child f Hf q o0 c0 x Eq Hx0) as [cx Ex]. rewrite Ex.
      assert (x <> c) by (intros ->; exact (Hfree _ _ _ Eq Hx0)). simpl. rewrite (decide_False (P := x = c)) by done.
      destruct (decide (x = p)); by eexists.
    + rewrite Hc. simpl. rewrite (decide_True (P := c = c)) by done. destruct (decide (c = p)); by eexists.
  - intros x q cx. rewrite lookup_two_alter. intros Hx.
    destruct (f !! x) as [[o0 c0]|] eqn:Ex; [|done].
    destruct (decide (x = c)) as [->|Hxc].
    + assert (q = p) as -> by (destruct (decide (c = p)); by simplify_eq/=).
      rewrite lookup_two_alter, Hp. simpl. rewrite (decide_True (P := p = p)) by done.
      destruct (decide (p = c)); simpl; do 2 eexists; (split; [done|set_solver]).
    + assert (o0 = Some q) as -> by (destruct (decide (x = p)); by simplify_eq/=).
      destruct (fo_owner f Hf x q c0 Ex) as (oq & cq & Eq & Hin).
      rewrite lookup_two_alter, Eq. simpl.
      destruct (decide (q = p)), (decide (q = c)); simpl; do 2 eexists; (split; [done|set_solver]).
  - intros q o cq. rewrite lookup_two_alter. intros Hq.
    destruct (f !! q) as [[o0 c0]|] eqn:Eq; [|done].
    pose proof (fo_nodup f Hf q o0 c0 Eq) as Hnd.
    assert (cq = c0 \/ cq = c0 ++ [c]) as [->| ->]; [|done|].
    { destruct (decide (q = p)), (decide (q = c)); simplify_eq/=; auto. }
    apply NoDup_app. split_and!; [done| |apply NoDup_singleton].
    intros x Hx ->%list_elem_of_singleton. exact (Hfree _ _ _ Eq Hx).
Qed.

Lemma filter_ne_In (c x : N) (l : list N) :
  x ∈ List.filter (fun y => negb (y =? c)%N) l <-> x ∈ l /\ x <> c.
Proof.
  rewrite !list_elem_of_In, filter_In, negb_true_iff, N.eqb_neq. done.
Qed.

Lemma filter_NoDup {A} (P : A -> bool) (l : list A) : NoDup l -> NoDup (List.filter P l).
Proof. intros Hl. apply NoDup_ListNoDup, List.NoDup_filter. by apply NoDup_ListNoDup. Qed.

Lemma forest_release f p c cs :
  forest_ok f -> f !! c = Some (Some p, cs) ->
  forest_ok (alter (fun x => (x.1, List.filter (fun y => negb (y =? c)%N) x.2)) p
               (alter (fun x => (None, x.2)) c f)).
Proof.
  intros Hf Hc. split.
  - intros q o cq x. rewrite lookup_two_alter. intros Hq Hx.
    destruct (f !! q) as [[o0 c0]|] eqn:Eq; [|done]. rewrite lookup_two_alter.
    assert (x ∈ c0 /\ x <> c) as [Hx0 Hxc].
    { destruct (decide (q = p)) as [->|Hqp].
      - destruct (decide (p = c)); simplify_eq/=; by apply filter_ne_In in Hx.
      - assert (x ∈ c0) as Hx0 by (destruct (decide (q = c)); by simplify_eq/=).
        split; [done|]. intros ->. destruct (fo_child f Hf q o0 c0 c Eq Hx0). congruence. }
    destruct (fo_child f Hf q o0 c0 x Eq Hx0) as [cx Ex]. rewrite Ex. simpl.
    rewrite (decide_False (P := x = c)) by done. destruct (decide (x = p)); by eexists.
  - intros x q cx. rewrite lookup_two_alter. intros Hx.
    destruct (f !! x) as [[o0 c0]|] eqn:Ex; [|done].
    assert (x <> c /\ o0 = Some q) as [Hxc ->].
    { destruct (decide (x = c)), (decide (x = p)); by simplify_eq/=. }
    destruct (fo_owner f Hf x q c0 Ex) as (oq & cq & Eq & Hin).
    rewrite lookup_two_alter, Eq. simpl.
    destruct (decide (q = p)), (decide (q = c)); simpl; do 2 eexists; (split; [done|]);
      simpl; rewrite ?filter_ne_In; done.
  - intros q o cq. rewrite lookup_two_alter. intros Hq.
    destruct (f !! q) as [[o0 c0]|] eqn:Eq; [|done].
    pose proof (fo_nodup f Hf q o0 c0 Eq) as Hnd.
    destruct (decide (q = p)), (decide (q = c)); simplify_eq/=; auto using filter_NoDup.
Qed.

Lemma weight_alter (w : RegionEntry -> nat) (m : gmap N RegionEntry) k h e :
  m !! k = Some e -> weight w (alter h k m) + w e = weight w m + w (h e).
Proof.
  intros Hk. rewrite (weight_delete w m k e Hk).
  assert (alter h k m !! k = Some (h e)) as Ha by by rewrite lookup_alter_eq, Hk.
  rewrite (weight_delete w _ k _ Ha), delete_alter_eq. lia.
Qed.

(** Moving one region between the two reclamation modes, and its listing. *)
Lemma forest_upd_ok s s' n m :
  store_ok lost s -> ledger <$> regions s' = ledger <$> regions s ->
  table_len s' = table_len s -> gen_len s' = gen_len s ->
  forest_ok (shape <$> regions s') ->
  weight owned_weight (regions s') + n = weight owned_weight (regions s) + m ->
  (adopts (counters s') + N.of_nat n + owned_frees (counters s) + rescues (counters s) + extracts (counters s) =
   adopts (counters s) + N.of_nat m + owned_frees (counters s') + rescues (counters s') + extracts (counters s'))%N ->
  store_ok lost s'.
Proof.
  intros [[Hi1 Hi2] Hf He Hga] Hl Ht Hg Hf' Hw Hc. split; [|done|by rewrite Hl|].
  - split; [|by rewrite Ht, Hg]. intros r Hr. rewrite Ht. apply Hi1.
    assert (is_Some ((ledger <$> regions s') !! r)) as Hr' by by rewrite lookup_fmap, fmap_is_Some.
    rewrite Hl, lookup_fmap, fmap_is_Some in Hr'. done.
  - unfold gauge_ok, owned_count in *. lia.
Qed.

Lemma adopt_region_ok s parent child s' :
  (2 <= parent)%N -> (2 <= child)%N -> region_is_owned s child = false ->
  adopt_region s parent child = Some s' -> store_ok lost s -> store_ok lost s'.
Proof.
  intros Hp Hc Hno Ha Hok. unfold adopt_region in Ha.
  destruct (ensure_raw s parent) as [s1|] eqn:E1; [|done]. simpl in Ha.
  destruct (ensure_raw s1 child) as [s2|] eqn:E2; [|done]. simpl in Ha.
  pose proof (ensure_ok _ _ _ Hp E1 Hok) as Hok1. pose proof (ensure_ok _ _ _ Hc E2 Hok1) as Hok2.
  destruct (ensure_raw_lookup _ _ _ E1) as (Hr1 & _ & _ & _ & [ep1 Hp1]).
  destruct (ensure_raw_lookup _ _ _ E2) as (Hr2 & _ & _ & _ & [ec Hec]).
  assert (is_Some (regions s2 !! parent)) as [ep Hep].
  { rewrite Hr2. destruct (regions s1 !! child); [eauto|].
    destruct (decide (parent = child)) as [->|]; [rewrite lookup_insert_eq; eauto|].
    rewrite lookup_insert_ne by done. eauto. }
  assert (owner_of (reclaim ec) = None) as Hoc.
  { rewrite <- (ensure_owned _ _ _ child E1), <- (ensure_owned _ _ _ child E2) in Hno.
    unfold region_is_owned in Hno. rewrite Hec in Hno. by destruct (reclaim ec). }
  destruct (alter _ child (regions s2) !! parent) as [o|] eqn:Eo; [|done]. simpl in Ha. injection Ha as <-.
  eapply (forest_upd_ok s2 _ 0 1 Hok2); try done.
  - simpl. rewrite !fmap_alter_same; done.
  - simpl. rewrite (fmap_alter_comm shape _ (fun x => (x.1, x.2 ++ [child])) parent) by done.
    rewrite (fmap_alter_comm shape _ (fun x => (Some parent, x.2)) child) by done.
    eapply forest_adopt; [apply Hok2| |].
    + rewrite lookup_fmap, Hec. simpl. unfold shape. by rewrite Hoc.
    + rewrite lookup_fmap, Hep. simpl. eauto.
  - simpl. pose proof (weight_alter owned_weight _ parent
      (fun e => set_children e (owned_children e ++ [child])) _ Eo) as Hw1.
    pose proof (weight_alter owned_weight _ child (fun c => set_reclaim c (Owned parent)) _ Hec) as Hw2.
    assert (owned_weight ec = 0) as H0 by (rewrite owned_weight_shape; unfold shape; by rewrite Hoc).
    cbn beta in Hw1, Hw2. rewrite owned_weight_children in Hw1. rewrite owned_weight_owned in Hw2. lia.
  - simpl. lia.
Qed.

Lemma extract_owned_region_ok s child : store_ok lost s -> store_ok lost (extract_owned_region s child).
Proof.
  intros Hok. unfold extract_owned_region. destruct (regions s !! child) as [e|] eqn:E; [|done].
  destruct (reclaim e) as [rc|owner] eqn:Er; [done|].
  set (rc' := wrapping_add 32 1 _).
  assert ((shape <$> regions s) !! child = Some (Some owner, owned_children e)) as Es
    by (rewrite lookup_fmap, E; simpl; unfold shape; by rewrite Er).
  destruct (fo_owner _ (so_forest lost s Hok) _ _ _ Es) as (oo & cso & Eo & _).
  rewrite lookup_fmap in Eo. destruct (regions s !! owner) as [eo|] eqn:Eow; [|done].
  eapply (forest_upd_ok s _ 1 0 Hok); try done.
  - simpl. rewrite !fmap_alter_same; done.
  - simpl. rewrite (fmap_alter_comm shape _ (fun x => (x.1, List.filter (fun y => negb (y =? child)%N) x.2)) owner) by done.
    rewrite (fmap_alter_comm shape _ (fun x => (None, x.2)) child) by done.
    eapply forest_release; [apply Hok|exact Es].
  - simpl. assert (exists eo', alter (fun e => set_reclaim e (Counted rc')) child (regions s) !! owner = Some eo') as [eo' Heo'].
    { apply is_Some_alter. eauto. }
    pose proof (weight_alter owned_weight _ owner
      (fun o => set_children o (List.filter (fun c => negb (c =? child)%N) (owned_children o))) _ Heo') as Hw1.
    pose proof (weight_alter owned_weight _ child (fun e => set_reclaim e (Counted rc')) _ E) as Hw2.
    assert (owned_weight e = 1) as H1 by (unfold owned_weight; by rewrite Er).
    cbn beta in Hw1, Hw2. rewrite owned_weight_children in Hw1. rewrite owned_weight_counted in Hw2. lia.
  - simpl. lia.
Qed.

(** Handing [from]'s children [cs] to [to], entry by entry. *)
Definition reparented (from to : N) (cs : list N) (k : N) (x : option N * list N) : option N * list N :=
  (if decide (k ∈ cs) then Some to else x.1,
   (if decide (k = from) then [] else x.2) ++ (if decide (k = to) then cs else [])).

Lemma forest_reparent f f' from to o cs :
  forest_ok f -> f !! from = Some (o, cs) -> from <> to -> is_Some (f !! to) ->
  (forall k, f' !! k = reparented from to cs k <$> f !! k) -> forest_ok f'.
Proof.
  intros Hf Hfrom Hne [[ot ct] Hto] Hf'.
  assert (forall x, x ∈ cs -> exists l, f !! x = Some (Some from, l)) as Hcs
    by (intros x Hx; by eapply fo_child).
  split.
  - intros p op cp c. rewrite Hf'. intros Hp Hc. destruct (f !! p) as [[o0 c0]|] eqn:Ep; [|done].
    unfold reparented in Hp. simplify_eq/=. rewrite Hf'. apply elem_of_app in Hc as [Hc|Hc].
    + destruct (decide (p = from)); [set_solver|]. destruct (fo_child f Hf p o0 c0 c Ep Hc) as [l Hl].
      rewrite Hl. simpl. unfold reparented. rewrite (decide_False (P := c ∈ cs)); [by eexists|].
      intros Hin. destruct (Hcs c Hin). congruence.
    + destruct (decide (p = to)) as [->|]; [|set_solver]. destruct (Hcs c Hc) as [l Hl]. rewrite Hl.
      simpl. unfold reparented. rewrite decide_True by done. by eexists.
  - intros c p cs'. rewrite Hf'. intros Hc. destruct (f !! c) as [[o0 c0]|] eqn:Ec; [|done].
    unfold reparented in Hc. simpl in Hc. destruct (decide (c ∈ cs)) as [Hin|Hnin]; simplify_eq/=.
    + rewrite Hf', Hto. simpl. unfold reparented. do 2 eexists. split; [done|]. simpl.
      rewrite (decide_True (P := p = p)) by done. set_solver.
    + destruct (fo_owner f Hf c p c0 Ec) as (op & cp & Ep & Hin).
      rewrite Hf', Ep. simpl. unfold reparented. do 2 eexists. split; [done|]. simpl.
      rewrite (decide_False (P := p = from)); [set_solver|]. intros ->. congruence.
  - intros p op cp. rewrite Hf'. intros Hp. destruct (f !! p) as [[o0 c0]|] eqn:Ep; [|done].
    unfold reparented in Hp. simplify_eq/=. apply NoDup_app. split_and!.
    + destruct (decide (p = from)); [apply NoDup_nil_2|by eapply fo_nodup].
    + intros x Hx Hx'. destruct (decide (p = from)); [set_solver|]. destruct (decide (p = to)); [|set_solver].
      destruct (Hcs x Hx') as [l Hl]. destruct (fo_child f Hf p o0 c0 x Ep Hx). congruence.
    + destruct (decide (p = to)); [by eapply fo_nodup|apply NoDup_nil_2].
Qed.

Lemma restamp_spec m cs to m' : restamp m cs to = Some m' ->
  (forall k, m' !! k = (fun e => if decide (k ∈ cs) then set_reclaim e (Owned to) else e) <$> m !! k) /\
  (forall c, c ∈ cs -> is_Some (m !! c)).
Proof.
  revert m. induction cs as [|c cs IH]; intros m; simpl.
  - intros [= ->]. split; [|set_solver]. intros k. by destruct (m' !! k).
  - destruct (m !! c) as [e|] eqn:Ec; [|done]. simpl. intros Hr. apply IH in Hr as [Hr Hl]. split.
    + intros k. rewrite Hr. destruct (decide (k = c)) as [->|Hkc].
      * rewrite lookup_insert_eq, Ec. simpl. rewrite (decide_True (P := c ∈ c :: cs)) by set_solver.
        by destruct (decide (c ∈ cs)).
      * rewrite lookup_insert_ne by done. destruct (m !! k); [|done]. simpl.
        destruct (decide (k ∈ cs)), (decide (k ∈ c :: cs)); set_solver.
    + intros x Hx. apply elem_of_cons in Hx as [->|Hx]; [eauto|].
      destruct (decide (x = c)) as [->|Hxc]; [eauto|]. specialize (Hl x Hx).
      by rewrite lookup_insert_ne in Hl.
Qed.

Lemma reparent_owned_children_ok s from to s' :
  (2 <= to)%N -> reparent_owned_children s from to = Some s' -> store_ok lost s -> store_ok lost s'.
Proof.
  intros Hto2 Hr Hok. unfold reparent_owned_children in Hr.
  destruct (N.eqb_spec from to) as [->|Hne]; [by simplify_eq|].
  destruct (regions s !! from) as [e|] eqn:Ef; [|by simplify_eq].
  destruct (owned_children e) as [|c0 cs0] eqn:Ecs.
  { simplify_eq. eapply same_ledgers_ok; [|exact Hok]. split; try done; simpl; [|by apply fmap_alter_same].
    apply map_eq. intros i. rewrite !lookup_fmap. destruct (decide (i = from)) as [->|Hi].
    - rewrite lookup_alter_eq, Ef. simpl. unfold shape. simpl. by rewrite Ecs.
    - by rewrite lookup_alter_ne. }
  set (cs := c0 :: cs0) in *. clearbody cs. clear c0 cs0.
  set (s1 := with_counters s (count_reparents (counters s) (N.of_nat (length cs)))).
  assert (store_ok lost s1) as Hok1 by (destruct Hok as [[? ?] ? ? ?]; by split).
  change (with_counters (upd s from (fun e => set_children e []))
    (count_reparents (counters (upd s from (fun e => set_children e []))) (N.of_nat (length cs))))
    with (upd s1 from (fun e => set_children e [])) in Hr.
  destruct (ensure_raw (upd s1 from (fun e => set_children e [])) to) as [s3|] eqn:E3; [|done]. simpl in Hr.
  destruct (restamp (regions s3) cs to) as [m|] eqn:Em; [|done]. injection Hr as <-.
  (* the same creation of [to] in the store that still has the child list *)
  assert (exists s2, ensure_raw s1 to = Some s2 /\ counters s3 = counters s2 /\ table_len s3 = table_len s2 /\
    gen_len s3 = gen_len s2 /\ regions s3 = alter (fun e => set_children e []) from (regions s2) /\
    is_Some (regions s2 !! to)) as (s2 & E2 & Hc & Ht & Hg & Hreg & [et Het]).
  { unfold ensure_raw in E3 |- *. simpl in E3 |- *.
    destruct ((table_len s <=? to)%N && (MAX_PLAUSIBLE_REGION_ID <? to)%N); [done|].
    rewrite lookup_alter_ne in E3 by done. destruct (regions s !! to) as [et|] eqn:Et; injection E3 as <-.
    - eexists. split; [done|]. split_and!; done.
    - eexists. split; [done|]. split_and!; try done; simpl.
      + by rewrite alter_insert_ne.
      + rewrite lookup_insert_eq. eauto. }
  pose proof (ensure_ok _ _ _ Hto2 E2 Hok1) as Hok2.
  assert (regions s2 !! from = Some e) as Ef2.
  { destruct (ensure_raw_lookup _ _ _ E2) as (-> & _). simpl.
    destruct (regions s !! to); [done|]. by rewrite lookup_insert_ne. }
  destruct (restamp_spec _ _ _ _ Em) as [Hm _].
  assert (forall k, alter (fun e => set_children e (owned_children e ++ cs)) to m !! k =
    (fun e => set_reclaim (set_children e (reparented from to cs k (shape e)).2)
       (if decide (k ∈ cs) then Owned to else reclaim e)) <$> regions s2 !! k) as Hk.
  { intros k. unfold reparented, shape. simpl.
    destruct (decide (k = to)) as [->|Hkt]; [rewrite lookup_alter_eq|rewrite lookup_alter_ne by done];
      rewrite Hm, Hreg.
    - rewrite lookup_alter_ne by done. rewrite Het. simpl. rewrite (decide_False (P := to = from)) by done.
      by destruct et, (decide (to ∈ cs)).
    - destruct (decide (k = from)) as [->|Hkf].
      + rewrite lookup_alter_eq. destruct (regions s2 !! from) as [[]|]; [|done]. simpl.
        by destruct (decide (from ∈ cs)).
      + rewrite lookup_alter_ne by done. destruct (regions s2 !! k) as [[]|]; [|done]. simpl.
        rewrite app_nil_r. by destruct (decide (k ∈ cs)). }
  eapply (forest_upd_ok s2 _ 0 0 Hok2).
  - apply map_eq. intros k. rewrite !lookup_fmap. simpl. rewrite Hk. by destruct (regions s2 !! k).
  - done.
  - done.
  - eapply (forest_reparent (shape <$> regions s2) _ from to _ cs); [apply Hok2| |done| |].
    + rewrite lookup_fmap, Ef2. simpl. unfold shape. by rewrite Ecs.
    + rewrite lookup_fmap, Het. simpl. eauto.
    + intros k. rewrite !lookup_fmap. simpl. rewrite Hk. destruct (regions s2 !! k); [|done]. simpl.
      unfold shape, reparented. simpl. by destruct (decide (k ∈ cs)).
  - f_equal. apply weight_ext. apply map_eq. intros k. rewrite !lookup_fmap. simpl. rewrite Hk.
    destruct (regions s2 !! k) as [ek|] eqn:Ek; [|done]. simpl. f_equal. unfold owned_weight. simpl.
    destruct (decide (k ∈ cs)) as [Hin|]; [|done].
    destruct (fo_child _ (so_forest lost s2 Hok2) from (owner_of (reclaim e)) cs k) as [l Hl]; [|done|].
    + rewrite lookup_fmap, Ef2. simpl. unfold shape. by rewrite Ecs.
    + rewrite lookup_fmap, Ek in Hl. unfold shape in Hl. simplify_eq/=. by destruct (reclaim ek).
  - simpl. rewrite Hc. lia.
Qed.

(** ** Allocation *)

Lemma edge_count_ledger s s' src dst :
  (ledger <$> regions s') !! src = (ledger <$> regions s) !! src -> edge_count s' src dst = edge_count s src dst.
Proof.
  unfold edge_count. rewrite !lookup_fmap. destruct (regions s !! src), (regions s' !! src); simpl; try done.
  unfold ledger. by intros [= -> _].
Qed.

Lemma edge_count_ensure s id s' src dst : ensure_raw s id = Some s' -> edge_count s' src dst = edge_count s src dst.
Proof.
  intros He. destruct (ensure_raw_lookup s id s' He) as (Hr & _). unfold edge_count. rewrite Hr.
  destruct (regions s !! id) eqn:E; [done|]. destruct (decide (src = id)) as [->|Hne].
  - by rewrite lookup_insert_eq, E.
  - by rewrite lookup_insert_ne.
Qed.

Lemma edge_count_incref s id s' src dst : incref s id = Some s' -> edge_count s' src dst = edge_count s src dst.
Proof.
  unfold incref. destruct (ensure_raw s id) as [s1|] eqn:E; [|done]. intros [= <-].
  rewrite <- (edge_count_ensure _ _ _ src dst E). apply edge_count_ledger. f_equal. simpl.
  apply fmap_alter_same. apply incref_entry_ledger.
Qed.

Lemma edge_count_record s src dst k : (edge_count (record_outgoing s src dst) src k <= edge_count s src k + 1)%N.
Proof.
  unfold record_outgoing. destruct (_ || _ || _) eqn:Ed; [lia|].
  destruct (RuntimeRegion_new src) as [src_r|] eqn:Es; [|lia].
  destruct (RuntimeRegion_new dst) as [dst_r|] eqn:Et; [|lia].
  apply RuntimeRegion_new_inv in Es as [-> _], Et as [-> _].
  assert (src <> dst) as Hne by (intros ->; rewrite N.eqb_refl in Ed; by rewrite orb_true_r in Ed).
  destruct (regions s !! src) as [e|] eqn:E; [|lia]. unfold edge_count. simpl.
  rewrite lookup_alter_ne, lookup_alter_eq, E by done. simpl. unfold bump_edge.
  destruct (decide (k = dst)) as [->|Hk]; [|rewrite lookup_insert_ne by done; lia].
  rewrite lookup_insert_eq. simpl. unfold wrapping_add. apply N.Div0.mod_le.
Qed.

Lemma incref_refs_ok refs s own s' :
  (forall dst, edge_count s own dst + N.of_nat (length refs) < 2 ^ 32)%N ->
  incref_refs s own refs = Some s' -> store_ok lost s -> store_ok lost s'.
Proof.
  revert s. induction refs as [|rid refs IH]; intros s Hlt Hr Hok; simpl in Hr; [by simplify_eq|].
  destruct (RuntimeRegion_new rid) as [r|] eqn:Erid.
  - apply RuntimeRegion_new_inv in Erid as [-> Hr2].
    destruct (incref s rid) as [s1|] eqn:Ei; [|done]. simpl in Hr.
    assert (forall dst, edge_count s1 own dst = edge_count s own dst) as He
      by (intros; by eapply edge_count_incref).
    eapply IH; [|exact Hr|].
    + intros dst. pose proof (edge_count_record s1 own rid dst). specialize (Hlt dst). rewrite He in H.
      simpl in Hlt. lia.
    + apply record_outgoing_ok; [by eapply incref_ok|]. rewrite He. specialize (Hlt rid). simpl in Hlt. lia.
  - simpl in Hr. eapply IH; [|exact Hr|].
    + intros dst. pose proof (edge_count_record s own rid dst). specialize (Hlt dst). simpl in Hlt. lia.
    + apply record_outgoing_ok; [done|]. specialize (Hlt rid). simpl in Hlt. lia.
Qed.

Lemma set_pool_ledgers s id h : same_ledgers s (upd s id (fun e => set_pool e (h e))).
Proof. by apply upd_same_ledgers. Qed.

(** The cross-region references an object can add fit the [u32] edge counts. *)
Definition edges_fit (s : RegionStore) (id : N) (o : HeapObject) : Prop :=
  forall dst, (edge_count s id dst + N.of_nat (length (obj_refs o)) < 2 ^ 32)%N.

Lemma cross_refs_length own owner o : length (find_object_cross_refs own owner o) <= length (obj_refs o).
Proof.
  unfold find_object_cross_refs. etransitivity; [apply filter_length_le|]. by rewrite length_fmap.
Qed.

Lemma alloc_obj_ok s id o claims p s' :
  (2 <= id)%N -> edges_fit s id o -> alloc_obj s id o claims = Some (p, s') -> store_ok lost s -> store_ok lost s'.
Proof.
  unfold alloc_obj, incref_cross_region_refs. intros Hid Hfit Ha Hok.
  destruct (ensure_raw s id) as [s1|] eqn:E1; [|done]. simpl in Ha.
  destruct (incref_refs s1 id _) as [s2|] eqn:E2; [|done]. simpl in Ha.
  destruct (regions s2 !! id) as [e|] eqn:E3; [|done]. simpl in Ha. simplify_eq.
  eapply same_ledgers_ok; [apply set_pool_ledgers|].
  eapply incref_refs_ok; [|exact E2|by eapply ensure_ok].
  intros dst. rewrite (edge_count_ensure _ _ _ _ _ E1). specialize (Hfit dst).
  pose proof (cross_refs_length id (owning_region s1) o). lia.
Qed.

Lemma alloc_data_ok s id claims s' :
  (2 <= id)%N -> alloc_data s id claims = Some s' -> store_ok lost s -> store_ok lost s'.
Proof.
  unfold alloc_data. intros Hid Ha Hok. destruct (ensure_raw s id) as [s1|] eqn:E1; simplify_eq/=.
  eapply same_ledgers_ok; [apply set_pool_ledgers|]. by eapply ensure_ok.
Qed.

Lemma new_runtime_region_ge2 s r s' : new_runtime_region s = Some (r, s') -> (2 <= r)%N.
Proof.
  unfold new_runtime_region. intros Hm.
  destruct (match pop_free s (free_physical s) with Some _ => _ | None => _ end) as [[id s1]|]; [|done].
  simpl in Hm. destruct (RuntimeRegion_new id) as [r'|] eqn:E; [|done]. simpl in Hm. simplify_eq.
  by apply RuntimeRegion_new_inv in E as [-> ?].
Qed.

Lemma install_hydrated_region_ok s npages objs id s' :
  install_hydrated_region s npages objs = Some (id, s') -> store_ok lost s -> store_ok lost s'.
Proof.
  unfold install_hydrated_region. intros Hi Hok.
  destruct (new_runtime_region s) as [[r s1]|] eqn:E1; [|done]. simpl in Hi.
  destruct (ensure_raw s1 r) as [s2|] eqn:E2; [|done]. simpl in Hi. simplify_eq.
  pose proof (new_runtime_region_ge2 _ _ _ E1) as H2.
  pose proof (same_ledgers_ok _ _ (new_runtime_region_ledgers _ _ _ E1) Hok) as Hok1.
  pose proof (ensure_ok _ _ _ H2 E2 Hok1) as Hok2.
  eapply same_ledgers_ok; [apply set_pool_ledgers|].
  eapply same_ledgers_ok; [|exact Hok2]. by destruct (npages =? 0)%N.
Qed.
End Lost.
