(* ===== verification/RegionTeardown.v ===== *)
(** * The wholesale free preserves the store

    The loops of a free, one lemma each: what the candidate walk collects, what
    the rescue keeps, and what tearing the rest down leaves behind.  Every loop
    ends within the fuel its definition gives it. *)

From stdpp Require Import base numbers list option gmap fin_maps sets.
From S2P Require Import Prelude Regions RegionFree RegionInv.

Section Lost.
Context {lost : N}.

(** ** Weights of visited and unvisited entries *)

Lemma unvisited_add regs seen r : unvisited regs ({[r]} ∪ seen) = delete r (unvisited regs seen).
Proof.
  apply map_eq. intros k. unfold unvisited. destruct (decide (k = r)) as [->|Hne].
  - rewrite lookup_delete_eq. apply map_lookup_filter_None. right. intros x _. simpl. set_solver.
  - rewrite lookup_delete_ne by done. rewrite !map_lookup_filter.
    destruct (regs !! k); [|done]. simpl.
    destruct (decide (k ∉ seen)); [rewrite !option_guard_True|rewrite !option_guard_False]; set_solver.
Qed.

Lemma visited_remove regs d m : visited regs (d ∖ {[m]}) = delete m (visited regs d).
Proof.
  apply map_eq. intros k. unfold visited. destruct (decide (k = m)) as [->|Hne].
  - rewrite lookup_delete_eq. apply map_lookup_filter_None. right. intros x _. simpl. set_solver.
  - rewrite lookup_delete_ne by done. rewrite !map_lookup_filter.
    destruct (regs !! k); [|done]. simpl.
    destruct (decide (k ∈ d)); [rewrite !option_guard_True|rewrite !option_guard_False]; set_solver.
Qed.

Lemma children_pay_unvisited regs seen r :
  r ∉ seen ->
  length (children_of regs r) + weight child_weight (unvisited regs ({[r]} ∪ seen)) <=
  weight child_weight (unvisited regs seen).
Proof.
  intros Hr. rewrite unvisited_add. unfold children_of. destruct (regs !! r) as [e|] eqn:E.
  - assert (unvisited regs seen !! r = Some e) as Eu by by apply map_lookup_filter_Some.
    rewrite (weight_delete _ _ _ _ Eu). done.
  - apply weight_delete_le.
Qed.

Lemma children_pay_visited regs d m :
  m ∈ d ->
  length (children_of regs m) + weight child_weight (visited regs (d ∖ {[m]})) <=
  weight child_weight (visited regs d).
Proof.
  intros Hm. rewrite visited_remove. unfold children_of. destruct (regs !! m) as [e|] eqn:E.
  - assert (visited regs d !! m = Some e) as Eu by by apply map_lookup_filter_Some.
    rewrite (weight_delete _ _ _ _ Eu). done.
  - apply weight_delete_le.
Qed.

Lemma forest_children regs p c :
  forest_ok (shape <$> regs) -> c ∈ children_of regs p ->
  exists ep ec, regs !! p = Some ep /\ regs !! c = Some ec /\ reclaim ec = Owned p.
Proof.
  intros Hf Hc. unfold children_of in Hc. destruct (regs !! p) as [ep|] eqn:Ep; [|set_solver].
  destruct (fo_child _ Hf p (owner_of (reclaim ep)) (owned_children ep) c) as [l Hl]; [|done|].
  - by rewrite lookup_fmap, Ep.
  - rewrite lookup_fmap in Hl. destruct (regs !! c) as [ec|] eqn:Ec; [|done]. exists ep, ec.
    split_and!; try done. unfold shape in Hl. simplify_eq/=. destruct (reclaim ec); by simplify_eq/=.
Qed.

(** ** The candidate walk *)

(** Where a candidate came from: a seeded root, or a child of a collected owner. *)
Definition sourced (regs : gmap N RegionEntry) (roots : list N) (dying : gset N) (x : Candidate) : Prop :=
  match x.2 with
  | None => x.1 ∈ roots
  | Some o => o ∈ dying /\ x.1 ∈ children_of regs o
  end.

Record collected (s : RegionStore) (roots : list N) (dying : gset N) (cands : list Candidate) : Prop := {
  co_nodup : NoDup cands.*1;
  co_dying r : r ∈ dying <-> r ∈ cands.*1;
  co_live r : r ∈ dying -> is_Some (regions s !! r);
  co_sourced x : x ∈ cands -> sourced (regions s) roots dying x;
  co_closed p c : p ∈ dying -> c ∈ children_of (regions s) p -> c ∈ dying;
  co_roots r : r ∈ roots -> is_Some (regions s !! r) -> r ∈ dying }.

Lemma sourced_mono regs roots d1 d2 x : d1 ⊆ d2 -> sourced regs roots d1 x -> sourced regs roots d2 x.
Proof. intros Hd. unfold sourced. destruct (x.2); set_solver. Qed.

Lemma sourced_live s roots d r o :
  store_ok lost s -> sourced (regions s) roots d (r, Some o) -> is_Some (regions s !! r).
Proof.
  intros Hok [_ Hc]. destruct (forest_children _ _ _ (so_forest lost s Hok) Hc) as (? & ? & _ & ? & _). eauto.
Qed.

Section Collect.
Context (s : RegionStore) (roots : list N) (Hok : store_ok lost s).

Definition walk_inv (st : gset N * list Candidate) (stack : list Candidate) : Prop :=
  let '(dying, cands) := st in
  NoDup cands.*1 /\ (forall r, r ∈ dying <-> r ∈ cands.*1) /\
  (forall r, r ∈ dying -> is_Some (regions s !! r)) /\
  (forall x, x ∈ cands \/ x ∈ stack -> sourced (regions s) roots dying x) /\
  (forall p c, p ∈ dying -> c ∈ children_of (regions s) p -> c ∈ dying \/ (c, Some p) ∈ stack) /\
  (forall r, r ∈ roots -> is_Some (regions s !! r) -> r ∈ dying \/ (r, None) ∈ stack).

(** Popping an item that is already collected, or not live. *)
Lemma walk_inv_skip dying cands r o rest :
  (is_Some (regions s !! r) -> r ∈ dying) ->
  walk_inv (dying, cands) ((r, o) :: rest) -> walk_inv (dying, cands) rest.
Proof.
  intros Hr (H1 & H2 & H3 & H4 & H5 & H6). split_and!; try done.
  - intros x [Hx|Hx]; apply H4; set_solver.
  - intros p c Hp Hc. destruct (H5 p c Hp Hc) as [|Hin]; [by left|].
    apply elem_of_cons in Hin as [[= -> <-]|]; [|by right]. left. apply Hr.
    destruct (forest_children _ _ _ (so_forest lost s Hok) Hc) as (? & ? & _ & ? & _). eauto.
  - intros x Hx Hl. destruct (H6 x Hx Hl) as [|Hin]; [by left|].
    apply elem_of_cons in Hin as [[= -> <-]|]; [|by right]. left. by apply Hr.
Qed.

Lemma walk_inv_step st x rest st1 new :
  walk_inv st (x :: rest) -> collect_step s st x = (st1, new) -> walk_inv st1 (rev new ++ rest).
Proof.
  destruct st as [dying cands], x as [r o]. intros HI Hs. unfold collect_step in Hs.
  destruct ((table_len s <=? r)%N || bool_decide (r ∈ dying)) eqn:Eg.
  { simplify_eq/=. eapply walk_inv_skip; [|exact HI]. intros Hl.
    apply (io_live s (so_ids lost s Hok)) in Hl. apply orb_true_iff in Eg as [Eg|Eg].
    - apply N.leb_le in Eg. lia.
    - by apply bool_decide_eq_true in Eg. }
  destruct (regions s !! r) as [e|] eqn:Er; simplify_eq/=.
  2: { eapply walk_inv_skip; [|exact HI]. rewrite Er. by intros []. }
  apply orb_false_iff in Eg as [_ Hnd]. apply bool_decide_eq_false in Hnd.
  destruct HI as (H1 & H2 & H3 & H4 & H5 & H6).
  assert (children_of (regions s) r = owned_children e) as Hch by (unfold children_of; by rewrite Er).
  assert (forall c, (c, Some r) ∈ rev ((fun c => (c, Some r)) <$> owned_children e) <-> c ∈ owned_children e) as Hrev.
  { intros c. rewrite list_elem_of_In, <- in_rev, <- list_elem_of_In, list_elem_of_fmap.
    split; [by intros (? & [= ->] & ?)|eauto]. }
  split_and!.
  - rewrite fmap_app. simpl. apply NoDup_app. split_and!; [done| |apply NoDup_singleton].
    intros y Hy ->%list_elem_of_singleton. by apply H2 in Hy.
  - intros y. rewrite fmap_app. simpl. rewrite elem_of_app, list_elem_of_singleton, <- H2. set_solver.
  - intros y [->%elem_of_singleton|Hy]%elem_of_union; [eauto|auto].
  - assert (dying ⊆ {[r]} ∪ dying) as Hsub by set_solver.
    intros y [Hy|Hy].
    + apply elem_of_app in Hy as [Hy|Hy%list_elem_of_singleton]; (eapply sourced_mono; [exact Hsub|]); apply H4; set_solver.
    + apply elem_of_app in Hy as [Hy|Hy]; [|eapply sourced_mono; [exact Hsub|]; apply H4; set_solver].
      rewrite list_elem_of_In, <- in_rev, <- list_elem_of_In, list_elem_of_fmap in Hy.
      destruct Hy as (c & -> & Hc). unfold sourced. simpl. rewrite Hch. set_solver.
  - intros p c [->%elem_of_singleton|Hp]%elem_of_union Hc.
    + right. apply elem_of_app. left. apply Hrev. by rewrite <- Hch.
    + destruct (H5 p c Hp Hc) as [|Hin]; [set_solver|].
      apply elem_of_cons in Hin as [[= -> <-]|]; set_solver.
  - intros y Hy Hl. destruct (H6 y Hy Hl) as [|Hin]; [set_solver|].
    apply elem_of_cons in Hin as [[= -> <-]|]; set_solver.
Qed.

Lemma collect_pays st x rest st1 new :
  walk_inv st (x :: rest) -> collect_step s st x = (st1, new) ->
  length new + weight child_weight (unvisited (regions s) st1.1) <= weight child_weight (unvisited (regions s) st.1).
Proof.
  intros _. destruct st as [dying cands], x as [r o]. unfold collect_step.
  destruct ((table_len s <=? r)%N || bool_decide (r ∈ dying)) eqn:Eg; [intros [= <- <-]; simpl; lia|].
  apply orb_false_iff in Eg as [_ Hnd]. apply bool_decide_eq_false in Hnd.
  destruct (regions s !! r) as [e|] eqn:Er; intros [= <- <-]; simpl; [|lia].
  rewrite length_fmap. pose proof (children_pay_unvisited (regions s) dying r Hnd) as Hp.
  unfold children_of in Hp. rewrite Er in Hp. exact Hp.
Qed.

Lemma walk_inv_init : walk_inv (∅, []) (rev ((fun r => (r, None)) <$> roots)).
Proof.
  split_and!; simpl; try set_solver.
  - apply NoDup_nil_2.
  - intros [r o] [|Hx]; [set_solver|]. rewrite list_elem_of_In, <- in_rev, <- list_elem_of_In, list_elem_of_fmap in Hx.
    by destruct Hx as (? & [= -> ->] & ?).
  - intros r Hr _. right. rewrite list_elem_of_In, <- in_rev, <- list_elem_of_In, list_elem_of_fmap. eauto.
Qed.

Lemma collect_spec : collected s roots (collect s roots).1 (collect s roots).2.
Proof.
  destruct (drained_spec (collect_step s) walk_inv
    (fun st => weight child_weight (unvisited (regions s) st.1)) (∅, [])
    (rev ((fun r => (r, None)) <$> roots)) walk_inv_step collect_pays walk_inv_init) as [_ HI].
  fold (collect s roots) in HI. destruct (collect s roots) as [dying cands].
  destruct HI as (H1 & H2 & H3 & H4 & H5 & H6). split; simpl; try done.
  - intros x Hx. apply H4. by left.
  - intros p c Hp Hc. destruct (H5 p c Hp Hc) as [|Hin]; [done|]. set_solver.
  - intros r Hr Hl. destruct (H6 r Hr Hl) as [|Hin]; [done|]. set_solver.
Qed.

End Collect.

(** ** Pruning a rescued subtree *)

Record pruned (regs : gmap N RegionEntry) (dying : gset N) (r : N) (d : gset N) : Prop := {
  pr_sub : d ⊆ dying;
  pr_self : r ∉ d;
  pr_down p c : p ∈ dying -> p ∉ d -> c ∈ children_of regs p -> c ∉ d;
  pr_up c : c ∈ dying -> c ∉ d -> c = r \/ exists p, p ∈ dying /\ p ∉ d /\ c ∈ children_of regs p }.

Section Prune.
Context (regs : gmap N RegionEntry) (dying : gset N) (r : N).

Definition prune_from (d : gset N) (c : N) : Prop :=
  c = r \/ exists p, p ∈ dying /\ p ∉ d /\ c ∈ children_of regs p.

Definition prune_inv (d : gset N) (stack : list N) : Prop :=
  d ⊆ dying /\ (r ∈ stack \/ r ∉ d) /\
  (forall c, c ∈ stack -> prune_from d c) /\
  (forall c, c ∈ dying -> c ∉ d -> prune_from d c) /\
  (forall p c, p ∈ dying -> p ∉ d -> c ∈ children_of regs p -> c ∈ stack \/ c ∉ d).

Lemma prune_inv_step d m rest d1 new :
  prune_inv d (m :: rest) -> prune_step regs d m = (d1, new) -> prune_inv d1 (rev new ++ rest).
Proof.
  intros (H1 & H2 & H3 & H4 & H5) Hs. unfold prune_step in Hs.
  destruct (decide (m ∈ d)) as [Hm|Hm]; simplify_eq/=.
  - assert (forall c, c ∈ rev (children_of regs m) <-> c ∈ children_of regs m) as Hrev
      by (intros c; by rewrite !list_elem_of_In, <- in_rev).
    assert (forall c, prune_from d c -> prune_from (d ∖ {[m]}) c) as Hmono.
    { intros c [->|(p & ? & ? & ?)]; [by left|]. right. exists p. set_solver. }
    split_and!.
    + set_solver.
    + destruct (decide (r = m)) as [->|]; set_solver.
    + intros c [Hc|Hc]%elem_of_app; [|apply Hmono, H3; set_solver].
      right. exists m. apply Hrev in Hc. set_solver.
    + intros c Hc Hcd. destruct (decide (c = m)) as [->|Hne]; [apply Hmono, H3; set_solver|].
      apply Hmono, H4; [done|set_solver].
    + intros p c Hp Hpd Hc. destruct (decide (p = m)) as [->|Hne].
      * left. apply elem_of_app. left. by apply Hrev.
      * destruct (H5 p c Hp ltac:(set_solver) Hc) as [Hin|Hin]; [|right; set_solver].
        apply elem_of_cons in Hin as [->|Hin]; [right; set_solver|left; set_solver].
  - split_and!; try done.
    + destruct (decide (r = m)) as [->|]; set_solver.
    + intros c Hc. apply H3. set_solver.
    + intros p c Hp Hpd Hc. destruct (H5 p c Hp Hpd Hc) as [Hin|Hin]; [|by right].
      apply elem_of_cons in Hin as [->|Hin]; [by right|by left].
Qed.

Lemma prune_pays d m rest d1 new :
  prune_inv d (m :: rest) -> prune_step regs d m = (d1, new) ->
  length new + weight child_weight (visited regs d1) <= weight child_weight (visited regs d).
Proof.
  intros _. unfold prune_step. destruct (decide (m ∈ d)); intros [= <- <-]; [|simpl; lia].
  by apply children_pay_visited.
Qed.

Lemma prune_spec : pruned regs dying r (prune regs dying r).
Proof.
  assert (prune_inv dying [r]) as Hi by (split_and!; unfold prune_from; set_solver).
  destruct (drained_spec (prune_step regs) prune_inv (fun d => weight child_weight (visited regs d))
    dying [r] prune_inv_step prune_pays Hi) as [_ (H1 & H2 & _ & H4 & H5)].
  split; [done|set_solver| |exact H4].
  intros p c Hp Hpd Hc. destruct (H5 p c Hp Hpd Hc); [set_solver|done].
Qed.

End Prune.

(** ** The rescue fixpoint *)

Section Rescue.
Context (s : RegionStore) (roots : list N) (Hok : store_ok lost s)
  (dying0 : gset N) (cands : list Candidate) (Hco : collected s roots dying0 cands).

Abbreviation regs := (regions s).

(** What the rescue maintains between the dying set and the rescued list. *)
Record rescuing (d : gset N) (rescued : list (N * N)) : Prop := {
  re_sub : d ⊆ dying0;
  re_down p c : p ∈ d -> c ∈ children_of regs p -> c ∈ d \/ c ∈ rescued.*1;
  re_up p c : p ∈ dying0 -> p ∉ d -> c ∈ children_of regs p -> c ∉ d;
  re_out r : r ∈ rescued.*1 -> r ∈ dying0 /\ r ∉ d;
  re_owner r o : (r, o) ∈ rescued -> (r, Some o) ∈ cands;
  re_nodup : NoDup rescued.*1;
  re_roots r : (r, None) ∈ cands -> owner_of <$> (reclaim <$> regs !! r) = Some None -> r ∈ d }.

Lemma collected_owner r o : (r, Some o) ∈ cands ->
  o ∈ dying0 /\ exists e, regs !! r = Some e /\ reclaim e = Owned o.
Proof.
  intros Hr. destruct (co_sourced _ _ _ _ Hco _ Hr) as [Ho Hc]. split; [done|].
  destruct (forest_children _ _ _ (so_forest lost s Hok) Hc) as (? & e & _ & ? & ?). eauto.
Qed.

Lemma child_owner_unique p q c : c ∈ children_of regs p -> c ∈ children_of regs q -> p = q.
Proof.
  intros Hp Hq. destruct (forest_children _ _ _ (so_forest lost s Hok) Hp) as (? & e & _ & He & Hr).
  destruct (forest_children _ _ _ (so_forest lost s Hok) Hq) as (? & e' & _ & He' & Hr'). congruence.
Qed.

Lemma rescuing_init : rescuing dying0 [].
Proof.
  split; try set_solver.
  - intros p c Hp Hc. left. by eapply co_closed.
  - apply NoDup_nil_2.
  - intros r Hr _. apply (co_dying _ _ _ _ Hco). apply list_elem_of_fmap. by exists (r, None).
Qed.

Lemma rescuing_prune d rescued r o :
  rescuing d rescued -> (r, Some o) ∈ cands -> r ∈ d ->
  rescuing (prune regs d r) (rescued ++ [(r, o)]) /\ prune regs d r ⊂ d.
Proof.
  intros [R1 R2 R3 R4 R5 R6 R7] Hin Hr. destruct (prune_spec regs d r) as [P1 P2 P3 P4].
  assert (forall x, x ∈ (rescued ++ [(r, o)]).*1 <-> x ∈ rescued.*1 \/ x = r) as Hfst
    by (intros x; rewrite fmap_app, elem_of_app; simpl; by rewrite list_elem_of_singleton).
  split; [split|]; [set_solver|..].
  - intros p c Hp Hc. rewrite Hfst. destruct (R2 p c (P1 _ Hp) Hc) as [Hcd|]; [|tauto].
    destruct (decide (c ∈ prune regs d r)) as [|Hcn]; [by left|].
    destruct (P4 c Hcd Hcn) as [->|(q & Hq & Hqn & Hcq)]; [tauto|].
    by rewrite (child_owner_unique p q c Hc Hcq) in Hp.
  - intros p c Hp Hpn Hc. destruct (decide (p ∈ d)) as [Hpd|Hpd]; [by eapply P3|].
    intros Hcp. by eapply (R3 p c Hp Hpd Hc), P1.
  - intros x Hx. apply Hfst in Hx as [Hx| ->]; [|set_solver].
    destruct (R4 x Hx) as [? Hn]. split; [done|]. intros Hp. by apply Hn, P1.
  - intros x y [Hx|Hx%list_elem_of_singleton]%elem_of_app; [by apply R5|congruence].
  - rewrite fmap_app. simpl. apply NoDup_app. split_and!; [done| |apply NoDup_singleton].
    intros x Hx ->%list_elem_of_singleton. by destruct (R4 _ Hx).
  - intros x Hx Hrec. specialize (R7 x Hx Hrec). destruct (decide (x ∈ prune regs d r)) as [|Hxn]; [done|exfalso].
    destruct (P4 x R7 Hxn) as [->|(q & _ & _ & Hxq)].
    + destruct (collected_owner _ _ Hin) as [_ (e & He & Ho)]. rewrite He in Hrec. simpl in Hrec. by rewrite Ho in Hrec.
    + destruct (forest_children _ _ _ (so_forest lost s Hok) Hxq) as (? & e & _ & He & Ho).
      rewrite He in Hrec. simpl in Hrec. by rewrite Ho in Hrec.
  - set_solver.
Qed.

Definition unreferenced (d : gset N) (c : Candidate) : Prop :=
  forall o e, c.2 = Some o -> c.1 ∈ d -> regs !! c.1 = Some e -> externally_referenced regs d e = false.

(** One pass: unchanged only if no candidate is referenced from outside. *)
Lemma rescue_pass_spec l : l ⊆ cands ->
  forall d rescued b d' rescued' b',
  foldl (rescue_one regs) (d, rescued, b) l = (d', rescued', b') -> rescuing d rescued ->
  rescuing d' rescued' /\ d' ⊆ d /\ (b = true -> b' = true) /\
  (b = false -> b' = true -> size d' < size d) /\
  (b' = false -> d' = d /\ rescued' = rescued /\ forall c, c ∈ l -> unreferenced d c).
Proof.
  induction l as [|[r ow] l IH]; intros Hl d rescued b d' rescued' b' Hf Hr; cbn [foldl] in Hf.
  { simplify_eq. split_and!; try done; [congruence|]. intros _. split_and!; set_solver. }
  assert (l ⊆ cands) as Hl' by set_solver.
  assert (rescue_one regs (d, rescued, b) (r, ow) = (d, rescued, b) /\ unreferenced d (r, ow) \/
    exists o, ow = Some o /\ r ∈ d /\
      rescue_one regs (d, rescued, b) (r, ow) = (prune regs d r, rescued ++ [(r, o)], true)) as Hone.
  { unfold rescue_one, unreferenced. simpl. destruct ow as [o|]; [|left; naive_solver].
    destruct (decide (r ∈ d)); [|left; naive_solver].
    destruct (regs !! r) as [e1|] eqn:Er; [|left; naive_solver].
    destruct (externally_referenced regs d e1) eqn:Ee; [right; eauto|left; naive_solver]. }
  destruct Hone as [[Hone Hu]|(o & -> & Hrd & Hone)]; rewrite Hone in Hf.
  - destruct (IH Hl' _ _ _ _ _ _ Hf Hr) as (I1 & I2 & I3 & I4 & I5). split_and!; try done.
    intros Hb. destruct (I5 Hb) as (-> & -> & I6). split_and!; try done.
    intros c [->|Hc]%elem_of_cons; auto.
  - destruct (rescuing_prune d rescued r o Hr ltac:(set_solver) Hrd) as [Hr' Hlt].
    destruct (IH Hl' _ _ _ _ _ _ Hf Hr') as (I1 & I2 & I3 & I4 & I5). specialize (I3 eq_refl) as ->.
    split_and!; try done; [set_solver|]. intros _ _. apply subset_size. set_solver.
Qed.

Lemma rescue_loop_spec fuel d rescued d' rescued' :
  size d <= fuel -> rescue_loop fuel regs cands d rescued = (d', rescued') -> rescuing d rescued ->
  rescuing d' rescued' /\ forall c, c ∈ cands -> unreferenced d' c.
Proof.
  revert d rescued. induction fuel as [|f IH]; intros d rescued Hf Hl Hr;
    cbn [rescue_loop] in Hl; unfold rescue_pass in Hl;
    destruct (foldl (rescue_one regs) (d, rescued, false) cands) as [[d1 r1] b1] eqn:Ep;
    destruct (rescue_pass_spec cands ltac:(set_solver) _ _ _ _ _ _ Ep Hr) as (I1 & I2 & I3 & I4 & I5).
  - destruct b1; [specialize (I4 eq_refl eq_refl); lia|]. simplify_eq.
    destruct (I5 eq_refl) as (-> & -> & I6). done.
  - destruct b1.
    + eapply IH; [|exact Hl|done]. specialize (I4 eq_refl eq_refl). lia.
    + simplify_eq. destruct (I5 eq_refl) as (-> & -> & I6). done.
Qed.

Lemma rescue_fixpoint_spec d' rescued' :
  rescue_fixpoint regs cands dying0 = (d', rescued') ->
  rescuing d' rescued' /\ forall c, c ∈ cands -> unreferenced d' c.
Proof. intros Hl. eapply rescue_loop_spec; [|exact Hl|apply rescuing_init]. done. Qed.

End Rescue.

(** ** Leaving the forest *)

(** The forest after the rescued members are unlinked and counted. *)
Definition released (R : list (N * N)) (f f' : Forest) : Prop :=
  forall k, match f !! k with
  | None => f' !! k = None
  | Some (o, l) => exists l', f' !! k = Some (if decide (k ∈ R.*1) then None else o, l') /\
      (forall c, c ∈ l' <-> c ∈ l /\ (c, k) ∉ R) /\ (NoDup l -> NoDup l')
  end.

Lemma unlink_shape m R : forall k,
  match (shape <$> m) !! k with
  | None => (shape <$> foldl unlink m R) !! k = None
  | Some (o, l) => exists l', (shape <$> foldl unlink m R) !! k = Some (o, l') /\
      (forall c, c ∈ l' <-> c ∈ l /\ (c, k) ∉ R) /\ (NoDup l -> NoDup l')
  end.
Proof.
  revert m. induction R as [|[r o] R IH]; intros m k; simpl.
  - destruct ((shape <$> m) !! k) as [[o l]|] eqn:E; [|done]. exists l. split_and!; set_solver.
  - specialize (IH (unlink m (r, o)) k). unfold unlink in IH at 1. simpl in IH.
    rewrite (fmap_alter_comm shape _ (fun x => (x.1, List.filter (fun c => negb (c =? r)%N) x.2))) in IH by done.
    destruct (decide (k = o)) as [->|Hk].
    + rewrite lookup_alter_eq in IH. destruct ((shape <$> m) !! o) as [[ow l]|]; simpl in IH; [|done].
      destruct IH as (l' & H1 & H2 & H3). exists l'. split_and!; [done| |auto using filter_NoDup].
      intros c. rewrite H2, filter_ne_In. set_solver.
    + rewrite lookup_alter_ne in IH by done. destruct ((shape <$> m) !! k) as [[ow l]|]; [|done].
      destruct IH as (l' & H1 & H2 & H3). exists l'. split_and!; [done| |done].
      intros c. rewrite H2. set_solver.
Qed.

Lemma recount_shape m R k : (shape <$> foldl recount m R) !! k =
  (fun x => (if decide (k ∈ R.*1) then None else x.1, x.2)) <$> (shape <$> m) !! k.
Proof.
  revert m. induction R as [|[r o] R IH]; intros m; simpl.
  - by destruct ((shape <$> m) !! k) as [[]|].
  - rewrite IH. unfold recount. cbn [fst snd].
    rewrite (fmap_alter_comm shape _ (fun x => (None, x.2))) by done.
    destruct (decide (k = r)) as [->|Hk].
    + rewrite lookup_alter_eq. destruct ((shape <$> m) !! r) as [[]|]; simpl; [|done].
      f_equal. f_equal. repeat case_decide; set_solver.
    + rewrite lookup_alter_ne by done. destruct ((shape <$> m) !! k) as [[]|]; simpl; [|done].
      f_equal. f_equal. repeat case_decide; set_solver.
Qed.

Lemma rescue_released m R : released R (shape <$> m) (shape <$> foldl recount (foldl unlink m R) R).
Proof.
  intros k. pose proof (unlink_shape m R k) as Hu. rewrite recount_shape.
  destruct ((shape <$> m) !! k) as [[o l]|]; [|by rewrite Hu].
  destruct Hu as (l' & -> & H2 & H3). exists l'. done.
Qed.

(** Unlinking and recounting touch neither the edge tables nor the pools. *)
Lemma unlink_proj {B} (g : RegionEntry -> B) m R :
  (forall e l, g (set_children e l) = g e) -> g <$> foldl unlink m R = g <$> m.
Proof.
  intros Hg. revert m. induction R as [|ro R IH]; intros m; simpl; [done|].
  rewrite IH. unfold unlink. by apply fmap_alter_same.
Qed.

Lemma recount_proj {B} (g : RegionEntry -> B) m R :
  (forall e r, g (set_reclaim e r) = g e) -> g <$> foldl recount m R = g <$> m.
Proof.
  intros Hg. revert m. induction R as [|ro R IH]; intros m; simpl; [done|].
  rewrite IH. unfold recount. by apply fmap_alter_same.
Qed.

Lemma recount_weight m R :
  NoDup R.*1 -> (forall r, r ∈ R.*1 -> exists e, m !! r = Some e /\ owned_weight e = 1) ->
  weight owned_weight (foldl recount m R) + length R = weight owned_weight m.
Proof.
  revert m. induction R as [|[r o] R IH]; intros m Hnd Ho; simpl; [lia|].
  apply NoDup_cons in Hnd as [Hr Hnd].
  destruct (Ho r) as (e & He & H1); [set_solver|].
  assert (weight owned_weight (recount m (r, o)) + 1 = weight owned_weight m) as Hw.
  { pose proof (weight_alter owned_weight m r
      (fun e => set_reclaim e (Counted (external_count (incoming e) (subtree m r)))) e He) as Hw.
    cbn beta in Hw. rewrite owned_weight_counted, H1, Nat.add_0_r in Hw. exact Hw. }
  rewrite <- Hw, <- (IH (recount m (r, o))); [lia|done|].
  intros x Hx. destruct (Ho x) as (ex & Hex & Hwx); [set_solver|]. exists ex. split; [|done].
  unfold recount. simpl. rewrite lookup_alter_ne; [done|]. set_solver.
Qed.

(** ** Taking the members out *)

Lemma take_members_spec D cands m acc m' members :
  NoDup cands.*1 -> foldl (take_member D) (m, acc) cands = (m', members) ->
  (forall k, m' !! k = if decide (k ∈ D /\ k ∈ cands.*1) then None else m !! k) /\
  exists new, members = acc ++ new /\
    (forall r, r ∈ new.*1 <-> r ∈ D /\ r ∈ cands.*1 /\ is_Some (m !! r)) /\ NoDup new.*1 /\
    (forall r e, (r, e) ∈ new -> exists e0, m !! r = Some e0 /\ e = set_children e0 []) /\
    (forall w : RegionEntry -> nat, (forall e l, w (set_children e l) = w e) ->
       weight w m = weight w m' + sum_list_with (fun me => w me.2) new).
Proof.
  revert m acc. induction cands as [|[r ow] cands IH]; intros m acc Hnd Hf; cbn [foldl] in Hf.
  { simplify_eq. split.
    - intros k. rewrite decide_False; [done|]. set_solver.
    - exists []. rewrite app_nil_r. split_and!; set_solver. }
  apply NoDup_cons in Hnd as [Hr Hnd]. unfold take_member at 2 in Hf. simpl in Hf.
  destruct (decide (r ∈ D)) as [HrD|HrD]; [destruct (m !! r) as [e|] eqn:Er|].
  - destruct (IH _ _ Hnd Hf) as (Hm & new & -> & Hin & Hnn & Hent & Hw). split.
    + intros k. rewrite Hm. destruct (decide (k = r)) as [->|Hk].
      * rewrite lookup_delete_eq. destruct (decide (r ∈ D /\ r ∈ cands.*1)); simpl;
          (rewrite decide_True; [done|]); split; set_solver.
      * rewrite lookup_delete_ne by done.
        apply decide_ext. set_solver.
    + exists ((r, set_children e []) :: new). rewrite <- app_assoc. split_and!; [done|..].
      * intros x. simpl. rewrite elem_of_cons, Hin. destruct (decide (x = r)) as [->|Hx].
        -- rewrite Er. split; [intros _|by left]. split_and!; [done|set_solver|eauto].
        -- rewrite lookup_delete_ne by done. set_solver.
      * simpl. apply NoDup_cons. split; [|done]. rewrite Hin, lookup_delete_eq. intros (_ & _ & [? ?]). done.
      * intros x ex [[= -> ->]|Hx]%elem_of_cons; [eauto|]. destruct (Hent x ex Hx) as (e0 & He0 & ->).
        exists e0. split; [|done]. apply lookup_delete_Some in He0. tauto.
      * intros w Hws. rewrite (weight_delete w m r e Er), (Hw w Hws). simpl. rewrite Hws. lia.
  - destruct (IH _ _ Hnd Hf) as (Hm & new & -> & Hin & Hnn & Hent & Hw). split.
    + intros k. rewrite Hm. destruct (decide (k = r)) as [->|Hk].
      * rewrite Er. by destruct (decide _), (decide _).
      * apply decide_ext. set_solver.
    + exists new. split_and!; try done. intros x. rewrite Hin. simpl. rewrite elem_of_cons.
      split; [naive_solver|]. intros (? & [->|?] & Hs); [rewrite Er in Hs; by destruct Hs|done].
  - destruct (IH _ _ Hnd Hf) as (Hm & new & -> & Hin & Hnn & Hent & Hw). split.
    + intros k. rewrite Hm.
      apply decide_ext. set_solver.
    + exists new. split_and!; try done. intros x. rewrite Hin. simpl. rewrite elem_of_cons. naive_solver.
Qed.

(** Dropping a downward-closed set of regions whose surviving children were
    rescued, and which no survivor owns, leaves a forest. *)
Lemma forest_drop f f1 f2 (D : gset N) R :
  forest_ok f -> released R f f1 ->
  (forall k, f2 !! k = if decide (k ∈ D) then None else f1 !! k) ->
  (forall r o, (r, o) ∈ R -> exists l, f !! r = Some (Some o, l)) ->
  (forall p o l c, p ∈ D -> f !! p = Some (o, l) -> c ∈ l -> c ∈ D \/ c ∈ R.*1) ->
  (forall p o l c, p ∉ D -> f !! p = Some (o, l) -> c ∈ l -> c ∉ D) ->
  forest_ok f2.
Proof.
  intros Hf Hrel Hf2 HR Hdown Hup.
  assert (forall k o l, f2 !! k = Some (o, l) -> k ∉ D /\ exists o0 l0, f !! k = Some (o0, l0) /\
    o = (if decide (k ∈ R.*1) then None else o0) /\ (forall c, c ∈ l <-> c ∈ l0 /\ (c, k) ∉ R) /\ (NoDup l0 -> NoDup l)) as Hinv.
  { intros k o l Hk. rewrite Hf2 in Hk. destruct (decide (k ∈ D)); [done|]. split; [done|].
    specialize (Hrel k). destruct (f !! k) as [[o0 l0]|]; [|congruence].
    destruct Hrel as (l' & Hl & H2 & H3). simplify_eq. eauto 10. }
  assert (forall k o0 l0, f !! k = Some (o0, l0) -> k ∉ D -> exists l,
    f2 !! k = Some (if decide (k ∈ R.*1) then None else o0, l) /\ forall c, c ∈ l <-> c ∈ l0 /\ (c, k) ∉ R) as Hfwd.
  { intros k o0 l0 Hk HD. specialize (Hrel k). rewrite Hk in Hrel. destruct Hrel as (l' & Hl & H2 & H3).
    exists l'. rewrite Hf2, decide_False by done. done. }
  split.
  - intros p o l c Hp Hc. destruct (Hinv _ _ _ Hp) as (HpD & o0 & l0 & Hp0 & _ & Hl & _).
    apply Hl in Hc as [Hc HcR]. destruct (fo_child f Hf p o0 l0 c Hp0 Hc) as [lc Hlc].
    destruct (Hfwd c _ _ Hlc (Hup _ _ _ _ HpD Hp0 Hc)) as (l' & -> & _).
    rewrite decide_False; [eauto|]. intros ([r o'] & -> & Hin)%list_elem_of_fmap.
    destruct (HR _ _ Hin) as [? ?]. simplify_eq/=. naive_solver.
  - intros c p l Hc. destruct (Hinv _ _ _ Hc) as (HcD & o0 & l0 & Hc0 & Ho & _).
    destruct (decide (c ∈ R.*1)) as [|HcR]; [done|]. subst o0.
    destruct (fo_owner f Hf c p l0 Hc0) as (op & lp & Hp & Hin).
    assert (p ∉ D) as HpD by (intros HpD; destruct (Hdown _ _ _ _ HpD Hp Hin); done).
    destruct (Hfwd p _ _ Hp HpD) as (l' & Hl' & Hmem). do 2 eexists. split; [exact Hl'|].
    apply Hmem. split; [done|]. intros Hin'. apply HcR. apply list_elem_of_fmap. by exists (c, p).
  - intros p o l Hp. destruct (Hinv _ _ _ Hp) as (_ & o0 & l0 & Hp0 & _ & _ & Hnd).
    apply Hnd. by eapply fo_nodup.
Qed.

(** ** Retiring a dying source's footprint *)

Lemma retire_proj {B} (g : RegionEntry -> B) edges s :
  (forall e m, g (set_incoming e m) = g e) -> g <$> regions (retire s edges) = g <$> regions s.
Proof.
  intros Hg. unfold retire. revert s. induction edges as [|x edges IH]; intros s; simpl; [done|].
  rewrite IH. simpl. by apply fmap_alter_same.
Qed.

Lemma retire_frame edges s :
  counters (retire s edges) = counters s /\ table_len (retire s edges) = table_len s /\
  gen_len (retire s edges) = gen_len s /\ generations (retire s edges) = generations s /\
  free_physical (retire s edges) = free_physical s /\ next_physical (retire s edges) = next_physical s /\
  images (retire s edges) = images s /\ store_id (retire s edges) = store_id s.
Proof.
  unfold retire. revert s. induction edges as [|x edges IH]; intros s; simpl; [done|].
  destruct (IH (unmirror_incoming s x.1.1 x.1.2 x.2)) as (-> & -> & -> & -> & -> & -> & -> & ->). done.
Qed.

Lemma retire_incoming edges s b e' :
  regions (retire s edges) !! b = Some e' ->
  exists e, regions s !! b = Some e /\ outgoing e' = outgoing e /\
    forall a n, incoming e' !! a = Some n ->
      exists n0, incoming e !! a = Some n0 /\ (n <= n0)%N /\ ((0 < n0)%N -> (0 < n)%N) /\
        forall m, (a, b, m) ∈ edges -> (m < n0)%N.
Proof.
  unfold retire. revert s. induction edges as [|[[src dst] c] edges IH]; intros s Hb; simpl in Hb.
  { exists e'. split_and!; try done. intros a n Ha. exists n. split_and!; try done. set_solver. }
  destruct (IH _ Hb) as (e1 & He1 & Ho & Hi). clear IH Hb. simpl in He1.
  destruct (decide (b = dst)) as [->|Hbd].
  - rewrite lookup_alter_eq in He1. destruct (regions s !! dst) as [e|]; simplify_eq/=.
    exists e. split_and!; try done. intros a n Ha. destruct (Hi a n Ha) as (n1 & Hn1 & Hle & Hpos & Hm).
    destruct (decide (a = src)) as [->|Has].
    + apply unmirror_at in Hn1 as (n0 & Hn0 & Hlt & ->). exists n0. split_and!; [done|lia|lia|].
      intros m [[= ->]|Hin]%elem_of_cons; [done|]. specialize (Hm m Hin). lia.
    + rewrite unmirror_other in Hn1 by done. exists n1. split_and!; try done.
      intros m [[= -> ->]|Hin]%elem_of_cons; [done|by apply Hm].
  - rewrite lookup_alter_ne in He1 by done. exists e1. split_and!; try done.
    intros a n Ha. destruct (Hi a n Ha) as (n1 & Hn1 & Hle & Hpos & Hm). exists n1. split_and!; try done.
    intros m [[= -> -> ->]|Hin]%elem_of_cons; [done|by apply Hm].
Qed.

(** ** Tearing the members' pages down *)

Lemma bump_generation_frame s id :
  regions (bump_generation s id) = regions s /\ table_len (bump_generation s id) = table_len s /\
  gen_len (bump_generation s id) = gen_len s /\ counters (bump_generation s id) = counters s /\
  free_physical (bump_generation s id) = free_physical s /\
  next_physical (bump_generation s id) = next_physical s /\
  store_id (bump_generation s id) = store_id s.
Proof. unfold bump_generation. by destruct (id <? gen_len s)%N. Qed.

Lemma bump_generation_raw s id k : (id < gen_len s)%N ->
  generation_raw (bump_generation s id) k =
    if decide (k = id) then wrapping_add 32 (generation_raw s k) 1 else generation_raw s k.
Proof.
  intros Hid. unfold bump_generation. apply N.ltb_lt in Hid as ->. unfold generation_raw at 1. simpl.
  destruct (decide (k = id)) as [->|]; [by rewrite lookup_insert_eq|by rewrite lookup_insert_ne].
Qed.

(** The counters a free moves, as far as the owned gauge reads them. *)
Record gauges_moved (c c' : ReclaimCounters) (freed_owned rescued extracted : N) : Prop := {
  gm_adopts : adopts c' = adopts c;
  gm_owned : owned_frees c' = (owned_frees c + freed_owned)%N;
  gm_rescues : rescues c' = (rescues c + rescued)%N;
  gm_extracts : extracts c' = (extracts c + extracted)%N }.

Lemma teardown_members_spec members s freed s' freed' :
  foldl teardown_member (s, freed) members = (s', freed') ->
  (forall r, r ∈ members.*1 -> (r < gen_len s)%N) -> NoDup members.*1 ->
  regions s' = regions s /\ table_len s' = table_len s /\ gen_len s' = gen_len s /\
  store_id s' = store_id s /\ next_physical s' = next_physical s /\
  free_physical s' = rev members.*1 ++ free_physical s /\
  gauges_moved (counters s) (counters s') (N.of_nat (sum_list_with (fun me => owned_weight me.2) members)) 0 0 /\
  (forall k, generation_raw s' k = if decide (k ∈ members.*1)
     then wrapping_add 32 (generation_raw s k) 1 else generation_raw s k).
Proof.
  revert s freed. induction members as [|[r e] members IH]; intros s freed Hf Hlt Hnd; cbn [foldl] in Hf.
  { simplify_eq. split_and!; try done; split; simpl; lia. }
  apply NoDup_cons in Hnd as [Hr Hnd]. cbn [teardown_member release_pages] in Hf.
  match type of Hf with context [bump_generation ?s0 r] =>
    destruct (bump_generation_frame s0 r) as (Hb1 & Hb2 & Hb3 & Hb4 & Hb5 & Hb6 & Hb7);
    pose proof (fun k => bump_generation_raw s0 r k) as Hg; set (s1 := bump_generation s0 r) in * end.
  simpl in Hb1, Hb2, Hb3, Hb4, Hb5, Hb6, Hb7.
  destruct (IH _ _ Hf) as (I1 & I2 & I3 & I4 & I5 & I6 & I7 & I8); [|done|].
  { intros x Hx. simpl. rewrite Hb3. apply Hlt. set_solver. }
  simpl in *. split_and!; try congruence.
  - rewrite I6, Hb5. by rewrite <- app_assoc.
  - destruct I7 as [G1 G2 G3 G4]. rewrite Hb4 in *. simpl in *.
    split; [congruence|rewrite G2|congruence|congruence].
    unfold owned_weight at 2. destruct (is_owned (reclaim e)); simpl; lia.
  - intros k. rewrite I8. unfold generation_raw at 1 2. simpl.
    change (default 0%N (generations s1 !! k)) with (generation_raw s1 k).
    rewrite (Hg k) by (apply Hlt; set_solver). unfold generation_raw at 1 2. simpl.
    fold (generation_raw s k). repeat case_decide; set_solver.
Qed.

(** ** The rescue, applied *)

Record rescue_result (s : RegionStore) (roots : list N) (dying0 : gset N) (cands : list Candidate)
    (s1 : RegionStore) (D : gset N) (R : list (N * N)) : Prop := {
  rr_rescuing : rescuing s dying0 cands D R;
  rr_unreferenced c : c ∈ cands -> unreferenced s D c;
  rr_released : released R (shape <$> regions s) (shape <$> regions s1);
  rr_proj {B} (g : RegionEntry -> B) : (forall e l, g (set_children e l) = g e) ->
    (forall e r, g (set_reclaim e r) = g e) -> g <$> regions s1 = g <$> regions s;
  rr_weight : weight owned_weight (regions s1) + length R = weight owned_weight (regions s);
  rr_gauges : gauges_moved (counters s) (counters s1) 0 (N.of_nat (length R)) 0;
  rr_frame : table_len s1 = table_len s /\ gen_len s1 = gen_len s /\ generations s1 = generations s /\
    free_physical s1 = free_physical s /\ next_physical s1 = next_physical s /\ store_id s1 = store_id s }.

Lemma released_nil f : released [] f f.
Proof.
  intros k. destruct (f !! k) as [[o l]|] eqn:E; [|done]. exists l. split_and!; try done.
  intros c. split; [set_solver|tauto].
Qed.

Lemma rescue_spec s roots dying0 cands s1 D :
  store_ok lost s -> collected s roots dying0 cands ->
  rescue_externally_referenced s cands dying0 = (s1, D) ->
  exists R, rescue_result s roots dying0 cands s1 D R.
Proof.
  intros Hok Hco Hr. unfold rescue_externally_referenced in Hr.
  destruct (rescue_fixpoint (regions s) cands dying0) as [d' R] eqn:Ef.
  destruct (rescue_fixpoint_spec s roots Hok dying0 cands Hco d' R Ef) as [Hre Hun]. exists R.
  assert (d' = D /\ regions s1 = foldl recount (foldl unlink (regions s) R) R /\
    gauges_moved (counters s) (counters s1) 0 (N.of_nat (length R)) 0 /\
    table_len s1 = table_len s /\ gen_len s1 = gen_len s /\ generations s1 = generations s /\
    free_physical s1 = free_physical s /\ next_physical s1 = next_physical s /\ store_id s1 = store_id s)
    as (<- & Hregs & Hg & Hframe).
  { destruct R as [|ro R]; simplify_eq/=; (split_and!; try done); split; simpl; lia. }
  split; try done.
  - rewrite Hregs. apply rescue_released.
  - intros B g H1 H2. rewrite Hregs, recount_proj, unlink_proj; done.
  - rewrite Hregs, recount_weight.
    + apply weight_ext, unlink_proj. apply owned_weight_children.
    + apply Hre.
    + intros r ([r' o] & -> & Hin)%list_elem_of_fmap.
      destruct (collected_owner s roots Hok dying0 cands Hco r' o (re_owner _ _ _ _ _ Hre _ _ Hin)) as [_ (e & He & Ho)].
      assert ((owned_weight <$> foldl unlink (regions s) R) !! r' = Some 1) as Hw.
      { rewrite unlink_proj by apply owned_weight_children. rewrite lookup_fmap, He. simpl.
        unfold owned_weight. by rewrite Ho. }
      rewrite lookup_fmap in Hw. destruct (foldl unlink (regions s) R !! r') as [e'|] eqn:E'; simplify_eq/=. eauto.
Qed.

(** ** A torn-down set *)

Section Teardown.
Context `{EdgeOrder}.

Lemma elem_of_edges m t c : (t, c) ∈ edges_of m <-> m !! t = Some c.
Proof. rewrite (edges_of_perm m). apply elem_of_map_to_list. Qed.

(** What a free of [roots] does to the store: the regions [D] that die, and
    what the survivors keep. *)
Record torn_down (s : RegionStore) (roots : list N) (s' : RegionStore) (frontier : list N) (D : gset N)
    : Prop := {
  td_ok : store_ok lost s';
  td_live k : is_Some (regions s' !! k) <-> is_Some (regions s !! k) /\ k ∉ D;
  td_dead k : k ∈ D -> is_Some (regions s !! k);
  td_roots r : r ∈ roots -> is_Some (regions s !! r) -> r ∈ D;
  td_owner k : k ∈ D -> k ∉ roots -> exists p, p ∈ D /\ k ∈ children_of (regions s) p;
  td_unreferenced b e a : b ∈ D -> b ∉ roots -> regions s !! b = Some e -> is_Some (incoming e !! a) -> a ∈ D;
  td_owned r : region_is_owned s' r = true -> region_is_owned s r = true;
  td_gen k : generation_raw s' k = if decide (k ∈ D) then wrapping_add 32 (generation_raw s k) 1
                                    else generation_raw s k;
  td_free : exists l, free_physical s' = l ++ free_physical s /\ l ≡ₚ elements D;
  td_next : next_physical s' = next_physical s;
  td_lens : table_len s' = table_len s /\ gen_len s' = gen_len s;
  td_pays : length frontier + weight dues_weight (regions s') <= weight dues_weight (regions s) }.

Lemma length_bind_le {A B} (f : A -> list B) (w : A -> nat) (l : list A) :
  (forall x, x ∈ l -> length (f x) <= w x) -> length (l ≫= f) <= sum_list_with w l.
Proof.
  induction l as [|x l IH]; intros Hw; [simpl; lia|]. rewrite bind_cons, length_app. cbn [sum_list_with].
  specialize (IH ltac:(set_solver)). specialize (Hw x ltac:(set_solver)). lia.
Qed.

Lemma frontier_length s me :
  length (frontier_of (live_edges s me)) <= sum_list_with (fun tc : N * N => N.to_nat tc.2) (edges_of (outgoing me.2)).
Proof.
  unfold live_edges. induction (edges_of (outgoing me.2)) as [|tc l IH]; [simpl; lia|].
  cbn [List.filter sum_list_with]. destruct (live s tc.1); [|lia].
  unfold frontier_of in *. rewrite fmap_cons, bind_cons, length_app, length_replicate. simpl. lia.
Qed.

Lemma frontier_app l k : frontier_of (l ++ k) = frontier_of l ++ frontier_of k.
Proof. unfold frontier_of. apply bind_app. Qed.

Lemma discharge_length s e : length (discharge_entry s e) <=
  sum_list_with (fun o => match obj_fiber o with
    | Some p => length (nodes p) + length (deferred p) + length (option_list (fiber_owner_node p)) +
                length (owed p) + length (owed_regions p) + length (option_list (parked_signal p))
    | None => 0 end) (live_objects (pool e)).
Proof.
  apply length_bind_le. intros o _. destruct (obj_fiber o) as [p|]; [|simpl; lia].
  unfold discharge_fiber. rewrite !length_app.
  pose proof (filter_length_le (fun rid => (1 <? rid)%N && negb (bool_decide (owning_region s <$> protect p = Some rid)))
    (owning_region s <$> owed p)) as L1.
  pose proof (filter_length_le (fun rid => negb (bool_decide (owning_region s <$> protect p = Some rid)))
    (mapped <$> List.filter (fun m => (1 <? mapped m)%N && (generation_raw s (mapped m) =? mapped_gen m)%N
       && live s (mapped m)) (owed_regions p))) as L2.
  pose proof (filter_length_le (fun m => (1 <? mapped m)%N && (generation_raw s (mapped m) =? mapped_gen m)%N
       && live s (mapped m)) (owed_regions p)) as L3.
  pose proof (filter_length_le (fun rid => (1 <? rid)%N) (owning_region s <$> option_list (parked_signal p))) as L4.
  rewrite !length_fmap in *. lia.
Qed.

Lemma cascade_length s2 s3 members :
  length (frontier_of (members ≫= live_edges s2) ++ (members ≫= fun me => discharge_entry s3 me.2)) <=
  sum_list_with (fun me => dues_weight me.2) members.
Proof.
  induction members as [|me members IH]; [simpl; lia|]. cbn [sum_list_with].
  rewrite !bind_cons, frontier_app, !length_app in *. unfold dues_weight at 1.
  pose proof (frontier_length s2 me). pose proof (discharge_length s3 me.2). lia.
Qed.

(** Unindexing [D] and retiring its footprint keeps the mirror. *)
Lemma drop_edges s1 s2 (D : gset N) members :
  edges_ok (ledger <$> regions s1) ->
  (forall k, regions s2 !! k = if decide (k ∈ D) then None else regions s1 !! k) ->
  (forall r e, r ∈ D -> regions s1 !! r = Some e -> exists e', (r, e') ∈ members /\ outgoing e' = outgoing e) ->
  edges_ok (ledger <$> regions (retire s2 (members ≫= live_edges s2))).
Proof.
  intros He Hs2 Hmem. set (edges := members ≫= live_edges s2).
  assert (forall b out inc, (ledger <$> regions (retire s2 edges)) !! b = Some (out, inc) ->
    exists e' e, regions (retire s2 edges) !! b = Some e' /\ b ∉ D /\ regions s1 !! b = Some e /\
      regions s2 !! b = Some e /\ out = outgoing e /\ inc = incoming e') as Hinv.
  { intros b out inc Hb. rewrite lookup_fmap in Hb.
    destruct (regions (retire s2 edges) !! b) as [e'|] eqn:E'; [|done]. unfold ledger in Hb. injection Hb as <- <-.
    destruct (retire_incoming _ _ _ _ E') as (e & Hse & Ho & _). pose proof Hse as Hse2.
    rewrite Hs2 in Hse. destruct (decide (b ∈ D)); [done|]. exists e', e. by rewrite Ho. }
  split.
  - intros b out inc a n Hb Ha. destruct (Hinv _ _ _ Hb) as (e' & e & He' & HbD & Hse & Hse2 & -> & ->).
    destruct (retire_incoming _ _ _ _ He') as (e2 & Hr2 & _ & Hi). assert (e2 = e) as -> by congruence.
    destruct (Hi a n Ha) as (n0 & Hn0 & Hle & Hpos & Hlt).
    destruct (eo_mirror _ He b (outgoing e) (incoming e) a n0) as (Hp & oa & ia & m & Hga & Hm & Hnm);
      [by rewrite lookup_fmap, Hse|done|].
    rewrite lookup_fmap in Hga. destruct (regions s1 !! a) as [ea|] eqn:Ea; [|done].
    unfold ledger in Hga. injection Hga as <- <-.
    destruct (decide (a ∈ D)) as [HaD|HaD].
    { exfalso. destruct (Hmem a ea HaD Ea) as (e'' & Hin & Ho).
      assert (m < n0)%N; [|lia]. apply Hlt. subst edges. apply list_elem_of_bind. exists (a, e''). split; [|done].
      unfold live_edges. apply list_elem_of_fmap. exists (b, m). split; [done|].
      rewrite list_elem_of_In, filter_In, <- list_elem_of_In. rewrite elem_of_edges. simpl. rewrite Ho. split; [done|].
      unfold live. apply bool_decide_eq_true. eauto. }
    split; [auto|].
    assert ((outgoing <$> regions (retire s2 edges)) !! a = Some (outgoing ea)) as Hoa.
    { rewrite (retire_proj outgoing) by done. by rewrite lookup_fmap, Hs2, decide_False, Ea. }
    rewrite lookup_fmap in Hoa. destruct (regions (retire s2 edges) !! a) as [ea'|] eqn:Ea'; [|done].
    exists (outgoing ea'), (incoming ea'), m. rewrite lookup_fmap, Ea'. injection Hoa as Hoa. split_and!; [done|by rewrite Hoa|lia].
  - intros a out inc b m Ha Hm. destruct (Hinv _ _ _ Ha) as (e' & e & _ & _ & Hse & _ & -> & ->).
    eapply (eo_outgoing _ He a (outgoing e) (incoming e)); [|done]. by rewrite lookup_fmap, Hse.
Qed.

(** The facts about the dying set that the forest argument uses. *)
Record dying_ok (s : RegionStore) (roots : list N) (D : gset N) (R : list (N * N)) : Prop := {
  dy_live k : k ∈ D -> is_Some (regions s !! k);
  dy_roots r : r ∈ roots -> is_Some (regions s !! r) -> r ∈ D;
  dy_owner k : k ∈ D -> k ∉ roots -> exists p, p ∈ D /\ k ∈ children_of (regions s) p;
  dy_up p c : p ∉ D -> c ∈ children_of (regions s) p -> c ∉ D;
  dy_down p c : p ∈ D -> c ∈ children_of (regions s) p -> c ∈ D \/ c ∈ R.*1;
  dy_rescued r o : (r, o) ∈ R -> exists e, regions s !! r = Some e /\ reclaim e = Owned o;
  dy_unref b e a : b ∈ D -> b ∉ roots -> regions s !! b = Some e -> is_Some (incoming e !! a) -> a ∈ D }.

Lemma dying_set_ok s roots dying0 cands s1 D R :
  store_ok lost s -> (forall r, r ∈ roots -> region_is_owned s r = false) ->
  collected s roots dying0 cands -> rescue_result s roots dying0 cands s1 D R ->
  D ⊆ dying0 /\ dying_ok s roots D R.
Proof.
  intros Hok Hroots Hco [[R1 R2 R3 R4 R5 R6 R7] Hun _ _ _ _ _]. split; [done|].
  assert (forall p c, c ∈ children_of (regions s) p -> c ∉ roots) as Hchild.
  { intros p c Hc Hr. destruct (forest_children _ _ _ (so_forest lost s Hok) Hc) as (? & e & _ & He & Ho).
    specialize (Hroots c Hr). unfold region_is_owned in Hroots. by rewrite He, Ho in Hroots. }
  assert (forall k, k ∈ D -> k ∉ roots -> exists o, (k, Some o) ∈ cands /\ o ∈ dying0 /\ k ∈ children_of (regions s) o) as Hcand.
  { intros k Hk Hnr. apply R1, (co_dying _ _ _ _ Hco) in Hk as ([k' [o|]] & -> & Hin)%list_elem_of_fmap;
      pose proof (co_sourced _ _ _ _ Hco _ Hin) as Hs; [|done]. destruct Hs. eauto. }
  split; [| | | |exact R2| |].
  - intros k Hk. by apply (co_live _ _ _ _ Hco), R1.
  - intros r Hr Hl. pose proof (co_roots _ _ _ _ Hco r Hr Hl) as Hd.
    apply (co_dying _ _ _ _ Hco) in Hd as ([r' [o|]] & -> & Hin)%list_elem_of_fmap.
    + destruct (co_sourced _ _ _ _ Hco _ Hin) as [_ Hc]. by apply Hchild in Hc.
    + apply R7; [done|]. destruct Hl as [e He]. simpl. simpl in He. rewrite He. simpl. specialize (Hroots r' Hr).
      simpl in He. unfold region_is_owned in Hroots. simpl in Hroots. rewrite He in Hroots. by destruct (reclaim e).
  - intros k Hk Hnr. destruct (Hcand k Hk Hnr) as (o & _ & Ho & Hc). exists o. split; [|done].
    destruct (decide (o ∈ D)) as [|HoD]; [done|]. by destruct (R3 o k Ho HoD Hc).
  - intros p c Hp Hc HcD. destruct (decide (p ∈ dying0)) as [Hpd|Hpd]; [by eapply R3|].
    destruct (Hcand c HcD (Hchild _ _ Hc)) as (o & _ & Ho & Hco'). apply Hpd.
    by rewrite (child_owner_unique s Hok p o c Hc Hco').
  - intros r o Hin. by destruct (collected_owner s roots Hok dying0 cands Hco r o (R5 _ _ Hin)) as [_ ?].
  - intros b e a Hb Hnr He [n Hn]. destruct (Hcand b Hb Hnr) as (o & Hin & _ & _).
    pose proof (Hun _ Hin o e eq_refl Hb He) as Hx. unfold externally_referenced in Hx.
    destruct (eo_mirror _ (so_edges lost s Hok) b (outgoing e) (incoming e) a n) as (_ & ? & ? & ? & Hga & _);
      [by rewrite lookup_fmap, He|done|].
    destruct (decide (a ∈ D)) as [|HaD]; [done|exfalso].
    apply not_true_iff_false in Hx. apply Hx, existsb_exists. exists a. split.
    + rewrite <- list_elem_of_In, list_elem_of_fmap. exists (a, n). split; [done|]. by apply elem_of_map_to_list.
    + rewrite bool_decide_eq_false_2 by done. simpl. apply bool_decide_eq_true.
      rewrite lookup_fmap in Hga. destruct (regions s !! a); [eauto|done].
Qed.

Lemma dropped_forest s s1 m (D : gset N) R roots :
  store_ok lost s -> dying_ok s roots D R -> released R (shape <$> regions s) (shape <$> regions s1) ->
  (forall k, m !! k = if decide (k ∈ D) then None else regions s1 !! k) ->
  forest_ok (shape <$> m).
Proof.
  intros Hok [_ _ _ Hup Hdown Hresc _] Hrel Hm.
  assert (forall p o l, (shape <$> regions s) !! p = Some (o, l) -> children_of (regions s) p = l) as Hch.
  { intros p o l. rewrite lookup_fmap. unfold children_of. destruct (regions s !! p); [|done]. by intros [= <- <-]. }
  eapply (forest_drop _ _ _ D R (so_forest lost s Hok) Hrel).
  - intros k. rewrite !lookup_fmap, Hm. by destruct (decide (k ∈ D)).
  - intros r o Hin. destruct (Hresc r o Hin) as (e & He & Ho). exists (owned_children e).
    rewrite lookup_fmap, He. simpl. unfold shape. by rewrite Ho.
  - intros p o l c Hp Hl Hc. apply (Hdown p c Hp). by rewrite (Hch _ _ _ Hl).
  - intros p o l c Hp Hl Hc. apply (Hup p c Hp). by rewrite (Hch _ _ _ Hl).
Qed.

Lemma dues_weight_children e l : dues_weight (set_children e l) = dues_weight e.
Proof. reflexivity. Qed.

Lemma teardown_set_spec s roots s' freed frontier :
  store_ok lost s -> (forall r, r ∈ roots -> region_is_owned s r = false) ->
  teardown_set s roots = (s', freed, frontier) ->
  exists D, torn_down s roots s' frontier D.
Proof.
  intros Hok Hroots Ht. unfold teardown_set in Ht. pose proof (collect_spec s roots Hok) as Hco.
  destruct (collect s roots) as [dying0 cands]. cbn [fst snd] in Hco.
  destruct (rescue_externally_referenced s cands dying0) as [s1 D] eqn:Er.
  destruct (rescue_spec _ _ _ _ _ _ Hok Hco Er) as [R Hrr].
  destruct (dying_set_ok _ _ _ _ _ _ _ Hok Hroots Hco Hrr) as [HDsub Hdy].
  destruct Hrr as [_ _ Hrel Hproj Hw Hga (Hl1 & Hl2 & Hl3 & Hl4 & Hl5 & Hl6)].
  unfold take_members in Ht. destruct (foldl (take_member D) (regions s1, []) cands) as [m members] eqn:Em.
  destruct (take_members_spec _ _ _ _ _ _ (co_nodup _ _ _ _ Hco) Em) as (Hm & new & Hnew & Hin & Hnd & Hent & Hwt).
  simpl in Hnew. subst new.
  assert (forall k, is_Some (regions s1 !! k) <-> is_Some (regions s !! k)) as Hlive1.
  { intros k. rewrite <- (fmap_is_Some ledger), <- lookup_fmap, (Hproj _ ledger), lookup_fmap, fmap_is_Some; done. }
  assert (forall k, k ∈ D -> k ∈ cands.*1) as HDc by (intros k Hk; by apply (co_dying _ _ _ _ Hco), HDsub).
  assert (forall r, r ∈ members.*1 <-> r ∈ D) as Hmem.
  { intros r. rewrite Hin. split; [tauto|]. intros Hr. split_and!; auto. by apply Hlive1, (dy_live _ _ _ _ Hdy). }
  assert (forall k, m !! k = if decide (k ∈ D) then None else regions s1 !! k) as Hm'.
  { intros k. rewrite Hm. apply decide_ext. split; [tauto|auto]. }
  set (s2 := with_regions s1 m) in *. set (edges := members ≫= live_edges s2) in *. set (s3 := retire s2 edges) in *.
  (* both exits build the same store *)
  assert (exists s4 fr, foldl teardown_member (s3, 0%N) members = (s4, fr) /\ s' = s4 /\
    length frontier <= length (frontier_of edges ++ (members ≫= fun me => discharge_entry s3 me.2)))
    as (s4 & fr & E4 & -> & Hfr).
  { destruct members as [|me members].
    - simplify_eq/=. do 2 eexists. done.
    - destruct (foldl teardown_member (s3, 0%N) (me :: members)) as [s4 fr]. simplify_eq. do 2 eexists. done. }
  clear Ht.
  destruct (retire_frame edges s2) as (F1 & F2 & F3 & F4 & F5 & F6 & _ & F8). fold s3 in F1, F2, F3, F4, F5, F6, F8.
  simpl in F1, F2, F3, F4, F5, F6, F8.
  destruct (teardown_members_spec _ _ _ _ _ E4) as (G1 & G2 & G3 & G4 & G5 & G6 & [G7 G8 G9 G10] & G11).
  { intros r Hr%Hmem. rewrite F3, Hl2. pose proof (io_live s (so_ids lost s Hok) r (dy_live _ _ _ _ Hdy r Hr)).
    pose proof (io_len s (so_ids lost s Hok)). lia. }
  { done. }
  assert (shape <$> regions s3 = shape <$> m) as Hsh by (unfold s3; by rewrite retire_proj).
  assert (forall w : RegionEntry -> nat, (forall e l, w (set_children e l) = w e) -> (forall e i, w (set_incoming e i) = w e) ->
    weight w (regions s1) = weight w (regions s3) + sum_list_with (fun me => w me.2) members) as Hws.
  { intros w W1 W2. rewrite (Hwt w W1). f_equal. apply weight_ext. symmetry. unfold s3. by rewrite retire_proj. }
  assert (forall k, is_Some (regions s3 !! k) <-> is_Some (regions s !! k) /\ k ∉ D) as Hlive.
  { intros k. rewrite (is_Some_shape _ _ k Hsh), Hm', <- Hlive1. destruct (decide (k ∈ D)); [|tauto].
    split; [by intros []|tauto]. }
  exists D. split.
  - split.
    + destruct (so_ids lost s Hok) as [Hi1 Hi2]. split; [|congruence]. intros r Hr. rewrite G1 in Hr.
      rewrite G2, F2, Hl1. apply Hi1. by apply Hlive.
    + rewrite G1, Hsh. by eapply dropped_forest.
    + rewrite G1. eapply (drop_edges s1 s2 D members); [|exact Hm'|].
      * rewrite (Hproj _ ledger) by done. apply Hok.
      * intros r e Hr He. apply Hmem in Hr as ([r' e'] & -> & Hin')%list_elem_of_fmap.
        destruct (Hent _ _ Hin') as (e0 & He0 & ->). exists (set_children e0 []). split; [done|].
        simpl in *. congruence.
    + destruct Hga as [A1 A2 A3 A4]. pose proof (so_gauge lost s Hok) as Hgk. unfold gauge_ok, owned_count in *.
      rewrite G1, G7, G8, G9, G10, F1. specialize (Hws owned_weight owned_weight_children ltac:(done)). lia.
  - intros k. rewrite G1. apply Hlive.
  - apply Hdy.
  - apply Hdy.
  - apply Hdy.
  - intros b e a. apply Hdy.
  - intros r. unfold region_is_owned. rewrite G1. destruct (regions s3 !! r) as [e3|] eqn:E3; [|done].
    assert ((shape <$> m) !! r = Some (shape e3)) as Hx by by rewrite <- Hsh, lookup_fmap, E3.
    rewrite lookup_fmap, Hm' in Hx. destruct (decide (r ∈ D)); [done|]. rewrite <- lookup_fmap in Hx.
    specialize (Hrel r). rewrite lookup_fmap in Hrel. destruct (regions s !! r) as [e|]; simpl in Hrel; [|congruence].
    destruct Hrel as (l' & Hl' & _). rewrite Hl' in Hx. unfold shape in Hx. injection Hx as Ho _.
    intros Hown. destruct (reclaim e3); [done|]. simpl in Ho. destruct (decide _); [done|]. by destruct (reclaim e).
  - intros k. rewrite G11. assert (forall k, generation_raw s3 k = generation_raw s k) as ->
      by (intros; unfold generation_raw; by rewrite F4, Hl3). apply decide_ext. apply Hmem.
  - exists (rev members.*1). rewrite G6, F5, Hl4. split; [done|]. rewrite <- Permutation_rev.
    apply NoDup_Permutation; [done|apply NoDup_elements|]. intros x. by rewrite Hmem, elem_of_elements.
  - congruence.
  - split; congruence.
  - rewrite G1. pose proof (cascade_length s2 s3 members) as Hc. fold edges in Hc.
    specialize (Hws dues_weight dues_weight_children ltac:(done)).
    assert (weight dues_weight (regions s1) = weight dues_weight (regions s)) as Hd; [|lia].
    apply weight_ext, Hproj; done.
Qed.

(** ** The cascade *)

(** What a free does to the ids and generations of a store, whatever cascades. *)
Record cascaded (s s' : RegionStore) : Prop := {
  ca_live k : is_Some (regions s' !! k) -> is_Some (regions s !! k);
  ca_gen k : generation_raw s' k =
    if decide (is_Some (regions s !! k) /\ regions s' !! k = None)
    then wrapping_add 32 (generation_raw s k) 1 else generation_raw s k;
  ca_free : exists l, free_physical s' = l ++ free_physical s /\ NoDup l /\
    forall k, k ∈ l <-> is_Some (regions s !! k) /\ regions s' !! k = None;
  ca_next : next_physical s' = next_physical s;
  ca_lens : table_len s' = table_len s /\ gen_len s' = gen_len s;
  ca_owned r : region_is_owned s' r = true -> region_is_owned s r = true }.

Lemma cascaded_refl s : cascaded s s.
Proof.
  split; try done.
  - intros k. rewrite decide_False; [done|]. intros [[? H1] H2]. congruence.
  - exists []. split_and!; [done|apply NoDup_nil_2|]. intros k. split; [set_solver|]. intros [[? H1] H2]. congruence.
Qed.

Lemma dead_or_live s k : is_Some (regions s !! k) \/ regions s !! k = None.
Proof. destruct (regions s !! k); eauto. Qed.

Lemma cascaded_trans s1 s2 s3 : cascaded s1 s2 -> cascaded s2 s3 -> cascaded s1 s3.
Proof.
  intros [A1 A2 (l & A3 & A4 & A5) A6 [A7 A8] A9] [B1 B2 (k & B3 & B4 & B5) B6 [B7 B8] B9].
  assert (forall x, regions s2 !! x = None -> regions s3 !! x = None) as Hmono.
  { intros x Hx. destruct (dead_or_live s3 x) as [Hl|]; [|done]. apply B1 in Hl as [? ?]. congruence. }
  split; try congruence; auto.
  - intros x. rewrite B2, A2. destruct (dead_or_live s2 x) as [L2|D2].
    + rewrite (decide_False (P := is_Some (regions s1 !! x) /\ regions s2 !! x = None))
        by (intros [_ Hx]; destruct L2; congruence).
      apply decide_ext. split; intros [_ ?]; auto.
    + rewrite (decide_False (P := is_Some (regions s2 !! x) /\ _)) by (intros [[? ?] _]; congruence).
      apply decide_ext. split; intros [? _]; auto.
  - exists (k ++ l). rewrite B3, A3, app_assoc. split; [done|]. split.
    + apply NoDup_app. split_and!; try done. intros x Hx Hy. apply B5 in Hx as [[? ?] _]. apply A5 in Hy as [_ ?]. congruence.
    + intros x. rewrite elem_of_app, A5, B5. split.
      * intros [[? ?]|[? ?]]; split; auto.
      * intros [H1 H2]. destruct (dead_or_live s2 x); [by left|by right].
  - split; congruence.
Qed.

Lemma ledgers_cascaded s s' :
  same_ledgers s s' -> generations s' = generations s -> free_physical s' = free_physical s ->
  next_physical s' = next_physical s -> cascaded s s'.
Proof.
  intros [Hs _ _ Hl] Hg Hf Hn. assert (forall k, is_Some (regions s' !! k) <-> is_Some (regions s !! k)) as Hk
    by (intros k; by apply is_Some_shape).
  assert (forall k, ~ (is_Some (regions s !! k) /\ regions s' !! k = None)) as Hno.
  { intros k [H1 H2]. apply Hk in H1 as [? ?]. congruence. }
  split; try done.
  - intros k. by apply Hk.
  - intros k. rewrite decide_False by done. unfold generation_raw. by rewrite Hg.
  - exists []. split_and!; [done|apply NoDup_nil_2|]. intros k. split; [set_solver|]. intros ?. by destruct (Hno k).
  - intros r. unfold region_is_owned. assert ((shape <$> regions s') !! r = (shape <$> regions s) !! r) as Hr by by rewrite Hs.
    rewrite !lookup_fmap in Hr. apply (f_equal (fmap fst)) in Hr.
    destruct (regions s !! r) as [e|], (regions s' !! r) as [e'|]; simpl in Hr; try done.
    injection Hr as Ho. destruct (reclaim e), (reclaim e'); done.
Qed.

Lemma torn_down_cascaded s roots s' frontier D : torn_down s roots s' frontier D -> cascaded s s'.
Proof.
  intros [_ T1 T2 _ _ _ T3 T4 (l & T5 & T6) T7 T8 _].
  assert (forall k, k ∈ D <-> is_Some (regions s !! k) /\ regions s' !! k = None) as HD.
  { intros k. split.
    - intros Hk. split; [auto|]. destruct (dead_or_live s' k) as [Hl|]; [|done]. by apply T1 in Hl as [_ ?].
    - intros [H1 H2]. destruct (decide (k ∈ D)) as [|Hn]; [done|]. destruct (T1 k) as [_ Hx].
      destruct Hx as [? ?]; [done|]. congruence. }
  split; try done.
  - intros k Hk. by apply T1 in Hk as [? _].
  - intros k. rewrite T4. apply decide_ext. apply HD.
  - exists l. split_and!; [done| |].
    + rewrite T6. apply NoDup_elements.
    + intros k. rewrite T6, elem_of_elements. apply HD.
Qed.

Lemma decref_reaches_zero_cascaded s id fc s' z : decref_reaches_zero s id fc = (s', z) -> cascaded s s'.
Proof.
  intros Hd. apply ledgers_cascaded; [by eapply decref_reaches_zero_ledgers|..];
    unfold decref_reaches_zero in Hd; repeat case_match; simplify_eq/=; done.
Qed.

(** A reference that reaches zero names a counted region. *)
Lemma decref_reaches_zero_counted s id fc s' :
  decref_reaches_zero s id fc = (s', true) -> region_is_owned s id = false.
Proof.
  unfold decref_reaches_zero, region_is_owned. destruct (regions s !! id) as [e|]; [|done].
  by destruct (reclaim e).
Qed.

Lemma decref_reaches_zero_weight s id fc s' z :
  decref_reaches_zero s id fc = (s', z) -> weight dues_weight (regions s') = weight dues_weight (regions s).
Proof.
  unfold decref_reaches_zero. intros Hd. repeat case_match; simplify_eq/=; try done.
  apply weight_ext. by apply fmap_alter_same.
Qed.

Definition queue_ok (s : RegionStore) (l : list Work) : Prop :=
  forall w r, w ∈ l -> r ∈ w.1 -> region_is_owned s r = false.

Lemma queue_ok_cascaded s s' l : cascaded s s' -> queue_ok s l -> queue_ok s' l.
Proof.
  intros Hc Hq w r Hw Hr. specialize (Hq w r Hw Hr). destruct (region_is_owned s' r) eqn:E; [|done].
  apply (ca_owned _ _ Hc) in E. congruence.
Qed.

Lemma decref_frontier_spec src frontier s queued s' queued' :
  foldl (decref_frontier src) (s, queued) frontier = (s', queued') ->
  store_ok lost s -> queue_ok s queued ->
  store_ok lost s' /\ cascaded s s' /\ queue_ok s' queued' /\
  length queued' <= length queued + length frontier /\
  weight dues_weight (regions s') = weight dues_weight (regions s).
Proof.
  revert s queued. induction frontier as [|r frontier IH]; intros s queued Hf Hok Hq; cbn [foldl] in Hf.
  { simplify_eq. split_and!; [done|apply cascaded_refl|done|simpl; lia|done]. }
  unfold decref_frontier at 2 in Hf. destruct (RuntimeRegion_new r) as [r'|] eqn:Er.
  - destruct (decref_reaches_zero s r' src) as [s1 z] eqn:Ed.
    pose proof (decref_reaches_zero_cascaded _ _ _ _ _ Ed) as Hc1.
    assert (store_ok lost s1) as Hok1 by (eapply same_ledgers_ok; [by eapply decref_reaches_zero_ledgers|done]).
    destruct (IH _ _ Hf Hok1) as (I1 & I2 & I3 & I4 & I5).
    { pose proof (queue_ok_cascaded _ _ _ Hc1 Hq) as Hq1. destruct z; [|done].
      intros w x [Hw|Hw%list_elem_of_singleton]%elem_of_app; [by apply Hq1|]. subst w.
      intros ->%list_elem_of_singleton. apply decref_reaches_zero_counted in Ed.
      destruct (region_is_owned s1 r') eqn:E; [|done]. apply (ca_owned _ _ Hc1) in E. congruence. }
    split_and!; [done|by eapply cascaded_trans|done| |].
    + destruct z; rewrite ?length_app in I4; simpl in *; lia.
    + rewrite I5. by eapply decref_reaches_zero_weight.
  - destruct (IH _ _ Hf Hok Hq) as (I1 & I2 & I3 & I4 & I5). split_and!; try done. simpl. lia.
Qed.

(** One round of the cascade, and what the whole loop keeps. *)
Definition cascade_inv (s0 : RegionStore) (st : RegionStore * N) (l : list Work) : Prop :=
  store_ok lost st.1 /\ queue_ok st.1 l /\ cascaded s0 st.1.

Lemma cascade_step_spec s0 st w rest st1 new :
  cascade_inv s0 st (w :: rest) -> cascade_step st w = (st1, new) ->
  cascade_inv s0 st1 (rev new ++ rest) /\ length new + cascade_potential st1 <= cascade_potential st.
Proof.
  destruct st as [s freed]. intros (Hok & Hq & Hc) Hs. unfold cascade_step in Hs. simpl in Hok, Hq, Hc.
  destruct (teardown_set s w.1) as [[s1 n] frontier] eqn:Et.
  destruct (foldl (decref_frontier (head w.1)) (s1, []) frontier) as [s2 queued] eqn:Ef. simplify_eq/=.
  destruct (teardown_set_spec s w.1 s1 n frontier Hok) as [D Htd]; [|done|].
  { intros r Hr. apply (Hq w r); [set_solver|done]. }
  pose proof (torn_down_cascaded _ _ _ _ _ Htd) as Hc1.
  destruct (decref_frontier_spec _ _ _ _ _ _ Ef) as (I1 & I2 & I3 & I4 & I5); [apply Htd|by intros ? ? ?%elem_of_nil|].
  assert (cascaded s s2) as Hc2 by by eapply cascaded_trans.
  split; [split_and!|]; simpl.
  - done.
  - intros x r [Hx|Hx]%elem_of_app Hr.
    + apply (I3 x r); [|done]. by rewrite list_elem_of_In, in_rev, <- list_elem_of_In.
    + eapply (queue_ok_cascaded s s2 rest Hc2); [|exact Hx|exact Hr]. intros y z Hy. apply Hq. set_solver.
  - by eapply cascaded_trans.
  - unfold cascade_potential. simpl. pose proof (td_pays _ _ _ _ _ Htd). simpl in I4. lia.
Qed.

Lemma free_region_set_spec s roots fc :
  store_ok lost s -> (forall r, r ∈ roots -> region_is_owned s r = false) ->
  drain cascade_step (1 + cascade_potential (s, 0%N)) (s, 0%N) [(roots, fc)] = Some (free_region_set s roots fc) /\
  store_ok lost (free_region_set s roots fc).1 /\ cascaded s (free_region_set s roots fc).1.
Proof.
  intros Hok Hr.
  destruct (drained_spec cascade_step (cascade_inv s) cascade_potential (s, 0%N) [(roots, fc)]) as [H1 (H2 & _ & H3)].
  - intros s1 x rest s2 new HI Hs. by eapply cascade_step_spec.
  - intros s1 x rest s2 new HI Hs. by eapply cascade_step_spec.
  - split_and!; simpl; [done| |apply cascaded_refl].
    intros w r ->%list_elem_of_singleton Hin. by apply Hr.
  - done.
Qed.

(** The set torn down first stays dead: every live root is freed. *)
Lemma drain_unfold1 {S A} (step : S -> A -> S * list A) fuel s x :
  drain step (Datatypes.S fuel) s [x] = let '(s', new) := step s x in drain step fuel s' (rev new ++ []).
Proof. reflexivity. Qed.

Lemma decref_with_cascade_spec s id fc s' n :
  store_ok lost s -> decref_with_cascade s id fc = (s', n) -> store_ok lost s' /\ cascaded s s'.
Proof.
  unfold decref_with_cascade. intros Hok Hd. destruct (decref_reaches_zero s id fc) as [s1 z] eqn:E.
  assert (store_ok lost s1) as Hok1 by (eapply same_ledgers_ok; [by eapply decref_reaches_zero_ledgers|done]).
  pose proof (decref_reaches_zero_cascaded _ _ _ _ _ E) as Hc1. destruct z; [|by simplify_eq].
  unfold free_runtime_region_pages in Hd.
  destruct (free_region_set_spec s1 [id] fc Hok1) as (_ & I2 & I3).
  - intros r ->%list_elem_of_singleton. apply decref_reaches_zero_counted in E.
    destruct (region_is_owned s1 id) eqn:Eo; [|done]. apply (ca_owned _ _ Hc1) in Eo. congruence.
  - rewrite Hd in *. simpl in *. split; [done|by eapply cascaded_trans].
Qed.

End Teardown.
End Lost.
