(* ===== verification/RegionProps.v ===== *)
(** * What the region store guarantees

    The reachable states of a store under every operation that changes it, the
    id lifecycle, the effect of a release on each of its branches, and the
    soundness of the subtree drop. *)

From stdpp Require Import base numbers list option gmap fin_maps sets.
From S2P Require Import Prelude Regions RegionFree RegionInv RegionTeardown.

(** ** Runs of a store *)

Section Runs.
Context `{EdgeOrder}.

(** What a call does to the ids: hands one out, takes an unused one back,
    touches the named ids so that they exist afterwards, or mints and
    materializes an image region in one go. *)
Inductive IdEvent :=
| Minted (r : N)
| Returned (m : RegionMint)
| Materializes (ids : list N)
| Installed.

(** One call into the store.  The guards are what the callers owe and the
    release build does not check: ids are mortal, a region is adopted while
    nothing owns it, a group is freed while nothing owns its members, and
    recorded references fit the [u32] edge counts. *)
Inductive store_step : IdEvent -> RegionStore -> RegionStore -> Prop :=
| step_mint s r s' : new_runtime_region s = Some (r, s') -> store_step (Minted r) s s'
| step_mint_tracked s m s' : new_runtime_region_tracked s = Some (m, s') -> store_step (Minted (region m)) s s'
| step_recycle s m : store_step (Returned m) s (recycle_unmaterialized s m)
| step_alloc s id o claims p s' : (2 <= id)%N -> edges_fit s id o ->
    alloc_obj s id o claims = Some (p, s') -> store_step (Materializes [id]) s s'
| step_data s id claims s' : (2 <= id)%N -> alloc_data s id claims = Some s' -> store_step (Materializes [id]) s s'
| step_hydrate s np objs id s' : install_hydrated_region s np objs = Some (id, s') -> store_step Installed s s'
| step_incref s id s' : (2 <= id)%N -> incref s id = Some s' -> store_step (Materializes [id]) s s'
| step_decref s id : store_step (Materializes []) s (decref s id).1
| step_decref_if_present s id : store_step (Materializes []) s (decref_if_present s id).1
| step_record s src dst : (edge_count s src dst + 1 < 2 ^ 32)%N ->
    store_step (Materializes []) s (record_outgoing s src dst)
| step_unrecord s src dst : store_step (Materializes []) s (unrecord_outgoing s src dst)
| step_adopt s parent child s' : (2 <= parent)%N -> (2 <= child)%N -> region_is_owned s child = false ->
    adopt_region s parent child = Some s' -> store_step (Materializes [parent; child]) s s'
| step_extract s child : store_step (Materializes []) s (extract_owned_region s child)
| step_reparent s from to s' : (2 <= to)%N -> reparent_owned_children s from to = Some s' ->
    store_step (Materializes [to]) s s'
| step_free_group s members : (forall r, r ∈ members -> region_is_owned s r = false) ->
    store_step (Materializes []) s (free_region_group s members).1
| step_begin_log s : store_step (Materializes []) s (begin_mint_log s)
| step_reclaim_scope s protected : store_step (Materializes []) s (reclaim_mint_scope s protected).1.

(** The stores a run reaches, with the number of adoptions [teardown_all]
    ended on the way: it frees owned regions without counting them. *)
Inductive reachable_store : N -> RegionStore -> Prop :=
| reach_new i : reachable_store 0 (new i)
| reach_step lost ev s s' : reachable_store lost s -> store_step ev s s' -> reachable_store lost s'
| reach_teardown lost s : reachable_store lost s -> reachable_store (lost + owned_count s) (teardown_all s).

(** The ids in [tl] are gone and one generation on; nothing else moved. *)
Record torn_all (tl : list N) (s s' : RegionStore) : Prop := {
  ta_regions k : regions s' !! k = if decide (k ∈ tl) then None else regions s !! k;
  ta_gen k : generation_raw s' k =
    if decide (k ∈ tl /\ is_Some (regions s !! k)) then wrapping_add 32 (generation_raw s k) 1 else generation_raw s k;
  ta_ids : free_physical s' = free_physical s /\ next_physical s' = next_physical s;
  ta_lens : table_len s' = table_len s /\ gen_len s' = gen_len s;
  ta_counters : counters s' = counters s }.

Lemma teardown_ids tl s :
  NoDup tl -> (forall k, is_Some (regions s !! k) -> (k < gen_len s)%N) ->
  torn_all tl s (foldl (fun s idx =>
    match regions s !! idx with
    | Some e => (release_pages (with_regions s (delete idx (regions s))) idx e).1
    | None => s
    end) s tl).
Proof.
  revert s. induction tl as [|i tl IH]; intros s Hnd Hlt; cbn [foldl].
  { by split. }
  apply NoDup_cons in Hnd as [Hi Hnd]. destruct (regions s !! i) as [e|] eqn:Ei.
  - unfold release_pages, bump_generation. cbn [gen_len with_images with_regions fst].
    assert ((i <? gen_len s)%N = true) as -> by (apply N.ltb_lt, Hlt; by rewrite Ei).
    destruct (IH (with_generations
      (with_images (with_regions s (delete i (regions s))) (List.filter (fun r => negb (r =? i)%N) (images s)))
      (<[i := wrapping_add 32 (generation_raw s i) 1]> (generations s)))) as [T1 T2 T3 T4 T5]; [done| |].
    { simpl. intros k [_ Hk]%lookup_delete_is_Some. by apply Hlt. }
    simpl in T1, T2, T3, T4, T5. split; [| |done..].
    + intros k. rewrite T1. destruct (decide (k = i)) as [->|Hk].
      * rewrite lookup_delete_eq, (decide_True (P := i ∈ i :: tl)) by set_solver. by destruct (decide _).
      * rewrite lookup_delete_ne by done. apply decide_ext. set_solver.
    + intros k. rewrite T2. unfold generation_raw. simpl. destruct (decide (k = i)) as [->|Hk].
      * rewrite decide_False by (by intros []). rewrite decide_True by (rewrite Ei; set_solver).
        by rewrite lookup_insert_eq.
      * rewrite lookup_insert_ne, lookup_delete_ne by done. apply decide_ext. set_solver.
  - destruct (IH s Hnd Hlt) as [T1 T2 T3 T4 T5]. split; [| |done..].
    + intros k. rewrite T1. destruct (decide (k = i)) as [->|Hk].
      * rewrite Ei. by do 2 destruct (decide _).
      * apply decide_ext. set_solver.
    + intros k. rewrite T2. apply decide_ext. destruct (decide (k = i)) as [->|Hk]; [|set_solver].
      rewrite Ei. split; by intros [_ [? ?]].
Qed.

(** [teardown_all] leaves no region, every id that was live one generation on. *)
Lemma teardown_all_spec {lost} s : store_ok lost s ->
  regions (teardown_all s) = ∅ /\
  (forall k, generation_raw (teardown_all s) k =
     if decide (is_Some (regions s !! k)) then wrapping_add 32 (generation_raw s k) 1 else generation_raw s k) /\
  free_physical (teardown_all s) = free_physical s /\ next_physical (teardown_all s) = next_physical s /\
  store_ok (lost + owned_count s) (teardown_all s).
Proof.
  intros [[Hi1 Hi2] _ _ Hga].
  assert (forall k, is_Some (regions s !! k) -> k ∈ N.of_nat <$> seq 0 (N.to_nat (table_len s))) as Hin.
  { intros k Hk%Hi1. apply list_elem_of_fmap. exists (N.to_nat k). split; [lia|]. apply elem_of_seq. lia. }
  destruct (teardown_ids (N.of_nat <$> seq 0 (N.to_nat (table_len s))) s) as [T1 T2 [T3 T4] [T5 T6] T7].
  { apply NoDup_fmap_2; [apply _|apply NoDup_seq]. }
  { intros k Hk%Hi1. lia. }
  fold (teardown_all s) in T1, T2, T3, T4, T5, T6, T7.
  assert (regions (teardown_all s) = ∅) as Hr.
  { apply map_eq. intros k. rewrite T1, lookup_empty. destruct (decide _) as [|Hn]; [done|].
    destruct (dead_or_live s k) as [Hl|]; [|done]. by apply Hin in Hl. }
  split_and!; try done.
  - intros k. rewrite T2. apply decide_ext. naive_solver.
  - split; rewrite ?Hr, ?fmap_empty.
    + split; [|congruence]. rewrite Hr. intros r [e He]. done.
    + split; naive_solver.
    + split; naive_solver.
    + unfold gauge_ok in *. rewrite T7. unfold owned_count at 1. rewrite Hr, weight_empty. lia.
Qed.

Lemma balance_ok {lost} n st m st' :
  store_ok lost st.1 -> balance n st m = st' -> store_ok lost st'.1 /\ cascaded st.1 st'.1.
Proof.
  revert st. induction n as [|n IH]; intros [s freed] Hok Hb; simpl in Hb; [subst; split; [done|apply cascaded_refl]|].
  destruct (still_minted s m); [|subst; split; [done|apply cascaded_refl]].
  destruct (RuntimeRegion_new m.1) as [r|]; [|by apply (IH (s, freed))].
  destruct (decref_with_cascade s r None) as [s1 n1] eqn:Ed.
  destruct (decref_with_cascade_spec _ _ _ _ _ Hok Ed) as [Hok1 Hc1].
  destruct (IH (s1, (freed + n1)%N) Hok1 Hb) as [? ?]. split; [done|by eapply cascaded_trans].
Qed.

Lemma mint_log_ok {lost} s l : store_ok lost s -> store_ok lost (with_mint_log s l).
Proof. intros [[? ?] ? ? ?]. by split. Qed.

Lemma reclaim_mint_scope_ok {lost} s protected : store_ok lost s ->
  store_ok lost (reclaim_mint_scope s protected).1 /\ cascaded s (reclaim_mint_scope s protected).1.
Proof.
  intros Hok. unfold reclaim_mint_scope. destruct (mint_log s) as [log|]; [|split; [done|apply cascaded_refl]].
  assert (cascaded s (with_mint_log s None)) as Hc0 by (by apply ledgers_cascaded).
  pose proof (mint_log_ok s None Hok) as Hok0.
  destruct (scope_survivors _ protected log) as [surv survivors].
  set (l := (fun m => (m, _)) <$> survivors). clearbody l.
  assert (forall st, store_ok lost st.1 ->
    store_ok lost (foldl (fun st em => balance em.2 st em.1) st l).1 /\
    cascaded st.1 (foldl (fun st em => balance em.2 st em.1) st l).1) as Hl.
  { induction l as [|[m n] l IH]; intros st Hst; cbn [foldl]; [split; [done|apply cascaded_refl]|].
    destruct (balance_ok n st m _ Hst eq_refl) as [H1 H2]. destruct (IH _ H1) as [? ?].
    split; [done|by eapply cascaded_trans]. }
  destruct (Hl (with_mint_log s None, 0%N) Hok0) as [? ?]. split; [done|by eapply cascaded_trans].
Qed.

Lemma store_step_ok {lost} ev s s' : store_step ev s s' -> store_ok lost s -> store_ok lost s'.
Proof.
  intros Hs Hok. destruct Hs as [s r s' Hm|s m s' Hm|s m|s id o cl p s' H2 Hfit Ha|s id cl s' H2 Ha|s np objs id s' Hi
    |s id s' H2 Hi|s id|s id|s src dst Hlt|s src dst|s p c s' Hp Hc Hno Ha|s c|s f t s' H2 Hr|s ms Hms|s|s pr].
  - eapply same_ledgers_ok; [by eapply new_runtime_region_ledgers|done].
  - unfold new_runtime_region_tracked in Hm. destruct (new_runtime_region s) as [[r s1]|] eqn:E; [|done].
    simpl in Hm. simplify_eq. eapply same_ledgers_ok; [by eapply new_runtime_region_ledgers|done].
  - eapply same_ledgers_ok; [apply recycle_ledgers|done].
  - exact (alloc_obj_ok _ _ _ _ _ _ H2 Hfit Ha Hok).
  - exact (alloc_data_ok _ _ _ _ H2 Ha Hok).
  - by eapply install_hydrated_region_ok.
  - exact (incref_ok _ _ _ H2 Hi Hok).
  - destruct (decref s id) eqn:E. by eapply decref_with_cascade_spec.
  - unfold decref_if_present. destruct (live s id); [|done]. destruct (decref s id) eqn:E. by eapply decref_with_cascade_spec.
  - by apply record_outgoing_ok.
  - by apply unrecord_outgoing_ok.
  - exact (adopt_region_ok _ _ _ _ Hp Hc Hno Ha Hok).
  - by apply extract_owned_region_ok.
  - exact (reparent_owned_children_ok _ _ _ _ H2 Hr Hok).
  - by apply free_region_set_spec.
  - by apply mint_log_ok.
  - by apply reclaim_mint_scope_ok.
Qed.

Lemma reachable_ok lost s : reachable_store lost s -> store_ok lost s.
Proof. induction 1; [apply store_ok_new|by eapply store_step_ok|by apply teardown_all_spec]. Qed.

(** ** The id lifecycle *)

(** [reserved] holds the ids a mint handed out that nothing has touched yet.
    Live, reserved and free ids are pairwise disjoint, all below the counter,
    and no id is listed free twice. *)
Record lifecycle (s : RegionStore) (reserved : gset N) : Prop := {
  lc_nodup : NoDup (free_physical s);
  lc_free k : k ∈ free_physical s -> (2 <= k < next_physical s)%N /\ regions s !! k = None /\ k ∉ reserved;
  lc_live k : is_Some (regions s !! k) -> (2 <= k < next_physical s)%N /\ k ∉ reserved;
  lc_reserved k : k ∈ reserved -> (2 <= k < next_physical s)%N;
  lc_next : (2 <= next_physical s)%N }.

Lemma pop_free_head s free : (forall k, k ∈ free -> regions s !! k = None) ->
  pop_free s free = match free with [] => None | id :: rest => Some (id, rest) end.
Proof.
  intros Hf. destruct free as [|id rest]; [done|]. simpl.
  unfold live. by rewrite (Hf id), bool_decide_eq_false_2 by set_solver.
Qed.

Lemma not_live_above s res k : lifecycle s res -> (next_physical s <= k)%N -> regions s !! k = None.
Proof.
  intros Hl Hk. destruct (dead_or_live s k) as [Hx|]; [|done]. apply (lc_live _ _ Hl) in Hx. lia.
Qed.

Lemma log_mint_frame s id :
  regions (log_mint s id) = regions s /\ free_physical (log_mint s id) = free_physical s /\
  next_physical (log_mint s id) = next_physical s.
Proof. unfold log_mint. by destruct (mint_log s). Qed.

Lemma mint_lifecycle s res :
  lifecycle s res -> (next_physical s + 1 < 2 ^ 32)%N ->
  exists r s', new_runtime_region s = Some (r, s') /\ regions s' = regions s /\
    regions s !! r = None /\ r ∉ res /\ lifecycle s' ({[r]} ∪ res).
Proof.
  intros Hl Hn. pose proof Hl as [L1 L2 L3 L4 L5]. unfold new_runtime_region.
  rewrite pop_free_head by (intros k Hk; by apply L2).
  destruct (free_physical s) as [|id rest] eqn:Ef.
  - simpl. unfold live. rewrite (not_live_above s res) by (done || lia).
    rewrite bool_decide_eq_false_2 by (by intros []). simpl.
    rewrite (RuntimeRegion_new_Some _ L5). simpl. unfold wrapping_add. rewrite N.mod_small by done.
    do 2 eexists. split; [done|]. destruct (log_mint_frame (with_ids s (next_physical s + 1) []) (next_physical s)) as (F1 & F2 & F3).
    split_and!; [done|by eapply not_live_above|intros Hr; apply L4 in Hr; lia|].
    split; rewrite ?F1, ?F2, ?F3; simpl.
    + apply NoDup_nil_2.
    + set_solver.
    + intros k Hk. apply L3 in Hk as [? ?]. split; [lia|]. set_solver by lia.
    + intros k [->%elem_of_singleton|Hk]%elem_of_union; [lia|]. apply L4 in Hk. lia.
    + lia.
  - simpl. destruct (L2 id) as (Hid & Hdead & Hres); [set_solver|].
    rewrite (RuntimeRegion_new_Some id) by lia. simpl.
    do 2 eexists. split; [done|]. destruct (log_mint_frame (with_ids s (next_physical s) rest) id) as (F1 & F2 & F3).
    apply NoDup_cons in L1 as [Hnin Hnd].
    split_and!; try done. split; rewrite ?F1, ?F2, ?F3; simpl; try done.
    + intros k Hk. destruct (L2 k) as (? & ? & ?); [set_solver|]. split; [done|]. split; [done|set_solver].
    + intros k Hk. destruct (L3 k Hk) as [? ?]. split; [done|]. destruct Hk. set_solver by congruence.
    + intros k [->%elem_of_singleton|Hk]%elem_of_union; [done|]. by apply L4.
Qed.

(** [s'] is [s] with at most the ids of [T] materialized: no id is handed out
    or recycled, and nothing is freed. *)
Record materialized (T : gset N) (s s' : RegionStore) : Prop := {
  ma_free : free_physical s' = free_physical s;
  ma_next : next_physical s' = next_physical s;
  ma_live k : is_Some (regions s' !! k) -> is_Some (regions s !! k) \/ k ∈ T;
  ma_grows k : is_Some (regions s !! k) -> is_Some (regions s' !! k) }.

Lemma materialized_trans T s1 s2 s3 : materialized T s1 s2 -> materialized T s2 s3 -> materialized T s1 s3.
Proof.
  intros [A1 A2 A3 A4] [B1 B2 B3 B4]. split; [congruence|congruence| |by auto].
  intros k [Hk|Hk]%B3; [by apply A3|by right].
Qed.

Lemma materialized_mono T T' s s' : T ⊆ T' -> materialized T s s' -> materialized T' s s'.
Proof. intros HT [A1 A2 A3 A4]. split; try done. intros k [?|?]%A3; [by left|right; set_solver]. Qed.

(** An update that keeps every entry in its slot. *)
Lemma materialized_same T s s' :
  free_physical s' = free_physical s -> next_physical s' = next_physical s ->
  (forall k, is_Some (regions s' !! k) <-> is_Some (regions s !! k)) -> materialized T s s'.
Proof. intros H1 H2 H3. split; try done; intros k Hk; [left|]; by apply H3. Qed.

Lemma materialized_refl T s : materialized T s s.
Proof. by apply materialized_same. Qed.

Lemma materialized_upd T s k f : materialized T s (upd s k f).
Proof. apply materialized_same; [done|done|]. intros i. simpl. apply is_Some_alter. Qed.

Lemma materialized_ensure s id s' : ensure_raw s id = Some s' -> materialized {[id]} s s'.
Proof.
  intros He. destruct (ensure_raw_lookup _ _ _ He) as (Hr & _).
  assert (free_physical s' = free_physical s /\ next_physical s' = next_physical s) as [F1 F2]
    by (unfold ensure_raw in He; repeat case_match; naive_solver).
  split; [done|done|..]; intros k; rewrite Hr; (destruct (regions s !! id) as [e|] eqn:E; [by auto|]).
  - intros [->|[_ ?]]%lookup_insert_is_Some; [right; set_solver|by left].
  - intros Hk. apply lookup_insert_is_Some'. by right.
Qed.

Lemma materialized_live T s s' id :
  is_Some (regions s !! id) -> materialized ({[id]} ∪ T) s s' -> materialized T s s'.
Proof.
  intros Hid [A1 A2 A3 A4]. split; try done. intros k [|[->%elem_of_singleton|]%elem_of_union]%A3; auto.
Qed.

Lemma materialized_incref s id s' : incref s id = Some s' -> materialized {[id]} s s'.
Proof.
  unfold incref. destruct (ensure_raw s id) as [s1|] eqn:E; [|done]. intros [= <-].
  eapply materialized_trans; [by apply materialized_ensure|apply materialized_upd].
Qed.

Lemma materialized_record T s src dst : materialized T s (record_outgoing s src dst).
Proof.
  unfold record_outgoing. repeat case_match; try apply materialized_refl.
  eapply materialized_trans; apply materialized_upd.
Qed.

Lemma materialized_unrecord T s src dst : materialized T s (unrecord_outgoing s src dst).
Proof.
  unfold unrecord_outgoing. repeat case_match; try apply materialized_refl;
    (eapply materialized_trans; apply materialized_upd).
Qed.

(** A resolved reference is 0 or names a live region. *)
Lemma owning_region_live s ptr : owning_region s ptr = 0%N \/ is_Some (regions s !! owning_region s ptr).
Proof.
  unfold owning_region, image_region_of. destruct (List.find _ (images s)) as [rid|] eqn:E.
  - apply List.find_some in E as [_ E]. destruct (regions s !! rid) eqn:Er; [|done]. right. eauto.
  - unfold region_owns. destruct (2 <=? ptr_region ptr)%N; [|by left].
    destruct (regions s !! ptr_region ptr) as [e|] eqn:Er; simpl; [|by left].
    destruct (pool_owns (pool e) ptr); [|by left]. right. rewrite ?Er. eauto.
Qed.

Lemma cross_refs_live s own o rid :
  rid ∈ find_object_cross_refs own (owning_region s) o -> is_Some (regions s !! rid).
Proof.
  unfold find_object_cross_refs. rewrite list_elem_of_In, List.filter_In, <- list_elem_of_In, list_elem_of_fmap.
  intros [(ptr & -> & _) Hb]. destruct (owning_region_live s ptr) as [E|]; [|done]. by rewrite E in Hb.
Qed.

Lemma materialized_refs refs s own s' :
  (forall rid, rid ∈ refs -> is_Some (regions s !! rid)) -> incref_refs s own refs = Some s' ->
  materialized ∅ s s'.
Proof.
  revert s. induction refs as [|rid refs IH]; intros s Hl Hr; simpl in Hr; [simplify_eq; apply materialized_refl|].
  assert (exists s1, materialized ∅ s s1 /\ incref_refs (record_outgoing s1 own rid) own refs = Some s')
    as (s1 & Hm & Hr1).
  { destruct (RuntimeRegion_new rid) as [r|] eqn:E; [|by exists s; split; [apply materialized_refl|]].
    apply RuntimeRegion_new_inv in E as [-> _]. destruct (incref s rid) as [s1|] eqn:Ei; [|done].
    exists s1. split; [|done]. apply (materialized_live ∅ s s1 rid); [apply Hl; set_solver|].
    eapply materialized_mono; [|by apply materialized_incref]. set_solver. }
  pose proof (materialized_trans _ _ _ _ Hm (materialized_record ∅ s1 own rid)) as Hm1.
  eapply materialized_trans; [exact Hm1|]. apply IH; [|done].
  intros x Hx. apply (ma_grows _ _ _ Hm1), Hl. set_solver.
Qed.

Lemma materialized_alloc_obj s id o claims p s' :
  alloc_obj s id o claims = Some (p, s') -> materialized {[id]} s s'.
Proof.
  unfold alloc_obj, incref_cross_region_refs. intros Ha.
  destruct (ensure_raw s id) as [s1|] eqn:E1; [|done]. simpl in Ha.
  destruct (incref_refs s1 id _) as [s2|] eqn:E2; [|done]. simpl in Ha.
  destruct (regions s2 !! id) as [e|]; [|done]. simpl in Ha. simplify_eq.
  eapply materialized_trans; [by apply materialized_ensure|].
  eapply materialized_trans; [|apply materialized_upd].
  eapply (materialized_mono ∅); [set_solver|]. eapply materialized_refs; [|exact E2].
  intros rid. apply cross_refs_live.
Qed.

Lemma materialized_alloc_data s id claims s' : alloc_data s id claims = Some s' -> materialized {[id]} s s'.
Proof.
  unfold alloc_data. destruct (ensure_raw s id) as [s1|] eqn:E; [|done]. intros [= <-].
  eapply materialized_trans; [by apply materialized_ensure|apply materialized_upd].
Qed.

Lemma materialized_adopt s parent child s' :
  adopt_region s parent child = Some s' -> materialized {[parent; child]} s s'.
Proof.
  unfold adopt_region. intros Ha. destruct (ensure_raw s parent) as [s1|] eqn:E1; [|done]. simpl in Ha.
  destruct (ensure_raw s1 child) as [s2|] eqn:E2; [|done]. simpl in Ha.
  destruct (alter _ child (regions s2) !! parent); [|done]. simpl in Ha. injection Ha as <-.
  apply (materialized_trans _ _ s1).
  { eapply materialized_mono; [|by apply materialized_ensure]. set_solver. }
  apply (materialized_trans _ _ s2).
  { eapply materialized_mono; [|by apply materialized_ensure]. set_solver. }
  apply materialized_same; [done|done|]. intros k. simpl. by rewrite !is_Some_alter.
Qed.

Lemma materialized_extract T s child : materialized T s (extract_owned_region s child).
Proof.
  unfold extract_owned_region. repeat case_match; try apply materialized_refl.
  apply materialized_same; [done|done|]. intros k. simpl. by rewrite !is_Some_alter.
Qed.

Lemma materialized_reparent s from to s' :
  reparent_owned_children s from to = Some s' -> materialized {[to]} s s'.
Proof.
  unfold reparent_owned_children. intros Hr. destruct (from =? to)%N; [simplify_eq; apply materialized_refl|].
  destruct (regions s !! from) as [e|]; [|simplify_eq; apply materialized_refl].
  destruct (owned_children e) as [|c cs]; [simplify_eq; apply materialized_upd|].
  destruct (ensure_raw _ to) as [s3|] eqn:E3; [|done]. cbn [mbind option_bind] in Hr.
  destruct (restamp (regions s3) (c :: cs) to) as [m|] eqn:Em; [|done]. cbn [mbind option_bind] in Hr. injection Hr as <-.
  destruct (restamp_spec _ _ _ _ Em) as [Hm _].
  eapply materialized_trans; [apply (materialized_upd _ s from (fun e => set_children e []))|].
  eapply materialized_trans; [eapply materialized_trans; [|apply (materialized_ensure _ _ _ E3)]|].
  { by apply materialized_same. }
  apply materialized_same; [done|done|]. intros k. simpl. rewrite is_Some_alter, Hm. apply fmap_is_Some.
Qed.

(** Materializing reserved or live ids takes them off the reserve. *)
Lemma materialized_lifecycle T s s' res :
  materialized T s s' -> (forall k, k ∈ T -> k ∈ res \/ is_Some (regions s !! k)) ->
  lifecycle s res -> lifecycle s' (res ∖ T).
Proof.
  intros [M1 M2 M3 _] HT [L1 L2 L3 L4 L5]. split; rewrite ?M1, ?M2; try done.
  - intros k Hk. destruct (L2 k Hk) as (? & Hd & Hn). split; [done|]. split; [|set_solver].
    destruct (dead_or_live s' k) as [[[? ?]|Hx]%M3|]; [congruence| |done].
    destruct (HT k Hx) as [|[? ?]]; [done|congruence].
  - intros k [Hk|Hk]%M3; [destruct (L3 k Hk); set_solver|]. split; [|set_solver].
    destruct (HT k Hk) as [Hr|Hr]; [by apply L4|by apply L3].
  - intros k Hk. apply L4. set_solver.
Qed.

Lemma install_lifecycle s res np objs id s' :
  lifecycle s res -> (next_physical s + 1 < 2 ^ 32)%N -> install_hydrated_region s np objs = Some (id, s') ->
  lifecycle s' res.
Proof.
  intros Hl Hn Hi. unfold install_hydrated_region in Hi.
  destruct (mint_lifecycle s res Hl Hn) as (r & s1 & Hm & _ & _ & Hnr & Hl1). rewrite Hm in Hi. cbn [mbind option_bind] in Hi.
  destruct (ensure_raw s1 r) as [s2|] eqn:E2; [|done]. cbn [mbind option_bind] in Hi. simplify_eq.
  assert (res = ({[id]} ∪ res) ∖ {[id]}) as -> by set_solver.
  eapply materialized_lifecycle; [|intros k ?%elem_of_singleton; left; set_solver|exact Hl1].
  eapply materialized_trans; [by apply materialized_ensure|].
  eapply materialized_trans; [|apply materialized_upd]. by apply materialized_same; destruct (np =? 0)%N.
Qed.

(** The returned mint is unused and current, so its id goes on the free list. *)
Definition recycles (s : RegionStore) (m : RegionMint) : bool :=
  negb (live s (region m)) && (generation_raw s (region m) =? gen m)%N.

Lemma recycle_lifecycle s res m :
  lifecycle s res -> (recycles s m = true -> region m ∈ res) ->
  lifecycle (recycle_unmaterialized s m) (if recycles s m then res ∖ {[region m]} else res).
Proof.
  intros [L1 L2 L3 L4 L5] Hm. unfold recycle_unmaterialized. unfold recycles in *.
  destruct (live s (region m)) eqn:Ed; [by split|].
  destruct (generation_raw s (region m) =? gen m)%N; [|by split]. specialize (Hm eq_refl). simpl.
  assert (regions s !! region m = None) as Hd.
  { unfold live in Ed. apply bool_decide_eq_false in Ed. by apply eq_None_not_Some. }
  split; simpl; try done.
  - apply NoDup_cons. split; [|done]. intros Hin. by apply L2 in Hin as (_ & _ & ?).
  - intros k [->|Hk]%elem_of_cons; [split; [by apply L4|]; split; [done|set_solver]|].
    destruct (L2 k Hk) as (? & ? & ?). split; [done|]. split; [done|set_solver].
  - intros k Hk. destruct (L3 k Hk). set_solver.
  - intros k Hk. apply L4. set_solver.
Qed.

Lemma cascaded_lifecycle s s' res : cascaded s s' -> lifecycle s res -> lifecycle s' res.
Proof.
  intros [C1 _ (l & C2 & C3 & C4) C5 _ _] [L1 L2 L3 L4 L5]. split; rewrite ?C5; try done.
  - rewrite C2. apply NoDup_app. split_and!; try done. intros k Hk Hf. apply C4 in Hk as [[? ?] _].
    apply L2 in Hf as (_ & ? & _). congruence.
  - rewrite C2. intros k [Hk|Hk]%elem_of_app.
    + apply C4 in Hk as [Hl Hd]. destruct (L3 k Hl). done.
    + destruct (L2 k Hk) as (? & Hd & ?). split; [done|]. split; [|done].
      destruct (dead_or_live s' k) as [Hl|]; [|done]. apply C1 in Hl as [? ?]. congruence.
  - intros k Hk. auto.
Qed.

(** What the callers owe the ids: only reserved or live ids are materialized,
    a mint goes back at most once, and the counter does not wrap. *)
Definition allowed (ev : IdEvent) (s : RegionStore) (res : gset N) : Prop :=
  match ev with
  | Minted _ | Installed => (next_physical s + 1 < 2 ^ 32)%N
  | Returned m => recycles s m = true -> region m ∈ res
  | Materializes ids => forall id, id ∈ ids -> id ∈ res \/ is_Some (regions s !! id)
  end.

Definition reserve (ev : IdEvent) (s : RegionStore) (res : gset N) : gset N :=
  match ev with
  | Minted r => {[r]} ∪ res
  | Installed => res
  | Returned m => if recycles s m then res ∖ {[region m]} else res
  | Materializes ids => res ∖ list_to_set ids
  end.

(** The runs in which ids are used that way, with the ids then reserved. *)
Inductive tracked : RegionStore -> gset N -> Prop :=
| track_new i : tracked (new i) ∅
| track_step ev s s' res : tracked s res -> store_step ev s s' -> allowed ev s res -> tracked s' (reserve ev s res)
| track_teardown s res : tracked s res -> tracked (teardown_all s) res.

Lemma lifecycle_new i : lifecycle (new i) ∅.
Proof.
  split; simpl; [apply NoDup_nil_2|set_solver| |set_solver|lia]. intros k [e He]. done.
Qed.

(** A release materializes nothing. *)
Lemma release_lifecycle s s' res : cascaded s s' -> lifecycle s res -> lifecycle s' (res ∖ list_to_set []).
Proof. intros Hc Hl. simpl. rewrite difference_empty_L. by eapply cascaded_lifecycle. Qed.

Lemma store_step_lifecycle {lost} ev s s' res :
  store_ok lost s -> store_step ev s s' -> allowed ev s res -> lifecycle s res -> lifecycle s' (reserve ev s res).
Proof.
  intros Hok Hs Hal Hl.
  assert (forall T ids, ev = Materializes ids -> T ⊆ list_to_set ids -> materialized T s s' ->
    lifecycle s' (reserve ev s res)) as Hmat.
  { intros T ids -> HT Hm. eapply materialized_lifecycle; [by eapply materialized_mono| |exact Hl].
    intros k Hk%elem_of_list_to_set. by apply Hal. }
  destruct Hs as [s r s' Hm|s m s' Hm|s m|s id o cl p s' _ _ Ha|s id cl s' _ Ha|s np objs id s' Hi
    |s id s' _ Hi|s id|s id|s src dst _|s src dst|s p c s' _ _ _ Ha|s c|s f t s' _ Hr|s ms Hms|s|s pr].
  - destruct (mint_lifecycle s res Hl Hal) as (r' & s1 & Hm' & _ & _ & _ & Hl1). simplify_eq. done.
  - destruct (mint_lifecycle s res Hl Hal) as (r' & s1 & Hm' & _ & _ & _ & Hl1).
    unfold new_runtime_region_tracked in Hm. rewrite Hm' in Hm. simpl in Hm. by simplify_eq.
  - by apply recycle_lifecycle.
  - eapply Hmat; [done| |by eapply materialized_alloc_obj]. set_solver.
  - eapply Hmat; [done| |by eapply materialized_alloc_data]. set_solver.
  - by eapply install_lifecycle.
  - eapply Hmat; [done| |by eapply materialized_incref]. set_solver.
  - apply (release_lifecycle s); [|done]. destruct (decref s id) eqn:E. by eapply decref_with_cascade_spec.
  - apply (release_lifecycle s); [|done]. unfold decref_if_present. destruct (live s id); [|apply cascaded_refl].
    destruct (decref s id) eqn:E. by eapply decref_with_cascade_spec.
  - by eapply (Hmat ∅); [done| |apply materialized_record].
  - by eapply (Hmat ∅); [done| |apply materialized_unrecord].
  - eapply Hmat; [done| |by eapply materialized_adopt]. set_solver.
  - by eapply (Hmat ∅); [done| |apply materialized_extract].
  - eapply Hmat; [done| |by eapply materialized_reparent]. set_solver.
  - apply (release_lifecycle s); [|done]. by eapply free_region_set_spec.
  - by eapply (Hmat ∅); [done| |apply materialized_same].
  - apply (release_lifecycle s); [|done]. by eapply reclaim_mint_scope_ok.
Qed.

Lemma tracked_lifecycle s res : tracked s res -> lifecycle s res /\ exists lost, reachable_store lost s.
Proof.
  induction 1 as [i|ev s s' res _ [Hl [lost Hr]] Hs Hal|s res _ [Hl [lost Hr]]].
  - split; [apply lifecycle_new|]. exists 0%N. apply reach_new.
  - split; [|exists lost; by eapply reach_step]. eapply store_step_lifecycle; [by apply reachable_ok|done..].
  - split; [|eexists; by apply reach_teardown].
    destruct (teardown_all_spec s (reachable_ok _ _ Hr)) as (T1 & _ & T2 & T3 & _). destruct Hl as [L1 L2 L3 L4 L5].
    split; rewrite ?T1, ?T2, ?T3; try done.
    + intros k Hk. destruct (L2 k Hk) as (? & _ & ?). done.
    + by intros k [e He].
Qed.

(** ** Freed roots stay dead *)

Lemma drain_cascaded {lost} fuel st l st' :
  store_ok lost st.1 -> queue_ok st.1 l -> drain cascade_step fuel st l = Some st' -> cascaded st.1 st'.1.
Proof.
  intros Hok Hq Hd.
  destruct (drain_inv cascade_step (cascade_inv (lost := lost) st.1) fuel st l st') as (_ & _ & ?); try done.
  - intros s1 x rest s2 new HI Hs. by eapply cascade_step_spec.
  - split_and!; [done|done|apply cascaded_refl].
Qed.

Lemma free_roots_dead {lost} s roots fc r :
  store_ok lost s -> (forall r, r ∈ roots -> region_is_owned s r = false) ->
  r ∈ roots -> regions (free_region_set s roots fc).1 !! r = None.
Proof.
  intros Hok Hroots Hr. destruct (free_region_set_spec s roots fc Hok Hroots) as [Hd _].
  assert (cascade_inv (lost := lost) s (s, 0%N) [(roots, fc)]) as HI.
  { split_and!; simpl; [done| |apply cascaded_refl]. intros w x ->%list_elem_of_singleton Hx. by apply Hroots. }
  cbn [Nat.add] in Hd. rewrite drain_unfold1 in Hd. destruct (cascade_step (s, 0%N) (roots, fc)) as [st1 new] eqn:Es.
  destruct (cascade_step_spec _ _ _ _ _ _ HI Es) as [(Hok1 & Hq1 & _) _].
  apply (drain_cascaded (lost := lost)) in Hd; [|done|done].
  destruct (dead_or_live (free_region_set s roots fc).1 r) as [Hl|]; [|done].
  apply (ca_live _ _ Hd) in Hl. exfalso. unfold cascade_step in Es. cbn [fst snd] in Es.
  destruct (teardown_set s roots) as [[s1 n] frontier] eqn:Et.
  destruct (teardown_set_spec _ _ _ _ _ Hok Hroots Et) as [D Htd].
  destruct (foldl (decref_frontier (head roots)) (s1, []) frontier) as [s2 q] eqn:Ef. simplify_eq/=.
  destruct (decref_frontier_spec (lost := lost) _ _ _ _ _ _ Ef) as (_ & Hc & _); [apply Htd|by intros ? ? ?%elem_of_nil|].
  apply (ca_live _ _ Hc), (td_live _ _ _ _ _ Htd) in Hl as [Hl HnD]. by apply HnD, (td_roots _ _ _ _ _ Htd).
Qed.

Lemma free_set_frees {lost} s roots fc r :
  store_ok lost s -> (forall r, r ∈ roots -> region_is_owned s r = false) ->
  r ∈ roots -> is_Some (regions s !! r) ->
  regions (free_region_set s roots fc).1 !! r = None /\
  generation_raw (free_region_set s roots fc).1 r = wrapping_add 32 (generation_raw s r) 1 /\
  r ∈ free_physical (free_region_set s roots fc).1.
Proof.
  intros Hok Hroots Hr Hl. pose proof (free_roots_dead s roots fc r Hok Hroots Hr) as Hdead.
  destruct (free_region_set_spec s roots fc Hok Hroots) as (_ & _ & [C1 C2 (l & C3 & _ & C5) _ _ _]).
  split; [done|]. split.
  - by rewrite C2, decide_True.
  - rewrite C3. apply elem_of_app. left. by apply C5.
Qed.

(** ** Properties *)

(** C1: every store a run reaches is consistent: owner and child links agree
    and no child is listed twice; every mirrored incoming edge is a recorded
    outgoing edge of a live source; live ids are mortal and inside the tables;
    and the owned gauge equals the adoptions that have not ended, plus those
    [teardown_all] ended, which it does not count.  A run is any sequence of
    the store's operations, [teardown_all] included, whose callers keep what
    the release build does not check: the ids they pass are 2 or more, a region
    is adopted only while nothing owns it, a group is freed only while nothing
    owns its members, and the recorded edge counts stay below 2^32. *)
Theorem reachable_store_ok (lost : N) (s : RegionStore) : reachable_store lost s -> store_ok lost s.
Proof. apply reachable_ok. Qed.

(** C2: a subtree drop is sound.  It frees the roots and, below them, only
    regions whose owner it frees too; no surviving region has a recorded edge
    into a freed member that is not a root (such a member is rescued); every
    freed id moves to the next generation and onto the free list, every other
    id keeps its generation; and what is left is again a consistent store. *)
Theorem subtree_drop_sound (lost : N) (s : RegionStore) (roots : list N) (s' : RegionStore) (freed : N) (frontier : list N) :
  store_ok lost s -> (forall r, r ∈ roots -> region_is_owned s r = false) ->
  teardown_set s roots = (s', freed, frontier) ->
  exists D : gset N,
    store_ok lost s' /\
    (forall k, is_Some (regions s' !! k) <-> is_Some (regions s !! k) /\ k ∉ D) /\
    (forall r, r ∈ roots -> is_Some (regions s !! r) -> r ∈ D) /\
    (forall k, k ∈ D -> k ∉ roots -> exists p, p ∈ D /\ k ∈ children_of (regions s) p) /\
    (forall b e a, b ∈ D -> b ∉ roots -> regions s !! b = Some e -> is_Some (incoming e !! a) -> a ∈ D) /\
    (forall k, generation_raw s' k = if decide (k ∈ D) then wrapping_add 32 (generation_raw s k) 1
                                     else generation_raw s k) /\
    (exists l, free_physical s' = l ++ free_physical s /\ l ≡ₚ elements D).
Proof.
  intros Hok Hr Ht. destruct (teardown_set_spec _ _ _ _ _ Hok Hr Ht) as [D []]. exists D. done.
Qed.

(** C23: the free cascade terminates: its worklist empties within one iteration
    per queued set and per reference a live region's teardown can queue, with
    the store consistent and every root freed, its generation bumped and its id
    recycled, whatever the reference counts of the roots were. *)
Theorem free_cascade_total (lost : N) (s : RegionStore) (roots : list N) (fc : option N) :
  store_ok lost s -> (forall r, r ∈ roots -> region_is_owned s r = false) ->
  exists s' freed,
    drain cascade_step (1 + weight dues_weight (regions s)) (s, 0%N) [(roots, fc)] = Some (s', freed) /\
    free_region_set s roots fc = (s', freed) /\ store_ok lost s' /\
    (forall r, r ∈ roots -> is_Some (regions s !! r) ->
       regions s' !! r = None /\ generation_raw s' r = wrapping_add 32 (generation_raw s r) 1 /\
       r ∈ free_physical s').
Proof.
  intros Hok Hr. destruct (free_region_set_spec s roots fc Hok Hr) as (H1 & H2 & _).
  destruct (free_region_set s roots fc) as [s' freed] eqn:E. exists s', freed. split; [exact H1|]. split_and!; [done|done|].
  intros r Hin Hl. pose proof (free_set_frees s roots fc r Hok Hr Hin Hl) as Hf. by rewrite E in Hf.
Qed.

(** What one release does.  An owned region ignores it; a count above one
    goes down by one and frees nothing; a count of one frees the region, bumps
    its generation and recycles its id; a region that is not there counts one
    over-free and changes nothing else. *)
Theorem decref_branches (lost : N) (s : RegionStore) (id : N) : store_ok lost s ->
  match regions s !! id with
  | None => decref s id = (with_over_frees s (saturating_add 32 (over_frees s) 1), 0%N)
  | Some e =>
      match reclaim e with
      | Owned _ => decref s id = (s, 0%N)
      | Counted rc =>
          ((1 < rc)%N -> decref s id = (upd s id (fun e => set_reclaim e (Counted (rc - 1))), 0%N)) /\
          ((rc <= 1)%N -> regions (decref s id).1 !! id = None /\
             generation_raw (decref s id).1 id = wrapping_add 32 (generation_raw s id) 1 /\
             id ∈ free_physical (decref s id).1)
      end
  end.
Proof.
  intros Hok. unfold decref, decref_with_cascade.
  destruct (decref_reaches_zero s id None) as [s1 z] eqn:Ed.
  assert (store_ok lost s1) as Hok1 by (eapply same_ledgers_ok; [by eapply decref_reaches_zero_ledgers|done]).
  pose proof (decref_reaches_zero_cascaded _ _ _ _ _ Ed) as Hc.
  assert (z = true -> regions s !! id <> None -> regions (free_runtime_region_pages s1 id None).1 !! id = None /\
    generation_raw (free_runtime_region_pages s1 id None).1 id = wrapping_add 32 (generation_raw s id) 1 /\
    id ∈ free_physical (free_runtime_region_pages s1 id None).1) as Hfree.
  { intros -> Hl. assert (generation_raw s1 id = generation_raw s id) as <-.
    { unfold decref_reaches_zero in Ed. repeat case_match; simplify_eq/=; done. }
    apply (free_set_frees (lost := lost)); [done| |set_solver|].
    - intros r ->%list_elem_of_singleton. apply decref_reaches_zero_counted in Ed.
      destruct (region_is_owned s1 id) eqn:Eo; [|done]. apply (ca_owned _ _ Hc) in Eo. congruence.
    - destruct (regions s !! id) as [e|] eqn:E; [|done].
      apply (is_Some_shape (regions s1) (regions s)); [|by rewrite E; eauto].
      by apply (sl_shape _ _ (decref_reaches_zero_ledgers _ _ _ _ _ Ed)). }
  unfold decref_reaches_zero in Ed. destruct (regions s !! id) as [e|] eqn:E; [|by simplify_eq].
  destruct (reclaim e) as [rc|o] eqn:Er; [|by simplify_eq].
  destruct (N.eqb_spec rc 0) as [->|Hrc].
  - simplify_eq/=. split; [lia|]. intros _. by apply Hfree.
  - injection Ed as <- <-. split.
    + intros Hgt. destruct (N.eqb_spec (rc - 1) 0); [lia|done].
    + intros Hle. replace rc with 1%N by lia. simpl. replace rc with 1%N in Hfree by lia. simpl in Hfree. by apply Hfree.
Qed.

(** C25: a minted id is fresh.  In every run in which only minted or live ids
    are materialized, an unused mint is returned at most once and the id
    counter stays below 2^32, the live ids, the ids handed out and not used yet
    and the free ids are disjoint, no id is listed free twice, and all of them
    lie between 2 and the counter; and while the counter is below 2^32 - 1 a
    mint succeeds with a mortal id that is neither live nor held by another
    mint, changes no region, and is again a step of such a run. *)
Theorem mint_fresh (s : RegionStore) (reserved : gset N) :
  tracked s reserved ->
  NoDup (free_physical s) /\
  (forall k, k ∈ free_physical s -> (2 <= k < next_physical s)%N /\ regions s !! k = None /\ k ∉ reserved) /\
  (forall k, is_Some (regions s !! k) -> (2 <= k < next_physical s)%N /\ k ∉ reserved) /\
  (forall k, k ∈ reserved -> (2 <= k < next_physical s)%N) /\
  ((next_physical s + 1 < 2 ^ 32)%N ->
   exists r s', new_runtime_region s = Some (r, s') /\ regions s' = regions s /\ (2 <= r)%N /\
     regions s !! r = None /\ r ∉ reserved /\ tracked s' ({[r]} ∪ reserved)).
Proof.
  intros Ht. destruct (tracked_lifecycle s reserved Ht) as [Hl _]. destruct (Hl) as [L1 L2 L3 L4 _].
  split_and!; try done. intros Hn.
  destruct (mint_lifecycle s reserved Hl Hn) as (r & s' & Hm & Hr & Hd & Hnr & _). exists r, s'.
  split_and!; try done; [by eapply new_runtime_region_ge2|].
  apply (track_step (Minted r) s); [done|by apply step_mint|done].
Qed.

(** The [owned] row the statistics report equals a scan of the region table
    and the adoptions [teardown_all] ended, in every reachable store. *)
Theorem owned_gauge_exact (lost : N) (s : RegionStore) :
  reachable_store lost s -> report_owned (counters s) = Z.of_N (owned_count s + lost).
Proof.
  intros Hr. pose proof (so_gauge lost s (reachable_ok lost s Hr)) as Hg. unfold gauge_ok, report_owned in *. lia.
Qed.

End Runs.

(** ** Witnesses

    [drop_heap]: region 2 owns region 3, region 5 holds a pointer into 3. *)

Definition heap2 : RegionStore := default (new 1) (snd <$> alloc_obj (new 1) 2 leaf 1).
Definition heap3 : RegionStore := default (new 1) (snd <$> alloc_obj heap2 3 leaf 1).
Definition ptr3 : Ptr := mkPtr 3 (mkStamp 0 1).
Definition heap5 : RegionStore := default (new 1) (snd <$> alloc_obj heap3 5 (holding [ptr3]) 1).
Definition drop_heap : RegionStore := default (new 1) (adopt_region heap5 2 3).

Lemma drop_heap_reachable : reachable_store 0 drop_heap.
Proof.
  eapply reach_step; [|apply (step_adopt heap5 2 3); [lia|lia|reflexivity|vm_compute; reflexivity]].
  eapply reach_step; [|apply (step_alloc heap3 5 (holding [ptr3]) 1 (mkPtr 5 (mkStamp 0 1)));
    [lia|intros dst; reflexivity|vm_compute; reflexivity]].
  eapply reach_step; [|apply (step_alloc heap2 3 leaf 1 ptr3); [lia|intros dst; reflexivity|vm_compute; reflexivity]].
  eapply reach_step; [|apply (step_alloc (new 1) 2 leaf 1 (mkPtr 2 (mkStamp 0 1)));
    [lia|intros dst; reflexivity|vm_compute; reflexivity]].
  apply reach_new.
Qed.

Lemma drop_heap_roots : forall r, r ∈ [2%N] -> region_is_owned drop_heap r = false.
Proof. intros r ->%list_elem_of_singleton. reflexivity. Qed.

Lemma reachable_store_ok_witness : region_is_owned drop_heap 3 = true /\ store_ok 0 drop_heap.
Proof. split; [reflexivity|]. apply (reachable_store_ok 0 drop_heap drop_heap_reachable). Defined.

Lemma subtree_drop_sound_witness : exists D : gset N, 2%N ∈ D /\ 3%N ∉ D.
Proof.
  destruct (subtree_drop_sound 0 drop_heap [2%N] (teardown_set drop_heap [2%N]).1.1
    (teardown_set drop_heap [2%N]).1.2 (teardown_set drop_heap [2%N]).2
    (reachable_ok _ _ drop_heap_reachable) drop_heap_roots) as (D & _ & Hlive & Hroots & _).
  - by destruct (teardown_set drop_heap [2%N]) as [[? ?] ?].
  - exists D. split.
    + apply Hroots; [by left|]. vm_compute. eauto.
    + apply (Hlive 3%N). vm_compute. eauto.
Defined.

Lemma free_cascade_total_witness : exists s' freed,
  free_region_set drop_heap [2%N] None = (s', freed) /\ regions s' !! 2%N = None.
Proof.
  destruct (free_cascade_total 0 drop_heap [2%N] None (reachable_ok _ _ drop_heap_reachable) drop_heap_roots)
    as (s' & freed & _ & Hf & _ & Hr).
  exists s', freed. split; [exact Hf|]. apply Hr; [by left|]. vm_compute. eauto.
Defined.

Lemma decref_branches_witness : decref drop_heap 3 = (drop_heap, 0%N).
Proof.
  assert (exists e o, regions drop_heap !! 3%N = Some e /\ reclaim e = Owned o) as (e & o & E & Er)
    by (vm_compute; eauto).
  pose proof (decref_branches 0 drop_heap 3 (reachable_ok _ _ drop_heap_reachable)) as Hd.
  rewrite E, Er in Hd. exact Hd.
Defined.

(** One minted, unmaterialized id, and the same id used and released. *)
Definition minted2 : RegionStore := default (new 1) (snd <$> new_runtime_region (new 1)).
Definition minted3 : RegionStore := default (new 1) (snd <$> new_runtime_region minted2).
Definition used2 : RegionStore := default (new 1) (snd <$> alloc_obj minted3 2 leaf 1).

Lemma tracked_used2 : tracked used2 (reserve (Materializes [2%N]) minted3 ({[3%N]} ∪ ({[2%N]} ∪ ∅))).
Proof.
  eapply track_step; [|apply (step_alloc minted3 2 leaf 1 (mkPtr 2 (mkStamp 0 1)));
    [lia|intros dst; reflexivity|vm_compute; reflexivity]|].
  - apply (track_step (Minted 3) minted2); [|apply step_mint; vm_compute; reflexivity|reflexivity].
    apply (track_step (Minted 2) (new 1)); [apply track_new|apply step_mint; vm_compute; reflexivity|reflexivity].
  - intros id ->%list_elem_of_singleton. left. set_solver.
Qed.

Lemma mint_fresh_witness : exists r s', new_runtime_region used2 = Some (r, s') /\ r <> 2%N /\ r <> 3%N.
Proof.
  destruct (mint_fresh used2 _ tracked_used2) as (_ & _ & _ & _ & Hm).
  destruct (Hm eq_refl) as (r & s' & Hr & _ & _ & Hd & Hres & _).
  exists r, s'. split; [exact Hr|]. split.
  - intros ->. vm_compute in Hd. discriminate.
  - intros ->. apply Hres. unfold reserve. set_solver.
Defined.

Lemma owned_gauge_exact_witness :
  owned_count drop_heap = 1%N /\ report_owned (counters drop_heap) = 1%Z /\
  owned_count (teardown_all drop_heap) = 0%N /\ report_owned (counters (teardown_all drop_heap)) = 1%Z.
Proof.
  split; [reflexivity|]. split; [apply (owned_gauge_exact 0 drop_heap drop_heap_reachable)|].
  split; [reflexivity|]. apply (owned_gauge_exact _ _ (reach_teardown 0 drop_heap drop_heap_reachable)).
Defined.

(** ** Where the store's promises have limits *)

(** A pop of an owned element: un-record the container's edge, then extract
    ([pop_with_decref], value/arena/mutate.rs). *)
Definition pop_owned (s : RegionStore) (container elem : N) : RegionStore :=
  extract_owned_region (unrecord_outgoing s container elem) elem.

(** Region 2 owns container 3, container 3 owns and holds element 4, element 4
    points back at its container, and region 5 holds the container too. *)
Definition knot_heap : option RegionStore :=
  '(_, s) ← alloc_obj (new 1) 2 leaf 1;
  '(c, s) ← alloc_obj s 3 leaf 1;
  '(_, s) ← alloc_obj s 4 (holding [c]) 1;
  s ← incref s 4;
  s ← adopt_region (record_outgoing s 3 4) 3 4;
  s ← adopt_region s 2 3;
  '(_, s) ← alloc_obj s 5 (holding [c]) 1;
  Some s.

(** C35: a count rebuilt without the back-edges of the own subtree is too low
    once a member leaves that subtree.  After region 2 is released the
    container is rescued with the count of region 5's one edge; popping the
    element makes it counted; releasing the element then decrements the
    container through the back-edge and frees it, while region 5 is live and
    still records an edge to it. *)
Theorem popped_back_edge_frees_referenced :
  exists s, knot_heap = Some s /\
    let rescued := (decref s 2).1 in
    let popped := pop_owned rescued 3 4 in
    let released := (decref popped 4).1 in
    rc_raw rescued 3 = 1%N /\ rc_raw popped 4 = 1%N /\
    regions released !! 3%N = None /\
    is_Some (regions released !! 5%N) /\ edge_count released 5 3 = 1%N.
Proof.
  destruct knot_heap as [s|] eqn:E; [|vm_compute in E; discriminate].
  exists s. split; [done|]. vm_compute in E. injection E as <-.
  split_and!; vm_compute; try reflexivity. eauto.
Qed.

(** An id that an incref re-animates after its free ends up on the free list
    twice, and two mints in a row then return it: the free list is free of
    duplicates only while the lifecycle discipline holds. *)
Theorem reanimated_id_minted_twice :
  exists s, reachable_store 0 s /\ free_physical s = [2%N; 2%N] /\
    exists s1 s2, new_runtime_region s = Some (2%N, s1) /\ new_runtime_region s1 = Some (2%N, s2).
Proof.
  exists (decref (decref (default (new 1) (incref (decref heap2 2).1 2)) 2).1 2).1.
  split; [|vm_compute; eauto 10].
  eapply reach_step; [|apply step_decref]. eapply reach_step; [|apply step_decref].
  eapply reach_step; [|apply (step_incref (decref heap2 2).1 2); [lia|vm_compute; reflexivity]].
  eapply reach_step; [|apply step_decref].
  eapply reach_step; [|apply (step_alloc (new 1) 2 leaf 1 (mkPtr 2 (mkStamp 0 1)));
    [lia|intros dst; reflexivity|vm_compute; reflexivity]].
  apply reach_new.
Qed.
