(* ===== verification/MatchValue.v ===== *)
(** * The values a pattern inspects

    The part of [Value] a [match] can look into, and the reads the compiled
    code makes of it: the type tests and the length of [vm/types/predicate.rs],
    the pair, array and struct reads of [vm/data.rs] and [vm/data/structops.rs],
    and the language's [=] ([value/repr/eq.rs]) at a pattern's constants.  A
    read that signals an error is [None].

    A value is the finite tree it unfolds to: a guard that mutates the
    scrutinee while the match runs, and cyclic mutable collections, are outside
    the model.  Everything a pattern cannot look into is [VOther].  A struct
    holds its entries in key order, so a lookup is a search of the list. *)

From stdpp Require Import base numbers list option strings.
From Stdlib Require Import SpecFloat.
From S2P Require Import Prelude Names.

(** ** Values *)

Inductive TableKey :=
| TKeyword (hash : N)
| TSymbol (id : N)
| TOther (id : N).

#[export] Instance TableKey_eq_dec : EqDecision TableKey.
Proof. solve_decision. Defined.

Inductive Value :=
| VNil
| VBool (b : bool)
| VInt (n : Z)
| VFloat (f : spec_float)
| VKeyword (hash : N)
| VSymbol (id : N)
| VEmptyList
| VString (s : string)
| VStringMut (s : string)
| VPair (first rest : Value)
| VArray (elems : list Value)
| VArrayMut (elems : list Value)
| VStruct (entries : list (TableKey * Value))
| VStructMut (entries : list (TableKey * Value))
| VSet (elems : list Value)
| VSetMut (elems : list Value)
| VOther (id : N).

(** ** Literals and the language's equality at a literal *)

Inductive PatternLiteral :=
| LBool (b : bool)
| LInt (n : Z)
| LFloat (f : spec_float)
| LString (s : string)
| LKeyword (k : string).

(** [n as f64]: the nearest double, ties to even. *)
Definition i64_as_f64 (n : Z) : spec_float := binary_normalize 53 1024 n 0 false.

(** [values_eq] of a value and the constant a literal is lowered to: integers
    compare exactly, a mixed pair as doubles, floats as IEEE 754 says, a string
    by content whether it is mutable or not, a keyword by its hash, and values
    of different kinds are not equal. *)
Definition eq_literal (v : Value) (lit : PatternLiteral) : bool :=
  match lit, v with
  | LBool b, VBool c => Bool.eqb c b
  | LInt n, VInt m => (m =? n)%Z
  | LInt n, VFloat f => SFeqb f (i64_as_f64 n)
  | LFloat g, VInt m => SFeqb (i64_as_f64 m) g
  | LFloat g, VFloat f => SFeqb f g
  | LString s, VString t => String.eqb t s
  | LString s, VStringMut t => String.eqb t s
  | LKeyword k, VKeyword h => (h =? keyword_hash k)%N
  | _, _ => false
  end.

(** ** Type tests and length *)

Definition is_nil (v : Value) : bool := match v with VNil => true | _ => false end.
Definition is_pair (v : Value) : bool := match v with VPair _ _ => true | _ => false end.
Definition is_empty_list (v : Value) : bool := match v with VEmptyList => true | _ => false end.
Definition is_array (v : Value) : bool := match v with VArray _ => true | _ => false end.
Definition is_array_mut (v : Value) : bool := match v with VArrayMut _ => true | _ => false end.
Definition is_struct (v : Value) : bool := match v with VStruct _ => true | _ => false end.
Definition is_struct_mut (v : Value) : bool := match v with VStructMut _ => true | _ => false end.
Definition is_set (v : Value) : bool := match v with VSet _ => true | _ => false end.
Definition is_set_mut (v : Value) : bool := match v with VSetMut _ => true | _ => false end.

(** [handle_array_len]: the length of either kind of array, 0 of anything else. *)
Definition array_len (v : Value) : nat :=
  match v with VArray l => length l | VArrayMut l => length l | _ => 0 end.

(** ** Reads *)

Definition vm_first (v : Value) : option Value :=
  match v with VPair a _ => Some a | _ => None end.

Definition vm_rest (v : Value) : option Value :=
  match v with VPair _ d => Some d | _ => None end.

(** The index operand of the array reads is a [u16]. *)
Definition as_u16 (i : nat) : nat := N.to_nat (N.of_nat i mod 65536).

Definition array_ref_destructure (v : Value) (index : nat) : option Value :=
  match v with
  | VArrayMut l => l !! index
  | VArray l => l !! index
  | _ => None
  end.

(** [read.get(index..).unwrap_or_default()], in the kind of the source. *)
Definition array_slice_from (v : Value) (index : nat) : option Value :=
  match v with
  | VArrayMut l => Some (VArrayMut (drop index l))
  | VArray l => Some (VArray (drop index l))
  | _ => None
  end.

Definition entry_get (key : TableKey) (es : list (TableKey * Value)) : option Value :=
  snd <$> List.find (fun kv => bool_decide (kv.1 = key)) es.

Definition struct_get_or_nil (v : Value) (key : TableKey) : Value :=
  match v with
  | VStruct es => default VNil (entry_get key es)
  | VStructMut es => default VNil (entry_get key es)
  | _ => VNil
  end.

(** Always an immutable struct; of anything but a struct, the empty one. *)
Definition struct_rest (v : Value) (exclude : list TableKey) : Value :=
  let kept es := List.filter (fun kv => negb (bool_decide (kv.1 ∈ exclude))) es in
  match v with
  | VStruct es => VStruct (kept es)
  | VStructMut es => VStruct (kept es)
  | _ => VStruct []
  end.

(** ** Floating-point equality *)

(** [==] on doubles is not reflexive at NaN and identifies the two zeros, but
    two doubles equal to a third are equal. *)
Lemma SFeqb_inv x y :
  SFeqb x y = true ->
  x = y \/ ((exists s, x = S754_zero s) /\ (exists s, y = S754_zero s)).
Proof.
  unfold SFeqb.
  destruct x as [s|s| |s m e], y as [s'|s'| |s' m' e']; try (by eauto 6); cbn [SFcompare];
    try (by destruct s); try (by destruct s'); try done.
  - destruct s, s'; intros; try discriminate; by left.
  - intros H. left.
    destruct s, s'; try discriminate;
      (destruct (Z.compare e e') eqn:He; try discriminate; apply Z.compare_eq in He; subst e';
       destruct (PosDef.Pos.compare_cont Eq m m') eqn:Hm; try discriminate;
       apply Pos.compare_eq in Hm; by subst m').
Qed.

Lemma SFeqb_sym x y : SFeqb x y = true -> SFeqb y x = true.
Proof.
  intros H. destruct (SFeqb_inv x y H) as [->|[[s ->] [s' ->]]]; done.
Qed.

Lemma SFeqb_euclid x y z : SFeqb x y = true -> SFeqb x z = true -> SFeqb y z = true.
Proof.
  intros H1 H2. destruct (SFeqb_inv x y H1) as [->|[[s ->] [s' ->]]]; [done|].
  destruct z; done.
Qed.

Lemma as_u16_small i : (N.of_nat i < 65536)%N -> as_u16 i = i.
Proof. intros H. unfold as_u16. rewrite N.mod_small by lia. apply Nat2N.id. Qed.
