(* ===== verification/MatchPattern.v ===== *)
(** * Patterns, what they match, and the sequential lowering

    [hir/pattern.rs]: the patterns of a [match].  [matches] is what
    docs/match.md says a pattern matches and binds; [lower_pattern_match] is
    what the code the sequential lowering emits does ([lir/lower/pattern/
    matching.rs], [seq.rs], [keyed.rs]), its reads and their failures included,
    and [run_sequential] the arms tried in order ([lir/lower/control/
    matcharms.rs]).  The lowering computes [matches]
    ([lower_pattern_match_spec]).

    [NamedStruct], which only [&named] parameters produce and every function
    here declares unreachable, is left out. *)

From stdpp Require Import base numbers list option gmap fin_maps sets strings.
From S2P Require Import Prelude Names MatchValue.

(** ** Patterns *)

Inductive PatternKey :=
| KKeyword (k : string)
| KSymbol (id : N).

#[export] Instance PatternKey_eq_dec : EqDecision PatternKey.
Proof. solve_decision. Defined.

(** A [Binding] is an index into the binding arena. *)
Definition Binding := N.

Inductive HirPattern :=
| PWildcard
| PNil
| PLiteral (lit : PatternLiteral)
| PVar (b : Binding)
| PPair (head tail : HirPattern)
| PList (elements : list HirPattern) (rest : option HirPattern)
| PTuple (elements : list HirPattern) (rest : option HirPattern)
| PArray (elements : list HirPattern) (rest : option HirPattern)
| PStruct (entries : list (PatternKey * HirPattern)) (rest : option HirPattern)
| PTable (entries : list (PatternKey * HirPattern)) (rest : option HirPattern)
| PSet (binding : HirPattern)
| PSetMut (binding : HirPattern)
| POr (alternatives : list HirPattern).

Section PatternInduction.
Context (P : HirPattern -> Prop).
Context (Pwild : P PWildcard) (Pnil : P PNil) (Plit : forall l, P (PLiteral l)) (Pvar : forall b, P (PVar b)).
Context (Ppair : forall h t, P h -> P t -> P (PPair h t)).
Context (Plist : forall es r, Forall P es -> from_option P True r -> P (PList es r)).
Context (Ptuple : forall es r, Forall P es -> from_option P True r -> P (PTuple es r)).
Context (Parray : forall es r, Forall P es -> from_option P True r -> P (PArray es r)).
Context (Pstruct : forall es r, Forall (fun e => P e.2) es -> from_option P True r -> P (PStruct es r)).
Context (Ptable : forall es r, Forall (fun e => P e.2) es -> from_option P True r -> P (PTable es r)).
Context (Pset : forall b, P b -> P (PSet b)) (Psetmut : forall b, P b -> P (PSetMut b)).
Context (Por : forall alts, Forall P alts -> P (POr alts)).

Fixpoint HirPattern_nested_ind (p : HirPattern) : P p :=
  let all := fix all (ps : list HirPattern) : Forall P ps :=
    match ps with
    | [] => @List.Forall_nil _ P
    | q :: qs => @List.Forall_cons _ P q qs (HirPattern_nested_ind q) (all qs)
    end in
  let all_entries := fix all_entries (es : list (PatternKey * HirPattern)) : Forall (fun e => P e.2) es :=
    match es with
    | [] => @List.Forall_nil _ (fun e => P e.2)
    | e :: es' => @List.Forall_cons _ (fun e => P e.2) e es' (HirPattern_nested_ind e.2) (all_entries es')
    end in
  let opt (r : option HirPattern) : from_option P True r :=
    match r with Some q => HirPattern_nested_ind q | None => I end in
  match p with
  | PWildcard => Pwild
  | PNil => Pnil
  | PLiteral l => Plit l
  | PVar b => Pvar b
  | PPair h t => Ppair h t (HirPattern_nested_ind h) (HirPattern_nested_ind t)
  | PList es r => Plist es r (all es) (opt r)
  | PTuple es r => Ptuple es r (all es) (opt r)
  | PArray es r => Parray es r (all es) (opt r)
  | PStruct es r => Pstruct es r (all_entries es) (opt r)
  | PTable es r => Ptable es r (all_entries es) (opt r)
  | PSet b => Pset b (HirPattern_nested_ind b)
  | PSetMut b => Psetmut b (HirPattern_nested_ind b)
  | POr alts => Por alts (all alts)
  end.

End PatternInduction.

(** The immediate a struct pattern's key is lowered to. *)
Definition pattern_key_const (key : PatternKey) : TableKey :=
  match key with
  | KKeyword k => TKeyword (keyword_hash k)
  | KSymbol id => TSymbol id
  end.

(** [own_rest_builds]: does lowering this pattern's own rest build a fresh
    collection? *)
Definition reads_its_collection (p : HirPattern) : bool :=
  match p with PWildcard => false | _ => true end.

Definition own_rest_builds (p : HirPattern) : bool :=
  match p with
  | PTuple elements rest | PArray elements rest =>
      match rest with
      | Some r => reads_its_collection r || match elements with [] => true | _ => false end
      | None => false
      end
  | PStruct _ rest | PTable _ rest =>
      match rest with Some r => reads_its_collection r | None => false end
  | _ => false
  end.

(** A guardless irrefutable arm makes a match total for signal inference. *)
Fixpoint is_irrefutable (p : HirPattern) : bool :=
  match p with
  | PWildcard | PVar _ => true
  | POr alts => existsb is_irrefutable alts
  | _ => false
  end.

Fixpoint expand_or_pattern (p : HirPattern) : list HirPattern :=
  match p with
  | POr alts => flat_map expand_or_pattern alts
  | _ => [p]
  end.

(** ** Bindings *)

Definition Env := list (Binding * Value).

(** The slots after the stores of a successful match, in order. *)
Definition slots (e : Env) : gmap N Value := foldl (fun s bv => <[bv.1 := bv.2]> s) ∅ e.

(** Both parts match, and both bind. *)
Definition conj (x y : option Env) : option Env :=
  e1 ← x; e2 ← y; Some (e1 ++ e2).

Definition conj_all (xs : list (option Env)) : option Env := foldr conj (Some []) xs.

(** ** What a pattern matches *)

Definition match_all (m : HirPattern -> Value -> option Env) : list HirPattern -> list Value -> option Env :=
  fix go ps vs :=
    match ps, vs with
    | [], [] => Some []
    | p :: ps', v :: vs' => conj (m p v) (go ps' vs')
    | _, _ => None
    end.

Definition match_list (m : HirPattern -> Value -> option Env) (last : Value -> option Env)
    : list HirPattern -> Value -> option Env :=
  fix go ps v :=
    match ps with
    | [] => last v
    | p :: ps' => match v with VPair a d => conj (m p a) (go ps' d) | _ => None end
    end.

(** [elements] against the front of an array, the rest against what is left. *)
Definition match_array (m : HirPattern -> Value -> option Env) (elements : list HirPattern)
    (rest : option (Value -> option Env)) (wrap : list Value -> Value) (l : list Value) : option Env :=
  match rest with
  | None => match_all m elements l
  | Some r =>
      if length elements <=? length l
      then conj (match_all m elements (take (length elements) l)) (r (wrap (drop (length elements) l)))
      else None
  end.

Definition match_entries (m : HirPattern -> Value -> option Env) (v : Value)
    (entries : list (PatternKey * HirPattern)) : option Env :=
  conj_all (List.map (fun e => m e.2 (struct_get_or_nil v (pattern_key_const e.1))) entries).

Definition excluded_keys (entries : list (PatternKey * HirPattern)) : list TableKey :=
  List.map (fun e => pattern_key_const e.1) entries.

Definition first_some (m : HirPattern -> option Env) : list HirPattern -> option Env :=
  fix go ps :=
    match ps with
    | [] => None
    | p :: ps' => match m p with Some e => Some e | None => go ps' end
    end.

Fixpoint matches (p : HirPattern) (v : Value) {struct p} : option Env :=
  match p with
  | PWildcard => Some []
  | PNil => if is_nil v then Some [] else None
  | PLiteral lit => if eq_literal v lit then Some [] else None
  | PVar b => Some [(b, v)]
  | PPair h t => match v with VPair a d => conj (matches h a) (matches t d) | _ => None end
  | PList es r =>
      match_list matches
        (fun w => match r with Some q => matches q w | None => if is_empty_list w then Some [] else None end) es v
  | PTuple es r =>
      match v with
      | VArray l => match_array matches es (match r with Some q => Some (matches q) | None => None end) VArray l
      | _ => None
      end
  | PArray es r =>
      match v with
      | VArrayMut l => match_array matches es (match r with Some q => Some (matches q) | None => None end) VArrayMut l
      | _ => None
      end
  | PStruct es r =>
      if is_struct v
      then conj (match_entries matches v es)
             (match r with Some q => matches q (struct_rest v (excluded_keys es)) | None => Some [] end)
      else None
  | PTable es r =>
      if is_struct_mut v
      then conj (match_entries matches v es)
             (match r with Some q => matches q (struct_rest v (excluded_keys es)) | None => Some [] end)
      else None
  | PSet b => if is_set v then matches b v else None
  | PSetMut b => if is_set_mut v then matches b v else None
  | POr alts => first_some (fun q => matches q v) alts
  end.

(** ** The sequential lowering of a pattern *)

(** A test either falls through with the stores it made, branches to its
    failure label, or a read raises. *)
Inductive attempt := Bound (e : Env) | Mismatch | Raised.

Definition and_then (a b : attempt) : attempt :=
  match a with
  | Bound e1 => match b with Bound e2 => Bound (e1 ++ e2) | x => x end
  | x => x
  end.

Definition read (x : option Value) (k : Value -> attempt) : attempt :=
  match x with Some v => k v | None => Raised end.

Definition branch (b : bool) (k : attempt) : attempt := if b then k else Mismatch.

Definition lower_list (m : HirPattern -> Value -> attempt) (last : Value -> attempt)
    : list HirPattern -> Value -> attempt :=
  fix go es cur :=
    match es with
    | [] => last cur
    | e :: es' =>
        branch (is_pair cur)
          (read (vm_first cur) (fun h => and_then (m e h) (read (vm_rest cur) (fun t => go es' t))))
    end.

Definition lower_elements (m : HirPattern -> Value -> attempt) (v : Value)
    : nat -> list HirPattern -> attempt :=
  fix go i es :=
    match es with
    | [] => Bound []
    | e :: es' => and_then (read (array_ref_destructure v (as_u16 i)) (m e)) (go (S i) es')
    end.

Definition lower_array (m : HirPattern -> Value -> attempt) (builds : bool) (is_kind : bool)
    (es : list HirPattern) (rest : option (Value -> attempt)) (v : Value) : attempt :=
  branch is_kind
    (branch (match rest with Some _ => length es <=? array_len v | None => array_len v =? length es end)
       (and_then (lower_elements m v 0 es)
          (match rest with
           | Some r => if builds then read (array_slice_from v (as_u16 (length es))) r else Bound []
           | None => Bound []
           end))).

Definition lower_entries (m : HirPattern -> Value -> attempt) (v : Value)
    : list (PatternKey * HirPattern) -> attempt :=
  fix go es :=
    match es with
    | [] => Bound []
    | e :: es' => and_then (m e.2 (struct_get_or_nil v (pattern_key_const e.1))) (go es')
    end.

Definition lower_keyed (m : HirPattern -> Value -> attempt) (builds : bool) (is_kind : bool)
    (es : list (PatternKey * HirPattern)) (rest : option (Value -> attempt)) (v : Value) : attempt :=
  branch is_kind
    (and_then (lower_entries m v es)
       (match rest with
        | Some r => if builds then r (struct_rest v (excluded_keys es)) else Bound []
        | None => Bound []
        end)).

Definition lower_or (m : HirPattern -> attempt) : list HirPattern -> attempt :=
  fix go alts :=
    match alts with
    | [] => Mismatch
    | a :: alts' => match m a with Mismatch => go alts' | x => x end
    end.

Fixpoint lower_pattern_match (p : HirPattern) (v : Value) {struct p} : attempt :=
  match p with
  | PWildcard => Bound []
  | PNil => branch (is_nil v) (Bound [])
  | PLiteral lit => branch (eq_literal v lit) (Bound [])
  | PVar b => Bound [(b, v)]
  | PPair h t =>
      branch (is_pair v)
        (read (vm_first v) (fun a =>
           and_then (lower_pattern_match h a) (read (vm_rest v) (lower_pattern_match t))))
  | PList es r =>
      lower_list lower_pattern_match
        (fun cur => match r with
                    | Some q => lower_pattern_match q cur
                    | None => branch (is_empty_list cur) (Bound [])
                    end) es v
  | PTuple es r =>
      lower_array lower_pattern_match (own_rest_builds p) (is_array v) es
        (match r with Some q => Some (lower_pattern_match q) | None => None end) v
  | PArray es r =>
      lower_array lower_pattern_match (own_rest_builds p) (is_array_mut v) es
        (match r with Some q => Some (lower_pattern_match q) | None => None end) v
  | PStruct es r =>
      lower_keyed lower_pattern_match (own_rest_builds p) (is_struct v) es
        (match r with Some q => Some (lower_pattern_match q) | None => None end) v
  | PTable es r =>
      lower_keyed lower_pattern_match (own_rest_builds p) (is_struct_mut v) es
        (match r with Some q => Some (lower_pattern_match q) | None => None end) v
  | PSet b => branch (is_set v) (lower_pattern_match b v)
  | PSetMut b => branch (is_set_mut v) (lower_pattern_match b v)
  | POr alts => lower_or (fun a => lower_pattern_match a v) alts
  end.

(** ** Trying the arms in order *)

(** An arm's pattern and whether it has a guard. *)
Definition Arm : Type := HirPattern * bool.

(** The arm a match selects with the slots its body reads, the [:match-error]
    when no arm matches, or the error of a read. *)
Inductive MatchResult :=
| Selected (arm : nat) (s : gmap N Value)
| MatchError
| ReadError.

(** Every alternative of every arm in order; [next] is the code that follows
    the arm's last alternative. *)
Definition try_alternatives (guard : nat -> gmap N Value -> bool) (v : Value) (i : nat) (has_guard : bool)
    (next : MatchResult) : list HirPattern -> MatchResult :=
  fix go alts :=
    match alts with
    | [] => next
    | a :: alts' =>
        match lower_pattern_match a v with
        | Bound e => if negb has_guard || guard i (slots e) then Selected i (slots e) else go alts'
        | Mismatch => go alts'
        | Raised => ReadError
        end
    end.

Fixpoint run_arms (guard : nat -> gmap N Value -> bool) (v : Value) (i : nat) (arms : list Arm) : MatchResult :=
  match arms with
  | [] => MatchError
  | (p, has_guard) :: arms' =>
      try_alternatives guard v i has_guard (run_arms guard v (S i) arms') (expand_or_pattern p)
  end.

Definition run_sequential (guard : nat -> gmap N Value -> bool) (v : Value) (arms : list Arm) : MatchResult :=
  run_arms guard v 0 arms.

(** ** The lowering computes [matches] *)

Definition of_option (x : option Env) : attempt :=
  match x with Some e => Bound e | None => Mismatch end.

(** The array operands are [u16], so a pattern of 65536 elements or more
    wraps; every pattern below that width is lowered exactly. *)
Fixpoint width_ok (p : HirPattern) : bool :=
  let opt r := match r with Some q => width_ok q | None => true end in
  match p with
  | PWildcard | PNil | PLiteral _ | PVar _ => true
  | PPair h t => width_ok h && width_ok t
  | PList es r => forallb width_ok es && opt r
  | PTuple es r | PArray es r => (N.of_nat (length es) <? 65536)%N && forallb width_ok es && opt r
  | PStruct es r | PTable es r => forallb (fun e => width_ok e.2) es && opt r
  | PSet b | PSetMut b => width_ok b
  | POr alts => forallb width_ok alts
  end.

Lemma and_then_of_option x y : and_then (of_option x) (of_option y) = of_option (conj x y).
Proof. by destruct x, y. Qed.

Lemma branch_of_option (b : bool) x : branch b (of_option x) = of_option (if b then x else None).
Proof. by destruct b. Qed.

(** A lowered sub-pattern that computes [matches] on every value. *)
Definition lowers (p : HirPattern) : Prop :=
  width_ok p = true -> forall v, lower_pattern_match p v = of_option (matches p v).

Lemma lower_elements_spec es l v pre :
  Forall lowers es -> forallb width_ok es = true ->
  (forall i, i < length pre + length es -> array_ref_destructure v i = (pre ++ l) !! i) ->
  (N.of_nat (length pre + length es) < 65536)%N -> length l = length es ->
  lower_elements lower_pattern_match v (length pre) es = of_option (match_all matches es l).
Proof.
  intros Hall Hw Hget. revert pre l Hget Hw. induction Hall as [|e es He Hall IH]; intros pre l Hget Hw Hb Hlen.
  - by destruct l.
  - destruct l as [|x l]; [done|]. simpl in *. apply andb_true_iff in Hw as [Hwe Hw].
    rewrite as_u16_small by lia. rewrite Hget by lia. rewrite lookup_app_r, Nat.sub_diag by lia. simpl.
    rewrite (He Hwe).
    specialize (IH (pre ++ [x]) l). rewrite length_app in IH. simpl in IH.
    rewrite Nat.add_1_r in IH. rewrite IH.
    + apply and_then_of_option.
    + intros i Hi. by rewrite Hget, <- app_assoc by lia.
    + done.
    + lia.
    + lia.
Qed.

Lemma lower_entries_spec es v :
  Forall (fun e => lowers e.2) es -> forallb (fun e => width_ok e.2) es = true ->
  lower_entries lower_pattern_match v es = of_option (match_entries matches v es).
Proof.
  induction 1 as [|e es He Hall IH]; [done|]. simpl. intros [Hwe Hw]%andb_true_iff.
  rewrite (He Hwe), (IH Hw). apply and_then_of_option.
Qed.

Lemma lower_list_spec es last last' v :
  Forall lowers es -> forallb width_ok es = true -> (forall w, last' w = of_option (last w)) ->
  lower_list lower_pattern_match last' es v = of_option (match_list matches last es v).
Proof.
  intros Hall Hw Hlast. revert v Hw. induction Hall as [|e es He Hall IH]; intros v Hw; simpl; [apply Hlast|].
  simpl in Hw. apply andb_true_iff in Hw as [Hwe Hw].
  destruct v; try done. simpl. rewrite (He Hwe), (IH _ Hw). apply and_then_of_option.
Qed.

(** The rest of an array or keyed pattern that is not built is [_]. *)
Lemma rest_not_built (r : HirPattern) : reads_its_collection r = false -> r = PWildcard.
Proof. by destruct r. Qed.

Lemma lower_or_spec alts v :
  Forall lowers alts -> forallb width_ok alts = true ->
  lower_or (fun a => lower_pattern_match a v) alts = of_option (first_some (fun q => matches q v) alts).
Proof.
  induction 1 as [|a alts Ha Hall IH]; [done|]. simpl. intros [Hwa Hw]%andb_true_iff.
  rewrite (Ha Hwa). destruct (matches a v); simpl; auto.
Qed.

Lemma length_match_all m es l e : match_all m es l = Some e -> length l = length es.
Proof.
  revert l e. induction es as [|p es IH]; intros [|x l] e; simpl; try done.
  intros H. destruct (m p x); [|done]. simpl in H.
  destruct (match_all m es l) eqn:E; [|done]. by rewrite (IH _ _ E).
Qed.

Lemma match_all_length m es l : length l <> length es -> match_all m es l = None.
Proof. intros H. destruct (match_all m es l) eqn:E; [by apply length_match_all in E|done]. Qed.

Lemma conj_nil_r x : conj x (Some []) = x.
Proof. destruct x; simpl; [by rewrite app_nil_r|done]. Qed.

Lemma lower_array_spec es r builds v l wrap :
  Forall lowers es -> from_option lowers True r ->
  (N.of_nat (length es) < 65536)%N -> forallb width_ok es = true ->
  (match r with Some q => width_ok q | None => true end) = true ->
  (builds = false -> match r with Some q => q = PWildcard | None => True end) ->
  v = wrap l -> array_len v = length l -> (forall i, array_ref_destructure v i = l !! i) ->
  (forall i, array_slice_from v i = Some (wrap (drop i l))) ->
  lower_array lower_pattern_match builds true es
    (match r with Some q => Some (lower_pattern_match q) | None => None end) v
  = of_option (match_array matches es (match r with Some q => Some (matches q) | None => None end) wrap l).
Proof.
  intros Hall Hr Hb Hw Hwr Hbuild -> Hlen Hget Hslice. unfold lower_array, match_array. simpl.
  destruct r as [q|]; simpl in *; rewrite Hlen.
  - destruct (length es <=? length l) eqn:Hle; [|done]. apply Nat.leb_le in Hle.
    assert (Hels : lower_elements lower_pattern_match (wrap l) 0 es
        = of_option (match_all matches es (take (length es) l))).
    { apply (lower_elements_spec es (take (length es) l) (wrap l) []); [done..| | |].
      - intros i Hi. rewrite Hget. simpl. by rewrite lookup_take_lt.
      - done.
      - rewrite length_take. lia. }
    simpl. rewrite Hels. destruct builds.
    + rewrite as_u16_small, Hslice by lia. simpl. rewrite (Hr Hwr). apply and_then_of_option.
    + rewrite (Hbuild eq_refl). simpl. rewrite conj_nil_r.
      by destruct (match_all _ _ _); simpl; rewrite ?app_nil_r.
  - destruct (length l =? length es) eqn:He; simpl.
    + apply Nat.eqb_eq in He.
      change 0 with (length (@nil Value)).
      rewrite (lower_elements_spec es l (wrap l) []) by done.
      by destruct (match_all _ _ _); simpl; rewrite ?app_nil_r.
    + apply Nat.eqb_neq in He. by rewrite match_all_length.
Qed.

Lemma lower_keyed_spec es r builds v (kind : bool) :
  Forall (fun e => lowers e.2) es -> from_option lowers True r ->
  forallb (fun e => width_ok e.2) es = true ->
  (match r with Some q => width_ok q | None => true end) = true ->
  (builds = false -> match r with Some q => q = PWildcard | None => True end) ->
  lower_keyed lower_pattern_match builds kind es
    (match r with Some q => Some (lower_pattern_match q) | None => None end) v
  = of_option
      (if kind
       then conj (match_entries matches v es)
              (match r with Some q => matches q (struct_rest v (excluded_keys es)) | None => Some [] end)
       else None).
Proof.
  intros Hall Hr Hw Hwr Hbuild. unfold lower_keyed. rewrite lower_entries_spec by done.
  rewrite <- branch_of_option, <- and_then_of_option. do 2 f_equal.
  destruct r as [q|]; [|done]. simpl in *. destruct builds; [by apply Hr|].
  by rewrite (Hbuild eq_refl).
Qed.

Lemma own_rest_not_built (r : HirPattern) (b : bool) : reads_its_collection r || b = false -> r = PWildcard.
Proof. intros [H _]%orb_false_iff. by apply rest_not_built. Qed.

Ltac lower_array_case :=
  lazymatch goal with
  | Hw : _ = true, r : option HirPattern |- _ =>
      apply andb_true_iff in Hw as [[?%N.ltb_lt ?]%andb_true_iff ?];
      apply lower_array_spec; try done;
      destruct r; [apply own_rest_not_built|done]
  end.

Ltac lower_keyed_case :=
  lazymatch goal with
  | Hw : _ = true, r : option HirPattern |- _ =>
      apply andb_true_iff in Hw as [? ?];
      apply lower_keyed_spec; try done;
      destruct r; [apply rest_not_built|done]
  end.

Lemma lower_pattern_match_lowers p : lowers p.
Proof.
  induction p using HirPattern_nested_ind; intros Hw v; simpl in Hw.
  - done.
  - simpl. by destruct (is_nil v).
  - simpl. by destruct (eq_literal v l).
  - done.
  - apply andb_true_iff in Hw as [Hh Ht]. destruct v; try done. simpl.
    rewrite (IHp1 Hh), (IHp2 Ht). apply and_then_of_option.
  - apply andb_true_iff in Hw as [He Hr]. simpl. apply lower_list_spec; [done..|].
    intros w. destruct r as [q|]; [by apply H0|]. by destruct (is_empty_list w).
  - destruct v; try done. cbn [lower_pattern_match matches is_array]. lower_array_case.
  - destruct v; try done. cbn [lower_pattern_match matches is_array_mut]. lower_array_case.
  - cbn [lower_pattern_match matches]. lower_keyed_case.
  - cbn [lower_pattern_match matches]. lower_keyed_case.
  - simpl. rewrite (IHp Hw). apply branch_of_option.
  - simpl. rewrite (IHp Hw). apply branch_of_option.
  - by apply lower_or_spec.
Qed.
