(* ===== verification/Decision.v ===== *)
(** * Decision trees: the compiler of [match]

    [hir/decision/mod.rs], [algo.rs] and [constructors.rs]: Maranget's
    algorithm over a matrix of pattern rows, and the code its tree is lowered
    to ([lir/lower/pattern.rs], [pattern/ctor.rs], [access.rs]): a switch is an
    if-else chain of constructor tests that commits to the first one that
    passes, a guard that fails continues with its [otherwise] tree.

    An index past the end of a row or of the access paths is the Rust panic
    [Panicked]; the recursion of [compile_matrix] is bounded by fuel and
    [Exhausted] when it runs out.  The [HashSet] that counts a column's
    constructors is the list of its elements. *)

From stdpp Require Import base numbers list option gmap fin_maps sets strings.
From Stdlib Require Import SpecFloat.
From S2P Require Import Prelude Names MatchValue MatchPattern.

(** ** Data *)

Inductive AccessPath :=
| Root
| First (p : AccessPath)
| Rest (p : AccessPath)
| Index (p : AccessPath) (i : nat)
| Slice (p : AccessPath) (i : nat)
| Key (p : AccessPath) (k : PatternKey)
| StructRest (p : AccessPath) (exclude : list PatternKey).

Inductive Constructor :=
| CLiteral (lit : PatternLiteral)
| CPair
| CNil
| CEmptyList
| CArray (n : nat)
| CArrayRest (n : nat)
| CArrayMut (n : nat)
| CArrayMutRest (n : nat)
| CStruct (keys : list PatternKey)
| CTable (keys : list PatternKey)
| CSet
| CSetMut.

(** The derived [PartialEq]: floats compare as doubles do. *)
Definition literal_eqb (a b : PatternLiteral) : bool :=
  match a, b with
  | LBool x, LBool y => Bool.eqb x y
  | LInt x, LInt y => (x =? y)%Z
  | LFloat x, LFloat y => SFeqb x y
  | LString x, LString y => String.eqb x y
  | LKeyword x, LKeyword y => String.eqb x y
  | _, _ => false
  end.

Definition constructor_eqb (a b : Constructor) : bool :=
  match a, b with
  | CLiteral x, CLiteral y => literal_eqb x y
  | CPair, CPair | CNil, CNil | CEmptyList, CEmptyList | CSet, CSet | CSetMut, CSetMut => true
  | CArray x, CArray y | CArrayRest x, CArrayRest y
  | CArrayMut x, CArrayMut y | CArrayMutRest x, CArrayMutRest y => x =? y
  | CStruct x, CStruct y | CTable x, CTable y => bool_decide (x = y)
  | _, _ => false
  end.

(** An element is found in the hash set when it is equal and hashes alike; the
    hash of a double is that of its bits. *)
Definition same_hash (a b : Constructor) : bool :=
  match a, b with
  | CLiteral (LFloat (S754_zero s)), CLiteral (LFloat (S754_zero s')) => Bool.eqb s s'
  | _, _ => true
  end.

Definition arity (c : Constructor) : nat :=
  match c with
  | CLiteral _ | CNil | CEmptyList => 0
  | CPair => 2
  | CArray n | CArrayMut n => n
  | CArrayRest n | CArrayMutRest n => n + 1
  | CStruct keys | CTable keys => length keys
  | CSet | CSetMut => 1
  end.

Record PatternRow := mkRow {
  patterns : list HirPattern;
  has_guard : bool;
  arm_index : nat;
  bindings : list (Binding * AccessPath) }.

Definition PatternRow_new (ps : list HirPattern) (g : bool) (i : nat) : PatternRow := mkRow ps g i [].

Definition PatternMatrix := list PatternRow.

Inductive DecisionTree :=
| Leaf (arm : nat) (bs : list (Binding * AccessPath))
| Fail
| Switch (access : AccessPath) (cases : list (Constructor * DecisionTree)) (default : option DecisionTree)
| Guard (arm : nat) (bs : list (Binding * AccessPath)) (otherwise : DecisionTree).

(** [PatternMatrix::from_arms], one row per top-level alternative. *)
Fixpoint from_arms_at (i : nat) (arms : list Arm) : PatternMatrix :=
  match arms with
  | [] => []
  | (p, g) :: arms' =>
      List.map (fun q => PatternRow_new [q] g i) (expand_or_pattern p) ++ from_arms_at (S i) arms'
  end.

Definition from_arms (arms : list Arm) : PatternMatrix := from_arms_at 0 arms.

(** ** Patterns and their constructors *)

Definition is_wildcard (p : HirPattern) : bool :=
  match p with PWildcard | PVar _ => true | _ => false end.

Definition pattern_constructor (p : HirPattern) : option Constructor :=
  match p with
  | PWildcard | PVar _ => None
  | PNil => Some CNil
  | PLiteral lit => Some (CLiteral lit)
  | PPair _ _ => Some CPair
  | PList [] None => Some CEmptyList
  | PList _ _ => Some CPair
  | PTuple es (Some _) => Some (CArrayRest (length es))
  | PTuple es None => Some (CArray (length es))
  | PArray es (Some _) => Some (CArrayMutRest (length es))
  | PArray es None => Some (CArrayMut (length es))
  | PStruct es _ => Some (CStruct (es.*1))
  | PTable es _ => Some (CTable (es.*1))
  | PSet _ => Some CSet
  | PSetMut _ => Some CSetMut
  | POr _ => None
  end.

(** The bindings of a pattern with the paths that reach them, in order. *)
Definition collect_elements (collect : HirPattern -> AccessPath -> list (Binding * AccessPath)) (access : AccessPath)
    : nat -> list HirPattern -> list (Binding * AccessPath) :=
  fix go i es :=
    match es with
    | [] => []
    | e :: es' => collect e (Index access i) ++ go (S i) es'
    end.

Fixpoint collect_pattern_bindings (p : HirPattern) (access : AccessPath) : list (Binding * AccessPath) :=
  match p with
  | PVar b => [(b, access)]
  | PWildcard | PNil | PLiteral _ => []
  | PPair h t =>
      collect_pattern_bindings h (First access) ++ collect_pattern_bindings t (Rest access)
  | PList es r =>
      (fix go es current :=
         match es with
         | [] => match r with Some q => collect_pattern_bindings q current | None => [] end
         | e :: es' => collect_pattern_bindings e (First current) ++ go es' (Rest current)
         end) es access
  | PTuple es r | PArray es r =>
      collect_elements collect_pattern_bindings access 0 es
      ++ match r with Some q => collect_pattern_bindings q (Slice access (length es)) | None => [] end
  | PStruct es r | PTable es r =>
      flat_map (fun e => collect_pattern_bindings e.2 (Key access e.1)) es
      ++ match r with Some q => collect_pattern_bindings q (StructRest access (es.*1)) | None => [] end
  | PSet b | PSetMut b => collect_pattern_bindings b access
  | POr alts => match alts with a :: _ => collect_pattern_bindings a access | [] => [] end
  end.

(** ** Constructors of a column *)

Fixpoint collect_constructors_for_column (p : HirPattern) (out : list Constructor) : list Constructor :=
  match p with
  | POr alts => fold_left (fun o a => collect_constructors_for_column a o) alts out
  | _ =>
      match pattern_constructor p with
      | Some c => if existsb (fun s => constructor_eqb s c && same_hash s c) out then out else c :: out
      | None => out
      end
  end.

Fixpoint collect_constructors_from_pattern (p : HirPattern) (seen : list Constructor) : list Constructor :=
  match p with
  | POr alts => fold_left (fun o a => collect_constructors_from_pattern a o) alts seen
  | _ =>
      match pattern_constructor p with
      | Some c => if existsb (fun s => constructor_eqb s c) seen then seen else seen ++ [c]
      | None => seen
      end
  end.

(** The union of the key sets, in order of first appearance. *)
Definition union_keys (acc keys : list PatternKey) : list PatternKey :=
  fold_left (fun a k => if bool_decide (k ∈ a) then a else a ++ [k]) keys acc.

Definition is_struct_ctor (c : Constructor) : bool := match c with CStruct _ => true | _ => false end.
Definition is_table_ctor (c : Constructor) : bool := match c with CTable _ => true | _ => false end.

Definition ctor_keys (c : Constructor) : list PatternKey :=
  match c with CStruct ks | CTable ks => ks | _ => [] end.

(** One pass of the merge: the constructors of a kind leave the list and one
    with the union of their keys goes to its end. *)
Definition merge_kind (is_kind : Constructor -> bool) (make : list PatternKey -> Constructor)
    (ctors : list Constructor) : list Constructor :=
  if existsb is_kind ctors
  then List.filter (fun c => negb (is_kind c)) ctors
       ++ [make (fold_left union_keys (List.map ctor_keys (List.filter is_kind ctors)) [])]
  else ctors.

Definition merge_struct_table_constructors (ctors : list Constructor) : list Constructor :=
  merge_kind is_table_ctor CTable (merge_kind is_struct_ctor CStruct ctors).

(** [row.patterns[col]] for every row; [None] is the index panic. *)
Definition column (m : PatternMatrix) (col : nat) : option (list HirPattern) :=
  mapM (fun row => patterns row !! col) m.

Definition collect_constructors (m : PatternMatrix) (col : nat) : option (list Constructor) :=
  ps ← column m col;
  Some (merge_struct_table_constructors (fold_left (fun o p => collect_constructors_from_pattern p o) ps [])).

(** The column with the most distinct constructors, the first of them. *)
Definition select_step (m : PatternMatrix) (best : option (nat * nat)) (col : nat) : option (nat * nat) :=
  '(best_col, best_count) ← best;
  ps ← column m col;
  let count := length (fold_left (fun o p => collect_constructors_for_column p o) ps []) in
  Some (if best_count <? count then (col, count) else (best_col, best_count)).

Definition select_column (m : PatternMatrix) : option nat :=
  let ncols := match m with [] => 0 | r :: _ => length (patterns r) end in
  '(col, _) ← fold_left (select_step m) (seq 0 ncols) (Some (0, 0));
  Some col.

(** ** Specialization *)

Definition constructor_compatible (pat_ctor target : Constructor) : bool :=
  match pat_ctor, target with
  | CStruct _, CStruct _ => true
  | CTable _, CTable _ => true
  | _, _ => constructor_eqb pat_ctor target
  end.

Definition entry_pattern (es : list (PatternKey * HirPattern)) (key : PatternKey) : HirPattern :=
  match List.find (fun e => bool_decide (e.1 = key)) es with Some e => e.2 | None => PWildcard end.

Definition extract_sub_patterns (p : HirPattern) (c : Constructor) : list HirPattern :=
  match p with
  | PWildcard | PVar _ => replicate (arity c) PWildcard
  | PPair h t => [h; t]
  | PList [] _ => []
  | PList (h :: es) r =>
      match es with
      | [] => [h; match r with Some q => q | None => PList [] None end]
      | _ :: _ => [h; PList es r]
      end
  | PTuple es r | PArray es r =>
      match c with
      | CArrayRest _ | CArrayMutRest _ => es ++ [match r with Some q => q | None => PWildcard end]
      | _ => es
      end
  | PStruct es _ | PTable es _ =>
      match c with
      | CStruct keys | CTable keys => List.map (entry_pattern es) keys
      | _ => es.*2
      end
  | PSet b | PSetMut b => [b]
  | PNil | PLiteral _ | POr _ => []
  end.

(** The row with column [col] replaced. *)
Definition replace_column (row : PatternRow) (col : nat) (subs : list HirPattern)
    (bs : list (Binding * AccessPath)) : PatternRow :=
  mkRow (take col (patterns row) ++ subs ++ drop (S col) (patterns row))
    (has_guard row) (arm_index row) (bindings row ++ bs).

Definition var_binding (p : HirPattern) (access : AccessPath) : list (Binding * AccessPath) :=
  match p with PVar b => [(b, access)] | _ => [] end.

Definition rest_bindings (p : HirPattern) (access : AccessPath) : list (Binding * AccessPath) :=
  match p with
  | PStruct es (Some r) | PTable es (Some r) => collect_pattern_bindings r (StructRest access (es.*1))
  | _ => []
  end.

Definition compatible_with (p : HirPattern) (c : Constructor) : bool :=
  match pattern_constructor p with Some c' => constructor_compatible c' c | None => false end.

Definition specialize_row (col : nat) (c : Constructor) (access : AccessPath) (row : PatternRow) (p : HirPattern)
    : list PatternRow :=
  if is_wildcard p then
    [replace_column row col (replicate (arity c) PWildcard) (var_binding p access)]
  else
    match p with
    | POr alts =>
        List.map (fun a => replace_column row col (extract_sub_patterns a c) (var_binding a access))
          (List.filter (fun a => is_wildcard a || compatible_with a c) alts)
    | _ =>
        if compatible_with p c
        then [replace_column row col (extract_sub_patterns p c) (rest_bindings p access)]
        else []
    end.

Definition specialize (m : PatternMatrix) (col : nat) (c : Constructor) (access : AccessPath)
    : option PatternMatrix :=
  ps ← column m col;
  Some (concat (zip_with (specialize_row col c access) m ps)).

Definition default_row (col : nat) (access : AccessPath) (row : PatternRow) (p : HirPattern) : list PatternRow :=
  if is_wildcard p then [replace_column row col [] (var_binding p access)] else [].

Definition default_matrix (m : PatternMatrix) (col : nat) (access : AccessPath) : option PatternMatrix :=
  ps ← column m col;
  Some (concat (zip_with (default_row col access) m ps)).

Definition sub_access (c : Constructor) (base : AccessPath) : list AccessPath :=
  match c with
  | CLiteral _ | CNil | CEmptyList => []
  | CPair => [First base; Rest base]
  | CArray n | CArrayMut n => List.map (Index base) (seq 0 n)
  | CArrayRest n | CArrayMutRest n => List.map (Index base) (seq 0 n) ++ [Slice base n]
  | CStruct keys | CTable keys => List.map (Key base) keys
  | CSet | CSetMut => [base]
  end.

Definition expand_access (col_access : list AccessPath) (col : nat) (base : AccessPath) (c : Constructor)
    : list AccessPath :=
  take col col_access ++ sub_access c base ++ drop (S col) col_access.

Definition remove_column (col_access : list AccessPath) (col : nat) : list AccessPath :=
  take col col_access ++ drop (S col) col_access.

(** ** The core algorithm *)

Inductive outcome (A : Type) := Done (a : A) | Panicked | Exhausted.
Arguments Done {A} _.
Arguments Panicked {A}.
Arguments Exhausted {A}.

Definition or_panic {A B} (x : option A) (k : A -> outcome B) : outcome B :=
  match x with Some a => k a | None => Panicked end.

Definition obind {A B} (k : A -> outcome B) (x : outcome A) : outcome B :=
  match x with Done a => k a | Panicked => Panicked | Exhausted => Exhausted end.

(** One subtree per constructor of the column, in order. *)
Fixpoint compile_cases (compile : Constructor -> outcome DecisionTree) (cs : list Constructor)
    : outcome (list (Constructor * DecisionTree)) :=
  match cs with
  | [] => Done []
  | c :: cs' => obind (fun t => obind (fun ts => Done ((c, t) :: ts)) (compile_cases compile cs')) (compile c)
  end.

Definition leaf_bindings (row : PatternRow) (col_access : list AccessPath) : list (Binding * AccessPath) :=
  bindings row ++ concat (zip_with collect_pattern_bindings (patterns row) col_access).

(** The body of [compile_matrix], with [compile] for the recursive calls. *)
Definition compile_step (compile : PatternMatrix -> list AccessPath -> outcome DecisionTree)
    (m : PatternMatrix) (col_access : list AccessPath) : outcome DecisionTree :=
  match m with
  | [] => Done Fail
  | first_row :: remaining =>
      if forallb is_wildcard (patterns first_row) then
        let bs := leaf_bindings first_row col_access in
        if has_guard first_row
        then obind (fun t => Done (Guard (arm_index first_row) bs t)) (compile remaining col_access)
        else Done (Leaf (arm_index first_row) bs)
      else
        or_panic (select_column m) (fun col =>
        or_panic (collect_constructors m col) (fun constructors =>
        or_panic (col_access !! col) (fun access =>
        obind (fun cases =>
          or_panic (default_matrix m col access) (fun def =>
          match def with
          | [] => Done (Switch access cases None)
          | _ :: _ =>
              obind (fun d => Done (Switch access cases (Some d))) (compile def (remove_column col_access col))
          end))
        (compile_cases (fun c =>
           or_panic (specialize m col c access) (fun sm =>
           compile sm (expand_access col_access col access c))) constructors))))
  end.

Fixpoint compile_matrix (fuel : nat) (m : PatternMatrix) (col_access : list AccessPath) : outcome DecisionTree :=
  match fuel with
  | O => Exhausted
  | S fuel' => compile_step (compile_matrix fuel') m col_access
  end.

(** ** Reachability *)

Fixpoint collect_reachable (t : DecisionTree) : list nat :=
  match t with
  | Leaf i _ => [i]
  | Fail => []
  | Switch _ cases d =>
      flat_map (fun ct => collect_reachable ct.2) cases
      ++ match d with Some t' => collect_reachable t' | None => [] end
  | Guard i _ t' => i :: collect_reachable t'
  end.

Definition unreachable_arms (fuel : nat) (arms : list Arm) : outcome (list nat) :=
  obind (fun t =>
    Done (List.filter (fun i => negb (bool_decide (i ∈ collect_reachable t))) (seq 0 (length arms))))
  (compile_matrix fuel (from_arms arms) [Root]).

(** ** Running the lowered tree *)

(** [emit_constructor_test]. *)
Definition constructor_test (v : Value) (c : Constructor) : bool :=
  match c with
  | CLiteral lit => eq_literal v lit
  | CPair => is_pair v
  | CNil => is_nil v
  | CEmptyList => is_empty_list v
  | CArray n => is_array v && (array_len v =? n)
  | CArrayRest n => is_array v && (n <=? array_len v)
  | CArrayMut n => is_array_mut v && (array_len v =? n)
  | CArrayMutRest n => is_array_mut v && (n <=? array_len v)
  | CStruct _ => is_struct v
  | CTable _ => is_struct_mut v
  | CSet => is_set v
  | CSetMut => is_set_mut v
  end.

(** [load_access_path]. *)
Fixpoint load (v : Value) (access : AccessPath) : option Value :=
  match access with
  | Root => Some v
  | First p => w ← load v p; vm_first w
  | Rest p => w ← load v p; vm_rest w
  | Index p i => w ← load v p; array_ref_destructure w (as_u16 i)
  | Slice p i => w ← load v p; array_slice_from w (as_u16 i)
  | Key p k => w ← load v p; Some (struct_get_or_nil w (pattern_key_const k))
  | StructRest p ks => w ← load v p; Some (struct_rest w (List.map pattern_key_const ks))
  end.

Definition load_bindings (v : Value) (bs : list (Binding * AccessPath)) : option Env :=
  mapM (fun ba => w ← load v ba.2; Some (ba.1, w)) bs.

Section Run.
Context (guard : nat -> gmap N Value -> bool) (v : Value).

Fixpoint run_tree (t : DecisionTree) : MatchResult :=
  match t with
  | Leaf i bs =>
      match load_bindings v bs with Some e => Selected i (slots e) | None => ReadError end
  | Fail => MatchError
  | Guard i bs otherwise =>
      match load_bindings v bs with
      | Some e => if guard i (slots e) then Selected i (slots e) else run_tree otherwise
      | None => ReadError
      end
  | Switch access cases d =>
      match load v access with
      | None => ReadError
      | Some w =>
          (fix chain cs :=
             match cs with
             | (c, t') :: cs' => if constructor_test w c then run_tree t' else chain cs'
             | [] => match d with Some t' => run_tree t' | None => MatchError end
             end) cases
      end
  end.

End Run.
