(* ===== verification/DecisionSpec.v ===== *)
(** * Matches as a commutative monoid, and the regular patterns

    Bindings reach a leaf of the decision tree in the order the columns were
    split, and the sequential lowering in the order of the pattern, so results
    are compared up to the order of their bindings ([≋]).  The second half
    states which patterns the tree compiles exactly: [regular] patterns whose
    constructors are told apart by their tests ([distinguishable]). *)

From stdpp Require Import base numbers list option gmap fin_maps sets strings.
From Stdlib Require Import SpecFloat.
From S2P Require Import Prelude Names MatchValue MatchPattern Decision.

(** ** Results up to the order of the bindings *)

Definition env_equiv (x y : option Env) : Prop := option_Forall2 Permutation x y.

Infix "≋" := env_equiv (at level 70) : elle_scope.
Open Scope elle_scope.

#[export] Instance env_equiv_equivalence : Equivalence env_equiv.
Proof.
  split.
  - intros []; by constructor.
  - destruct 1; by constructor.
  - destruct 1; inversion 1; constructor; by etrans.
Qed.

#[export] Instance conj_proper : Proper (env_equiv ==> env_equiv ==> env_equiv) conj.
Proof.
  intros x x' Hx y y' Hy. destruct Hx as [e1 e1' He|]; [|done].
  destruct Hy as [e2 e2' He'|]; [|done]. simpl. constructor. by rewrite He, He'.
Qed.

Lemma conj_comm x y : conj x y ≋ conj y x.
Proof. destruct x, y; simpl; constructor. apply Permutation_app_comm. Qed.

Lemma conj_assoc x y z : conj x (conj y z) = conj (conj x y) z.
Proof. destruct x, y, z; simpl; by rewrite ?app_assoc. Qed.

Lemma conj_nil_l x : conj (Some []) x = x.
Proof. by destruct x. Qed.

Lemma conj_None_r x : conj x None = None.
Proof. by destruct x. Qed.

Lemma conj_swap x y z : conj x (conj y z) ≋ conj y (conj x z).
Proof. by rewrite !conj_assoc, (conj_comm x y). Qed.

Lemma env_equiv_None x : None ≋ x -> x = None.
Proof. inversion 1; done. Qed.

Lemma env_equiv_Some x e : x ≋ Some e -> exists e', x = Some e' /\ e' ≡ₚ e.
Proof. inversion 1; eauto. Qed.

Lemma conj_Some x y e : conj x y = Some e -> exists e1 e2, x = Some e1 /\ y = Some e2 /\ e = e1 ++ e2.
Proof. destruct x, y; simpl; [|done..]. intros [= <-]. eauto. Qed.

#[global] Arguments conj : simpl never.

Lemma conj_all_app xs ys : conj_all (xs ++ ys) = conj (conj_all xs) (conj_all ys).
Proof. induction xs as [|x xs IH]; simpl; [by rewrite conj_nil_l|]. by rewrite IH, conj_assoc. Qed.

#[export] Instance conj_all_perm : Proper (Permutation ==> env_equiv) conj_all.
Proof.
  induction 1 as [|x xs ys _ IH|x y xs|xs ys zs _ IH1 _ IH2]; simpl; [done| | |by etrans].
  - by rewrite IH.
  - apply conj_swap.
Qed.

Lemma conj_all_units {A} (f : A -> option Env) (l : list A) :
  Forall (fun a => f a = Some []) l -> conj_all (List.map f l) = Some [].
Proof. induction 1 as [|a l Ha _ IH]; simpl; [done|]. by rewrite Ha, IH. Qed.

Lemma match_all_app m ps ps' vs vs' :
  length ps = length vs ->
  match_all m (ps ++ ps') (vs ++ vs') = conj (match_all m ps vs) (match_all m ps' vs').
Proof.
  revert vs. induction ps as [|p ps IH]; intros [|v vs] Hl; simpl in *; try done.
  - by rewrite conj_nil_l.
  - rewrite IH by lia. by rewrite conj_assoc.
Qed.

Lemma match_all_map {A} m (f : A -> HirPattern) (g : A -> Value) (l : list A) :
  match_all m (List.map f l) (List.map g l) = conj_all (List.map (fun a => m (f a) (g a)) l).
Proof. induction l as [|a l IH]; simpl; [done|]. by rewrite IH. Qed.

Lemma match_all_wildcards vs : match_all matches (replicate (length vs) PWildcard) vs = Some [].
Proof. induction vs as [|v vs IH]; simpl; [done|]. by rewrite IH. Qed.

(** ** Slots *)

Lemma slots_list_to_map e : slots e = list_to_map (reverse e).
Proof.
  unfold slots. rewrite <- (reverse_involutive e) at 1. generalize (reverse e). clear e. intros e.
  induction e as [|[b w] e IH]; [done|]. by rewrite reverse_cons, foldl_app, IH.
Qed.

Lemma slots_perm e1 e2 : e1 ≡ₚ e2 -> NoDup (e1.*1) -> slots e1 = slots e2.
Proof.
  intros Hp Hnd. rewrite !slots_list_to_map. apply list_to_map_proper.
  - rewrite fmap_reverse. by rewrite reverse_Permutation.
  - by rewrite !reverse_Permutation.
Qed.

(** ** Regular patterns *)

(** An alternative of a nested or-pattern that the column splitting keeps:
    not a catch-all, not an or-pattern itself, and binding no struct rest. *)
Definition plain_alternative (p : HirPattern) : bool :=
  match p with
  | PWildcard | PVar _ | POr _ => false
  | PStruct _ (Some (PVar _)) | PTable _ (Some (PVar _)) => false
  | _ => true
  end.

(** A keyed rest that binds at most a name. *)
Definition simple_rest (r : option HirPattern) : bool :=
  match r with None | Some PWildcard | Some (PVar _) => true | _ => false end.

Fixpoint regular (p : HirPattern) : bool :=
  let opt r := match r with Some q => regular q | None => true end in
  match p with
  | PWildcard | PNil | PLiteral _ | PVar _ => true
  | PPair h t => regular h && regular t
  | PList es r =>
      match es, r with [], Some _ => false | _, _ => true end && forallb regular es && opt r
  | PTuple es r | PArray es r => (N.of_nat (length es) <? 65536)%N && forallb regular es && opt r
  | PStruct es r | PTable es r =>
      bool_decide (NoDup (es.*1)) && forallb (fun e => regular e.2) es && simple_rest r
  | PSet b | PSetMut b => regular b
  | POr alts => forallb (fun a => plain_alternative a && regular a) alts
  end.

Fixpoint or_free (p : HirPattern) : bool :=
  let opt r := match r with Some q => or_free q | None => true end in
  match p with
  | PWildcard | PNil | PLiteral _ | PVar _ => true
  | PPair h t => or_free h && or_free t
  | PList es r | PTuple es r | PArray es r => forallb or_free es && opt r
  | PStruct es r | PTable es r => forallb (fun e => or_free e.2) es && opt r
  | PSet b | PSetMut b => or_free b
  | POr _ => false
  end.

(** Every constructor a pattern tests for, at any depth. *)
Fixpoint ctors_in (p : HirPattern) : list Constructor :=
  let opt r := match r with Some q => ctors_in q | None => [] end in
  match p with
  | PWildcard | PVar _ => []
  | PNil => [CNil]
  | PLiteral lit => [CLiteral lit]
  | PPair h t => CPair :: ctors_in h ++ ctors_in t
  | PList es r => CPair :: CEmptyList :: flat_map ctors_in es ++ opt r
  | PTuple es r =>
      match r with Some _ => CArrayRest (length es) | None => CArray (length es) end :: flat_map ctors_in es ++ opt r
  | PArray es r =>
      match r with Some _ => CArrayMutRest (length es) | None => CArrayMut (length es) end
      :: flat_map ctors_in es ++ opt r
  | PStruct es r => CStruct (es.*1) :: flat_map (fun e => ctors_in e.2) es ++ opt r
  | PTable es r => CTable (es.*1) :: flat_map (fun e => ctors_in e.2) es ++ opt r
  | PSet b => CSet :: ctors_in b
  | PSetMut b => CSetMut :: ctors_in b
  | POr alts => flat_map ctors_in alts
  end.

(** No value passes both tests. *)
Definition literals_exclusive (a b : PatternLiteral) : bool :=
  match a, b with
  | LBool x, LBool y => negb (Bool.eqb x y)
  | LInt x, LInt y => negb (x =? y)%Z && negb (SFeqb (i64_as_f64 x) (i64_as_f64 y))
  | LInt x, LFloat g | LFloat g, LInt x => negb (SFeqb (i64_as_f64 x) g)
  | LFloat f, LFloat g => negb (SFeqb f g)
  | LString x, LString y => negb (String.eqb x y)
  | LKeyword x, LKeyword y => negb (keyword_hash x =? keyword_hash y)%N
  | _, _ => true
  end.

Definition exclusive (a b : Constructor) : bool :=
  match a, b with
  | CLiteral x, CLiteral y => literals_exclusive x y
  | CPair, CPair | CNil, CNil | CEmptyList, CEmptyList | CSet, CSet | CSetMut, CSetMut => false
  | CArray n, CArray m | CArrayMut n, CArrayMut m => negb (n =? m)
  | CArray n, CArrayRest m | CArrayRest m, CArray n => n <? m
  | CArrayMut n, CArrayMutRest m | CArrayMutRest m, CArrayMut n => n <? m
  | CArrayRest _, CArrayRest _ | CArrayMutRest _, CArrayMutRest _ => false
  | CStruct _, CStruct _ | CTable _, CTable _ => false
  | _, _ => true
  end.

(** Two constructors are the same case of a switch, or no value passes both
    tests. *)
Definition told_apart (a b : Constructor) : bool := constructor_compatible a b || exclusive a b.

Definition distinguishable (cs : list Constructor) : bool :=
  forallb (fun a => forallb (told_apart a) cs) cs.

(** Every variable a pattern can bind, a nested alternative's once. *)
Fixpoint vars (p : HirPattern) : list Binding :=
  let opt r := match r with Some q => vars q | None => [] end in
  match p with
  | PWildcard | PNil | PLiteral _ => []
  | PVar b => [b]
  | PPair h t => vars h ++ vars t
  | PList es r | PTuple es r | PArray es r => flat_map vars es ++ opt r
  | PStruct es r | PTable es r => flat_map (fun e => vars e.2) es ++ opt r
  | PSet b | PSetMut b => vars b
  | POr alts => remove_dups (flat_map vars alts)
  end.

(** No choice of alternatives binds a variable twice. *)
Fixpoint linear (p : HirPattern) : bool :=
  let opt r := match r with Some q => linear q | None => true end in
  match p with
  | PWildcard | PNil | PLiteral _ | PVar _ => true
  | PPair h t => linear h && linear t && bool_decide (NoDup (vars (PPair h t)))
  | PList es r => forallb linear es && opt r && bool_decide (NoDup (vars (PList es r)))
  | PTuple es r => forallb linear es && opt r && bool_decide (NoDup (vars (PTuple es r)))
  | PArray es r => forallb linear es && opt r && bool_decide (NoDup (vars (PArray es r)))
  | PStruct es r => forallb (fun e => linear e.2) es && opt r && bool_decide (NoDup (vars (PStruct es r)))
  | PTable es r => forallb (fun e => linear e.2) es && opt r && bool_decide (NoDup (vars (PTable es r)))
  | PSet b | PSetMut b => linear b
  | POr alts => forallb linear alts
  end.

(** The arms a decision tree compiles exactly. *)
Definition regular_arm (arm : Arm) : bool :=
  forallb (fun q => regular q && linear q && (negb arm.2 || or_free q)) (expand_or_pattern arm.1).

Definition arm_ctors (arms : list Arm) : list Constructor :=
  flat_map (fun arm => flat_map ctors_in (expand_or_pattern arm.1)) arms.

Definition regular_arms (arms : list Arm) : bool :=
  forallb regular_arm arms && distinguishable (arm_ctors arms).

(** * One split of a column is exact

    What a constructor's test says of a value, that its sub-paths load the
    value's parts, and that a row of a regular matrix keeps its meaning when a
    column is replaced by the sub-patterns of the constructor that passed. *)

(** ** Tests *)

Lemma literal_eqb_test v a b : literal_eqb a b = true -> eq_literal v a = eq_literal v b.
Proof.
  destruct a, b; try done; simpl.
  - intros ->%Bool.eqb_prop. done.
  - intros ->%Z.eqb_eq. done.
  - intros H. destruct v; try done; apply eq_true_iff_eq; split; intros H';
      eauto using SFeqb_euclid, SFeqb_sym.
  - intros ->%String.eqb_eq. done.
  - intros ->%String.eqb_eq. done.
Qed.

Lemma constructor_eqb_test v a b : constructor_eqb a b = true -> constructor_test v a = constructor_test v b.
Proof.
  destruct a, b; try done; simpl; try (by intros ->%Nat.eqb_eq). apply literal_eqb_test.
Qed.

(** Compatible constructors have the same test. *)
Lemma compatible_test v a b : constructor_compatible a b = true -> constructor_test v a = constructor_test v b.
Proof. destruct a, b; try done; apply (constructor_eqb_test v). Qed.

Lemma literals_exclusive_sound v a b :
  literals_exclusive a b = true -> eq_literal v a = true -> eq_literal v b = true -> False.
Proof.
  destruct a, b, v; try done; simpl; intros Hx H1 H2;
    rewrite ?andb_true_iff, ?negb_true_iff in Hx.
  - apply Bool.eqb_prop in H1, H2. subst. by rewrite Bool.eqb_reflx in Hx.
  - apply Z.eqb_eq in H1, H2. subst. destruct Hx as [Hx _]. by rewrite Z.eqb_refl in Hx.
  - destruct Hx as [_ Hx]. by rewrite (SFeqb_euclid _ _ _ H1 H2) in Hx.
  - apply Z.eqb_eq in H1 as ->. congruence.
  - by rewrite (SFeqb_euclid _ _ _ H1 H2) in Hx.
  - apply Z.eqb_eq in H2 as ->. congruence.
  - by rewrite (SFeqb_euclid _ _ _ H2 H1) in Hx.
  - by rewrite (SFeqb_euclid _ _ _ H1 H2) in Hx.
  - by rewrite (SFeqb_euclid _ _ _ H1 H2) in Hx.
  - apply String.eqb_eq in H1, H2. subst. by rewrite String.eqb_refl in Hx.
  - apply String.eqb_eq in H1, H2. subst. by rewrite String.eqb_refl in Hx.
  - apply N.eqb_eq in H1, H2. subst. by rewrite H2, N.eqb_refl in Hx.
Qed.

Lemma exclusive_sound v a b :
  exclusive a b = true -> constructor_test v a = true -> constructor_test v b = true -> False.
Proof.
  destruct a, b; simpl; try done; try (by destruct v);
    try (destruct v; try done; simpl; rewrite ?negb_true_iff, ?Nat.eqb_neq, ?Nat.ltb_lt, ?Nat.eqb_eq, ?Nat.leb_le; lia).
  1: apply literals_exclusive_sound.
  all: by destruct lit, v.
Qed.

(** A pattern with a constructor matches only values that pass its test. *)
Lemma matches_test p c w :
  regular p = true -> pattern_constructor p = Some c -> constructor_test w c = false -> matches p w = None.
Proof.
  intros Hreg Hc Ht. destruct p as [| |lit|b|h t|es r|es r|es r|es r|es r|b|b|alts]; simpl in Hc; try discriminate Hc.
  - injection Hc as <-. simpl in *. by rewrite Ht.
  - injection Hc as <-. simpl in *. by rewrite Ht.
  - injection Hc as <-. by destruct w.
  - destruct es as [|e es]; [destruct r|]; injection Hc as <-; destruct w; done.
  - destruct r; injection Hc as <-; destruct w; try done; simpl in *; unfold match_array.
    + by rewrite Ht.
    + apply match_all_length. by apply Nat.eqb_neq in Ht.
  - destruct r; injection Hc as <-; destruct w; try done; simpl in *; unfold match_array.
    + by rewrite Ht.
    + apply match_all_length. by apply Nat.eqb_neq in Ht.
  - injection Hc as <-. simpl in *. by rewrite Ht.
  - injection Hc as <-. simpl in *. by rewrite Ht.
  - injection Hc as <-. simpl in *. by rewrite Ht.
  - injection Hc as <-. simpl in *. by rewrite Ht.
Qed.

(** ** The parts a constructor exposes *)

Definition sub_values (w : Value) (c : Constructor) : list Value :=
  match c with
  | CLiteral _ | CNil | CEmptyList => []
  | CPair => match w with VPair a d => [a; d] | _ => [] end
  | CArray _ => match w with VArray l => l | _ => [] end
  | CArrayMut _ => match w with VArrayMut l => l | _ => [] end
  | CArrayRest n => match w with VArray l => take n l ++ [VArray (drop n l)] | _ => [] end
  | CArrayMutRest n => match w with VArrayMut l => take n l ++ [VArrayMut (drop n l)] | _ => [] end
  | CStruct keys | CTable keys => List.map (fun k => struct_get_or_nil w (pattern_key_const k)) keys
  | CSet | CSetMut => [w]
  end.

(** The index operands of the constructor's sub-paths do not wrap. *)
Definition narrow (c : Constructor) : Prop :=
  match c with
  | CArray n | CArrayRest n | CArrayMut n | CArrayMutRest n => (N.of_nat n < 65536)%N
  | _ => True
  end.

Lemma load_indices v base w n l :
  load v base = Some w -> (forall i, i < n -> array_ref_destructure w i = l !! i) ->
  n <= length l -> (N.of_nat n < 65536)%N ->
  mapM (load v) (List.map (Index base) (seq 0 n)) = Some (take n l).
Proof.
  intros Hb Hget Hn Hw. apply mapM_Some. rewrite Forall2_lookup. intros i.
  destruct (decide (i < n)) as [Hi|Hi].
  - rewrite lookup_take_lt by done. change (List.map (Index base) (seq 0 n)) with (Index base <$> seq 0 n).
    rewrite list_lookup_fmap, lookup_seq_lt by done. simpl.
    destruct (lookup_lt_is_Some_2 l i) as [x Hx]; [lia|]. rewrite Hx. constructor.
    simpl. rewrite Hb. simpl. rewrite as_u16_small by lia. by rewrite Hget.
  - rewrite !lookup_ge_None_2; [constructor| |].
    + rewrite length_take. lia.
    + rewrite length_map, length_seq. lia.
Qed.

Lemma mapM_app {A B} (f : A -> option B) l1 l2 x1 x2 :
  mapM f l1 = Some x1 -> mapM f l2 = Some x2 -> mapM f (l1 ++ l2) = Some (x1 ++ x2).
Proof. rewrite !mapM_Some. apply Forall2_app. Qed.

Lemma load_sub_access v base w c :
  load v base = Some w -> constructor_test w c = true -> narrow c ->
  mapM (load v) (sub_access c base) = Some (sub_values w c).
Proof.
  intros Hb Ht Hn. destruct c; simpl in *; try done.
  - destruct w; try done. simpl. by rewrite Hb.
  - destruct w as [| | | | | | | | | |l| | | | | |]; try done. simpl in Ht. apply Nat.eqb_eq in Ht.
    rewrite (load_indices v base _ n l Hb) by (done || lia). by rewrite take_ge by lia.
  - destruct w as [| | | | | | | | | |l| | | | | |]; try done. simpl in Ht. apply Nat.leb_le in Ht.
    apply mapM_app; [by apply (load_indices v base _ n l Hb)|].
    simpl. rewrite Hb. simpl. by rewrite as_u16_small.
  - destruct w as [| | | | | | | | | | |l| | | | |]; try done. simpl in Ht. apply Nat.eqb_eq in Ht.
    rewrite (load_indices v base _ n l Hb) by (done || lia). by rewrite take_ge by lia.
  - destruct w as [| | | | | | | | | | |l| | | | |]; try done. simpl in Ht. apply Nat.leb_le in Ht.
    apply mapM_app; [by apply (load_indices v base _ n l Hb)|].
    simpl. rewrite Hb. simpl. by rewrite as_u16_small.
  - apply mapM_Some, Forall2_fmap_l, Forall2_fmap_r, Forall2_same_length_lookup_2; [done|].
    intros i k k' H1 H2. simpl. rewrite Hb. simpl. congruence.
  - apply mapM_Some, Forall2_fmap_l, Forall2_fmap_r, Forall2_same_length_lookup_2; [done|].
    intros i k k' H1 H2. simpl. rewrite Hb. simpl. congruence.
  - simpl. by rewrite Hb.
  - simpl. by rewrite Hb.
Qed.

Lemma length_sub_values w c : constructor_test w c = true -> length (sub_values w c) = arity c.
Proof.
  destruct c; simpl; try done; try (rewrite length_map; done);
    destruct w; try done; simpl; intros H; rewrite ?length_app, ?length_take; simpl;
    first [apply Nat.eqb_eq in H|apply Nat.leb_le in H|idtac]; lia || done.
Qed.

(** ** The sub-patterns of a constructor match the parts *)

Lemma entry_pattern_in es k p : NoDup (es.*1) -> (k, p) ∈ es -> entry_pattern es k = p.
Proof.
  unfold entry_pattern. induction es as [|[k' q] es IH]; simpl; [by intros _ ?%not_elem_of_nil|].
  intros [Hk Hnd]%NoDup_cons [[= <- <-]|Hin]%elem_of_cons.
  - by rewrite bool_decide_eq_true_2.
  - rewrite bool_decide_eq_false_2; [by apply IH|]. intros ->. apply Hk.
    apply list_elem_of_fmap. by exists (k, p).
Qed.

Lemma entry_pattern_out es k : k ∉ es.*1 -> entry_pattern es k = PWildcard.
Proof.
  unfold entry_pattern. induction es as [|[k' q] es IH]; simpl; [done|].
  intros [Hk Hin]%not_elem_of_cons. rewrite bool_decide_eq_false_2 by done. by apply IH.
Qed.

(** Asking for the union of the keys of a column, with a catch-all for the
    keys a pattern does not name, asks what the pattern asks. *)
Lemma merged_entries es keys (f : PatternKey -> Value) :
  NoDup (es.*1) -> NoDup keys -> es.*1 ⊆ keys ->
  conj_all (List.map (fun k => matches (entry_pattern es k) (f k)) keys)
    ≋ conj_all (List.map (fun e => matches e.2 (f e.1)) es).
Proof.
  intros Hes Hks Hsub.
  destruct (submseteq_Permutation (es.*1) keys) as [others Hp].
  { apply NoDup_submseteq; [done|]. exact Hsub. }
  assert (Hout : forall k, k ∈ others -> k ∉ es.*1).
  { rewrite Hp in Hks. apply NoDup_app in Hks as (_ & Hd & _). intros k Hk Hk'. by apply (Hd k). }
  change (List.map (fun k => matches (entry_pattern es k) (f k)) keys)
    with ((fun k => matches (entry_pattern es k) (f k)) <$> keys).
  rewrite Hp, fmap_app, conj_all_app.
  assert (Hu : conj_all ((fun k => matches (entry_pattern es k) (f k)) <$> others) = Some []).
  { apply (conj_all_units (fun k => matches (entry_pattern es k) (f k))), Forall_forall.
    intros k Hk. by rewrite entry_pattern_out by auto. }
  rewrite Hu, conj_nil_r, <- list_fmap_compose.
  erewrite list_fmap_ext; [reflexivity|].
  intros i [k p] Hi. simpl. by rewrite (entry_pattern_in es k p) by (eauto using list_elem_of_lookup_2).
Qed.

(** What the merge of a column's constructors guarantees its struct patterns. *)
Definition keys_cover (p : HirPattern) (c : Constructor) : Prop :=
  match pattern_constructor p with
  | Some c' => ctor_keys c' ⊆ ctor_keys c /\ NoDup (ctor_keys c)
  | None => True
  end.

(** [extract_sub_patterns] of a compatible constructor, with the rest binding
    that specialization records, is exact. *)
Definition exact_split (v w : Value) (access : AccessPath) (p : HirPattern) (c : Constructor) : Prop :=
  length (extract_sub_patterns p c) = arity c /\
  exists e, load_bindings v (rest_bindings p access) = Some e /\
    conj (Some e) (match_all matches (extract_sub_patterns p c) (sub_values w c)) ≋ matches p w.

Lemma exact_split_simple v w access p c :
  length (extract_sub_patterns p c) = arity c -> rest_bindings p access = [] ->
  match_all matches (extract_sub_patterns p c) (sub_values w c) ≋ matches p w ->
  exact_split v w access p c.
Proof.
  intros Hl Hr Hm. split; [done|]. exists []. rewrite Hr. split; [done|]. by rewrite conj_nil_l.
Qed.

Lemma match_all_rest es q l wrap :
  length es <= length l ->
  match_all matches (es ++ [q]) (take (length es) l ++ [wrap (drop (length es) l)])
  = match_array matches es (Some (matches q)) wrap l.
Proof.
  intros Hle. rewrite match_all_app by (rewrite length_take; lia). simpl. rewrite conj_nil_r.
  unfold match_array. by rewrite (proj2 (Nat.leb_le _ _) Hle).
Qed.

Lemma exact_split_keyed v w access es r keys (kind : bool) :
  load v access = Some w -> kind = true ->
  bool_decide (NoDup (es.*1)) && forallb (fun e => regular e.2) es && simple_rest r = true ->
  es.*1 ⊆ keys -> NoDup keys ->
  exists e,
    load_bindings v (match r with Some q => collect_pattern_bindings q (StructRest access (es.*1)) | None => [] end)
      = Some e /\
    conj (Some e)
      (match_all matches (List.map (entry_pattern es) keys)
         (List.map (fun k => struct_get_or_nil w (pattern_key_const k)) keys))
    ≋ (if kind
       then conj (match_entries matches w es)
              (match r with Some q => matches q (struct_rest w (excluded_keys es)) | None => Some [] end)
       else None).
Proof.
  intros Hl -> Hreg Hsub Hks.
  apply andb_true_iff in Hreg as [[Hnd%bool_decide_eq_true _]%andb_true_iff Hr].
  rewrite match_all_map.
  assert (Hm := merged_entries es keys (fun k => struct_get_or_nil w (pattern_key_const k)) Hnd Hks Hsub).
  destruct r as [[| | |b| | | | | | | | |]|]; try done.
  - exists []. split; [done|]. rewrite conj_nil_l. simpl. by rewrite conj_nil_r.
  - exists [(b, struct_rest w (excluded_keys es))]. split.
    + simpl. unfold load_bindings. simpl. rewrite Hl. simpl. do 5 f_equal.
      unfold excluded_keys. change (es.*1) with (List.map fst es). by rewrite List.map_map.
    + simpl. rewrite Hm. apply conj_comm.
  - exists []. split; [done|]. rewrite conj_nil_l. simpl. by rewrite conj_nil_r.
Qed.

Lemma extract_exact v w access p c :
  load v access = Some w -> regular p = true -> constructor_test w c = true ->
  compatible_with p c = true -> keys_cover p c -> exact_split v w access p c.
Proof.
  intros Hl Hreg Ht Hc Hk. unfold compatible_with, keys_cover in Hc, Hk.
  destruct p as [| |lit|b|h t|es r|es r|es r|es r|es r|b|b|alts]; try done.
  - destruct c; try done. apply exact_split_simple; [done..|]. simpl in *. by rewrite Ht.
  - destruct c; try done. apply exact_split_simple; [done..|]. simpl in *.
    by rewrite (literal_eqb_test w _ _ Hc), Ht.
  - destruct c; try done. apply exact_split_simple; [done..|]. destruct w; try done. simpl. by rewrite conj_nil_r.
  - destruct es as [|e es]; [destruct r; [done|]|].
    + destruct c; try done. apply exact_split_simple; [done..|]. simpl in *. by rewrite Ht.
    + destruct c; try done. destruct w; try done.
      apply exact_split_simple; [by destruct es|done|]. destruct es as [|e' es]; simpl; rewrite conj_nil_r; [|done].
      by destruct r.
  - destruct r as [q|]; destruct c as [| | | |n|n| | | | | |]; try done;
      apply Nat.eqb_eq in Hc as <-; destruct w; try done; simpl in Ht.
    + apply Nat.leb_le in Ht. apply exact_split_simple; [simpl; by rewrite length_app|done|].
      simpl. by rewrite match_all_rest.
    + by apply exact_split_simple.
  - destruct r as [q|]; destruct c as [| | | | | |n|n| | | |]; try done;
      apply Nat.eqb_eq in Hc as <-; destruct w; try done; simpl in Ht.
    + apply Nat.leb_le in Ht. apply exact_split_simple; [simpl; by rewrite length_app|done|].
      simpl. by rewrite match_all_rest.
    + by apply exact_split_simple.
  - destruct c as [| | | | | | | |keys| | |]; try done. destruct Hk as [Hsub Hks].
    split; [apply length_map|]. destruct (exact_split_keyed v w access es r keys _ Hl Ht Hreg Hsub Hks) as (e & He & Hm).
    exists e. split; [by destruct r|]. exact Hm.
  - destruct c as [| | | | | | | | |keys| |]; try done. destruct Hk as [Hsub Hks].
    split; [apply length_map|]. destruct (exact_split_keyed v w access es r keys _ Hl Ht Hreg Hsub Hks) as (e & He & Hm).
    exists e. split; [by destruct r|]. exact Hm.
  - destruct c; try done. apply exact_split_simple; [done..|]. simpl in *. by rewrite Ht, conj_nil_r.
  - destruct c; try done. apply exact_split_simple; [done..|]. simpl in *. by rewrite Ht, conj_nil_r.
Qed.
