(* ===== verification/DecisionProof.v ===== *)
(** * The decision tree selects what the rows say

    A matrix means the first of its rows that matches and whose guard passes
    ([first_match]).  Splitting a column keeps that meaning for every regular
    matrix, so the compiled tree selects the same arm with the same bindings,
    no read of it raises, and the compilation neither panics nor diverges. *)

From stdpp Require Import base numbers list option gmap fin_maps sets strings.
From Stdlib Require Import SpecFloat.
From S2P Require Import Prelude Names MatchValue MatchPattern Decision DecisionSpec.

(** ** What a matrix means *)

Section Meaning.
Context (guard : nat -> gmap N Value -> bool) (v : Value).

Definition row_env (row : PatternRow) (ws : list Value) : option Env :=
  conj (load_bindings v (bindings row)) (match_all matches (patterns row) ws).

Fixpoint first_match (rows : PatternMatrix) (ws : list Value) : option (nat * Env) :=
  match rows with
  | [] => None
  | r :: rs =>
      match row_env r ws with
      | Some e =>
          if negb (has_guard r) || guard (arm_index r) (slots e) then Some (arm_index r, e) else first_match rs ws
      | None => first_match rs ws
      end
  end.

Definition hit_equiv (x y : option (nat * Env)) : Prop :=
  option_Forall2 (fun a b => a.1 = b.1 /\ a.2 ≡ₚ b.2) x y.

#[local] Instance hit_equiv_equivalence : Equivalence hit_equiv.
Proof.
  split.
  - intros []; by constructor.
  - destruct 1 as [? ? []|]; constructor. by split.
  - destruct 1 as [? ? []|]; inversion 1 as [? ? []|]; constructor. split; by etrans.
Qed.

(** The first of several rows that matches, guards aside. *)
Fixpoint first_env (rs : PatternMatrix) (ws : list Value) : option Env :=
  match rs with
  | [] => None
  | r :: rs' => match row_env r ws with Some e => Some e | None => first_env rs' ws end
  end.

(** Rows [rs] on the values [ws'] stand for [row] on [ws]. *)
Definition replaced (row : PatternRow) (ws : list Value) (rs : PatternMatrix) (ws' : list Value) : Prop :=
  Forall (fun r => has_guard r = has_guard row /\ arm_index r = arm_index row) rs /\
  (has_guard row = true -> length rs <= 1) /\
  first_env rs ws' ≋ row_env row ws.

Definition unambiguous (row : PatternRow) (ws : list Value) : Prop :=
  forall e, row_env row ws = Some e -> NoDup (e.*1).

Lemma first_match_unguarded rs tl i ws :
  Forall (fun r => has_guard r = false /\ arm_index r = i) rs ->
  first_match (rs ++ tl) ws =
  match first_env rs ws with Some e => Some (i, e) | None => first_match tl ws end.
Proof.
  induction 1 as [|r rs [Hg <-] _ IH]; [done|]. simpl. rewrite Hg. simpl.
  by destruct (row_env r ws).
Qed.

Lemma first_match_replace row ws rs ws' tl tl' :
  replaced row ws rs ws' -> (has_guard row = true -> unambiguous row ws) ->
  hit_equiv (first_match tl' ws') (first_match tl ws) ->
  hit_equiv (first_match (rs ++ tl') ws') (first_match (row :: tl) ws).
Proof.
  intros (Hall & Hlen & Henv) Hnd Htl. simpl. destruct (has_guard row) eqn:Hg.
  - destruct rs as [|r [|r' rs]]; [| |specialize (Hlen eq_refl); simpl in Hlen; lia]; simpl in *.
    + by apply env_equiv_None in Henv as ->.
    + apply Forall_singleton in Hall as [Hg' Ha]. rewrite Hg', Ha.
      destruct (row_env row ws) as [e|] eqn:He.
      * destruct (row_env r ws') as [e'|]; [|inversion Henv].
        inversion Henv as [? ? Hp|]; subst. simpl.
        rewrite (slots_perm e' e Hp) by (rewrite Hp; by apply Hnd).
        destruct (guard _ _); [by constructor|done].
      * destruct (row_env r ws'); [inversion Henv|done].
  - rewrite (first_match_unguarded rs tl' (arm_index row)) by done. simpl.
    destruct Henv; [by constructor|done].
Qed.

(** ** Replacing a column *)

Lemma load_bindings_app bs bs' :
  load_bindings v (bs ++ bs') = conj (load_bindings v bs) (load_bindings v bs').
Proof.
  unfold load_bindings. induction bs as [|b bs IH]; [by rewrite conj_nil_l|].
  simpl. rewrite IH. unfold conj. destruct (load v b.2); [|done]. simpl.
  destruct (mapM _ bs), (mapM _ bs'); done.
Qed.

(** The part of a row outside the column. *)
Definition row_context (row : PatternRow) (ws : list Value) (col : nat) : option Env :=
  conj (load_bindings v (bindings row))
    (conj (match_all matches (take col (patterns row)) (take col ws))
       (match_all matches (drop (S col) (patterns row)) (drop (S col) ws))).

Lemma row_env_split row ws col p w :
  length (patterns row) = length ws -> patterns row !! col = Some p -> ws !! col = Some w ->
  row_env row ws ≋ conj (matches p w) (row_context row ws col).
Proof.
  intros Hl Hp Hw. unfold row_env, row_context.
  rewrite <- (take_drop_middle _ _ _ Hp), <- (take_drop_middle _ _ _ Hw) at 1.
  rewrite match_all_app by (rewrite !length_take; lia). simpl.
  rewrite (conj_swap _ (matches p w)). apply conj_swap.
Qed.

Lemma row_env_replace row ws col subs sw bs e :
  length (patterns row) = length ws -> length subs = length sw -> load_bindings v bs = Some e ->
  row_env (replace_column row col subs bs) (take col ws ++ sw ++ drop (S col) ws)
    ≋ conj (conj (Some e) (match_all matches subs sw)) (row_context row ws col).
Proof.
  intros Hl Hs He. unfold row_env, row_context. simpl.
  rewrite load_bindings_app, He, !match_all_app by (done || rewrite !length_take; lia).
  generalize (load_bindings v (bindings row)) (match_all matches (take col (patterns row)) (take col ws))
    (match_all matches subs sw) (match_all matches (drop (S col) (patterns row)) (drop (S col) ws)).
  intros [B|] [X|] [Z|] [Y|]; try done. unfold conj. simpl. constructor.
  rewrite <- !app_assoc, (Permutation_app_swap_app B e). apply Permutation_app_head.
  by rewrite (app_assoc B X), (Permutation_app_swap_app (B ++ X) Z), <- app_assoc.
Qed.

(** A replaced column that is exact for its pattern is exact for its row. *)
Lemma row_env_exact row ws col p w subs sw bs e :
  length (patterns row) = length ws -> patterns row !! col = Some p -> ws !! col = Some w ->
  length subs = length sw -> load_bindings v bs = Some e ->
  conj (Some e) (match_all matches subs sw) ≋ matches p w ->
  row_env (replace_column row col subs bs) (take col ws ++ sw ++ drop (S col) ws) ≋ row_env row ws.
Proof.
  intros Hl Hp Hw Hs He Hm. rewrite (row_env_replace _ _ _ _ _ _ e) by done.
  by rewrite Hm, <- row_env_split.
Qed.

Lemma row_env_miss row ws col p w :
  length (patterns row) = length ws -> patterns row !! col = Some p -> ws !! col = Some w ->
  matches p w = None -> row_env row ws = None.
Proof.
  intros Hl Hp Hw Hm. assert (H := row_env_split row ws col p w Hl Hp Hw). rewrite Hm in H.
  symmetry in H. by apply env_equiv_None in H.
Qed.

End Meaning.

(** ** The constructors of a column *)

(** The constructors a pattern offers to the column it stands in. *)
Fixpoint heads (p : HirPattern) : list Constructor :=
  match p with
  | POr alts => flat_map heads alts
  | _ => match pattern_constructor p with Some c => [c] | None => [] end
  end.

Definition same_ctor (s c : Constructor) : Prop := s = c \/ constructor_eqb s c = true.

(** [f] adds the constructors [hs] to a list, up to [PartialEq]. *)
Definition collects (f : list Constructor -> list Constructor) (hs : list Constructor) : Prop :=
  forall seen,
    seen ⊆ f seen /\ (forall c, c ∈ f seen -> c ∈ seen \/ c ∈ hs) /\
    (forall c, c ∈ hs -> exists s, s ∈ f seen /\ same_ctor s c).

Lemma collects_compose f g hs hs' : collects f hs -> collects g hs' -> collects (fun s => g (f s)) (hs ++ hs').
Proof.
  intros Hf Hg seen. destruct (Hf seen) as (F1 & F2 & F3), (Hg (f seen)) as (G1 & G2 & G3). split_and!.
  - by etrans.
  - intros c Hc. rewrite elem_of_app. destruct (G2 c Hc) as [Hc'|]; [|auto]. destruct (F2 c Hc'); auto.
  - intros c [Hc|Hc]%elem_of_app; [|auto]. destruct (F3 c Hc) as (s & Hs & ?). exists s. auto.
Qed.

Lemma collects_fold {A} (step : A -> list Constructor -> list Constructor) (hs : A -> list Constructor) l :
  Forall (fun a => collects (step a) (hs a)) l ->
  collects (fun s => fold_left (fun o a => step a o) l s) (flat_map hs l).
Proof.
  induction 1 as [|a l Ha _ IH]; simpl.
  - intros seen. split_and!; [done|auto|by intros c ?%not_elem_of_nil].
  - exact (collects_compose _ _ _ _ Ha IH).
Qed.

Lemma collects_none f : (forall s, f s = s) -> collects f [].
Proof. intros Hf seen. rewrite Hf. split_and!; [done|auto|by intros c ?%not_elem_of_nil]. Qed.

Lemma collects_push c :
  collects (fun seen => if existsb (fun s => constructor_eqb s c) seen then seen else seen ++ [c]) [c].
Proof.
  intros seen. destruct (existsb _ seen) eqn:He.
  - apply existsb_exists in He as (s & Hs & Heq). split_and!; [done|auto|].
    intros c' ->%list_elem_of_singleton. exists s. split; [by apply list_elem_of_In|by right].
  - split_and!.
    + by apply list_subseteq_app_l.
    + intros c'. by rewrite elem_of_app.
    + intros c' ->%list_elem_of_singleton. exists c. split; [|by left]. apply elem_of_app. right. by left.
Qed.

Lemma collect_from_pattern_collects p : collects (collect_constructors_from_pattern p) (heads p).
Proof.
  induction p using HirPattern_nested_ind; try (apply collects_none; done); try apply collects_push.
  - destruct es; [destruct r|]; apply collects_push.
  - destruct r; apply collects_push.
  - destruct r; apply collects_push.
  - by apply collects_fold.
Qed.

Lemma collect_from_patterns_collects ps :
  collects (fun s => fold_left (fun o p => collect_constructors_from_pattern p o) ps s) (flat_map heads ps).
Proof. apply collects_fold, Forall_true. apply collect_from_pattern_collects. Qed.

(** *** Merging the struct constructors *)

Lemma union_keys_spec keys acc :
  NoDup acc -> NoDup (union_keys acc keys) /\ (forall k, k ∈ union_keys acc keys <-> k ∈ acc \/ k ∈ keys).
Proof.
  unfold union_keys. revert acc. induction keys as [|k keys IH]; intros acc Hnd; simpl.
  - split; [done|]. intros k. split; [auto|]. by intros [|?%not_elem_of_nil].
  - case_bool_decide as Hk.
    + destruct (IH acc Hnd) as [H1 H2]. split; [done|]. intros k'. rewrite H2, elem_of_cons. naive_solver.
    + destruct (IH (acc ++ [k])) as [H1 H2].
      { apply NoDup_app. split_and!; [done| |apply NoDup_singleton]. intros x Hx ->%list_elem_of_singleton. done. }
      split; [done|]. intros k'. rewrite H2, elem_of_app, list_elem_of_singleton, elem_of_cons. naive_solver.
Qed.

Lemma union_all_spec kss acc :
  NoDup acc ->
  NoDup (fold_left union_keys kss acc) /\
  (forall ks, ks ∈ kss -> ks ⊆ fold_left union_keys kss acc) /\ acc ⊆ fold_left union_keys kss acc.
Proof.
  revert acc. induction kss as [|ks kss IH]; intros acc Hnd; simpl.
  - split_and!; [done|by intros ks ?%not_elem_of_nil|done].
  - destruct (union_keys_spec ks acc Hnd) as [H1 H2]. destruct (IH _ H1) as (I1 & I2 & I3). split_and!; [done| |].
    + intros ks' [->|Hin]%elem_of_cons; [|auto]. intros k Hk. apply I3, H2. auto.
    + intros k Hk. apply I3, H2. auto.
Qed.

(** The two constructors are one case of a switch: equal up to key sets. *)
Definition same_class (c c0 : Constructor) : Prop :=
  c = c0 \/ (is_struct_ctor c = true /\ is_struct_ctor c0 = true) \/
  (is_table_ctor c = true /\ is_table_ctor c0 = true).

Lemma same_class_test w c c0 : same_class c c0 -> constructor_test w c = constructor_test w c0.
Proof. intros [->|[[H H']|[H H']]]; [done| |]; by destruct c, c0. Qed.

Lemma same_class_compatible a c c0 : same_class c c0 -> constructor_compatible a c = constructor_compatible a c0.
Proof. intros [->|[[H H']|[H H']]]; [done| |]; destruct c, c0; try done; by destruct a. Qed.

Lemma same_class_narrow c c0 : same_class c c0 -> narrow c0 -> narrow c.
Proof. intros [->|[[H H']|[H H']]]; [done| |]; by destruct c, c0. Qed.

Lemma merge_kind_in is_kind make cs c0 :
  c0 ∈ cs ->
  c0 ∈ merge_kind is_kind make cs \/
  (is_kind c0 = true /\
   exists ks, make ks ∈ merge_kind is_kind make cs /\ ctor_keys c0 ⊆ ks).
Proof.
  intros Hin. unfold merge_kind. destruct (existsb is_kind cs) eqn:He; [|by left].
  destruct (is_kind c0) eqn:Hk.
  - right. split; [done|]. eexists. split; [apply elem_of_app; right; by left|].
    destruct (union_all_spec (List.map ctor_keys (List.filter is_kind cs)) []) as (_ & H & _); [constructor|].
    apply H, list_elem_of_In, in_map, filter_In. split; [by apply list_elem_of_In|done].
  - left. apply elem_of_app. left. apply list_elem_of_In, filter_In. rewrite Hk.
    split; [by apply list_elem_of_In|done].
Qed.

Lemma merge_kind_out is_kind make cs c :
  c ∈ merge_kind is_kind make cs ->
  (c ∈ cs /\ is_kind c = false) \/
  (exists c0 ks, c0 ∈ cs /\ is_kind c0 = true /\ c = make ks /\ NoDup ks /\
     forall c1, c1 ∈ cs -> is_kind c1 = true -> ctor_keys c1 ⊆ ks).
Proof.
  unfold merge_kind. destruct (existsb is_kind cs) eqn:He.
  - intros [Hin|Hin]%elem_of_app.
    + apply list_elem_of_In, filter_In in Hin as [Hin Hk]. left.
      split; [by apply list_elem_of_In|by apply negb_true_iff].
    + right. apply list_elem_of_singleton in Hin as ->. apply existsb_exists in He as (c0 & Hc0 & Hk).
      destruct (union_all_spec (List.map ctor_keys (List.filter is_kind cs)) []) as (H1 & H2 & _); [constructor|].
      exists c0. eexists. split_and!; [by apply list_elem_of_In|done|reflexivity|done|].
      intros c1 Hc1 Hk1. apply H2, list_elem_of_In, in_map, filter_In. split; [by apply list_elem_of_In|done].
  - intros Hin. left. split; [done|]. destruct (is_kind c) eqn:Hk; [|done].
    enough (existsb is_kind cs = true) by congruence. apply existsb_exists. exists c.
    split; [by apply list_elem_of_In|done].
Qed.

Lemma merged_class cs c :
  c ∈ merge_struct_table_constructors cs -> exists c0, c0 ∈ cs /\ same_class c c0.
Proof.
  intros [[Hc Ht]|(c0 & ks & Hc0 & Ht & -> & _)]%merge_kind_out.
  - apply merge_kind_out in Hc as [[Hc _]|(c0 & ks & Hc0 & Hs & -> & _)].
    + exists c. split; [done|by left].
    + exists c0. split; [done|]. right. by left.
  - apply merge_kind_out in Hc0 as [[Hc0 _]|(c1 & ks1 & _ & _ & -> & _)]; [|done].
    exists c0. split; [done|]. right. by right.
Qed.

Lemma merged_complete cs c0 :
  c0 ∈ cs -> exists c, c ∈ merge_struct_table_constructors cs /\ same_class c c0.
Proof.
  intros [Hc|[Hs (ks & Hc & _)]]%(merge_kind_in is_struct_ctor CStruct).
  - apply (merge_kind_in is_table_ctor CTable) in Hc as [Hc|[Ht (ks & Hc & _)]].
    + exists c0. split; [done|by left].
    + exists (CTable ks). split; [done|]. right. by right.
  - apply (merge_kind_in is_table_ctor CTable) in Hc as [Hc|[Ht _]]; [|done].
    exists (CStruct ks). split; [done|]. right. by left.
Qed.

Lemma merged_keys cs c :
  c ∈ merge_struct_table_constructors cs ->
  NoDup (ctor_keys c) /\
  forall c1, c1 ∈ cs -> constructor_compatible c1 c = true -> ctor_keys c1 ⊆ ctor_keys c.
Proof.
  intros [[Hc Ht]|(c0 & ks & _ & _ & -> & Hnd & Hks)]%merge_kind_out.
  - apply merge_kind_out in Hc as [[_ Hs]|(c0 & ks & _ & _ & -> & Hnd & Hks)].
    + split; [destruct c; try done; constructor|]. intros c1 _ Hcomp. by destruct c, c1.
    + split; [done|]. intros c1 Hc1 Hcomp. apply Hks; [done|]. by destruct c1.
  - split; [done|]. intros c1 Hc1 Hcomp.
    apply (merge_kind_in is_struct_ctor CStruct) in Hc1 as [Hc1|[Hs _]]; [|by destruct c1].
    apply Hks; [done|]. by destruct c1.
Qed.

(** What the constructors of a column know of its patterns. *)
Record column_ctors (ps : list HirPattern) (cs : list Constructor) : Prop := {
  ctors_from c : c ∈ cs -> exists p c0, p ∈ ps /\ c0 ∈ heads p /\ same_class c c0;
  ctors_all p c0 w : p ∈ ps -> c0 ∈ heads p -> exists c, c ∈ cs /\ constructor_test w c = constructor_test w c0;
  ctors_nodup c : c ∈ cs -> NoDup (ctor_keys c);
  ctors_cover c p c0 : c ∈ cs -> p ∈ ps -> c0 ∈ heads p -> constructor_compatible c0 c = true ->
    ctor_keys c0 ⊆ ctor_keys c }.

Lemma same_ctor_test w s c : same_ctor s c -> constructor_test w s = constructor_test w c.
Proof. intros [->|H]; [done|by apply constructor_eqb_test]. Qed.

(** Equal constructors have the same keys, and are compatible with the same
    struct constructors. *)
Lemma same_ctor_keys s c0 c :
  same_ctor s c0 -> constructor_compatible c0 c = true ->
  ctor_keys c0 = [] \/ (ctor_keys s = ctor_keys c0 /\ constructor_compatible s c = true).
Proof.
  intros [->|H] Hc; [by right|].
  destruct c0; try (by left); destruct s; try done; simpl in H; apply bool_decide_eq_true in H as ->; by right.
Qed.

Lemma collect_constructors_spec m col ps cs :
  column m col = Some ps -> collect_constructors m col = Some cs -> column_ctors ps cs.
Proof.
  unfold collect_constructors. intros -> [= <-].
  destruct (collect_from_patterns_collects ps []) as (_ & Hsound & Hcomplete).
  set (cs0 := fold_left _ ps []) in *.
  assert (Hheads : forall p c, p ∈ ps -> c ∈ heads p -> exists s, s ∈ cs0 /\ same_ctor s c).
  { intros p c Hp Hc. apply Hcomplete, list_elem_of_In, in_flat_map. exists p.
    by rewrite <- !list_elem_of_In. }
  constructor.
  - intros c (c0 & Hc0 & Hsame)%merged_class.
    destruct (Hsound c0 Hc0) as [?%not_elem_of_nil|Hin]; [done|].
    apply list_elem_of_In, in_flat_map in Hin as (p & Hp & Hin). exists p, c0. by rewrite !list_elem_of_In.
  - intros p c0 w Hp Hc0. destruct (Hheads p c0 Hp Hc0) as (s & Hs & Hsame).
    destruct (merged_complete cs0 s Hs) as (c & Hc & Hclass). exists c. split; [done|].
    by rewrite (same_class_test w _ _ Hclass), (same_ctor_test w _ _ Hsame).
  - intros c Hc. by apply (merged_keys cs0 c).
  - intros c p c0 Hc Hp Hc0 Hcomp. destruct (Hheads p c0 Hp Hc0) as (s & Hs & Hsame).
    destruct (same_ctor_keys s c0 c Hsame Hcomp) as [->|[<- Hcomp']]; [by intros ? ?%not_elem_of_nil|].
    by apply (merged_keys cs0 c).
Qed.

(** ** Regular patterns of a universe of constructors *)

Section Universe.
Context (U : list Constructor).

Definition good (p : HirPattern) : Prop := regular p = true /\ ctors_in p ⊆ U.

Lemma head_in_ctors p c : pattern_constructor p = Some c -> c ∈ ctors_in p.
Proof.
  destruct p as [| |lit|b|h t|es r|es r|es r|es r|es r|b|b|alts]; simpl; try done; try (intros [= <-]; by left).
  - destruct es as [|e es]; [destruct r|]; intros [= <-]; [by left|right; by left|by left].
  - destruct r; intros [= <-]; by left.
  - destruct r; intros [= <-]; by left.
Qed.

Lemma heads_in_ctors p c : c ∈ heads p -> c ∈ ctors_in p.
Proof.
  assert (Hplain : forall q, c ∈ match pattern_constructor q with Some c' => [c'] | None => [] end -> c ∈ ctors_in q).
  { intros q. destruct (pattern_constructor q) eqn:E; [|by intros ?%not_elem_of_nil].
    intros ->%list_elem_of_singleton. by apply head_in_ctors. }
  induction p using HirPattern_nested_ind; try apply Hplain.
  simpl. rewrite !list_elem_of_In, !in_flat_map. intros (a & Ha & Hc). exists a. split; [done|].
  rewrite Forall_forall in H. apply list_elem_of_In, H; [by apply list_elem_of_In|by apply list_elem_of_In].
Qed.

Lemma good_list es : forallb regular es = true -> flat_map ctors_in es ⊆ U -> Forall good es.
Proof.
  intros Hr Hs. apply Forall_forall. intros q Hq. rewrite forallb_forall in Hr. split.
  - by apply Hr, list_elem_of_In.
  - intros c Hc. apply Hs, list_elem_of_In, in_flat_map. exists q. by rewrite <- !list_elem_of_In.
Qed.

Lemma good_entries (es : list (PatternKey * HirPattern)) :
  forallb (fun e => regular e.2) es = true -> flat_map (fun e => ctors_in e.2) es ⊆ U ->
  Forall (fun e => good e.2) es.
Proof.
  intros Hr Hs. apply Forall_forall. intros q Hq. rewrite forallb_forall in Hr. split.
  - by apply (Hr q), list_elem_of_In.
  - intros c Hc. apply Hs, list_elem_of_In, in_flat_map. exists q. by rewrite <- !list_elem_of_In.
Qed.

Lemma good_wildcard : good PWildcard.
Proof. split; [done|]. by intros c ?%not_elem_of_nil. Qed.

(** A property of patterns that the sub-patterns of a split inherit. *)
Lemma entry_pattern_inherit (P : HirPattern -> Prop) es k :
  P PWildcard -> Forall (fun e => P e.2) es -> P (entry_pattern es k).
Proof.
  intros Hw Hall. unfold entry_pattern. destruct (List.find _ es) as [e|] eqn:E; [|done].
  apply find_some in E as [Hin _]. rewrite Forall_forall in Hall. by apply Hall, list_elem_of_In.
Qed.

Lemma subseteq_cons_inv (c : Constructor) cs : c :: cs ⊆ U -> cs ⊆ U.
Proof. intros H x Hx. apply H. by right. Qed.

Lemma subseteq_app_inv (cs cs' : list Constructor) : cs ++ cs' ⊆ U -> cs ⊆ U /\ cs' ⊆ U.
Proof. intros H. split; intros x Hx; apply H, elem_of_app; auto. Qed.

Lemma extract_good_array es r c :
  Forall good es -> from_option good True r ->
  Forall good (match c with
               | CArrayRest _ | CArrayMutRest _ => es ++ [match r with Some q => q | None => PWildcard end]
               | _ => es
               end).
Proof.
  intros He Hr. destruct c; try done; (apply Forall_app; split; [done|]; apply Forall_singleton;
    destruct r; [done|apply good_wildcard]).
Qed.

Lemma extract_good p c : good p -> compatible_with p c = true -> Forall good (extract_sub_patterns p c).
Proof.
  intros [Hreg Hsub] Hc.
  destruct p as [| |lit|b|h t|es r|es r|es r|es r|es r|b|b|alts]; try done; simpl in Hreg, Hsub.
  - apply andb_true_iff in Hreg as [Hh Ht]. apply subseteq_cons_inv, subseteq_app_inv in Hsub as [? ?].
    constructor; [by split|]. apply Forall_singleton. by split.
  - apply andb_true_iff in Hreg as [[Hm He]%andb_true_iff Hr].
    assert (Hall := Hsub). apply subseteq_cons_inv, subseteq_cons_inv, subseteq_app_inv in Hall as [H1 H2].
    destruct es as [|h es]; [constructor|]. simpl in He, H1. apply andb_true_iff in He as [Hh He].
    apply subseteq_app_inv in H1 as [H1 H1'].
    destruct es as [|h' es]; (constructor; [by split|]; apply Forall_singleton).
    + destruct r as [q|]; [by split|]. split; [done|]. intros x Hx. apply Hsub.
      simpl in Hx. set_solver.
    + split; [simpl in *; by rewrite He, Hr|].
      intros x Hx. apply Hsub. simpl in *. set_solver.
  - apply andb_true_iff in Hreg as [[_ He]%andb_true_iff Hr].
    apply subseteq_cons_inv, subseteq_app_inv in Hsub as [H1 H2].
    apply extract_good_array; [by apply good_list|]. by destruct r.
  - apply andb_true_iff in Hreg as [[_ He]%andb_true_iff Hr].
    apply subseteq_cons_inv, subseteq_app_inv in Hsub as [H1 H2].
    apply extract_good_array; [by apply good_list|]. by destruct r.
  - apply andb_true_iff in Hreg as [[_ He]%andb_true_iff _].
    apply subseteq_cons_inv, subseteq_app_inv in Hsub as [H1 _].
    destruct c; try done. simpl. apply Forall_fmap, Forall_true. intros k.
    apply (entry_pattern_inherit good); [apply good_wildcard|by apply good_entries].
  - apply andb_true_iff in Hreg as [[_ He]%andb_true_iff _].
    apply subseteq_cons_inv, subseteq_app_inv in Hsub as [H1 _].
    destruct c; try done. simpl. apply Forall_fmap, Forall_true. intros k.
    apply (entry_pattern_inherit good); [apply good_wildcard|by apply good_entries].
  - apply Forall_singleton. split; [done|]. by apply subseteq_cons_inv in Hsub.
  - apply Forall_singleton. split; [done|]. by apply subseteq_cons_inv in Hsub.
Qed.

End Universe.

Definition no_or (p : HirPattern) : Prop := or_free p = true.

Lemma no_or_list es : forallb or_free es = true -> Forall no_or es.
Proof. intros H. apply Forall_forall. intros q Hq. rewrite forallb_forall in H. by apply H, list_elem_of_In. Qed.

Lemma no_or_entries (es : list (PatternKey * HirPattern)) :
  forallb (fun e => or_free e.2) es = true -> Forall (fun e => no_or e.2) es.
Proof. intros H. apply Forall_forall. intros q Hq. rewrite forallb_forall in H. by apply (H q), list_elem_of_In. Qed.

Lemma extract_no_or p c : no_or p -> Forall no_or (extract_sub_patterns p c).
Proof.
  unfold no_or. intros Hf.
  destruct p as [| |lit|b|h t|es r|es r|es r|es r|es r|b|b|alts]; try done; simpl in Hf.
  - by apply Forall_replicate.
  - by apply Forall_replicate.
  - apply andb_true_iff in Hf as [Hh Ht]. constructor; [done|]. by apply Forall_singleton.
  - apply andb_true_iff in Hf as [He Hr]. destruct es as [|h es]; [constructor|].
    simpl in He. apply andb_true_iff in He as [Hh He].
    destruct es as [|h' es]; (constructor; [done|]; apply Forall_singleton).
    + by destruct r.
    + simpl in *. by rewrite He, Hr.
  - apply andb_true_iff in Hf as [He%no_or_list Hr].
    destruct c; try done; (apply Forall_app; split; [done|]; apply Forall_singleton; by destruct r).
  - apply andb_true_iff in Hf as [He%no_or_list Hr].
    destruct c; try done; (apply Forall_app; split; [done|]; apply Forall_singleton; by destruct r).
  - apply andb_true_iff in Hf as [He%no_or_entries _].
    destruct c; try (by apply Forall_fmap); simpl; apply Forall_fmap, Forall_true; intros k;
      by apply (entry_pattern_inherit no_or).
  - apply andb_true_iff in Hf as [He%no_or_entries _].
    destruct c; try (by apply Forall_fmap); simpl; apply Forall_fmap, Forall_true; intros k;
      by apply (entry_pattern_inherit no_or).
  - by apply Forall_singleton.
  - by apply Forall_singleton.
Qed.

(** ** Splitting a column *)

Section Split.
Context (guard : nat -> gmap N Value -> bool) (v : Value) (U : list Constructor).
Context (HU : distinguishable U = true) (HN : Forall narrow U).

(** A row the compiler meets while [v] is matched: one regular pattern per
    column value, bindings that load, and no or-pattern or twice bound name
    under a guard. *)
Record row_ok (ws : list Value) (row : PatternRow) : Prop := {
  ok_length : length (patterns row) = length ws;
  ok_good : Forall (good U) (patterns row);
  ok_loads : is_Some (load_bindings v (bindings row));
  ok_guard : has_guard row = true -> Forall no_or (patterns row) /\ unambiguous v row ws }.

(** A constructor of the column whose test the column's value passed. *)
Record passed (w : Value) (p : HirPattern) (c : Constructor) : Prop := {
  passed_test : constructor_test w c = true;
  passed_class : exists c0, c0 ∈ U /\ same_class c c0;
  passed_cover : forall c0, c0 ∈ heads p -> constructor_compatible c0 c = true -> ctor_keys c0 ⊆ ctor_keys c;
  passed_nodup : NoDup (ctor_keys c) }.

Lemma passed_narrow w p c : passed w p c -> narrow c.
Proof.
  intros [_ (c0 & Hin & Hc) _ _]. eapply same_class_narrow; [done|]. rewrite Forall_forall in HN. by apply HN.
Qed.

(** A pattern that is not compatible with the passed constructor misses. *)
Lemma incompatible_miss w p q c :
  passed w q c -> good U p -> is_Some (pattern_constructor p) -> compatible_with p c = false -> matches p w = None.
Proof.
  intros [Ht (c0 & Hc0 & Hclass) _ _] [Hreg Hsub] [c1 Hc1] Hc. unfold compatible_with in Hc. rewrite Hc1 in Hc.
  apply (matches_test p c1); [done..|]. destruct (constructor_test w c1) eqn:Ht1; [|done]. exfalso.
  rewrite (same_class_compatible c1 c c0 Hclass) in Hc.
  apply (exclusive_sound w c1 c0); [|done|by rewrite <- (same_class_test w c c0)].
  unfold distinguishable in HU. rewrite forallb_forall in HU.
  specialize (HU c1). rewrite forallb_forall in HU. unfold told_apart in HU.
  rewrite <- (orb_false_l (exclusive c1 c0)), <- Hc. apply HU; apply list_elem_of_In; [|done].
  by apply Hsub, head_in_ctors.
Qed.

Lemma replace_good row col subs bs :
  Forall (good U) (patterns row) -> Forall (good U) subs -> Forall (good U) (patterns (replace_column row col subs bs)).
Proof.
  intros Hg Hs. simpl. apply Forall_app. split; [by apply Forall_take|].
  apply Forall_app. split; [done|by apply Forall_drop].
Qed.

Lemma replace_no_or row col subs bs :
  Forall no_or (patterns row) -> Forall no_or subs -> Forall no_or (patterns (replace_column row col subs bs)).
Proof.
  intros Hg Hs. simpl. apply Forall_app. split; [by apply Forall_take|].
  apply Forall_app. split; [done|by apply Forall_drop].
Qed.

(** A row whose column is replaced stays good; under a guard the replacement
    must be exact, so that what it binds is what the row bound. *)
Lemma replace_ok row ws col subs sw bs e :
  row_ok ws row -> col < length ws -> Forall (good U) subs -> length subs = length sw ->
  load_bindings v bs = Some e ->
  (has_guard row = true ->
     Forall no_or subs /\
     row_env v (replace_column row col subs bs) (take col ws ++ sw ++ drop (S col) ws) ≋ row_env v row ws) ->
  row_ok (take col ws ++ sw ++ drop (S col) ws) (replace_column row col subs bs).
Proof.
  intros [Hl Hg [eb Hb] Hguard] Hcol Hs Hlen He Hex. constructor.
  - simpl. rewrite !length_app, !length_take, !length_drop. lia.
  - by apply replace_good.
  - simpl. rewrite load_bindings_app, Hb, He. by eexists.
  - intros Hg'. destruct (Hguard Hg') as [Hno Hun], (Hex Hg') as [Hno' Henv].
    split; [by apply replace_no_or|]. intros e' He'. rewrite He' in Henv.
    symmetry in Henv. apply env_equiv_Some in Henv as (e0 & He0 & Hp). rewrite <- Hp. by apply Hun.
Qed.

Lemma load_var_binding access w p :
  load v access = Some w ->
  exists e, load_bindings v (var_binding p access) = Some e /\ (is_wildcard p = true -> matches p w = Some e).
Proof.
  intros Hl. destruct p; try (by exists []). exists [(b, w)]. split; [|done].
  unfold load_bindings. simpl. by rewrite Hl.
Qed.

(** The single-row cases of a split: the new row is good and stands for the old. *)
Lemma replaced_single row ws col p w subs sw bs e :
  row_ok ws row -> patterns row !! col = Some p -> ws !! col = Some w ->
  Forall (good U) subs -> length subs = length sw -> load_bindings v bs = Some e ->
  (no_or p -> Forall no_or subs) ->
  conj (Some e) (match_all matches subs sw) ≋ matches p w ->
  let ws' := take col ws ++ sw ++ drop (S col) ws in
  Forall (row_ok ws') [replace_column row col subs bs] /\ replaced v row ws [replace_column row col subs bs] ws'.
Proof.
  intros Hok Hp Hw Hs Hlen He Hno Hm ws'.
  assert (Henv := row_env_exact v row ws col p w subs sw bs e (ok_length _ _ Hok) Hp Hw Hlen He Hm).
  split.
  - apply Forall_singleton. eapply replace_ok; [done|by eapply lookup_lt_Some|done..|].
    intros Hg. split; [|done]. apply Hno. destruct (ok_guard _ _ Hok Hg) as [Hall _].
    by apply (Forall_lookup_1 _ _ _ _ Hall Hp).
  - split_and!; [by apply Forall_singleton|done|]. simpl. rewrite <- Henv. fold ws'.
    by destruct (row_env v (replace_column row col subs bs) ws').
Qed.

Lemma replaced_none row ws col p w ws' :
  row_ok ws row -> patterns row !! col = Some p -> ws !! col = Some w -> matches p w = None ->
  Forall (row_ok ws') [] /\ replaced v row ws [] ws'.
Proof.
  intros Hok Hp Hw Hm. split; [done|]. split_and!; [done|simpl; lia|].
  by rewrite (row_env_miss v row ws col p w (ok_length _ _ Hok) Hp Hw Hm).
Qed.

Lemma head_of_plain p c : is_wildcard p = false -> (forall alts, p <> POr alts) ->
  pattern_constructor p = Some c -> c ∈ heads p.
Proof.
  intros Hw Ho Hc.
  assert (Hh : heads p = match pattern_constructor p with Some c => [c] | None => [] end).
  { by destruct p. }
  rewrite Hh, Hc. by left.
Qed.

Lemma passed_keys_cover w p q c :
  passed w q c -> heads p ⊆ heads q -> (forall alts, p <> POr alts) -> compatible_with p c = true -> keys_cover p c.
Proof.
  intros [_ _ Hcov Hnd] Hh Ho Hc. unfold keys_cover, compatible_with in *.
  destruct (pattern_constructor p) as [c'|] eqn:E; [|done]. split; [|done].
  apply Hcov; [|done]. apply Hh, head_of_plain; [by destruct p|done|done].
Qed.

Lemma has_constructor p : is_wildcard p = false -> (forall alts, p <> POr alts) -> is_Some (pattern_constructor p).
Proof.
  intros Hw Ho. destruct p as [| | | | |es r|es r|es r| | | | |alts]; try done; try (by eexists).
  - destruct es; [destruct r|]; by eexists.
  - destruct r; by eexists.
  - destruct r; by eexists.
  - by destruct (Ho alts).
Qed.

Lemma plain_not_or a : plain_alternative a = true -> forall alts, a <> POr alts.
Proof. by destruct a. Qed.

Lemma plain_not_wildcard a : plain_alternative a = true -> is_wildcard a = false.
Proof. by destruct a. Qed.

Lemma plain_bindings a access :
  plain_alternative a = true -> regular a = true -> var_binding a access = [] /\ rest_bindings a access = [].
Proof.
  intros Hp Hr. split; [by destruct a|].
  destruct a as [| | | | | | | |es r|es r| | |]; try done; simpl in Hr; apply andb_true_iff in Hr as [_ Hr];
    by destruct r as [[]|].
Qed.

Lemma split_alternatives row ws col w c access q alts :
  row_ok ws row -> col < length ws -> ws !! col = Some w -> load v access = Some w -> passed w q c ->
  Forall (fun a => plain_alternative a = true /\ good U a /\ heads a ⊆ heads q) alts ->
  first_env v
    (List.map (fun a => replace_column row col (extract_sub_patterns a c) (var_binding a access))
       (List.filter (fun a => is_wildcard a || compatible_with a c) alts))
    (take col ws ++ sub_values w c ++ drop (S col) ws)
  ≋ conj (first_some (fun a => matches a w) alts) (row_context v row ws col).
Proof.
  intros Hok Hcol Hw Hl Hpass. induction 1 as [|a alts (Hp & Hg & Hh) _ IH]; [done|]. simpl.
  rewrite (plain_not_wildcard a Hp). simpl. destruct (compatible_with a c) eqn:Hc; simpl.
  - destruct (plain_bindings a access Hp (proj1 Hg)) as [-> Hrest].
    destruct (extract_exact v w access a c) as (Hlen & e & He & Hm);
      [done|apply Hg|apply Hpass|done|by eapply passed_keys_cover; eauto using plain_not_or|].
    rewrite Hrest in He. injection He as <-. 
    assert (Henv := row_env_replace v row ws col (extract_sub_patterns a c) (sub_values w c) [] []
                      (ok_length _ _ Hok)).
    rewrite Hm in Henv. specialize (Henv ltac:(by rewrite Hlen, length_sub_values by apply Hpass) eq_refl).
    destruct (matches a w) as [ea|].
    + destruct (row_context v row ws col) as [k|]; simpl in *.
      * apply env_equiv_Some in Henv as (e' & -> & Hperm). by constructor.
      * rewrite conj_None_r in Henv. symmetry in Henv. apply env_equiv_None in Henv as ->.
        by rewrite IH, !conj_None_r.
    + symmetry in Henv. apply env_equiv_None in Henv as ->. apply IH.
  - rewrite (incompatible_miss w a q c); [done..| |done]. apply has_constructor; [by apply plain_not_wildcard|].
    by apply plain_not_or.
Qed.

Lemma good_alternatives alts :
  good U (POr alts) ->
  Forall (fun a => plain_alternative a = true /\ good U a /\ heads a ⊆ heads (POr alts)) alts.
Proof.
  intros [Hr Hs]. simpl in Hr, Hs. rewrite forallb_forall in Hr. apply Forall_forall. intros a Ha.
  apply list_elem_of_In in Ha. specialize (Hr a Ha). apply andb_true_iff in Hr as [Hp Hr].
  split_and!; [done| |]; [split; [done|]|]; intros c Hc; [apply Hs|]; simpl;
    apply list_elem_of_In, in_flat_map; exists a; (split; [done|by apply list_elem_of_In]).
Qed.

Lemma split_or row ws col w c access alts :
  row_ok ws row -> patterns row !! col = Some (POr alts) -> ws !! col = Some w -> load v access = Some w ->
  passed w (POr alts) c ->
  let ws' := take col ws ++ sub_values w c ++ drop (S col) ws in
  Forall (row_ok ws') (specialize_row col c access row (POr alts)) /\
  replaced v row ws (specialize_row col c access row (POr alts)) ws'.
Proof.
  intros Hok Hp Hw Hl Hpass ws'.
  assert (Halts := good_alternatives alts (Forall_lookup_1 _ _ _ _ (ok_good _ _ Hok) Hp)).
  assert (Hcol : col < length ws) by by eapply lookup_lt_Some.
  assert (Hg : has_guard row = false).
  { destruct (has_guard row) eqn:Hg; [|done]. destruct (ok_guard _ _ Hok Hg) as [Hno _].
    by assert (H := Forall_lookup_1 _ _ _ _ Hno Hp). }
  simpl. split.
  - apply Forall_map, Forall_forall. intros a Ha.
    apply list_elem_of_In, filter_In in Ha as [Ha Hc]. rewrite Forall_forall in Halts.
    destruct (Halts a) as (Hpl & Hga & Hh); [by apply list_elem_of_In|].
    rewrite (plain_not_wildcard a Hpl) in Hc. simpl in Hc.
    destruct (plain_bindings a access Hpl (proj1 Hga)) as [-> _].
    eapply replace_ok; [done..|by apply extract_good| |done|by rewrite Hg].
    destruct (extract_exact v w access a c) as [Hlen _];
      [done|apply Hga|apply Hpass|done|by eapply passed_keys_cover; eauto using plain_not_or|].
    by rewrite Hlen, length_sub_values by apply Hpass.
  - split_and!.
    + apply Forall_map, Forall_true. intros a. done.
    + by rewrite Hg.
    + rewrite (row_env_split v row ws col _ w (ok_length _ _ Hok) Hp Hw). simpl.
      by apply (split_alternatives row ws col w c access (POr alts)).
Qed.

Lemma or_or_not p : (exists alts, p = POr alts) \/ (forall alts, p <> POr alts).
Proof. destruct p; eauto. Qed.

(** Specializing a row for the constructor the column's value passed. *)
Lemma specialize_row_spec row ws col p w c access :
  row_ok ws row -> patterns row !! col = Some p -> ws !! col = Some w -> load v access = Some w -> passed w p c ->
  let ws' := take col ws ++ sub_values w c ++ drop (S col) ws in
  Forall (row_ok ws') (specialize_row col c access row p) /\
  replaced v row ws (specialize_row col c access row p) ws'.
Proof.
  intros Hok Hp Hw Hl Hpass ws'.
  assert (Hgood : good U p) by apply (Forall_lookup_1 _ _ _ _ (ok_good _ _ Hok) Hp).
  assert (Hlen := length_sub_values w c (passed_test _ _ _ Hpass)).
  destruct (is_wildcard p) eqn:Hwild; [|destruct (or_or_not p) as [[alts ->]|Ho']].
  - unfold specialize_row. rewrite Hwild. destruct (load_var_binding access w p Hl) as (e & He & Hm).
    apply (replaced_single row ws col p w _ _ _ e); try done.
    + apply Forall_replicate, good_wildcard.
    + by rewrite length_replicate.
    + intros _. by apply Forall_replicate.
    + rewrite <- Hlen, match_all_wildcards, conj_nil_r. by rewrite Hm.
  - by apply split_or.
  - assert (Heq : specialize_row col c access row p
      = if compatible_with p c
        then [replace_column row col (extract_sub_patterns p c) (rest_bindings p access)] else []).
    { unfold specialize_row. rewrite Hwild. destruct p as [| | | | | | | | | | | |alts]; try done. by destruct (Ho' alts). }
    rewrite Heq. destruct (compatible_with p c) eqn:Hc.
    + destruct (extract_exact v w access p c) as (Hlen' & e & He & Hm);
        [done|apply Hgood|apply Hpass|done|by eapply passed_keys_cover|].
      apply (replaced_single row ws col p w _ _ _ e); try done.
      * by apply extract_good.
      * by rewrite Hlen', Hlen.
      * apply extract_no_or.
    + apply (replaced_none row ws col p w); try done.
      apply (incompatible_miss w p p c); [done..| |done]. by apply has_constructor.
Qed.

Lemma or_misses w alts :
  Forall (fun a => matches a w = None) alts -> matches (POr alts) w = None.
Proof. simpl. induction 1 as [|a alts Ha _ IH]; [done|]. simpl. by rewrite Ha. Qed.

(** A value that fails every test of the column matches no constructor of it. *)
Lemma untested_miss p w :
  good U p -> is_wildcard p = false -> (forall c, c ∈ heads p -> constructor_test w c = false) -> matches p w = None.
Proof.
  intros Hgood Hw Ht. destruct (or_or_not p) as [[alts ->]|Ho].
  - apply or_misses. eapply Forall_impl; [by apply good_alternatives|]. intros a (Hp & Hg & Hh).
    destruct (has_constructor a) as [c Hc]; [by apply plain_not_wildcard|by apply plain_not_or|].
    apply (matches_test a c); [apply Hg|done|]. apply Ht, Hh.
    apply head_of_plain; [by apply plain_not_wildcard|by apply plain_not_or|done].
  - destruct (has_constructor p Hw Ho) as [c Hc]. apply (matches_test p c); [apply Hgood|done|].
    by apply Ht, head_of_plain.
Qed.

Lemma default_row_spec row ws col p w access :
  row_ok ws row -> patterns row !! col = Some p -> ws !! col = Some w -> load v access = Some w ->
  (forall c, c ∈ heads p -> constructor_test w c = false) ->
  let ws' := take col ws ++ [] ++ drop (S col) ws in
  Forall (row_ok ws') (default_row col access row p) /\ replaced v row ws (default_row col access row p) ws'.
Proof.
  intros Hok Hp Hw Hl Ht ws'. unfold default_row. destruct (is_wildcard p) eqn:Hwild.
  - destruct (load_var_binding access w p Hl) as (e & He & Hm).
    apply (replaced_single row ws col p w [] [] _ e); try done. simpl. by rewrite conj_nil_r, Hm.
  - apply (replaced_none row ws col p w); try done.
    apply untested_miss; [apply (Forall_lookup_1 _ _ _ _ (ok_good _ _ Hok) Hp)|done..].
Qed.

(** A split of every row is a split of the matrix. *)
Lemma split_matrix (f : PatternRow -> HirPattern -> list PatternRow) m ps ws ws' :
  Forall2 (fun row p => row_ok ws row /\ Forall (row_ok ws') (f row p) /\ replaced v row ws (f row p) ws') m ps ->
  Forall (row_ok ws') (concat (zip_with f m ps)) /\
  hit_equiv (first_match guard v (concat (zip_with f m ps)) ws') (first_match guard v m ws).
Proof.
  induction 1 as [|row p m ps (Hok & Hall & Hrep) _ [IH1 IH2]]; simpl; [split; constructor|]. split.
  - by apply Forall_app.
  - apply first_match_replace; [done| |done]. intros Hg. by apply (ok_guard _ _ Hok).
Qed.

Lemma column_rows m col ps ws :
  Forall (row_ok ws) m -> column m col = Some ps ->
  Forall2 (fun row p => row_ok ws row /\ patterns row !! col = Some p) m ps.
Proof.
  intros Hok Hps. apply mapM_Some in Hps. revert Hok.
  induction Hps as [|row p m ps Hp _ IH]; [constructor|]. intros [H1 H2]%Forall_cons. constructor; auto.
Qed.

End Split.

(** ** Running the tree *)

Lemma run_switch guard v access cases d :
  run_tree guard v (Switch access cases d) =
  match load v access with
  | None => ReadError
  | Some w =>
      match List.find (fun ct => constructor_test w ct.1) cases with
      | Some ct => run_tree guard v ct.2
      | None => match d with Some t => run_tree guard v t | None => MatchError end
      end
  end.
Proof.
  simpl. destruct (load v access) as [w|]; [|done].
  induction cases as [|[c t] cases IH]; simpl; [done|]. destruct (constructor_test w c); [done|apply IH].
Qed.

Lemma compile_cases_done compile cs cases :
  compile_cases compile cs = Done cases -> Forall2 (fun c ct => ct.1 = c /\ compile c = Done ct.2) cs cases.
Proof.
  revert cases. induction cs as [|c cs IH]; intros cases; simpl; [intros [= <-]; constructor|].
  destruct (compile c) as [t| |] eqn:Ht; simpl; try done.
  destruct (compile_cases compile cs) as [ts| |]; simpl; try done. intros [= <-]. constructor; [done|by apply IH].
Qed.

(** A node of the tree selects an arm with the row's bindings, in some order. *)
Definition selects guard v (t : DecisionTree) (x : option (nat * Env)) : Prop :=
  match x with
  | None => run_tree guard v t = MatchError
  | Some (i, e) => exists e', e' ≡ₚ e /\ run_tree guard v t = Selected i (slots e')
  end.

Lemma selects_equiv guard v t x y : hit_equiv x y -> selects guard v t x -> selects guard v t y.
Proof.
  destruct 1 as [[i e] [i' e'] [Hi He]|]; [|done]. simpl in *. subst i'.
  intros (e0 & Hp & Hr). exists e0. split; [by etrans|done].
Qed.

(** The bindings of a leaf are those of its row of catch-alls. *)
Lemma leaf_bindings_spec v row A ws :
  forallb is_wildcard (patterns row) = true -> length (patterns row) = length ws -> mapM (load v) A = Some ws ->
  load_bindings v (leaf_bindings row A) = row_env v row ws.
Proof.
  unfold leaf_bindings, row_env. intros Hwild Hlen HA. rewrite load_bindings_app. f_equal.
  apply mapM_Some in HA. revert Hwild Hlen. generalize (patterns row).
  induction HA as [|a w A ws Ha _ IH]; intros [|p ps] Hwild Hlen; try done.
  simpl in *. apply andb_true_iff in Hwild as [Hp Hwild]. rewrite load_bindings_app, IH by (done || lia).
  f_equal. destruct p; try done. unfold load_bindings. simpl. by rewrite Ha.
Qed.

Lemma wildcard_row_matches ps ws :
  forallb is_wildcard ps = true -> length ps = length ws -> is_Some (match_all matches ps ws).
Proof.
  revert ws. induction ps as [|p ps IH]; intros [|w ws] Hw Hl; try done.
  simpl in *. apply andb_true_iff in Hw as [Hp Hw]. destruct (IH ws Hw) as [e ->]; [lia|].
  by destruct p; try done; eexists.
Qed.

Lemma mapM_column {A B} (f : A -> option B) l ws col sub sw :
  mapM f l = Some ws -> mapM f sub = Some sw ->
  mapM f (take col l ++ sub ++ drop (S col) l) = Some (take col ws ++ sw ++ drop (S col) ws).
Proof.
  intros H1 H2. apply mapM_app; [|apply mapM_app; [done|]].
  - apply mapM_Some, Forall2_take. by apply mapM_Some.
  - apply mapM_Some, Forall2_drop. by apply mapM_Some.
Qed.

(** What a compiled switch is made of. *)
Record compiled_switch (fuel : nat) (m : PatternMatrix) (A : list AccessPath) (t : DecisionTree)
    (col : nat) (ps : list HirPattern) (cs : list Constructor) (access : AccessPath)
    (cases : list (Constructor * DecisionTree)) (d : option DecisionTree) : Prop := {
  cs_tree : t = Switch access cases d;
  cs_column : column m col = Some ps;
  cs_ctors : column_ctors ps cs;
  cs_access : A !! col = Some access;
  cs_cases : Forall2 (fun c ct => ct.1 = c /\ exists sm,
      specialize m col c access = Some sm /\
      compile_matrix fuel sm (expand_access A col access c) = Done ct.2) cs cases;
  cs_default : exists dm, default_matrix m col access = Some dm /\
      match d with
      | Some td => compile_matrix fuel dm (remove_column A col) = Done td
      | None => dm = []
      end }.

Lemma compile_switch_inv fuel row rows A t :
  forallb is_wildcard (patterns row) = false -> compile_matrix (S fuel) (row :: rows) A = Done t ->
  exists col ps cs access cases d, compiled_switch fuel (row :: rows) A t col ps cs access cases d.
Proof.
  intros Hwild Hc. cbn [compile_matrix compile_step] in Hc. rewrite Hwild in Hc. set (m := row :: rows) in *.
  destruct (select_column m) as [col|]; [|done]. cbn [or_panic] in Hc.
  destruct (collect_constructors m col) as [cs|] eqn:Hcs; [|done].
  destruct (A !! col) as [access|] eqn:Hacc; [|done]. cbn [or_panic] in Hc.
  destruct (column m col) as [ps|] eqn:Hps; [|by unfold collect_constructors in Hcs; rewrite Hps in Hcs].
  destruct (compile_cases _ cs) as [cases| |] eqn:Hcases; try done. cbn [obind] in Hc.
  apply compile_cases_done in Hcases.
  destruct (default_matrix m col access) as [dm|] eqn:Hdm; [|done]. cbn [or_panic] in Hc.
  assert (Hrun : exists d, t = Switch access cases d /\
     match d with Some td => compile_matrix fuel dm (remove_column A col) = Done td | None => dm = [] end).
  { destruct dm; [injection Hc as <-; by exists None|].
    destruct (compile_matrix fuel _ _) as [td| |] eqn:Htd; try done. injection Hc as <-. by exists (Some td). }
  destruct Hrun as (d & Ht & Hd). exists col, ps, cs, access, cases, d. constructor; try done.
  - by apply (collect_constructors_spec m col).
  - eapply Forall2_impl; [exact Hcases|]. intros c ct [H1 H2]. split; [done|].
    destruct (specialize m col c access) as [sm|]; [by exists sm|done].
  - by exists dm.
Qed.

Section Correct.
Context (guard : nat -> gmap N Value -> bool) (v : Value) (U : list Constructor).
Context (HU : distinguishable U = true) (HN : Forall narrow U).

(** The constructors of a column, seen from one of its values. *)
Lemma column_passed m ws col ps cs c w :
  Forall (row_ok v U ws) m -> column m col = Some ps -> column_ctors ps cs ->
  c ∈ cs -> constructor_test w c = true -> forall p, p ∈ ps -> passed U w p c.
Proof.
  intros Hok Hps Hcs Hc Ht p Hp. constructor; [done| | |by apply (ctors_nodup ps cs)].
  - destruct (ctors_from ps cs Hcs c Hc) as (q & c0 & Hq & Hc0 & Hclass). exists c0. split; [|done].
    apply list_elem_of_lookup in Hq as [k Hk].
    destruct (Forall2_lookup_r _ _ _ _ _ (column_rows v U m col ps ws Hok Hps) Hk) as (row & _ & Hrow & Hq).
    apply (Forall_lookup_1 _ _ _ _ (ok_good _ _ _ _ Hrow) Hq). by apply heads_in_ctors.
  - intros c0 Hc0 Hcomp. by apply (ctors_cover ps cs Hcs c p).
Qed.

Lemma specialize_spec m ws col ps cs c w access sm :
  Forall (row_ok v U ws) m -> column m col = Some ps -> column_ctors ps cs ->
  c ∈ cs -> constructor_test w c = true -> ws !! col = Some w -> load v access = Some w ->
  specialize m col c access = Some sm ->
  let ws' := take col ws ++ sub_values w c ++ drop (S col) ws in
  Forall (row_ok v U ws') sm /\ hit_equiv (first_match guard v sm ws') (first_match guard v m ws).
Proof.
  intros Hok Hps Hcs Hc Ht Hw Hl Hsm. unfold specialize in Hsm. rewrite Hps in Hsm. injection Hsm as <-.
  apply split_matrix. assert (Hrows := column_rows v U m col ps ws Hok Hps).
  apply Forall2_same_length_lookup_2; [by eapply Forall2_length|].
  intros i row p Hrow Hp. destruct (Forall2_lookup_lr _ _ _ _ _ _ Hrows Hrow Hp) as [Hr Hpat].
  split; [done|]. apply (specialize_row_spec v U HU row ws col p w c access); try done.
  eapply column_passed; eauto using list_elem_of_lookup_2.
Qed.

Lemma default_spec m ws col ps cs w access dm :
  Forall (row_ok v U ws) m -> column m col = Some ps -> column_ctors ps cs ->
  (forall c, c ∈ cs -> constructor_test w c = false) -> ws !! col = Some w -> load v access = Some w ->
  default_matrix m col access = Some dm ->
  let ws' := take col ws ++ [] ++ drop (S col) ws in
  Forall (row_ok v U ws') dm /\ hit_equiv (first_match guard v dm ws') (first_match guard v m ws).
Proof.
  intros Hok Hps Hcs Ht Hw Hl Hdm. unfold default_matrix in Hdm. rewrite Hps in Hdm. injection Hdm as <-.
  apply split_matrix. assert (Hrows := column_rows v U m col ps ws Hok Hps).
  apply Forall2_same_length_lookup_2; [by eapply Forall2_length|].
  intros i row p Hrow Hp. destruct (Forall2_lookup_lr _ _ _ _ _ _ Hrows Hrow Hp) as [Hr Hpat].
  split; [done|]. apply (default_row_spec v U row ws col p w access); try done.
  intros c Hc. destruct (ctors_all ps cs Hcs p c w) as (c' & Hc' & <-); [by eapply list_elem_of_lookup_2|done|].
  by apply Ht.
Qed.

Lemma find_case (P : Constructor -> bool) (R : Constructor -> DecisionTree -> Prop) cs cases :
  Forall2 (fun c ct => ct.1 = c /\ R c ct.2) cs cases ->
  match List.find (fun ct => P ct.1) cases with
  | Some ct => ct.1 ∈ cs /\ P ct.1 = true /\ R ct.1 ct.2
  | None => forall c, c ∈ cs -> P c = false
  end.
Proof.
  induction 1 as [|c [c' t] cs cases [Hc Hr] _ IH]; simpl in *; [by intros c ?%not_elem_of_nil|].
  subst c'. destruct (P c) eqn:Hp; simpl.
  - split_and!; [by left|done|done].
  - destruct (List.find _ cases) as [ct|]; [destruct IH as (? & ? & ?); split_and!; [by right|done|done]|].
    intros c' [->|Hin]%elem_of_cons; auto.
Qed.

Definition tree_correct (fuel : nat) : Prop :=
  forall m A ws t,
    Forall (row_ok v U ws) m -> mapM (load v) A = Some ws -> compile_matrix fuel m A = Done t ->
    selects guard v t (first_match guard v m ws).

Lemma switch_correct fuel m A ws t col ps cs access cases d :
  tree_correct fuel -> Forall (row_ok v U ws) m -> mapM (load v) A = Some ws ->
  compiled_switch fuel m A t col ps cs access cases d ->
  selects guard v t (first_match guard v m ws).
Proof.
  intros IH Hok HA [-> Hps Hspec Hacc Hcases (dm & Hdm & Hd)].
  assert (HA' := HA). apply mapM_Some in HA'. destruct (Forall2_lookup_l _ _ _ _ _ HA' Hacc) as (w & Hw & Hl).
  assert (Hfind := find_case (constructor_test w)
    (fun c t => exists sm, specialize m col c access = Some sm /\
       compile_matrix fuel sm (expand_access A col access c) = Done t) cs cases Hcases).
  destruct (List.find _ cases) as [[c tc]|] eqn:Hf.
  - destruct Hfind as (Hin & Ht & sm & Hsm & Htc). simpl in *.
    destruct (specialize_spec m ws col ps cs c w access sm) as [Hok' Heq]; [done..|].
    eapply selects_equiv; [exact Heq|].
    assert (Hsel : selects guard v tc (first_match guard v sm (take col ws ++ sub_values w c ++ drop (S col) ws))).
    { eapply IH; [done| |exact Htc]. apply mapM_column; [done|]. apply load_sub_access; [done..|].
      destruct (ctors_from ps cs Hspec c Hin) as (p & _ & Hp & _).
      by apply (passed_narrow U HN w p), (column_passed m ws col ps cs). }
    unfold selects in *. destruct (first_match _ _ sm _) as [[i e]|]; by rewrite run_switch, Hl, Hf.
  - destruct (default_spec m ws col ps cs w access dm) as [Hok' Heq]; [done..|].
    eapply selects_equiv; [exact Heq|]. destruct d as [td|].
    + assert (Hsel : selects guard v td (first_match guard v dm (take col ws ++ [] ++ drop (S col) ws))).
      { eapply IH; [done| |exact Hd]. by apply (mapM_column (load v) A ws col [] []). }
      unfold selects in *. destruct (first_match _ _ dm _) as [[i e]|]; by rewrite run_switch, Hl, Hf.
    + subst dm. unfold selects. cbn [first_match]. by rewrite run_switch, Hl, Hf.
Qed.

Lemma compile_correct fuel : tree_correct fuel.
Proof.
  induction fuel as [|fuel IH]; intros m A ws t Hok HA Hc; [done|].
  destruct m as [|row rows]; [by injection Hc as <-|].
  assert (Hrow := Forall_inv Hok). assert (Hrows := Forall_inv_tail Hok).
  destruct (forallb is_wildcard (patterns row)) eqn:Hwild.
  - assert (Hleaf := leaf_bindings_spec v row A ws Hwild (ok_length _ _ _ _ Hrow) HA).
    destruct (ok_loads _ _ _ _ Hrow) as [eb Heb].
    destruct (wildcard_row_matches _ _ Hwild (ok_length _ _ _ _ Hrow)) as [em Hem].
    assert (Henv : row_env v row ws = Some (eb ++ em)) by (unfold row_env; by rewrite Heb, Hem).
    cbn [compile_matrix compile_step] in Hc. rewrite Hwild in Hc.
    cbn [first_match]. rewrite Henv. rewrite Henv in Hleaf. destruct (has_guard row).
    + destruct (compile_matrix fuel rows A) as [t'| |] eqn:Ht; try done. injection Hc as <-.
      specialize (IH rows A ws t' Hrows HA Ht). cbn [negb orb]. destruct (guard _ _) eqn:Hg.
      * exists (eb ++ em). split; [done|]. simpl. by rewrite Hleaf, Hg.
      * unfold selects in *. cbn [run_tree]. rewrite Hleaf, Hg. exact IH.
    + injection Hc as <-. exists (eb ++ em). split; [done|]. simpl. by rewrite Hleaf.
  - destruct (compile_switch_inv fuel row rows A t Hwild Hc) as (col & ps & cs & access & cases & d & Hsw).
    by eapply switch_correct.
Qed.

End Correct.
