(* ===== verification/DecisionTotal.v ===== *)
(** * The compiler of decision trees is total

    [compile_matrix] ends on every matrix, with more fuel it computes the same
    tree, and on a matrix of regular rows it never indexes past the end of a
    row. *)

From stdpp Require Import base numbers list option gmap fin_maps sets strings.
From S2P Require Import Prelude MatchValue MatchPattern Decision DecisionSpec DecisionProof.

(** ** A weight that every split lowers *)

Definition product (l : list nat) : nat := foldr Nat.mul 1 l.

Fixpoint weight (p : HirPattern) : nat :=
  match p with
  | PWildcard | PVar _ => 1
  | PNil | PLiteral _ => 2
  | PPair h t => S (weight h * weight t)
  | PList es r =>
      (fix go es :=
         match es with
         | [] => match r with Some q => S (weight q) | None => 2 end
         | e :: es' => S (weight e * go es')
         end) es
  | PTuple es r | PArray es r =>
      S (product (List.map weight es) * match r with Some q => weight q | None => 1 end)
  | PStruct es _ | PTable es _ => S (product (List.map (fun e => weight e.2) es))
  | PSet b | PSetMut b => S (weight b)
  | POr alts => S (S (list_sum (List.map weight alts)))
  end.

Definition row_weight (row : PatternRow) : nat := product (List.map weight (patterns row)).

Definition matrix_weight (m : PatternMatrix) : nat := list_sum (List.map row_weight m).

Lemma product_app l l' : product (l ++ l') = product l * product l'.
Proof. induction l as [|x l IH]; simpl; [lia|]. rewrite IH. lia. Qed.

Lemma product_pos l : Forall (fun x => 1 <= x) l -> 1 <= product l.
Proof. induction 1 as [|x l Hx _ IH]; simpl; nia. Qed.

Lemma product_perm l l' : l ≡ₚ l' -> product l = product l'.
Proof. induction 1; simpl; lia. Qed.

Lemma weight_pos p : 1 <= weight p.
Proof. destruct p as [| | | | |es r| | | | | | |]; simpl; try lia. destruct es; [destruct r|]; lia. Qed.

Lemma weights_pos ps : Forall (fun x => 1 <= x) (List.map weight ps).
Proof. apply Forall_map, Forall_true. apply weight_pos. Qed.

Lemma row_weight_pos row : 1 <= row_weight row.
Proof. apply product_pos, weights_pos. Qed.

Lemma matrix_weight_app m m' : matrix_weight (m ++ m') = matrix_weight m + matrix_weight m'.
Proof. unfold matrix_weight. by rewrite List.map_app, list_sum_app. Qed.

Lemma product_replicate n : product (List.map weight (replicate n PWildcard)) = 1.
Proof. induction n as [|n IH]; simpl; [done|]. by rewrite IH. Qed.

Lemma entry_weights es keys :
  NoDup keys ->
  product (List.map (fun k => weight (entry_pattern es k)) keys) <= product (List.map (fun e => weight e.2) es).
Proof.
  revert keys. induction es as [|[k p] es IH]; intros keys Hnd.
  - induction keys as [|k keys IHk]; simpl; [done|]. apply NoDup_cons in Hnd as [_ Hnd].
    specialize (IHk Hnd). simpl in *. lia.
  - assert (Hother : forall k', k' <> k -> entry_pattern ((k, p) :: es) k' = entry_pattern es k').
    { intros k' Hne. unfold entry_pattern. simpl. by rewrite bool_decide_eq_false_2 by congruence. }
    assert (Hself : entry_pattern ((k, p) :: es) k = p).
    { unfold entry_pattern. simpl. by rewrite bool_decide_eq_true_2. }
    assert (Hrest : forall ks, k ∉ ks ->
      List.map (fun x => weight (entry_pattern ((k, p) :: es) x)) ks
      = List.map (fun x => weight (entry_pattern es x)) ks).
    { intros ks Hk. apply map_ext_in. intros x Hx. rewrite Hother; [done|]. intros ->.
      by apply Hk, list_elem_of_In. }
    simpl. destruct (decide (k ∈ keys)) as [Hin|Hin].
    + apply elem_of_Permutation in Hin as [keys' Hp]. rewrite Hp in Hnd. apply NoDup_cons in Hnd as [Hk Hnd].
      rewrite (product_perm _ _ (Permutation_map (fun x => weight (entry_pattern ((k, p) :: es) x)) Hp)). simpl.
      rewrite Hself, Hrest by done. specialize (IH keys' Hnd). nia.
    + rewrite Hrest by done. specialize (IH keys Hnd). assert (H := weight_pos p). nia.
Qed.

Lemma array_weight (es : list HirPattern) (r : option HirPattern) (c : Constructor) :
  product (List.map weight
    match c with
    | CArrayRest _ | CArrayMutRest _ => es ++ [match r with Some q => q | None => PWildcard end]
    | _ => es
    end)
  < S (product (List.map weight es) * match r with Some q => weight q | None => 1 end).
Proof.
  assert (H : 1 <= match r with Some q => weight q | None => 1 end) by (destruct r; [apply weight_pos|lia]).
  assert (Hr : product (List.map weight (es ++ [match r with Some q => q | None => PWildcard end]))
    = product (List.map weight es) * match r with Some q => weight q | None => 1 end).
  { rewrite List.map_app, product_app. destruct r; simpl; lia. }
  destruct c; rewrite ?Hr; nia.
Qed.

(** The sub-patterns of a constructor weigh less than its pattern. *)
Lemma extract_weight p c :
  NoDup (ctor_keys c) -> is_wildcard p = false ->
  product (List.map weight (extract_sub_patterns p c)) < weight p.
Proof.
  intros Hnd Hw. destruct p as [| |lit|b|h t|es r|es r|es r|es r|es r|b|b|alts]; try done; simpl.
  - lia.
  - lia.
  - lia.
  - destruct es as [|h es]; [destruct r as [q|]; [assert (H := weight_pos q)|]; simpl; lia|].
    destruct es as [|h' es]; simpl.
    + destruct r as [q|]; simpl; [|lia]. assert (H := weight_pos h). nia.
    + lia.
  - apply array_weight.
  - apply array_weight.
  - destruct c; simpl in *; rewrite List.map_map; try lia; assert (H := entry_weights es keys Hnd); lia.
  - destruct c; simpl in *; rewrite List.map_map; try lia; assert (H := entry_weights es keys Hnd); lia.
  - lia.
  - lia.
  - lia.
Qed.

(** What a row weighs outside of a column. *)
Definition context_weight (row : PatternRow) (col : nat) : nat :=
  product (List.map weight (take col (patterns row))) * product (List.map weight (drop (S col) (patterns row))).

Lemma context_weight_pos row col : 1 <= context_weight row col.
Proof.
  unfold context_weight.
  assert (H1 := product_pos _ (weights_pos (take col (patterns row)))).
  assert (H2 := product_pos _ (weights_pos (drop (S col) (patterns row)))). nia.
Qed.

Lemma row_weight_split row col p :
  patterns row !! col = Some p -> row_weight row = context_weight row col * weight p.
Proof.
  intros Hp. unfold row_weight, context_weight. rewrite <- (take_drop_middle _ _ _ Hp) at 1.
  rewrite List.map_app, product_app. simpl. lia.
Qed.

Lemma row_weight_replace row col subs bs :
  row_weight (replace_column row col subs bs) = context_weight row col * product (List.map weight subs).
Proof.
  unfold row_weight, context_weight. simpl. rewrite !List.map_app, !product_app. lia.
Qed.

Lemma alternatives_weight row col c access alts :
  NoDup (ctor_keys c) ->
  matrix_weight
    (List.map (fun a => replace_column row col (extract_sub_patterns a c) (var_binding a access))
       (List.filter (fun a => is_wildcard a || compatible_with a c) alts))
  <= context_weight row col * list_sum (List.map weight alts).
Proof.
  intros Hnd. induction alts as [|a alts IH]; simpl; [unfold matrix_weight; simpl; lia|].
  destruct (is_wildcard a || compatible_with a c) eqn:E; [|simpl; lia].
  simpl. unfold matrix_weight in *. simpl. rewrite row_weight_replace.
  assert (product (List.map weight (extract_sub_patterns a c)) <= weight a); [|nia].
  destruct (is_wildcard a) eqn:Hw; [|apply Nat.lt_le_incl, extract_weight; done].
  destruct a; try done; simpl; by rewrite product_replicate.
Qed.

Lemma specialize_row_weight col c access row p :
  NoDup (ctor_keys c) -> patterns row !! col = Some p ->
  matrix_weight (specialize_row col c access row p) <= row_weight row /\
  (is_wildcard p = false -> matrix_weight (specialize_row col c access row p) < row_weight row).
Proof.
  intros Hnd Hp. rewrite (row_weight_split row col p Hp). assert (Hc := context_weight_pos row col).
  unfold specialize_row. destruct (is_wildcard p) eqn:Hw.
  - split; [|done]. unfold matrix_weight. simpl. rewrite row_weight_replace, product_replicate.
    assert (H := weight_pos p). nia.
  - enough (matrix_weight (specialize_row col c access row p) < context_weight row col * weight p)
      by (unfold specialize_row in *; rewrite Hw in *; lia).
    unfold specialize_row. rewrite Hw. destruct (or_or_not p) as [[alts ->]|Ho].
    + assert (H := alternatives_weight row col c access alts Hnd). simpl weight. nia.
    + assert (Hsub := extract_weight p c Hnd Hw). assert (H := weight_pos p).
      assert (matrix_weight (if compatible_with p c
                then [replace_column row col (extract_sub_patterns p c) (rest_bindings p access)] else [])
              < context_weight row col * weight p);
        [|destruct p as [| | | | | | | | | | | |alts]; try done; by destruct (Ho alts)].
      destruct (compatible_with p c); unfold matrix_weight; simpl; rewrite ?row_weight_replace; nia.
Qed.

Lemma default_row_weight col access row p :
  patterns row !! col = Some p -> matrix_weight (default_row col access row p) <= row_weight row.
Proof.
  intros Hp. rewrite (row_weight_split row col p Hp). unfold default_row.
  assert (Hc := context_weight_pos row col). assert (H := weight_pos p).
  destruct (is_wildcard p); unfold matrix_weight; simpl; rewrite ?row_weight_replace; simpl; nia.
Qed.

(** Row by row, a split that never gains weight does not gain weight, and loses
    some when one of the rows does. *)
Lemma split_weight (f : PatternRow -> HirPattern -> list PatternRow) m ps :
  Forall2 (fun row p => matrix_weight (f row p) <= row_weight row) m ps ->
  matrix_weight (concat (zip_with f m ps)) <= matrix_weight m.
Proof.
  induction 1 as [|row p m ps H _ IH]; [done|]. simpl. rewrite matrix_weight_app.
  unfold matrix_weight in *. simpl. lia.
Qed.

Lemma split_weight_strict (f : PatternRow -> HirPattern -> list PatternRow) m ps p :
  Forall2 (fun row p => matrix_weight (f row p) <= row_weight row /\
     (is_wildcard p = false -> matrix_weight (f row p) < row_weight row)) m ps ->
  p ∈ ps -> is_wildcard p = false ->
  matrix_weight (concat (zip_with f m ps)) < matrix_weight m.
Proof.
  induction 1 as [|row q m ps [H1 H2] Hall IH]; [by intros ?%not_elem_of_nil|].
  simpl. rewrite matrix_weight_app. intros Hin Hw.
  assert (Hle : matrix_weight (concat (zip_with f m ps)) <= matrix_weight m).
  { apply split_weight. eapply Forall2_impl; [exact Hall|]. naive_solver. }
  apply elem_of_cons in Hin as [->|Hin]; unfold matrix_weight in *; simpl in *.
  - specialize (H2 Hw). lia.
  - specialize (IH Hin Hw). lia.
Qed.

(** ** More fuel computes the same tree *)

(** [y] is what [x] becomes with more fuel. *)
Definition refines {A} (x y : outcome A) : Prop := x <> Exhausted -> y = x.

Lemma refines_bind {A B} (x y : outcome A) (f g : A -> outcome B) :
  refines x y -> (forall a, refines (f a) (g a)) -> refines (obind f x) (obind g y).
Proof.
  intros Hxy Hfg Hne. destruct x as [a| |]; simpl in Hne; [|by rewrite Hxy|done].
  rewrite Hxy by done. simpl. by apply Hfg.
Qed.

Lemma refines_or_panic {A B} (x : option A) (f g : A -> outcome B) :
  (forall a, refines (f a) (g a)) -> refines (or_panic x f) (or_panic x g).
Proof. intros Hfg. destruct x; [apply Hfg|]. done. Qed.

Lemma refines_refl {A} (x : outcome A) : refines x x.
Proof. done. Qed.

Lemma compile_cases_refines f g cs :
  (forall c, refines (f c) (g c)) -> refines (compile_cases f cs) (compile_cases g cs).
Proof.
  intros Hfg. induction cs as [|c cs IH]; [apply refines_refl|].
  cbn [compile_cases]. apply refines_bind; [apply Hfg|].
  intros t. apply refines_bind; [exact IH|]. intros ts. apply refines_refl.
Qed.

Lemma compile_step_refines f g m A :
  (forall m' A', refines (f m' A') (g m' A')) -> refines (compile_step f m A) (compile_step g m A).
Proof.
  intros IH. destruct m as [|row rows]; [apply refines_refl|].
  cbn [compile_step]. destruct (forallb is_wildcard (patterns row)).
  - destruct (has_guard row); [|apply refines_refl]. apply refines_bind; [apply IH|]. intros t. apply refines_refl.
  - apply refines_or_panic; intros col. apply refines_or_panic; intros cs. apply refines_or_panic; intros access.
    apply refines_bind.
    + apply compile_cases_refines. intros c. apply refines_or_panic. intros sm. apply IH.
    + intros cases. apply refines_or_panic. intros [|r dm]; [apply refines_refl|].
      apply refines_bind; [apply IH|]. intros t. apply refines_refl.
Qed.

Lemma compile_refines_S k m A : refines (compile_matrix k m A) (compile_matrix (S k) m A).
Proof.
  revert m A. induction k as [|k IH]; intros m A; [by intros []|].
  exact (compile_step_refines _ _ m A IH).
Qed.

Lemma compile_refines k k' m A : k <= k' -> refines (compile_matrix k m A) (compile_matrix k' m A).
Proof.
  induction 1 as [|k' _ IH]; [apply refines_refl|]. intros Hne.
  rewrite compile_refines_S; by rewrite IH.
Qed.

(** ** Termination *)

Definition ends (m : PatternMatrix) (A : list AccessPath) : Prop :=
  exists n, compile_matrix n m A <> Exhausted.

Lemma ends_from m A n k : compile_matrix n m A <> Exhausted -> n <= k -> compile_matrix k m A <> Exhausted.
Proof. intros Hn Hk. by rewrite (compile_refines n k). Qed.

Lemma compile_cases_end m col access A cs :
  (forall c sm, c ∈ cs -> specialize m col c access = Some sm -> ends sm (expand_access A col access c)) ->
  exists n, forall k, n <= k ->
    compile_cases (fun c => or_panic (specialize m col c access) (fun sm =>
      compile_matrix k sm (expand_access A col access c))) cs <> Exhausted.
Proof.
  induction cs as [|c cs IH]; intros Hends; [by exists 0|].
  destruct IH as [n Hn]; [intros c' sm Hc'; apply Hends; by right|].
  assert (Hc : exists n', forall k, n' <= k -> or_panic (specialize m col c access) (fun sm =>
      compile_matrix k sm (expand_access A col access c)) <> Exhausted).
  { destruct (specialize m col c access) as [sm|] eqn:Hsm; [|by exists 0].
    destruct (Hends c sm) as [n' Hn']; [by left|done|]. exists n'. intros k Hk. by apply (ends_from _ _ n'). }
  destruct Hc as [n' Hn']. exists (Nat.max n n'). intros k Hk. simpl.
  destruct (or_panic _ _) as [t| |] eqn:Ht; simpl; [|done|by destruct (Hn' k); [lia|]].
  destruct (compile_cases _ cs) as [ts| |] eqn:Hts; simpl; [done|done|].
  exfalso. by apply (Hn k); [lia|].
Qed.

Lemma switch_ends m row A :
  head m = Some row -> forallb is_wildcard (patterns row) = false ->
  (forall col access c cs sm, select_column m = Some col -> collect_constructors m col = Some cs -> c ∈ cs ->
     specialize m col c access = Some sm -> forall A', ends sm A') ->
  (forall col access dm, select_column m = Some col -> A !! col = Some access ->
     default_matrix m col access = Some dm -> ends dm (remove_column A col)) ->
  ends m A.
Proof.
  intros Hm Hw Hcases Hdef.
  assert (Hstep : forall k, compile_matrix (S k) m A =
    or_panic (select_column m) (fun col =>
    or_panic (collect_constructors m col) (fun constructors =>
    or_panic (A !! col) (fun access =>
    obind (fun cases =>
      or_panic (default_matrix m col access) (fun def =>
      match def with
      | [] => Done (Switch access cases None)
      | _ :: _ =>
          obind (fun d => Done (Switch access cases (Some d))) (compile_matrix k def (remove_column A col))
      end))
    (compile_cases (fun c => or_panic (specialize m col c access) (fun sm =>
       compile_matrix k sm (expand_access A col access c))) constructors))))).
  { intros k. destruct m as [|r m]; [done|]. injection Hm as ->. cbn [compile_matrix compile_step]. by rewrite Hw. }
  destruct (select_column m) as [col|]; [|exists 1; by rewrite Hstep].
  destruct (collect_constructors m col) as [cs|] eqn:Hcs; [|exists 1; rewrite Hstep; cbn [or_panic]; by rewrite Hcs].
  destruct (A !! col) as [access|] eqn:Hacc;
    [|exists 1; rewrite Hstep; cbn [or_panic]; rewrite Hcs; cbn [or_panic]; by rewrite Hacc].
  destruct (compile_cases_end m col access A cs) as [n Hn]; [intros c sm Hc Hsm; by eapply Hcases|].
  assert (Hd : exists n', forall k dm, n' <= k -> default_matrix m col access = Some dm ->
      compile_matrix k dm (remove_column A col) <> Exhausted).
  { destruct (default_matrix m col access) as [dm|] eqn:Hdm; [|by exists 0].
    destruct (Hdef col access dm) as [n' Hn']; [done..|]. exists n'.
    intros k dm' Hk [= <-]. by apply (ends_from _ _ n'). }
  destruct Hd as [n' Hn']. exists (S (Nat.max n n')). rewrite Hstep. cbn [or_panic]. rewrite Hcs. cbn [or_panic]. rewrite Hacc. cbn [or_panic].
  specialize (Hn (Nat.max n n') ltac:(lia)). destruct (compile_cases _ cs) as [ts| |]; [|done..]. cbn [obind].
  destruct (default_matrix m col access) as [[|r dm]|] eqn:Hdm; [done| |done]. cbn [or_panic].
  specialize (Hn' (Nat.max n n') (r :: dm) ltac:(lia) eq_refl).
  by destruct (compile_matrix _ (r :: dm) _).
Qed.

Lemma heads_not_wildcard p c : c ∈ heads p -> is_wildcard p = false.
Proof. destruct p; simpl; try done; by intros ?%not_elem_of_nil. Qed.

Lemma specialize_weight m col cs c access sm :
  collect_constructors m col = Some cs -> c ∈ cs -> specialize m col c access = Some sm ->
  matrix_weight sm < matrix_weight m.
Proof.
  intros Hcs Hc Hsm. unfold specialize in Hsm.
  destruct (column m col) as [ps|] eqn:Hps; [|done]. injection Hsm as <-.
  assert (Hspec := collect_constructors_spec m col ps cs Hps Hcs).
  destruct (ctors_from ps cs Hspec c Hc) as (p & c0 & Hp & Hc0 & _).
  apply (split_weight_strict _ m ps p); [|done|by eapply heads_not_wildcard].
  apply mapM_Some in Hps. eapply Forall2_impl; [exact Hps|]. intros row q Hq.
  apply specialize_row_weight; [by apply (ctors_nodup ps cs)|done].
Qed.

Lemma default_weight m col access dm :
  default_matrix m col access = Some dm -> matrix_weight dm <= matrix_weight m.
Proof.
  unfold default_matrix. destruct (column m col) as [ps|] eqn:Hps; [|done]. intros [= <-].
  apply split_weight. apply mapM_Some in Hps. eapply Forall2_impl; [exact Hps|].
  intros row q Hq. by apply default_row_weight.
Qed.

(** The recursion ends: a split for a constructor lowers the weight, the
    default matrix keeps it at most and has a column less. *)
Lemma compile_ends m A : ends m A.
Proof.
  remember (matrix_weight m) as W eqn:HW. assert (HW' : matrix_weight m <= W) by lia. clear HW.
  revert m A HW'. induction W as [|W IHW]; intros m A HW.
  { destruct m as [|row m]; [by exists 1|]. unfold matrix_weight in HW. simpl in HW.
    assert (H := row_weight_pos row). lia. }
  remember (length A) as L eqn:HL. revert m A HW HL. induction L as [|L IHL]; intros m A HW HL;
  (destruct m as [|row rows]; [by exists 1|]; destruct (forallb is_wildcard (patterns row)) eqn:Hw).
  1,3: destruct (has_guard row) eqn:Hg; [|exists 1; cbn [compile_matrix compile_step]; by rewrite Hw, Hg].
  1,2: destruct (IHW rows A) as [n Hn]; [unfold matrix_weight in *; simpl in HW;
         assert (H := row_weight_pos row); lia|];
       exists (S n); cbn [compile_matrix compile_step]; rewrite Hw, Hg; by destruct (compile_matrix n rows A).
  all: apply (switch_ends _ row); [done|done| |].
  1,3: intros col access c cs sm _ Hcs Hc Hsm A'; apply IHW;
       assert (H := specialize_weight _ col cs c access sm Hcs Hc Hsm); lia.
  all: intros col access dm _ Hacc Hdm; assert (Hlt := lookup_lt_Some _ _ _ Hacc);
       assert (H := default_weight _ col access dm Hdm).
  1: lia.
  destruct (decide (matrix_weight dm <= W)); [by apply IHW|]. apply IHL; [lia|].
  unfold remove_column. rewrite length_app, length_take, length_drop. lia.
Qed.

(** ** No index out of range *)

(** A row with one regular pattern for each of [n] columns. *)
Definition shape (n : nat) (row : PatternRow) : Prop :=
  length (patterns row) = n /\ Forall (fun p => regular p = true) (patterns row).

Lemma column_some n m col : Forall (shape n) m -> col < n -> is_Some (column m col).
Proof.
  intros Hm Hcol. apply mapM_is_Some. eapply Forall_impl; [exact Hm|]. intros row [Hl _].
  apply lookup_lt_is_Some. lia.
Qed.

Lemma select_column_some n row rows :
  Forall (shape n) (row :: rows) -> 0 < n -> exists col, select_column (row :: rows) = Some col /\ col < n.
Proof.
  intros Hm Hn. unfold select_column. set (m := row :: rows) in *.
  assert (Hfold : forall cols best, Forall (fun c => c < n) cols -> best.1 < n ->
    exists best', fold_left (select_step m) cols (Some best) = Some best' /\ best'.1 < n).
  { induction cols as [|c cols IH]; intros best Hcols Hb; [by exists best|].
    apply Forall_cons in Hcols as [Hc Hcols]. destruct best as [bc bn].
    destruct (column_some n m c Hm Hc) as [ps Hps]. cbn [fold_left].
    assert (Hstep : exists best', select_step m (Some (bc, bn)) c = Some best' /\ best'.1 < n).
    { unfold select_step. cbn [mbind option_bind]. rewrite Hps. cbn [mbind option_bind]. eexists. split; [done|]. by case_match. }
    destruct Hstep as (best' & -> & Hb'). by apply IH. }
  destruct (Hfold (seq 0 (length (patterns row))) (0, 0)) as ([col cnt] & Heq & Hlt); [|done|].
  - apply Forall_forall. intros c Hc%elem_of_seq. destruct (Forall_inv Hm) as [Hl _]. lia.
  - exists col. simpl in *. by rewrite Heq.
Qed.

Lemma extract_length p c :
  regular p = true -> compatible_with p c = true -> length (extract_sub_patterns p c) = arity c.
Proof.
  intros Hreg Hc. unfold compatible_with in Hc.
  destruct p as [| |lit|b|h t|es r|es r|es r|es r|es r|b|b|alts]; try done.
  - by destruct c.
  - by destruct c.
  - by destruct c.
  - destruct es as [|e es]; [destruct r; [done|]; by destruct c|]. destruct c; try done. by destruct es.
  - destruct r; destruct c; try done; apply Nat.eqb_eq in Hc as <-; simpl; rewrite ?length_app; done.
  - destruct r; destruct c; try done; apply Nat.eqb_eq in Hc as <-; simpl; rewrite ?length_app; done.
  - destruct c; try done. apply length_map.
  - destruct c; try done. apply length_map.
  - by destruct c.
  - by destruct c.
Qed.

Lemma extract_regular p c :
  regular p = true -> compatible_with p c = true -> Forall (fun q => regular q = true) (extract_sub_patterns p c).
Proof.
  intros Hr Hc. eapply Forall_impl; [apply (extract_good (ctors_in p)); [by split|done]|]. by intros q [? _].
Qed.

Lemma replace_shape n row col subs bs a :
  shape n row -> col < n -> length subs = a -> Forall (fun p => regular p = true) subs ->
  shape (n - 1 + a) (replace_column row col subs bs).
Proof.
  intros [Hl Hr] Hcol Ha Hs. split; simpl.
  - rewrite !length_app, length_take, length_drop. lia.
  - apply Forall_app. split; [by apply Forall_take|]. apply Forall_app. split; [done|by apply Forall_drop].
Qed.

Lemma specialize_row_shape n col c access row p :
  shape n row -> patterns row !! col = Some p ->
  Forall (shape (n - 1 + arity c)) (specialize_row col c access row p).
Proof.
  intros Hsh Hp. assert (Hcol : col < n) by (destruct Hsh as [<- _]; by eapply lookup_lt_Some).
  assert (Hreg : regular p = true) by apply (Forall_lookup_1 _ _ _ _ (proj2 Hsh) Hp).
  unfold specialize_row. destruct (is_wildcard p) eqn:Hw.
  - apply Forall_singleton, replace_shape; [done..|by rewrite length_replicate|by apply Forall_replicate].
  - destruct (or_or_not p) as [[alts ->]|Ho].
    + apply Forall_map, Forall_forall. intros a Ha. apply list_elem_of_In, filter_In in Ha as [Ha Hc].
      simpl in Hreg. rewrite forallb_forall in Hreg. specialize (Hreg a Ha).
      apply andb_true_iff in Hreg as [Hpl Hr]. rewrite (plain_not_wildcard a Hpl) in Hc. simpl in Hc.
      apply replace_shape; [done..|by apply extract_length|by apply extract_regular].
    + assert (Forall (shape (n - 1 + arity c)) (if compatible_with p c
        then [replace_column row col (extract_sub_patterns p c) (rest_bindings p access)] else []));
        [|destruct p as [| | | | | | | | | | | |alts]; try done; by destruct (Ho alts)].
      destruct (compatible_with p c) eqn:Hc; [|constructor]. apply Forall_singleton.
      apply replace_shape; [done..|by apply extract_length|by apply extract_regular].
Qed.

Lemma default_row_shape n col access row p :
  shape n row -> patterns row !! col = Some p -> Forall (shape (n - 1)) (default_row col access row p).
Proof.
  intros Hsh Hp. assert (Hcol : col < n) by (destruct Hsh as [<- _]; by eapply lookup_lt_Some).
  unfold default_row. destruct (is_wildcard p); [|constructor]. apply Forall_singleton.
  rewrite <- (Nat.add_0_r (n - 1)). by apply replace_shape.
Qed.

Lemma split_shape (f : PatternRow -> HirPattern -> list PatternRow) n n' m ps col :
  Forall (shape n) m -> column m col = Some ps ->
  (forall row p, shape n row -> patterns row !! col = Some p -> Forall (shape n') (f row p)) ->
  Forall (shape n') (concat (zip_with f m ps)).
Proof.
  intros Hm Hps Hf. apply mapM_Some in Hps. revert Hm.
  induction Hps as [|row p m ps Hp _ IH]; simpl; [constructor|].
  intros [Hrow Hm]%Forall_cons. apply Forall_app. split; [by apply Hf|by apply IH].
Qed.

Lemma compile_cases_no_panic f cs :
  (forall c, c ∈ cs -> f c <> Panicked) -> compile_cases f cs <> Panicked.
Proof.
  induction cs as [|c cs IH]; intros Hf; [done|]. simpl.
  destruct (f c) as [t| |] eqn:Ht; simpl; [|by destruct (Hf c); [left|]|done].
  destruct (compile_cases f cs) as [ts| |]; simpl; [done| |done].
  intros _. apply IH; [|done]. intros c' Hc'. apply Hf. by right.
Qed.

Lemma length_sub_access c base : length (sub_access c base) = arity c.
Proof. destruct c; simpl; rewrite ?length_app, ?length_map, ?length_seq; done. Qed.

Lemma compile_no_panic k n m A :
  Forall (shape n) m -> length A = n -> compile_matrix k m A <> Panicked.
Proof.
  revert n m A. induction k as [|k IH]; intros n m A Hm HA; [done|].
  destruct m as [|row rows]; [done|]. cbn [compile_matrix compile_step].
  destruct (forallb is_wildcard (patterns row)) eqn:Hw.
  - destruct (has_guard row); [|done]. assert (H := IH n rows A (Forall_inv_tail Hm) HA).
    by destruct (compile_matrix k rows A).
  - assert (Hn : 0 < n).
    { destruct (Forall_inv Hm) as [<- _]. destruct (patterns row); [done|simpl; lia]. }
    destruct (select_column_some n row rows Hm Hn) as (col & -> & Hcol). cbn [or_panic].
    destruct (column_some n (row :: rows) col Hm Hcol) as [ps Hps].
    unfold collect_constructors. rewrite Hps. cbn [mbind option_bind or_panic].
    destruct (lookup_lt_is_Some_2 A col) as [access Hacc]; [lia|]. rewrite Hacc. cbn [or_panic].
    set (cs := merge_struct_table_constructors _).
    assert (Hcases : compile_cases (fun c => or_panic (specialize (row :: rows) col c access) (fun sm =>
        compile_matrix k sm (expand_access A col access c))) cs <> Panicked).
    { apply compile_cases_no_panic. intros c _. unfold specialize. rewrite Hps. cbn [mbind option_bind or_panic].
      apply (IH (n - 1 + arity c)).
      - eapply split_shape; [exact Hm|exact Hps|]. intros r p. apply specialize_row_shape.
      - unfold expand_access. rewrite !length_app, length_take, length_drop, length_sub_access. lia. }
    destruct (compile_cases _ cs) as [ts| |]; [|done..]. cbn [obind].
    unfold default_matrix. rewrite Hps. cbn [mbind option_bind or_panic].
    assert (Hdef : compile_matrix k (concat (zip_with (default_row col access) (row :: rows) ps))
        (remove_column A col) <> Panicked).
    { apply (IH (n - 1)).
      - eapply split_shape; [exact Hm|exact Hps|]. intros r p. apply default_row_shape.
      - unfold remove_column. rewrite length_app, length_take, length_drop. lia. }
    destruct (concat _) as [|r dm]; [done|]. by destruct (compile_matrix k (r :: dm) _).
Qed.

(** Regular rows compile to one tree, whatever fuel beyond some bound. *)
Lemma compile_total n m A :
  Forall (shape n) m -> length A = n -> exists t k0, forall k, k0 <= k -> compile_matrix k m A = Done t.
Proof.
  intros Hm HA. destruct (compile_ends m A) as [k0 Hk0].
  destruct (compile_matrix k0 m A) as [t| |] eqn:Ht; [|by destruct (compile_no_panic k0 n m A)|done].
  exists t, k0. intros k Hk. rewrite (compile_refines k0 k) by (done || by rewrite Ht). done.
Qed.
