(* ===== verification/MatchProps.v ===== *)
(** * What [match] guarantees

    The decision tree and the sequential lowering select the same arm with the
    same bindings on every regular match; unreachable arms are unreachable;
    a match typed as total never raises [:match-error].  The last part evaluates
    the two lowerings on the matches outside the regular ones, where they
    differ. *)

From stdpp Require Import base numbers list option gmap fin_maps sets strings.
From Stdlib Require Import SpecFloat.
From S2P Require Import Prelude Names MatchValue MatchPattern Decision DecisionSpec DecisionProof DecisionTotal.

(** ** Linear patterns bind each variable once *)

(** A result binds variables of [V], each at most once. *)
Definition binds (V : list Binding) (x : option Env) : Prop :=
  forall e, x = Some e -> NoDup (e.*1) /\ e.*1 ⊆ V.

Lemma binds_None V : binds V None.
Proof. done. Qed.

Lemma binds_nil V : binds V (Some []).
Proof. intros e [= <-]. split; [constructor|]. by intros b ?%not_elem_of_nil. Qed.

Lemma binds_conj V W x y : NoDup (V ++ W) -> binds V x -> binds W y -> binds (V ++ W) (conj x y).
Proof.
  intros (_ & Hd & _)%NoDup_app Hx Hy e (e1 & e2 & H1 & H2 & ->)%conj_Some.
  destruct (Hx e1 H1) as [Hn1 Hs1], (Hy e2 H2) as [Hn2 Hs2]. rewrite fmap_app. split.
  - apply NoDup_app. split_and!; [done| |done]. intros b Hb Hb'. by apply (Hd b); [apply Hs1|apply Hs2].
  - intros b. rewrite !elem_of_app. intros [?|?]; auto.
Qed.

Lemma binds_weaken V W x : V ⊆ W -> binds V x -> binds W x.
Proof. intros Hs Hx e He. destruct (Hx e He) as [H1 H2]. split; [done|by etrans]. Qed.

Lemma binds_if (b : bool) V x : binds V x -> binds V (if b then x else None).
Proof. by destruct b. Qed.

Lemma NoDup_app_l {A} (l l' : list A) : NoDup (l ++ l') -> NoDup l.
Proof. by intros (? & _ & _)%NoDup_app. Qed.

Lemma NoDup_app_r {A} (l l' : list A) : NoDup (l ++ l') -> NoDup l'.
Proof. by intros (_ & _ & ?)%NoDup_app. Qed.

Definition linear_ok (p : HirPattern) : Prop := linear p = true -> forall v, binds (vars p) (matches p v).

Lemma binds_match_all es l :
  Forall linear_ok es -> forallb linear es = true -> NoDup (flat_map vars es) ->
  binds (flat_map vars es) (match_all matches es l).
Proof.
  intros Hall. revert l. induction Hall as [|p es Hp _ IH]; intros [|v l]; simpl; try (intros; apply binds_None).
  - intros _ _. apply binds_nil.
  - intros [H1 H2]%andb_true_iff Hnd. apply binds_conj; [done|by apply Hp|].
    apply IH; [done|by eapply NoDup_app_r].
Qed.

Lemma binds_match_list es W last v :
  Forall linear_ok es -> forallb linear es = true -> NoDup (flat_map vars es ++ W) ->
  (forall w, binds W (last w)) ->
  binds (flat_map vars es ++ W) (match_list matches last es v).
Proof.
  intros Hall. revert v. induction Hall as [|p es Hp _ IH]; intros v; simpl; [intros _ _ Hlast; apply Hlast|].
  rewrite <- app_assoc. intros [H1 H2]%andb_true_iff Hnd Hlast. destruct v; try apply binds_None.
  apply binds_conj; [done|by apply Hp|]. apply IH; [done|by eapply NoDup_app_r|done].
Qed.

Lemma binds_match_entries v es :
  Forall (fun e => linear_ok e.2) es -> forallb (fun e => linear e.2) es = true ->
  NoDup (flat_map (fun e => vars e.2) es) -> binds (flat_map (fun e => vars e.2) es) (match_entries matches v es).
Proof.
  unfold match_entries. induction 1 as [|e es He _ IH]; simpl; [intros _ _; apply binds_nil|].
  intros [H1 H2]%andb_true_iff Hnd. apply binds_conj; [done|by apply He|].
  apply IH; [done|by eapply NoDup_app_r].
Qed.

Lemma binds_match_array es r wrap l :
  Forall linear_ok es -> from_option linear_ok True r ->
  forallb linear es = true -> (match r with Some q => linear q | None => true end) = true ->
  NoDup (flat_map vars es ++ match r with Some q => vars q | None => [] end) ->
  binds (flat_map vars es ++ match r with Some q => vars q | None => [] end)
    (match_array matches es (match r with Some q => Some (matches q) | None => None end) wrap l).
Proof.
  intros Hall Hr H1 H2 Hnd. unfold match_array. destruct r as [q|].
  - apply binds_if, binds_conj; [done| |by apply Hr]. apply binds_match_all; [done..|by eapply NoDup_app_l].
  - rewrite app_nil_r in *. by apply binds_match_all.
Qed.

Lemma binds_keyed es r v (kind : bool) :
  Forall (fun e => linear_ok e.2) es -> from_option linear_ok True r ->
  forallb (fun e => linear e.2) es = true -> (match r with Some q => linear q | None => true end) = true ->
  NoDup (flat_map (fun e => vars e.2) es ++ match r with Some q => vars q | None => [] end) ->
  binds (flat_map (fun e => vars e.2) es ++ match r with Some q => vars q | None => [] end)
    (if kind
     then conj (match_entries matches v es)
            (match r with Some q => matches q (struct_rest v (excluded_keys es)) | None => Some [] end)
     else None).
Proof.
  intros Hall Hr H1 H2 Hnd. apply binds_if, binds_conj; [done| |].
  - apply binds_match_entries; [done..|by eapply NoDup_app_l].
  - destruct r as [q|]; [by apply Hr|apply binds_nil].
Qed.

Lemma binds_or alts v :
  Forall linear_ok alts -> forallb linear alts = true ->
  binds (flat_map vars alts) (first_some (fun q => matches q v) alts).
Proof.
  induction 1 as [|a alts Ha _ IH]; simpl; [intros _; apply binds_None|].
  intros [H1 H2]%andb_true_iff. destruct (matches a v) as [e|] eqn:E.
  - rewrite <- E. eapply binds_weaken; [|by apply Ha]. intros b Hb. apply elem_of_app. by left.
  - eapply binds_weaken; [|by apply IH]. intros b Hb. apply elem_of_app. by right.
Qed.

Ltac linear_split Hl :=
  apply andb_true_iff in Hl as [[? ?]%andb_true_iff ?%bool_decide_eq_true].

Lemma matches_linear p : linear_ok p.
Proof.
  induction p using HirPattern_nested_ind; intros Hl v; simpl in Hl; cbn [matches vars].
  - apply binds_nil.
  - apply binds_if, binds_nil.
  - apply binds_if, binds_nil.
  - intros e [= <-]. split; [apply NoDup_singleton|done].
  - linear_split Hl. destruct v; try apply binds_None. apply binds_conj; [done|by apply IHp1|by apply IHp2].
  - linear_split Hl. apply binds_match_list; [done..|]. intros w. destruct r; [by apply H0|].
    apply binds_if, binds_nil.
  - linear_split Hl. destruct v; try apply binds_None. by apply binds_match_array.
  - linear_split Hl. destruct v; try apply binds_None. by apply binds_match_array.
  - linear_split Hl. by apply binds_keyed.
  - linear_split Hl. by apply binds_keyed.
  - apply binds_if. by apply IHp.
  - apply binds_if. by apply IHp.
  - eapply binds_weaken; [|by apply binds_or]. intros b Hb. by apply elem_of_remove_dups.
Qed.

(** ** The rows of the arms *)

Lemma regular_width p : regular p = true -> width_ok p = true.
Proof.
  assert (Hlist : forall es, Forall (fun p => regular p = true -> width_ok p = true) es ->
    forallb regular es = true -> forallb width_ok es = true).
  { induction 1 as [|q es Hq _ IH]; simpl; [done|]. intros [H1 H2]%andb_true_iff. by rewrite Hq, IH. }
  assert (Hentries : forall es : list (PatternKey * HirPattern),
    Forall (fun e => regular e.2 = true -> width_ok e.2 = true) es ->
    forallb (fun e => regular e.2) es = true -> forallb (fun e => width_ok e.2) es = true).
  { induction 1 as [|q es Hq _ IH]; simpl; [done|]. intros [H1 H2]%andb_true_iff. by rewrite Hq, IH. }
  assert (Hrest : forall r, simple_rest r = true -> match r with Some q => width_ok q | None => true end = true).
  { by intros [[]|]. }
  induction p using HirPattern_nested_ind; simpl; try done.
  - intros [H1 H2]%andb_true_iff. by rewrite IHp1, IHp2.
  - intros [[_ H1]%andb_true_iff H2]%andb_true_iff. rewrite Hlist by done. by destruct r; auto.
  - intros [[-> H1]%andb_true_iff H2]%andb_true_iff. rewrite Hlist by done. by destruct r; auto.
  - intros [[-> H1]%andb_true_iff H2]%andb_true_iff. rewrite Hlist by done. by destruct r; auto.
  - intros [[_ H1]%andb_true_iff H2]%andb_true_iff. rewrite Hentries by done. by apply Hrest.
  - intros [[_ H1]%andb_true_iff H2]%andb_true_iff. rewrite Hentries by done. by apply Hrest.
  - induction H as [|a alts Ha _ IH]; simpl; [done|].
    intros [[_ H1]%andb_true_iff H2]%andb_true_iff. by rewrite Ha, IH.
Qed.

Lemma narrow_flat_map {A} (f : A -> list Constructor) (l : list A) :
  Forall (fun a => Forall narrow (f a)) l -> Forall narrow (flat_map f l).
Proof. induction 1; simpl; [constructor|by apply Forall_app]. Qed.

Lemma width_narrow p : width_ok p = true -> Forall narrow (ctors_in p).
Proof.
  assert (Hlist : forall es, Forall (fun p => width_ok p = true -> Forall narrow (ctors_in p)) es ->
    forallb width_ok es = true -> Forall narrow (flat_map ctors_in es)).
  { induction 1 as [|q es Hq _ IH]; simpl; [done|]. intros [H1 H2]%andb_true_iff. apply Forall_app. auto. }
  assert (Hentries : forall es : list (PatternKey * HirPattern),
    Forall (fun e => width_ok e.2 = true -> Forall narrow (ctors_in e.2)) es ->
    forallb (fun e => width_ok e.2) es = true -> Forall narrow (flat_map (fun e => ctors_in e.2) es)).
  { induction 1 as [|q es Hq _ IH]; simpl; [done|]. intros [H1 H2]%andb_true_iff. apply Forall_app. auto. }
  induction p using HirPattern_nested_ind; simpl; try done; try (by repeat constructor).
  - intros [H1 H2]%andb_true_iff. constructor; [done|]. apply Forall_app. auto.
  - intros [H1 H2]%andb_true_iff. do 2 (constructor; [done|]). apply Forall_app. split; [auto|]. by destruct r; auto.
  - intros [[H1%N.ltb_lt H2]%andb_true_iff H3]%andb_true_iff. constructor; [by destruct r|].
    apply Forall_app. split; [auto|]. by destruct r; auto.
  - intros [[H1%N.ltb_lt H2]%andb_true_iff H3]%andb_true_iff. constructor; [by destruct r|].
    apply Forall_app. split; [auto|]. by destruct r; auto.
  - intros [H1 H2]%andb_true_iff. constructor; [done|]. apply Forall_app. split; [auto|]. by destruct r; auto.
  - intros [H1 H2]%andb_true_iff. constructor; [done|]. apply Forall_app. split; [auto|]. by destruct r; auto.
  - intros Hw. constructor; [done|auto].
  - intros Hw. constructor; [done|auto].
  - auto.
Qed.

(** Every row of the arms is one alternative of one of them. *)
Lemma from_arms_rows i arms row :
  row ∈ from_arms_at i arms ->
  exists p g q k, (p, g) ∈ arms /\ q ∈ expand_or_pattern p /\ row = PatternRow_new [q] g k.
Proof.
  revert i. induction arms as [|[p g] arms IH]; intros i; simpl; [by intros ?%not_elem_of_nil|].
  intros [Hin|Hin]%elem_of_app.
  - apply list_elem_of_In, in_map_iff in Hin as (q & <- & Hq). exists p, g, q, i.
    split_and!; [by left|by apply list_elem_of_In|done].
  - destruct (IH _ Hin) as (p' & g' & q & k & Hin' & Hq & ->). exists p', g', q, k.
    split_and!; [by right|done|done].
Qed.

Record regular_row (U : list Constructor) (q : HirPattern) (g : bool) : Prop := {
  rr_regular : regular q = true;
  rr_linear : linear q = true;
  rr_guard : g = true -> or_free q = true;
  rr_ctors : ctors_in q ⊆ U }.

Lemma regular_arms_row arms p g q :
  regular_arms arms = true -> (p, g) ∈ arms -> q ∈ expand_or_pattern p -> regular_row (arm_ctors arms) q g.
Proof.
  intros [Hall _]%andb_true_iff Hin Hq. rewrite forallb_forall in Hall.
  specialize (Hall (p, g) (proj1 (list_elem_of_In _ _) Hin)). unfold regular_arm in Hall. simpl in Hall.
  rewrite forallb_forall in Hall. specialize (Hall q (proj1 (list_elem_of_In _ _) Hq)).
  apply andb_true_iff in Hall as [[H1 H2]%andb_true_iff H3]. constructor; [done|done| |].
  - intros ->. done.
  - intros c Hc. apply list_elem_of_In, in_flat_map. exists (p, g). split; [by apply list_elem_of_In|].
    apply in_flat_map. exists q. by rewrite <- !list_elem_of_In.
Qed.

Lemma arm_ctors_narrow arms : regular_arms arms = true -> Forall narrow (arm_ctors arms).
Proof.
  intros Hr. apply narrow_flat_map, Forall_forall. intros [p g] Hin.
  apply narrow_flat_map, Forall_forall. intros q Hq.
  apply width_narrow, regular_width, (rr_regular _ _ _ (regular_arms_row arms p g q Hr Hin Hq)).
Qed.

Lemma single_row_env v q g k : row_env v (PatternRow_new [q] g k) [v] = matches q v.
Proof. unfold row_env, PatternRow_new. simpl. by rewrite conj_nil_r, conj_nil_l. Qed.

Lemma from_arms_ok arms v :
  regular_arms arms = true -> Forall (row_ok v (arm_ctors arms) [v]) (from_arms arms).
Proof.
  intros Hr. apply Forall_forall. intros row (p & g & q & k & Hin & Hq & ->)%from_arms_rows.
  destruct (regular_arms_row arms p g q Hr Hin Hq) as [H1 H2 H3 H4]. constructor; simpl; [done| |by eexists|].
  - by apply Forall_singleton.
  - intros Hg. split; [by apply Forall_singleton, H3|]. intros e He. rewrite single_row_env in He.
    by apply (matches_linear q H2 v).
Qed.

Lemma from_arms_shape arms : regular_arms arms = true -> Forall (shape 1) (from_arms arms).
Proof.
  intros Hr. apply Forall_forall. intros row (p & g & q & k & Hin & Hq & ->)%from_arms_rows.
  split; [done|]. apply Forall_singleton, (rr_regular _ _ _ (regular_arms_row arms p g q Hr Hin Hq)).
Qed.

(** ** The sequential lowering is the first matching row *)

Definition result_of (x : option (nat * Env)) : MatchResult :=
  match x with Some (i, e) => Selected i (slots e) | None => MatchError end.

Lemma try_alternatives_spec guard v i g alts tl :
  Forall (fun q => width_ok q = true) alts ->
  try_alternatives guard v i g (result_of (first_match guard v tl [v])) alts
  = result_of (first_match guard v (List.map (fun q => PatternRow_new [q] g i) alts ++ tl) [v]).
Proof.
  induction 1 as [|q alts Hq _ IH]; [done|]. cbn [try_alternatives List.map app first_match].
  rewrite (lower_pattern_match_lowers q Hq v), single_row_env.
  destruct (matches q v) as [e|]; simpl; [|exact IH]. destruct (negb g || guard i (slots e)); [done|exact IH].
Qed.

Lemma run_arms_spec guard v i arms :
  Forall (fun arm => Forall (fun q => width_ok q = true) (expand_or_pattern arm.1)) arms ->
  run_arms guard v i arms = result_of (first_match guard v (from_arms_at i arms) [v]).
Proof.
  intros Hall. revert i. induction Hall as [|[p g] arms Hp _ IH]; intros i; [done|].
  cbn [run_arms from_arms_at]. rewrite IH. by apply try_alternatives_spec.
Qed.

Lemma regular_arms_width arms :
  regular_arms arms = true ->
  Forall (fun arm => Forall (fun q => width_ok q = true) (expand_or_pattern arm.1)) arms.
Proof.
  intros Hr. apply Forall_forall. intros [p g] Hin. apply Forall_forall. intros q Hq.
  apply regular_width, (rr_regular _ _ _ (regular_arms_row arms p g q Hr Hin Hq)).
Qed.

Lemma first_match_linear guard v rows i e :
  Forall (fun row => unambiguous v row [v]) rows -> first_match guard v rows [v] = Some (i, e) -> NoDup (e.*1).
Proof.
  induction 1 as [|row rows Hrow _ IH]; [done|]. simpl.
  destruct (row_env v row [v]) as [e'|] eqn:He; [|done].
  destruct (negb _ || _); [|done]. intros [= _ ->]. by apply Hrow.
Qed.

Lemma from_arms_unambiguous arms v :
  regular_arms arms = true -> Forall (fun row => unambiguous v row [v]) (from_arms arms).
Proof.
  intros Hr. apply Forall_forall. intros row (p & g & q & k & Hin & Hq & ->)%from_arms_rows e He.
  rewrite single_row_env in He.
  by apply (matches_linear q (rr_linear _ _ _ (regular_arms_row arms p g q Hr Hin Hq)) v).
Qed.

(** The tree of regular arms runs as the arms in order. *)
Lemma tree_exact guard v arms k t :
  regular_arms arms = true -> compile_matrix k (from_arms arms) [Root] = Done t ->
  run_tree guard v t = run_sequential guard v arms.
Proof.
  intros Hr Ht. unfold run_sequential. rewrite run_arms_spec by by apply regular_arms_width.
  assert (Hdist : distinguishable (arm_ctors arms) = true) by by apply andb_true_iff in Hr as [_ ?].
  assert (Hsel := compile_correct guard v (arm_ctors arms) Hdist (arm_ctors_narrow arms Hr) k
    (from_arms arms) [Root] [v] t (from_arms_ok arms v Hr) eq_refl Ht).
  unfold selects, from_arms in Hsel.
  destruct (first_match guard v (from_arms_at 0 arms) [v]) as [[i e]|] eqn:Hf; [|done].
  destruct Hsel as (e' & Hp & ->). simpl. f_equal. apply slots_perm; [done|]. rewrite Hp.
  eapply first_match_linear; [by apply from_arms_unambiguous|exact Hf].
Qed.

(** ** Total matches *)

(** [analyze_match]: a guardless irrefutable arm keeps [:error] out of the
    signal inferred for the match. *)
Definition total_match (arms : list Arm) : bool :=
  existsb (fun arm => negb arm.2 && is_irrefutable arm.1) arms.

Definition catch_all (row : PatternRow) : Prop :=
  has_guard row = false /\ forallb is_wildcard (patterns row) = true.

Lemma irrefutable_alternative p : is_irrefutable p = true -> exists q, q ∈ expand_or_pattern p /\ is_wildcard q = true.
Proof.
  induction p using HirPattern_nested_ind; simpl; try done; try (intros _; eexists; split; [by left|done]).
  induction H as [|a alts Ha _ IH]; [done|]. simpl. intros [H1|H1]%orb_true_iff.
  - destruct (Ha H1) as (q & Hq & Hw). exists q. split; [|done]. apply elem_of_app. by left.
  - destruct (IH H1) as (q & Hq & Hw). exists q. split; [|done]. apply elem_of_app. by right.
Qed.

Lemma total_catch_all i arms : total_match arms = true -> Exists catch_all (from_arms_at i arms).
Proof.
  revert i. induction arms as [|[p g] arms IH]; intros i; [done|]. simpl. intros [H|H]%orb_true_iff.
  - apply andb_true_iff in H as [Hg%negb_true_iff Hp]. simpl in Hg. subst g.
    destruct (irrefutable_alternative p Hp) as (q & Hq & Hw). apply Exists_app. left.
    apply Exists_exists. exists (PatternRow_new [q] false i). split.
    + apply list_elem_of_In, in_map_iff. exists q. split; [done|by apply list_elem_of_In].
    + split; [done|]. simpl. by rewrite Hw.
  - apply Exists_app. right. by apply IH.
Qed.

Lemma split_catch_all (f : PatternRow -> HirPattern -> list PatternRow) m ps col :
  column m col = Some ps ->
  (forall row p, patterns row !! col = Some p -> catch_all row -> Exists catch_all (f row p)) ->
  Exists catch_all m -> Exists catch_all (concat (zip_with f m ps)).
Proof.
  intros Hps%mapM_Some Hf. induction Hps as [|row p m ps Hp _ IH]; [by intros ?%Exists_nil|].
  simpl. intros [H|H]%Exists_cons; apply Exists_app; [left; by apply Hf|right; by apply IH].
Qed.

Lemma replace_catch_all row col subs bs :
  catch_all row -> forallb is_wildcard subs = true -> catch_all (replace_column row col subs bs).
Proof.
  intros [Hg Hw] Hs. split; [done|]. simpl. rewrite !forallb_app, Hs. rewrite <- (take_drop col (patterns row)) in Hw.
  rewrite forallb_app in Hw. apply andb_true_iff in Hw as [-> Hw]. simpl.
  rewrite <- (Nat.add_1_r col), <- drop_drop. destruct (drop col (patterns row)) as [|p ps]; [done|].
  simpl in *. rewrite drop_0. by apply andb_true_iff in Hw as [_ ->].
Qed.

Lemma catch_all_column row col p : catch_all row -> patterns row !! col = Some p -> is_wildcard p = true.
Proof.
  intros [_ Hw] Hp. rewrite forallb_forall in Hw. by apply Hw, list_elem_of_In, (list_elem_of_lookup_2 _ col).
Qed.

Lemma replicate_wildcards n : forallb is_wildcard (replicate n PWildcard) = true.
Proof. by induction n. Qed.

(** A guardless row of catch-alls survives every split, so no path of the tree
    ends without an arm. *)
Lemma catch_all_never_fails guard v k m A t :
  Exists catch_all m -> compile_matrix k m A = Done t -> run_tree guard v t <> MatchError.
Proof.
  revert m A t. induction k as [|k IH]; intros m A t Hex Hc; [done|].
  destruct m as [|row rows]; [by apply Exists_nil in Hex|].
  destruct (forallb is_wildcard (patterns row)) eqn:Hwild.
  - cbn [compile_matrix compile_step] in Hc. rewrite Hwild in Hc. destruct (has_guard row) eqn:Hg.
    + destruct (compile_matrix k rows A) as [t'| |] eqn:Ht; try done. injection Hc as <-. cbn [run_tree].
      destruct (load_bindings v _) as [e|]; [|done]. destruct (guard _ _); [done|].
      apply Exists_cons in Hex as [[Hg' _]|Hex]; [congruence|]. by apply (IH rows A).
    + injection Hc as <-. cbn [run_tree]. by destruct (load_bindings v _).
  - destruct (compile_switch_inv k row rows A t Hwild Hc) as
      (col & ps & cs & access & cases & d & [-> Hps _ _ Hcases (dm & Hdm & Hd)]).
    rewrite run_switch. destruct (load v access) as [w|]; [|done].
    assert (Hfind := find_case (constructor_test w)
      (fun c t => exists sm, specialize (row :: rows) col c access = Some sm /\
         compile_matrix k sm (expand_access A col access c) = Done t) cs cases Hcases).
    destruct (List.find _ cases) as [[c tc]|].
    + destruct Hfind as (_ & _ & sm & Hsm & Htc). eapply IH; [|exact Htc].
      unfold specialize in Hsm. rewrite Hps in Hsm. injection Hsm as <-.
      apply (split_catch_all _ _ _ col Hps); [|done]. intros r p Hp Hr.
      unfold specialize_row. rewrite (catch_all_column r col p Hr Hp).
      apply Exists_cons. left. apply replace_catch_all; [done|apply replicate_wildcards].
    + assert (Hdm' : Exists catch_all dm).
      { unfold default_matrix in Hdm. rewrite Hps in Hdm. injection Hdm as <-.
        apply (split_catch_all _ _ _ col Hps); [|done]. intros r p Hp Hr.
        unfold default_row. rewrite (catch_all_column r col p Hr Hp).
        apply Exists_cons. left. by apply replace_catch_all. }
      destruct d as [td|]; [by eapply IH|]. subst dm. by apply Exists_nil in Hdm'.
Qed.

(** ** Reachable arms *)

Section TreeInduction.
Context (P : DecisionTree -> Prop).
Context (Pleaf : forall i bs, P (Leaf i bs)) (Pfail : P Fail).
Context (Pswitch : forall a cases d, Forall (fun ct => P ct.2) cases -> from_option P True d -> P (Switch a cases d)).
Context (Pguard : forall i bs t, P t -> P (Guard i bs t)).

Fixpoint DecisionTree_nested_ind (t : DecisionTree) : P t :=
  match t with
  | Leaf i bs => Pleaf i bs
  | Fail => Pfail
  | Switch a cases d =>
      Pswitch a cases d
        ((fix all (cs : list (Constructor * DecisionTree)) : Forall (fun ct => P ct.2) cs :=
            match cs with
            | [] => @List.Forall_nil _ (fun ct => P ct.2)
            | ct :: cs' => @List.Forall_cons _ (fun ct => P ct.2) ct cs' (DecisionTree_nested_ind ct.2) (all cs')
            end) cases)
        (match d with Some t' => DecisionTree_nested_ind t' | None => I end)
  | Guard i bs t' => Pguard i bs t' (DecisionTree_nested_ind t')
  end.

End TreeInduction.

Lemma run_tree_reachable guard v t i s : run_tree guard v t = Selected i s -> i ∈ collect_reachable t.
Proof.
  induction t as [j bs| |a cases d Hcases Hd|j bs t IH] using DecisionTree_nested_ind.
  - simpl. destruct (load_bindings v bs); [|done]. intros [= <- _]. by left.
  - done.
  - rewrite run_switch. simpl. destruct (load v a) as [w|]; [|done]. rewrite elem_of_app.
    destruct (List.find _ cases) as [ct|] eqn:Hf.
    + apply find_some in Hf as [Hin _]. rewrite Forall_forall in Hcases. intros Hr. left.
      apply list_elem_of_In, in_flat_map. exists ct. split; [done|]. apply list_elem_of_In.
      apply Hcases; [by apply list_elem_of_In|done].
    + destruct d as [t'|]; [|done]. intros Hr. right. by apply Hd.
  - simpl. destruct (load_bindings v bs) as [e|]; [|done]. destruct (guard j (slots e)).
    + intros [= <- _]. by left.
    + intros Hr. right. by apply IH.
Qed.

(** ** Properties *)

Definition key (k : string) : PatternKey := KKeyword k.
Definition keyword_pattern (k : string) : HirPattern := PLiteral (LKeyword k).
Definition int_pattern (n : Z) : HirPattern := PLiteral (LInt n).

(** [{:type :circle :radius r}], [{:type :square :side s}], [[x & _] when g],
    [(or 1 2)], [[]], [_]. *)
Definition sample_arms : list Arm :=
  [ (PStruct [(key "type", keyword_pattern "circle"); (key "radius", PVar 1%N)] None, false);
    (PStruct [(key "type", keyword_pattern "square"); (key "side", PVar 2%N)] None, false);
    (PTuple [PVar 3%N] (Some PWildcard), true);
    (POr [int_pattern 1; int_pattern 2], false);
    (PTuple [] None, false);
    (PWildcard, false) ].

Definition square : Value :=
  VStruct [(TKeyword (keyword_hash "side"), VInt 7); (TKeyword (keyword_hash "type"), VKeyword (keyword_hash "square"))].

(** C3: the decision tree is exact.  For every match whose patterns are regular
    and whose constructors are told apart by their tests, compilation yields
    one tree for all fuel beyond some bound, and running that tree selects the
    same arm with the same bindings as trying the arms in order, on every
    scrutinee and under every guard; no read of it raises. *)
Theorem decision_tree_exact (arms : list Arm) :
  regular_arms arms = true ->
  exists t k0,
    (forall k, k0 <= k -> compile_matrix k (from_arms arms) [Root] = Done t) /\
    forall guard v, run_tree guard v t = run_sequential guard v arms /\ run_tree guard v t <> ReadError.
Proof.
  intros Hr. destruct (compile_total 1 (from_arms arms) [Root]) as (t & k0 & Hk); [by apply from_arms_shape|done|].
  exists t, k0. split; [done|]. intros guard v.
  rewrite (tree_exact guard v arms k0 t Hr) by by apply Hk. split; [done|].
  unfold run_sequential. rewrite run_arms_spec by by apply regular_arms_width.
  by destruct (first_match _ _ _ _) as [[]|].
Qed.

Lemma decision_tree_exact_witness :
  regular_arms sample_arms = true /\
  exists t k, compile_matrix k (from_arms sample_arms) [Root] = Done t /\
    run_tree (fun _ _ => true) square t = run_sequential (fun _ _ => true) square sample_arms /\
    run_sequential (fun _ _ => true) square sample_arms = Selected 1 {[2%N := VInt 7]}.
Proof.
  split; [vm_compute; reflexivity|].
  destruct (decision_tree_exact sample_arms) as (t & k0 & Hk & Hrun); [vm_compute; reflexivity|].
  exists t, k0. split; [by apply Hk|]. split; [apply Hrun|vm_compute; reflexivity].
Defined.

(** An arm the compiler rejects as unreachable is unreachable: when the
    compiled tree of a regular match holds no leaf and no guard of an arm, no
    scrutinee and no guard outcome selects that arm in the order of the arms. *)
Theorem unreachable_arms_sound (arms : list Arm) k dead i guard v s :
  regular_arms arms = true -> unreachable_arms k arms = Done dead -> i ∈ dead ->
  run_sequential guard v arms <> Selected i s.
Proof.
  unfold unreachable_arms. intros Hr. destruct (compile_matrix k _ _) as [t| |] eqn:Ht; [|done..].
  intros [= <-] Hi Hrun. rewrite <- (tree_exact guard v arms k t Hr Ht) in Hrun.
  apply list_elem_of_In, filter_In in Hi as [_ Hi]. apply negb_true_iff, bool_decide_eq_false in Hi.
  by apply Hi, (run_tree_reachable guard v t i s).
Qed.

Definition shadowed_arms : list Arm := [(int_pattern 1, false); (PVar 1%N, false); (int_pattern 2, false)].

Lemma unreachable_arms_sound_witness :
  run_sequential (fun _ _ => true) (VInt 2) shadowed_arms <> Selected 2 ∅.
Proof.
  apply (unreachable_arms_sound shadowed_arms 10 [2]); [vm_compute; reflexivity..|by left].
Defined.

(** C32: a match that is typed as total never raises [:match-error]: with a
    guardless irrefutable arm no path of the compiled tree ends without an arm,
    whether or not the match is regular, and on a regular match an arm is
    selected. *)
Theorem total_match_never_fails (arms : list Arm) k t guard v :
  total_match arms = true -> compile_matrix k (from_arms arms) [Root] = Done t ->
  run_tree guard v t <> MatchError /\
  (regular_arms arms = true -> exists i s, run_tree guard v t = Selected i s).
Proof.
  intros Htot Ht.
  assert (Hne : run_tree guard v t <> MatchError).
  { by apply (catch_all_never_fails guard v k (from_arms arms) [Root]); [apply total_catch_all|]. }
  split; [done|]. intros Hr. rewrite (tree_exact guard v arms k t Hr Ht) in *.
  unfold run_sequential in *. rewrite run_arms_spec in * by by apply regular_arms_width.
  destruct (first_match _ _ _ _) as [[i e]|]; [by exists i, (slots e)|done].
Qed.

Lemma total_match_never_fails_witness :
  exists i s, run_sequential (fun _ _ => false) (VArray [VInt 1]) sample_arms = Selected i s.
Proof.
  destruct (compile_matrix 20 (from_arms sample_arms) [Root]) as [t| |] eqn:Ht; [|vm_compute in Ht; discriminate..].
  destruct (total_match_never_fails sample_arms 20 t (fun _ _ => false) (VArray [VInt 1])) as [_ H];
    [vm_compute; reflexivity|exact Ht|].
  destruct H as (i & s & H); [vm_compute; reflexivity|]. exists i, s. rewrite <- H.
  symmetry. apply (tree_exact _ _ _ 20); [vm_compute; reflexivity|exact Ht].
Defined.

(** Compilation terminates on every match, regular or not: beyond some
    fuel the outcome is a tree or a panic and does not change. *)
Theorem compile_terminates (arms : list Arm) :
  exists k0 r, r <> Exhausted /\ forall k, k0 <= k -> compile_matrix k (from_arms arms) [Root] = r.
Proof.
  destruct (compile_ends (from_arms arms) [Root]) as [k0 Hk0]. exists k0, (compile_matrix k0 (from_arms arms) [Root]).
  split; [done|]. intros k Hk. by apply (compile_refines k0 k).
Qed.

(** C33: the sequential lowering of a pattern is what the pattern means: on
    every value the emitted tests and reads bind what [matches] says or branch
    to the failure label, and no read raises, as long as no array pattern has
    65536 elements or more (the index operand is a [u16]). *)
Theorem lower_pattern_match_exact (p : HirPattern) (v : Value) :
  width_ok p = true -> lower_pattern_match p v = of_option (matches p v).
Proof. intros Hw. by apply lower_pattern_match_lowers. Qed.

Lemma lower_pattern_match_exact_witness :
  lower_pattern_match (PStruct [(key "side", PVar 2%N)] (Some (PVar 3%N))) square
  = Bound [(2%N, VInt 7); (3%N, VStruct [(TKeyword (keyword_hash "type"), VKeyword (keyword_hash "square"))])].
Proof. rewrite lower_pattern_match_exact by reflexivity. vm_compute. reflexivity. Defined.

(** ** Outside the regular matches *)

Definition always (_ : nat) (_ : gmap N Value) : bool := true.
Definition never (_ : nat) (_ : gmap N Value) : bool := false.

(** The two lowerings of the same match on the same value. *)
Definition lowerings (guard : nat -> gmap N Value -> bool) (v : Value) (arms : list Arm)
    : outcome MatchResult * MatchResult :=
  (obind (fun t => Done (run_tree guard v t)) (compile_matrix 40 (from_arms arms) [Root]),
   run_sequential guard v arms).

(** C36: an array pattern with a rest hides later arms of overlapping length.
    [[9 & r]] then [[1 2]] on [[1 2]]: the tree commits to the length test of
    the first arm, finds no other row in it and raises [:match-error], while
    the second arm matches; neither arm is reported as unreachable. *)
Theorem array_rest_hides_arm :
  let arms := [(PTuple [int_pattern 9] (Some (PVar 1%N)), false);
               (PTuple [int_pattern 1; int_pattern 2] None, false)] in
  lowerings always (VArray [VInt 1; VInt 2]) arms = (Done MatchError, Selected 1 ∅) /\
  unreachable_arms 40 arms = Done [].
Proof. vm_compute. split; reflexivity. Qed.

(** Alternatives of a nested or-pattern are lost: a catch-all alternative
    ([[(or 1 _)]] on [[2]]), an alternative that is itself an or-pattern
    ([[(or 1 (or 2 3))]] on [[2]]), and the struct rest an alternative binds
    ([[(or {& r} @{& r})]] on [[{}]]), which the body then reads unbound. *)
Theorem nested_alternatives_lost :
  lowerings always (VArray [VInt 2]) [(PTuple [POr [int_pattern 1; PWildcard]] None, false)]
    = (Done MatchError, Selected 0 ∅) /\
  lowerings always (VArray [VInt 2]) [(PTuple [POr [int_pattern 1; POr [int_pattern 2; int_pattern 3]]] None, false)]
    = (Done MatchError, Selected 0 ∅) /\
  lowerings always (VArray [VStruct []])
    [(PTuple [POr [PStruct [] (Some (PVar 1%N)); PTable [] (Some (PVar 1%N))]] None, false)]
    = (Done (Selected 0 ∅), Selected 0 {[1%N := VStruct []]}).
Proof. vm_compute. split; [reflexivity|split; reflexivity]. Qed.

(** A list pattern that is only a rest panics the compiler: [(& r)] is
    given the pair constructor but no sub-patterns, so its row is two columns
    short and the next column selection indexes past its end; the sequential
    lowering binds [r] to the whole value. *)
Theorem bare_list_rest_panics :
  lowerings always (VPair (VInt 2) VEmptyList)
    [(PList [int_pattern 1; PVar 2%N] None, false); (PList [] (Some (PVar 1%N)), false)]
  = (Panicked, Selected 1 {[1%N := VPair (VInt 2) VEmptyList]}).
Proof. vm_compute. reflexivity. Qed.

(** Number literals that are [=] are different cases of a switch.  [1] with
    a guard that fails, then [1.0], on [1]: the tree has committed to the
    integer case and raises [:match-error], while the second arm matches.  A
    repeated key of a struct pattern is tested once: [{:a x :a 1}] accepts
    [{:a 2}] in the tree only. *)
Theorem equal_literals_and_keys_differ :
  lowerings never (VInt 1) [(int_pattern 1, true); (PLiteral (LFloat (i64_as_f64 1)), false)]
    = (Done MatchError, Selected 1 ∅) /\
  lowerings always (VStruct [(TKeyword (keyword_hash "a"), VInt 2)])
    [(PStruct [(key "a", PVar 1%N); (key "a", int_pattern 1)] None, false)]
    = (Done (Selected 0 {[1%N := VInt 2]}), MatchError).
Proof. vm_compute. split; reflexivity. Qed.
