(* ===== verification/BTreeNode.v ===== *)
(** * A node of the sorted store's B-tree

    [value/store/tree/node.rs] and [node/edit.rs].  [@struct] and [@set] keep
    their entries in a B-tree of order 6 whose nodes lie in one extent and name
    each other by index.  The first [len] keys and values of a node are written
    and the rest are never read, so a node holds the list of its written
    entries; its twelve child slots are all there, stale ones included, and the
    edits move them as the source's [copy_within] does.

    An index out of range is the Rust panic, [None]; so is an edit that would
    read or write past a node's entries, a [split] of a node that is not full
    among them.  Comparison of keys is the
    interface [KeyOrder], the order the store asks of a key's [Ord]: two keys
    may compare equal and still be two keys, as a stored key and the one sought
    that lie in different regions are. *)

From stdpp Require Import base numbers list option gmap fin_maps sorting.
From S2P Require Import Prelude.

(** ** Keys *)

Class KeyOrder (K : Type) := {
  cmp : K -> K -> comparison;
  scans : bool;
  cmp_refl a : cmp a a = Eq;
  cmp_congr a b c : cmp a b = Eq -> cmp a c = cmp b c;
  cmp_antisym a b : cmp b a = CompOpp (cmp a b);
  cmp_trans a b c : cmp a b = Lt -> cmp b c = Lt -> cmp a c = Lt }.

Definition B : nat := 6.
Definition CAPACITY : nat := 2 * B - 1.
Definition MIN_LEN : nat := B - 1.

(** [u32::MAX], the index no node has. *)
Definition NONE : N := u32_max.

Section Node.
Context {K V : Type} `{KeyOrder K}.

Record Node := mkNode {
  entries : list (K * V);
  leaf : bool;
  place : nat;
  parent : N;
  children : list N }.

Definition set_entries (n : Node) (es : list (K * V)) : Node :=
  mkNode es (leaf n) (place n) (parent n) (children n).
Definition set_children (n : Node) (cs : list N) : Node :=
  mkNode (entries n) (leaf n) (place n) (parent n) cs.
Definition set_link (n : Node) (p : N) (i : nat) : Node :=
  mkNode (entries n) (leaf n) i p (children n).

Definition blank : Node := mkNode [] true 0 NONE (replicate (CAPACITY + 1) NONE).

Definition node_len (n : Node) : nat := length (entries n).

(** [dst[at..at + src.len()].copy_from_slice(src)], and [copy_within]. *)
Definition copy_into (dst : list N) (at_ : nat) (src : list N) : option (list N) :=
  if at_ + length src <=? length dst
  then Some (take at_ dst ++ src ++ drop (at_ + length src) dst)
  else None.

Definition copy_within (l : list N) (from until dest : nat) : option (list N) :=
  if (from <=? until) && (until <=? length l)
  then copy_into l dest (take (until - from) (drop from l))
  else None.

Definition write_child (l : list N) (at_ : nat) (c : N) : option (list N) :=
  if at_ <? length l then Some (<[at_ := c]> l) else None.

(** [Node::holding]. *)
Definition holding (es : list (K * V)) (kids : option (list N)) : option Node :=
  if length es <=? CAPACITY then
    match kids with
    | None => Some (set_entries blank es)
    | Some ks =>
        cs ← copy_into (children blank) 0 ks;
        Some (mkNode es false 0 NONE cs)
    end
  else None.

Definition orphan (n : Node) : Node := mkNode (entries n) (leaf n) (place n) NONE (children n).

Definition child (n : Node) (i : nat) : option N := children n !! i.

Definition next_free (n : Node) : option N := children n !! 0.

Definition free_node (n : Node) (next : N) : option Node :=
  cs ← write_child (children n) 0 next;
  Some (mkNode [] (leaf n) (place n) (parent n) cs).

(** ** Search *)

(** [Ok(i)] is [(true, i)], [Err(i)] is [(false, i)]. *)
Fixpoint scan (key : K) (i : nat) (keys : list K) : bool * nat :=
  match keys with
  | [] => (false, i)
  | k :: ks =>
      match cmp key k with
      | Gt => scan key (S i) ks
      | Eq => (true, i)
      | Lt => (false, i)
      end
  end.

(** [slice::binary_search]: [size] candidates from [base]. *)
Fixpoint binary_search_loop (key : K) (keys : list K) (fuel base size : nat) : nat :=
  match fuel with
  | O => base
  | S fuel' =>
      if size <=? 1 then base
      else
        let half := size / 2 in
        let mid := base + half in
        let base' := match keys !! mid with
                     | Some k => match cmp k key with Gt => base | _ => mid end
                     | None => base
                     end in
        binary_search_loop key keys fuel' base' (size - half)
  end.

Definition binary_search (key : K) (keys : list K) : bool * nat :=
  match keys with
  | [] => (false, 0)
  | _ :: _ =>
      let base := binary_search_loop key keys (length keys) 0 (length keys) in
      match keys !! base with
      | Some k => match cmp k key with
                  | Eq => (true, base)
                  | Lt => (false, S base)
                  | Gt => (false, base)
                  end
      | None => (false, base)
      end
  end.

Definition search (n : Node) (key : K) : bool * nat :=
  if scans then scan key 0 (entries n).*1 else binary_search key (entries n).*1.

(** ** Edits *)

(** A leaf's children are left where they lie. *)
Definition insert_child (n : Node) (at_ len : nat) (c : N) : option (list N) :=
  if leaf n then Some (children n)
  else cs ← copy_within (children n) at_ (len + 1) (at_ + 1); write_child cs at_ c.

Definition remove_child (n : Node) (at_ len : nat) : option (N * list N) :=
  if leaf n then Some (NONE, children n)
  else
    c ← children n !! at_;
    cs ← copy_within (children n) (at_ + 1) (len + 1) at_;
    Some (c, cs).

Definition node_insert (n : Node) (i : nat) (e : K * V) (right : N) : option Node :=
  let len := node_len n in
  if (i <=? len) && (len <? CAPACITY) then
    cs ← insert_child n (i + 1) len right;
    Some (mkNode (take i (entries n) ++ e :: drop i (entries n)) (leaf n) (place n) (parent n) cs)
  else None.

Definition node_remove (n : Node) (i : nat) : option ((K * V) * N * Node) :=
  let len := node_len n in
  e ← entries n !! i;
  '(c, cs) ← remove_child n (i + 1) len;
  Some (e, c, mkNode (take i (entries n) ++ drop (S i) (entries n)) (leaf n) (place n) (parent n) cs).

Definition node_replace (n : Node) (i : nat) (e : K * V) : option ((K * V) * Node) :=
  displaced ← entries n !! i;
  Some (displaced, set_entries n (<[i := e]> (entries n))).

Definition push_front (n : Node) (e : K * V) (left : N) : option Node :=
  let len := node_len n in
  if len <? CAPACITY then
    cs ← insert_child n 0 len left;
    Some (mkNode (e :: entries n) (leaf n) (place n) (parent n) cs)
  else None.

Definition pop_front (n : Node) : option ((K * V) * N * Node) :=
  let len := node_len n in
  e ← entries n !! 0;
  '(c, cs) ← remove_child n 0 len;
  Some (e, c, mkNode (drop 1 (entries n)) (leaf n) (place n) (parent n) cs).

Definition push_back (n : Node) (e : K * V) (right : N) : option Node :=
  node_insert n (node_len n) e right.

(** [len - 1] of an empty node wraps, and the removal then panics. *)
Definition pop_back (n : Node) : option ((K * V) * N * Node) :=
  match node_len n with O => None | S i => node_remove n i end.

Definition absorb (n : Node) (separator : K * V) (right : Node) : option Node :=
  let len := node_len n in
  let more := node_len right in
  if len + 1 + more <=? CAPACITY then
    cs ← (if leaf n then Some (children n) else copy_into (children n) (len + 1) (take (more + 1) (children right)));
    Some (mkNode (entries n ++ separator :: entries right) (leaf n) (place n) (parent n) cs)
  else None.

(** The children of the upper half of an internal node. *)
Definition split_children (n upper : Node) (i from : nat) (right : N) : option (list N) :=
  if leaf n then Some (children upper)
  else
    let head := if i =? B then 1 else 0 in
    cs ← copy_into (children upper) head (drop (from + head) (children n));
    if i =? B then write_child cs 0 right else Some cs.

(** The node keeps the lower half, [upper] takes the upper half, and the
    middle entry comes back. *)
Definition split (n upper : Node) (i : nat) (e : K * V) (right : N) : option ((K * V) * Node * Node) :=
  if node_len n =? CAPACITY then
    match Nat.compare i B with
    | Lt =>
        middle ← entries n !! (B - 1);
        cs ← split_children n upper i B right;
        lower ← node_insert (set_entries n (take (B - 1) (entries n))) i e right;
        Some (middle, lower, mkNode (drop B (entries n)) (leaf n) (place upper) (parent upper) cs)
    | Eq =>
        cs ← split_children n upper i B right;
        Some (e, set_entries n (take B (entries n)),
              mkNode (drop B (entries n)) (leaf n) (place upper) (parent upper) cs)
    | Gt =>
        middle ← entries n !! B;
        cs ← split_children n upper i (B + 1) right;
        up ← node_insert (mkNode (drop (B + 1) (entries n)) (leaf n) (place upper) (parent upper) cs)
               (i - (B + 1)) e right;
        Some (middle, set_entries n (take B (entries n)), up)
    end
  else None.

End Node.

Arguments Node : clear implicits.
