(* ===== verification/BTree.v ===== *)
(** * The sorted store's B-tree

    [value/store/tree.rs] with [tree/insert.rs], [tree/remove.rs],
    [tree/build.rs] and [tree/iter.rs], and the two stores over it, [set.rs]
    and [structs.rs].

    The nodes lie in one extent, a list here, and name each other by index.  A
    tree edit climbs through the parent links the edits themselves maintain,
    and takes its new nodes from a free list threaded through the first child
    slot.  [None] is a Rust panic: an index outside the extent, a failed
    [assert!] or [expect].

    A loop that follows links gets the number of nodes as fuel, which is one
    step for each node there is: a walk along a path of distinct nodes never
    runs out, and running out is [None] too, so a theorem that answers [Some]
    shows that the loop ends.

    The extent's borrow guards and the claim of room from the region ([room])
    are not part of the model: [append_with] always succeeds here. *)

From stdpp Require Import base numbers list option.
From S2P Require Import Prelude BTreeNode.

Section Tree.
Context {K V : Type} `{KeyOrder K}.

(** ** The extent of nodes *)

(** [nodes[at as usize]]. *)
Definition node_at (nodes : list (Node K V)) (at_ : N) : option (Node K V) :=
  nodes !! N.to_nat at_.

(** [nodes[at as usize] = node]. *)
Definition write_node (nodes : list (Node K V)) (at_ : N) (n : Node K V) : option (list (Node K V)) :=
  _ ← node_at nodes at_; Some (<[N.to_nat at_ := n]> nodes).

(** One child of the node at [at] linked back to it. *)
Definition adopt_one (nodes : list (Node K V)) (at_ : N) (i : nat) : option (list (Node K V)) :=
  n ← node_at nodes at_;
  c ← child n i;
  k ← node_at nodes c;
  write_node nodes c (set_link k at_ i).

Fixpoint adopt_places (nodes : list (Node K V)) (at_ : N) (places : list nat) : option (list (Node K V)) :=
  match places with
  | [] => Some nodes
  | i :: rest => nodes' ← adopt_one nodes at_ i; adopt_places nodes' at_ rest
  end.

(** [Node::adopt(nodes, at, from..=until)]. *)
Definition adopt (nodes : list (Node K V)) (at_ : N) (from until : nat) : option (list (Node K V)) :=
  n ← node_at nodes at_;
  if leaf n then Some nodes else adopt_places nodes at_ (seq from (S until - from)).

Record Tree := mkTree {
  nodes : list (Node K V);
  root : N;
  height : nat;
  free : N;
  tlen : nat }.

Definition from_nodes (ns : list (Node K V)) (r : N) (h len : nat) : Tree := mkTree ns r h NONE len.
Definition empty_tree : Tree := from_nodes [] NONE 0 0.

(** ** Descent *)

Inductive Spot :=
  | Found (at_ : N) (i : nat)
  | Vacant (at_ : N) (i need : nat).

(** [step] folds the state its closure captures. *)
Fixpoint descend {S : Type} (step : S -> Node K V -> nat -> S) (ns : list (Node K V))
    (fuel : nat) (at_ : N) (key : K) (s : S) : option (N * nat * bool * S) :=
  match fuel with
  | O => None
  | S fuel' =>
      n ← node_at ns at_;
      let '(found, i) := search n key in
      let s' := step s n i in
      if found || leaf n then Some (at_, i, found, s')
      else c ← child n i; descend step ns fuel' c key s'
  end.

Definition count_full (full : nat) (n : Node K V) (_ : nat) : nat :=
  if node_len n =? CAPACITY then full + 1 else 0.

Definition locate (t : Tree) (key : K) : option Spot :=
  if tlen t =? 0 then Some (Vacant NONE 0 1)
  else
    '(at_, i, found, full) ← descend count_full (nodes t) (length (nodes t)) (root t) key 0;
    Some (if (found : bool) then Found at_ i
          else Vacant at_ i (full + if full =? height t + 1 then 1 else 0)).

Definition get (t : Tree) (key : K) : option (option V) :=
  if tlen t =? 0 then Some None
  else
    '(at_, i, found, _) ← descend (fun s _ _ => s) (nodes t) (length (nodes t)) (root t) key tt;
    if (found : bool) then n ← node_at (nodes t) at_; e ← entries n !! i; Some (Some e.2)
    else Some None.

(** ** The free list *)

Definition release (ns : list (Node K V)) (fr : N) (at_ : N) : option (list (Node K V) * N) :=
  n ← node_at ns at_;
  n' ← free_node n fr;
  ns' ← write_node ns at_ n';
  Some (ns', at_).

Definition take_free (ns : list (Node K V)) (fr : N) : option (N * N) :=
  if decide (fr = NONE) then None
  else n ← node_at ns fr; next ← next_free n; Some (fr, next).

(** How many of [need] nodes the free list holds. *)
Fixpoint count_free (ns : list (Node K V)) (need : nat) (at_ : N) : option nat :=
  match need with
  | O => Some 0
  | S need' =>
      if decide (at_ = NONE) then Some 0
      else n ← node_at ns at_; next ← next_free n;
           have ← count_free ns need' next; Some (S have)
  end.

Fixpoint release_all (ns : list (Node K V)) (fr : N) (ats : list N) : option (list (Node K V) * N) :=
  match ats with
  | [] => Some (ns, fr)
  | at_ :: rest => '(ns', fr') ← release ns fr at_; release_all ns' fr' rest
  end.

Definition reserve (t : Tree) (need : nat) : option Tree :=
  have ← count_free (nodes t) need (free t);
  if have =? need then Some t
  else
    let added := need - have in
    let start := length (nodes t) in
    if (N.of_nat (start + added) <? NONE)%N then
      '(ns, fr) ← release_all (nodes t ++ replicate added blank) (free t)
                    (N.of_nat <$> seq start added);
      Some (mkTree ns (root t) (height t) fr (tlen t))
    else None.

(** ** Insert and put *)

(** The loop of [store_at]: the new nodes, root, height and free list. *)
Fixpoint store_loop (fuel : nat) (ns : list (Node K V)) (fr : N) (r : N) (h : nat)
    (at_ : N) (i : nat) (e : K * V) (right : N) : option (list (Node K V) * N * nat * N) :=
  match fuel with
  | O => None
  | S fuel' =>
      n ← node_at ns at_;
      if node_len n <? CAPACITY then
        n' ← node_insert n i e right;
        ns1 ← write_node ns at_ n';
        ns2 ← adopt ns1 at_ (i + 1) (node_len n');
        Some (ns2, r, h, fr)
      else
        '(fre, fr1) ← take_free ns fr;
        upper ← node_at ns fre;
        if decide (at_ = fre) then None
        else
          '(mid, lower, upper') ← split n upper i e right;
          ns1 ← write_node ns at_ lower;
          ns2 ← write_node ns1 fre upper';
          ns3 ← adopt ns2 fre 0 (CAPACITY - B);
          ns4 ← adopt ns3 at_ (i + 1) B;
          if decide (parent n = NONE) then
            '(rt, fr2) ← take_free ns4 fr1;
            new ← holding [mid] (Some [at_; fre]);
            ns5 ← write_node ns4 rt new;
            ns6 ← adopt ns5 rt 0 1;
            Some (ns6, rt, h + 1, fr2)
          else store_loop fuel' ns4 fr1 r h (parent n) (place n) mid fre
  end.

Definition store_at (t : Tree) (at_ : N) (i : nat) (e : K * V) : option Tree :=
  if decide (at_ = NONE) then
    '(lf, fr) ← take_free (nodes t) (free t);
    n ← holding [e] None;
    ns ← write_node (nodes t) lf n;
    Some (mkTree ns lf 0 fr (tlen t + 1))
  else
    '(ns, r, h, fr) ← store_loop (length (nodes t)) (nodes t) (free t) (root t) (height t) at_ i e NONE;
    Some (mkTree ns r h fr (tlen t + 1)).

Definition tree_insert (t : Tree) (e : K * V) : option (bool * Tree) :=
  sp ← locate t e.1;
  match sp with
  | Found _ _ => Some (false, t)
  | Vacant at_ i need =>
      t1 ← reserve t need;
      t2 ← store_at t1 at_ i e;
      Some (true, t2)
  end.

Inductive Put (R : Type) :=
  | Edited (r : R)
  | Stored (k : K).

(** [edit] answers and leaves the value edited; [vacant] is the entry the
    closure makes. *)
Definition put {R : Type} (t : Tree) (key : K) (edit : V -> R * V) (vacant : K * V) : option (Put R * Tree) :=
  sp ← locate t key;
  match sp with
  | Found at_ i =>
      n ← node_at (nodes t) at_;
      e ← entries n !! i;
      let '(r, v) := edit e.2 in
      ns ← write_node (nodes t) at_ (set_entries n (<[i := (e.1, v)]> (entries n)));
      Some (Edited R r, mkTree ns (root t) (height t) (free t) (tlen t))
  | Vacant at_ i need =>
      t1 ← reserve t need;
      t2 ← store_at t1 at_ i vacant;
      Some (Stored R vacant.1, t2)
  end.

(** ** Removal *)

Fixpoint right_edge (fuel : nat) (ns : list (Node K V)) (at_ : N) : option N :=
  match fuel with
  | O => None
  | S fuel' =>
      n ← node_at ns at_;
      if leaf n then Some at_ else c ← child n (node_len n); right_edge fuel' ns c
  end.

Definition detach (ns : list (Node K V)) (at_ : N) (i : nat) : option ((K * V) * N * list (Node K V)) :=
  n ← node_at ns at_;
  if leaf n then
    '(e, _, n') ← node_remove n i;
    ns' ← write_node ns at_ n';
    Some (e, at_, ns')
  else
    c ← child n i;
    below ← right_edge (length ns) ns c;
    b ← node_at ns below;
    '(predecessor, _, b') ← pop_back b;
    ns1 ← write_node ns below b';
    n1 ← node_at ns1 at_;
    '(e, n2) ← node_replace n1 i predecessor;
    ns2 ← write_node ns1 at_ n2;
    Some (e, below, ns2).

(** The sibling at [place] of the node [up], when it has an entry to spare. *)
Definition can_spare (ns : list (Node K V)) (sibling : option N) : option bool :=
  match sibling with
  | None => Some false
  | Some s => n ← node_at ns s; Some (MIN_LEN <? node_len n)
  end.

Definition borrow_left (ns : list (Node K V)) (node up left : N) (edge : nat) : option (list (Node K V)) :=
  l ← node_at ns left;
  '(e, c, l') ← pop_back l;
  ns1 ← write_node ns left l';
  u ← node_at ns1 up;
  '(separator, u') ← node_replace u (edge - 1) e;
  ns2 ← write_node ns1 up u';
  n ← node_at ns2 node;
  n' ← push_front n separator c;
  ns3 ← write_node ns2 node n';
  adopt ns3 node 0 (node_len n').

Definition borrow_right (ns : list (Node K V)) (node up right : N) (edge : nat) : option (list (Node K V)) :=
  r ← node_at ns right;
  '(e, c, r') ← pop_front r;
  ns1 ← write_node ns right r';
  ns2 ← adopt ns1 right 0 (node_len r');
  u ← node_at ns2 up;
  '(separator, u') ← node_replace u edge e;
  ns3 ← write_node ns2 up u';
  n ← node_at ns3 node;
  n' ← push_back n separator c;
  ns4 ← write_node ns3 node n';
  adopt ns4 node (node_len n') (node_len n').

(** The node [into] takes the parent's entry at [place] and the sibling after
    it, which goes to the free list. *)
Definition merge (ns : list (Node K V)) (fr : N) (into up : N) (place : nat) : option (list (Node K V) * N) :=
  u ← node_at ns up;
  '(separator, merged, u') ← node_remove u place;
  ns1 ← write_node ns up u';
  ns2 ← adopt ns1 up (place + 1) (node_len u');
  kept ← node_at ns2 into;
  absorbed ← node_at ns2 merged;
  if decide (into = merged) then None
  else
    kept' ← absorb kept separator absorbed;
    ns3 ← write_node ns2 into kept';
    ns4 ← adopt ns3 into (node_len kept + 1) (node_len kept');
    release ns4 fr merged.

Definition finish_root (ns : list (Node K V)) (fr : N) (r : N) (h : nat) (node : N)
    : option (list (Node K V) * N * nat * N) :=
  n ← node_at ns node;
  if 0 <? node_len n then Some (ns, r, h, fr)
  else
    match h with
    | O => '(ns', fr') ← release ns fr node; Some (ns', NONE, 0, fr')
    | S h' =>
        c ← child n 0;
        k ← node_at ns c;
        ns1 ← write_node ns c (orphan k);
        '(ns2, fr') ← release ns1 fr node;
        Some (ns2, c, h', fr')
    end.

Fixpoint refill (fuel : nat) (ns : list (Node K V)) (fr : N) (r : N) (h : nat) (node : N)
    : option (list (Node K V) * N * nat * N) :=
  match fuel with
  | O => None
  | S fuel' =>
      n ← node_at ns node;
      let up := parent n in
      let edge := place n in
      if decide (up = NONE) then finish_root ns fr r h node
      else if MIN_LEN <=? node_len n then Some (ns, r, h, fr)
      else
        u ← node_at ns up;
        left ← (if 0 <? edge then c ← child u (edge - 1); Some (Some c) else Some None);
        right ← (if edge <? node_len u then c ← child u (edge + 1); Some (Some c) else Some None);
        spare_left ← can_spare ns left;
        match left, (spare_left : bool) with
        | Some l, true => ns' ← borrow_left ns node up l edge; Some (ns', r, h, fr)
        | _, _ =>
            spare_right ← can_spare ns right;
            match right, (spare_right : bool) with
            | Some rt, true => ns' ← borrow_right ns node up rt edge; Some (ns', r, h, fr)
            | _, _ =>
                '(ns', fr') ← match left with
                              | Some l => merge ns fr l up (edge - 1)
                              | None => merge ns fr node up edge
                              end;
                refill fuel' ns' fr' r h up
            end
        end
  end.

Definition take_entry (t : Tree) (key : K) : option (option (K * V) * Tree) :=
  sp ← locate t key;
  match sp with
  | Vacant _ _ _ => Some (None, t)
  | Found at_ i =>
      '(taken, lf, ns) ← detach (nodes t) at_ i;
      '(ns', r, h, fr) ← refill (length ns) ns (free t) (root t) (height t) lf;
      Some (Some taken, mkTree ns' r h fr (tlen t - 1))
  end.

(** ** Loading a tree *)

(** [Node::holding] pushed, and its children linked: node [n] of [count]. *)
Definition push_node (ns : list (Node K V)) (es : list (K * V)) (kids : option (list N))
    : option (N * list (Node K V)) :=
  let index := (N.of_nat (length ns) mod 2 ^ 32)%N in
  n ← holding es kids;
  ns' ← adopt (ns ++ [n]) index 0 (length es);
  Some (index, ns').

(** The slice [c[from..from + n]]. *)
Definition slice {A} (l : list A) (from n : nat) : option (list A) :=
  if from + n <=? length l then Some (take n (drop from l)) else None.

(** The nodes [n..n + left] of a level of [n + left], from entry [at] and child
    [child]. *)
Fixpoint load_nodes (left n : nat) (each extra : nat) (level : list (K * V)) (children : option (list N))
    (at_ child : nat) (ns : list (Node K V))
    : option (list (K * V) * list N * list (Node K V)) :=
  match left with
  | O => Some ([], [], ns)
  | S left' =>
      let tk := each + (if n <? extra then 1 else 0) in
      es ← slice level at_ tk;
      kids ← match children with
             | None => Some None
             | Some c => ks ← slice c child (tk + 1); Some (Some ks)
             end;
      '(index, ns1) ← push_node ns es kids;
      match left' with
      | O => Some ([], [index], ns1)
      | S _ =>
          sep ← level !! (at_ + tk);
          '(between, indices, ns2) ←
            load_nodes left' (S n) each extra level children (at_ + tk + 1) (child + tk + 1) ns1;
          Some (sep :: between, index :: indices, ns2)
      end
  end.

Definition load_level (ns : list (Node K V)) (level : list (K * V)) (children : option (list N))
    : option (list (K * V) * list N * list (Node K V)) :=
  let count := (length level + 1 + CAPACITY) / (CAPACITY + 1) in
  let held := length level + 1 - count in
  load_nodes count 0 (held / count) (held mod count) level children 0 0 ns.

Fixpoint load (fuel : nat) (ns : list (Node K V)) (level : list (K * V)) (children : option (list N))
    (h len : nat) : option Tree :=
  match fuel with
  | O => None
  | S fuel' =>
      '(next, parents, ns') ← load_level ns level children;
      match next with
      | [] => r ← parents !! 0; Some (from_nodes ns' r h len)
      | _ :: _ => load fuel' ns' next (Some parents) (h + 1) len
      end
  end.

(** Each level is shorter than the one below it, so its length is fuel enough. *)
Definition tree_new (es : list (K * V)) : option Tree :=
  match es with
  | [] => Some empty_tree
  | _ :: _ => load (length es) [] es None 0 (length es)
  end.

(** ** Iteration *)

Record Iter := mkIter {
  front : N * nat;
  back : N * nat;
  left_ : nat }.

Fixpoint start_of (fuel : nat) (ns : list (Node K V)) (at_ : N) : option (N * nat) :=
  match fuel with
  | O => None
  | S fuel' =>
      n ← node_at ns at_;
      if leaf n then Some (at_, 0) else c ← child n 0; start_of fuel' ns c
  end.

Fixpoint end_of (fuel : nat) (ns : list (Node K V)) (at_ : N) : option (N * nat) :=
  match fuel with
  | O => None
  | S fuel' =>
      n ← node_at ns at_;
      if leaf n then Some (at_, node_len n) else c ← child n (node_len n); end_of fuel' ns c
  end.

Definition iter_new (t : Tree) : option Iter :=
  if 0 <? tlen t then
    f ← start_of (length (nodes t)) (nodes t) (root t);
    b ← end_of (length (nodes t)) (nodes t) (root t);
    Some (mkIter f b (tlen t))
  else Some (mkIter (NONE, 0) (NONE, 0) (tlen t)).

(** The climb of [next], past every node whose entries all came before. *)
Fixpoint climb_front (fuel : nat) (ns : list (Node K V)) (at_ : N) (i : nat) : option (N * nat) :=
  match fuel with
  | O => None
  | S fuel' =>
      n ← node_at ns at_;
      if i =? node_len n then climb_front fuel' ns (parent n) (place n) else Some (at_, i)
  end.

Fixpoint climb_back (fuel : nat) (ns : list (Node K V)) (at_ : N) (i : nat) : option (N * nat) :=
  match fuel with
  | O => None
  | S fuel' =>
      if i =? 0 then n ← node_at ns at_; climb_back fuel' ns (parent n) (place n)
      else Some (at_, i)
  end.

Definition iter_next (t : Tree) (it : Iter) : option (option (K * V) * Iter) :=
  match left_ it with
  | O => Some (None, it)
  | S l =>
      '(at_, i) ← climb_front (length (nodes t)) (nodes t) (front it).1 (front it).2;
      n ← node_at (nodes t) at_;
      f ← (if leaf n then Some (at_, i + 1)
           else c ← child n (i + 1); start_of (length (nodes t)) (nodes t) c);
      e ← entries n !! i;
      Some (Some e, mkIter f (back it) l)
  end.

Definition iter_next_back (t : Tree) (it : Iter) : option (option (K * V) * Iter) :=
  match left_ it with
  | O => Some (None, it)
  | S l =>
      '(at_, i) ← climb_back (length (nodes t)) (nodes t) (back it).1 (back it).2;
      n ← node_at (nodes t) at_;
      b ← (if leaf n then Some (at_, i - 1)
           else c ← child n (i - 1); end_of (length (nodes t)) (nodes t) c);
      e ← entries n !! (i - 1);
      Some (Some e, mkIter (front it) b l)
  end.

End Tree.

Arguments Tree : clear implicits.
