(* ===== verification/BTreeCell.v ===== *)
(** * What a B-tree node holds

    A [Cell] is the part of a node the tree reads: its entries, the indices of
    its children and its link to the parent.  [holds n c] says that the node
    [n], stale child slots included, carries the cell [c].  Each edit of
    [node/edit.rs] is then one equation between cells: an insertion, a removal,
    a move between siblings, a merge, and a split as the cut of the list with
    the entry inserted. *)

From stdpp Require Import base numbers list option.
From S2P Require Import Prelude BTreeNode.

Lemma capacity_is : CAPACITY = 11.
Proof. done. Qed.
Lemma min_len_is : MIN_LEN = 5.
Proof. done. Qed.
Lemma b_is : B = 6.
Proof. done. Qed.
#[global] Opaque CAPACITY MIN_LEN B.

(** [arith]: linear goals about a node's fill. *)
Ltac arith :=
  repeat match goal with
         | H : context [CAPACITY] |- _ => rewrite capacity_is in H
         | H : context [MIN_LEN] |- _ => rewrite min_len_is in H
         | H : context [B] |- _ => rewrite b_is in H
         | |- context [CAPACITY] => rewrite capacity_is
         | |- context [MIN_LEN] => rewrite min_len_is
         | |- context [B] => rewrite b_is
         end;
  repeat (progress (rewrite ?length_app, ?length_take, ?length_drop, ?length_fmap, ?length_replicate, ?length_insert in *)
          || (progress (cbn [length] in *)));
  lia.

(** [exec]: run a sequence of fallible steps whose answers are known. *)
Ltac exec :=
  cbn [mbind option_bind];
  repeat (match goal with E : ?x = Some _ |- context [mbind _ ?x] => rewrite E end; cbn [mbind option_bind]).

(** [unbind]: take apart a sequence of fallible steps that answered. *)
Ltac unbind :=
  repeat match goal with
         | E : mbind _ _ = Some _ |- _ => apply bind_Some in E as (? & ? & E)
         | E : (match ?x with (_, _) => _ end) = Some _ |- _ => destruct x
         | E : (if ?b then _ else _) = Some _ |- _ => destruct b
         | E : None = Some _ |- _ => discriminate E
         end;
  simplify_eq.

(** ** Copies within the child slots *)

Lemma copy_into_spec (a b c src : list N) :
  length src = length b -> copy_into (a ++ b ++ c) (length a) src = Some (a ++ src ++ c).
Proof.
  intros Hl. unfold copy_into. rewrite (proj2 (Nat.leb_le _ _)) by (rewrite !length_app; lia).
  f_equal. rewrite take_app_length. f_equal. f_equal.
  rewrite Hl, drop_app_add. by rewrite drop_app_length.
Qed.

Lemma copy_within_spec (l : list N) (pre src post : list N) (dest : nat) :
  l = pre ++ src ++ post ->
  copy_within l (length pre) (length pre + length src) dest = copy_into l dest src.
Proof.
  intros ->. unfold copy_within.
  rewrite (proj2 (Nat.leb_le _ _)), (proj2 (Nat.leb_le _ _)) by (rewrite ?length_app; lia).
  cbn [andb]. f_equal. rewrite drop_app_length.
  replace (length pre + length src - length pre) with (length src) by lia.
  by rewrite take_app_length.
Qed.

Lemma insert_slot (k1 k2 : list N) (s c : N) (st : list N) :
  (cs ← copy_within (k1 ++ k2 ++ s :: st) (length k1) (length k1 + length k2) (length k1 + 1);
   write_child cs (length k1) c) = Some (k1 ++ c :: k2 ++ st).
Proof.
  rewrite (copy_within_spec _ k1 k2 (s :: st)) by done.
  destruct (k2 ++ s :: st) as [|x rest] eqn:E; [by destruct k2|].
  assert (length rest = length k2 + length st) as Hr
    by (apply (f_equal length) in E; rewrite length_app in E; simpl in E; lia).
  assert (rest = take (length k2) rest ++ st) as Hrest.
  { rewrite <-(take_drop (length k2) rest) at 1. f_equal.
    apply (f_equal (drop (S (length k2)))) in E. simpl in E. rewrite <-E.
    replace (S (length k2)) with (length k2 + 1) by lia. rewrite drop_app_add. done. }
  rewrite Hrest. change (x :: ?l) with ([x] ++ l). rewrite app_assoc.
  replace (length k1 + 1) with (length (k1 ++ [x])) by (rewrite length_app; simpl; lia).
  rewrite copy_into_spec by (rewrite length_take; lia). simpl.
  unfold write_child. rewrite (proj2 (Nat.ltb_lt _ _)) by (rewrite !length_app; simpl; lia).
  f_equal. rewrite <-app_assoc. rewrite insert_app_r_alt, Nat.sub_diag by done. done.
Qed.

Lemma remove_slot (k1 k2 : list N) (x : N) (st : list N) :
  exists st', copy_within (k1 ++ x :: k2 ++ st) (length k1 + 1) (length k1 + 1 + length k2) (length k1)
                = Some (k1 ++ k2 ++ st') /\ length st' = S (length st).
Proof.
  replace (length k1 + 1) with (length (k1 ++ [x])) by (rewrite length_app; simpl; lia).
  rewrite (copy_within_spec _ (k1 ++ [x]) k2 st) by by rewrite <-app_assoc.
  exists (drop (length k2) (x :: k2 ++ st)).
  rewrite <-(take_drop (length k2) (x :: k2 ++ st)) at 1. rewrite copy_into_spec.
  - split; [done|]. rewrite length_drop. simpl. rewrite length_app. lia.
  - rewrite length_take. simpl. rewrite length_app. lia.
Qed.

(** ** Cells *)

Section Cell.
Context {K V : Type} `{KeyOrder K}.

(** A parent's index and a place among its children; [NONE] at the root, where
    the place is stale. *)
Definition link : Type := N * nat.

Record Cell := mkCell {
  c_entries : list (K * V);
  c_kids : list N;
  c_link : link }.

(** A leaf has no children, and an inner node one more than its entries. *)
Definition fitting (es : list (K * V)) {A} (ks : list A) : Prop := ks = [] \/ length ks = S (length es).

Record holds (n : Node K V) (c : Cell) : Prop := {
  holds_entries : entries n = c_entries c;
  holds_leaf : leaf n = match c_kids c with [] => true | _ :: _ => false end;
  holds_parent : parent n = (c_link c).1;
  holds_place : (c_link c).1 <> NONE -> place n = (c_link c).2;
  holds_children : exists stale, children n = c_kids c ++ stale;
  holds_slots : length (children n) = CAPACITY + 1;
  holds_fitting : fitting (c_entries c) (c_kids c);
  holds_fill : length (c_entries c) <= CAPACITY }.

(** The children once [right] stands after the entry inserted at [i]. *)
Definition ins_kid {A} (i : nat) (right : A) (ks : list A) : list A :=
  match ks with [] => [] | _ => take (S i) ks ++ right :: drop (S i) ks end.

Definition ins_entry {A} (i : nat) (e : A) (es : list A) : list A := take i es ++ e :: drop i es.

Lemma length_ins_entry {A} i (e : A) es : length (ins_entry i e es) = S (length es).
Proof. unfold ins_entry. rewrite length_app. simpl. rewrite length_take, length_drop. lia. Qed.

Lemma ins_kid_nil_iff {A} i (r : A) ks : ins_kid i r ks = [] <-> ks = [].
Proof. destruct ks; simpl; split; try done; intros Hn; by destruct ks. Qed.

Lemma length_ins_kid {A} i (r : A) ks : ks <> [] -> length (ins_kid i r ks) = S (length ks).
Proof.
  intros Hne. destruct ks as [|k ks]; [done|]. unfold ins_kid. rewrite length_app. simpl.
  rewrite length_take, length_drop. lia.
Qed.

Lemma fitting_ins {A} es (ks : list A) i e r :
  fitting es ks -> fitting (ins_entry i e es) (ins_kid i r ks).
Proof.
  intros [->|Hl]; [by left|]. right.
  rewrite length_ins_entry, length_ins_kid; [lia|]. by intros ->.
Qed.

Lemma leaf_ins_kid i (r : N) ks :
  match ins_kid i r ks with [] => true | _ :: _ => false end
  = match ks with [] => true | _ :: _ => false end.
Proof. destruct ks as [|k ks]; [done|]. simpl. by destruct ks. Qed.

Lemma fmap_ins_kid {A} (f : A -> N) i r ks : f <$> ins_kid i r ks = ins_kid i (f r) (f <$> ks).
Proof.
  destruct ks as [|k ks]; [done|]. unfold ins_kid at 1. rewrite fmap_app, fmap_cons, fmap_take, fmap_drop. done.
Qed.

(** ** Edits *)

Lemma node_insert_spec n es ks l i e r :
  holds n (mkCell es ks l) -> i <= length es -> length es < CAPACITY ->
  exists n', node_insert n i e r = Some n' /\ holds n' (mkCell (ins_entry i e es) (ins_kid i r ks) l).
Proof.
  intros [He Hl Hp Hpl [st Hst] Hs Hf Hfill] Hi Hlt; cbn [c_entries c_kids c_link] in *.
  unfold node_insert, node_len. rewrite He.
  rewrite (proj2 (Nat.leb_le _ _)), (proj2 (Nat.ltb_lt _ _)) by lia. cbn [andb].
  unfold insert_child. rewrite Hl.
  assert (length (ins_entry i e es) <= CAPACITY) as Hfill' by (rewrite length_ins_entry; lia).
  pose proof (fitting_ins es ks i e r Hf) as Hf'.
  destruct ks as [|k ks].
  - eexists. split; [done|]. split; simpl; eauto.
  - destruct Hf as [|Hf]; [done|]. simpl in Hf.
    assert (exists s st', st = s :: st') as (s & st' & ->).
    { destruct st; [|eauto]. rewrite Hst in Hs. rewrite length_app in Hs. simpl in Hs. lia. }
    assert (S i <= length (k :: ks)) as Hik by (simpl; lia).
    pose proof (insert_slot (take (S i) (k :: ks)) (drop (S i) (k :: ks)) s r st') as Hslot.
    rewrite app_assoc, take_drop, <-Hst, length_take, length_drop, Nat.min_l in Hslot by done.
    replace (S i + (length (k :: ks) - S i)) with (length es + 1) in Hslot by (simpl in *; lia).
    rewrite (Nat.add_1_r i), Hslot. eexists. split; [done|].
    split; simpl in *; eauto.
    + exists st'. by rewrite <-app_assoc.
    + rewrite Hst in Hs. rewrite !length_app in *. simpl in *.
      rewrite length_app in *. simpl in *. rewrite length_take, length_drop. lia.
Qed.

Lemma remove_child_spec n es ks l (i : nat) :
  holds n (mkCell es ks l) -> ks = [] \/ i < length ks ->
  exists cs st, remove_child n i (length es) = Some (default NONE (ks !! i), cs) /\
    cs = take i ks ++ drop (S i) ks ++ st /\ length cs = CAPACITY + 1.
Proof.
  intros [He Hl Hp Hpl [st Hst] Hs Hf Hfill] Hi; cbn [c_entries c_kids c_link] in *.
  unfold remove_child. rewrite Hl. destruct ks as [|k ks].
  - exists (children n), (children n). rewrite take_nil, drop_nil. done.
  - destruct Hi as [|Hi]; [done|]. destruct Hf as [|Hf]; [done|].
    destruct (lookup_lt_is_Some_2 _ _ Hi) as [x Hx].
    pose proof (take_drop_middle _ _ _ Hx) as Hsplit.
    destruct (remove_slot (take i (k :: ks)) (drop (S i) (k :: ks)) x st) as (st' & Hrm & Hst').
    assert (take i (k :: ks) ++ x :: drop (S i) (k :: ks) ++ st = children n) as Hch.
    { rewrite Hst, app_comm_cons, app_assoc. by rewrite Hsplit. }
    rewrite Hch, length_take, length_drop, Nat.min_l in Hrm by lia.
    replace (i + 1 + (length (k :: ks) - S i)) with (length es + 1) in Hrm by lia.
    rewrite Hst, lookup_app_l by done. rewrite Hx. cbn [mbind option_bind].
    rewrite <-Hst, Hrm. cbn [mbind option_bind].
    eexists _, _. split_and!; [done..|].
    rewrite <-Hs, <-Hch, !length_app. simpl. rewrite length_app. lia.
Qed.

Lemma fitting_remove {A} es1 e es2 (ks : list A) i :
  fitting (es1 ++ e :: es2) ks -> ks = [] \/ i < length ks -> fitting (es1 ++ es2) (take i ks ++ drop (S i) ks).
Proof.
  intros [->|Hl]; [by left; rewrite take_nil, drop_nil|]. intros [->|Hi]; [done|]. right.
  rewrite length_app in Hl. simpl in Hl. rewrite !length_app, length_take, length_drop. lia.
Qed.

Lemma leaf_remove (es : list (K * V)) (ks : list N) i :
  fitting es ks -> es <> [] -> ks = [] \/ i < length ks ->
  match take i ks ++ drop (S i) ks with [] => true | _ :: _ => false end
  = match ks with [] => true | _ :: _ => false end.
Proof.
  intros Hf Hne Hi. destruct (decide (ks = [])) as [->|Hk]; [by rewrite take_nil, drop_nil|].
  destruct Hf as [|Hl]; [done|]. destruct Hi as [|Hi]; [done|].
  assert (take i ks ++ drop (S i) ks <> []) as Hn.
  { intros Hn. apply (f_equal length) in Hn. rewrite length_app, length_take, length_drop in Hn.
    destruct es; [done|]. simpl in *. lia. }
  destruct ks; [done|]. by destruct (take _ _ ++ _).
Qed.

(** The node without the entry at [j], whose child at [i] is gone. *)
Lemma holds_without n es1 e es2 ks l i cs st :
  holds n (mkCell (es1 ++ e :: es2) ks l) -> ks = [] \/ i < length ks ->
  cs = take i ks ++ drop (S i) ks ++ st -> length cs = CAPACITY + 1 ->
  holds (mkNode (es1 ++ es2) (leaf n) (place n) (parent n) cs) (mkCell (es1 ++ es2) (take i ks ++ drop (S i) ks) l).
Proof.
  intros [He Hl Hp Hpl Hst Hs Hf Hfill] Hi Hcs Hlen; cbn [c_entries c_kids c_link] in *.
  split; simpl; eauto.
  - rewrite Hl. symmetry. eapply leaf_remove; eauto. by destruct es1.
  - exists st. by rewrite <-app_assoc.
  - by eapply fitting_remove.
  - rewrite length_app in *. simpl in *. lia.
Qed.

Lemma node_remove_spec n es1 e es2 ks l :
  holds n (mkCell (es1 ++ e :: es2) ks l) ->
  exists n', node_remove n (length es1) = Some (e, default NONE (ks !! S (length es1)), n') /\
    holds n' (mkCell (es1 ++ es2) (take (S (length es1)) ks ++ drop (S (S (length es1))) ks) l).
Proof.
  intros Hh. pose proof (holds_entries _ _ Hh) as He. pose proof (holds_fitting _ _ Hh) as Hf.
  cbn [c_entries c_kids] in *.
  assert (ks = [] \/ S (length es1) < length ks) as Hi.
  { destruct Hf as [->|Hf]; [by left|right]. rewrite length_app in Hf. simpl in Hf. lia. }
  destruct (remove_child_spec n _ ks l (S (length es1)) Hh Hi) as (cs & st & Hrm & Hcs & Hlen).
  unfold node_remove, node_len. rewrite He, Nat.add_1_r.
  rewrite list_lookup_middle by done. cbn [mbind option_bind]. rewrite Hrm. cbn [mbind option_bind].
  eexists. split; [done|]. rewrite take_app_length, (cons_middle e es1 es2), app_assoc.
  rewrite drop_app_length' by (rewrite length_app; simpl; lia).
  by eapply holds_without.
Qed.

Lemma pop_front_spec n e es ks l :
  holds n (mkCell (e :: es) ks l) ->
  exists n', pop_front n = Some (e, default NONE (ks !! 0), n') /\ holds n' (mkCell es (drop 1 ks) l).
Proof.
  intros Hh. pose proof (holds_entries _ _ Hh) as He. pose proof (holds_fitting _ _ Hh) as Hf.
  cbn [c_entries c_kids] in *.
  assert (ks = [] \/ 0 < length ks) as Hi by (destruct Hf as [->|Hf]; [by left|right; lia]).
  destruct (remove_child_spec n _ ks l 0 Hh Hi) as (cs & st & Hrm & Hcs & Hlen).
  unfold pop_front, node_len. rewrite He. cbn [lookup list_lookup mbind option_bind].
  rewrite Hrm. cbn [mbind option_bind]. eexists. split; [done|].
  apply (holds_without n [] e es ks l 0 cs st); done.
Qed.

Lemma pop_back_spec n es e ks l :
  holds n (mkCell (es ++ [e]) ks l) ->
  exists n', pop_back n = Some (e, default NONE (ks !! S (length es)), n') /\
    holds n' (mkCell es (take (S (length es)) ks) l).
Proof.
  intros Hh. unfold pop_back, node_len. rewrite (holds_entries _ _ Hh). cbn [c_entries].
  rewrite length_app, Nat.add_1_r.
  destruct (node_remove_spec n es e [] ks l Hh) as (n' & Hrm & Hn').
  exists n'. split; [done|]. pose proof (holds_fitting _ _ Hh) as Hf. cbn in Hf.
  rewrite app_nil_r, (drop_ge ks), app_nil_r in Hn'; [done|].
  destruct Hf as [->|Hf]; [simpl; lia|]. rewrite length_app in Hf. simpl in Hf. lia.
Qed.

Lemma node_replace_spec n es1 e es2 ks l e' :
  holds n (mkCell (es1 ++ e :: es2) ks l) ->
  exists n', node_replace n (length es1) e' = Some (e, n') /\ holds n' (mkCell (es1 ++ e' :: es2) ks l).
Proof.
  intros [He Hl Hp Hpl Hst Hs Hf Hfill]; cbn [c_entries c_kids c_link] in *.
  unfold node_replace. rewrite He, list_lookup_middle by done. cbn [mbind option_bind].
  eexists. split; [done|].
  rewrite insert_app_r_alt, Nat.sub_diag by done. cbn [insert list_insert].
  split; simpl; eauto.
  - destruct Hf as [|Hf]; [by left|right]. rewrite length_app in *. done.
  - rewrite length_app in *. done.
Qed.

Lemma push_front_spec n es ks l e c :
  holds n (mkCell es ks l) -> length es < CAPACITY ->
  exists n', push_front n e c = Some n' /\
    holds n' (mkCell (e :: es) (match ks with [] => [] | _ :: _ => c :: ks end) l).
Proof.
  intros [He Hl Hp Hpl [st Hst] Hs Hf Hfill] Hlt; cbn [c_entries c_kids c_link] in *.
  unfold push_front, node_len. rewrite He, (proj2 (Nat.ltb_lt _ _)) by done.
  unfold insert_child. rewrite Hl. destruct ks as [|k ks].
  - eexists. split; [done|]. split; simpl; eauto. by left.
  - destruct Hf as [|Hf]; [done|].
    destruct st as [|s st]; [rewrite Hst, app_nil_r in Hs; lia|].
    pose proof (insert_slot [] (k :: ks) s c st) as Hslot.
    cbn [app] in Hslot. cbn [app] in Hst. rewrite <-Hst in Hslot. cbn [length Nat.add] in Hslot.
    replace (S (length ks)) with (length es + 1) in Hslot by (simpl in *; lia).
    cbn [Nat.add]. rewrite Hslot. eexists. split; [done|]. split; simpl; eauto.
    + rewrite Hst in Hs. simpl in *. rewrite length_app in *. simpl in *. lia.
    + right. simpl in *. lia.
Qed.

Lemma push_back_spec n es ks l e c :
  holds n (mkCell es ks l) -> length es < CAPACITY ->
  exists n', push_back n e c = Some n' /\
    holds n' (mkCell (es ++ [e]) (match ks with [] => [] | _ :: _ => ks ++ [c] end) l).
Proof.
  intros Hh Hlt. unfold push_back, node_len. rewrite (holds_entries _ _ Hh). cbn [c_entries].
  destruct (node_insert_spec n es ks l (length es) e c Hh) as (n' & Hn & Hn'); [done..|].
  exists n'. split; [done|]. pose proof (holds_fitting _ _ Hh) as Hf. cbn in Hf.
  unfold ins_entry, ins_kid in Hn'. rewrite firstn_all, drop_all in Hn'.
  destruct ks as [|k ks]; [done|]. destruct Hf as [|Hf]; [done|].
  rewrite <-Hf, firstn_all, drop_all in Hn'. done.
Qed.

Lemma absorb_spec n m es1 ks1 l1 es2 ks2 l2 e :
  holds n (mkCell es1 ks1 l1) -> holds m (mkCell es2 ks2 l2) ->
  length es1 + 1 + length es2 <= CAPACITY -> (ks1 = [] <-> ks2 = []) ->
  exists n', absorb n e m = Some n' /\ holds n' (mkCell (es1 ++ e :: es2) (ks1 ++ ks2) l1).
Proof.
  intros [He Hl Hp Hpl [st Hst] Hs Hf Hfill] [He2 Hl2 _ _ [st2 Hst2] Hs2 Hf2 _] Hle Hsame;
    cbn [c_entries c_kids c_link] in *.
  unfold absorb, node_len. rewrite He, He2, (proj2 (Nat.leb_le _ _)) by done. rewrite Hl.
  destruct ks1 as [|k ks1].
  - rewrite (proj1 Hsame eq_refl). eexists. split; [done|]. split; simpl; eauto.
    + by left.
    + rewrite length_app. simpl. lia.
  - destruct ks2 as [|k2 ks2]; [discriminate (proj2 Hsame eq_refl)|].
    destruct Hf as [|Hf]; [done|]. destruct Hf2 as [|Hf2]; [done|].
    rewrite Hst2, !Nat.add_1_r, <-Hf2, take_app_length, <-Hf.
    rewrite Hst, <-(take_drop (length (k2 :: ks2)) st). rewrite copy_into_spec.
    + eexists. split; [done|]. split; simpl; eauto.
      * eexists. by rewrite <-app_assoc.
      * rewrite Hst in Hs. rewrite !length_app in *. simpl in *.
        rewrite ?length_app, ?length_drop in *. simpl in *. lia.
      * right. simpl. rewrite !length_app. simpl in *. lia.
      * rewrite length_app. simpl. lia.
    + rewrite Hst in Hs. rewrite length_app in Hs. rewrite length_take, Nat.min_l; simpl in *; lia.
Qed.

(** ** Split *)

Lemma take_ins_le {A} i j (e : A) es :
  i <= j -> j <= length es -> take (S j) (ins_entry i e es) = ins_entry i e (take j es).
Proof.
  intros Hi Hj. unfold ins_entry. rewrite take_app, length_take, Nat.min_l by lia.
  rewrite (take_ge (take i es)) by (rewrite length_take; lia).
  rewrite take_take, Nat.min_l, skipn_firstn_comm by done. f_equal.
  by replace (S j - i) with (S (j - i)) by lia.
Qed.

Lemma drop_ins_le {A} i j (e : A) es :
  i <= j -> j <= length es -> drop (S j) (ins_entry i e es) = drop j es.
Proof.
  intros Hi Hj. unfold ins_entry. rewrite drop_app, length_take, Nat.min_l by lia.
  rewrite (drop_ge (take i es)) by (rewrite length_take; lia).
  replace (S j - i) with (S (j - i)) by lia. simpl. rewrite drop_drop. f_equal. lia.
Qed.

Lemma take_ins_ge {A} i j (e : A) es :
  j <= i -> i <= length es -> take j (ins_entry i e es) = take j es.
Proof.
  intros Hi Hj. unfold ins_entry. rewrite take_app, length_take, Nat.min_l by lia.
  replace (j - i) with 0 by lia. by rewrite take_0, app_nil_r, take_take, Nat.min_l.
Qed.

Lemma drop_ins_ge {A} i j (e : A) es :
  j <= i -> i <= length es -> drop j (ins_entry i e es) = ins_entry (i - j) e (drop j es).
Proof.
  intros Hi Hj. unfold ins_entry. rewrite drop_app, length_take, Nat.min_l by lia.
  replace (j - i) with 0 by lia. rewrite drop_0, skipn_firstn_comm, drop_drop.
  by replace (j + (i - j)) with i by lia.
Qed.

Lemma ins_kid_entry {A} i (r : A) ks : ks <> [] -> ins_kid i r ks = ins_entry (S i) r ks.
Proof. by destruct ks. Qed.

Lemma holds_truncate n es ks l j :
  holds n (mkCell es ks l) -> j <= length es ->
  holds (set_entries n (take j es)) (mkCell (take j es) (take (S j) ks) l).
Proof.
  intros [He Hl Hp Hpl [st Hst] Hs Hf Hfill] Hj; cbn [c_entries c_kids c_link] in *.
  split; simpl; eauto.
  - rewrite Hl. by destruct ks.
  - exists (drop (S j) ks ++ st). by rewrite app_assoc, take_drop.
  - destruct Hf as [->|Hf]; [by left|right]. rewrite !length_take. lia.
  - rewrite length_take. lia.
Qed.

(** The upper half takes the entries from [from] and the children [cs]. *)
Lemma holds_upper n (upper : Node K V) es ks l from cs ks' st :
  holds n (mkCell es ks l) -> cs = ks' ++ st -> length cs = CAPACITY + 1 ->
  (ks = [] <-> ks' = []) -> fitting (drop from es) ks' ->
  holds (mkNode (drop from es) (leaf n) (place upper) (parent upper) cs)
        (mkCell (drop from es) ks' (parent upper, place upper)).
Proof.
  intros [He Hl Hp Hpl Hst Hs Hf Hfill] -> Hlen Hks Hf'; cbn [c_entries c_kids c_link] in *.
  split; simpl; eauto.
  - rewrite Hl. destruct ks, ks'; try done; exfalso; [by discriminate (proj1 Hks eq_refl)|by discriminate (proj2 Hks eq_refl)].
  - rewrite length_drop. lia.
Qed.

(** The children the upper half starts with. *)
Lemma split_children_spec n (upper : Node K V) es ks l i from r :
  holds n (mkCell es ks l) -> length es = CAPACITY -> length (children upper) = CAPACITY + 1 ->
  from <= CAPACITY ->
  exists cs st, split_children n upper i from r = Some cs /\ length cs = CAPACITY + 1 /\
    cs = (match ks with
          | [] => []
          | _ :: _ => if i =? B then r :: drop (S from) ks else drop from ks
          end) ++ st.
Proof.
  intros [He Hl Hp Hpl [st Hst] Hs Hf Hfill] Hlen Hup Hfrom; cbn [c_entries c_kids c_link] in *.
  unfold split_children. rewrite Hl. destruct ks as [|k ks]; [by eexists _, _|].
  destruct Hf as [|Hf]; [done|].
  assert (st = []) as -> by (rewrite Hst, length_app in Hs; apply nil_length_inv; lia).
  rewrite app_nil_r in Hst. rewrite Hst. unfold copy_into.
  rewrite (proj2 (Nat.leb_le _ _)) by (rewrite length_drop, Hup, Hf; destruct (i =? B); lia).
  destruct (i =? B).
  - cbn [mbind option_bind]. unfold write_child.
    destruct (children upper) as [|u us] eqn:Eu; [simpl in Hup; lia|].
    rewrite (proj2 (Nat.ltb_lt _ _)) by (simpl; lia).
    eexists _, _. split; [done|]. rewrite Nat.add_1_r. simpl take. cbn [app insert list_insert].
    rewrite take_0. cbn [app]. split; [|done].
    simpl length. rewrite length_app, !length_drop. simpl in *. lia.
  - cbn [mbind option_bind]. rewrite Nat.add_0_r, take_0. cbn [app Nat.add].
    eexists _, _. split; [done|]. split; [|done]. rewrite length_app, !length_drop. lia.
Qed.

(** The cut of a full node: the list with [e] in it, divided around its
    seventh entry. *)
Definition cut (n upper : Node K V) es ks l i e r : Prop :=
  exists mid lower up, split n upper i e r = Some (mid, lower, up) /\
    drop B (ins_entry i e es) = mid :: drop (S B) (ins_entry i e es) /\
    holds lower (mkCell (take B (ins_entry i e es)) (take (S B) (ins_kid i r ks)) l) /\
    holds up (mkCell (drop (S B) (ins_entry i e es)) (drop (S B) (ins_kid i r ks))
                     (parent upper, place upper)).

Section Split.
Context (n upper : Node K V) (es : list (K * V)) (ks : list N) (l : link) (e : K * V) (r : N).
Hypothesis Hh : holds n (mkCell es ks l).
Hypothesis Hlen : length es = CAPACITY.
Hypothesis Hup : length (children upper) = CAPACITY + 1.

Lemma kids_full : ks = [] \/ length ks = 12.
Proof. destruct (holds_fitting _ _ Hh); cbn in *; [by left|right; arith]. Qed.

(** The entry itself goes up. *)
Lemma split_eq : cut n upper es ks l B e r.
Proof.
  pose proof kids_full as Hks. unfold cut, split, node_len.
  rewrite (holds_entries _ _ Hh); cbn [c_entries]. rewrite Hlen, Nat.eqb_refl, Nat.compare_refl.
  destruct (split_children_spec n upper es ks l B B r Hh Hlen Hup) as (cs & st & Hcs & Hcl & Hceq); [arith|].
  rewrite Hcs. cbn [mbind option_bind]. eexists _, _, _. split; [done|].
  rewrite take_ins_ge, drop_ins_ge, Nat.sub_diag by arith.
  rewrite drop_ins_le by arith. split; [done|].
  assert (take (S B) (ins_kid B r ks) = take (S B) ks) as ->.
  { destruct Hks as [->|Hks]; [done|]. rewrite ins_kid_entry by by intros ->.
    apply take_ins_ge; arith. }
  assert (drop (S B) (ins_kid B r ks) = match ks with [] => [] | _ :: _ => r :: drop (S B) ks end) as ->.
  { destruct Hks as [->|Hks]; [done|]. rewrite ins_kid_entry by by intros ->.
    rewrite drop_ins_ge, Nat.sub_diag by arith. by destruct ks. }
  split; [apply holds_truncate; [done|arith]|].
  rewrite Nat.eqb_refl in Hceq.
  eapply holds_upper; [done|exact Hceq|done|by destruct ks|].
  destruct Hks as [->|Hks]; [by left|right]. destruct ks; [done|]. arith.
Qed.

(** It goes into the lower half. *)
Lemma split_lt i : i < B -> cut n upper es ks l i e r.
Proof.
  intros Hlt. pose proof kids_full as Hks. unfold cut, split, node_len.
  rewrite (holds_entries _ _ Hh); cbn [c_entries].
  rewrite Hlen, Nat.eqb_refl, (proj2 (Nat.compare_lt_iff _ _) Hlt).
  destruct (split_children_spec n upper es ks l i B r Hh Hlen Hup) as (cs & st & Hcs & Hcl & Hceq); [arith|].
  destruct (lookup_lt_is_Some_2 es (B - 1)) as [mid Hmid]; [arith|].
  rewrite Hmid. cbn [mbind option_bind]. rewrite Hcs. cbn [mbind option_bind].
  destruct (node_insert_spec (set_entries n (take (B - 1) es)) (take (B - 1) es) (take (S (B - 1)) ks) l i e r)
    as (lower & Hlow & Hlow'); [apply holds_truncate; [done|arith]|arith|arith|].
  rewrite Hlow. cbn [mbind option_bind]. eexists _, _, _. split; [done|].
  assert (S (B - 1) = B) as HB by arith. rewrite HB in Hlow'.
  rewrite <-HB at 1 3. rewrite drop_ins_le, take_ins_le by arith.
  rewrite drop_ins_le by arith.
  split; [by rewrite (drop_S _ _ _ Hmid), HB|].
  rewrite (proj2 (Nat.eqb_neq _ _)) in Hceq by lia.
  destruct Hks as [->|Hks].
  + split; [done|]. eapply holds_upper; [done|exact Hceq|done|done|by left].
  + rewrite ins_kid_entry in Hlow' by (intros Hn; apply (f_equal length) in Hn; arith).
    rewrite ins_kid_entry by by intros ->.
    rewrite take_ins_le, drop_ins_le by arith. split; [done|].
    assert (match ks with [] => [] | _ :: _ => drop B ks end = drop B ks) as Hm by by destruct ks.
    rewrite Hm in Hceq.
    eapply holds_upper; [done|exact Hceq|done| |right; arith].
    split; intros Hn; apply (f_equal length) in Hn; arith.
Qed.

(** It goes into the upper half. *)
Lemma split_gt i : B < i -> i <= CAPACITY -> cut n upper es ks l i e r.
Proof.
  intros Hgt Hi. pose proof kids_full as Hks. unfold cut, split, node_len.
  rewrite (holds_entries _ _ Hh); cbn [c_entries].
  rewrite Hlen, Nat.eqb_refl, (proj2 (Nat.compare_gt_iff _ _) Hgt).
  destruct (split_children_spec n upper es ks l i (B + 1) r Hh Hlen Hup) as (cs & st & Hcs & Hcl & Hceq); [arith|].
  destruct (lookup_lt_is_Some_2 es B) as [mid Hmid]; [arith|].
  rewrite Hmid. cbn [mbind option_bind]. rewrite Hcs. cbn [mbind option_bind].
  rewrite (proj2 (Nat.eqb_neq _ _)) in Hceq by lia. rewrite Nat.add_1_r in *.
  assert (holds (mkNode (drop (S B) es) (leaf n) (place upper) (parent upper) cs)
            (mkCell (drop (S B) es) (drop (S B) ks) (parent upper, place upper))) as Hu.
  { eapply holds_upper; [done| |done| |].
    - rewrite Hceq. by destruct ks.
    - split; [by intros ->; rewrite drop_nil|]. intros Hn.
      destruct Hks as [|Hks]; [done|]. apply (f_equal length) in Hn. arith.
    - destruct Hks as [->|Hks]; [left; by rewrite drop_nil|right; arith]. }
  destruct (node_insert_spec _ _ _ _ (i - S B) e r Hu) as (up & Hins & Hup'); [arith|arith|].
  rewrite Hins. cbn [mbind option_bind]. eexists _, _, _. split; [done|].
  rewrite take_ins_ge, !drop_ins_ge by arith.
  split_and!.
  + rewrite (drop_S _ _ _ Hmid). unfold ins_entry.
    replace (i - B) with (S (i - S B)) by lia. done.
  + replace (take (S B) (ins_kid i r ks)) with (take (S B) ks).
    * apply holds_truncate; [done|arith].
    * destruct Hks as [->|Hks]; [done|]. rewrite ins_kid_entry by by intros ->.
      symmetry. apply take_ins_ge; arith.
  + replace (drop (S B) (ins_kid i r ks)) with (ins_kid (i - S B) r (drop (S B) ks)); [done|].
    destruct Hks as [->|Hks]; [by rewrite drop_nil|].
    rewrite !ins_kid_entry, drop_ins_ge by first [arith|intros Hn; apply (f_equal length) in Hn; arith].
    f_equal. lia.
Qed.

Lemma split_spec i : i <= CAPACITY -> cut n upper es ks l i e r.
Proof.
  intros Hi. destruct (Nat.lt_trichotomy i B) as [|[->|]];
    [by apply split_lt|apply split_eq|by apply split_gt].
Qed.

End Split.

End Cell.

Arguments Cell : clear implicits.
