(* ===== verification/BTreeArena.v ===== *)
(** * The arena of a B-tree: nodes, free list and the tree they spell

    The abstract tree [GTree] names each node by its index.  [cells] lists what
    every node of a tree must hold, and [arena ns cs fl] says that the extent
    [ns] holds exactly the cells [cs], disjoint from the free list [fl], and
    that no node is lost.  Cells are taken up to permutation, so an edit of one
    node is one step on the cell it is about and leaves the rest framed.  A
    context [list Frame] is the path from a node up to the root: the climb of an
    edit through the parent links is a walk along it. *)

From stdpp Require Import base numbers option list.
From S2P Require Import Prelude BTreeNode BTree BTreeCell.

Section Arena.
Context {K V : Type} `{KeyOrder K}.

(** ** Abstract trees and contexts *)

Inductive GTree := GNode (id : N) (es : list (K * V)) (ks : list GTree).

Definition gid (t : GTree) : N := let 'GNode id _ _ := t in id.
Definition ges (t : GTree) : list (K * V) := let 'GNode _ es _ := t in es.
Definition gks (t : GTree) : list GTree := let 'GNode _ _ ks := t in ks.

Record Frame := mkFrame {
  f_id : N;
  f_es : list (K * V);
  f_left : list GTree;
  f_right : list GTree }.

Definition fill (f : Frame) (t : GTree) : GTree := GNode (f_id f) (f_es f) (f_left f ++ t :: f_right f).

Fixpoint plug (t : GTree) (c : list Frame) : GTree :=
  match c with [] => t | f :: c' => plug (fill f t) c' end.

(** The link of the node that stands in the hole. *)
Definition hole_link (c : list Frame) : link :=
  match c with [] => (NONE, 0) | f :: _ => (f_id f, length (f_left f)) end.

(** ** Cells *)

Fixpoint cells (l : link) (t : GTree) : list (N * Cell K V) :=
  let 'GNode id es ks := t in
  (id, mkCell es (gid <$> ks) l) ::
    (fix go (j : nat) (ks : list GTree) : list (N * Cell K V) :=
       match ks with [] => [] | k :: ks' => cells (id, j) k ++ go (S j) ks' end) 0 ks.

Fixpoint forest (id : N) (j : nat) (ks : list GTree) : list (N * Cell K V) :=
  match ks with [] => [] | k :: ks' => cells (id, j) k ++ forest id (S j) ks' end.

Lemma cells_unfold l id es ks :
  cells l (GNode id es ks) = (id, mkCell es (gid <$> ks) l) :: forest id 0 ks.
Proof. simpl. f_equal. generalize 0. induction ks as [|k ks IH]; intros j; [done|]. simpl. by rewrite IH. Qed.

Lemma forest_app id j ks1 ks2 : forest id j (ks1 ++ ks2) = forest id j ks1 ++ forest id (j + length ks1) ks2.
Proof.
  revert j. induction ks1 as [|k ks1 IH]; intros j; simpl; [by rewrite Nat.add_0_r|].
  rewrite IH, <-app_assoc. by replace (S j + length ks1) with (j + S (length ks1)) by lia.
Qed.

(** Subtrees whose links are still those of an earlier place. *)
Fixpoint loose (ls : list link) (ks : list GTree) : list (N * Cell K V) :=
  match ls, ks with l :: ls', k :: ks' => cells l k ++ loose ls' ks' | _, _ => [] end.

Lemma forest_loose id j ks : forest id j ks = loose ((fun i => (id, i)) <$> seq j (length ks)) ks.
Proof. revert j. induction ks as [|k ks IH]; intros j; simpl; [done|]. by rewrite IH. Qed.

Lemma loose_app ls1 ls2 ks1 ks2 :
  length ls1 = length ks1 -> loose (ls1 ++ ls2) (ks1 ++ ks2) = loose ls1 ks1 ++ loose ls2 ks2.
Proof.
  revert ks1. induction ls1 as [|l ls1 IH]; intros [|k ks1] Hl; simpl in *; try done.
  rewrite IH by lia. by rewrite app_assoc.
Qed.

(** The cells around the hole, which names the subtree [hole]. *)
Fixpoint around (hole : N) (c : list Frame) : list (N * Cell K V) :=
  match c with
  | [] => []
  | f :: c' =>
      (f_id f, mkCell (f_es f) ((gid <$> f_left f) ++ hole :: (gid <$> f_right f)) (hole_link c'))
        :: forest (f_id f) 0 (f_left f) ++ forest (f_id f) (S (length (f_left f))) (f_right f)
        ++ around (f_id f) c'
  end.

Lemma cells_plug t c : cells (NONE, 0) (plug t c) ≡ₚ cells (hole_link c) t ++ around (gid t) c.
Proof.
  revert t. induction c as [|f c IH]; intros t; simpl plug; [by rewrite app_nil_r|].
  rewrite IH. unfold fill. rewrite cells_unfold. simpl around. cbn [gid hole_link].
  rewrite fmap_app, fmap_cons, forest_app. cbn [forest].
  replace (0 + length (f_left f)) with (length (f_left f)) by lia. solve_Permutation.
Qed.

(** ** The arena *)

Definition next_of (fl : list N) : N := match fl with [] => NONE | x :: _ => x end.

Fixpoint chain (ns : list (Node K V)) (fl : list N) : Prop :=
  match fl with
  | [] => True
  | x :: fl' =>
      (exists n, node_at ns x = Some n /\ length (children n) = CAPACITY + 1 /\
                 next_free n = Some (next_of fl')) /\ chain ns fl'
  end.

Definition occupied (ns : list (Node K V)) (ic : N * Cell K V) : Prop :=
  exists n, node_at ns ic.1 = Some n /\ holds n ic.2.

Record arena (ns : list (Node K V)) (cs : list (N * Cell K V)) (fl : list N) : Prop := {
  arena_nodup : NoDup (cs.*1 ++ fl);
  arena_cells : Forall (occupied ns) cs;
  arena_chain : chain ns fl;
  arena_size : (N.of_nat (length ns) < NONE)%N;
  arena_count : length ns = length cs + length fl }.

#[global] Instance arena_perm ns : Proper ((≡ₚ) ==> eq ==> iff) (arena ns).
Proof.
  assert (forall cs cs' fl, cs ≡ₚ cs' -> arena ns cs fl -> arena ns cs' fl) as Himp.
  { intros cs cs' fl Hp [Hnd Hc Hch Hs Hn]. split; try done.
    - by rewrite <-Hp.
    - by rewrite <-Hp.
    - by rewrite <-Hp. }
  intros cs cs' Hp fl ? <-. split; apply Himp; done.
Qed.

Lemma node_at_lt (ns : list (Node K V)) x n : node_at ns x = Some n -> (x < N.of_nat (length ns))%N.
Proof. intros Hx. apply lookup_lt_Some in Hx. lia. Qed.

Lemma node_at_write (ns ns' : list (Node K V)) x y n :
  write_node ns x n = Some ns' -> node_at ns' y = if decide (x = y) then Some n else node_at ns y.
Proof.
  unfold write_node, node_at. destruct (ns !! N.to_nat x) eqn:Hx; [|done]. intros [= <-].
  destruct (decide (x = y)) as [->|Hne].
  - apply list_lookup_insert_eq. by eapply lookup_lt_Some.
  - apply list_lookup_insert_ne. lia.
Qed.

Lemma write_node_length (ns ns' : list (Node K V)) x n : write_node ns x n = Some ns' -> length ns' = length ns.
Proof. unfold write_node. destruct (node_at ns x); [|done]. intros [= <-]. apply length_insert. Qed.

Lemma write_node_some (ns : list (Node K V)) x n m : node_at ns x = Some m -> exists ns', write_node ns x n = Some ns'.
Proof. intros Hx. unfold write_node. rewrite Hx. eauto. Qed.

Lemma chain_write ns ns' fl x n : write_node ns x n = Some ns' -> x ∉ fl -> chain ns fl -> chain ns' fl.
Proof.
  intros Hw. induction fl as [|y fl IH]; [done|]. intros Hx [(m & Hm & Hc & Hn) Hch]. simpl.
  rewrite not_elem_of_cons in Hx. destruct Hx as [Hne Hx]. split; [|by apply IH].
  exists m. rewrite (node_at_write _ _ _ _ _ Hw), decide_False by done. done.
Qed.

Lemma occupied_write ns ns' cs x n :
  write_node ns x n = Some ns' -> x ∉ cs.*1 -> Forall (occupied ns) cs -> Forall (occupied ns') cs.
Proof.
  intros Hw Hx Hc. rewrite Forall_forall in *. intros [y c] Hin. destruct (Hc _ Hin) as (m & Hm & Hh).
  exists m. rewrite (node_at_write _ _ _ _ _ Hw), decide_False; [done|]. intros ->.
  apply Hx, list_elem_of_fmap. by exists (y, c).
Qed.

Lemma arena_head ns id c cs fl : arena ns ((id, c) :: cs) fl -> exists n, node_at ns id = Some n /\ holds n c.
Proof. intros Ha. pose proof (arena_cells _ _ _ Ha) as Hc. rewrite Forall_cons in Hc. apply Hc. Qed.

Lemma arena_id_ne ns id c cs fl : arena ns ((id, c) :: cs) fl -> id <> NONE.
Proof.
  intros Ha ->. destruct (arena_head _ _ _ _ _ Ha) as (n & Hn & _). apply node_at_lt in Hn.
  pose proof (arena_size _ _ _ Ha). lia.
Qed.

(** One node rewritten. *)
Lemma arena_write ns id c cs fl n' c' :
  arena ns ((id, c) :: cs) fl -> holds n' c' ->
  exists ns', write_node ns id n' = Some ns' /\ arena ns' ((id, c') :: cs) fl.
Proof.
  intros Ha Hn'. destruct (arena_head _ _ _ _ _ Ha) as (n & Hn & _).
  destruct (write_node_some ns id n' n Hn) as [ns' Hw]. exists ns'. split; [done|].
  destruct Ha as [Hnd Hc Hch Hs Hl]. cbn in Hnd. rewrite NoDup_cons, not_elem_of_app in Hnd.
  rewrite Forall_cons in Hc. destruct Hc as [_ Hc]. destruct Hnd as [[Hid Hif] Hnd]. split.
  - cbn. rewrite NoDup_cons, not_elem_of_app. done.
  - rewrite Forall_cons. split; [|by eapply occupied_write].
    exists n'. cbn. by rewrite (node_at_write _ _ _ _ _ Hw), decide_True.
  - by eapply chain_write.
  - by rewrite (write_node_length _ _ _ _ Hw).
  - by rewrite (write_node_length _ _ _ _ Hw).
Qed.

(** A node goes to the free list. *)
Lemma arena_release ns id c cs fl :
  arena ns ((id, c) :: cs) fl ->
  exists ns', release ns (next_of fl) id = Some (ns', id) /\ arena ns' cs (id :: fl).
Proof.
  intros Ha. destruct (arena_head _ _ _ _ _ Ha) as (n & Hn & Hh).
  pose proof (holds_slots _ _ Hh) as Hsl.
  unfold release. rewrite Hn. cbn [mbind option_bind]. unfold free_node, write_child.
  rewrite (proj2 (Nat.ltb_lt _ _)) by arith. cbn [mbind option_bind].
  set (n' := mkNode _ _ _ _ _).
  destruct (write_node_some ns id n' n Hn) as [ns' Hw]. rewrite Hw. cbn [mbind option_bind].
  exists ns'. split; [done|].
  destruct Ha as [Hnd Hc Hch Hs Hl]. cbn in Hnd. rewrite NoDup_cons, not_elem_of_app in Hnd.
  rewrite Forall_cons in Hc. destruct Hc as [_ Hc]. destruct Hnd as [[Hid Hif] Hnd]. split.
  - rewrite <-Permutation_middle, NoDup_cons, not_elem_of_app. done.
  - by eapply occupied_write.
  - split; [|by eapply chain_write]. exists n'.
    rewrite (node_at_write _ _ _ _ _ Hw), decide_True by done. split_and!; [done| |].
    + unfold n'. cbn [children]. by rewrite length_insert.
    + unfold n', next_free. cbn [children]. apply list_lookup_insert_eq. arith.
  - by rewrite (write_node_length _ _ _ _ Hw).
  - rewrite (write_node_length _ _ _ _ Hw), Hl. simpl. lia.
Qed.

(** A free node is taken, and then written. *)
Lemma arena_take ns cs x fl :
  arena ns cs (x :: fl) ->
  take_free ns x = Some (x, next_of fl) /\
  (exists n, node_at ns x = Some n /\ length (children n) = CAPACITY + 1) /\
  (forall id c, (id, c) ∈ cs -> id <> x).
Proof.
  intros [Hnd Hc Hch Hs Hl]. destruct Hch as [(n & Hn & Hsl & Hnx) Hch]. split_and!.
  - unfold take_free. rewrite decide_False by (apply node_at_lt in Hn; lia).
    rewrite Hn. cbn [mbind option_bind]. by rewrite Hnx.
  - eauto.
  - intros id c Hin ->. apply NoDup_app in Hnd as (_ & Hnd & _). apply (Hnd x); [|left].
    apply list_elem_of_fmap. by exists (x, c).
Qed.

Lemma arena_claim ns cs x fl n' c' :
  arena ns cs (x :: fl) -> holds n' c' ->
  exists ns', write_node ns x n' = Some ns' /\ arena ns' ((x, c') :: cs) fl.
Proof.
  intros Ha Hh. destruct (arena_take _ _ _ _ Ha) as (_ & (n & Hn & _) & _).
  destruct (write_node_some ns x n' n Hn) as [ns' Hw]. exists ns'. split; [done|].
  destruct Ha as [Hnd Hc Hch Hs Hl]. rewrite <-Permutation_middle, NoDup_cons, not_elem_of_app in Hnd.
  destruct Hnd as [[Hid Hif] Hnd]. destruct Hch as [_ Hch]. split.
  - cbn. rewrite NoDup_cons, not_elem_of_app. done.
  - rewrite Forall_cons. split; [|by eapply occupied_write].
    exists n'. cbn. by rewrite (node_at_write _ _ _ _ _ Hw), decide_True.
  - by eapply chain_write.
  - by rewrite (write_node_length _ _ _ _ Hw).
  - rewrite (write_node_length _ _ _ _ Hw), Hl. simpl. lia.
Qed.

(** ** Links *)

Definition below (t : GTree) : list (N * Cell K V) := forest (gid t) 0 (gks t).

Definition cell_of (t : GTree) (l : link) : Cell K V := mkCell (ges t) (gid <$> gks t) l.

Lemma cells_head l t : cells l t = (gid t, cell_of t l) :: below t.
Proof. destruct t. apply cells_unfold. Qed.

Lemma set_link_holds (n : Node K V) es ks l p i :
  holds n (mkCell es ks l) -> holds (set_link n p i) (mkCell es ks (p, i)).
Proof. intros []; split; simpl in *; eauto. Qed.

Lemma orphan_holds (n : Node K V) es ks l i :
  holds n (mkCell es ks l) -> holds (orphan n) (mkCell es ks (NONE, i)).
Proof. intros []; split; simpl in *; eauto. done. Qed.

Lemma holds_child (n : Node K V) es ks l i c : holds n (mkCell es ks l) -> ks !! i = Some c -> child n i = Some c.
Proof.
  intros Hh Hi. destruct (holds_children _ _ Hh) as [st Hst]. cbn in Hst. unfold child.
  rewrite Hst. by apply lookup_app_l_Some.
Qed.

Lemma adopt_one_spec ns id es kids l lk k rest fl j :
  arena ns ((id, mkCell es kids l) :: cells lk k ++ rest) fl -> kids !! j = Some (gid k) ->
  exists ns', adopt_one ns id j = Some ns' /\ arena ns' ((id, mkCell es kids l) :: cells (id, j) k ++ rest) fl.
Proof.
  intros Ha Hj. destruct (arena_head _ _ _ _ _ Ha) as (n & Hn & Hh).
  unfold adopt_one. rewrite Hn. cbn [mbind option_bind]. rewrite (holds_child _ _ _ _ _ _ Hh Hj).
  cbn [mbind option_bind]. rewrite cells_head in Ha. cbn [app] in Ha.
  rewrite perm_swap in Ha.
  destruct (arena_head _ _ _ _ _ Ha) as (m & Hm & Hmh). rewrite Hm. cbn [mbind option_bind].
  destruct (arena_write _ _ _ _ _ _ _ Ha (set_link_holds _ _ _ _ id j Hmh)) as (ns' & Hw & Ha').
  exists ns'. split; [done|]. rewrite cells_head. cbn [app].
  by rewrite perm_swap.
Qed.

Lemma adopt_places_spec id es kids l rest fl km : forall ls ns j,
  arena ns ((id, mkCell es kids l) :: loose ls km ++ rest) fl -> length ls = length km ->
  take (length km) (drop j kids) = gid <$> km ->
  exists ns', adopt_places ns id (seq j (length km)) = Some ns' /\
    arena ns' ((id, mkCell es kids l) :: forest id j km ++ rest) fl.
Proof.
  revert rest. induction km as [|k km IH]; intros rest [|lk ls] ns j Ha Hl Ht; simpl in Hl; try lia.
  { simpl in *. eauto. }
  simpl length in *. simpl seq. simpl adopt_places. simpl loose in Ha. rewrite <-app_assoc in Ha.
  assert (kids !! j = Some (gid k)) as Hj.
  { apply (f_equal (fun x => x !! 0)) in Ht. rewrite lookup_take_lt, lookup_drop, Nat.add_0_r in Ht by lia. done. }
  destruct (adopt_one_spec _ _ _ _ _ _ _ _ _ _ Ha Hj) as (ns1 & -> & Ha1). cbn [mbind option_bind].
  destruct (IH (cells (id, j) k ++ rest) ls ns1 (S j)) as (ns2 & -> & Ha2); [|lia| |].
  - revert Ha1. apply arena_perm; [|done]. solve_Permutation.
  - rewrite (drop_S _ _ _ Hj) in Ht. simpl in Ht. by inversion Ht.
  - exists ns2. split; [done|]. simpl forest. revert Ha2. apply arena_perm; [|done]. solve_Permutation.
Qed.

(** [Node::adopt] over the children [km] from place [a] on. *)
Lemma adopt_spec ns id es kids l rest fl a b ls km :
  arena ns ((id, mkCell es kids l) :: loose ls km ++ rest) fl -> length ls = length km ->
  take (length km) (drop a kids) = gid <$> km ->
  (kids <> [] -> S b - a = length km) ->
  exists ns', adopt ns id a b = Some ns' /\ arena ns' ((id, mkCell es kids l) :: forest id a km ++ rest) fl.
Proof.
  intros Ha Hl Ht Hlen. destruct (arena_head _ _ _ _ _ Ha) as (n & Hn & Hh).
  unfold adopt. rewrite Hn. cbn [mbind option_bind]. rewrite (holds_leaf _ _ Hh). cbn [c_kids].
  destruct kids as [|c kids].
  - rewrite drop_nil, take_nil in Ht. destruct km; [|done]. destruct ls; [|done]. simpl in *. eauto.
  - rewrite Hlen by done. by eapply adopt_places_spec.
Qed.

(** ** Fuel: a path has no more nodes than there are *)

Lemma around_length hole c : length c <= length (around hole c).
Proof.
  revert hole. induction c as [|f c IH]; intros hole; simpl; [lia|].
  specialize (IH (f_id f)). rewrite !length_app. lia.
Qed.

Lemma path_fuel ns t c l fl : arena ns (cells l t ++ around (gid t) c) fl -> length c < length ns.
Proof.
  intros Ha. rewrite (arena_count _ _ _ Ha), length_app, cells_head. simpl.
  pose proof (around_length (gid t) c). lia.
Qed.

(** ** Reserve *)

Lemma arena_free_ne ns cs x fl : arena ns cs (x :: fl) -> x <> NONE.
Proof.
  intros Ha. destruct (arena_take _ _ _ _ Ha) as (Ht & _). unfold take_free in Ht. by case_decide.
Qed.

Lemma chain_app_r (ns more : list (Node K V)) fl : chain ns fl -> chain (ns ++ more) fl.
Proof.
  induction fl as [|x fl IH]; [done|]. intros [(n & Hn & Hr) Hch]. split; [|by apply IH].
  exists n. split; [|done]. by apply lookup_app_l_Some.
Qed.

Lemma count_free_spec ns need fl :
  chain ns fl -> Forall (fun x => x <> NONE) fl ->
  count_free ns need (next_of fl) = Some (min need (length fl)).
Proof.
  revert fl. induction need as [|need IH]; intros fl Hch Hne; [done|]. simpl.
  destruct fl as [|x fl]; [by rewrite decide_True|]. rewrite Forall_cons in Hne. destruct Hne as [Hx Hne].
  destruct Hch as [(n & Hn & _ & Hnx) Hch]. cbn [next_of]. rewrite decide_False by done.
  rewrite Hn. cbn [mbind option_bind]. rewrite Hnx. cbn [mbind option_bind]. rewrite IH by done. done.
Qed.

Lemma blank_holds : holds (@blank K V) (mkCell [] [] (NONE, 0)).
Proof.
  split; simpl; eauto; try lia. by left.
Qed.

Lemma chain_ids ns fl : chain ns fl -> Forall (fun x => (x < N.of_nat (length ns))%N) fl.
Proof.
  induction fl as [|x fl IH]; [done|]. intros [(n & Hn & _) Hch].
  constructor; [by eapply node_at_lt|by apply IH].
Qed.

Lemma arena_ids ns cs fl : arena ns cs fl -> Forall (fun x => (x < N.of_nat (length ns))%N) (cs.*1 ++ fl).
Proof.
  intros [_ Hc Hch _ _]. apply Forall_app. split; [|by apply chain_ids].
  apply Forall_fmap. eapply Forall_impl; [exact Hc|]. intros [x c] (n & Hn & _). by eapply node_at_lt.
Qed.

Lemma arena_free_nones ns cs fl : arena ns cs fl -> Forall (fun x => x <> NONE) fl.
Proof.
  intros Ha. pose proof (arena_size _ _ _ Ha) as Hs. pose proof (arena_ids _ _ _ Ha) as Hi.
  rewrite Forall_app in Hi. eapply Forall_impl; [apply Hi|]. intros x Hx. simpl in Hx. lia.
Qed.

Lemma arena_elem_ne ns cs fl id c : arena ns cs fl -> (id, c) ∈ cs -> id <> NONE.
Proof.
  intros Ha Hin. pose proof (arena_size _ _ _ Ha) as Hs. pose proof (arena_ids _ _ _ Ha) as Hi.
  rewrite Forall_app, Forall_fmap, (Forall_forall _ cs) in Hi. destruct Hi as [Hi _]. apply Hi in Hin. simpl in Hin. lia.
Qed.

(** The node above the hole. *)
Lemma arena_frame_ne ns cs fl hole f c : arena ns (cs ++ around hole (f :: c)) fl -> f_id f <> NONE.
Proof.
  intros Ha. eapply arena_elem_ne; [exact Ha|]. apply elem_of_app. right. left.
Qed.

Lemma occupied_app_r (ns more : list (Node K V)) ic : occupied ns ic -> occupied (ns ++ more) ic.
Proof. intros (n & Hn & Hh). exists n. split; [|done]. by apply lookup_app_l_Some. Qed.

Definition blank_cell (i : nat) : N * Cell K V := (N.of_nat i, mkCell [] [] (NONE, 0)).

(** Blank nodes appended to the extent. *)
Lemma arena_append ns cs fl n :
  arena ns cs fl -> (N.of_nat (length ns + n) < NONE)%N ->
  arena (ns ++ replicate n blank) ((blank_cell <$> seq (length ns) n) ++ cs) fl.
Proof.
  intros Ha Hlt. pose proof (arena_ids _ _ _ Ha) as Hids. destruct Ha as [Hnd Hc Hch Hs Hl]. split.
  - rewrite fmap_app, <-list_fmap_compose, <-app_assoc, NoDup_app. split_and!; [| |done].
    + apply (NoDup_fmap_2 (fun i => N.of_nat i)), NoDup_seq.
    + intros x Hx Hin. apply list_elem_of_fmap in Hx as (i & -> & Hi). apply elem_of_seq in Hi.
      rewrite Forall_forall in Hids. apply Hids in Hin. simpl in Hin. lia.
  - apply Forall_app. split; [|eapply Forall_impl; [exact Hc|]; intros ic; apply occupied_app_r].
    apply Forall_fmap, Forall_forall. intros i Hi. apply elem_of_seq in Hi.
    exists blank. split; [|apply blank_holds]. unfold node_at. cbn.
    rewrite Nat2N.id, lookup_app_r by lia. apply lookup_replicate. split; [done|lia].
  - by apply chain_app_r.
  - rewrite length_app, length_replicate. done.
  - rewrite !length_app, length_fmap, length_seq, length_replicate. lia.
Qed.

Lemma release_all_spec ns cs fl ids :
  arena ns ((blank_cell <$> ids) ++ cs) fl ->
  exists ns' fl', release_all ns (next_of fl) (N.of_nat <$> ids) = Some (ns', next_of fl') /\
    arena ns' cs fl' /\ length fl' = length ids + length fl.
Proof.
  revert ns fl. induction ids as [|i ids IH]; intros ns fl Ha; simpl; [eauto|].
  destruct (arena_release _ _ _ _ _ Ha) as (ns1 & -> & Ha1). cbn [mbind option_bind].
  destruct (IH ns1 (N.of_nat i :: fl) Ha1) as (ns2 & fl2 & Hr & Ha2 & Hl). exists ns2, fl2.
  split_and!; [exact Hr|done|]. simpl in Hl. lia.
Qed.

(** The free list holds [need] nodes afterwards, and the cells are untouched. *)
Lemma reserve_spec ns r h len cs fl need :
  arena ns cs fl -> (N.of_nat (length cs + need) < NONE)%N ->
  exists ns' fl', reserve (mkTree ns r h (next_of fl) len) need = Some (mkTree ns' r h (next_of fl') len) /\
    arena ns' cs fl' /\ need <= length fl' /\ length ns' <= max (length ns) (length cs + need).
Proof.
  intros Ha Hlt. unfold reserve. cbn [nodes free root height tlen].
  rewrite (count_free_spec ns need fl); [|by apply arena_chain in Ha|by eapply arena_free_nones].
  cbn [mbind option_bind]. pose proof (arena_count _ _ _ Ha) as Hn.
  destruct (min need (length fl) =? need) eqn:E.
  - apply Nat.eqb_eq in E. exists ns, fl. split_and!; [done..|lia|lia].
  - apply Nat.eqb_neq in E. rewrite Nat.min_r by lia.
    rewrite (proj2 (N.ltb_lt _ _)) by lia.
    destruct (release_all_spec _ _ _ _ (arena_append ns cs fl (need - length fl) Ha ltac:(lia)))
      as (ns' & fl' & -> & Ha' & Hl). cbn [mbind option_bind].
    rewrite length_seq in Hl. exists ns', fl'. split_and!; [done..|lia|].
    rewrite (arena_count _ _ _ Ha'). lia.
Qed.

(** ** New nodes *)

Lemma holding_spec (es : list (K * V)) (ks : list N) :
  length es <= CAPACITY -> fitting es ks ->
  exists n, holding es (match ks with [] => None | _ :: _ => Some ks end) = Some n /\
    holds n (mkCell es ks (NONE, 0)).
Proof.
  intros Hl Hf. unfold holding. rewrite (proj2 (Nat.leb_le _ _)) by done. destruct ks as [|k ks].
  - eexists. split; [done|]. split; simpl; eauto.
  - destruct Hf as [|Hf]; [done|]. cbn [children blank].
    assert (replicate (CAPACITY + 1) NONE
            = [] ++ replicate (length (k :: ks)) NONE ++ replicate (CAPACITY + 1 - length (k :: ks)) NONE) as ->.
    { rewrite <-replicate_add. cbn [app]. f_equal. arith. }
    rewrite (copy_into_spec [] _ _ (k :: ks)) by by rewrite length_replicate.
    cbn [mbind option_bind]. eexists. split; [done|]. split; simpl; eauto.
    + rewrite length_app, length_replicate. arith.
    + by right.
Qed.

End Arena.

Arguments GTree : clear implicits.
Arguments Frame : clear implicits.

(** [reorder H]: the goal is the arena of [H] with its cells in another order. *)
Ltac reorder H := revert H; apply arena_perm; [|done]; solve_Permutation.
