(* ===== verification/BTreeShape.v ===== *)
(** * Shape and contents of a B-tree

    [flat] is the entries of a tree in order, and [lflat]/[rflat] those before
    and after the hole of a context, so that the contents of a tree are what
    comes before the node in focus, the node's own, and what comes after.  [wf]
    is the shape: every leaf at the same depth, one more child than entries,
    and a fill between [MIN_LEN] and [CAPACITY] below the root. *)

From stdpp Require Import base numbers option list sorting.
From S2P Require Import Prelude BTreeNode BTree BTreeCell BTreeArena.

Section Shape.
Context {K V : Type}.

(** ** Contents *)

(** Subtrees each followed by a separator, and each preceded by one. *)
Definition befores {E} (es : list E) (fs : list (list E)) : list E :=
  concat (zip_with (fun f e => f ++ [e]) fs es).
Definition afters {E} (es : list E) (fs : list (list E)) : list E :=
  concat (zip_with (fun e f => e :: f) es fs).

Definition weave {E} (es : list E) (fs : list (list E)) : list E :=
  match fs with [] => es | f :: fs' => f ++ afters es fs' end.

Fixpoint flat (t : GTree K V) : list (K * V) := let 'GNode _ es ks := t in weave es (flat <$> ks).

Fixpoint lflat (c : list (Frame K V)) : list (K * V) :=
  match c with
  | [] => []
  | f :: c' => lflat c' ++ befores (take (length (f_left f)) (f_es f)) (flat <$> f_left f)
  end.

Fixpoint rflat (c : list (Frame K V)) : list (K * V) :=
  match c with
  | [] => []
  | f :: c' => afters (drop (length (f_left f)) (f_es f)) (flat <$> f_right f) ++ rflat c'
  end.

Lemma afters_app {E} (es1 es2 : list E) fs1 fs2 :
  length es1 = length fs1 -> afters (es1 ++ es2) (fs1 ++ fs2) = afters es1 fs1 ++ afters es2 fs2.
Proof. intros Hl. unfold afters. by rewrite zip_with_app, concat_app. Qed.

Lemma befores_app {E} (es1 es2 : list E) fs1 fs2 :
  length es1 = length fs1 -> befores (es1 ++ es2) (fs1 ++ fs2) = befores es1 fs1 ++ befores es2 fs2.
Proof. intros Hl. unfold befores. by rewrite zip_with_app, concat_app. Qed.

Lemma afters_cons {E} (e : E) es f fs : afters (e :: es) (f :: fs) = e :: weave es (f :: fs).
Proof. done. Qed.

Lemma weave_mid {E} (es : list E) fs1 f fs2 :
  length es = length fs1 + length fs2 ->
  weave es (fs1 ++ f :: fs2) = befores (take (length fs1) es) fs1 ++ f ++ afters (drop (length fs1) es) fs2.
Proof.
  revert es. induction fs1 as [|g fs1 IH]; intros es Hl; simpl in *; [done|].
  destruct es as [|e es]; [simpl in Hl; lia|]. simpl in Hl. cbn [take drop length].
  destruct (fs1 ++ f :: fs2) as [|x xs] eqn:E1; [by destruct fs1|].
  rewrite afters_cons, IH by lia. unfold befores. simpl. by rewrite <-!app_assoc.
Qed.

(** An entry between two woven lists. *)
Lemma weave_app {E} (es1 es2 : list E) e fs1 fs2 :
  (fs1 = [] /\ fs2 = []) \/ (length fs1 = S (length es1) /\ fs2 <> []) ->
  weave (es1 ++ e :: es2) (fs1 ++ fs2) = weave es1 fs1 ++ e :: weave es2 fs2.
Proof.
  intros [[-> ->]|[Hl Hne]]; [done|]. destruct fs1 as [|f fs1]; [done|]. destruct fs2 as [|g fs2]; [done|].
  simpl in *. rewrite afters_app by lia. rewrite afters_cons. by rewrite <-app_assoc.
Qed.

(** What lies on either side of an entry of a node. *)
Lemma weave_at {E} (es1 es2 : list E) e fs :
  fs = [] \/ length fs = S (length (es1 ++ e :: es2)) ->
  weave (es1 ++ e :: es2) fs
  = weave es1 (take (S (length es1)) fs) ++ e :: weave es2 (drop (S (length es1)) fs).
Proof.
  intros Hf. rewrite <-(take_drop (S (length es1)) fs) at 1. apply weave_app.
  destruct Hf as [->|Hf]; [by left|right]. rewrite length_app in Hf. simpl in Hf.
  split; [rewrite length_take; lia|]. intros E1. apply (f_equal length) in E1. rewrite length_drop in E1. simpl in E1. lia.
Qed.

(** ** Shape *)

Fixpoint wf (h : nat) (t : GTree K V) : Prop :=
  length (ges t) <= CAPACITY /\
  match h with
  | O => gks t = []
  | S h' => length (gks t) = S (length (ges t)) /\
            Forall (fun k => MIN_LEN <= length (ges k) /\ wf h' k) (gks t)
  end.

(** A subtree below the root. *)
Definition sub (h : nat) (t : GTree K V) : Prop := MIN_LEN <= length (ges t) /\ wf h t.

(** The least fill of the node in the hole. *)
Definition low (c : list (Frame K V)) : nat := match c with [] => 1 | _ :: _ => MIN_LEN end.

Fixpoint cwf (h : nat) (c : list (Frame K V)) : Prop :=
  match c with
  | [] => True
  | f :: c' =>
      length (f_es f) <= CAPACITY /\ low c' <= length (f_es f) /\
      length (f_es f) = length (f_left f) + length (f_right f) /\
      Forall (sub h) (f_left f) /\ Forall (sub h) (f_right f) /\ cwf (S h) c'
  end.

Lemma wf_fitting h t : wf h t -> fitting (ges t) (gks t).
Proof. destruct h; simpl; [left; naive_solver|right; naive_solver]. Qed.

Lemma wf_leaf_iff h t : wf h t -> gks t = [] <-> h = 0.
Proof.
  destruct h; simpl; [naive_solver|]. intros (_ & Hl & _). split; [|done]. intros E. by rewrite E in Hl.
Qed.

(** Shape and contents of a plugged context. *)
Lemma wf_plug h t c : cwf h c -> wf h t -> low c <= length (ges t) ->
  wf (h + length c) (plug t c) /\ 1 <= length (ges (plug t c)).
Proof.
  revert h t. induction c as [|f c IH]; intros h t Hc Ht Hlow; simpl in *; [by rewrite Nat.add_0_r|].
  destruct Hc as (Hcap & Hlo & Hlen & Hl & Hr & Hc).
  replace (h + S (length c)) with (S h + length c) by lia. apply IH; [done| |done]. simpl.
  split_and!; [done|rewrite length_app; simpl; lia|].
  apply Forall_app. split; [done|]. by constructor.
Qed.

Lemma flat_plug h t c : cwf h c -> flat (plug t c) = lflat c ++ flat t ++ rflat c.
Proof.
  revert h t. induction c as [|f c IH]; intros h t Hc; simpl; [by rewrite app_nil_r|].
  simpl in Hc. destruct Hc as (_ & _ & Hlen & _ & _ & Hc). rewrite (IH _ _ Hc). simpl.
  rewrite fmap_app, fmap_cons, weave_mid by by rewrite !length_fmap.
  rewrite length_fmap, <-!app_assoc. done.
Qed.

(** Down to a child. *)
Lemma focus_kid h id es ks1 k ks2 c :
  cwf (S h) c -> wf (S h) (GNode id es (ks1 ++ k :: ks2)) -> low c <= length es ->
  cwf h (mkFrame id es ks1 ks2 :: c) /\ sub h k.
Proof.
  intros Hc (Hcap & Hlen & Hk) Hlow. simpl in *. rewrite length_app in Hlen. simpl in Hlen.
  apply Forall_app in Hk as [H1 H2]. rewrite Forall_cons in H2. destruct H2 as [Hkk H2].
  split; [|done]. split_and!; [done|done|lia|done..].
Qed.

(** The root's index does not depend on what is below it. *)
Fixpoint root_id (id : N) (c : list (Frame K V)) : N :=
  match c with [] => id | f :: c' => root_id (f_id f) c' end.

Lemma gid_plug t c : gid (plug t c) = root_id (gid t) c.
Proof. revert t. induction c as [|f c IH]; intros t; [done|]. simpl. by rewrite IH. Qed.

(** ** Length and height *)

Lemma length_weave {E} (es : list E) fs m :
  length fs = S (length es) -> Forall (fun f => m <= length f) fs ->
  (m + 1) * S (length es) - 1 <= length (weave es fs).
Proof.
  revert es. induction fs as [|f fs IH]; intros es Hl Hf; simpl in *; [lia|].
  rewrite Forall_cons in Hf. destruct Hf as [Hm Hf]. rewrite length_app.
  destruct es as [|e es]; [simpl; lia|]. destruct fs as [|g fs]; [simpl in Hl; lia|].
  rewrite afters_cons. simpl in Hl. specialize (IH es ltac:(simpl; lia) Hf).
  change (length (e :: ?l)) with (S (length l)). simpl length in *. nia.
Qed.

Lemma sub_length h t : sub h t -> B ^ (S h) - 1 <= length (flat t).
Proof.
  revert t. induction h as [|h IH]; intros [id es ks] (Hmin & Hcap & Hk); simpl in *.
  - subst ks. simpl. arith.
  - destruct Hk as [Hlen Hk].
    pose proof (length_weave es (flat <$> ks) (B ^ (S h) - 1)) as Hw.
    rewrite length_fmap in Hw. specialize (Hw Hlen).
    assert (0 < B ^ S h) as Hpos by (apply Nat.neq_0_lt_0, Nat.pow_nonzero; by rewrite b_is).
    replace (B ^ S h - 1 + 1) with (B ^ S h) in Hw by lia.
    rewrite Forall_fmap in Hw. specialize (Hw ltac:(eapply Forall_impl; [exact Hk|]; intros k Hk'; by apply IH)).
    etrans; [|exact Hw]. simpl. rewrite min_len_is in Hmin.
    assert (B <= S (length es)) by (rewrite b_is; lia). nia.
Qed.

(** A tree of height [h] holds at least [2 * B ^ h - 1] entries. *)
Lemma root_length h t : wf h t -> 1 <= length (ges t) -> 2 * B ^ h - 1 <= length (flat t).
Proof.
  destruct t as [id es ks], h as [|h]; intros (Hcap & Hk) H1; simpl in *.
  - subst ks. simpl. lia.
  - destruct Hk as [Hlen Hk].
    pose proof (length_weave es (flat <$> ks) (B ^ (S h) - 1)) as Hw.
    rewrite length_fmap in Hw. specialize (Hw Hlen).
    assert (0 < B ^ S h) as Hpos by (apply Nat.neq_0_lt_0, Nat.pow_nonzero; by rewrite b_is).
    replace (B ^ S h - 1 + 1) with (B ^ S h) in Hw by lia.
    rewrite Forall_fmap in Hw. specialize (Hw ltac:(eapply Forall_impl; [exact Hk|]; intros k Hk'; by apply sub_length)).
    etrans; [|exact Hw]. change (B * B ^ h) with (B ^ S h). nia.
Qed.

(** A tree has at most one node for each five entries below the root. *)

Lemma length_weave_exact {E} (es : list E) fs :
  fs = [] \/ length fs = S (length es) -> length (weave es fs) = length es + length (concat fs).
Proof.
  intros [->|Hl]; [simpl; lia|]. revert es Hl. induction fs as [|f fs IH]; intros es Hl; [done|].
  simpl in *. rewrite !length_app. destruct es as [|e es].
  - destruct fs; [|simpl in Hl; lia]. simpl. lia.
  - destruct fs as [|g fs]; [simpl in Hl; lia|]. rewrite afters_cons.
    change (length (e :: ?l)) with (S (length l)). rewrite (IH es) by (simpl in *; lia). lia.
Qed.

Lemma forest_cells h (ks : list (GTree K V)) id j :
  (forall k l, sub h k -> 5 * length (cells l k) <= length (flat k)) -> Forall (sub h) ks ->
  5 * length (forest id j ks) <= length (concat (flat <$> ks)).
Proof.
  intros Hk. revert j. induction ks as [|k ks IH]; intros j Hf; [simpl; lia|].
  rewrite fmap_cons. cbn [forest concat].
  rewrite Forall_cons in Hf. destruct Hf as [H1 Hf]. rewrite !length_app.
  specialize (IH (S j) Hf). specialize (Hk k (id, j) H1). lia.
Qed.

Lemma sub_cells h (t : GTree K V) l : sub h t -> 5 * length (cells l t) <= length (flat t).
Proof.
  revert t l. induction h as [|h IH]; intros [id es ks] l (Hmin & Hcap & Hk); rewrite cells_unfold; simpl in *.
  - subst ks. simpl. arith.
  - destruct Hk as [Hlen Hk]. rewrite length_weave_exact by (right; by rewrite length_fmap).
    pose proof (forest_cells h ks id 0 IH Hk). arith.
Qed.

Lemma tree_cells h (t : GTree K V) l : wf h t -> 1 <= length (ges t) -> 5 * length (cells l t) <= length (flat t) + 4.
Proof.
  destruct t as [id es ks]. rewrite cells_unfold. destruct h as [|h]; intros (Hcap & Hk) H1; simpl in *.
  - subst ks. simpl. lia.
  - destruct Hk as [Hlen Hk]. rewrite length_weave_exact by (right; by rewrite length_fmap).
    pose proof (forest_cells h ks id 0 (fun k l => sub_cells h k l) Hk). lia.
Qed.

End Shape.

(** * Search in a node and descent through the tree

    Both searches of a node, the scan and [slice::binary_search], answer the
    one position that divides its ascending keys; a descent ends at the place
    of the key, and counts the nodes an insert there will take. *)

Section Search.
Context {K V : Type} `{KeyOrder K}.

(** ** The order of keys *)

Definition key_lt (a b : K) : Prop := cmp a b = Lt.

Lemma cmp_gt a b : cmp a b = Gt <-> key_lt b a.
Proof. unfold key_lt. rewrite (cmp_antisym a b). destruct (cmp a b); naive_solver. Qed.

#[global] Instance key_lt_trans : Transitive key_lt.
Proof. intros a b c. apply cmp_trans. Qed.

Lemma key_lt_irrefl a : ~ key_lt a a.
Proof. unfold key_lt. by rewrite cmp_refl. Qed.

Lemma key_lt_asym a b : key_lt a b -> ~ key_lt b a.
Proof. intros H1 H2. by apply (key_lt_irrefl a), (key_lt_trans _ b). Qed.

Lemma cmp_eq_sym a b : cmp a b = Eq -> cmp b a = Eq.
Proof. intros E. by rewrite (cmp_antisym a b), E. Qed.

Lemma key_cases a b : key_lt a b \/ cmp a b = Eq \/ key_lt b a.
Proof. destruct (cmp a b) eqn:E; [by right; left|by left|right; right; by apply cmp_gt]. Qed.

(** Equal keys lie at the same place of the order. *)
Lemma key_lt_congr_r a b c : cmp b c = Eq -> key_lt a b -> key_lt a c.
Proof.
  intros E Hab. apply cmp_gt. apply cmp_gt in Hab. by rewrite <-(cmp_congr _ _ a E).
Qed.

Lemma key_lt_congr_l a b c : cmp a b = Eq -> key_lt a c -> key_lt b c.
Proof. intros E Hac. unfold key_lt. by rewrite <-(cmp_congr _ _ c E). Qed.

(** ** Positions among ascending keys *)

Definition position (key : K) (keys : list K) (p : bool * nat) : Prop :=
  Forall (fun k => key_lt k key) (take p.2 keys) /\
  if p.1 then exists k, keys !! p.2 = Some k /\ cmp k key = Eq
  else p.2 <= length keys /\ Forall (fun k => key_lt key k) (drop p.2 keys).

(** At most one position divides the keys. *)
Lemma position_unique key keys p q :
  StronglySorted key_lt keys -> position key keys p -> position key keys q -> p = q.
Proof.
  revert p q. induction keys as [|k keys IH]; intros [b i] [b' i'] Hs Hp Hq.
  - destruct Hp as [_ Hp], Hq as [_ Hq]. destruct b, b'; simpl in *; try naive_solver.
    f_equal. lia.
  - apply StronglySorted_inv in Hs as [Hs Hk].
    assert (forall b i, position key (k :: keys) (b, i) ->
      match i with
      | 0 => cmp k key = if b then Eq else Gt
      | S i' => cmp k key = Lt /\ position key keys (b, i')
      end) as Hinv.
    { intros b0 [|i0] [H1 H2]; simpl in *.
      - destruct b0; [naive_solver|]. rewrite Forall_cons in H2. apply cmp_gt, H2.
      - rewrite Forall_cons in H1. split; [apply H1|]. split; [apply H1|]. destruct b0; simpl; [done|].
        split; [lia|]. apply H2. }
    apply Hinv in Hp, Hq. destruct i as [|i], i' as [|i'].
    + destruct b, b'; congruence.
    + destruct Hq as [Hq _]. destruct b; congruence.
    + destruct Hp as [Hp _]. destruct b'; congruence.
    + destruct Hp as [_ Hp], Hq as [_ Hq]. specialize (IH _ _ Hs Hp Hq). congruence.
Qed.

(** ** The scan *)

Lemma scan_shift key i keys : scan key i keys = let '(b, j) := scan key 0 keys in (b, i + j).
Proof.
  revert i. induction keys as [|k keys IH]; intros i; simpl; [by rewrite Nat.add_0_r|].
  destruct (cmp key k); [by rewrite Nat.add_0_r..|].
  rewrite (IH (S i)), (IH 1). destruct (scan key 0 keys). f_equal. lia.
Qed.

Lemma scan_position key keys : StronglySorted key_lt keys -> position key keys (scan key 0 keys).
Proof.
  induction keys as [|k keys IH]; intros Hs; simpl; [split; simpl; [|split; [lia|]]; done|].
  apply StronglySorted_inv in Hs as [Hs Hk]. destruct (cmp key k) eqn:E.
  - split; simpl; [done|]. exists k. split; [done|by apply cmp_eq_sym].
  - split; simpl; [done|]. split; [lia|]. constructor; [done|].
    eapply Forall_impl; [exact Hk|]. intros k' Hk'. by trans k.
  - rewrite scan_shift. specialize (IH Hs). destruct (scan key 0 keys) as [b j].
    destruct IH as [H1 H2]. split; simpl in *.
    + constructor; [by apply cmp_gt|done].
    + destruct b; [done|]. split; [lia|apply H2].
Qed.

(** ** The binary search *)

Lemma sorted_lookup keys i j a b :
  StronglySorted key_lt keys -> i < j -> keys !! i = Some a -> keys !! j = Some b -> key_lt a b.
Proof.
  revert i j. induction keys as [|k keys IH]; intros i j Hs Hij Hi Hj; [done|].
  apply StronglySorted_inv in Hs as [Hs Hk]. destruct j as [|j]; [lia|]. destruct i as [|i]; simpl in *.
  - injection Hi as <-. rewrite Forall_forall in Hk. apply Hk. by eapply list_elem_of_lookup_2.
  - eapply (IH i j); [done|lia|done..].
Qed.

(** [base] is the first place or one whose key is not above the key sought, and
    every key from [base + size] on is above it. *)
Definition bracket (key : K) (keys : list K) (base size : nat) : Prop :=
  1 <= size /\ base + size <= length keys /\
  (base = 0 \/ exists k, keys !! base = Some k /\ cmp k key <> Gt) /\
  (forall j k, base + size <= j -> keys !! j = Some k -> cmp k key = Gt).

Lemma binary_search_loop_spec key keys fuel base size :
  StronglySorted key_lt keys -> size <= fuel -> bracket key keys base size ->
  bracket key keys (binary_search_loop key keys fuel base size) 1.
Proof.
  intros Hs. revert base size. induction fuel as [|fuel IH]; intros base size Hf Hb; cbn [binary_search_loop].
  { destruct Hb as [Hb _]. lia. }
  destruct (size <=? 1) eqn:E; [apply Nat.leb_le in E|apply Nat.leb_gt in E].
  { replace size with 1 in Hb; [done|]. destruct Hb. lia. }
  pose proof (Nat.div_lt size 2 ltac:(lia) ltac:(lia)) as Hlt.
  assert (1 <= size / 2) as Hge by (apply (Nat.Div0.div_le_mono 2 size 2); lia).
  pose proof (Nat.div_mod size 2 ltac:(lia)) as Hdm.
  destruct Hb as (H1 & H2 & H3 & H4).
  destruct (lookup_lt_is_Some_2 keys (base + size / 2)) as [k Hk]; [lia|].
  apply IH; [lia|]. rewrite Hk.
  destruct (cmp k key) eqn:Ek; (split_and!; [lia|lia|..]);
    try (right; exists k; split; [done|by rewrite Ek]);
    try (intros j k' Hj; apply H4; lia); [done|].
  intros j k' Hj Hk'. pose proof (Nat.mod_upper_bound size 2 ltac:(lia)).
  destruct (decide (base + size <= j)); [by eapply H4|].
  apply cmp_gt. apply cmp_gt in Ek. destruct (decide (j = base + size / 2)) as [->|Hne]; [congruence|].
  etrans; [exact Ek|]. eapply (sorted_lookup keys (base + size / 2) j); eauto. lia.
Qed.

Lemma take_below key keys base k :
  StronglySorted key_lt keys -> keys !! base = Some k -> cmp k key <> Gt ->
  Forall (fun x => key_lt x key) (take base keys).
Proof.
  intros Hs Hk Hle. apply Forall_lookup. intros j x Hx. apply lookup_take_Some in Hx as [Hx Hj].
  pose proof (sorted_lookup keys j base x k Hs Hj Hx Hk) as Hlt.
  destruct (key_cases k key) as [|[Heq|Hgt]]; [by trans k|by eapply key_lt_congr_r|]. by destruct Hle; apply cmp_gt.
Qed.

Lemma binary_search_position key keys :
  StronglySorted key_lt keys -> position key keys (binary_search key keys).
Proof.
  intros Hs. unfold binary_search. destruct keys as [|k0 keys']; [split; simpl; [|split; [lia|]]; done|].
  set (keys := k0 :: keys') in *.
  destruct (binary_search_loop_spec key keys (length keys) 0 (length keys)) as (H1 & H2 & H3 & H4); [done..| |].
  { split_and!; [simpl; lia|lia|by left|]. intros j k Hj Hk. apply lookup_lt_Some in Hk. lia. }
  set (base := binary_search_loop _ _ _ _ _) in *.
  destruct (lookup_lt_is_Some_2 keys base) as [k Hk]; [lia|]. rewrite Hk.
  assert (Forall (fun x => key_lt key x) (drop (S base) keys)) as Habove.
  { apply Forall_lookup. intros j x Hx. rewrite lookup_drop in Hx. apply cmp_gt.
    eapply (H4 (S base + j)); [lia|done]. }
  destruct (cmp k key) eqn:E.
  - split; cbn [fst snd]; [eapply take_below; eauto; by rewrite E|]. by exists k.
  - split; cbn [fst snd].
    + rewrite (take_S_r _ _ _ Hk).
      apply Forall_app. split; [eapply take_below; eauto; by rewrite E|]. by constructor.
    + split; [lia|]. exact Habove.
  - split.
    + cbn [snd]. destruct H3 as [->|(k' & Hk' & Hne)]; [done|]. congruence.
    + cbn [fst snd]. split; [lia|]. rewrite (drop_S _ _ _ Hk). constructor; [by apply cmp_gt|done].
Qed.

Lemma search_position (n : Node K V) key :
  StronglySorted key_lt (entries n).*1 -> position key (entries n).*1 (search n key).
Proof. intros Hs. unfold search. destruct scans; [by apply scan_position|by apply binary_search_position]. Qed.

(** ** A node in focus *)

(** The arena spells the tree [plug t c], seen from the node of [t]. *)
Record focus (ns : list (Node K V)) (fl : list N) (h : nat) (t : GTree K V) (c : list (Frame K V)) : Prop := {
  focus_arena : arena ns (cells (hole_link c) t ++ around (gid t) c) fl;
  focus_wf : wf h t;
  focus_cwf : cwf h c;
  focus_low : low c <= length (ges t) }.

Lemma focus_root ns fl h t :
  arena ns (cells (NONE, 0) t) fl -> wf h t -> 1 <= length (ges t) -> focus ns fl h t [].
Proof. intros Ha Hw Hl. split; [|done..]. by rewrite app_nil_r. Qed.

Lemma focus_whole ns fl h t c : focus ns fl h t c -> arena ns (cells (NONE, 0) (plug t c)) fl.
Proof. intros [Ha _ _ _]. by rewrite cells_plug. Qed.

Lemma focus_node ns fl h t c :
  focus ns fl h t c -> exists n, node_at ns (gid t) = Some n /\ holds n (cell_of t (hole_link c)).
Proof. intros [Ha _ _ _]. rewrite cells_head in Ha. by eapply arena_head. Qed.

Lemma focus_fuel ns fl h t c : focus ns fl h t c -> length c < length ns.
Proof. intros [Ha _ _ _]. by eapply path_fuel. Qed.

Lemma focus_down ns fl h id es ks1 k ks2 c :
  focus ns fl (S h) (GNode id es (ks1 ++ k :: ks2)) c -> focus ns fl h k (mkFrame id es ks1 ks2 :: c).
Proof.
  intros [Ha Hw Hc Hl]. destruct (focus_kid _ _ _ _ _ _ _ Hc Hw Hl) as [Hc' Hk]. split; [|apply Hk|done|apply Hk].
  revert Ha. apply arena_perm; [|done]. rewrite cells_unfold. cbn [gid around hole_link f_id f_es f_left f_right].
  rewrite fmap_app, fmap_cons, forest_app. cbn [forest Nat.add]. solve_Permutation.
Qed.

(** The deepest path from the focus is still within the fuel. *)
Lemma focus_depth ns fl h t c : focus ns fl h t c -> h + length c < length ns.
Proof.
  revert t c. induction h as [|h IH]; intros [id es ks] c Hf; [by eapply focus_fuel|].
  destruct (focus_wf _ _ _ _ _ Hf) as (_ & Hlen & _). simpl in Hlen. destruct ks as [|k ks]; [done|].
  apply (focus_down ns fl h id es [] k ks) in Hf. apply IH in Hf. simpl in Hf. lia.
Qed.

(** ** Entries in order *)

Definition entry_lt (a b : K * V) : Prop := key_lt a.1 b.1.
Definition ascending (l : list (K * V)) : Prop := StronglySorted entry_lt l.

Lemma ascending_keys l : ascending l -> StronglySorted key_lt l.*1.
Proof. apply StronglySorted_fmap. done. Qed.

Lemma ascending_sublist l1 l2 : l1 `sublist_of` l2 -> ascending l2 -> ascending l1.
Proof.
  unfold ascending. induction 1 as [|x l1 l2 Hs IH|x l1 l2 Hs IH]; [done|..]; rewrite ?StronglySorted_cons.
  - intros [Hx Hl]. split; [|by apply IH]. rewrite Forall_forall in *. intros y Hy. apply Hx.
    by eapply sublist_subseteq.
  - intros [_ Hl]. by apply IH.
Qed.

Lemma weave_sublist {E} (es : list E) fs :
  fs = [] \/ length fs = S (length es) -> es `sublist_of` weave es fs.
Proof.
  intros [->|Hl]; [done|]. revert es Hl. induction fs as [|f fs IH]; intros es Hl; [done|]. simpl in *.
  apply sublist_inserts_l. destruct es as [|e es]; [apply sublist_nil_l|].
  destruct fs as [|g fs]; [simpl in Hl; lia|]. rewrite afters_cons. apply sublist_skip, IH. simpl in *. lia.
Qed.

Lemma ascending_own h t : wf h t -> ascending (flat t) -> ascending (ges t).
Proof.
  intros Hw Ha. eapply ascending_sublist; [|exact Ha]. destruct t as [id es ks]. simpl.
  apply weave_sublist. destruct (wf_fitting _ _ Hw) as [E|E]; simpl in E; [subst; by left|right].
  by rewrite length_fmap.
Qed.

Definition all_below (key : K) (l : list (K * V)) : Prop := Forall (fun e => key_lt e.1 key) l.
Definition all_above (key : K) (l : list (K * V)) : Prop := Forall (fun e => key_lt key e.1) l.

Lemma befores_below key es fs :
  length fs = length es -> ascending (befores es fs) -> all_below key es -> all_below key (befores es fs).
Proof.
  revert es. induction fs as [|f fs IH]; intros [|e es] Hl Ha Hb; try done.
  unfold befores in *. simpl in *. injection Hl as Hl. apply Forall_cons in Hb as [He Hb].
  apply StronglySorted_app in Ha as (_ & Hfe & Ha). apply Forall_app. split; [|by apply IH].
  apply StronglySorted_app in Hfe as (Hfe & _ & _). apply Forall_app. split; [|by constructor].
  apply Forall_forall. intros x Hx. trans e.1; [|done]. apply (Hfe x e Hx). by left.
Qed.

Lemma afters_above key es fs :
  length fs = length es -> ascending (afters es fs) -> all_above key es -> all_above key (afters es fs).
Proof.
  revert es. induction fs as [|f fs IH]; intros [|e es] Hl Ha Hb; try done.
  unfold afters in *. simpl in *. injection Hl as Hl. apply Forall_cons in Hb as [He Hb].
  constructor; [done|]. apply StronglySorted_cons in Ha as [Hef Ha].
  apply StronglySorted_app in Ha as (_ & _ & Ha). apply Forall_app in Hef as [Hef _].
  apply Forall_app. split; [|by apply IH].
  eapply Forall_impl; [exact Hef|]. intros x Hx. by trans e.1.
Qed.

(** ** Descent *)

(** What the descent reads from a node: its search, and whether it is a leaf. *)
Lemma focus_search ns fl h t c key :
  focus ns fl h t c -> ascending (flat t) ->
  exists n found i, node_at ns (gid t) = Some n /\ search n key = (found, i) /\
    holds n (cell_of t (hole_link c)) /\ leaf n = (h =? 0) /\ node_len n = length (ges t) /\
    position key (ges t).*1 (found, i).
Proof.
  intros Hf Ha. destruct (focus_node _ _ _ _ _ Hf) as (n & Hn & Hh).
  pose proof (holds_entries _ _ Hh) as He. cbn [cell_of c_entries] in He.
  destruct (search n key) as [found i] eqn:Es. exists n, found, i. split_and!; [done..| | |].
  - rewrite (holds_leaf _ _ Hh). cbn [cell_of c_kids].
    pose proof (wf_leaf_iff _ _ (focus_wf _ _ _ _ _ Hf)) as Hleaf.
    destruct (gks t); [by rewrite (proj1 Hleaf eq_refl)|]. destruct h; [|done].
    discriminate (proj2 Hleaf eq_refl).
  - unfold node_len. by rewrite He.
  - rewrite <-Es, <-He. apply search_position. rewrite He. apply ascending_keys.
    eapply ascending_own; [|done]. by eapply focus_wf.
Qed.

Lemma position_vacant key (es : list (K * V)) i :
  position key es.*1 (false, i) -> i <= length es /\ all_below key (take i es) /\ all_above key (drop i es).
Proof.
  intros [H1 [H2 H3]]. cbn [fst snd] in *. rewrite length_fmap in H2.
  rewrite <-fmap_take, Forall_fmap in H1. rewrite <-fmap_drop, Forall_fmap in H3. done.
Qed.

Lemma position_found key (es : list (K * V)) i :
  position key es.*1 (true, i) -> exists e, es !! i = Some e /\ cmp e.1 key = Eq.
Proof.
  intros [_ (k & H1 & H2)]. cbn [fst snd] in H1. rewrite list_lookup_fmap in H1.
  destruct (es !! i) as [e|]; [|done]. exists e. injection H1 as <-. done.
Qed.

(** The bounds on a key pass to the child at its place. *)
Lemma bounds_down key es (ks1 ks2 : list (GTree K V)) id k c :
  length es = length ks1 + length ks2 -> ascending (flat (GNode id es (ks1 ++ k :: ks2))) ->
  all_below key (lflat c) -> all_above key (rflat c) ->
  all_below key (take (length ks1) es) -> all_above key (drop (length ks1) es) ->
  ascending (flat k) /\ all_below key (lflat (mkFrame id es ks1 ks2 :: c)) /\
  all_above key (rflat (mkFrame id es ks1 ks2 :: c)).
Proof.
  intros Hlen Ha Hlo Hhi Hb1 Hb2. simpl in Ha.
  rewrite fmap_app, fmap_cons, weave_mid, length_fmap in Ha by by rewrite !length_fmap.
  apply StronglySorted_app in Ha as (_ & Ha1 & Ha). apply StronglySorted_app in Ha as (_ & Hk & Ha2).
  split; [done|]. simpl. split.
  - apply Forall_app. split; [done|]. apply befores_below; [rewrite length_fmap, length_take; lia|done..].
  - apply Forall_app. split; [|done]. apply afters_above; [rewrite length_fmap, length_drop; lia|done..].
Qed.

Definition passed {S} (g : S -> nat -> S) (s : S) (c : list (Frame K V)) : S :=
  foldr (fun f s => g s (length (f_es f))) s c.

Lemma descend_spec {S} (step : S -> Node K V -> nat -> S) (g : S -> nat -> S) ns fl key s h :
  (forall s n i, step s n i = g s (node_len n)) -> forall t c fuel,
  focus ns fl h t c -> h < fuel -> ascending (flat t) ->
  all_below key (lflat c) -> all_above key (rflat c) ->
  exists h' t' c' i found,
    descend step ns fuel (gid t) key (passed g s c)
      = Some (gid t', i, found, g (passed g s c') (length (ges t'))) /\
    focus ns fl h' t' c' /\ plug t' c' = plug t c /\ h' + length c' = h + length c /\
    if (found : bool) then exists e, ges t' !! i = Some e /\ cmp e.1 key = Eq
    else h' = 0 /\ i <= length (ges t') /\ all_below key (lflat c' ++ take i (ges t')) /\
         all_above key (drop i (ges t') ++ rflat c').
Proof.
  intros Hstep. induction h as [|h IH]; intros [id es ks] c fuel Hf Hfu Ha Hlo Hhi;
    (destruct fuel as [|fuel]; [lia|]);
    destruct (focus_search _ _ _ _ _ key Hf Ha) as (n & found & i & Hn & Hs & Hh & Hleaf & Hlen & Hpos);
    cbn [descend]; rewrite Hn; cbn [mbind option_bind]; rewrite Hs, Hstep, Hleaf, Hlen; destruct found; cbn [orb Nat.eqb].
  - eexists _, _, _, _, true. split; [done|]. split_and!; [done..|]. by apply position_found.
  - apply position_vacant in Hpos as (Hi & Hb1 & Hb2).
    eexists _, _, _, _, false. split; [done|].
    split_and!; [done..|apply Forall_app; done|apply Forall_app; done].
  - eexists _, _, _, _, true. split; [done|]. split_and!; [done..|]. by apply position_found.
  - apply position_vacant in Hpos as (Hi & Hb1 & Hb2). cbn [ges] in *.
    destruct (focus_wf _ _ _ _ _ Hf) as (_ & Hk & _). cbn [ges gks] in Hk.
    destruct (lookup_lt_is_Some_2 ks i) as [k Hki]; [lia|].
    pose proof (take_drop_middle _ _ _ Hki) as Hsplit.
    rewrite (holds_child _ _ _ _ i (gid k) Hh) by (cbn [gks]; by rewrite list_lookup_fmap, Hki).
    cbn [mbind option_bind]. set (ks1 := take i ks) in *. set (ks2 := drop (Datatypes.S i) ks) in *.
    assert (length ks1 = i) as Hk1 by (unfold ks1; rewrite length_take; lia).
    rewrite <-Hsplit in Hf, Ha. pose proof (focus_down _ _ _ _ _ _ _ _ _ Hf) as Hf'.
    destruct (bounds_down key es ks1 ks2 id k c) as (Hak & Hlo' & Hhi');
      [unfold ks2; rewrite length_drop; lia|done..|by rewrite Hk1|by rewrite Hk1|].
    destruct (IH k (mkFrame id es ks1 ks2 :: c) fuel Hf' ltac:(lia) Hak Hlo' Hhi')
      as (h' & t' & c' & i' & found & Hd & Hf2 & Hp & Hh2 & Hend).
    eexists h', t', c', i', found. split; [exact Hd|]. split; [done|].
    split; [rewrite Hp; simpl; unfold fill; cbn [f_id f_es f_left f_right]; by rewrite Hsplit|].
    split; [simpl in *; lia|done].
Qed.

(** ** Locate *)

(** The nodes an insert at a leaf of [n] entries takes: one for each node of
    the full run above it, and a new root when the run reaches the root. *)
Fixpoint demand (n : nat) (c : list (Frame K V)) : nat :=
  if n =? CAPACITY then
    Datatypes.S (match c with [] => 1 | f :: c' => demand (length (f_es f)) c' end)
  else 0.

Definition run_step (full n : nat) : nat := if n =? CAPACITY then full + 1 else 0.

Lemma run_bound c : passed run_step 0 c <= length c.
Proof.
  induction c as [|f c IH]; simpl; [lia|]. unfold run_step at 1.
  destruct (length (f_es f) =? CAPACITY); unfold passed in *; lia.
Qed.

Lemma demand_spec n c :
  run_step (passed run_step 0 c) n + (if run_step (passed run_step 0 c) n =? length c + 1 then 1 else 0)
  = demand n c.
Proof.
  revert n. induction c as [|f c IH]; intros n; cbn [demand length].
  - unfold run_step. simpl. by destruct (n =? CAPACITY).
  - change (passed run_step 0 (f :: c)) with (run_step (passed run_step 0 c) (length (f_es f))).
    specialize (IH (length (f_es f))). pose proof (run_bound c) as Hb.
    assert (run_step (passed run_step 0 c) (length (f_es f)) <= length c + 1) as Hb'.
    { unfold run_step at 1. destruct (length (f_es f) =? CAPACITY); lia. }
    set (r := run_step (passed run_step 0 c) _) in *. unfold run_step.
    destruct (n =? CAPACITY); [|by rewrite Nat.add_comm]. rewrite <-IH.
    destruct (r + 1 =? Datatypes.S (length c) + 1) eqn:E1, (r =? length c + 1) eqn:E2;
      rewrite ?Nat.eqb_eq, ?Nat.eqb_neq in *; lia.
Qed.

(** ** The invariant of a tree *)

(** The abstract tree [g] in the tree's nodes, with the free list [fl]. *)
Definition spells (t : Tree K V) (g : GTree K V) (fl : list N) : Prop :=
  root t = gid g /\ wf (height t) g /\ 1 <= length (ges g) /\ arena (nodes t) (cells (NONE, 0) g) fl.

(** The tree holds the entries [l] and nothing else: its nodes spell a
    well-shaped tree of them, and every other node is on the free list. *)
Definition stores (t : Tree K V) (l : list (K * V)) : Prop :=
  tlen t = length l /\ exists fl, free t = next_of fl /\
    ((l = [] /\ root t = NONE /\ height t = 0 /\ arena (nodes t) [] fl) \/
     (exists g, flat g = l /\ spells t g fl)).

Lemma flat_nonempty h (g : GTree K V) : wf h g -> 1 <= length (ges g) -> flat g <> [].
Proof.
  intros Hw H1 E. pose proof (root_length _ _ Hw H1) as Hl. rewrite E in Hl. simpl in Hl.
  assert (0 < B ^ h) by (apply Nat.neq_0_lt_0, Nat.pow_nonzero; by rewrite b_is). lia.
Qed.

Lemma spells_focus t g fl : spells t g fl -> focus (nodes t) fl (height t) g [].
Proof. intros (_ & Hw & H1 & Ha). by apply focus_root. Qed.

(** The end of a descent in a tree that holds entries. *)
Definition lands (t : Tree K V) (key : K) (l : list (K * V)) (h : nat) (g : GTree K V) (c : list (Frame K V))
    (fl : list N) (i : nat) (found : bool) : Prop :=
  focus (nodes t) fl h g c /\ flat (plug g c) = l /\ root t = root_id (gid g) c /\
  height t = h + length c /\ free t = next_of fl /\
  if found then exists e, ges g !! i = Some e /\ cmp e.1 key = Eq
  else h = 0 /\ i <= length (ges g) /\ all_below key (lflat c ++ take i (ges g)) /\
       all_above key (drop i (ges g) ++ rflat c).

Lemma tree_descend {S} (step : S -> Node K V -> nat -> S) (f : S -> nat -> S) t key l s :
  (forall s n i, step s n i = f s (node_len n)) -> stores t l -> ascending l -> l <> [] ->
  exists h g c fl i found,
    descend step (nodes t) (length (nodes t)) (root t) key s
      = Some (gid g, i, found, f (passed f s c) (length (ges g))) /\
    lands t key l h g c fl i found.
Proof.
  intros Hstep (Hlen & fl & Hfr & [[-> _]|(g & <- & Hg)]) Ha Hne; [done|].
  pose proof (spells_focus _ _ _ Hg) as Hf. destruct Hg as (Hr & Hw & H1 & _).
  pose proof (focus_depth _ _ _ _ _ Hf) as Hd. simpl in Hd.
  destruct (descend_spec step f (nodes t) fl key s (height t) Hstep g [] (length (nodes t)) Hf)
    as (h' & g' & c' & i & found & Hds & Hf' & Hp & Hh & Hend); [lia|done|by apply Forall_nil|by apply Forall_nil|].
  exists h', g', c', fl, i, found. rewrite Hr. split; [exact Hds|]. unfold lands. split_and!; [done|..].
  - by rewrite Hp.
  - rewrite <-gid_plug, Hp. done.
  - simpl in Hh. lia.
  - done.
  - done.
Qed.

Lemma locate_spec t key l :
  stores t l -> ascending l ->
  exists sp, locate t key = Some sp /\
    match sp with
    | Found at_ i => exists h g c fl, at_ = gid g /\ lands t key l h g c fl i true
    | Vacant at_ i need =>
        (l = [] /\ at_ = NONE /\ i = 0 /\ need = 1) \/
        exists g c fl, at_ = gid g /\ need = demand (length (ges g)) c /\ lands t key l 0 g c fl i false
    end.
Proof.
  intros Hst Ha. unfold locate. pose proof (proj1 Hst) as Hlen. rewrite Hlen.
  destruct l as [|x l]; [eexists; split; [done|]; by left|]. cbn [length Nat.eqb].
  destruct (tree_descend count_full run_step t key (x :: l) 0) as (h & g & c & fl & i & found & -> & Hl); [done..|].
  cbn [mbind option_bind]. destruct found.
  - eexists. split; [done|]. naive_solver.
  - eexists. split; [done|]. right.
    assert (h = 0) as -> by apply Hl. exists g, c, fl. split_and!; [done| |done].
    rewrite <-demand_spec. destruct Hl as (_ & _ & _ & -> & _). done.
Qed.

End Search.
