(* ===== verification/BTreeSpec.v ===== *)
(** * A sorted map, the contract of a sorted store

    The abstract state of a sorted store is the ascending list of its entries.
    [sm_find], [sm_put] and [sm_remove] are the finite map's operations on
    it, and the laws below say so; the tree's theorems are stated against
    them. *)

From stdpp Require Import base numbers option list sorting.
From S2P Require Import Prelude BTreeNode BTree BTreeCell BTreeArena BTreeShape.

Section Spec.
Context {K V : Type} `{KeyOrder K}.
Implicit Types (l : list (K * V)) (e : K * V).

(** The entry under [key]: its own key may be another that compares equal. *)
Fixpoint sm_find (key : K) l : option (K * V) :=
  match l with
  | [] => None
  | x :: l' => match cmp key x.1 with Eq => Some x | _ => sm_find key l' end
  end.

Fixpoint sm_put e l : list (K * V) :=
  match l with
  | [] => [e]
  | x :: l' => match cmp e.1 x.1 with Lt => e :: l | Eq => e :: l' | Gt => x :: sm_put e l' end
  end.

Fixpoint sm_remove (key : K) l : list (K * V) :=
  match l with
  | [] => []
  | x :: l' => match cmp key x.1 with Eq => l' | _ => x :: sm_remove key l' end
  end.

(** ** At a place in the order *)

Lemma cmp_below key e : key_lt e.1 key -> cmp key e.1 = Gt.
Proof. apply cmp_gt. Qed.

Lemma sm_find_below key l1 l2 : all_below key l1 -> sm_find key (l1 ++ l2) = sm_find key l2.
Proof.
  induction l1 as [|x l1 IH]; intros Hb; [done|]. apply Forall_cons in Hb as [Hx Hb]. simpl.
  by rewrite (cmp_below _ _ Hx), IH.
Qed.

Lemma sm_find_above key l : all_above key l -> sm_find key l = None.
Proof.
  induction l as [|x l IH]; intros Ha; [done|]. apply Forall_cons in Ha as [Hx Ha]. simpl.
  by rewrite Hx, IH.
Qed.

Lemma sm_find_here key e l1 l2 : all_below key l1 -> cmp e.1 key = Eq -> sm_find key (l1 ++ e :: l2) = Some e.
Proof. intros Hb He. rewrite sm_find_below by done. simpl. by rewrite (cmp_eq_sym _ _ He). Qed.

Lemma sm_put_below e l1 l2 : all_below e.1 l1 -> sm_put e (l1 ++ l2) = l1 ++ sm_put e l2.
Proof.
  induction l1 as [|x l1 IH]; intros Hb; [done|]. apply Forall_cons in Hb as [Hx Hb]. simpl.
  by rewrite (cmp_below _ _ Hx), IH.
Qed.

Lemma sm_put_vacant e l1 l2 :
  all_below e.1 l1 -> all_above e.1 l2 -> sm_put e (l1 ++ l2) = l1 ++ e :: l2.
Proof.
  intros Hb Ha. rewrite sm_put_below by done. destruct l2 as [|x l2]; [done|].
  apply Forall_cons in Ha as [Hx _]. simpl. by rewrite Hx.
Qed.

Lemma sm_put_here e x l1 l2 : all_below e.1 l1 -> cmp x.1 e.1 = Eq -> sm_put e (l1 ++ x :: l2) = l1 ++ e :: l2.
Proof. intros Hb Hx. rewrite sm_put_below by done. simpl. by rewrite (cmp_eq_sym _ _ Hx). Qed.

Lemma sm_remove_here key x l1 l2 : all_below key l1 -> cmp x.1 key = Eq -> sm_remove key (l1 ++ x :: l2) = l1 ++ l2.
Proof.
  intros Hb Hx. induction l1 as [|y l1 IH]; simpl; [by rewrite (cmp_eq_sym _ _ Hx)|].
  apply Forall_cons in Hb as [Hy Hb]. by rewrite (cmp_below _ _ Hy), IH.
Qed.

Lemma sm_remove_absent key l : sm_find key l = None -> sm_remove key l = l.
Proof.
  induction l as [|x l IH]; [done|]. simpl. destruct (cmp key x.1); [done|..]; intros Hl; by rewrite IH.
Qed.

(** Equal keys have the same place. *)
Lemma below_congr a b l : cmp a b = Eq -> all_below a l -> all_below b l.
Proof. intros E Hb. eapply Forall_impl; [exact Hb|]. intros e He. by eapply key_lt_congr_r. Qed.

Lemma above_congr a b l : cmp a b = Eq -> all_above a l -> all_above b l.
Proof. intros E Ha. eapply Forall_impl; [exact Ha|]. intros e He. by eapply key_lt_congr_l. Qed.

(** ** Every ascending list divides at a key *)

Lemma ascending_around l1 x l2 :
  ascending (l1 ++ x :: l2) -> all_below x.1 l1 /\ all_above x.1 l2.
Proof.
  intros Ha. apply StronglySorted_app in Ha as (Hx & _ & Ha). apply StronglySorted_cons in Ha as [Hr _].
  split; [|done]. apply Forall_forall. intros y Hy. apply (Hx y x); [done|left].
Qed.

Lemma ascending_divide key l :
  ascending l ->
  (exists l1 x l2, l = l1 ++ x :: l2 /\ cmp x.1 key = Eq /\ all_below key l1 /\ all_above key l2) \/
  (exists l1 l2, l = l1 ++ l2 /\ all_below key l1 /\ all_above key l2).
Proof.
  induction l as [|x l IH]; intros Ha; [right; exists [], []; split_and!; [done|by apply Forall_nil..]|].
  apply StronglySorted_cons in Ha as [Hx Ha].
  assert (key_lt key x.1 -> all_above key (x :: l)) as Habove.
  { intros Hk. constructor; [done|]. eapply Forall_impl; [exact Hx|]. intros y Hy. by trans x.1. }
  destruct (key_cases x.1 key) as [Hk|[Hk|Hk]].
  - destruct (IH Ha) as [(l1 & y & l2 & -> & Hy & H1 & H2)|(l1 & l2 & -> & H1 & H2)].
    + left. exists (x :: l1), y, l2. split_and!; [done|done|by constructor|done].
    + right. exists (x :: l1), l2. split_and!; [done|by constructor|done].
  - left. exists [], x, l. split_and!; [done|done|by apply Forall_nil|]. by eapply above_congr.
  - right. exists [], (x :: l). split_and!; [done|by apply Forall_nil|by apply Habove].
Qed.

Lemma ascending_insert e l1 l2 :
  ascending (l1 ++ l2) -> all_below e.1 l1 -> all_above e.1 l2 -> ascending (l1 ++ e :: l2).
Proof.
  intros Ha H1 H2. apply StronglySorted_app in Ha as (Hx & Ha1 & Ha2).
  apply StronglySorted_app. split_and!; [|done|by apply StronglySorted_cons].
  intros x y Hxin Hy. apply elem_of_cons in Hy as [->|Hy]; [|by apply Hx].
  unfold all_below in H1. rewrite Forall_forall in H1. by apply H1.
Qed.

Lemma sm_put_ascending e l : ascending l -> ascending (sm_put e l).
Proof.
  intros Ha. destruct (ascending_divide e.1 l Ha) as [(l1 & x & l2 & -> & Hx & H1 & H2)|(l1 & l2 & -> & H1 & H2)].
  - rewrite sm_put_here by done. apply ascending_insert; [|done..].
    eapply ascending_sublist; [|exact Ha]. apply sublist_app; [done|]. by apply sublist_cons.
  - rewrite sm_put_vacant by done. by apply ascending_insert.
Qed.

Lemma sm_remove_ascending key l : ascending l -> ascending (sm_remove key l).
Proof.
  intros Ha. destruct (ascending_divide key l Ha) as [(l1 & x & l2 & -> & Hx & H1 & H2)|(l1 & l2 & -> & H1 & H2)].
  - rewrite sm_remove_here by done. eapply ascending_sublist; [|exact Ha].
    apply sublist_app; [done|]. by apply sublist_cons.
  - rewrite sm_remove_absent; [done|]. by rewrite sm_find_below, sm_find_above.
Qed.

(** ** The laws of a finite map *)

Lemma sm_find_put key e l : cmp key e.1 = Eq -> sm_find key (sm_put e l) = Some e.
Proof.
  intros E. induction l as [|x l IH]; simpl; [by rewrite E|].
  destruct (cmp e.1 x.1) eqn:Ex; simpl; [by rewrite E..|]. by rewrite (cmp_congr _ _ x.1 E), Ex.
Qed.

Lemma sm_find_put_ne key e l : cmp key e.1 <> Eq -> sm_find key (sm_put e l) = sm_find key l.
Proof.
  intros Hne. induction l as [|x l IH]; simpl; [by destruct (cmp key e.1)|].
  destruct (cmp e.1 x.1) eqn:E; simpl; [|by destruct (cmp key e.1)|by rewrite IH].
  assert (cmp key x.1 <> Eq) as Hx.
  { intros Hk. apply Hne. apply cmp_eq_sym. rewrite (cmp_congr _ _ key E). by apply cmp_eq_sym. }
  by destruct (cmp key e.1), (cmp key x.1).
Qed.

Lemma sm_find_remove key l : ascending l -> sm_find key (sm_remove key l) = None.
Proof.
  intros Ha. destruct (ascending_divide key l Ha) as [(l1 & x & l2 & -> & Hx & H1 & H2)|(l1 & l2 & -> & H1 & H2)].
  - rewrite sm_remove_here by done. by rewrite sm_find_below, sm_find_above.
  - assert (sm_find key (l1 ++ l2) = None) as Hn by by rewrite sm_find_below, sm_find_above.
    by rewrite sm_remove_absent.
Qed.

Lemma sm_find_remove_ne key key' l : cmp key key' <> Eq -> sm_find key (sm_remove key' l) = sm_find key l.
Proof.
  intros Hne. induction l as [|x l IH]; simpl; [done|].
  destruct (cmp key' x.1) eqn:E; simpl; [|by rewrite IH..].
  assert (cmp key x.1 <> Eq) as Hx.
  { intros Hk. apply Hne. apply cmp_eq_sym. rewrite (cmp_congr _ _ key E). by apply cmp_eq_sym. }
  by destruct (cmp key x.1).
Qed.

(** The size after a put: one more where the key was not there, and the same
    for keys that compare equal. *)
Lemma sm_put_length e l : length l <= length (sm_put e l) <= length l + 1.
Proof. induction l as [|x l IH]; simpl; [lia|]. destruct (cmp e.1 x.1); simpl; lia. Qed.

Lemma sm_put_length_absent e l : sm_find e.1 l = None -> length (sm_put e l) = length l + 1.
Proof.
  induction l as [|x l IH]; [done|]. simpl. destruct (cmp e.1 x.1); simpl; [done|lia|].
  intros Hn. by rewrite (IH Hn).
Qed.

Lemma sm_put_length_present e l : ascending l -> is_Some (sm_find e.1 l) -> length (sm_put e l) = length l.
Proof.
  intros Ha [x Hx]. destruct (ascending_divide e.1 l Ha) as [(l1 & y & l2 & -> & Hy & H1 & H2)|(l1 & l2 & -> & H1 & H2)].
  - rewrite sm_put_here by done. by rewrite !length_app.
  - by rewrite sm_find_below, sm_find_above in Hx.
Qed.

Lemma sm_put_length_congr e e' l : cmp e.1 e'.1 = Eq -> length (sm_put e l) = length (sm_put e' l).
Proof.
  intros E. induction l as [|x l IH]; [done|]. simpl. rewrite (cmp_congr _ _ x.1 E).
  destruct (cmp e'.1 x.1); simpl; congruence.
Qed.

Lemma sm_remove_length key l : length (sm_remove key l) <= length l.
Proof. induction l as [|x l IH]; simpl; [lia|]. destruct (cmp key x.1); simpl; lia. Qed.

(** The entry found has an equal key. *)
Lemma sm_find_key key l x : sm_find key l = Some x -> cmp key x.1 = Eq.
Proof.
  induction l as [|y l IH]; [done|]. simpl. destruct (cmp key y.1) eqn:E; [intros [= ->]; done|done..].
Qed.

End Spec.
