(* ===== verification/BTreeInsert.v ===== *)
(** * Insert and put

    [tree/insert.rs]: the climb of [store_at] through the run of full nodes.
    At each node the loop carries an entry and the subtree that goes after it;
    the node takes both, or splits around its middle and hands the middle entry
    and its upper half to the parent.  The free list holds the nodes of every
    split because [reserve] put them there, so no step can fail. *)

From stdpp Require Import base numbers option list sorting.
From S2P Require Import Prelude BTreeNode BTree BTreeCell BTreeArena BTreeShape BTreeSpec.

Section Insert.
Context {K V : Type} `{KeyOrder K}.
Implicit Types (ks rs : list (GTree K V)) (es : list (K * V)) (c : list (Frame K V)) (ns : list (Node K V)).

(** ** The subtree carried up *)

(** [rs] is the subtree that goes after the entry: none at a leaf. *)
Definition carried (h : nat) es ks rs : Prop :=
  match h with
  | O => ks = [] /\ rs = []
  | S h' => length ks = S (length es) /\ Forall (sub h') ks /\ exists r, rs = [r] /\ sub h' r
  end.

Definition right_id rs : N := match rs with [] => NONE | r :: _ => gid r end.

(** The children with the carried subtree after place [i]. *)
Definition grown (i : nat) ks rs : list (GTree K V) := take (S i) ks ++ rs ++ drop (S i) ks.

Lemma grown_ids h es ks rs i : carried h es ks rs -> gid <$> grown i ks rs = ins_kid i (right_id rs) (gid <$> ks).
Proof.
  destruct h; simpl; [intros [-> ->]; done|]. intros (Hl & _ & r & -> & _).
  unfold grown. destruct ks as [|k ks]; [done|].
  change (right_id [r]) with (gid r). by rewrite <-fmap_ins_kid.
Qed.

Lemma grown_ok h es ks rs i e :
  carried h es ks rs ->
  match h with
  | O => grown i ks rs = []
  | S h' => length (grown i ks rs) = S (length (ins_entry i e es)) /\ Forall (sub h') (grown i ks rs)
  end.
Proof.
  destruct h; simpl; [intros [-> ->]; done|]. intros (Hl & Hk & r & -> & Hr). unfold grown.
  rewrite length_ins_entry, !length_app, length_take, length_drop. cbn [length]. split; [lia|].
  rewrite !Forall_app. split_and!; [by apply Forall_take|by constructor|by apply Forall_drop].
Qed.

Lemma grown_forest h es ks rs id i :
  carried h es ks rs -> i <= length es ->
  forest id 0 (grown i ks rs) = forest id 0 (take (S i) ks) ++ forest id (i + 1) (rs ++ drop (S i) ks).
Proof.
  unfold grown. intros Hc Hi. rewrite forest_app. f_equal. destruct h; simpl in Hc.
  - destruct Hc as [-> ->]. done.
  - destruct Hc as (Hl & _). rewrite length_take. f_equal. lia.
Qed.

(** The cells of the children, the carried subtree among those to link. *)
Lemma carried_loose h es ks rs id i ls :
  carried h es ks rs -> length ls = length rs ->
  exists ls', length ls' = length (rs ++ drop (S i) ks) /\
    forest id 0 ks ++ loose ls rs ≡ₚ forest id 0 (take (S i) ks) ++ loose ls' (rs ++ drop (S i) ks).
Proof.
  intros Hc Hls. pose proof (forest_app id 0 (take (S i) ks) (drop (S i) ks)) as E.
  rewrite take_drop, (forest_loose _ _ (drop _ _)) in E. rewrite E.
  eexists (ls ++ _). rewrite loose_app by done. split; [|solve_Permutation].
  rewrite !length_app, length_fmap, length_seq. lia.
Qed.

(** Children cut in two: those of the upper half are to link anew. *)
Lemma cut_loose id j (A D : list (GTree K V)) ls :
  length ls = length D ->
  exists ls1 ls2, length ls1 = length (take (j - length A) D) /\ length ls2 = length (drop j (A ++ D)) /\
    forest id 0 A ++ loose ls D ≡ₚ
    forest id 0 (take j A) ++ loose ls1 (take (j - length A) D) ++ loose ls2 (drop j (A ++ D)).
Proof.
  intros Hl. pose proof (forest_app id 0 (take j A) (drop j A)) as E.
  rewrite take_drop, (forest_loose _ _ (drop _ _)) in E.
  pose proof (loose_app (take (j - length A) ls) (drop (j - length A) ls)
                (take (j - length A) D) (drop (j - length A) D)) as E'.
  rewrite !take_drop in E'. rewrite E, E', drop_app by (rewrite !length_take; lia).
  eexists _, (((fun i => (id, i)) <$> seq (0 + length (take j A)) (length (drop j A))) ++ drop (j - length A) ls).
  rewrite loose_app by by rewrite length_fmap, length_seq.
  split; [|split; [|solve_Permutation]].
  - rewrite !length_take. lia.
  - rewrite !length_app, length_fmap, length_seq, !length_drop. lia.
Qed.

(** The children of the lower half that moved past place [i]. *)
Lemma lower_kids h es ks rs id i j :
  carried h es ks rs -> i <= length es -> 
  let km := take (j - length (take (S i) ks)) (rs ++ drop (S i) ks) in
  take (length km) (drop (i + 1) (take j (grown i ks rs))) = km /\
  forest id 0 (take j (grown i ks rs)) = forest id 0 (take j (take (S i) ks)) ++ forest id (i + 1) km /\
  (h <> 0 -> j <= S (length es) -> j - (i + 1) = length km).
Proof.
  intros Hc Hi km. unfold grown. rewrite take_app. fold km. destruct h as [|h]; simpl in Hc.
  { destruct Hc as [-> ->]. unfold km. simpl. by rewrite !take_nil. }
  destruct Hc as (Hl & _ & r & -> & _).
  assert (length (take (S i) ks) = S i) as HA by (rewrite length_take; lia).
  destruct (decide (j <= S i)) as [Hj|Hj].
  - assert (km = []) as -> by (unfold km; rewrite HA; by replace (j - S i) with 0 by lia).
    rewrite !app_nil_r. split_and!; [done|done|]. intros _ _. simpl. lia.
  - rewrite (take_ge (take (S i) ks)) by lia. rewrite Nat.add_1_r, forest_app, HA, drop_app_length' by done.
    split_and!; [by rewrite firstn_all|done|].
    intros _ Hj'. unfold km. rewrite HA, length_take, length_app, length_drop. simpl. lia.
Qed.

(** Both halves of a full node are subtrees of the same height. *)
Lemma half_sub h id es ks :
  MIN_LEN <= length es <= CAPACITY ->
  match h with O => ks = [] | S h' => length ks = S (length es) /\ Forall (sub h') ks end ->
  sub h (GNode id es ks).
Proof. intros [Hm Hc] Hk. split; [done|]. destruct h; simpl; done. Qed.

(** The two halves of the grown node: both are subtrees, and their contents
    around the middle entry are the node's. *)
Lemma split_halves h es ks rs i e mid id x :
  carried h es ks rs -> length es = CAPACITY ->
  drop B (ins_entry i e es) = mid :: drop (S B) (ins_entry i e es) ->
  let t1 := GNode id (take B (ins_entry i e es)) (take (S B) (grown i ks rs)) in
  let t2 := GNode x (drop (S B) (ins_entry i e es)) (drop (S B) (grown i ks rs)) in
  sub h t1 /\ sub h t2 /\ weave (ins_entry i e es) (flat <$> grown i ks rs) = flat t1 ++ mid :: flat t2.
Proof.
  intros Hc Hes Hmid t1 t2. pose proof (grown_ok h es ks rs i e Hc) as Hg.
  pose proof (length_ins_entry i e es) as Hl. subst t1 t2. set (es' := ins_entry i e es) in *. split_and!.
  - apply half_sub; [arith|]. destruct h; [by rewrite Hg|]. destruct Hg as [Hg Hgk].
    split; [arith|by apply Forall_take].
  - apply half_sub; [arith|]. destruct h; [by rewrite Hg|]. destruct Hg as [Hg Hgk].
    split; [arith|by apply Forall_drop].
  - rewrite <-(take_drop B es') at 1. rewrite Hmid. simpl.
    rewrite <-(take_drop (S B) (grown i ks rs)) at 1. rewrite fmap_app. apply weave_app.
    destruct h; [left; by rewrite Hg|right]. destruct Hg as [Hg _]. split; [arith|].
    intros E. apply (f_equal length) in E. arith.
Qed.

(** ** One split *)

Lemma split_step ns id es ks rs lk ls i e rest x fl h :
  arena ns ((id, mkCell es (gid <$> ks) lk) :: forest id 0 ks ++ loose ls rs ++ rest) (x :: fl) ->
  carried h es ks rs -> length ls = length rs -> length es = CAPACITY -> i <= CAPACITY ->
  exists n un mid lower up ns1 ns2 ns3 ns4 t1 t2 lu,
    node_at ns id = Some n /\ node_len n = CAPACITY /\ parent n = lk.1 /\ (lk.1 <> NONE -> place n = lk.2) /\
    take_free ns x = Some (x, next_of fl) /\ node_at ns x = Some un /\ id <> x /\
    split n un i e (right_id rs) = Some (mid, lower, up) /\
    write_node ns id lower = Some ns1 /\ write_node ns1 x up = Some ns2 /\
    adopt ns2 x 0 (CAPACITY - B) = Some ns3 /\ adopt ns3 id (i + 1) B = Some ns4 /\
    gid t1 = id /\ gid t2 = x /\ sub h t1 /\ sub h t2 /\
    weave (ins_entry i e es) (flat <$> grown i ks rs) = flat t1 ++ mid :: flat t2 /\
    arena ns4 (cells lk t1 ++ cells lu t2 ++ rest) fl.
Proof.
  intros Ha Hc Hls Hes Hi.
  destruct (arena_head _ _ _ _ _ Ha) as (n & Hn & Hh).
  destruct (arena_take _ _ _ _ Ha) as (Htf & (un & Hun & Hunl) & Hne).
  destruct (split_spec n un es (gid <$> ks) lk e (right_id rs) Hh Hes Hunl i Hi)
    as (mid & lower & up & Hsp & Hmid & Hlo & Hup).
  rewrite <-(grown_ids h es) in Hlo, Hup by done. rewrite <-fmap_take in Hlo. rewrite <-fmap_drop in Hup.
  set (es' := ins_entry i e es) in *.
  assert (length es' = 12) as Hes' by (unfold es'; rewrite length_ins_entry; arith).
  pose proof (grown_ok h es ks rs i e Hc) as Hg. fold es' in Hg.
  destruct (arena_write _ _ _ _ _ _ _ Ha Hlo) as (ns1 & Hw1 & Ha1).
  destruct (arena_claim _ _ _ _ _ _ Ha1 Hup) as (ns2 & Hw2 & Ha2).
  destruct (carried_loose h es ks rs id i ls Hc Hls) as (ls' & Hls' & Hp1).
  destruct (cut_loose id (S B) (take (S i) ks) (rs ++ drop (S i) ks) ls' Hls') as (ls1 & ls2 & Hl1 & Hl2 & Hp2).
  fold (grown i ks rs) in Hl2, Hp2.
  set (km := take (S B - length (take (S i) ks)) (rs ++ drop (S i) ks)) in *.
  set (lu := (parent un, place un)) in *.
  destruct (lower_kids h es ks rs id i (S B) Hc ltac:(lia)) as (Hk1 & Hk2 & Hk3). fold km in Hk1, Hk2, Hk3.
  destruct (adopt_spec ns2 x (drop (S B) es') (gid <$> drop (S B) (grown i ks rs)) lu
     ((id, mkCell (take B es') (gid <$> take (S B) (grown i ks rs)) lk) ::
        loose ls1 km ++ forest id 0 (take (S B) (take (S i) ks)) ++ rest)
     fl 0 (CAPACITY - B) ls2 (drop (S B) (grown i ks rs))) as (ns3 & Had3 & Ha3).
  { revert Ha2. apply arena_perm; [|done]. rewrite (app_assoc (forest id 0 ks)), Hp1, Hp2. solve_Permutation. }
  { done. }
  { rewrite drop_0, take_ge; [done|]. by rewrite length_fmap. }
  { intros Hnn. destruct h; [by rewrite Hg, drop_nil in Hnn|]. destruct Hg as [Hg _]. rewrite length_drop. arith. }
  destruct (adopt_spec ns3 id (take B es') (gid <$> take (S B) (grown i ks rs)) lk
     ((x, mkCell (drop (S B) es') (gid <$> drop (S B) (grown i ks rs)) lu) ::
        forest x 0 (drop (S B) (grown i ks rs)) ++ forest id 0 (take (S B) (take (S i) ks)) ++ rest)
     fl (i + 1) B ls1 km) as (ns4 & Had4 & Ha4).
  { revert Ha3. apply arena_perm; [|done]. solve_Permutation. }
  { done. }
  { by rewrite <-fmap_drop, <-fmap_take, Hk1. }
  { intros Hnn. apply Hk3; [|arith]. intros ->. by rewrite Hg, take_nil in Hnn. }
  exists n, un, mid, lower, up, ns1, ns2, ns3, ns4, (GNode id (take B es') (take (S B) (grown i ks rs))),
    (GNode x (drop (S B) es') (drop (S B) (grown i ks rs))), lu.
  pose proof (holds_entries _ _ Hh) as He. cbn in He.
  destruct (split_halves h es ks rs i e mid id x Hc Hes Hmid) as (Hs1 & Hs2 & Hwv).
  split_and!; [done|by unfold node_len; rewrite He|apply (holds_parent _ _ Hh)|apply (holds_place _ _ Hh)|
    done|done|eapply Hne; by left|done..|].
  revert Ha4. apply arena_perm; [|done]. rewrite !cells_unfold, Hk2. solve_Permutation.
Qed.

(** ** A node with room *)

Lemma insert_step ns id es ks rs lk ls i e rest fl h :
  arena ns ((id, mkCell es (gid <$> ks) lk) :: forest id 0 ks ++ loose ls rs ++ rest) fl ->
  carried h es ks rs -> length ls = length rs -> length es < CAPACITY -> i <= length es ->
  exists n n' ns1 ns2,
    node_at ns id = Some n /\ node_len n = length es /\ node_insert n i e (right_id rs) = Some n' /\
    write_node ns id n' = Some ns1 /\ adopt ns1 id (i + 1) (node_len n') = Some ns2 /\
    arena ns2 (cells lk (GNode id (ins_entry i e es) (grown i ks rs)) ++ rest) fl.
Proof.
  intros Ha Hc Hls Hes Hi. destruct (arena_head _ _ _ _ _ Ha) as (n & Hn & Hh).
  destruct (node_insert_spec n es _ lk i e (right_id rs) Hh Hi Hes) as (n' & Hins & Hh').
  rewrite <-(grown_ids h es) in Hh' by done.
  destruct (arena_write _ _ _ _ _ _ _ Ha Hh') as (ns1 & Hw & Ha1).
  destruct (carried_loose h es ks rs id i ls Hc Hls) as (ls' & Hls' & Hp).
  pose proof (holds_entries _ _ Hh') as He'. cbn in He'.
  destruct (adopt_spec ns1 id (ins_entry i e es) (gid <$> grown i ks rs) lk
     (forest id 0 (take (S i) ks) ++ rest) fl (i + 1) (node_len n') ls' (rs ++ drop (S i) ks))
    as (ns2 & Had & Ha2).
  - revert Ha1. apply arena_perm; [|done]. rewrite (app_assoc (forest id 0 ks)), Hp. solve_Permutation.
  - done.
  - destruct (lower_kids h es ks rs id i (length (grown i ks rs)) Hc Hi) as (Hk & _ & _).
    rewrite firstn_all, (take_ge (rs ++ _)) in Hk; [by rewrite <-fmap_drop, <-fmap_take, Hk|].
    unfold grown. rewrite !length_app. lia.
  - intros Hnn. unfold node_len. rewrite He', length_ins_entry. destruct h.
    { pose proof (grown_ok 0 es ks rs i e Hc) as Hg. simpl in Hg. by rewrite Hg in Hnn. }
    destruct Hc as (Hl & _ & r & -> & _). rewrite length_app, length_drop. simpl. lia.
  - exists n, n', ns1, ns2. pose proof (holds_entries _ _ Hh) as He. cbn in He.
    split_and!; [done|by unfold node_len; rewrite He|done..|].
    revert Ha2. apply arena_perm; [|done].
    rewrite cells_unfold, (grown_forest h es) by done. solve_Permutation.
Qed.

(** ** The climb *)

(** The parent takes the halves in place of the node that split. *)
Lemma grown_frame (f : Frame K V) (t1 t2 : GTree K V) :
  grown (length (f_left f)) (f_left f ++ t1 :: f_right f) [t2] = f_left f ++ t1 :: t2 :: f_right f.
Proof.
  unfold grown. replace (f_left f ++ t1 :: f_right f) with ((f_left f ++ [t1]) ++ f_right f) by by rewrite <-app_assoc.
  rewrite take_app_length', drop_app_length' by (rewrite length_app; simpl; lia).
  by rewrite <-app_assoc.
Qed.

Lemma weave_frame (f : Frame K V) (t1 t2 : GTree K V) mid :
  length (f_es f) = length (f_left f) + length (f_right f) ->
  weave (ins_entry (length (f_left f)) mid (f_es f)) (flat <$> (f_left f ++ t1 :: t2 :: f_right f))
  = befores (take (length (f_left f)) (f_es f)) (flat <$> f_left f) ++ (flat t1 ++ mid :: flat t2) ++
    afters (drop (length (f_left f)) (f_es f)) (flat <$> f_right f).
Proof.
  intros Hl. rewrite fmap_app, fmap_cons, fmap_cons.
  rewrite weave_mid by (rewrite length_ins_entry; simpl; rewrite !length_fmap; lia).
  rewrite length_fmap, take_ins_ge, drop_ins_ge, Nat.sub_diag by lia.
  unfold ins_entry at 1. rewrite take_0, drop_0. cbn [app]. rewrite afters_cons. simpl. by rewrite <-!app_assoc.
Qed.

(** What the climb leaves: a tree with the entry in it. *)
Definition stored (ns : list (Node K V)) (g : GTree K V) (h : nat) (fl : list N) (l : list (K * V)) : Prop :=
  arena ns (cells (NONE, 0) g) fl /\ wf h g /\ 1 <= length (ges g) /\ flat g = l.

Lemma stored_plug ns t c fl h :
  arena ns (cells (hole_link c) t ++ around (gid t) c) fl -> cwf h c -> wf h t -> low c <= length (ges t) ->
  stored ns (plug t c) (h + length c) fl (lflat c ++ flat t ++ rflat c).
Proof.
  intros Ha Hc Ht Hl. destruct (wf_plug h t c Hc Ht Hl) as [Hw H1].
  split_and!; [by rewrite cells_plug|done|done|]. by apply (flat_plug h).
Qed.

(** The root splits: a new root over its halves. *)
Lemma new_root ns x fl t1 t2 lu mid h :
  arena ns (cells (NONE, 0) t1 ++ cells lu t2) (x :: fl) -> sub h t1 -> sub h t2 ->
  exists n ns1 ns2,
    take_free ns x = Some (x, next_of fl) /\ holding [mid] (Some [gid t1; gid t2]) = Some n /\
    write_node ns x n = Some ns1 /\ adopt ns1 x 0 1 = Some ns2 /\
    stored ns2 (GNode x [mid] [t1; t2]) (S h) fl (flat t1 ++ mid :: flat t2).
Proof.
  intros Ha H1 H2. destruct (arena_take _ _ _ _ Ha) as (Htf & _).
  destruct (holding_spec [mid] [gid t1; gid t2]) as (n & Hn & Hh); [arith|by right|].
  destruct (arena_claim _ _ _ _ _ _ Ha Hh) as (ns1 & Hw & Ha1).
  destruct (adopt_spec ns1 x [mid] [gid t1; gid t2] (NONE, 0) [] fl 0 1 [(NONE, 0); lu] [t1; t2])
    as (ns2 & Had & Ha2); [|done..|].
  { simpl loose. by rewrite !app_nil_r. }
  exists n, ns1, ns2. split_and!; [done..|]. split_and!.
  - rewrite cells_unfold. by rewrite app_nil_r in Ha2.
  - simpl. split_and!; [arith|done|]. by constructor; [|constructor].
  - simpl. lia.
  - simpl. unfold afters. simpl. by rewrite app_nil_r.
Qed.

Lemma demand_room n c : n <> CAPACITY -> demand n c = 0.
Proof. intros Hn. apply Nat.eqb_neq in Hn. destruct c; simpl; by rewrite Hn. Qed.

Lemma store_room fuel ns fl h id es ks rs i e ls c :
  arena ns ((id, mkCell es (gid <$> ks) (hole_link c)) :: forest id 0 ks ++ loose ls rs ++ around id c) fl ->
  length ls = length rs -> carried h es ks rs -> cwf h c -> low c <= length es -> length es <= CAPACITY ->
  i <= length es -> length es <> CAPACITY ->
  exists ns' g h' fl',
    store_loop (S fuel) ns (next_of fl) (root_id id c) (h + length c) id i e (right_id rs)
      = Some (ns', gid g, h', next_of fl') /\
    stored ns' g h' fl' (lflat c ++ weave (ins_entry i e es) (flat <$> grown i ks rs) ++ rflat c) /\
    length fl = length fl' + demand (length es) c.
Proof.
  intros Ha Hls Hc Hcw Hlow Hcap Hi Hroom.
  destruct (insert_step _ _ _ _ _ _ _ i e _ _ h Ha Hc Hls) as (n & n' & ns1 & ns2 & Hn & Hlen & Hins & Hw & Had & Ha');
    [lia|done|].
  exists ns2, (plug (GNode id (ins_entry i e es) (grown i ks rs)) c), (h + length c), fl. split_and!.
  - cbn [store_loop]. exec. rewrite Hlen, (proj2 (Nat.ltb_lt _ _)) by lia. exec. by rewrite gid_plug.
  - apply (stored_plug ns2 _ c fl h Ha' Hcw); cbn [ges]; [|rewrite length_ins_entry; lia].
    pose proof (grown_ok h es ks rs i e Hc) as Hg. pose proof (length_ins_entry i e es).
    destruct h; (split; [cbn [ges]; lia|done]).
  - rewrite demand_room by done. lia.
Qed.

Lemma store_loop_spec c : forall fuel ns fl h id es ks rs i e ls,
  length c < fuel ->
  arena ns ((id, mkCell es (gid <$> ks) (hole_link c)) :: forest id 0 ks ++ loose ls rs ++ around id c) fl ->
  length ls = length rs -> carried h es ks rs -> cwf h c -> low c <= length es -> length es <= CAPACITY ->
  i <= length es -> demand (length es) c <= length fl ->
  exists ns' g h' fl',
    store_loop fuel ns (next_of fl) (root_id id c) (h + length c) id i e (right_id rs)
      = Some (ns', gid g, h', next_of fl') /\
    stored ns' g h' fl' (lflat c ++ weave (ins_entry i e es) (flat <$> grown i ks rs) ++ rflat c) /\
    length fl = length fl' + demand (length es) c.
Proof.
  induction c as [|f c IH]; intros fuel ns fl h id es ks rs i e ls Hfu Ha Hls Hc Hcw Hlow Hcap Hi Hd;
    (destruct fuel as [|fuel]; [simpl in Hfu; lia|]);
    (destruct (decide (length es = CAPACITY)) as [Hfull|Hroom]; [|by eapply store_room]).
  - simpl in Hd. rewrite Hfull, Nat.eqb_refl in Hd. destruct fl as [|x [|y fl]]; [simpl in Hd; lia..|].
    destruct (split_step _ _ _ _ _ _ _ i e _ _ _ h Ha Hc Hls Hfull ltac:(lia))
      as (n & un & mid & lower & up & ns1 & ns2 & ns3 & ns4 & t1 & t2 & lu & Hn & Hlen & Hpar & _ & Htf & Hun & Hne &
          Hsp & Hw1 & Hw2 & Had1 & Had2 & Hid1 & Hid2 & Hs1 & Hs2 & Hwv & Ha4).
    cbn [around] in Ha4. rewrite app_nil_r in Ha4.
    destruct (new_root ns4 y fl t1 t2 lu mid h Ha4 Hs1 Hs2) as (rn & ns5 & ns6 & Htf2 & Hho & Hw5 & Had6 & Hst).
    exists ns6, (GNode y [mid] [t1; t2]), (S h), fl. split_and!.
    + subst id x. cbn [store_loop next_of]. exec. rewrite Hlen, Nat.ltb_irrefl. exec. rewrite decide_False by done.
      exec. rewrite decide_True by done. cbn [next_of]. exec. cbn [length gid]. by rewrite Nat.add_0_r, Nat.add_1_r.
    + cbn [lflat rflat app]. by rewrite app_nil_r, Hwv.
    + simpl. rewrite Hfull, Nat.eqb_refl. lia.
  - cbn [demand] in Hd. rewrite Hfull, Nat.eqb_refl in Hd. destruct fl as [|x fl]; [simpl in Hd; lia|].
    destruct (split_step _ _ _ _ _ _ _ i e _ _ _ h Ha Hc Hls Hfull ltac:(lia))
      as (n & un & mid & lower & up & ns1 & ns2 & ns3 & ns4 & t1 & t2 & lu & Hn & Hlen & Hpar & Hpl & Htf & Hun & Hne &
          Hsp & Hw1 & Hw2 & Had1 & Had2 & Hid1 & Hid2 & Hs1 & Hs2 & Hwv & Ha4).
    cbn [cwf] in Hcw. destruct Hcw as (Hfc & Hfl & Hflen & Hkl & Hkr & Hcw).
    assert (f_id f <> NONE) as Hfid.
    { rewrite app_assoc in Ha4. by eapply arena_frame_ne. }
    destruct (IH fuel ns4 fl (S h) (f_id f) (f_es f) (f_left f ++ t1 :: f_right f) [t2] (length (f_left f)) mid [lu])
      as (ns' & g & h' & fl' & Hrun & Hst & Hfl').
    { simpl in Hfu. lia. }
    { revert Ha4. apply arena_perm; [|done]. cbn [around loose]. rewrite fmap_app, fmap_cons, forest_app, Hid1.
      cbn [forest hole_link Nat.add app]. rewrite app_nil_r. solve_Permutation. }
    { done. }
    { split_and!; [rewrite length_app; simpl; lia|apply Forall_app; split; [done|by constructor]|by eexists]. }
    { done. }
    { done. }
    { done. }
    { lia. }
    { simpl in Hd. lia. }
    exists ns', g, h', fl'. split_and!.
    + cbn [store_loop next_of root_id]. exec. rewrite Hlen, Nat.ltb_irrefl. exec. rewrite decide_False by done.
      exec. cbn [hole_link fst snd] in Hpar, Hpl. rewrite Hpar, decide_False, Hpl by done.
      subst id x. replace (h + length (f :: c)) with (S h + length c) by (simpl; lia). exact Hrun.
    + rewrite grown_frame, weave_frame in Hst by done. cbn [lflat rflat]. rewrite Hwv.
      by rewrite <-!app_assoc in *.
    + cbn [demand length]. rewrite Hfull, Nat.eqb_refl. lia.
Qed.

(** ** Room in the extent *)

Lemma demand_bound n c : demand n c <= length c + 2.
Proof.
  revert n. induction c as [|f c IH]; intros n; simpl; destruct (n =? CAPACITY); try lia.
  specialize (IH (length (f_es f))). lia.
Qed.

(** An insert leaves no more nodes in use than the tree has entries. *)
Lemma room_bound ns fl g c :
  focus ns fl 0 g c ->
  length (cells (NONE, 0) (plug g c)) + demand (length (ges g)) c <= length (flat (plug g c)) + 1.
Proof.
  intros [Ha Hw Hc Hlow]. destruct (wf_plug _ _ _ Hc Hw Hlow) as [Hwp H1p].
  pose proof (tree_cells _ _ (NONE, 0) Hwp H1p) as Hcl.
  destruct (decide (length (ges g) = CAPACITY)) as [Hfull|]; [|rewrite demand_room by done; lia].
  pose proof (demand_bound (length (ges g)) c) as Hd. pose proof (around_length (gid g) c) as Har.
  assert (length c < length (cells (NONE, 0) (plug g c))) as Hlt.
  { rewrite cells_plug, length_app, cells_head. simpl. lia. }
  assert (11 <= length (flat (plug g c))) as Hge.
  { rewrite (flat_plug 0) by done. destruct g as [id es ks], Hw as [_ Hk]. simpl in Hk. subst ks. simpl.
    rewrite !length_app. simpl in Hfull. rewrite Hfull. arith. }
  lia.
Qed.

(** ** Insert *)

(** [stored] is what [stores] asks of a tree that holds entries. *)
Lemma stored_stores ns g h fl l n :
  stored ns g h fl l -> n = length l -> stores (mkTree ns (gid g) h (next_of fl) n) l.
Proof.
  intros (Ha & Hw & H1 & <-) ->. split; [done|]. exists fl. split; [done|]. right. exists g. done.
Qed.

Lemma stored_count ns g h fl l : stored ns g h fl l -> length ns <= length l + length fl.
Proof.
  intros (Ha & Hw & H1 & <-). rewrite (arena_count _ _ _ Ha). pose proof (tree_cells _ _ (NONE, 0) Hw H1).
  pose proof (root_length _ _ Hw H1).
  assert (0 < B ^ h) by (apply Nat.neq_0_lt_0, Nat.pow_nonzero; by rewrite b_is). lia.
Qed.

(** No edit but [reserve] changes the length of the extent. *)
Lemma adopt_places_length ns ns' at_ ps : adopt_places ns at_ ps = Some ns' -> length ns' = length ns.
Proof.
  revert ns. induction ps as [|p ps IH]; intros ns E; simpl in E; unbind; [done|].
  rewrite (IH _ E). unfold adopt_one in *. unbind. by eapply write_node_length.
Qed.

Lemma adopt_length ns ns' at_ a b : adopt ns at_ a b = Some ns' -> length ns' = length ns.
Proof. unfold adopt. intros E. unbind; [done|]. by eapply adopt_places_length. Qed.

Lemma store_loop_length fuel ns fr r h at_ i e right ns' r' h' fr' :
  store_loop fuel ns fr r h at_ i e right = Some (ns', r', h', fr') -> length ns' = length ns.
Proof.
  revert ns fr at_ i e right. induction fuel as [|fuel IH]; intros ns fr at_ i e right E; [done|].
  cbn [store_loop] in E. unbind; try apply IH in E;
    repeat match goal with
           | E : adopt _ _ _ _ = Some _ |- _ => apply adopt_length in E
           | E : write_node _ _ _ = Some _ |- _ => apply write_node_length in E
           end; lia.
Qed.

(** The first entry of an empty tree. *)
Lemma store_empty ns r fl e :
  arena ns [] fl -> (N.of_nat 1 < NONE)%N ->
  exists t1 t2, reserve (mkTree ns r 0 (next_of fl) 0) 1 = Some t1 /\ store_at t1 NONE 0 e = Some t2 /\
    stores t2 [e] /\ length (nodes t2) <= max (length ns) 1.
Proof.
  intros Ha Hlt. destruct (reserve_spec ns r 0 0 [] fl 1 Ha Hlt) as (ns1 & fl1 & -> & Ha1 & Hfl & Hn).
  eexists _. destruct fl1 as [|x fl1]; [simpl in Hfl; lia|].
  destruct (arena_take _ _ _ _ Ha1) as (Htf & _).
  destruct (holding_spec [e] []) as (n & Hho & Hh); [arith|by left|].
  destruct (arena_claim _ _ _ _ _ _ Ha1 Hh) as (ns2 & Hw & Ha2).
  eexists. split; [done|]. unfold store_at. rewrite decide_True by done. cbn [nodes free next_of tlen]. exec.
  split; [done|]. split.
  - apply (stored_stores ns2 (GNode x [e] []) 0 fl1); [|done]. split_and!; [done|split; [simpl; arith|done]|simpl; lia|done].
  - cbn [nodes]. rewrite (write_node_length _ _ _ _ Hw). done.
Qed.

(** A new entry at the place a descent found. *)
Lemma store_vacant t e l g c fl i :
  lands t e.1 l 0 g c fl i false -> stores t l -> (N.of_nat (length l + 1) < NONE)%N ->
  exists t1 t2, reserve t (demand (length (ges g)) c) = Some t1 /\ store_at t1 (gid g) i e = Some t2 /\
    stores t2 (sm_put e l) /\ length (nodes t2) <= max (length (nodes t)) (length (sm_put e l)).
Proof.
  intros (Hf & Hl & Hr & Hh & Hfr & _ & Hi & Hlo & Hhi) [Hlen _] Hlt.
  pose proof (room_bound _ _ _ _ Hf) as Hroom. rewrite Hl in Hroom.
  pose proof (focus_whole _ _ _ _ _ Hf) as Hwh.
  destruct t as [ns r h fr len]. cbn [nodes root height free tlen] in *. subst r fr h len.
  destruct (reserve_spec ns (root_id (gid g) c) (0 + length c) (length l) _ fl (demand (length (ges g)) c) Hwh)
    as (ns1 & fl1 & Hres & Ha1 & Hfl & Hn); [lia|].
  destruct Hf as [_ Hw Hc Hlow]. destruct g as [id es ks]. pose proof Hw as (Hcap & Hks). cbn [gks ges] in *. subst ks.
  rewrite cells_plug in Ha1. cbn [gid ges] in *.
  destruct (store_loop_spec c (length ns1) ns1 fl1 0 id es [] [] i e []) as (ns2 & g2 & h2 & fl2 & Hrun & Hst & Hfl2);
    try done.
  { by eapply (path_fuel ns1 (GNode id es [])). }
  assert (sm_put e l = lflat c ++ weave (ins_entry i e es) (flat <$> grown i [] []) ++ rflat c) as Hput.
  { rewrite <-Hl, (flat_plug 0) by done. simpl. rewrite <-(take_drop i es) at 1. rewrite <-app_assoc, app_assoc.
    rewrite sm_put_vacant by done. unfold ins_entry. by rewrite <-!app_assoc. }
  rewrite <-Hput in Hst.
  assert (length (sm_put e l) = length l + 1) as Hpl.
  { rewrite Hput, <-Hl, (flat_plug 0) by done. simpl. rewrite !length_app, length_ins_entry. lia. }
  eexists _, _. split; [exact Hres|]. unfold store_at.
  assert (id <> NONE) as Hid by (eapply arena_elem_ne; [exact Ha1|]; rewrite cells_unfold; left).
  rewrite decide_False by done. cbn [nodes free root height tlen]. cbn [right_id] in Hrun. exec.
  split; [done|]. split; [apply (stored_stores ns2 g2 h2 fl2 _ _ Hst); lia|]. cbn [nodes].
  rewrite (store_loop_length _ _ _ _ _ _ _ _ _ _ _ _ _ Hrun). lia.
Qed.

(** The contents around an entry of the node in focus. *)
Lemma around_entry h id es1 e es2 ks c :
  wf h (GNode id (es1 ++ e :: es2) ks) ->
  lflat c ++ flat (GNode id (es1 ++ e :: es2) ks) ++ rflat c
  = (lflat c ++ weave es1 (flat <$> take (S (length es1)) ks)) ++ e ::
    (weave es2 (flat <$> drop (S (length es1)) ks) ++ rflat c).
Proof.
  intros Hw. pose proof (wf_fitting _ _ Hw) as Hf. cbn [ges gks] in Hf. simpl. rewrite weave_at.
  - rewrite fmap_take, fmap_drop. by rewrite <-!app_assoc.
  - rewrite length_fmap. destruct Hf as [->|Hf]; [by left|by right].
Qed.

(** An entry found: what is before it, what is after it, and the node's other
    entries. *)
Lemma found_split t key l h g c fl i :
  lands t key l h g c fl i true -> ascending l ->
  exists es1 e es2 l1 l2, ges g = es1 ++ e :: es2 /\ i = length es1 /\ cmp e.1 key = Eq /\
    l = l1 ++ e :: l2 /\ all_below key l1 /\ all_above key l2 /\
    l1 = lflat c ++ weave es1 (flat <$> take (S (length es1)) (gks g)) /\
    l2 = weave es2 (flat <$> drop (S (length es1)) (gks g)) ++ rflat c.
Proof.
  intros ([_ Hw Hc _] & Hl & _ & _ & _ & e & He & Hk) Ha.
  pose proof (take_drop_middle _ _ _ He) as Hes. pose proof (lookup_lt_Some _ _ _ He) as Hi.
  rewrite (flat_plug h) in Hl by done. destruct g as [id es ks]. cbn [ges gks] in *.
  rewrite <-Hes in Hw, Hl. rewrite (around_entry h) in Hl by done.
  assert (length (take i es) = i) as Hti by (rewrite length_take; lia).
  eexists (take i es), e, (drop (S i) es), _, _. rewrite <-Hl in Ha. destruct (ascending_around _ _ _ Ha) as [Hb Hab].
  apply (below_congr _ _ _ Hk) in Hb. apply (above_congr _ _ _ Hk) in Hab. split_and!; [done|done|done|exact (eq_sym Hl)|done..].
Qed.

Lemma lands_vacant (t : Tree K V) key l g c fl i : lands t key l 0 g c fl i false -> sm_find key l = None.
Proof.
  intros ([_ Hw Hc _] & <- & _ & _ & _ & _ & Hi & Hlo & Hhi).
  rewrite (flat_plug 0) by done. destruct g as [id es ks], Hw as [_ Hks].
  cbn [gks ges] in *. subst ks. simpl. rewrite <-(take_drop i es), <-app_assoc, app_assoc.
  by rewrite sm_find_below, sm_find_above.
Qed.

Lemma lands_congr (t : Tree K V) a b l g c fl i :
  cmp a b = Eq -> lands t b l 0 g c fl i false -> lands t a l 0 g c fl i false.
Proof.
  intros E (Hf & Hl & Hr & Hh & Hfr & H0 & Hi & Hlo & Hhi). apply cmp_eq_sym in E.
  split_and!; try done; [by eapply below_congr|by eapply above_congr].
Qed.

(** The vacant place of [locate], from reservation to the stored entry. *)
Lemma store_located t l key (e : K * V) at_ i need :
  stores t l -> ascending l -> (N.of_nat (length (sm_put e l)) < NONE)%N -> cmp e.1 key = Eq ->
  locate t key = Some (Vacant at_ i need) ->
  sm_find key l = None /\
  exists t1 t2, reserve t need = Some t1 /\ store_at t1 at_ i e = Some t2 /\ stores t2 (sm_put e l) /\
    length (nodes t2) <= max (length (nodes t)) (length (sm_put e l)).
Proof.
  intros Hst Ha Hlt He Hloc. destruct (locate_spec t key l Hst Ha) as (sp & Hsp & Hspec).
  rewrite Hsp in Hloc. injection Hloc as ->.
  destruct Hspec as [(-> & -> & -> & ->)|(g & c & fl & -> & -> & Hl)].
  - split; [done|]. destruct Hst as (Hlen & fl & Hfr & [(_ & Hr & Hh & Har)|(g & Hg & Hg')]).
    + destruct t as [ns r h fr len]. cbn in *. subst. by apply store_empty.
    + exfalso. destruct Hg' as (_ & Hw & H1 & _). by eapply flat_nonempty.
  - pose proof (lands_congr _ _ _ _ _ _ _ _ He Hl) as Hl'. split; [by eapply lands_vacant|].
    eapply store_vacant; [done..|]. rewrite sm_put_length_absent in Hlt by by eapply lands_vacant. done.
Qed.

Lemma found_located t l (key : K) at_ i :
  stores t l -> ascending l -> locate t key = Some (Found at_ i) ->
  exists h g c fl es1 e es2 l1 l2, at_ = gid g /\ lands t key l h g c fl i true /\
    ges g = es1 ++ e :: es2 /\ i = length es1 /\ cmp e.1 key = Eq /\
    l = l1 ++ e :: l2 /\ all_below key l1 /\ all_above key l2 /\
    l1 = lflat c ++ weave es1 (flat <$> take (S (length es1)) (gks g)) /\
    l2 = weave es2 (flat <$> drop (S (length es1)) (gks g)) ++ rflat c.
Proof.
  intros Hst Ha Hloc. destruct (locate_spec t key l Hst Ha) as (sp & Hsp & Hspec).
  rewrite Hsp in Hloc. injection Hloc as ->. destruct Hspec as (h & g & c & fl & -> & Hl).
  destruct (found_split _ _ _ _ _ _ _ _ Hl Ha) as (es1 & e & es2 & l1 & l2 & Hrest).
  by exists h, g, c, fl, es1, e, es2, l1, l2.
Qed.

Lemma insert_entry_spec t l (e : K * V) :
  stores t l -> ascending l -> (N.of_nat (length (sm_put e l)) < NONE)%N ->
  exists b t', tree_insert t e = Some (b, t') /\
    match sm_find e.1 l with
    | Some _ => b = false /\ t' = t
    | None => b = true /\ stores t' (sm_put e l) /\
              length (nodes t') <= max (length (nodes t)) (length (sm_put e l))
    end.
Proof.
  intros Hst Ha Hlt. unfold tree_insert.
  destruct (locate_spec t e.1 l Hst Ha) as ([at_ i|at_ i need] & Hsp & _); rewrite Hsp; cbn [mbind option_bind].
  - destruct (found_located _ _ _ _ _ Hst Ha Hsp) as (h & g & c & fl & es1 & x & es2 & l1 & l2 & _ & _ & _ & _ & Hx & -> & Hb & _).
    exists false, t. split; [done|]. by rewrite sm_find_here.
  - destruct (store_located _ _ _ _ _ _ _ Hst Ha Hlt (cmp_refl _) Hsp) as (-> & t1 & t2 & Hr & Hs2 & Hst2 & Hn). exec. eauto 10.
Qed.

(** ** Put *)

(** A value edited in place. *)
Lemma edit_focus ns fl h id es1 e es2 ks c v :
  focus ns fl h (GNode id (es1 ++ e :: es2) ks) c ->
  exists n ns', node_at ns id = Some n /\ entries n = es1 ++ e :: es2 /\
    write_node ns id (set_entries n (<[length es1 := (e.1, v)]> (entries n))) = Some ns' /\
    focus ns' fl h (GNode id (es1 ++ (e.1, v) :: es2) ks) c.
Proof.
  intros [Ha Hw Hc Hlow]. rewrite cells_unfold in Ha.
  destruct (arena_head _ _ _ _ _ Ha) as (n & Hn & Hh).
  pose proof (holds_entries _ _ Hh) as He. cbn in He.
  destruct (node_replace_spec n es1 e es2 _ _ (e.1, v) Hh) as (n' & Hr & Hh').
  unfold node_replace in Hr. rewrite He, list_lookup_middle in Hr by done. cbn in Hr. injection Hr as <-.
  destruct (arena_write _ _ _ _ _ _ _ Ha Hh') as (ns' & Hwr & Ha').
  exists n, ns'. rewrite He. split_and!; [done..|].
  assert (length (es1 ++ (e.1, v) :: es2) = length (es1 ++ e :: es2)) as Hle by by rewrite !length_app.
  split; [by rewrite cells_unfold| |done|by cbn [ges] in *; rewrite Hle].
  destruct h; cbn [wf ges gks] in *; by rewrite Hle.
Qed.

(** A tree seen from any of its nodes. *)
Lemma focus_stores ns fl h g c l n :
  focus ns fl h g c -> l = lflat c ++ flat g ++ rflat c -> n = length l ->
  stores (mkTree ns (root_id (gid g) c) (h + length c) (next_of fl) n) l.
Proof.
  intros [Ha Hw Hc Hlow] -> ->. rewrite <-gid_plug. apply stored_stores; [|done]. by apply stored_plug.
Qed.

Lemma put_spec {R} t l key (edit : V -> R * V) (vacant : K * V) :
  stores t l -> ascending l -> (N.of_nat (length (sm_put vacant l)) < NONE)%N -> cmp vacant.1 key = Eq ->
  exists p t', put t key edit vacant = Some (p, t') /\
    match sm_find key l with
    | Some (k, v) => p = Edited R (edit v).1 /\ stores t' (sm_put (k, (edit v).2) l) /\
                length (nodes t') = length (nodes t)
    | None => p = Stored R vacant.1 /\ stores t' (sm_put vacant l) /\
              length (nodes t') <= max (length (nodes t)) (length (sm_put vacant l))
    end.
Proof.
  intros Hst Ha Hlt Hvk. unfold put.
  destruct (locate_spec t key l Hst Ha) as ([at_ i|at_ i need] & Hsp & _); rewrite Hsp; cbn [mbind option_bind].
  - destruct (found_located _ _ _ _ _ Hst Ha Hsp)
      as (h & [id es ks] & c & fl & es1 & e & es2 & l1 & l2 & -> & (Hf & Hl & Hr & Hh & Hfr & _) & Hes & -> & Hk & El & Hb & Hab & El1 & El2).
    cbn [ges gid gks] in *. subst es. destruct e as [k v]. cbn [fst] in Hk.
    destruct (edit_focus _ _ _ _ _ _ _ _ _ (edit v).2 Hf) as (n & ns' & Hn & He & Hw & Hf').
    rewrite Hn. cbn [mbind option_bind]. rewrite He, list_lookup_middle by done. cbn [mbind option_bind fst snd].
    rewrite He in Hw. cbn [fst] in Hw. destruct (edit v) as [r v'] eqn:Ee. cbn [snd] in *. exec.
    eexists _, _. split; [done|]. rewrite El, sm_find_here by done.
    rewrite Ee. split; [done|]. split; [|by cbn [nodes]; rewrite (write_node_length _ _ _ _ Hw)].
    rewrite sm_put_here by (cbn [fst]; first [apply cmp_refl|by eapply below_congr; [by apply cmp_eq_sym|]]). rewrite Hr, Hh, Hfr, (proj1 Hst).
    apply (focus_stores _ _ _ _ _ _ _ Hf'); [|by rewrite El, !length_app].
    rewrite El1, El2. symmetry. apply (around_entry h). by eapply focus_wf.
  - destruct (store_located _ _ _ _ _ _ _ Hst Ha Hlt Hvk Hsp) as (-> & t1 & t2 & Hr & Hs2 & Hst2 & Hn). exec. eauto 10.
Qed.

End Insert.
