(* ===== verification/BTreeRemove.v ===== *)
(** * Removal

    [tree/remove.rs]: the entry leaves its leaf, or trades places with its
    predecessor, and [refill] climbs from that leaf: a short node borrows from
    the left, borrows from the right, or merges, and the parent that lost an
    entry is next.  Each of the three moves is one lemma on two neighbours and
    the separator between them. *)

From stdpp Require Import base numbers option list sorting.
From S2P Require Import Prelude BTreeNode BTree BTreeCell BTreeArena BTreeShape BTreeSpec BTreeInsert.

Section Remove.
Context {K V : Type} `{KeyOrder K}.
Implicit Types (ks rs mv : list (GTree K V)) (es : list (K * V)) (c : list (Frame K V)) (ns : list (Node K V)).

(** ** Two neighbours *)

(** Two neighbours [a] and [b] of height [h] below the node [pid], with the
    separator [sep] between them. *)
Definition neighbours (pid : N) es1 (sep : K * V) es2 (A : list (GTree K V)) (a b : GTree K V)
    (D : list (GTree K V)) (lk : link) : list (N * Cell K V) :=
  (pid, mkCell (es1 ++ sep :: es2) (gid <$> (A ++ a :: b :: D)) lk)
    :: cells (pid, length A) a ++ cells (pid, S (length A)) b.

(** The child that changes sides: none between leaves. *)
Definition moves (h : nat) mv : Prop := match h with O => mv = [] | S _ => exists k, mv = [k] end.

Definition sized (h : nat) es ks : Prop := match h with O => ks = [] | S _ => length ks = S (length es) end.

Lemma sized_fitting h es ks : sized h es ks -> fitting es ks.
Proof. destruct h; [by left|by right]. Qed.

Lemma sized_nil h es ks : sized h es ks -> (gid <$> ks = []) <-> h = 0.
Proof.
  destruct h; simpl; [intros ->; done|]. intros Hl. split; [|done]. intros E. by destruct ks.
Qed.

Lemma default_right_id mv ks : default NONE ((gid <$> (mv ++ ks)) !! 0) = right_id (mv ++ ks).
Proof. by destruct (mv ++ ks). Qed.

Lemma borrow_left_step ns h pid es1 sep es2 A ida el x ka mv idb esb kb D lk rest fl :
  let a := GNode ida (el ++ [x]) (ka ++ mv) in
  let b := GNode idb esb kb in
  arena ns (neighbours pid es1 sep es2 A a b D lk ++ rest) fl ->
  length es1 = length A -> sized h el ka -> moves h mv -> sized h esb kb -> length esb < CAPACITY ->
  exists ns', borrow_left ns idb pid ida (S (length A)) = Some ns' /\
    arena ns' (neighbours pid es1 x es2 A (GNode ida el ka) (GNode idb (sep :: esb) (mv ++ kb)) D lk ++ rest) fl.
Proof.
  intros a b Ha Hes Hka Hmv Hkb Hlt. unfold neighbours in *. subst a b. rewrite !cells_unfold in *.
  assert (default NONE ((gid <$> ka ++ mv) !! S (length el)) = right_id mv) as Hch.
  { destruct h; simpl in *; [by subst|]. destruct Hmv as [k ->].
    rewrite fmap_app, lookup_app_r, length_fmap, Hka, Nat.sub_diag by by rewrite length_fmap, Hka. done. }
  assert (take (S (length el)) (gid <$> ka ++ mv) = gid <$> ka) as Htk.
  { rewrite <-fmap_take. f_equal. destruct h; simpl in *; [by subst|]. by rewrite take_app_length'. }
  assert (match gid <$> kb with [] => [] | _ :: _ => right_id mv :: (gid <$> kb) end = gid <$> (mv ++ kb)) as Hkb'.
  { destruct h; simpl in *; [by subst|]. destruct Hmv as [k ->]. by destruct kb. }
  set (P := fun e => (pid, mkCell (es1 ++ e :: es2) (gid <$> (A ++ GNode ida el ka :: GNode idb esb kb :: D)) lk)).
  (* the left neighbour gives its last entry *)
  assert (arena ns ((ida, mkCell (el ++ [x]) (gid <$> ka ++ mv) (pid, length A))
    :: P sep :: forest ida 0 (ka ++ mv) ++ (idb, mkCell esb (gid <$> kb) (pid, S (length A))) :: forest idb 0 kb ++ rest) fl)
    as Ha1.
  { unfold P. rewrite !fmap_app, !fmap_cons in *. cbn [gid] in *. reorder Ha. }
  destruct (arena_head _ _ _ _ _ Ha1) as (na & Hna & Hha).
  destruct (pop_back_spec _ _ _ _ _ Hha) as (na' & Hpop & Hha'). rewrite Hch in Hpop. rewrite Htk in Hha'.
  destruct (arena_write _ _ _ _ _ _ _ Ha1 Hha') as (ns1 & Hw1 & Ha2).
  (* the parent trades its separator for it *)
  rewrite perm_swap in Ha2. destruct (arena_head _ _ _ _ _ Ha2) as (np & Hnp & Hhp).
  destruct (node_replace_spec _ _ _ _ _ _ x Hhp) as (np' & Hrep & Hhp').
  destruct (arena_write _ _ _ _ _ _ _ Ha2 Hhp') as (ns2 & Hw2 & Ha3).
  (* the node takes the separator first *)
  assert (arena ns2 ((idb, mkCell esb (gid <$> kb) (pid, S (length A))) :: P x
    :: (ida, mkCell el (gid <$> ka) (pid, length A)) :: forest ida 0 (ka ++ mv) ++ forest idb 0 kb ++ rest) fl) as Ha4
    by (unfold P; reorder Ha3).
  destruct (arena_head _ _ _ _ _ Ha4) as (nb & Hnb & Hhb).
  destruct (push_front_spec _ _ _ _ sep (right_id mv) Hhb Hlt) as (nb' & Hpf & Hhb'). rewrite Hkb' in Hhb'.
  destruct (arena_write _ _ _ _ _ _ _ Ha4 Hhb') as (ns3 & Hw3 & Ha5).
  pose proof (holds_entries _ _ Hhb') as Heb. cbn in Heb.
  destruct (adopt_spec ns3 idb (sep :: esb) (gid <$> (mv ++ kb)) (pid, S (length A))
    (P x :: (ida, mkCell el (gid <$> ka) (pid, length A)) :: forest ida 0 ka ++ rest) fl 0 (node_len nb')
    (((fun i => (ida, i)) <$> seq (length ka) (length mv)) ++ ((fun i => (idb, i)) <$> seq 0 (length kb))) (mv ++ kb))
    as (ns4 & Had & Ha6).
  { rewrite loose_app by by rewrite length_fmap, length_seq. rewrite <-!forest_loose.
    rewrite forest_app in Ha5. reorder Ha5. }
  { rewrite !length_app, !length_fmap, !length_seq. done. }
  { rewrite drop_0, take_ge; [done|]. by rewrite length_fmap. }
  { intros Hnn. unfold node_len. rewrite Heb. destruct h; simpl in *; [by subst|].
    destruct Hmv as [k ->]. simpl. lia. }
  exists ns4. split.
  - unfold borrow_left. replace (S (length A) - 1) with (length es1) by lia. exec. done.
  - unfold P in Ha6. rewrite !fmap_app, !fmap_cons in *. cbn [gid] in *. reorder Ha6.
Qed.

Lemma borrow_right_step ns h pid es1 sep es2 A ida esa ka idb x eb mv kb D lk rest fl :
  let a := GNode ida esa ka in
  let b := GNode idb (x :: eb) (mv ++ kb) in
  arena ns (neighbours pid es1 sep es2 A a b D lk ++ rest) fl ->
  length es1 = length A -> sized h esa ka -> moves h mv -> sized h eb kb -> length esa < CAPACITY ->
  exists ns', borrow_right ns ida pid idb (length A) = Some ns' /\
    arena ns' (neighbours pid es1 x es2 A (GNode ida (esa ++ [sep]) (ka ++ mv)) (GNode idb eb kb) D lk ++ rest) fl.
Proof.
  intros a b Ha Hes Hka Hmv Hkb Hlt. unfold neighbours in *. subst a b. rewrite !cells_unfold in *.
  assert (default NONE ((gid <$> mv ++ kb) !! 0) = right_id mv /\ drop 1 (gid <$> mv ++ kb) = gid <$> kb) as [Hch Hdr].
  { destruct h; simpl in *; [by subst|]. destruct Hmv as [k ->]. done. }
  assert (match gid <$> ka with [] => [] | _ :: _ => (gid <$> ka) ++ [right_id mv] end = gid <$> (ka ++ mv)) as Hka'.
  { rewrite fmap_app. destruct h; simpl in *; [by subst|]. destruct Hmv as [k ->]. by destruct ka. }
  set (P := fun e => (pid, mkCell (es1 ++ e :: es2) (gid <$> (A ++ GNode ida esa ka :: GNode idb eb kb :: D)) lk)).
  (* the right neighbour gives its first entry *)
  assert (arena ns ((idb, mkCell (x :: eb) (gid <$> mv ++ kb) (pid, S (length A)))
    :: P sep :: forest idb 0 (mv ++ kb) ++ (ida, mkCell esa (gid <$> ka) (pid, length A)) :: forest ida 0 ka ++ rest) fl)
    as Ha1.
  { unfold P. rewrite !fmap_app, !fmap_cons in *. cbn [gid] in *. reorder Ha. }
  destruct (arena_head _ _ _ _ _ Ha1) as (nb & Hnb & Hhb).
  destruct (pop_front_spec _ _ _ _ _ Hhb) as (nb' & Hpop & Hhb'). rewrite Hch in Hpop. rewrite Hdr in Hhb'.
  destruct (arena_write _ _ _ _ _ _ _ Ha1 Hhb') as (ns1 & Hw1 & Ha2).
  pose proof (holds_entries _ _ Hhb') as Heb. cbn in Heb.
  destruct (adopt_spec ns1 idb eb (gid <$> kb) (pid, S (length A))
    (P sep :: forest idb 0 mv ++ (ida, mkCell esa (gid <$> ka) (pid, length A)) :: forest ida 0 ka ++ rest) fl
    0 (node_len nb') ((fun i => (idb, i)) <$> seq (0 + length mv) (length kb)) kb) as (ns2 & Had1 & Ha3).
  { rewrite <-forest_loose. rewrite forest_app in Ha2. reorder Ha2. }
  { by rewrite length_fmap, length_seq. }
  { rewrite drop_0, take_ge; [done|]. by rewrite length_fmap. }
  { intros Hnn. unfold node_len. rewrite Heb. destruct h; simpl in *; [by subst|]. lia. }
  (* the parent trades its separator for it *)
  assert (arena ns2 (P sep :: (idb, mkCell eb (gid <$> kb) (pid, S (length A))) :: forest idb 0 kb ++
    forest idb 0 mv ++ (ida, mkCell esa (gid <$> ka) (pid, length A)) :: forest ida 0 ka ++ rest) fl) as Ha4
    by reorder Ha3.
  destruct (arena_head _ _ _ _ _ Ha4) as (np & Hnp & Hhp).
  destruct (node_replace_spec _ _ _ _ _ _ x Hhp) as (np' & Hrep & Hhp').
  destruct (arena_write _ _ _ _ _ _ _ Ha4 Hhp') as (ns3 & Hw3 & Ha5).
  (* the node takes the separator last *)
  assert (arena ns3 ((ida, mkCell esa (gid <$> ka) (pid, length A)) :: P x ::
    (idb, mkCell eb (gid <$> kb) (pid, S (length A))) :: forest idb 0 kb ++ forest idb 0 mv ++ forest ida 0 ka ++ rest) fl)
    as Ha6 by (unfold P; reorder Ha5).
  destruct (arena_head _ _ _ _ _ Ha6) as (na & Hna & Hha).
  destruct (push_back_spec _ _ _ _ sep (right_id mv) Hha Hlt) as (na' & Hpb & Hha'). rewrite Hka' in Hha'.
  destruct (arena_write _ _ _ _ _ _ _ Ha6 Hha') as (ns4 & Hw4 & Ha7).
  pose proof (holds_entries _ _ Hha') as Hea. cbn in Hea.
  destruct (adopt_spec ns4 ida (esa ++ [sep]) (gid <$> (ka ++ mv)) (pid, length A)
    (P x :: (idb, mkCell eb (gid <$> kb) (pid, S (length A))) :: forest idb 0 kb ++ forest ida 0 ka ++ rest) fl
    (node_len na') (node_len na') ((fun i => (idb, i)) <$> seq 0 (length mv)) mv) as (ns5 & Had2 & Ha8).
  { rewrite <-forest_loose. reorder Ha7. }
  { by rewrite length_fmap, length_seq. }
  { unfold node_len. rewrite Hea, length_app, fmap_app. destruct h; simpl in *; [by subst|].
    rewrite Nat.add_1_r, <-Hka, drop_app_length', take_ge by by rewrite length_fmap. done. }
  { intros Hnn. destruct h; simpl in *; [by subst|]. destruct Hmv as [k ->]. simpl. lia. }
  exists ns5. split.
  - unfold borrow_right. rewrite <-Hes. exec. done.
  - unfold P in Ha8. rewrite !fmap_app, !fmap_cons, forest_app in *. cbn [gid] in *.
    assert (forest ida (node_len na') mv = forest ida (0 + length ka) mv) as Hfm.
    { unfold node_len. rewrite Hea, length_app. destruct h; simpl in *; [by subst|].
      rewrite Hka. by rewrite Nat.add_1_r. }
    rewrite Hfm in Ha8. reorder Ha8.
Qed.

(** [a] takes the separator and all of [b], which goes to the free list. *)
Lemma merge_step ns h pid es1 sep es2 A ida esa ka idb esb kb D lk rest fl :
  let a := GNode ida esa ka in
  let b := GNode idb esb kb in
  arena ns (neighbours pid es1 sep es2 A a b D lk ++ forest pid (S (S (length A))) D ++ rest) fl ->
  length es1 = length A -> length es2 = length D -> sized h esa ka -> sized h esb kb ->
  length esa + 1 + length esb <= CAPACITY ->
  exists ns', merge ns (next_of fl) ida pid (length A) = Some (ns', next_of (idb :: fl)) /\
    arena ns' ((pid, mkCell (es1 ++ es2) (gid <$> (A ++ a :: D)) lk)
      :: cells (pid, length A) (GNode ida (esa ++ sep :: esb) (ka ++ kb)) ++ forest pid (S (length A)) D ++ rest)
      (idb :: fl).
Proof.
  intros a b Ha Hes Hes2 Hka Hkb Hle. unfold neighbours in *. subst a b. rewrite !cells_unfold in *.
  (* the parent loses the separator and the child after it *)
  destruct (arena_head _ _ _ _ _ Ha) as (np & Hnp & Hhp).
  destruct (node_remove_spec _ _ _ _ _ _ Hhp) as (np' & Hrm & Hhp').
  set (a := GNode ida esa ka) in *. set (b := GNode idb esb kb) in *.
  assert (default NONE ((gid <$> A ++ a :: b :: D) !! S (length es1)) = idb /\
    take (S (length es1)) (gid <$> A ++ a :: b :: D) ++ drop (S (S (length es1))) (gid <$> A ++ a :: b :: D)
    = gid <$> (A ++ a :: D)) as [Hch Hkids].
  { rewrite Hes. split.
    - rewrite fmap_app, lookup_app_r, length_fmap by (rewrite length_fmap; lia).
      by replace (S (length A) - length A) with 1 by lia.
    - rewrite <-fmap_take, <-fmap_drop, <-fmap_app. f_equal.
      replace (A ++ a :: b :: D) with ((A ++ [a]) ++ b :: D) by by rewrite <-app_assoc.
      rewrite take_app_length' by (rewrite length_app; simpl; lia).
      replace ((A ++ [a]) ++ b :: D) with ((A ++ [a; b]) ++ D) by by rewrite <-!app_assoc.
      rewrite drop_app_length' by (rewrite length_app; simpl; lia). by rewrite <-app_assoc. }
  rewrite Hch, Hes in Hrm. rewrite Hkids in Hhp'.
  destruct (arena_write _ _ _ _ _ _ _ Ha Hhp') as (ns1 & Hw1 & Ha1).
  pose proof (holds_entries _ _ Hhp') as Hep. cbn in Hep.
  set (Ca := fun es ks => (ida, mkCell es (gid <$> ks) (pid, length A))).
  set (Cb := (idb, mkCell esb (gid <$> kb) (pid, S (length A)))) in *.
  destruct (adopt_spec ns1 pid (es1 ++ es2) (gid <$> (A ++ a :: D)) lk
    (Ca esa ka :: Cb :: forest ida 0 ka ++ forest idb 0 kb ++ rest) fl (length A + 1) (node_len np')
    ((fun i => (pid, i)) <$> seq (S (S (length A))) (length D)) D) as (ns2 & Had1 & Ha2).
  { rewrite <-forest_loose. unfold Ca, Cb. reorder Ha1. }
  { by rewrite length_fmap, length_seq. }
  { rewrite <-fmap_drop, <-fmap_take. f_equal.
    replace (A ++ a :: D) with ((A ++ [a]) ++ D) by by rewrite <-app_assoc.
    rewrite drop_app_length' by (rewrite length_app; simpl; lia). apply firstn_all. }
  { intros _. unfold node_len. rewrite Hep, length_app. lia. }
  (* the node takes the rest of its neighbour *)
  assert (arena ns2 (Ca esa ka :: Cb :: (pid, mkCell (es1 ++ es2) (gid <$> (A ++ a :: D)) lk) ::
    forest pid (length A + 1) D ++ forest ida 0 ka ++ forest idb 0 kb ++ rest) fl) as Ha3 by reorder Ha2.
  destruct (arena_head _ _ _ _ _ Ha3) as (na & Hna & Hha).
  assert (exists nb, node_at ns2 idb = Some nb /\ holds nb (mkCell esb (gid <$> kb) (pid, S (length A)))) as (nb & Hnb & Hhb).
  { rewrite perm_swap in Ha3. apply (arena_head _ _ _ _ _ Ha3). }
  assert (ida <> idb) as Hne.
  { pose proof (arena_nodup _ _ _ Ha3) as Hnd. cbn in Hnd. rewrite NoDup_cons in Hnd.
    destruct Hnd as [Hnd _]. intros ->. apply Hnd. left. }
  destruct (absorb_spec na nb _ _ _ _ _ _ sep Hha Hhb Hle) as (na' & Habs & Hha').
  { by rewrite (sized_nil h esa), (sized_nil h esb). }
  rewrite <-fmap_app in Hha'.
  destruct (arena_write _ _ _ _ _ _ _ Ha3 Hha') as (ns3 & Hw3 & Ha4).
  pose proof (holds_entries _ _ Hha) as Hea. pose proof (holds_entries _ _ Hha') as Hea'. cbn in Hea, Hea'.
  destruct (adopt_spec ns3 ida (esa ++ sep :: esb) (gid <$> (ka ++ kb)) (pid, length A)
    (Cb :: (pid, mkCell (es1 ++ es2) (gid <$> (A ++ a :: D)) lk) :: forest pid (length A + 1) D ++ forest ida 0 ka ++ rest)
    fl (node_len na + 1) (node_len na') ((fun i => (idb, i)) <$> seq 0 (length kb)) kb) as (ns4 & Had2 & Ha5).
  { rewrite <-forest_loose. unfold Ca in *. reorder Ha4. }
  { by rewrite length_fmap, length_seq. }
  { unfold node_len. rewrite Hea, <-fmap_drop, <-fmap_take. f_equal. destruct h; simpl in *; [by rewrite Hka, Hkb|].
    rewrite drop_app_length' by (rewrite Hka; lia). apply firstn_all. }
  { intros Hnn. unfold node_len. rewrite Hea, Hea', length_app. destruct h; simpl in *; [by rewrite Hka, Hkb in Hnn|]. lia. }
  (* the neighbour's node goes free *)
  assert (arena ns4 (Cb :: (ida, mkCell (esa ++ sep :: esb) (gid <$> (ka ++ kb)) (pid, length A)) ::
    (pid, mkCell (es1 ++ es2) (gid <$> (A ++ a :: D)) lk) ::
    forest ida 0 (ka ++ kb) ++ forest pid (S (length A)) D ++ rest) fl) as Ha6.
  { rewrite forest_app. replace (forest ida (0 + length ka) kb) with (forest ida (node_len na + 1) kb).
    - rewrite !Nat.add_1_r in *. reorder Ha5.
    - unfold node_len. rewrite Hea. destruct h; simpl in *; [by rewrite Hkb|]. by rewrite Hka, Nat.add_1_r. }
  destruct (arena_release _ _ _ _ _ Ha6) as (ns5 & Hrel & Ha7).
  exists ns5. split.
  - unfold merge. exec. rewrite decide_False by done. exec. done.
  - reorder Ha7.
Qed.

(** ** Shape of the moves *)

(** The children of a node of height [h] that holds [es]. *)
Definition kids_ok (h : nat) es ks : Prop :=
  match h with O => ks = [] | S h' => length ks = S (length es) /\ Forall (sub h') ks end.

Lemma wf_kids h id es ks : wf h (GNode id es ks) <-> length es <= CAPACITY /\ kids_ok h es ks.
Proof. destruct h; done. Qed.

Lemma kids_ok_sized h es ks : kids_ok h es ks -> sized h es ks.
Proof. destruct h; [done|]. intros [Hl _]. done. Qed.

Lemma kids_ok_moves h mv : kids_ok h [] mv -> moves h mv.
Proof. destruct h; [done|]. intros [Hl _]. destruct mv as [|k [|]]; try done. by exists k. Qed.

Lemma kids_ok_app h es1 e es2 ks1 ks2 :
  kids_ok h es1 ks1 -> kids_ok h es2 ks2 -> kids_ok h (es1 ++ e :: es2) (ks1 ++ ks2).
Proof.
  destruct h; simpl; [by intros -> ->|]. intros [H1 F1] [H2 F2].
  rewrite !length_app, Forall_app. simpl. split; [lia|done].
Qed.

Lemma kids_ok_cut h es1 e es2 ks :
  kids_ok h (es1 ++ e :: es2) ks -> exists ks1 ks2, ks = ks1 ++ ks2 /\ kids_ok h es1 ks1 /\ kids_ok h es2 ks2.
Proof.
  destruct h; simpl; [intros ->; by exists [], []|]. intros [Hl Hf]. rewrite length_app in Hl. simpl in Hl.
  exists (take (S (length es1)) ks), (drop (S (length es1)) ks). rewrite take_drop, length_take, length_drop.
  split_and!; [done|lia|by apply Forall_take|lia|by apply Forall_drop].
Qed.

Lemma kids_ok_weave h es1 e es2 ks1 ks2 :
  kids_ok h es1 ks1 -> kids_ok h es2 ks2 ->
  weave (es1 ++ e :: es2) (flat <$> ks1 ++ ks2) = weave es1 (flat <$> ks1) ++ e :: weave es2 (flat <$> ks2).
Proof.
  intros H1 H2. rewrite fmap_app. apply weave_app. destruct h; simpl in *; [left; by subst|right].
  rewrite length_fmap. destruct H1, H2. split; [done|]. by destruct ks2.
Qed.

(** The cells of a parent, two neighbours apart. *)
Lemma parent_view pid es1 sep es2 A a b D lk :
  cells lk (GNode pid (es1 ++ sep :: es2) (A ++ a :: b :: D)) ≡ₚ
  neighbours pid es1 sep es2 A a b D lk ++ forest pid (S (S (length A))) D ++ forest pid 0 A.
Proof.
  unfold neighbours. rewrite cells_unfold, forest_app. cbn [forest Nat.add]. solve_Permutation.
Qed.

(** The contents of a parent, two neighbours apart. *)
Lemma parent_flat pid es1 sep es2 A a b D :
  length es1 = length A -> length es2 = length D ->
  flat (GNode pid (es1 ++ sep :: es2) (A ++ a :: b :: D))
  = befores es1 (flat <$> A) ++ (flat a ++ sep :: flat b) ++ afters es2 (flat <$> D).
Proof.
  intros H1 H2. simpl. rewrite fmap_app, fmap_cons, fmap_cons.
  rewrite weave_mid by (rewrite length_app; simpl; rewrite !length_fmap; lia).
  rewrite length_fmap, <-H1, take_app_length, drop_app_length, afters_cons. simpl. by rewrite <-!app_assoc.
Qed.

Lemma parent_wf h pid es1 sep es2 A a b D :
  length es1 = length A -> length es2 = length D -> length (es1 ++ sep :: es2) <= CAPACITY ->
  Forall (sub h) A -> sub h a -> sub h b -> Forall (sub h) D ->
  wf (S h) (GNode pid (es1 ++ sep :: es2) (A ++ a :: b :: D)).
Proof.
  intros H1 H2 Hc HA Ha Hb HD. apply wf_kids. split; [done|]. split.
  - rewrite !length_app. simpl. lia.
  - apply Forall_app. split; [done|]. by constructor; [|constructor].
Qed.

(** A parent at [c] with two neighbours apart, its other children in shape. *)
Record beside ns fl h pid es1 sep es2 (A : list (GTree K V)) a b (D : list (GTree K V)) c : Prop := {
  beside_arena : arena ns (cells (hole_link c) (GNode pid (es1 ++ sep :: es2) (A ++ a :: b :: D)) ++ around pid c) fl;
  beside_left : length es1 = length A;
  beside_right : length es2 = length D;
  beside_cap : length (es1 ++ sep :: es2) <= CAPACITY;
  beside_A : Forall (sub h) A;
  beside_D : Forall (sub h) D;
  beside_a : wf h a;
  beside_b : wf h b }.

(** The parent after a borrow: the same contents in a well-shaped node. *)
Definition balanced ns fl h pid es1 sep es2 A a b D c : Prop :=
  exists P, gid P = pid /\ arena ns (cells (hole_link c) P ++ around pid c) fl /\ wf (S h) P /\
    length (ges P) = length (es1 ++ sep :: es2) /\
    flat P = flat (GNode pid (es1 ++ sep :: es2) (A ++ a :: b :: D)).

Lemma borrow_left_ok ns fl h pid es1 sep es2 A a b D c :
  beside ns fl h pid es1 sep es2 A a b D c -> MIN_LEN < length (ges a) -> S (length (ges b)) = MIN_LEN ->
  exists ns', borrow_left ns (gid b) pid (gid a) (S (length A)) = Some ns' /\
    balanced ns' fl h pid es1 sep es2 A a b D c.
Proof.
  intros [Ha H1 H2 Hcap HA HD Hwa Hwb] Hla Hlb. destruct a as [ida esa ka0], b as [idb esb kb]. cbn [gid ges] in *.
  destruct (exists_last (l := esa)) as (el & x & ->); [by intros ->; simpl in Hla; lia|].
  apply wf_kids in Hwa as [Hca Hka], Hwb as [Hcb Hkb].
  destruct (kids_ok_cut _ _ _ _ _ Hka) as (ka & mv & -> & Hka' & Hmv).
  rewrite parent_view, <-!app_assoc in Ha.
  destruct (borrow_left_step ns h pid es1 sep es2 A ida el x ka mv idb esb kb D _ _ _ Ha) as (ns' & Hrun & Ha');
    [done|by eapply kids_ok_sized|by apply kids_ok_moves|by eapply kids_ok_sized|lia|].
  exists ns'. split; [done|].
  exists (GNode pid (es1 ++ x :: es2) (A ++ GNode ida el ka :: GNode idb (sep :: esb) (mv ++ kb) :: D)).
  split_and!; [done| | | |].
  - rewrite parent_view, <-!app_assoc. exact Ha'.
  - apply parent_wf; [done|done|by rewrite !length_app in *|done| | |done]; (split; [|apply wf_kids; split]); simpl.
    all: rewrite ?length_app in *; simpl in *; try arith; try done.
    by apply (kids_ok_app h [] sep).
  - cbn [ges]. by rewrite !length_app.
  - rewrite !parent_flat by done. cbn [flat]. rewrite (kids_ok_weave h) by done.
    change (sep :: esb) with ([] ++ sep :: esb). rewrite (kids_ok_weave h) by done. by list_simplifier.
Qed.

Lemma borrow_right_ok ns fl h pid es1 sep es2 A a b D c :
  beside ns fl h pid es1 sep es2 A a b D c -> MIN_LEN < length (ges b) -> S (length (ges a)) = MIN_LEN ->
  exists ns', borrow_right ns (gid a) pid (gid b) (length A) = Some ns' /\
    balanced ns' fl h pid es1 sep es2 A a b D c.
Proof.
  intros [Ha H1 H2 Hcap HA HD Hwa Hwb] Hlb Hla. destruct a as [ida esa ka], b as [idb esb kb0]. cbn [gid ges] in *.
  destruct esb as [|x eb]; [simpl in Hlb; lia|].
  apply wf_kids in Hwa as [Hca Hka], Hwb as [Hcb Hkb].
  destruct (kids_ok_cut h [] x eb _ Hkb) as (mv & kb & -> & Hmv & Hkb').
  rewrite parent_view, <-!app_assoc in Ha.
  destruct (borrow_right_step ns h pid es1 sep es2 A ida esa ka idb x eb mv kb D _ _ _ Ha) as (ns' & Hrun & Ha');
    [done|by eapply kids_ok_sized|by apply kids_ok_moves|by eapply kids_ok_sized|lia|].
  exists ns'. split; [done|].
  exists (GNode pid (es1 ++ x :: es2) (A ++ GNode ida (esa ++ [sep]) (ka ++ mv) :: GNode idb eb kb :: D)).
  split_and!; [done| | | |].
  - rewrite parent_view, <-!app_assoc. exact Ha'.
  - apply parent_wf; [done|done|by rewrite !length_app in *|done| | |done]; (split; [|apply wf_kids; split]); simpl.
    all: rewrite ?length_app in *; simpl in *; try arith; try done.
    by apply kids_ok_app.
  - cbn [ges]. by rewrite !length_app.
  - rewrite !parent_flat by done. cbn [flat]. rewrite (kids_ok_weave h) by done.
    change (x :: eb) with ([] ++ x :: eb). rewrite (kids_ok_weave h) by done. by list_simplifier.
Qed.

(** The parent after a merge: one entry less, the same contents. *)
Definition merged ns fl h pid es1 sep es2 A a b D c : Prop :=
  exists P, gid P = pid /\ arena ns (cells (hole_link c) P ++ around pid c) fl /\ wf (S h) P /\
    S (length (ges P)) = length (es1 ++ sep :: es2) /\
    flat P = flat (GNode pid (es1 ++ sep :: es2) (A ++ a :: b :: D)).

Lemma merge_ok ns fl h pid es1 sep es2 A a b D c :
  beside ns fl h pid es1 sep es2 A a b D c ->
  S (length (ges a) + length (ges b)) = 2 * MIN_LEN ->
  exists ns', merge ns (next_of fl) (gid a) pid (length A) = Some (ns', next_of (gid b :: fl)) /\
    merged ns' (gid b :: fl) h pid es1 sep es2 A a b D c.
Proof.
  intros [Ha H1 H2 Hcap HA HD Hwa Hwb] Hlen. destruct a as [ida esa ka], b as [idb esb kb]. cbn [gid ges] in *.
  apply wf_kids in Hwa as [Hca Hka], Hwb as [Hcb Hkb].
  rewrite parent_view, <-!app_assoc in Ha.
  destruct (merge_step ns h pid es1 sep es2 A ida esa ka idb esb kb D _ _ _ Ha) as (ns' & Hrun & Ha');
    [done|done|by eapply kids_ok_sized|by eapply kids_ok_sized|arith|].
  exists ns'. split; [done|].
  exists (GNode pid (es1 ++ es2) (A ++ GNode ida (esa ++ sep :: esb) (ka ++ kb) :: D)).
  split_and!; [done| | | |].
  - rewrite cells_unfold, forest_app. cbn [forest Nat.add]. rewrite !fmap_app, !fmap_cons in *. cbn [gid] in *. reorder Ha'.
  - apply wf_kids. rewrite length_app in *. simpl in Hcap. split; [lia|]. split; [rewrite !length_app; simpl; lia|].
    apply Forall_app. split; [done|]. constructor; [|done]. split; [cbn [ges]; arith|].
    apply wf_kids. split; [arith|]. by apply kids_ok_app.
  - cbn [ges]. rewrite !length_app. simpl. lia.
  - rewrite parent_flat by done. cbn [flat]. rewrite fmap_app, fmap_cons.
    rewrite weave_mid by (rewrite length_app, !length_fmap; lia).
    rewrite length_fmap, <-H1, take_app_length, drop_app_length. cbn [flat]. by rewrite (kids_ok_weave h).
Qed.

(** ** The climb of [refill] *)

(** The node in focus may be one entry short. *)
Record dip ns fl (h : nat) (t : GTree K V) c : Prop := {
  dip_arena : arena ns (cells (hole_link c) t ++ around (gid t) c) fl;
  dip_wf : wf h t;
  dip_cwf : cwf h c;
  dip_low : low c <= S (length (ges t)) }.

(** The node above the hole takes the place of the node in it. *)
Lemma unplug t (f : Frame K V) c :
  cells (hole_link (f :: c)) t ++ around (gid t) (f :: c) ≡ₚ cells (hole_link c) (fill f t) ++ around (f_id f) c.
Proof.
  unfold fill. rewrite cells_unfold, fmap_app, fmap_cons, forest_app. cbn [forest around hole_link Nat.add].
  solve_Permutation.
Qed.

(** What [refill] leaves: the entries [l] stored in the tree it answers. *)
Definition refilled (out : option (list (Node K V) * N * nat * N)) (l : list (K * V)) : Prop :=
  exists ns' r' h' fl', out = Some (ns', r', h', next_of fl') /\
    stores (mkTree ns' r' h' (next_of fl') (length l)) l.

Lemma finish_root_spec ns fl h t :
  dip ns fl h t [] -> refilled (finish_root ns (next_of fl) (gid t) h (gid t)) (flat t).
Proof.
  intros [Ha Hw _ _]. rewrite app_nil_r in Ha. cbn [hole_link] in Ha. destruct t as [id es ks]. cbn [gid] in *.
  pose proof Ha as Ha0. rewrite cells_unfold in Ha. destruct (arena_head _ _ _ _ _ Ha) as (n & Hn & Hh).
  pose proof (holds_entries _ _ Hh) as He. cbn in He.
  unfold finish_root. rewrite Hn. cbn [mbind option_bind]. unfold node_len. rewrite He.
  destruct es as [|e es].
  - apply wf_kids in Hw as [_ Hk]. cbn [length Nat.ltb Nat.leb]. destruct h as [|h].
    + simpl in Hk. subst ks. destruct (arena_release _ _ _ _ _ Ha) as (ns' & -> & Ha'). cbn [mbind option_bind].
      exists ns', NONE, 0, (id :: fl). split; [done|]. split; [done|]. exists (id :: fl). split; [done|]. by left.
    + destruct Hk as [Hlen Hk]. destruct ks as [|k [|]]; try done. apply Forall_cons in Hk as [[Hmin Hk] _].
      rewrite (holds_child _ _ _ _ 0 (gid k) Hh) by done. cbn [mbind option_bind].
      assert (arena ns ((gid k, cell_of k (id, 0)) :: (id, mkCell [] [gid k] (NONE, 0)) :: below k) fl) as Ha1.
      { cbn [forest] in Ha. rewrite cells_head in Ha. cbn in Ha. rewrite app_nil_r in Ha. by rewrite perm_swap. }
      destruct (arena_head _ _ _ _ _ Ha1) as (nk & Hnk & Hhk). rewrite Hnk. cbn [mbind option_bind].
      destruct (arena_write _ _ _ _ _ _ _ Ha1 (orphan_holds _ _ _ _ 0 Hhk)) as (ns1 & Hw1 & Ha2).
      rewrite Hw1. cbn [mbind option_bind]. rewrite perm_swap in Ha2.
      destruct (arena_release _ _ _ _ _ Ha2) as (ns2 & -> & Ha3). cbn [mbind option_bind].
      exists ns2, (gid k), h, (id :: fl). split; [done|].
      assert (flat (GNode id [] [k]) = flat k) as -> by (simpl; apply app_nil_r).
      apply (stored_stores ns2 k); [|done]. split_and!; [by rewrite cells_head|done|arith|done].
  - cbn [length Nat.ltb Nat.leb]. exists ns, id, h, fl. split; [done|].
    apply (stored_stores ns (GNode id (e :: es) ks)); [|done]. split_and!; [done..|simpl; lia|done].
Qed.

(** [refill] stops at a node that is not short. *)
Lemma settled ns fl h t c :
  arena ns (cells (hole_link c) t ++ around (gid t) c) fl -> wf h t -> cwf h c -> low c <= length (ges t) ->
  refilled (Some (ns, root_id (gid t) c, h + length c, next_of fl)) (lflat c ++ flat t ++ rflat c).
Proof.
  intros Ha Hw Hc Hl. exists ns, (root_id (gid t) c), (h + length c), fl. split; [done|].
  by apply (focus_stores ns fl h t c).
Qed.

Lemma balanced_settled ns fl h pid es1 sep es2 A a b D c :
  balanced ns fl h pid es1 sep es2 A a b D c -> cwf (S h) c -> low c <= length (es1 ++ sep :: es2) ->
  refilled (Some (ns, root_id pid c, S h + length c, next_of fl))
    (lflat c ++ flat (GNode pid (es1 ++ sep :: es2) (A ++ a :: b :: D)) ++ rflat c).
Proof.
  intros (P & <- & Ha & Hw & Hl & <-) Hc Hlow. apply settled; [done..|lia].
Qed.

Lemma merged_dip ns fl h pid es1 sep es2 A a b D c :
  merged ns fl h pid es1 sep es2 A a b D c -> cwf (S h) c -> low c <= length (es1 ++ sep :: es2) ->
  exists P, gid P = pid /\ dip ns fl (S h) P c /\
    flat P = flat (GNode pid (es1 ++ sep :: es2) (A ++ a :: b :: D)).
Proof.
  intros (P & <- & Ha & Hw & Hl & HP) Hc Hlow. exists P. split_and!; [done| |done]. split; [done..|lia].
Qed.

(** The climb reads a sibling's fill. *)
Lemma can_spare_spec ns fl cs (t : GTree K V) l :
  arena ns cs fl -> (gid t, cell_of t l) ∈ cs -> can_spare ns (Some (gid t)) = Some (MIN_LEN <? length (ges t)).
Proof.
  intros Ha Hin. pose proof (arena_cells _ _ _ Ha) as Hc. rewrite Forall_forall in Hc.
  destruct (Hc _ Hin) as (n & Hn & Hh). cbn in Hn. unfold can_spare. rewrite Hn. cbn [mbind option_bind].
  unfold node_len. by rewrite (holds_entries _ _ Hh).
Qed.

Lemma forest_head id j (ks : list (GTree K V)) i k :
  ks !! i = Some k -> exists l, (gid k, cell_of k l) ∈ forest id j ks.
Proof.
  revert i j. induction ks as [|k' ks IH]; intros [|i] j Hi; try done; simpl in *.
  - injection Hi as ->. exists (id, j). rewrite cells_head. left.
  - destruct (IH i (S j) Hi) as [l Hl]. exists l. apply elem_of_app. by right.
Qed.

Lemma split_at {A} (l : list A) i : i < length l -> exists l1 x l2, l = l1 ++ x :: l2 /\ length l1 = i.
Proof.
  intros Hi. destruct (lookup_lt_is_Some_2 l i Hi) as [x Hx]. exists (take i l), x, (drop (S i) l).
  rewrite (take_drop_middle _ _ _ Hx), length_take. split; [done|lia].
Qed.

(** The node in focus and the sibling before it, or after it. *)
Lemma beside_before ns fl h pid es ll lt t right c :
  arena ns (cells (hole_link c) (fill (mkFrame pid es (ll ++ [lt]) right) t) ++ around pid c) fl ->
  cwf h (mkFrame pid es (ll ++ [lt]) right :: c) -> wf h t ->
  exists es1 sep es2, es = es1 ++ sep :: es2 /\ beside ns fl h pid es1 sep es2 ll lt t right c /\ sub h lt.
Proof.
  intros Ha (Hcap & _ & Hlen & Hl & Hr & _) Ht. simpl in *. rewrite length_app in Hlen. simpl in Hlen.
  destruct (split_at es (length ll)) as (es1 & sep & es2 & -> & H1); [lia|]. exists es1, sep, es2.
  apply Forall_app in Hl as [Hl Hlt]. apply Forall_cons in Hlt as [Hlt _]. split_and!; [done| |apply Hlt].
  rewrite length_app in Hlen. simpl in Hlen. split; try done; [|lia|apply Hlt].
  unfold fill in Ha. simpl in Ha. by rewrite <-app_assoc in Ha.
Qed.

Lemma beside_after ns fl h pid es left t rt rr c :
  arena ns (cells (hole_link c) (fill (mkFrame pid es left (rt :: rr)) t) ++ around pid c) fl ->
  cwf h (mkFrame pid es left (rt :: rr) :: c) -> wf h t ->
  exists es1 sep es2, es = es1 ++ sep :: es2 /\ beside ns fl h pid es1 sep es2 left t rt rr c /\ sub h rt.
Proof.
  intros Ha (Hcap & _ & Hlen & Hl & Hr & _) Ht. simpl in *.
  destruct (split_at es (length left)) as (es1 & sep & es2 & -> & H1); [lia|]. exists es1, sep, es2.
  apply Forall_cons in Hr as [Hrt Hr]. split_and!; [done| |apply Hrt].
  rewrite length_app in Hlen. simpl in Hlen. split; try done; [lia|apply Hrt].
Qed.

(** The siblings the climb reads from the parent. *)
Lemma read_left (u : Node K V) es (left : list (GTree K V)) t right lk :
  holds u (mkCell es (gid <$> left ++ t :: right) lk) ->
  (if 0 <? length left then c ← child u (length left - 1); Some (Some c) else Some None) = Some (gid <$> last left).
Proof.
  intros Hh. destruct left as [|k left _] using rev_ind; [done|]. rewrite last_snoc, length_app. simpl.
  rewrite Nat.add_1_r. cbn [Nat.ltb Nat.leb]. rewrite (holds_child _ _ _ _ _ (gid k) Hh); [done|].
  rewrite !fmap_app, <-app_assoc, lookup_app_r; rewrite length_fmap; [|lia].
  by replace (S (length left) - 1 - length left) with 0 by lia.
Qed.

Lemma read_right (u : Node K V) es (left : list (GTree K V)) t right lk :
  holds u (mkCell es (gid <$> left ++ t :: right) lk) -> length es = length left + length right ->
  (if length left <? length es then c ← child u (length left + 1); Some (Some c) else Some None)
  = Some (gid <$> head right).
Proof.
  intros Hh Hlen. destruct right as [|k right].
  - rewrite (proj2 (Nat.ltb_ge _ _)) by (simpl in Hlen; lia). done.
  - rewrite (proj2 (Nat.ltb_lt _ _)) by (simpl in Hlen; lia).
    rewrite (holds_child _ _ _ _ _ (gid k) Hh); [done|].
    rewrite fmap_app, lookup_app_r; rewrite length_fmap; [|lia].
    by replace (length left + 1 - length left) with 1 by lia.
Qed.

Lemma head_cons {A} (l : list A) x : head l = Some x -> exists l', l = x :: l'.
Proof. destruct l; [done|]. intros [= ->]. eauto. Qed.

Lemma either_way {A C} (o : option A) (y : C) : match o with Some _ => y | None => y end = y.
Proof. by destruct o. Qed.

Definition spares (t : option (GTree K V)) : bool :=
  match t with None => false | Some k => MIN_LEN <? length (ges k) end.

Lemma spares_spec ns fl pid es left t right c (k : option (GTree K V)) :
  arena ns (cells (hole_link c) (fill (mkFrame pid es left right) t) ++ around pid c) fl ->
  k = last left \/ k = head right -> can_spare ns (gid <$> k) = Some (spares k).
Proof.
  intros Ha Hk. destruct k as [k|]; [|done].
  assert (exists i, (left ++ t :: right) !! i = Some k) as [i Hi].
  { destruct Hk as [Hk|Hk]; symmetry in Hk.
    - apply last_Some in Hk as [l ->]. exists (length l). rewrite <-app_assoc. simpl. by rewrite list_lookup_middle.
    - destruct right as [|k' right]; [done|]. injection Hk as ->. exists (S (length left)).
      rewrite lookup_app_r by lia. by replace (S (length left) - length left) with 1 by lia. }
  destruct (forest_head pid 0 _ _ _ Hi) as [l Hl]. eapply can_spare_spec; [exact Ha|].
  unfold fill. rewrite cells_unfold. apply elem_of_app. left. apply elem_of_cons. right. exact Hl.
Qed.

Lemma unplug_flat h (f : Frame K V) t c :
  cwf h (f :: c) -> lflat (f :: c) ++ flat t ++ rflat (f :: c) = lflat c ++ flat (fill f t) ++ rflat c.
Proof.
  intros (_ & _ & Hlen & _). simpl. rewrite fmap_app, fmap_cons, weave_mid by by rewrite !length_fmap.
  rewrite length_fmap. by list_simplifier.
Qed.

(** One short node below its parent [pid], whose climb goes on by [IH]. *)
Section Short.
Context (c : list (Frame K V)) (fuel : nat) (pid : N) (es : list (K * V)) (left right : list (GTree K V)).
Hypothesis IH : forall ns fl h t, dip ns fl h t c ->
  refilled (refill fuel ns (next_of fl) (root_id (gid t) c) (h + length c) (gid t)) (lflat c ++ flat t ++ rflat c).

(** The parent that lost an entry is next. *)
Lemma climb_on ns fl h es1 sep es2 A a b D :
  merged ns fl h pid es1 sep es2 A a b D c -> cwf (S h) c -> low c <= length (es1 ++ sep :: es2) ->
  refilled (refill fuel ns (next_of fl) (root_id pid c) (S h + length c) pid)
    (lflat c ++ flat (GNode pid (es1 ++ sep :: es2) (A ++ a :: b :: D)) ++ rflat c).
Proof.
  intros Hm Hc Hlow. destruct (merged_dip _ _ _ _ _ _ _ _ _ _ _ _ Hm Hc Hlow) as (P & <- & Hd & <-). by apply IH.
Qed.

Context (ns : list (Node K V)) (fl : list N) (h : nat) (t : GTree K V).
Let whole : GTree K V := fill (mkFrame pid es left right) t.
Hypothesis Ha : arena ns (cells (hole_link c) whole ++ around pid c) fl.
Hypothesis Hc : cwf h (mkFrame pid es left right :: c).
Hypothesis Hw : wf h t.
Hypothesis Hshort : S (length (ges t)) = MIN_LEN.

Lemma short_left ll lt :
  left = ll ++ [lt] ->
  exists es1 sep es2, whole = GNode pid (es1 ++ sep :: es2) (ll ++ lt :: t :: right) /\
    beside ns fl h pid es1 sep es2 ll lt t right c /\ sub h lt /\ cwf (S h) c /\ low c <= length (es1 ++ sep :: es2).
Proof.
  intros El. unfold whole in *. rewrite El in *. destruct (beside_before _ _ _ _ _ _ _ _ _ _ Ha Hc Hw) as (es1 & sep & es2 & Ees & Hb & Hlt).
  exists es1, sep, es2. rewrite Ees in *. destruct Hc as (_ & Hlow & _ & _ & _ & Hcw). split_and!; try done.
  unfold fill. simpl. by rewrite <-app_assoc.
Qed.

Lemma short_right rt rr :
  right = rt :: rr ->
  exists es1 sep es2, whole = GNode pid (es1 ++ sep :: es2) (left ++ t :: rt :: rr) /\
    beside ns fl h pid es1 sep es2 left t rt rr c /\ sub h rt /\ cwf (S h) c /\ low c <= length (es1 ++ sep :: es2).
Proof.
  intros El. unfold whole in *. rewrite El in *. destruct (beside_after _ _ _ _ _ _ _ _ _ _ Ha Hc Hw) as (es1 & sep & es2 & Ees & Hb & Hlt).
  exists es1, sep, es2. rewrite Ees in *. destruct Hc as (_ & Hlow & _ & _ & _ & Hcw). split_and!; done.
Qed.

Lemma spares_min k h' : sub h' k -> spares (Some k) = false -> length (ges k) = MIN_LEN.
Proof. intros [Hk _] Hs. apply Nat.ltb_ge in Hs. lia. Qed.

Lemma refill_short :
  refilled
    (match gid <$> last left, spares (last left) with
     | Some l, true => ns' ← borrow_left ns (gid t) pid l (length left); Some (ns', root_id pid c, S h + length c, next_of fl)
     | _, _ =>
         spare_right ← can_spare ns (gid <$> head right);
         match gid <$> head right, spare_right with
         | Some rt, true => ns' ← borrow_right ns (gid t) pid rt (length left); Some (ns', root_id pid c, S h + length c, next_of fl)
         | _, _ =>
             '(ns', fr') ← match gid <$> last left with
                           | Some l => merge ns (next_of fl) l pid (length left - 1)
                           | None => merge ns (next_of fl) (gid t) pid (length left)
                           end;
             refill fuel ns' fr' (root_id pid c) (S h + length c) pid
         end
     end) (lflat c ++ flat whole ++ rflat c).
Proof.
  rewrite (spares_spec ns fl pid es left t right c (head right) Ha) by by right. cbn [mbind option_bind].
  destruct (spares (last left)) eqn:Esl; [destruct (last left) as [lt|] eqn:El; [|done]|].
  { apply last_Some in El as [ll El].
    destruct (short_left ll lt El) as (es1 & sep & es2 & -> & Hb & Hlt & Hcw & Hlow). apply Nat.ltb_lt in Esl.
    destruct (borrow_left_ok _ _ _ _ _ _ _ _ _ _ _ _ Hb Esl Hshort) as (ns' & Hrun & Hbal).
    cbn [fmap option_fmap option_map]. rewrite El, length_app, Nat.add_1_r. cbn [length]. exec. by apply balanced_settled. }
  destruct (spares (head right)) eqn:Esr; [destruct (head right) as [rt|] eqn:Er; [|done]|].
  { apply head_cons in Er as [rr Er].
    destruct (short_right rt rr Er) as (es1 & sep & es2 & -> & Hb & Hrt & Hcw & Hlow). apply Nat.ltb_lt in Esr.
    destruct (borrow_right_ok _ _ _ _ _ _ _ _ _ _ _ _ Hb Esr Hshort) as (ns' & Hrun & Hbal).
    cbn [head fmap option_fmap option_map]. destruct (last left); exec; by apply balanced_settled. }
  rewrite (either_way (gid <$> last left)), (either_way (gid <$> head right)).
  destruct (last left) as [lt|] eqn:El; cbn [fmap option_fmap option_map].
  - apply last_Some in El as [ll El].
    destruct (short_left ll lt El) as (es1 & sep & es2 & -> & Hb & Hlt & Hcw & Hlow).
    apply (spares_min _ h) in Esl; [|done].
    destruct (merge_ok _ _ _ _ _ _ _ _ _ _ _ _ Hb) as (ns' & Hrun & Hm); [lia|].
    rewrite El, length_app, Nat.add_sub. exec. by apply climb_on.
  - apply last_None in El. destruct (head right) as [rt|] eqn:Er.
    + apply head_cons in Er as [rr Er].
      destruct (short_right rt rr Er) as (es1 & sep & es2 & -> & Hb & Hrt & Hcw & Hlow).
      apply (spares_min _ h) in Esr; [|done].
      destruct (merge_ok _ _ _ _ _ _ _ _ _ _ _ _ Hb) as (ns' & Hrun & Hm); [lia|].
      exec. by apply climb_on.
    + exfalso. destruct Hc as (_ & Hlow & Hlen & _). simpl in Hlow, Hlen.
      assert (length right = 0) as Hr by (revert Er; clear; by destruct right).
      rewrite El, Hr in Hlen. simpl in Hlen. destruct c; simpl in Hlow; arith.
Qed.

End Short.

Lemma refill_spec c : forall fuel ns fl h t,
  length c < fuel -> dip ns fl h t c ->
  refilled (refill fuel ns (next_of fl) (root_id (gid t) c) (h + length c) (gid t))
    (lflat c ++ flat t ++ rflat c).
Proof.
  induction c as [|f c IH]; intros fuel ns fl h t Hfu Hd; (destruct fuel as [|fuel]; [simpl in Hfu; lia|]);
    pose proof Hd as [Ha Hw Hc Hlow]; cbn [refill];
    pose proof Ha as Ha0; rewrite cells_head in Ha0; destruct (arena_head _ _ _ _ _ Ha0) as (n & Hn & Hh);
    pose proof (holds_entries _ _ Hh) as He; pose proof (holds_parent _ _ Hh) as Hpar;
    pose proof (holds_place _ _ Hh) as Hpl; cbn [cell_of c_entries c_link hole_link fst snd] in He, Hpar, Hpl;
    rewrite Hn; cbn [mbind option_bind]; rewrite Hpar.
  { rewrite decide_True by done. cbn [root_id length lflat rflat app]. rewrite Nat.add_0_r, app_nil_r.
    by apply finish_root_spec. }
  destruct f as [pid es left right]. cbn [f_id f_left] in *.
  pose proof (arena_frame_ne _ _ _ _ _ _ Ha) as Hpid. cbn [f_id] in Hpid.
  rewrite decide_False, Hpl by done. unfold node_len at 1. rewrite He.
  destruct (MIN_LEN <=? length (ges t)) eqn:Emin; [apply Nat.leb_le in Emin; by apply settled|].
  apply Nat.leb_gt in Emin. assert (S (length (ges t)) = MIN_LEN) as Hshort by (cbn [low] in Hlow; lia).
  pose proof Ha as Hap. rewrite unplug in Hap. cbn [f_id] in Hap.
  pose proof Hc as (_ & _ & Hlen & _). cbn [f_es f_left f_right] in *.
  assert (exists u, node_at ns pid = Some u /\ holds u (mkCell es (gid <$> left ++ t :: right) (hole_link c))) as (u & Hu & Hhu).
  { unfold fill in Hap. rewrite cells_unfold in Hap. cbn in Hap. apply (arena_head _ _ _ _ _ Hap). }
  rewrite Hu. cbn [mbind option_bind]. pose proof (holds_entries _ _ Hhu) as Heu. cbn in Heu.
  unfold node_len at 1. rewrite Heu, (read_left _ _ _ _ _ _ Hhu), (read_right _ _ _ _ _ _ Hhu Hlen).
  cbn [mbind option_bind]. rewrite (spares_spec ns fl pid es left t right c (last left) Hap) by by left.
  rewrite (unplug_flat h) by done. cbn [root_id length f_id mbind option_bind]. rewrite Nat.add_succ_r.
  apply (refill_short c fuel pid es left right); [|done..].
  intros ns' fl' h' t' Hd'. apply IH; [simpl in Hfu; lia|done].
Qed.

(** ** Detaching an entry *)

Lemma plug_app (t : GTree K V) c1 c2 : plug t (c1 ++ c2) = plug (plug t c1) c2.
Proof. revert t. induction c1 as [|f c1 IH]; intros t; [done|]. simpl. apply IH. Qed.

Lemma lflat_app c1 c2 : lflat (c1 ++ c2) = lflat c2 ++ lflat c1.
Proof. induction c1 as [|f c1 IH]; simpl; [by rewrite app_nil_r|]. by rewrite IH, app_assoc. Qed.

Lemma rflat_app c1 c2 : rflat (c1 ++ c2) = rflat c1 ++ rflat c2.
Proof. induction c1 as [|f c1 IH]; simpl; [done|]. by rewrite IH, app_assoc. Qed.

Lemma root_id_app id c1 c2 : root_id id (c1 ++ c2) = root_id (root_id id c1) c2.
Proof. revert id. induction c1 as [|f c1 IH]; intros id; simpl; [done|]. apply IH. Qed.

Lemma cwf_prefix h c1 c2 : c2 <> [] -> cwf h (c1 ++ c2) -> cwf h c1.
Proof.
  intros Hne. revert h. induction c1 as [|f c1 IH]; intros h; simpl; [done|].
  intros (Hcap & Hlow & Hlen & Hl & Hr & Hc). split_and!; try done; [|by apply IH].
  assert (low (c1 ++ c2) = MIN_LEN) as Hm by (destruct c1; [by destruct c2|done]).
  rewrite Hm in Hlow. destruct c1; simpl; arith.
Qed.

(** The same frame but for its entries. *)
Definition reframe (f : Frame K V) es : Frame K V := mkFrame (f_id f) es (f_left f) (f_right f).

Lemma hole_link_reframe cx f es c : hole_link (cx ++ reframe f es :: c) = hole_link (cx ++ f :: c).
Proof. by destruct cx. Qed.

Lemma cwf_reframe h cx f es c :
  length es = length (f_es f) -> cwf h (cx ++ f :: c) -> cwf h (cx ++ reframe f es :: c).
Proof.
  intros Hes. revert h. induction cx as [|g cx IH]; intros h; simpl.
  - intros (Hcap & Hlow & Hlen & Hl & Hr & Hc). rewrite Hes. done.
  - intros (Hcap & Hlow & Hlen & Hl & Hr & Hc). split_and!; try done; [|by apply IH]. by destruct cx.
Qed.

Lemma around_reframe hole cx f es c :
  exists kids rest,
    around hole (cx ++ f :: c) ≡ₚ (f_id f, mkCell (f_es f) kids (hole_link c)) :: rest /\
    around hole (cx ++ reframe f es :: c) ≡ₚ (f_id f, mkCell es kids (hole_link c)) :: rest.
Proof.
  revert hole. induction cx as [|g cx IH]; intros hole; simpl.
  - eexists _, _. split; reflexivity.
  - destruct (IH (f_id g)) as (kids & rest & H1 & H2).
    eexists kids, (_ :: forest (f_id g) 0 (f_left g) ++ forest (f_id g) (S (length (f_left g))) (f_right g) ++ rest).
    rewrite H1, H2, hole_link_reframe. split; solve_Permutation.
Qed.

Lemma right_edge_spec ns fl h : forall t c fuel,
  focus ns fl h t c -> h < fuel ->
  exists t' cx, right_edge fuel ns (gid t) = Some (gid t') /\ focus ns fl 0 t' (cx ++ c) /\
    plug t' cx = t /\ rflat cx = [] /\ length cx = h.
Proof.
  induction h as [|h IH]; intros [id es ks] c fuel Hf Hfu; (destruct fuel as [|fuel]; [lia|]);
    destruct (focus_node _ _ _ _ _ Hf) as (n & Hn & Hh);
    pose proof (holds_leaf _ _ Hh) as Hleaf; pose proof (holds_entries _ _ Hh) as He;
    pose proof (focus_wf _ _ _ _ _ Hf) as Hw; apply wf_kids in Hw as [Hcap Hk];
    cbn [cell_of c_kids c_entries gks ges gid] in *; cbn [right_edge]; rewrite Hn; cbn [mbind option_bind]; rewrite Hleaf.
  - simpl in Hk. subst ks. exists (GNode id es []), []. done.
  - destruct Hk as [Hlen Hk].
    destruct (exists_last (l := ks)) as (ks1 & k & ->); [by intros ->|].
    rewrite length_app, Nat.add_1_r in Hlen. injection Hlen as Hlen.
    assert (match gid <$> ks1 ++ [k] with [] => true | _ :: _ => false end = false) as -> by by destruct ks1.
    unfold node_len. rewrite He. rewrite (holds_child _ _ _ _ _ (gid k) Hh).
    2:{ cbn [gks]. rewrite fmap_app, lookup_app_r, length_fmap, Hlen, Nat.sub_diag by by rewrite length_fmap, Hlen. done. }
    cbn [mbind option_bind]. apply focus_down in Hf.
    destruct (IH _ _ fuel Hf) as (t' & cx & Hr & Hf' & Hp & Hrf & Hl); [lia|].
    exists t', (cx ++ [mkFrame id es ks1 []]). rewrite <-app_assoc. split_and!; [done|done| | |].
    + by rewrite plug_app, Hp.
    + rewrite rflat_app, Hrf. simpl. rewrite app_nil_r. unfold afters. by rewrite zip_with_nil_r.
    + rewrite length_app. simpl. lia.
Qed.

(** What [detach] leaves: the leaf that lost an entry in focus, and the
    contents without the entry taken. *)
Definition detached (out : option ((K * V) * N * list (Node K V))) fl e (r : N) (d : nat) (l : list (K * V)) : Prop :=
  exists t c ns', out = Some (e, gid t, ns') /\ dip ns' fl 0 t c /\ root_id (gid t) c = r /\ length c = d /\
    lflat c ++ flat t ++ rflat c = l.

Lemma detach_leaf ns fl id es1 e es2 c :
  focus ns fl 0 (GNode id (es1 ++ e :: es2) []) c ->
  detached (detach ns id (length es1)) fl e (root_id id c) (length c) (lflat c ++ (es1 ++ es2) ++ rflat c).
Proof.
  intros [Ha Hw Hc Hlow]. rewrite cells_unfold in Ha. destruct (arena_head _ _ _ _ _ Ha) as (n & Hn & Hh).
  destruct (node_remove_spec _ _ _ _ _ _ Hh) as (n' & Hrm & Hh'). cbn in Hh'.
  destruct (arena_write _ _ _ _ _ _ _ Ha Hh') as (ns' & Hwr & Ha').
  exists (GNode id (es1 ++ es2) []), c, ns'. split_and!; try done.
  - unfold detach. exec. rewrite (holds_leaf _ _ Hh). cbn [c_kids fmap list_fmap]. exec. done.
  - split; [by rewrite cells_unfold| |done|]; cbn [wf ges gks] in *; rewrite length_app in *; simpl in *; [|lia].
    split; [lia|done].
Qed.

Lemma detach_inner ns fl h id es1 e es2 ks1 k ks2 c :
  focus ns fl (S h) (GNode id (es1 ++ e :: es2) (ks1 ++ k :: ks2)) c -> length ks1 = length es1 ->
  detached (detach ns id (length es1)) fl e (root_id id c) (S h + length c)
    (lflat c ++ (befores es1 (flat <$> ks1) ++ flat k) ++ weave es2 (flat <$> ks2) ++ rflat c).
Proof.
  intros Hf Hk1. destruct (focus_node _ _ _ _ _ Hf) as (n & Hn & Hh). cbn [cell_of gid ges gks] in *.
  pose proof (focus_depth _ _ _ _ _ Hf) as Hdep.
  pose proof (focus_wf _ _ _ _ _ Hf) as Hw. apply wf_kids in Hw as [Hcap [Hlen _]].
  rewrite !length_app in Hlen. simpl in Hlen.
  apply focus_down in Hf. set (f := mkFrame id (es1 ++ e :: es2) ks1 ks2) in *.
  destruct (right_edge_spec _ _ _ _ _ (length ns) Hf) as (t' & cx & Hr & Hf' & Hp & Hrf & Hcx); [lia|].
  destruct Hf' as [Ha' Hw' Hc' Hlow']. destruct t' as [lid les lks]. apply wf_kids in Hw' as [Hlcap Hlk].
  simpl in Hlk. subst lks. cbn [gid ges] in *.
  assert (low (cx ++ f :: c) = MIN_LEN) as Hm by by destruct cx.
  destruct (exists_last (l := les)) as (le & p & ->); [intros ->; simpl in Hlow'; arith|].
  (* the leaf gives its last entry *)
  rewrite cells_unfold in Ha'. cbn [forest app] in Ha'.
  destruct (arena_head _ _ _ _ _ Ha') as (b & Hb & Hhb).
  destruct (pop_back_spec _ _ _ _ _ Hhb) as (b' & Hpop & Hhb'). cbn in Hhb'.
  destruct (arena_write _ _ _ _ _ _ _ Ha' Hhb') as (ns1 & Hw1 & Ha1).
  (* which takes the place of the entry *)
  destruct (around_reframe lid cx f (es1 ++ p :: es2) c) as (kids & rest & Hr1 & Hr2).
  rewrite Hr1, perm_swap in Ha1. destruct (arena_head _ _ _ _ _ Ha1) as (n1 & Hn1 & Hh1).
  destruct (node_replace_spec _ _ _ _ _ _ p Hh1) as (n2 & Hrep & Hh2).
  destruct (arena_write _ _ _ _ _ _ _ Ha1 Hh2) as (ns2 & Hw2 & Ha2). cbn [f_id f] in *.
  exists (GNode lid le []), (cx ++ reframe f (es1 ++ p :: es2) :: c), ns2. split_and!.
  - unfold detach. exec. rewrite (holds_leaf _ _ Hh). cbn [cell_of c_kids gks].
    replace (match gid <$> ks1 ++ k :: ks2 with [] => true | _ :: _ => false end) with false by by destruct ks1.
    rewrite (holds_child _ _ _ _ _ (gid k) Hh).
    2:{ cbn [gks]. rewrite fmap_app, lookup_app_r, length_fmap, Hk1, Nat.sub_diag by by rewrite length_fmap, Hk1. done. }
    exec. done.
  - split.
    + rewrite cells_unfold, Hr2, hole_link_reframe. cbn [forest app]. by rewrite perm_swap.
    + apply wf_kids. rewrite length_app in Hlcap. split; [simpl in *; lia|done].
    + apply cwf_reframe; [by cbn [f f_es]; rewrite !length_app|done].
    + assert (low (cx ++ reframe f (es1 ++ p :: es2) :: c) = MIN_LEN) as -> by by destruct cx.
      cbn [ges]. rewrite Hm, length_app in Hlow'. simpl in Hlow'. lia.
  - cbn [gid]. rewrite root_id_app. done.
  - rewrite length_app. simpl. lia.
  - apply cwf_prefix in Hc'; [|done]. pose proof (flat_plug 0 (GNode lid (le ++ [p]) []) cx Hc') as Hfk.
    rewrite Hp, Hrf, app_nil_r in Hfk. rewrite Hfk, lflat_app, rflat_app, Hrf.
    cbn [lflat rflat reframe f_es f_left f_right f flat fmap list_fmap weave].
    rewrite Hk1, take_app_length, drop_app_length. destruct ks2 as [|k2 ks2]; [simpl in Hlen; lia|].
    rewrite fmap_cons, afters_cons, <-fmap_cons. by list_simplifier.
Qed.

(** ** Take *)

Lemma release_length ns fr at_ ns' fr' : release ns fr at_ = Some (ns', fr') -> length ns' = length ns.
Proof. unfold release. intros E. unbind. by eapply write_node_length. Qed.

(** [lengths]: no edit changes the length of the extent. *)
Ltac lengths :=
  repeat match goal with
         | E : adopt _ _ _ _ = Some _ |- _ => apply adopt_length in E
         | E : write_node _ _ _ = Some _ |- _ => apply write_node_length in E
         | E : release _ _ _ = Some _ |- _ => apply release_length in E
         end; lia.

Lemma detach_length ns at_ i e lf ns' : detach ns at_ i = Some (e, lf, ns') -> length ns' = length ns.
Proof. unfold detach. intros E. unbind; lengths. Qed.

Lemma refill_length fuel ns fr r h node ns' r' h' fr' :
  refill fuel ns fr r h node = Some (ns', r', h', fr') -> length ns' = length ns.
Proof.
  revert ns fr node. induction fuel as [|fuel IH]; intros ns fr node E; [done|]. cbn [refill] in E.
  unfold finish_root in E. unbind; repeat (case_match; unbind); unfold borrow_left, borrow_right, merge in *; unbind;
    try apply IH in E; lengths.
Qed.

Lemma refilled_length fuel ns fr r h node l :
  refilled (refill fuel ns fr r h node) l ->
  exists ns' r' h' fl', refill fuel ns fr r h node = Some (ns', r', h', next_of fl') /\
    stores (mkTree ns' r' h' (next_of fl') (length l)) l /\ length ns' = length ns.
Proof.
  intros (ns' & r' & h' & fl' & E & Hs). exists ns', r', h', fl'. split_and!; [done..|]. by eapply refill_length.
Qed.

(** The entry at the place a descent found leaves the tree. *)
Lemma detach_found ns fl h id es1 e es2 ks c :
  focus ns fl h (GNode id (es1 ++ e :: es2) ks) c ->
  detached (detach ns id (length es1)) fl e (root_id id c) (h + length c)
    ((lflat c ++ weave es1 (flat <$> take (S (length es1)) ks)) ++
     (weave es2 (flat <$> drop (S (length es1)) ks) ++ rflat c)).
Proof.
  intros Hf. pose proof (focus_wf _ _ _ _ _ Hf) as Hw. apply wf_kids in Hw as [Hcap Hk]. destruct h as [|h].
  - simpl in Hk. subst ks. apply detach_leaf in Hf. cbn [take drop fmap list_fmap weave].
    by rewrite <-!app_assoc in *.
  - destruct Hk as [Hlen _]. rewrite length_app in Hlen. simpl in Hlen.
    destruct (split_at ks (length es1)) as (ks1 & k & ks2 & -> & Hk1); [lia|].
    apply detach_inner in Hf; [|done].
    replace (ks1 ++ k :: ks2) with ((ks1 ++ [k]) ++ ks2) by by rewrite <-app_assoc.
    rewrite take_app_length', drop_app_length' by (rewrite length_app; simpl; lia).
    rewrite fmap_app, fmap_cons. cbn [fmap list_fmap].
    rewrite weave_mid by (rewrite length_fmap; simpl; lia). rewrite length_fmap, Hk1, firstn_all.
    unfold afters at 1. rewrite zip_with_nil_r. cbn [concat]. rewrite app_nil_r.
    by rewrite <-!app_assoc in *.
Qed.

Lemma take_spec (t : Tree K V) l key :
  stores t l -> ascending l ->
  exists t', take_entry t key = Some (sm_find key l, t') /\
    stores t' (sm_remove key l) /\ length (nodes t') = length (nodes t) /\ (sm_find key l = None -> t' = t).
Proof.
  intros Hst Ha. unfold take_entry.
  destruct (locate_spec t key l Hst Ha) as ([at_ i|at_ i need] & Hsp & Hspec); rewrite Hsp; cbn [mbind option_bind].
  - destruct (found_located _ _ _ _ _ Hst Ha Hsp)
      as (h & [id es ks] & c & fl & es1 & e & es2 & l1 & l2 & -> & (Hf & Hl & Hr & Hh & Hfr & _) & Hes & -> & Hk & El & Hb & Hab & El1 & El2).
    cbn [ges gid gks] in *. subst es.
    destruct (detach_found _ _ _ _ _ _ _ _ _ Hf) as (t' & c' & ns' & Hd & Hdip & Hr' & Hc' & Hl').
    rewrite Hd. cbn [mbind option_bind]. pose proof (path_fuel _ _ _ _ _ (dip_arena _ _ _ _ _ Hdip)) as Hfu.
    pose proof (refill_spec c' (length ns') ns' fl 0 t' Hfu Hdip) as Hre.
    rewrite Hl', Hr', Hc' in Hre. cbn [Nat.add] in Hre. rewrite <-El1, <-El2 in Hre.
    destruct (refilled_length _ _ _ _ _ _ _ Hre) as (ns2 & r2 & h2 & fl2 & Hrun & Hst2 & Hlen2).
    rewrite Hfr, Hr, Hh, Hrun. cbn [mbind option_bind].
    assert (sm_find key l = Some e) as Hlk by by rewrite El, sm_find_here.
    rewrite Hlk. eexists. split; [done|]. split_and!.
    + rewrite El, sm_remove_here by done. replace (tlen t - 1) with (length (l1 ++ l2)); [done|].
      rewrite (proj1 Hst), El, !length_app. simpl. lia.
    + cbn [nodes]. rewrite Hlen2. by eapply detach_length.
    + done.
  - assert (sm_find key l = None) as Hn.
    { destruct Hspec as [(-> & _)|(g & c & fl & -> & -> & Hl)]; [done|]. by eapply lands_vacant. }
    rewrite Hn. exists t. rewrite sm_remove_absent by done. done.
Qed.

End Remove.
