(* ===== verification/BTreeIter.v ===== *)
(** * Iteration

    [tree/iter.rs]: each end of a walk is a place between two entries of a
    leaf.  The front's place has the entries still to come after it, the back's
    those before it; a step climbs through the parent links past the nodes it
    has finished with, answers one entry, and goes down to the next leaf. *)

From stdpp Require Import base numbers option list sorting.
From S2P Require Import Prelude BTreeNode BTree BTreeCell BTreeArena BTreeShape BTreeSpec BTreeInsert BTreeRemove.

Section Iter.
Context {K V : Type} `{KeyOrder K}.
Implicit Types (ks : list (GTree K V)) (es : list (K * V)) (c : list (Frame K V)) (ns : list (Node K V)) (t g : GTree K V).

(** ** Places *)

(** The contents of a node after, and before, the place [i] between two of its
    entries. *)
Definition after (i : nat) t : list (K * V) :=
  match gks t with
  | [] => drop i (ges t)
  | _ :: _ => afters (drop i (ges t)) (flat <$> drop (S i) (gks t))
  end.

Definition before (i : nat) t : list (K * V) :=
  match gks t with
  | [] => take i (ges t)
  | _ :: _ => befores (take i (ges t)) (flat <$> take i (gks t))
  end.

Lemma after_end t : after (length (ges t)) t = [].
Proof. unfold after. rewrite drop_all. by destruct (gks t). Qed.

Lemma before_start t : before 0 t = [].
Proof. unfold before. by destruct (gks t). Qed.

Lemma after_fill (f : Frame K V) t :
  after (length (f_left f)) (fill f t) = afters (drop (length (f_left f)) (f_es f)) (flat <$> f_right f).
Proof.
  unfold after, fill. cbn [gks ges]. destruct (f_left f ++ t :: f_right f) eqn:E; [by destruct (f_left f)|].
  rewrite <-E. do 2 f_equal.
  replace (f_left f ++ t :: f_right f) with ((f_left f ++ [t]) ++ f_right f) by by rewrite <-app_assoc.
  by rewrite drop_app_length' by (rewrite length_app; simpl; lia).
Qed.

Lemma before_fill (f : Frame K V) t :
  before (length (f_left f)) (fill f t) = befores (take (length (f_left f)) (f_es f)) (flat <$> f_left f).
Proof.
  unfold before, fill. cbn [gks ges]. destruct (f_left f ++ t :: f_right f) eqn:E; [by destruct (f_left f)|].
  rewrite <-E. by rewrite take_app_length.
Qed.

(** Up to the parent. *)
Lemma focus_up ns fl h f t c : focus ns fl h t (f :: c) -> focus ns fl (S h) (fill f t) c.
Proof.
  intros [Ha Hw Hc Hlow]. rewrite unplug in Ha. destruct Hc as (Hcap & Hl & Hlen & Hkl & Hkr & Hc).
  split; [done| |done|done]. apply wf_kids. split; [done|]. split; [rewrite length_app; simpl; lia|].
  apply Forall_app. split; [done|]. by constructor.
Qed.

(** The front place of a walk over [g] with the entries [r] to come. *)
Definition front_at ns fl g (p : N * nat) (r : list (K * V)) : Prop :=
  exists t c, focus ns fl 0 t c /\ plug t c = g /\ p.1 = gid t /\ p.2 <= length (ges t) /\
    after p.2 t ++ rflat c = r.

Definition back_at ns fl g (p : N * nat) (l : list (K * V)) : Prop :=
  exists t c, focus ns fl 0 t c /\ plug t c = g /\ p.1 = gid t /\ p.2 <= length (ges t) /\
    lflat c ++ before p.2 t = l.

(** ** Down to a leaf *)

Lemma start_of_spec ns fl h : forall t c fuel,
  focus ns fl h t c -> h < fuel ->
  exists p, start_of fuel ns (gid t) = Some p /\ front_at ns fl (plug t c) p (flat t ++ rflat c).
Proof.
  induction h as [|h IH]; intros [id es ks] c fuel Hf Hfu; (destruct fuel as [|fuel]; [lia|]);
    destruct (focus_node _ _ _ _ _ Hf) as (n & Hn & Hh);
    pose proof (holds_leaf _ _ Hh) as Hleaf;
    pose proof (focus_wf _ _ _ _ _ Hf) as Hw; apply wf_kids in Hw as [Hcap Hk];
    cbn [cell_of c_kids c_entries gks ges gid] in *; cbn [start_of]; rewrite Hn; cbn [mbind option_bind]; rewrite Hleaf.
  - simpl in Hk. subst ks. eexists. split; [done|]. exists (GNode id es []), c. split_and!; try done. simpl. lia.
  - destruct Hk as [Hlen Hk]. destruct ks as [|k ks]; [done|].
    cbn [fmap list_fmap]. rewrite (holds_child _ _ _ _ 0 (gid k) Hh) by done. cbn [mbind option_bind].
    apply (focus_down ns fl h id es [] k ks) in Hf. destruct (IH _ _ fuel Hf) as (p & Hp & Hfr); [lia|].
    exists p. split; [done|]. simpl in Hfr. simpl. by rewrite <-app_assoc.
Qed.

Lemma end_of_spec ns fl h : forall t c fuel,
  focus ns fl h t c -> h < fuel ->
  exists p, end_of fuel ns (gid t) = Some p /\ back_at ns fl (plug t c) p (lflat c ++ flat t).
Proof.
  induction h as [|h IH]; intros [id es ks] c fuel Hf Hfu; (destruct fuel as [|fuel]; [lia|]);
    destruct (focus_node _ _ _ _ _ Hf) as (n & Hn & Hh);
    pose proof (holds_leaf _ _ Hh) as Hleaf; pose proof (holds_entries _ _ Hh) as He;
    pose proof (focus_wf _ _ _ _ _ Hf) as Hw; apply wf_kids in Hw as [Hcap Hk];
    cbn [cell_of c_kids c_entries gks ges gid] in *; cbn [end_of]; rewrite Hn; cbn [mbind option_bind]; rewrite Hleaf;
    unfold node_len; rewrite He.
  - simpl in Hk. subst ks. eexists. split; [done|]. exists (GNode id es []), c. split_and!; try done.
    unfold before. simpl. by rewrite firstn_all.
  - destruct Hk as [Hlen Hk]. destruct (exists_last (l := ks)) as (ks1 & k & ->); [by intros ->|].
    rewrite length_app, Nat.add_1_r in Hlen. injection Hlen as Hlen.
    replace (match gid <$> ks1 ++ [k] with [] => true | _ :: _ => false end) with false by by destruct ks1.
    rewrite (holds_child _ _ _ _ _ (gid k) Hh).
    2:{ cbn [gks]. rewrite fmap_app, lookup_app_r, length_fmap, Hlen, Nat.sub_diag by by rewrite length_fmap, Hlen. done. }
    cbn [mbind option_bind]. apply focus_down in Hf. destruct (IH _ _ fuel Hf) as (p & Hp & Hb); [lia|].
    exists p. split; [done|]. cbn [plug fill f_id f_es f_left f_right lflat] in Hb.
    replace (flat (GNode id es (ks1 ++ [k]))) with (befores (take (length ks1) es) (flat <$> ks1) ++ flat k).
    + by rewrite <-app_assoc in Hb.
    + cbn [flat]. rewrite fmap_app, fmap_cons. cbn [fmap list_fmap].
      rewrite weave_mid by (rewrite length_fmap; simpl; lia). unfold afters. by rewrite length_fmap, zip_with_nil_r, app_nil_r.
Qed.

(** ** Up past the finished nodes *)

Lemma climb_front_spec c : forall ns fl h t i fuel,
  focus ns fl h t c -> length c < fuel -> i <= length (ges t) -> after i t ++ rflat c <> [] ->
  exists h' t' c' i', climb_front fuel ns (gid t) i = Some (gid t', i') /\ focus ns fl h' t' c' /\
    plug t' c' = plug t c /\ i' < length (ges t') /\ after i' t' ++ rflat c' = after i t ++ rflat c.
Proof.
  induction c as [|f c IH]; intros ns fl h t i fuel Hf Hfu Hi Hne; (destruct fuel as [|fuel]; [simpl in Hfu; lia|]);
    destruct (focus_node _ _ _ _ _ Hf) as (n & Hn & Hh); cbn [climb_front]; rewrite Hn; cbn [mbind option_bind];
    unfold node_len; rewrite (holds_entries _ _ Hh); cbn [cell_of c_entries];
    (destruct (Nat.eqb_spec i (length (ges t))) as [->|Hlt]; [|exists h, t; eexists _, _; split_and!; [done..|lia|done]]).
  - by rewrite after_end in Hne.
  - pose proof (arena_frame_ne _ _ _ _ _ _ (focus_arena _ _ _ _ _ Hf)) as Hfid.
    rewrite (holds_parent _ _ Hh), (holds_place _ _ Hh) by done. cbn [cell_of c_link hole_link fst snd].
    pose proof (focus_cwf _ _ _ _ _ Hf) as (_ & _ & Hlen & _). apply focus_up in Hf.
    rewrite after_end in *. cbn [rflat app] in *. rewrite <-(after_fill f t) in *.
    apply (IH ns fl (S h) (fill f t)); [done|simpl in Hfu; lia|cbn [fill ges]; lia|done].
Qed.

Lemma climb_back_spec c : forall ns fl h t i fuel,
  focus ns fl h t c -> length c < fuel -> i <= length (ges t) -> lflat c ++ before i t <> [] ->
  exists h' t' c' i', climb_back fuel ns (gid t) i = Some (gid t', S i') /\ focus ns fl h' t' c' /\
    plug t' c' = plug t c /\ i' < length (ges t') /\ lflat c' ++ before (S i') t' = lflat c ++ before i t.
Proof.
  induction c as [|f c IH]; intros ns fl h t i fuel Hf Hfu Hi Hne; (destruct fuel as [|fuel]; [simpl in Hfu; lia|]);
    destruct (focus_node _ _ _ _ _ Hf) as (n & Hn & Hh); cbn [climb_back];
    (destruct i as [|i]; [|cbn [Nat.eqb]; exists h, t; eexists _, i; split_and!; [done..|lia|done]]).
  - by rewrite before_start in Hne.
  - cbn [Nat.eqb]. rewrite Hn. cbn [mbind option_bind].
    pose proof (arena_frame_ne _ _ _ _ _ _ (focus_arena _ _ _ _ _ Hf)) as Hfid.
    rewrite (holds_parent _ _ Hh), (holds_place _ _ Hh) by done. cbn [cell_of c_link hole_link fst snd].
    pose proof (focus_cwf _ _ _ _ _ Hf) as (_ & _ & Hlen & _). apply focus_up in Hf.
    rewrite before_start, app_nil_r in *. cbn [lflat] in *. rewrite <-(before_fill f t) in *.
    apply (IH ns fl (S h) (fill f t)); [done|simpl in Hfu; lia|cbn [fill ges]; lia|done].
Qed.

(** ** One step *)

Lemma drop_middle {A} (l1 : list A) x l2 i : length l1 = i -> drop (S i) (l1 ++ x :: l2) = l2.
Proof. intros <-. replace (S (length l1)) with (length l1 + 1) by lia. by rewrite drop_app_add. Qed.

Lemma take_middle {A} (l1 : list A) x l2 i : length l1 = i -> take (S i) (l1 ++ x :: l2) = l1 ++ [x].
Proof. intros <-. replace (S (length l1)) with (length l1 + 1) by lia. by rewrite take_app_add. Qed.

(** The node a step stops at: its entry, and where the walk goes on. *)
Lemma leaf_at ns fl t c :
  focus ns fl 0 t c -> exists n, node_at ns (gid t) = Some n /\ leaf n = true /\ entries n = ges t /\ gks t = [].
Proof.
  intros Hf. destruct (focus_node _ _ _ _ _ Hf) as (n & Hn & Hh). pose proof (focus_wf _ _ _ _ _ Hf) as [_ Hk].
  exists n. split_and!; [done| |apply (holds_entries _ _ Hh)|done]. rewrite (holds_leaf _ _ Hh).
  cbn [cell_of c_kids]. by rewrite Hk.
Qed.

Lemma inner_at ns fl h t c i :
  focus ns fl (S h) t c -> i <= length (ges t) ->
  exists n k ks1 ks2, node_at ns (gid t) = Some n /\ leaf n = false /\ entries n = ges t /\
    child n i = Some (gid k) /\ gks t = ks1 ++ k :: ks2 /\ length ks1 = i /\
    focus ns fl h k (mkFrame (gid t) (ges t) ks1 ks2 :: c) /\ fill (mkFrame (gid t) (ges t) ks1 ks2) k = t.
Proof.
  intros Hf Hi. destruct (focus_node _ _ _ _ _ Hf) as (n & Hn & Hh). destruct t as [id es ks].
  pose proof (focus_wf _ _ _ _ _ Hf) as Hw. apply wf_kids in Hw as [_ [Hlen _]]. cbn [ges gid gks] in *.
  destruct (split_at ks i) as (ks1 & k & ks2 & -> & Hk); [lia|]. exists n, k, ks1, ks2.
  split_and!; [done| |apply (holds_entries _ _ Hh)| |done|done|by apply focus_down|done].
  - rewrite (holds_leaf _ _ Hh). cbn. by destruct ks1.
  - apply (holds_child _ _ _ _ _ _ Hh). cbn. subst i.
    rewrite fmap_app, lookup_app_r, length_fmap, Nat.sub_diag by by rewrite length_fmap. done.
Qed.

Definition front_out ns at_ i (n : Node K V) : option (N * nat) :=
  if leaf n then Some (at_, i + 1) else c ← child n (i + 1); start_of (length ns) ns c.

Lemma front_step ns fl g p x r :
  front_at ns fl g p (x :: r) ->
  exists at_ i n f, climb_front (length ns) ns p.1 p.2 = Some (at_, i) /\ node_at ns at_ = Some n /\
    front_out ns at_ i n = Some f /\ entries n !! i = Some x /\ front_at ns fl g f r.
Proof.
  destruct p as [at0 i0]. intros (t0 & c0 & Hf0 & Hp0 & Hid & Hi0 & Hr). cbn [fst snd] in *. subst at0.
  destruct (climb_front_spec c0 ns fl 0 t0 i0 (length ns) Hf0) as (h & t & c & i & Hcl & Hf & Hp & Hi & Ha);
    [by eapply focus_fuel|done|by rewrite Hr|].
  rewrite Hr in Ha. exists (gid t), i. destruct (split_at (ges t) i Hi) as (es1 & e & es2 & Hes & Hl1).
  destruct h as [|h].
  - destruct (leaf_at _ _ _ _ Hf) as (n & Hn & Hleaf & He & Hk). exists n, (gid t, i + 1).
    unfold after in Ha. rewrite Hk, Hes, <-Hl1, drop_app_length in Ha. injection Ha as -> Ha.
    split_and!; [done|done|by unfold front_out; rewrite Hleaf|by rewrite He, Hes, list_lookup_middle|].
    exists t, c. cbn [fst snd]. split_and!; [done|by rewrite Hp|done|lia|].
    unfold after. rewrite Hk, Hes, Nat.add_1_r, drop_middle by done. done.
  - destruct (inner_at _ _ _ _ _ (S i) Hf Hi) as (n & k & ks1 & ks2 & Hn & Hleaf & He & Hch & Hk & Hl2 & Hfk & Hfill).
    destruct (start_of_spec _ _ _ _ _ (length ns) Hfk) as (f & Hst & Hfr);
      [pose proof (focus_depth _ _ _ _ _ Hf); lia|].
    exists n, f. unfold front_out. rewrite Hleaf, Nat.add_1_r, Hch.
    cbn [plug] in Hfr. rewrite Hfill, Hp in Hfr.
    unfold after in Ha. rewrite Hk, Hes, <-Hl1, drop_app_length in Ha.
    destruct (ks1 ++ k :: ks2) eqn:Ek; [by destruct ks1|]. rewrite <-Ek in Ha.
    rewrite drop_app_length' in Ha by lia. rewrite fmap_cons, afters_cons in Ha. injection Ha as -> Ha.
    split_and!; [done..|by rewrite He, Hes, list_lookup_middle|]. rewrite <-Hp0.
    replace r with (flat k ++ rflat (mkFrame (gid t) (ges t) ks1 ks2 :: c)); [done|].
    cbn [rflat f_left f_es f_right]. rewrite <-Ha, Hes, Hl2, drop_middle by done. simpl. by rewrite app_assoc.
Qed.

Definition back_out ns at_ i (n : Node K V) : option (N * nat) :=
  if leaf n then Some (at_, i) else c ← child n i; end_of (length ns) ns c.

Lemma back_step ns fl g p x l :
  back_at ns fl g p (l ++ [x]) ->
  exists at_ i n b, climb_back (length ns) ns p.1 p.2 = Some (at_, S i) /\ node_at ns at_ = Some n /\
    back_out ns at_ i n = Some b /\ entries n !! i = Some x /\ back_at ns fl g b l.
Proof.
  destruct p as [at0 i0]. intros (t0 & c0 & Hf0 & Hp0 & Hid & Hi0 & Hr). cbn [fst snd] in *. subst at0.
  destruct (climb_back_spec c0 ns fl 0 t0 i0 (length ns) Hf0) as (h & t & c & i & Hcl & Hf & Hp & Hi & Ha);
    [by eapply focus_fuel|done|rewrite Hr; by destruct l|].
  rewrite Hr in Ha. exists (gid t), i. destruct (split_at (ges t) i Hi) as (es1 & e & es2 & Hes & Hl1).
  assert (take (S i) (ges t) = es1 ++ [e]) as Htk.
  { by rewrite Hes, take_middle. }
  destruct h as [|h].
  - destruct (leaf_at _ _ _ _ Hf) as (n & Hn & Hleaf & He & Hk). exists n, (gid t, i).
    unfold before in Ha. rewrite Hk, Htk, app_assoc in Ha. apply app_inj_tail in Ha as [Ha ->].
    split_and!; [done|done|by unfold back_out; rewrite Hleaf|by rewrite He, Hes, list_lookup_middle|].
    exists t, c. cbn [fst snd]. split_and!; [done|by rewrite Hp|done|lia|].
    unfold before. by rewrite Hk, Hes, take_app_length'.
  - destruct (inner_at _ _ _ _ _ i Hf) as (n & k & ks1 & ks2 & Hn & Hleaf & He & Hch & Hk & Hl2 & Hfk & Hfill); [lia|].
    destruct (end_of_spec _ _ _ _ _ (length ns) Hfk) as (b & Hen & Hb);
      [pose proof (focus_depth _ _ _ _ _ Hf); lia|].
    exists n, b. unfold back_out. rewrite Hleaf, Hch. cbn [plug] in Hb. rewrite Hfill, Hp in Hb.
    unfold before in Ha. rewrite Hk, Htk in Ha.
    destruct (ks1 ++ k :: ks2) eqn:Ek; [by destruct ks1|]. rewrite <-Ek in Ha.
    rewrite take_middle, fmap_app in Ha by done.
    rewrite befores_app in Ha by (rewrite length_fmap; lia).
    assert (befores [e] (flat <$> [k]) = flat k ++ [e]) as Hek by (unfold befores; simpl; by rewrite app_nil_r).
    rewrite Hek, !app_assoc in Ha. apply app_inj_tail in Ha as [Ha ->].
    split_and!; [done..|by rewrite He, Hes, list_lookup_middle|]. rewrite <-Hp0.
    replace l with (lflat (mkFrame (gid t) (ges t) ks1 ks2 :: c) ++ flat k); [done|].
    cbn [lflat f_left f_es f_right]. rewrite <-Ha, Hes, Hl2, take_app_length' by done. done.
Qed.

(** ** A walk from both ends *)

(** What is left to answer: the entries [m] between the two ends. *)
Definition walking (t : Tree K V) (l : list (K * V)) (it : Iter) (m : list (K * V)) : Prop :=
  left_ it = length m /\
  (m = [] \/ exists g fl l1 l2, l = l1 ++ m ++ l2 /\
     front_at (nodes t) fl g (front it) (m ++ l2) /\ back_at (nodes t) fl g (back it) (l1 ++ m)).

Lemma iter_new_walking (t : Tree K V) l : stores t l -> exists it, iter_new t = Some it /\ walking t l it l.
Proof.
  intros (Hlen & fl & _ & Hs). unfold iter_new. rewrite Hlen. destruct l as [|x l].
  { eexists. split; [done|]. split; [done|by left]. }
  cbn [length Nat.ltb Nat.leb]. destruct Hs as [(Hn & _)|(g & Hg & Hsp)]; [done|].
  pose proof (spells_focus _ _ _ Hsp) as Hf. destruct Hsp as (-> & _).
  pose proof (focus_depth _ _ _ _ _ Hf) as Hd. simpl in Hd.
  destruct (start_of_spec _ _ _ _ _ (length (nodes t)) Hf) as (f & Hst & Hfr); [lia|].
  destruct (end_of_spec _ _ _ _ _ (length (nodes t)) Hf) as (b & Hen & Hb); [lia|].
  exec. eexists. split; [done|]. split; [done|]. right. exists g, fl, [], []. cbn [lflat rflat app plug] in *.
  rewrite Hg, app_nil_r in *. done.
Qed.

Lemma iter_next_spec (t : Tree K V) l it m :
  walking t l it m ->
  exists it', iter_next t it = Some (head m, it') /\ walking t l it' (tail m).
Proof.
  intros [Hl Hw]. unfold iter_next. rewrite Hl. destruct m as [|x m].
  { exists it. split; [done|]. split; [done|by left]. }
  destruct Hw as [|(g & fl & l1 & l2 & El & Hf & Hb)]; [done|]. cbn [length].
  destruct (front_step _ _ _ _ _ _ Hf) as (at_ & i & n & f & Hcl & Hn & Hout & He & Hf').
  unfold front_out in Hout. exec. eexists. split; [done|]. split; [done|]. right.
  exists g, fl, (l1 ++ [x]), l2. cbn [front back tail]. rewrite <-!app_assoc. done.
Qed.

Lemma iter_next_back_spec (t : Tree K V) l it m :
  walking t l it m ->
  exists it', iter_next_back t it = Some (last m, it') /\ walking t l it' (removelast m).
Proof.
  intros [Hl Hw]. unfold iter_next_back. rewrite Hl. destruct m as [|x m _] using rev_ind.
  { exists it. split; [done|]. split; [done|by left]. }
  destruct Hw as [Hn|(g & fl & l1 & l2 & El & Hf & Hb)]; [by destruct m|].
  rewrite length_app, Nat.add_1_r, last_snoc, removelast_last. rewrite app_assoc in Hb.
  destruct (back_step _ _ _ _ _ _ Hb) as (at_ & i & n & b & Hcl & Hn & Hout & He & Hb').
  rewrite Hcl. cbn [mbind option_bind]. rewrite Hn. cbn [mbind option_bind].
  replace (S i - 1) with i by lia. unfold back_out in Hout. exec.
  eexists. split; [done|]. split; [done|]. right.
  exists g, fl, l1, (x :: l2). cbn [front back]. rewrite <-!app_assoc in *. done.
Qed.

End Iter.

(** * Loading a tree from its entries in order

    [tree/build.rs]: each level spreads its entries evenly over the fewest
    nodes, with one entry between each two of them, and those go up a level.
    The entries keep their order through every level, each node below the root
    gets at least [MIN_LEN] of them, and there are never more nodes than
    entries. *)

Section Build.
Context {K V : Type} `{KeyOrder K}.
Implicit Types (ks gs : list (GTree K V)) (es level : list (K * V)) (ns : list (Node K V)).

(** ** One node *)

(** Subtrees whose links still name no parent. *)
Definition orphans ks : list (N * Cell K V) := loose (replicate (length ks) (NONE, 0)) ks.

Lemma orphans_app ks1 ks2 : orphans (ks1 ++ ks2) = orphans ks1 ++ orphans ks2.
Proof. unfold orphans. rewrite length_app, replicate_add, loose_app by by rewrite length_replicate. done. Qed.

Definition kid_ids (h : nat) ks : option (list N) := match h with O => None | S _ => Some (gid <$> ks) end.

Lemma arena_push ns cs n c :
  arena ns cs [] -> holds n c -> (N.of_nat (length ns + 1) < NONE)%N ->
  arena (ns ++ [n]) ((N.of_nat (length ns), c) :: cs) [].
Proof.
  intros Ha Hh Hlt. pose proof (arena_ids _ _ _ Ha) as Hids. destruct Ha as [Hnd Hc _ Hs Hl]. split.
  - rewrite app_nil_r in *. cbn. apply NoDup_cons. split; [|done]. intros Hin.
    rewrite Forall_forall in Hids. apply Hids in Hin. simpl in Hin. lia.
  - constructor; [|eapply Forall_impl; [exact Hc|]; intros ic; apply occupied_app_r].
    exists n. split; [|done]. unfold node_at. cbn. by rewrite Nat2N.id, list_lookup_middle.
  - done.
  - rewrite length_app. simpl. done.
  - rewrite length_app, Hl. simpl. lia.
Qed.

Lemma push_node_spec ns h es ks rest :
  arena ns (orphans ks ++ rest) [] -> kids_ok h es ks -> length es <= CAPACITY ->
  (N.of_nat (length ns + 1) < NONE)%N ->
  exists ns', push_node ns es (kid_ids h ks) = Some (N.of_nat (length ns), ns') /\
    arena ns' (orphans [GNode (N.of_nat (length ns)) es ks] ++ rest) [] /\ length ns' = S (length ns).
Proof.
  intros Ha Hk Hcap Hlt. unfold push_node.
  rewrite N.mod_small by (unfold NONE, u32_max in Hlt; rewrite N.ones_equiv in Hlt; lia).
  destruct (holding_spec es (gid <$> ks)) as (n & Hn & Hh); [done| |].
  { destruct h; simpl in Hk; [subst; by left|right]. rewrite length_fmap. apply Hk. }
  assert (kid_ids h ks = match gid <$> ks with [] => None | _ :: _ => Some (gid <$> ks) end) as ->.
  { destruct h; simpl in *; [by subst|]. destruct Hk as [Hk _]. by destruct ks. }
  rewrite Hn. cbn [mbind option_bind].
  pose proof (arena_push _ _ _ _ Ha Hh Hlt) as Ha1. unfold orphans in Ha1.
  destruct (adopt_spec _ _ _ _ _ rest _ 0 (length es) _ ks Ha1) as (ns' & Had & Ha2).
  - by rewrite length_replicate.
  - rewrite drop_0, take_ge; [done|]. by rewrite length_fmap.
  - intros Hnn. destruct h; simpl in *; [by subst|]. lia.
  - rewrite Had. exists ns'. split; [done|]. split.
    + unfold orphans. cbn [length replicate loose]. rewrite app_nil_r, cells_unfold. exact Ha2.
    + rewrite (adopt_length _ _ _ _ _ Had), length_app. simpl. lia.
Qed.

(** ** One level *)

Lemma slice_spec {A} (l pre mid post : list A) :
  l = pre ++ mid ++ post -> slice l (length pre) (length mid) = Some mid.
Proof.
  intros ->. unfold slice. rewrite (proj2 (Nat.leb_le _ _)) by (rewrite !length_app; lia).
  by rewrite drop_app_length, take_app_length.
Qed.

(** The nodes of a level: their contents around the entries between them are
    the level's, and each holds [each] entries, or one more. *)
Definition spread (h each : nat) gs : Prop :=
  Forall (fun g => each <= length (ges g) <= each + 1 /\ wf h g) gs.

(** The children a node takes. *)
Lemma kid_slice h es kpre k1 k2 child_ :
  kids_ok h es k1 -> (h <> 0 -> child_ = length kpre) ->
  match kid_ids h (kpre ++ k1 ++ k2) with
  | None => Some None
  | Some c => ks ← slice c child_ (length es + 1); Some (Some ks)
  end = Some (kid_ids h k1).
Proof.
  destruct h; simpl; [done|]. intros [Hl _] ->; [|done].
  replace (length es + 1) with (length (gid <$> k1)) by (rewrite length_fmap; lia).
  rewrite <-(length_fmap gid kpre). rewrite (slice_spec _ _ _ (gid <$> k2)); [done|]. by rewrite !fmap_app.
Qed.

Lemma load_nodes_spec h each extra : forall left n pre rem kpre rk child_ ns rest,
  kids_ok h rem rk -> (h <> 0 -> child_ = length kpre) ->
  1 <= left -> length rem + 1 = left * (each + 1) + (extra - n) -> extra <= n + left ->
  each < CAPACITY \/ each <= CAPACITY /\ extra = 0 ->
  arena ns (orphans rk ++ rest) [] -> (N.of_nat (length ns + left) < NONE)%N ->
  exists between gs ns',
    load_nodes left n each extra (pre ++ rem) (kid_ids h (kpre ++ rk)) (length pre) child_ ns
      = Some (between, gid <$> gs, ns') /\
    length gs = left /\ S (length between) = left /\ spread h each gs /\
    weave between (flat <$> gs) = weave rem (flat <$> rk) /\
    arena ns' (orphans gs ++ rest) [] /\ length ns' = length ns + left.
Proof.
  induction left as [|left IH]; intros n pre rem kpre rk child_ ns rest Hk Hch Hl1 Hsz Hex Heach Ha Hlt; [lia|].
  cbn [load_nodes]. set (tk := each + (if n <? extra then 1 else 0)).
  assert (tk <= CAPACITY /\ each <= tk <= each + 1 /\ tk + (extra - S n) = each + (extra - n)) as (Htk & Htk' & Htk2).
  { unfold tk. destruct (Nat.ltb_spec n extra); lia. }
  clearbody tk. destruct left as [|left].
  - assert (length rem = tk) as Hrem by lia. rewrite <-Hrem.
    rewrite (slice_spec (pre ++ rem) pre rem []) by by rewrite app_nil_r. cbn [mbind option_bind].
    pose proof (kid_slice h rem kpre rk [] child_ Hk Hch) as Hks. rewrite app_nil_r in Hks. rewrite Hks.
    cbn [mbind option_bind].
    destruct (push_node_spec ns h rem rk rest Ha Hk) as (ns' & -> & Ha' & Hl'); [lia|done|]. cbn [mbind option_bind].
    exists [], [GNode (N.of_nat (length ns)) rem rk], ns'. split_and!; try done; [| |lia].
    + constructor; [|done]. cbn [ges]. split; [lia|]. apply wf_kids. split; [lia|done].
    + cbn. unfold afters. simpl. by rewrite app_nil_r.
  - destruct (split_at rem tk) as (es1 & sep & es2 & -> & Hes1); [simpl in Hsz; lia|].
    destruct (kids_ok_cut _ _ _ _ _ Hk) as (k1 & k2 & -> & Hk1 & Hk2). rewrite <-Hes1.
    rewrite (slice_spec (pre ++ es1 ++ sep :: es2) pre es1 (sep :: es2)) by done. cbn [mbind option_bind].
    rewrite (kid_slice h es1 kpre k1 k2 child_ Hk1 Hch). cbn [mbind option_bind].
    rewrite orphans_app, <-app_assoc in Ha.
    destruct (push_node_spec ns h es1 k1 _ Ha Hk1) as (ns1 & -> & Ha1 & Hl1'); [lia|lia|]. cbn [mbind option_bind].
    set (g := GNode (N.of_nat (length ns)) es1 k1) in *.
    rewrite app_assoc, list_lookup_middle by by rewrite length_app. cbn [mbind option_bind].
    rewrite length_app in Hsz. cbn [length] in Hsz.
    destruct (IH (S n) (pre ++ es1 ++ [sep]) es2 (kpre ++ k1) k2 (child_ + length es1 + 1) ns1 (orphans [g] ++ rest))
      as (between & gs & ns2 & Hrun & Hlg & Hlb & Hsp & Hwv & Ha2 & Hl2); try done; try lia.
    { intros Hh0. rewrite length_app, Hch by done. destruct h; [done|]. destruct Hk1 as [Hk1 _]. lia. }
    { reorder Ha1. }
    replace ((pre ++ es1 ++ [sep]) ++ es2) with ((pre ++ es1) ++ sep :: es2) in Hrun by by rewrite <-!app_assoc.
    replace ((kpre ++ k1) ++ k2) with (kpre ++ k1 ++ k2) in Hrun by by rewrite app_assoc.
    replace (length (pre ++ es1 ++ [sep])) with (length pre + length es1 + 1) in Hrun by (rewrite !length_app; simpl; lia).
    rewrite Hrun. cbn [mbind option_bind].
    exists (sep :: between), (g :: gs), ns2. split_and!; try done.
    + cbn [length]. lia.
    + cbn [length]. lia.
    + constructor; [|done]. unfold g. cbn [ges]. split; [lia|]. apply wf_kids. split; [lia|done].
    + change (g :: gs) with ([g] ++ gs). change (sep :: between) with ([] ++ sep :: between).
      rewrite fmap_app, fmap_app. rewrite weave_app, Hwv.
      2:{ right. split; [done|]. by destruct gs. }
      rewrite (weave_app es1).
      * unfold g. simpl. unfold afters. simpl. by rewrite app_nil_r.
      * destruct h; simpl in *; [left; by rewrite Hk1, Hk2|right]. rewrite length_fmap. split; [apply Hk1|].
        destruct Hk2 as [Hk2 _]. by destruct k2.
    + change (g :: gs) with ([g] ++ gs). rewrite orphans_app. reorder Ha2.
    + lia.
Qed.

(** The arithmetic of a level of [n] entries: [count] nodes, [each] entries or
    one more in each. *)
Lemma level_sizes n count each extra :
  1 <= n -> count = (n + 1 + CAPACITY) / (CAPACITY + 1) ->
  each = (n + 1 - count) / count -> extra = (n + 1 - count) mod count ->
  1 <= count /\ n + 1 = count * (each + 1) + extra /\ extra < count /\
  (each < CAPACITY \/ each <= CAPACITY /\ extra = 0) /\
  (count = 1 -> each = n) /\ (1 < count -> MIN_LEN <= each) /\ count + (count - 1) <= n.
Proof.
  intros Hn Hcount Heach Hextra. rewrite capacity_is, min_len_is in *.
  assert (n + 1 <= 12 * count /\ 12 * (count - 1) < n + 1 /\ 1 <= count) as (H1 & H2 & H3).
  { pose proof (Nat.div_mod_eq (n + 1 + 11) (11 + 1)) as Hd.
    pose proof (Nat.mod_upper_bound (n + 1 + 11) (11 + 1) ltac:(lia)) as Hm. rewrite <-Hcount in Hd. lia. }
  clear Hcount. remember (n + 1 - count) as held eqn:Hheld. pose proof (Nat.div_mod_eq held count) as Hd.
  pose proof (Nat.mod_upper_bound held count ltac:(lia)) as Hm. rewrite <-Heach, <-Hextra in Hd. rewrite <-Hextra in Hm.
  clear Heach Hextra. split_and!; [lia|nia|lia| | | |lia].
  - destruct (decide (each < 11)); [by left|right]. nia.
  - intros ->. nia.
  - intros Hc. nia.
Qed.

Lemma load_level_spec h level ks ns :
  kids_ok h level ks -> 1 <= length level -> arena ns (orphans ks) [] ->
  (N.of_nat (length ns + length level) < NONE)%N ->
  exists between gs ns', load_level ns level (kid_ids h ks) = Some (between, gid <$> gs, ns') /\
    length gs = S (length between) /\ weave between (flat <$> gs) = weave level (flat <$> ks) /\
    arena ns' (orphans gs) [] /\ length ns' = length ns + length gs /\
    length gs + length between <= length level /\
    match between with
    | [] => exists g, gs = [g] /\ wf h g /\ 1 <= length (ges g)
    | _ :: _ => kids_ok (S h) between gs
    end.
Proof.
  intros Hk Hn Ha Hlt. unfold load_level. destruct (level_sizes (length level) _ _ _ Hn eq_refl eq_refl eq_refl) as (Hc & Hsz & Hex & Heach & Hone & Hmin & Hle).
  set (count := (length level + 1 + CAPACITY) / (CAPACITY + 1)) in *. set (held := length level + 1 - count) in *.
  set (each := held / count) in *. set (extra := held mod count) in *.
  destruct (load_nodes_spec h each extra count 0 [] level [] ks 0 ns []) as (between & gs & ns' & Hrun & Hlg & Hlb & Hsp & Hwv & Ha' & Hl');
    try done; [lia|lia|by rewrite app_nil_r|lia|].
  rewrite app_nil_r in Ha'. exists between, gs, ns'. split_and!; [done|lia|done|done|lia|lia|].
  destruct between as [|sep between].
  - destruct gs as [|g [|]]; [simpl in Hlg; lia| |simpl in *; lia]. exists g. apply Forall_cons in Hsp as [[Hg Hw] _].
    split_and!; [done|done|]. rewrite Hone in Hg by (simpl in *; lia). lia.
  - split; [lia|]. eapply Forall_impl; [exact Hsp|]. intros g [Hg Hw]. split; [|done].
    assert (MIN_LEN <= each) by (apply Hmin; simpl in *; lia). lia.
Qed.

(** ** Every level *)

Lemma load_spec fuel : forall h level ks ns len,
  kids_ok h level ks -> 1 <= length level <= fuel -> arena ns (orphans ks) [] ->
  (N.of_nat (length ns + length level) < NONE)%N ->
  exists t g, load fuel ns level (kid_ids h ks) h len = Some t /\ tlen t = len /\ free t = NONE /\
    spells t g [] /\ flat g = weave level (flat <$> ks) /\ length (nodes t) <= length ns + length level.
Proof.
  induction fuel as [|fuel IH]; intros h level ks ns len Hk Hn Ha Hlt; [lia|]. cbn [load].
  destruct (load_level_spec h level ks ns Hk ltac:(lia) Ha Hlt)
    as (between & gs & ns' & -> & Hlg & Hwv & Ha' & Hl' & Hle & Hb). cbn [mbind option_bind].
  destruct between as [|sep between].
  - destruct Hb as (g & -> & Hw & H1). cbn [fmap list_fmap lookup list_lookup mbind option_bind].
    eexists _, g. split; [done|]. split_and!; [done|done| | |].
    + split_and!; [done|done|done|]. unfold orphans in Ha'. cbn [length replicate loose] in Ha'. by rewrite app_nil_r in Ha'.
    + rewrite <-Hwv. simpl. unfold afters. by rewrite app_nil_r.
    + cbn [from_nodes nodes]. simpl in *. lia.
  - destruct (IH (S h) (sep :: between) gs ns' len Hb) as (t & g & Hrun & Hlen & Hfr & Hsp & Hfl & Hnn); [simpl in *; lia|done|simpl in *; lia|].
    rewrite Nat.add_1_r. exists t, g. split_and!; [exact Hrun|done|done|done|by rewrite Hfl|lia].
Qed.

Lemma tree_new_spec es :
  (N.of_nat (length es) < NONE)%N ->
  exists t, tree_new es = Some t /\ stores t es /\ length (nodes t) <= length es.
Proof.
  intros Hlt. unfold tree_new. destruct es as [|e es].
  { exists empty_tree. split; [done|]. split; [|simpl; lia]. split; [done|]. exists []. split; [done|]. left.
    split_and!; [done..|]. split; [by apply NoDup_nil|by apply Forall_nil|done|done|done]. }
  destruct (load_spec (length (e :: es)) 0 (e :: es) [] [] (length (e :: es)))
    as (t & g & Hrun & Hlen & Hfr & Hsp & Hfl & Hn); [done|simpl; lia| |done|].
  { split; [by apply NoDup_nil|by apply Forall_nil|done|done|done]. }
  exists t. split; [exact Hrun|]. split; [|exact Hn]. split; [done|]. exists []. split; [done|]. right. by exists g.
Qed.

End Build.
