(* ===== verification/SortedStore.v ===== *)
(** * The [@set] and [@struct] stores

    [value/store/set.rs] and [structs.rs] over the B-tree: a set member is a
    key with no value.  The region the nodes lie in, the borrow guards and
    [node_bytes] are not part of the model.  A store's operations are also
    steps, over which its theorems range; an abstract step is the same
    operation on a sorted map. *)

From stdpp Require Import base numbers option list sorting.
From S2P Require Import Prelude BTreeNode BTree BTreeCell BTreeArena BTreeShape BTreeSpec.

Section Stores.
Context {K V : Type} `{KeyOrder K}.

(** ** Walks *)

(** A walk takes the next entry from the front, [true], or from the back. *)
Fixpoint walk (t : Tree K V) (dirs : list bool) (it : Iter) : option (list (option (K * V))) :=
  match dirs with
  | [] => Some []
  | d :: ds =>
      '(e, it') ← (if d then iter_next t it else iter_next_back t it);
      es ← walk t ds it';
      Some (e :: es)
  end.

Definition walk_from (t : Tree K V) (dirs : list bool) : option (list (option (K * V))) :=
  it ← iter_new t; walk t dirs it.

(** The same on a list. *)
Fixpoint deque {E} (dirs : list bool) (l : list E) : list (option E) :=
  match dirs with
  | [] => []
  | true :: ds => head l :: deque ds (tail l)
  | false :: ds => last l :: deque ds (removelast l)
  end.

(** ** [@struct] *)

Definition struct_new (entries : list (K * V)) : option (Tree K V) := tree_new entries.
Definition struct_len (t : Tree K V) : nat := tlen t.
Definition struct_get (t : Tree K V) (key : K) : option (option V) := get t key.
Definition contains_key (t : Tree K V) (key : K) : option bool :=
  v ← get t key; Some (bool_decide (is_Some v)).

(** [stored] is the key [vacant] hands back. *)
Definition struct_put (t : Tree K V) (key : K) (v : V) (stored : K) : option (Put V * Tree K V) :=
  put t key (fun held => (held, v)) (stored, v).

Definition remove_entry (t : Tree K V) (key : K) : option (option (K * V) * Tree K V) := take_entry t key.

Inductive StructOp :=
  | SPut (key : K) (v : V) (stored : K)
  | SRemove (key : K)
  | SGet (key : K)
  | SHas (key : K)
  | SLen
  | SWalk (dirs : list bool).

Inductive StructAnswer :=
  | ADisplaced (v : V)
  | AStored (k : K)
  | ARemoved (e : option (K * V))
  | AGot (v : option V)
  | AHas (b : bool)
  | ALen (n : nat)
  | AWalk (es : list (option (K * V))).

Definition struct_step (t : Tree K V) (op : StructOp) : option (StructAnswer * Tree K V) :=
  match op with
  | SPut key v stored =>
      '(p, t') ← struct_put t key v stored;
      Some (match p with Edited _ held => ADisplaced held | Stored _ k => AStored k end, t')
  | SRemove key => '(e, t') ← remove_entry t key; Some (ARemoved e, t')
  | SGet key => v ← struct_get t key; Some (AGot v, t)
  | SHas key => b ← contains_key t key; Some (AHas b, t)
  | SLen => Some (ALen (struct_len t), t)
  | SWalk dirs => es ← walk_from t dirs; Some (AWalk es, t)
  end.

(** A put keeps the key the store holds, and answers the value it displaced. *)
Definition abs_struct_step (l : list (K * V)) (op : StructOp) : StructAnswer * list (K * V) :=
  match op with
  | SPut key v stored =>
      match sm_find key l with
      | Some (k, held) => (ADisplaced held, sm_put (k, v) l)
      | None => (AStored stored, sm_put (stored, v) l)
      end
  | SRemove key => (ARemoved (sm_find key l), sm_remove key l)
  | SGet key => (AGot (snd <$> sm_find key l), l)
  | SHas key => (AHas (bool_decide (is_Some (sm_find key l))), l)
  | SLen => (ALen (length l), l)
  | SWalk dirs => (AWalk (deque dirs l), l)
  end.

(** What the caller promises: [vacant] hands back an equal key. *)
Definition struct_op_ok (op : StructOp) : Prop :=
  match op with SPut key _ stored => cmp stored key = Eq | _ => True end.

End Stores.

Arguments StructOp : clear implicits.
Arguments StructAnswer : clear implicits.

(** ** [@set] *)

Section Sets.
Context {K : Type} `{KeyOrder K}.

Definition set_new (members : list K) : option (Tree K unit) := tree_new ((fun m => (m, tt)) <$> members).
Definition set_len (t : Tree K unit) : nat := tlen t.
Definition set_contains (t : Tree K unit) (v : K) : option bool :=
  o ← get t v; Some (bool_decide (is_Some o)).
Definition set_insert (t : Tree K unit) (v : K) : option (bool * Tree K unit) := tree_insert t (v, tt).
Definition set_take (t : Tree K unit) (v : K) : option (option K * Tree K unit) :=
  x ← take_entry t v; Some (option_map fst x.1, x.2).

Inductive SetOp :=
  | TInsert (v : K)
  | TTake (v : K)
  | THas (v : K)
  | TLen
  | TWalk (dirs : list bool).

Inductive SetAnswer :=
  | BInserted (b : bool)
  | BTaken (m : option K)
  | BHas (b : bool)
  | BLen (n : nat)
  | BWalk (ms : list (option K)).

Definition set_step (t : Tree K unit) (op : SetOp) : option (SetAnswer * Tree K unit) :=
  match op with
  | TInsert v => '(b, t') ← set_insert t v; Some (BInserted b, t')
  | TTake v => '(m, t') ← set_take t v; Some (BTaken m, t')
  | THas v => b ← set_contains t v; Some (BHas b, t)
  | TLen => Some (BLen (set_len t), t)
  | TWalk dirs => es ← walk_from t dirs; Some (BWalk (map (option_map fst) es), t)
  end.

(** An insert of a member that is present leaves the one the set holds. *)
Definition abs_set_step (l : list (K * unit)) (op : SetOp) : SetAnswer * list (K * unit) :=
  match op with
  | TInsert v =>
      match sm_find v l with
      | Some _ => (BInserted false, l)
      | None => (BInserted true, sm_put (v, tt) l)
      end
  | TTake v => (BTaken (option_map fst (sm_find v l)), sm_remove v l)
  | THas v => (BHas (bool_decide (is_Some (sm_find v l))), l)
  | TLen => (BLen (length l), l)
  | TWalk dirs => (BWalk (map (option_map fst) (deque dirs l)), l)
  end.

End Sets.

Arguments SetOp : clear implicits.
Arguments SetAnswer : clear implicits.

(** ** Sequences of operations *)

Fixpoint run {S O A : Type} (step : S -> O -> option (A * S)) (s : S) (ops : list O) : option (list A * S) :=
  match ops with
  | [] => Some ([], s)
  | op :: rest => '(a, s') ← step s op; '(answers, s2) ← run step s' rest; Some (a :: answers, s2)
  end.

Fixpoint abs_run {S O A : Type} (step : S -> O -> A * S) (s : S) (ops : list O) : list A * S :=
  match ops with
  | [] => ([], s)
  | op :: rest => let '(a, s') := step s op in let '(answers, s2) := abs_run step s' rest in (a :: answers, s2)
  end.

(** The most [len] measures in a state the operations come through, the first
    and the last included. *)
Fixpoint abs_peak {S O A : Type} (step : S -> O -> A * S) (len : S -> nat) (s : S) (ops : list O) : nat :=
  match ops with
  | [] => len s
  | op :: rest => max (len s) (abs_peak step len (step s op).2 rest)
  end.
