(* ===== verification/SortedStoreProps.v ===== *)
(** * What the sorted stores promise

    The refinement of a sorted map by [@struct] and [@set] over every sequence
    of operations, and the facts about the tree it rests on: the two searches
    agree, a loaded tree holds its entries, a walk from both ends answers each
    entry once, every node's links and fields are right, and the height and the
    number of nodes are bounded by the entries. *)

From stdpp Require Import base numbers option list sorting.
From S2P Require Import Prelude BTreeNode BTree BTreeCell BTreeArena BTreeShape BTreeSpec.
From S2P Require Import BTreeInsert BTreeRemove BTreeIter SortedStore.

Section Props.
Context {K V : Type} `{KeyOrder K}.

(** ** Lookup *)

Lemma get_spec (t : Tree K V) l key : stores t l -> ascending l -> get t key = Some (snd <$> sm_find key l).
Proof.
  intros Hst Ha. unfold get. rewrite (proj1 Hst). destruct l as [|x l]; [done|]. cbn [length Nat.eqb].
  destruct (tree_descend (fun s _ _ => s) (fun s _ => s) t key (x :: l) tt)
    as (h & g & c & fl & i & found & -> & Hl); [done..|]. cbn [mbind option_bind]. destruct found.
  - destruct (found_split _ _ _ _ _ _ _ _ Hl Ha) as (es1 & e & es2 & l1 & l2 & Hes & -> & Hk & El & Hb & _).
    destruct Hl as (Hf & _). destruct (focus_node _ _ _ _ _ Hf) as (n & -> & Hh). cbn [mbind option_bind].
    rewrite (holds_entries _ _ Hh). cbn [cell_of c_entries]. rewrite Hes, list_lookup_middle by done.
    by rewrite El, sm_find_here.
  - assert (h = 0) as -> by apply Hl. by rewrite (lands_vacant _ _ _ _ _ _ _ Hl).
Qed.

(** ** Walks *)

Lemma walk_spec (t : Tree K V) l dirs : forall it m, walking t l it m -> walk t dirs it = Some (deque dirs m).
Proof.
  induction dirs as [|[] dirs IH]; intros it m Hw; [done|..]; cbn [walk deque].
  - destruct (iter_next_spec _ _ _ _ Hw) as (it' & -> & Hw'). cbn [mbind option_bind]. by rewrite (IH _ _ Hw').
  - destruct (iter_next_back_spec _ _ _ _ Hw) as (it' & -> & Hw'). cbn [mbind option_bind]. by rewrite (IH _ _ Hw').
Qed.

Lemma walk_from_spec (t : Tree K V) l dirs : stores t l -> walk_from t dirs = Some (deque dirs l).
Proof.
  intros Hst. unfold walk_from. destruct (iter_new_walking _ _ Hst) as (it & -> & Hw). cbn [mbind option_bind].
  by eapply walk_spec.
Qed.

(** ** One step *)

(** What a step keeps: the tree stores the abstract state, and no more nodes
    than the most entries it held, [peak]. *)
Definition simulates (t : Tree K V) (l : list (K * V)) (peak : nat) : Prop :=
  stores t l /\ ascending l /\ length (nodes t) <= peak /\ length l <= peak.

Lemma struct_step_spec t l op peak :
  simulates t l peak -> struct_op_ok op -> (N.of_nat (length (abs_struct_step l op).2) < NONE)%N ->
  exists t', struct_step t op = Some ((abs_struct_step l op).1, t') /\
    simulates t' (abs_struct_step l op).2 (max peak (length (abs_struct_step l op).2)).
Proof.
  intros (Hst & Ha & Hn & Hp) Hok Hlt. destruct op as [key v stored|key|key|key| |dirs]; simpl in *.
  - assert (N.of_nat (length (sm_put (stored, v) l)) < NONE)%N as Hlt'.
    { destruct (sm_find key l) as [[k held]|] eqn:Ek; [|done]. apply sm_find_key in Ek. cbn [fst snd] in *.
      rewrite (sm_put_length_congr (stored, v) (k, v)); [done|]. cbn [fst]. by rewrite (cmp_congr _ _ k Hok). }
    unfold struct_put.
    destruct (put_spec t l key (fun held => (held, v)) (stored, v) Hst Ha Hlt' Hok) as (p & t' & -> & Hput).
    cbn [mbind option_bind]. exists t'. destruct (sm_find key l) as [[k held]|]; cbn [fst snd] in *.
    + destruct Hput as (-> & Hst' & Hn'). split; [done|]. split_and!; [done|by apply sm_put_ascending|lia|lia].
    + destruct Hput as (-> & Hst' & Hn'). split; [done|]. split_and!; [done|by apply sm_put_ascending|lia|lia].
  - unfold remove_entry. destruct (take_spec t l key Hst Ha) as (t' & -> & Hst' & Hn' & _). cbn [mbind option_bind].
    exists t'. split; [done|]. pose proof (sm_remove_length key l).
    split_and!; [done|by apply sm_remove_ascending|lia|lia].
  - unfold struct_get. rewrite (get_spec t l key Hst Ha). exists t. split; [done|]. split_and!; [done..|lia|lia].
  - unfold contains_key. rewrite (get_spec t l key Hst Ha). cbn [mbind option_bind]. exists t. split.
    + by destruct (sm_find key l).
    + split_and!; [done..|lia|lia].
  - exists t. split; [by unfold struct_len; rewrite (proj1 Hst)|]. split_and!; [done..|lia|lia].
  - rewrite (walk_from_spec t l dirs Hst). exists t. split; [done|]. split_and!; [done..|lia|lia].
Qed.

(** ** Every node accounted for *)

(** The indices a walk down from the root reads. *)
Inductive reached (t : Tree K V) : N -> Prop :=
  | reached_root : root t <> NONE -> reached t (root t)
  | reached_child at_ n i c : reached t at_ -> node_at (nodes t) at_ = Some n -> leaf n = false ->
      i <= node_len n -> child n i = Some c -> reached t c.

Lemma reached_focus t g fl at_ :
  spells t g fl -> reached t at_ ->
  exists h g' c, focus (nodes t) fl h g' c /\ plug g' c = g /\ gid g' = at_.
Proof.
  intros Hsp. induction 1 as [Hr|at_ n i c Hre IH Hn Hl Hi Hc].
  - exists (height t), g, []. split; [by apply spells_focus|]. split; [done|]. symmetry. apply Hsp.
  - destruct IH as (h & g' & cx & Hf & Hp & <-). destruct h as [|h].
    { destruct (leaf_at _ _ _ _ Hf) as (m & Hm & Hml & _). congruence. }
    destruct (focus_node _ _ _ _ _ Hf) as (m & Hm & Hh). rewrite Hn in Hm. injection Hm as <-.
    unfold node_len in Hi. rewrite (holds_entries _ _ Hh) in Hi. cbn [cell_of c_entries] in Hi.
    destruct (inner_at _ _ _ _ _ i Hf Hi) as (m & k & ks1 & ks2 & Hm & _ & _ & Hck & _ & _ & Hfk & Hfill).
    rewrite Hn in Hm. injection Hm as <-. rewrite Hc in Hck. injection Hck as ->.
    exists h, k, (mkFrame (gid g') (ges g') ks1 ks2 :: cx). split_and!; [done| |done]. simpl. by rewrite Hfill.
Qed.

Lemma focus_reached t fl h : forall g c l at_,
  focus (nodes t) fl h g c -> reached t (gid g) -> at_ ∈ (cells l g).*1 -> reached t at_.
Proof.
  induction h as [|h IH]; intros [id es ks] c l at_ Hf Hre Hin; rewrite cells_unfold in Hin;
    cbn in Hin; apply elem_of_cons in Hin as [->|Hin]; try done.
  - destruct (leaf_at _ _ _ _ Hf) as (n & _ & _ & _ & Hk). cbn in Hk. subst ks. by apply not_elem_of_nil in Hin.
  - assert (exists i k, ks !! i = Some k /\ at_ ∈ (cells (id, i) k).*1) as (i & k & Hk & Hat).
    { assert (forall j, at_ ∈ (forest id j ks).*1 -> exists i k, ks !! i = Some k /\ at_ ∈ (cells (id, j + i) k).*1) as Hgen.
      { clear. induction ks as [|k ks IH]; intros j Hin; simpl in *; [by apply not_elem_of_nil in Hin|].
        rewrite fmap_app, elem_of_app in Hin. destruct Hin as [Hin|Hin].
        - exists 0, k. by rewrite Nat.add_0_r.
        - destruct (IH _ Hin) as (i & k' & Hi & Hat). exists (S i), k'.
          replace (j + S i) with (S j + i) by lia. done. }
      by apply (Hgen 0). }
    pose proof (focus_wf _ _ _ _ _ Hf) as Hw. apply wf_kids in Hw as [_ [Hlen _]].
    pose proof (lookup_lt_Some _ _ _ Hk) as Hi.
    destruct (inner_at _ _ _ _ _ i Hf) as (n & k' & ks1 & ks2 & Hn & Hleaf & He & Hc & Hks & Hl1 & Hfk & _);
      [cbn [ges]; lia|].
    cbn [gks ges gid] in *. rewrite Hks, <-Hl1, list_lookup_middle in Hk by done. injection Hk as ->.
    eapply IH; [exact Hfk| |exact Hat].
    eapply (reached_child t id n i); [done|done|done| |done]. unfold node_len. rewrite He. lia.
Qed.

Lemma reached_empty t fl at_ : root t = NONE -> arena (nodes t) [] fl -> ~ reached t at_.
Proof. intros Hr Ha Hre. induction Hre as [Hne|]; [done|done]. Qed.

Lemma used_reached t g fl : spells t g fl -> forall at_, at_ ∈ (cells (NONE, 0) g).*1 <-> reached t at_.
Proof.
  intros Hsp at_. pose proof (spells_focus _ _ _ Hsp) as Hf. pose proof Hsp as (Hr & _ & _ & Ha). split.
  - eapply focus_reached; [exact Hf|]. rewrite <-Hr. constructor. rewrite Hr.
    rewrite cells_head in Ha. by eapply arena_id_ne.
  - intros Hre. destruct (reached_focus _ _ _ _ Hsp Hre) as (h & g' & c & Hf' & <- & <-).
    rewrite cells_plug, fmap_app, cells_head. apply elem_of_app. left. left.
Qed.

Lemma arena_partition (ns : list (Node K V)) cs fl :
  arena ns cs fl -> cs.*1 ++ fl ≡ₚ N.of_nat <$> seq 0 (length ns).
Proof.
  intros Ha. pose proof (arena_ids _ _ _ Ha) as Hids. destruct Ha as [Hnd _ _ _ Hl].
  apply submseteq_length_Permutation.
  - apply NoDup_submseteq; [done|]. intros x Hx. rewrite Forall_forall in Hids. apply Hids in Hx. simpl in Hx.
    apply list_elem_of_fmap. exists (N.to_nat x). split; [lia|]. apply elem_of_seq. lia.
  - rewrite length_app, !length_fmap, length_seq. lia.
Qed.

(** No node of a sorted store's extent is lost or in two places at once:
    every index is either one a walk down from the root reads or on the free
    list, exactly once, and the free list runs from [free] to its end through
    the free nodes' first child slots. *)
Theorem store_nodes_partitioned (t : Tree K V) l :
  stores t l ->
  exists used fl, used ++ fl ≡ₚ N.of_nat <$> seq 0 (length (nodes t)) /\ NoDup (used ++ fl) /\
    (forall at_, at_ ∈ used <-> reached t at_) /\ free t = next_of fl /\ chain (nodes t) fl.
Proof.
  intros (_ & fl & Hfr & [(_ & Hr & _ & Ha)|(g & _ & Hsp)]).
  - exists [], fl. split_and!; [by apply (arena_partition _ _ _ Ha)|apply (arena_nodup _ _ _ Ha)| |done|apply (arena_chain _ _ _ Ha)].
    intros at_. split; [by intros ?%not_elem_of_nil|]. intros Hre. by destruct (reached_empty _ _ _ Hr Ha Hre).
  - pose proof Hsp as (_ & _ & _ & Ha). exists ((cells (NONE, 0) g).*1), fl.
    split_and!; [by apply arena_partition|apply (arena_nodup _ _ _ Ha)| |done|apply (arena_chain _ _ _ Ha)].
    by eapply used_reached.
Qed.

(** A node below the root names its parent and its place there. *)
Lemma link_up t g fl at_ :
  spells t g fl -> reached t at_ ->
  exists n, node_at (nodes t) at_ = Some n /\ node_len n <= CAPACITY /\ length (children n) = CAPACITY + 1 /\
    ((at_ = root t /\ parent n = NONE) \/
     exists p, reached t (parent n) /\ node_at (nodes t) (parent n) = Some p /\ leaf p = false /\
       place n <= node_len p /\ MIN_LEN <= node_len n /\ child p (place n) = Some at_).
Proof.
  intros Hsp Hre. destruct (reached_focus _ _ _ _ Hsp Hre) as (h & g' & c & Hf & Hp & <-).
  destruct (focus_node _ _ _ _ _ Hf) as (n & Hn & Hh). exists n. split; [done|].
  pose proof (holds_entries _ _ Hh) as He. cbn [cell_of c_entries] in He.
  split; [unfold node_len; rewrite (holds_entries _ _ Hh); apply (holds_fill _ _ Hh)|].
  split; [apply (holds_slots _ _ Hh)|]. pose proof (holds_parent _ _ Hh) as Hpar.
  pose proof Hsp as (Hrt & _). destruct c as [|f c].
  { left. split; [|done]. by rewrite Hrt, <-Hp. }
  right. pose proof (arena_frame_ne _ _ _ _ _ _ (focus_arena _ _ _ _ _ Hf)) as Hfid.
  rewrite (holds_place _ _ Hh) by done. cbn [cell_of c_link hole_link fst snd] in *.
  pose proof (focus_low _ _ _ _ _ Hf) as Hlow. pose proof (focus_cwf _ _ _ _ _ Hf) as (_ & _ & Hlen & _).
  pose proof (focus_up _ _ _ _ _ _ Hf) as Hup.
  destruct (inner_at _ _ _ _ _ (length (f_left f)) Hup) as (p & k & ks1 & ks2 & Hpn & Hpl & Hpe & Hpc & Hpk & Hl1 & _);
    [cbn [fill ges]; lia|]. cbn [fill gid ges gks] in *.
  assert (k = g') as -> by (apply app_inj_1 in Hpk as [_ Hpk]; [by injection Hpk|done]).
  exists p. rewrite Hpar. split_and!; [|done|done|unfold node_len; rewrite Hpe; lia|unfold node_len; rewrite He; done|done].
  apply (used_reached _ _ _ Hsp). rewrite <-Hp. cbn [plug]. rewrite cells_plug, fmap_app, cells_head.
  apply elem_of_app. left. left.
Qed.

(** A node's children are those of the tree it spells. *)
Lemma link_down t g fl at_ n :
  spells t g fl -> reached t at_ -> node_at (nodes t) at_ = Some n ->
  exists ks : list N, length ks = (if leaf n then 0 else node_len n + 1) /\
    forall i c, ks !! i = Some c -> i <= node_len n /\ leaf n = false /\ child n i = Some c /\ reached t c /\
      exists m, node_at (nodes t) c = Some m /\ parent m = at_ /\ place m = i.
Proof.
  intros Hsp Hre Hn. destruct (reached_focus _ _ _ _ Hsp Hre) as (h & g' & c & Hf & Hp & <-).
  destruct h as [|h].
  { destruct (leaf_at _ _ _ _ Hf) as (m & Hm & Hml & _). rewrite Hn in Hm. injection Hm as <-. rewrite Hml. by exists []. }
  pose proof (focus_wf _ _ _ _ _ Hf) as Hw. pose proof Hw as (_ & Hlen & _).
  assert (leaf n = false /\ entries n = ges g') as [Hl He].
  { destruct (inner_at _ _ _ _ _ 0 Hf) as (m & _ & _ & _ & Hm & Hml & Hme & _); [lia|]. by rewrite Hn in Hm; injection Hm as ->. }
  rewrite Hl. exists (gid <$> gks g'). unfold node_len. rewrite length_fmap, He. split; [lia|].
  intros i x. rewrite list_lookup_fmap, fmap_Some. intros (k & Hk & ->). pose proof (lookup_lt_Some _ _ _ Hk) as Hi.
  destruct (inner_at _ _ _ _ _ i Hf) as (m & k' & ks1 & ks2 & Hm & _ & _ & Hc & Hks & Hl1 & Hfk & _); [lia|].
  rewrite Hn in Hm. injection Hm as <-. rewrite Hks, <-Hl1, list_lookup_middle in Hk by done. injection Hk as ->.
  destruct (focus_node _ _ _ _ _ Hfk) as (m & Hmk & Hh). split_and!; [lia|done|done| |].
  - eapply (reached_child t (gid g') n i); [done..|unfold node_len; rewrite He; lia|done].
  - exists m. split; [done|]. pose proof (arena_frame_ne _ _ _ _ _ _ (focus_arena _ _ _ _ _ Hfk)) as Hfid.
    rewrite (holds_parent _ _ Hh), (holds_place _ _ Hh) by done. done.
Qed.

Lemma reached_ne t g fl at_ : spells t g fl -> reached t at_ -> at_ <> NONE.
Proof.
  intros Hsp Hre. destruct (reached_focus _ _ _ _ Hsp Hre) as (h & g' & c & Hf & _ & <-).
  pose proof (focus_arena _ _ _ _ _ Hf) as Ha. rewrite cells_head in Ha. by eapply arena_id_ne.
Qed.

(** C34: in a stored tree the links and the fields' widths are right.  Each
    node a walk down reads holds at most [CAPACITY] entries; its children are
    distinct, none for a leaf and one more than its entries otherwise; they are
    in their order the contents of its first child slots, and they are exactly
    the nodes that name it as their parent, each with its own place.  Below the
    root a node holds at least [MIN_LEN] entries and stands at its place among
    the children of the parent it names, so every count and place fits its
    byte. *)
Theorem store_links_exact (t : Tree K V) l at_ :
  stores t l -> reached t at_ ->
  exists n, node_at (nodes t) at_ = Some n /\ node_len n <= CAPACITY /\ length (children n) = CAPACITY + 1 /\
    (exists ks : list N, NoDup ks /\ length ks = (if leaf n then 0 else node_len n + 1) /\
       (forall i c, ks !! i = Some c -> child n i = Some c) /\
       forall i c, ks !! i = Some c <->
         reached t c /\ exists m, node_at (nodes t) c = Some m /\ parent m = at_ /\ place m = i) /\
    ((at_ = root t /\ parent n = NONE) \/
     exists p, reached t (parent n) /\ node_at (nodes t) (parent n) = Some p /\ leaf p = false /\
       place n <= node_len p /\ MIN_LEN <= node_len n /\ child p (place n) = Some at_).
Proof.
  intros (_ & fl & _ & [(_ & Hr & _ & Ha)|(g & _ & Hsp)]) Hre; [by destruct (reached_empty _ _ _ Hr Ha Hre)|].
  destruct (link_up _ _ _ _ Hsp Hre) as (n & Hn & Hcap & Hsl & Hup). exists n. split_and!; [done..| |done].
  destruct (link_down _ _ _ _ _ Hsp Hre Hn) as (ks & Hlen & Hks). exists ks.
  assert (forall i c, ks !! i = Some c -> exists m, node_at (nodes t) c = Some m /\ parent m = at_ /\ place m = i) as Hm
    by (intros i c Hc; apply (Hks i c Hc)).
  split_and!; [|done|intros i c Hc; apply (Hks i c Hc)|].
  - apply NoDup_alt. intros i j c Hi Hj. destruct (Hm i c Hi) as (m & Hmc & _ & <-), (Hm j c Hj) as (m' & Hmc' & _ & <-).
    congruence.
  - intros i c. split; [intros Hc; destruct (Hks i c Hc) as (_ & _ & _ & Hrc & ?); eauto|].
    intros (Hrc & m & Hmc & Hpm & Hpl).
    destruct (link_up _ _ _ _ Hsp Hrc) as (m' & Hmc' & _ & _ & Hupc). rewrite Hmc in Hmc'. injection Hmc' as <-.
    destruct Hupc as [[_ Hnone]|(p & _ & Hp & Hpleaf & Hle & _ & Hcp)];
      [by destruct (reached_ne _ _ _ _ Hsp Hre); congruence|].
    rewrite Hpm, Hn in Hp. injection Hp as <-. rewrite Hpl in Hle, Hcp. rewrite Hpleaf in Hlen.
    destruct (lookup_lt_is_Some_2 ks i) as [x Hx]; [lia|]. rewrite Hx.
    destruct (Hks i x Hx) as (_ & _ & Hcx & _). congruence.
Qed.

(** A sorted store's tree is shallow and its extent small: a tree of height
    [h] holds at least [2 * 6 ^ h - 1] entries, and at most one node in use for
    each five entries beside the root. *)
Theorem store_height_bounded (t : Tree K V) l :
  stores t l -> l <> [] ->
  2 * B ^ height t - 1 <= length l /\
  exists used, NoDup used /\ (forall at_, at_ ∈ used <-> reached t at_) /\ 5 * length used <= length l + 4.
Proof.
  intros (_ & fl & _ & [(-> & _)|(g & <- & Hsp)]) Hne; [done|]. pose proof Hsp as (_ & Hw & H1 & Ha).
  split; [by apply root_length|]. exists ((cells (NONE, 0) g).*1). split_and!.
  - pose proof (arena_nodup _ _ _ Ha) as Hnd. by apply NoDup_app in Hnd as [Hnd _].
  - by eapply used_reached.
  - rewrite length_fmap. by apply (tree_cells (height t)).
Qed.

(** ** Sequences of operations *)

Lemma abs_peak_start {S O A} (abs : S -> O -> A * S) len s ops : len s <= abs_peak abs len s ops.
Proof. destruct ops; simpl; lia. Qed.

Lemma run_refines {S O A L} (step : S -> O -> option (A * S)) (abs : L -> O -> A * L) (R : S -> L -> Prop)
    (ok : O -> Prop) (len : L -> nat) (bound : nat) :
  (forall s l op, R s l -> ok op -> len (abs l op).2 <= bound ->
     exists s', step s op = Some ((abs l op).1, s') /\ R s' (abs l op).2) ->
  forall ops s l, R s l -> Forall ok ops -> abs_peak abs len l ops <= bound ->
    exists s', run step s ops = Some ((abs_run abs l ops).1, s') /\ R s' (abs_run abs l ops).2.
Proof.
  intros Hstep. induction ops as [|op ops IH]; intros s l HR Hok Hlen; [by exists s|].
  apply Forall_cons in Hok as [Hop Hok]. cbn [abs_peak] in Hlen.
  pose proof (abs_peak_start abs len (abs l op).2 ops).
  destruct (Hstep s l op HR Hop) as (s' & Hs & HR'); [lia|]. cbn [run abs_run]. rewrite Hs. cbn [mbind option_bind].
  destruct (abs l op) as [a l']. cbn [fst snd] in *.
  destruct (IH s' l' HR' Hok) as (s2 & Hrun & HR2); [lia|]. rewrite Hrun. cbn [mbind option_bind].
  destruct (abs_run abs l' ops) as [answers l2]. by exists s2.
Qed.

(** C4: a [@struct] is a sorted map.  From any ascending entries, any sequence
    of puts, removals, lookups, membership tests, lengths and walks from both
    ends, however long, in which [vacant] hands back an equal key and the map
    holds fewer than 2^32 - 1 entries at any one time, runs without a panic and
    answers what the map answers: a put that finds its key keeps the stored key
    and answers the value it displaced, a removal answers the stored entry.
    The tree then holds the map's entries in an extent of no more nodes than
    the most entries the map held at one time. *)
Theorem struct_store_refines (es : list (K * V)) (ops : list (StructOp K V)) :
  ascending es -> Forall struct_op_ok ops -> (N.of_nat (abs_peak abs_struct_step length es ops) < NONE)%N ->
  exists t0 t, struct_new es = Some t0 /\
    run struct_step t0 ops = Some ((abs_run abs_struct_step es ops).1, t) /\
    stores t (abs_run abs_struct_step es ops).2 /\ length (nodes t) <= abs_peak abs_struct_step length es ops.
Proof.
  intros Ha Hok Hlt. set (peak := abs_peak _ _ _ _) in *.
  assert (length es <= peak) as He by apply abs_peak_start.
  destruct (tree_new_spec es) as (t0 & Ht0 & Hst0 & Hn0); [lia|].
  destruct (run_refines struct_step abs_struct_step (fun t l => simulates t l peak) struct_op_ok length peak)
    with (ops := ops) (s := t0) (l := es) as (t & Hrun & Hst & _ & Hn & _); [|split_and!; [done..|lia|lia]|done|done|].
  - intros t l op Hsim Hop Hb. destruct (struct_step_spec t l op _ Hsim Hop) as (t' & Hs & Hsim'); [lia|].
    rewrite Nat.max_l in Hsim' by lia. eauto.
  - exists t0, t. done.
Qed.

End Props.

(** ** [@set] *)

Section SetProps.
Context {K : Type} `{KeyOrder K}.

Lemma set_step_spec (t : Tree K unit) l op peak :
  simulates t l peak -> (N.of_nat (length (abs_set_step l op).2) < NONE)%N ->
  exists t', set_step t op = Some ((abs_set_step l op).1, t') /\
    simulates t' (abs_set_step l op).2 (max peak (length (abs_set_step l op).2)).
Proof.
  intros (Hst & Ha & Hn & Hp) Hlt. destruct op as [v|v|v| |dirs]; simpl in *.
  - unfold set_insert.
    assert (N.of_nat (length (sm_put (v, tt) l)) < NONE)%N as Hlt'.
    { destruct (sm_find v l) eqn:Ek; [|done]. cbn [snd] in Hlt.
      by rewrite (sm_put_length_present (v, tt)) by (done || cbn [fst]; rewrite Ek; eauto). }
    destruct (insert_entry_spec t l (v, tt) Hst Ha Hlt') as (b & t' & -> & Hins).
    cbn [mbind option_bind fst] in *. exists t'. destruct (sm_find v l); cbn [fst snd] in *.
    + destruct Hins as [-> ->]. split; [done|]. split_and!; [done..|lia|lia].
    + destruct Hins as (-> & Hst' & Hn'). split; [done|]. split_and!; [done|by apply sm_put_ascending|lia|lia].
  - unfold set_take. destruct (take_spec t l v Hst Ha) as (t' & -> & Hst' & Hn' & _). cbn [mbind option_bind].
    exists t'. split; [done|]. pose proof (sm_remove_length v l).
    split_and!; [done|by apply sm_remove_ascending|lia|lia].
  - unfold set_contains. rewrite (get_spec t l v Hst Ha). cbn [mbind option_bind]. exists t. split.
    + by destruct (sm_find v l).
    + split_and!; [done..|lia|lia].
  - exists t. split; [by unfold set_len; rewrite (proj1 Hst)|]. split_and!; [done..|lia|lia].
  - rewrite (walk_from_spec t l dirs Hst). exists t. split; [done|]. split_and!; [done..|lia|lia].
Qed.

(** A [@set] is a sorted set.  From any ascending members, any sequence of
    inserts, removals, membership tests, lengths and walks from both ends, with
    fewer than 2^32 - 1 members at any one time, runs without a panic and
    answers what the set answers: an insert of a member that is present answers
    false and keeps the one held, a removal answers the member held. *)
Theorem set_store_refines (members : list K) (ops : list (SetOp K)) :
  let l := (fun m => (m, tt)) <$> members in
  StronglySorted key_lt members -> (N.of_nat (abs_peak abs_set_step length l ops) < NONE)%N ->
  exists t0 t, set_new members = Some t0 /\
    run set_step t0 ops = Some ((abs_run abs_set_step l ops).1, t) /\
    stores t (abs_run abs_set_step l ops).2 /\
    length (nodes t) <= abs_peak abs_set_step length l ops.
Proof.
  intros l Hs Hlt. set (peak := abs_peak _ _ _ _) in *.
  assert (ascending l) as Ha by by apply (StronglySorted_fmap _ key_lt).
  assert (length l <= peak) as Hl by apply abs_peak_start.
  destruct (tree_new_spec l) as (t0 & Ht0 & Hst0 & Hn0); [lia|].
  destruct (run_refines set_step abs_set_step (fun t l => simulates t l peak) (fun _ => True) length peak)
    with (ops := ops) (s := t0) (l := l) as (t & Hrun & Hst & _ & Hn & _);
    [|split_and!; [done..|lia|lia]|by apply Forall_true|done|].
  - intros t l' op Hsim _ Hb. destruct (set_step_spec t l' op _ Hsim) as (t' & Hs' & Hsim'); [lia|].
    rewrite Nat.max_l in Hsim' by lia. eauto.
  - exists t0, t. done.
Qed.

End SetProps.

(** ** Search *)

(** The two searches of a node agree: on ascending keys the binary search of
    [@set] nodes and the scan of [@struct] nodes answer the same place, found or
    not. *)
Theorem search_agrees {K} `{KeyOrder K} (key : K) (keys : list K) :
  StronglySorted key_lt keys -> binary_search key keys = scan key 0 keys.
Proof.
  intros Hs. eapply position_unique; [done|by apply binary_search_position|by apply scan_position].
Qed.

(** ** Witnesses *)

#[local] Program Instance N_order : KeyOrder N := {| cmp := N.compare; scans := false |}.
Next Obligation. intros a. apply N.compare_refl. Qed.
Next Obligation. intros a b c. rewrite N.compare_eq_iff. by intros ->. Qed.
Next Obligation. intros a b. apply N.compare_antisym. Qed.
Next Obligation. intros a b c. rewrite !N.compare_lt_iff. lia. Qed.

(** Thirty entries, three levels of put and removal. *)
Definition thirty : list (N * N) := (fun i => (N.of_nat (2 * i), N.of_nat i)) <$> seq 0 30.

Definition some_ops : list (StructOp N N) :=
  [SPut 7 70 7; SPut 8 80 8; SGet 7; SRemove 0; SHas 0; SRemove 1; SLen; SWalk [true; false; true]]%N.

Lemma thirty_ascending : ascending thirty.
Proof. repeat constructor. Qed.

Lemma struct_store_refines_witness :
  exists t0 t, struct_new thirty = Some t0 /\
    run struct_step t0 some_ops
    = Some ([AStored 7; ADisplaced 4; AGot (Some 70); ARemoved (Some (0, 0)); AHas false; ARemoved None; ALen 30;
             AWalk [Some (2, 1); Some (58, 29); Some (4, 2)]]%N, t) /\
    stores t (abs_run abs_struct_step thirty some_ops).2 /\ length (nodes t) <= 31.
Proof. apply (struct_store_refines thirty some_ops thirty_ascending); [by repeat constructor|done]. Defined.

Definition odd_members : list N := [1; 3; 5]%N.
Definition set_ops : list (SetOp N) := [TInsert 4; TInsert 3; TTake 1; TTake 2; TWalk [true; true; true; true]]%N.

Lemma set_store_refines_witness :
  exists t0 t, set_new odd_members = Some t0 /\
    run set_step t0 set_ops
    = Some ([BInserted true; BInserted false; BTaken (Some 1); BTaken None;
             BWalk [Some 3; Some 4; Some 5; None]]%N, t) /\
    stores t (abs_run abs_set_step ((fun m => (m, tt)) <$> odd_members) set_ops).2 /\ length (nodes t) <= 4.
Proof.
  destruct (set_store_refines odd_members set_ops) as (t0 & t & Hn & Hrun & Hst & Hlen); [by repeat constructor|done|].
  exists t0, t. split; [exact Hn|]. split; [|split; [exact Hst|exact Hlen]].
  etransitivity; [exact Hrun|]. vm_compute. reflexivity.
Defined.

(** The tree loaded from [thirty]: three leaves below the root. *)
Definition thirty_tree : Tree N N := default empty_tree (tree_new thirty).

Lemma thirty_stored : stores thirty_tree thirty.
Proof. destruct (tree_new_spec thirty) as (t & Ht & Hs & _); [done|]. unfold thirty_tree. by rewrite Ht. Qed.

Lemma store_nodes_partitioned_witness :
  exists used fl, used ++ fl ≡ₚ [0; 1; 2; 3]%N /\ NoDup (used ++ fl) /\
    (forall at_, at_ ∈ used <-> reached thirty_tree at_) /\ free thirty_tree = next_of fl /\ chain (nodes thirty_tree) fl.
Proof. apply (store_nodes_partitioned thirty_tree thirty thirty_stored). Defined.

Lemma store_links_exact_witness :
  exists n, node_at (nodes thirty_tree) 1 = Some n /\ node_len n <= CAPACITY /\ length (children n) = CAPACITY + 1 /\
    (exists ks : list N, NoDup ks /\ length ks = (if leaf n then 0 else node_len n + 1) /\
       (forall i c, ks !! i = Some c -> child n i = Some c) /\
       forall i c, ks !! i = Some c <->
         reached thirty_tree c /\ exists m, node_at (nodes thirty_tree) c = Some m /\ parent m = 1%N /\ place m = i) /\
    ((1%N = root thirty_tree /\ parent n = NONE) \/
     exists p, reached thirty_tree (parent n) /\ node_at (nodes thirty_tree) (parent n) = Some p /\ leaf p = false /\
       place n <= node_len p /\ MIN_LEN <= node_len n /\ child p (place n) = Some 1%N).
Proof.
  apply (store_links_exact thirty_tree thirty 1%N thirty_stored).
  destruct (node_at (nodes thirty_tree) (root thirty_tree)) as [n|] eqn:En; [|discriminate].
  apply (reached_child thirty_tree (root thirty_tree) n 1 1%N);
    [apply reached_root; vm_compute; discriminate|exact En|injection En as <-; reflexivity|injection En as <-; apply Nat.leb_le; vm_compute; reflexivity|].
  injection En as <-. reflexivity.
Defined.

Lemma store_height_bounded_witness :
  2 * B ^ 1 - 1 <= 30 /\
  exists used, NoDup used /\ (forall at_, at_ ∈ used <-> reached thirty_tree at_) /\ 5 * length used <= 34.
Proof. apply (store_height_bounded thirty_tree thirty thirty_stored). done. Defined.

Lemma search_agrees_witness : binary_search 6%N [2; 4; 6; 8; 10]%N = (true, 2).
Proof. rewrite (search_agrees 6%N [2; 4; 6; 8; 10]%N); [reflexivity|by repeat constructor]. Defined.
