(* ===== verification/LirRecord.v ===== *)
(** * Scalars, constants and the plain records of frozen LIR

    [lir/types/mod.rs]: registers, labels, operators, terminators and site
    infos.  [lir/code/record.rs]: the [Node], [BlockRec], [ConstRec] and
    [SiteRec] a frozen function is made of, with the flag, terminator and
    constant-kind bytes.  [lir/code/operand.rs]: immediate constants read out
    of a record.  [hir/region/id.rs]: static region slots.  [syntax/span.rs]
    and [syntax/files.rs]: spans and file ids.

    Unsigned machine integers are [N]; an [as] cast that narrows is written
    out with [as_u32] and [as_u16].  A [StaticRegion] is a [NonZeroU32], so it
    is a [positive].  An [f64] is its 64-bit pattern, which [to_bits] and
    [from_bits] carry unchanged. *)

From stdpp Require Import base numbers list.
From S2P Require Import Prelude SignalBits.

(** ** Scalars *)

Definition as_u16 (x : N) : N := (x mod 2 ^ 16)%N.
Definition as_u32 (x : N) : N := (x mod 2 ^ 32)%N.

(** [v.len() as u32] *)
Definition len_u32 {A} (l : list A) : N := as_u32 (N.of_nat (length l)).

Abbreviation Reg := N (only parsing).
Abbreviation Label := N (only parsing).
Abbreviation ClosureId := N (only parsing).
Abbreviation SymbolId := N (only parsing).
Abbreviation FileId := N (only parsing).

Definition FileId_NONE : FileId := 0%N.
Definition FileId_is_some (id : FileId) : bool := negb (id =? FileId_NONE)%N.

Abbreviation StaticRegion := positive (only parsing).

(** [StaticRegion::new]: there is no slot 0. *)
Definition StaticRegion_new (id : N) : option StaticRegion :=
  match id with N0 => None | Npos p => Some p end.

Definition StaticRegion_get (r : StaticRegion) : N := Npos r.

(** A value is a tag word and a payload word. *)
Record Value := mkValue { tag : N; payload : N }.

#[export] Instance Value_eq_dec : EqDecision Value.
Proof. solve_decision. Defined.

Definition TAG_INT : N := 0.
Definition TAG_FLOAT : N := 1.
Definition TAG_NIL : N := 2.
Definition TAG_TRUE : N := 3.
Definition TAG_FALSE : N := 4.

Definition is_nil (v : Value) : bool := (tag v =? TAG_NIL)%N.
Definition is_int (v : Value) : bool := (tag v =? TAG_INT)%N.
Definition is_float (v : Value) : bool := (tag v =? TAG_FLOAT)%N.
Definition as_bool (v : Value) : option bool :=
  if (tag v =? TAG_TRUE)%N then Some true
  else if (tag v =? TAG_FALSE)%N then Some false else None.

Record Span := mkSpan {
  sp_start : N; sp_end : N; sp_line : N; sp_col : N; sp_file : FileId }.

#[export] Instance Span_eq_dec : EqDecision Span.
Proof. solve_decision. Defined.

Definition Span_new (start end_ : N) (line col : N) : Span :=
  mkSpan (as_u32 start) (as_u32 end_) line col FileId_NONE.

Definition Span_synthetic : Span := mkSpan 0 0 0 0 FileId_NONE.

Definition set_file_id (s : Span) (id : FileId) : Span :=
  mkSpan (sp_start s) (sp_end s) (sp_line s) (sp_col s) id.

(** ** Operators *)

Inductive BinOp := Add | Sub | Mul | Div | Rem | BitAnd | BitOr | BitXor | Shl | Shr.
Inductive UnaryOp := Neg | Not | BitNot.
Inductive ConvOp := IntToFloat | FloatToInt.
Inductive CmpOp := CmpEq | CmpNe | CmpLt | CmpLe | CmpGt | CmpGe.
Inductive OperandProof := Unproven | ProvenInt.

(** [OperandProof::is_int] *)
Definition proof_is_int (p : OperandProof) : bool :=
  match p with ProvenInt => true | Unproven => false end.

(** The discriminants, [op as u8]. *)
Definition BinOp_byte (op : BinOp) : N :=
  match op with
  | Add => 0 | Sub => 1 | Mul => 2 | Div => 3 | Rem => 4
  | BitAnd => 5 | BitOr => 6 | BitXor => 7 | Shl => 8 | Shr => 9
  end.

Definition UnaryOp_byte (op : UnaryOp) : N :=
  match op with Neg => 0 | Not => 1 | BitNot => 2 end.

Definition ConvOp_byte (op : ConvOp) : N :=
  match op with IntToFloat => 0 | FloatToInt => 1 end.

Definition CmpOp_byte (op : CmpOp) : N :=
  match op with
  | CmpEq => 0 | CmpNe => 1 | CmpLt => 2 | CmpLe => 3 | CmpGt => 4 | CmpGe => 5
  end.

(** ** Terminators *)

Inductive Terminator :=
| Return (r : Reg)
| Jump (l : Label)
| Branch (cond : Reg) (then_label else_label : Label)
| Emit (signal : SignalBits) (value : Reg) (resume_label : Label)
| Unreachable.

(** [for_each_terminator_use]: the registers [f] is called with, in order. *)
Definition terminator_uses (t : Terminator) : list Reg :=
  match t with
  | Return r => [r]
  | Branch cond _ _ => [cond]
  | Emit _ value _ => [value]
  | Jump _ | Unreachable => []
  end.

(** ** Records *)

Definition NO_REG : N := u32_max.
Definition NO_FILE : N := 0.

Record Node := mkNode {
  n_start : N; n_end : N; n_line : N; n_col : N;
  n_file : N;
  n_dst : N;
  n_region : N;
  n_aux : N;
  n_use0 : Reg; n_use1 : Reg;
  n_extra : N;
  n_uses : N;
  n_op : N;
  n_flags : N }.

Record BlockRec := mkBlockRec {
  b_label : N;
  b_first : N;
  b_len : N;
  b_term_a : N; b_term_b : N; b_term_c : N;
  b_start : N; b_end : N; b_line : N; b_col : N; b_file : N;
  b_term_op : N }.

Record ConstRec := mkConstRec { c_kind : N; c_bits : N }.

Record SiteRec := mkSiteRec {
  s_resume_ip : N;
  s_num_locals : N;
  s_delivers : N;
  s_regs : N;
  s_n_regs : N }.

(** [mod flag] *)
Definition ARITY_CHECKED : N := N.shiftl 1 4.
Definition DEFER_CALLEE : N := N.shiftl 1 5.
Definition PROOF_INT : N := N.shiftl 1 4.
Definition MUTATED : N := N.shiftl 1 4.
Definition SUB : N := 15.

(** [mod term] *)
Definition T_RETURN : N := 0.
Definition T_JUMP : N := 1.
Definition T_BRANCH : N := 2.
Definition T_EMIT : N := 3.
Definition T_UNREACHABLE : N := 4.

(** [mod kind] *)
Definition K_NIL : N := 0.
Definition K_EMPTY_LIST : N := 1.
Definition K_BOOL : N := 2.
Definition K_INT : N := 3.
Definition K_FLOAT : N := 4.
Definition K_SYMBOL : N := 5.
Definition K_KEYWORD : N := 6.
Definition K_BITS : N := 7.

(** ** Immediate constants *)

Inductive ConstRef :=
| C_Nil
| C_EmptyList
| C_Bool (b : bool)
| C_Int (n : Z)
| C_Float (bits : N)
| C_Symbol (s : SymbolId)
| C_Keyword (k : N).

#[export] Instance ConstRef_eq_dec : EqDecision ConstRef.
Proof. solve_decision. Defined.

(** [n as u64] and [bits as i64] *)
Definition i64_as_u64 (n : Z) : N := Z.to_N (n mod 2 ^ 64).

Definition u64_as_i64 (x : N) : Z :=
  let z := Z.of_N x in if (z <? 2 ^ 63)%Z then z else (z - 2 ^ 64)%Z.

(** [ConstRec::immediate] *)
Definition immediate (c : ConstRef) : ConstRec :=
  match c with
  | C_Nil => mkConstRec K_NIL 0
  | C_EmptyList => mkConstRec K_EMPTY_LIST 0
  | C_Bool b => mkConstRec K_BOOL (N.b2n b)
  | C_Int n => mkConstRec K_INT (i64_as_u64 n)
  | C_Float f => mkConstRec K_FLOAT f
  | C_Symbol s => mkConstRec K_SYMBOL s
  | C_Keyword k => mkConstRec K_KEYWORD k
  end.

(** [ConstRec::bits] *)
Definition const_bits (bits : N) : ConstRec := mkConstRec K_BITS bits.

(** [ConstRef::of]; a record of raw bits, or of an unknown kind, panics. *)
Definition const_of (rec : ConstRec) : option ConstRef :=
  let k := c_kind rec in
  if (k =? K_NIL)%N then Some C_Nil
  else if (k =? K_EMPTY_LIST)%N then Some C_EmptyList
  else if (k =? K_BOOL)%N then Some (C_Bool (negb (c_bits rec =? 0)%N))
  else if (k =? K_INT)%N then Some (C_Int (u64_as_i64 (c_bits rec)))
  else if (k =? K_FLOAT)%N then Some (C_Float (c_bits rec))
  else if (k =? K_SYMBOL)%N then Some (C_Symbol (c_bits rec))
  else if (k =? K_KEYWORD)%N then Some (C_Keyword (c_bits rec))
  else None.

(** [Slots::iter]: each stash slot as a local slot number. *)
Definition slots_iter (slots : list N) : list N := map as_u16 slots.

(** [ConstList::iter]; a record that is no immediate panics where it is met. *)
Definition const_list_iter (keys : list ConstRec) : option (list ConstRef) := mapM const_of keys.

(** ** Ranges

    The constants a Rust [ConstRef] can hold: an [i64] in its range. *)
Definition i64_range (n : Z) : Prop := (- 2 ^ 63 <= n < 2 ^ 63)%Z.

Definition const_typed (c : ConstRef) : Prop :=
  match c with C_Int n => i64_range n | _ => True end.

Lemma as_u32_small x : (x < 2 ^ 32)%N -> as_u32 x = x.
Proof. apply N.mod_small. Qed.

Lemma as_u16_id x : (x < 2 ^ 16)%N -> as_u16 x = x.
Proof. apply N.mod_small. Qed.

Lemma len_u32_small {A} (l : list A) :
  (N.of_nat (length l) < 2 ^ 32)%N -> N.to_nat (len_u32 l) = length l.
Proof. intros H. unfold len_u32. rewrite as_u32_small by exact H. lia. Qed.

Lemma i64_roundtrip n : i64_range n -> u64_as_i64 (i64_as_u64 n) = n.
Proof.
  intros [Hl Hh]. unfold u64_as_i64, i64_as_u64. cbv zeta.
  pose proof (Z.mod_pos_bound n (2 ^ 64) eq_refl) as Hb.
  rewrite Z2N.id by lia.
  destruct (decide (0 <= n)%Z).
  - rewrite Z.mod_small by lia. destruct (Z.ltb_spec n (2 ^ 63)); lia.
  - replace (n mod 2 ^ 64)%Z with (n + 2 ^ 64)%Z
      by (apply (Z.mod_unique _ _ (-1)); lia).
    destruct (Z.ltb_spec (n + 2 ^ 64) (2 ^ 63)); lia.
Qed.

(** An immediate constant reads back from the record that stores it. *)
Lemma const_of_immediate c : const_typed c -> const_of (immediate c) = Some c.
Proof.
  destruct c as [| |b|n|f|s|k]; cbn; intros Ht; try reflexivity.
  - by destruct b.
  - unfold const_of. cbn. by rewrite i64_roundtrip.
Qed.

Lemma StaticRegion_new_get r : StaticRegion_new (StaticRegion_get r) = Some r.
Proof. reflexivity. Qed.
