(* ===== verification/LirInstr.v ===== *)
(** * Instructions and opcodes

    [lir/code/instr.rs]: [InstrRef], one LIR instruction, as the lowerer builds
    it and every reader decodes it, with [InstrRef::region].
    [lir/code/op.rs]: [Op], one opcode byte per variant, its byte order and
    [Op::of].  [lir/code/raise.rs]: which instructions may raise at their own
    site.  [lir/code/proof.rs]: the constructors of the arithmetic
    instructions.

    A template is its encoded bytes, a tail call's stash slots and every
    register list are lists; the field order is the source's. *)

From stdpp Require Import base numbers list.
From S2P Require Import Prelude SignalBits LirRecord.

(** ** Instructions *)

Inductive InstrRef :=
| I_Const (dst : Reg) (value : ConstRef)
| I_ValueConst (dst : Reg) (value : Value)
| I_MaterializeConst (dst : Reg) (template : list N) (region : StaticRegion)
| I_LoadLocal (dst : Reg) (slot : N)
| I_StoreLocal (slot : N) (src : Reg)
| I_StoreLocalRefcounted (slot : N) (src : Reg)
| I_LoadCapture (dst : Reg) (index : N)
| I_LoadCaptureRaw (dst : Reg) (index : N)
| I_StoreCapture (index : N) (src : Reg)
| I_MakeClosure (dst : Reg) (closure_id : ClosureId) (captures : list Reg)
    (region : StaticRegion)
| I_LoadSelf (dst : Reg)
| I_Call (dst func : Reg) (args : list Reg) (arity_checked : bool) (region : StaticRegion)
| I_SuspendingCall (dst func : Reg) (args : list Reg) (arity_checked : bool)
    (region : StaticRegion)
| I_TailCall (dst func : Reg) (args : list Reg) (arity_checked : bool) (region : StaticRegion)
    (defer_callee_release : bool) (deferred_release_slot : option StaticRegion)
    (borrowed_arg_slots : list N)
| I_List (dst head tail : Reg) (region : StaticRegion)
| I_MakeArrayMut (dst : Reg) (elements : list Reg) (region : StaticRegion)
| I_First (dst pair : Reg)
| I_Rest (dst pair : Reg)
| I_BinOp (dst : Reg) (op : BinOp) (lhs rhs : Reg) (proof : OperandProof)
| I_UnaryOp (dst : Reg) (op : UnaryOp) (src : Reg) (proof : OperandProof)
| I_Convert (dst : Reg) (op : ConvOp) (src : Reg)
| I_Compare (dst : Reg) (op : CmpOp) (lhs rhs : Reg) (proof : OperandProof)
| I_IsNil (dst src : Reg)
| I_IsPair (dst src : Reg)
| I_IsArray (dst src : Reg)
| I_IsArrayMut (dst src : Reg)
| I_IsStruct (dst src : Reg)
| I_IsStructMut (dst src : Reg)
| I_IsSet (dst src : Reg)
| I_IsSetMut (dst src : Reg)
| I_ArrayMutLen (dst src : Reg)
| I_MakeCaptureCell (dst value : Reg) (region : StaticRegion) (name : SymbolId)
    (mutated : bool)
| I_LoadCaptureCell (dst cell : Reg)
| I_StoreCaptureCell (cell value : Reg)
| I_MatchFail (dst src : Reg)
| I_FirstDestructure (dst src : Reg)
| I_RestDestructure (dst src : Reg)
| I_ArrayMutRefDestructure (dst src : Reg) (index : N)
| I_ArrayMutSliceFrom (dst src : Reg) (index : N)
| I_StructGetOrNil (dst src : Reg) (key : ConstRef)
| I_StructGetDestructure (dst src : Reg) (key : ConstRef)
| I_StructRest (dst src : Reg) (exclude_keys : list ConstRec)
| I_FirstOrNil (dst src : Reg)
| I_RestOrNil (dst src : Reg)
| I_ArrayMutRefOrNil (dst src : Reg) (index : N)
| I_LoadResumeValue (dst : Reg)
| I_Eval (dst expr env : Reg)
| I_ArrayMutExtend (dst array source : Reg)
| I_ArrayMutPush (dst array value : Reg)
| I_CallArrayMut (dst func args : Reg) (region args_region : StaticRegion)
| I_TailCallArrayMut (func args : Reg) (region args_region : StaticRegion)
| I_IncrefRegion (region_id : StaticRegion)
| I_DecrefRegion (region_id : StaticRegion)
| I_DecrefValueRegion (src : Reg)
| I_DecrefCellRegion (src : Reg)
| I_IncrefValueRegion (src : Reg)
| I_AdoptRegion (parent child : Reg)
| I_AdoptCellRegion (parent child : Reg)
| I_FreeRegionGroup (members : list Reg)
| I_AdoptIntoActivation (child : Reg)
| I_AssertRegionMatches (region_id : StaticRegion) (src : Reg)
| I_PushParamFrame (pairs : list Reg)
| I_PopParamFrame
| I_CheckSignalBound (src : Reg) (allowed_bits : SignalBits)
| I_IsEmpty (dst src : Reg)
| I_IsBool (dst src : Reg)
| I_IsInt (dst src : Reg)
| I_IsFloat (dst src : Reg)
| I_IsString (dst src : Reg)
| I_IsKeyword (dst src : Reg)
| I_IsSymbolCheck (dst src : Reg)
| I_IsBytes (dst src : Reg)
| I_IsBox (dst src : Reg)
| I_IsClosure (dst src : Reg)
| I_IsFiber (dst src : Reg)
| I_TypeOf (dst src : Reg)
| I_Length (dst src : Reg)
| I_Get (dst obj key : Reg)
| I_Put (dst obj key val : Reg)
| I_Del (dst obj key : Reg)
| I_Has (dst obj key : Reg)
| I_IntrPush (dst array value : Reg)
| I_IntrStringPush (dst string value : Reg)
| I_IntrBytesPush (dst bytes value : Reg)
| I_Pop (dst src : Reg)
| I_Freeze (dst src : Reg) (region : StaticRegion)
| I_Thaw (dst src : Reg) (region : StaticRegion)
| I_Identical (dst lhs rhs : Reg).

(** [InstrRef::region]: the slot an allocating or calling instruction is stamped with. *)
Definition region (i : InstrRef) : option StaticRegion :=
  match i with
  | I_MakeClosure _ _ _ region
  | I_Call _ _ _ _ region
  | I_SuspendingCall _ _ _ _ region
  | I_TailCall _ _ _ _ region _ _ _
  | I_List _ _ _ region
  | I_MaterializeConst _ _ region
  | I_MakeArrayMut _ _ region
  | I_MakeCaptureCell _ _ region _ _
  | I_CallArrayMut _ _ _ region _
  | I_TailCallArrayMut _ _ region _
  | I_Freeze _ _ region
  | I_Thaw _ _ region => Some region
  | _ => None
  end.

(** ** Opcodes *)

Inductive Op :=
| Op_Const | Op_ValueConst | Op_MaterializeConst | Op_LoadLocal | Op_StoreLocal |
Op_StoreLocalRefcounted | Op_LoadCapture | Op_LoadCaptureRaw | Op_StoreCapture | Op_MakeClosure
| Op_LoadSelf | Op_Call | Op_SuspendingCall | Op_TailCall | Op_List | Op_MakeArrayMut | Op_First
| Op_Rest | Op_BinOp | Op_UnaryOp | Op_Convert | Op_Compare | Op_IsNil | Op_IsPair | Op_IsArray
| Op_IsArrayMut | Op_IsStruct | Op_IsStructMut | Op_IsSet | Op_IsSetMut | Op_ArrayMutLen |
Op_MakeCaptureCell | Op_LoadCaptureCell | Op_StoreCaptureCell | Op_MatchFail |
Op_FirstDestructure | Op_RestDestructure | Op_ArrayMutRefDestructure | Op_ArrayMutSliceFrom |
Op_StructGetOrNil | Op_StructGetDestructure | Op_StructRest | Op_FirstOrNil | Op_RestOrNil |
Op_ArrayMutRefOrNil | Op_LoadResumeValue | Op_Eval | Op_ArrayMutExtend | Op_ArrayMutPush |
Op_CallArrayMut | Op_TailCallArrayMut | Op_IncrefRegion | Op_DecrefRegion | Op_DecrefValueRegion
| Op_DecrefCellRegion | Op_IncrefValueRegion | Op_AdoptRegion | Op_AdoptCellRegion |
Op_FreeRegionGroup | Op_AdoptIntoActivation | Op_AssertRegionMatches | Op_PushParamFrame |
Op_PopParamFrame | Op_CheckSignalBound | Op_IsEmpty | Op_IsBool | Op_IsInt | Op_IsFloat |
Op_IsString | Op_IsKeyword | Op_IsSymbolCheck | Op_IsBytes | Op_IsBox | Op_IsClosure |
Op_IsFiber | Op_TypeOf | Op_Length | Op_Get | Op_Put | Op_Del | Op_Has | Op_IntrPush |
Op_IntrStringPush | Op_IntrBytesPush | Op_Pop | Op_Freeze | Op_Thaw | Op_Identical.

(** [Op::ALL], in byte order. *)
Definition Op_ALL : list Op :=
  [ Op_Const; Op_ValueConst; Op_MaterializeConst; Op_LoadLocal; Op_StoreLocal;
    Op_StoreLocalRefcounted; Op_LoadCapture; Op_LoadCaptureRaw; Op_StoreCapture; Op_MakeClosure;
    Op_LoadSelf; Op_Call; Op_SuspendingCall; Op_TailCall; Op_List; Op_MakeArrayMut; Op_First;
    Op_Rest; Op_BinOp; Op_UnaryOp; Op_Convert; Op_Compare; Op_IsNil; Op_IsPair; Op_IsArray;
    Op_IsArrayMut; Op_IsStruct; Op_IsStructMut; Op_IsSet; Op_IsSetMut; Op_ArrayMutLen;
    Op_MakeCaptureCell; Op_LoadCaptureCell; Op_StoreCaptureCell; Op_MatchFail;
    Op_FirstDestructure; Op_RestDestructure; Op_ArrayMutRefDestructure; Op_ArrayMutSliceFrom;
    Op_StructGetOrNil; Op_StructGetDestructure; Op_StructRest; Op_FirstOrNil; Op_RestOrNil;
    Op_ArrayMutRefOrNil; Op_LoadResumeValue; Op_Eval; Op_ArrayMutExtend; Op_ArrayMutPush;
    Op_CallArrayMut; Op_TailCallArrayMut; Op_IncrefRegion; Op_DecrefRegion;
    Op_DecrefValueRegion; Op_DecrefCellRegion; Op_IncrefValueRegion; Op_AdoptRegion;
    Op_AdoptCellRegion; Op_FreeRegionGroup; Op_AdoptIntoActivation; Op_AssertRegionMatches;
    Op_PushParamFrame; Op_PopParamFrame; Op_CheckSignalBound; Op_IsEmpty; Op_IsBool; Op_IsInt;
    Op_IsFloat; Op_IsString; Op_IsKeyword; Op_IsSymbolCheck; Op_IsBytes; Op_IsBox; Op_IsClosure;
    Op_IsFiber; Op_TypeOf; Op_Length; Op_Get; Op_Put; Op_Del; Op_Has; Op_IntrPush;
    Op_IntrStringPush; Op_IntrBytesPush; Op_Pop; Op_Freeze; Op_Thaw; Op_Identical].

(** [op as u8]: the discriminant, in declaration order. *)
Definition op_byte (o : Op) : N :=
  match o with
  | Op_Const => 0 | Op_ValueConst => 1 | Op_MaterializeConst => 2 | Op_LoadLocal => 3 |
  Op_StoreLocal => 4 | Op_StoreLocalRefcounted => 5 | Op_LoadCapture => 6 | Op_LoadCaptureRaw =>
  7 | Op_StoreCapture => 8 | Op_MakeClosure => 9 | Op_LoadSelf => 10 | Op_Call => 11 |
  Op_SuspendingCall => 12 | Op_TailCall => 13 | Op_List => 14 | Op_MakeArrayMut => 15 | Op_First
  => 16 | Op_Rest => 17 | Op_BinOp => 18 | Op_UnaryOp => 19 | Op_Convert => 20 | Op_Compare =>
  21 | Op_IsNil => 22 | Op_IsPair => 23 | Op_IsArray => 24 | Op_IsArrayMut => 25 | Op_IsStruct
  => 26 | Op_IsStructMut => 27 | Op_IsSet => 28 | Op_IsSetMut => 29 | Op_ArrayMutLen => 30 |
  Op_MakeCaptureCell => 31 | Op_LoadCaptureCell => 32 | Op_StoreCaptureCell => 33 | Op_MatchFail
  => 34 | Op_FirstDestructure => 35 | Op_RestDestructure => 36 | Op_ArrayMutRefDestructure => 37
  | Op_ArrayMutSliceFrom => 38 | Op_StructGetOrNil => 39 | Op_StructGetDestructure => 40 |
  Op_StructRest => 41 | Op_FirstOrNil => 42 | Op_RestOrNil => 43 | Op_ArrayMutRefOrNil => 44 |
  Op_LoadResumeValue => 45 | Op_Eval => 46 | Op_ArrayMutExtend => 47 | Op_ArrayMutPush => 48 |
  Op_CallArrayMut => 49 | Op_TailCallArrayMut => 50 | Op_IncrefRegion => 51 | Op_DecrefRegion =>
  52 | Op_DecrefValueRegion => 53 | Op_DecrefCellRegion => 54 | Op_IncrefValueRegion => 55 |
  Op_AdoptRegion => 56 | Op_AdoptCellRegion => 57 | Op_FreeRegionGroup => 58 |
  Op_AdoptIntoActivation => 59 | Op_AssertRegionMatches => 60 | Op_PushParamFrame => 61 |
  Op_PopParamFrame => 62 | Op_CheckSignalBound => 63 | Op_IsEmpty => 64 | Op_IsBool => 65 |
  Op_IsInt => 66 | Op_IsFloat => 67 | Op_IsString => 68 | Op_IsKeyword => 69 | Op_IsSymbolCheck
  => 70 | Op_IsBytes => 71 | Op_IsBox => 72 | Op_IsClosure => 73 | Op_IsFiber => 74 | Op_TypeOf
  => 75 | Op_Length => 76 | Op_Get => 77 | Op_Put => 78 | Op_Del => 79 | Op_Has => 80 |
  Op_IntrPush => 81 | Op_IntrStringPush => 82 | Op_IntrBytesPush => 83 | Op_Pop => 84 |
  Op_Freeze => 85 | Op_Thaw => 86 | Op_Identical => 87
  end.

(** [Op::from_byte] *)
Definition from_byte (byte : N) : option Op := Op_ALL !! N.to_nat byte.

(** [Op::of] *)
Definition op_of (i : InstrRef) : Op :=
  match i with
  | I_Const _ _ => Op_Const
  | I_ValueConst _ _ => Op_ValueConst
  | I_MaterializeConst _ _ _ => Op_MaterializeConst
  | I_LoadLocal _ _ => Op_LoadLocal
  | I_StoreLocal _ _ => Op_StoreLocal
  | I_StoreLocalRefcounted _ _ => Op_StoreLocalRefcounted
  | I_LoadCapture _ _ => Op_LoadCapture
  | I_LoadCaptureRaw _ _ => Op_LoadCaptureRaw
  | I_StoreCapture _ _ => Op_StoreCapture
  | I_MakeClosure _ _ _ _ => Op_MakeClosure
  | I_LoadSelf _ => Op_LoadSelf
  | I_Call _ _ _ _ _ => Op_Call
  | I_SuspendingCall _ _ _ _ _ => Op_SuspendingCall
  | I_TailCall _ _ _ _ _ _ _ _ => Op_TailCall
  | I_List _ _ _ _ => Op_List
  | I_MakeArrayMut _ _ _ => Op_MakeArrayMut
  | I_First _ _ => Op_First
  | I_Rest _ _ => Op_Rest
  | I_BinOp _ _ _ _ _ => Op_BinOp
  | I_UnaryOp _ _ _ _ => Op_UnaryOp
  | I_Convert _ _ _ => Op_Convert
  | I_Compare _ _ _ _ _ => Op_Compare
  | I_IsNil _ _ => Op_IsNil
  | I_IsPair _ _ => Op_IsPair
  | I_IsArray _ _ => Op_IsArray
  | I_IsArrayMut _ _ => Op_IsArrayMut
  | I_IsStruct _ _ => Op_IsStruct
  | I_IsStructMut _ _ => Op_IsStructMut
  | I_IsSet _ _ => Op_IsSet
  | I_IsSetMut _ _ => Op_IsSetMut
  | I_ArrayMutLen _ _ => Op_ArrayMutLen
  | I_MakeCaptureCell _ _ _ _ _ => Op_MakeCaptureCell
  | I_LoadCaptureCell _ _ => Op_LoadCaptureCell
  | I_StoreCaptureCell _ _ => Op_StoreCaptureCell
  | I_MatchFail _ _ => Op_MatchFail
  | I_FirstDestructure _ _ => Op_FirstDestructure
  | I_RestDestructure _ _ => Op_RestDestructure
  | I_ArrayMutRefDestructure _ _ _ => Op_ArrayMutRefDestructure
  | I_ArrayMutSliceFrom _ _ _ => Op_ArrayMutSliceFrom
  | I_StructGetOrNil _ _ _ => Op_StructGetOrNil
  | I_StructGetDestructure _ _ _ => Op_StructGetDestructure
  | I_StructRest _ _ _ => Op_StructRest
  | I_FirstOrNil _ _ => Op_FirstOrNil
  | I_RestOrNil _ _ => Op_RestOrNil
  | I_ArrayMutRefOrNil _ _ _ => Op_ArrayMutRefOrNil
  | I_LoadResumeValue _ => Op_LoadResumeValue
  | I_Eval _ _ _ => Op_Eval
  | I_ArrayMutExtend _ _ _ => Op_ArrayMutExtend
  | I_ArrayMutPush _ _ _ => Op_ArrayMutPush
  | I_CallArrayMut _ _ _ _ _ => Op_CallArrayMut
  | I_TailCallArrayMut _ _ _ _ => Op_TailCallArrayMut
  | I_IncrefRegion _ => Op_IncrefRegion
  | I_DecrefRegion _ => Op_DecrefRegion
  | I_DecrefValueRegion _ => Op_DecrefValueRegion
  | I_DecrefCellRegion _ => Op_DecrefCellRegion
  | I_IncrefValueRegion _ => Op_IncrefValueRegion
  | I_AdoptRegion _ _ => Op_AdoptRegion
  | I_AdoptCellRegion _ _ => Op_AdoptCellRegion
  | I_FreeRegionGroup _ => Op_FreeRegionGroup
  | I_AdoptIntoActivation _ => Op_AdoptIntoActivation
  | I_AssertRegionMatches _ _ => Op_AssertRegionMatches
  | I_PushParamFrame _ => Op_PushParamFrame
  | I_PopParamFrame => Op_PopParamFrame
  | I_CheckSignalBound _ _ => Op_CheckSignalBound
  | I_IsEmpty _ _ => Op_IsEmpty
  | I_IsBool _ _ => Op_IsBool
  | I_IsInt _ _ => Op_IsInt
  | I_IsFloat _ _ => Op_IsFloat
  | I_IsString _ _ => Op_IsString
  | I_IsKeyword _ _ => Op_IsKeyword
  | I_IsSymbolCheck _ _ => Op_IsSymbolCheck
  | I_IsBytes _ _ => Op_IsBytes
  | I_IsBox _ _ => Op_IsBox
  | I_IsClosure _ _ => Op_IsClosure
  | I_IsFiber _ _ => Op_IsFiber
  | I_TypeOf _ _ => Op_TypeOf
  | I_Length _ _ => Op_Length
  | I_Get _ _ _ => Op_Get
  | I_Put _ _ _ _ => Op_Put
  | I_Del _ _ _ => Op_Del
  | I_Has _ _ _ => Op_Has
  | I_IntrPush _ _ _ => Op_IntrPush
  | I_IntrStringPush _ _ _ => Op_IntrStringPush
  | I_IntrBytesPush _ _ _ => Op_IntrBytesPush
  | I_Pop _ _ => Op_Pop
  | I_Freeze _ _ _ => Op_Freeze
  | I_Thaw _ _ _ => Op_Thaw
  | I_Identical _ _ _ => Op_Identical
  end.

(** ** Raising instructions *)

(** [Op::may_raise] *)
Definition op_may_raise (o : Op) : bool :=
  match o with
  | Op_MatchFail | Op_FirstDestructure | Op_RestDestructure | Op_ArrayMutRefDestructure
  | Op_ArrayMutSliceFrom | Op_StructGetDestructure | Op_ArrayMutExtend | Op_ArrayMutPush
  | Op_PushParamFrame | Op_CheckSignalBound => true
  | _ => false
  end.

(** [Op::raise_delivers] *)
Definition op_raise_delivers (o : Op) : bool :=
  negb match o with Op_PushParamFrame | Op_CheckSignalBound => true | _ => false end.

(** [InstrRef::may_raise] and [InstrRef::raise_delivers] *)
Definition may_raise (i : InstrRef) : bool := op_may_raise (op_of i).
Definition raise_delivers (i : InstrRef) : bool := op_raise_delivers (op_of i).

(** ** Constructors of the arithmetic instructions (lir/code/proof.rs) *)

Definition binop_proved (dst : Reg) (op : BinOp) (lhs rhs : Reg) (proof : OperandProof) : InstrRef :=
  I_BinOp dst op lhs rhs proof.
Definition compare_proved (dst : Reg) (op : CmpOp) (lhs rhs : Reg) (proof : OperandProof) : InstrRef :=
  I_Compare dst op lhs rhs proof.
Definition unary_proved (dst : Reg) (op : UnaryOp) (src : Reg) (proof : OperandProof) : InstrRef :=
  I_UnaryOp dst op src proof.

Definition binop (dst : Reg) (op : BinOp) (lhs rhs : Reg) : InstrRef :=
  binop_proved dst op lhs rhs Unproven.
Definition compare (dst : Reg) (op : CmpOp) (lhs rhs : Reg) : InstrRef :=
  compare_proved dst op lhs rhs Unproven.
Definition unary (dst : Reg) (op : UnaryOp) (src : Reg) : InstrRef :=
  unary_proved dst op src Unproven.
Definition int_binop (dst : Reg) (op : BinOp) (lhs rhs : Reg) : InstrRef :=
  binop_proved dst op lhs rhs ProvenInt.
Definition int_compare (dst : Reg) (op : CmpOp) (lhs rhs : Reg) : InstrRef :=
  compare_proved dst op lhs rhs ProvenInt.
Definition int_unary (dst : Reg) (op : UnaryOp) (src : Reg) : InstrRef :=
  unary_proved dst op src ProvenInt.

(** ** The byte order is the declaration order *)

Lemma from_byte_op_byte o : from_byte (op_byte o) = Some o.
Proof. by destruct o. Qed.

Lemma op_byte_from_byte b o : from_byte b = Some o -> op_byte o = b.
Proof.
  intros H. unfold from_byte in H.
  assert (Hall : Forall (fun j => match Op_ALL !! j with
                                  | Some o' => op_byte o' = N.of_nat j
                                  | None => True end) (seq 0 (length Op_ALL)))
    by (repeat constructor).
  pose proof (lookup_lt_Some _ _ _ H) as Hlt.
  rewrite Forall_forall in Hall. specialize (Hall (N.to_nat b)).
  rewrite H in Hall. rewrite Hall; [lia|]. apply elem_of_seq. lia.
Qed.

Lemma op_byte_inj o o' : op_byte o = op_byte o' -> o = o'.
Proof. intros H. apply (inj Some). by rewrite <- !from_byte_op_byte, H. Qed.
