(* ===== verification/LirCodec.v ===== *)
(** * Encoding and decoding frozen LIR

    [lir/build/encode.rs]: one function's tables, an instruction as a node
    with its operands appended to them, a terminator as a block record.
    [lir/code/decode.rs]: the instruction a node holds and the terminator of a
    block, read against the tables as [Parts].  [Parts::span] of
    [lir/code/view.rs] reads a span back.

    A [RegionVec] is the list of its items; a read past the end of a slice
    panics, so decoding answers in [option].  The scratch vectors an encoding
    reuses are local to it.  [refused] keeps the register count that the
    error message prints. *)

From stdpp Require Import base numbers list gmap.
From S2P Require Import Prelude SignalBits LirRecord LirInstr.

Local Open Scope N_scope.

(** ** Tables *)

Record Tables := mkTables {
  pool : list N;
  consts : list ConstRec;
  data : list N;
  values : list Value;
  files : list FileId;
  value_ix : gmap (N * N) N;
  refused : option N }.

Definition set_pool (t : Tables) (l : list N) : Tables :=
  mkTables l (consts t) (data t) (values t) (files t) (value_ix t) (refused t).
Definition set_consts (t : Tables) (l : list ConstRec) : Tables :=
  mkTables (pool t) l (data t) (values t) (files t) (value_ix t) (refused t).
Definition set_data (t : Tables) (l : list N) : Tables :=
  mkTables (pool t) (consts t) l (values t) (files t) (value_ix t) (refused t).
Definition set_files (t : Tables) (l : list FileId) : Tables :=
  mkTables (pool t) (consts t) (data t) (values t) l (value_ix t) (refused t).
Definition set_refused (t : Tables) (r : option N) : Tables :=
  mkTables (pool t) (consts t) (data t) (values t) (files t) (value_ix t) r.

(** [Tables::new]: the dedup map's room is reused, cleared. *)
Definition Tables_new (room : gmap (N * N) N) : Tables :=
  let room : gmap (N * N) N := ∅ in mkTables [] [] [] [] [] room None.

Definition value_key (v : Value) : N * N := (tag v, payload v).

Record TableMark := mkTableMark {
  m_pool : nat; m_consts : nat; m_data : nat; m_values : nat; m_files : nat }.

(** [Tables::mark] *)
Definition tables_mark (t : Tables) : TableMark :=
  mkTableMark (length (pool t)) (length (consts t)) (length (data t))
    (length (values t)) (length (files t)).

(** [Tables::retract]: slicing the values past their end panics. *)
Definition tables_retract (t : Tables) (m : TableMark) : option Tables :=
  if decide (m_values m <= length (values t))%nat then
    let dropped := drop (m_values m) (values t) in
    let ix := foldl (fun ix v => delete (value_key v) ix) (value_ix t) dropped in
    Some (mkTables (take (m_pool m) (pool t)) (take (m_consts m) (consts t))
            (take (m_data m) (data t)) (take (m_values m) (values t))
            (take (m_files m) (files t)) ix (refused t))
  else None.

(** [Tables::file] *)
Definition file_ (t : Tables) (span : Span) : Tables * N :=
  let id := sp_file span in
  if negb (FileId_is_some id) then (t, NO_FILE)
  else match list_find (eq id) (files t) with
       | Some (ix, _) => (t, as_u32 (as_u32 (N.of_nat ix) + 1))
       | None => let fs := files t ++ [id] in (set_files t fs, len_u32 fs)
       end.

(** [Tables::push_const] *)
Definition push_const (t : Tables) (rec : ConstRec) : Tables * N :=
  let cs := consts t ++ [rec] in
  (set_consts t cs, as_u32 (N.of_nat (length cs - 1))).

(** [Tables::value] *)
Definition value_ (t : Tables) (v : Value) : Tables * N :=
  let key := value_key v in
  match value_ix t !! key with
  | Some ix => (t, ix)
  | None =>
    let vs := values t ++ [v] in
    let ix := as_u32 (N.of_nat (length vs - 1)) in
    (mkTables (pool t) (consts t) (data t) vs (files t) (<[key := ix]> (value_ix t)) (refused t),
     ix)
  end.

(** ** Encoding an instruction *)

Definition proof_flag (p : OperandProof) : N := if proof_is_int p then PROOF_INT else 0.

Definition checked (c : bool) : N := if c then ARITY_CHECKED else 0.

(** The [match] of [encode::node]: the uses in field order, the pool words
    after them, the destination, the one scalar beside the registers and the
    flag byte, with the tables grown by what the variant stores there. *)
Definition operands (t : Tables) (i : InstrRef)
  : list Reg * list N * option Reg * N * N * Tables :=
  match i with
  | I_Const dst value =>
    let (t, ix) := push_const t (immediate value) in
    ([], [], Some dst, ix, 0, t)
  | I_ValueConst dst value =>
    let (t, ix) := value_ t value in
    ([], [], Some dst, ix, 0, t)
  | I_MaterializeConst dst template _ =>
    let at_ := len_u32 (data t) in
    let t := set_data t (data t ++ template) in
    ([], [len_u32 template], Some dst, at_, 0, t)
  | I_LoadLocal dst slot => ([], [], Some dst, slot, 0, t)
  | I_StoreLocal slot src | I_StoreLocalRefcounted slot src => ([src], [], None, slot, 0, t)
  | I_LoadCapture dst index | I_LoadCaptureRaw dst index => ([], [], Some dst, index, 0, t)
  | I_StoreCapture index src => ([src], [], None, index, 0, t)
  | I_MakeClosure dst closure_id captures _ => (captures, [], Some dst, closure_id, 0, t)
  | I_LoadSelf dst | I_LoadResumeValue dst => ([], [], Some dst, 0, 0, t)
  | I_Call dst func args arity_checked _ | I_SuspendingCall dst func args arity_checked _ =>
    (func :: args, [], Some dst, 0, checked arity_checked, t)
  | I_TailCall dst func args arity_checked _ defer_callee_release deferred_release_slot borrowed_arg_slots =>
    let words := from_option StaticRegion_get 0 deferred_release_slot
                   :: len_u32 borrowed_arg_slots :: borrowed_arg_slots in
    let defer := if defer_callee_release then DEFER_CALLEE else 0 in
    (func :: args, words, Some dst, 0, N.lor (checked arity_checked) defer, t)
  | I_List dst head tail _ => ([head; tail], [], Some dst, 0, 0, t)
  | I_MakeArrayMut dst elements _ => (elements, [], Some dst, 0, 0, t)
  | I_First dst p | I_Rest dst p => ([p], [], Some dst, 0, 0, t)
  | I_BinOp dst op lhs rhs proof =>
    ([lhs; rhs], [], Some dst, 0, N.lor (BinOp_byte op) (proof_flag proof), t)
  | I_Compare dst op lhs rhs proof =>
    ([lhs; rhs], [], Some dst, 0, N.lor (CmpOp_byte op) (proof_flag proof), t)
  | I_UnaryOp dst op src proof =>
    ([src], [], Some dst, 0, N.lor (UnaryOp_byte op) (proof_flag proof), t)
  | I_Convert dst op src => ([src], [], Some dst, 0, ConvOp_byte op, t)
  | I_MakeCaptureCell dst value _ name mutated =>
    let (t, ix) := push_const t (const_bits name) in
    ([value], [], Some dst, ix, if mutated then MUTATED else 0, t)
  | I_LoadCaptureCell dst cell => ([cell], [], Some dst, 0, 0, t)
  | I_StoreCaptureCell cell value => ([cell; value], [], None, 0, 0, t)
  | I_ArrayMutRefDestructure dst src index | I_ArrayMutSliceFrom dst src index
  | I_ArrayMutRefOrNil dst src index => ([src], [], Some dst, index, 0, t)
  | I_StructGetOrNil dst src key | I_StructGetDestructure dst src key =>
    let (t, ix) := push_const t (immediate key) in
    ([src], [], Some dst, ix, 0, t)
  | I_StructRest dst src exclude_keys =>
    let at_ := len_u32 (consts t) in
    let t := set_consts t (consts t ++ exclude_keys) in
    ([src], [len_u32 exclude_keys], Some dst, at_, 0, t)
  | I_Eval dst expr env => ([expr; env], [], Some dst, 0, 0, t)
  | I_ArrayMutExtend dst array source => ([array; source], [], Some dst, 0, 0, t)
  | I_ArrayMutPush dst array value | I_IntrPush dst array value
  | I_IntrStringPush dst array value | I_IntrBytesPush dst array value =>
    ([array; value], [], Some dst, 0, 0, t)
  | I_CallArrayMut dst func args _ args_region =>
    ([func; args], [], Some dst, StaticRegion_get args_region, 0, t)
  | I_TailCallArrayMut func args _ args_region =>
    ([func; args], [], None, StaticRegion_get args_region, 0, t)
  | I_IncrefRegion region_id | I_DecrefRegion region_id =>
    ([], [], None, StaticRegion_get region_id, 0, t)
  | I_DecrefValueRegion src | I_DecrefCellRegion src | I_IncrefValueRegion src
  | I_AdoptIntoActivation src => ([src], [], None, 0, 0, t)
  | I_AdoptRegion parent child | I_AdoptCellRegion parent child =>
    ([parent; child], [], None, 0, 0, t)
  | I_FreeRegionGroup regs | I_PushParamFrame regs => (regs, [], None, 0, 0, t)
  | I_AssertRegionMatches region_id src => ([src], [], None, StaticRegion_get region_id, 0, t)
  | I_PopParamFrame => ([], [], None, 0, 0, t)
  | I_CheckSignalBound src allowed_bits =>
    let (t, ix) := push_const t (const_bits (raw allowed_bits)) in
    ([src], [], None, ix, 0, t)
  | I_Get dst obj key | I_Del dst obj key | I_Has dst obj key =>
    ([obj; key], [], Some dst, 0, 0, t)
  | I_Put dst obj key val => ([obj; key; val], [], Some dst, 0, 0, t)
  | I_Identical dst lhs rhs => ([lhs; rhs], [], Some dst, 0, 0, t)
  | I_IsNil dst src | I_IsPair dst src | I_IsArray dst src | I_IsArrayMut dst src
  | I_IsStruct dst src | I_IsStructMut dst src | I_IsSet dst src | I_IsSetMut dst src
  | I_ArrayMutLen dst src | I_MatchFail dst src | I_FirstDestructure dst src
  | I_RestDestructure dst src | I_FirstOrNil dst src | I_RestOrNil dst src | I_IsEmpty dst src
  | I_IsBool dst src | I_IsInt dst src | I_IsFloat dst src | I_IsString dst src
  | I_IsKeyword dst src | I_IsSymbolCheck dst src | I_IsBytes dst src | I_IsBox dst src
  | I_IsClosure dst src | I_IsFiber dst src | I_TypeOf dst src | I_Length dst src
  | I_Pop dst src | I_Freeze dst src _ | I_Thaw dst src _ => ([src], [], Some dst, 0, 0, t)
  end.

(** [encode::node] *)
Definition node (t : Tables) (i : InstrRef) (span : Span) : Node * Tables :=
  let '(uses, words, dst, aux, flags, t) := operands t i in
  let n := N.of_nat (length uses) in
  let '(n_uses, t) :=
    if n <? 2 ^ 16 then (n, t)
    else (2 ^ 16 - 1, set_refused t (Some (default n (refused t)))) in
  let extra := len_u32 (pool t) in
  let t := if 2 <? n then set_pool t (pool t ++ uses) else t in
  let t := set_pool t (pool t ++ words) in
  let at_ k := default NO_REG (uses !! k) in
  let (t, file) := file_ t span in
  (mkNode (sp_start span) (sp_end span) (sp_line span) (sp_col span) file
     (default NO_REG dst) (from_option StaticRegion_get 0 (region i)) aux
     (at_ 0%nat) (at_ 1%nat) extra n_uses (op_byte (op_of i)) flags, t).

(** [encode::exit] *)
Definition exit (t : Tables) (label : Label) (exit : Terminator) (span : Span)
  : BlockRec * Tables :=
  let '(term_op, a, b, c, t) :=
    match exit with
    | Return r => (T_RETURN, r, NO_REG, NO_REG, t)
    | Jump l => (T_JUMP, l, NO_REG, NO_REG, t)
    | Branch cond then_label else_label => (T_BRANCH, cond, then_label, else_label, t)
    | Emit signal value resume_label =>
      let (t, at_) := push_const t (const_bits (raw signal)) in
      (T_EMIT, value, resume_label, at_, t)
    | Unreachable => (T_UNREACHABLE, NO_REG, NO_REG, NO_REG, t)
    end in
  let (t, file) := file_ t span in
  (mkBlockRec label 0 0 a b c
     (sp_start span) (sp_end span) (sp_line span) (sp_col span) file term_op, t).

(** ** The slices a node decodes against *)

Record Parts := mkParts {
  p_nodes : list Node;
  p_pool : list N;
  p_consts : list ConstRec;
  p_data : list N;
  p_values : list Value;
  p_files : list FileId }.

(** [Tables::parts]: a working node names no other node. *)
Definition tables_parts (t : Tables) : Parts :=
  mkParts [] (pool t) (consts t) (data t) (values t) (files t).

(** [&v[at..at + n]] *)
Definition slice {A} (v : list A) (at_ n : nat) : option (list A) :=
  if decide (at_ + n <= length v)%nat then Some (take n (drop at_ v)) else None.

(** [Parts::span] *)
Definition parts_span (parts : Parts) (start end_ line col file : N) : option Span :=
  let span := Span_new start end_ line col in
  if file =? NO_FILE then Some span
  else id ← p_files parts !! N.to_nat (file - 1); Some (set_file_id span id).

(** ** Decoding *)

Definition BINOPS : list BinOp := [Add; Sub; Mul; Div; Rem; BitAnd; BitOr; BitXor; Shl; Shr].
Definition CMPOPS : list CmpOp := [CmpEq; CmpNe; CmpLt; CmpLe; CmpGt; CmpGe].
Definition UNARYOPS : list UnaryOp := [Neg; Not; BitNot].
Definition CONVOPS : list ConvOp := [IntToFloat; FloatToInt].

(** [decode::uses] *)
Definition uses (node : Node) (parts : Parts) : option (list Reg) :=
  let n := N.to_nat (n_uses node) in
  if decide (n <= 2)%nat then Some (take n [n_use0 node; n_use1 node])
  else slice (p_pool parts) (N.to_nat (n_extra node)) n.

(** [scalars_at]: where the pool words after the uses start. *)
Definition scalars_at (node : Node) : nat :=
  let n := N.to_nat (n_uses node) in
  (N.to_nat (n_extra node) + if decide (2 < n) then n else 0)%nat.

(** [region]: an allocating or calling node that names none panics. *)
Definition region_of (node : Node) : option StaticRegion := StaticRegion_new (n_region node).

(** [flags & mask != 0] *)
Definition has_flag (node : Node) (mask : N) : bool := negb (N.land (n_flags node) mask =? 0).

Definition proof_of (node : Node) : OperandProof :=
  if has_flag node PROOF_INT then ProvenInt else Unproven.

Definition sub (node : Node) : nat := N.to_nat (N.land (n_flags node) SUB).

(** [decode::instr] *)
Definition instr (node : Node) (parts : Parts) : option InstrRef :=
  op_ ← from_byte (n_op node);
  u ← uses node parts;
  let dst := n_dst node in
  let aux := n_aux node in
  let at_ := scalars_at node in
  let konst ix := p_consts parts !! N.to_nat ix ≫= const_of in
  let bits_ ix := c_bits <$> p_consts parts !! N.to_nat ix in
  let checked_ := has_flag node ARITY_CHECKED in
  match op_ with
  | Op_Const => value ← konst aux; Some (I_Const dst value)
  | Op_ValueConst => value ← p_values parts !! N.to_nat aux; Some (I_ValueConst dst value)
  | Op_MaterializeConst =>
      len ← p_pool parts !! at_; template ← slice (p_data parts) (N.to_nat aux) (N.to_nat len);
      reg ← region_of node; Some (I_MaterializeConst dst template reg)
  | Op_LoadLocal => Some (I_LoadLocal dst (as_u16 aux))
  | Op_StoreLocal => src ← u !! 0%nat; Some (I_StoreLocal (as_u16 aux) src)
  | Op_StoreLocalRefcounted => src ← u !! 0%nat; Some (I_StoreLocalRefcounted (as_u16 aux) src)
  | Op_LoadCapture => Some (I_LoadCapture dst (as_u16 aux))
  | Op_LoadCaptureRaw => Some (I_LoadCaptureRaw dst (as_u16 aux))
  | Op_StoreCapture => src ← u !! 0%nat; Some (I_StoreCapture (as_u16 aux) src)
  | Op_MakeClosure => reg ← region_of node; Some (I_MakeClosure dst aux u reg)
  | Op_LoadSelf => Some (I_LoadSelf dst)
  | Op_Call =>
      func ← u !! 0%nat; reg ← region_of node; Some (I_Call dst func (drop 1 u) checked_ reg)
  | Op_SuspendingCall =>
      func ← u !! 0%nat; reg ← region_of node;
      Some (I_SuspendingCall dst func (drop 1 u) checked_ reg)
  | Op_TailCall =>
      n_borrowed ← p_pool parts !! (at_ + 1)%nat; func ← u !! 0%nat; reg ← region_of node;
      deferred ← p_pool parts !! at_;
      slots ← slice (p_pool parts) (at_ + 2)%nat (N.to_nat n_borrowed);
      Some (I_TailCall dst func (drop 1 u) checked_ reg (has_flag node DEFER_CALLEE) (StaticRegion_new deferred) slots)
  | Op_List =>
      head ← u !! 0%nat; tail ← u !! 1%nat; reg ← region_of node;
      Some (I_List dst head tail reg)
  | Op_MakeArrayMut => reg ← region_of node; Some (I_MakeArrayMut dst u reg)
  | Op_First => p ← u !! 0%nat; Some (I_First dst p)
  | Op_Rest => p ← u !! 0%nat; Some (I_Rest dst p)
  | Op_BinOp =>
      op ← BINOPS !! sub node; lhs ← u !! 0%nat; rhs ← u !! 1%nat;
      Some (I_BinOp dst op lhs rhs (proof_of node))
  | Op_UnaryOp =>
      op ← UNARYOPS !! sub node; src ← u !! 0%nat; Some (I_UnaryOp dst op src (proof_of node))
  | Op_Convert => op ← CONVOPS !! sub node; src ← u !! 0%nat; Some (I_Convert dst op src)
  | Op_Compare =>
      op ← CMPOPS !! sub node; lhs ← u !! 0%nat; rhs ← u !! 1%nat;
      Some (I_Compare dst op lhs rhs (proof_of node))
  | Op_IsNil => src ← u !! 0%nat; Some (I_IsNil dst src)
  | Op_IsPair => src ← u !! 0%nat; Some (I_IsPair dst src)
  | Op_IsArray => src ← u !! 0%nat; Some (I_IsArray dst src)
  | Op_IsArrayMut => src ← u !! 0%nat; Some (I_IsArrayMut dst src)
  | Op_IsStruct => src ← u !! 0%nat; Some (I_IsStruct dst src)
  | Op_IsStructMut => src ← u !! 0%nat; Some (I_IsStructMut dst src)
  | Op_IsSet => src ← u !! 0%nat; Some (I_IsSet dst src)
  | Op_IsSetMut => src ← u !! 0%nat; Some (I_IsSetMut dst src)
  | Op_ArrayMutLen => src ← u !! 0%nat; Some (I_ArrayMutLen dst src)
  | Op_MakeCaptureCell =>
      value ← u !! 0%nat; reg ← region_of node; name ← bits_ aux;
      Some (I_MakeCaptureCell dst value reg name (has_flag node MUTATED))
  | Op_LoadCaptureCell => cell ← u !! 0%nat; Some (I_LoadCaptureCell dst cell)
  | Op_StoreCaptureCell =>
      cell ← u !! 0%nat; value ← u !! 1%nat; Some (I_StoreCaptureCell cell value)
  | Op_MatchFail => src ← u !! 0%nat; Some (I_MatchFail dst src)
  | Op_FirstDestructure => src ← u !! 0%nat; Some (I_FirstDestructure dst src)
  | Op_RestDestructure => src ← u !! 0%nat; Some (I_RestDestructure dst src)
  | Op_ArrayMutRefDestructure =>
      src ← u !! 0%nat; Some (I_ArrayMutRefDestructure dst src (as_u16 aux))
  | Op_ArrayMutSliceFrom => src ← u !! 0%nat; Some (I_ArrayMutSliceFrom dst src (as_u16 aux))
  | Op_StructGetOrNil => src ← u !! 0%nat; key ← konst aux; Some (I_StructGetOrNil dst src key)
  | Op_StructGetDestructure =>
      src ← u !! 0%nat; key ← konst aux; Some (I_StructGetDestructure dst src key)
  | Op_StructRest =>
      src ← u !! 0%nat; n ← p_pool parts !! at_;
      exclude_keys ← slice (p_consts parts) (N.to_nat aux) (N.to_nat n);
      Some (I_StructRest dst src exclude_keys)
  | Op_FirstOrNil => src ← u !! 0%nat; Some (I_FirstOrNil dst src)
  | Op_RestOrNil => src ← u !! 0%nat; Some (I_RestOrNil dst src)
  | Op_ArrayMutRefOrNil => src ← u !! 0%nat; Some (I_ArrayMutRefOrNil dst src (as_u16 aux))
  | Op_LoadResumeValue => Some (I_LoadResumeValue dst)
  | Op_Eval => expr ← u !! 0%nat; env ← u !! 1%nat; Some (I_Eval dst expr env)
  | Op_ArrayMutExtend =>
      array ← u !! 0%nat; source ← u !! 1%nat; Some (I_ArrayMutExtend dst array source)
  | Op_ArrayMutPush =>
      array ← u !! 0%nat; value ← u !! 1%nat; Some (I_ArrayMutPush dst array value)
  | Op_CallArrayMut =>
      func ← u !! 0%nat; args ← u !! 1%nat; reg ← region_of node;
      args_region ← StaticRegion_new aux; Some (I_CallArrayMut dst func args reg args_region)
  | Op_TailCallArrayMut =>
      func ← u !! 0%nat; args ← u !! 1%nat; reg ← region_of node;
      args_region ← StaticRegion_new aux; Some (I_TailCallArrayMut func args reg args_region)
  | Op_IncrefRegion => region_id ← StaticRegion_new aux; Some (I_IncrefRegion region_id)
  | Op_DecrefRegion => region_id ← StaticRegion_new aux; Some (I_DecrefRegion region_id)
  | Op_DecrefValueRegion => src ← u !! 0%nat; Some (I_DecrefValueRegion src)
  | Op_DecrefCellRegion => src ← u !! 0%nat; Some (I_DecrefCellRegion src)
  | Op_IncrefValueRegion => src ← u !! 0%nat; Some (I_IncrefValueRegion src)
  | Op_AdoptRegion => parent ← u !! 0%nat; child ← u !! 1%nat; Some (I_AdoptRegion parent child)
  | Op_AdoptCellRegion =>
      parent ← u !! 0%nat; child ← u !! 1%nat; Some (I_AdoptCellRegion parent child)
  | Op_FreeRegionGroup => Some (I_FreeRegionGroup u)
  | Op_AdoptIntoActivation => child ← u !! 0%nat; Some (I_AdoptIntoActivation child)
  | Op_AssertRegionMatches =>
      region_id ← StaticRegion_new aux; src ← u !! 0%nat;
      Some (I_AssertRegionMatches region_id src)
  | Op_PushParamFrame => Some (I_PushParamFrame u)
  | Op_PopParamFrame => Some I_PopParamFrame
  | Op_CheckSignalBound =>
      src ← u !! 0%nat; b ← bits_ aux; Some (I_CheckSignalBound src (mkBits b))
  | Op_IsEmpty => src ← u !! 0%nat; Some (I_IsEmpty dst src)
  | Op_IsBool => src ← u !! 0%nat; Some (I_IsBool dst src)
  | Op_IsInt => src ← u !! 0%nat; Some (I_IsInt dst src)
  | Op_IsFloat => src ← u !! 0%nat; Some (I_IsFloat dst src)
  | Op_IsString => src ← u !! 0%nat; Some (I_IsString dst src)
  | Op_IsKeyword => src ← u !! 0%nat; Some (I_IsKeyword dst src)
  | Op_IsSymbolCheck => src ← u !! 0%nat; Some (I_IsSymbolCheck dst src)
  | Op_IsBytes => src ← u !! 0%nat; Some (I_IsBytes dst src)
  | Op_IsBox => src ← u !! 0%nat; Some (I_IsBox dst src)
  | Op_IsClosure => src ← u !! 0%nat; Some (I_IsClosure dst src)
  | Op_IsFiber => src ← u !! 0%nat; Some (I_IsFiber dst src)
  | Op_TypeOf => src ← u !! 0%nat; Some (I_TypeOf dst src)
  | Op_Length => src ← u !! 0%nat; Some (I_Length dst src)
  | Op_Get => obj ← u !! 0%nat; key ← u !! 1%nat; Some (I_Get dst obj key)
  | Op_Put => obj ← u !! 0%nat; key ← u !! 1%nat; val ← u !! 2%nat; Some (I_Put dst obj key val)
  | Op_Del => obj ← u !! 0%nat; key ← u !! 1%nat; Some (I_Del dst obj key)
  | Op_Has => obj ← u !! 0%nat; key ← u !! 1%nat; Some (I_Has dst obj key)
  | Op_IntrPush => array ← u !! 0%nat; value ← u !! 1%nat; Some (I_IntrPush dst array value)
  | Op_IntrStringPush =>
      str ← u !! 0%nat; value ← u !! 1%nat; Some (I_IntrStringPush dst str value)
  | Op_IntrBytesPush =>
      bytes ← u !! 0%nat; value ← u !! 1%nat; Some (I_IntrBytesPush dst bytes value)
  | Op_Pop => src ← u !! 0%nat; Some (I_Pop dst src)
  | Op_Freeze => src ← u !! 0%nat; reg ← region_of node; Some (I_Freeze dst src reg)
  | Op_Thaw => src ← u !! 0%nat; reg ← region_of node; Some (I_Thaw dst src reg)
  | Op_Identical => lhs ← u !! 0%nat; rhs ← u !! 1%nat; Some (I_Identical dst lhs rhs)
  end.

(** [decode::terminator] *)
Definition terminator (rec : BlockRec) (parts : Parts) : option Terminator :=
  let o := b_term_op rec in
  if o =? T_RETURN then Some (Return (b_term_a rec))
  else if o =? T_JUMP then Some (Jump (b_term_a rec))
  else if o =? T_BRANCH then Some (Branch (b_term_a rec) (b_term_b rec) (b_term_c rec))
  else if o =? T_EMIT then
    c ← p_consts parts !! N.to_nat (b_term_c rec);
    Some (Emit (mkBits (c_bits c)) (b_term_a rec) (b_term_b rec))
  else if o =? T_UNREACHABLE then Some Unreachable
  else None.
