(* ===== verification/LirCodecProps.v ===== *)
(** * The frozen records read back what was encoded

    Decoding a node against any tables that extend the ones it was encoded
    into gives the instruction, the span and the registers back; the register
    answers agree with the hand-written lists of
    [lir/code/tests/regs.rs]. *)

From stdpp Require Import base numbers list gmap.
From S2P Require Import Prelude SignalBits LirRecord LirInstr LirCodec.

Local Open Scope N_scope.

(** ** The registers an instruction reads and writes *)

(** [expected_def] *)
Definition expected_def (i : InstrRef) : option Reg :=
  match i with
  | I_Const dst _ | I_ValueConst dst _ | I_MaterializeConst dst _ _ | I_LoadLocal dst _
  | I_LoadCapture dst _ | I_LoadCaptureRaw dst _ | I_MakeClosure dst _ _ _ | I_LoadSelf dst
  | I_Call dst _ _ _ _ | I_SuspendingCall dst _ _ _ _ | I_List dst _ _ _
  | I_MakeArrayMut dst _ _ | I_First dst _ | I_Rest dst _ | I_BinOp dst _ _ _ _
  | I_UnaryOp dst _ _ _ | I_Convert dst _ _ | I_Compare dst _ _ _ _ | I_IsNil dst _
  | I_IsPair dst _ | I_IsArray dst _ | I_IsArrayMut dst _ | I_IsStruct dst _
  | I_IsStructMut dst _ | I_IsSet dst _ | I_IsSetMut dst _ | I_ArrayMutLen dst _
  | I_MakeCaptureCell dst _ _ _ _ | I_LoadCaptureCell dst _ | I_MatchFail dst _
  | I_FirstDestructure dst _ | I_RestDestructure dst _ | I_ArrayMutRefDestructure dst _ _
  | I_ArrayMutSliceFrom dst _ _ | I_StructGetOrNil dst _ _ | I_StructGetDestructure dst _ _
  | I_StructRest dst _ _ | I_FirstOrNil dst _ | I_RestOrNil dst _ | I_ArrayMutRefOrNil dst _ _
  | I_LoadResumeValue dst | I_Eval dst _ _ | I_ArrayMutExtend dst _ _ | I_ArrayMutPush dst _ _
  | I_CallArrayMut dst _ _ _ _ | I_IsEmpty dst _ | I_IsBool dst _ | I_IsInt dst _
  | I_IsFloat dst _ | I_IsString dst _ | I_IsKeyword dst _ | I_IsSymbolCheck dst _
  | I_IsBytes dst _ | I_IsBox dst _ | I_IsClosure dst _ | I_IsFiber dst _ | I_TypeOf dst _
  | I_Length dst _ | I_Get dst _ _ | I_Put dst _ _ _ | I_Del dst _ _ | I_Has dst _ _
  | I_IntrPush dst _ _ | I_IntrStringPush dst _ _ | I_IntrBytesPush dst _ _ | I_Pop dst _
  | I_Freeze dst _ _ | I_Thaw dst _ _ | I_Identical dst _ _ => Some dst
  | I_StoreLocal _ _ | I_StoreLocalRefcounted _ _ | I_StoreCapture _ _
  | I_StoreCaptureCell _ _ | I_TailCall _ _ _ _ _ _ _ _ | I_TailCallArrayMut _ _ _ _
  | I_IncrefRegion _ | I_DecrefRegion _ | I_DecrefValueRegion _ | I_DecrefCellRegion _
  | I_IncrefValueRegion _ | I_AssertRegionMatches _ _ | I_AdoptRegion _ _
  | I_AdoptCellRegion _ _ | I_AdoptIntoActivation _ | I_FreeRegionGroup _ | I_PushParamFrame _
  | I_PopParamFrame | I_CheckSignalBound _ _ => None
  end.

(** [expected_uses] *)
Definition expected_uses (i : InstrRef) : list Reg :=
  match i with
  | I_Const _ _ | I_ValueConst _ _ | I_MaterializeConst _ _ _ | I_LoadLocal _ _
  | I_LoadCapture _ _ | I_LoadCaptureRaw _ _ | I_LoadSelf _ | I_LoadResumeValue _
  | I_IncrefRegion _ | I_DecrefRegion _ | I_PopParamFrame => []
  | I_StoreLocal _ r | I_StoreLocalRefcounted _ r | I_StoreCapture _ r | I_First _ r
  | I_Rest _ r | I_UnaryOp _ _ r _ | I_Convert _ _ r | I_IsNil _ r | I_IsPair _ r
  | I_IsArray _ r | I_IsArrayMut _ r | I_IsStruct _ r | I_IsStructMut _ r | I_IsSet _ r
  | I_IsSetMut _ r | I_ArrayMutLen _ r | I_MakeCaptureCell _ r _ _ _ | I_LoadCaptureCell _ r
  | I_MatchFail _ r | I_FirstDestructure _ r | I_RestDestructure _ r
  | I_ArrayMutRefDestructure _ r _ | I_ArrayMutSliceFrom _ r _ | I_StructGetOrNil _ r _
  | I_StructGetDestructure _ r _ | I_StructRest _ r _ | I_FirstOrNil _ r | I_RestOrNil _ r
  | I_ArrayMutRefOrNil _ r _ | I_DecrefValueRegion r | I_DecrefCellRegion r
  | I_IncrefValueRegion r | I_AdoptIntoActivation r | I_AssertRegionMatches _ r
  | I_CheckSignalBound r _ | I_IsEmpty _ r | I_IsBool _ r | I_IsInt _ r | I_IsFloat _ r
  | I_IsString _ r | I_IsKeyword _ r | I_IsSymbolCheck _ r | I_IsBytes _ r | I_IsBox _ r
  | I_IsClosure _ r | I_IsFiber _ r | I_TypeOf _ r | I_Length _ r | I_Pop _ r | I_Freeze _ r _
  | I_Thaw _ r _ => [r]
  | I_MakeClosure _ _ captures _ => captures
  | I_Call _ func args _ _ | I_SuspendingCall _ func args _ _
  | I_TailCall _ func args _ _ _ _ _ => func :: args
  | I_List _ head tail _ => [head; tail]
  | I_MakeArrayMut _ regs _ | I_FreeRegionGroup regs | I_PushParamFrame regs => regs
  | I_BinOp _ _ lhs rhs _ | I_Compare _ _ lhs rhs _ | I_Identical _ lhs rhs => [lhs; rhs]
  | I_StoreCaptureCell cell value => [cell; value]
  | I_Eval _ expr env => [expr; env]
  | I_ArrayMutExtend _ array source => [array; source]
  | I_ArrayMutPush _ array value | I_IntrPush _ array value => [array; value]
  | I_CallArrayMut _ func args _ _ | I_TailCallArrayMut func args _ _ => [func; args]
  | I_AdoptRegion parent child | I_AdoptCellRegion parent child => [parent; child]
  | I_Get _ obj key | I_Del _ obj key | I_Has _ obj key => [obj; key]
  | I_Put _ obj key val => [obj; key; val]
  | I_IntrStringPush _ str value => [str; value]
  | I_IntrBytesPush _ bytes value => [bytes; value]
  end.

(** ** Slices and prefixes *)

Lemma slice_app_at {A} (l ws r : list A) (at_ k m : nat) :
  at_ = length l -> (k + m <= length ws)%nat ->
  slice (l ++ ws ++ r) (at_ + k) m = Some (take m (drop k ws)).
Proof.
  intros -> Hk. unfold slice. rewrite decide_True by (rewrite !length_app; lia).
  by rewrite <- drop_drop, drop_app_length, drop_app_le, take_app_le
    by (rewrite ?length_drop; lia).
Qed.

Lemma slice_all {A} (l ws r : list A) (at_ m : nat) :
  at_ = length l -> m = length ws -> slice (l ++ ws ++ r) at_ m = Some ws.
Proof.
  intros Hat ->. rewrite <- (Nat.add_0_r at_), (slice_app_at _ _ _ _ 0) by (done || lia).
  by rewrite drop_0, take_ge.
Qed.

(** [p] extends the tables [t]: every entry of [t] is where it was. *)
Record extends (t : Tables) (p : Parts) : Prop := mk_extends {
  ext_pool : pool t `prefix_of` p_pool p;
  ext_consts : consts t `prefix_of` p_consts p;
  ext_data : data t `prefix_of` p_data p;
  ext_values : values t `prefix_of` p_values p;
  ext_files : files t `prefix_of` p_files p }.

Definition grows (t t' : Tables) : Prop := extends t (tables_parts t').

#[export] Instance grows_preorder : PreOrder grows.
Proof.
  split.
  - by intros t; split.
  - intros t1 t2 t3 [????? ] [?????]. split; cbn in *; by etrans.
Qed.

Lemma grows_extends t t' p : grows t t' -> extends t' p -> extends t p.
Proof. intros [?????] [?????]. split; cbn in *; by etrans. Qed.

(** No table holds as many entries as a [u32] counts. *)
Record tables_fit (t : Tables) : Prop := mk_fit {
  fit_pool : N.of_nat (length (pool t)) < 2 ^ 32;
  fit_consts : N.of_nat (length (consts t)) < 2 ^ 32;
  fit_data : N.of_nat (length (data t)) < 2 ^ 32;
  fit_values : N.of_nat (length (values t)) < 2 ^ 32;
  fit_files : N.of_nat (length (files t)) < 2 ^ 32 }.

Lemma tables_fit_grows t t' : grows t t' -> tables_fit t' -> tables_fit t.
Proof.
  intros [?%prefix_length ?%prefix_length ?%prefix_length ?%prefix_length ?%prefix_length]
    [?????]; split; cbn in *; lia.
Qed.

(** The dedup map is the inverse of the value table. *)
Definition ix_ok (t : Tables) : Prop :=
  forall k ix, value_ix t !! k = Some ix <->
    exists v, values t !! N.to_nat ix = Some v /\ value_key v = k.

(** The fields a node narrows are in the range of their Rust types. *)
Definition instr_typed (i : InstrRef) : Prop :=
  match i with
  | I_Const _ c | I_StructGetOrNil _ _ c | I_StructGetDestructure _ _ c => const_typed c
  | I_LoadLocal _ x | I_StoreLocal x _ | I_StoreLocalRefcounted x _ | I_LoadCapture _ x
  | I_LoadCaptureRaw _ x | I_StoreCapture x _ | I_ArrayMutRefDestructure _ _ x
  | I_ArrayMutSliceFrom _ _ x | I_ArrayMutRefOrNil _ _ x => x < 2 ^ 16
  | _ => True
  end.

(** A borrowed run a Rust slice can hold is no longer than the pool, the data
    or the constants it is copied to; its length word is a [u32]. *)
Definition span_typed (s : Span) : Prop := sp_start s < 2 ^ 32 /\ sp_end s < 2 ^ 32.

Lemma value_key_inj v w : value_key v = value_key w -> v = w.
Proof. destruct v, w. unfold value_key. cbn. by intros [= -> ->]. Qed.

(** ** The tables only grow *)

Lemma push_const_grows t c t' ix : push_const t c = (t', ix) -> grows t t'.
Proof. intros [= <- _]. split; cbn; try done. by apply prefix_app_r. Qed.

Lemma value_grows t v t' ix : value_ t v = (t', ix) -> grows t t'.
Proof.
  unfold value_. destruct (value_ix t !! _); intros [= <- _]; [done|].
  split; cbn; try done. by apply prefix_app_r.
Qed.

Lemma file_grows t s t' ix : file_ t s = (t', ix) -> grows t t'.
Proof.
  unfold file_. destruct (negb _); [by intros [= <- _]|].
  destruct (list_find _ _) as [[??]|]; intros [= <- _]; [done|].
  split; cbn; try done. by apply prefix_app_r.
Qed.

(** What an instruction's arm leaves alone: the pool, the files, the refusal. *)
Record arm_frame (t t' : Tables) : Prop := mk_arm_frame {
  af_pool : pool t' = pool t;
  af_files : files t' = files t;
  af_refused : refused t' = refused t;
  af_grows : grows t t' }.

Lemma arm_frame_refl t : arm_frame t t.
Proof. by split. Qed.

Lemma arm_frame_push_const t c : arm_frame t (push_const t c).1.
Proof. by split; try done; eapply push_const_grows, surjective_pairing. Qed.

Lemma arm_frame_value t v : arm_frame t (value_ t v).1.
Proof.
  split; try (unfold value_; by destruct (value_ix t !! _)).
  eapply value_grows, surjective_pairing.
Qed.

Lemma arm_frame_data t l : arm_frame t (set_data t (data t ++ l)).
Proof. split; try done. split; cbn; try done. by apply prefix_app_r. Qed.

Lemma arm_frame_consts t l : arm_frame t (set_consts t (consts t ++ l)).
Proof. split; try done. split; cbn; try done. by apply prefix_app_r. Qed.

#[export] Hint Resolve arm_frame_refl arm_frame_push_const arm_frame_value arm_frame_data
  arm_frame_consts : elle.

Lemma operands_frame t i us ws d aux fl t' :
  operands t i = (us, ws, d, aux, fl, t') -> arm_frame t t'.
Proof.
  intros H.
  assert (Hf : arm_frame t ((operands t i).2)).
  { destruct i; cbn; auto with elle.
    pose proof (arm_frame_value t value) as Hv. by destruct (value_ t value). }
  by rewrite H in Hf.
Qed.

Lemma operands_uses t i us ws d aux fl t' :
  operands t i = (us, ws, d, aux, fl, t') -> us = expected_uses i.
Proof.
  intros H.
  assert (Hu : ((((operands t i).1).1).1).1.1 = expected_uses i).
  { destruct i; try reflexivity; cbn.
    by destruct (value_ t value). }
  by rewrite H in Hu.
Qed.

Lemma operands_dst t i us ws d aux fl t' :
  operands t i = (us, ws, d, aux, fl, t') ->
  d = match i with I_TailCall dst _ _ _ _ _ _ _ => Some dst | _ => expected_def i end.
Proof.
  intros H.
  assert (Hu : (((operands t i).1).1).1.2
               = match i with I_TailCall dst _ _ _ _ _ _ _ => Some dst | _ => expected_def i end).
  { destruct i; try reflexivity; cbn.
    by destruct (value_ t value). }
  by rewrite H in Hu.
Qed.

(** ** The value table *)

Lemma value_ok t v t' ix :
  ix_ok t -> value_ t v = (t', ix) -> tables_fit t' ->
  values t' !! N.to_nat ix = Some v /\ ix_ok t'.
Proof.
  intros Hok Hv Hfit. unfold value_ in Hv.
  destruct (value_ix t !! value_key v) as [ix'|] eqn:Hix; injection Hv as <- <-.
  - apply Hok in Hix as Hx. destruct Hx as (w & Hw & ->%value_key_inj). done.
  - destruct Hfit as [_ _ _ Hfit _]. cbn in Hfit. rewrite length_app in Hfit. cbn in Hfit.
    assert (Hlen : as_u32 (N.of_nat (length (values t ++ [v]) - 1)) = N.of_nat (length (values t))).
    { rewrite as_u32_small; rewrite length_app; cbn; lia. }
    cbn [values value_ix]. rewrite Hlen, Nat2N.id. split.
    { rewrite lookup_app_r, Nat.sub_diag by lia. done. }
    intros k ix. cbn [value_ix values]. rewrite lookup_insert_Some. split.
    + intros [[<- <-]|[Hne Hk]].
      * exists v. split; [|done]. by rewrite Nat2N.id, lookup_app_r, Nat.sub_diag by lia.
      * apply Hok in Hk as (w & Hw & Hkw). exists w. split; [|done].
        by rewrite lookup_app_l by (by eapply lookup_lt_Some).
    + intros (w & Hw & Hkw). apply lookup_app_Some in Hw as [Hw|[Hle Hw]].
      * right. split; [|apply Hok; eauto]. intros Hk.
        enough (value_ix t !! value_key v = Some ix) by congruence.
        apply Hok. exists w. by rewrite Hkw.
      * left. apply list_lookup_singleton_Some in Hw as [Hz <-]. split; [done|lia].
Qed.

Lemma ix_ok_ext t t' :
  values t' = values t -> value_ix t' = value_ix t -> ix_ok t -> ix_ok t'.
Proof. intros Hv Hx Hok k ix. by rewrite Hv, Hx. Qed.

(** The map is determined by the table it indexes. *)
Lemma ix_ok_unique t t' :
  ix_ok t -> ix_ok t' -> values t = values t' -> value_ix t = value_ix t'.
Proof.
  intros H1 H2 Hv. apply map_eq. intros k. apply option_eq. intros ix.
  by rewrite (H1 k ix), (H2 k ix), Hv.
Qed.

Lemma operands_ix_ok t i us ws d aux fl t' :
  ix_ok t -> operands t i = (us, ws, d, aux, fl, t') -> tables_fit t' -> ix_ok t'.
Proof.
  intros Hok H Hfit.
  destruct i; cbn in H; try (simplify_eq; exact Hok).
  destruct (value_ t value) as [t1 ix1] eqn:Hv. simplify_eq. by eapply value_ok.
Qed.

(** ** Decoding a node *)

(** The fields [encode::node] gave the node, and how its pool run reads
    against [p]. *)
Record reads (p : Parts) (n : Node) (i : InstrRef) (us ws : list N) (d : option Reg)
    (aux fl : N) : Prop := mk_reads {
  rd_op : n_op n = op_byte (op_of i);
  rd_dst : n_dst n = default NO_REG d;
  rd_region : n_region n = from_option StaticRegion_get 0 (region i);
  rd_aux : n_aux n = aux;
  rd_flags : n_flags n = fl;
  rd_uses : uses n p = Some us;
  rd_words : forall k m, (k + m <= length ws)%nat ->
    slice (p_pool p) (scalars_at n + k) m = Some (take m (drop k ws));
  rd_words_fit : N.of_nat (length ws) < 2 ^ 32 }.

Lemma slice_one {A} (l : list A) (at_ : nat) x : slice l at_ 1 = Some [x] -> l !! at_ = Some x.
Proof.
  unfold slice. case_decide as Hd; [|done]. intros [= H].
  rewrite <- (Nat.add_0_r at_), <- lookup_drop. destruct (drop at_ l) as [|y l']; [done|].
  cbn in H |- *. by simplify_eq.
Qed.

Lemma rd_word p n i us ws d aux fl k x :
  reads p n i us ws d aux fl -> ws !! k = Some x -> p_pool p !! (scalars_at n + k)%nat = Some x.
Proof.
  intros Hr Hk. apply slice_one. pose proof (lookup_lt_Some _ _ _ Hk) as Hlt.
  rewrite (rd_words _ _ _ _ _ _ _ _ Hr) by lia. by rewrite (drop_S _ x) by done.
Qed.

Lemma rd_word0 p n i us x ws d aux fl :
  reads p n i us (x :: ws) d aux fl -> p_pool p !! scalars_at n = Some x.
Proof.
  intros Hr. rewrite <- (Nat.add_0_r (scalars_at n)). by eapply (rd_word _ _ _ _ _ _ _ _ 0).
Qed.

Lemma pushed_const_reads t c p :
  tables_fit (push_const t c).1 -> extends (push_const t c).1 p ->
  p_consts p !! N.to_nat (push_const t c).2 = Some c.
Proof.
  intros [_ Hfit _ _ _] [_ He _ _ _]. cbn in *. rewrite length_app in *. cbn in *.
  rewrite as_u32_small by lia. eapply prefix_lookup_Some; [|done].
  rewrite lookup_app_r by lia. by replace (_ - _)%nat with 0%nat by lia.
Qed.

(** A run appended to a table is read back by its start and its length. *)
Lemma appended_run_reads {A} (l run q : list A) :
  (l ++ run) `prefix_of` q -> N.of_nat (length (l ++ run)) < 2 ^ 32 ->
  slice q (N.to_nat (len_u32 l)) (N.to_nat (len_u32 run)) = Some run.
Proof.
  intros [r ->] Hfit. rewrite length_app in Hfit.
  rewrite !len_u32_small by lia. rewrite <- app_assoc. by apply slice_all.
Qed.

(** [operands] of a variant whose constant is pushed. *)
Ltac pushed_const Hext Hfit :=
  match goal with
  | |- context [p_consts ?p !! N.to_nat (as_u32 (N.of_nat (length (consts ?t ++ [?c]) - 1)))] =>
    let H := fresh in
    pose proof (pushed_const_reads t c p Hfit Hext) as H; cbn [push_const fst snd] in H;
    rewrite H; clear H
  end.

(** The instruction [encode::node] encoded is the one [decode::instr] reads,
    whatever the tables grew to since. *)
Lemma instr_reads t i us ws d aux fl t' p n :
  operands t i = (us, ws, d, aux, fl, t') -> reads p n i us ws d aux fl ->
  instr_typed i -> ix_ok t -> tables_fit t' -> extends t' p -> instr n p = Some i.
Proof.
  intros Ho Hr Hty Hix Hfit Hext.
  unfold instr. rewrite (rd_op _ _ _ _ _ _ _ _ Hr), from_byte_op_byte. cbn [mbind option_bind].
  rewrite (rd_uses _ _ _ _ _ _ _ _ Hr). cbn [mbind option_bind].
  unfold region_of, sub, proof_of, has_flag.
  rewrite (rd_dst _ _ _ _ _ _ _ _ Hr), (rd_region _ _ _ _ _ _ _ _ Hr), (rd_aux _ _ _ _ _ _ _ _ Hr),
    (rd_flags _ _ _ _ _ _ _ _ Hr).
  destruct i; cbn [operands push_const] in Ho; cbn [op_of LirInstr.region from_option instr_typed] in *;
    try (injection Ho as <- <- <- <- <- <-; reflexivity).
  all: try (injection Ho as <- <- <- <- <- <-; cbn; by rewrite as_u16_id).
  all: try (injection Ho as <- <- <- <- <- <-; pushed_const Hext Hfit; cbn [mbind option_bind];
            rewrite const_of_immediate by done; reflexivity).
  all: try (injection Ho as <- <- <- <- <- <-; pushed_const Hext Hfit;
            repeat match goal with b : bool |- _ => destruct b | b : SignalBits |- _ => destruct b end;
            reflexivity).
  all: try (injection Ho as <- <- <- <- <- <-;
            repeat match goal with
              b : bool |- _ => destruct b | b : BinOp |- _ => destruct b
              | b : UnaryOp |- _ => destruct b | b : CmpOp |- _ => destruct b
              | b : ConvOp |- _ => destruct b | b : OperandProof |- _ => destruct b end;
            reflexivity).
  - (* ValueConst *)
    destruct (value_ t value) as [t1 ix] eqn:Hv. injection Ho as <- <- <- <- <- <-.
    destruct (value_ok _ _ _ _ Hix Hv Hfit) as [Hlook _]. cbn [mbind option_bind].
    erewrite prefix_lookup_Some by eauto using ext_values. reflexivity.
  - (* MaterializeConst *)
    injection Ho as <- <- <- <- <- <-. rewrite (rd_word0 _ _ _ _ _ _ _ _ _ Hr).
    cbn [mbind option_bind].
    erewrite appended_run_reads; [reflexivity|apply (ext_data _ _ Hext)|apply (fit_data _ Hfit)].
  - (* TailCall *)
    injection Ho as <- <- <- <- <- <-.
    erewrite (rd_word _ _ _ _ _ _ _ _ 1) by (exact Hr || reflexivity).
    rewrite (rd_word0 _ _ _ _ _ _ _ _ _ Hr).
    pose proof (rd_words_fit _ _ _ _ _ _ _ _ Hr) as Hlen. cbn [length] in Hlen.
    cbn [mbind option_bind]. rewrite len_u32_small by lia.
    rewrite (rd_words _ _ _ _ _ _ _ _ Hr 2) by (cbn [length]; lia).
    rewrite skipn_cons, skipn_cons, drop_0, take_ge by done.
    destruct arity_checked, defer_callee_release, deferred_release_slot; reflexivity.
  - (* StructRest *)
    injection Ho as <- <- <- <- <- <-. rewrite (rd_word0 _ _ _ _ _ _ _ _ _ Hr).
    cbn [mbind option_bind lookup list_lookup].
    erewrite appended_run_reads; [reflexivity|apply (ext_consts _ _ Hext)|apply (fit_consts _ Hfit)].
Qed.

(** ** A node, its span and its registers *)

Lemma file_reads t s t' f p :
  file_ t s = (t', f) -> tables_fit t' -> span_typed s -> extends t' p ->
  parts_span p (sp_start s) (sp_end s) (sp_line s) (sp_col s) f = Some s.
Proof.
  intros Hf Hfit [Hs He] Hext. unfold parts_span, Span_new. rewrite !as_u32_small by done.
  assert (Hat : forall k, files t' !! k = Some (sp_file s) -> f = N.of_nat k + 1 ->
    (if f =? NO_FILE then Some (mkSpan (sp_start s) (sp_end s) (sp_line s) (sp_col s) FileId_NONE)
     else id ← p_files p !! N.to_nat (f - 1);
          Some (set_file_id (mkSpan (sp_start s) (sp_end s) (sp_line s) (sp_col s) FileId_NONE) id))
    = Some s).
  { intros k Hk ->. destruct (N.eqb_spec (N.of_nat k + 1) NO_FILE) as [Hz|_]; [unfold NO_FILE in Hz; lia|].
    replace (N.to_nat (N.of_nat k + 1 - 1)) with k by lia.
    erewrite prefix_lookup_Some by eauto using ext_files. by destruct s. }
  unfold file_ in Hf. unfold FileId_is_some in Hf.
  destruct (N.eqb_spec (sp_file s) FileId_NONE) as [Hn|Hn]; cbn in Hf.
  { injection Hf as <- <-. destruct s. cbn in *. by subst. }
  destruct (list_find (eq (sp_file s)) (files t)) as [[ix y]|] eqn:Hfind.
  - injection Hf as <- <-. apply list_find_Some in Hfind as (Hix & <- & _).
    apply (Hat ix); [done|].
    apply lookup_lt_Some in Hix. pose proof (fit_files _ Hfit). by rewrite (as_u32_small (N.of_nat ix)), as_u32_small by lia.
  - injection Hf as <- <-. apply (Hat (length (files t))).
    + cbn. by rewrite lookup_app_r, Nat.sub_diag by lia.
    + pose proof (fit_files _ Hfit) as Hl. cbn in Hl. unfold len_u32.
      rewrite as_u32_small, length_app by done. cbn. lia.
Qed.

Lemma file_frame t s t' f :
  file_ t s = (t', f) ->
  pool t' = pool t /\ consts t' = consts t /\ data t' = data t /\ values t' = values t /\
  value_ix t' = value_ix t /\ refused t' = refused t /\
  (length (files t') <= S (length (files t)))%nat.
Proof.
  unfold file_. destruct (negb _); [intros [= <- _]; split_and!; auto with lia|].
  destruct (list_find _ _) as [[??]|]; intros [= <- _]; cbn; split_and!; auto with lia.
  rewrite length_app. cbn. lia.
Qed.

(** The refusal [encode::node] records for an instruction of [n] registers. *)
Definition refuse (n : N) (r : option N) : option N :=
  if n <? 2 ^ 16 then r else Some (default n r).

(** The stages of [encode::node], named: the arm's tables, the run in the
    pool, the file. *)
Lemma node_stages t i s n t' :
  node t i s = (n, t') ->
  exists us ws d aux fl t1 t2,
    operands t i = (us, ws, d, aux, fl, t1) /\
    pool t2 = pool t ++ (if 2 <? N.of_nat (length us) then us else []) ++ ws /\
    consts t2 = consts t1 /\ data t2 = data t1 /\ values t2 = values t1 /\
    value_ix t2 = value_ix t1 /\ files t2 = files t /\
    refused t2 = refuse (N.of_nat (length us)) (refused t) /\
    file_ t2 s = (t', n_file n) /\
    n = mkNode (sp_start s) (sp_end s) (sp_line s) (sp_col s) (n_file n)
          (default NO_REG d) (from_option StaticRegion_get 0 (region i)) aux
          (default NO_REG (us !! 0%nat)) (default NO_REG (us !! 1%nat)) (len_u32 (pool t))
          (if N.of_nat (length us) <? 2 ^ 16 then N.of_nat (length us) else 2 ^ 16 - 1)
          (op_byte (op_of i)) fl.
Proof.
  unfold node. destruct (operands t i) as [[[[[us ws] d] aux] fl] t1] eqn:Ho.
  destruct (operands_frame _ _ _ _ _ _ _ _ Ho) as [Hp Hf Hr Hg].
  intros H. exists us, ws, d, aux, fl, t1.
  unfold refuse. rewrite <- Hp, <- Hf, <- Hr.
  destruct (_ <? 2 ^ 16); cbn beta iota zeta in H;
    (match type of H with context [file_ ?tt s] => exists tt; destruct (file_ tt s) as [t3 f] eqn:Hfile end);
    injection H as <- <-; destruct (2 <? _); cbn [n_file]; split_and!;
    cbn; rewrite <- ?app_assoc; try reflexivity; assumption.
Qed.

Lemma pool_run_reads (l us ws r : list N) (nu : N) n p (big : bool) :
  nu = N.of_nat (length us) -> big = (2 <? nu) ->
  N.of_nat (length (l ++ (if big then us else []) ++ ws)) < 2 ^ 32 ->
  n_uses n = nu -> n_extra n = len_u32 l ->
  n_use0 n = default NO_REG (us !! 0%nat) -> n_use1 n = default NO_REG (us !! 1%nat) ->
  p_pool p = l ++ (if big then us else []) ++ ws ++ r ->
  uses n p = Some us /\
  forall k m, (k + m <= length ws)%nat ->
    slice (p_pool p) (scalars_at n + k) m = Some (take m (drop k ws)).
Proof.
  intros Hnu -> Hfit Hn Hx H0 H1 Hp. rewrite !length_app in Hfit.
  unfold uses, scalars_at. rewrite Hn, Hx, H0, H1, Hnu, Nat2N.id, len_u32_small by lia.
  rewrite Hp, Hnu. destruct (N.ltb_spec 2 (N.of_nat (length us))) as [Hb|Hb].
  - rewrite decide_False, decide_True by lia. split; [by apply slice_all|].
    intros k m Hk. rewrite app_assoc. apply slice_app_at; [|done]. by rewrite length_app.
  - rewrite decide_True, decide_False by lia. split.
    + destruct us as [|a [|b [|? ?]]]; cbn in *; try done; lia.
    + intros k m Hk. cbn [app]. apply slice_app_at; [lia|done].
Qed.

Lemma refuse_none n r : refuse n r = None -> r = None /\ (n <? 2 ^ 16) = true.
Proof. unfold refuse. by destruct (n <? 2 ^ 16). Qed.

Lemma node_grows t i s n t' : node t i s = (n, t') -> grows t t'.
Proof.
  intros H. destruct (node_stages _ _ _ _ _ H)
    as (us & ws & d & aux & fl & t1 & t2 & Ho & Hp & Hc & Hd & Hv & _ & Hfs & _ & Hf & _).
  transitivity t2; [|by eapply file_grows].
  destruct (operands_frame _ _ _ _ _ _ _ _ Ho) as [_ _ _ [? ? ? ? ?]].
  split; cbn in *; rewrite ?Hp, ?Hc, ?Hd, ?Hv, ?Hfs; try done. by apply prefix_app_r.
Qed.

Lemma node_refused t i s n t' :
  node t i s = (n, t') ->
  refused t' = refuse (N.of_nat (length (expected_uses i))) (refused t).
Proof.
  intros H. destruct (node_stages _ _ _ _ _ H)
    as (us & ws & d & aux & fl & t1 & t2 & Ho & _ & _ & _ & _ & _ & _ & Hr & Hf & _).
  destruct (file_frame _ _ _ _ Hf) as (_ & _ & _ & _ & _ & -> & _).
  by rewrite <- (operands_uses _ _ _ _ _ _ _ _ Ho).
Qed.

Lemma node_ix_ok t i s n t' :
  node t i s = (n, t') -> ix_ok t -> tables_fit t' -> ix_ok t'.
Proof.
  intros H Hok Hfit. destruct (node_stages _ _ _ _ _ H)
    as (us & ws & d & aux & fl & t1 & t2 & Ho & Hp & Hc & Hd & Hv & Hx & Hfs & _ & Hf & _).
  destruct (file_frame _ _ _ _ Hf) as (Hp' & Hc' & Hd' & Hv' & Hx' & _ & _).
  destruct (operands_frame _ _ _ _ _ _ _ _ Ho) as [Hp1 Hf1 _ _].
  apply (ix_ok_ext t1); [congruence|congruence|].
  eapply operands_ix_ok; [exact Hok|exact Ho|]. destruct Hfit as [F1 F2 F3 F4 F5].
  pose proof (prefix_length _ _ (ext_files _ _ (file_grows _ _ _ _ Hf))) as Hl.
  rewrite Hp', Hp, !length_app in F1. cbn in Hl. rewrite Hfs in Hl.
  split; [rewrite Hp1|rewrite <- Hc, <- Hc'|rewrite <- Hd, <- Hd'|rewrite <- Hv, <- Hv'|rewrite Hf1];
    lia.
Qed.

(** What every later reader answers for a node: the instruction, the
    registers, the span. *)
Record node_answers (p : Parts) (n : Node) (i : InstrRef) (s : Span) : Prop := mk_answers {
  ans_instr : instr n p = Some i;
  ans_uses : uses n p = Some (expected_uses i);
  ans_span : parts_span p (n_start n) (n_end n) (n_line n) (n_col n) (n_file n) = Some s;
  ans_op : n_op n = op_byte (op_of i);
  ans_region : n_region n = from_option StaticRegion_get 0 (region i);
  ans_dst : n_dst n
    = default NO_REG
        (match i with I_TailCall dst _ _ _ _ _ _ _ => Some dst | _ => expected_def i end) }.

Lemma node_reads t i s n t' p :
  node t i s = (n, t') -> instr_typed i -> span_typed s -> ix_ok t ->
  tables_fit t' -> refused t' = None -> extends t' p -> node_answers p n i s.
Proof.
  intros H Hty Hsp Hok Hfit Hnone Hext. destruct (node_stages _ _ _ _ _ H)
    as (us & ws & d & aux & fl & t1 & t2 & Ho & Hp & Hc & Hd & Hv & Hx & Hfs & Hr & Hf & Hn).
  destruct (file_frame _ _ _ _ Hf) as (Hp' & Hc' & Hd' & Hv' & Hx' & Hr' & _).
  rewrite Hr', Hr in Hnone. apply refuse_none in Hnone as [_ Hlt].
  destruct (operands_frame _ _ _ _ _ _ _ _ Ho) as [Hp1 Hf1 _ _].
  assert (Hg2 : grows t2 t') by (by eapply file_grows).
  assert (Hfit2 : tables_fit t2) by (by eapply tables_fit_grows).
  assert (Hext2 : extends t2 p) by (by eapply grows_extends).
  destruct (ext_pool _ _ Hext2) as [r Hpool]. rewrite Hp, <- !app_assoc in Hpool.
  pose proof (fit_pool _ Hfit2) as Hlen. rewrite Hp in Hlen.
  destruct (pool_run_reads (pool t) us ws r (N.of_nat (length us)) n p _ eq_refl eq_refl Hlen)
    as [Hu Hw]; try (rewrite Hn; cbn [n_uses]; rewrite ?Hlt; done); [exact Hpool|].
  assert (Hrd : reads p n i us ws d aux fl).
  { split; try (by rewrite Hn); try done. rewrite !length_app in Hlen. lia. }
  split; try (by rewrite Hn).
  - eapply instr_reads; try done.
    + destruct Hfit2. split; rewrite ?Hp1, ?Hf1; try congruence.
      rewrite !length_app in Hlen. lia.
    + destruct Hext2. split; rewrite ?Hp1, ?Hf1; try congruence. by eexists.
  - by rewrite Hu, (operands_uses _ _ _ _ _ _ _ _ Ho).
  - rewrite Hn. cbn [n_start n_end n_line n_col]. by eapply file_reads.
  - rewrite Hn. cbn [n_dst]. by rewrite (operands_dst _ _ _ _ _ _ _ _ Ho).
Qed.

(** ** A block record, its terminator and its span *)

Record exit_answers (p : Parts) (r : BlockRec) (l : Label) (e : Terminator) (s : Span) : Prop :=
  mk_exit_answers {
  xa_label : b_label r = l;
  xa_term : terminator r p = Some e;
  xa_span : parts_span p (b_start r) (b_end r) (b_line r) (b_col r) (b_file r) = Some s }.

(** The tables after the terminator's own constant, before its file. *)
Definition exit_const (t : Tables) (e : Terminator) : Tables :=
  match e with Emit signal _ _ => (push_const t (const_bits (raw signal))).1 | _ => t end.

Lemma exit_file t l e s r t' :
  exit t l e s = (r, t') -> file_ (exit_const t e) s = (t', b_file r).
Proof.
  intros H. unfold exit, push_const in H. destruct e; cbn beta iota zeta in H;
    (match type of H with context [file_ ?tt s] => destruct (file_ tt s) as [t3 f] eqn:Hf end);
    injection H as <- <-; exact Hf.
Qed.

Lemma exit_const_grows t e : grows t (exit_const t e).
Proof. destruct e; try done. eapply push_const_grows, surjective_pairing. Qed.

Lemma exit_grows t l e s r t' : exit t l e s = (r, t') -> grows t t'.
Proof.
  intros Hf%exit_file. transitivity (exit_const t e); [apply exit_const_grows|].
  by eapply file_grows.
Qed.

Lemma exit_reads t l e s r t' p :
  exit t l e s = (r, t') -> span_typed s -> tables_fit t' -> extends t' p ->
  exit_answers p r l e s.
Proof.
  intros H Hsp Hfit Hext. pose proof (exit_file _ _ _ _ _ _ H) as Hf.
  assert (Hg : grows (exit_const t e) t') by (by eapply file_grows).
  pose proof (tables_fit_grows _ _ Hg Hfit) as Hfit1.
  pose proof (grows_extends _ _ _ Hg Hext) as Hext1.
  pose proof (file_reads _ _ _ _ _ Hf Hfit Hsp Hext) as Hspan.
  unfold exit, push_const in H. destruct e; cbn beta iota zeta in H;
    (match type of H with context [file_ ?tt s] => destruct (file_ tt s) as [t3 f] eqn:Hfile end);
    injection H as <- <-; split; cbn in *; try done.
  unfold terminator. cbn. pose proof (pushed_const_reads t _ p Hfit1 Hext1) as Hc.
  cbn in Hc. rewrite Hc. by destruct signal.
Qed.

Lemma exit_keeps t l e s r t' :
  exit t l e s = (r, t') ->
  values t' = values t /\ value_ix t' = value_ix t /\ refused t' = refused t.
Proof.
  intros Hf%exit_file. destruct (file_frame _ _ _ _ Hf) as (_ & _ & _ & -> & -> & -> & _).
  by destruct e.
Qed.

(** ** How far one encoding can grow a table *)

Definition table_size (t : Tables) : nat :=
  max (max (length (pool t)) (length (consts t)))
    (max (max (length (data t)) (length (values t))) (length (files t))).

Lemma table_size_fits t : N.of_nat (table_size t) < 2 ^ 32 -> tables_fit t.
Proof. unfold table_size. intros H. split; lia. Qed.

(** The run an instruction borrows beside its registers. *)
Definition run_length (i : InstrRef) : nat :=
  match i with
  | I_MaterializeConst _ template _ => length template
  | I_TailCall _ _ _ _ _ _ _ slots => length slots
  | I_StructRest _ _ keys => length keys
  | _ => 0
  end.

Definition instr_weight (i : InstrRef) : nat := length (expected_uses i) + run_length i + 2.

Lemma operands_sizes t i us ws d aux fl t' :
  operands t i = (us, ws, d, aux, fl, t') ->
  (length ws <= run_length i + 2 /\
   length (consts t') <= length (consts t) + run_length i + 1 /\
   length (data t') <= length (data t) + run_length i /\
   length (values t') <= length (values t) + 1)%nat.
Proof.
  intros H.
  destruct i; cbn in H; try (injection H as <- <- <- <- <- <-; cbn; rewrite ?length_app; cbn; lia).
  destruct (value_ t value) as [t1 ix] eqn:Hv. injection H as <- <- <- <- <- <-.
  unfold value_ in Hv. destruct (value_ix t !! _); injection Hv as <- _; cbn;
    rewrite ?length_app; cbn; lia.
Qed.

Lemma node_size t i s n t' :
  node t i s = (n, t') -> (table_size t' <= table_size t + instr_weight i)%nat.
Proof.
  intros H. destruct (node_stages _ _ _ _ _ H)
    as (us & ws & d & aux & fl & t1 & t2 & Ho & Hp & Hc & Hd & Hv & Hx & Hfs & Hr & Hf & _).
  destruct (file_frame _ _ _ _ Hf) as (Hp' & Hc' & Hd' & Hv' & _ & _ & Hl).
  pose proof (operands_sizes _ _ _ _ _ _ _ _ Ho) as (W & C & D & V).
  unfold table_size, instr_weight. rewrite Hp', Hp, Hc', Hc, Hd', Hd, Hv', Hv, !length_app.
  rewrite <- (operands_uses _ _ _ _ _ _ _ _ Ho). rewrite Hfs in Hl.
  assert ((length (if (2 <? N.of_nat (length us))%N then us else []) <= length us)%nat)
    by (destruct (_ <? _); cbn; lia).
  lia.
Qed.

Lemma exit_size t l e s r t' :
  exit t l e s = (r, t') -> (table_size t' <= table_size t + 1)%nat.
Proof.
  intros Hf%exit_file. destruct (file_frame _ _ _ _ Hf) as (Hp & Hc & Hd & Hv & _ & _ & Hl).
  unfold table_size. rewrite Hp, Hc, Hd, Hv. revert Hl.
  destruct e; cbn; rewrite ?length_app; cbn; lia.
Qed.

(** ** Retracting what an emission added *)

Lemma foldl_delete_lookup (ds : list Value) (m : gmap (N * N) N) k :
  foldl (fun ix v => delete (value_key v) ix) m ds !! k
  = if decide (k ∈ map value_key ds) then None else m !! k.
Proof.
  revert m. induction ds as [|v ds IH]; intros m; cbn; [done|]. rewrite IH.
  destruct (decide (k = value_key v)) as [->|Hne].
  - rewrite lookup_delete_eq. rewrite (decide_True _ _ (P := _ ∈ _ :: _)) by set_solver.
    by case_decide.
  - rewrite lookup_delete_ne by done.
    by repeat case_decide; try done; set_solver.
Qed.

(** Truncating the grown tables to the mark gives the marked tables back; a
    refusal recorded since stays. *)
Lemma retract_undoes t t' :
  grows t t' -> ix_ok t -> ix_ok t' ->
  tables_retract t' (tables_mark t) = Some (set_refused t (refused t')).
Proof.
  intros [[p Hp] [c Hc] [d Hd] [v Hv] [f Hf]] Hok Hok'. cbn in *.
  unfold tables_retract, tables_mark. cbn.
  rewrite decide_True by (rewrite Hv, length_app; lia).
  rewrite Hp, Hc, Hd, Hv, Hf, !take_app_length, drop_app_length.
  unfold set_refused. do 2 f_equal.
  apply map_eq. intros k. rewrite foldl_delete_lookup. case_decide as Hk.
  - apply list_elem_of_fmap in Hk as (w & -> & [j Hj]%list_elem_of_lookup).
    destruct (value_ix t !! value_key w) as [ix|] eqn:Hix; [|done].
    apply Hok in Hix as (u & Hu & Hku).
    assert (H1 : value_ix t' !! value_key w = Some ix).
    { apply Hok'. exists u. split; [|done]. rewrite Hv.
      by rewrite lookup_app_l by (by eapply lookup_lt_Some). }
    assert (H2 : value_ix t' !! value_key w = Some (N.of_nat (length (values t) + j))).
    { apply Hok'. exists w. split; [|done]. rewrite Hv, Nat2N.id, lookup_app_r by lia.
      by replace (_ - _)%nat with j by lia. }
    apply lookup_lt_Some in Hu. simplify_eq. lia.
  - apply option_eq. intros ix. rewrite (Hok' k ix), (Hok k ix). split.
    + intros (w & Hw & Hkw). exists w. split; [|done].
      rewrite Hv, lookup_app_Some in Hw. destruct Hw as [Hw|[_ Hw]]; [done|].
      destruct Hk. apply list_elem_of_fmap. exists w. split; [done|].
      by eapply list_elem_of_lookup_2.
    + intros (w & Hw & Hkw). exists w. split; [|done]. rewrite Hv.
      by rewrite lookup_app_l by (by eapply lookup_lt_Some).
Qed.
