(* ===== verification/LirBuild.v ===== *)
(** * Building and freezing a function

    [lir/build/mod.rs]: the builder, its stack of functions under
    construction, the blocks, the marks and the splices.  [lir/build/head.rs]:
    the header the lowerer writes.  [lir/build/freeze.rs]: the frozen function.
    [lir/code/owned.rs]: [LirCode], [LirOwned] and the emission sites.

    A failed [expect], [assert!] or slice bound panics and is [None].  The
    working region the tables grow in, the scratch vectors and the vector a
    splice carries its nodes in hold nothing between two calls. *)

From stdpp Require Import base numbers list gmap strings sorting.
From S2P Require Import Prelude SignalBits Signal LirRecord LirInstr LirCodec.

(** ** The header *)

Inductive Arity := Exact (n : N) | AtLeast (n : N) | Range (min max : N).

(** [Arity::fixed_params] *)
Definition fixed_params (a : Arity) : N :=
  match a with Exact n | AtLeast n | Range n _ => n end.

Inductive VarargKind := VK_List | VK_Struct | VK_StrictStruct (keys : list string).

Inductive RestListLayout := PerCell | OneRegion.

Record LirHead := mkHead {
  h_closure_id : option ClosureId;
  h_name : option string;
  h_arity : Arity;
  h_entry : Label;
  h_num_regs : N;
  h_num_locals : N;
  h_num_captures : N;
  h_capture_params_mask : N;
  h_capture_locals_mask : list N;
  h_signal : Signal;
  h_doc : option string;
  h_origin : option Span;
  h_vararg_kind : VarargKind;
  h_rest_list_layout : RestListLayout;
  h_num_params : N;
  h_num_local_params : N;
  h_region_table : list StaticRegion;
  h_merged_slots : list StaticRegion;
  h_frame_release_slots : list N;
  h_frame_release_regions : list StaticRegion;
  h_fragment : list N }.

(** [LirHead::new] *)
Definition LirHead_new (arity : Arity) : LirHead :=
  {| h_closure_id := None; h_name := None; h_arity := arity; h_entry := 0%N;
     h_num_regs := 0%N; h_num_locals := 0%N; h_num_captures := 0%N;
     h_capture_params_mask := 0%N; h_capture_locals_mask := [];
     h_signal := silent; h_doc := None; h_origin := None;
     h_vararg_kind := VK_List; h_rest_list_layout := PerCell;
     h_num_params := fixed_params arity; h_num_local_params := 0%N;
     h_region_table := []; h_merged_slots := [];
     h_frame_release_slots := []; h_frame_release_regions := []; h_fragment := [] |}.

(** ** Functions under construction *)

Record Block := mkBlock {
  bl_label : Label; bl_nodes : list Node; bl_exit : Terminator; bl_span : Span }.

Definition set_nodes (b : Block) (ns : list Node) : Block :=
  mkBlock (bl_label b) ns (bl_exit b) (bl_span b).

Record Work := mkWork {
  w_head : LirHead; w_blocks : list Block; w_open : option Block; w_tables : Tables }.

Record Spare := mkSpare { spare_blocks : list Block; spare_ix : gmap (N * N) N }.

(** The top of the stack is its first element. *)
Record LirBuilder := mkBuilder { stack : list Work; spare : list Spare }.

Definition LirBuilder_new : LirBuilder := mkBuilder [] [].

Record Mark := mkMark { mk_nodes : nat; mk_tables : TableMark }.

(** ** RegionVec operations that can panic, and a slice rotation *)

(** [insert_slice]: what [Vec::splice(at..at, items)] does. *)
Definition insert_slice {A} (l : list A) (at_ : nat) (items : list A) : option (list A) :=
  if decide (at_ <= length l) then Some (take at_ l ++ items ++ drop at_ l) else None.

(** [rotate_right] panics when asked for more than the length. *)
Definition rotate_right {A} (l : list A) (k : nat) : option (list A) :=
  if decide (k <= length l) then Some (drop (length l - k) l ++ take (length l - k) l) else None.

(** ** The builder *)

(** [top_mut]: run [f] on the function on top. *)
Definition on_top (b : LirBuilder) (f : Work -> option Work) : option LirBuilder :=
  match stack b with
  | w :: ws => w' ← f w; Some (mkBuilder (w' :: ws) (spare b))
  | [] => None
  end.

(** [begin_function]: the room of a finished function is reused. *)
Definition begin_function (b : LirBuilder) (arity : Arity) : LirBuilder :=
  let '(s, rest) := match spare b with
                    | s :: rest => (s, rest)
                    | [] => (mkSpare [] ∅, [])
                    end in
  mkBuilder (mkWork (LirHead_new arity) (spare_blocks s) None (Tables_new (spare_ix s)) :: stack b)
    rest.

(** [head]: the lowerer writes through the [&mut LirHead]. *)
Definition with_head (f : LirHead -> LirHead) (w : Work) : option Work :=
  Some (mkWork (f (w_head w)) (w_blocks w) (w_open w) (w_tables w)).

Definition open_block (label : Label) (w : Work) : option Work :=
  match w_open w with
  | Some _ => None
  | None =>
    Some (mkWork (w_head w) (w_blocks w) (Some (mkBlock label [] Unreachable Span_synthetic))
            (w_tables w))
  end.

Definition emit (i : InstrRef) (span : Span) (w : Work) : option Work :=
  let (n, t) := node (w_tables w) i span in
  open ← w_open w;
  Some (mkWork (w_head w) (w_blocks w) (Some (set_nodes open (bl_nodes open ++ [n]))) t).

Definition terminate (exit_ : Terminator) (span : Span) (w : Work) : option Work :=
  open ← w_open w;
  Some (mkWork (w_head w) (w_blocks w)
          (Some (mkBlock (bl_label open) (bl_nodes open) exit_ span)) (w_tables w)).

Definition finish_block (w : Work) : option Work :=
  block ← w_open w;
  Some (mkWork (w_head w) (w_blocks w ++ [block]) None (w_tables w)).

(** [LirBuilder::mark] *)
Definition mark (w : Work) : option Mark :=
  open ← w_open w; Some (mkMark (length (bl_nodes open)) (tables_mark (w_tables w))).

(** [LirBuilder::retract] *)
Definition retract (m : Mark) (w : Work) : option Work :=
  open ← w_open w;
  if decide (mk_nodes m <= length (bl_nodes open)) then
    t ← tables_retract (w_tables w) (mk_tables m);
    Some (mkWork (w_head w) (w_blocks w)
            (Some (set_nodes open (take (mk_nodes m) (bl_nodes open)))) t)
  else None.

(** [LirBuilder::move_run] *)
Definition move_run (start at_ : nat) (w : Work) : option Work :=
  open ← w_open w;
  let nodes := bl_nodes open in
  if decide (at_ <= start /\ start <= length nodes) then
    tail ← rotate_right (drop at_ nodes) (length nodes - start);
    Some (mkWork (w_head w) (w_blocks w) (Some (set_nodes open (take at_ nodes ++ tail)))
            (w_tables w))
  else None.

(** [LirBuilder::move_run_to] *)
Definition move_run_to (start block at_ : nat) (w : Work) : option Work :=
  open ← w_open w;
  if decide (start <= length (bl_nodes open)) then
    let moving := drop start (bl_nodes open) in
    target ← w_blocks w !! block;
    ns ← insert_slice (bl_nodes target) at_ moving;
    Some (mkWork (w_head w) (<[block := set_nodes target ns]> (w_blocks w))
            (Some (set_nodes open (take start (bl_nodes open)))) (w_tables w))
  else None.

(** ** Reading back *)

Definition open_label (w : Work) : option Label := bl_label <$> w_open w.

Definition open_len (w : Work) : option nat := (fun b => length (bl_nodes b)) <$> w_open w.

Definition open_instrs (w : Work) (from : nat) : option (list InstrRef) :=
  open ← w_open w;
  if decide (from <= length (bl_nodes open)) then
    mapM (fun n => instr n (tables_parts (w_tables w))) (drop from (bl_nodes open))
  else None.

Definition finished_block_len (w : Work) (block : nat) : option nat :=
  (fun b => length (bl_nodes b)) <$> w_blocks w !! block.

(** The outer [option] is a panic, the inner one the method's answer. *)
Definition finished_instr (w : Work) (block at_ : nat) : option (option InstrRef) :=
  b ← w_blocks w !! block;
  match bl_nodes b !! at_ with
  | None => Some None
  | Some n => Some <$> instr n (tables_parts (w_tables w))
  end.

(** ** The frozen function *)

Record LirCode := mkCode {
  k_nodes : list Node;
  k_blocks : list BlockRec;
  k_pool : list N;
  k_consts : list ConstRec;
  k_data : list N;
  k_files : list FileId;
  k_n_values : N;
  k_yield_points : list SiteRec;
  k_call_sites : list SiteRec;
  k_charge_sites : list SiteRec;
  k_site_regs : list Reg;
  k_closure_id : option N;
  k_name : option string;
  k_arity : Arity;
  k_entry : N;
  k_num_regs : N;
  k_num_locals : N;
  k_num_captures : N;
  k_num_params : N;
  k_num_local_params : N;
  k_capture_params_mask : N;
  k_capture_locals : list N;
  k_signal : Signal;
  k_vararg_kind : VarargKind;
  k_rest_list_layout : RestListLayout;
  k_region_table : list StaticRegion;
  k_merged_slots : list StaticRegion;
  k_frame_release_slots : list N;
  k_frame_release_regions : list StaticRegion;
  k_doc : option string;
  k_origin : option Span;
  k_fragment : list N }.

Record LirOwned := mkOwned { code : LirCode; owned_values : list Value }.

(** [ascending]: an unstable sort by a key that tells the items apart. *)
Definition ascending_slots (l : list StaticRegion) : list StaticRegion := merge_sort Pos.le l.
Definition ascending_locals (l : list N) : list N := merge_sort N.le l.

(** The loop of [freeze]: each block's record, its run placed after the nodes
    already copied. *)
Definition freeze_block (acc : Tables * list Node * list BlockRec) (b : Block)
  : Tables * list Node * list BlockRec :=
  let '(t, nodes, blocks) := acc in
  let (rec, t) := exit t (bl_label b) (bl_exit b) (bl_span b) in
  let rec := mkBlockRec (b_label rec) (len_u32 nodes) (len_u32 (bl_nodes b))
               (b_term_a rec) (b_term_b rec) (b_term_c rec)
               (b_start rec) (b_end rec) (b_line rec) (b_col rec) (b_file rec)
               (b_term_op rec) in
  (t, nodes ++ bl_nodes b, blocks ++ [rec]).

(** [freeze]: [inl n] is the refusal of an instruction that read [n] registers. *)
Definition freeze (w : Work) : (N + LirOwned) * Tables :=
  match refused (w_tables w) with
  | Some why => (inl why, set_refused (w_tables w) None)
  | None =>
    let '(t, nodes, blocks) := foldl freeze_block (w_tables w, [], []) (w_blocks w) in
    let head := w_head w in
    (inr (mkOwned
       {| k_nodes := nodes; k_blocks := blocks; k_pool := pool t; k_consts := consts t;
          k_data := data t; k_files := files t; k_n_values := len_u32 (values t);
          k_yield_points := []; k_call_sites := []; k_charge_sites := []; k_site_regs := [];
          k_closure_id := h_closure_id head; k_name := h_name head; k_arity := h_arity head;
          k_entry := h_entry head; k_num_regs := h_num_regs head;
          k_num_locals := h_num_locals head; k_num_captures := h_num_captures head;
          k_num_params := as_u32 (h_num_params head);
          k_num_local_params := as_u32 (h_num_local_params head);
          k_capture_params_mask := h_capture_params_mask head;
          k_capture_locals := h_capture_locals_mask head; k_signal := h_signal head;
          k_vararg_kind := h_vararg_kind head; k_rest_list_layout := h_rest_list_layout head;
          k_region_table := h_region_table head;
          k_merged_slots := ascending_slots (h_merged_slots head);
          k_frame_release_slots := ascending_locals (h_frame_release_slots head);
          k_frame_release_regions := ascending_slots (h_frame_release_regions head);
          k_doc := h_doc head; k_origin := h_origin head; k_fragment := h_fragment head |}
       (values t)), t)
  end.

(** [finish_function]: the room is left cleared for the next function. *)
Definition finish_function (b : LirBuilder) : option (LirBuilder * (N + LirOwned)) :=
  match stack b with
  | w :: ws =>
    match w_open w with
    | Some _ => None
    | None =>
      let (frozen, t) := freeze w in
      Some (mkBuilder ws (mkSpare [] (value_ix t) :: spare b), frozen)
    end
  | [] => None
  end.
