(* ===== verification/LirView.v ===== *)
(** * Reading a frozen function

    [lir/code/view.rs]: the view every reader goes through, its blocks, nodes
    and sites, the function-wide questions and the owned copy.
    [lir/code/head.rs]: the header of a view over a [LirCode].
    [lir/code/owned.rs]: the view of an owned function, its two halves and the
    sites emission records.  [lir/code/split.rs]: cutting blocks after chosen
    instructions.  [lir/code/gpu.rs]: which functions the GPU and MLIR tiers
    take.

    A view over a code payload's body in region pages is not modelled; the
    file table is the [Files::Ids] one. *)

From stdpp Require Import base numbers list gmap strings.
From S2P Require Import Prelude SignalBits Signal LirRecord LirInstr LirCodec LirBuild.

(** ** The header a view answers *)

Record Head := mkHeadView {
  hd_closure_id : option N;
  hd_name : option string;
  hd_doc : option string;
  hd_origin : option Span;
  hd_arity : Arity;
  hd_entry : N;
  hd_num_regs : N;
  hd_num_locals : N;
  hd_num_captures : N;
  hd_num_params : N;
  hd_num_local_params : N;
  hd_capture_params_mask : N;
  hd_capture_locals : list N;
  hd_signal : Signal;
  hd_vararg : VarargKind;
  hd_rest_list_layout : RestListLayout;
  hd_region_table : list StaticRegion;
  hd_merged_slots : list StaticRegion;
  hd_frame_release_slots : list N;
  hd_frame_release_regions : list StaticRegion }.

(** [Head::of_code] *)
Definition of_code (code : LirCode) : Head :=
  {| hd_closure_id := k_closure_id code; hd_name := k_name code; hd_doc := k_doc code;
     hd_origin := k_origin code; hd_arity := k_arity code; hd_entry := k_entry code;
     hd_num_regs := k_num_regs code; hd_num_locals := k_num_locals code;
     hd_num_captures := k_num_captures code; hd_num_params := k_num_params code;
     hd_num_local_params := k_num_local_params code;
     hd_capture_params_mask := k_capture_params_mask code;
     hd_capture_locals := k_capture_locals code; hd_signal := k_signal code;
     hd_vararg := k_vararg_kind code; hd_rest_list_layout := k_rest_list_layout code;
     hd_region_table := k_region_table code; hd_merged_slots := k_merged_slots code;
     hd_frame_release_slots := k_frame_release_slots code;
     hd_frame_release_regions := k_frame_release_regions code |}.

(** ** The view *)

Record LirView := mkView {
  parts : Parts;
  v_blocks : list BlockRec;
  v_yield_points : list SiteRec;
  v_call_sites : list SiteRec;
  v_charge_sites : list SiteRec;
  v_site_regs : list Reg;
  v_head : Head }.

(** [LirView::over] *)
Definition over (code : LirCode) (values : list Value) : LirView :=
  {| parts := mkParts (k_nodes code) (k_pool code) (k_consts code) (k_data code) values
                (k_files code);
     v_blocks := k_blocks code; v_yield_points := k_yield_points code;
     v_call_sites := k_call_sites code; v_charge_sites := k_charge_sites code;
     v_site_regs := k_site_regs code; v_head := of_code code |}.

(** [LirOwned::view] *)
Definition view (o : LirOwned) : LirView := over (code o) (owned_values o).

(** [LirOwned::from_parts]: the error carries the two counts. *)
Definition from_parts (c : LirCode) (vs : list Value) : (N * nat) + LirOwned :=
  if (N.of_nat (length vs) =? k_n_values c)%N then inr (mkOwned c vs)
  else inl (k_n_values c, length vs).

(** *** Nodes *)

(** [NodeRef::op] *)
Definition node_op (n : Node) : option Op := from_byte (n_op n).

(** [NodeRef::span] *)
Definition node_span (p : Parts) (n : Node) : option Span :=
  parts_span p (n_start n) (n_end n) (n_line n) (n_col n) (n_file n).

(** [NodeRef::def] *)
Definition node_def (n : Node) : option Reg :=
  if (n_dst n =? NO_REG)%N || (n_op n =? op_byte Op_TailCall)%N then None else Some (n_dst n).

(** [NodeRef::region] *)
Definition node_region (n : Node) : option StaticRegion := StaticRegion_new (n_region n).

(** *** Blocks *)

(** [BlockRef::nodes] *)
Definition block_nodes (p : Parts) (rec : BlockRec) : option (list Node) :=
  slice (p_nodes p) (N.to_nat (b_first rec)) (N.to_nat (b_len rec)).

(** [BlockRef::node] *)
Definition block_node (p : Parts) (rec : BlockRec) (j : nat) : option Node :=
  if decide (j < N.to_nat (b_len rec)) then p_nodes p !! (N.to_nat (b_first rec) + j) else None.

(** [BlockRef::instrs] *)
Definition block_instrs (p : Parts) (rec : BlockRec) : option (list InstrRef) :=
  ns ← block_nodes p rec; mapM (fun n => instr n p) ns.

(** [BlockRef::terminator_span] *)
Definition terminator_span (p : Parts) (rec : BlockRec) : option Span :=
  parts_span p (b_start rec) (b_end rec) (b_line rec) (b_col rec) (b_file rec).

(** [LirView::nodes] *)
Definition view_nodes (v : LirView) : option (list Node) :=
  @concat _ <$> mapM (block_nodes (parts v)) (v_blocks v).

(** [LirView::has_op] *)
Definition has_op (v : LirView) (o : Op) : bool :=
  existsb (fun n => (n_op n =? op_byte o)%N) (p_nodes (parts v)).

(** [LirView::jit_refusal]: the two reasons, in the order they are asked. *)
Inductive JitRefusal := StructVarargs | HasMakeClosure.

Definition jit_refusal (v : LirView) : option JitRefusal :=
  match hd_arity (v_head v), hd_vararg (v_head v) with
  | AtLeast _, (VK_Struct | VK_StrictStruct _) => Some StructVarargs
  | _, _ => if has_op v Op_MakeClosure then Some HasMakeClosure else None
  end.

(** *** Sites *)

Record SiteRef := mkSiteRef {
  resume_ip : N; num_locals : N; stack_regs : list Reg; push_resume_value : bool }.

(** [SiteRef::of] *)
Definition site_of (rec : SiteRec) (regs : list Reg) : option SiteRef :=
  stack ← slice regs (N.to_nat (s_regs rec)) (N.to_nat (s_n_regs rec));
  Some (mkSiteRef (s_resume_ip rec) (s_num_locals rec) stack (negb (s_delivers rec =? 0)%N)).

(** [yield_points], [call_sites], [charge_sites] *)
Definition view_sites (v : LirView) (which : LirView -> list SiteRec) : option (list SiteRef) :=
  mapM (fun s => site_of s (v_site_regs v)) (which v).

(** The site infos emission produces. *)
Record YieldPointInfo := mkYield { y_resume_ip : N; y_stack_regs : list Reg; y_num_locals : N }.
Record CallSiteInfo := mkCall {
  cs_resume_ip : N; cs_stack_regs : list Reg; cs_num_locals : N; cs_push_resume_value : bool }.
Record ChargeSiteInfo := mkCharge { ch_ip : N; ch_stack_regs : list Reg; ch_num_locals : N }.

(** [site]: one site's record, its registers appended to [regs]. *)
Definition site (regs : list Reg) (resume_ip num_locals : N) (stack : list Reg) (delivers : bool)
  : option (SiteRec * list Reg) :=
  if (resume_ip <? 2 ^ 32)%N then
    Some (mkSiteRec resume_ip num_locals (N.b2n delivers) (len_u32 regs) (len_u32 stack),
          regs ++ stack)
  else None.

(** The [map(..).collect()] of [set_sites] over one kind of site. *)
Fixpoint sites (regs : list Reg) (infos : list SiteRef) : option (list SiteRec * list Reg) :=
  match infos with
  | [] => Some ([], regs)
  | s :: rest =>
    '(rec, regs) ← site regs (resume_ip s) (num_locals s) (stack_regs s) (push_resume_value s);
    '(recs, regs) ← sites regs rest;
    Some (rec :: recs, regs)
  end.

(** The arguments [set_sites] hands [site] for each kind. *)
Definition yield_site (y : YieldPointInfo) : SiteRef :=
  mkSiteRef (y_resume_ip y) (y_num_locals y) (y_stack_regs y) true.
Definition call_site (c : CallSiteInfo) : SiteRef :=
  mkSiteRef (cs_resume_ip c) (cs_num_locals c) (cs_stack_regs c) (cs_push_resume_value c).
Definition charge_site (c : ChargeSiteInfo) : SiteRef :=
  mkSiteRef (ch_ip c) (ch_num_locals c) (ch_stack_regs c) false.

(** [LirOwned::set_sites] *)
Definition set_sites (o : LirOwned) (ys : list YieldPointInfo) (cs : list CallSiteInfo)
    (hs : list ChargeSiteInfo) : option LirOwned :=
  '(yr, regs) ← sites [] (map yield_site ys);
  '(cr, regs) ← sites regs (map call_site cs);
  '(hr, regs) ← sites regs (map charge_site hs);
  let k := code o in
  Some (mkOwned
    {| k_nodes := k_nodes k; k_blocks := k_blocks k; k_pool := k_pool k; k_consts := k_consts k;
       k_data := k_data k; k_files := k_files k; k_n_values := k_n_values k;
       k_yield_points := yr; k_call_sites := cr; k_charge_sites := hr; k_site_regs := regs;
       k_closure_id := k_closure_id k; k_name := k_name k; k_arity := k_arity k;
       k_entry := k_entry k; k_num_regs := k_num_regs k; k_num_locals := k_num_locals k;
       k_num_captures := k_num_captures k; k_num_params := k_num_params k;
       k_num_local_params := k_num_local_params k;
       k_capture_params_mask := k_capture_params_mask k; k_capture_locals := k_capture_locals k;
       k_signal := k_signal k; k_vararg_kind := k_vararg_kind k;
       k_rest_list_layout := k_rest_list_layout k; k_region_table := k_region_table k;
       k_merged_slots := k_merged_slots k; k_frame_release_slots := k_frame_release_slots k;
       k_frame_release_regions := k_frame_release_regions k; k_doc := k_doc k;
       k_origin := k_origin k; k_fragment := k_fragment k |}
    (owned_values o)).

(** [LirOwned::set_name] *)
Definition set_name (o : LirOwned) (name : option string) : LirOwned :=
  let k := code o in
  mkOwned
    {| k_nodes := k_nodes k; k_blocks := k_blocks k; k_pool := k_pool k; k_consts := k_consts k;
       k_data := k_data k; k_files := k_files k; k_n_values := k_n_values k;
       k_yield_points := k_yield_points k; k_call_sites := k_call_sites k;
       k_charge_sites := k_charge_sites k; k_site_regs := k_site_regs k;
       k_closure_id := k_closure_id k; k_name := name; k_arity := k_arity k;
       k_entry := k_entry k; k_num_regs := k_num_regs k; k_num_locals := k_num_locals k;
       k_num_captures := k_num_captures k; k_num_params := k_num_params k;
       k_num_local_params := k_num_local_params k;
       k_capture_params_mask := k_capture_params_mask k; k_capture_locals := k_capture_locals k;
       k_signal := k_signal k; k_vararg_kind := k_vararg_kind k;
       k_rest_list_layout := k_rest_list_layout k; k_region_table := k_region_table k;
       k_merged_slots := k_merged_slots k; k_frame_release_slots := k_frame_release_slots k;
       k_frame_release_regions := k_frame_release_regions k; k_doc := k_doc k;
       k_origin := k_origin k; k_fragment := k_fragment k |}
    (owned_values o).

(** *** The owned copy *)

(** [LirView::to_owned] with the block records given, so that [split_after]
    can put its own in. *)
Definition to_owned_with (v : LirView) (blocks : list BlockRec) : LirOwned :=
  let p := parts v in
  let h := v_head v in
  mkOwned
    {| k_nodes := p_nodes p; k_blocks := blocks; k_pool := p_pool p; k_consts := p_consts p;
       k_data := p_data p; k_files := p_files p; k_n_values := len_u32 (p_values p);
       k_yield_points := v_yield_points v; k_call_sites := v_call_sites v;
       k_charge_sites := v_charge_sites v; k_site_regs := v_site_regs v;
       k_closure_id := hd_closure_id h; k_name := hd_name h; k_arity := hd_arity h;
       k_entry := hd_entry h; k_num_regs := hd_num_regs h; k_num_locals := hd_num_locals h;
       k_num_captures := hd_num_captures h; k_num_params := hd_num_params h;
       k_num_local_params := hd_num_local_params h;
       k_capture_params_mask := hd_capture_params_mask h;
       k_capture_locals := hd_capture_locals h; k_signal := hd_signal h;
       k_vararg_kind := hd_vararg h; k_rest_list_layout := hd_rest_list_layout h;
       k_region_table := hd_region_table h; k_merged_slots := hd_merged_slots h;
       k_frame_release_slots := hd_frame_release_slots h;
       k_frame_release_regions := hd_frame_release_regions h; k_doc := hd_doc h;
       k_origin := hd_origin h; k_fragment := [] |}
    (p_values p).

(** [LirView::to_owned] *)
Definition to_owned (v : LirView) : LirOwned := to_owned_with v (v_blocks v).

(** ** Splitting blocks *)

(** The loop state of [split_after]: the next fresh label, the records
    written, the current piece's start and label. *)
Record Cut := mkCut {
  next_label : N; cut_blocks : list BlockRec; cut_start : N; cut_label : N }.

(** One iteration: node [i] ends the current piece when [at_] selects it.  The
    counters are [u32]s. *)
Definition cut_at (nodes : list Node) (at_ : Op -> bool) (rec : BlockRec) (c : Cut) (i : N)
  : option Cut :=
  n ← nodes !! N.to_nat i;
  op ← from_byte (n_op n);
  if negb (at_ op) then Some c
  else
    let cont := next_label c in
    let piece := mkBlockRec (cut_label c) (cut_start c) (i + 1 - cut_start c)
                   cont NO_REG NO_REG
                   (b_start rec) (b_end rec) (b_line rec) (b_col rec) (b_file rec) T_JUMP in
    Some (mkCut (as_u32 (cont + 1)) (cut_blocks c ++ [piece]) (i + 1) cont).

Fixpoint cuts (nodes : list Node) (at_ : Op -> bool) (rec : BlockRec) (c : Cut) (is_ : list N)
  : option Cut :=
  match is_ with
  | [] => Some c
  | i :: rest => cut_at nodes at_ rec c i ≫= fun c => cuts nodes at_ rec c rest
  end.

(** [a..b] over [u32]s *)
Definition range (a b : N) : list N := map N.of_nat (seq (N.to_nat a) (N.to_nat b - N.to_nat a)).

(** The body of the outer loop: the last piece keeps the block's exit. *)
Definition split_block (nodes : list Node) (at_ : Op -> bool) (acc : N * list BlockRec)
    (rec : BlockRec) : option (N * list BlockRec) :=
  let end_ := as_u32 (b_first rec + b_len rec) in
  c ← cuts nodes at_ rec (mkCut acc.1 acc.2 (b_first rec) (b_label rec))
        (range (b_first rec) (end_ - 1));
  let last := mkBlockRec (cut_label c) (cut_start c) (end_ - cut_start c)
                (b_term_a rec) (b_term_b rec) (b_term_c rec)
                (b_start rec) (b_end rec) (b_line rec) (b_col rec) (b_file rec) (b_term_op rec) in
  Some (next_label c, cut_blocks c ++ [last]).

Fixpoint split_blocks (nodes : list Node) (at_ : Op -> bool) (acc : N * list BlockRec)
    (recs : list BlockRec) : option (N * list BlockRec) :=
  match recs with
  | [] => Some acc
  | rec :: rest => split_block nodes at_ acc rec ≫= fun acc => split_blocks nodes at_ acc rest
  end.

(** The highest label the records hold, zero for none. *)
Definition max_label (recs : list BlockRec) : N := foldr N.max 0%N (b_label <$> recs).

(** [LirView::split_after] *)
Definition split_after (v : LirView) (at_ : Op -> bool) : option LirOwned :=
  let records := v_blocks v in
  '(_, blocks) ← split_blocks (p_nodes (parts v)) at_ (as_u32 (max_label records + 1), []) records;
  Some (to_owned_with v blocks).
