(* ===== verification/LirSpec.v ===== *)
(** * What a builder builds

    The abstract function a sequence of builder calls describes, with its
    instructions as instructions rather than as records, and what a frozen
    function reads back as through its view. *)

From stdpp Require Import base numbers list gmap strings sorting.
From S2P Require Import Prelude SignalBits Signal LirRecord LirInstr LirCodec LirCodecProps LirBuild LirView.

(** ** Abstract functions *)

Record ABlock := mkABlock {
  a_label : Label; a_code : list (InstrRef * Span); a_exit : Terminator; a_span : Span }.

(** [f_refused] is the register count of the first instruction that no node
    can hold. *)
Record AFun := mkAFun {
  f_head : LirHead; f_blocks : list ABlock; f_open : option ABlock; f_refused : option N }.

(** ** The calls of the lowerer

    [splice.rs] marks, emits a run and either keeps it or takes it back whole,
    so a mark never outlives the run emitted after it: [Trial] is that
    mark-emit-retract. *)

Inductive Call :=
| BeginFunction (arity : Arity)
| WriteHead (f : LirHead -> LirHead)
| OpenBlock (l : Label)
| EmitInstr (i : InstrRef) (s : Span)
| Terminate (e : Terminator) (s : Span)
| FinishBlock
| Trial (run : list (InstrRef * Span))
| MoveRun (start at_ : nat)
| MoveRunTo (start block at_ : nat)
| FinishFunction.

(** ** The calls on the builder *)

Fixpoint emits (run : list (InstrRef * Span)) (w : Work) : option Work :=
  match run with
  | [] => Some w
  | (i, s) :: rest => emit i s w ≫= emits rest
  end.

Definition trial (run : list (InstrRef * Span)) (w : Work) : option Work :=
  m ← mark w; w' ← emits run w; retract m w'.

Definition call (b : LirBuilder) (c : Call) : option (LirBuilder * list (N + LirOwned)) :=
  match c with
  | BeginFunction arity => Some (begin_function b arity, [])
  | WriteHead f => b' ← on_top b (with_head f); Some (b', [])
  | OpenBlock l => b' ← on_top b (open_block l); Some (b', [])
  | EmitInstr i s => b' ← on_top b (emit i s); Some (b', [])
  | Terminate e s => b' ← on_top b (terminate e s); Some (b', [])
  | FinishBlock => b' ← on_top b finish_block; Some (b', [])
  | Trial run => b' ← on_top b (trial run); Some (b', [])
  | MoveRun start at_ => b' ← on_top b (move_run start at_); Some (b', [])
  | MoveRunTo start block at_ => b' ← on_top b (move_run_to start block at_); Some (b', [])
  | FinishFunction => '(b', r) ← finish_function b; Some (b', [r])
  end.

Fixpoint calls (b : LirBuilder) (cs : list Call) : option (LirBuilder * list (N + LirOwned)) :=
  match cs with
  | [] => Some (b, [])
  | c :: rest =>
    '(b', out) ← call b c; '(b'', outs) ← calls b' rest; Some (b'', out ++ outs)
  end.

(** ** The calls on abstract functions *)

Definition set_code (a : ABlock) (l : list (InstrRef * Span)) : ABlock :=
  mkABlock (a_label a) l (a_exit a) (a_span a).

Definition a_refuse (r : option N) (x : InstrRef * Span) : option N :=
  refuse (N.of_nat (length (expected_uses x.1))) r.

Definition a_work (c : Call) (f : AFun) : option AFun :=
  match c with
  | BeginFunction _ | FinishFunction => None
  | WriteHead g => Some (mkAFun (g (f_head f)) (f_blocks f) (f_open f) (f_refused f))
  | OpenBlock l =>
    match f_open f with
    | Some _ => None
    | None => Some (mkAFun (f_head f) (f_blocks f) (Some (mkABlock l [] Unreachable Span_synthetic))
                      (f_refused f))
    end
  | EmitInstr i s =>
    o ← f_open f;
    Some (mkAFun (f_head f) (f_blocks f) (Some (set_code o (a_code o ++ [(i, s)])))
            (a_refuse (f_refused f) (i, s)))
  | Terminate e s =>
    o ← f_open f;
    Some (mkAFun (f_head f) (f_blocks f) (Some (mkABlock (a_label o) (a_code o) e s)) (f_refused f))
  | FinishBlock =>
    o ← f_open f; Some (mkAFun (f_head f) (f_blocks f ++ [o]) None (f_refused f))
  | Trial run =>
    o ← f_open f;
    Some (mkAFun (f_head f) (f_blocks f) (Some o) (foldl a_refuse (f_refused f) run))
  | MoveRun start at_ =>
    o ← f_open f;
    let l := a_code o in
    if decide (at_ <= start /\ start <= length l) then
      Some (mkAFun (f_head f) (f_blocks f)
              (Some (set_code o (take at_ l ++ drop start l ++ drop at_ (take start l))))
              (f_refused f))
    else None
  | MoveRunTo start block at_ =>
    o ← f_open f;
    target ← f_blocks f !! block;
    if decide (start <= length (a_code o) /\ at_ <= length (a_code target)) then
      let l := take at_ (a_code target) ++ drop start (a_code o) ++ drop at_ (a_code target) in
      Some (mkAFun (f_head f) (<[block := set_code target l]> (f_blocks f))
              (Some (set_code o (take start (a_code o)))) (f_refused f))
    else None
  end.

Definition AFun_new (arity : Arity) : AFun := mkAFun (LirHead_new arity) [] None None.

(** A finished function, or the register count it was refused for. *)
Definition a_call (st : list AFun) (c : Call) : option (list AFun * list (N + AFun)) :=
  match c, st with
  | BeginFunction arity, _ => Some (AFun_new arity :: st, [])
  | FinishFunction, f :: st =>
    match f_open f with
    | Some _ => None
    | None => Some (st, [match f_refused f with Some n => inl n | None => inr f end])
    end
  | _, f :: st => f' ← a_work c f; Some (f' :: st, [])
  | _, [] => None
  end.

Fixpoint a_calls (st : list AFun) (cs : list Call) : option (list AFun * list (N + AFun)) :=
  match cs with
  | [] => Some (st, [])
  | c :: rest =>
    '(st', out) ← a_call st c; '(st'', outs) ← a_calls st' rest; Some (st'', out ++ outs)
  end.

(** ** Reading a frozen function back *)

Definition read_node (p : Parts) (n : Node) : option (InstrRef * Span) :=
  i ← instr n p; s ← node_span p n; Some (i, s).

Definition read_block (p : Parts) (rec : BlockRec) : option ABlock :=
  ns ← block_nodes p rec;
  c ← mapM (read_node p) ns;
  e ← terminator rec p;
  s ← terminator_span p rec;
  Some (mkABlock (b_label rec) c e s).

Definition read_back (v : LirView) : option (list ABlock) :=
  mapM (read_block (parts v)) (v_blocks v).

(** What the view answers for a header: the same fields, the parameter counts
    as [u32], the three slot tables ascending. *)
Definition frozen_head (h : LirHead) : Head :=
  {| hd_closure_id := h_closure_id h; hd_name := h_name h; hd_doc := h_doc h;
     hd_origin := h_origin h; hd_arity := h_arity h; hd_entry := h_entry h;
     hd_num_regs := h_num_regs h; hd_num_locals := h_num_locals h;
     hd_num_captures := h_num_captures h; hd_num_params := as_u32 (h_num_params h);
     hd_num_local_params := as_u32 (h_num_local_params h);
     hd_capture_params_mask := h_capture_params_mask h;
     hd_capture_locals := h_capture_locals_mask h; hd_signal := h_signal h;
     hd_vararg := h_vararg_kind h; hd_rest_list_layout := h_rest_list_layout h;
     hd_region_table := h_region_table h; hd_merged_slots := ascending_slots (h_merged_slots h);
     hd_frame_release_slots := ascending_locals (h_frame_release_slots h);
     hd_frame_release_regions := ascending_slots (h_frame_release_regions h) |}.

(** The frozen function [o] is the abstract function [f]. *)
Record frozen_as (o : LirOwned) (f : AFun) : Prop := mk_frozen_as {
  fz_blocks : read_back (view o) = Some (f_blocks f);
  fz_head : v_head (view o) = frozen_head (f_head f);
  fz_values : from_parts (code o) (owned_values o) = inr o }.

Definition same_result (c : N + LirOwned) (a : N + AFun) : Prop :=
  match c, a with
  | inl n, inl m => n = m
  | inr o, inr f => frozen_as o f
  | _, _ => False
  end.

(** ** The inputs *)

Definition run_typed (run : list (InstrRef * Span)) : Prop :=
  Forall (fun x => instr_typed x.1 /\ span_typed x.2) run.

Definition call_typed (c : Call) : Prop :=
  match c with
  | EmitInstr i s => instr_typed i /\ span_typed s
  | Terminate _ s => span_typed s
  | Trial run => run_typed run
  | _ => True
  end.

(** How many table entries a call can make. *)
Definition run_weight (run : list (InstrRef * Span)) : nat :=
  sum_list_with (fun x => instr_weight x.1) run.

Definition call_weight (c : Call) : nat :=
  match c with
  | OpenBlock _ => 1
  | EmitInstr i _ => instr_weight i
  | Trial run => run_weight run
  | _ => 0
  end.
