(* ===== verification/LirBuildProps.v ===== *)
(** * The builder builds what its calls describe

    The simulation between the builder, with its nodes and tables, and the
    abstract functions of the specification. *)

From stdpp Require Import base numbers option list gmap strings sorting.
From S2P Require Import Prelude SignalBits Signal LirRecord LirInstr LirCodec LirCodecProps LirBuild LirView LirSpec.

(** ** The relation *)

Definition node_rel (t : Tables) (n : Node) (x : InstrRef * Span) : Prop :=
  forall p, extends t p -> node_answers p n x.1 x.2.

Record block_rel (t : Tables) (b : Block) (a : ABlock) : Prop := mk_block_rel {
  br_label : bl_label b = a_label a;
  br_exit : bl_exit b = a_exit a;
  br_span : bl_span b = a_span a;
  br_span_typed : span_typed (a_span a);
  br_len : length (bl_nodes b) = length (a_code a);
  br_code : refused t = None -> Forall2 (node_rel t) (bl_nodes b) (a_code a) }.

Definition node_count (bs : list Block) (o : option Block) : nat :=
  sum_list_with (fun b => length (bl_nodes b)) bs + from_option (fun b => length (bl_nodes b)) 0 o.

Definition block_count (bs : list Block) (o : option Block) : nat :=
  length bs + from_option (fun _ => 1) 0 o.

Record work_rel (W : nat) (w : Work) (f : AFun) : Prop := mk_work_rel {
  wr_head : w_head w = f_head f;
  wr_blocks : Forall2 (block_rel (w_tables w)) (w_blocks w) (f_blocks f);
  wr_open : option_Forall2 (block_rel (w_tables w)) (w_open w) (f_open f);
  wr_refused : refused (w_tables w) = f_refused f;
  wr_ix : ix_ok (w_tables w);
  wr_size : table_size (w_tables w) + block_count (w_blocks w) (w_open w) <= W;
  wr_nodes : node_count (w_blocks w) (w_open w) <= W }.

(** ** Monotonicity *)

Lemma block_rel_mono t t' b a :
  grows t t' -> (refused t' = None -> refused t = None) -> block_rel t b a -> block_rel t' b a.
Proof.
  intros Hg Hr [Hl He Hs Ht Hn Hc]. split; try done. intros Hr'.
  eapply Forall2_impl; [by apply Hc, Hr|]. intros n x Hnx p Hp. eapply Hnx, grows_extends; eauto.
Qed.

Lemma blocks_rel_mono t t' bs l :
  grows t t' -> (refused t' = None -> refused t = None) ->
  Forall2 (block_rel t) bs l -> Forall2 (block_rel t') bs l.
Proof. intros ?? H. eapply Forall2_impl; [exact H|]. intros ??. by apply block_rel_mono. Qed.

Lemma open_rel_mono t t' o a :
  grows t t' -> (refused t' = None -> refused t = None) ->
  option_Forall2 (block_rel t) o a -> option_Forall2 (block_rel t') o a.
Proof. intros ?? [b a' H|]; constructor. by eapply block_rel_mono. Qed.

Lemma refuse_mono n r : refuse n r = None -> r = None.
Proof. by intros [? _]%refuse_none. Qed.

Lemma work_rel_weaken W W' w f : W <= W' -> work_rel W w f -> work_rel W' w f.
Proof. intros Hle [???????]. split; try done; lia. Qed.

(** A block whose nodes and instructions are rearranged together. *)
Lemma block_rel_set t b a ns l :
  block_rel t b a -> length ns = length l ->
  (refused t = None -> Forall2 (node_rel t) (bl_nodes b) (a_code a) -> Forall2 (node_rel t) ns l) ->
  block_rel t (set_nodes b ns) (set_code a l).
Proof. intros [Hl He Hs Ht Hn Hc] Hlen Hf. split; try done. intros Hr. cbn. by apply Hf, Hc. Qed.

(** ** One call at a time *)

Lemma with_head_sim W g w f :
  work_rel W w f -> option_Forall2 (work_rel W) (with_head g w) (a_work (WriteHead g) f).
Proof. intros [Hh ??????]. constructor. split; cbn; try done. by rewrite Hh. Qed.

Lemma open_block_sim W l w f :
  work_rel W w f -> option_Forall2 (work_rel (W + 1)) (open_block l w) (a_work (OpenBlock l) f).
Proof.
  intros [Hh Hb Ho Hr Hi Hs Hn]. unfold open_block. cbn.
  destruct Ho as [b a Hba|]; cbn; constructor. split; cbn; try done.
  - constructor. by split.
  - unfold block_count in *. cbn in *. lia.
  - unfold node_count in *. cbn in *. lia.
Qed.

Lemma terminate_sim W e s w f :
  span_typed s -> work_rel W w f ->
  option_Forall2 (work_rel W) (terminate e s w) (a_work (Terminate e s) f).
Proof.
  intros Hsp [Hh Hb Ho Hr Hi Hs Hn]. unfold terminate. cbn.
  destruct Ho as [b a [Hl He Hss Ht Hlen Hc]|]; cbn; constructor. split; cbn; try done.
  by constructor.
Qed.

Lemma finish_block_sim W w f :
  work_rel W w f -> option_Forall2 (work_rel W) (finish_block w) (a_work FinishBlock f).
Proof.
  intros [Hh Hb Ho Hr Hi Hs Hn]. unfold finish_block. cbn.
  destruct Ho as [b a Hba|]; cbn; constructor. split; cbn; try done.
  - apply Forall2_app; [done|by constructor].
  - constructor.
  - unfold block_count in *. cbn in *. rewrite length_app. cbn. lia.
  - unfold node_count in *. cbn in *. rewrite sum_list_with_app. cbn. lia.
Qed.

Lemma emit_step W i s w f o a :
  instr_typed i -> span_typed s -> (N.of_nat (W + instr_weight i) < 2 ^ 32)%N ->
  work_rel W w f -> w_open w = Some o -> f_open f = Some a ->
  exists n t, node (w_tables w) i s = (n, t) /\
    work_rel (W + instr_weight i)
      (mkWork (w_head w) (w_blocks w) (Some (set_nodes o (bl_nodes o ++ [n]))) t)
      (mkAFun (f_head f) (f_blocks f) (Some (set_code a (a_code a ++ [(i, s)])))
         (a_refuse (f_refused f) (i, s))).
Proof.
  intros Hty Hsp Hw [Hh Hb Ho Hr Hi Hs Hn] Hwo Hfo. rewrite Hwo, Hfo in *.
  inversion Ho as [? ? Hba|]; subst.
  destruct (node (w_tables w) i s) as [n t] eqn:Hnode. exists n, t. split; [done|].
  pose proof (node_grows _ _ _ _ _ Hnode) as Hg.
  pose proof (node_refused _ _ _ _ _ Hnode) as Href.
  pose proof (node_size _ _ _ _ _ Hnode) as Hsz.
  assert (Hfit : tables_fit t) by (apply table_size_fits; lia).
  assert (Hmono : refused t = None -> refused (w_tables w) = None)
    by (rewrite Href; apply refuse_mono).
  split; cbn; try done.
  - by eapply blocks_rel_mono.
  - constructor. apply (block_rel_mono _ _ _ _ Hg Hmono) in Hba.
    apply block_rel_set; [done|by rewrite !length_app, (br_len _ _ _ Hba)|].
    intros Hnone Hc. apply Forall2_app; [done|]. constructor; [|done].
    intros p Hp. cbn. by eapply node_reads.
  - by rewrite Href, Hr.
  - by eapply node_ix_ok.
  - unfold block_count in *. cbn in *. lia.
  - unfold node_count in *. cbn in *. rewrite length_app. cbn.
    unfold instr_weight. lia.
Qed.

Lemma emit_sim W i s w f :
  instr_typed i -> span_typed s -> (N.of_nat (W + instr_weight i) < 2 ^ 32)%N ->
  work_rel W w f ->
  option_Forall2 (work_rel (W + instr_weight i)) (emit i s w) (a_work (EmitInstr i s) f).
Proof.
  intros Hty Hsp Hw Hrel. unfold emit. cbn. pose proof (wr_open _ _ _ Hrel) as Ho.
  inversion Ho as [o a Hba Hwo Hfo|Hwo Hfo].
  - symmetry in Hwo, Hfo.
    destruct (emit_step _ _ _ _ _ _ _ Hty Hsp Hw Hrel Hwo Hfo) as (n & t & -> & Hrel').
    cbn. by constructor.
  - destruct (node _ _ _). cbn. constructor.
Qed.

(** A run of emissions, and what it leaves of the function it started in. *)
Lemma emits_step run : forall W w f o a,
  run_typed run -> (N.of_nat (W + run_weight run) < 2 ^ 32)%N ->
  work_rel W w f -> w_open w = Some o -> f_open f = Some a ->
  exists ns t, emits run w
      = Some (mkWork (w_head w) (w_blocks w) (Some (set_nodes o (bl_nodes o ++ ns))) t) /\
    grows (w_tables w) t /\
    work_rel (W + run_weight run)
      (mkWork (w_head w) (w_blocks w) (Some (set_nodes o (bl_nodes o ++ ns))) t)
      (mkAFun (f_head f) (f_blocks f) (Some (set_code a (a_code a ++ run)))
         (foldl a_refuse (f_refused f) run)).
Proof.
  induction run as [|[i s] run IH]; intros W w f o a Hty Hw Hrel Hwo Hfo; cbn [run_weight emits foldl] in *.
  - exists [], (w_tables w). rewrite !app_nil_r. change (run_weight []) with 0 in *.
    rewrite Nat.add_0_r. destruct w as [h bs ow t], f as [fh fb fo fr]. cbn in *. subst.
    destruct o, a. split_and!; done.
  - apply Forall_cons in Hty as [[Hti Hsi] Hty].
    assert (Hsum : run_weight ((i, s) :: run) = instr_weight i + run_weight run) by done.
    rewrite Hsum in *.
    destruct (emit_step W i s w f o a Hti Hsi ltac:(lia) Hrel Hwo Hfo) as (n & t & Hn & Hrel').
    unfold emit. rewrite Hn, Hwo. cbn [mbind option_bind].
    edestruct (IH (W + instr_weight i)%nat) as (ns & t' & He & Hg & Hrel'');
      [exact Hty|lia|exact Hrel'|reflexivity|reflexivity|].
    exists (n :: ns), t'. cbn in He. rewrite He. unfold set_nodes in *. cbn in *.
    rewrite <- (app_assoc _ [n] ns) in *. cbn in *. split; [done|]. split.
    + transitivity t; [by eapply node_grows|done].
    + rewrite <- (app_assoc _ [(i, s)] run) in Hrel''. by rewrite Nat.add_assoc.
Qed.

(** Taking a run back gives the function it started in, with the refusals the
    run met. *)
Lemma trial_restores W run w f o a :
  run_typed run -> (N.of_nat (W + run_weight run) < 2 ^ 32)%N ->
  work_rel W w f -> w_open w = Some o -> f_open f = Some a ->
  trial run w
  = Some (mkWork (w_head w) (w_blocks w) (w_open w)
            (set_refused (w_tables w) (foldl a_refuse (f_refused f) run))).
Proof.
  intros Hty Hw Hrel Hwo Hfo. unfold trial, mark. rewrite Hwo. cbn [mbind option_bind].
  destruct (emits_step run W w f o a Hty Hw Hrel Hwo Hfo) as (ns & t & -> & Hg & Hrel').
  cbn [mbind option_bind]. unfold retract. cbn.
  rewrite decide_True by (rewrite length_app; lia).
  rewrite (retract_undoes _ _ Hg (wr_ix _ _ _ Hrel) (wr_ix _ _ _ Hrel')). cbn.
  rewrite (wr_refused _ _ _ Hrel' : refused t = _). cbn. rewrite take_app_length.
  by destruct o.
Qed.

Lemma foldl_refuse_mono run r : foldl a_refuse r run = None -> r = None.
Proof.
  revert r. induction run as [|x run IH]; intros r; [done|]. cbn. intros H%IH.
  by eapply refuse_mono.
Qed.

Lemma trial_sim W run w f :
  run_typed run -> (N.of_nat (W + run_weight run) < 2 ^ 32)%N -> work_rel W w f ->
  option_Forall2 (work_rel W) (trial run w) (a_work (Trial run) f).
Proof.
  intros Hty Hw Hrel. pose proof (wr_open _ _ _ Hrel) as Ho.
  inversion Ho as [o a Hba Hwo Hfo|Hwo Hfo]; symmetry in Hwo, Hfo; cbn; rewrite Hfo; cbn.
  2: { unfold trial, mark. rewrite Hwo. cbn. constructor. }
  rewrite (trial_restores _ _ _ _ _ _ Hty Hw Hrel Hwo Hfo). constructor.
  set (r := foldl a_refuse (f_refused f) run).
  assert (Hg : grows (w_tables w) (set_refused (w_tables w) r)) by done.
  assert (Hm : refused (set_refused (w_tables w) r) = None -> refused (w_tables w) = None).
  { cbn. rewrite (wr_refused _ _ _ Hrel). apply foldl_refuse_mono. }
  destruct Hrel as [Hh Hb _ Hr Hi Hs Hn]. split; cbn; try done.
  - by eapply blocks_rel_mono.
  - rewrite Hwo. constructor. by eapply block_rel_mono.
Qed.

Lemma move_run_list {A} (l : list A) start at_ :
  at_ <= start -> start <= length l ->
  rotate_right (drop at_ l) (length l - start) = Some (drop start l ++ drop at_ (take start l)).
Proof.
  intros H1 H2. unfold rotate_right. rewrite length_drop, decide_True by lia.
  replace (length l - at_ - (length l - start)) with (start - at_) by lia.
  rewrite drop_drop, take_drop_commute. by replace (at_ + (start - at_)) with start by lia.
Qed.

Lemma move_run_sim W start at_ w f :
  work_rel W w f ->
  option_Forall2 (work_rel W) (move_run start at_ w) (a_work (MoveRun start at_) f).
Proof.
  intros [Hh Hb Ho Hr Hi Hs Hn]. unfold move_run. cbn.
  destruct Ho as [o a Hba|]; cbn; [|constructor].
  pose proof (br_len _ _ _ Hba) as Hlen. rewrite Hlen.
  case_decide as Hd; [|constructor]. destruct Hd as [H1 H2].
  rewrite <- Hlen, move_run_list by lia. cbn. constructor. split; cbn; try done.
  - constructor. apply block_rel_set; [done| |].
    + rewrite !length_app, !length_take, !length_drop, !length_take. lia.
    + intros _ Hc. apply Forall2_app; [by apply Forall2_take|].
      apply Forall2_app; [by apply Forall2_drop|]. by apply Forall2_drop, Forall2_take.
  - unfold node_count in *. cbn in *.
    rewrite !length_app, length_take, !length_drop, length_take. lia.
Qed.

Lemma sum_list_with_insert {A} (g : A -> nat) (l : list A) i x y :
  l !! i = Some x -> sum_list_with g (<[i := y]> l) + g x = sum_list_with g l + g y.
Proof.
  revert i. induction l as [|z l IH]; intros [|i] H; cbn in *; try done.
  - simplify_eq. lia.
  - specialize (IH i H). unfold insert in *. lia.
Qed.

Lemma move_run_to_sim W start block at_ w f :
  work_rel W w f ->
  option_Forall2 (work_rel W) (move_run_to start block at_ w) (a_work (MoveRunTo start block at_) f).
Proof.
  intros [Hh Hb Ho Hr Hi Hs Hn]. unfold move_run_to. cbn.
  destruct Ho as [o a Hba|]; cbn; [|constructor].
  pose proof (br_len _ _ _ Hba) as Hlen.
  destruct (w_blocks w !! block) as [tb|] eqn:Htb.
  2: { apply lookup_ge_None in Htb. rewrite (Forall2_length _ _ _ Hb) in Htb.
       rewrite (lookup_ge_None_2 _ _ Htb). by case_decide; constructor. }
  destruct (Forall2_lookup_l _ _ _ _ _ Hb Htb) as (ta & Hta & Htr). rewrite Hta. cbn.
  pose proof (br_len _ _ _ Htr) as Htl. unfold insert_slice. rewrite Hlen, Htl.
  repeat case_decide; try (exfalso; lia); try constructor. cbn. split; cbn; try done.
  - apply Forall2_insert; [done|]. apply block_rel_set; [done| |].
    + rewrite !length_app, !length_take, !length_drop. lia.
    + intros Hnone Hc. apply Forall2_app; [by apply Forall2_take|].
      apply Forall2_app; [apply Forall2_drop, (br_code _ _ _ Hba Hnone)|by apply Forall2_drop].
  - constructor. apply block_rel_set; [done| |].
    + rewrite !length_take. lia.
    + intros _ Hc. by apply Forall2_take.
  - unfold block_count in *. by rewrite length_insert.
  - unfold node_count in *. cbn in *.
    pose proof (sum_list_with_insert (fun b => length (bl_nodes b)) (w_blocks w) block tb
      (set_nodes tb (take at_ (bl_nodes tb) ++ drop start (bl_nodes o) ++ drop at_ (bl_nodes tb))) Htb)
      as Hsum. cbn in Hsum. rewrite !length_app, length_take, !length_drop in Hsum.
    rewrite length_take. lia.
Qed.

(** ** Freezing *)

Lemma read_nodes_rel t p ns l :
  extends t p -> Forall2 (node_rel t) ns l -> mapM (read_node p) ns = Some l.
Proof.
  intros Hp H. apply mapM_Some. eapply Forall2_impl; [exact H|].
  intros n [i s] Hn. destruct (Hn p Hp) as [Hi _ Hs _ _ _]. unfold read_node. cbn in *.
  rewrite Hi. cbn. unfold node_span. by rewrite Hs.
Qed.

Lemma frozen_block_reads t b a r t1 t' p (pre post : list Node) :
  block_rel t b a -> refused t = None -> grows t t' ->
  exit t (bl_label b) (bl_exit b) (bl_span b) = (r, t1) -> grows t1 t' ->
  tables_fit t' -> extends t' p -> p_nodes p = pre ++ bl_nodes b ++ post ->
  (N.of_nat (length (pre ++ bl_nodes b)) < 2 ^ 32)%N ->
  read_block p (mkBlockRec (b_label r) (len_u32 pre) (len_u32 (bl_nodes b))
    (b_term_a r) (b_term_b r) (b_term_c r) (b_start r) (b_end r) (b_line r) (b_col r) (b_file r)
    (b_term_op r)) = Some a.
Proof.
  intros [Hl He Hs Ht Hn Hc] Hnone Hg Hx Hg1 Hfit Hext Hp Hlen. rewrite length_app in Hlen.
  destruct (exit_reads _ _ _ _ _ _ p Hx) as [Xl Xt Xs].
  { by rewrite Hs. } { by eapply tables_fit_grows. } { by eapply grows_extends. }
  unfold read_block, block_nodes. cbn [b_first b_len].
  rewrite !len_u32_small, Hp, slice_all by lia. cbn [mbind option_bind].
  rewrite (read_nodes_rel t _ _ (a_code a)); [|by eapply grows_extends|by apply Hc].
  cbn [mbind option_bind].
  change (terminator _ p) with (terminator r p). rewrite Xt. cbn [mbind option_bind].
  unfold terminator_span. cbn [b_start b_end b_line b_col b_file]. rewrite Xs.
  cbn [mbind option_bind b_label]. rewrite Xl, Hl, He, Hs. by destruct a.
Qed.

Definition all_nodes (bs : list Block) : list Node := concat (bl_nodes <$> bs).

Lemma all_nodes_length bs : length (all_nodes bs) = sum_list_with (fun b => length (bl_nodes b)) bs.
Proof.
  induction bs as [|b bs IH]; [done|]. unfold all_nodes in *. cbn. rewrite length_app.
  by rewrite IH.
Qed.

Lemma freeze_blocks bs : forall al t ns rs,
  Forall2 (block_rel t) bs al -> refused t = None ->
  (N.of_nat (table_size t + length bs) < 2 ^ 32)%N ->
  (N.of_nat (length (ns ++ all_nodes bs)) < 2 ^ 32)%N ->
  exists t' rs', foldl freeze_block (t, ns, rs) bs = (t', ns ++ all_nodes bs, rs ++ rs') /\
    grows t t' /\ values t' = values t /\ value_ix t' = value_ix t /\
    table_size t' <= table_size t + length bs /\
    forall p post, extends t' p -> p_nodes p = ns ++ all_nodes bs ++ post ->
      mapM (read_block p) rs' = Some al.
Proof.
  induction bs as [|b bs IH]; intros al t ns rs Hb Hnone Hsz Hlen; inversion Hb as [|? a ? al' Hba Hb']; subst.
  - exists t, []. unfold all_nodes. cbn. rewrite !app_nil_r. split_and!; try done. lia.
  - cbn [foldl length] in *. unfold freeze_block at 2.
    destruct (exit t (bl_label b) (bl_exit b) (bl_span b)) as [r t1] eqn:Hx.
    pose proof (exit_grows _ _ _ _ _ _ Hx) as Hg1. pose proof (exit_size _ _ _ _ _ _ Hx) as Hs1.
    destruct (exit_keeps _ _ _ _ _ _ Hx) as (Hv1 & Hi1 & Hr1). rewrite Hnone in Hr1.
    unfold all_nodes in *. cbn [fmap list_fmap concat] in *.
    match goal with |- context [foldl _ (_, _, rs ++ [?R]) _] => set (rec := R) end.
    destruct (IH al' t1 (ns ++ bl_nodes b) (rs ++ [rec])) as (t' & rs' & Hf & Hg & Hv & Hi & Hs & Hread).
    { eapply blocks_rel_mono; [exact Hg1| |exact Hb']. by rewrite Hnone. } { done. } { lia. }
    { by rewrite <- app_assoc. }
    exists t', (rec :: rs'). rewrite Hf, <- !app_assoc. split; [done|].
    split; [by transitivity t1|]. split; [congruence|]. split; [congruence|]. split; [lia|].
    intros p post Hp Hpn. apply mapM_Some. constructor.
    + apply (frozen_block_reads t b a r t1 t' p ns (concat (bl_nodes <$> bs) ++ post)); try done.
      * by transitivity t1.
      * apply table_size_fits. lia.
      * by rewrite Hpn, <- app_assoc.
      * rewrite !length_app in *. lia.
    + apply mapM_Some, (Hread p post); [done|]. by rewrite Hpn, <- !app_assoc.
Qed.

Lemma freeze_frozen W w f :
  work_rel W w f -> (N.of_nat W < 2 ^ 32)%N -> w_open w = None ->
  same_result (freeze w).1 (match f_refused f with Some n => inl n | None => inr f end).
Proof.
  intros [Hh Hb Ho Hr Hi Hs Hn] HW Hwo. unfold freeze. rewrite Hr.
  destruct (f_refused f) as [n|] eqn:Hrf; [done|].
  unfold block_count, node_count in *. rewrite Hwo in *. cbn in *.
  destruct (freeze_blocks (w_blocks w) (f_blocks f) (w_tables w) [] [])
    as (t' & rs & Hf & Hg & Hv & _ & Hsz & Hread); try done; [lia|cbn; rewrite all_nodes_length; lia|].
  rewrite Hf. cbn. split.
  - cbn. eapply (Hread _ []); [by split|]. cbn. by rewrite app_nil_r.
  - cbn. unfold of_code, frozen_head. cbn. by rewrite Hh.
  - unfold from_parts. cbn. unfold len_u32. rewrite as_u32_small; [by rewrite N.eqb_refl|].
    rewrite Hv. unfold table_size in Hs. lia.
Qed.

(** ** The builder *)

Record builder_rel (W : nat) (b : LirBuilder) (st : list AFun) : Prop := mk_builder_rel {
  bd_stack : Forall2 (work_rel W) (stack b) st;
  bd_spare : Forall (fun s => spare_blocks s = []) (spare b) }.

(** The two runs agree: both panic, or both return related states and results. *)
Definition agree (W : nat) (c : option (LirBuilder * list (N + LirOwned)))
    (a : option (list AFun * list (N + AFun))) : Prop :=
  match c, a with
  | Some (b, out), Some (st, aout) => builder_rel W b st /\ Forall2 same_result out aout
  | None, None => True
  | _, _ => False
  end.

Lemma stack_weaken W W' l st :
  W <= W' -> Forall2 (work_rel W) l st -> Forall2 (work_rel W') l st.
Proof. intros Hle H. eapply Forall2_impl; [exact H|]. intros ??. by apply work_rel_weaken. Qed.

Lemma on_top_sim W W' b st (op : Work -> option Work) c :
  builder_rel W b st -> W <= W' ->
  (forall w f, work_rel W w f -> option_Forall2 (work_rel W') (op w) (a_work c f)) ->
  agree W' (b' ← on_top b op; Some (b', []))
    (match st with f :: st => f' ← a_work c f; Some (f' :: st, []) | [] => None end).
Proof.
  intros [Hs Hsp] Hle Hop. unfold on_top. destruct Hs as [|w f ws st Hw Hs]; [done|].
  destruct (Hop w f Hw) as [w' f' Hw'|]; cbn; [|done].
  split; [|done]. split; cbn; [|done]. constructor; [done|]. by eapply stack_weaken.
Qed.

Lemma Tables_new_ok ix : ix_ok (Tables_new ix) /\ table_size (Tables_new ix) = 0.
Proof.
  split; [|done]. intros k x. cbn. rewrite lookup_empty. split; [done|].
  intros (v & Hv & _). done.
Qed.

Lemma begin_function_sim W b st arity :
  builder_rel W b st -> builder_rel W (begin_function b arity) (AFun_new arity :: st).
Proof.
  intros [Hs Hsp]. unfold begin_function.
  assert (Hsb : forall s, spare_blocks s = [] ->
    work_rel W (mkWork (LirHead_new arity) (spare_blocks s) None (Tables_new (spare_ix s)))
      (AFun_new arity)).
  { intros s Hb. destruct (Tables_new_ok (spare_ix s)) as [Hi Hz].
    split; cbn -[table_size]; rewrite ?Hb; try done; [constructor| |].
    - rewrite Hz. unfold block_count. cbn. lia.
    - unfold node_count. cbn. lia. }
  destruct Hsp as [|s l Hb Hl]; (split; [constructor; [|done]|done]).
  - by apply (Hsb (mkSpare [] ∅)).
  - by apply Hsb.
Qed.

Lemma finish_function_sim W b st :
  builder_rel W b st -> (N.of_nat W < 2 ^ 32)%N ->
  agree W (call b FinishFunction) (a_call st FinishFunction).
Proof.
  intros [Hs Hsp] HW. unfold call, finish_function. cbn.
  destruct Hs as [|w f ws st Hw Hs]; [done|].
  pose proof (wr_open _ _ _ Hw) as Ho. inversion Ho as [? ? ? Hwo Hfo|Hwo Hfo]; [done|].
  pose proof (freeze_frozen _ _ _ Hw HW (eq_sym Hwo)) as Hf.
  destruct (freeze w) as [r t]. cbn in *. split; [|by constructor].
  split; cbn; [done|]. by constructor.
Qed.

Lemma call_sim W b st c :
  builder_rel W b st -> call_typed c -> (N.of_nat (W + call_weight c) < 2 ^ 32)%N ->
  agree (W + call_weight c) (call b c) (a_call st c).
Proof.
  intros Hb Hty HW.
  assert (Htop : forall op, (forall w f, work_rel W w f ->
      option_Forall2 (work_rel (W + call_weight c)) (op w) (a_work c f)) ->
    agree (W + call_weight c) (b' ← on_top b op; Some (b', []))
      (match st with f :: st => f' ← a_work c f; Some (f' :: st, []) | [] => None end)).
  { intros op Hop. apply (on_top_sim W); [done|lia|done]. }
  destruct c; cbn [call_weight] in *; rewrite ?Nat.add_0_r in *.
  - cbn. split; [|done]. by apply begin_function_sim.
  - apply (Htop (with_head f)). intros w g. apply with_head_sim.
  - apply (Htop (open_block l)). intros w g. apply open_block_sim.
  - destruct Hty. apply (Htop (emit i s)). intros w g. by apply emit_sim.
  - apply (Htop (terminate e s)). intros w g. by apply terminate_sim.
  - apply (Htop finish_block). intros w g. apply finish_block_sim.
  - apply (Htop (trial run)). intros w g Hwg.
    destruct (trial_sim _ _ _ _ Hty HW Hwg) as [w' f' Hrel|]; constructor.
    eapply work_rel_weaken; [|done]. lia.
  - apply (Htop (move_run start at_)). intros w g. apply move_run_sim.
  - apply (Htop (move_run_to start block at_)). intros w g. apply move_run_to_sim.
  - by apply finish_function_sim.
Qed.

Lemma calls_sim cs : forall W b st,
  builder_rel W b st -> Forall call_typed cs ->
  (N.of_nat (W + sum_list_with call_weight cs) < 2 ^ 32)%N ->
  agree (W + sum_list_with call_weight cs) (calls b cs) (a_calls st cs).
Proof.
  induction cs as [|c cs IH]; intros W b st Hb Hty HW.
  - cbn. rewrite Nat.add_0_r. split; [done|constructor].
  - apply Forall_cons in Hty as [Hc Hty]. cbn [sum_list_with calls a_calls] in *.
    pose proof (call_sim W b st c Hb Hc ltac:(lia)) as H1.
    destruct (call b c) as [[b' out]|], (a_call st c) as [[st' aout]|]; try done.
    destruct H1 as [Hb' Hout]. cbn [mbind option_bind].
    pose proof (IH _ b' st' Hb' Hty ltac:(lia)) as H2. rewrite <- Nat.add_assoc in H2.
    destruct (calls b' cs) as [[b'' outs]|], (a_calls st' cs) as [[st'' aouts]|]; try done.
    destruct H2 as [Hb'' Houts]. cbn. split; [done|]. by apply Forall2_app.
Qed.
