(* ===== verification/LirSplit.v ===== *)
(** * Splitting a function keeps what it does

    [split_after] cuts blocks so that every chosen instruction ends a block.
    The cut function runs as the original does, under any meaning given to
    the instructions and the terminators other than jumps. *)

From stdpp Require Import base numbers option list gmap.
From S2P Require Import Prelude SignalBits LirRecord LirInstr LirCodec LirCodecProps LirBuild LirView LirSpec.

(** ** Running a function *)

Section run.
Context {St : Type}.
Variable step : InstrRef -> St -> St -> Prop.
Variable goto : Terminator -> St -> St -> option Label -> Prop.

(** The labels a terminator can continue at. *)
Definition targets (e : Terminator) : list Label :=
  match e with
  | Jump l => [l]
  | Branch _ a b => [a; b]
  | Emit _ _ l => [l]
  | Return _ | Unreachable => []
  end.

Hypothesis goto_targets : forall e s s' l, goto e s s' (Some l) -> l ∈ targets e.

Inductive steps : list (InstrRef * Span) -> St -> St -> Prop :=
| steps_nil s : steps [] s s
| steps_cons i sp l s s1 s2 : step i s s1 -> steps l s1 s2 -> steps ((i, sp) :: l) s s2.

(** A jump continues in the state it is reached in. *)
Inductive leaves : Terminator -> St -> St -> option Label -> Prop :=
| leaves_jump l s : leaves (Jump l) s s (Some l)
| leaves_other e s s' o : (forall l, e <> Jump l) -> goto e s s' o -> leaves e s s' o.

(** [reach F l s o s']: entered at [l] in [s], the function gets to the
    label [o] in [s'], or has left when [o] is [None]. *)
Inductive reach (F : list ABlock) : Label -> St -> option Label -> St -> Prop :=
| reach_here l s : reach F l s (Some l) s
| reach_exit b s s1 s2 :
    b ∈ F -> steps (a_code b) s s1 -> leaves (a_exit b) s1 s2 None ->
    reach F (a_label b) s None s2
| reach_next b s s1 s2 l o s3 :
    b ∈ F -> steps (a_code b) s s1 -> leaves (a_exit b) s1 s2 (Some l) -> reach F l s2 o s3 ->
    reach F (a_label b) s o s3.

Lemma steps_app l1 l2 s s2 :
  steps (l1 ++ l2) s s2 <-> exists s1, steps l1 s s1 /\ steps l2 s1 s2.
Proof.
  revert s. induction l1 as [|[i sp] l1 IH]; intros s; cbn.
  - split; [intros H; exists s; split; [constructor|done]|].
    intros (s1 & H1 & H2). by inversion H1; subst.
  - split.
    + intros H. inversion H as [|? ? ? ? s0 ? Hs Hl]; subst. apply IH in Hl as (s1 & H1 & H2).
      exists s1. split; [|done]. by econstructor.
    + intros (s1 & H1 & H2). inversion H1 as [|? ? ? ? s0 ? Hs Hl]; subst.
      econstructor; [done|]. apply IH. eauto.
Qed.

Definition labels (F : list ABlock) : list Label := a_label <$> F.

(** Every continuation is a block of the function. *)
Definition closed (F : list ABlock) : Prop :=
  Forall (fun b => Forall (fun l => l ∈ labels F) (targets (a_exit b))) F.

(** Entered at [l], [G] runs [c] and exits by [e], passing only through
    labels that are not of [F]. *)
Inductive covers (F G : list ABlock) : Label -> list (InstrRef * Span) -> Terminator -> Prop :=
| covers_last b : b ∈ G -> covers F G (a_label b) (a_code b) (a_exit b)
| covers_cut b k c e :
    b ∈ G -> a_exit b = Jump k -> k ∉ labels F -> covers F G k c e ->
    covers F G (a_label b) (a_code b ++ c) e.

Lemma leaves_targets e s s' l : leaves e s s' (Some l) -> l ∈ targets e.
Proof.
  inversion 1 as [|? ? ? ? ? Hg]; subst; [cbn; set_solver|]. by apply goto_targets in Hg.
Qed.

Lemma leaves_jump_inv k s s' o : leaves (Jump k) s s' o -> s' = s /\ o = Some k.
Proof. inversion 1 as [|? ? ? ? Hj ?]; subst; [done|]. by destruct (Hj k). Qed.

Lemma labels_unique G b b' :
  NoDup (labels G) -> b ∈ G -> b' ∈ G -> a_label b = a_label b' -> b = b'.
Proof.
  unfold labels. intros Hn [i Hi]%list_elem_of_lookup [j Hj]%list_elem_of_lookup Heq.
  assert (i = j); [|by simplify_eq].
  eapply (NoDup_lookup _ i j (a_label b) Hn); rewrite list_lookup_fmap; [by rewrite Hi|].
  by rewrite Hj, Heq.
Qed.

Section cover.
Variables F G : list ABlock.
Hypothesis HG : NoDup (labels G).
Hypothesis Hclosed : closed F.
Hypothesis Hcov : Forall (fun b => covers F G (a_label b) (a_code b) (a_exit b)) F.

Lemma covers_exit l c e s s1 s2 :
  covers F G l c e -> steps c s s1 -> leaves e s1 s2 None -> reach G l s None s2.
Proof.
  intros Hc. revert s. induction Hc as [b Hb|b k c e Hb Hj Hk Hc IH]; intros s Hs Hl.
  - by eapply reach_exit.
  - apply steps_app in Hs as (s0 & H1 & H2). eapply reach_next; [done|done| |by apply IH].
    rewrite Hj. constructor.
Qed.

Lemma covers_next l c e s s1 s2 l' o s3 :
  covers F G l c e -> steps c s s1 -> leaves e s1 s2 (Some l') -> reach G l' s2 o s3 ->
  reach G l s o s3.
Proof.
  intros Hc. revert s. induction Hc as [b Hb|b k c e Hb Hj Hk Hc IH]; intros s Hs Hl Hr.
  - by eapply reach_next.
  - apply steps_app in Hs as (s0 & H1 & H2). eapply reach_next; [done|done| |by eapply IH].
    rewrite Hj. constructor.
Qed.

Lemma reach_covered l s o s' : reach F l s o s' -> reach G l s o s'.
Proof.
  rewrite Forall_forall in Hcov.
  induction 1 as [l s|b s s1 s2 Hb Hs Hl|b s s1 s2 l o s3 Hb Hs Hl Hr IH]; [constructor| |].
  - eapply covers_exit; eauto.
  - eapply covers_next; eauto.
Qed.

(** Backwards: a run of [G] that ends at a label of [F], or leaves, went
    through the whole of the code it entered. *)
Lemma covered_reach l s o s' :
  reach G l s o s' -> from_option (fun k => k ∈ labels F) True o ->
  forall c e, covers F G l c e -> Forall (fun k => k ∈ labels F) (targets e) ->
  (o = Some l /\ s' = s) \/
  exists s1 s2 o1, steps c s s1 /\ leaves e s1 s2 o1 /\
    match o1 with None => o = None /\ s2 = s' | Some l1 => reach F l1 s2 o s' end.
Proof.
  rewrite Forall_forall in Hcov. unfold closed in Hclosed. rewrite Forall_forall in Hclosed.
  induction 1 as [l s|b s s1 s2 Hb Hs Hl|b s s1 s2 l o s3 Hb Hs Hl Hr IH];
    intros Ho c e Hc Ht; [by left| |]; right;
    inversion Hc as [b' Hb'|b' k c' e' Hb' Hj Hk Hc']; subst;
    assert (b' = b) as -> by (by eapply labels_unique).
  - exists s1, s2, None. done.
  - rewrite Hj in Hl. by apply leaves_jump_inv in Hl as [_ ?].
  - exists s1, s2, (Some l). split; [done|]. split; [done|].
    pose proof (leaves_targets _ _ _ _ Hl) as Hlt. rewrite Forall_forall in Ht.
    apply Ht, list_elem_of_fmap in Hlt as (b1 & -> & Hb1).
    destruct (IH Ho _ _ (Hcov _ Hb1) (Hclosed _ Hb1)) as [[-> ->]|(t1 & t2 & o1 & Hs' & Hl' & Hm)].
    + constructor.
    + destruct o1 as [l1|]; [by eapply reach_next|]. destruct Hm as [-> ->]. by eapply reach_exit.
  - rewrite Hj in Hl. apply leaves_jump_inv in Hl as [-> [= ->]].
    destruct (IH Ho _ _ Hc' Ht) as [[-> ->]|(t1 & t2 & o1 & Hs' & Hl' & Hm)].
    + cbn in Ho. by destruct Hk.
    + exists t1, t2, o1. split; [|done]. apply steps_app. eauto.
Qed.

Lemma reach_iff l s o s' :
  l ∈ labels F -> from_option (fun k => k ∈ labels F) True o ->
  reach F l s o s' <-> reach G l s o s'.
Proof.
  intros Hl Ho. split; [apply reach_covered|]. intros Hr.
  apply list_elem_of_fmap in Hl as (b & -> & Hb).
  pose proof (proj1 (Forall_forall _ _) Hcov _ Hb) as Hcb.
  pose proof (proj1 (Forall_forall _ _) Hclosed _ Hb) as Hct.
  destruct (covered_reach _ _ _ _ Hr Ho _ _ Hcb Hct) as [[-> ->]|(t1 & t2 & o1 & Hs & Hl & Hm)].
  - constructor.
  - destruct o1 as [l1|]; [by eapply reach_next|]. destruct Hm as [-> ->]. by eapply reach_exit.
Qed.
End cover.
End run.

(** ** Cutting abstract blocks *)

(** [acc] is the open piece, labelled [label]; [next] is the next fresh label. *)
Fixpoint a_cut (at_ : Op -> bool) (next label : N) (acc code : list (InstrRef * Span))
    (e : Terminator) (sp : Span) : list ABlock * N :=
  match code with
  | [] => ([mkABlock label acc e sp], next)
  | x :: rest =>
    if negb (bool_decide (rest = [])) && at_ (op_of x.1) then
      let (bs, n) := a_cut at_ (next + 1) next [] rest e sp in
      (mkABlock label (acc ++ [x]) (Jump next) sp :: bs, n)
    else a_cut at_ next label (acc ++ [x]) rest e sp
  end.

(** Each block of [F] cut, the fresh labels counting on. *)
Fixpoint a_split (at_ : Op -> bool) (next : N) (F : list ABlock) : list ABlock * N :=
  match F with
  | [] => ([], next)
  | b :: rest =>
    let (bs, n) := a_cut at_ next (a_label b) [] (a_code b) (a_exit b) (a_span b) in
    let (bs', n') := a_split at_ n rest in
    (bs ++ bs', n')
  end.

Lemma a_cut_next at_ code : forall next label acc e sp,
  (next <= (a_cut at_ next label acc code e sp).2)%N.
Proof.
  induction code as [|x rest IH]; intros next label acc e sp; cbn; [lia|].
  destruct (negb _ && _); [|apply IH].
  specialize (IH (next + 1)%N next [] e sp).
  destruct (a_cut _ _ _ _ _ _ _) as [bs n]. cbn in *. lia.
Qed.

Lemma a_split_next at_ F : forall next, (next <= (a_split at_ next F).2)%N.
Proof.
  induction F as [|b F IH]; intros next; cbn; [lia|].
  pose proof (a_cut_next at_ (a_code b) next (a_label b) [] (a_exit b) (a_span b)) as H.
  destruct (a_cut _ _ _ _ _ _ _) as [bs n]. specialize (IH n).
  destruct (a_split at_ n F) as [bs' n']. cbn in *. lia.
Qed.

(** The labels of the pieces: the block's own, then the fresh ones. *)
Lemma a_cut_labels at_ code : forall next label acc e sp,
  labels (a_cut at_ next label acc code e sp).1
  = label :: ((fun k => next + N.of_nat k)%N <$>
      seq 0 (N.to_nat ((a_cut at_ next label acc code e sp).2 - next))).
Proof.
  induction code as [|x rest IH]; intros next label acc e sp; cbn.
  - by rewrite N.sub_diag.
  - destruct (negb _ && _); [|apply IH].
    pose proof (a_cut_next at_ rest (next + 1)%N next [] e sp) as Hn.
    specialize (IH (next + 1)%N next [] e sp).
    destruct (a_cut _ _ _ _ _ _ _) as [bs n]. cbn in *.
    rewrite IH. f_equal. replace (N.to_nat (n - next)) with (S (N.to_nat (n - (next + 1)))) by lia.
    cbn [seq fmap list_fmap]. rewrite N.add_0_r. f_equal.
    rewrite <- (fmap_S_seq 0), <- list_fmap_compose. apply list_fmap_ext. intros _ k _. cbn. lia.
Qed.

(** No selected instruction is inside a piece. *)
Definition ends_pieces (at_ : Op -> bool) (G : list ABlock) : Prop :=
  Forall (fun b => forall j x, a_code b !! j = Some x -> S j < length (a_code b) ->
    at_ (op_of x.1) = false) G.

Lemma a_cut_ends at_ code : forall next label acc e sp,
  Forall (fun x => at_ (op_of x.1) = false) acc ->
  ends_pieces at_ (a_cut at_ next label acc code e sp).1.
Proof.
  induction code as [|x rest IH]; intros next label acc e sp Hacc; cbn.
  - constructor; [|constructor]. cbn. intros j y Hj _.
    eapply (Forall_lookup_1 _ _ _ _ Hacc Hj).
  - assert (Hin : forall j y, (acc ++ [x]) !! j = Some y -> S j < length (acc ++ [x]) ->
      at_ (op_of y.1) = false).
    { intros j y Hj Hlt. rewrite length_app in Hlt. cbn in Hlt.
      rewrite lookup_app_l in Hj by lia. eapply (Forall_lookup_1 _ _ _ _ Hacc Hj). }
    destruct (bool_decide (rest = [])) eqn:Hr; cbn.
    + apply bool_decide_eq_true in Hr as ->. cbn. by repeat constructor.
    + destruct (at_ (op_of x.1)) eqn:Hx.
      * specialize (IH (next + 1)%N next [] e sp (Forall_nil_2 _)).
        destruct (a_cut _ _ _ _ _ _ _) as [bs n]. by constructor.
      * apply IH. apply Forall_app. by repeat constructor.
Qed.

(** The pieces of a block, chained, are the block. *)
Lemma a_cut_covers F G at_ code : forall next label acc e sp,
  Forall (fun b => b ∈ G) (a_cut at_ next label acc code e sp).1 ->
  (forall k, (next <= k)%N -> k ∉ labels F) ->
  covers F G label (acc ++ code) e.
Proof.
  induction code as [|x rest IH]; intros next label acc e sp Hin Hf; cbn in Hin.
  - apply Forall_cons in Hin as [Hb _]. rewrite app_nil_r. by apply (covers_last _ _ _ Hb).
  - rewrite (app_assoc acc [x] rest : acc ++ x :: rest = _).
    destruct (negb _ && _); [|by eapply IH].
    destruct (a_cut at_ (next + 1) next [] rest e sp) as [bs n] eqn:Hc. cbn in Hin.
    apply Forall_cons in Hin as [Hb Hin].
    apply (covers_cut F G (mkABlock label (acc ++ [x]) (Jump next) sp) next rest e Hb);
      [done|apply Hf; lia|].
    apply (IH (next + 1)%N next [] e sp); [by rewrite Hc|]. intros k Hk. apply Hf. lia.
Qed.

Definition fresh (a b : N) : list N := (fun k => a + N.of_nat k)%N <$> seq 0 (N.to_nat (b - a)).

Lemma fresh_app a b c : (a <= b)%N -> (b <= c)%N -> fresh a c = fresh a b ++ fresh b c.
Proof.
  intros Hab Hbc. unfold fresh.
  replace (N.to_nat (c - a)) with (N.to_nat (b - a) + N.to_nat (c - b)) by lia.
  rewrite seq_app, fmap_app. f_equal. rewrite Nat.add_0_l.
  rewrite <- (Nat.add_0_r (N.to_nat (b - a))) at 1. rewrite <- fmap_add_seq, <- list_fmap_compose.
  apply list_fmap_ext. intros _ k _. cbn. lia.
Qed.

Lemma elem_of_fresh a b k : k ∈ fresh a b <-> (a <= k < b)%N.
Proof.
  unfold fresh. rewrite list_elem_of_fmap. split.
  - intros (j & -> & Hj%elem_of_seq). lia.
  - intros Hk. exists (N.to_nat (k - a)). rewrite elem_of_seq. lia.
Qed.

Lemma NoDup_fresh a b : NoDup (fresh a b).
Proof. apply NoDup_fmap_2; [intros j k H; lia|apply NoDup_seq]. Qed.

Lemma a_split_labels at_ F : forall next,
  labels (a_split at_ next F).1 ≡ₚ labels F ++ fresh next (a_split at_ next F).2.
Proof.
  induction F as [|b F IH]; intros next; cbn.
  - unfold fresh. by rewrite N.sub_diag.
  - pose proof (a_cut_next at_ (a_code b) next (a_label b) [] (a_exit b) (a_span b)) as Hn.
    pose proof (a_cut_labels at_ (a_code b) next (a_label b) [] (a_exit b) (a_span b)) as Hl.
    destruct (a_cut _ _ _ _ _ _ _) as [bs n]. pose proof (a_split_next at_ F n) as Hn'.
    specialize (IH n). destruct (a_split at_ n F) as [bs' n']. cbn in *.
    unfold labels in *. rewrite fmap_app, Hl, IH. cbn. f_equiv.
    fold (fresh next n). rewrite (fresh_app next n n') by lia. solve_Permutation.
Qed.

Lemma a_split_NoDup at_ F next :
  NoDup (labels F) -> Forall (fun l => (l < next)%N) (labels F) ->
  NoDup (labels (a_split at_ next F).1).
Proof.
  intros Hn Hlt. rewrite a_split_labels. apply NoDup_app. split; [done|].
  split; [|apply NoDup_fresh]. intros l Hl. rewrite elem_of_fresh.
  rewrite Forall_forall in Hlt. specialize (Hlt l Hl). lia.
Qed.

Lemma a_split_covers F0 G at_ F : forall next,
  Forall (fun b => b ∈ G) (a_split at_ next F).1 ->
  (forall k, (next <= k)%N -> k ∉ labels F0) ->
  Forall (fun b => covers F0 G (a_label b) (a_code b) (a_exit b)) F.
Proof.
  induction F as [|b F IH]; intros next Hin Hf; [constructor|]. cbn in Hin.
  pose proof (a_cut_next at_ (a_code b) next (a_label b) [] (a_exit b) (a_span b)) as Hn.
  destruct (a_cut at_ next (a_label b) [] (a_code b) (a_exit b) (a_span b)) as [bs n] eqn:Hc.
  specialize (IH n). destruct (a_split at_ n F) as [bs' n']. cbn in *.
  apply Forall_app in Hin as [H1 H2]. constructor.
  - apply (a_cut_covers F0 G at_ (a_code b) next (a_label b) [] (a_exit b) (a_span b));
      [by rewrite Hc|done].
  - apply IH; [done|]. intros k Hk. apply Hf. lia.
Qed.

Lemma a_split_ends at_ F : forall next, ends_pieces at_ (a_split at_ next F).1.
Proof.
  induction F as [|b F IH]; intros next; cbn; [constructor|].
  pose proof (a_cut_ends at_ (a_code b) next (a_label b) [] (a_exit b) (a_span b) (Forall_nil_2 _))
    as He.
  destruct (a_cut _ _ _ _ _ _ _) as [bs n]. specialize (IH n).
  destruct (a_split at_ n F) as [bs' n']. by apply Forall_app.
Qed.

(** ** The records read back as the pieces *)

(** The nodes from index [k] on hold [l]. *)
Definition code_at (p : Parts) (k : nat) (l : list (InstrRef * Span)) : Prop :=
  (ns ← slice (p_nodes p) k (length l); mapM (read_node p) ns) = Some l.

Lemma slice_Some {A} (l : list A) k m r :
  slice l k m = Some r <-> k + m <= length l /\ r = take m (drop k l).
Proof. unfold slice. case_decide; split; naive_solver. Qed.

Lemma code_at_iff p k l :
  code_at p k l <-> k + length l <= length (p_nodes p) /\
    Forall2 (fun n x => read_node p n = Some x) (take (length l) (drop k (p_nodes p))) l.
Proof.
  unfold code_at. split.
  - intros (ns & [Hle ->]%slice_Some & Hm)%bind_Some. split; [done|]. by apply mapM_Some.
  - intros [Hle Hf]. apply bind_Some. exists (take (length l) (drop k (p_nodes p))).
    rewrite slice_Some. split; [done|]. by apply mapM_Some.
Qed.

Lemma code_at_app p k l1 l2 :
  code_at p k (l1 ++ l2) <-> code_at p k l1 /\ code_at p (k + length l1) l2.
Proof.
  rewrite !code_at_iff, length_app. split.
  - intros [Hle Hf]. rewrite <- take_take_drop, drop_drop in Hf.
    apply Forall2_app_inv in Hf as [H1 H2]; [|rewrite length_take, length_drop; lia].
    split; (split; [lia|done]).
  - intros [[H1 H2] [H3 H4]]. split; [lia|].
    rewrite <- take_take_drop, drop_drop. by apply Forall2_app.
Qed.

(** A node that decodes carries the opcode of what it decodes to. *)
Lemma instr_op n p i : instr n p = Some i -> from_byte (n_op n) = Some (op_of i).
Proof.
  unfold instr. intros (o & Ho & H)%bind_Some. rewrite Ho. f_equal.
  apply bind_Some in H as (u & _ & H). cbn zeta in H.
  destruct o; repeat (apply bind_Some in H as (? & _ & H)); by injection H as <-.
Qed.

Lemma read_node_op n p x : read_node p n = Some x -> from_byte (n_op n) = Some (op_of x.1).
Proof.
  unfold read_node. intros (i & Hi & (s & _ & [= <-])%bind_Some)%bind_Some. by eapply instr_op.
Qed.

Lemma code_at_head p k x l :
  code_at p k (x :: l) -> exists n, p_nodes p !! k = Some n /\ from_byte (n_op n) = Some (op_of x.1).
Proof.
  rewrite code_at_iff. intros [Hle Hf]. cbn [length] in *.
  destruct (lookup_lt_is_Some_2 (p_nodes p) k) as [n Hn]; [lia|].
  rewrite (drop_S _ n) in Hf by done. cbn in Hf. inversion Hf; subst.
  exists n. split; [done|]. by eapply read_node_op.
Qed.

Lemma read_block_iff p r a :
  read_block p r = Some a <->
  b_label r = a_label a /\ N.to_nat (b_len r) = length (a_code a) /\
  code_at p (N.to_nat (b_first r)) (a_code a) /\
  terminator r p = Some (a_exit a) /\ terminator_span p r = Some (a_span a).
Proof.
  unfold read_block, block_nodes, code_at. split.
  - intros (ns & Hns & (c & Hc & (e & He & (s & Hs & [= <-])%bind_Some)%bind_Some)%bind_Some)%bind_Some.
    cbn. assert (Hlen : N.to_nat (b_len r) = length c).
    { apply length_mapM in Hc. rewrite <- Hc. apply slice_Some in Hns as [Hle ->].
      rewrite length_take, length_drop. lia. }
    rewrite <- Hlen, Hns. cbn. by rewrite Hc.
  - destruct a as [l c e s]. cbn. intros (<- & -> & (ns & -> & Hc)%bind_Some & -> & ->). cbn.
    by rewrite Hc.
Qed.

Section cuts.
Context (p : Parts) (at_ : Op -> bool) (rec : BlockRec) (e : Terminator) (sp : Span).
Hypothesis Hspan : terminator_span p rec = Some sp.

(** The record of a piece that ends before the block does. *)
Lemma piece_reads label start cont c :
  code_at p (N.to_nat start) c ->
  read_block p (mkBlockRec label start (N.of_nat (length c)) cont NO_REG NO_REG
    (b_start rec) (b_end rec) (b_line rec) (b_col rec) (b_file rec) T_JUMP)
  = Some (mkABlock label c (Jump cont) sp).
Proof. intros Hc. apply read_block_iff. cbn. rewrite Nat2N.id. by split_and!. Qed.

Lemma cuts_refine code : forall acc c,
  code_at p (N.to_nat (cut_start c)) (acc ++ code) ->
  ((a_cut at_ (next_label c) (cut_label c) acc code e sp).2 < 2 ^ 32)%N ->
  exists c' rs pre tailc,
    cuts (p_nodes p) at_ rec c
      (map N.of_nat (seq (N.to_nat (cut_start c) + length acc) (length code - 1))) = Some c' /\
    cut_blocks c' = cut_blocks c ++ rs /\ mapM (read_block p) rs = Some pre /\
    a_cut at_ (next_label c) (cut_label c) acc code e sp
      = (pre ++ [mkABlock (cut_label c') tailc e sp], next_label c') /\
    code_at p (N.to_nat (cut_start c')) tailc /\
    N.to_nat (cut_start c') + length tailc = N.to_nat (cut_start c) + length (acc ++ code).
Proof.
  induction code as [|x rest IH]; intros acc c Hat Hlt.
  { exists c, [], [], acc. rewrite !app_nil_r in *. by split_and!. }
  cbn [a_cut length] in *. rewrite Nat.sub_succ, Nat.sub_0_r.
  destruct rest as [|y rest'].
  { exists c, [], [], (acc ++ [x]). rewrite app_nil_r. by split_and!. }
  set (rest := y :: rest') in *. change (bool_decide (rest = [])) with false in *.
  cbn [negb andb] in *. rewrite (app_assoc acc [x] rest : acc ++ x :: rest = _) in *.
  replace (length rest) with (S (length rest - 1)) by (cbn; lia).
  pose proof Hat as Hat'. apply code_at_app in Hat' as [Hax Hrest].
  apply code_at_app in Hax as Hx. destruct Hx as [_ Hx].
  destruct (code_at_head _ _ _ _ Hx) as (n & Hn & Hop). rewrite length_app in Hrest. cbn in Hrest.
  cbn [seq map cuts]. unfold cut_at at 1. rewrite Nat2N.id, Hn. cbn [mbind option_bind].
  rewrite Hop. cbn [mbind option_bind]. destruct (at_ (op_of x.1)); cbn [negb] in *.
  - destruct (a_cut at_ (next_label c + 1) (next_label c) [] rest e sp) as [bs m] eqn:Hc.
    cbn [fst snd] in *.
    pose proof (a_cut_next at_ rest (next_label c + 1)%N (next_label c) [] e sp) as Hm.
    rewrite Hc in Hm. cbn in Hm. rewrite as_u32_small by lia.
    set (i := N.of_nat (N.to_nat (cut_start c) + length acc)). cbn [mbind option_bind].
    match goal with |- context [cuts _ _ _ ?C _] => set (c1 := C) end.
    destruct (IH [] c1) as (c' & rs & pre & tailc & Hcuts & Hb & Hread & Hcut & Htail & Hend).
    { cbn [c1 cut_start app]. by replace (N.to_nat (i + 1)) with
        (N.to_nat (cut_start c) + (length acc + 1)) by lia. }
    { cbn [c1 next_label cut_label]. by rewrite Hc. }
    cbn [c1 next_label cut_label cut_start cut_blocks length app] in *. rewrite Hc in Hcut.
    simplify_eq.
    exists c', (mkBlockRec (cut_label c) (cut_start c) (i + 1 - cut_start c) (next_label c) NO_REG NO_REG
      (b_start rec) (b_end rec) (b_line rec) (b_col rec) (b_file rec) T_JUMP :: rs),
      (mkABlock (cut_label c) (acc ++ [x]) (Jump (next_label c)) sp :: pre), tailc.
    split; [|split; [|split; [|split; [|split]]]]; try done.
    + rewrite <- Hcuts. do 3 f_equal. lia.
    + by rewrite Hb, <- app_assoc.
    + apply mapM_Some. constructor; [|by apply mapM_Some].
      replace (i + 1 - cut_start c)%N with (N.of_nat (length (acc ++ [x])))
        by (rewrite length_app; cbn; lia).
      by apply piece_reads.
    + rewrite Hend, !length_app. cbn. lia.
  - destruct (IH (acc ++ [x]) c Hat Hlt) as (c' & rs & pre & tailc & Hcuts & H).
    exists c', rs, pre, tailc. split; [|exact H]. cbn [mbind option_bind]. rewrite <- Hcuts. do 3 f_equal.
    rewrite length_app. cbn. lia.
Qed.
End cuts.

Lemma split_block_refine p at_ acc rec a bs n :
  (N.of_nat (length (p_nodes p)) < 2 ^ 32)%N -> read_block p rec = Some a ->
  a_cut at_ acc.1 (a_label a) [] (a_code a) (a_exit a) (a_span a) = (bs, n) -> (n < 2 ^ 32)%N ->
  exists rs, split_block (p_nodes p) at_ acc rec = Some (n, acc.2 ++ rs) /\
    mapM (read_block p) rs = Some bs.
Proof.
  intros Hfit (Hl & Hlen & Hat & Ht & Hs)%read_block_iff Hcut Hn.
  pose proof (proj1 (proj1 (code_at_iff _ _ _) Hat)) as Hle.
  unfold split_block. rewrite as_u32_small by lia.
  replace (range (b_first rec) (b_first rec + b_len rec - 1)) with
    (map N.of_nat (seq (N.to_nat (b_first rec) + length (@nil (InstrRef * Span))) (length (a_code a) - 1))).
  2: { unfold range. cbn. do 2 f_equal; lia. }
  destruct (cuts_refine p at_ rec (a_exit a) (a_span a) Hs (a_code a) []
    (mkCut acc.1 acc.2 (b_first rec) (b_label rec))) as (c & rs & pre & tc & Hcuts & Hb & Hread & Hc & Htail & Hend).
  { done. } { cbn [next_label cut_label]. by rewrite Hl, Hcut. }
  cbn [next_label cut_label cut_start cut_blocks app length] in *. rewrite Hcuts.
  rewrite Hl, Hcut in Hc. simplify_eq.
  cbn [mbind option_bind]. rewrite Hb, <- app_assoc. eexists. split; [done|].
  apply mapM_Some, Forall2_app; [by apply mapM_Some|]. constructor; [|constructor].
  apply read_block_iff. cbn. split_and!; try done. lia.
Qed.

Lemma split_blocks_refine p at_ recs : forall acc F G n,
  (N.of_nat (length (p_nodes p)) < 2 ^ 32)%N -> mapM (read_block p) recs = Some F ->
  a_split at_ acc.1 F = (G, n) -> (n < 2 ^ 32)%N ->
  exists rs, split_blocks (p_nodes p) at_ acc recs = Some (n, acc.2 ++ rs) /\
    mapM (read_block p) rs = Some G.
Proof.
  induction recs as [|rec recs IH]; intros acc F G n Hfit HF Hs Hn; apply mapM_Some in HF.
  - inversion HF; subst. cbn in Hs. simplify_eq. exists []. cbn. rewrite app_nil_r. by destruct acc.
  - inversion HF as [|? a ? F' Ha HF']; subst. cbn in Hs.
    destruct (a_cut at_ acc.1 _ _ _ _ _) as [bs m] eqn:Hc.
    pose proof (a_split_next at_ F' m) as Hm.
    destruct (a_split at_ m F') as [bs' m'] eqn:Hs'. cbn in Hm. simplify_eq.
    destruct (split_block_refine p at_ acc rec a bs m Hfit Ha Hc ltac:(lia)) as (rs & Hrs & Hread).
    destruct (IH (m, acc.2 ++ rs) F' bs' n) as (rs' & Hrs' & Hread'); try done;
      [by apply mapM_Some|].
    exists (rs ++ rs'). cbn [split_blocks]. rewrite Hrs. cbn [mbind option_bind].
    rewrite Hrs'. cbn. rewrite <- app_assoc. split; [done|].
    apply mapM_Some, Forall2_app; by apply mapM_Some.
Qed.

Lemma max_label_lt p recs F :
  mapM (read_block p) recs = Some F ->
  Forall (fun l => (l < max_label recs + 1)%N) (labels F).
Proof.
  intros HF%mapM_Some. unfold labels. apply Forall_fmap.
  enough (Forall (fun b => (a_label b <= max_label recs)%N) F) as H.
  { eapply Forall_impl; [exact H|]. intros b Hb. cbn in *. lia. }
  induction HF as [|rec a recs F Ha HF IH]; [constructor|].
  apply read_block_iff in Ha as (Hl & _). unfold max_label in *. cbn. constructor; [lia|].
  eapply Forall_impl; [exact IH|]. intros b Hb. cbn in *. lia.
Qed.

(** The split function, read back. *)
Lemma split_after_read v at_ F :
  (N.of_nat (length (p_nodes (parts v))) < 2 ^ 32)%N -> read_back v = Some F ->
  ((a_split at_ (max_label (v_blocks v) + 1) F).2 < 2 ^ 32)%N ->
  exists o, split_after v at_ = Some o /\ v_head (view o) = v_head v /\
    read_back (view o) = Some (a_split at_ (max_label (v_blocks v) + 1) F).1.
Proof.
  intros Hfit HF Hn. pose proof (a_split_next at_ F (max_label (v_blocks v) + 1)%N) as Hle.
  destruct (a_split _ _ _) as [G n] eqn:Hs. cbn in *.
  destruct (split_blocks_refine (parts v) at_ (v_blocks v)
    (as_u32 (max_label (v_blocks v) + 1), []) F G n) as (rs & Hrs & Hread); try done.
  { cbn. by rewrite as_u32_small by lia. }
  exists (to_owned_with v rs). unfold split_after. rewrite Hrs. cbn. split; [done|].
  split; [by destruct (v_head v)|]. unfold read_back. cbn. destruct (parts v). exact Hread.
Qed.
