(* ===== verification/LirGpu.v ===== *)
(** * Which functions the numeric tiers take

    [lir/code/gpu.rs]: the whitelist of the GPU and MLIR tiers, and the walk
    back from a returned register that keeps values a 64-bit integer cannot
    carry off the CPU tier.  A block's instructions are decoded before they
    are tested, where the iterator stops at the first that fails. *)

From stdpp Require Import base numbers option list gmap fin_sets.
From S2P Require Import Prelude SignalBits Signal LirRecord LirInstr LirCodec LirBuild LirView.

(** [is_gpu_instruction] *)
Definition is_gpu_instruction (i : InstrRef) : bool :=
  match i with
  | I_Const _ (C_Int _ | C_Float _ | C_Bool _ | C_Nil)
  | I_BinOp _ _ _ _ _ | I_UnaryOp _ _ _ _ | I_Compare _ _ _ _ _ | I_Convert _ _ _
  | I_LoadLocal _ _ | I_StoreLocal _ _ | I_StoreLocalRefcounted _ _
  | I_LoadCapture _ _ | I_LoadCaptureRaw _ _ => true
  | I_IncrefValueRegion _ | I_DecrefValueRegion _ => true
  | I_ValueConst _ value =>
    is_int value || is_float value || bool_decide (is_Some (as_bool value)) || is_nil value
  | I_LoadSelf _ => false
  | I_AdoptIntoActivation _ => false
  | _ => false
  end.

(** [is_gpu_terminator] *)
Definition is_gpu_terminator (t : Terminator) : bool :=
  match t with Return _ | Jump _ | Branch _ _ _ => true | _ => false end.

(** [b.instrs().all(..) && is_gpu_terminator(&b.terminator())] *)
Definition gpu_block (p : Parts) (b : BlockRec) : option bool :=
  is_ ← block_instrs p b;
  t ← terminator b p;
  Some (forallb is_gpu_instruction is_ && is_gpu_terminator t).

(** [blocks().all(f)] *)
Fixpoint all_blocks (f : BlockRec -> option bool) (bs : list BlockRec) : option bool :=
  match bs with
  | [] => Some true
  | b :: rest => r ← f b; if r : bool then all_blocks f rest else Some false
  end.

(** [is_gpu_eligible] *)
Definition is_gpu_eligible (v : LirView) : option bool :=
  let signal := hd_signal (v_head v) in
  let non_error := subtract (bits signal) SIG_ERROR in
  if negb (is_empty non_error) || negb (propagates signal =? 0)%N then Some false
  else match hd_arity (v_head v) with
       | Exact _ =>
         if negb (hd_capture_params_mask (v_head v) =? 0)%N
            || negb (forallb (fun w => w =? 0)%N (hd_capture_locals (v_head v)))
         then Some false
         else all_blocks (gpu_block (parts v)) (v_blocks v)
       | _ => Some false
       end.

(** [nodes().map(|n| n.instr())] *)
Definition view_instrs (v : LirView) : option (list InstrRef) :=
  ns ← view_nodes v; mapM (fun n => instr n (parts v)) ns.

(** The sources stored to [slot], in instruction order. *)
Definition stored (slot : N) (is_ : list InstrRef) : list Reg :=
  omap (fun i => match i with
                 | I_StoreLocal s src => if (s =? slot)%N then Some src else None
                 | _ => None
                 end) is_.

(** The arms of the inner [match] that return [true]. *)
Definition non_int_def (r : Reg) (i : InstrRef) : bool :=
  match i with
  | I_Const dst C_Nil => (dst =? r)%N
  | I_ValueConst dst value => (dst =? r)%N && is_nil value
  | I_Convert dst IntToFloat _ => (dst =? r)%N
  | _ => false
  end.

(** The inner loop: [None] when it returns [true].  The vector's last item is
    the list's first. *)
Fixpoint scan (all : list InstrRef) (r : Reg) (is_ : list InstrRef) (slots : gset N)
    (work : list Reg) : option (gset N * list Reg) :=
  match is_ with
  | [] => Some (slots, work)
  | i :: rest =>
    if non_int_def r i then None
    else match i with
         | I_LoadLocal dst slot =>
           if (dst =? r)%N && negb (bool_decide (slot ∈ slots)) then
             scan all r rest ({[slot]} ∪ slots) (reverse (stored slot all) ++ work)
           else scan all r rest slots work
         | _ => scan all r rest slots work
         end
  end.

(** The outer loop; the outer [option] is exhausted fuel. *)
Fixpoint walk (fuel : nat) (all : list InstrRef) (regs slots : gset N) (work : list Reg)
  : option bool :=
  match fuel with
  | 0 => None
  | S fuel =>
    match work with
    | [] => Some false
    | r :: work =>
      if bool_decide (r ∈ regs) then walk fuel all regs slots work
      else match scan all r all slots work with
           | None => Some true
           | Some (slots, work) => walk fuel all ({[r]} ∪ regs) slots work
           end
    end
  end.

(** Every slot is expanded once, to at most one register per instruction. *)
Definition walk_fuel (all : list InstrRef) : nat := length all * length all + 2.

(** [register_reaches_non_int] *)
Definition register_reaches_non_int (all : list InstrRef) (target : Reg) : option bool :=
  walk (walk_fuel all) all ∅ ∅ [target].

(** [is_mlir_cpu_eligible] *)
Definition is_mlir_cpu_eligible (v : LirView) : option bool :=
  ok ← is_gpu_eligible v;
  if negb ok then Some false
  else all_blocks (fun b =>
         t ← terminator b (parts v);
         match t with
         | Return reg => all ← view_instrs v; negb <$> register_reaches_non_int all reg
         | _ => Some true
         end) (v_blocks v).

(** ** What the walk decides *)

(** A register that a non-integer source defines, directly or through a local
    slot. *)
Inductive reaches (all : list InstrRef) : Reg -> Prop :=
| reaches_def r i : i ∈ all -> non_int_def r i = true -> reaches all r
| reaches_slot r slot src :
    I_LoadLocal r slot ∈ all -> I_StoreLocal slot src ∈ all -> reaches all src -> reaches all r.

Lemma elem_of_stored slot all src : src ∈ stored slot all <-> I_StoreLocal slot src ∈ all.
Proof.
  unfold stored. rewrite list_elem_of_omap. split.
  - intros (i & Hi & H). destruct i; try done. destruct (N.eqb_spec slot0 slot); by simplify_eq.
  - intros H. exists (I_StoreLocal slot src). by rewrite N.eqb_refl.
Qed.

Lemma stored_length slot all : length (stored slot all) <= length all.
Proof.
  induction all as [|i all IH]; [cbn; lia|]. cbn [length]. unfold stored in *.
  destruct i; cbn in *; try lia. destruct (_ =? _)%N; cbn; lia.
Qed.

(** What one scan leaves: the slots read into [r] are all seen, and the work
    grows by the sources of the newly seen slots alone. *)
Record scanned (all : list InstrRef) (r : Reg) (is_ : list InstrRef) (slots slots' : gset N)
    (work work' : list Reg) : Prop := mk_scanned {
  sc_clean : Forall (fun i => non_int_def r i = false) is_;
  sc_grow : slots ⊆ slots';
  sc_read : forall slot, I_LoadLocal r slot ∈ is_ -> slot ∈ slots';
  sc_new : forall slot, slot ∈ slots' -> slot ∈ slots \/
    (I_LoadLocal r slot ∈ is_ /\ forall src, src ∈ stored slot all -> src ∈ work');
  sc_work : forall x, x ∈ work' -> x ∈ work \/
    exists slot, I_LoadLocal r slot ∈ is_ /\ x ∈ stored slot all;
  sc_keep : forall x, x ∈ work -> x ∈ work' }.

Lemma scan_scanned all r is_ : forall slots work slots' work',
  scan all r is_ slots work = Some (slots', work') -> scanned all r is_ slots slots' work work'.
Proof.
  induction is_ as [|i is_ IH]; intros slots work slots' work' H; cbn in H.
  - simplify_eq. split; set_solver.
  - destruct (non_int_def r i) eqn:Hd; [done|].
    assert (Hskip : scan all r is_ slots work = Some (slots', work') ->
      (forall slot, i = I_LoadLocal r slot -> slot ∈ slots) ->
      scanned all r (i :: is_) slots slots' work work').
    { intros [H1 H2 H3 H4 H5 H6]%IH Hi. split; [by constructor|done| | | |done].
      - intros slot [Heq|Hin]%elem_of_cons; [apply H2, Hi; done|by apply H3].
      - intros slot Hs. destruct (H4 slot Hs) as [?|[??]]; [by left|right]. set_solver.
      - intros x Hx. destruct (H5 x Hx) as [?|(slot & ? & ?)]; [by left|right]. set_solver. }
    destruct i; try (apply Hskip; [exact H|done]).
    destruct (N.eqb_spec dst r) as [->|Hne]; cbn in H; [|apply Hskip; [done|congruence]].
    destruct (bool_decide (slot ∈ slots)) eqn:Hin; cbn in H.
    { apply bool_decide_eq_true in Hin. apply Hskip; [done|]. by intros ? [= ->]. }
    clear Hskip. apply IH in H as [H1 H2 H3 H4 H5 H6]. split.
    + by constructor.
    + set_solver.
    + intros s [[= ->]|Hs]%elem_of_cons; [set_solver|by apply H3].
    + intros s Hs. destruct (H4 s Hs) as [[->%elem_of_singleton|?]%elem_of_union|[??]];
        [right|by left|right; set_solver].
      split; [set_solver|]. intros src Hsrc. apply H6, elem_of_app. left.
      by rewrite elem_of_reverse.
    + intros x Hx. destruct (H5 x Hx) as [[Hr|?]%elem_of_app|(s & ? & ?)]; [right|by left|right; set_solver].
      exists slot. split; [set_solver|]. by rewrite elem_of_reverse in Hr.
    + intros x Hx. apply H6, elem_of_app. by right.
Qed.

Lemma scan_found all r is_ : forall slots work,
  scan all r is_ slots work = None -> exists i, i ∈ is_ /\ non_int_def r i = true.
Proof.
  induction is_ as [|i is_ IH]; intros slots work H; cbn in H; [done|].
  destruct (non_int_def r i) eqn:Hd; [exists i; set_solver|].
  assert (Hex : forall slots' work', scan all r is_ slots' work' = None ->
    exists j, j ∈ i :: is_ /\ non_int_def r j = true).
  { intros s w (j & Hj & Hdj)%IH. exists j. set_solver. }
  destruct i; try by apply Hex in H. destruct (_ && _); by apply Hex in H.
Qed.

(** [true] is sound: every register waiting leads back to the target. *)
Lemma walk_sound all target fuel : forall regs slots work,
  (forall x, x ∈ work -> reaches all x -> reaches all target) ->
  walk fuel all regs slots work = Some true -> reaches all target.
Proof.
  induction fuel as [|fuel IH]; intros regs slots [|r work] Hw H; cbn in H; try done.
  case_bool_decide; [by eapply IH; [|exact H]; set_solver|].
  destruct (scan all r all slots work) as [[slots' work']|] eqn:Hs.
  - eapply IH; [|exact H]. intros x Hx Hr.
    destruct (sc_work _ _ _ _ _ _ _ (scan_scanned _ _ _ _ _ _ _ Hs) x Hx) as [?|(slot & Hl & Hst)];
      [apply (Hw x); set_solver|].
    apply (Hw r); [set_solver|]. apply elem_of_stored in Hst. by eapply reaches_slot.
  - apply scan_found in Hs as (i & Hi & Hd). apply (Hw r); [set_solver|]. by eapply reaches_def.
Qed.

(** The seen registers and slots are closed, up to the work left. *)
Record walk_inv (all : list InstrRef) (target : Reg) (regs slots : gset N) (work : list Reg)
  : Prop := mk_walk_inv {
  wi_clean : forall r i, r ∈ regs -> i ∈ all -> non_int_def r i = false;
  wi_read : forall r slot, r ∈ regs -> I_LoadLocal r slot ∈ all -> slot ∈ slots;
  wi_stored : forall slot src, slot ∈ slots -> I_StoreLocal slot src ∈ all ->
    src ∈ regs \/ src ∈ work;
  wi_target : target ∈ regs \/ target ∈ work }.

Lemma walk_complete all target fuel : forall regs slots work,
  walk_inv all target regs slots work -> walk fuel all regs slots work = Some false ->
  ~ reaches all target.
Proof.
  induction fuel as [|fuel IH]; intros regs slots [|r work] [Hc Hr Hst Ht] H; cbn in H; try done.
  - destruct Ht as [Ht|]; [|set_solver]. intros Hrc. clear IH. revert Ht.
    induction Hrc as [r i Hi Hd|r slot src Hl Hs Hrc IHr]; intros Hin.
    + specialize (Hc r i Hin Hi). congruence.
    + apply IHr. destruct (Hst slot src (Hr _ _ Hin Hl) Hs) as [Hx|Hx]; [exact Hx|set_solver].
  - case_bool_decide as Hin.
    { eapply IH; [|exact H]. split; try done.
      - intros slot src Hs Hsrc. specialize (Hst slot src Hs Hsrc). set_solver.
      - set_solver. }
    destruct (scan all r all slots work) as [[slots' work']|] eqn:Hs; [|done].
    apply scan_scanned in Hs as [H1 H2 H3 H4 H5 H6]. rewrite Forall_forall in H1.
    eapply IH; [|exact H]. split.
    + intros x i [->%elem_of_singleton|Hx]%elem_of_union Hi; [by apply H1|by apply Hc].
    + intros x slot [->%elem_of_singleton|Hx]%elem_of_union Hl; [by apply H3|].
      apply H2. by eapply Hr.
    + intros slot src Hsl Hsrc. destruct (H4 slot Hsl) as [Hold|[_ Hnew]].
      * specialize (Hst slot src Hold Hsrc). set_solver.
      * right. apply Hnew. by apply elem_of_stored.
    + set_solver.
Qed.

(** ** Enough fuel *)

Definition loaded (all : list InstrRef) : list N :=
  omap (fun i => match i with I_LoadLocal _ slot => Some slot | _ => None end) all.

Definition unseen (all : list InstrRef) (slots : gset N) : nat :=
  length (filter (fun s => s ∉ slots) (loaded all)).

Lemma unseen_insert all slots slot :
  slot ∈ loaded all -> slot ∉ slots -> S (unseen all ({[slot]} ∪ slots)) <= unseen all slots.
Proof.
  unfold unseen. generalize (loaded all) as l. intros l Hin Hn.
  assert (Hle : forall k, length (filter (fun s => s ∉ {[slot]} ∪ slots) k)
                 <= length (filter (fun s => s ∉ slots) k)).
  { induction k as [|x k IH]; [done|]. rewrite !filter_cons.
    repeat case_decide; cbn; try lia. set_solver. }
  apply list_elem_of_split in Hin as (l1 & l2 & ->).
  rewrite !filter_app, !length_app, !filter_cons.
  rewrite decide_False by set_solver. rewrite decide_True by done. cbn.
  pose proof (Hle l1). pose proof (Hle l2). lia.
Qed.

Lemma unseen_bound all slots : unseen all slots <= length all.
Proof.
  unfold unseen, loaded. etrans; [apply length_filter|].
  induction all as [|i all IH]; cbn; [lia|]. destruct i; cbn in *; lia.
Qed.

Lemma scan_measure all r is_ : forall slots work slots' work',
  (forall i, i ∈ is_ -> i ∈ all) -> scan all r is_ slots work = Some (slots', work') ->
  length work' + length all * unseen all slots' <= length work + length all * unseen all slots.
Proof.
  induction is_ as [|i is_ IH]; intros slots work slots' work' Hsub H; cbn in H; [by simplify_eq|].
  assert (Hs : forall j, j ∈ is_ -> j ∈ all) by set_solver.
  destruct (non_int_def r i); [done|].
  destruct i; try (by eapply IH in H).
  destruct (dst =? r)%N; cbn in H; [|by eapply IH in H].
  case_bool_decide as Hin; cbn in H; [by eapply IH in H|].
  eapply IH in H; [|done]. etrans; [exact H|].
  rewrite length_app, length_reverse. pose proof (stored_length slot all).
  assert (Hld : slot ∈ loaded all).
  { apply list_elem_of_omap. exists (I_LoadLocal dst slot). split; [|done]. apply Hsub. set_solver. }
  pose proof (unseen_insert all slots slot Hld Hin) as Hu. nia.
Qed.

Lemma walk_total all fuel : forall regs slots work,
  length work + length all * unseen all slots < fuel ->
  exists b, walk fuel all regs slots work = Some b.
Proof.
  induction fuel as [|fuel IH]; intros regs slots [|r work] Hf; cbn; try lia; [by eexists|].
  cbn in Hf. case_bool_decide; [apply IH; lia|].
  destruct (scan all r all slots work) as [[slots' work']|] eqn:Hs; [|by eexists].
  apply IH. apply scan_measure in Hs; [lia|done].
Qed.

(** The walk answers, and answers whether a non-integer source reaches the
    register. *)
Lemma register_walk_exact all target :
  exists b, register_reaches_non_int all target = Some b /\ (b = true <-> reaches all target).
Proof.
  unfold register_reaches_non_int, walk_fuel.
  destruct (walk_total all (length all * length all + 2) ∅ ∅ [target]) as [b Hb].
  { pose proof (unseen_bound all ∅). cbn. nia. }
  exists b. split; [done|]. split.
  - intros ->. eapply walk_sound; [|exact Hb]. intros x Hx. by apply list_elem_of_singleton in Hx as ->.
  - intros Hr. destruct b; [done|]. exfalso. revert Hr. eapply walk_complete; [|exact Hb].
    split; set_solver.
Qed.
