(* ===== verification/LirProps.v ===== *)
(** * What frozen LIR guarantees

    The properties of the builder, the frozen records, the split and the tier
    test, with a concrete run of each. *)

From stdpp Require Import base numbers option list gmap strings sorting.
From S2P Require Import Prelude SignalBits Signal LirRecord LirInstr LirCodec LirCodecProps LirBuild LirView LirSpec LirBuildProps LirSplit LirGpu.

(** C5: Whatever calls the lowerer makes — nested functions, blocks,
    emissions, runs taken back to a mark, runs moved within the open block or
    into a finished one — the builder panics exactly where the calls
    themselves are out of order or out of range, and every function it
    freezes reads back through its view as the blocks, instructions, spans,
    terminators and header the calls describe, or is refused for the register
    count of the first instruction that reads more than 65535.  The calls'
    fields fit their widths, and the entries the calls could make in the
    builder's tables, all together, number fewer than 2^32. *)
Theorem builder_refines (cs : list Call) :
  Forall call_typed cs -> (N.of_nat (sum_list_with call_weight cs) < 2 ^ 32)%N ->
  match calls LirBuilder_new cs, a_calls [] cs with
  | Some (_, out), Some (_, aout) => Forall2 same_result out aout
  | None, None => True
  | _, _ => False
  end.
Proof.
  intros Hty HW. assert (Hb : builder_rel 0 LirBuilder_new []) by (split; constructor).
  pose proof (calls_sim cs 0 LirBuilder_new [] Hb Hty HW) as H.
  destruct (calls LirBuilder_new cs) as [[b out]|], (a_calls [] cs) as [[st aout]|]; try done.
  by destruct H.
Qed.

(** An outer function left half built while an inner one is built in a room
    with a discarded run, a moved run and a deduplicated value. *)
Definition sample_span : Span := mkSpan 3 9 2 5 7.
Definition sample_value : Value := mkValue 40 4096.

Definition sample_calls : list Call :=
  [ BeginFunction (Exact 2); OpenBlock 0;
    EmitInstr (I_Const 0 (C_Int (-5))) sample_span;
    BeginFunction (AtLeast 1); OpenBlock 4;
    EmitInstr (I_ValueConst 1 sample_value) sample_span;
    EmitInstr (I_TailCall 9 1 [2; 3; 4]%N true 6 false (Some 8%positive) [11; 12]%N) Span_synthetic;
    Terminate (Return 9) sample_span; FinishBlock;
    OpenBlock 5;
    EmitInstr (I_ValueConst 2 sample_value) sample_span;
    Trial [(I_ValueConst 3 (mkValue 41 1), Span_synthetic);
           (I_MaterializeConst 4 [1; 2; 3]%N 2, sample_span)];
    EmitInstr (I_LoadLocal 5 65535) sample_span;
    MoveRunTo 1 0 1; MoveRun 0 0;
    Terminate (Emit SIG_YIELD 2 4) Span_synthetic; FinishBlock; FinishFunction;
    EmitInstr (I_MakeClosure 6 0 [0]%N 3) sample_span;
    Terminate (Branch 6 0 0) sample_span; FinishBlock; FinishFunction ].

Lemma builder_refines_witness :
  option_map (fun r => length r.2) (calls LirBuilder_new sample_calls) = Some 2 /\
  match calls LirBuilder_new sample_calls, a_calls [] sample_calls with
  | Some (_, out), Some (_, aout) => Forall2 same_result out aout
  | None, None => True
  | _, _ => False
  end.
Proof.
  split; [vm_compute; reflexivity|].
  apply (builder_refines sample_calls).
  - unfold sample_calls, call_typed. repeat constructor; vm_compute; congruence.
  - vm_compute. reflexivity.
Defined.

(** The answers a reader takes straight from a node, without decoding it
    — its opcode, the registers it reads, the register it writes, the region
    it is stamped with, its span — are those of the instruction the node
    decodes to, for every instruction and whatever the tables grow to after
    it was encoded. *)
Theorem node_answers_agree (t : Tables) (i : InstrRef) (s : Span) (n : Node) (t' : Tables)
    (p : Parts) :
  node t i s = (n, t') -> instr_typed i -> span_typed s -> ix_ok t -> tables_fit t' ->
  refused t' = None -> extends t' p -> expected_def i <> Some NO_REG ->
  instr n p = Some i /\ node_op n = Some (op_of i) /\ uses n p = Some (expected_uses i) /\
  node_def n = expected_def i /\ node_region n = region i /\ node_span p n = Some s.
Proof.
  intros Hn Hty Hsp Hix Hfit Hnone Hext Hdef.
  destruct (node_reads _ _ _ _ _ _ Hn Hty Hsp Hix Hfit Hnone Hext) as [Ai Au As Ao Ar Ad].
  split; [done|]. split; [unfold node_op; rewrite Ao; apply from_byte_op_byte|].
  split; [done|]. split; [|split; [|done]].
  - unfold node_def. rewrite Ad, Ao.
    destruct (N.eqb_spec (op_byte (op_of i)) (op_byte Op_TailCall)) as [Heq|Hne].
    + apply op_byte_inj in Heq. rewrite orb_true_r. by destruct i.
    + assert (Hd : match i with I_TailCall dst _ _ _ _ _ _ _ => Some dst | _ => expected_def i end
                   = expected_def i) by (by destruct i).
      rewrite Hd, orb_false_r. destruct (expected_def i) as [d|]; cbn; [|done].
      destruct (N.eqb_spec d NO_REG); congruence.
  - unfold node_region. rewrite Ar. by destruct (region i).
Qed.

Lemma node_answers_agree_witness :
  let t := Tables_new ∅ in
  let i := I_TailCall 9 1 [2; 3; 4]%N true 6 false (Some 8%positive) [11; 12]%N in
  let r := node t i sample_span in
  node_def r.1 = None /\ uses r.1 (tables_parts r.2) = Some [1; 2; 3; 4]%N /\
  node_region r.1 = Some 6%positive.
Proof.
  cbv zeta.
  destruct (node_answers_agree (Tables_new ∅)
    (I_TailCall 9 1 [2; 3; 4]%N true 6 false (Some 8%positive) [11; 12]%N) sample_span
    _ _ (tables_parts (node (Tables_new ∅)
      (I_TailCall 9 1 [2; 3; 4]%N true 6 false (Some 8%positive) [11; 12]%N) sample_span).2)
    (surjective_pairing _)) as (_ & _ & Hu & Hd & Hr & _).
  - exact I.
  - split; vm_compute; reflexivity.
  - apply Tables_new_ok.
  - split; vm_compute; reflexivity.
  - vm_compute. reflexivity.
  - split; reflexivity.
  - discriminate.
  - split; [exact Hd|]. split; [exact Hu|exact Hr].
Defined.

(** Splitting a function after chosen instructions keeps what it does.
    Under any meaning of the instructions and of the terminators other than
    jumps, the split function gets from a block of the original to a block of
    the original, or out, exactly when the original does and in the same
    state; every chosen instruction ends its block; labels stay distinct and
    the header stays as it was. *)
Theorem split_after_equivalent {St : Type} (step : InstrRef -> St -> St -> Prop)
    (goto : Terminator -> St -> St -> option Label -> Prop) (v : LirView) (at_ : Op -> bool)
    (F : list ABlock) :
  (forall e s s' l, goto e s s' (Some l) -> l ∈ targets e) ->
  read_back v = Some F -> NoDup (labels F) -> closed F ->
  (N.of_nat (length (p_nodes (parts v))) < 2 ^ 32)%N ->
  ((a_split at_ (max_label (v_blocks v) + 1) F).2 < 2 ^ 32)%N ->
  exists o G, split_after v at_ = Some o /\ read_back (view o) = Some G /\
    v_head (view o) = v_head v /\ NoDup (labels G) /\ ends_pieces at_ G /\
    forall l s x s', l ∈ labels F -> from_option (fun k => k ∈ labels F) True x ->
      reach step goto F l s x s' <-> reach step goto G l s x s'.
Proof.
  intros Hg HF Hnd Hcl Hfit Hn.
  destruct (split_after_read v at_ F Hfit HF Hn) as (o & Ho & Hh & Hr).
  set (next := (max_label (v_blocks v) + 1)%N) in *.
  pose proof (max_label_lt _ _ _ HF) as Hlt. fold next in Hlt.
  pose proof (a_split_NoDup at_ F next Hnd Hlt) as HG.
  exists o, (a_split at_ next F).1. split_and!; try done; [apply a_split_ends|].
  intros l s x s' Hl Hx. apply reach_iff; try done.
  apply (a_split_covers F _ at_ F next).
  - by apply Forall_forall.
  - intros k Hk Hin. rewrite Forall_forall in Hlt. specialize (Hlt k Hin). lia.
Qed.

(** A two-block function with a call in the middle of the first. *)
Definition split_calls : list Call :=
  [ BeginFunction (Exact 0); OpenBlock 0;
    EmitInstr (I_LoadSelf 0) sample_span;
    EmitInstr (I_SuspendingCall 1 0 [] false 2) sample_span;
    EmitInstr (I_IsNil 2 1) sample_span;
    Terminate (Emit SIG_YIELD 2 3) sample_span; FinishBlock;
    OpenBlock 3; EmitInstr (I_LoadResumeValue 4) sample_span;
    Terminate (Return 4) Span_synthetic; FinishBlock; FinishFunction ].

Definition built_view (cs : list Call) : LirView :=
  match calls LirBuilder_new cs with
  | Some (_, [inr o]) => view o
  | _ => mkView (mkParts [] [] [] [] [] []) [] [] [] [] [] (frozen_head (LirHead_new (Exact 0)))
  end.

(** States are the instructions run; an emission resumes where it says. *)
Definition trace_step (i : InstrRef) (s s' : list InstrRef) : Prop := s' = s ++ [i].
Definition trace_goto (e : Terminator) (s s' : list InstrRef) (o : option Label) : Prop :=
  s' = s /\ match e with Return _ => o = None | Emit _ _ l => o = Some l | _ => False end.

Definition suspends (o : Op) : bool := match o with Op_SuspendingCall => true | _ => false end.

Definition split_blocks_read : list ABlock :=
  match read_back (built_view split_calls) with Some F => F | None => [] end.

Lemma split_after_equivalent_witness :
  exists o G, split_after (built_view split_calls) suspends = Some o /\
    read_back (view o) = Some G /\ v_head (view o) = v_head (built_view split_calls) /\
    NoDup (labels G) /\ ends_pieces suspends G /\
    forall l s x s', l ∈ labels split_blocks_read ->
      from_option (fun k => k ∈ labels split_blocks_read) True x ->
      reach trace_step trace_goto split_blocks_read l s x s'
      <-> reach trace_step trace_goto G l s x s'.
Proof.
  apply (split_after_equivalent trace_step trace_goto (built_view split_calls) suspends
           split_blocks_read).
  - intros e s s' l [_ H]. destruct e; try done. injection H as ->. cbn. set_solver.
  - vm_compute. reflexivity.
  - apply (bool_decide_eq_true_1 _). vm_compute. reflexivity.
  - unfold closed. apply (bool_decide_eq_true_1 _). vm_compute. reflexivity.
  - vm_compute. reflexivity.
  - vm_compute. reflexivity.
Defined.

(** ** Sites *)

Lemma sites_cons regs s infos recs regs' :
  sites regs (s :: infos) = Some (recs, regs') ->
  exists recs', sites (regs ++ stack_regs s) infos = Some (recs', regs') /\
    recs = mkSiteRec (resume_ip s) (num_locals s) (N.b2n (push_resume_value s))
             (len_u32 regs) (len_u32 (stack_regs s)) :: recs'.
Proof.
  cbn [sites]. unfold site. destruct (_ <? _)%N; [|done]. cbn.
  intros ([recs1 regs1] & Hr & [= <- <-])%bind_Some. eauto.
Qed.

Lemma sites_prefix infos : forall regs recs regs',
  sites regs infos = Some (recs, regs') -> regs `prefix_of` regs'.
Proof.
  induction infos as [|s infos IH]; intros regs recs regs' H.
  - injection H as _ <-. done.
  - apply sites_cons in H as (recs' & H%IH & _). by eapply prefix_app_l.
Qed.

Lemma sites_read infos : forall regs recs regs' p,
  sites regs infos = Some (recs, regs') -> (N.of_nat (length regs') < 2 ^ 32)%N ->
  regs' `prefix_of` p -> mapM (fun s => site_of s p) recs = Some infos.
Proof.
  induction infos as [|s infos IH]; intros regs recs regs' p H Hfit Hp.
  { injection H as <- _. done. }
  apply sites_cons in H as (recs' & H & ->). pose proof (sites_prefix _ _ _ _ H) as Hpre.
  apply mapM_Some. constructor; [|by apply mapM_Some; eapply IH].
  pose proof (prefix_length _ _ Hpre) as Hl. rewrite length_app in Hl.
  destruct (transitivity Hpre Hp) as [post ->]. unfold site_of. cbn.
  rewrite !len_u32_small by lia. rewrite <- app_assoc, slice_all by done. cbn.
  destruct s as [ip nl st d]. cbn. by destruct d.
Qed.

Lemma sites_total infos : forall regs,
  Forall (fun s => (resume_ip s < 2 ^ 32)%N) infos ->
  exists recs, sites regs infos = Some (recs, regs ++ concat (stack_regs <$> infos)).
Proof.
  induction infos as [|s infos IH]; intros regs H; cbn.
  - exists []. by rewrite app_nil_r.
  - apply Forall_cons in H as [Hs H]. destruct (IH (regs ++ stack_regs s) H) as [recs Hr].
    unfold site. rewrite (proj2 (N.ltb_lt _ _) Hs). cbn. rewrite Hr. cbn. rewrite <- app_assoc. eauto.
Qed.

(** The yield points, call sites and charge sites emission records are the
    ones the view answers, a charge site never delivering and a yield point
    always; the rest of the function is untouched. *)
Lemma set_sites_reads o ys cs hs :
  let all := map yield_site ys ++ map call_site cs ++ map charge_site hs in
  Forall (fun s => (resume_ip s < 2 ^ 32)%N) all ->
  (N.of_nat (length (concat (stack_regs <$> all))) < 2 ^ 32)%N ->
  exists o', set_sites o ys cs hs = Some o' /\
    view_sites (view o') v_yield_points = Some (map yield_site ys) /\
    view_sites (view o') v_call_sites = Some (map call_site cs) /\
    view_sites (view o') v_charge_sites = Some (map charge_site hs) /\
    read_back (view o') = read_back (view o) /\ v_head (view o') = v_head (view o).
Proof.
  intros all [Hy [Hc Hh]%Forall_app]%Forall_app Hfit. unfold all in Hfit.
  destruct (sites_total _ [] Hy) as [yr Hyr]. cbn [app] in Hyr.
  destruct (sites_total _ (concat (stack_regs <$> map yield_site ys)) Hc) as [cr Hcr].
  destruct (sites_total _ (concat (stack_regs <$> map yield_site ys)
    ++ concat (stack_regs <$> map call_site cs)) Hh) as [hr Hhr].
  rewrite !fmap_app, !concat_app, !length_app in Hfit.
  unfold set_sites. rewrite Hyr. cbn [mbind option_bind app]. rewrite Hcr. cbn [mbind option_bind].
  rewrite Hhr. cbn [mbind option_bind]. eexists. split; [reflexivity|].
  pose proof (sites_prefix _ _ _ _ Hcr) as P1. pose proof (sites_prefix _ _ _ _ Hhr) as P2.
  split_and!; try done; unfold view_sites; cbn;
    [eapply (sites_read _ _ _ _ _ Hyr)|eapply (sites_read _ _ _ _ _ Hcr)
    |eapply (sites_read _ _ _ _ _ Hhr)]; rewrite ?length_app; try done; try lia; by etrans.
Qed.

(** ** The numeric tiers *)

Lemma all_blocks_total f bs :
  (forall b, b ∈ bs -> exists r, f b = Some r) ->
  exists r, all_blocks f bs = Some r /\ (r = true <-> forall b, b ∈ bs -> f b = Some true).
Proof.
  induction bs as [|b bs IH]; intros H; cbn [all_blocks].
  { exists true. split; [done|]. split; [set_solver|done]. }
  destruct (H b) as [r Hr]; [set_solver|]. rewrite Hr. cbn. destruct r.
  - destruct IH as (r' & Hr' & Hiff); [set_solver|]. exists r'. split; [done|]. rewrite Hiff.
    split; [|set_solver]. intros Hall b' [->|Hb']%elem_of_cons; auto.
  - exists false. split; [done|]. split; [done|]. intros Hall.
    specialize (Hall b ltac:(set_solver)). congruence.
Qed.

Lemma view_instrs_block v all b :
  view_instrs v = Some all -> b ∈ v_blocks v -> exists is_, block_instrs (parts v) b = Some is_.
Proof.
  unfold view_instrs, view_nodes. intros (ns & Hns & Hall)%bind_Some Hb.
  destruct (mapM (block_nodes (parts v)) (v_blocks v)) as [nss|] eqn:Hm; [|done]. cbn in Hns.
  injection Hns as <-. apply mapM_Some in Hm. apply list_elem_of_lookup in Hb as [j Hj].
  destruct (Forall2_lookup_l _ _ _ _ _ Hm Hj) as (ns & Hj' & Hbn).
  unfold block_instrs. rewrite Hbn. cbn. apply mapM_is_Some, Forall_forall.
  assert (Hsome : is_Some (mapM (fun n => instr n (parts v)) (concat nss))) by eauto.
  apply mapM_is_Some in Hsome. rewrite Forall_forall in Hsome. intros n Hn. apply Hsome.
  apply list_elem_of_In, in_concat. exists ns.
  split; apply list_elem_of_In; [by eapply list_elem_of_lookup_2|done].
Qed.

Lemma is_gpu_eligible_total v all ts :
  view_instrs v = Some all -> mapM (fun b => terminator b (parts v)) (v_blocks v) = Some ts ->
  exists r, is_gpu_eligible v = Some r.
Proof.
  intros Hall Hts. unfold is_gpu_eligible. destruct (_ || _); [eauto|].
  destruct (hd_arity _); eauto. destruct (_ || _); [eauto|].
  destruct (all_blocks_total (gpu_block (parts v)) (v_blocks v)) as (r & Hr & _); [|eauto].
  intros b Hb. destruct (view_instrs_block _ _ _ Hall Hb) as [is_ His].
  apply mapM_Some in Hts. apply list_elem_of_lookup in Hb as [j Hj].
  destruct (Forall2_lookup_l _ _ _ _ _ Hts Hj) as (t & _ & Ht).
  unfold gpu_block. rewrite His. cbn. rewrite Ht. cbn. eauto.
Qed.

(** The MLIR CPU test always answers on a function that decodes, and says
    yes exactly when the function is numeric and no register it returns is
    reached by a nil or an integer-to-float conversion, directly or through
    any chain of local slots. *)
Theorem mlir_cpu_exact (v : LirView) (all : list InstrRef) (ts : list Terminator) :
  view_instrs v = Some all -> mapM (fun b => terminator b (parts v)) (v_blocks v) = Some ts ->
  exists b, is_mlir_cpu_eligible v = Some b /\
    (b = true <-> is_gpu_eligible v = Some true /\ forall r, Return r ∈ ts -> ~ reaches all r).
Proof.
  intros Hall Hts. unfold is_mlir_cpu_eligible.
  destruct (is_gpu_eligible_total v all ts Hall Hts) as [ok Hok]. rewrite Hok. cbn.
  destruct ok; cbn; [|exists false; split; [done|]; split; [done|]; by intros [? _]].
  apply mapM_Some in Hts.
  match goal with |- context [all_blocks ?f _] => destruct (all_blocks_total f (v_blocks v)) as (r & Hr & Hiff) end.
  { intros b Hb. apply list_elem_of_lookup in Hb as [j Hj].
    destruct (Forall2_lookup_l _ _ _ _ _ Hts Hj) as (t & _ & ->). cbn. destruct t; eauto.
    rewrite Hall. cbn. destruct (register_walk_exact all r) as (x & -> & _). eauto. }
  exists r. split; [done|]. rewrite Hiff. clear Hr Hiff. split.
  - intros H. split; [done|]. intros reg Hret. apply list_elem_of_lookup in Hret as [j Hj].
    destruct (Forall2_lookup_r _ _ _ _ _ Hts Hj) as (b & Hb & Ht).
    specialize (H b (list_elem_of_lookup_2 _ _ _ Hb)). rewrite Ht, Hall in H. cbn in H.
    destruct (register_walk_exact all reg) as (x & Hx & Hxr). rewrite Hx in H. cbn in H.
    destruct x; [done|]. rewrite <- Hxr. done.
  - intros [_ H] b Hb. apply list_elem_of_lookup in Hb as [j Hj].
    destruct (Forall2_lookup_l _ _ _ _ _ Hts Hj) as (t & Htj & ->). cbn. destruct t; try done.
    rewrite Hall. cbn. destruct (register_walk_exact all r0) as (x & -> & Hxr). cbn.
    destruct x; [|done]. destruct (H r0 (list_elem_of_lookup_2 _ _ _ Htj)). by apply Hxr.
Qed.

(** A nil that reaches the return through a local slot. *)
Definition nil_return_calls : list Call :=
  [ BeginFunction (Exact 0); OpenBlock 0;
    EmitInstr (I_Const 0 C_Nil) sample_span; EmitInstr (I_StoreLocal 3 0) sample_span;
    EmitInstr (I_LoadLocal 1 3) sample_span; Terminate (Return 1) sample_span;
    FinishBlock; FinishFunction ].

Lemma mlir_cpu_exact_witness :
  exists b, is_mlir_cpu_eligible (built_view nil_return_calls) = Some b /\
    (b = true <-> is_gpu_eligible (built_view nil_return_calls) = Some true /\
      forall r, Return r ∈ [Return 1] ->
        ~ reaches [I_Const 0 C_Nil; I_StoreLocal 3 0; I_LoadLocal 1 3] r).
Proof.
  apply (mlir_cpu_exact (built_view nil_return_calls)); vm_compute; reflexivity.
Defined.
