(* ===== verification/Bytes.v ===== *)
(** * Machine integers as bytes

    The big-endian writers and readers the compiler and the interpreter share:
    [to_be_bytes] and [from_be_bytes] of the language, as a list of numbers
    below 256, with the round trips both directions.  A reader answers [None]
    where the source indexes past the end of its slice, which panics.

    UTF-8 validity is [str::from_utf8]'s: no overlong form, no surrogate, at
    most [0x10FFFF]. *)

From stdpp Require Import base numbers option list.
From S2P Require Import Prelude LirRecord.

Local Open Scope N_scope.

(** ** Big-endian integers *)

Definition is_byte (b : N) : Prop := b < 256.

Definition as_u8 (x : N) : N := x mod 256.

(** [x.to_be_bytes()] of an [n]-byte integer. *)
Fixpoint be_bytes (n : nat) (x : N) : list N :=
  match n with
  | O => []
  | S n' => as_u8 (N.shiftr x (8 * N.of_nat n')) :: be_bytes n' x
  end.

(** [from_be_bytes] *)
Definition be_val (l : list N) : N := foldl (fun acc b => N.lor (N.shiftl acc 8) b) 0 l.

(** ** Reading from a cursor

    The cursor of a slice and an index is the bytes from the index on. *)
Definition take_n (n : nat) (bs : list N) : option (list N * list N) :=
  if decide (n <= length bs)%nat then Some (take n bs, drop n bs) else None.

Definition read_be (n : nat) (bs : list N) : option (N * list N) :=
  '(l, rest) ← take_n n bs; Some (be_val l, rest).

(** ** UTF-8 *)

Definition continuation (b : N) : bool := (128 <=? b) && (b <=? 191).

Definition in_range (lo hi b : N) : bool := (lo <=? b) && (b <=? hi).

(** One character off the front: the well-formed byte sequences of the Unicode
    standard, table 3-7. *)
Definition utf8_step (bs : list N) : option (list N) :=
  match bs with
  | [] => None
  | a :: rest =>
    if a <? 128 then Some rest
    else if in_range 194 223 a then
      match rest with
      | b :: rest => if continuation b then Some rest else None
      | _ => None
      end
    else if in_range 224 239 a then
      match rest with
      | b :: c :: rest =>
        let lo := if a =? 224 then 160 else 128 in
        let hi := if a =? 237 then 159 else 191 in
        if in_range lo hi b && continuation c then Some rest else None
      | _ => None
      end
    else if in_range 240 244 a then
      match rest with
      | b :: c :: d :: rest =>
        let lo := if a =? 240 then 144 else 128 in
        let hi := if a =? 244 then 143 else 191 in
        if in_range lo hi b && continuation c && continuation d then Some rest else None
      | _ => None
      end
    else None
  end.

Fixpoint utf8_run (fuel : nat) (bs : list N) : bool :=
  match bs, fuel with
  | [], _ => true
  | _, O => false
  | _, S f => match utf8_step bs with Some rest => utf8_run f rest | None => false end
  end.

Definition utf8_valid (bs : list N) : bool := utf8_run (length bs) bs.

(** ** Lemmas *)

Lemma as_u8_byte x : is_byte (as_u8 x).
Proof. apply N.mod_lt. lia. Qed.

Lemma as_u8_small x : is_byte x -> as_u8 x = x.
Proof. apply N.mod_small. Qed.

Lemma length_be_bytes n x : length (be_bytes n x) = n.
Proof. induction n as [|n IH]; cbn; [done | by rewrite IH]. Qed.

Lemma be_bytes_are_bytes n x : Forall is_byte (be_bytes n x).
Proof. induction n as [|n IH]; cbn; constructor; [apply as_u8_byte | exact IH]. Qed.

Lemma be_val_snoc l b : be_val (l ++ [b]) = N.lor (N.shiftl (be_val l) 8) b.
Proof. unfold be_val. by rewrite foldl_snoc. Qed.

Lemma shiftl8_lor acc b : is_byte b -> N.lor (N.shiftl acc 8) b = acc * 256 + b.
Proof.
  intros Hb. unfold is_byte in Hb.
  rewrite N.shiftl_mul_pow2. change (2 ^ 8) with 256.
  assert (Hd : N.land (acc * 256) b = 0).
  { apply N.bits_inj_0. intros i. rewrite N.land_spec. change 256 with (2 ^ 8).
    destruct (N.ltb_spec i 8).
    - by rewrite N.mul_pow2_bits_low by lia.
    - rewrite (fits_testbit 8 b i), andb_false_r; [done | exact Hb | lia]. }
  by rewrite <- N.lxor_lor, <- N.add_nocarry_lxor.
Qed.

Lemma be_val_acc l : forall acc, Forall is_byte l ->
  foldl (fun acc b => N.lor (N.shiftl acc 8) b) acc l = acc * 256 ^ N.of_nat (length l) + be_val l.
Proof.
  induction l as [|b l IH]; intros acc Hl; [cbn; lia|].
  apply Forall_cons in Hl as [Hb Hl]. unfold be_val. cbn [foldl length].
  rewrite (IH _ Hl), (IH (N.lor _ b) Hl). rewrite !shiftl8_lor by exact Hb.
  rewrite Nat2N.inj_succ, N.pow_succ_r'. lia.
Qed.

Lemma be_val_cons b l : Forall is_byte (b :: l) ->
  be_val (b :: l) = b * 256 ^ N.of_nat (length l) + be_val l.
Proof.
  intros [Hb Hl]%Forall_cons. unfold be_val at 1. cbn [foldl].
  rewrite be_val_acc by exact Hl. by rewrite shiftl8_lor.
Qed.

Lemma be_val_bound l : Forall is_byte l -> be_val l < 256 ^ N.of_nat (length l).
Proof.
  induction l as [|b l IH]; intros Hl; [cbn; lia|].
  rewrite be_val_cons by exact Hl. apply Forall_cons in Hl as [Hb Hl]. unfold is_byte in Hb.
  specialize (IH Hl). cbn [length]. rewrite Nat2N.inj_succ, N.pow_succ_r'. nia.
Qed.

(** An integer of [n] bytes reads back from the bytes it is written as. *)
Lemma be_val_bytes n x : be_val (be_bytes n x) = x mod 256 ^ N.of_nat n.
Proof.
  induction n as [|n IH].
  { cbn [be_bytes N.of_nat]. rewrite N.pow_0_r, N.mod_1_r. done. }
  cbn [be_bytes]. rewrite be_val_cons by (apply (be_bytes_are_bytes (S n) x)).
  rewrite length_be_bytes, IH. rewrite Nat2N.inj_succ, N.pow_succ_r'.
  rewrite N.shiftr_div_pow2, N.pow_mul_r. change (2 ^ 8) with 256. unfold as_u8.
  set (P := 256 ^ N.of_nat n). assert (P <> 0) by (apply N.pow_nonzero; lia).
  rewrite (N.mul_comm 256 P), N.Div0.mod_mul_r. lia.
Qed.

Lemma be_roundtrip n x : x < 256 ^ N.of_nat n -> be_val (be_bytes n x) = x.
Proof. intros H. rewrite be_val_bytes. by apply N.mod_small. Qed.

Lemma take_n_app n l rest : length l = n -> take_n n (l ++ rest) = Some (l, rest).
Proof.
  intros <-. unfold take_n. rewrite decide_True by (rewrite length_app; lia).
  by rewrite take_app_length, drop_app_length.
Qed.

Lemma read_be_bytes n x rest :
  x < 256 ^ N.of_nat n -> read_be n (be_bytes n x ++ rest) = Some (x, rest).
Proof.
  intros H. unfold read_be. rewrite take_n_app by apply length_be_bytes.
  cbn [mbind option_bind]. by rewrite be_roundtrip.
Qed.

Lemma take_n_Some n bs l rest :
  take_n n bs = Some (l, rest) -> bs = l ++ rest /\ length l = n.
Proof.
  unfold take_n. case_decide; [|done]. intros [= <- <-].
  split; [symmetry; apply take_drop | rewrite length_take; lia].
Qed.

Lemma read_be_Some n bs x rest :
  read_be n bs = Some (x, rest) -> exists l, bs = l ++ rest /\ length l = n /\ x = be_val l.
Proof.
  unfold read_be. destruct (take_n n bs) as [[l r]|] eqn:E; [|done].
  intros [= <- <-]. apply take_n_Some in E as [-> Hl]. eauto.
Qed.

Lemma read_be_shorter n bs x rest : read_be n bs = Some (x, rest) -> length bs = (n + length rest)%nat.
Proof. intros (l & -> & <- & _)%read_be_Some. apply length_app. Qed.

Lemma take_n_shorter n bs l rest : take_n n bs = Some (l, rest) -> length bs = (n + length rest)%nat.
Proof. intros [-> <-]%take_n_Some. apply length_app. Qed.

#[export] Hint Resolve length_be_bytes be_bytes_are_bytes as_u8_byte : elle.
