(* ===== verification/Files.v ===== *)
(** * The source-file interner

    [syntax/files.rs]: the process-wide, append-only table behind a span's
    file field.  [intern] takes the read lock for the common case and the
    write lock, with a second look, to mint; the two halves are separate
    definitions here, so that threads racing on one name can be interleaved.
    A file name is its UTF-8 bytes.  [syntax/span.rs]: [with_file], [file] and
    [merge].

    The theorem is [intern_race_agrees]: however any number of threads
    interleave, two that asked for one name hold one id, two that asked for
    different names hold different ids, and every id reads back as its name. *)

From stdpp Require Import base numbers option list gmap.
From S2P Require Import Prelude LirRecord.

Record Files := mkFiles { fl_names : list (list N); fl_ids : gmap (list N) FileId }.

(** [FILES] at start: index 0 is the absent name. *)
Definition FILES_init : Files := mkFiles [[]] ∅.

(** Under the read lock. *)
Definition intern_read (F : Files) (name : list N) : option FileId := fl_ids F !! name.

(** Under the write lock: look again, then mint. *)
Definition intern_write (F : Files) (name : list N) : FileId * Files :=
  match fl_ids F !! name with
  | Some id => (id, F)
  | None =>
    let id := len_u32 (fl_names F) in
    (id, mkFiles (fl_names F ++ [name]) (<[name := id]> (fl_ids F)))
  end.

Definition files_intern (F : Files) (name : list N) : FileId * Files :=
  match name with
  | [] => (FileId_NONE, F)
  | _ => match intern_read F name with Some id => (id, F) | None => intern_write F name end
  end.

Definition files_name (F : Files) (id : FileId) : option (list N) :=
  if (id =? FileId_NONE)%N then None else fl_names F !! N.to_nat id.

(** [Span::with_file] and [Span::file] *)
Definition with_file (F : Files) (s : Span) (name : list N) : Span * Files :=
  let '(id, F') := files_intern F name in (set_file_id s id, F').

Definition span_file (F : Files) (s : Span) : option (list N) := files_name F (sp_file s).

(** [Span::merge] *)
Definition span_merge (a b : Span) : Span :=
  {| sp_start := N.min (sp_start a) (sp_start b);
     sp_end := N.max (sp_end a) (sp_end b);
     sp_line := N.min (sp_line a) (sp_line b);
     sp_col := if (sp_line a <? sp_line b)%N then sp_col a
               else if (sp_line b <? sp_line a)%N then sp_col b
               else N.min (sp_col a) (sp_col b);
     sp_file := if FileId_is_some (sp_file a) then sp_file a else sp_file b |}.

(** ** The table's invariant *)

Record files_ok (F : Files) : Prop := mk_files_ok {
  fo_absent : fl_names F !! 0 = Some [];
  fo_small : (N.of_nat (length (fl_names F)) <= 2 ^ 32)%N;
  fo_ids : forall name id, fl_ids F !! name = Some id <->
             id <> FileId_NONE /\ fl_names F !! N.to_nat id = Some name;
  fo_named : [] ∉ drop 1 (fl_names F) }.

(** [F'] is a later state of [F]: names are never moved. *)
Definition grows (F F' : Files) : Prop :=
  (exists new, fl_names F' = fl_names F ++ new) /\ fl_ids F ⊆ fl_ids F'.

#[export] Instance grows_preorder : PreOrder grows.
Proof.
  split.
  - intros F. split; [exists []; by rewrite app_nil_r | done].
  - intros F G H [[l1 E1] H1] [[l2 E2] H2]. split; [|by etrans].
    exists (l1 ++ l2). by rewrite E2, E1, app_assoc.
Qed.

(** Room for one more name. *)
Definition has_room (F : Files) : Prop := (N.of_nat (length (fl_names F)) < 2 ^ 32)%N.

Lemma files_init_ok : files_ok FILES_init.
Proof.
  split; cbn; [done | lia | | set_solver].
  intros name id. rewrite lookup_empty. split; [done|].
  intros [Hn Hl]. destruct (N.to_nat id) eqn:E; [|done]. unfold FileId_NONE in *. lia.
Qed.

Lemma files_nonempty F : files_ok F -> (0 < length (fl_names F))%nat.
Proof. intros H. apply lookup_lt_Some with []. apply fo_absent; exact H. Qed.

Lemma intern_write_ok F name id F' :
  files_ok F -> has_room F -> name <> [] -> intern_write F name = (id, F') ->
  files_ok F' /\ grows F F' /\ fl_ids F' !! name = Some id.
Proof.
  intros Hok Hroom Hne. unfold intern_write.
  destruct (fl_ids F !! name) as [i|] eqn:E; intros [= <- <-].
  { split; [done|]. by split; [reflexivity|]. }
  pose proof (files_nonempty F Hok) as Hpos. destruct Hok as [H0 Hs Hi Hn]. unfold has_room in Hroom.
  assert (Hid : N.to_nat (len_u32 (fl_names F)) = length (fl_names F)) by (by apply len_u32_small).
  set (id := len_u32 (fl_names F)) in *. assert (Hnz : id <> FileId_NONE) by (unfold FileId_NONE; lia).
  split; [split; cbn|split; [split; cbn|]].
  - by rewrite lookup_app_l.
  - rewrite length_app. cbn. lia.
  - intros nm j. destruct (decide (nm = name)) as [->|Hd].
    + rewrite lookup_insert_eq. split.
      * intros [= <-]. split; [exact Hnz|]. by rewrite Hid, lookup_app_r, Nat.sub_diag by lia.
      * intros [Hj Hl]. apply lookup_app_Some in Hl as [Hl|[Hge Hl]].
        -- assert (fl_ids F !! name = Some j) by (by apply Hi). congruence.
        -- apply lookup_lt_Some in Hl. cbn in Hl. f_equal. lia.
    + rewrite lookup_insert_ne, Hi by done. apply and_iff_compat_l.
      rewrite lookup_app_Some. split; [by left|]. intros [Hl|[Hge Hl]]; [done|].
      apply list_lookup_singleton_Some in Hl as [_ <-]. done.
  - rewrite drop_app_le by lia. rewrite not_elem_of_app. split; [done|]. set_solver.
  - by eexists.
  - by apply insert_subseteq.
  - apply lookup_insert_eq.
Qed.

Lemma files_intern_ok F name id F' :
  files_ok F -> has_room F -> files_intern F name = (id, F') ->
  files_ok F' /\ grows F F' /\ (name <> [] -> fl_ids F' !! name = Some id).
Proof.
  intros Hok Hroom. unfold files_intern, intern_read.
  destruct name as [|c name]; [intros [= <- <-]; split; [done|]; by split; [reflexivity|]|].
  destruct (fl_ids F !! (c :: name)) as [i|] eqn:E;
    [intros [= <- <-]; split; [done|]; by split; [reflexivity|]|].
  intros H. destruct (intern_write_ok F (c :: name) id F') as (?&?&?); auto.
Qed.

(** An id the table gave reads back as the name it was given for, for good. *)
Lemma id_names F F' name id :
  files_ok F' -> grows F F' -> fl_ids F !! name = Some id -> files_name F' id = Some name.
Proof.
  intros Hok [_ Hs] Hid. pose proof (lookup_weaken _ _ _ _ Hid Hs) as H.
  apply (fo_ids _ Hok) in H as [Hz Hl]. unfold files_name.
  by destruct (N.eqb_spec id FileId_NONE).
Qed.

Lemma files_intern_name F name id F' :
  files_ok F -> has_room F -> name <> [] -> files_intern F name = (id, F') ->
  files_name F' id = Some name.
Proof.
  intros Hok Hr Hne H. edestruct files_intern_ok as (Hok' & Hg & Hid); eauto.
  eapply id_names; [exact Hok' | reflexivity | by apply Hid].
Qed.

(** Interning the name of an id the table already gave returns that id, and
    changes nothing. *)
Lemma files_intern_known F id name :
  files_ok F -> files_name F id = Some name -> files_intern F name = (id, F) /\ name <> [].
Proof.
  intros Hok. unfold files_name. destruct (N.eqb_spec id FileId_NONE) as [|Hz]; [done|].
  intros Hl. assert (Hid : fl_ids F !! name = Some id) by (by apply (fo_ids _ Hok)).
  assert (Hne : name <> []).
  { intros ->. apply (fo_named _ Hok). apply list_elem_of_lookup. exists (N.to_nat id - 1)%nat.
    rewrite lookup_drop. unfold FileId_NONE in Hz. by replace (1 + (N.to_nat id - 1))%nat with (N.to_nat id) by lia. }
  split; [|exact Hne]. unfold files_intern, intern_read. rewrite Hid. by destruct name.
Qed.

(** ** Threads racing to intern *)

Inductive Thread :=
| Asking (name : list N)
| Missed (name : list N)
| Holding (name : list N) (id : FileId).

(** One thread takes one lock and releases it. *)
Inductive tstep : Files -> Thread -> Files -> Thread -> Prop :=
| t_empty F : tstep F (Asking []) F (Holding [] FileId_NONE)
| t_hit F name id : name <> [] -> intern_read F name = Some id ->
    tstep F (Asking name) F (Holding name id)
| t_miss F name : name <> [] -> intern_read F name = None ->
    tstep F (Asking name) F (Missed name)
| t_mint F name id F' : has_room F -> intern_write F name = (id, F') ->
    tstep F (Missed name) F' (Holding name id).

Inductive race : Files -> list Thread -> Files -> list Thread -> Prop :=
| race_done F ts : race F ts F ts
| race_step F ts i t F1 t' F2 ts2 :
    ts !! i = Some t -> tstep F t F1 t' -> race F1 (<[i := t']> ts) F2 ts2 -> race F ts F2 ts2.

(** What a thread knows of the table. *)
Definition knows (F : Files) (t : Thread) : Prop :=
  match t with
  | Asking _ => True
  | Missed name => name <> []
  | Holding name id => match name with [] => id = FileId_NONE | _ => fl_ids F !! name = Some id end
  end.

Lemma knows_grows F F' t : grows F F' -> knows F t -> knows F' t.
Proof.
  intros [_ Hs]. destruct t as [| |[|c name] id]; cbn; try done.
  intros H. by eapply lookup_weaken.
Qed.

Lemma tstep_ok F t F' t' :
  tstep F t F' t' -> files_ok F -> knows F t -> files_ok F' /\ grows F F' /\ knows F' t'.
Proof.
  intros Hs Hok Hk. destruct Hs as [F|F name id Hne Hr|F name Hne Hr|F name id F' Hroom Hw].
  - split; [done|]. by split; [reflexivity|].
  - split; [done|]. split; [reflexivity|]. cbn. by destruct name.
  - split; [done|]. split; [reflexivity | exact Hne].
  - cbn in Hk. destruct (intern_write_ok F name id F' Hok Hroom Hk Hw) as (? & ? & ?).
    do 2 (split; [done|]). cbn. by destruct name.
Qed.

Lemma race_ok F ts F' ts' :
  race F ts F' ts' -> files_ok F -> Forall (knows F) ts ->
  files_ok F' /\ grows F F' /\ Forall (knows F') ts'.
Proof.
  induction 1 as [F ts|F ts i t F1 t' F2 ts2 Hi Hs Hr IH]; intros Hok Hts.
  { split; [done|]. by split; [reflexivity|]. }
  destruct (tstep_ok F t F1 t' Hs Hok) as (Hok1 & Hg & Hk).
  { rewrite Forall_lookup in Hts. by eapply Hts. }
  destruct IH as (Hok2 & Hg2 & Hts2); [exact Hok1 | | split; [done|]; split; [by etrans | done]].
  apply Forall_insert; [|exact Hk]. eapply Forall_impl; [exact Hts|]. intros x. by apply knows_grows.
Qed.

(** The file interner is safe under any interleaving of threads.  Start any
    number of threads asking for names from a table that is well formed, and
    let them take the read and write locks in any order, minting while the
    32-bit ids last: of two threads that
    hold ids, equal names hold equal ids and different names different ids, and
    the table reads each id back as the name asked for.  The second look under
    the write lock is what the first half rests on. *)
Theorem intern_race_agrees F asked F' ts' n1 n2 id1 id2 :
  files_ok F -> race F (Asking <$> asked) F' ts' ->
  Holding n1 id1 ∈ ts' -> Holding n2 id2 ∈ ts' ->
  (n1 = n2 <-> id1 = id2) /\ (n1 <> [] -> files_name F' id1 = Some n1).
Proof.
  intros Hok Hr H1 H2.
  destruct (race_ok _ _ _ _ Hr Hok) as (Hok' & _ & Hts).
  { apply Forall_fmap, Forall_forall. done. }
  rewrite Forall_forall in Hts. apply Hts in H1. apply Hts in H2. cbn in H1, H2.
  assert (Hnm : forall n id, match n with [] => id = FileId_NONE | _ => fl_ids F' !! n = Some id end ->
                 (n = [] /\ id = FileId_NONE) \/ (n <> [] /\ files_name F' id = Some n)).
  { intros [|c n] id; [by left|]. right. split; [done|]. by eapply id_names. }
  assert (Hz : files_name F' FileId_NONE = None) by done.
  split; [split|].
  - intros ->. destruct n2; congruence.
  - destruct (Hnm _ _ H1) as [[-> ->]|[Hn1 E1]], (Hnm _ _ H2) as [[-> ->]|[Hn2 E2]]; congruence.
  - destruct (Hnm _ _ H1) as [[-> ->]|[Hn1 E1]]; [done|]. done.
Qed.

Lemma intern_race_agrees_witness :
  let a := [97%N] in
  let F' := (intern_write FILES_init a).2 in
  race FILES_init (Asking <$> [a; a]) F' [Holding a 1%N; Holding a 1%N] /\
  ((a = a <-> 1%N = 1%N) /\ (a <> [] -> files_name F' 1%N = Some a)).
Proof.
  intros a F'.
  assert (H : race FILES_init (Asking <$> [a; a]) F' [Holding a 1%N; Holding a 1%N]).
  { eapply (race_step _ _ 0 (Asking a) FILES_init (Missed a)); [done | by apply t_miss |].
    eapply (race_step _ _ 1 (Asking a) FILES_init (Missed a)); [done | by apply t_miss |].
    eapply (race_step _ _ 1 (Missed a) F' (Holding a 1%N)); [done | by apply t_mint |].
    eapply (race_step _ _ 0 (Missed a) F' (Holding a 1%N)); [done | by apply t_mint |].
    apply race_done. }
  split; [exact H|].
  apply (intern_race_agrees FILES_init [a; a] F' [Holding a 1%N; Holding a 1%N] a a 1%N 1%N);
    [apply files_init_ok | exact H | left | left].
Defined.
