(* ===== verification/Template.v ===== *)
(** * Templates of heap literals

    [value/template.rs]: [ConstTemplate], the compile-time data a heap literal
    is built from on every run, its preorder byte encoding inside the bytecode
    and the decoder the interpreter runs, with [immediate_value]'s split of
    the templates that need no allocation.

    A Rust [String] is its UTF-8 bytes, a float its 64-bit pattern.  The
    decoder's slice and index are the bytes from the index on.  Decoding
    panics on a malformed stream ([Panics]); its recursion takes a fuel, and
    [Starved] is a fuel too small, which is a third answer so that it cannot
    stand for either.  The file table is threaded, since a decoded span
    interns its file's name. *)

From stdpp Require Import base numbers option list gmap.
From S2P Require Import Prelude LirRecord Bytes Files.

Local Open Scope N_scope.

(** ** The template *)

Inductive ConstTemplate :=
| CT_Nil
| CT_EmptyList
| CT_Bool (b : bool)
| CT_Int (n : Z)
| CT_Float (bits : N)
| CT_Symbol (name : list N)
| CT_Keyword (name : list N)
| CT_String (s : list N)
| CT_StringMut (s : list N)
| CT_Pair (car cdr : ConstTemplate)
| CT_Array (elems : list ConstTemplate)
| CT_ArrayMut (elems : list ConstTemplate)
| CT_SyntaxSymbol (name : list N) (scopes : list N) (span : Span) (scope_exempt : bool).

(** Induction with the elements of an array. *)
Lemma template_rect (P : ConstTemplate -> Prop)
    (Hnil : P CT_Nil) (Hempty : P CT_EmptyList) (Hbool : forall b, P (CT_Bool b))
    (Hint : forall n, P (CT_Int n)) (Hfloat : forall f, P (CT_Float f))
    (Hsym : forall s, P (CT_Symbol s)) (Hkw : forall s, P (CT_Keyword s))
    (Hstr : forall s, P (CT_String s)) (Hstrm : forall s, P (CT_StringMut s))
    (Hpair : forall a d, P a -> P d -> P (CT_Pair a d))
    (Harr : forall es, Forall P es -> P (CT_Array es))
    (Harrm : forall es, Forall P es -> P (CT_ArrayMut es))
    (Hsyn : forall n sc sp e, P (CT_SyntaxSymbol n sc sp e)) : forall t, P t.
Proof.
  fix IH 1. intros [| |b|n|f|s|s|s|s|a d|es|es|n sc sp e].
  all: try solve [clear IH; auto].
  - apply Hpair; apply IH.
  - apply Harr. induction es as [|e es IHes]; constructor; [apply IH | exact IHes].
  - apply Harrm. induction es as [|e es IHes]; constructor; [apply IH | exact IHes].
Qed.

(** ** Tags *)

Module Tags.
Definition TAG_NIL : N := 0.
Definition TAG_EMPTY_LIST : N := 1.
Definition TAG_BOOL : N := 2.
Definition TAG_INT : N := 3.
Definition TAG_FLOAT : N := 4.
Definition TAG_SYMBOL : N := 5.
Definition TAG_KEYWORD : N := 6.
Definition TAG_STRING : N := 7.
Definition TAG_STRING_MUT : N := 8.
Definition TAG_PAIR : N := 9.
Definition TAG_ARRAY : N := 10.
Definition TAG_ARRAY_MUT : N := 11.
Definition TAG_SYNTAX_SYMBOL : N := 12.
End Tags.

(** ** Encoding *)

Definition put_str (s : list N) : list N := be_bytes 4 (len_u32 s) ++ s.

(** [encode], as the bytes appended; [put_seq] is the two array arms. *)
Fixpoint encode (F : Files) (t : ConstTemplate) : list N :=
  match t with
  | CT_Nil => [Tags.TAG_NIL]
  | CT_EmptyList => [Tags.TAG_EMPTY_LIST]
  | CT_Bool b => [Tags.TAG_BOOL; N.b2n b]
  | CT_Int n => Tags.TAG_INT :: be_bytes 8 (i64_as_u64 n)
  | CT_Float f => Tags.TAG_FLOAT :: be_bytes 8 f
  | CT_Symbol name => Tags.TAG_SYMBOL :: put_str name
  | CT_Keyword k => Tags.TAG_KEYWORD :: put_str k
  | CT_String s => Tags.TAG_STRING :: put_str s
  | CT_StringMut s => Tags.TAG_STRING_MUT :: put_str s
  | CT_Pair car cdr => Tags.TAG_PAIR :: encode F car ++ encode F cdr
  | CT_Array elems => Tags.TAG_ARRAY :: be_bytes 4 (len_u32 elems) ++ concat (encode F <$> elems)
  | CT_ArrayMut elems => Tags.TAG_ARRAY_MUT :: be_bytes 4 (len_u32 elems) ++ concat (encode F <$> elems)
  | CT_SyntaxSymbol name scopes span scope_exempt =>
    Tags.TAG_SYNTAX_SYMBOL :: put_str name
      ++ be_bytes 4 (len_u32 scopes) ++ concat (be_bytes 4 <$> scopes)
      ++ be_bytes 8 (sp_start span) ++ be_bytes 8 (sp_end span)
      ++ be_bytes 4 (sp_line span) ++ be_bytes 4 (sp_col span)
      ++ match span_file F span with Some f => 1 :: put_str f | None => [0] end
      ++ [N.b2n scope_exempt]
  end.

(** ** Decoding *)

Inductive Res (A : Type) := Done (a : A) | Panics | Starved.
Arguments Done {_}. Arguments Panics {_}. Arguments Starved {_}.

#[export] Instance Res_bind : MBind Res := fun A B f r =>
  match r with Done a => f a | Panics => Panics | Starved => Starved end.

(** A slice index past the end panics. *)
Definition or_panic {A} (o : option A) : Res A :=
  match o with Some a => Done a | None => Panics end.

Definition get_str (bs : list N) : Res (list N * list N) :=
  '(len, bs) ← or_panic (read_be 4 bs);
  '(s, bs) ← or_panic (take_n (N.to_nat len) bs);
  if utf8_valid s then Done (s, bs) else Panics.

Definition get_byte (bs : list N) : Res (N * list N) :=
  match bs with b :: rest => Done (b, rest) | [] => Panics end.

Section Repeat.
Context {A S : Type} (one : S -> list N -> Res (A * S * list N)).

(** [(0..count).map(one).collect()]: every item takes a byte or panics, so the
    bytes bound the rounds that matter. *)
Fixpoint get_many (fuel : nat) (count : N) (st : S) (bs : list N) : Res (list A * S * list N) :=
  if count =? 0 then Done ([], st, bs)
  else match fuel with
       | O => Starved
       | Datatypes.S fuel =>
         '(a, st, bs) ← one st bs;
         '(l, st, bs) ← get_many fuel (N.pred count) st bs;
         Done (a :: l, st, bs)
       end.
End Repeat.

Definition get_scope (_ : unit) (bs : list N) : Res (N * unit * list N) :=
  '(x, bs) ← or_panic (read_be 4 bs); Done (x, tt, bs).

(** The tail of a syntax symbol, after its tag. *)
Definition get_syntax_symbol (fuel : nat) (F : Files) (bs : list N)
    : Res (ConstTemplate * Files * list N) :=
  '(name, bs) ← get_str bs;
  '(n, bs) ← or_panic (read_be 4 bs);
  '(scopes, _, bs) ← get_many get_scope fuel n tt bs;
  '(start, bs) ← or_panic (read_be 8 bs);
  '(end_, bs) ← or_panic (read_be 8 bs);
  '(line, bs) ← or_panic (read_be 4 bs);
  '(col, bs) ← or_panic (read_be 4 bs);
  '(has_file, bs) ← get_byte bs;
  '(file, bs) ← (if has_file =? 0 then Done (None, bs)
                 else '(f, bs) ← get_str bs; Done (Some f, bs));
  '(exempt, bs) ← get_byte bs;
  let span := Span_new start end_ line col in
  let '(span, F) := match file with Some f => with_file F span f | None => (span, F) end in
  Done (CT_SyntaxSymbol name scopes span (negb (exempt =? 0)), F, bs).

Fixpoint decode (fuel : nat) (F : Files) (bs : list N) : Res (ConstTemplate * Files * list N) :=
  match fuel with
  | O => Starved
  | S fuel =>
    '(tag, bs) ← get_byte bs;
    if tag =? Tags.TAG_NIL then Done (CT_Nil, F, bs)
    else if tag =? Tags.TAG_EMPTY_LIST then Done (CT_EmptyList, F, bs)
    else if tag =? Tags.TAG_BOOL then '(b, bs) ← get_byte bs; Done (CT_Bool (negb (b =? 0)), F, bs)
    else if tag =? Tags.TAG_INT then
      '(x, bs) ← or_panic (read_be 8 bs); Done (CT_Int (u64_as_i64 x), F, bs)
    else if tag =? Tags.TAG_FLOAT then '(x, bs) ← or_panic (read_be 8 bs); Done (CT_Float x, F, bs)
    else if tag =? Tags.TAG_SYMBOL then '(s, bs) ← get_str bs; Done (CT_Symbol s, F, bs)
    else if tag =? Tags.TAG_KEYWORD then '(s, bs) ← get_str bs; Done (CT_Keyword s, F, bs)
    else if tag =? Tags.TAG_STRING then '(s, bs) ← get_str bs; Done (CT_String s, F, bs)
    else if tag =? Tags.TAG_STRING_MUT then '(s, bs) ← get_str bs; Done (CT_StringMut s, F, bs)
    else if tag =? Tags.TAG_PAIR then
      '(car, F, bs) ← decode fuel F bs;
      '(cdr, F, bs) ← decode fuel F bs;
      Done (CT_Pair car cdr, F, bs)
    else if tag =? Tags.TAG_ARRAY then
      '(count, bs) ← or_panic (read_be 4 bs);
      '(l, F, bs) ← get_many (decode fuel) fuel count F bs; Done (CT_Array l, F, bs)
    else if tag =? Tags.TAG_ARRAY_MUT then
      '(count, bs) ← or_panic (read_be 4 bs);
      '(l, F, bs) ← get_many (decode fuel) fuel count F bs; Done (CT_ArrayMut l, F, bs)
    else if tag =? Tags.TAG_SYNTAX_SYMBOL then get_syntax_symbol fuel F bs
    else Panics
  end.

(** Enough for any stream: a round takes a byte. *)
Definition decode_fuel (bs : list N) : nat := S (length bs).

(** ** Immediates *)

(** [immediate_value] answers a value for these and [None] for the rest. *)
Definition is_immediate (t : ConstTemplate) : bool :=
  match t with
  | CT_Nil | CT_EmptyList | CT_Bool _ | CT_Int _ | CT_Float _ | CT_Symbol _ | CT_Keyword _ => true
  | CT_String _ | CT_StringMut _ | CT_Pair _ _ | CT_Array _ | CT_ArrayMut _
  | CT_SyntaxSymbol _ _ _ _ => false
  end.

(** ** The templates a Rust value can be

    With one bound the Rust types do not give: strings, arrays and scope lists
    are shorter than 2^32, since [encode] writes their lengths [as u32]. *)

Definition str_typed (s : list N) : Prop :=
  Forall is_byte s /\ utf8_valid s = true /\ N.of_nat (length s) < 2 ^ 32.

Definition u32s_typed (l : list N) : Prop :=
  Forall (fun x => x < 2 ^ 32) l /\ N.of_nat (length l) < 2 ^ 32.

Definition span_typed (F : Files) (s : Span) : Prop :=
  sp_start s < 2 ^ 32 /\ sp_end s < 2 ^ 32 /\ sp_line s < 2 ^ 32 /\ sp_col s < 2 ^ 32 /\
  match span_file F s with Some f => str_typed f | None => sp_file s = FileId_NONE end.

Fixpoint typed (F : Files) (t : ConstTemplate) : Prop :=
  match t with
  | CT_Nil | CT_EmptyList | CT_Bool _ => True
  | CT_Int n => i64_range n
  | CT_Float f => f < 2 ^ 64
  | CT_Symbol s | CT_Keyword s | CT_String s | CT_StringMut s => str_typed s
  | CT_Pair a d => typed F a /\ typed F d
  | CT_Array l | CT_ArrayMut l =>
    N.of_nat (length l) < 2 ^ 32 /\ foldr (fun e P => typed F e /\ P) True l
  | CT_SyntaxSymbol name scopes span _ => str_typed name /\ u32s_typed scopes /\ span_typed F span
  end.
