(* ===== verification/TemplateProps.v ===== *)
(** * Templates survive the bytecode

    The decoder reads back exactly what the encoder wrote, in the same process
    and in another one, and never runs on: on any bytes at all it returns or
    panics within one round per byte. *)

From stdpp Require Import base numbers option list gmap.
From S2P Require Import Prelude LirRecord Bytes Files Template.

Local Open Scope N_scope.

(** ** The primitive fields *)

Lemma get_str_put s rest : str_typed s -> get_str (put_str s ++ rest) = Done (s, rest).
Proof.
  intros (Hb & Hu & Hl). unfold get_str, put_str. rewrite <- app_assoc.
  assert (Hs : len_u32 s = N.of_nat (length s)) by (apply as_u32_small; exact Hl).
  rewrite Hs, read_be_bytes by exact Hl. cbn [or_panic mbind Res_bind].
  rewrite Nat2N.id, take_n_app by done. cbn [or_panic mbind Res_bind]. by rewrite Hu.
Qed.

Lemma read_u32_bytes x rest : x < 2 ^ 32 -> read_be 4 (be_bytes 4 x ++ rest) = Some (x, rest).
Proof. intros H. by apply read_be_bytes. Qed.

Lemma read_u64_bytes x rest : x < 2 ^ 64 -> read_be 8 (be_bytes 8 x ++ rest) = Some (x, rest).
Proof. intros H. by apply read_be_bytes. Qed.

Lemma i64_bits_small n : i64_as_u64 n < 2 ^ 64.
Proof. unfold i64_as_u64. pose proof (Z.mod_pos_bound n (2 ^ 64) eq_refl). lia. Qed.

Lemma N_b2n_bool b : negb (N.b2n b =? 0) = b.
Proof. by destruct b. Qed.

Lemma get_scope_put x rest : x < 2 ^ 32 -> get_scope tt (be_bytes 4 x ++ rest) = Done (x, tt, rest).
Proof. intros Hx. unfold get_scope. by rewrite read_u32_bytes. Qed.

Lemma get_scopes_put scopes rest : forall fuel,
  Forall (fun x => x < 2 ^ 32) scopes -> (length scopes <= fuel)%nat ->
  get_many get_scope fuel (N.of_nat (length scopes)) tt (concat (be_bytes 4 <$> scopes) ++ rest)
  = Done (scopes, tt, rest).
Proof.
  induction scopes as [|x scopes IH]; intros fuel Ht Hf; [by destruct fuel|].
  apply Forall_cons in Ht as [Hx Ht]. destruct fuel as [|fuel]; [cbn in Hf; lia|].
  cbn [length] in *. cbn [get_many]. destruct (N.eqb_spec (N.of_nat (S (length scopes))) 0); [lia|].
  cbn [fmap list_fmap concat]. rewrite <- app_assoc.
  rewrite get_scope_put by exact Hx. cbn [mbind Res_bind].
  replace (N.pred (N.of_nat (S (length scopes)))) with (N.of_nat (length scopes)) by lia.
  rewrite IH by (done || lia). done.
Qed.

(** ** Another process

    A decoded span names its file in the table of the process that decodes
    it: [reintern] is the template with its file ids moved there. *)
Section MapState.
Context {A B S : Type} (f : S -> A -> B * S).

Fixpoint map_st (st : S) (l : list A) : list B * S :=
  match l with
  | [] => ([], st)
  | x :: l => let '(y, st) := f st x in let '(l, st) := map_st st l in (y :: l, st)
  end.
End MapState.

Fixpoint reintern (F F' : Files) (t : ConstTemplate) : ConstTemplate * Files :=
  match t with
  | CT_Pair a d =>
    let '(a, F1) := reintern F F' a in let '(d, F2) := reintern F F1 d in (CT_Pair a d, F2)
  | CT_Array l => let '(l, F1) := map_st (reintern F) F' l in (CT_Array l, F1)
  | CT_ArrayMut l => let '(l, F1) := map_st (reintern F) F' l in (CT_ArrayMut l, F1)
  | CT_SyntaxSymbol n sc sp e =>
    match span_file F sp with
    | Some f => let '(sp, F1) := with_file F' sp f in (CT_SyntaxSymbol n sc sp e, F1)
    | None => (CT_SyntaxSymbol n sc (set_file_id sp FileId_NONE) e, F')
    end
  | _ => (t, F')
  end.

(** The spans a template carries: an upper bound on what decoding interns. *)
Fixpoint spans_of (t : ConstTemplate) : list Span :=
  match t with
  | CT_Pair a d => spans_of a ++ spans_of d
  | CT_Array l | CT_ArrayMut l => concat (spans_of <$> l)
  | CT_SyntaxSymbol _ _ sp _ => [sp]
  | _ => []
  end.

(** *** Encodings are never empty *)

Lemma encode_nonempty F t : (1 <= length (encode F t))%nat.
Proof. destruct t; cbn; lia. Qed.

Lemma encode_all_length F l : (length l <= length (concat (encode F <$> l)))%nat.
Proof.
  induction l as [|e l IH]; [done|]. cbn [fmap list_fmap concat length]. rewrite length_app.
  pose proof (encode_nonempty F e). lia.
Qed.

(** ** Decoding what was encoded *)

Definition decodes (F : Files) (t : ConstTemplate) : Prop :=
  forall fuel F' rest, typed F t -> (length (encode F t) <= fuel)%nat ->
    decode fuel F' (encode F t ++ rest)
    = let '(t', F'') := reintern F F' t in Done (t', F'', rest).

Lemma decodes_many F l : Forall (decodes F) l -> forall fuel fuel' F' rest,
  foldr (fun e P => typed F e /\ P) True l ->
  (length (concat (encode F <$> l)) <= fuel)%nat -> (length l <= fuel')%nat ->
  get_many (decode fuel) fuel' (N.of_nat (length l)) F' (concat (encode F <$> l) ++ rest)
  = let '(l', F'') := map_st (reintern F) F' l in Done (l', F'', rest).
Proof.
  induction 1 as [|e l He Hl IH]; intros fuel fuel' F' rest Ht Hf Hf'; [by destruct fuel'|].
  destruct fuel' as [|fuel']; [cbn in Hf'; lia|]. cbn [foldr] in Ht. destruct Ht as [Hte Ht].
  cbn [length fmap list_fmap concat] in *. rewrite length_app in Hf. cbn [get_many].
  destruct (N.eqb_spec (N.of_nat (S (length l))) 0); [lia|]. rewrite <- app_assoc.
  rewrite He by (done || lia). cbn [map_st]. destruct (reintern F F' e) as [e' F1].
  cbn [mbind Res_bind]. replace (N.pred (N.of_nat (S (length l)))) with (N.of_nat (length l)) by lia.
  rewrite IH by (done || lia). by destruct (map_st (reintern F) F1 l).
Qed.

(** One step of a decoder over fields written as they are read. *)
Ltac read_field :=
  first [ rewrite get_str_put by done
        | rewrite read_u32_bytes by lia
        | rewrite read_u64_bytes by lia
        | progress cbn [or_panic mbind Res_bind get_byte app]
        | progress (change (1 =? 0) with false; cbv iota)
        | progress (change (0 =? 0) with true; cbv iota) ].

Lemma get_syntax_symbol_put F fuel F' name scopes span exempt rest :
  typed F (CT_SyntaxSymbol name scopes span exempt) -> (length scopes <= fuel)%nat ->
  get_syntax_symbol fuel F'
    (put_str name ++ be_bytes 4 (len_u32 scopes) ++ concat (be_bytes 4 <$> scopes)
      ++ be_bytes 8 (sp_start span) ++ be_bytes 8 (sp_end span)
      ++ be_bytes 4 (sp_line span) ++ be_bytes 4 (sp_col span)
      ++ match span_file F span with Some f => 1 :: put_str f | None => [0] end
      ++ N.b2n exempt :: rest)
  = let '(t', F'') := reintern F F' (CT_SyntaxSymbol name scopes span exempt) in
    Done (t', F'', rest).
Proof.
  intros (Hn & [Hs Hsl] & Hst & Hen & Hli & Hco & Hfile) Hfuel. unfold get_syntax_symbol.
  assert (El : len_u32 scopes = N.of_nat (length scopes)) by (apply as_u32_small; exact Hsl).
  repeat read_field. rewrite El, get_scopes_put by done. repeat read_field.
  assert (Enew : Span_new (sp_start span) (sp_end span) (sp_line span) (sp_col span)
                 = set_file_id span FileId_NONE).
  { unfold Span_new, set_file_id. by rewrite !as_u32_small. }
  cbn [reintern]. destruct (span_file F span) as [f|] eqn:Ef; repeat read_field;
    rewrite N_b2n_bool; rewrite Enew; [|done].
  unfold with_file. by destruct (files_intern F' f).
Qed.

Lemma length_put_scopes scopes : (length scopes <= length (concat (be_bytes 4 <$> scopes)))%nat.
Proof.
  induction scopes as [|x l IH]; [done|]. cbn [fmap list_fmap concat length]. rewrite length_app.
  rewrite length_be_bytes. lia.
Qed.

Lemma decodes_all F t : decodes F t.
Proof.
  induction t as [| |b|n|f|s|s|s|s|a d IHa IHd|es IH|es IH|n sc sp ex] using template_rect;
    intros [|fuel] F' rest Ht Hf; try (pose proof (encode_nonempty F CT_Nil); cbn in Hf; lia).
  all: cbn [encode app length] in Hf |- *; cbn [decode get_byte mbind Res_bind N.eqb Pos.eqb].
  - done.
  - done.
  - cbn. by rewrite N_b2n_bool.
  - cbn [typed] in Ht. pose proof (i64_bits_small n). repeat read_field. by rewrite i64_roundtrip.
  - cbn [typed] in Ht. by repeat read_field.
  - cbn [typed] in Ht. by repeat read_field.
  - cbn [typed] in Ht. by repeat read_field.
  - cbn [typed] in Ht. by repeat read_field.
  - cbn [typed] in Ht. by repeat read_field.
  - destruct Ht as [Ha Hd]. rewrite length_app in Hf. rewrite <- app_assoc.
    rewrite IHa by (done || lia). cbn [reintern]. destruct (reintern F F' a) as [a' F1].
    cbn [mbind Res_bind]. rewrite IHd by (done || lia). by destruct (reintern F F1 d).
  - destruct Ht as [Hl Ht]. rewrite length_app, length_be_bytes in Hf. rewrite <- app_assoc.
    unfold len_u32. rewrite as_u32_small by exact Hl. rewrite read_u32_bytes by exact Hl.
    cbn [or_panic mbind Res_bind]. pose proof (encode_all_length F es).
    rewrite (decodes_many F es IH) by (done || lia).
    cbn [reintern]. by destruct (map_st (reintern F) F' es).
  - destruct Ht as [Hl Ht]. rewrite length_app, length_be_bytes in Hf. rewrite <- app_assoc.
    unfold len_u32. rewrite as_u32_small by exact Hl. rewrite read_u32_bytes by exact Hl.
    cbn [or_panic mbind Res_bind]. pose proof (encode_all_length F es).
    rewrite (decodes_many F es IH) by (done || lia).
    cbn [reintern]. by destruct (map_st (reintern F) F' es).
  - rewrite <- !app_assoc. apply get_syntax_symbol_put; [exact Ht|].
    rewrite !length_app in Hf. pose proof (length_put_scopes sc). lia.
Qed.

(** ** What reinterning does *)

Definition located_span (F : Files) (sp : Span) : Prop :=
  sp_file sp = FileId_NONE \/ is_Some (span_file F sp).

Definition located (F : Files) (t : ConstTemplate) : Prop := Forall (located_span F) (spans_of t).

Lemma span_file_grows F F' sp :
  grows F F' -> located_span F sp -> span_file F sp = span_file F' sp.
Proof.
  intros [[new En] _] Hl. unfold located_span, span_file, files_name in *.
  destruct (N.eqb_spec (sp_file sp) FileId_NONE); [done|].
  destruct Hl as [|[x Hx]]; [done|]. rewrite En, lookup_app, Hx. done.
Qed.

Lemma located_span_grows F F' sp : grows F F' -> located_span F sp -> located_span F' sp.
Proof.
  intros Hg Hl. pose proof (span_file_grows F F' sp Hg Hl) as E.
  destruct Hl as [|Hl]; [by left | right; by rewrite <- E].
Qed.

Lemma located_grows F F' t : grows F F' -> located F t -> located F' t.
Proof. intros Hg Hl. eapply Forall_impl; [exact Hl|]. intros sp. by apply located_span_grows. Qed.

(** The file table matters to an encoding only through the spans. *)
Lemma encode_ext F F' t :
  Forall (fun sp => span_file F sp = span_file F' sp) (spans_of t) -> encode F t = encode F' t.
Proof.
  induction t as [| |b|n|f|s|s|s|s|a d IHa IHd|es IH|es IH|n sc sp ex] using template_rect;
    cbn [spans_of encode]; try done.
  - intros [Ha Hd]%Forall_app. by rewrite IHa, IHd.
  - intros H. do 3 f_equal. induction IH as [|e es He Hes IH]; [done|].
    cbn in *. apply Forall_app in H as [H1 H2]. f_equal; auto.
  - intros H. do 3 f_equal. induction IH as [|e es He Hes IH]; [done|].
    cbn in *. apply Forall_app in H as [H1 H2]. f_equal; auto.
  - intros [H _]%Forall_cons. by rewrite H.
Qed.

Lemma encode_grows F F' t : grows F F' -> located F t -> encode F' t = encode F t.
Proof.
  intros Hg Hl. symmetry. apply encode_ext. eapply Forall_impl; [exact Hl|].
  intros sp. by apply span_file_grows.
Qed.

Definition room_for (F : Files) (n : nat) : Prop :=
  N.of_nat (length (fl_names F) + n) < 2 ^ 32.

(** [x'] in [F''] is what reinterning [t] into [F'] made of it. *)
Record moved (F F' F'' : Files) (n : nat) : Prop := mk_moved {
  mv_ok : files_ok F''; mv_grows : grows F' F'';
  mv_len : (length (fl_names F'') <= length (fl_names F') + n)%nat }.

Lemma moved_refl F F' : files_ok F' -> moved F F' F' 0.
Proof. intros H. split; [done | reflexivity | lia]. Qed.

Lemma moved_trans F F1 F2 F3 n m : moved F F1 F2 n -> moved F F2 F3 m -> moved F F1 F3 (n + m).
Proof. intros [_ G1 L1] [O2 G2 L2]. split; [done | by etrans | lia]. Qed.

Lemma intern_length F name id F' :
  files_intern F name = (id, F') -> (length (fl_names F') <= length (fl_names F) + 1)%nat.
Proof.
  unfold files_intern, intern_read, intern_write.
  destruct name as [|c name]; [intros [= <- <-]; lia|].
  destruct (fl_ids F !! (c :: name)); intros [= <- <-]; [lia|]. cbn. rewrite length_app. cbn. lia.
Qed.

Definition reinterns (F : Files) (t : ConstTemplate) : Prop :=
  forall F' t' F'', files_ok F' -> room_for F' (length (spans_of t)) ->
    reintern F F' t = (t', F'') ->
    moved F F' F'' (length (spans_of t)) /\ located F'' t' /\ encode F'' t' = encode F t.

Lemma reinterns_many F l : Forall (reinterns F) l -> forall F' l' F'',
  files_ok F' -> room_for F' (length (concat (spans_of <$> l))) ->
  map_st (reintern F) F' l = (l', F'') ->
  moved F F' F'' (length (concat (spans_of <$> l))) /\ Forall (located F'') l' /\
  concat (encode F'' <$> l') = concat (encode F <$> l) /\ length l' = length l.
Proof.
  induction 1 as [|e l He Hl IH]; intros F' l' F'' Hok Hroom; cbn [map_st].
  { intros [= <- <-]. split; [by apply moved_refl | done]. }
  destruct (reintern F F' e) as [e' F1] eqn:Ee.
  destruct (map_st (reintern F) F1 l) as [l1 F2] eqn:El. intros [= <- <-].
  cbn [fmap list_fmap concat] in *. rewrite length_app in *. unfold room_for in Hroom.
  destruct (He F' e' F1 Hok) as (M1 & L1 & E1); [unfold room_for; lia | exact Ee|].
  destruct (IH F1 l1 F2) as (M2 & L2 & E2 & E3);
    [apply M1 | destruct M1; unfold room_for; lia | exact El |].
  pose proof (mv_grows _ _ _ _ M2) as G2.
  split; [by eapply moved_trans|]. split; [constructor; [by eapply located_grows | done]|].
  split; [by rewrite (encode_grows F1 F2) , E1, E2 | cbn; by rewrite E3].
Qed.

Lemma reinterns_all F t : files_ok F -> reinterns F t.
Proof.
  intros HF. induction t as [| |b|n|f|s|s|s|s|a d IHa IHd|es IH|es IH|n sc sp ex] using template_rect;
    intros F' t' F'' Hok Hroom; cbn [reintern].
  all: try (intros [= <- <-]; split; [by apply moved_refl | split; [by constructor | done]]).
  - destruct (reintern F F' a) as [a' F1] eqn:Ea. destruct (reintern F F1 d) as [d' F2] eqn:Ed.
    intros [= <- <-]. cbn [spans_of] in *. rewrite length_app in *. unfold room_for in Hroom.
    destruct (IHa F' a' F1 Hok) as (M1 & L1 & E1); [unfold room_for; lia | exact Ea|].
    destruct (IHd F1 d' F2) as (M2 & L2 & E2); [apply M1 | destruct M1; unfold room_for; lia | exact Ed|].
    pose proof (mv_grows _ _ _ _ M2) as G2.
    split; [by eapply moved_trans|]. split; [apply Forall_app; split; [by eapply located_grows | done]|].
    cbn [encode]. by rewrite (encode_grows F1 F2), E1, E2.
  - destruct (map_st (reintern F) F' es) as [l' F1] eqn:E. intros [= <- <-].
    destruct (reinterns_many F es IH F' l' F1 Hok Hroom E) as (M & L & C & Hl).
    split; [done|]. split; [|cbn [encode]; unfold len_u32; by rewrite C, Hl].
    apply Forall_concat, Forall_fmap. exact L.
  - destruct (map_st (reintern F) F' es) as [l' F1] eqn:E. intros [= <- <-].
    destruct (reinterns_many F es IH F' l' F1 Hok Hroom E) as (M & L & C & Hl).
    split; [done|]. split; [|cbn [encode]; unfold len_u32; by rewrite C, Hl].
    apply Forall_concat, Forall_fmap. exact L.
  - cbn [spans_of length] in *. destruct (span_file F sp) as [f|] eqn:Ef.
    + unfold with_file. destruct (files_intern F' f) as [id F1] eqn:Ei. intros [= <- <-].
      destruct (files_intern_known F _ f HF Ef) as [_ Hne].
      assert (Hr : has_room F') by (unfold has_room, room_for in *; lia).
      destruct (files_intern_ok F' f id F1 Hok Hr Ei) as (Hok1 & Hg & _).
      pose proof (files_intern_name F' f id F1 Hok Hr Hne Ei) as Hnm.
      split; [split; [done | done | by eapply intern_length]|].
      split; [apply Forall_singleton; right; unfold span_file; cbn; by rewrite Hnm|].
      assert (E : span_file F1 (set_file_id sp id) = Some f) by exact Hnm.
      cbn [encode]. by rewrite E, Ef.
    + intros [= <- <-]. split; [split; [done | reflexivity | lia]|].
      split; [apply Forall_singleton; by left|]. cbn [encode]. rewrite Ef. done.
Qed.

(** In the process that encoded it, reinterning changes nothing. *)
Lemma reintern_here F t : files_ok F -> typed F t -> reintern F F t = (t, F).
Proof.
  intros HF. assert (Hm : forall l, Forall (fun t => typed F t -> reintern F F t = (t, F)) l ->
    foldr (fun e P => typed F e /\ P) True l -> map_st (reintern F) F l = (l, F)).
  { induction 1 as [|e l He Hl IH]; [done|]. intros [Hte Ht]. cbn. by rewrite (He Hte), (IH Ht). }
  induction t as [| |b|n|f|s|s|s|s|a d IHa IHd|es IH|es IH|n sc sp ex] using template_rect;
    cbn [reintern typed]; try done.
  - intros [Ha Hd]. by rewrite IHa, IHd.
  - intros [_ Ht]. by rewrite Hm.
  - intros [_ Ht]. by rewrite Hm.
  - intros (_ & _ & _ & _ & _ & _ & Hf). destruct (span_file F sp) as [f|] eqn:Ef.
    + destruct (files_intern_known F _ f HF Ef) as [Hi _]. unfold with_file. rewrite Hi.
      by destruct sp.
    + rewrite <- Hf. by destruct sp.
Qed.

(** ** Decoding ends

    [ends_below n r]: not starved, and fewer than [n] bytes are left. *)
Definition ends_below {X} (n : nat) (r : Res (X * list N)) : Prop :=
  match r with Done (_, rest) => (length rest < n)%nat | Panics => True | Starved => False end.

Lemma ends_bind {X Y} n m (r : Res (X * list N)) (f : X * list N -> Res (Y * list N)) :
  ends_below n r -> (forall x rest, (length rest < n)%nat -> ends_below m (f (x, rest))) ->
  ends_below m (r ≫= f).
Proof. destruct r as [[x rest]| |]; cbn; auto. Qed.

Lemma ends_weaken {X} n m (r : Res (X * list N)) : (n <= m)%nat -> ends_below n r -> ends_below m r.
Proof. destruct r as [[x rest]| |]; cbn; [lia | done | done]. Qed.

Lemma read_ends k bs : ends_below (S (length bs)) (or_panic (read_be k bs)).
Proof. destruct (read_be k bs) as [[x r]|] eqn:E; cbn; [|done]. apply read_be_shorter in E. lia. Qed.

Lemma get_byte_ends bs : ends_below (length bs) (get_byte bs).
Proof. destruct bs; cbn; [done | lia]. Qed.

Lemma get_str_ends bs : ends_below (S (length bs)) (get_str bs).
Proof.
  unfold get_str. apply (ends_bind (S (length bs))); [apply read_ends|]. intros len r Hr.
  destruct (take_n (N.to_nat len) r) as [[s r']|] eqn:E; [|done]. cbn [or_panic mbind Res_bind].
  apply take_n_shorter in E. destruct (utf8_valid s); cbn; [lia | done].
Qed.

Lemma get_many_ends {A S} (one : S -> list N -> Res (A * S * list N)) L :
  (forall st bs, (length bs <= L)%nat -> ends_below (length bs) (one st bs)) ->
  forall fuel count st bs, (length bs <= L)%nat -> (length bs < fuel)%nat ->
  ends_below (Datatypes.S (length bs)) (get_many one fuel count st bs).
Proof.
  intros Hone. induction fuel as [|fuel IH]; intros count st bs HL Hf; [lia|].
  cbn [get_many]. destruct (count =? 0); [cbn; lia|].
  apply (ends_bind (length bs)); [by apply Hone|]. intros [a st1] r Hr.
  apply (ends_bind (length bs)).
  - eapply ends_weaken; [|apply IH]; lia.
  - intros [l st2] r2 Hr2. cbn. lia.
Qed.

Lemma get_scope_ends st bs : ends_below (length bs) (get_scope st bs).
Proof.
  unfold get_scope. destruct (read_be 4 bs) as [[x r]|] eqn:E; cbn; [|done].
  apply read_be_shorter in E. lia.
Qed.

Lemma optional_str_ends bs b :
  ends_below (S (length bs))
    (if b =? 0 then Done (None, bs) else '(f, bs) ← get_str bs; Done (Some f, bs)).
Proof.
  destruct (b =? 0); [cbn; lia|]. eapply ends_bind; [apply get_str_ends|]. intros s r Hr. exact Hr.
Qed.

(** Step a chain of binds whose every reader leaves no more than it was given. *)
Ltac ends_step lem := eapply ends_bind; [eapply lem | intros ? ? ?].

Lemma get_syntax_symbol_ends fuel F bs :
  (length bs < fuel)%nat -> ends_below (S (length bs)) (get_syntax_symbol fuel F bs).
Proof.
  intros Hf. unfold get_syntax_symbol.
  ends_step @get_str_ends. ends_step @read_ends.
  eapply (ends_bind (S (length bs))).
  { eapply ends_weaken; [|apply (get_many_ends get_scope (length bs))]; [lia | | lia | lia].
    intros. apply get_scope_ends. }
  intros [scopes st] r3 H3. ends_step @read_ends. ends_step @read_ends.
  ends_step @read_ends. ends_step @read_ends. ends_step @get_byte_ends.
  eapply ends_bind; [apply optional_str_ends|]. intros file r9 H9. ends_step @get_byte_ends.
  destruct file as [f|]; [unfold with_file; destruct (files_intern F f)|]; cbn; lia.
Qed.

Lemma decode_ends fuel : forall F bs, (length bs < fuel)%nat -> ends_below (length bs) (decode fuel F bs).
Proof.
  induction fuel as [|fuel IH]; intros F bs Hf; [lia|]. cbn [decode].
  eapply ends_bind; [apply get_byte_ends|]. intros tag r Hr.
  assert (Hseq : forall count r2, (length r2 < S (length r))%nat ->
    ends_below (length bs) (get_many (decode fuel) fuel count F r2)).
  { intros count r2 Hr2.
    eapply ends_weaken; [|apply (get_many_ends (decode fuel) (length r2))]; [lia | | lia | lia].
    intros st bs' Hb. apply IH. lia. }
  repeat match goal with
  | |- ends_below _ (if ?c then _ else _) => destruct c
  end; try (cbn; lia); try (by ends_step @read_ends; cbn; lia); try (by ends_step @get_str_ends; cbn; lia).
  - ends_step @get_byte_ends. cbn. lia.
  - eapply ends_bind; [apply IH; lia|]. intros [car F1] r1 H1.
    eapply ends_bind; [apply IH; lia|]. intros [cdr F2] r2 H2. cbn. lia.
  - ends_step @read_ends. eapply ends_bind; [by apply Hseq|]. intros [l F1] r1 H1. exact H1.
  - ends_step @read_ends. eapply ends_bind; [by apply Hseq|]. intros [l F1] r1 H1. exact H1.
  - eapply ends_weaken; [|apply get_syntax_symbol_ends]; lia.
Qed.

(** ** The theorems *)

(** C26: A template survives the instruction stream.  The bytes [encode] writes,
    with anything at all behind them, are decoded by [decode] to a template
    that leaves exactly what follows: the encoding is self-delimiting.  In the
    process that wrote it the decoded template is the template itself and the
    file table is unchanged.  In another process, whose table must have room
    for the file names carried, the table only grows and the decoded template
    spells the same file names: it encodes to the same bytes.  The template's
    strings, arrays and scope lists are shorter than 2^32, the lengths [encode]
    writes as a [u32], its spans name files of the table or none, and both
    tables are well formed. *)
Theorem template_roundtrip F F' t rest :
  files_ok F -> files_ok F' -> typed F t -> room_for F' (length (spans_of t)) ->
  exists t' F'',
    decode (decode_fuel (encode F t ++ rest)) F' (encode F t ++ rest) = Done (t', F'', rest) /\
    files_ok F'' /\ grows F' F'' /\ encode F'' t' = encode F t /\
    (F' = F -> t' = t /\ F'' = F).
Proof.
  intros HF HF' Ht Hroom. destruct (reintern F F' t) as [t' F''] eqn:E. exists t', F''.
  destruct (reinterns_all F t HF F' t' F'' HF' Hroom E) as ([Hok Hg _] & _ & Henc).
  rewrite (decodes_all F t) by (done || (unfold decode_fuel; rewrite length_app; lia)). rewrite E.
  repeat (split; [done|]). intros ->. rewrite reintern_here in E by done. by injection E as <- <-.
Qed.

Definition sample_files : Files := (intern_write FILES_init [97]).2.

Definition sample_template : ConstTemplate :=
  CT_Pair (CT_Int (-3)) (CT_Array
    [CT_String [195; 169]; CT_SyntaxSymbol [120] [7; 8] (mkSpan 1 2 3 4 1) true; CT_Float 5]).

Lemma template_roundtrip_witness :
  exists t' F'',
    decode (decode_fuel (encode sample_files sample_template ++ [255])) FILES_init
      (encode sample_files sample_template ++ [255]) = Done (t', F'', [255]) /\
    files_ok F'' /\ grows FILES_init F'' /\
    encode F'' t' = encode sample_files sample_template /\
    (FILES_init = sample_files -> t' = sample_template /\ F'' = sample_files).
Proof.
  apply (template_roundtrip sample_files FILES_init sample_template [255]).
  - destruct (intern_write_ok FILES_init [97] 1 sample_files) as [H _];
      [apply files_init_ok | done | done | done | exact H].
  - apply files_init_ok.
  - repeat (split || apply Forall_cons || apply Forall_nil); done.
  - done.
Defined.

(** Decoding any bytes ends.  With one round of fuel per byte the decoder is
    never starved, whatever the bytes are: a count field that promises four
    billion elements stops at the end of the stream.  So the decoder returns a
    template or panics, and a template it returns used at least one byte. *)
Theorem decode_terminates F bs :
  decode (decode_fuel bs) F bs <> Starved /\
  forall t F' rest, decode (decode_fuel bs) F bs = Done (t, F', rest) -> (length rest < length bs)%nat.
Proof.
  pose proof (decode_ends (decode_fuel bs) F bs ltac:(unfold decode_fuel; lia)) as H. split.
  - by destruct (decode _ F bs).
  - intros t F' rest E. by rewrite E in H.
Qed.
