(* ===== verification/Live.v ===== *)
(** * The registers live into each block

    [lir/emit/live.rs]: the bit-set of registers, the successors of a block
    and the backward fixed point that the emitter's edge trim reads.

    A set is its [u64] words.  What the analysis asks of a block is what each
    node defines and uses, and its terminator ([LBlock]); reading a malformed
    node panics, so reading a view answers in [option].  The source's [while]
    runs until a pass changes nothing: [fix_loop] takes a fuel and answers
    [None] when it is too small, and [LiveProps.v] proves [loop_fuel] enough. *)

From stdpp Require Import base numbers option list gmap.
From S2P Require Import Prelude SignalBits LirRecord LirInstr LirCodec LirView.

(** ** RegSet *)

Abbreviation RegSet := (list N) (only parsing).

Definition word_ix (r : Reg) : nat := N.to_nat (r / 64).
Definition bit_of (r : Reg) : N := N.shiftl 1 (r mod 64).

Definition rs_contains (s : RegSet) (r : Reg) : bool :=
  match s !! word_ix r with
  | Some word => negb (N.land word (bit_of r) =? 0)%N
  | None => false
  end.

(** [self.0.resize(n, 0)] when the set is shorter than [n]. *)
Definition rs_widen (n : nat) (s : RegSet) : RegSet := s ++ replicate (n - length s) 0%N.

Definition rs_insert (s : RegSet) (r : Reg) : RegSet :=
  alter (fun w => N.lor w (bit_of r)) (word_ix r) (rs_widen (word_ix r + 1) s).

Definition rs_remove (s : RegSet) (r : Reg) : RegSet :=
  alter (fun w => N.land w (not_w 64 (bit_of r))) (word_ix r) s.

(** The word [add_unkilled] adds at one index. *)
Definition added_word (word killed self : N) : N :=
  N.land (N.land word (not_w 64 killed)) (not_w 64 self).

(** [add_unkilled]: the set after, and whether it grew. *)
Definition rs_add_unkilled (self from kill : RegSet) : RegSet * bool :=
  let self := rs_widen (length from) self in
  let step '(i, self, grew) word :=
    let killed := default 0%N (kill !! i) in
    let mine := default 0%N (self !! i) in
    let added := added_word word killed mine in
    (S i, <[i := N.lor mine added]> self, grew || negb (added =? 0)%N) in
  let '(_, self, grew) := foldl step (0, self, false) from in
  (self, grew).

(** ** Blocks as the analysis reads them *)

Definition successors (term : Terminator) : list Label :=
  match term with
  | Jump label => [label]
  | Branch _ then_label else_label => [then_label; else_label]
  | Emit _ _ resume_label => [resume_label]
  | Return _ | Unreachable => []
  end.

(** A node's [def()] and [uses()]. *)
Abbreviation Event := (option Reg * list Reg)%type (only parsing).

Record LBlock := mkLBlock { l_label : Label; l_events : list Event; l_exit : Terminator }.

Definition read_event (p : Parts) (n : Node) : option Event :=
  us ← uses n p; Some (node_def n, us).

Definition read_lblock (p : Parts) (rec : BlockRec) : option LBlock :=
  ns ← block_nodes p rec;
  evs ← mapM (read_event p) ns;
  e ← terminator rec p;
  Some (mkLBlock (b_label rec) evs e).

(** One node of the backward walk. *)
Definition walk_event (ev : Event) (acc : RegSet * RegSet) : RegSet * RegSet :=
  let '(reads, writes) := acc in
  let '(reads, writes) :=
    match ev.1 with
    | Some reg => (rs_remove reads reg, rs_insert writes reg)
    | None => (reads, writes)
    end in
  (foldl rs_insert reads ev.2, writes).

(** What a block reads before it writes, and what it writes. *)
Definition reads_writes (b : LBlock) : RegSet * RegSet :=
  foldr walk_event (foldl rs_insert [] (terminator_uses (l_exit b)), []) (l_events b).

(** [index]: on a repeated label the last block wins. *)
Definition block_index (bs : list LBlock) : gmap Label nat :=
  foldl (fun m '(i, b) => <[l_label b := i]> m) ∅ (imap pair bs).

Definition succ_of (ix : gmap Label nat) (b : LBlock) : list nat :=
  omap (fun l => ix !! l) (successors (l_exit b)).

(** ** The fixed point *)

Section Pass.
Variable kill : list RegSet.
Variable succ : list (list nat).

(** One edge; a block adds nothing to itself. *)
Definition flow (b : nat) (acc : list RegSet * bool) (s : nat) : list RegSet * bool :=
  let '(live, changed) := acc in
  if decide (b = s) then (live, changed)
  else
    let '(to, grew) :=
      rs_add_unkilled (default [] (live !! b)) (default [] (live !! s)) (default [] (kill !! b)) in
    (<[b := to]> live, changed || grew).

Definition flow_block (acc : list RegSet * bool) (b : nat) : list RegSet * bool :=
  foldl (flow b) acc (default [] (succ !! b)).

(** One pass over the blocks, last first. *)
Definition pass (live : list RegSet) : list RegSet * bool :=
  foldl flow_block (live, false) (rev (seq 0 (length live))).

Fixpoint fix_loop (fuel : nat) (live : list RegSet) : option (list RegSet) :=
  match fuel with
  | O => None
  | S fuel =>
    let '(live, changed) := pass live in
    if changed then fix_loop fuel live else Some live
  end.
End Pass.

(** A pass that changes something sets one of these bits. *)
Definition loop_fuel (live : list RegSet) : nat :=
  S (length live * (64 * foldr (fun s n => Nat.max (length s) n) 0 live)).

Definition solve (bs : list LBlock) : option (list RegSet) :=
  let succ := succ_of (block_index bs) <$> bs in
  let live := (fun b => (reads_writes b).1) <$> bs in
  let kill := (fun b => (reads_writes b).2) <$> bs in
  fix_loop kill succ (loop_fuel live) live.

(** [live_in]: by label, the last block of a repeated label wins. *)
Definition by_label (bs : list LBlock) (live : list RegSet) : gmap Label RegSet :=
  foldl (fun m '(b, s) => <[l_label b := s]> m) ∅ (zip bs live).

Definition live_in (v : LirView) : option (gmap Label RegSet) :=
  bs ← mapM (read_lblock (parts v)) (v_blocks v);
  live ← solve bs;
  Some (by_label bs live).
