(* ===== verification/LiveProps.v ===== *)
(** * Register sets

    The bit-set of [Live.v] is a set: each operation's effect on membership,
    and [add_unkilled]'s answer is whether membership changed. *)

From stdpp Require Import base numbers option list gmap.
From S2P Require Import Prelude SignalBits LirRecord LirInstr LirCodec LirBuild LirView LirSpec Live.

(** Every word is a [u64]. *)
Definition rs_ok (s : RegSet) : Prop := Forall (fits 64) s.

(** ** Membership bit by bit *)

Lemma land_bit w k : negb (N.land w (N.shiftl 1 k) =? 0)%N = N.testbit w k.
Proof.
  destruct (N.testbit w k) eqn:E.
  - destruct (N.eqb_spec (N.land w (N.shiftl 1 k)) 0) as [H|]; [|done].
    apply (f_equal (fun x => N.testbit x k)) in H.
    rewrite N.land_spec, testbit_bit, E, N.eqb_refl, N.bits_0 in H. done.
  - destruct (N.eqb_spec (N.land w (N.shiftl 1 k)) 0) as [|H]; [done|].
    apply testbit_nonzero in H as [j Hi]. rewrite N.land_spec, testbit_bit in Hi.
    destruct (N.eqb_spec j k) as [E2|]; [subst j|]; [by rewrite E in Hi | by rewrite andb_false_r in Hi].
Qed.

Lemma contains_word s r :
  rs_contains s r = match s !! word_ix r with Some w => N.testbit w (r mod 64) | None => false end.
Proof. unfold rs_contains, bit_of. destruct (s !! word_ix r); [apply land_bit | done]. Qed.

Lemma reg_split q r : q = r <-> word_ix q = word_ix r /\ (q mod 64 = r mod 64)%N.
Proof.
  split; [by intros -> | intros [H1 H2]]. unfold word_ix in H1.
  rewrite (N.div_mod' q 64), (N.div_mod' r 64), H2. f_equal. f_equal. lia.
Qed.

Lemma reg_of_split i k : (k < 64)%N -> exists r, word_ix r = i /\ (r mod 64 = k)%N.
Proof.
  intros Hk. exists (N.of_nat i * 64 + k)%N. unfold word_ix.
  rewrite N.div_add_l, N.div_small, N.add_0_r, Nat2N.id by lia. split; [done|].
  rewrite N.add_comm, N.Div0.mod_add. by apply N.mod_small.
Qed.

Lemma mod_64 r : (r mod 64 < 64)%N.
Proof. by apply N.mod_lt. Qed.

Lemma bit_fits r : fits 64 (bit_of r).
Proof.
  unfold fits, bit_of. rewrite N.shiftl_1_l. apply N.pow_lt_mono_r; [lia | apply mod_64].
Qed.

(** ** Widening *)

Lemma widen_lookup n s i : default 0%N (rs_widen n s !! i) = default 0%N (s !! i).
Proof.
  unfold rs_widen. rewrite lookup_app. destruct (s !! i) as [w|] eqn:E; [done|].
  destruct (replicate (n - length s) 0%N !! (i - length s)) as [w|] eqn:E2; [|done].
  by apply lookup_replicate in E2 as [-> _].
Qed.

Lemma contains_default s r : rs_contains s r = N.testbit (default 0%N (s !! word_ix r)) (r mod 64).
Proof. rewrite contains_word. by destruct (s !! word_ix r). Qed.

Lemma contains_widen n s r : rs_contains (rs_widen n s) r = rs_contains s r.
Proof. by rewrite !contains_default, widen_lookup. Qed.

Lemma length_widen n s : length (rs_widen n s) = Nat.max n (length s).
Proof. unfold rs_widen. rewrite length_app, length_replicate. lia. Qed.

Lemma widen_ok n s : rs_ok s -> rs_ok (rs_widen n s).
Proof. intros H. apply Forall_app. split; [done|]. by apply Forall_replicate. Qed.

(** ** Insertion and removal *)

Lemma contains_insert s r q : rs_contains (rs_insert s r) q = (q =? r)%N || rs_contains s q.
Proof.
  rewrite <- (contains_widen (word_ix r + 1) s q). unfold rs_insert.
  pose proof (length_widen (word_ix r + 1) s) as Hlen.
  set (s' := rs_widen (word_ix r + 1) s) in *. rewrite !contains_word.
  destruct (decide (word_ix q = word_ix r)) as [E|E].
  - rewrite E, list_lookup_alter_eq.
    destruct (lookup_lt_is_Some_2 s' (word_ix r)) as [w Hw]; [lia|]. rewrite Hw. cbn.
    rewrite N.lor_spec. unfold bit_of. rewrite testbit_bit, orb_comm. f_equal.
    destruct (N.eqb_spec q r) as [->|Hn]; [apply N.eqb_refl|].
    apply N.eqb_neq. intros Hm. apply Hn, reg_split. done.
  - rewrite list_lookup_alter_ne by done. destruct (N.eqb_spec q r) as [->|]; [done|].
    by destruct (s' !! word_ix q).
Qed.

Lemma contains_remove s r q : rs_contains (rs_remove s r) q = negb (q =? r)%N && rs_contains s q.
Proof.
  unfold rs_remove. rewrite !contains_word. destruct (decide (word_ix q = word_ix r)) as [E|E].
  - rewrite E, list_lookup_alter_eq. destruct (s !! word_ix r) as [w|]; cbn; [|by rewrite andb_false_r].
    rewrite N.land_spec, testbit_not_w. unfold bit_of. rewrite testbit_bit, andb_comm.
    destruct (N.ltb_spec (q mod 64) 64); [|pose proof (mod_64 q); lia]. rewrite xorb_true_r. f_equal. f_equal.
    destruct (N.eqb_spec q r) as [->|Hn]; [apply N.eqb_refl|].
    apply N.eqb_neq. intros Hm. apply Hn, reg_split. done.
  - rewrite list_lookup_alter_ne by done. destruct (N.eqb_spec q r) as [->|]; [done|].
    by destruct (s !! word_ix q).
Qed.

Lemma insert_rs_ok s r : rs_ok s -> rs_ok (rs_insert s r).
Proof.
  intros H. unfold rs_insert. apply (widen_ok (word_ix r + 1)) in H.
  apply Forall_alter; [done|]. intros w _ Hw. apply fits_of_testbit. intros i Hi.
  rewrite N.lor_spec, (fits_testbit 64 w i), (fits_testbit 64 (bit_of r) i);
    [done | apply bit_fits | done | done | done].
Qed.

Lemma remove_rs_ok s r : rs_ok s -> rs_ok (rs_remove s r).
Proof.
  intros H. unfold rs_remove. apply Forall_alter; [done|]. intros w _ Hw. apply fits_of_testbit.
  intros i Hi. by rewrite N.land_spec, (fits_testbit 64 w i).
Qed.

Lemma contains_inserts rs : forall s q,
  rs_contains (foldl rs_insert s rs) q = bool_decide (q ∈ rs) || rs_contains s q.
Proof.
  induction rs as [|r rs IH]; intros s q; [done|]. cbn [foldl]. rewrite IH, contains_insert.
  destruct (N.eqb_spec q r) as [->|Hn].
  - rewrite (bool_decide_true (r ∈ r :: rs)) by left. by rewrite orb_true_r.
  - cbn. f_equal. apply bool_decide_ext. rewrite elem_of_cons. naive_solver.
Qed.

Lemma inserts_ok rs : forall s, rs_ok s -> rs_ok (foldl rs_insert s rs).
Proof. induction rs as [|r rs IH]; intros s H; [done|]. by apply IH, insert_rs_ok. Qed.

(** ** [add_unkilled] *)

Lemma added_testbit word killed self i : (i < 64)%N ->
  N.testbit (added_word word killed self) i
  = N.testbit word i && negb (N.testbit killed i) && negb (N.testbit self i).
Proof.
  intros Hi. unfold added_word. rewrite !N.land_spec, !testbit_not_w.
  destruct (N.ltb_spec i 64); [|lia]. by rewrite !xorb_true_r.
Qed.

Lemma added_fits word killed self : fits 64 word -> fits 64 (added_word word killed self).
Proof.
  intros Hw. apply fits_of_testbit. intros i Hi. unfold added_word.
  by rewrite !N.land_spec, (fits_testbit 64 word i).
Qed.

Section Add.
Variable kill : RegSet.

(** The loop of [add_unkilled] from index [i]. *)
Definition add_loop (i : nat) (self : RegSet) (grew : bool) (from : RegSet) : nat * RegSet * bool :=
  foldl (fun '(i, self, grew) word =>
    let killed := default 0%N (kill !! i) in
    let mine := default 0%N (self !! i) in
    let added := added_word word killed mine in
    (S i, <[i := N.lor mine added]> self, grew || negb (added =? 0)%N)) (i, self, grew) from.

(** What the word at [j] becomes. *)
Definition added_at (i : nat) (self from : RegSet) (j : nat) : N :=
  added_word (default 0%N (if decide (i <= j) then from !! (j - i) else None))
    (default 0%N (kill !! j)) (default 0%N (self !! j)).

Lemma added_zero killed self : added_word 0 killed self = 0%N.
Proof. unfold added_word. by rewrite !N.land_0_l. Qed.

Lemma add_loop_spec from : forall i self grew i' self' grew',
  i + length from <= length self ->
  add_loop i self grew from = (i', self', grew') ->
  length self' = length self /\
  (forall j, default 0%N (self' !! j) = N.lor (default 0%N (self !! j)) (added_at i self from j)) /\
  (grew' = true <-> grew = true \/ exists j, added_at i self from j <> 0%N).
Proof.
  induction from as [|w from IH]; intros i self grew i' self' grew' Hlen; unfold add_loop; cbn [foldl].
  - intros [= <- <- <-]. split; [done|]. split.
    + intros j. unfold added_at. case_decide; cbn; by rewrite added_zero, N.lor_0_r.
    + split; [by left|]. intros [|[j Hj]]; [done|]. destruct Hj.
      unfold added_at. case_decide; cbn; apply added_zero.
  - fold (add_loop (S i)). set (mine := default 0%N (self !! i)).
    set (added := added_word w (default 0%N (kill !! i)) mine). intros E.
    apply IH in E as (L & J & G); [|rewrite length_insert; cbn in Hlen; lia].
    rewrite length_insert in L. cbn [length] in Hlen.
    assert (Hat : forall j, added_at (S i) (<[i := N.lor mine added]> self) from j
                            = if decide (j = i) then 0%N else added_at i self (w :: from) j).
    { intros j. unfold added_at. destruct (decide (j = i)) as [->|Hne].
      - rewrite decide_False by lia. apply added_zero.
      - rewrite list_lookup_insert_ne by done. destruct (decide (S i <= j)), (decide (i <= j)); try lia; try done.
        by replace (j - i) with (S (j - S i)) by lia. }
    assert (Hi : added_at i self (w :: from) i = added).
    { unfold added_at. rewrite decide_True, Nat.sub_diag by lia. done. }
    split; [done|]. split.
    + intros j. rewrite J, Hat. destruct (decide (j = i)) as [->|Hne].
      * rewrite list_lookup_insert_eq by lia. rewrite N.lor_0_r, Hi. done.
      * by rewrite list_lookup_insert_ne.
    + rewrite G, orb_true_iff, negb_true_iff, N.eqb_neq. split.
      * intros [[?|Ha]|[j Hj]]; [by left | right; exists i; by rewrite Hi|].
        right. rewrite Hat in Hj. destruct (decide (j = i)); [done|]. by exists j.
      * intros [?|[j Hj]]; [by left; left|]. destruct (decide (j = i)) as [->|Hne].
        -- left. right. by rewrite <- Hi.
        -- right. exists j. rewrite Hat. by rewrite decide_False.
Qed.
End Add.

Lemma rs_add_loop self from kill :
  rs_add_unkilled self from kill
  = let '(_, s, g) := add_loop kill 0 (rs_widen (length from) self) false from in (s, g).
Proof. reflexivity. Qed.

(** [add_unkilled] adds exactly what [from] has and [kill] lacks, and answers
    whether that was anything new. *)
Lemma add_unkilled_spec self from kill self' grew :
  rs_ok self -> rs_ok from -> rs_add_unkilled self from kill = (self', grew) ->
  rs_ok self' /\ length self' = Nat.max (length from) (length self) /\
  (forall q, rs_contains self' q
             = rs_contains self q || (rs_contains from q && negb (rs_contains kill q))) /\
  (grew = true <-> exists q, rs_contains self' q = true /\ rs_contains self q = false).
Proof.
  intros Hs Hf. rewrite rs_add_loop. pose proof (length_widen (length from) self) as Hw.
  destruct (add_loop kill 0 (rs_widen (length from) self) false from) as [[i s] g] eqn:E.
  intros [= <- <-]. apply add_loop_spec in E as (L & J & G); [|lia].
  assert (Hat : forall j, added_at kill 0 (rs_widen (length from) self) from j
    = added_word (default 0%N (from !! j)) (default 0%N (kill !! j)) (default 0%N (self !! j))).
  { intros j. unfold added_at. by rewrite decide_True, Nat.sub_0_r, widen_lookup by lia. }
  assert (Hdf : forall l j, rs_ok l -> fits 64 (default 0%N (l !! j))).
  { intros l j Hl. destruct (l !! j) eqn:El; cbn; [|done]. unfold rs_ok in Hl. rewrite Forall_lookup in Hl. eauto. }
  assert (C : forall q, rs_contains s q
    = rs_contains self q || (rs_contains from q && negb (rs_contains kill q))).
  { intros q. rewrite !contains_default, J, Hat, widen_lookup, N.lor_spec, added_testbit by apply mod_64.
    repeat destruct (N.testbit _ _); done. }
  split; [|split; [lia | split; [exact C|]]].
  - apply Forall_lookup. intros j w Hj. specialize (J j). rewrite Hj in J. cbn in J. subst w.
    apply fits_of_testbit. intros k Hk. rewrite N.lor_spec, Hat, widen_lookup.
    by rewrite !(fits_testbit 64 _ k) by auto using added_fits.
  - rewrite G. split.
    + intros [|[j Hj]]; [done|]. rewrite Hat in Hj. apply testbit_nonzero in Hj as [k Hk].
      destruct (N.ltb_spec k 64) as [Hk64|Hk64];
        [|by rewrite (fits_testbit 64 _ k) in Hk by auto using added_fits].
      rewrite added_testbit in Hk by done. destruct (reg_of_split j k Hk64) as (q & <- & <-).
      exists q. rewrite C, !contains_default.
      apply andb_true_iff in Hk as [Hk1 Hk3]. apply negb_true_iff in Hk3. by rewrite Hk1, Hk3.
    + intros (q & H1 & H2). right. rewrite C, H2 in H1. cbn in H1. exists (word_ix q). rewrite Hat.
      apply testbit_nonzero. exists (q mod 64)%N. rewrite added_testbit by apply mod_64.
      rewrite !contains_default in *. by rewrite H1, H2.
Qed.

(** A register in a set is below 64 per word. *)
Lemma contains_bound s q : rs_contains s q = true -> (q < 64 * N.of_nat (length s))%N.
Proof.
  rewrite contains_word. destruct (s !! word_ix q) as [w|] eqn:E; [|done]. intros _.
  apply lookup_lt_Some in E. unfold word_ix in E.
  pose proof (N.div_mod' q 64). pose proof (mod_64 q). lia.
Qed.

(** * Liveness is exact

    The analysis of [Live.v] ends, and a register is in the set of a block
    exactly when some path from the block's entry reads it before writing it:
    nothing live is missed, and nothing dead is kept. *)

(** ** The specification *)

Definition defs (evs : list Event) : list Reg := omap fst evs.

(** Read in the block with no write before it. *)
Definition reads_first (b : LBlock) (r : Reg) : Prop :=
  (exists pre ev post, l_events b = pre ++ ev :: post /\ r ∈ ev.2 /\ r ∉ defs pre) \/
  ((r ∉ defs (l_events b)) /\ r ∈ terminator_uses (l_exit b)).

(** Some path from the entry of the block labelled [l] reads [r] first. *)
Inductive live_into (bs : list LBlock) : Label -> Reg -> Prop :=
| live_here b r : b ∈ bs -> reads_first b r -> live_into bs (l_label b) r
| live_through b l r :
    b ∈ bs -> r ∉ defs (l_events b) -> l ∈ successors (l_exit b) -> live_into bs l r ->
    live_into bs (l_label b) r.

(** ** One block *)

Lemma reads_first_cons l ev evs e r :
  reads_first (mkLBlock l (ev :: evs) e) r <->
  r ∈ ev.2 \/ (ev.1 <> Some r /\ reads_first (mkLBlock l evs e) r).
Proof.
  unfold reads_first. cbn [l_events l_exit]. split.
  - intros [(pre & ev' & post & E & Hr & Hd)|[Hd Hr]].
    + destruct pre as [|p0 pre]; injection E as -> ->; [by left|].
      cbn in Hd. right. split; [destruct (p0.1); set_solver|]. left. exists pre, ev', post.
      split; [done|]. split; [done|]. destruct (p0.1); set_solver.
    + right. cbn in Hd. split; [destruct (ev.1); set_solver|]. right. destruct (ev.1); set_solver.
  - intros [Hr|[Hd [(pre & ev' & post & -> & Hr & Hp)|[Hp Hr]]]].
    + left. exists [], ev, evs. split; [done|]. split; [done|]. cbn. apply not_elem_of_nil.
    + left. exists (ev :: pre), ev', post. split; [done|]. split; [done|].
      cbn. destruct (ev.1); set_solver.
    + right. split; [|done]. cbn. destruct (ev.1); set_solver.
Qed.

Lemma reads_writes_spec b :
  rs_ok (reads_writes b).1 /\ rs_ok (reads_writes b).2 /\
  (forall r, rs_contains (reads_writes b).1 r = true <-> reads_first b r) /\
  (forall r, rs_contains (reads_writes b).2 r = true <-> r ∈ defs (l_events b)).
Proof.
  destruct b as [l evs e]. unfold reads_writes. cbn [l_events l_exit].
  induction evs as [|ev evs (O1 & O2 & H1 & H2)]; cbn [foldr].
  - split; [by apply inserts_ok; constructor|]. split; [constructor|]. split.
    + intros r. cbn [fst]. rewrite contains_inserts, orb_false_r, bool_decide_eq_true.
      unfold reads_first. cbn. split; [right; split; [apply not_elem_of_nil | done]|].
      intros [(pre & ev & post & E & _)|[_ H]]; [by destruct pre | done].
    + intros r. cbn. rewrite elem_of_nil. done.
  - destruct (foldr walk_event _ evs) as [R W]. cbn [fst snd] in *. unfold walk_event.
    destruct ev as [[d|] us]; cbn [fst snd].
    + split; [by apply inserts_ok, remove_rs_ok|]. split; [by apply insert_rs_ok|]. split.
      * intros r. rewrite contains_inserts, contains_remove, orb_true_iff, andb_true_iff,
          bool_decide_eq_true, negb_true_iff, N.eqb_neq, H1, reads_first_cons. cbn. naive_solver.
      * intros r. rewrite contains_insert, orb_true_iff, N.eqb_eq, H2. cbn. by rewrite elem_of_cons.
    + split; [by apply inserts_ok|]. split; [done|]. split; [|done].
      intros r. rewrite contains_inserts, orb_true_iff, bool_decide_eq_true, H1, reads_first_cons.
      cbn. naive_solver.
Qed.

(** ** The fixed point *)

Section Solve.
Context (bs : list LBlock).
Hypothesis labels_once : NoDup (l_label <$> bs).

Let kill := (fun b => (reads_writes b).2) <$> bs.
Let succ := succ_of (block_index bs) <$> bs.
Let live0 := (fun b => (reads_writes b).1) <$> bs.
Let W := foldr (fun s n => Nat.max (length s) n) 0 live0.

Definition in_set (live : list RegSet) (i : nat) (r : Reg) : Prop :=
  rs_contains (default [] (live !! i)) r = true.

Record inv (live : list RegSet) : Prop := mk_inv {
  inv_len : length live = length bs;
  inv_ok : Forall rs_ok live;
  inv_wide : Forall (fun s => length s <= W) live;
  inv_base : forall i b r, bs !! i = Some b -> reads_first b r -> in_set live i r;
  inv_sound : forall i b r, bs !! i = Some b -> in_set live i r -> live_into bs (l_label b) r }.

Definition same_sets (x y : list RegSet) : Prop := forall i r, in_set x i r <-> in_set y i r.

#[local] Instance same_sets_equiv : Equivalence same_sets.
Proof.
  split; [by intros x i r | by intros x y H i r; rewrite (H i r) |].
  intros x y z H1 H2 i r. by rewrite (H1 i r), (H2 i r).
Qed.

(** *** The index and the edges *)

Lemma imap_snoc {A B} (f : nat -> A -> B) l x : imap f (l ++ [x]) = imap f l ++ [f (length l) x].
Proof. rewrite imap_app. cbn. by rewrite Nat.add_0_r. Qed.

Lemma block_index_lookup : forall l i,
  block_index bs !! l = Some i -> exists b, bs !! i = Some b /\ l_label b = l.
Proof.
  clear. unfold block_index. induction bs as [|b l IH] using rev_ind; intros lb i; [done|].
  rewrite imap_snoc, foldl_snoc. destruct (decide (l_label b = lb)) as [<-|Hne].
  - rewrite lookup_insert_eq. intros [= <-]. exists b. split; [|done].
    by rewrite lookup_app_r, Nat.sub_diag by lia.
  - rewrite lookup_insert_ne by done. intros (b' & Hb & El)%IH. exists b'. split; [|done].
    by apply lookup_app_l_Some.
Qed.

Lemma block_index_complete i b : bs !! i = Some b -> block_index bs !! l_label b = Some i.
Proof.
  revert i b labels_once. clear. unfold block_index.
  induction bs as [|b0 l IH] using rev_ind; intros i b Hnd Hi; [done|].
  rewrite imap_snoc, foldl_snoc. rewrite fmap_app in Hnd.
  apply NoDup_app in Hnd as (Hnd & Hdis & _).
  apply lookup_app_Some in Hi as [Hi|[Hge Hi]].
  - rewrite lookup_insert_ne; [by apply IH|]. intros E. apply (Hdis (l_label b)).
    + apply list_elem_of_fmap. exists b. split; [done|]. by eapply list_elem_of_lookup_2.
    + cbn. rewrite E. left.
  - apply list_lookup_singleton_Some in Hi as [Hz <-]. rewrite lookup_insert_eq. f_equal. lia.
Qed.

(** An edge of the pass is an edge of the function. *)
Lemma succ_edge b s l : succ !! b = Some l -> s ∈ l -> exists B S,
  bs !! b = Some B /\ bs !! s = Some S /\ l_label S ∈ successors (l_exit B).
Proof.
  unfold succ. rewrite list_lookup_fmap. destruct (bs !! b) as [B|] eqn:EB; [|done].
  intros [= <-] Hs. unfold succ_of in Hs. apply list_elem_of_omap in Hs as (lb & Hl & Hix).
  apply block_index_lookup in Hix as (S & ES & <-). by exists B, S.
Qed.

Lemma edge_succ b B s S :
  bs !! b = Some B -> bs !! s = Some S -> l_label S ∈ successors (l_exit B) ->
  exists l, succ !! b = Some l /\ s ∈ l.
Proof.
  intros HB HS Hl. unfold succ. rewrite list_lookup_fmap, HB. eexists. split; [done|].
  unfold succ_of. apply list_elem_of_omap. exists (l_label S). split; [done|].
  by apply block_index_complete.
Qed.

Lemma kill_spec b B r : bs !! b = Some B ->
  rs_contains (default [] (kill !! b)) r = true <-> r ∈ defs (l_events B).
Proof. intros HB. unfold kill. rewrite list_lookup_fmap, HB. apply reads_writes_spec. Qed.

(** *** One edge *)

Definition new_in (x y : list RegSet) : Prop :=
  exists i r, i < length bs /\ in_set y i r /\ ~ in_set x i r.

Definition edge_closed (live : list RegSet) (b s : nat) : Prop :=
  forall r, in_set live s r -> rs_contains (default [] (kill !! b)) r = false -> in_set live b r.

(** What a step of the walk owes: the invariant, growth, and an honest flag. *)
Record steps_ok (x : list RegSet) (c : bool) (y : list RegSet) (c' : bool) : Prop := mk_steps_ok {
  so_inv : inv y;
  so_grows : forall i r, in_set x i r -> in_set y i r;
  so_quiet : c' = false -> c = false /\ same_sets x y;
  so_loud : c' = true -> c = true \/ new_in x y }.

Lemma steps_refl x c : inv x -> steps_ok x c x c.
Proof. intros H. split; [done | done | by intros -> | by left]. Qed.

Lemma steps_trans x c y c' z c'' : steps_ok x c y c' -> steps_ok y c' z c'' -> steps_ok x c z c''.
Proof.
  intros [I1 G1 Q1 L1] [I2 G2 Q2 L2]. split; [done | by eauto | |].
  - intros Hz. destruct (Q2 Hz) as [Hy E2]. destruct (Q1 Hy) as [Hx E1]. split; [done | by etrans].
  - intros Hz. destruct (L2 Hz) as [Hy|(i & r & Hi & H1 & H2)].
    + destruct (L1 Hy) as [|(i & r & Hi & H1 & H2)]; [by left|]. right. exists i, r. auto.
    + right. exists i, r. split; [done|]. split; [done|]. intros Hx. by apply H2, G1.
Qed.

Lemma in_set_insert live b to i r : b < length live ->
  in_set (<[b := to]> live) i r <-> if decide (i = b) then rs_contains to r = true else in_set live i r.
Proof.
  intros Hb. unfold in_set. destruct (decide (i = b)) as [->|Hne].
  - by rewrite list_lookup_insert_eq.
  - by rewrite list_lookup_insert_ne.
Qed.

Lemma flow_ok b s l live c live' c' :
  inv live -> succ !! b = Some l -> s ∈ l -> flow kill b (live, c) s = (live', c') ->
  steps_ok live c live' c' /\ (c' = false -> edge_closed live' b s).
Proof.
  intros Hinv Hl Hs. destruct (succ_edge b s l Hl Hs) as (B & S & HB & HS & Hlab).
  unfold flow. destruct (decide (b = s)) as [->|Hne].
  { intros [= <- <-]. split; [by apply steps_refl|]. intros _ r Hr _. exact Hr. }
  destruct (rs_add_unkilled _ _ _) as [to grew] eqn:E. intros [= <- <-].
  pose proof (lookup_lt_Some _ _ _ HB) as Lb. pose proof (lookup_lt_Some _ _ _ HS) as Ls.
  destruct Hinv as [Hlen Hok Hwide Hbase Hsound].
  destruct (lookup_lt_is_Some_2 live b) as [x Hx]; [lia|].
  destruct (lookup_lt_is_Some_2 live s) as [y Hy]; [lia|]. rewrite Hx, Hy in E. cbn in E.
  apply add_unkilled_spec in E as (Oto & Lto & Cto & Gto);
    [|by apply (Forall_lookup_1 _ _ _ _ Hok Hx)|by apply (Forall_lookup_1 _ _ _ _ Hok Hy)].
  assert (Mb : forall r, in_set live b r <-> rs_contains x r = true) by (intros r; unfold in_set; by rewrite Hx).
  assert (Ms : forall r, in_set live s r <-> rs_contains y r = true) by (intros r; unfold in_set; by rewrite Hy).
  assert (Up : forall i r, in_set live i r -> in_set (<[b:=to]> live) i r).
  { intros i r Hi. apply in_set_insert; [lia|]. destruct (decide (i = b)) as [->|]; [|done].
    rewrite Cto. apply Mb in Hi. by rewrite Hi. }
  split; [split|].
  - split.
    + by rewrite length_insert.
    + by apply Forall_insert.
    + apply Forall_insert; [done|]. rewrite Lto.
      pose proof (Forall_lookup_1 _ _ _ _ Hwide Hx). pose proof (Forall_lookup_1 _ _ _ _ Hwide Hy).
      cbn in *. lia.
    + intros i b' r Hi Hr. by apply Up, (Hbase i b').
    + intros i b' r Hi Hr. apply in_set_insert in Hr; [|lia].
      destruct (decide (i = b)) as [->|]; [|by apply (Hsound i)]. rewrite Cto in Hr.
      apply orb_true_iff in Hr as [Hr|[Hr Hk]%andb_true_iff]; [by apply (Hsound b), Mb|].
      assert (b' = B) by congruence. subst b'. apply (live_through bs B (l_label S)); [| | done |].
      * by eapply list_elem_of_lookup_2.
      * rewrite <- (kill_spec b B r HB). intros Hc. by rewrite Hc in Hk.
      * apply (Hsound s); [done | by apply Ms].
  - exact Up.
  - intros [-> ->]%orb_false_iff. split; [done|]. intros i r. split; [by apply Up|].
    intros Hr. apply in_set_insert in Hr; [|lia]. destruct (decide (i = b)) as [->|]; [|done].
    apply Mb. destruct (rs_contains x r) eqn:Ex; [done|].
    assert (false = true) by (apply Gto; eauto). done.
  - intros [->| ->]%orb_true_iff; [by left|]. right. destruct (proj1 Gto eq_refl) as (q & H1 & H2).
    exists b, q. split; [lia|]. split; [apply in_set_insert; [lia|]; by rewrite decide_True|].
    rewrite Mb. by rewrite H2.
  - intros _ r Hr Hk. apply in_set_insert in Hr; [|lia]. rewrite decide_False in Hr by done.
    apply in_set_insert; [lia|]. rewrite decide_True, Cto by done. apply Ms in Hr.
    rewrite Hr, Hk. by rewrite orb_true_r.
Qed.

Lemma edge_closed_same x y b s : same_sets x y -> edge_closed x b s -> edge_closed y b s.
Proof. intros E H r Hr Hk. apply E. apply H; [by apply E | done]. Qed.

(** *** One pass *)

Lemma flow_fold b l es live c live' c' :
  inv live -> succ !! b = Some l -> (forall s, s ∈ es -> s ∈ l) ->
  foldl (flow kill b) (live, c) es = (live', c') ->
  steps_ok live c live' c' /\ (c' = false -> forall s, s ∈ es -> edge_closed live' b s).
Proof.
  revert live c. induction es as [|s es IH]; intros live c Hinv Hl Hes; cbn [foldl].
  { intros [= <- <-]. split; [by apply steps_refl|]. intros _ s Hs. by apply elem_of_nil in Hs. }
  destruct (flow kill b (live, c) s) as [x cx] eqn:E1. intros E2.
  destruct (flow_ok b s l live c x cx) as [S1 C1]; [done | done | apply Hes; left | done|].
  destruct (IH x cx) as [S2 C2]; [apply S1 | done | intros s' Hs'; apply Hes; by right | done|].
  split; [by eapply steps_trans|]. intros Hc s' [->|Hs']%elem_of_cons; [|by apply C2].
  destruct (so_quiet _ _ _ _ S2 Hc) as [Hcx Hsame]. eapply edge_closed_same; [exact Hsame | by apply C1].
Qed.

Lemma flow_blocks_fold ks : forall live c live' c',
  inv live -> foldl (flow_block kill succ) (live, c) ks = (live', c') ->
  steps_ok live c live' c' /\
  (c' = false -> forall b l s, b ∈ ks -> succ !! b = Some l -> s ∈ l -> edge_closed live' b s).
Proof.
  induction ks as [|b ks IH]; intros live c live' c' Hinv; cbn [foldl].
  { intros [= <- <-]. split; [by apply steps_refl|]. intros _ b l s Hb. by apply elem_of_nil in Hb. }
  destruct (flow_block kill succ (live, c) b) as [x cx] eqn:E1. intros E2. unfold flow_block in E1.
  assert (S1 : steps_ok live c x cx /\
    (cx = false -> forall l s, succ !! b = Some l -> s ∈ l -> edge_closed x b s)).
  { destruct (succ !! b) as [l|] eqn:El; cbn in E1.
    - destruct (flow_fold b l l live c x cx) as [A B]; auto. split; [done|].
      intros Hc l' s [= <-]. by apply B.
    - injection E1 as <- <-. split; [by apply steps_refl | done]. }
  destruct S1 as [S1 C1]. destruct (IH x cx live' c') as [S2 C2]; [apply S1 | done|].
  split; [by eapply steps_trans|]. intros Hc b' l s [->|Hb']%elem_of_cons Hl Hs; [|by eapply C2].
  destruct (so_quiet _ _ _ _ S2 Hc) as [Hcx Hsame]. eapply edge_closed_same; [exact Hsame | by eapply C1].
Qed.

Lemma pass_ok live live' c :
  inv live -> pass kill succ live = (live', c) ->
  steps_ok live false live' c /\
  (c = false -> forall b l s, succ !! b = Some l -> s ∈ l -> edge_closed live' b s).
Proof.
  intros Hinv E. unfold pass in E. apply flow_blocks_fold in E as [S C]; [|done].
  split; [done|]. intros Hc b l s Hl Hs. apply (C Hc b l s); [|done|done].
  apply list_elem_of_In. rewrite <- in_rev. apply in_seq. apply lookup_lt_Some in Hl. unfold succ in Hl.
  rewrite length_fmap in Hl. rewrite (inv_len _ Hinv). lia.
Qed.

(** *** The loop ends *)

Definition universe : list (nat * N) :=
  list_prod (seq 0 (length bs)) (N.of_nat <$> seq 0 (64 * W)).

#[local] Instance in_set_dec live i r : Decision (in_set live i r).
Proof. unfold in_set. apply _. Defined.

Definition missing (live : list RegSet) : nat :=
  length (filter (fun p => ~ in_set live p.1 p.2) universe).

Lemma filter_shrinks {A} (P Q : A -> Prop) `{!forall x, Decision (P x)} `{!forall x, Decision (Q x)} l :
  (forall x, x ∈ l -> Q x -> P x) -> length (filter Q l) <= length (filter P l).
Proof.
  induction l as [|x l IH]; intros Hsub; [done|]. rewrite !filter_cons.
  assert (IH' : length (filter Q l) <= length (filter P l)) by (apply IH; intros y Hy; apply Hsub; by right).
  destruct (decide (Q x)) as [q|], (decide (P x)) as [p|np]; cbn; try lia.
  destruct np. apply Hsub; [left | done].
Qed.

Lemma filter_shrinks_strictly {A} (P Q : A -> Prop)
    `{!forall x, Decision (P x)} `{!forall x, Decision (Q x)} l x :
  (forall x, x ∈ l -> Q x -> P x) -> x ∈ l -> P x -> ~ Q x ->
  length (filter Q l) < length (filter P l).
Proof.
  intros Hsub Hx HP HQ. apply list_elem_of_split in Hx as (l1 & l2 & ->).
  rewrite !filter_app, !length_app, !filter_cons, decide_False, decide_True by done. cbn.
  pose proof (filter_shrinks P Q l1 ltac:(intros y Hy; apply Hsub; set_solver)).
  pose proof (filter_shrinks P Q l2 ltac:(intros y Hy; apply Hsub; set_solver)). lia.
Qed.

Lemma missing_drops x y :
  inv y -> (forall i r, in_set x i r -> in_set y i r) -> new_in x y -> missing y < missing x.
Proof.
  intros Hy Hg (i & r & Hi & H1 & H2). unfold missing.
  apply (filter_shrinks_strictly (fun p => ~ in_set x p.1 p.2) (fun p => ~ in_set y p.1 p.2) _ (i, r)).
  - intros p _ Hn Hx. apply Hn. by apply Hg.
  - unfold universe. apply list_elem_of_In, in_prod; apply list_elem_of_In.
    + apply elem_of_seq. lia.
    + apply list_elem_of_fmap. exists (N.to_nat r). split; [lia|]. apply elem_of_seq.
      pose proof H1 as H1'. unfold in_set in H1'.
      destruct (lookup_lt_is_Some_2 y i) as [s Hs]; [rewrite (inv_len _ Hy); lia|].
      rewrite Hs in H1'. cbn in H1'. apply contains_bound in H1'.
      pose proof (Forall_lookup_1 _ _ _ _ (inv_wide _ Hy) Hs) as Hw. cbn in Hw. lia.
  - exact H2.
  - intros Hn. by apply Hn.
Qed.

Definition fixed (live : list RegSet) : Prop :=
  inv live /\ forall b l s, succ !! b = Some l -> s ∈ l -> edge_closed live b s.

Lemma fix_loop_ok fuel : forall live, inv live -> missing live < fuel ->
  exists live', fix_loop kill succ fuel live = Some live' /\ fixed live'.
Proof.
  induction fuel as [|fuel IH]; intros live Hinv Hm; [lia|]. cbn [fix_loop].
  destruct (pass kill succ live) as [x c] eqn:E. destruct (pass_ok live x c Hinv E) as [[I G Q L] C].
  destruct c.
  - apply IH; [done|]. destruct (L eq_refl) as [|Hn]; [done|]. pose proof (missing_drops live x I G Hn). lia.
  - exists x. split; [done|]. split; [done|]. by apply C.
Qed.

(** *** The start *)

Lemma max_width (l : list RegSet) s : s ∈ l -> length s <= foldr (fun s n => Nat.max (length s) n) 0 l.
Proof. induction l as [|x l IH]; [by intros ?%elem_of_nil|]. intros [->|H]%elem_of_cons; cbn; [lia|]. specialize (IH H). lia. Qed.

Lemma live0_lookup i b : bs !! i = Some b -> live0 !! i = Some (reads_writes b).1.
Proof. intros H. unfold live0. by rewrite list_lookup_fmap, H. Qed.

Lemma live0_inv : inv live0.
Proof.
  split.
  - apply length_fmap.
  - apply Forall_fmap, Forall_forall. intros b _. apply reads_writes_spec.
  - apply Forall_forall. intros s Hs. by apply max_width.
  - intros i b r Hi Hr. unfold in_set. rewrite (live0_lookup i b Hi). by apply reads_writes_spec.
  - intros i b r Hi Hr. unfold in_set in Hr. rewrite (live0_lookup i b Hi) in Hr.
    apply live_here; [by eapply list_elem_of_lookup_2|]. by apply reads_writes_spec.
Qed.

Lemma missing_bound live : missing live <= length bs * (64 * W).
Proof.
  unfold missing. etrans; [apply length_filter|]. unfold universe.
  rewrite length_prod, length_fmap, !length_seq. done.
Qed.

(** The analysis answers, and its answer is the specification. *)
Lemma solve_exact : exists live, solve bs = Some live /\ length live = length bs /\
  forall i b r, bs !! i = Some b -> in_set live i r <-> live_into bs (l_label b) r.
Proof.
  destruct (fix_loop_ok (loop_fuel live0) live0 live0_inv) as (live & E & Hinv & Hclosed).
  { unfold loop_fuel. fold W. rewrite (inv_len _ live0_inv). pose proof (missing_bound live0). lia. }
  exists live. split; [exact E|]. split; [apply Hinv|]. intros i b r Hi. split; [by apply (inv_sound _ Hinv)|].
  assert (Hall : forall l r, live_into bs l r ->
    forall i b, bs !! i = Some b -> l_label b = l -> in_set live i r).
  { clear i b r Hi. induction 1 as [b r Hb Hr|b l r Hb Hd Hl Hlive IH]; intros i B Hi El.
    - apply list_elem_of_lookup in Hb as [j Hj].
      assert (i = j) as ->.
      { pose proof (block_index_complete i B Hi). pose proof (block_index_complete j b Hj). congruence. }
      by apply (inv_base _ Hinv j b).
    - apply list_elem_of_lookup in Hb as [j Hj].
      assert (i = j) as ->.
      { pose proof (block_index_complete i B Hi). pose proof (block_index_complete j b Hj). congruence. }
      assert (Hs : exists s S, bs !! s = Some S /\ l_label S = l).
      { inversion Hlive as [S q HS ? E1|S l' q HS ? ? ? E1]; subst;
          apply list_elem_of_lookup in HS as [s Hs]; by exists s, S. }
      destruct Hs as (s & S & Hs & <-).
      destruct (edge_succ j b s S Hj Hs Hl) as (ls & Hls & Hin).
      apply (Hclosed j ls s Hls Hin); [by apply (IH s S)|].
      destruct (rs_contains _ r) eqn:Ek; [|done]. destruct Hd. by apply (kill_spec j b r Hj). }
  intros Hr. by apply (Hall (l_label b) r Hr i b).
Qed.
End Solve.

(** ** By label *)

Lemma by_label_lookup bs : forall live i b s,
  NoDup (l_label <$> bs) -> length live = length bs -> bs !! i = Some b -> live !! i = Some s ->
  by_label bs live !! l_label b = Some s.
Proof.
  unfold by_label. induction bs as [|b0 bs IH] using rev_ind; intros live i b s Hnd Hlen Hi Hs; [done|].
  rewrite length_app in Hlen. cbn in Hlen.
  destruct live as [|s0 live _] using rev_ind; [cbn in Hlen; lia|]. rewrite length_app in Hlen. cbn in Hlen.
  rewrite zip_with_app by lia. cbn [zip_with]. rewrite foldl_snoc. rewrite fmap_app in Hnd.
  apply NoDup_app in Hnd as (Hnd & Hdis & _). apply lookup_app_Some in Hi as [Hi|[Hge Hi]].
  - rewrite lookup_app_l in Hs by (apply lookup_lt_Some in Hi; lia).
    rewrite lookup_insert_ne; [by apply (IH live i); [| lia | |]|]. intros E. apply (Hdis (l_label b)).
    + apply list_elem_of_fmap. exists b. split; [done|]. by eapply list_elem_of_lookup_2.
    + cbn. rewrite E. left.
  - apply list_lookup_singleton_Some in Hi as [Hz <-].
    rewrite lookup_app_r in Hs by lia. replace (i - length live) with 0 in Hs by lia.
    injection Hs as <-. apply lookup_insert_eq.
Qed.

(** What the analysis answers is exact. *)
Lemma live_in_sets v bs m b r :
  mapM (read_lblock (parts v)) (v_blocks v) = Some bs -> NoDup (l_label <$> bs) -> live_in v = Some m -> b ∈ bs ->
  (exists s, m !! l_label b = Some s /\ rs_contains s r = true) <-> live_into bs (l_label b) r.
Proof.
  intros Hbs Hnd Hm Hb. destruct (solve_exact bs Hnd) as (live & E & Hlen & Hex).
  unfold live_in in Hm. rewrite Hbs in Hm. cbn [mbind option_bind] in Hm. rewrite E in Hm. injection Hm as <-.
  apply list_elem_of_lookup in Hb as [i Hi].
  destruct (lookup_lt_is_Some_2 live i) as [s Hs]; [apply lookup_lt_Some in Hi; lia|].
  rewrite (by_label_lookup bs live i b s) by done. rewrite <- (Hex i b r Hi). unfold in_set. rewrite Hs. cbn.
  naive_solver.
Qed.

(** C22: The emitter's liveness analysis is exact and always ends.  For a function
    whose nodes read and whose labels are distinct, [live_in] answers, and the
    set it gives a block holds a register exactly when some path from the
    block's entry reads the register before writing it.  No live register is
    missed, so an edge never pops a cell a later block reads; and no dead one
    is kept, so every dead orphan can be popped.  Skipping a block's edge to
    itself loses nothing. *)
Theorem live_in_exact v bs :
  mapM (read_lblock (parts v)) (v_blocks v) = Some bs -> NoDup (l_label <$> bs) ->
  exists m, live_in v = Some m /\
  forall b r, b ∈ bs ->
    (exists s, m !! l_label b = Some s /\ rs_contains s r = true) <-> live_into bs (l_label b) r.
Proof.
  intros Hbs Hnd. destruct (solve_exact bs Hnd) as (live & E & _).
  assert (Hm : live_in v = Some (by_label bs live)).
  { unfold live_in. rewrite Hbs. cbn [mbind option_bind]. by rewrite E. }
  exists (by_label bs live). split; [done|]. intros b r Hb. by apply (live_in_sets v).
Qed.

(** A loop: block 0 writes 1 and jumps to 1; block 1 reads 2, branches on 3
    to itself and to block 2, which returns 1. *)
Definition sample_node (dst : N) (us : list N) : Node :=
  mkNode 0 0 0 0 0 dst 0 0 (default 0%N (us !! 0)) (default 0%N (us !! 1)) 0
    (N.of_nat (length us)) (op_byte Op_IsNil) 0.

Definition sample_live_view : LirView :=
  mkView (mkParts [sample_node 1 []; sample_node 4 [2%N]] [] [] [] [] [])
    [ mkBlockRec 0 0 1 1 0 0 0 0 0 0 0 T_JUMP;
      mkBlockRec 1 1 1 3 1 2 0 0 0 0 0 T_BRANCH;
      mkBlockRec 2 2 0 1 0 0 0 0 0 0 0 T_RETURN ]
    [] [] [] [] (frozen_head (LirHead_new (Exact 0))).

Definition sample_lblocks : list LBlock :=
  [ mkLBlock 0 [(Some 1%N, [])] (Jump 1); mkLBlock 1 [(Some 4%N, [2%N])] (Branch 3 1 2);
    mkLBlock 2 [] (Return 1) ].

Lemma live_in_exact_witness :
  exists m, live_in sample_live_view = Some m /\
  ((exists s, m !! 1%N = Some s /\ rs_contains s 1 = true) <-> live_into sample_lblocks 1 1).
Proof.
  destruct (live_in_exact sample_live_view sample_lblocks) as (m & E & H).
  - vm_compute. reflexivity.
  - apply (bool_decide_eq_true_1 _). vm_compute. reflexivity.
  - exists m. split; [exact E|].
    apply (H (mkLBlock 1 [(Some 4%N, [2%N])] (Branch 3 1 2)) 1%N). right. left.
Defined.
