(* ===== verification/Bytecode.v ===== *)
(** * The bytecode

    [compiler/bytecode/instruction.rs]: the instruction set, one opcode byte
    each.  [compiler/bytecode.rs]: the code object under construction and the
    emit and patch operations.  [vm/core/decode.rs]: the interpreter's operand
    readers.  [value/repr]: the immediate values a constant pool holds and the
    identity relation its search uses.

    A code object keeps what the emitter writes: the bytes, the constants, the
    location map, the child headers and the three slot tables; its signal and
    projection are written by later passes.  Comparing two heap values reads
    the heap, so that comparison is an argument ([heap_eq]). *)

From stdpp Require Import base numbers option list gmap.
From S2P Require Import Prelude SignalBits LirRecord Bytes Files.

(** ** The instruction set *)

Inductive Instruction :=
| B_LoadConst | B_LoadLocal | B_StoreLocal | B_LoadUpvalue | B_LoadUpvalueRaw | B_StoreUpvalue |
B_Pop | B_Dup | B_DupN | B_Call | B_TailCall | B_Return | B_Jump | B_JumpIfFalse | B_JumpIfTrue
| B_MakeClosure | B_Pair | B_First | B_Rest | B_MakeArrayMut | B_ArrayMutRef | B_ArrayMutSet |
B_AddInt | B_SubInt | B_MulInt | B_DivInt | B_Add | B_Sub | B_Mul | B_Div | B_Rem | B_BitAnd |
B_BitOr | B_BitXor | B_BitNot | B_Shl | B_Shr | B_Eq | B_Lt | B_Gt | B_Le | B_Ge | B_IsNil |
B_IsEmptyList | B_IsPair | B_IsNumber | B_IsSymbol | B_Not | B_Nil | B_True | B_False |
B_MakeCapture | B_UnwrapCapture | B_UpdateCapture | B_Emit | B_EmptyList | B_MatchFail |
B_FirstDestructure | B_RestDestructure | B_ArrayMutRefDestructure | B_ArrayMutSliceFrom |
B_IsArray | B_IsArrayMut | B_IsStruct | B_IsStructMut | B_ArrayMutLen | B_StructGetOrNil |
B_StructGetDestructure | B_FirstOrNil | B_RestOrNil | B_ArrayMutRefOrNil | B_Eval |
B_ArrayMutExtend | B_ArrayMutPush | B_CallArrayMut | B_TailCallArrayMut | B_PushParamFrame |
B_PopParamFrame | B_IsSet | B_IsSetMut | B_CheckSignalBound | B_StructRest | B_IntToFloat |
B_FloatToInt | B_Ne | B_BitNotIntr | B_IsBool | B_IsInt | B_IsFloat | B_IsString | B_IsKeyword |
B_IsBytes | B_IsBox | B_IsClosure | B_IsFiber | B_TypeOf | B_Length | B_IntrGet | B_IntrPut |
B_IntrDel | B_IntrHas | B_IntrPush | B_IntrPop | B_IntrFreeze | B_IntrThaw | B_Identical |
B_CallChecked | B_TailCallChecked | B_IntrStringPush | B_IntrBytesPush | B_IncrefRegion |
B_DecrefRegion | B_DecrefValueRegion | B_DecrefCellRegion | B_IncrefValueRegion | B_AdoptRegion
| B_AdoptCellRegion | B_AssertRegionMatches | B_FreeRegionGroup | B_LoadSelf |
B_AdoptIntoActivation | B_MaterializeConst.

(** Declaration order. *)
Definition Instruction_ALL : list Instruction :=
  [ B_LoadConst; B_LoadLocal; B_StoreLocal; B_LoadUpvalue; B_LoadUpvalueRaw; B_StoreUpvalue;
  B_Pop; B_Dup; B_DupN; B_Call; B_TailCall; B_Return; B_Jump; B_JumpIfFalse; B_JumpIfTrue;
  B_MakeClosure; B_Pair; B_First; B_Rest; B_MakeArrayMut; B_ArrayMutRef; B_ArrayMutSet;
  B_AddInt; B_SubInt; B_MulInt; B_DivInt; B_Add; B_Sub; B_Mul; B_Div; B_Rem; B_BitAnd; B_BitOr;
  B_BitXor; B_BitNot; B_Shl; B_Shr; B_Eq; B_Lt; B_Gt; B_Le; B_Ge; B_IsNil; B_IsEmptyList;
  B_IsPair; B_IsNumber; B_IsSymbol; B_Not; B_Nil; B_True; B_False; B_MakeCapture;
  B_UnwrapCapture; B_UpdateCapture; B_Emit; B_EmptyList; B_MatchFail; B_FirstDestructure;
  B_RestDestructure; B_ArrayMutRefDestructure; B_ArrayMutSliceFrom; B_IsArray; B_IsArrayMut;
  B_IsStruct; B_IsStructMut; B_ArrayMutLen; B_StructGetOrNil; B_StructGetDestructure;
  B_FirstOrNil; B_RestOrNil; B_ArrayMutRefOrNil; B_Eval; B_ArrayMutExtend; B_ArrayMutPush;
  B_CallArrayMut; B_TailCallArrayMut; B_PushParamFrame; B_PopParamFrame; B_IsSet; B_IsSetMut;
  B_CheckSignalBound; B_StructRest; B_IntToFloat; B_FloatToInt; B_Ne; B_BitNotIntr; B_IsBool;
  B_IsInt; B_IsFloat; B_IsString; B_IsKeyword; B_IsBytes; B_IsBox; B_IsClosure; B_IsFiber;
  B_TypeOf; B_Length; B_IntrGet; B_IntrPut; B_IntrDel; B_IntrHas; B_IntrPush; B_IntrPop;
  B_IntrFreeze; B_IntrThaw; B_Identical; B_CallChecked; B_TailCallChecked; B_IntrStringPush;
  B_IntrBytesPush; B_IncrefRegion; B_DecrefRegion; B_DecrefValueRegion; B_DecrefCellRegion;
  B_IncrefValueRegion; B_AdoptRegion; B_AdoptCellRegion; B_AssertRegionMatches;
  B_FreeRegionGroup; B_LoadSelf; B_AdoptIntoActivation; B_MaterializeConst ].

(** [instr as u8] *)
Definition instr_byte (i : Instruction) : N :=
  match i with
  | B_LoadConst => 0 | B_LoadLocal => 1 | B_StoreLocal => 2 | B_LoadUpvalue => 3 |
  B_LoadUpvalueRaw => 4 | B_StoreUpvalue => 5 | B_Pop => 6 | B_Dup => 7 | B_DupN => 8 | B_Call
  => 9 | B_TailCall => 10 | B_Return => 11 | B_Jump => 12 | B_JumpIfFalse => 13 | B_JumpIfTrue
  => 14 | B_MakeClosure => 15 | B_Pair => 16 | B_First => 17 | B_Rest => 18 | B_MakeArrayMut =>
  19 | B_ArrayMutRef => 20 | B_ArrayMutSet => 21 | B_AddInt => 22 | B_SubInt => 23 | B_MulInt =>
  24 | B_DivInt => 25 | B_Add => 26 | B_Sub => 27 | B_Mul => 28 | B_Div => 29 | B_Rem => 30 |
  B_BitAnd => 31 | B_BitOr => 32 | B_BitXor => 33 | B_BitNot => 34 | B_Shl => 35 | B_Shr => 36 |
  B_Eq => 37 | B_Lt => 38 | B_Gt => 39 | B_Le => 40 | B_Ge => 41 | B_IsNil => 42 | B_IsEmptyList
  => 43 | B_IsPair => 44 | B_IsNumber => 45 | B_IsSymbol => 46 | B_Not => 47 | B_Nil => 48 |
  B_True => 49 | B_False => 50 | B_MakeCapture => 51 | B_UnwrapCapture => 52 | B_UpdateCapture
  => 53 | B_Emit => 54 | B_EmptyList => 55 | B_MatchFail => 56 | B_FirstDestructure => 57 |
  B_RestDestructure => 58 | B_ArrayMutRefDestructure => 59 | B_ArrayMutSliceFrom => 60 |
  B_IsArray => 61 | B_IsArrayMut => 62 | B_IsStruct => 63 | B_IsStructMut => 64 | B_ArrayMutLen
  => 65 | B_StructGetOrNil => 66 | B_StructGetDestructure => 67 | B_FirstOrNil => 68 |
  B_RestOrNil => 69 | B_ArrayMutRefOrNil => 70 | B_Eval => 71 | B_ArrayMutExtend => 72 |
  B_ArrayMutPush => 73 | B_CallArrayMut => 74 | B_TailCallArrayMut => 75 | B_PushParamFrame =>
  76 | B_PopParamFrame => 77 | B_IsSet => 78 | B_IsSetMut => 79 | B_CheckSignalBound => 80 |
  B_StructRest => 81 | B_IntToFloat => 82 | B_FloatToInt => 83 | B_Ne => 84 | B_BitNotIntr => 85
  | B_IsBool => 86 | B_IsInt => 87 | B_IsFloat => 88 | B_IsString => 89 | B_IsKeyword => 90 |
  B_IsBytes => 91 | B_IsBox => 92 | B_IsClosure => 93 | B_IsFiber => 94 | B_TypeOf => 95 |
  B_Length => 96 | B_IntrGet => 97 | B_IntrPut => 98 | B_IntrDel => 99 | B_IntrHas => 100 |
  B_IntrPush => 101 | B_IntrPop => 102 | B_IntrFreeze => 103 | B_IntrThaw => 104 | B_Identical
  => 105 | B_CallChecked => 106 | B_TailCallChecked => 107 | B_IntrStringPush => 108 |
  B_IntrBytesPush => 109 | B_IncrefRegion => 110 | B_DecrefRegion => 111 | B_DecrefValueRegion
  => 112 | B_DecrefCellRegion => 113 | B_IncrefValueRegion => 114 | B_AdoptRegion => 115 |
  B_AdoptCellRegion => 116 | B_AssertRegionMatches => 117 | B_FreeRegionGroup => 118 |
  B_LoadSelf => 119 | B_AdoptIntoActivation => 120 | B_MaterializeConst => 121
  end.

#[export] Instance Instruction_eq_dec : EqDecision Instruction.
Proof. solve_decision. Defined.

(** [Instruction::from_byte]: bytes past the last variant are rejected. *)
Definition instr_from_byte (byte : N) : option Instruction := Instruction_ALL !! N.to_nat byte.

(** ** Values *)

Definition TAG_EMPTY_LIST : N := 5.
Definition TAG_SYMBOL : N := 6.
Definition TAG_KEYWORD : N := 7.
Definition TAG_HEAP_START : N := 11.

Definition V_NIL : Value := mkValue TAG_NIL 0.
Definition V_TRUE : Value := mkValue TAG_TRUE 0.
Definition V_FALSE : Value := mkValue TAG_FALSE 0.
Definition V_EMPTY_LIST : Value := mkValue TAG_EMPTY_LIST 0.
Definition V_bool (b : bool) : Value := if b then V_TRUE else V_FALSE.
Definition V_int (n : Z) : Value := mkValue TAG_INT (i64_as_u64 n).
Definition V_float (bits : N) : Value := mkValue TAG_FLOAT bits.
Definition V_symbol (s : SymbolId) : Value := mkValue TAG_SYMBOL s.
Definition V_keyword (k : N) : Value := mkValue TAG_KEYWORD k.

Definition is_heap (v : Value) : bool := (TAG_HEAP_START <=? tag v)%N.
Definition is_truthy (v : Value) : bool := negb (tag v =? TAG_NIL)%N && negb (tag v =? TAG_FALSE)%N.

(** ** Operands *)

Inductive Operand :=
| U8 (x : N) | U16 (x : N) | U32 (x : N) | U64 (x : N) | I32 (x : Z) | Raw (bytes : list N).

#[export] Instance Operand_eq_dec : EqDecision Operand.
Proof. solve_decision. Defined.

Definition i32_as_u32 (z : Z) : N := Z.to_N (z mod 2 ^ 32).

(** [u32 as i32] *)
Definition u32_as_i32 (x : N) : Z :=
  let z := Z.of_N x in if (z <? 2 ^ 31)%Z then z else (z - 2 ^ 32)%Z.

(** The bytes [emit_byte], [emit_u16], [emit_u32], [emit_u64] (and
    [emit_signal_bits]) and [emit_i32] append. *)
Definition operand_bytes (o : Operand) : list N :=
  match o with
  | U8 x => [as_u8 x]
  | U16 x => be_bytes 2 x
  | U32 x => be_bytes 4 x
  | U64 x => be_bytes 8 x
  | I32 z => be_bytes 4 (i32_as_u32 z)
  | Raw bytes => bytes
  end.

(** ** The code object *)

Record SourceLoc := mkLoc { loc_file : list N; loc_line : N; loc_col : N }.

(** ["<input>"] *)
Definition INPUT_FILE : list N := [60; 105; 110; 112; 117; 116; 62]%N.

Record Bytecode := mkBytecode {
  instructions : list N;
  constants : list Value;
  location_map : gmap nat SourceLoc;
  children : list Value;
  bc_merged_slots : list N;
  bc_release_slots : list N;
  bc_release_regions : list N }.

Definition Bytecode_new : Bytecode := mkBytecode [] [] ∅ [] [] [] [].

Definition set_code_bytes (b : Bytecode) (l : list N) : Bytecode :=
  mkBytecode l (constants b) (location_map b) (children b) (bc_merged_slots b)
    (bc_release_slots b) (bc_release_regions b).
Definition set_constants (b : Bytecode) (l : list Value) : Bytecode :=
  mkBytecode (instructions b) l (location_map b) (children b) (bc_merged_slots b)
    (bc_release_slots b) (bc_release_regions b).
Definition set_locations (b : Bytecode) (m : gmap nat SourceLoc) : Bytecode :=
  mkBytecode (instructions b) (constants b) m (children b) (bc_merged_slots b)
    (bc_release_slots b) (bc_release_regions b).
Definition set_children (b : Bytecode) (l : list Value) : Bytecode :=
  mkBytecode (instructions b) (constants b) (location_map b) l (bc_merged_slots b)
    (bc_release_slots b) (bc_release_regions b).
Definition set_tables (b : Bytecode) (merged slots regions : list N) : Bytecode :=
  mkBytecode (instructions b) (constants b) (location_map b) (children b) merged slots regions.

Definition current_pos (b : Bytecode) : nat := length (instructions b).

(** [emit] and the operand writers *)
Definition bc_emit (b : Bytecode) (i : Instruction) : Bytecode :=
  set_code_bytes b (instructions b ++ [instr_byte i]).
Definition bc_operand (b : Bytecode) (o : Operand) : Bytecode :=
  set_code_bytes b (instructions b ++ operand_bytes o).

(** One opcode and its operands, in order. *)
Definition bc_put (b : Bytecode) (i : Instruction) (os : list Operand) : Bytecode :=
  foldl bc_operand (bc_emit b i) os.

(** [record_location]: a synthetic span is not recorded. *)
Definition record_location (F : Files) (b : Bytecode) (s : Span) : Bytecode :=
  if ((sp_line s =? 0) && (sp_col s =? 0) && (sp_start s =? 0) && (sp_end s =? 0))%N then b
  else set_locations b (<[current_pos b := mkLoc (default INPUT_FILE (span_file F s)) (sp_line s) (sp_col s)]>
                          (location_map b)).

Section Constants.
Variable heap_eq : Value -> Value -> bool.

(** [Value == Value]: [eq_with] under [Relation::Identity]. *)
Definition value_eq (a b : Value) : bool :=
  if negb (is_heap a) && negb (is_heap b) then (tag a =? tag b)%N && (payload a =? payload b)%N
  else if xorb (is_heap a) (is_heap b) then false
  else if (payload a =? payload b)%N then true
  else heap_eq a b.

(** The first constant equal to [v]. *)
Fixpoint find_const (v : Value) (l : list Value) : option nat :=
  match l with
  | [] => None
  | c :: l => if value_eq c v then Some 0 else S <$> find_const v l
  end.

(** [add_constant]: the 65537th constant panics. *)
Definition add_constant (b : Bytecode) (v : Value) : option (N * Bytecode) :=
  match find_const v (constants b) with
  | Some i => Some (as_u16 (N.of_nat i), b)
  | None =>
    let idx := length (constants b) in
    if (65535 <? N.of_nat idx)%N then None
    else Some (as_u16 (N.of_nat idx), set_constants b (constants b ++ [v]))
  end.
End Constants.

(** [patch_jump]: four indexed writes, each of which panics out of range. *)
Definition patch_jump (b : Bytecode) (pos : nat) (offset : Z) : option Bytecode :=
  if decide (pos + 4 <= length (instructions b)) then
    Some (set_code_bytes b (take pos (instructions b) ++ be_bytes 4 (i32_as_u32 offset)
                              ++ drop (pos + 4) (instructions b)))
  else None.

(** ** The interpreter's readers

    A reader answers the operand and the advanced [ip]; an index past the end
    of the code panics, and so does a region operand of 0. *)

Definition read_n (n : nat) (bc : list N) (ip : nat) : option (N * nat) :=
  '(l, _) ← take_n n (drop ip bc); Some (be_val l, ip + n).

Inductive Width := W8 | W16 | W32 | W64 | WI32 | WRegion.

Definition read_width (w : Width) (bc : list N) (ip : nat) : option (Operand * nat) :=
  match w with
  | W8 => '(x, ip) ← read_n 1 bc ip; Some (U8 x, ip)
  | W16 => '(x, ip) ← read_n 2 bc ip; Some (U16 x, ip)
  | W32 => '(x, ip) ← read_n 4 bc ip; Some (U32 x, ip)
  | W64 => '(x, ip) ← read_n 8 bc ip; Some (U64 x, ip)
  | WI32 => '(x, ip) ← read_n 4 bc ip; Some (I32 (u32_as_i32 x), ip)
  | WRegion => '(x, ip) ← read_n 4 bc ip; _ ← StaticRegion_new x; Some (U32 x, ip)
  end.

Fixpoint read_widths (ws : list Width) (bc : list N) (ip : nat) : option (list Operand * nat) :=
  match ws with
  | [] => Some ([], ip)
  | w :: ws =>
    '(o, ip) ← read_width w bc ip; '(os, ip) ← read_widths ws bc ip; Some (o :: os, ip)
  end.
