(* ===== verification/EmitStack.v ===== *)
(** * The emitter: state and stack simulation

    [lir/emit/mod.rs]: the emitter's state and the site recorders.
    [lir/emit/stack.rs]: the simulation of the operand stack, which register's
    value each cell holds.

    An action takes the emitter to the emitter after it, or panics ([None]);
    [;;] runs two in order, so an arm reads as the source's statements do.
    The code region a lambda's payload is written to is outside the emitter:
    [arena_write] answers the header over the payload and the arena after. *)

From stdpp Require Import base numbers option list gmap.
From S2P Require Import Prelude SignalBits Signal LirRecord LirInstr LirCodec LirBuild LirView Bytes Files Live Bytecode.

(** [ClosureCompiled] *)
Record ClosureCompiled := mkCompiled {
  cc_bytecode : Bytecode;
  cc_yields : list YieldPointInfo;
  cc_calls : list CallSiteInfo;
  cc_charges : list ChargeSiteInfo }.

Definition ClosureCompiled_default : ClosureCompiled := mkCompiled Bytecode_new [] [] [].

Section Emitter.
Context {Arena : Type}.

Record Emitter := mkEmitter {
  e_bc : Bytecode;
  e_labels : gmap Label nat;
  e_pending : list (nat * Label);
  e_stack : list Reg;
  e_map : gmap Reg nat;
  e_saved : gmap Label (list Reg * gmap Reg nat);
  e_depth : gmap Label nat;
  e_live : gmap Label RegSet;
  e_yields : list YieldPointInfo;
  e_calls : list CallSiteInfo;
  e_charges : list ChargeSiteInfo;
  e_may_suspend : bool;
  e_num_locals : N;
  e_compiled : option (list ClosureCompiled);
  e_funcs : option (list LirOwned);
  e_arena : Arena;
  e_headers : gmap ClosureId Value }.

Definition set_bc (e : Emitter) (x_e_bc : Bytecode) : Emitter :=
  mkEmitter x_e_bc (e_labels e) (e_pending e) (e_stack e) (e_map e) (e_saved e) (e_depth e)
    (e_live e) (e_yields e) (e_calls e) (e_charges e) (e_may_suspend e) (e_num_locals e)
    (e_compiled e) (e_funcs e) (e_arena e) (e_headers e).

Definition set_labels (e : Emitter) (x_e_labels : gmap Label nat) : Emitter :=
  mkEmitter (e_bc e) x_e_labels (e_pending e) (e_stack e) (e_map e) (e_saved e) (e_depth e)
    (e_live e) (e_yields e) (e_calls e) (e_charges e) (e_may_suspend e) (e_num_locals e)
    (e_compiled e) (e_funcs e) (e_arena e) (e_headers e).

Definition set_pending (e : Emitter) (x_e_pending : list (nat * Label)) : Emitter :=
  mkEmitter (e_bc e) (e_labels e) x_e_pending (e_stack e) (e_map e) (e_saved e) (e_depth e)
    (e_live e) (e_yields e) (e_calls e) (e_charges e) (e_may_suspend e) (e_num_locals e)
    (e_compiled e) (e_funcs e) (e_arena e) (e_headers e).

Definition set_sim (e : Emitter) (x_e_stack : list Reg) (x_e_map : gmap Reg nat) : Emitter :=
  mkEmitter (e_bc e) (e_labels e) (e_pending e) x_e_stack x_e_map (e_saved e) (e_depth e)
    (e_live e) (e_yields e) (e_calls e) (e_charges e) (e_may_suspend e) (e_num_locals e)
    (e_compiled e) (e_funcs e) (e_arena e) (e_headers e).

Definition set_saved (e : Emitter) (x_e_saved : gmap Label (list Reg * gmap Reg nat)) : Emitter :=
  mkEmitter (e_bc e) (e_labels e) (e_pending e) (e_stack e) (e_map e) x_e_saved (e_depth e)
    (e_live e) (e_yields e) (e_calls e) (e_charges e) (e_may_suspend e) (e_num_locals e)
    (e_compiled e) (e_funcs e) (e_arena e) (e_headers e).

Definition set_depth (e : Emitter) (x_e_depth : gmap Label nat) : Emitter :=
  mkEmitter (e_bc e) (e_labels e) (e_pending e) (e_stack e) (e_map e) (e_saved e) x_e_depth
    (e_live e) (e_yields e) (e_calls e) (e_charges e) (e_may_suspend e) (e_num_locals e)
    (e_compiled e) (e_funcs e) (e_arena e) (e_headers e).

Definition set_yields (e : Emitter) (x_e_yields : list YieldPointInfo) : Emitter :=
  mkEmitter (e_bc e) (e_labels e) (e_pending e) (e_stack e) (e_map e) (e_saved e) (e_depth
    e) (e_live e) x_e_yields (e_calls e) (e_charges e) (e_may_suspend e) (e_num_locals e)
    (e_compiled e) (e_funcs e) (e_arena e) (e_headers e).

Definition set_calls (e : Emitter) (x_e_calls : list CallSiteInfo) : Emitter :=
  mkEmitter (e_bc e) (e_labels e) (e_pending e) (e_stack e) (e_map e) (e_saved e) (e_depth
    e) (e_live e) (e_yields e) x_e_calls (e_charges e) (e_may_suspend e) (e_num_locals e)
    (e_compiled e) (e_funcs e) (e_arena e) (e_headers e).

Definition set_charges (e : Emitter) (x_e_charges : list ChargeSiteInfo) : Emitter :=
  mkEmitter (e_bc e) (e_labels e) (e_pending e) (e_stack e) (e_map e) (e_saved e) (e_depth
    e) (e_live e) (e_yields e) (e_calls e) x_e_charges (e_may_suspend e) (e_num_locals e)
    (e_compiled e) (e_funcs e) (e_arena e) (e_headers e).

Definition set_unit (e : Emitter) (x_e_compiled : option (list ClosureCompiled)) (x_e_funcs : option (list LirOwned)) (x_e_headers : gmap ClosureId Value) : Emitter :=
  mkEmitter (e_bc e) (e_labels e) (e_pending e) (e_stack e) (e_map e) (e_saved e) (e_depth
    e) (e_live e) (e_yields e) (e_calls e) (e_charges e) (e_may_suspend e) (e_num_locals e)
    x_e_compiled x_e_funcs (e_arena e) x_e_headers.

Definition set_arena (e : Emitter) (x_e_arena : Arena) (x_e_headers : gmap ClosureId Value) : Emitter :=
  mkEmitter (e_bc e) (e_labels e) (e_pending e) (e_stack e) (e_map e) (e_saved e) (e_depth
    e) (e_live e) (e_yields e) (e_calls e) (e_charges e) (e_may_suspend e) (e_num_locals e)
    (e_compiled e) (e_funcs e) x_e_arena x_e_headers.

(** [Emitter::new] *)
Definition Emitter_new (arena : Arena) : Emitter :=
  mkEmitter Bytecode_new ∅ [] [] ∅ ∅ ∅ ∅ [] [] [] false 0 None None arena ∅.

(** ** Actions *)

Definition Act := Emitter -> option Emitter.

Definition act_seq (f g : Act) : Act := fun e => f e ≫= g.

Definition act_skip : Act := Some.

(** A [for] loop. *)
Definition for_each {A} (l : list A) (f : A -> Act) : Act :=
  foldr (fun x k => act_seq (f x) k) act_skip l.

(** An opcode and its operands, through [self.bytecode]. *)
Definition put (i : Instruction) (os : list Operand) : Act := fun e =>
  Some (set_bc e (bc_put (e_bc e) i os)).

(** ** The simulation *)

Definition push_reg (reg : Reg) : Act := fun e =>
  Some (set_sim e (e_stack e ++ [reg]) (<[reg := length (e_stack e)]> (e_map e))).

(** [self.pop()]: nothing on an empty stack. *)
Definition pop : Act := fun e =>
  match last (e_stack e) with
  | Some reg => Some (set_sim e (take (length (e_stack e) - 1) (e_stack e)) (delete reg (e_map e)))
  | None => Some e
  end.

(** [ensure_on_top]: a register the map does not name is taken to be there. *)
Definition ensure_on_top (reg : Reg) : Act := fun e =>
  match e_map e !! reg with
  | Some pos =>
    let stack_top := length (e_stack e) - 1 in
    if decide (pos = stack_top) then Some e
    else if decide (pos <= stack_top) then
      let offset := stack_top - pos in
      let e := set_bc e (bc_put (e_bc e) B_DupN [U8 (as_u8 (N.of_nat offset))]) in
      let stack := e_stack e ++ [reg] in
      Some (set_sim e stack (<[reg := length stack - 1]> (e_map e)))
    else None
  | None => Some e
  end.

Definition ensure_binary_on_top (lhs rhs : Reg) : Act := fun e =>
  let stack_len := length (e_stack e) in
  if decide (2 <= stack_len /\ e_map e !! lhs = Some (stack_len - 2)
             /\ e_map e !! rhs = Some (stack_len - 1))
  then Some e
  else act_seq (ensure_on_top lhs) (ensure_on_top rhs) e.

(** The registers already sit on top, in order. *)
Definition all_in_place (e : Emitter) (regs : list Reg) : bool :=
  let base := length (e_stack e) - length regs in
  bool_decide (length regs <= length (e_stack e)) &&
  forallb (fun '(i, r) => bool_decide (e_map e !! r = Some (base + i))) (imap pair regs).

(** Bring [regs] to the top, in order, unless they are there. *)
Definition arrange (regs : list Reg) : Act := fun e =>
  if all_in_place e regs then Some e else for_each regs ensure_on_top e.

Definition live_at (e : Emitter) (target : Label) (reg : Reg) : bool :=
  match e_live e !! target with Some live => rs_contains live reg | None => false end.

(** [pop_trailing_dead_to], one round of the [while] per cell. *)
Fixpoint pop_dead_loop (n floor : nat) (target : Label) : Act := fun e =>
  match n with
  | O => Some e
  | S n =>
    if decide (floor < length (e_stack e)) then
      let top := length (e_stack e) - 1 in
      match e_stack e !! top with
      | None => None
      | Some reg =>
        if bool_decide (e_map e !! reg = Some top) || live_at e target reg then Some e
        else
          let e := set_bc e (bc_put (e_bc e) B_Pop []) in
          pop_dead_loop n floor target (set_sim e (take top (e_stack e)) (e_map e))
      end
    else Some e
  end.

Definition pop_trailing_dead_to (floor : nat) (target : Label) : Act := fun e =>
  pop_dead_loop (length (e_stack e)) floor target e.

(** [pop_to] *)
Fixpoint pop_to_loop (n floor : nat) : Act := fun e =>
  match n with
  | O => Some e
  | S n =>
    if decide (floor < length (e_stack e)) then
      let e := set_bc e (bc_put (e_bc e) B_Pop []) in
      let top := length (e_stack e) - 1 in
      match e_stack e !! top with
      | None => None
      | Some reg =>
        let m := if bool_decide (e_map e !! reg = Some top) then delete reg (e_map e) else e_map e in
        pop_to_loop n floor (set_sim e (take top (e_stack e)) m)
      end
    else Some e
  end.

Definition pop_to (floor : nat) : Act := fun e => pop_to_loop (length (e_stack e)) floor e.

(** ** Sites *)

(** [record_call_site] *)
Definition record_call_site (resume_ip : nat) (stack_regs : list Reg) (delivers : bool) : Act := fun e =>
  if e_may_suspend e then
    Some (set_calls e (e_calls e ++ [mkCall (N.of_nat resume_ip) stack_regs (e_num_locals e) delivers]))
  else Some e.

(** [record_charge_site] *)
Definition record_charge_site : Act := fun e =>
  if e_may_suspend e then
    Some (set_charges e (e_charges e ++
      [mkCharge (N.of_nat (current_pos (e_bc e))) (e_stack e) (e_num_locals e)]))
  else Some e.

(** [emit_jump]: a jump to a block already emitted charges fuel. *)
Definition emit_jump (label : Label) : Act := fun e =>
  e ← (match e_labels e !! label with Some _ => record_charge_site e | None => Some e end);
  let pos := S (current_pos (e_bc e)) in
  let e := set_bc e (bc_put (e_bc e) B_Jump [I32 0]) in
  Some (set_pending e (e_pending e ++ [(pos, label)])).

(** ** Closures *)

Variable arena_write : Arena -> LirOwned -> nat -> ClosureCompiled -> Value * Arena.

(** [lambda_header]: the payload is written the first time a [MakeClosure]
    names it; a missing context, or an id past its tables, panics. *)
Definition lambda_header (id : ClosureId) (num_captures : nat) (e : Emitter) : option (Value * Emitter) :=
  match e_headers e !! id with
  | Some header => Some (header, e)
  | None =>
    cs ← e_compiled e; compiled ← cs !! N.to_nat id;
    fs ← e_funcs e; func ← fs !! N.to_nat id;
    let '(header, arena) := arena_write (e_arena e) func num_captures compiled in
    Some (header, set_arena e arena (<[id := header]> (e_headers e)))
  end.
End Emitter.

Arguments Emitter : clear implicits.
Arguments Act : clear implicits.

Declare Scope act_scope.
Delimit Scope act_scope with act.
Notation "f ;; g" := (act_seq f g) (at level 100, g at level 200, right associativity) : act_scope.
