(* ===== verification/Emit.v ===== *)
(** * The emitter: instructions, edges, blocks, functions

    [lir/emit/instr.rs] and [lir/emit/instr/]: what each instruction writes
    and does to the simulated stack.  [lir/emit/edge.rs]: how a block exits
    and what each edge owes the operand stack.  [lir/emit/mod.rs]: a block, a
    function with its jumps patched, a module. *)

From stdpp Require Import base numbers option list gmap.
From S2P Require Import Prelude SignalBits Signal LirRecord LirInstr LirCodec LirBuild LirView LirSpec Bytes Files Live Bytecode EmitStack.

Section Emit.
Context {Arena : Type}.
Variable heap_eq : Value -> Value -> bool.
Variable arena_write : Arena -> LirOwned -> nat -> ClosureCompiled -> Value * Arena.

Local Open Scope act_scope.

Abbreviation Act := (EmitStack.Act Arena) (only parsing).

(** [add_constant] through [self.bytecode], then the rest with its index. *)
Definition with_const (v : Value) (k : N -> Act) : Act := fun e =>
  '(idx, bc) ← add_constant heap_eq (e_bc e) v; k idx (set_bc e bc).

Fixpoint with_consts (vs : list Value) (k : list N -> Act) : Act :=
  match vs with
  | [] => k []
  | v :: vs => with_const v (fun idx => with_consts vs (fun idxs => k (idx :: idxs)))
  end.

(** A read of [self] between two statements. *)
Definition at_pos (k : nat -> Act) : Act := fun e => k (current_pos (e_bc e)) e.
Definition with_stack (k : list Reg -> Act) : Act := fun e => k (e_stack e) e.
Definition panics : Act := fun _ => None.

Definition region_op (r : StaticRegion) : Operand := U32 (StaticRegion_get r).
Definition len_u16 {A} (l : list A) : N := as_u16 (N.of_nat (length l)).
Definition len_u8 {A} (l : list A) : N := as_u8 (N.of_nat (length l)).

(** One operand consumed, one result. *)
Definition unary_op (src : Reg) (i : Instruction) (os : list Operand) (dst : Reg) : Act :=
  ensure_on_top src ;; put i os ;; pop ;; push_reg dst.

(** Two operands consumed, one result. *)
Definition binary_op (lhs rhs : Reg) (i : Instruction) (dst : Reg) : Act :=
  ensure_binary_on_top lhs rhs ;; put i [] ;; pop ;; pop ;; push_reg dst.

(** [CaptureMask::is_set] *)
Definition mask_is_set (words : list N) (i : N) : bool :=
  match words !! N.to_nat (i / 64) with
  | Some w => negb (N.land w (N.shiftl 1 (i mod 64)) =? 0)%N
  | None => false
  end.

(** [non_cell_local_slot]: the [u16] sum and difference wrap. *)
Definition non_cell_local_slot (index : N) (h : Head) : option N :=
  let locals_start := as_u16 (hd_num_captures h + as_u16 (hd_num_params h)) in
  if (locals_start <=? index)%N then
    if mask_is_set (hd_capture_locals h) (index - locals_start) then None
    else Some (as_u16 (index + 2 ^ 16 - hd_num_captures h))
  else None.

(** [emit_const] *)
Definition emit_const (c : ConstRef) : Act :=
  match c with
  | C_Nil => put B_Nil []
  | C_EmptyList => put B_EmptyList []
  | C_Bool true => put B_True []
  | C_Bool false => put B_False []
  | C_Int n => with_const (V_int n) (fun idx => put B_LoadConst [U16 idx])
  | C_Float f => with_const (V_float f) (fun idx => put B_LoadConst [U16 idx])
  | C_Symbol s => with_const (V_symbol s) (fun idx => put B_LoadConst [U16 idx])
  | C_Keyword k => with_const (V_keyword k) (fun idx => put B_LoadConst [U16 idx])
  end.

(** [struct_key] *)
Definition struct_key (key : ConstRef) : option Value :=
  match key with
  | C_Keyword hash => Some (V_keyword hash)
  | C_Int n => Some (V_int n)
  | C_Symbol sym => Some (V_symbol sym)
  | C_Bool b => Some (V_bool b)
  | C_Nil => Some V_NIL
  | _ => None
  end.

(** The excluded keys of a [StructRest]. *)
Definition rest_key (key : ConstRef) : option Value :=
  match key with
  | C_Keyword hash => Some (V_keyword hash)
  | C_Symbol sid => Some (V_symbol sid)
  | _ => None
  end.

Definition struct_get (src : Reg) (key : ConstRef) (i : Instruction) (dst : Reg) : Act :=
  ensure_on_top src ;;
  match struct_key key with
  | Some v => with_const v (fun idx => put i [U16 idx] ;; pop ;; push_reg dst)
  | None => panics
  end.

(** *** Calls *)

Definition pop_n (n : nat) : Act := for_each (seq 0 n) (fun _ => pop).

Definition emit_call (dst func : Reg) (args : list Reg) (arity_checked : bool)
    (region : StaticRegion) : Act :=
  arrange (args ++ [func]) ;;
  record_charge_site ;;
  put (if arity_checked then B_CallChecked else B_Call) [U16 (len_u16 args); region_op region] ;;
  at_pos (fun call_resume_ip =>
    pop ;; pop_n (length args) ;;
    with_stack (fun stack => record_call_site call_resume_ip stack true) ;;
    push_reg dst).

(** The borrowed-argument slots past the 255th are dropped. *)
Definition emit_tail_call (func : Reg) (args : list Reg) (arity_checked : bool)
    (region : StaticRegion) (defer_callee_release : bool)
    (deferred_release_slot : option StaticRegion) (borrowed : list N) : Act :=
  arrange (args ++ [func]) ;;
  record_charge_site ;;
  (let slots := take 255 (slots_iter borrowed) in
   put (if arity_checked then B_TailCallChecked else B_TailCall)
     ([U16 (len_u16 args); region_op region; U8 (N.b2n defer_callee_release);
       U32 (from_option StaticRegion_get 0%N deferred_release_slot); U8 (len_u8 slots)]
      ++ (U16 <$> slots))) ;;
  with_stack (fun stack =>
    if decide (length args + 1 <= length stack) then
      at_pos (fun pos => record_call_site pos (take (length stack - (length args + 1)) stack) true)
    else panics).

Definition emit_make_closure (dst : Reg) (closure_id : ClosureId) (captures : list Reg)
    (region : StaticRegion) : Act :=
  arrange captures ;;
  (fun e =>
    '(header, e) ← lambda_header arena_write closure_id (length captures) e;
    let proto_idx := as_u16 (N.of_nat (length (children (e_bc e)))) in
    let e := set_bc e (set_children (e_bc e) (children (e_bc e) ++ [header])) in
    put B_MakeClosure [region_op region; U16 proto_idx; U16 (len_u16 captures)] e) ;;
  pop_n (length captures) ;;
  push_reg dst.

(** *** The dispatch *)

Definition binop_instr (op : BinOp) (int_proven : bool) : Instruction :=
  match op with
  | Add => if int_proven then B_AddInt else B_Add
  | Sub => if int_proven then B_SubInt else B_Sub
  | Mul => if int_proven then B_MulInt else B_Mul
  | Div => if int_proven then B_DivInt else B_Div
  | Rem => B_Rem
  | BitAnd => B_BitAnd | BitOr => B_BitOr | BitXor => B_BitXor
  | Shl => B_Shl | Shr => B_Shr
  end.

Definition compare_instr (op : CmpOp) : Instruction :=
  match op with
  | CmpEq => B_Eq | CmpLt => B_Lt | CmpGt => B_Gt | CmpLe => B_Le | CmpGe => B_Ge
  | CmpNe => B_Eq
  end.

(** [emit_instr_intrinsics] *)
Definition emit_instr_intrinsics (i : InstrRef) : Act :=
  match i with
  | I_IsEmpty dst src => unary_op src B_IsEmptyList [] dst
  | I_IsBool dst src => unary_op src B_IsBool [] dst
  | I_IsInt dst src => unary_op src B_IsInt [] dst
  | I_IsFloat dst src => unary_op src B_IsFloat [] dst
  | I_IsString dst src => unary_op src B_IsString [] dst
  | I_IsKeyword dst src => unary_op src B_IsKeyword [] dst
  | I_IsSymbolCheck dst src => unary_op src B_IsSymbol [] dst
  | I_IsBytes dst src => unary_op src B_IsBytes [] dst
  | I_IsBox dst src => unary_op src B_IsBox [] dst
  | I_IsClosure dst src => unary_op src B_IsClosure [] dst
  | I_IsFiber dst src => unary_op src B_IsFiber [] dst
  | I_TypeOf dst src => unary_op src B_TypeOf [] dst
  | I_Length dst src => unary_op src B_Length [] dst
  | I_Get dst obj key => binary_op obj key B_IntrGet dst
  | I_Put dst obj key val =>
    ensure_on_top obj ;; ensure_on_top key ;; ensure_on_top val ;;
    put B_IntrPut [] ;; pop ;; pop ;; pop ;; push_reg dst
  | I_Del dst obj key => binary_op obj key B_IntrDel dst
  | I_Has dst obj key => binary_op obj key B_IntrHas dst
  | I_IntrPush dst array value => binary_op array value B_IntrPush dst
  | I_IntrStringPush dst string value => binary_op string value B_IntrStringPush dst
  | I_IntrBytesPush dst bytes value => binary_op bytes value B_IntrBytesPush dst
  | I_Pop dst src => unary_op src B_IntrPop [] dst
  | I_Freeze dst src region => unary_op src B_IntrFreeze [region_op region] dst
  | I_Thaw dst src region => unary_op src B_IntrThaw [region_op region] dst
  | I_Identical dst lhs rhs => binary_op lhs rhs B_Identical dst
  | I_CheckSignalBound src allowed_bits =>
    ensure_on_top src ;; put B_CheckSignalBound [U64 (raw allowed_bits)] ;; pop
  | _ => panics
  end.

(** [emit_instr_ops] *)
Definition emit_instr_ops (i : InstrRef) : Act :=
  match i with
  | I_BinOp dst op lhs rhs proof =>
    ensure_binary_on_top lhs rhs ;; put (binop_instr op (proof_is_int proof)) [] ;;
    pop ;; pop ;; push_reg dst
  | I_Compare dst op lhs rhs _ =>
    ensure_binary_on_top lhs rhs ;; put (compare_instr op) [] ;;
    (match op with CmpNe => put B_Not [] | _ => act_skip end) ;;
    pop ;; pop ;; push_reg dst
  | I_UnaryOp dst op src _ =>
    ensure_on_top src ;;
    (match op with
     | Not => put B_Not []
     | Neg => with_const (V_int (-1)) (fun neg1_idx => put B_LoadConst [U16 neg1_idx] ;; put B_Mul [])
     | BitNot => put B_BitNot []
     end) ;;
    pop ;; push_reg dst
  | I_Convert dst op src =>
    unary_op src (match op with IntToFloat => B_IntToFloat | FloatToInt => B_FloatToInt end) [] dst
  | I_IsNil dst src => unary_op src B_IsNil [] dst
  | I_IsPair dst src => unary_op src B_IsPair [] dst
  | I_IsArray dst src => unary_op src B_IsArray [] dst
  | I_IsArrayMut dst src => unary_op src B_IsArrayMut [] dst
  | I_IsStruct dst src => unary_op src B_IsStruct [] dst
  | I_IsStructMut dst src => unary_op src B_IsStructMut [] dst
  | I_IsSet dst src => unary_op src B_IsSet [] dst
  | I_IsSetMut dst src => unary_op src B_IsSetMut [] dst
  | I_ArrayMutLen dst src => unary_op src B_ArrayMutLen [] dst
  | I_MakeCaptureCell dst value region name mutated =>
    unary_op value B_MakeCapture [region_op region; U8 (N.b2n mutated); U64 name] dst
  | I_LoadCaptureCell dst cell => unary_op cell B_UnwrapCapture [] dst
  | I_StoreCaptureCell cell value =>
    ensure_on_top cell ;; ensure_on_top value ;; put B_UpdateCapture [] ;;
    pop ;; pop ;; push_reg value
  | I_LoadResumeValue dst => push_reg dst
  | I_Eval dst expr env =>
    ensure_on_top env ;; ensure_on_top expr ;; put B_Eval [] ;; pop ;; pop ;; push_reg dst
  | I_ArrayMutExtend dst array source => binary_op array source B_ArrayMutExtend dst
  | I_ArrayMutPush dst array value => binary_op array value B_ArrayMutPush dst
  | I_CallArrayMut dst func args region args_region =>
    ensure_binary_on_top func args ;; record_charge_site ;;
    put B_CallArrayMut [region_op region; region_op args_region] ;;
    at_pos (fun call_resume_ip =>
      pop ;; pop ;;
      with_stack (fun stack => record_call_site call_resume_ip stack true) ;;
      push_reg dst)
  | I_TailCallArrayMut func args region args_region =>
    ensure_binary_on_top func args ;; record_charge_site ;;
    put B_TailCallArrayMut [region_op region; region_op args_region] ;; pop ;; pop
  | I_IncrefRegion region_id => put B_IncrefRegion [region_op region_id]
  | I_DecrefValueRegion src => ensure_on_top src ;; put B_DecrefValueRegion [] ;; pop
  | I_DecrefCellRegion src => ensure_on_top src ;; put B_DecrefCellRegion [] ;; pop
  | I_IncrefValueRegion src => ensure_on_top src ;; put B_IncrefValueRegion []
  | I_AdoptRegion parent child =>
    ensure_binary_on_top parent child ;; put B_AdoptRegion [] ;; pop ;; pop
  | I_AdoptCellRegion parent child =>
    ensure_binary_on_top parent child ;; put B_AdoptCellRegion [] ;; pop ;; pop
  | I_AdoptIntoActivation child => ensure_on_top child ;; put B_AdoptIntoActivation [] ;; pop
  | I_FreeRegionGroup members =>
    for_each members ensure_on_top ;; put B_FreeRegionGroup [U8 (len_u8 members)] ;;
    pop_n (length members)
  | I_AssertRegionMatches region_id src =>
    ensure_on_top src ;; put B_AssertRegionMatches [region_op region_id]
  | I_DecrefRegion region_id => put B_DecrefRegion [region_op region_id]
  | I_PushParamFrame pairs =>
    for_each pairs ensure_on_top ;;
    put B_PushParamFrame [U8 (as_u8 (N.of_nat (length pairs / 2)))] ;;
    pop_n (length pairs)
  | I_PopParamFrame => put B_PopParamFrame []
  | _ => emit_instr_intrinsics i
  end.

(** [emit_instr_destructure] *)
Definition emit_instr_destructure (i : InstrRef) : Act :=
  match i with
  | I_First dst pr => unary_op pr B_First [] dst
  | I_Rest dst pr => unary_op pr B_Rest [] dst
  | I_MatchFail dst src => unary_op src B_MatchFail [] dst
  | I_FirstDestructure dst src => unary_op src B_FirstDestructure [] dst
  | I_RestDestructure dst src => unary_op src B_RestDestructure [] dst
  | I_ArrayMutRefDestructure dst src index => unary_op src B_ArrayMutRefDestructure [U16 index] dst
  | I_ArrayMutSliceFrom dst src index => unary_op src B_ArrayMutSliceFrom [U16 index] dst
  | I_StructGetOrNil dst src key => struct_get src key B_StructGetOrNil dst
  | I_StructGetDestructure dst src key => struct_get src key B_StructGetDestructure dst
  | I_StructRest dst src exclude_keys =>
    ensure_on_top src ;;
    match const_list_iter exclude_keys ≫= mapM rest_key with
    | Some vs => with_consts vs (fun idxs =>
        put B_StructRest (U16 (len_u16 exclude_keys) :: (U16 <$> idxs)) ;; pop ;; push_reg dst)
    | None => panics
    end
  | I_FirstOrNil dst src => unary_op src B_FirstOrNil [] dst
  | I_RestOrNil dst src => unary_op src B_RestOrNil [] dst
  | I_ArrayMutRefOrNil dst src index => unary_op src B_ArrayMutRefOrNil [U16 index] dst
  | _ => emit_instr_ops i
  end.

(** [emit_instr] *)
Definition emit_instr (i : InstrRef) (h : Head) : Act :=
  match i with
  | I_Const dst value => emit_const value ;; push_reg dst
  | I_ValueConst dst value =>
    with_const value (fun const_idx => put B_LoadConst [U16 const_idx] ;; push_reg dst)
  | I_MaterializeConst dst template region =>
    put B_MaterializeConst [region_op region; U32 (len_u32 template); Raw template] ;; push_reg dst
  | I_LoadLocal dst slot => put B_LoadLocal [U16 slot] ;; push_reg dst
  | I_StoreLocal slot src | I_StoreLocalRefcounted slot src =>
    ensure_on_top src ;; put B_StoreLocal [U16 slot] ;; put B_Pop [] ;; pop
  | I_LoadCapture dst index =>
    (match non_cell_local_slot index h with
     | Some stack_slot => put B_LoadLocal [U16 stack_slot]
     | None => put B_LoadUpvalue [U8 0; U16 index]
     end) ;; push_reg dst
  | I_LoadCaptureRaw dst index => put B_LoadUpvalueRaw [U8 0; U16 index] ;; push_reg dst
  | I_LoadSelf dst => put B_LoadSelf [] ;; push_reg dst
  | I_StoreCapture index src =>
    ensure_on_top src ;;
    (match non_cell_local_slot index h with
     | Some stack_slot => put B_StoreLocal [U16 stack_slot]
     | None => put B_StoreUpvalue [U8 0; U16 index]
     end) ;; put B_Pop [] ;; pop
  | I_MakeClosure dst closure_id captures region => emit_make_closure dst closure_id captures region
  | I_Call dst func args arity_checked region
  | I_SuspendingCall dst func args arity_checked region => emit_call dst func args arity_checked region
  | I_TailCall _ func args arity_checked region defer slot borrowed =>
    emit_tail_call func args arity_checked region defer slot borrowed
  | I_List dst head tail region =>
    ensure_on_top head ;; ensure_on_top tail ;; put B_Pair [region_op region] ;;
    pop ;; pop ;; push_reg dst
  | I_MakeArrayMut dst elements region =>
    for_each elements ensure_on_top ;; put B_MakeArrayMut [region_op region; U8 (len_u8 elements)] ;;
    pop_n (length elements) ;; push_reg dst
  | _ => emit_instr_destructure i
  end.

(** ** Edges *)

(** [edge_depth] *)
Definition edge_depth (e : Emitter Arena) (label : Label) : option nat :=
  match e_saved e !! label with
  | Some (stack, _) => Some (length stack)
  | None => e_depth e !! label
  end.

(** [trim_for_edge] *)
Definition trim_for_edge (label : Label) : Act := fun e =>
  match e_depth e !! label with
  | Some floor => pop_to floor e
  | None => pop_trailing_dead_to (default 0 (edge_depth e label)) label e
  end.

(** [record_branch_edge] *)
Definition record_branch_edge (label : Label) : Act := fun e =>
  match e_labels e !! label with
  | Some _ => Some e
  | None => Some (set_saved e (<[label := (e_stack e, e_map e)]> (e_saved e)))
  end.

(** The [entry(..).or_insert_with] of a jump: the first saved state stays. *)
Definition save_first (label : Label) : Act := fun e =>
  match e_labels e !! label, e_saved e !! label with
  | None, None => Some (set_saved e (<[label := (e_stack e, e_map e)]> (e_saved e)))
  | _, _ => Some e
  end.

Definition patch (pos : nat) (offset : Z) : Act := fun e =>
  bc ← patch_jump (e_bc e) pos offset; Some (set_bc e bc).

(** [emit_terminator] *)
Definition emit_terminator (t : Terminator) : Act :=
  match t with
  | Return reg => ensure_on_top reg ;; put B_Return []
  | Jump label => trim_for_edge label ;; save_first label ;; emit_jump label
  | Branch cond then_label else_label =>
    ensure_on_top cond ;; pop ;;
    (fun e =>
      let '(stack, reg_to_stack) := (e_stack e, e_map e) in
      let else_pos := S (current_pos (e_bc e)) in
      (put B_JumpIfFalse [I32 0] ;;
       trim_for_edge then_label ;; record_branch_edge then_label ;; emit_jump then_label ;;
       (fun e => Some (set_sim e stack reg_to_stack)) ;;
       at_pos (fun pad =>
         trim_for_edge else_label ;; record_branch_edge else_label ;;
         at_pos (fun pos =>
           if decide (pos = pad)
           then fun e => Some (set_pending e (e_pending e ++ [(else_pos, else_label)]))
           else patch else_pos (Z.of_nat pad - Z.of_nat else_pos - 4) ;; emit_jump else_label))) e)
  | Emit signal value resume_label =>
    ensure_on_top value ;; put B_Emit [U64 (raw signal)] ;; pop ;;
    (fun e => Some (set_saved (set_yields e (e_yields e ++
        [mkYield (N.of_nat (current_pos (e_bc e))) (e_stack e) (e_num_locals e)]))
      (<[resume_label := (e_stack e, e_map e)]> (e_saved e)))) ;;
    emit_jump resume_label
  | Unreachable => put B_Nil [] ;; put B_Return []
  end.

(** ** Blocks and functions *)

Variable F : Files.

Definition locate (s : Span) : Act := fun e => Some (set_bc e (record_location F (e_bc e) s)).

(** The simulation a block starts from, and its recorded depth. *)
Definition enter_block (label : Label) : Act := fun e =>
  let e := match e_saved e !! label with
           | Some (stack, m) => set_sim (set_saved e (delete label (e_saved e))) stack m
           | None => set_sim e [] ∅
           end in
  Some (set_depth e (<[label := length (e_stack e)]> (e_depth e))).

(** The instructions of a block, each with the park site of one that may raise. *)
Definition emit_located (h : Head) (x : InstrRef * Span) : Act :=
  let '(i, s) := x in
  locate s ;; emit_instr i h ;;
  if may_raise i then
    fun e =>
      let delivers := raise_delivers i in
      let stack_regs := if delivers then take (length (e_stack e) - 1) (e_stack e) else e_stack e in
      record_call_site (current_pos (e_bc e)) stack_regs delivers e
  else act_skip.

(** [emit_block], over a block as its nodes read. *)
Definition emit_block (h : Head) (b : ABlock) : Act :=
  enter_block (a_label b) ;;
  (if (a_label b =? hd_entry h)%N then
     for_each (seq 0 (N.to_nat (hd_num_locals h))) (fun _ => put B_Nil [])
   else act_skip) ;;
  for_each (a_code b) (emit_located h) ;;
  locate (a_span b) ;;
  emit_terminator (a_exit b).

Definition place_block (h : Head) (b : ABlock) : Act :=
  (fun e => Some (set_labels e (<[a_label b := current_pos (e_bc e)]> (e_labels e)))) ;;
  emit_block h b.

(** The jumps, patched to where their labels were placed. *)
Definition patch_pending (e : Emitter Arena) : option (Emitter Arena) :=
  for_each (e_pending e) (fun '(pos, label) => fun e =>
    match e_labels e !! label with
    | Some target => patch pos (Z.of_nat target - Z.of_nat pos - 4) e
    | None => Some e
    end) e.

(** The state [emit] starts from, the arena, closures and headers kept. *)
Definition reset (v : LirView) (live : gmap Label RegSet) (e : Emitter Arena) : Emitter Arena :=
  let h := v_head v in
  mkEmitter Bytecode_new ∅ [] [] ∅ ∅ ∅ live [] [] []
    (may_suspend (hd_signal h)) (hd_num_locals h)
    (e_compiled e) (e_funcs e) (e_arena e) (e_headers e).

(** [emit]: the result, and the emitter with its buffers taken. *)
Definition emit (v : LirView) (e : Emitter Arena) : option (ClosureCompiled * Emitter Arena) :=
  live ← live_in v;
  bs ← read_back v;
  e ← for_each bs (place_block (v_head v)) (reset v live e);
  e ← patch_pending e;
  let h := v_head v in
  let bc := set_tables (e_bc e) (StaticRegion_get <$> hd_merged_slots h)
              (hd_frame_release_slots h) (StaticRegion_get <$> hd_frame_release_regions h) in
  Some (mkCompiled bc (e_yields e) (e_calls e) (e_charges e),
        set_charges (set_calls (set_yields (set_bc e Bytecode_new) []) []) []).

(** *** Modules *)

Record FrozenModule := mkModule { m_entry : LirOwned; m_closures : list LirOwned }.

(** [compile_closures]: last closure first, so a parent finds its children. *)
Definition compile_closures (m : FrozenModule) (e : Emitter Arena) : option (Emitter Arena) :=
  let n := length (m_closures m) in
  let e := set_unit e (e_compiled e) (Some (m_closures m)) ∅ in
  let step i (acc : option (Emitter Arena * list ClosureCompiled)) :=
    '(e, compiled) ← acc;
    let e := set_unit e (Some compiled) (e_funcs e) (e_headers e) in
    f ← m_closures m !! i;
    '(result, e) ← emit (view f) e;
    Some (e, <[i := result]> compiled) in
  '(e, compiled) ← foldr step (Some (e, replicate n ClosureCompiled_default)) (seq 0 n);
  Some (set_unit e (Some compiled) (e_funcs e) (e_headers e)).

(** [emit_module] *)
Definition emit_module (m : FrozenModule) (e : Emitter Arena) : option (ClosureCompiled * Emitter Arena) :=
  e ← compile_closures m e;
  '(result, e) ← emit (view (m_entry m)) e;
  Some (result, set_unit e None None (e_headers e)).
End Emit.
