(* ===== verification/Disasm.v ===== *)
(** * Reading bytecode: the interpreter and the disassembler

    [vm/dispatch/interp/opcodes.rs] and the handlers it routes to: the
    operands each opcode's handler reads off the code, as a list of widths
    ([layout]) and, for the three opcodes with a tail, what follows it
    ([fetch]).  [compiler/bytecode/disasm.rs]: the walk of the disassembler,
    with its own operand table and its own bounds tests.

    A line of the listing is kept as its offset, opcode and operands; the text
    printed from them is not modelled. *)

From stdpp Require Import base numbers option list gmap.
From S2P Require Import Prelude LirRecord Bytes Files Template Bytecode.

(** ** What the interpreter reads *)

(** The operands every handler reads in a fixed order. *)
Definition layout (i : Instruction) : list Width :=
  match i with
  | B_LoadConst | B_LoadLocal | B_StoreLocal => [W16]
  | B_LoadUpvalue | B_LoadUpvalueRaw | B_StoreUpvalue => [W8; W16]
  | B_DupN => [W8]
  | B_Jump | B_JumpIfFalse | B_JumpIfTrue => [WI32]
  | B_Call | B_CallChecked => [W16; WRegion]
  | B_TailCall | B_TailCallChecked => [W16; WRegion; W8; W32; W8]
  | B_MakeClosure => [WRegion; W16; W16]
  | B_Pair | B_IntrFreeze | B_IntrThaw => [WRegion]
  | B_MakeArrayMut => [WRegion; W8]
  | B_MaterializeConst => [WRegion; W32]
  | B_ArrayMutRefDestructure | B_ArrayMutSliceFrom | B_ArrayMutRefOrNil => [W16]
  | B_StructGetOrNil | B_StructGetDestructure => [W16]
  | B_StructRest => [W16]
  | B_MakeCapture => [WRegion; W8; W64]
  | B_Emit | B_CheckSignalBound => [W64]
  | B_CallArrayMut | B_TailCallArrayMut => [WRegion; WRegion]
  | B_IncrefRegion | B_DecrefRegion | B_AssertRegionMatches => [WRegion]
  | B_FreeRegionGroup | B_PushParamFrame => [W8]
  | _ => []
  end.

(** [for _ in 0..count { read_u16 }] *)
Fixpoint read_u16s (count : nat) (bc : list N) (ip : nat) : option (list Operand * nat) :=
  match count with
  | O => Some ([], ip)
  | S count =>
    '(o, ip) ← read_width W16 bc ip; '(os, ip) ← read_u16s count bc ip; Some (o :: os, ip)
  end.

(** The template of a [MaterializeConst], read by its own decoder: the bytes
    it takes and the [ip] behind them. *)
Definition read_template (F : Files) (bc : list N) (ip : nat) : option (list Operand * nat) :=
  let rest := drop ip bc in
  match decode (decode_fuel rest) F rest with
  | Done (_, _, after) =>
    let n := length rest - length after in Some ([Raw (take n rest)], ip + n)
  | _ => None
  end.

(** The operands behind the opcode byte, and the next instruction's offset. *)
Definition fetch_operands (F : Files) (i : Instruction) (bc : list N) (ip : nat)
    : option (list Operand * nat) :=
  '(os, ip) ← read_widths (layout i) bc ip;
  match i, os with
  | (B_TailCall | B_TailCallChecked), [_; _; _; _; U8 count] =>
    '(slots, ip) ← read_u16s (N.to_nat count) bc ip; Some (os ++ slots, ip)
  | B_StructRest, [U16 count] =>
    '(keys, ip) ← read_u16s (N.to_nat count) bc ip; Some (os ++ keys, ip)
  | B_MaterializeConst, _ =>
    '(t, ip) ← read_template F bc ip; Some (os ++ t, ip)
  | _, _ => Some (os, ip)
  end.

(** One turn of the interpreter's decode: an end of code or an unknown opcode
    panics. *)
Definition fetch (F : Files) (bc : list N) (ip : nat) : option (Instruction * list Operand * nat) :=
  byte ← bc !! ip;
  i ← instr_from_byte byte;
  '(os, ip) ← fetch_operands F i bc (S ip);
  Some (i, os, ip).

(** ** What the disassembler reads *)

(** The operands of the arm for an opcode.  The arm's test is that all of them
    lie inside the code; where it fails the opcode prints bare. *)
Definition dis_layout (i : Instruction) : list Width :=
  match i with
  | B_LoadConst => [W16]
  | B_Jump | B_JumpIfFalse | B_JumpIfTrue => [WI32]
  | B_LoadLocal | B_StoreLocal => [W16]
  | B_LoadUpvalue | B_LoadUpvalueRaw | B_StoreUpvalue => [W8; W16]
  | B_Call | B_CallChecked => [W16; W32]
  | B_TailCall | B_TailCallChecked => [W16; W32; W8; W32; W8]
  | B_DupN => [W8]
  | B_MakeClosure => [W32; W16; W16]
  | B_ArrayMutRefDestructure | B_ArrayMutSliceFrom | B_ArrayMutRefOrNil => [W16]
  | B_StructGetOrNil | B_StructGetDestructure => [W16]
  | B_StructRest => [W16]
  | B_CallArrayMut | B_TailCallArrayMut => [W32; W32]
  | B_IncrefRegion | B_DecrefRegion | B_AssertRegionMatches => [W32]
  | B_Emit | B_CheckSignalBound => [W64]
  | B_PushParamFrame | B_FreeRegionGroup => [W8]
  | B_Pair => [W32]
  | B_MakeCapture => [W32; W8; W64]
  | B_IntrFreeze | B_IntrThaw => [W32]
  | B_MakeArrayMut => [W32; W8]
  | B_MaterializeConst => [W32; W32]
  | _ => []
  end.

Inductive Line :=
| L_Unknown (offset : nat) (byte : N)
| L_Instr (offset : nat) (i : Instruction) (os : list Operand).

(** The keys of a [StructRest], as many as the code still holds. *)
Fixpoint dis_keys (count : nat) (bc : list N) (i : nat) : list Operand * nat :=
  match count with
  | O => ([], i)
  | S count =>
    match read_width W16 bc i with
    | Some (o, i) => let '(os, i) := dis_keys count bc i in (o :: os, i)
    | None => dis_keys count bc i
    end
  end.

(** The body of one arm: the operands it prints and where it leaves [i].  The
    borrowed slots of a tail call and a template's bytes are skipped unread. *)
Definition dis_operands (op : Instruction) (bc : list N) (i : nat) : list Operand * nat :=
  match read_widths (dis_layout op) bc i with
  | None => ([], i)
  | Some (os, i) =>
    match op, os with
    | (B_TailCall | B_TailCallChecked), [_; _; _; _; U8 borrowed] => (os, i + N.to_nat borrowed * 2)
    | B_StructRest, [U16 count] =>
      let '(keys, i) := dis_keys (N.to_nat count) bc i in (os ++ keys, i)
    | B_MaterializeConst, [_; U32 len] => (os, Nat.min (i + N.to_nat len) (length bc))
    | _, _ => (os, i)
    end
  end.

(** [disassemble_lines]: every round moves past at least one byte. *)
Fixpoint dis_loop (fuel : nat) (bc : list N) (i : nat) : list Line :=
  match fuel with
  | O => []
  | S fuel =>
    match bc !! i with
    | None => []
    | Some byte =>
      match instr_from_byte byte with
      | None => L_Unknown i byte :: dis_loop fuel bc (S i)
      | Some op =>
        let '(os, next) := dis_operands op bc (S i) in
        L_Instr i op os :: dis_loop fuel bc next
      end
    end
  end.

Definition disassemble_lines (bc : list N) : list Line := dis_loop (length bc) bc 0.

(** ** Instructions as written *)

Definition width_fits (w : Width) (o : Operand) : Prop :=
  match w, o with
  | W8, U8 x => (x < 2 ^ 8)%N
  | W16, U16 x => (x < 2 ^ 16)%N
  | W32, U32 x => (x < 2 ^ 32)%N
  | W64, U64 x => (x < 2 ^ 64)%N
  | WI32, I32 z => (- 2 ^ 31 <= z < 2 ^ 31)%Z
  | WRegion, U32 x => (0 < x < 2 ^ 32)%N
  | _, _ => False
  end.

Definition widths_fit (ws : list Width) (os : list Operand) : Prop := Forall2 width_fits ws os.

(** The operands an opcode is written with, so that every reader takes them
    for what they are. *)
Definition shaped (F : Files) (i : Instruction) (os : list Operand) : Prop :=
  match i with
  | B_TailCall | B_TailCallChecked => exists a b c d slots,
    os = [a; b; c; d; U8 (N.of_nat (length slots))] ++ (U16 <$> slots) /\
    widths_fit (layout i) [a; b; c; d; U8 (N.of_nat (length slots))] /\
    Forall (fun x => x < 2 ^ 16)%N slots
  | B_StructRest => exists keys,
    os = U16 (N.of_nat (length keys)) :: (U16 <$> keys) /\
    (N.of_nat (length keys) < 2 ^ 16)%N /\ Forall (fun x => x < 2 ^ 16)%N keys
  | B_MaterializeConst => exists r t,
    os = [r; U32 (N.of_nat (length (encode F t))); Raw (encode F t)] /\
    width_fits WRegion r /\ (N.of_nat (length (encode F t)) < 2 ^ 32)%N /\ typed F t
  | _ => widths_fit (layout i) os
  end.

(** The bytes of one instruction, and of a run of them. *)
Definition code_of (x : Instruction * list Operand) : list N :=
  instr_byte x.1 :: concat (operand_bytes <$> x.2).

Definition codes (l : list (Instruction * list Operand)) : list N := concat (code_of <$> l).

(** Where each instruction of a run starts, from [at_]. *)
Fixpoint offsets (at_ : nat) (l : list (Instruction * list Operand)) : list nat :=
  match l with
  | [] => []
  | x :: l => at_ :: offsets (at_ + length (code_of x)) l
  end.

(** The operands the disassembler shows of an instruction. *)
Definition shown (i : Instruction) (os : list Operand) : list Operand :=
  match i with
  | B_TailCall | B_TailCallChecked => take 5 os
  | B_MaterializeConst => take 2 os
  | _ => os
  end.
