(* ===== verification/DisasmProps.v ===== *)
(** * The readers agree

    The interpreter and the disassembler both find exactly the instructions
    that were written: same starts, same opcodes, same operands. *)

From stdpp Require Import base numbers option list gmap.
From S2P Require Import Prelude LirRecord Bytes Files Template TemplateProps Bytecode Disasm.

(** ** Opcode bytes *)

Lemma instr_from_byte_byte i : instr_from_byte (instr_byte i) = Some i.
Proof. by destruct i. Qed.

Lemma instr_byte_inj i j : instr_byte i = instr_byte j -> i = j.
Proof. intros H. pose proof (instr_from_byte_byte i) as E. rewrite H, instr_from_byte_byte in E. congruence. Qed.

Lemma instr_byte_is_byte i : is_byte (instr_byte i).
Proof. by destruct i. Qed.

Lemma instr_from_byte_Some b i : instr_from_byte b = Some i -> b = instr_byte i.
Proof.
  intros H. assert (Hlt : (N.to_nat b < length Instruction_ALL)%nat) by (by eapply lookup_lt_Some).
  unfold instr_from_byte in H. rewrite <- (N2Nat.id b). revert H Hlt. generalize (N.to_nat b). intros n H Hlt.
  cbn in Hlt. do 122 (destruct n as [|n]; [injection H as <-; reflexivity|]). lia.
Qed.

(** ** Operands *)

Lemma read_n_at n pre l post :
  length l = n -> read_n n (pre ++ l ++ post) (length pre) = Some (be_val l, length pre + n).
Proof. intros Hl. unfold read_n. rewrite drop_app_length. by rewrite take_n_app. Qed.

Lemma i32_roundtrip z : (- 2 ^ 31 <= z < 2 ^ 31)%Z -> u32_as_i32 (i32_as_u32 z) = z.
Proof.
  intros [Hl Hh]. unfold u32_as_i32, i32_as_u32. cbv zeta.
  pose proof (Z.mod_pos_bound z (2 ^ 32) eq_refl) as Hb. rewrite Z2N.id by lia.
  destruct (decide (0 <= z)%Z).
  - rewrite Z.mod_small by lia. destruct (Z.ltb_spec z (2 ^ 31)); lia.
  - replace (z mod 2 ^ 32)%Z with (z + 2 ^ 32)%Z by (apply (Z.mod_unique _ _ (-1)); lia).
    destruct (Z.ltb_spec (z + 2 ^ 32) (2 ^ 31)); lia.
Qed.

Lemma i32_as_u32_small z : (i32_as_u32 z < 2 ^ 32)%N.
Proof. unfold i32_as_u32. pose proof (Z.mod_pos_bound z (2 ^ 32) eq_refl). lia. Qed.

(** Read at the bytes of an operand that fits. *)
Lemma read_width_at w o pre post :
  width_fits w o ->
  read_width w (pre ++ operand_bytes o ++ post) (length pre)
  = Some (o, length pre + length (operand_bytes o)).
Proof.
  assert (R : forall n x, (x < 256 ^ N.of_nat n)%N ->
    read_n n (pre ++ be_bytes n x ++ post) (length pre) = Some (x, length pre + n)).
  { intros n x Hx. rewrite read_n_at by apply length_be_bytes. by rewrite be_roundtrip. }
  destruct w, o; cbn [width_fits operand_bytes read_width]; try done; intros H;
    rewrite ?length_be_bytes.
  - replace [as_u8 x] with (be_bytes 1 x) by (cbn; by rewrite N.shiftr_0_r). by rewrite R.
  - by rewrite R.
  - by rewrite R.
  - by rewrite R.
  - rewrite R by apply i32_as_u32_small. cbn. by rewrite i32_roundtrip.
  - rewrite R by lia. cbn. by destruct x; [lia|].
Qed.

Lemma read_widths_at ws : forall os pre post,
  widths_fit ws os ->
  read_widths ws (pre ++ concat (operand_bytes <$> os) ++ post) (length pre)
  = Some (os, length pre + length (concat (operand_bytes <$> os))).
Proof.
  induction ws as [|w ws IH]; intros os pre post H; inversion H as [|? o ? os' Ho Hos]; subst.
  - cbn. by rewrite Nat.add_0_r.
  - cbn [fmap list_fmap concat read_widths]. rewrite <- app_assoc, read_width_at by exact Ho.
    cbn [mbind option_bind]. rewrite (app_assoc pre), <- length_app.
    rewrite IH by exact Hos. cbn [mbind option_bind]. rewrite !length_app, Nat.add_assoc. done.
Qed.

Lemma read_u16s_at xs : forall pre post,
  Forall (fun x => x < 2 ^ 16)%N xs ->
  read_u16s (length xs) (pre ++ concat (operand_bytes <$> (U16 <$> xs)) ++ post) (length pre)
  = Some (U16 <$> xs, length pre + length (concat (operand_bytes <$> (U16 <$> xs)))).
Proof.
  induction xs as [|x xs IH]; intros pre post H; [cbn; by rewrite Nat.add_0_r|].
  apply Forall_cons in H as [Hx H]. cbn [length fmap list_fmap concat read_u16s].
  rewrite <- app_assoc, read_width_at by exact Hx. cbn [mbind option_bind].
  rewrite (app_assoc pre), <- length_app. rewrite IH by exact H. cbn [mbind option_bind].
  rewrite !length_app, Nat.add_assoc. done.
Qed.

Lemma dis_keys_at xs : forall pre post,
  Forall (fun x => x < 2 ^ 16)%N xs ->
  dis_keys (length xs) (pre ++ concat (operand_bytes <$> (U16 <$> xs)) ++ post) (length pre)
  = (U16 <$> xs, length pre + length (concat (operand_bytes <$> (U16 <$> xs)))).
Proof.
  induction xs as [|x xs IH]; intros pre post H; [cbn; by rewrite Nat.add_0_r|].
  apply Forall_cons in H as [Hx H]. cbn [length fmap list_fmap concat dis_keys].
  rewrite <- app_assoc, read_width_at by exact Hx.
  rewrite (app_assoc pre), <- length_app. rewrite IH by exact H.
  rewrite !length_app, Nat.add_assoc. done.
Qed.

Lemma read_template_at F t pre post :
  typed F t ->
  read_template F (pre ++ encode F t ++ post) (length pre)
  = Some ([Raw (encode F t)], length pre + length (encode F t)).
Proof.
  intros Ht. unfold read_template. rewrite drop_app_length.
  rewrite (decodes_all F t) by (done || (unfold decode_fuel; rewrite length_app; lia)).
  destruct (reintern F F t) as [t' F']. rewrite length_app.
  replace (length (encode F t) + length post - length post) with (length (encode F t)) by lia.
  by rewrite take_app_length.
Qed.

(** ** The two tables *)

(** Where the interpreter insists on a region slot the disassembler reads a
    plain 32-bit number; otherwise the tables are one. *)
Definition plain (w : Width) : Width := match w with WRegion => W32 | w => w end.

Lemma layouts_agree i : dis_layout i = plain <$> layout i.
Proof. by destruct i. Qed.

Lemma plain_fits w o : width_fits w o -> width_fits (plain w) o.
Proof. destruct w, o; cbn; try done; lia. Qed.

Lemma plain_widths_fit ws os : widths_fit ws os -> widths_fit (plain <$> ws) os.
Proof. unfold widths_fit. intros H. apply Forall2_fmap_l. eapply Forall2_impl; [exact H|]. intros w o. apply plain_fits. Qed.

Lemma concat_u16 xs : length (concat (operand_bytes <$> (U16 <$> xs))) = length xs * 2.
Proof. induction xs as [|x xs IH]; [done|]. cbn. rewrite IH. lia. Qed.

(** *** The interpreter *)

Lemma fetch_operands_at F i os pre post :
  shaped F i os ->
  fetch_operands F i (pre ++ concat (operand_bytes <$> os) ++ post) (length pre)
  = Some (os, length pre + length (concat (operand_bytes <$> os))).
Proof.
  assert (Plain : widths_fit (layout i) os ->
    match i with B_TailCall | B_TailCallChecked | B_StructRest | B_MaterializeConst => false | _ => true end = true ->
    fetch_operands F i (pre ++ concat (operand_bytes <$> os) ++ post) (length pre)
    = Some (os, length pre + length (concat (operand_bytes <$> os)))).
  { intros H Hi. unfold fetch_operands. rewrite read_widths_at by exact H. cbn [mbind option_bind].
    by destruct i. }
  assert (Tail : (exists a b c d slots,
      os = [a; b; c; d; U8 (N.of_nat (length slots))] ++ (U16 <$> slots) /\
      widths_fit (layout i) [a; b; c; d; U8 (N.of_nat (length slots))] /\
      Forall (fun x => x < 2 ^ 16)%N slots) ->
    i = B_TailCall \/ i = B_TailCallChecked ->
    fetch_operands F i (pre ++ concat (operand_bytes <$> os) ++ post) (length pre)
    = Some (os, length pre + length (concat (operand_bytes <$> os)))).
  { intros (a & b & c & d & slots & -> & H & Hs) Hi. unfold fetch_operands.
    rewrite fmap_app, concat_app, <- app_assoc, read_widths_at by exact H.
    cbn [mbind option_bind]. rewrite (app_assoc pre), <- length_app.
    pose proof (read_u16s_at slots (pre ++ concat (operand_bytes <$> [a; b; c; d; U8 (N.of_nat (length slots))])) post Hs) as E.
    destruct Hi as [-> | ->]; rewrite Nat2N.id, E; cbn [mbind option_bind];
      rewrite !length_app, Nat.add_assoc; done. }
  destruct i; try (intros H; by apply Plain); try (intros H; apply Tail; [exact H | by auto]).
  - intros (keys & -> & Hl & Hk). unfold fetch_operands. cbn [fmap list_fmap concat].
    assert (Hw : widths_fit (layout B_StructRest) [U16 (N.of_nat (length keys))]) by (repeat constructor; exact Hl).
    rewrite <- app_assoc.
    pose proof (read_widths_at (layout B_StructRest) _ pre (concat (operand_bytes <$> (U16 <$> keys)) ++ post) Hw) as E.
    cbn [fmap list_fmap concat] in E. rewrite app_nil_r in E. rewrite E. cbn [mbind option_bind].
    rewrite (app_assoc pre), <- length_app, Nat2N.id, read_u16s_at by exact Hk. cbn [mbind option_bind].
    rewrite !length_app, Nat.add_assoc. done.
  - intros (r & t & -> & Hr & Hl & Ht). unfold fetch_operands.
    assert (Hw : widths_fit (layout B_MaterializeConst) [r; U32 (N.of_nat (length (encode F t)))])
      by (repeat constructor; done).
    change [r; U32 (N.of_nat (length (encode F t))); Raw (encode F t)]
      with ([r; U32 (N.of_nat (length (encode F t)))] ++ [Raw (encode F t)]).
    rewrite fmap_app, concat_app, <- app_assoc, read_widths_at by exact Hw. cbn [mbind option_bind].
    cbn [fmap list_fmap concat operand_bytes]. rewrite (app_nil_r (encode F t)).
    rewrite (app_assoc pre), <- length_app, read_template_at by exact Ht. cbn [mbind option_bind app].
    f_equal. f_equal. rewrite !length_app. cbn [length]. lia.
Qed.

(** The interpreter decodes an instruction where it was written. *)
Lemma fetch_at F i os pre post :
  shaped F i os ->
  fetch F (pre ++ code_of (i, os) ++ post) (length pre)
  = Some (i, os, length pre + length (code_of (i, os))).
Proof.
  intros H. unfold fetch, code_of. cbn [fst snd app].
  rewrite list_lookup_middle by done. cbn [mbind option_bind]. rewrite instr_from_byte_byte.
  cbn [mbind option_bind].
  pose proof (fetch_operands_at F i os (pre ++ [instr_byte i]) post H) as E.
  rewrite <- app_assoc, length_app in E. cbn [app length] in E. rewrite Nat.add_1_r in E.
  rewrite E. cbn [mbind option_bind length]. by rewrite Nat.add_succ_comm.
Qed.

(** *** The disassembler *)

Lemma dis_operands_at F i os pre post :
  shaped F i os ->
  dis_operands i (pre ++ concat (operand_bytes <$> os) ++ post) (length pre)
  = (shown i os, length pre + length (concat (operand_bytes <$> os))).
Proof.
  assert (Plain : widths_fit (layout i) os ->
    match i with B_TailCall | B_TailCallChecked | B_StructRest | B_MaterializeConst => false | _ => true end = true ->
    dis_operands i (pre ++ concat (operand_bytes <$> os) ++ post) (length pre)
    = (os, length pre + length (concat (operand_bytes <$> os)))).
  { intros H%plain_widths_fit Hi. unfold dis_operands.
    rewrite layouts_agree, read_widths_at by exact H. by destruct i. }
  assert (Tail : (exists a b c d slots,
      os = [a; b; c; d; U8 (N.of_nat (length slots))] ++ (U16 <$> slots) /\
      widths_fit (layout i) [a; b; c; d; U8 (N.of_nat (length slots))] /\
      Forall (fun x => x < 2 ^ 16)%N slots) ->
    i = B_TailCall \/ i = B_TailCallChecked ->
    dis_operands i (pre ++ concat (operand_bytes <$> os) ++ post) (length pre)
    = (take 5 os, length pre + length (concat (operand_bytes <$> os)))).
  { intros (a & b & c & d & slots & -> & H%plain_widths_fit & Hs) Hi. unfold dis_operands.
    rewrite fmap_app, concat_app, <- app_assoc, layouts_agree, read_widths_at by exact H.
    rewrite length_app, concat_u16. destruct Hi as [-> | ->]; rewrite Nat2N.id; f_equal; lia. }
  destruct i; try (intros H; by apply Plain); try (intros H; apply Tail; [exact H | by auto]).
  - intros (keys & -> & Hl & Hk). unfold dis_operands. cbn [fmap list_fmap concat shown].
    assert (Hw : widths_fit (dis_layout B_StructRest) [U16 (N.of_nat (length keys))]) by (repeat constructor; exact Hl).
    rewrite <- app_assoc.
    pose proof (read_widths_at _ _ pre (concat (operand_bytes <$> (U16 <$> keys)) ++ post) Hw) as E.
    cbn [fmap list_fmap concat] in E. rewrite app_nil_r in E. rewrite E.
    rewrite (app_assoc pre), <- length_app, Nat2N.id, dis_keys_at by exact Hk.
    rewrite !length_app, Nat.add_assoc. done.
  - intros (r & t & -> & Hr%plain_fits & Hl & Ht). unfold dis_operands. cbn [shown take].
    assert (Hw : widths_fit (dis_layout B_MaterializeConst) [r; U32 (N.of_nat (length (encode F t)))])
      by (repeat constructor; done).
    change [r; U32 (N.of_nat (length (encode F t))); Raw (encode F t)]
      with ([r; U32 (N.of_nat (length (encode F t)))] ++ [Raw (encode F t)]).
    rewrite fmap_app, concat_app, <- app_assoc, read_widths_at by exact Hw.
    cbn [fmap list_fmap concat operand_bytes]. rewrite (app_nil_r (encode F t)), Nat2N.id.
    f_equal. rewrite !length_app. lia.
Qed.

(** The lines of a listing of [l] that starts at [at_]. *)
Definition listing (at_ : nat) (l : list (Instruction * list Operand)) : list Line :=
  zip_with (fun o x => L_Instr o x.1 (shown x.1 x.2)) (offsets at_ l) l.

Lemma dis_loop_at F l : forall fuel pre,
  Forall (fun x => shaped F x.1 x.2) l -> length (codes l) <= fuel ->
  dis_loop fuel (pre ++ codes l) (length pre) = listing (length pre) l.
Proof.
  induction l as [|[i os] l IH]; intros fuel pre H Hf.
  { unfold codes. cbn. rewrite app_nil_r. destruct fuel; [done|]. cbn.
    by rewrite lookup_ge_None_2 by lia. }
  apply Forall_cons in H as [Hx H]. unfold codes in *. cbn [fmap list_fmap concat] in *.
  rewrite length_app in Hf. unfold listing. cbn [offsets zip_with fst snd].
  destruct fuel as [|fuel]; [cbn in Hf; lia|]. cbn [dis_loop].
  unfold code_of at 1. cbn [fst snd app]. rewrite list_lookup_middle by done.
  rewrite instr_from_byte_byte. unfold code_of at 1. cbn [fst snd app].
  pose proof (dis_operands_at F i os (pre ++ [instr_byte i]) (concat (code_of <$> l)) Hx) as E.
  rewrite <- app_assoc, length_app in E. cbn [app length] in E. rewrite Nat.add_1_r in E. rewrite E.
  f_equal. specialize (IH fuel (pre ++ code_of (i, os)) H).
  rewrite length_app, <- app_assoc in IH. cbn [code_of fst snd app length] in *.
  rewrite Nat.add_succ_comm. unfold listing in IH. apply IH. lia.
Qed.

Lemma disassemble_codes F l :
  Forall (fun x => shaped F x.1 x.2) l -> disassemble_lines (codes l) = listing 0 l.
Proof. intros H. unfold disassemble_lines. by apply (dis_loop_at F l _ []). Qed.

(** The interpreter at the start of the [k]th instruction. *)
Lemma fetch_codes F l k o x :
  Forall (fun x => shaped F x.1 x.2) l -> offsets 0 l !! k = Some o -> l !! k = Some x ->
  fetch F (codes l) o = Some (x.1, x.2, o + length (code_of x)).
Proof.
  intros Hl Ho Hx.
  assert (G : forall l at_ k o x, offsets at_ l !! k = Some o -> l !! k = Some x ->
    exists l1 l2, l = l1 ++ x :: l2 /\ o = at_ + length (codes l1)).
  { clear. induction l as [|y l IH]; intros at_ k o x Ho Hx; [done|].
    destruct k as [|k]; cbn in Ho, Hx.
    - injection Ho as <-. injection Hx as <-. exists [], l. split; [done|]. unfold codes. cbn. lia.
    - destruct (IH _ k o x Ho Hx) as (l1 & l2 & -> & ->). exists (y :: l1), l2. split; [done|].
      unfold codes. cbn [fmap list_fmap concat]. rewrite length_app. symmetry. apply Nat.add_assoc. }
  destruct (G l 0 k o x Ho Hx) as (l1 & l2 & -> & ->). cbn [Nat.add].
  assert (Hs : shaped F x.1 x.2) by (rewrite Forall_app, Forall_cons in Hl; tauto).
  unfold codes at 1. rewrite fmap_app, concat_app. cbn [fmap list_fmap concat].
  pose proof (fetch_at F x.1 x.2 (codes l1) (concat (code_of <$> l2)) Hs) as E.
  destruct x as [i os]. exact E.
Qed.
