(* ===== verification/EmitCode.v ===== *)
(** * What the emitter writes is code

    Every action of the emitter extends its buffer by whole, well-shaped
    instructions; every jump among them is either waiting in the pending list
    or already aimed at an instruction. *)

From stdpp Require Import base numbers option list gmap.
From S2P Require Import Prelude SignalBits Signal LirRecord LirInstr LirCodec LirBuild LirView LirSpec Bytes Files Template Live Bytecode EmitStack Emit Disasm DisasmProps.

(** ** Runs of instructions *)

Abbreviation Code := (list (Instruction * list Operand)) (only parsing).

Lemma codes_app l1 l2 : codes (l1 ++ l2) = codes l1 ++ codes l2.
Proof. unfold codes. by rewrite fmap_app, concat_app. Qed.

Lemma codes_cons x l : codes (x :: l) = code_of x ++ codes l.
Proof. reflexivity. Qed.

Lemma code_of_nonempty x : 0 < length (code_of x).
Proof. unfold code_of. cbn. lia. Qed.

(** [n] is where an instruction of [is_] starts, or the end. *)
Definition boundary (is_ : Code) (n : nat) : Prop :=
  exists l1 l2, is_ = l1 ++ l2 /\ n = length (codes l1).

(** An instruction of [is_] starts at [n]. *)
Definition starts (is_ : Code) (n : nat) : Prop := boundary is_ n /\ n < length (codes is_).

(** The operand of the jump [i] sits at [pos] and holds [z]. *)
Definition jump_at (is_ : Code) (pos : nat) (i : Instruction) (z : Z) : Prop :=
  exists l1 l2, is_ = l1 ++ (i, [I32 z]) :: l2 /\ pos = S (length (codes l1)).

Definition is_jump (i : Instruction) : Prop := i = B_Jump \/ i = B_JumpIfFalse.

#[export] Instance is_jump_dec i : Decision (is_jump i).
Proof. unfold is_jump. apply _. Defined.

(** What an [i32] subtraction leaves: the low 32 bits, signed. *)
Definition wrap32 (z : Z) : Z := u32_as_i32 (i32_as_u32 z).

Lemma wrap32_fits z : (- 2 ^ 31 <= wrap32 z < 2 ^ 31)%Z.
Proof.
  unfold wrap32, u32_as_i32. pose proof (i32_as_u32_small z). cbv zeta.
  destruct (Z.ltb_spec (Z.of_N (i32_as_u32 z)) (2 ^ 31)); lia.
Qed.

Lemma wrap32_bytes z : i32_as_u32 (wrap32 z) = i32_as_u32 z.
Proof.
  unfold wrap32, u32_as_i32, i32_as_u32. cbv zeta.
  pose proof (Z.mod_pos_bound z (2 ^ 32) eq_refl) as Hb. rewrite Z2N.id by lia. f_equal.
  destruct (Z.ltb_spec (z mod 2 ^ 32) (2 ^ 31)).
  - apply Z.mod_mod. lia.
  - replace (z mod 2 ^ 32 - 2 ^ 32)%Z with (z mod 2 ^ 32 + (-1) * 2 ^ 32)%Z by lia.
    rewrite Z.mod_add by lia. apply Z.mod_mod. lia.
Qed.

Lemma wrap32_small z : (- 2 ^ 31 <= z < 2 ^ 31)%Z -> wrap32 z = z.
Proof. apply i32_roundtrip. Qed.

Lemma boundary_app is_ k n : boundary is_ n -> boundary (is_ ++ k) n.
Proof. intros (l1 & l2 & -> & ->). exists l1, (l2 ++ k). by rewrite app_assoc. Qed.

Lemma starts_app is_ k n : starts is_ n -> starts (is_ ++ k) n.
Proof. intros [H Hn]. split; [by apply boundary_app|]. rewrite codes_app, length_app. lia. Qed.

Lemma boundary_end is_ : boundary is_ (length (codes is_)).
Proof. exists is_, []. by rewrite app_nil_r. Qed.

Lemma jump_at_app is_ k pos i z : jump_at is_ pos i z -> jump_at (is_ ++ k) pos i z.
Proof. intros (l1 & l2 & -> & ->). exists l1, (l2 ++ k). by rewrite <- app_assoc. Qed.

(** Two splits at one offset are one split. *)
Lemma split_unique l1 : forall l2 m1 m2 : Code,
  l1 ++ l2 = m1 ++ m2 -> length (codes l1) = length (codes m1) -> l1 = m1 /\ l2 = m2.
Proof.
  induction l1 as [|x l1 IH]; intros l2 [|y m1] m2 E L; [done| | |].
  - rewrite codes_cons, length_app in L. pose proof (code_of_nonempty y). cbn in L. lia.
  - rewrite codes_cons, length_app in L. pose proof (code_of_nonempty x). cbn in L. lia.
  - injection E as -> E. rewrite !codes_cons, !length_app in L.
    destruct (IH l2 m1 m2 E) as [-> ->]; [lia | done].
Qed.

Lemma jump_at_unique is_ pos i z i' z' :
  jump_at is_ pos i z -> jump_at is_ pos i' z' -> i = i' /\ z = z'.
Proof.
  intros (l1 & l2 & -> & ->) (m1 & m2 & E & [= L]).
  destruct (split_unique _ _ _ _ E L) as [-> E2]. by injection E2 as -> ->.
Qed.

(** ** The invariant

    [open] is a jump still to be aimed: the [JumpIfFalse] of a branch while
    its two edges are being written; [T] holds the labels the pending jumps
    may name, [L] where the blocks so far were placed. *)
Record code_is (F : Files) (T : list Label) (L : gmap Label nat) (open : option nat) {Arena} (e : Emitter Arena) (is_ : Code) : Prop := mk_code_is {
  ci_bytes : instructions (e_bc e) = codes is_;
  ci_shaped : Forall (fun x => shaped F x.1 x.2) is_;
  ci_pending : forall pos l, (pos, l) ∈ e_pending e ->
    l ∈ T /\ exists i z, is_jump i /\ jump_at is_ pos i z;
  ci_once : NoDup (e_pending e).*1;
  ci_open : forall pos, open = Some pos ->
    (exists i z, is_jump i /\ jump_at is_ pos i z) /\ pos ∉ (e_pending e).*1;
  ci_labels : e_labels e = L /\ forall l off, L !! l = Some off -> boundary is_ off;
  ci_aimed : forall pos i z, is_jump i -> jump_at is_ pos i z -> open <> Some pos ->
    pos ∉ (e_pending e).*1 ->
    exists t, starts is_ t /\ z = wrap32 (Z.of_nat t - Z.of_nat pos - 4) }.

Lemma code_pos F T L open {Arena} (e : Emitter Arena) is_ :
  code_is F T L open e is_ -> current_pos (e_bc e) = length (codes is_).
Proof. intros H. unfold current_pos. by rewrite (ci_bytes _ _ _ _ _ _ H). Qed.

Section Keeps.
Context {Arena : Type} (F : Files) (T : list Label) (L : gmap Label nat).

(** An action that only appends. *)
Definition keeps (f : Act Arena) : Prop :=
  forall open e e' is_, f e = Some e' -> code_is F T L open e is_ ->
    exists k, code_is F T L open e' (is_ ++ k).

Lemma keeps_id open (e : Emitter Arena) is_ : code_is F T L open e is_ -> exists k, code_is F T L open e (is_ ++ k).
Proof. intros C. exists []. by rewrite app_nil_r. Qed.

Lemma keeps_seq f g : keeps f -> keeps g -> keeps (act_seq f g).
Proof.
  intros Hf Hg open e e' is_ (e1 & H1 & H2)%bind_Some C.
  destruct (Hf _ _ _ _ H1 C) as [k1 C1]. destruct (Hg _ _ _ _ H2 C1) as [k2 C2].
  exists (k1 ++ k2). by rewrite app_assoc.
Qed.

Lemma keeps_skip : keeps act_skip.
Proof. intros open e e' is_ [= <-]. apply keeps_id. Qed.

Lemma keeps_panics : keeps panics.
Proof. by intros open e e' is_. Qed.

Lemma keeps_each {A} (l : list A) f : (forall x, x ∈ l -> keeps (f x)) -> keeps (for_each l f).
Proof.
  induction l as [|x l IH]; intros H; [apply keeps_skip|]. cbn. apply keeps_seq.
  - apply H. left.
  - apply IH. intros y Hy. apply H. by right.
Qed.

(** Actions that touch neither the code, the pending jumps nor the labels. *)
Lemma keeps_same f :
  (forall e e', f e = Some e' ->
     instructions (e_bc e') = instructions (e_bc e) /\ e_pending e' = e_pending e /\
     e_labels e' = e_labels e) -> keeps f.
Proof.
  intros H open e e' is_ E [C1 C2 C3 C4 C5 C6 C7]. destruct (H e e' E) as (Eb & Ep & El).
  exists []. rewrite app_nil_r. split; rewrite ?Eb, ?Ep, ?El; done.
Qed.

(** *** Writing *)

Lemma foldl_operand_bytes os : forall b,
  instructions (foldl bc_operand b os) = instructions b ++ concat (operand_bytes <$> os).
Proof.
  induction os as [|o os IH]; intros b; [by rewrite app_nil_r|]. cbn [foldl fmap list_fmap concat].
  rewrite IH. cbn. by rewrite app_assoc.
Qed.

Lemma bc_put_bytes b i os : instructions (bc_put b i os) = instructions b ++ code_of (i, os).
Proof. unfold bc_put. rewrite foldl_operand_bytes. cbn. by rewrite <- app_assoc. Qed.

Lemma jump_at_snoc is_ x pos i z :
  jump_at (is_ ++ [x]) pos i z <->
  jump_at is_ pos i z \/ (x = (i, [I32 z]) /\ pos = S (length (codes is_))).
Proof.
  split.
  - intros (l1 & l2 & E & ->). destruct l2 as [|y l2 _] using rev_ind.
    + apply app_inj_tail in E as [-> ->]. by right.
    + left. exists l1, l2. rewrite app_comm_cons, app_assoc in E. apply app_inj_tail in E as [-> _]. done.
  - intros [H|[-> ->]]; [by apply jump_at_app|]. by exists is_, [].
Qed.

(** Appending one instruction that is no jump. *)
Lemma code_is_snoc open (e e' : Emitter Arena) is_ i os :
  code_is F T L open e is_ -> shaped F i os -> ~ is_jump i ->
  instructions (e_bc e') = instructions (e_bc e) ++ code_of (i, os) ->
  e_pending e' = e_pending e -> e_labels e' = e_labels e ->
  code_is F T L open e' (is_ ++ [(i, os)]).
Proof.
  intros [C1 C2 C3 C4 C5 C6 C7] Hs Hj Eb Ep El.
  assert (J : forall pos i' z, is_jump i' -> jump_at (is_ ++ [(i, os)]) pos i' z -> jump_at is_ pos i' z).
  { intros pos i' z Hi [H|[[= -> _] _]]%jump_at_snoc; done. }
  split; rewrite ?Ep, ?El.
  - rewrite Eb, C1, codes_app, codes_cons. cbn. by rewrite app_nil_r.
  - apply Forall_app. split; [done|]. by apply Forall_singleton.
  - intros pos l H. destruct (C3 pos l H) as (Hl & j & z & Hj' & Hz). split; [done|]. exists j, z. split; [done|]. by apply jump_at_app.
  - done.
  - intros pos Ho. destruct (C5 pos Ho) as ((j & z & Hj' & Hz) & Hn). split; [|done].
    exists j, z. split; [done|]. by apply jump_at_app.
  - destruct C6 as [C6 C6']. split; [done|]. intros l off H. by apply boundary_app, (C6' l).
  - intros pos j z Hj' Hz Ho Hn. destruct (C7 pos j z Hj' (J _ _ _ Hj' Hz) Ho Hn) as (t & Ht & ->).
    exists t. split; [by apply starts_app | done].
Qed.

Lemma keeps_put i os : shaped F i os -> ~ is_jump i -> keeps (put i os).
Proof.
  intros Hs Hj open e e' is_ [= <-] C. exists [(i, os)].
  by eapply code_is_snoc; [exact C | done | done | apply bc_put_bytes | |].
Qed.

(** Most opcodes carry what their layout says. *)
Lemma keeps_op i os :
  widths_fit (layout i) os ->
  match i with
  | B_Jump | B_JumpIfFalse | B_TailCall | B_TailCallChecked | B_StructRest | B_MaterializeConst => false
  | _ => true
  end = true -> keeps (put i os).
Proof. intros H Hi. apply keeps_put; [by destruct i | by destruct i; intros [?|?]]. Qed.

(** *** The simulation writes only [DupN] and [Pop] *)

Lemma dup_shaped x : shaped F B_DupN [U8 (as_u8 x)].
Proof. repeat constructor. apply as_u8_byte. Qed.

Lemma keeps_push r : keeps (push_reg r).
Proof. apply keeps_same. by intros e e' [= <-]. Qed.

Lemma keeps_pop : keeps pop.
Proof. apply keeps_same. intros e e'. unfold pop. by destruct (last (e_stack e)); intros [= <-]. Qed.

Lemma keeps_pop_n n : keeps (pop_n n).
Proof. apply keeps_each. intros x _. apply keeps_pop. Qed.

Lemma keeps_ensure r : keeps (ensure_on_top r).
Proof.
  intros open e e' is_. unfold ensure_on_top.
  destruct (e_map e !! r) as [pos|]; [|intros [= <-]; apply keeps_id].
  destruct (decide _); [intros [= <-]; apply keeps_id|]. destruct (decide _); [|done]. intros [= <-] C.
  eexists. eapply code_is_snoc; [exact C | apply dup_shaped | by intros [?|?] | apply bc_put_bytes | done | done].
Qed.

Lemma keeps_ensure_binary l r : keeps (ensure_binary_on_top l r).
Proof.
  intros open e e' is_. unfold ensure_binary_on_top. destruct (decide _); [intros [= <-]; apply keeps_id|].
  apply keeps_seq; apply keeps_ensure.
Qed.

Lemma keeps_arrange regs : keeps (arrange regs).
Proof.
  intros open e e' is_. unfold arrange. destruct (all_in_place e regs); [intros [= <-]; apply keeps_id|].
  apply keeps_each. intros x _. apply keeps_ensure.
Qed.

Lemma code_is_pop open (e : Emitter Arena) is_ stack m :
  code_is F T L open e is_ ->
  code_is F T L open (set_sim (set_bc e (bc_put (e_bc e) B_Pop [])) stack m) (is_ ++ [(B_Pop, [])]).
Proof.
  intros C. eapply code_is_snoc; [exact C | constructor | by intros [?|?] | apply bc_put_bytes | done | done].
Qed.

Lemma keeps_pop_dead n floor target : keeps (pop_dead_loop n floor target).
Proof.
  induction n as [|n IH]; intros open e e' is_; [intros [= <-]; apply keeps_id|]. cbn [pop_dead_loop].
  destruct (decide _); [|intros [= <-]; apply keeps_id]. destruct (e_stack e !! _) as [reg|]; [|done].
  destruct (_ || _); [intros [= <-]; apply keeps_id|]. intros E C.
  destruct (IH _ _ _ _ E (code_is_pop _ _ _ _ _ C)) as [k Ck].
  eexists. by rewrite <- app_assoc in Ck.
Qed.

Lemma keeps_pop_to n floor : keeps (pop_to_loop n floor).
Proof.
  induction n as [|n IH]; intros open e e' is_; [intros [= <-]; apply keeps_id|]. cbn [pop_to_loop].
  destruct (decide _); [|intros [= <-]; apply keeps_id]. destruct (e_stack _ !! _) as [reg|]; [|done].
  intros E C. destruct (IH _ _ _ _ E (code_is_pop _ _ _ _ _ C)) as [k Ck].
  eexists. by rewrite <- app_assoc in Ck.
Qed.

Lemma keeps_trim label : keeps (trim_for_edge label).
Proof.
  intros open e e' is_. unfold trim_for_edge.
  destruct (e_depth e !! label); [apply keeps_pop_to | apply keeps_pop_dead].
Qed.

(** *** Sites, constants, locations *)

Lemma keeps_call_site ip regs d : keeps (record_call_site ip regs d).
Proof. apply keeps_same. intros e e'. unfold record_call_site. by destruct (e_may_suspend e); intros [= <-]. Qed.

Lemma keeps_charge_site : keeps record_charge_site.
Proof. apply keeps_same. intros e e'. unfold record_charge_site. by destruct (e_may_suspend e); intros [= <-]. Qed.

Lemma keeps_with_stack k : (forall s, keeps (k s)) -> keeps (with_stack k).
Proof. intros H open e e' is_. apply H. Qed.

Lemma keeps_at_pos k : (forall n, keeps (k n)) -> keeps (at_pos k).
Proof. intros H open e e' is_. apply H. Qed.

Lemma add_constant_bytes eqv b v idx b' :
  add_constant eqv b v = Some (idx, b') -> instructions b' = instructions b /\ (idx < 2 ^ 16)%N.
Proof.
  assert (U : forall x, (as_u16 x < 2 ^ 16)%N) by (intros x; by apply N.mod_lt).
  unfold add_constant. destruct (find_const _ _ _); [intros [= <- <-]; auto|].
  destruct (_ <? _)%N; [done|]. intros [= <- <-]. auto.
Qed.

Lemma keeps_with_const eqv v k :
  (forall idx, (idx < 2 ^ 16)%N -> keeps (k idx)) -> keeps (with_const eqv v k).
Proof.
  intros H open e e' is_ ([idx b'] & E & Ek)%bind_Some [C1 C2 C3 C4 C5 C6 C7].
  destruct (add_constant_bytes _ _ _ _ _ E) as [Eb Hi]. apply (H idx Hi _ _ _ _ Ek).
  split; try done. cbn. by rewrite Eb.
Qed.

Lemma keeps_with_consts eqv vs : forall k,
  (forall idxs, length idxs = length vs -> Forall (fun x => x < 2 ^ 16)%N idxs -> keeps (k idxs)) ->
  keeps (with_consts eqv vs k).
Proof.
  induction vs as [|v vs IH]; intros k H; cbn [with_consts]; [by apply H|].
  apply keeps_with_const. intros idx Hi. apply IH. intros idxs Hl Hx. apply H; [cbn; lia | by constructor].
Qed.

Lemma keeps_locate s : keeps (locate F s).
Proof.
  apply keeps_same. intros e e' [= <-]. cbn. unfold record_location. by destruct (_ && _)%N.
Qed.

Lemma keeps_enter label : keeps (enter_block label).
Proof. apply keeps_same. intros e e' [= <-]. by destruct (e_saved e !! label) as [[? ?]|]. Qed.

Lemma keeps_save_first label : keeps (save_first label).
Proof.
  apply keeps_same. intros e e'. unfold save_first.
  destruct (e_labels e !! label), (e_saved e !! label); by intros [= <-].
Qed.

Lemma keeps_record_edge label : keeps (record_branch_edge label).
Proof. apply keeps_same. intros e e'. unfold record_branch_edge. by destruct (e_labels e !! label); intros [= <-]. Qed.

(** *** Jumps *)

Lemma nodup_fresh (l : list (nat * Label)) pos lab : NoDup l.*1 -> pos ∉ l.*1 -> NoDup (l ++ [(pos, lab)]).*1.
Proof.
  intros H1 H2. rewrite fmap_app. apply NoDup_app. split; [done|]. split; [|cbn; apply NoDup_singleton].
  cbn. intros x Hx. rewrite list_elem_of_singleton. by intros ->.
Qed.

Lemma keeps_emit_jump label : label ∈ T -> keeps (emit_jump label).
Proof.
  intros HT open e e' is0. unfold emit_jump. intros (e1 & E1 & [= <-])%bind_Some Hi.
  assert (Hk : exists k, code_is F T L open e1 (is0 ++ k)).
  { destruct (e_labels e !! label); [by eapply keeps_charge_site | injection E1 as <-; by apply keeps_id]. }
  destruct Hk as [k Ck]. exists (k ++ [(B_Jump, [I32 0])]). rewrite app_assoc.
  set (is_ := is0 ++ k) in *. destruct Ck as [C1 C2 C3 C4 C5 C6 C7]. clear E1 Hi e.
  set (p := S (current_pos (e_bc e1))). assert (Hp : p = S (length (codes is_))).
  { unfold p, current_pos. by rewrite C1. }
  assert (Hlt : forall pos i z, jump_at is_ pos i z -> pos <> p).
  { intros pos i z (l1 & l2 & E & Epos) Heq.
    rewrite Hp, E, codes_app, length_app, codes_cons, length_app in Heq.
    pose proof (code_of_nonempty (i, [I32 z])). lia. }
  assert (Hnew : p ∉ (e_pending e1).*1).
  { intros ([pos l] & -> & H)%list_elem_of_fmap. destruct (C3 pos l H) as (_ & i & z & _ & Hz). by eapply Hlt. }
  split; cbn [e_bc e_pending e_labels set_pending set_bc].
  - rewrite bc_put_bytes, C1, codes_app, codes_cons. cbn [codes fmap list_fmap concat]. by rewrite app_nil_r.
  - apply Forall_app. split; [done|]. apply Forall_singleton. repeat constructor; cbn; lia.
  - intros pos l [H|H]%elem_of_app.
    + destruct (C3 pos l H) as (Hl & i & z & Hi & Hz). split; [done|]. exists i, z. split; [done|]. by apply jump_at_app.
    + apply list_elem_of_singleton in H as [= -> ->]. split; [done|]. exists B_Jump, 0%Z. split; [by left|].
      apply jump_at_snoc. by right.
  - by apply nodup_fresh.
  - intros pos Ho. destruct (C5 pos Ho) as ((i & z & Hi & Hz) & Hn). split.
    + exists i, z. split; [done|]. by apply jump_at_app.
    + rewrite fmap_app, not_elem_of_app. split; [done|]. cbn. rewrite list_elem_of_singleton. by eapply Hlt.
  - destruct C6 as [C6 C6']. split; [done|]. intros l off H. by apply boundary_app, (C6' l).
  - intros pos i z Hi Hz Ho Hn. rewrite fmap_app, not_elem_of_app in Hn. destruct Hn as [Hn Hn2].
    apply jump_at_snoc in Hz as [Hz|[_ Ez]].
    + destruct (C7 pos i z Hi Hz Ho Hn) as (t & Ht & ->). exists t. split; [by apply starts_app | done].
    + destruct Hn2. cbn. rewrite list_elem_of_singleton. congruence.
Qed.
End Keeps.

(** * Every arm of the emitter writes whole instructions

    [keeps] for each instruction, each terminator, each block, and what the
    final patching leaves. *)

(** ** The instructions a Rust value can be

    The fields the emitter writes are of their machine width; a template is an
    encoded template, and a [StructRest] names fewer than 65536 keys. *)

Definition region_fits (r : StaticRegion) : Prop := (StaticRegion_get r < 2 ^ 32)%N.

Definition emit_typed (F : Files) (i : InstrRef) : Prop :=
  match i with
  | I_MaterializeConst _ template region =>
    region_fits region /\ (N.of_nat (length template) < 2 ^ 32)%N /\
    exists t, typed F t /\ template = encode F t
  | I_LoadLocal _ slot | I_StoreLocal slot _ | I_StoreLocalRefcounted slot _ => (slot < 2 ^ 16)%N
  | I_LoadCapture _ index | I_LoadCaptureRaw _ index | I_StoreCapture index _ => (index < 2 ^ 16)%N
  | I_ArrayMutRefDestructure _ _ index | I_ArrayMutSliceFrom _ _ index
  | I_ArrayMutRefOrNil _ _ index => (index < 2 ^ 16)%N
  | I_MakeClosure _ _ _ region | I_Call _ _ _ _ region | I_SuspendingCall _ _ _ _ region
  | I_List _ _ _ region | I_MakeArrayMut _ _ region | I_Freeze _ _ region | I_Thaw _ _ region
  | I_IncrefRegion region | I_DecrefRegion region | I_AssertRegionMatches region _ => region_fits region
  | I_TailCall _ _ _ _ region _ slot _ =>
    region_fits region /\ match slot with Some s => region_fits s | None => True end
  | I_MakeCaptureCell _ _ region name _ => region_fits region /\ (name < 2 ^ 64)%N
  | I_CallArrayMut _ _ _ r1 r2 | I_TailCallArrayMut _ _ r1 r2 => region_fits r1 /\ region_fits r2
  | I_CheckSignalBound _ bits => (raw bits < 2 ^ 64)%N
  | I_StructRest _ _ keys => (N.of_nat (length keys) < 2 ^ 16)%N
  | _ => True
  end.

Definition term_typed (t : Terminator) : Prop :=
  match t with Emit signal _ _ => (raw signal < 2 ^ 64)%N | _ => True end.

Definition block_typed (F : Files) (b : ABlock) : Prop :=
  Forall (fun x => emit_typed F x.1) (a_code b) /\ term_typed (a_exit b).

(** ** Widths *)

Lemma as_u16_lt x : (as_u16 x < 2 ^ 16)%N.
Proof. by apply N.mod_lt. Qed.

Lemma as_u8_lt x : (as_u8 x < 2 ^ 8)%N.
Proof. by apply N.mod_lt. Qed.

Lemma len_u16_lt {A} (l : list A) : (len_u16 l < 2 ^ 16)%N.
Proof. apply as_u16_lt. Qed.

Lemma len_u8_lt {A} (l : list A) : (len_u8 l < 2 ^ 8)%N.
Proof. apply as_u8_lt. Qed.

Lemma b2n_lt b : (N.b2n b < 2 ^ 8)%N.
Proof. by destruct b. Qed.

Lemma region_range r : region_fits r -> (0 < StaticRegion_get r < 2 ^ 32)%N.
Proof. unfold region_fits, StaticRegion_get. lia. Qed.

Lemma slot_fits slot h s :
  (slot < 2 ^ 16)%N -> non_cell_local_slot slot h = Some s -> (s < 2 ^ 16)%N.
Proof.
  unfold non_cell_local_slot. intros Hs. destruct (_ <=? _)%N; [|done]. destruct (mask_is_set _ _); [done|].
  intros [= <-]. apply as_u16_lt.
Qed.

#[local] Hint Resolve as_u16_lt as_u8_lt len_u16_lt len_u8_lt b2n_lt region_range : elle.

Ltac fit :=
  cbn [layout]; unfold widths_fit, region_op;
  repeat (apply Forall2_cons; split); try apply Forall2_nil; cbn [width_fits]; eauto with elle; try lia.

Ltac keep :=
  repeat first
    [ apply keeps_seq | apply keeps_ensure | apply keeps_ensure_binary | apply keeps_arrange
    | apply keeps_push | apply keeps_pop | apply keeps_pop_n | apply keeps_call_site
    | apply keeps_charge_site | apply keeps_skip | apply keeps_panics
    | apply keeps_op; [solve [fit] | reflexivity]
    | apply keeps_with_stack; intros ? | apply keeps_at_pos; intros ?
    | apply keeps_each; intros ? _
    | apply keeps_with_const; intros ? ? ].

Section Shape.
Context {Arena : Type} (heap_eq : Value -> Value -> bool)
  (arena_write : Arena -> LirOwned -> nat -> ClosureCompiled -> Value * Arena) (F : Files) (T : list Label) (L : gmap Label nat).

Lemma keeps_unary src i os dst :
  widths_fit (layout i) os ->
  match i with
  | B_Jump | B_JumpIfFalse | B_TailCall | B_TailCallChecked | B_StructRest | B_MaterializeConst => false
  | _ => true
  end = true -> keeps (Arena := Arena) F T L (unary_op src i os dst).
Proof. intros H1 H2. unfold unary_op. keep. by apply keeps_op. Qed.

Lemma keeps_binary l r i dst :
  layout i = [] -> match i with B_JumpIfFalse => false | _ => true end = true ->
  keeps (Arena := Arena) F T L (binary_op l r i dst).
Proof. intros H1 H2. unfold binary_op. keep. apply keeps_op; [rewrite H1; constructor | by destruct i]. Qed.

Lemma keeps_emit_const c : keeps F T L (emit_const (Arena := Arena) heap_eq c).
Proof. unfold emit_const. destruct c as [| |[]| | | |]; keep. Qed.

Lemma keeps_struct_get src key i dst :
  i = B_StructGetOrNil \/ i = B_StructGetDestructure ->
  keeps F T L (struct_get (Arena := Arena) heap_eq src key i dst).
Proof. intros Hi. unfold struct_get. keep. destruct (struct_key key); keep. destruct Hi as [-> | ->]; keep. Qed.

Lemma keeps_call dst func args chk region :
  region_fits region -> keeps F T L (emit_call (Arena := Arena) dst func args chk region).
Proof. intros Hr. unfold emit_call. keep. destruct chk; keep. Qed.

Lemma keeps_tail_call func args chk region defer slot borrowed :
  region_fits region -> match slot with Some s => region_fits s | None => True end ->
  keeps F T L (emit_tail_call (Arena := Arena) func args chk region defer slot borrowed).
Proof.
  intros Hr Hs. unfold emit_tail_call. keep.
  - set (slots := take 255 (slots_iter borrowed)).
    assert (Hl : (N.of_nat (length slots) < 256)%N) by (unfold slots; rewrite length_take; lia).
    unfold len_u8. rewrite as_u8_small by exact Hl.
    assert (Sh : forall i, i = B_TailCall \/ i = B_TailCallChecked ->
      keeps (Arena := Arena) F T L (put i ([U16 (len_u16 args); region_op region; U8 (N.b2n defer);
        U32 (from_option StaticRegion_get 0%N slot); U8 (N.of_nat (length slots))] ++ (U16 <$> slots)))).
    { intros i Hi. apply keeps_put; [|by destruct Hi as [-> | ->]; intros [?|?]].
      assert (Hd : (from_option StaticRegion_get 0 slot < 2 ^ 32)%N) by (destruct slot; [exact Hs | done]).
      assert (Hx : Forall (fun x => x < 2 ^ 16)%N slots).
      { apply Forall_take, Forall_fmap, Forall_forall. intros x _. apply as_u16_lt. }
      destruct Hi as [-> | ->]; do 5 eexists; split; [reflexivity | split; [fit | exact Hx] | reflexivity | split; [fit | exact Hx]]. }
    destruct chk; apply Sh; auto.
  - destruct (decide _); keep.
Qed.

Lemma keeps_make_closure dst id captures region :
  region_fits region -> keeps F T L (emit_make_closure arena_write dst id captures region).
Proof.
  intros Hr. unfold emit_make_closure. keep. intros open e e' is_ ([header e1] & E1 & E2)%bind_Some C.
  assert (Hsame : e_bc e1 = e_bc e /\ e_pending e1 = e_pending e /\ e_labels e1 = e_labels e).
  { revert E1. unfold lambda_header. destruct (e_headers e !! id); [by intros [= <- <-]|].
    intros (cs & _ & (c & _ & (fs & _ & (f & _ & H)%bind_Some)%bind_Some)%bind_Some)%bind_Some.
    destruct (arena_write _ _ _ _). by injection H as <- <-. }
  destruct Hsame as (Eb & Ep & El). injection E2 as <-. eexists.
  eapply (code_is_snoc F T L open e _ is_ B_MakeClosure);
    [exact C | | by intros [?|?] | | exact Ep | exact El].
  2: { cbn [e_bc set_bc]. rewrite bc_put_bytes. cbn [instructions set_children]. rewrite Eb. reflexivity. }
  fit.
Qed.

Lemma keeps_struct_rest dst src keys :
  (N.of_nat (length keys) < 2 ^ 16)%N ->
  keeps F T L (emit_instr_destructure (Arena := Arena) heap_eq (I_StructRest dst src keys)).
Proof.
  intros Hl. cbn [emit_instr_destructure]. keep.
  destruct (const_list_iter keys ≫= mapM rest_key) as [vs|] eqn:E; [|keep].
  apply bind_Some in E as (cs & Ec & Ev). apply length_mapM in Ec, Ev.
  apply keeps_with_consts. intros idxs Hn Hx. keep. apply keeps_put; [|by intros [?|?]].
  exists idxs. unfold len_u16. rewrite as_u16_id by exact Hl.
  replace (length idxs) with (length keys) by congruence. done.
Qed.

Lemma keeps_ops i : emit_typed F i -> keeps F T L (emit_instr_ops (Arena := Arena) heap_eq i).
Proof.
  intros H. destruct i; cbn [emit_instr_ops emit_instr_intrinsics]; cbn [emit_typed] in H; try apply keeps_panics;
    try (apply keeps_unary; [fit | reflexivity]); try (by apply keeps_binary); try (by keep);
    try (destruct H; by keep).
  - keep. by destruct op, proof; cbn [binop_instr proof_is_int]; keep.
  - keep. by destruct op; keep.
  - apply keeps_unary; [by destruct op; fit | by destruct op].
  - keep; by destruct op; cbn [compare_instr]; keep.
Qed.

Lemma keeps_destructure i : emit_typed F i -> keeps F T L (emit_instr_destructure (Arena := Arena) heap_eq i).
Proof.
  intros H.
  destruct i; try (by apply keeps_ops); try (by apply keeps_struct_rest);
    cbn [emit_instr_destructure]; cbn [emit_typed] in H;
    try (apply keeps_unary; [fit | reflexivity]); apply keeps_struct_get; auto.
Qed.

Lemma keeps_capture_slot (h : Head) index (f g : Operand -> Act Arena) :
  (index < 2 ^ 16)%N ->
  (forall x, (x < 2 ^ 16)%N -> keeps F T L (f (U16 x))) -> keeps F T L (g (U16 index)) ->
  keeps F T L (match non_cell_local_slot index h with
           | Some stack_slot => f (U16 stack_slot)
           | None => g (U16 index)
           end).
Proof.
  intros Hi Hf Hg. destruct (non_cell_local_slot index h) eqn:E; [|done]. apply Hf. by eapply slot_fits.
Qed.

Lemma keeps_instr i h : emit_typed F i -> keeps F T L (emit_instr heap_eq arena_write i h).
Proof.
  intros H. destruct i; try (by apply keeps_destructure); cbn [emit_instr]; cbn [emit_typed] in H; try (by keep).
  - keep. apply keeps_emit_const.
  - keep. destruct H as (Hr & Hl & t & Ht & ->). apply keeps_put; [|by intros [?|?]].
    exists (region_op region), t. unfold len_u32. rewrite as_u32_small by exact Hl.
    split; [done|]. split; [by apply region_range | done].
  - keep. apply (keeps_capture_slot h index (fun o => put B_LoadLocal [o]) (fun o => put B_LoadUpvalue [U8 0; o]));
      [done | intros x Hx; keep | keep].
  - keep. apply (keeps_capture_slot h index (fun o => put B_StoreLocal [o]) (fun o => put B_StoreUpvalue [U8 0; o]));
      [done | intros x Hx; keep | keep].
  - by apply keeps_make_closure.
  - by apply keeps_call.
  - by apply keeps_call.
  - destruct H. by apply keeps_tail_call.
Qed.

(** ** The branch's own jump *)

(** Writing it opens it. *)
Lemma open_jump (e : Emitter Arena) is_ :
  code_is F T L None e is_ ->
  code_is F T L (Some (S (current_pos (e_bc e)))) (set_bc e (bc_put (e_bc e) B_JumpIfFalse [I32 0]))
    (is_ ++ [(B_JumpIfFalse, [I32 0])]).
Proof.
  intros C. pose proof (code_pos _ _ _ _ _ _ C) as Hpos. destruct C as [C1 C2 C3 C4 C5 C6 C7].
  split; cbn [e_bc e_pending e_labels set_bc].
  - rewrite bc_put_bytes, C1, codes_app, codes_cons. cbn [codes fmap list_fmap concat]. by rewrite app_nil_r.
  - apply Forall_app. split; [done|]. apply Forall_singleton. repeat constructor; cbn; lia.
  - intros pos l H. destruct (C3 pos l H) as (Hl & i & z & Hi & Hz). split; [done|]. exists i, z. split; [done|]. by apply jump_at_app.
  - done.
  - intros pos [= <-]. split.
    + exists B_JumpIfFalse, 0%Z. split; [by right|]. apply jump_at_snoc. right. by rewrite Hpos.
    + intros ([pos l] & Ep & H)%list_elem_of_fmap. cbn in Ep. destruct (C3 pos l H) as (_ & i & z & _ & l1 & l2 & E & Epos).
      rewrite E, codes_app, codes_cons, !length_app in Hpos. pose proof (code_of_nonempty (i, [I32 z])). lia.
  - destruct C6 as [C6 C6']. split; [done|]. intros l off H. by apply boundary_app, (C6' l).
  - intros pos i z Hi Hz Ho Hn. apply jump_at_snoc in Hz as [Hz|[_ Ez]].
    + destruct (C7 pos i z Hi Hz) as (t & Ht & ->); [done | done |]. exists t. split; [by apply starts_app | done].
    + destruct Ho. by rewrite Hpos, Ez.
Qed.

(** Adding it to the pending list closes it. *)
Lemma close_pending (e : Emitter Arena) is_ p l :
  l ∈ T -> code_is F T L (Some p) e is_ -> code_is F T L None (set_pending e (e_pending e ++ [(p, l)])) is_.
Proof.
  intros HT [C1 C2 C3 C4 C5 C6 C7]. destruct (C5 p eq_refl) as [Hp Hn].
  split; cbn [e_bc e_pending e_labels set_pending]; try done.
  - intros pos l' [H|H]%elem_of_app; [by eapply C3|]. apply list_elem_of_singleton in H as [= -> ->]. by split.
  - by apply nodup_fresh.
  - intros pos i z Hi Hz _ Hnp. rewrite fmap_app, not_elem_of_app in Hnp. destruct Hnp as [H1 H2].
    apply (C7 pos i z); try done. intros [= ->]. apply H2. cbn. by rewrite list_elem_of_singleton.
Qed.

(** *** Patching *)

Definition patched (is_ : Code) (pos : nat) (z : Z) (is' : Code) : Prop :=
  exists l1 i z0 l2, is_ = l1 ++ (i, [I32 z0]) :: l2 /\ pos = S (length (codes l1)) /\
    is_jump i /\ is' = l1 ++ (i, [I32 (wrap32 z)]) :: l2.

Lemma jump_code i z : code_of (i, [I32 z]) = instr_byte i :: be_bytes 4 (i32_as_u32 z).
Proof. unfold code_of. cbn [fst snd fmap list_fmap concat operand_bytes]. by rewrite app_nil_r. Qed.

Lemma jump_code_length i z : length (code_of (i, [I32 z])) = 5.
Proof. by rewrite jump_code. Qed.

Lemma patched_length is_ pos z is' : patched is_ pos z is' -> length (codes is') = length (codes is_).
Proof.
  intros (l1 & i & z0 & l2 & -> & _ & _ & ->).
  by rewrite !codes_app, !codes_cons, !length_app, !jump_code_length.
Qed.

(** Two splits of one list, the first at an element. *)
Lemma split_cons {A} (l1 : list A) x l2 m1 m2 :
  l1 ++ x :: l2 = m1 ++ m2 ->
  (exists k, l1 = m1 ++ k /\ m2 = k ++ x :: l2) \/ (exists k, m1 = l1 ++ x :: k /\ l2 = k ++ m2).
Proof.
  intros [(k & -> & ->)|(k & -> & E)]%app_eq_inv; [left; by exists k|].
  destruct k as [|y k]; [left; exists []; rewrite !app_nil_r; split; [done | by symmetry]|].
  injection E as -> ->. right. by exists k.
Qed.

Lemma swap_length l1 i z z' (l2 : Code) :
  length (codes (l1 ++ (i, [I32 z]) :: l2)) = length (codes (l1 ++ (i, [I32 z']) :: l2)).
Proof. by rewrite !codes_app, !codes_cons, !length_app, !jump_code_length. Qed.

Lemma patched_boundary is_ pos z is' n : patched is_ pos z is' -> boundary is_ n -> boundary is' n.
Proof.
  intros (l1 & i & z0 & l2 & -> & _ & _ & ->) (m1 & m2 & E & ->).
  apply split_cons in E as [(k & -> & ->)|(k & -> & ->)].
  - exists m1, (k ++ (i, [I32 (wrap32 z)]) :: l2). by rewrite <- app_assoc.
  - exists (l1 ++ (i, [I32 (wrap32 z)]) :: k), m2. rewrite <- app_assoc. split; [done|]. apply swap_length.
Qed.

Lemma patched_starts is_ pos z is' n : patched is_ pos z is' -> starts is_ n -> starts is' n.
Proof.
  intros Hp [Hb Hn]. split; [by eapply patched_boundary|]. by rewrite (patched_length _ _ _ _ Hp).
Qed.

(** Elsewhere the jumps are as they were. *)
Lemma patched_jump is_ pos z is' pos' i' z' :
  patched is_ pos z is' -> jump_at is_ pos' i' z' ->
  exists z'', jump_at is' pos' i' z'' /\ (pos' <> pos -> z'' = z') /\ (pos' = pos -> z'' = wrap32 z).
Proof.
  intros (l1 & i & z0 & l2 & -> & -> & _ & ->) (m1 & m2 & E & ->).
  apply split_cons in E as [(k & -> & E)|(k & -> & ->)].
  - destruct k as [|y k]; injection E as E1 E2; subst.
    + exists (wrap32 z). rewrite app_nil_r. split; [by exists m1, l2|]. done.
    + exists z'. split; [exists m1, (k ++ (i, [I32 (wrap32 z)]) :: l2); by rewrite <- app_assoc|].
      split; [done|]. rewrite codes_app, codes_cons, !length_app, jump_code_length. lia.
  - exists z'. split; [|split; [done|]].
    + exists (l1 ++ (i, [I32 (wrap32 z)]) :: k), m2. rewrite <- app_assoc. split; [done|]. f_equal. apply swap_length.
    + rewrite codes_app, codes_cons, !length_app, jump_code_length. lia.
Qed.

Lemma patch_jump_bytes b is_ pos z i z0 :
  instructions b = codes is_ -> is_jump i -> jump_at is_ pos i z0 ->
  exists is', patch_jump b pos z = Some (set_code_bytes b (codes is')) /\ patched is_ pos z is'.
Proof.
  intros Eb Hi (l1 & l2 & -> & ->). exists (l1 ++ (i, [I32 (wrap32 z)]) :: l2).
  split; [|by exists l1, i, z0, l2]. unfold patch_jump. rewrite Eb, !codes_app, !codes_cons, !jump_code.
  rewrite decide_True by (rewrite !length_app; cbn [length]; rewrite length_be_bytes; lia).
  do 2 f_equal. rewrite wrap32_bytes.
  replace (codes l1 ++ (instr_byte i :: be_bytes 4 (i32_as_u32 z0)) ++ codes l2)
    with ((codes l1 ++ [instr_byte i]) ++ be_bytes 4 (i32_as_u32 z0) ++ codes l2)
    by (by rewrite <- app_assoc).
  replace (S (length (codes l1))) with (length (codes l1 ++ [instr_byte i])) by (rewrite length_app; cbn; lia).
  rewrite take_app_length. rewrite <- drop_drop, drop_app_length.
  rewrite (drop_app_length' (be_bytes 4 (i32_as_u32 z0))) by (by rewrite length_be_bytes).
  by rewrite <- app_assoc.
Qed.

Lemma patched_shaped is_ pos z is' :
  patched is_ pos z is' -> Forall (fun x => shaped F x.1 x.2) is_ -> Forall (fun x => shaped F x.1 x.2) is'.
Proof.
  intros (l1 & i & z0 & l2 & -> & _ & Hi & ->). rewrite !Forall_app, !Forall_cons. intros (H1 & _ & H2).
  split; [done|]. split; [|done]. pose proof (wrap32_fits z).
  destruct Hi as [-> | ->]; apply Forall2_cons; (split; [done | constructor]).
Qed.

Lemma patched_sym is_ pos z is' :
  patched is_ pos z is' -> Forall (fun x => shaped F x.1 x.2) is_ -> exists z0, patched is' pos z0 is_.
Proof.
  intros (l1 & i & z0 & l2 & -> & -> & Hi & ->) H. exists z0, l1, i, (wrap32 z), l2.
  split; [done|]. split; [done|]. split; [done|].
  apply Forall_app, proj2, Forall_cons, proj1 in H. rewrite wrap32_small; [done|].
  by destruct Hi as [-> | ->]; inversion H.
Qed.

(** A patch that aims a jump at an instruction. *)
Lemma code_is_patched open (e : Emitter Arena) is_ pos t is' :
  code_is F T L open e is_ -> patched is_ pos (Z.of_nat t - Z.of_nat pos - 4) is' -> starts is_ t ->
  open = None \/ open = Some pos ->
  code_is F T L None (set_bc e (set_code_bytes (e_bc e) (codes is'))) is'.
Proof.
  intros [C1 C2 C3 C4 C5 C6 C7] Hp Ht Ho. destruct (patched_sym _ _ _ _ Hp C2) as [z0 Hr].
  split; cbn [e_bc e_pending e_labels set_bc instructions set_code_bytes]; try done.
  - by eapply patched_shaped.
  - intros q l H. destruct (C3 q l H) as (Hl & i & z & Hi & Hz). split; [done|].
    destruct (patched_jump _ _ _ _ _ _ _ Hp Hz) as (z' & Hz' & _). by exists i, z'.
  - destruct C6 as [C6 C6']. split; [done|]. intros l off H. by eapply patched_boundary, C6'.
  - intros q i z Hi Hz _ Hn.
    destruct (patched_jump _ _ _ _ _ _ _ Hr Hz) as (z' & Hz' & Hne & _).
    destruct (patched_jump _ _ _ _ _ _ _ Hp Hz') as (z'' & Hz'' & _ & Heq).
    destruct (jump_at_unique _ _ _ _ _ _ Hz Hz'') as [_ Ez].
    destruct (decide (q = pos)) as [Eq|Hq].
    + exists t. split; [by eapply patched_starts|]. rewrite Ez, (Heq Eq). by subst q.
    + rewrite (Hne Hq) in Hz'. destruct (C7 q i z Hi Hz') as (t' & Ht' & Et); [|done|].
      * destruct Ho as [-> | ->]; [done | congruence].
      * exists t'. split; [by eapply patched_starts | done].
Qed.
End Shape.
