(* ===== verification/EmitProps.v ===== *)
(** * The emitted code

    Terminators, blocks and the final patching; then the code of a whole
    function, as its readers find it. *)

From stdpp Require Import base numbers option list gmap.
From S2P Require Import Prelude SignalBits Signal LirRecord LirInstr LirCodec LirBuild LirView LirSpec LirProps Bytes Files Template TemplateProps Live Bytecode EmitStack Emit Disasm DisasmProps EmitCode.

Section Emitted.
Context {Arena : Type} (heap_eq : Value -> Value -> bool)
  (arena_write : Arena -> LirOwned -> nat -> ClosureCompiled -> Value * Arena) (F : Files) (T : list Label) (L : gmap Label nat).

(** ** Terminators *)

(** An action that leaves code where code was, and more of it. *)
Definition extends (f : Act Arena) : Prop :=
  forall e e' is_, f e = Some e' -> code_is F T L None e is_ ->
    exists is', code_is F T L None e' is' /\ length (codes is_) < length (codes is').

Lemma extends_after f g : keeps F T L f -> extends g -> extends (act_seq f g).
Proof.
  intros Hf Hg e e' is_ (e1 & H1 & H2)%bind_Some C.
  destruct (Hf _ _ _ _ H1 C) as [k C1]. destruct (Hg _ _ _ H2 C1) as (is' & C2 & Hl).
  exists is'. split; [done|]. rewrite codes_app, length_app in Hl. lia.
Qed.

Lemma extends_before f g : extends f -> keeps F T L g -> extends (act_seq f g).
Proof.
  intros Hf Hg e e' is_ (e1 & H1 & H2)%bind_Some C.
  destruct (Hf _ _ _ H1 C) as (is' & C1 & Hl). destruct (Hg _ _ _ _ H2 C1) as [k C2].
  exists (is' ++ k). split; [done|]. rewrite codes_app, length_app. lia.
Qed.

Lemma extends_longer f :
  keeps F T L f -> (forall e e', f e = Some e' -> current_pos (e_bc e) < current_pos (e_bc e')) -> extends f.
Proof.
  intros Hk Hp e e' is_ E C. destruct (Hk _ _ _ _ E C) as [k C']. exists (is_ ++ k). split; [done|].
  pose proof (Hp _ _ E). by rewrite (code_pos _ _ _ _ _ _ C), (code_pos _ _ _ _ _ _ C') in H.
Qed.

Lemma bc_put_longer b i os : current_pos b < current_pos (bc_put b i os).
Proof. unfold current_pos. rewrite bc_put_bytes, length_app. pose proof (code_of_nonempty (i, os)). lia. Qed.

Lemma extends_put i os : shaped F i os -> ~ is_jump i -> extends (put i os).
Proof. intros H1 H2. apply extends_longer; [by apply keeps_put|]. intros e e' [= <-]. apply bc_put_longer. Qed.

Lemma extends_jump label : label ∈ T -> extends (emit_jump label).
Proof.
  intros HT. apply extends_longer; [by apply keeps_emit_jump|]. unfold emit_jump.
  intros e e' (e1 & E1 & [= <-])%bind_Some. cbn [e_bc set_pending set_bc].
  assert (e_bc e1 = e_bc e) as ->; [|apply bc_put_longer].
  destruct (e_labels e !! label); [|by injection E1 as <-].
  revert E1. unfold record_charge_site. by destruct (e_may_suspend e); intros [= <-].
Qed.

(** The two edges of a branch, its own jump open. *)
Lemma branch_edges else_pos then_label else_label stack m (e e' : Emitter Arena) is_ :
  then_label ∈ T -> else_label ∈ T -> code_is F T L (Some else_pos) e is_ ->
  (act_seq (trim_for_edge then_label) (act_seq (record_branch_edge then_label)
    (act_seq (emit_jump then_label) (act_seq (fun e => Some (set_sim e stack m))
    (at_pos (fun pad =>
       act_seq (trim_for_edge else_label) (act_seq (record_branch_edge else_label)
       (at_pos (fun pos =>
         if decide (pos = pad)
         then fun e => Some (set_pending e (e_pending e ++ [(else_pos, else_label)]))
         else act_seq (patch else_pos (Z.of_nat pad - Z.of_nat else_pos - 4))
                (emit_jump else_label)))))))))) e = Some e' ->
  exists is', code_is F T L None e' is' /\ length (codes is_) <= length (codes is').
Proof.
  intros HT HE C (e1 & E1 & (e2 & E2 & (e3 & E3 & (e5 & E5 & (e6 & E6 & E7)%bind_Some)%bind_Some)%bind_Some)%bind_Some)%bind_Some.
  destruct (keeps_trim F T L _ _ _ _ _ E1 C) as [k1 C1].
  destruct (keeps_record_edge F T L _ _ _ _ _ E2 C1) as [k2 C2].
  destruct (keeps_emit_jump F T L _ HT _ _ _ _ E3 C2) as [k3 C3].
  assert (C4 : code_is F T L (Some else_pos) (set_sim e3 stack m) (((is_ ++ k1) ++ k2) ++ k3)) by (by destruct C3).
  set (is4 := ((is_ ++ k1) ++ k2) ++ k3) in *.
  assert (L4 : length (codes is_) <= length (codes is4)) by (unfold is4; rewrite !codes_app, !length_app; lia).
  destruct (keeps_trim F T L _ _ _ _ _ E5 C4) as [k5 C5].
  destruct (keeps_record_edge F T L _ _ _ _ _ E6 C5) as [k6 C6]. rewrite <- app_assoc in C6.
  unfold at_pos in E7. rewrite (code_pos _ _ _ _ _ _ C6), (code_pos _ _ _ _ _ _ C4) in E7.
  assert (L6 : length (codes (is4 ++ k5 ++ k6)) = length (codes is4) + length (codes (k5 ++ k6)))
    by (by rewrite codes_app, length_app).
  revert E7. destruct (decide (length (codes (is4 ++ k5 ++ k6)) = length (codes is4))) as [Eq|Hne]; intros E7.
  - injection E7 as <-. eexists. split; [by apply close_pending|]. lia.
  - apply bind_Some in E7 as (e7 & (b & Eb & E7b)%bind_Some & E8).
    destruct (ci_open _ _ _ _ _ _ C6 else_pos eq_refl) as [(i & z & Hi & Hz) _].
    destruct (patch_jump_bytes (e_bc e6) _ else_pos (Z.of_nat (length (codes is4)) - Z.of_nat else_pos - 4)
                i z (ci_bytes _ _ _ _ _ _ C6) Hi Hz) as (is' & Ep & Hp).
    rewrite Ep in Eb. injection Eb as <-. injection E7b as <-.
    assert (C7 : code_is F T L None (set_bc e6 (set_code_bytes (e_bc e6) (codes is'))) is').
    { eapply code_is_patched; [exact C6 | exact Hp | | by right].
      split; [apply boundary_app, boundary_end | lia]. }
    destruct (keeps_emit_jump F T L _ HE _ _ _ _ E8 C7) as [k8 C8].
    exists (is' ++ k8). split; [done|]. rewrite codes_app, length_app, (patched_length _ _ _ _ Hp). lia.
Qed.

Lemma extends_terminator t :
  term_typed t -> successors t ⊆ T -> extends (emit_terminator t).
Proof.
  intros Ht HT. destruct t as [reg|label|cond l1 l2|signal value label|]; cbn [emit_terminator].
  - apply extends_after; [apply keeps_ensure|]. apply extends_put; [constructor | by intros [?|?]].
  - apply extends_after; [apply keeps_trim|]. apply extends_after; [apply keeps_save_first|].
    apply extends_jump, HT. cbn. left.
  - apply extends_after; [apply keeps_ensure|]. apply extends_after; [apply keeps_pop|].
    intros e e' is_ (e1 & E1 & E)%bind_Some C. injection E1 as <-. pose proof (open_jump _ _ _ _ _ C) as C1.
    destruct (branch_edges (S (current_pos (e_bc e))) l1 l2 (e_stack e) (e_map e) _ e' _
                (HT l1 ltac:(left)) (HT l2 ltac:(right; left)) C1 E) as (is' & C2 & Hl).
    exists is'. split; [done|]. rewrite codes_app, length_app in Hl. cbn in Hl. lia.
  - apply extends_after; [apply keeps_ensure|]. apply extends_after; [apply keeps_op; [fit | done]|].
    apply extends_after; [apply keeps_pop|]. apply extends_after.
    + apply keeps_same. by intros e e' [= <-].
    + apply extends_jump, HT. cbn. left.
  - apply extends_before; [apply extends_put | apply keeps_op]; try done; try constructor. by intros [?|?].
Qed.

(** ** Blocks *)

Lemma keeps_located h x : emit_typed F x.1 -> keeps F T L (emit_located heap_eq arena_write F h x).
Proof.
  intros H. destruct x as [i s]. cbn [emit_located]. apply keeps_seq; [apply keeps_locate|].
  apply keeps_seq; [by apply keeps_instr|]. destruct (may_raise i); [|apply keeps_skip].
  intros open e e' is_. apply keeps_call_site.
Qed.

Lemma extends_block h b :
  block_typed F b -> successors (a_exit b) ⊆ T -> extends (emit_block heap_eq arena_write F h b).
Proof.
  intros [Hi Ht] HT. unfold emit_block. apply extends_after; [apply keeps_enter|].
  apply extends_after; [|apply extends_after; [|apply extends_after; [apply keeps_locate | by apply extends_terminator]]].
  - destruct (_ =? _)%N; [|apply keeps_skip]. apply keeps_each. intros x _. by apply keeps_op; [constructor|].
  - apply keeps_each. intros x Hx. apply keeps_located. by rewrite Forall_forall in Hi; apply Hi.
Qed.
End Emitted.

Section Function.
Context {Arena : Type} (heap_eq : Value -> Value -> bool)
  (arena_write : Arena -> LirOwned -> nat -> ClosureCompiled -> Value * Arena) (F : Files) (T : list Label).

(** The code so far, every placed label at the start of an instruction. *)
Definition placed (L : gmap Label nat) (e : Emitter Arena) (is_ : Code) : Prop :=
  code_is F T L None e is_ /\ forall l off, L !! l = Some off -> starts is_ off.

Lemma place_block_placed h b L (e e' : Emitter Arena) is_ :
  block_typed F b -> successors (a_exit b) ⊆ T -> placed L e is_ ->
  place_block heap_eq arena_write F h b e = Some e' ->
  exists is' off, placed (<[a_label b := off]> L) e' is'.
Proof.
  intros Hb HT [C HL] (e1 & E1 & E)%bind_Some. injection E1 as <-.
  rewrite (code_pos _ _ _ _ _ _ C) in E. set (off := length (codes is_)) in *.
  assert (C1 : code_is F T (<[a_label b := off]> L) None
                 (set_labels e (<[a_label b := off]> (e_labels e))) is_).
  { destruct C as [C1 C2 C3 C4 C5 [C6 C6'] C7]. split; try done. split; [cbn; by rewrite C6|].
    intros l o [[_ <-]|[_ H]]%lookup_insert_Some; [apply boundary_end | by eapply C6']. }
  destruct (extends_block heap_eq arena_write F T _ h b Hb HT _ _ _ E C1) as (is' & C2 & Hl).
  exists is', off. split; [done|]. intros l o H. split; [by apply (ci_labels _ _ _ _ _ _ C2) in H|].
  apply lookup_insert_Some in H as [[_ <-]|[_ H]]; [done|]. destruct (HL l o H). unfold off in Hl. lia.
Qed.

Lemma place_blocks_placed h bs : forall L (e e' : Emitter Arena) is_,
  Forall (fun b => block_typed F b /\ successors (a_exit b) ⊆ T) bs -> placed L e is_ ->
  for_each bs (place_block heap_eq arena_write F h) e = Some e' ->
  exists L' is', placed L' e' is' /\
    forall l, is_Some (L !! l) \/ l ∈ a_label <$> bs -> is_Some (L' !! l).
Proof.
  induction bs as [|b bs IH]; intros L e e' is_ Hbs C E.
  - injection E as <-. exists L, is_. split; [done|]. intros l [H|H]; [done|]. by apply elem_of_nil in H.
  - apply Forall_cons in Hbs as [[Hb HT] Hbs]. apply bind_Some in E as (e1 & E1 & E2).
    destruct (place_block_placed h b L e e1 is_ Hb HT C E1) as (is1 & off & C1).
    destruct (IH _ _ _ _ Hbs C1 E2) as (L' & is' & C' & HL). exists L', is'. split; [done|].
    intros l H. apply HL. cbn in H. rewrite elem_of_cons in H. rewrite lookup_insert_is_Some'.
    destruct H as [H|[H|H]]; auto.
Qed.

(** ** Patching the pending jumps *)

(** The first of them is the open jump of the rest. *)
Lemma code_is_open L (e : Emitter Arena) is_ pos l rest :
  e_pending e = (pos, l) :: rest -> code_is F T L None e is_ ->
  code_is F T L (Some pos) (set_pending e rest) is_.
Proof.
  intros Ep [C1 C2 C3 C4 C5 C6 C7]. rewrite Ep in C3, C4, C7. cbn in C4. apply NoDup_cons in C4 as [Hn C4].
  split; cbn [e_bc e_pending e_labels set_pending]; try done.
  - intros q l' H. by apply C3; right.
  - intros q [= <-]. split; [|done]. by apply (C3 pos l); left.
  - intros q i z Hi Hz Ho Hq. apply (C7 q i z); try done. cbn. apply not_elem_of_cons. split; [congruence | done].
Qed.

Lemma patch_pending_loop L rest : forall (e e' : Emitter Arena) is_,
  (forall l, l ∈ T -> is_Some (L !! l)) -> (forall l off, L !! l = Some off -> starts is_ off) ->
  code_is F T L None (set_pending e rest) is_ ->
  for_each rest (fun '(pos, label) => fun e =>
    match e_labels e !! label with
    | Some target => patch pos (Z.of_nat target - Z.of_nat pos - 4) e
    | None => Some e
    end) e = Some e' ->
  exists is', code_is F T L None (set_pending e' []) is'.
Proof.
  induction rest as [|[pos l] rest IH]; intros e e' is_ HT HL C E; [injection E as <-; by exists is_|].
  apply bind_Some in E as (e1 & E1 & E2).
  destruct (ci_pending _ _ _ _ _ _ C pos l ltac:(left)) as (Hl & i & z & Hi & Hz).
  destruct (HT l Hl) as [t Ht]. pose proof (proj1 (ci_labels _ _ _ _ _ _ C)) as EL.
  cbn [e_labels set_pending] in EL. rewrite EL, Ht in E1. apply bind_Some in E1 as (b & Eb & E1).
  injection E1 as <-. set (z' := (Z.of_nat t - Z.of_nat pos - 4)%Z) in *.
  destruct (patch_jump_bytes (e_bc e) is_ pos z' i z (ci_bytes _ _ _ _ _ _ C) Hi Hz) as (is' & Ep & Hp).
  rewrite Ep in Eb. injection Eb as <-.
  refine (IH _ e' is' HT _ _ E2).
  - intros l' off H. eapply patched_starts; [exact Hp | by eapply HL].
  - pose proof (code_is_open L (set_pending e ((pos, l) :: rest)) is_ pos l rest eq_refl C) as Co.
    by apply (code_is_patched F T L _ _ is_ pos t is' Co Hp); [eapply HL | right].
Qed.

Lemma patch_pending_done L (e e' : Emitter Arena) is_ :
  (forall l, l ∈ T -> is_Some (L !! l)) -> placed L e is_ -> patch_pending e = Some e' ->
  exists is', code_is F T L None (set_pending e' []) is'.
Proof.
  intros HT [C HL] E. eapply patch_pending_loop; [exact HT | exact HL | | exact E]. by destruct C.
Qed.

Lemma reset_placed v live (e : Emitter Arena) : placed ∅ (reset v live e) [].
Proof.
  split; [|by intros l off H]. split; cbn; try done.
  - by intros pos l H%elem_of_nil.
  - apply NoDup_nil. done.
  - intros pos i z _ (l1 & l2 & E & _). by destruct l1.
Qed.

(** ** A whole function *)

(** Every edge goes to a block of the function. *)
Definition edges_closed (bs : list ABlock) : Prop :=
  Forall (fun b => Forall (fun l => l ∈ a_label <$> bs) (successors (a_exit b))) bs.

End Function.

Lemma offsets_split l : forall at_ k o x,
  offsets at_ l !! k = Some o -> l !! k = Some x ->
  exists l1 l2, l = l1 ++ x :: l2 /\ o = at_ + length (codes l1).
Proof.
  induction l as [|y l IH]; intros at_ k o x Ho Hx; [done|]. destruct k as [|k].
  - injection Ho as <-. injection Hx as <-. exists [], l. split; [done|]. cbn. lia.
  - destruct (IH (at_ + length (code_of y)) k o x Ho Hx) as (l1 & l2 & -> & ->). exists (y :: l1), l2. split; [done|].
    rewrite codes_cons, length_app. lia.
Qed.

Lemma starts_offset l1 : forall at_ x l2, at_ + length (codes l1) ∈ offsets at_ (l1 ++ x :: l2).
Proof.
  induction l1 as [|y l1 IH]; intros at_ x l2; cbn [app offsets].
  - cbn. rewrite Nat.add_0_r. left.
  - right. rewrite codes_cons, length_app, Nat.add_assoc. apply IH.
Qed.

Lemma starts_in_offsets is_ t : starts is_ t -> t ∈ offsets 0 is_.
Proof.
  intros [(l1 & l2 & -> & ->) Hlt]. destruct l2 as [|x l2]; [rewrite app_nil_r in Hlt; lia|].
  apply (starts_offset l1 0).
Qed.

(** C6: What the emitter writes, every reader finds.  Take a function whose
    instructions carry operands of their machine widths and whose edges all go
    to its own blocks.  The code [emit] makes of it is a run of whole
    instructions: the disassembler lists exactly these, at their offsets with
    their operands; the interpreter, started at any of the offsets, decodes
    exactly that instruction and moves to the next; and in code shorter than
    2^31 bytes every jump, the branches' own included, lands on the start of
    one of them. *)
Theorem emitted_code_reads_back {Arena} heap_eq
    (arena_write : Arena -> LirOwned -> nat -> ClosureCompiled -> Value * Arena) F v e c e' bs :
  emit heap_eq arena_write F v e = Some (c, e') -> read_back v = Some bs ->
  Forall (block_typed F) bs -> edges_closed bs ->
  exists is_, let code := instructions (cc_bytecode c) in
    code = codes is_ /\
    disassemble_lines code = listing 0 is_ /\
    (forall k o i os, offsets 0 is_ !! k = Some o -> is_ !! k = Some (i, os) ->
       fetch F code o = Some (i, os, o + length (code_of (i, os)))) /\
    ((Z.of_nat (length code) < 2 ^ 31)%Z ->
     forall k o i z, offsets 0 is_ !! k = Some o -> is_ !! k = Some (i, [I32 z]) -> is_jump i ->
       exists t, t ∈ offsets 0 is_ /\ Z.of_nat t = (Z.of_nat (o + 5) + z)%Z).
Proof.
  intros E Hbs Hty Hcl. unfold emit in E.
  apply bind_Some in E as (live & _ & E). rewrite Hbs in E. cbn [mbind option_bind] in E.
  apply bind_Some in E as (e1 & E1 & (e2 & E2 & E3)%bind_Some). injection E3 as <- <-.
  set (T := bs ≫= fun b => successors (a_exit b)).
  assert (Hb : Forall (fun b => block_typed F b /\ successors (a_exit b) ⊆ T) bs).
  { apply Forall_forall. intros b Hb. split; [by rewrite Forall_forall in Hty; apply Hty|].
    intros l Hl. apply list_elem_of_bind. eauto. }
  destruct (place_blocks_placed heap_eq arena_write F T _ bs ∅ _ e1 [] Hb
              (reset_placed F T v live e) E1) as (L & is1 & C1 & HL).
  destruct (patch_pending_done F T L e1 e2 is1) as (is_ & [C1' C2 _ _ _ _ C7]); [|done|done|].
  { intros l (b & Hl & Hin)%list_elem_of_bind. apply HL. right. unfold edges_closed in Hcl.
    rewrite Forall_forall in Hcl. specialize (Hcl b Hin). rewrite Forall_forall in Hcl. by apply Hcl. }
  exists is_. cbn [cc_bytecode instructions set_tables]. cbn [e_bc set_pending] in C1'. rewrite C1'.
  split; [done|]. split; [by eapply disassemble_codes|]. split.
  - intros k o i os Ho Hx. by apply (fetch_codes F is_ k o (i, os)).
  - intros Hlen k o i z Ho Hx Hi. destruct (offsets_split _ _ _ _ _ Ho Hx) as (l1 & l2 & El & ->).
    destruct (C7 (S (length (codes l1))) i z Hi) as (t & Ht & ->); [by exists l1, l2 | done | apply not_elem_of_nil|].
    exists t. split; [by apply starts_in_offsets|]. destruct Ht as [_ Ht].
    rewrite El, codes_app, codes_cons, !length_app, jump_code_length in Ht, Hlen.
    rewrite wrap32_small; lia.
Qed.

(** A loop over a branch, with a template, an addition and a back edge. *)
Definition emit_sample_calls : list Call :=
  [ BeginFunction (Exact 0); OpenBlock 0;
    EmitInstr (I_Const 0 (C_Int 7)) sample_span; EmitInstr (I_Const 1 (C_Bool true)) sample_span;
    EmitInstr (I_MaterializeConst 2 (encode sample_files sample_template) 3) sample_span;
    Terminate (Jump 1) sample_span; FinishBlock;
    OpenBlock 1; EmitInstr (I_BinOp 3 Add 0 1 Unproven) sample_span;
    Terminate (Branch 1 1 2) sample_span; FinishBlock;
    OpenBlock 2; Terminate (Return 0) sample_span; FinishBlock; FinishFunction ].

Definition emit_sample : LirView := built_view emit_sample_calls.

Definition no_arena (a : unit) (_ : LirOwned) (_ : nat) (_ : ClosureCompiled) : Value * unit := (V_NIL, a).

Lemma emitted_code_reads_back_witness :
  exists c e' is_,
    emit (fun _ _ => false) no_arena sample_files emit_sample (Emitter_new tt) = Some (c, e') /\
    instructions (cc_bytecode c) = codes is_ /\
    disassemble_lines (instructions (cc_bytecode c)) = listing 0 is_.
Proof.
  destruct (emit (fun _ _ => false) no_arena sample_files emit_sample (Emitter_new tt)) as [[c e']|] eqn:E;
    [|vm_compute in E; discriminate].
  destruct (read_back emit_sample) as [bs|] eqn:Eb; [|vm_compute in Eb; discriminate].
  destruct (emitted_code_reads_back (fun _ _ => false) no_arena sample_files emit_sample (Emitter_new tt) c e' bs E Eb)
    as (is_ & H1 & H2 & _).
  - vm_compute in Eb. injection Eb as <-.
    apply Forall_cons; split; [split; [cbn [a_code] | exact I]|].
    2: apply Forall_cons; split; [split; [cbn [a_code] | exact I]|].
    3: apply Forall_cons; split; [split; [cbn [a_code] | exact I] | constructor].
    + apply Forall_cons; split; [exact I|]. apply Forall_cons; split; [exact I|]. apply Forall_cons. split; [|constructor].
      split; [vm_compute; reflexivity|]. split; [vm_compute; reflexivity|].
      exists sample_template. split; [|vm_compute; reflexivity].
      repeat (split || apply Forall_cons || apply Forall_nil); done.
    + apply Forall_cons. split; [exact I | constructor].
    + constructor.
  - vm_compute in Eb. injection Eb as <-. unfold edges_closed.
    apply (bool_decide_eq_true_1 _). vm_compute. reflexivity.
  - exists c, e', is_. exact (conj eq_refl (conj H1 H2)).
Defined.
