(* ===== verification/ValueTree.v ===== *)
(** * Doubles as bits

    What the runtime uses of [f64] to order and hash numbers: [i64 as f64],
    [total_cmp] and the IEEE comparisons, over the 64 bits [to_bits] answers; then the values
    and the order over them. *)

From stdpp Require Import base numbers option list.
From S2P Require Import Prelude LirRecord Bytecode.

Local Open Scope Z_scope.

(** [q] and the remainder of a shift by [s], rounded half to even. *)
Definition round_shift (m s : Z) : Z :=
  let q := m / 2 ^ s in
  let r := m mod 2 ^ s in
  let half := 2 ^ (s - 1) in
  if (half <? r) || ((r =? half) && Z.odd q) then q + 1 else q.

(** The bits of a positive integer's double: the significand's carry moves
    into the exponent. *)
Definition magnitude (m : Z) : Z :=
  let k := Z.log2 m in
  (k + 1022) * 2 ^ 52 + (if k <=? 52 then m * 2 ^ (52 - k) else round_shift m (k - 52)).

Definition SIGN : Z := 2 ^ 63.

(** [n as f64], as bits. *)
Definition f64_of_i64 (n : Z) : N :=
  Z.to_N (if n =? 0 then 0 else if 0 <? n then magnitude n else SIGN + magnitude (- n)).

(** The signed integer [total_cmp] compares: a negative double's low bits are
    flipped. *)
Definition total_key (bits : N) : Z :=
  let b := Z.of_N bits in if b <? SIGN then b else - (b - SIGN) - 1.

Definition total_cmp (a b : N) : comparison := total_key a ?= total_key b.

Definition is_nan (bits : N) : bool := (2047 * 2 ^ 52 <? Z.of_N bits mod SIGN).
Definition is_zero (bits : N) : bool := (Z.of_N bits mod SIGN =? 0).

(** [==] on [f64] *)
Definition f64_eq (a b : N) : bool :=
  negb (is_nan a) && negb (is_nan b) && ((a =? b)%N || (is_zero a && is_zero b)).

(** [<] on [f64]: the order of the bits, the two zeros equal. *)
Definition f64_lt (a b : N) : bool :=
  negb (is_nan a) && negb (is_nan b) && negb (is_zero a && is_zero b) && (total_key a <? total_key b).

Definition f64_le (a b : N) : bool := f64_lt a b || f64_eq a b.

(** ** Facts *)

Lemma magnitude_range m : 0 < m -> m <= 2 ^ 53 ->
  (Z.log2 m + 1023) * 2 ^ 52 <= magnitude m < (Z.log2 m + 1024) * 2 ^ 52.
Proof.
  intros H0 H1. pose proof (Z.log2_spec m H0) as [Hl Hh]. pose proof (Z.log2_nonneg m) as Hk.
  unfold magnitude. cbv zeta. destruct (Z.leb_spec (Z.log2 m) 52) as [Hle|Hgt].
  - assert (E : 2 ^ Z.log2 m * 2 ^ (52 - Z.log2 m) = 2 ^ 52) by (rewrite <- Z.pow_add_r by lia; f_equal; lia).
    rewrite Z.pow_succ_r in Hh by lia. pose proof (Z.pow_pos_nonneg 2 (52 - Z.log2 m)). nia.
  - assert (Hm : m = 2 ^ 53).
    { assert (2 ^ 53 <= 2 ^ Z.log2 m) by (apply Z.pow_le_mono_r; lia). lia. }
    subst m. vm_compute. split; congruence.
Qed.

(** Strictly increasing up to [2 ^ 53], the last integer with a predecessor
    of its own. *)
Lemma magnitude_strict m m' : 0 < m -> m < m' -> m' <= 2 ^ 53 -> magnitude m < magnitude m'.
Proof.
  intros H0 Hlt H1. pose proof (magnitude_range m H0 ltac:(lia)). pose proof (magnitude_range m' ltac:(lia) H1).
  assert (Hk : Z.log2 m <= Z.log2 m') by (apply Z.log2_le_mono; lia).
  destruct (Z.eq_dec (Z.log2 m) (Z.log2 m')) as [E|Hne]; [|nia].
  assert (Hm : m < 2 ^ 53) by lia.
  assert (Hl : Z.log2 m <= 52).
  { apply Z.lt_succ_r, Z.log2_lt_pow2; [lia|]. exact Hm. }
  unfold magnitude. rewrite <- E. cbv zeta. destruct (Z.leb_spec (Z.log2 m) 52); [|lia].
  pose proof (Z.pow_pos_nonneg 2 (52 - Z.log2 m)). nia.
Qed.

Lemma magnitude_small m : 0 < m -> m <= 2 ^ 53 -> 0 < magnitude m < SIGN.
Proof.
  intros H0 H1. pose proof (magnitude_range m H0 H1). pose proof (Z.log2_nonneg m).
  assert (Z.log2 m <= 53) by (change 53 with (Z.log2 (2 ^ 53)); apply Z.log2_le_mono; lia).
  unfold SIGN. lia.
Qed.

(** The integers a double holds exactly keep their order. *)
Lemma total_cmp_exact a b :
  - 2 ^ 53 <= a <= 2 ^ 53 -> - 2 ^ 53 <= b <= 2 ^ 53 ->
  total_cmp (f64_of_i64 a) (f64_of_i64 b) = (a ?= b).
Proof.
  assert (K : forall z, - 2 ^ 53 <= z <= 2 ^ 53 ->
    total_key (f64_of_i64 z) = if z =? 0 then 0 else if 0 <? z then magnitude z else - magnitude (- z) - 1).
  { intros z Hz. unfold total_key, f64_of_i64. cbv zeta. destruct (Z.eqb_spec z 0); [done|].
    destruct (Z.ltb_spec 0 z).
    - pose proof (magnitude_small z). rewrite Z2N.id by lia. destruct (Z.ltb_spec (magnitude z) SIGN); lia.
    - pose proof (magnitude_small (- z)). unfold SIGN in *. rewrite Z2N.id by lia.
      destruct (Z.ltb_spec (2 ^ 63 + magnitude (- z)) (2 ^ 63)); lia. }
  assert (M : forall x y, - 2 ^ 53 <= x <= 2 ^ 53 -> - 2 ^ 53 <= y <= 2 ^ 53 -> x < y ->
    total_key (f64_of_i64 x) < total_key (f64_of_i64 y)).
  { intros x y Hx Hy Hlt. rewrite !K by done.
    destruct (Z.eqb_spec x 0), (Z.eqb_spec y 0), (Z.ltb_spec 0 x), (Z.ltb_spec 0 y); try lia;
      try (pose proof (magnitude_small x)); try (pose proof (magnitude_small y));
      try (pose proof (magnitude_small (- x))); try (pose proof (magnitude_small (- y))); try lia.
    - pose proof (magnitude_strict x y). lia.
    - pose proof (magnitude_strict (- y) (- x)). lia. }
  intros Ha Hb. unfold total_cmp. destruct (Z.compare_spec a b) as [->|H|H].
  - apply Z.compare_refl.
  - by apply Z.compare_lt_iff, M.
  - by apply Z.compare_gt_iff, M.
Qed.

Lemma total_key_inj a b : total_key a = total_key b -> a = b.
Proof.
  unfold total_key, SIGN. cbv zeta.
  destruct (Z.ltb_spec (Z.of_N a) (2 ^ 63)), (Z.ltb_spec (Z.of_N b) (2 ^ 63)); lia.
Qed.

Lemma total_cmp_eq a b : total_cmp a b = Eq -> a = b.
Proof. intros H%Z.compare_eq_iff. by apply total_key_inj. Qed.

(** Equal bits are an equal double, unless it is no number. *)
Lemma f64_eq_bits a : is_nan a = false -> f64_eq a a = true.
Proof. intros H. unfold f64_eq. rewrite H, N.eqb_refl. done. Qed.

(** * Values, struct keys and the order over them

    [value/heap.rs], [value/heap/objimpl.rs], [value/repr/mod.rs]: values with
    the heap objects behind them.  [value/repr/traits/ord.rs]: the order over
    values.  [value/types/key.rs]: struct keys, what may be one, and their
    order.

    A heap value carries its address and the object there, so a value is a
    tree; the guards of [value/cycle.rs] stop a comparison of a value that
    contains itself, and a tree does not.  Trait tables take no part in any
    comparison and are left out, as are the FFI descriptors and the
    never-allocated heap float. *)

Definition TAG_UNDEFINED : N := 8.
Definition TAG_CPOINTER : N := 9.
Definition TAG_NATIVE_FN : N := 10.

(** ** Data *)

Inductive Val :=
| Imm (v : Value)
| Heap (addr : N) (o : HeapObject)
with HeapObject :=
| O_LString (s : list N)
| O_Pair (first rest : Val)
| O_LArrayMut (data : list Val)
| O_LStructMut (data : list (TableKey * Val))
| O_LStruct (data : list (TableKey * Val))
| O_Closure
| O_Syntax
| O_LArray (elements : list Val)
| O_LBox (cell : Val)
| O_LibHandle (id : N)
| O_ThreadHandle (result : N)
| O_Fiber (id : N)
| O_ManagedPointer
| O_LStringMut (data : list N)
| O_LBytes (data : list N)
| O_LBytesMut (data : list N)
| O_External (data : N)
| O_Parameter
| O_LSet (data : list Val)
| O_LSetMut (data : list Val)
| O_CaptureCell (cell : Val)
| O_ClosureTemplate
with TableKey :=
| K_Nil
| K_Bool (b : bool)
| K_Int (i : Z)
| K_Symbol (id : N)
| K_String (v : Val)
| K_Keyword (hash : N)
| K_EmptyList
| K_Array (v : Val)
| K_Heap (v : Val).

(** [HeapObject::value_tag] *)
Definition value_tag (o : HeapObject) : N :=
  match o with
  | O_LString _ => 26
  | O_LStringMut _ => 11
  | O_LArray _ => 12
  | O_LArrayMut _ => 13
  | O_LStruct _ => 14
  | O_LStructMut _ => 15
  | O_Pair _ _ => 16
  | O_Closure => 17
  | O_LBytes _ => 18
  | O_LBytesMut _ => 19
  | O_LSet _ => 20
  | O_LSetMut _ => 21
  | O_LBox _ => 22
  | O_CaptureCell _ => 34
  | O_Fiber _ => 23
  | O_Syntax => 24
  | O_LibHandle _ => 29
  | O_ManagedPointer => 30
  | O_External _ => 31
  | O_Parameter => 32
  | O_ThreadHandle _ => 33
  | O_ClosureTemplate => 35
  end.

(** [HeapObject::tag] *)
Definition heap_tag (o : HeapObject) : N :=
  match o with
  | O_LString _ => 0
  | O_Pair _ _ => 1
  | O_LArrayMut _ => 2
  | O_LStructMut _ => 3
  | O_LStruct _ => 4
  | O_Closure => 5
  | O_Syntax => 6
  | O_LArray _ => 7
  | O_LBox _ => 8
  | O_LibHandle _ => 12
  | O_ThreadHandle _ => 14
  | O_Fiber _ => 16
  | O_ManagedPointer => 20
  | O_LStringMut _ => 21
  | O_LBytes _ => 22
  | O_LBytesMut _ => 23
  | O_External _ => 24
  | O_Parameter => 25
  | O_LSet _ => 26
  | O_LSetMut _ => 27
  | O_CaptureCell _ => 28
  | O_ClosureTemplate => 29
  end.

(** The sixteen bytes of a value. *)
Definition repr (v : Val) : Value :=
  match v with Imm x => x | Heap p o => mkValue (value_tag o) p end.

Definition val_payload (v : Val) : N := payload (repr v).

(** [Value::bit_identical] *)
Definition bit_identical (a b : Val) : bool := bool_decide (repr a = repr b).

(** ** Reads of an immediate *)

Definition imm_is (t : N) (v : Val) : bool := match v with Imm x => (tag x =? t)%N | _ => false end.

Definition as_bool (v : Val) : option bool :=
  if imm_is TAG_TRUE v then Some true else if imm_is TAG_FALSE v then Some false else None.

Definition as_int (v : Val) : option Z :=
  if imm_is TAG_INT v then Some (u64_as_i64 (val_payload v)) else None.

Definition as_float (v : Val) : option N :=
  if imm_is TAG_FLOAT v then Some (val_payload v) else None.

Definition as_number (v : Val) : option N :=
  match as_int v with Some i => Some (f64_of_i64 i) | None => as_float v end.

Definition as_symbol (v : Val) : option N := if imm_is TAG_SYMBOL v then Some (val_payload v) else None.
Definition keyword_hash (v : Val) : option N := if imm_is TAG_KEYWORD v then Some (val_payload v) else None.
Definition is_nil (v : Val) : bool := imm_is TAG_NIL v.
Definition is_empty_list (v : Val) : bool := imm_is TAG_EMPTY_LIST v.
Definition as_str (v : Val) : option (list N) := match v with Heap _ (O_LString s) => Some s | _ => None end.
Definition as_array (v : Val) : option (list Val) := match v with Heap _ (O_LArray l) => Some l | _ => None end.

(** ** The order over values *)

(** [Ordering::then_with] *)
Definition then_with (c d : comparison) : comparison := match c with Eq => d | o => o end.

(** [Iterator::cmp], the order of slices: the first difference, then length. *)
Definition lex {A} (c : A -> A -> comparison) : list A -> list A -> comparison :=
  fix go l1 l2 :=
    match l1, l2 with
    | [], [] => Eq
    | [], _ :: _ => Lt
    | _ :: _, [] => Gt
    | x :: l1, y :: l2 => then_with (c x y) (go l1 l2)
    end.

Definition heap_rank (o : HeapObject) : N :=
  match o with
  | O_LString _ => 7
  | O_Pair _ _ => 8
  | O_LArray _ => 9
  | O_LArrayMut _ => 10
  | O_LBytes _ => 11
  | O_LStringMut _ => 12
  | O_LBytesMut _ => 13
  | O_LStruct _ => 14
  | O_LStructMut _ => 15
  | O_Closure => 16
  | O_LBox _ | O_CaptureCell _ => 17
  | O_LibHandle _ => 19
  | O_ThreadHandle _ => 20
  | O_Fiber _ => 21
  | O_Syntax => 22
  | O_ManagedPointer => 25
  | O_External _ => 26
  | O_Parameter => 27
  | O_LSet _ => 28
  | O_LSetMut _ => 29
  | O_ClosureTemplate => 31
  end.

(** [type_rank] *)
Definition type_rank (v : Val) : N :=
  match v with
  | Imm x =>
    if (tag x =? TAG_NIL)%N then 0
    else if (tag x =? TAG_TRUE)%N || (tag x =? TAG_FALSE)%N then 1
    else if (tag x =? TAG_INT)%N || (tag x =? TAG_FLOAT)%N then 2
    else if (tag x =? TAG_SYMBOL)%N then 3
    else if (tag x =? TAG_KEYWORD)%N then 4
    else if (tag x =? TAG_CPOINTER)%N then 5
    else if (tag x =? TAG_EMPTY_LIST)%N then 6
    else if (tag x =? TAG_NATIVE_FN)%N then 18
    else 30
  | Heap _ o => heap_rank o
  end.

Definition cmp_bool (a b : bool) : comparison := (N.b2n a ?= N.b2n b)%N.

(** The number arm: two integers exactly, any other two as doubles. *)
Definition cmp_number (a b : Val) : comparison :=
  match as_int a, as_int b with
  | Some x, Some y => (x ?= y)%Z
  | _, _ => total_cmp (default 0%N (as_number a)) (default 0%N (as_number b))
  end.

(** The arms of [cmp_same_rank] over immediates. *)
Definition cmp_imm (rank : N) (a b : Val) : comparison :=
  if (rank =? 1)%N then cmp_bool (default false (as_bool a)) (default false (as_bool b))
  else if (rank =? 2)%N then cmp_number a b
  else if (rank =? 3)%N || (rank =? 4)%N || (rank =? 5)%N || (rank =? 18)%N
       then (val_payload a ?= val_payload b)%N
  else Eq.

(** [TableKey::discriminant_index] of the key [from_value] makes of a value. *)
Definition key_index (v : Val) : N :=
  match v with
  | Imm x =>
    if (tag x =? TAG_NIL)%N then 0
    else if (tag x =? TAG_TRUE)%N || (tag x =? TAG_FALSE)%N then 1
    else if (tag x =? TAG_INT)%N then 2
    else if (tag x =? TAG_SYMBOL)%N then 3
    else if (tag x =? TAG_KEYWORD)%N then 5
    else if (tag x =? TAG_EMPTY_LIST)%N then 6
    else 8
  | Heap _ (O_LString _) => 4
  | Heap _ (O_LArray _) => 7
  | Heap _ _ => 8
  end.

(** [TableKey::discriminant_index] *)
Definition discriminant_index (k : TableKey) : N :=
  match k with
  | K_Nil => 0 | K_Bool _ => 1 | K_Int _ => 2 | K_Symbol _ => 3 | K_String _ => 4
  | K_Keyword _ => 5 | K_EmptyList => 6 | K_Array _ => 7 | K_Heap _ => 8
  end.

(** One level of the comparison, over the comparisons of the parts: [vc] of
    values, [ec] of the elements of an array key, [kc] of keys. *)
Section Level.
Variable vc : Val -> Val -> comparison.
Variable ec : Val -> Val -> comparison.
Variable kc : TableKey -> TableKey -> comparison.

(** The tuple order of a struct's entries. *)
Definition cmp_entry (x y : TableKey * Val) : comparison :=
  let '(k1, v1) := x in let '(k2, v2) := y in then_with (kc k1 k2) (vc v1 v2).

(** [cmp_heap] *)
Definition cmp_heap (p : N) (o1 : HeapObject) (q : N) (o2 : HeapObject) : comparison :=
  if (p =? q)%N then Eq else
  match o1, o2 with
  | O_Pair f1 r1, O_Pair f2 r2 => then_with (vc f1 f2) (vc r1 r2)
  | O_LArray t1, O_LArray t2 => lex vc t1 t2
  | O_LArrayMut a1, O_LArrayMut a2 => lex vc a1 a2
  | O_LBytes b1, O_LBytes b2 => lex N.compare b1 b2
  | O_LStringMut b1, O_LStringMut b2 => lex N.compare b1 b2
  | O_LBytesMut b1, O_LBytesMut b2 => lex N.compare b1 b2
  | O_LStruct s1, O_LStruct s2 => lex cmp_entry s1 s2
  | O_LStructMut t1, O_LStructMut t2 => lex cmp_entry t1 t2
  | O_LBox c1, O_LBox c2 => vc c1 c2
  | O_CaptureCell c1, O_CaptureCell c2 => vc c1 c2
  | O_LibHandle h1, O_LibHandle h2 => (h1 ?= h2)%N
  | O_Fiber h1, O_Fiber h2 => (h1 ?= h2)%N
  | O_ThreadHandle h1, O_ThreadHandle h2 => (h1 ?= h2)%N
  | O_External x1, O_External x2 => (x1 ?= x2)%N
  | O_LSet s1, O_LSet s2 => lex vc s1 s2
  | O_LSetMut s1, O_LSetMut s2 => lex vc s1 s2
  | _, _ => (p ?= q)%N
  end.

(** [cmp_same_rank] *)
Definition cmp_same_rank (a b : Val) : comparison :=
  match a, b with
  | Heap p o1, Heap q o2 =>
    match o1, o2 with
    | O_LString s1, O_LString s2 => lex N.compare s1 s2
    | _, _ => cmp_heap p o1 q o2
    end
  | _, _ => cmp_imm (type_rank a) a b
  end.

(** [Value::cmp] *)
Definition value_step (a b : Val) : comparison :=
  if bit_identical a b then Eq
  else then_with (type_rank a ?= type_rank b)%N (cmp_same_rank a b).

(** Its arms for the keys without a store of their own; [heap] compares two
    [Heap] keys. *)
Definition cmp_plain_key (a b : Val) (heap : comparison) : comparison :=
  match as_bool a, as_bool b with
  | Some x, Some y => cmp_bool x y
  | _, _ =>
    match as_int a, as_int b with
    | Some x, Some y => (x ?= y)%Z
    | _, _ =>
      if (key_index a =? 3)%N || (key_index a =? 5)%N then (val_payload a ?= val_payload b)%N
      else if (key_index a =? 8)%N then heap else Eq
    end
  end.

(** [TableKey::cmp] of the keys [from_value] makes of two values. *)
Definition element_step (a b : Val) : comparison :=
  then_with (key_index a ?= key_index b)%N
    (match a, b with
     | Heap _ (O_LString s1), Heap _ (O_LString s2) => lex N.compare s1 s2
     | Heap _ (O_LArray l1), Heap _ (O_LArray l2) => lex ec l1 l2
     | _, _ => cmp_plain_key a b (value_step a b)
     end).

(** [TableKey::cmp] *)
Definition key_step (k1 k2 : TableKey) : comparison :=
  then_with (discriminant_index k1 ?= discriminant_index k2)%N
    (match k1, k2 with
     | K_Bool a, K_Bool b => cmp_bool a b
     | K_Int a, K_Int b => (a ?= b)%Z
     | K_Symbol a, K_Symbol b => (a ?= b)%N
     | K_String (Heap _ (O_LString a)), K_String (Heap _ (O_LString b)) => lex N.compare a b
     | K_Keyword a, K_Keyword b => (a ?= b)%N
     | K_Array (Heap _ (O_LArray a)), K_Array (Heap _ (O_LArray b)) => lex ec a b
     | K_Heap a, K_Heap b => vc a b
     | _, _ => Eq
     end).
End Level.

(** The whole: of two values as such, and as the keys they make. *)
Fixpoint cmp_as (as_key : bool) (a b : Val) {struct a} : comparison :=
  if as_key then element_step (cmp_as false) (cmp_as true) key_cmp a b
  else value_step (cmp_as false) key_cmp a b
with key_cmp (k1 k2 : TableKey) {struct k1} : comparison :=
  key_step (cmp_as false) (cmp_as true) k1 k2.

(** [Ord::cmp] of values. *)
Definition val_cmp : Val -> Val -> comparison := cmp_as false.

(** ** Struct keys *)

Definition forall_vals (P : Val -> bool) : list Val -> bool :=
  fix go l := match l with [] => true | x :: l => P x && go l end.

(** Whether [TableKey::from_value] answers a key: the whole tree is tested. *)
Fixpoint is_key (v : Val) : bool :=
  match v with
  | Imm x =>
    (tag x =? TAG_NIL)%N || (tag x =? TAG_TRUE)%N || (tag x =? TAG_FALSE)%N || (tag x =? TAG_INT)%N
    || (tag x =? TAG_SYMBOL)%N || (tag x =? TAG_KEYWORD)%N || (tag x =? TAG_EMPTY_LIST)%N
  | Heap _ (O_LString _) => true
  | Heap _ (O_LArray l) => forall_vals is_key l
  | Heap _ (O_Pair f r) => is_key f && is_key r
  | Heap _ (O_LBytes _) => true
  | Heap _ (O_LSet l) => forall_vals is_key l
  | Heap _ (O_LStruct d) =>
    (fix go (d : list (TableKey * Val)) := match d with [] => true | (_, v) :: d => is_key v && go d end) d
  | Heap _ (O_Fiber _) | Heap _ O_Closure | Heap _ (O_External _) => true
  | _ => false
  end.

(** [TableKey::from_value] *)
Definition from_value (v : Val) : option TableKey :=
  if is_nil v then Some K_Nil
  else match as_bool v with Some b => Some (K_Bool b) | None =>
  match as_int v with Some i => Some (K_Int i) | None =>
  match as_symbol v with Some id => Some (K_Symbol id) | None =>
  match keyword_hash v with Some h => Some (K_Keyword h) | None =>
  match as_str v with Some _ => Some (K_String v) | None =>
  if negb (is_key v) then None
  else match as_array v with Some _ => Some (K_Array v) | None =>
  if is_empty_list v then Some K_EmptyList else Some (K_Heap v)
  end end end end end end.

(** [TableKey::to_value] *)
Definition to_value (k : TableKey) : Val :=
  match k with
  | K_Nil => Imm V_NIL
  | K_Bool b => Imm (V_bool b)
  | K_Int i => Imm (V_int i)
  | K_Symbol s => Imm (V_symbol s)
  | K_Keyword h => Imm (V_keyword h)
  | K_EmptyList => Imm V_EMPTY_LIST
  | K_String v | K_Array v | K_Heap v => v
  end.
