(* ===== verification/ValueLaws.v ===== *)
(** * The laws of the value order

    Every value is encoded as a list of integers so that the order over values
    is the dictionary order over the encodings.  The laws of the order are
    then the laws of dictionaries. *)

From stdpp Require Import base numbers option list.
From S2P Require Import Prelude LirRecord Bytecode ValueTree.

(** ** Induction over values *)

Definition all_vals (P : Val -> Prop) : list Val -> Prop :=
  fix go l := match l with [] => True | x :: l => P x /\ go l end.

Definition all_entries (P : Val -> Prop) (Q : TableKey -> Prop) : list (TableKey * Val) -> Prop :=
  fix go l := match l with [] => True | (k, v) :: l => (Q k /\ P v) /\ go l end.

(** [P] of the values and [Q] of the keys an object holds. *)
Definition obj_all (P : Val -> Prop) (Q : TableKey -> Prop) (o : HeapObject) : Prop :=
  match o with
  | O_Pair f r => P f /\ P r
  | O_LArrayMut l | O_LArray l | O_LSet l | O_LSetMut l => all_vals P l
  | O_LStructMut d | O_LStruct d => all_entries P Q d
  | O_LBox v | O_CaptureCell v => P v
  | _ => True
  end.

Definition key_all (P : Val -> Prop) (k : TableKey) : Prop :=
  match k with K_String v | K_Array v | K_Heap v => P v | _ => True end.

Section Induction.
Context (P : Val -> Prop) (Q : TableKey -> Prop).
Context (Himm : forall x, P (Imm x)) (Hheap : forall p o, obj_all P Q o -> P (Heap p o))
  (Hkey : forall k, key_all P k -> Q k).

Fixpoint val_induct (v : Val) : P v :=
  match v with
  | Imm x => Himm x
  | Heap p o => Hheap p o
      (let fix vals (l : list Val) : all_vals P l :=
         match l with [] => I | x :: l => conj (val_induct x) (vals l) end in
       let fix entries (l : list (TableKey * Val)) : all_entries P Q l :=
         match l with [] => I | (k, v) :: l => conj (conj (key_induct k) (val_induct v)) (entries l) end in
       match o return obj_all P Q o with
       | O_Pair f r => conj (val_induct f) (val_induct r)
       | O_LArrayMut l | O_LArray l | O_LSet l | O_LSetMut l => vals l
       | O_LStructMut d | O_LStruct d => entries d
       | O_LBox v | O_CaptureCell v => val_induct v
       | _ => I
       end)
  end
with key_induct (k : TableKey) : Q k :=
  Hkey k (match k return key_all P k with
          | K_String v | K_Array v | K_Heap v => val_induct v
          | _ => I
          end).
End Induction.

(** ** The order, one level at a time *)

(** The keys two values make. *)
Definition kv_cmp : Val -> Val -> comparison := cmp_as true.

Lemma val_cmp_eq a b : val_cmp a b = value_step val_cmp key_cmp a b.
Proof. by destruct a. Qed.

Lemma kv_cmp_eq a b : kv_cmp a b = element_step val_cmp kv_cmp key_cmp a b.
Proof. by destruct a. Qed.

Lemma key_cmp_eq k1 k2 : key_cmp k1 k2 = key_step val_cmp kv_cmp k1 k2.
Proof. by destruct k1. Qed.

(** ** Dictionaries of integers *)

Definition lexz : list Z -> list Z -> comparison := lex Z.compare.

Lemma lexz_cons x y l1 l2 : lexz (x :: l1) (y :: l2) = then_with (x ?= y)%Z (lexz l1 l2).
Proof. reflexivity. Qed.

Lemma lexz_same l r1 r2 : lexz (l ++ r1) (l ++ r2) = lexz r1 r2.
Proof. induction l as [|x l IH]; [done|]. cbn [app]. by rewrite lexz_cons, Z.compare_refl. Qed.

Lemma lexz_refl l : lexz l l = Eq.
Proof. rewrite <- (app_nil_r l) at 1 2. by rewrite lexz_same. Qed.

Lemma lexz_eq l1 : forall l2, lexz l1 l2 = Eq -> l1 = l2.
Proof.
  induction l1 as [|x l1 IH]; intros [|y l2]; try done. rewrite lexz_cons.
  destruct (Z.compare_spec x y) as [->|H|H]; try done. intros E. f_equal. by apply IH.
Qed.

Lemma lexz_antisym l1 : forall l2, lexz l2 l1 = CompOpp (lexz l1 l2).
Proof.
  induction l1 as [|x l1 IH]; intros [|y l2]; try done. rewrite !lexz_cons, (Z.compare_antisym x y), IH.
  by destruct (x ?= y)%Z.
Qed.

Lemma lexz_trans l1 : forall l2 l3, lexz l1 l2 = Lt -> lexz l2 l3 = Lt -> lexz l1 l3 = Lt.
Proof.
  induction l1 as [|x l1 IH]; intros [|y l2] [|z l3]; try done. rewrite !lexz_cons.
  destruct (Z.compare_spec x y) as [->|H1|H1]; [|intros _|done]; cbn [then_with].
  - destruct (Z.compare_spec y z) as [->|H2|H2]; cbn [then_with]; [apply IH | done | done].
  - intros H. assert (x < z)%Z as E; [|by rewrite (proj2 (Z.compare_lt_iff x z) E)].
    destruct (Z.compare_spec y z) as [->|H2|H2]; [done | lia | done].
Qed.

Lemma then_with_assoc c d e : then_with (then_with c d) e = then_with c (then_with d e).
Proof. by destruct c. Qed.

Lemma compare_of_N x y : (Z.of_N x ?= Z.of_N y)%Z = (x ?= y)%N.
Proof. apply N2Z.inj_compare. Qed.

(** Each element behind a 1, the end a 0. *)
Definition list_enc {A} (f : A -> list Z) : list A -> list Z :=
  fix go l := match l with [] => [0%Z] | x :: l => 1%Z :: f x ++ go l end.

Lemma list_enc_lex {A} (f : A -> list Z) (c : A -> A -> comparison) (R : A -> Prop) l1 : forall l2 r1 r2,
  Forall (fun x => forall y s1 s2, R y ->
    lexz (f x ++ s1) (f y ++ s2) = then_with (c x y) (lexz s1 s2)) l1 ->
  Forall R l2 ->
  lexz (list_enc f l1 ++ r1) (list_enc f l2 ++ r2) = then_with (lex c l1 l2) (lexz r1 r2).
Proof.
  induction l1 as [|x l1 IH]; intros [|y l2] r1 r2 H1 H2; try done.
  apply Forall_cons in H1 as [Hx H1]. apply Forall_cons in H2 as [Hy H2]. cbn [list_enc app lex].
  rewrite lexz_cons, <- !app_assoc. cbn [Z.compare then_with]. rewrite Hx by exact Hy.
  destruct (c x y); [|done..]. by apply IH.
Qed.

Definition bytes_enc (l : list N) : list Z := list_enc (fun b => [Z.of_N b]) l.

Lemma bytes_enc_lex l1 l2 r1 r2 :
  lexz (bytes_enc l1 ++ r1) (bytes_enc l2 ++ r2) = then_with (lex N.compare l1 l2) (lexz r1 r2).
Proof.
  apply (list_enc_lex _ _ (fun _ => True)); apply Forall_forall; [|done].
  intros x _ y s1 s2 _. cbn [app]. by rewrite lexz_cons, compare_of_N.
Qed.

Lemma all_vals_Forall P l : all_vals P l <-> Forall P l.
Proof. induction l as [|x l IH]; cbn; [by rewrite Forall_nil|]. by rewrite Forall_cons, IH. Qed.

Lemma all_entries_Forall P Q l : all_entries P Q l <-> Forall (fun x => Q x.1 /\ P x.2) l.
Proof. induction l as [|[k v] l IH]; cbn; [by rewrite Forall_nil|]. by rewrite Forall_cons, IH. Qed.

(** ** Values the order is lawful on

    [mem] says what object lies at an address, [obj_ok] and [imm_ok] which
    objects and immediates may occur and [num] where a number ranks among the
    numbers.  Capture cells share a rank with boxes and are never compared. *)

(** A tag of an immediate, a payload of 64 bits, none where the tag is all. *)
Definition imm_known (x : Value) : Prop :=
  (tag x <= 10)%N /\ (payload x < 2 ^ 64)%N /\
  (tag x ∈ [TAG_NIL; TAG_TRUE; TAG_FALSE; TAG_EMPTY_LIST; TAG_UNDEFINED] -> payload x = 0%N).

(** Case analysis on the tag of a known immediate. *)
Lemma known_tags t : (t <= 10)%N -> t ∈ [0; 1; 2; 3; 4; 5; 6; 7; 8; 9; 10]%N.
Proof. intros H. rewrite !elem_of_cons, elem_of_nil. lia. Qed.

Ltac each_tag H := apply proj1 in H; cbn [tag] in H; apply known_tags in H; repeat (apply elem_of_cons in H as [->|H]); [..|by apply elem_of_nil in H].

Lemma rank_apart x o : imm_known x -> type_rank (Imm x) <> heap_rank o.
Proof.
  destruct x as [t w]. unfold imm_known. intros H.
  assert (R : type_rank (Imm (mkValue t w)) ∈ [0; 1; 2; 3; 4; 5; 6; 18; 30]%N).
  { each_tag H; cbn; rewrite !elem_of_cons; tauto. }
  intros E. rewrite E in R. rewrite !elem_of_cons, elem_of_nil in R. destruct o; cbn in R; lia.
Qed.

Section Order.
Definition no_capture (o : HeapObject) : Prop := match o with O_CaptureCell _ => False | _ => True end.

Context (mem : N -> HeapObject) (obj_ok : HeapObject -> Prop) (imm_ok : Value -> Prop) (num : Value -> Z).

Fixpoint val_ok (v : Val) : Prop :=
  match v with
  | Imm x => imm_known x /\ imm_ok x
  | Heap p o =>
    mem p = o /\ obj_ok o /\ obj_all val_ok key_ok o
  end
with key_ok (k : TableKey) : Prop :=
  match k with K_String v | K_Array v | K_Heap v => val_ok v | _ => True end /\
  match k with
  | K_String (Heap _ (O_LString _)) => True
  | K_Array (Heap p (O_LArray l)) => is_key (Heap p (O_LArray l)) = true
  | K_Heap v => is_key v = true /\ key_index v = 8%N
  | K_String _ | K_Array _ => False
  | _ => True
  end.

Context (obj_spec : forall o, obj_ok o -> no_capture o).
Context (num_spec : forall x y, imm_ok x -> imm_ok y ->
  type_rank (Imm x) = 2%N -> type_rank (Imm y) = 2%N -> cmp_number (Imm x) (Imm y) = (num x ?= num y)%Z).

(** *** The encoding *)

Definition imm_enc (x : Value) : list Z :=
  let r := type_rank (Imm x) in
  if (r =? 1)%N then [Z.of_N (N.b2n (tag x =? TAG_TRUE)%N)]
  else if (r =? 2)%N then [num x]
  else if (r =? 3)%N || (r =? 4)%N || (r =? 5)%N || (r =? 18)%N then [Z.of_N (payload x)]
  else [].

Section EncLevel.
Variables (ve ee : Val -> list Z) (ke : TableKey -> list Z).

Definition obj_enc (p : N) (o : HeapObject) : list Z :=
  match o with
  | O_LString s | O_LBytes s | O_LStringMut s | O_LBytesMut s => bytes_enc s
  | O_Pair f r => ve f ++ ve r
  | O_LArray l | O_LArrayMut l | O_LSet l | O_LSetMut l => list_enc ve l
  | O_LStruct d | O_LStructMut d => list_enc (fun x : TableKey * Val => let '(k, v) := x in ke k ++ ve v) d
  | O_LBox v => ve v
  | O_LibHandle n | O_Fiber n | O_ThreadHandle n | O_External n => [Z.of_N n]
  | _ => [Z.of_N p]
  end.

Definition value_enc (v : Val) : list Z :=
  Z.of_N (type_rank v) :: match v with Imm x => imm_enc x | Heap p o => obj_enc p o end.

Definition element_enc (v : Val) : list Z :=
  Z.of_N (key_index v) ::
  match v with
  | Heap _ (O_LString s) => bytes_enc s
  | Heap _ (O_LArray l) => list_enc ee l
  | Imm x => if (key_index v =? 8)%N then value_enc v else imm_enc x
  | _ => value_enc v
  end.

Definition key_level (k : TableKey) : list Z :=
  Z.of_N (discriminant_index k) ::
  match k with
  | K_Bool b => [Z.of_N (N.b2n b)]
  | K_Int i => [i]
  | K_Symbol n | K_Keyword n => [Z.of_N n]
  | K_String (Heap _ (O_LString s)) => bytes_enc s
  | K_Array (Heap _ (O_LArray l)) => list_enc ee l
  | K_Heap v => ve v
  | _ => []
  end.
End EncLevel.

Fixpoint enc (as_key : bool) (v : Val) : list Z :=
  if as_key then element_enc (enc false) (enc true) key_enc v else value_enc (enc false) key_enc v
with key_enc (k : TableKey) : list Z := key_level (enc false) (enc true) k.

Lemma val_enc_eq v : enc false v = value_enc (enc false) key_enc v.
Proof. by destruct v. Qed.

Lemma elem_enc_eq v : enc true v = element_enc (enc false) (enc true) key_enc v.
Proof. by destruct v. Qed.

Lemma key_enc_eq k : key_enc k = key_level (enc false) (enc true) k.
Proof. by destruct k. Qed.

(** *** The encoding carries the order *)

Definition val_carried (a : Val) : Prop := forall m b r1 r2, val_ok a -> val_ok b ->
  lexz (enc m a ++ r1) (enc m b ++ r2) = then_with (cmp_as m a b) (lexz r1 r2).

Definition key_carried (k1 : TableKey) : Prop := forall k2 r1 r2, key_ok k1 -> key_ok k2 ->
  lexz (key_enc k1 ++ r1) (key_enc k2 ++ r2) = then_with (key_cmp k1 k2) (lexz r1 r2).

Lemma same_repr a b : val_ok a -> val_ok b -> repr a = repr b -> a = b.
Proof.
  destruct a as [x|p o1], b as [y|q o2]; cbn [val_ok repr].
  - intros _ _ E. by rewrite E.
  - intros [[H _] _] _ ->. cbn [tag] in H. by destruct o2.
  - intros _ [[H _] _] <-. cbn [tag] in H. by destruct o1.
  - intros [<- _] [<- _] [= _ ->]. done.
Qed.

Lemma imm_lex x y r1 r2 :
  imm_known x -> imm_known y -> imm_ok x -> imm_ok y -> type_rank (Imm x) = type_rank (Imm y) ->
  lexz (imm_enc x ++ r1) (imm_enc y ++ r2) = then_with (cmp_imm (type_rank (Imm x)) (Imm x) (Imm y)) (lexz r1 r2).
Proof.
  intros Kx Ky Ox Oy E. unfold imm_enc, cmp_imm. cbv zeta. rewrite <- E.
  destruct (N.eqb_spec (type_rank (Imm x)) 1) as [E1|_].
  - cbn [app]. rewrite lexz_cons, compare_of_N. f_equal.
    destruct x as [t w], y as [t' w']. unfold imm_known in *.
    each_tag Kx; cbn in E1; try discriminate; each_tag Ky; cbn in E; try discriminate; reflexivity.
  - destruct (N.eqb_spec (type_rank (Imm x)) 2) as [E2|_].
    + cbn [app]. rewrite lexz_cons. f_equal. symmetry. apply num_spec; congruence.
    + destruct (_ || _)%N; [|done]. cbn [app]. by rewrite lexz_cons, compare_of_N.
Qed.

Lemma vals_lex m l1 l2 r1 r2 :
  all_vals val_carried l1 -> all_vals val_ok l1 -> all_vals val_ok l2 ->
  lexz (list_enc (enc m) l1 ++ r1) (list_enc (enc m) l2 ++ r2)
  = then_with (lex (cmp_as m) l1 l2) (lexz r1 r2).
Proof.
  rewrite !all_vals_Forall. intros H1 H2 H3. apply (list_enc_lex _ _ val_ok); [|done].
  rewrite Forall_forall in *. intros x Hx y s1 s2 Hy. by apply H1; [|apply H2|].
Qed.

Lemma entries_lex l1 l2 r1 r2 :
  all_entries val_carried key_carried l1 -> all_entries val_ok key_ok l1 -> all_entries val_ok key_ok l2 ->
  lexz (list_enc (fun x : TableKey * Val => let '(k, v) := x in key_enc k ++ enc false v) l1 ++ r1)
       (list_enc (fun x : TableKey * Val => let '(k, v) := x in key_enc k ++ enc false v) l2 ++ r2)
  = then_with (lex (cmp_entry val_cmp key_cmp) l1 l2) (lexz r1 r2).
Proof.
  rewrite !all_entries_Forall. intros H1 H2 H3.
  apply (list_enc_lex _ _ (fun x => key_ok x.1 /\ val_ok x.2)); [|done].
  rewrite Forall_forall in *. intros [k v] Hx [k' v'] s1 s2 [Hk Hv]. cbn [fst snd] in *.
  destruct (H1 _ Hx) as [C1 C2], (H2 _ Hx) as [O1 O2]. cbn [fst snd] in *.
  rewrite <- !app_assoc, C1, C2 by done. cbn [cmp_entry]. by rewrite then_with_assoc.
Qed.

Lemma obj_lex p o1 q o2 r1 r2 :
  p <> q -> heap_rank o1 = heap_rank o2 -> obj_all val_carried key_carried o1 ->
  val_ok (Heap p o1) -> val_ok (Heap q o2) ->
  lexz (obj_enc (enc false) key_enc p o1 ++ r1) (obj_enc (enc false) key_enc q o2 ++ r2)
  = then_with (cmp_same_rank val_cmp key_cmp (Heap p o1) (Heap q o2)) (lexz r1 r2).
Proof.
  intros Hpq Hr C (_ & N1%obj_spec & K1) (_ & N2%obj_spec & K2).
  assert (Epq : (p =? q)%N = false) by (by apply N.eqb_neq).
  destruct o1, o2; try discriminate; try done; cbn [obj_enc cmp_same_rank];
    unfold cmp_heap; rewrite ?Epq; cbn [obj_all] in C, K1, K2;
    try (by apply bytes_enc_lex); try (by apply vals_lex); try (by apply entries_lex);
    try (by cbn [app]; rewrite lexz_cons, compare_of_N).
  - destruct C as [C1 C2], K1 as [K1 K1'], K2 as [K2 K2']. rewrite <- !app_assoc, C1, C2 by done.
    by rewrite then_with_assoc.
  - by apply C.
Qed.

Lemma value_lex a b r1 r2 :
  match a with Heap _ o => obj_all val_carried key_carried o | _ => True end ->
  val_ok a -> val_ok b ->
  lexz (enc false a ++ r1) (enc false b ++ r2) = then_with (val_cmp a b) (lexz r1 r2).
Proof.
  intros C Ha Hb. rewrite val_cmp_eq. unfold value_step, bit_identical. case_bool_decide as E.
  { rewrite (same_repr a b) by done. by rewrite lexz_same. }
  rewrite !val_enc_eq. unfold value_enc. cbn [app]. rewrite lexz_cons, compare_of_N, then_with_assoc.
  destruct (N.compare_spec (type_rank a) (type_rank b)) as [R|R|R]; try done. cbn [then_with].
  destruct a as [x|p o1], b as [y|q o2].
  - destruct Ha, Hb. by apply imm_lex.
  - destruct Ha as [Ka _]. by destruct (rank_apart x o2).
  - destruct Hb as [Kb _]. by destruct (rank_apart y o1).
  - apply obj_lex; try done. intros ->. apply E. cbn. destruct Ha as [<- _], Hb as [<- _]. done.
Qed.

(** Two immediates that make keys of one kind. *)
Lemma imm_element_lex x y h r1 r2 :
  imm_known x -> imm_known y -> imm_ok x -> imm_ok y ->
  key_index (Imm x) = key_index (Imm y) -> key_index (Imm x) <> 8%N ->
  lexz (imm_enc x ++ r1) (imm_enc y ++ r2) = then_with (cmp_plain_key (Imm x) (Imm y) h) (lexz r1 r2).
Proof.
  intros Kx Ky Ox Oy E N8.
  assert (R : type_rank (Imm x) = type_rank (Imm y)).
  { destruct x as [t w], y as [t' w']. unfold imm_known in *.
    each_tag Kx; cbn in N8; try done; each_tag Ky; cbn in E; try discriminate; reflexivity. }
  rewrite imm_lex by done. f_equal. destruct x as [t w], y as [t' w'].
  unfold imm_known in *.
  each_tag Kx; cbn in N8; try done; each_tag Ky; cbn in E; try discriminate; reflexivity.
Qed.

Lemma plain_key_heap a b h : key_index a = 8%N -> cmp_plain_key a b h = h.
Proof.
  intros E. assert (as_bool a = None /\ as_int a = None) as [E1 E2].
  { destruct a as [x|p o]; [|done]. unfold key_index in E. unfold as_bool, as_int, imm_is.
    destruct (tag x =? TAG_NIL)%N, (tag x =? TAG_TRUE)%N, (tag x =? TAG_FALSE)%N, (tag x =? TAG_INT)%N;
      cbn in E; try discriminate; split; reflexivity. }
  unfold cmp_plain_key. by rewrite E1, E2, E.
Qed.

(** A value that makes a [Heap] key is encoded as itself. *)
Lemma element_enc_heap v : key_index v = 8%N ->
  element_enc (enc false) (enc true) key_enc v = 8%Z :: enc false v.
Proof.
  intros E. rewrite val_enc_eq. unfold element_enc. rewrite E. destruct v as [x|p o]; [done|].
  by destruct o.
Qed.

Lemma element_step_heap a b : key_index a = 8%N -> key_index b = 8%N ->
  element_step val_cmp kv_cmp key_cmp a b = val_cmp a b.
Proof.
  intros Ea Eb. unfold element_step. rewrite Ea, Eb, val_cmp_eq. cbn [N.compare Pos.compare Pos.compare_cont then_with].
  transitivity (cmp_plain_key a b (value_step val_cmp key_cmp a b)); [|by apply plain_key_heap].
  destruct a as [x|p o1]; [done|]. by destruct o1.
Qed.

Lemma element_lex a b r1 r2 :
  match a with Heap _ o => obj_all val_carried key_carried o | _ => True end ->
  val_ok a -> val_ok b ->
  lexz (enc true a ++ r1) (enc true b ++ r2) = then_with (kv_cmp a b) (lexz r1 r2).
Proof.
  intros C Ha Hb. rewrite kv_cmp_eq, !elem_enc_eq.
  destruct (decide (key_index a = 8%N /\ key_index b = 8%N)) as [[Ea Eb]|N8].
  { rewrite !element_enc_heap, element_step_heap by done. cbn [app]. rewrite lexz_cons. by apply value_lex. }
  unfold element_step, element_enc. cbn [app]. rewrite lexz_cons, compare_of_N, then_with_assoc.
  destruct (N.compare_spec (key_index a) (key_index b)) as [R|R|R]; try done. cbn [then_with].
  assert (Na : key_index a <> 8%N) by (intros E; apply N8; split; congruence).
  destruct a as [x|p o1].
  - assert (Hy : exists y, b = Imm y).
    { destruct b as [y|q o2]; [by exists y|]. destruct Ha as [Kx _], x as [t w]. unfold imm_known in Kx.
      each_tag Kx; cbn in R, Na; try done; by destruct o2. }
    destruct Hy as [y ->]. rewrite <- R. destruct (N.eqb_spec (key_index (Imm x)) 8); [done|].
    destruct Ha, Hb. by apply imm_element_lex.
  - destruct o1; try done; destruct b as [y|q o2]; cbn in R;
      try (destruct Hb as [Ky _], y as [t w]; unfold imm_known in Ky; by each_tag Ky);
      destruct o2; try discriminate.
    + apply bytes_enc_lex.
    + destruct Ha as (_ & _ & Ha), Hb as (_ & _ & Hb). by apply vals_lex.
Qed.

Lemma key_lex k1 k2 r1 r2 :
  key_all val_carried k1 -> key_ok k1 -> key_ok k2 ->
  match k1 with K_Array (Heap _ (O_LArray l)) => all_vals val_carried l | _ => True end ->
  lexz (key_enc k1 ++ r1) (key_enc k2 ++ r2) = then_with (key_cmp k1 k2) (lexz r1 r2).
Proof.
  intros C H1 H2 A. rewrite key_cmp_eq, !key_enc_eq. unfold key_step, key_level. cbn [app].
  rewrite lexz_cons, compare_of_N, then_with_assoc.
  destruct (N.compare_spec (discriminant_index k1) (discriminant_index k2)) as [R|R|R]; try done. cbn [then_with].
  destruct k1, k2; try discriminate; try done; destruct H1 as [H1 S1], H2 as [H2 S2]; cbn [app];
    rewrite ?lexz_cons, ?compare_of_N; try done.
  - destruct v as [|? []]; try done. destruct v0 as [|? []]; try done. apply bytes_enc_lex.
  - destruct v as [|? []]; try done. destruct v0 as [|? []]; try done.
    destruct H1 as (_ & _ & H1), H2 as (_ & _ & H2). by apply vals_lex.
  - by apply C.
Qed.

Lemma carried v : val_carried v.
Proof.
  (* the elements of an array are carried, whatever holds the array *)
  set (P := fun v => val_carried v /\ match v with Heap _ (O_LArray l) => all_vals val_carried l | _ => True end).
  assert (Mono : forall o, obj_all P key_carried o -> obj_all val_carried key_carried o).
  { intros o. destruct o; cbn [obj_all]; try done; rewrite ?all_vals_Forall, ?all_entries_Forall;
      unfold P; try (intros H; eapply Forall_impl; [exact H|]; intros x Hx; cbn in Hx |- *; by destruct_and? Hx).
    - intros [[? _] [? _]]. done.
    - intros [? _]. done.
    - intros [? _]. done. }
  enough (P v) by apply H. revert v.
  apply (val_induct P key_carried).
  - intros x. split; [|done]. intros [] b r1 r2 Ha Hb; [by apply element_lex | by apply value_lex].
  - intros p o C%Mono. split.
    + intros [] b r1 r2 Ha Hb; [by apply element_lex | by apply value_lex].
    + by destruct o.
  - intros k C k2 r1 r2 H1 H2. apply key_lex; try done.
    + destruct k; try done; apply C.
    + destruct k; try done; apply C.
Qed.

Lemma key_is_carried k : key_carried k.
Proof.
  intros k2 r1 r2 H1 H2. apply key_lex; try done.
  - destruct k; try done; apply carried.
  - destruct k as [| | | | | | |v|]; try done. destruct v as [|p []]; try done.
    apply all_vals_Forall, Forall_forall. intros x _. apply carried.
Qed.

Lemma val_cmp_enc a b : val_ok a -> val_ok b -> val_cmp a b = lexz (enc false a) (enc false b).
Proof.
  intros Ha Hb. pose proof (carried a false b [] [] Ha Hb) as E. rewrite !app_nil_r in E. rewrite E.
  unfold val_cmp. by destruct (cmp_as false a b).
Qed.

Lemma key_cmp_enc a b : key_ok a -> key_ok b -> key_cmp a b = lexz (key_enc a) (key_enc b).
Proof.
  intros Ha Hb. pose proof (key_is_carried a b [] [] Ha Hb) as E. rewrite !app_nil_r in E. rewrite E.
  by destruct (key_cmp a b).
Qed.
End Order.

(** ** What a lawful comparison is *)

Record lawful {A} (ok : A -> Prop) (c : A -> A -> comparison) : Prop := mk_lawful {
  law_refl : forall a, ok a -> c a a = Eq;
  law_congr : forall x y z, ok x -> ok y -> ok z -> c x y = Eq -> c x z = c y z;
  law_antisym : forall x y, ok x -> ok y -> c y x = CompOpp (c x y);
  law_trans : forall x y z, ok x -> ok y -> ok z -> c x y = Lt -> c y z = Lt -> c x z = Lt }.

(** A comparison that a dictionary decides is lawful. *)
Lemma lawful_enc {A} (ok : A -> Prop) c (f : A -> list Z) :
  (forall a b, ok a -> ok b -> c a b = lexz (f a) (f b)) -> lawful ok c.
Proof.
  intros E. split.
  - intros a Ha. rewrite E by done. apply lexz_refl.
  - intros x y z Hx Hy Hz. rewrite !E by done. by intros ->%lexz_eq.
  - intros x y Hx Hy. rewrite !E by done. apply lexz_antisym.
  - intros x y z Hx Hy Hz. rewrite !E by done. apply lexz_trans.
Qed.
