(* ===== verification/ValueEq.v ===== *)
(** * Equality and hashing of values

    [value/repr/eq.rs]: the two equality relations, one traversal.
    [value/repr/traits.rs], [value/types/key.rs]: what a value and a struct key
    feed to a hasher, as the list of its writes; equality of keys.

    Some arms of the source take an immutable and a mutable operand in either
    order and compare the immutable one's parts first.  The traversal here
    always compares the left operand's parts first; [eq_with] is symmetric
    ([ValueEqLaws.eq_symmetric]), so the answer is the same. *)

From stdpp Require Import base numbers option list.
From S2P Require Import Prelude LirRecord Bytecode ValueTree.

Inductive Relation := Identity | Numeric.

#[export] Instance Relation_eq_dec : EqDecision Relation.
Proof. solve_decision. Defined.

Definition bytes_eq (a b : list N) : bool := bool_decide (a = b).

Definition is_number (v : Val) : bool := imm_is TAG_INT v || imm_is TAG_FLOAT v.

(** The immediates' part of [eq_with]. *)
Definition imm_eq (rel : Relation) (a b : Val) : bool :=
  if bool_decide (rel = Numeric) && is_number a && is_number b then
    match as_int a, as_int b with
    | Some x, Some y => (x =? y)%Z
    | _, _ => match as_number a, as_number b with Some x, Some y => f64_eq x y | _, _ => false end
    end
  else bit_identical a b.

(** [zip(..).all(..)] under a length test. *)
Definition slice_eq {A} (e : A -> A -> bool) : list A -> list A -> bool :=
  fix go l1 l2 :=
    match l1, l2 with
    | [], [] => true
    | x :: l1, y :: l2 => e x y && go l1 l2
    | _, _ => false
    end.

(** A lookup in a struct's store, the value found handed to [f]. *)
Definition get_and (f : Val -> bool) (key : TableKey) : list (TableKey * Val) -> bool :=
  fix go l :=
    match l with
    | [] => false
    | (k, v) :: l => match key_cmp key k with Eq => f v | _ => go l end
    end.

Definition is_pair (v : Val) : bool := match v with Heap _ (O_Pair _ _) => true | _ => false end.

Section Level.
Variable ve : Val -> Val -> bool.
Variable chain : Val -> Val -> bool.
Variable ke : TableKey -> TableKey -> bool.
Variable rel : Relation.

(** [pair_eq], one round of its loop. *)
Definition pair_level (f1 r1 f2 r2 : Val) : bool :=
  ve f1 f2 && (if is_pair r1 && is_pair r2 then chain r1 r2 else ve r1 r2).

Definition entry_eq (x y : TableKey * Val) : bool :=
  let '(k1, v1) := x in let '(k2, v2) := y in ke k1 k2 && ve v1 v2.

(** Every entry of the first is found in the second. *)
Definition entries_found (s1 s2 : list (TableKey * Val)) : bool :=
  (length s1 =? length s2) &&
  (fix go l := match l with [] => true | (k, v) :: l => get_and (fun v2 => ve v v2) k s2 && go l end) s1.

(** Every entry of the second is found in the first. *)
Definition entries_found_in (s1 s2 : list (TableKey * Val)) : bool :=
  (length s1 =? length s2) && forallb (fun '(k, v) => get_and (fun v1 => ve v1 v) k s1) s2.

Definition obj_eq (p : N) (o1 : HeapObject) (q : N) (o2 : HeapObject) : bool :=
  match o1, o2 with
  | O_LString s1, O_LString s2 => bytes_eq s1 s2
  | O_LString s1, O_LStringMut b2 => bytes_eq s1 b2
  | O_LStringMut b1, O_LString s2 => bytes_eq b1 s2
  | O_LStringMut b1, O_LStringMut b2 => bytes_eq b1 b2
  | O_Pair f1 r1, O_Pair f2 r2 => pair_level f1 r1 f2 r2
  | O_LArray a1, O_LArray a2 => slice_eq ve a1 a2
  | O_LArray a1, O_LArrayMut a2 => slice_eq ve a1 a2
  | O_LArrayMut a1, O_LArray a2 => slice_eq ve a1 a2
  | O_LArrayMut a1, O_LArrayMut a2 => slice_eq ve a1 a2
  | O_LStruct s1, O_LStruct s2 => slice_eq entry_eq s1 s2
  | O_LStruct s1, O_LStructMut s2 => entries_found s1 s2
  | O_LStructMut s1, O_LStruct s2 => entries_found_in s1 s2
  | O_LStructMut s1, O_LStructMut s2 => slice_eq entry_eq s1 s2
  | O_LBytes b1, O_LBytes b2 => bytes_eq b1 b2
  | O_LBytes b1, O_LBytesMut b2 => bytes_eq b1 b2
  | O_LBytesMut b1, O_LBytes b2 => bytes_eq b1 b2
  | O_LBytesMut b1, O_LBytesMut b2 => bytes_eq b1 b2
  | O_LSet s1, O_LSet s2 => slice_eq ve s1 s2
  | O_LSet s1, O_LSetMut s2 => slice_eq ve s1 s2
  | O_LSetMut s1, O_LSet s2 => slice_eq ve s1 s2
  | O_LSetMut s1, O_LSetMut s2 => slice_eq ve s1 s2
  | O_Closure, O_Closure => (p =? q)%N
  | O_LBox c1, O_LBox c2 => ve c1 c2
  | O_CaptureCell c1, O_CaptureCell c2 => ve c1 c2
  | O_LibHandle h1, O_LibHandle h2 => (h1 =? h2)%N
  | O_ThreadHandle h1, O_ThreadHandle h2 => (h1 =? h2)%N
  | O_Fiber h1, O_Fiber h2 => (h1 =? h2)%N
  | O_Syntax, O_Syntax => (p =? q)%N
  | O_ManagedPointer, O_ManagedPointer => (p =? q)%N
  | O_External x1, O_External x2 => (x1 =? x2)%N
  | O_Parameter, O_Parameter => (p =? q)%N
  | _, _ => false
  end.

(** [eq_with] *)
Definition eq_level (a b : Val) : bool :=
  match a, b with
  | Imm _, Imm _ => imm_eq rel a b
  | Heap p o1, Heap q o2 =>
    if bool_decide (rel = Identity) && (p =? q)%N then true else obj_eq p o1 q o2
  | _, _ => false
  end.

(** [TableKey::eq] *)
Definition key_eq_level (k1 k2 : TableKey) : bool :=
  match k1, k2 with
  | K_Nil, K_Nil => true
  | K_Bool a, K_Bool b => Bool.eqb a b
  | K_Int a, K_Int b => (a =? b)%Z
  | K_Symbol a, K_Symbol b => (a =? b)%N
  | K_String a, K_String b => bool_decide (as_str a = as_str b)
  | K_Keyword a, K_Keyword b => (a =? b)%N
  | K_EmptyList, K_EmptyList => true
  | K_Array (Heap _ (O_LArray a)), K_Array (Heap _ (O_LArray b)) =>
    match lex (cmp_as true) a b with Eq => true | _ => false end
  | K_Heap a, K_Heap b => ve a b
  | _, _ => false
  end.
End Level.

Fixpoint eq_with (rel : Relation) (a b : Val) {struct a} : bool :=
  eq_level (eq_with rel) (pair_eq rel) key_eq rel a b
with pair_eq (rel : Relation) (a b : Val) {struct a} : bool :=
  match a, b with
  | Heap _ (O_Pair f1 r1), Heap _ (O_Pair f2 r2) => pair_level (eq_with rel) (pair_eq rel) f1 r1 f2 r2
  | _, _ => false
  end
with key_eq (k1 k2 : TableKey) {struct k1} : bool :=
  key_eq_level (eq_with Identity) k1 k2.

(** ** Hashing *)

(** One write to the hasher. *)
Inductive Tok :=
| T_Tag (n : N)
| T_U8 (n : N)
| T_I64 (n : Z)
| T_Word (n : N)
| T_Len (n : nat)
| T_Bytes (l : list N)
| T_Str (l : list N).

#[export] Instance Tok_eq_dec : EqDecision Tok.
Proof. solve_decision. Defined.

Definition hash_bytes (l : list N) : list Tok := [T_Len (length l); T_Bytes l].

Definition hash_seq {A} (h : A -> list Tok) : list A -> list Tok :=
  fix go l := match l with [] => [] | x :: l => h x ++ go l end.

Section HashLevel.
Variables (vh eh : Val -> list Tok) (kh : TableKey -> list Tok).

Definition hash_entry (x : TableKey * Val) : list Tok := let '(k, v) := x in kh k ++ vh v.

(** [Hash for Value] *)
Definition hash_level (v : Val) : list Tok :=
  match v with
  | Imm x =>
    match as_number v with
    | Some f => [T_U8 255; T_Word f]
    | None => [T_Word (tag x); T_Word (payload x)]
    end
  | Heap p o =>
    T_Tag (heap_tag o) ::
    match o with
    | O_LString s => hash_bytes s
    | O_Pair f r => vh f ++ vh r
    | O_LArray l => T_Len (length l) :: hash_seq vh l
    | O_LBytes b => hash_bytes b
    | O_LStruct d => hash_seq hash_entry d
    | O_LArrayMut l => T_Len (length l) :: hash_seq vh l
    | O_LStructMut d => T_Len (length d) :: hash_seq hash_entry d
    | O_LStringMut b | O_LBytesMut b => hash_bytes b
    | O_LBox c | O_CaptureCell c => vh c
    | O_LSetMut l => T_Len (length l) :: hash_seq vh l
    | O_LibHandle id => [T_Word id]
    | O_Fiber id => [T_Word id]
    | O_ThreadHandle r => [T_Word r]
    | O_External d => [T_Word d]
    | _ => [T_Word p]
    end
  end.

(** [Hash for TableKey], of the key [from_value] makes of a value. *)
Definition hash_element (v : Val) : list Tok :=
  T_Tag (key_index v) ::
  match v with
  | Heap _ (O_LString s) => [T_Str s]
  | Heap _ (O_LArray l) => T_Len (length l) :: hash_seq eh l
  | _ =>
    match as_bool v with
    | Some b => [T_U8 (N.b2n b)]
    | None =>
      match as_int v with
      | Some i => [T_I64 i]
      | None => if (key_index v =? 3)%N || (key_index v =? 5)%N then [T_Word (val_payload v)]
                else if (key_index v =? 8)%N then hash_level v else []
      end
    end
  end.

(** [Hash for TableKey] *)
Definition hash_key_level (k : TableKey) : list Tok :=
  T_Tag (discriminant_index k) ::
  match k with
  | K_Nil | K_EmptyList => []
  | K_Bool b => [T_U8 (N.b2n b)]
  | K_Int i => [T_I64 i]
  | K_Symbol id => [T_Word id]
  | K_String v => match as_str v with Some s => [T_Str s] | None => [] end
  | K_Keyword h => [T_Word h]
  | K_Array (Heap _ (O_LArray l)) => T_Len (length l) :: hash_seq eh l
  | K_Array _ => []
  | K_Heap v => vh v
  end.
End HashLevel.

Fixpoint hash_as (as_key : bool) (v : Val) : list Tok :=
  if as_key then hash_element (hash_as false) (hash_as true) key_hash v
  else hash_level (hash_as false) key_hash v
with key_hash (k : TableKey) : list Tok := hash_key_level (hash_as false) (hash_as true) k.

Definition val_hash : Val -> list Tok := hash_as false.
