(* ===== verification/ValueEqLaws.v ===== *)
(** * Equality, order and hash agree

    Over struct keys equality and the order decide alike; over all values the
    order's equal values hash alike, immutable sets apart. *)

From stdpp Require Import base numbers option list.
From S2P Require Import Prelude LirRecord Bytecode ValueTree ValueLaws ValueEq.

Lemma eq_with_eq rel a b : eq_with rel a b = eq_level (eq_with rel) (pair_eq rel) key_eq rel a b.
Proof. by destruct a. Qed.

Lemma key_eq_eq k1 k2 : key_eq k1 k2 = key_eq_level (eq_with Identity) k1 k2.
Proof. by destruct k1. Qed.

Lemma then_with_Eq c d : then_with c d = Eq <-> c = Eq /\ d = Eq.
Proof. destruct c; cbn; intuition congruence. Qed.

Lemma slice_lex {A} (e : A -> A -> bool) (c : A -> A -> comparison) (R : A -> Prop) l1 : forall l2,
  Forall (fun x => forall y, R y -> e x y = true <-> c x y = Eq) l1 -> Forall R l2 ->
  slice_eq e l1 l2 = true <-> lex c l1 l2 = Eq.
Proof.
  induction l1 as [|x l1 IH]; intros [|y l2] H1 H2; try done.
  apply Forall_cons in H1 as [Hx H1]. apply Forall_cons in H2 as [Hy H2].
  cbn [slice_eq lex]. by rewrite andb_true_iff, then_with_Eq, (Hx y Hy), (IH l2).
Qed.

Lemma bytes_lex l1 : forall l2, lex N.compare l1 l2 = Eq <-> l1 = l2.
Proof.
  induction l1 as [|x l1 IH]; intros [|y l2]; try done. cbn [lex]. rewrite then_with_Eq, IH, N.compare_eq_iff.
  naive_solver.
Qed.

Lemma bytes_eq_lex l1 l2 : bytes_eq l1 l2 = true <-> lex N.compare l1 l2 = Eq.
Proof. unfold bytes_eq. by rewrite bool_decide_eq_true, bytes_lex. Qed.

Lemma eqb_compare x y : (x =? y)%N = true <-> (x ?= y)%N = Eq.
Proof. by rewrite N.eqb_eq, N.compare_eq_iff. Qed.

Lemma u64_as_i64_inj x y : (x < 2 ^ 64)%N -> (y < 2 ^ 64)%N -> u64_as_i64 x = u64_as_i64 y -> x = y.
Proof.
  unfold u64_as_i64. cbv zeta. intros Hx Hy.
  destruct (Z.ltb_spec (Z.of_N x) (2 ^ 63)), (Z.ltb_spec (Z.of_N y) (2 ^ 63)); lia.
Qed.

Section Agree.
Context (mem : N -> HeapObject) (obj_ok : HeapObject -> Prop) (imm_ok : Value -> Prop).
Context (obj_spec : forall o, obj_ok o -> no_capture o).
Abbreviation vok := (val_ok mem obj_ok imm_ok).
Abbreviation kok := (key_ok mem obj_ok imm_ok).

(** ** Immediates *)

Lemma imm_key_cmp x y :
  imm_known x -> imm_known y -> is_key (Imm x) = true -> is_key (Imm y) = true ->
  val_cmp (Imm x) (Imm y) = Eq -> x = y.
Proof.
  intros Kx Ky Ix Iy E. rewrite val_cmp_eq in E. unfold value_step, bit_identical in E.
  case_bool_decide as B; [done|]. apply then_with_Eq in E as [R E]. apply N.compare_eq_iff in R.
  destruct x as [t w], y as [t' w'], Kx as (Tx & Px & Zx), Ky as (Ty & Py & Zy). cbn [tag payload] in *.
  assert (Tx' : imm_known (mkValue t w)) by (by repeat split).
  assert (Ty' : imm_known (mkValue t' w')) by (by repeat split).
  assert (S : forall s, t = s -> t' = s -> s ∈ [TAG_NIL; TAG_TRUE; TAG_FALSE; TAG_EMPTY_LIST; TAG_UNDEFINED] ->
              mkValue t w = mkValue t' w').
  { intros s -> -> Hs. by rewrite Zx, Zy. }
  each_tag Tx'; try discriminate Ix; each_tag Ty'; try discriminate R; try discriminate Iy;
    try (eapply S; [reflexivity | reflexivity | by rewrite !elem_of_cons; auto]); try discriminate E.
  - f_equal. apply u64_as_i64_inj; [done | done |]. by apply Z.compare_eq_iff.
  - f_equal. by apply N.compare_eq_iff.
  - f_equal. by apply N.compare_eq_iff.
Qed.

(** ** Keys: equality is the order's *)

Definition val_agrees (a : Val) : Prop := forall b, vok a -> vok b -> is_key a = true -> is_key b = true ->
  (eq_with Identity a b = true <-> val_cmp a b = Eq) /\
  (is_pair a = true -> is_pair b = true -> (pair_eq Identity a b = true <-> val_cmp a b = Eq)).

Definition key_agrees (k1 : TableKey) : Prop := forall k2, kok k1 -> kok k2 ->
  key_eq k1 k2 = true <-> key_cmp k1 k2 = Eq.

Lemma forall_vals_Forall P l : forall_vals P l = true <-> Forall (fun x => P x = true) l.
Proof. induction l as [|x l IH]; cbn; [by rewrite Forall_nil|]. by rewrite Forall_cons, andb_true_iff, IH. Qed.

Lemma struct_key_Forall d :
  (fix go (d : list (TableKey * Val)) := match d with [] => true | (_, v) :: d => is_key v && go d end) d = true
  <-> Forall (fun x => is_key x.2 = true) d.
Proof. induction d as [|[k v] d IH]; cbn; [by rewrite Forall_nil|]. by rewrite Forall_cons, andb_true_iff, IH. Qed.

Lemma vals_agree l1 l2 :
  all_vals val_agrees l1 -> all_vals vok l1 -> all_vals vok l2 ->
  forall_vals is_key l1 = true -> forall_vals is_key l2 = true ->
  slice_eq (eq_with Identity) l1 l2 = true <-> lex val_cmp l1 l2 = Eq.
Proof.
  rewrite !all_vals_Forall, !forall_vals_Forall. intros A O1 O2 K1 K2.
  apply (slice_lex _ _ (fun y => vok y /\ is_key y = true)); [|by apply Forall_and].
  rewrite Forall_forall in *. intros x Hx y [Oy Ky]. by apply A; auto.
Qed.

Lemma entries_agree s1 s2 :
  all_entries val_agrees key_agrees s1 -> all_entries vok kok s1 -> all_entries vok kok s2 ->
  Forall (fun x => is_key x.2 = true) s1 -> Forall (fun x => is_key x.2 = true) s2 ->
  slice_eq (entry_eq (eq_with Identity) key_eq) s1 s2 = true <-> lex (cmp_entry val_cmp key_cmp) s1 s2 = Eq.
Proof.
  rewrite !all_entries_Forall. intros A O1 O2 K1 K2.
  apply (slice_lex _ _ (fun y => (kok y.1 /\ vok y.2) /\ is_key y.2 = true)); [|by apply Forall_and].
  rewrite Forall_forall in *. intros [k v] Hx [k' v'] [[Ok Ov] Kv]. cbn [fst snd] in *.
  destruct (A _ Hx) as [Ak Av], (O1 _ Hx) as [Bk Bv]. cbn [entry_eq cmp_entry].
  rewrite andb_true_iff, then_with_Eq, (Ak k' Bk Ok).
  by rewrite (proj1 (Av v' Bv Ov (K1 _ Hx) Kv)).
Qed.

Lemma pair_agree f1 r1 f2 r2 :
  val_agrees f1 -> val_agrees r1 -> vok f1 -> vok r1 -> vok f2 -> vok r2 ->
  is_key f1 && is_key r1 = true -> is_key f2 && is_key r2 = true ->
  pair_level (eq_with Identity) (pair_eq Identity) f1 r1 f2 r2 = true
  <-> then_with (val_cmp f1 f2) (val_cmp r1 r2) = Eq.
Proof.
  intros Af Ar O1 O2 O3 O4 [K1 K2]%andb_true_iff [K3 K4]%andb_true_iff. unfold pair_level.
  rewrite andb_true_iff, then_with_Eq. destruct (Af f2 O1 O3 K1 K3) as [-> _].
  destruct (Ar r2 O2 O4 K2 K4) as [E1 E2].
  destruct (is_pair r1) eqn:P1, (is_pair r2) eqn:P2; cbn [andb]; rewrite ?E1; try done. by rewrite E2.
Qed.

Lemma obj_agree p o1 q o2 :
  p <> q -> obj_all val_agrees key_agrees o1 -> vok (Heap p o1) -> vok (Heap q o2) ->
  is_key (Heap p o1) = true -> is_key (Heap q o2) = true -> heap_rank o1 = heap_rank o2 ->
  obj_eq (eq_with Identity) (pair_eq Identity) key_eq p o1 q o2 = true
  <-> cmp_same_rank val_cmp key_cmp (Heap p o1) (Heap q o2) = Eq.
Proof.
  intros Hpq A (_ & _ & O1) (_ & _ & O2) K1 K2 R.
  assert (Epq : (p =? q)%N = false) by (by apply N.eqb_neq).
  destruct o1, o2; try discriminate; cbn [cmp_same_rank obj_eq]; unfold cmp_heap; rewrite ?Epq;
    cbn [obj_all is_key] in *; try apply bytes_eq_lex; try apply eqb_compare; try (by apply vals_agree).
  - destruct A, O1, O2. by apply pair_agree.
  - by apply entries_agree; [| | |apply struct_key_Forall|apply struct_key_Forall].
  - split; [done|]. by intros ->%N.compare_eq_iff.
Qed.

Lemma heap_agree p o1 q o2 :
  obj_all val_agrees key_agrees o1 -> vok (Heap p o1) -> vok (Heap q o2) ->
  is_key (Heap p o1) = true -> is_key (Heap q o2) = true ->
  eq_with Identity (Heap p o1) (Heap q o2) = true <-> val_cmp (Heap p o1) (Heap q o2) = Eq.
Proof.
  intros A O1 O2 K1 K2. rewrite eq_with_eq, val_cmp_eq. cbn [eq_level]. unfold value_step, bit_identical.
  destruct (N.eqb_spec p q) as [->|Hpq].
  - assert (o1 = o2) as -> by (destruct O1 as [<- _], O2 as [<- _]; done). cbn [repr].
    rewrite !bool_decide_true by done. done.
  - rewrite (bool_decide_false (repr (Heap p o1) = repr (Heap q o2))) by (cbn; congruence). rewrite andb_false_r, then_with_Eq, N.compare_eq_iff.
    destruct (N.eq_dec (heap_rank o1) (heap_rank o2)) as [R|R].
    + rewrite (obj_agree p o1 q o2) by done. by intuition.
    + split; [|tauto]. destruct o1, o2; try discriminate; by destruct R.
Qed.

Lemma agree_imm x : val_agrees (Imm x).
Proof.
  intros b Oa Ob Ka Kb. split; [|done]. destruct b as [y|q o].
    + destruct Oa as [Ox _], Ob as [Oy _]. rewrite eq_with_eq. cbn [eq_level imm_eq].
      unfold imm_eq, bit_identical. rewrite (bool_decide_false (Identity = Numeric)) by done. cbn [andb].
      rewrite bool_decide_eq_true. split.
      * intros E. cbn [repr] in E. subst y. rewrite val_cmp_eq. unfold value_step, bit_identical.
        by rewrite bool_decide_true.
      * intros E. cbn [repr]. by apply imm_key_cmp.
    + rewrite eq_with_eq. cbn [eq_level]. split; [done|]. rewrite val_cmp_eq. unfold value_step, bit_identical.
      case_bool_decide as B.
      * by pose proof (same_repr mem obj_ok imm_ok _ _ Oa Ob B).
      * intros [R _]%then_with_Eq. apply N.compare_eq_iff in R. destruct Oa as [Kx _].
        by destruct (rank_apart x o Kx).
Qed.

Lemma val_cmp_refl v : val_cmp v v = Eq.
Proof. rewrite val_cmp_eq. unfold value_step, bit_identical. by rewrite bool_decide_true. Qed.

Lemma agree_heap p o : obj_all val_agrees key_agrees o -> val_agrees (Heap p o).
Proof.
  intros A b Oa Ob Ka Kb. destruct b as [y|q o2].
    + split; [|done]. rewrite eq_with_eq. cbn [eq_level]. split; [done|]. rewrite val_cmp_eq.
      unfold value_step, bit_identical. case_bool_decide as B.
      * by pose proof (same_repr mem obj_ok imm_ok _ _ Oa Ob B).
      * intros [R _]%then_with_Eq. apply N.compare_eq_iff in R. destruct Ob as [Ky _].
        by destruct (rank_apart y o Ky).
    + split; [by apply heap_agree|]. intros P1 P2. rewrite <- heap_agree by done.
      destruct o, o2; try done. rewrite eq_with_eq. cbn [eq_level].
      destruct (N.eqb_spec p q) as [->|Hpq]; [|by rewrite andb_false_r].
      rewrite bool_decide_true by done. cbn [andb]. split; [done|]. intros _.
      destruct Oa as (E1 & _ & Of & Or), Ob as (E2 & _). rewrite E1 in E2. injection E2 as <- <-.
      destruct A as [Af Ar]. apply andb_true_iff in Ka as [K1 K2].
      apply pair_agree; rewrite ?K1, ?K2; try done.
      by rewrite !val_cmp_refl.
Qed.

Lemma key_eq_kind k1 k2 : key_eq k1 k2 = true -> discriminant_index k1 = discriminant_index k2.
Proof.
  rewrite key_eq_eq. destruct k1, k2; try done; cbn [key_eq_level];
    destruct v as [|? []]; done.
Qed.

Lemma agree_key k : key_all val_agrees k -> key_agrees k.
Proof.
  intros A k2 O1 O2. rewrite key_cmp_eq. unfold key_step. rewrite then_with_Eq, N.compare_eq_iff.
  destruct (N.eq_dec (discriminant_index k) (discriminant_index k2)) as [D|D];
    [|split; [by intros ?%key_eq_kind | tauto]].
  rewrite key_eq_eq. destruct k as [|b1|i1|n1|v1|n1| |v1|v1], k2 as [|b2|i2|n2|v2|n2| |v2|v2];
    try discriminate; cbn [key_eq_level]; try done.
  - destruct b1, b2; cbn; intuition congruence.
  - rewrite Z.eqb_eq, Z.compare_eq_iff. tauto.
  - rewrite N.eqb_eq, N.compare_eq_iff. tauto.
  - destruct O1 as [_ S1], O2 as [_ S2]. destruct v1 as [|? []]; try done. destruct v2 as [|? []]; try done.
    rewrite bool_decide_eq_true, bytes_lex. cbn. split; [intros [= ->] | intros [_ ->]]; done.
  - rewrite N.eqb_eq, N.compare_eq_iff. tauto.
  - destruct O1 as [_ S1], O2 as [_ S2]. destruct v1 as [|p1 [| | | | | | |l1| | | | | | | | | | | | | |]]; try done.
    destruct v2 as [|p2 [| | | | | | |l2| | | | | | | | | | | | | |]]; try done.
    fold kv_cmp. destruct (lex kv_cmp l1 l2); split; try done; by intros [_ ?].
  - destruct O1 as [O1 [K1 _]], O2 as [O2 [K2 _]]. rewrite (proj1 (A v2 O1 O2 K1 K2)). tauto.
Qed.

Lemma key_agree k1 k2 : kok k1 -> kok k2 -> key_eq k1 k2 = true <-> key_cmp k1 k2 = Eq.
Proof. apply (key_induct val_agrees key_agrees agree_imm agree_heap agree_key). Qed.

(** ** Values the order calls equal hash alike *)

Lemma hash_eq v : val_hash v = hash_level val_hash key_hash v.
Proof. by destruct v. Qed.

Definition elem_hash : Val -> list Tok := hash_as true.

Lemma elem_hash_eq v : elem_hash v = hash_element val_hash elem_hash key_hash v.
Proof. by destruct v. Qed.

Lemma key_hash_eq k : key_hash k = hash_key_level val_hash elem_hash k.
Proof. by destruct k. Qed.

Context (no_sets : forall o, obj_ok o -> match o with O_LSet _ => False | _ => True end).

Definition val_hashes (a : Val) : Prop := forall b, vok a -> vok b ->
  (val_cmp a b = Eq -> val_hash a = val_hash b) /\ (kv_cmp a b = Eq -> elem_hash a = elem_hash b).

Definition key_hashes (k1 : TableKey) : Prop := forall k2, kok k1 -> kok k2 ->
  key_cmp k1 k2 = Eq -> key_hash k1 = key_hash k2.

Lemma seq_hashes {A} (h : A -> list Tok) (c : A -> A -> comparison) (R : A -> Prop) l1 : forall l2,
  Forall (fun x => forall y, R y -> c x y = Eq -> h x = h y) l1 -> Forall R l2 ->
  lex c l1 l2 = Eq -> length l1 = length l2 /\ hash_seq h l1 = hash_seq h l2.
Proof.
  induction l1 as [|x l1 IH]; intros [|y l2] H1 H2 E; try done.
  apply Forall_cons in H1 as [Hx H1]. apply Forall_cons in H2 as [Hy H2].
  cbn [lex] in E. apply then_with_Eq in E as [E1 E2]. destruct (IH l2 H1 H2 E2) as [El Eh].
  split; [cbn; by rewrite El|]. cbn [hash_seq]. by rewrite (Hx y Hy E1), Eh.
Qed.

Lemma imm_hashes x y :
  imm_known x -> imm_known y -> val_cmp (Imm x) (Imm y) = Eq -> val_hash (Imm x) = val_hash (Imm y).
Proof.
  intros Kx Ky E. rewrite val_cmp_eq in E. unfold value_step, bit_identical in E.
  case_bool_decide as B; [by cbn in B; subst|]. apply then_with_Eq in E as [R E]. apply N.compare_eq_iff in R.
  destruct x as [t w], y as [t' w'], (Kx) as (Tx & Px & Zx), (Ky) as (Ty & Py & Zy). cbn [tag payload] in *.
  assert (S : t = t' -> t ∈ [TAG_NIL; TAG_TRUE; TAG_FALSE; TAG_EMPTY_LIST; TAG_UNDEFINED] ->
              val_hash (Imm (mkValue t w)) = val_hash (Imm (mkValue t' w'))).
  { intros <- Hs. by rewrite Zx, Zy. }
  each_tag Kx; each_tag Ky; try discriminate R; try discriminate E;
    try (by apply S; [|rewrite !elem_of_cons; auto 10]); cbn [cmp_same_rank cmp_imm] in E;
    try (apply N.compare_eq_iff in E; cbn in E; by subst).
  - apply Z.compare_eq_iff in E. rewrite !hash_eq. cbn [hash_level]. by rewrite (u64_as_i64_inj _ _ Px Py E).
  - apply total_cmp_eq in E. rewrite !hash_eq. unfold hash_level. cbn in E |- *. by rewrite E.
  - apply total_cmp_eq in E. rewrite !hash_eq. unfold hash_level. cbn in E |- *. by rewrite E.
  - apply total_cmp_eq in E. cbn in E. by subst.
Qed.

Lemma vals_hash l1 l2 :
  all_vals val_hashes l1 -> all_vals vok l1 -> all_vals vok l2 ->
  (lex val_cmp l1 l2 = Eq -> length l1 = length l2 /\ hash_seq val_hash l1 = hash_seq val_hash l2) /\
  (lex kv_cmp l1 l2 = Eq -> length l1 = length l2 /\ hash_seq elem_hash l1 = hash_seq elem_hash l2).
Proof.
  rewrite !all_vals_Forall. intros H O1 O2.
  split; apply (seq_hashes _ _ vok); try done; rewrite Forall_forall in *; intros x Hx y Hy;
    apply H; auto.
Qed.

Lemma entries_hash s1 s2 :
  all_entries val_hashes key_hashes s1 -> all_entries vok kok s1 -> all_entries vok kok s2 ->
  lex (cmp_entry val_cmp key_cmp) s1 s2 = Eq ->
  length s1 = length s2 /\ hash_seq (hash_entry val_hash key_hash) s1 = hash_seq (hash_entry val_hash key_hash) s2.
Proof.
  rewrite !all_entries_Forall. intros H O1 O2. apply (seq_hashes _ _ (fun y => kok y.1 /\ vok y.2)); [|done].
  rewrite Forall_forall in *. intros [k v] Hx [k' v'] [Ok Ov] [E1 E2]%then_with_Eq. cbn [fst snd hash_entry] in *.
  destruct (H _ Hx) as [Hk Hv], (O1 _ Hx) as [Bk Bv]. cbn [fst snd] in *.
  by rewrite (Hk k' Bk Ok E1), (proj1 (Hv v' Bv Ov) E2).
Qed.

Lemma obj_hash p o1 q o2 :
  p <> q -> obj_all val_hashes key_hashes o1 -> vok (Heap p o1) -> vok (Heap q o2) ->
  heap_rank o1 = heap_rank o2 -> cmp_same_rank val_cmp key_cmp (Heap p o1) (Heap q o2) = Eq ->
  val_hash (Heap p o1) = val_hash (Heap q o2).
Proof.
  intros Hpq A (_ & N1 & O1) (_ & N2 & O2) R.
  pose proof (no_sets _ N1) as S1. apply obj_spec in N1, N2.
  assert (Epq : (p =? q)%N = false) by (by apply N.eqb_neq). rewrite !hash_eq.
  destruct o1, o2; try discriminate; try done; cbn [cmp_same_rank hash_level heap_tag]; unfold cmp_heap; rewrite ?Epq;
    cbn [obj_all] in *; try (by intros <-%bytes_lex); try (by intros ->%N.compare_eq_iff).
  - destruct A as [A1 A2], O1 as [B1 B2], O2 as [C1 C2]. intros [E1 E2]%then_with_Eq.
    by rewrite (proj1 (A1 _ B1 C1) E1), (proj1 (A2 _ B2 C2) E2).
  - intros E. by destruct (proj1 (vals_hash _ _ A O1 O2) E) as [-> ->].
  - intros E. by destruct (entries_hash _ _ A O1 O2 E) as [-> ->].
  - intros E. by destruct (entries_hash _ _ A O1 O2 E) as [_ ->].
  - intros E. by destruct (proj1 (vals_hash _ _ A O1 O2) E) as [-> ->].
  - intros E. f_equal. by apply A.
  - intros E. by destruct (proj1 (vals_hash _ _ A O1 O2) E) as [-> ->].
Qed.

Lemma hashes_value a b :
  match a with Heap _ o => obj_all val_hashes key_hashes o | _ => True end ->
  vok a -> vok b -> val_cmp a b = Eq -> val_hash a = val_hash b.
Proof.
  intros A Oa Ob E. destruct a as [x|p o1], b as [y|q o2].
  - destruct Oa, Ob. by apply imm_hashes.
  - rewrite val_cmp_eq in E. unfold value_step, bit_identical in E. case_bool_decide as B.
    + by pose proof (same_repr mem obj_ok imm_ok _ _ Oa Ob B).
    + apply then_with_Eq in E as [R _]. apply N.compare_eq_iff in R. destruct Oa as [Kx _]. by destruct (rank_apart x o2 Kx).
  - rewrite val_cmp_eq in E. unfold value_step, bit_identical in E. case_bool_decide as B.
    + by pose proof (same_repr mem obj_ok imm_ok _ _ Oa Ob B).
    + apply then_with_Eq in E as [R _]. apply N.compare_eq_iff in R. destruct Ob as [Ky _]. by destruct (rank_apart y o1 Ky).
  - destruct (N.eq_dec p q) as [->|Hpq].
    + destruct Oa as [<- _], Ob as [<- _]. done.
    + rewrite val_cmp_eq in E. unfold value_step, bit_identical in E.
      rewrite bool_decide_false in E by (cbn; congruence).
      apply then_with_Eq in E as [R E]. apply N.compare_eq_iff in R. by apply obj_hash.
Qed.

Lemma elem_hash_heap v : key_index v = 8%N -> elem_hash v = T_Tag 8 :: val_hash v.
Proof.
  intros E. rewrite elem_hash_eq, hash_eq. unfold hash_element. rewrite E. f_equal.
  assert (as_bool v = None /\ as_int v = None) as [E1 E2].
  { destruct v as [x|p o]; [|done]. unfold key_index in E. unfold as_bool, as_int, imm_is.
    destruct (tag x =? TAG_NIL)%N, (tag x =? TAG_TRUE)%N, (tag x =? TAG_FALSE)%N, (tag x =? TAG_INT)%N;
      cbn in E; try discriminate; split; reflexivity. }
  rewrite E1, E2. destruct v as [x|p o]; [done|]. by destruct o.
Qed.

Lemma imm_elem_hash x y :
  imm_known x -> imm_known y -> key_index (Imm x) <> 8%N -> kv_cmp (Imm x) (Imm y) = Eq ->
  elem_hash (Imm x) = elem_hash (Imm y).
Proof.
  intros Kx Ky N8. rewrite kv_cmp_eq, !elem_hash_eq. unfold element_step, hash_element.
  intros [R E]%then_with_Eq. apply N.compare_eq_iff in R. rewrite <- R. f_equal.
  destruct x as [t w], y as [t' w']. unfold cmp_plain_key in E.
  each_tag Kx; try (by destruct N8); each_tag Ky; try discriminate R; try discriminate E; try done; cbn in E |- *.
  - apply Z.compare_eq_iff in E. by rewrite E.
  - apply N.compare_eq_iff in E. by subst.
  - apply N.compare_eq_iff in E. by subst.
Qed.

Lemma hashes_element a b :
  match a with Heap _ o => obj_all val_hashes key_hashes o | _ => True end ->
  vok a -> vok b -> kv_cmp a b = Eq -> elem_hash a = elem_hash b.
Proof.
  intros A Oa Ob E. assert (R : key_index a = key_index b).
  { rewrite kv_cmp_eq in E. by apply then_with_Eq, proj1, N.compare_eq_iff in E. }
  destruct (N.eq_dec (key_index a) 8%N) as [E8|N8].
  - rewrite !elem_hash_heap by congruence. f_equal. apply hashes_value; try done.
    rewrite kv_cmp_eq, element_step_heap in E by congruence. done.
  - destruct a as [x|p o1], b as [y|q o2].
    + destruct Oa, Ob. by apply imm_elem_hash.
    + destruct Oa as [Kx _], x as [t w]. each_tag Kx; cbn in R, N8; try done; by destruct o2.
    + destruct Ob as [Ky _], y as [t w]. each_tag Ky; cbn in R, N8; try done; by destruct o1.
    + rewrite kv_cmp_eq in E. apply then_with_Eq in E as [_ E]. rewrite !elem_hash_eq.
      destruct Oa as (_ & _ & Oa), Ob as (_ & _ & Ob).
      destruct o1; cbn in N8; try done; destruct o2; cbn in R; try discriminate; unfold hash_element.
      * apply bytes_lex in E. by rewrite E.
      * by destruct (proj2 (vals_hash _ _ A Oa Ob) E) as [-> ->].
Qed.

Lemma hashes_imm x : val_hashes (Imm x).
Proof. intros b Oa Ob. split; [by apply hashes_value | by apply hashes_element]. Qed.

Lemma hashes_heap p o : obj_all val_hashes key_hashes o -> val_hashes (Heap p o).
Proof. intros A b Oa Ob. split; [by apply hashes_value | by apply hashes_element]. Qed.

Lemma hashes_key k : key_all val_hashes k -> key_hashes k.
Proof.
  intros A k2 O1 O2. rewrite key_cmp_eq, !key_hash_eq. unfold key_step. intros [D E]%then_with_Eq.
  apply N.compare_eq_iff in D.
  destruct k as [|b1|i1|n1|v1|n1| |v1|v1], k2 as [|b2|i2|n2|v2|n2| |v2|v2]; try discriminate; try done;
    cbn [hash_key_level discriminant_index]; destruct O1 as [O1 S1], O2 as [O2 S2].
  - destruct b1, b2; done.
  - by apply Z.compare_eq_iff in E as ->.
  - by apply N.compare_eq_iff in E as ->.
  - destruct v1 as [|? []]; try done. destruct v2 as [|? []]; try done. apply bytes_lex in E. cbn. by rewrite E.
  - by apply N.compare_eq_iff in E as ->.
  - destruct v1 as [|p1 [| | | | | | |l1| | | | | | | | | | | | | |]]; try done.
    destruct v2 as [|p2 [| | | | | | |l2| | | | | | | | | | | | | |]]; try done.
    assert (Ee : elem_hash (Heap p1 (O_LArray l1)) = elem_hash (Heap p2 (O_LArray l2))).
    { apply A; [done | done |]. rewrite kv_cmp_eq. exact E. }
    rewrite !elem_hash_eq in Ee. exact Ee.
  - unfold hash_key_level. f_equal. by apply (A v2 O1 O2).
Qed.

Lemma val_cmp_hash a b : vok a -> vok b -> val_cmp a b = Eq -> val_hash a = val_hash b.
Proof. intros Oa Ob. by apply (val_induct val_hashes key_hashes hashes_imm hashes_heap hashes_key). Qed.

Lemma key_cmp_hash k1 k2 : kok k1 -> kok k2 -> key_cmp k1 k2 = Eq -> key_hash k1 = key_hash k2.
Proof. apply (key_induct val_hashes key_hashes hashes_imm hashes_heap hashes_key). Qed.
End Agree.

(** ** Keys hold no floats *)

Definition any_imm (_ : Value) : Prop := True.
Definition no_float (x : Value) : Prop := tag x <> TAG_FLOAT.

Section NoFloat.
Context (mem : N -> HeapObject) (obj_ok : HeapObject -> Prop).
Abbreviation vok := (val_ok mem obj_ok any_imm).
Abbreviation kok := (key_ok mem obj_ok any_imm).

Definition val_floatless (v : Val) : Prop :=
  vok v -> is_key v = true -> val_ok mem obj_ok no_float v.
Definition key_floatless (k : TableKey) : Prop := kok k -> key_ok mem obj_ok no_float k.

Lemma floatless_imm x : val_floatless (Imm x).
Proof.
  intros [K _] Ik. split; [done|]. unfold no_float. intros E. cbn [is_key] in Ik. by rewrite E in Ik.
Qed.

Lemma floatless_heap p o : obj_all val_floatless key_floatless o -> val_floatless (Heap p o).
Proof.
  intros A (E & N & O) Ik. split; [done|]. split; [done|].
  destruct o; try done; cbn [obj_all is_key] in *.
  - apply andb_true_iff in Ik as [? ?]. destruct A as [A1 A2], O as [O1 O2]. split; [by apply A1 | by apply A2].
  - apply struct_key_Forall in Ik. rewrite all_entries_Forall in *. rewrite Forall_forall in *.
    intros x Hx. destruct (A x Hx) as [A1 A2], (O x Hx). split; [by apply A1 | by apply A2; [|apply Ik]].
  - apply forall_vals_Forall in Ik. rewrite all_vals_Forall in *. rewrite Forall_forall in *.
    intros x Hx. apply A; auto.
  - apply forall_vals_Forall in Ik. rewrite all_vals_Forall in *. rewrite Forall_forall in *.
    intros x Hx. apply A; auto.
Qed.

Lemma floatless_key k : key_all val_floatless k -> key_floatless k.
Proof.
  intros A. destruct k as [| | | |v| | |v|v]; try done; intros [O S]; (split; [|done]).
  - apply A; [done|]. by destruct v as [|? []].
  - destruct v as [|? []]; try done. by apply A.
  - destruct S. by apply A.
Qed.

Lemma key_ok_floatless k : kok k -> key_ok mem obj_ok no_float k.
Proof. apply (key_induct val_floatless key_floatless floatless_imm floatless_heap floatless_key). Qed.

(** What [from_value] makes of a value is a key. *)
Lemma from_value_ok v k : vok v -> from_value v = Some k -> kok k.
Proof.
  intros O. unfold from_value.
  destruct (is_nil v) eqn:E1; [by intros [= <-]|]. destruct (as_bool v) eqn:E2; [by intros [= <-]|].
  destruct (as_int v) eqn:E3; [by intros [= <-]|]. destruct (as_symbol v) eqn:E4; [by intros [= <-]|].
  destruct (keyword_hash v) eqn:E5; [by intros [= <-]|].
  destruct (as_str v) eqn:E6; [intros [= <-]; split; [done|]; by destruct v as [|? []]|].
  destruct (is_key v) eqn:Ik; cbn [negb]; [|done].
  destruct (as_array v) eqn:E7; [intros [= <-]; split; [done|]; by destruct v as [|? []]|].
  destruct (is_empty_list v) eqn:E8; [by intros [= <-]|]. intros [= <-]. split; [done|]. split; [done|].
  destruct v as [x|p o]; [|by destruct o]. cbn [is_key] in Ik.
  unfold is_nil, as_bool, as_int, as_symbol, keyword_hash, is_empty_list, imm_is, key_index in *.
  destruct (tag x =? TAG_NIL)%N, (tag x =? TAG_TRUE)%N, (tag x =? TAG_FALSE)%N, (tag x =? TAG_INT)%N,
    (tag x =? TAG_SYMBOL)%N, (tag x =? TAG_KEYWORD)%N, (tag x =? TAG_EMPTY_LIST)%N; done.
Qed.
End NoFloat.

(** ** The elements of an array key are compared and hashed as keys *)

Inductive made : Val -> TableKey -> Prop :=
| made_nil w : made (Imm (mkValue TAG_NIL w)) K_Nil
| made_true w : made (Imm (mkValue TAG_TRUE w)) (K_Bool true)
| made_false w : made (Imm (mkValue TAG_FALSE w)) (K_Bool false)
| made_int w : made (Imm (mkValue TAG_INT w)) (K_Int (u64_as_i64 w))
| made_symbol w : made (Imm (mkValue TAG_SYMBOL w)) (K_Symbol w)
| made_keyword w : made (Imm (mkValue TAG_KEYWORD w)) (K_Keyword w)
| made_empty w : made (Imm (mkValue TAG_EMPTY_LIST w)) K_EmptyList
| made_string p s : made (Heap p (O_LString s)) (K_String (Heap p (O_LString s)))
| made_array p l : made (Heap p (O_LArray l)) (K_Array (Heap p (O_LArray l)))
| made_heap v : key_index v = 8%N -> made v (K_Heap v).

Lemma from_value_made v k : from_value v = Some k -> made v k.
Proof.
  unfold from_value. destruct v as [[t w]|p o].
  - unfold is_nil, as_bool, as_int, as_symbol, keyword_hash, is_empty_list, imm_is, val_payload, is_key.
    cbn [tag payload repr as_str as_array].
    destruct (N.eqb_spec t TAG_NIL) as [->|]; [intros [= <-]; constructor|].
    destruct (N.eqb_spec t TAG_TRUE) as [->|]; [intros [= <-]; constructor|].
    destruct (N.eqb_spec t TAG_FALSE) as [->|]; [intros [= <-]; constructor|].
    destruct (N.eqb_spec t TAG_INT) as [->|]; [intros [= <-]; constructor|].
    destruct (N.eqb_spec t TAG_SYMBOL) as [->|]; [intros [= <-]; constructor|].
    destruct (N.eqb_spec t TAG_KEYWORD) as [->|]; [intros [= <-]; constructor|].
    destruct (N.eqb_spec t TAG_EMPTY_LIST) as [->|]; [|done]. intros [= <-]. constructor.
  - cbn [is_nil as_bool as_int as_symbol keyword_hash imm_is as_str as_array is_empty_list].
    destruct o; cbn [as_str as_array]; try (by destruct (is_key _); cbn; [intros [= <-]; constructor|]).
    + intros [= <-]. apply made_string.
Qed.

Lemma kv_cmp_made a b k1 k2 : made a k1 -> made b k2 -> kv_cmp a b = key_cmp k1 k2.
Proof.
  intros Ma Mb. rewrite kv_cmp_eq, key_cmp_eq.
  assert (forall v k, made v k -> key_index v = discriminant_index k) as I by (intros v k M; by destruct M).
  unfold key_step. destruct (N.eq_dec (key_index a) (key_index b)) as [E|E].
  - destruct (N.eq_dec (key_index a) 8%N) as [E8|N8].
    + assert (Ka : k1 = K_Heap a) by (by destruct Ma). assert (Kb : k2 = K_Heap b) by (rewrite E in E8; by destruct Mb).
      subst. rewrite element_step_heap by congruence. done.
    + destruct Ma, Mb; try discriminate E; try (exfalso; cbn in E, N8; congruence); reflexivity.
  - unfold element_step. rewrite <- (I _ _ Ma), <- (I _ _ Mb).
    destruct (N.compare_spec (key_index a) (key_index b)); done.
Qed.

Lemma elem_hash_made v k : made v k -> elem_hash v = key_hash k.
Proof.
  intros M. rewrite key_hash_eq. destruct M as [| | | | | | | | |v E]; try (rewrite elem_hash_eq; reflexivity).
  by rewrite elem_hash_heap.
Qed.

(** ** Symmetry *)

Lemma imm_eq_sym rel a b : imm_eq rel a b = imm_eq rel b a.
Proof.
  unfold imm_eq. rewrite <- !andb_assoc, (andb_comm (is_number a)). destruct (_ && _).
  - assert (F : forall x y, f64_eq x y = f64_eq y x).
    { intros x y. unfold f64_eq. rewrite (andb_comm (negb (is_nan x))), (andb_comm (is_zero x)), N.eqb_sym. done. }
    destruct (as_int a), (as_int b); [apply Z.eqb_sym|..]; by destruct (as_number a), (as_number b).
  - unfold bit_identical. apply bool_decide_ext. split; congruence.
Qed.

Lemma bytes_eq_sym a b : bytes_eq a b = bytes_eq b a.
Proof. unfold bytes_eq. apply bool_decide_ext. split; congruence. Qed.

Lemma slice_eq_sym {A} (e : A -> A -> bool) l1 : forall l2,
  Forall (fun x => forall y, y ∈ l2 -> e x y = e y x) l1 -> slice_eq e l1 l2 = slice_eq e l2 l1.
Proof.
  induction l1 as [|x l1 IH]; intros [|y l2] H; try done. apply Forall_cons in H as [Hx H]. cbn [slice_eq].
  rewrite (Hx y) by left. f_equal. apply IH. eapply Forall_impl; [exact H|]. intros z Hz w Hw. apply Hz. by right.
Qed.

Section Symmetry.
Context (mem : N -> HeapObject) (obj_ok : HeapObject -> Prop) (rel : Relation).
Context (obj_spec : forall o, obj_ok o -> no_capture o).
Abbreviation vok := (val_ok mem obj_ok any_imm).
Abbreviation kok := (key_ok mem obj_ok any_imm).

Lemma key_cmp_antisym k1 k2 : kok k1 -> kok k2 -> key_cmp k2 k1 = CompOpp (key_cmp k1 k2).
Proof.
  intros O1%key_ok_floatless O2%key_ok_floatless.
  refine (law_antisym _ _ (lawful_enc (key_ok mem obj_ok no_float) key_cmp
            (key_enc (fun x => u64_as_i64 (payload x))) _) k1 k2 O1 O2).
  intros a b Oa Ob. eapply key_cmp_enc; [exact obj_spec | | exact Oa | exact Ob].
  intros x y Fx Fy Rx Ry. unfold cmp_number, as_int, imm_is. destruct x as [t w], y as [t' w'].
  unfold no_float in *. cbn [tag payload type_rank] in *.
  assert (forall t, t <> TAG_FLOAT -> type_rank (Imm (mkValue t w)) = 2%N -> t = TAG_INT) as I.
  { clear. intros t Ht. cbn [type_rank tag]. destruct (N.eqb_spec t TAG_NIL); [done|].
    destruct (N.eqb_spec t TAG_TRUE); [done|]. destruct (N.eqb_spec t TAG_FALSE); [done|].
    destruct (N.eqb_spec t TAG_INT); [done|]. destruct (N.eqb_spec t TAG_FLOAT); [done|]. cbn [orb].
    repeat (case_match; try done). }
  rewrite (I t), (I t') by done. reflexivity.
Qed.

Lemma key_eq_sym k1 k2 : kok k1 -> kok k2 -> key_eq k1 k2 = key_eq k2 k1.
Proof.
  intros O1 O2. pose proof (key_agree mem obj_ok any_imm k1 k2 O1 O2) as H1.
  pose proof (key_agree mem obj_ok any_imm k2 k1 O2 O1) as H2. rewrite key_cmp_antisym in H2 by done.
  destruct (key_cmp k1 k2); cbn in H2; destruct (key_eq k1 k2), (key_eq k2 k1); try done; exfalso; intuition congruence.
Qed.

Abbreviation ve := (eq_with rel).

Definition val_sym (a : Val) : Prop := forall b, vok a -> vok b ->
  eq_with rel a b = eq_with rel b a /\ pair_eq rel a b = pair_eq rel b a.

Lemma get_and_ext f g key d : (forall k v, (k, v) ∈ d -> f v = g v) -> get_and f key d = get_and g key d.
Proof.
  induction d as [|[k v] d IH]; intros H; [done|]. cbn [get_and].
  rewrite (H k v) by left. rewrite IH; [done|]. intros k' v' Hv. eapply H. by right.
Qed.

Lemma vals_sym l1 l2 : all_vals val_sym l1 -> all_vals vok l1 -> all_vals vok l2 ->
  slice_eq ve l1 l2 = slice_eq ve l2 l1.
Proof.
  rewrite !all_vals_Forall. intros S O1 O2. apply slice_eq_sym. rewrite Forall_forall in *.
  intros x Hx y Hy. by apply S; auto.
Qed.

Lemma entries_sym s1 s2 :
  all_entries val_sym (fun _ => True) s1 -> all_entries vok kok s1 -> all_entries vok kok s2 ->
  slice_eq (entry_eq ve key_eq) s1 s2 = slice_eq (entry_eq ve key_eq) s2 s1 /\
  entries_found ve s1 s2 = entries_found_in ve s2 s1 /\ entries_found_in ve s1 s2 = entries_found ve s2 s1.
Proof.
  rewrite !all_entries_Forall. intros S O1 O2.
  assert (V : forall k v k' v', (k, v) ∈ s1 -> (k', v') ∈ s2 -> ve v v' = ve v' v).
  { rewrite Forall_forall in *. intros k v k' v' H1 H2.
    destruct (S _ H1) as [_ S1], (O1 _ H1) as [_ V1], (O2 _ H2) as [_ V2]. by apply S1. }
  split; [|split].
  - apply slice_eq_sym. rewrite Forall_forall in *. intros [k v] H1 [k' v'] H2. cbn [entry_eq].
    rewrite (V k v k' v') by done. f_equal. destruct (O1 _ H1) as [K1 _], (O2 _ H2) as [K2 _]. by apply key_eq_sym.
  - unfold entries_found, entries_found_in. rewrite Nat.eqb_sym. f_equal. clear S O1 O2.
    induction s1 as [|[k v] s1 IH]; [done|]. cbn [forallb]. rewrite IH.
    + f_equal. apply get_and_ext. intros k' v' Hv. eapply V; [left | exact Hv].
    + intros k0 v0 k' v' H1 H2. eapply V; [right; exact H1 | exact H2].
  - unfold entries_found, entries_found_in. rewrite Nat.eqb_sym. f_equal. clear S O1 O2.
    induction s2 as [|[k v] s2 IH]; [done|]. cbn [forallb]. rewrite IH.
    + f_equal. apply get_and_ext. intros k' v' Hv. eapply V; [exact Hv | left].
    + intros k0 v0 k' v' H1 H2. eapply V; [exact H1 | right; exact H2].
Qed.

Lemma pair_sym f1 r1 f2 r2 :
  val_sym f1 -> val_sym r1 -> vok f1 -> vok r1 -> vok f2 -> vok r2 ->
  pair_level ve (pair_eq rel) f1 r1 f2 r2 = pair_level ve (pair_eq rel) f2 r2 f1 r1.
Proof.
  intros S1 S2 O1 O2 O3 O4. unfold pair_level. destruct (S1 f2 O1 O3) as [-> _], (S2 r2 O2 O4) as [-> ->].
  by rewrite (andb_comm (is_pair r1)).
Qed.

Lemma sym_heap p o : obj_all val_sym (fun _ => True) o -> val_sym (Heap p o).
Proof.
  intros S b Oa Ob. destruct b as [y|q o2]; [by destruct o|].
  assert (E : pair_eq rel (Heap p o) (Heap q o2) = pair_eq rel (Heap q o2) (Heap p o)).
  { destruct o, o2; try done. destruct S, Oa as (_ & _ & ? & ?), Ob as (_ & _ & ? & ?). by apply pair_sym. }
  split; [|done]. rewrite !eq_with_eq. cbn [eq_level]. rewrite (N.eqb_sym q p). destruct (_ && _); [done|].
  destruct Oa as (_ & _ & Oa), Ob as (_ & _ & Ob).
  destruct o, o2; try done; cbn [obj_eq obj_all] in *;
    try apply bytes_eq_sym; try apply N.eqb_sym; try (by apply vals_sym); try (by apply entries_sym).
  - exact (proj1 (S _ Oa Ob)).
  - exact (proj1 (S _ Oa Ob)).
Qed.

(** Both relations, whatever the two values are. *)
Lemma eq_symmetric a b : vok a -> vok b -> eq_with rel a b = eq_with rel b a.
Proof.
  intros Oa Ob. enough (val_sym a) as H by (by apply H).
  apply (val_induct val_sym (fun _ => True)); [|exact sym_heap | done].
  intros x [y|q o] Ox Oy; split; try done; [|by destruct o].
  rewrite !eq_with_eq. cbn [eq_level]. apply imm_eq_sym.
Qed.
End Symmetry.
