(* ===== verification/SortedStruct.v ===== *)
(** * Immutable structs

    [value/types/sorted.rs]: lookup, insertion and removal over the sorted
    entries of an immutable struct, by [slice::binary_search_by].  They answer
    what the sorted map answers, so an immutable struct and a mutable one agree
    on every key. *)

From stdpp Require Import base numbers list option sorting.
From S2P Require Import Prelude BTreeNode BTree BTreeCell BTreeArena BTreeShape BTreeSpec.

(** ** [slice::binary_search_by] *)

Inductive Found := F_Ok (i : nat) | F_Err (i : nat).

Section Search.
Context {A : Type} (f : A -> comparison).

(** The halving loop: a window of [size] from [base]. *)
Fixpoint bs_loop (fuel : nat) (l : list A) (base size : nat) : nat :=
  match fuel with
  | O => base
  | S fuel =>
    if decide (1 < size) then
      let half := size / 2 in
      let mid := base + half in
      let base := match f <$> l !! mid with Some Gt => base | _ => mid end in
      bs_loop fuel l base (size - half)
    else base
  end.

Definition binary_search_by (l : list A) : Found :=
  match l with
  | [] => F_Err 0
  | _ =>
    let base := bs_loop (length l) l 0 (length l) in
    match f <$> l !! base with
    | Some Eq => F_Ok base
    | Some Lt => F_Err (base + 1)
    | _ => F_Err base
    end
  end.

(** [p] elements, from the first, are not past the target. *)
Definition past_from (l : list A) (p : nat) : Prop :=
  p <= length l /\ forall i x, l !! i = Some x -> (f x = Gt <-> p <= i).

Lemma bs_loop_spec l p : past_from l p -> forall fuel base size,
  size <= fuel -> 0 < size -> base + size <= length l ->
  base <= p - 1 -> p <= base + size -> bs_loop fuel l base size = p - 1.
Proof.
  intros [Hp Hf]. induction fuel as [|fuel IH]; intros base size H1 H2 H3 H4 H5; [lia|]. cbn [bs_loop].
  destruct (decide (1 < size)) as [Hs|Hs]; [|lia].
  assert (Hh : 0 < size / 2 < size) by (split; [apply Nat.div_str_pos; lia | apply Nat.div_lt; lia]).
  pose proof (Nat.Div0.mul_div_le size 2) as H2h.
  destruct (lookup_lt_is_Some_2 l (base + size / 2)) as [x Hx]; [lia|]. rewrite Hx. cbn [fmap option_fmap option_map].
  pose proof (Hf _ _ Hx) as Hg. destruct (f x).
  - apply IH; try lia. destruct (decide (p <= base + size / 2)) as [H|H]; [by apply Hg in H | lia].
  - apply IH; try lia. destruct (decide (p <= base + size / 2)) as [H|H]; [by apply Hg in H | lia].
  - apply IH; try lia. pose proof (proj1 Hg eq_refl). lia.
Qed.

Lemma binary_search_found l1 x l2 :
  Forall (fun y => f y = Lt) l1 -> f x = Eq -> Forall (fun y => f y = Gt) l2 ->
  binary_search_by (l1 ++ x :: l2) = F_Ok (length l1).
Proof.
  intros H1 Hx H2. rewrite Forall_forall in H1. rewrite Forall_forall in H2.
  assert (P : past_from (l1 ++ x :: l2) (S (length l1))).
  { split; [rewrite length_app; cbn; lia|]. intros i y [Hy|[Hi Hy]]%lookup_app_Some.
    - pose proof (lookup_lt_Some _ _ _ Hy). rewrite H1 by (by eapply list_elem_of_lookup_2). split; [done | lia].
    - destruct (i - length l1) as [|j] eqn:E; cbn in Hy.
      + injection Hy as <-. rewrite Hx. split; [done | lia].
      + rewrite H2 by (by eapply list_elem_of_lookup_2). split; [lia | done]. }
  assert (E : bs_loop (length (l1 ++ x :: l2)) (l1 ++ x :: l2) 0 (length (l1 ++ x :: l2)) = length l1).
  { rewrite (bs_loop_spec _ _ P); rewrite ?length_app; cbn; lia. }
  unfold binary_search_by. destruct (l1 ++ x :: l2) as [|y l] eqn:El; [by destruct l1|]. rewrite <- El in *.
  cbv zeta. rewrite E, list_lookup_middle by done. cbn. by rewrite Hx.
Qed.

Lemma binary_search_vacant l1 l2 :
  Forall (fun y => f y = Lt) l1 -> Forall (fun y => f y = Gt) l2 ->
  binary_search_by (l1 ++ l2) = F_Err (length l1).
Proof.
  intros H1 H2. rewrite Forall_forall in H1. rewrite Forall_forall in H2.
  assert (P : past_from (l1 ++ l2) (length l1)).
  { split; [rewrite length_app; lia|]. intros i y [Hy|[Hi Hy]]%lookup_app_Some.
    - pose proof (lookup_lt_Some _ _ _ Hy). rewrite H1 by (by eapply list_elem_of_lookup_2). split; [done | lia].
    - rewrite H2 by (by eapply list_elem_of_lookup_2). split; [lia | done]. }
  unfold binary_search_by. destruct (l1 ++ l2) as [|y l] eqn:El.
  { by apply app_eq_nil in El as [-> _]. }
  rewrite <- El in *. assert (0 < length (l1 ++ l2)) by (rewrite El; cbn; lia). cbv zeta.
  pose proof (proj1 P). rewrite (bs_loop_spec _ _ P) by lia. destruct l1 as [|z l1].
  - cbn in *. subst l2. cbn. by rewrite H2 by left.
  - cbn [length]. replace (S (length l1) - 1) with (length l1) by lia.
    destruct (lookup_lt_is_Some_2 (z :: l1) (length l1)) as [w Hw]; [cbn; lia|].
    rewrite lookup_app_l by (cbn; lia). rewrite Hw. cbn. rewrite H1 by (by eapply list_elem_of_lookup_2).
    f_equal. lia.
Qed.
End Search.

(** ** The operations *)

Section Struct.
Context {K V : Type} `{KeyOrder K}.
Implicit Types (entries : list (K * V)) (key : K).

Definition probe key (e : K * V) : comparison := cmp e.1 key.

Definition sorted_struct_get entries key : option V :=
  match binary_search_by (probe key) entries with
  | F_Ok i => snd <$> entries !! i
  | F_Err _ => None
  end.

Definition sorted_struct_contains entries key : bool :=
  match binary_search_by (probe key) entries with F_Ok _ => true | F_Err _ => false end.

Definition sorted_struct_insert entries key (value : V) : list (K * V) :=
  match binary_search_by (probe key) entries with
  | F_Ok i => alter (fun e => (e.1, value)) i entries
  | F_Err i => take i entries ++ (key, value) :: drop i entries
  end.

Definition sorted_struct_remove entries key : list (K * V) :=
  match binary_search_by (probe key) entries with
  | F_Ok i => delete i entries
  | F_Err _ => entries
  end.

Lemma below_probes key l : all_below key l -> Forall (fun y => probe key y = Lt) l.
Proof. done. Qed.

Lemma above_probes key l : all_above key l -> Forall (fun y => probe key y = Gt) l.
Proof. intros Ha. eapply Forall_impl; [exact Ha|]. intros e He. by apply cmp_gt. Qed.

(** C27: The operations on an immutable struct answer what the sorted map does:
    on entries in key order, the binary search of [get] and [contains] finds
    the entry under the key or none; [insert] puts the value under the key
    the struct already holds where there is one, and under the new key at its
    place in the order where there is none; [remove] takes the entry out; and
    the entries stay in key order.  [@struct]s refine the same map. *)
Theorem sorted_struct_refines entries key value :
  ascending entries ->
  sorted_struct_get entries key = snd <$> sm_find key entries /\
  sorted_struct_contains entries key = bool_decide (is_Some (sm_find key entries)) /\
  sorted_struct_insert entries key value
    = sm_put (from_option fst key (sm_find key entries), value) entries /\
  sorted_struct_remove entries key = sm_remove key entries /\
  ascending (sorted_struct_insert entries key value) /\ ascending (sorted_struct_remove entries key).
Proof.
  intros Ha. enough (sorted_struct_get entries key = snd <$> sm_find key entries /\
    sorted_struct_contains entries key = bool_decide (is_Some (sm_find key entries)) /\
    sorted_struct_insert entries key value = sm_put (from_option fst key (sm_find key entries), value) entries /\
    sorted_struct_remove entries key = sm_remove key entries) as (E1 & E2 & E3 & E4).
  { split_and!; try done; rewrite ?E3, ?E4; [by apply sm_put_ascending | by apply sm_remove_ascending]. }
  unfold sorted_struct_get, sorted_struct_contains, sorted_struct_insert, sorted_struct_remove.
  destruct (ascending_divide key entries Ha) as [(l1 & x & l2 & -> & Hx & H1 & H2)|(l1 & l2 & -> & H1 & H2)].
  - rewrite binary_search_found; [|by apply below_probes | exact Hx | by apply above_probes].
    rewrite sm_find_here, sm_remove_here by done. cbn [from_option].
    assert (Hb : all_below x.1 l1) by (eapply below_congr; [by apply cmp_eq_sym | done]).
    rewrite sm_put_here; [|done | apply cmp_refl].
    rewrite list_lookup_middle, delete_middle by done.
    by rewrite (alter_app_r_alt _ l1), Nat.sub_diag by done.
  - rewrite binary_search_vacant; [|by apply below_probes | by apply above_probes].
    rewrite sm_find_below, sm_find_above, sm_put_vacant by done.
    rewrite sm_remove_absent by (by rewrite sm_find_below, sm_find_above).
    by rewrite take_app_length, drop_app_length.
Qed.
End Struct.
