(* ===== verification/ValueProps.v ===== *)
(** * What the value order guarantees

    The order over values is lawful while every integer is one a double holds
    exactly, the order over struct keys always; equality and hashing of keys
    go with it.  These are the orders the sorted stores take
    ([BTreeNode.KeyOrder]). *)

From stdpp Require Import base numbers list option sorting.
From S2P Require Import Prelude LirRecord Bytecode ValueTree ValueLaws ValueEq ValueEqLaws BTreeNode BTreeShape BTreeSpec SortedStruct.

(** An integer between [-2^53] and [2^53], or no integer. *)
Definition exact_imm (x : Value) : Prop :=
  tag x = TAG_INT -> (- 2 ^ 53 <= u64_as_i64 (payload x) <= 2 ^ 53)%Z.

(** Where a number ranks among the numbers. *)
Definition number_rank (x : Value) : Z := total_key (default 0%N (as_number (Imm x))).

Lemma rank_number x : type_rank (Imm x) = 2%N -> tag x = TAG_INT \/ tag x = TAG_FLOAT.
Proof.
  cbn [type_rank]. destruct (N.eqb_spec (tag x) TAG_NIL); [done|].
  destruct (N.eqb_spec (tag x) TAG_TRUE); [done|]. destruct (N.eqb_spec (tag x) TAG_FALSE); [done|].
  destruct (N.eqb_spec (tag x) TAG_INT); [auto|]. destruct (N.eqb_spec (tag x) TAG_FLOAT); [auto|].
  cbn [orb]. repeat (case_match; try done).
Qed.

Lemma number_rank_spec x y : exact_imm x -> exact_imm y ->
  type_rank (Imm x) = 2%N -> type_rank (Imm y) = 2%N ->
  cmp_number (Imm x) (Imm y) = (number_rank x ?= number_rank y)%Z.
Proof.
  intros Ex Ey Rx%rank_number Ry%rank_number. destruct x as [t w], y as [t' w']. cbn [tag] in *.
  destruct Rx as [-> | ->], Ry as [-> | ->]; try reflexivity. cbn [cmp_number as_int imm_is tag].
  symmetry. apply total_cmp_exact; [by apply Ex | by apply Ey].
Qed.

Lemma val_lawful mem : lawful (val_ok mem no_capture exact_imm) val_cmp.
Proof.
  apply (lawful_enc _ _ (enc number_rank false)). intros a b.
  apply val_cmp_enc; [done | exact number_rank_spec].
Qed.

Lemma key_lawful mem : lawful (key_ok mem no_capture any_imm) key_cmp.
Proof.
  apply (lawful_enc _ _ (key_enc (fun x => u64_as_i64 (payload x)))).
  intros a b Oa%key_ok_floatless Ob%key_ok_floatless.
  eapply key_cmp_enc; [done | | exact Oa | exact Ob].
  intros x y Fx Fy [Tx|Tx]%rank_number [Ty|Ty]%rank_number; try done.
  destruct x as [t w], y as [t' w']. cbn [tag] in *. by subst.
Qed.

(** The keys of a set and of a struct, as the sorted stores take them. *)
Definition lawful_keys {A} (ok : A -> Prop) (c : A -> A -> comparison) (sc : bool) (L : lawful ok c) :
  KeyOrder {a : A | ok a}.
Proof.
  refine {| cmp a b := c (`a) (`b); scans := sc |}.
  - intros [a Ha]. by apply L.
  - intros [a Ha] [b Hb] [d Hd]. by apply L.
  - intros [a Ha] [b Hb]. by apply L.
  - intros [a Ha] [b Hb] [d Hd]. by apply L.
Defined.

Definition SetKey (mem : N -> HeapObject) : Type := {v : Val | val_ok mem no_capture exact_imm v}.
Definition StructKey (mem : N -> HeapObject) : Type := {k : TableKey | key_ok mem no_capture any_imm k}.

#[export] Instance set_keys mem : KeyOrder (SetKey mem) := lawful_keys _ val_cmp false (val_lawful mem).
#[export] Instance struct_keys mem : KeyOrder (StructKey mem) := lawful_keys _ key_cmp true (key_lawful mem).

(** The order over values is a total preorder that respects its own
    equality, over all values of one heap whose integers lie between -2^53 and
    2^53: reflexive, antisymmetric, transitive, and equal values compare alike
    with any third.  Floats of every kind take part, NaNs and both zeros
    included, and so do nested lists, arrays, structs, sets, boxes, strings and
    identities. *)
Theorem value_order_lawful mem : lawful (val_ok mem no_capture exact_imm) val_cmp.
Proof. apply val_lawful. Qed.

Definition int_val (n : Z) : Val := Imm (V_int n).
Definition float_val (bits : N) : Val := Imm (V_float bits).

(** One array, of a NaN and the integer 1, at the address 64. *)
Definition sample_elems : list Val := [float_val 9221120237041090560; int_val 1].
Definition sample_mem (p : N) : HeapObject := if (p =? 64)%N then O_LArray sample_elems else O_Closure.

Lemma int_val_known n : imm_known (V_int n).
Proof.
  unfold imm_known, V_int. cbn [tag payload]. split; [done|]. split.
  - unfold i64_as_u64. pose proof (Z.mod_pos_bound n (2 ^ 64) eq_refl). lia.
  - intros H%(bool_decide_pack _). by vm_compute in H.
Qed.

Lemma int_val_ok mem obj n : (- 2 ^ 53 <= n <= 2 ^ 53)%Z -> val_ok mem obj exact_imm (int_val n).
Proof.
  intros H. split; [apply int_val_known|]. intros _. cbn [payload V_int]. rewrite i64_roundtrip; [done|].
  unfold i64_range. lia.
Qed.

Lemma float_val_ok mem obj bits : (bits < 2 ^ 64)%N -> val_ok mem obj exact_imm (float_val bits).
Proof.
  intros H. split; [|done]. split; [done|]. split; [done|]. cbn [tag V_float].
  intros H'%(bool_decide_pack _). by vm_compute in H'.
Qed.

Lemma sample_array_ok : val_ok sample_mem no_capture exact_imm (Heap 64 (O_LArray sample_elems)).
Proof.
  split; [done|]. split; [done|]. split; [by apply float_val_ok|]. split; [by apply int_val_ok | done].
Qed.

Lemma value_order_lawful_witness :
  val_cmp (int_val (-5)) (Heap 64 (O_LArray sample_elems)) = Lt.
Proof.
  apply (law_trans _ _ (value_order_lawful sample_mem) _ (float_val 9223372036854775808) _);
    [by apply int_val_ok | by apply float_val_ok | apply sample_array_ok | vm_compute; reflexivity..].
Defined.

(** C24: Struct keys are lawfully ordered without any condition on their
    integers: a key is made of a value without floats, so no key meets the
    rounding of a float comparison, and whatever [from_value] makes of a value
    is such a key. *)
Theorem key_order_lawful mem :
  lawful (key_ok mem no_capture any_imm) key_cmp /\
  forall v k, val_ok mem no_capture any_imm v -> from_value v = Some k -> key_ok mem no_capture any_imm k.
Proof.
  split; [apply key_lawful | intros v k; apply from_value_ok].
Qed.

(** On struct keys equality and order decide alike: two keys are [==] when
    and only when neither is less, whichever of their arms they take. *)
Theorem key_equality_is_order mem k1 k2 :
  key_ok mem no_capture any_imm k1 -> key_ok mem no_capture any_imm k2 ->
  key_eq k1 k2 = true <-> key_cmp k1 k2 = Eq.
Proof. apply key_agree. Qed.

(** Every object but a capture cell or an immutable set. *)
Definition hashable (o : HeapObject) : Prop :=
  match o with O_CaptureCell _ | O_LSet _ => False | _ => True end.

(** Values the order calls equal feed a hasher alike, and so do equal
    struct keys, over all values that hold no immutable set: an integer and
    the float it equals, two strings, lists, arrays or structs of equal parts
    at two addresses. *)
Theorem order_equal_hash_alike mem :
  (forall a b, val_ok mem hashable any_imm a -> val_ok mem hashable any_imm b ->
     val_cmp a b = Eq -> val_hash a = val_hash b) /\
  (forall k1 k2, key_ok mem hashable any_imm k1 -> key_ok mem hashable any_imm k2 ->
     key_eq k1 k2 = true -> key_hash k1 = key_hash k2).
Proof.
  assert (S1 : forall o, hashable o -> no_capture o) by (by intros []).
  assert (S2 : forall o, hashable o -> match o with O_LSet _ => False | _ => True end) by (by intros []).
  split.
  - intros a b. by apply val_cmp_hash.
  - intros k1 k2 O1 O2 E. apply (key_cmp_hash mem hashable any_imm); try done.
    by apply (key_agree mem hashable any_imm).
Qed.

(** *** Witnesses *)

Lemma int_any_ok mem obj n : val_ok mem obj any_imm (int_val n).
Proof. split; [apply int_val_known | done]. Qed.

(** An integer no double holds, and the array [[2^53 + 1]] at the address 32. *)
Definition big : Val := int_val 9007199254740993.
Definition key_mem (p : N) : HeapObject := if (p =? 32)%N then O_LArray [big] else O_LString [97%N].

Lemma array_ok : val_ok key_mem no_capture any_imm (Heap 32 (O_LArray [big])).
Proof. split; [done|]. split; [done|]. split; [apply int_any_ok | done]. Qed.

Lemma key_order_lawful_witness :
  exists k, from_value (Heap 32 (O_LArray [big])) = Some k /\
    key_cmp (K_Int 9007199254740993) k = Lt /\ key_cmp k k = Eq.
Proof.
  eexists. split; [vm_compute; reflexivity|]. split; [vm_compute; reflexivity|].
  apply (law_refl _ _ (proj1 (key_order_lawful key_mem))).
  apply (proj2 (key_order_lawful key_mem) (Heap 32 (O_LArray [big]))); [exact array_ok | vm_compute; reflexivity].
Defined.

(** Two strings of one spelling, at two addresses. *)
Lemma key_equality_is_order_witness :
  key_eq (K_String (Heap 1 (O_LString [97%N]))) (K_String (Heap 2 (O_LString [97%N]))) = true.
Proof.
  apply (key_equality_is_order key_mem); [by repeat split..|]. vm_compute. reflexivity.
Defined.

Lemma order_equal_hash_alike_witness :
  val_hash (int_val 7) = val_hash (float_val 4619567317775286272) /\
  key_hash (K_String (Heap 1 (O_LString [97%N]))) = key_hash (K_String (Heap 2 (O_LString [97%N]))).
Proof.
  split.
  - apply (proj1 (order_equal_hash_alike key_mem)); [apply int_any_ok | | vm_compute; reflexivity].
    split; [|done]. split; [done|]. split; [done|]. intros H%(bool_decide_pack _). by vm_compute in H.
  - apply (proj2 (order_equal_hash_alike key_mem)); [by repeat split..|]. vm_compute. reflexivity.
Defined.

(** Keys of a struct: an integer and a string. *)
Definition key_a : StructKey key_mem := exist _ (K_Int 3) (conj I I).
Lemma string_key_ok : key_ok key_mem no_capture any_imm (K_String (Heap 2 (O_LString [97%N]))).
Proof. by repeat split. Qed.
Definition key_b : StructKey key_mem := exist _ (K_String (Heap 2 (O_LString [97%N]))) string_key_ok.

Lemma sorted_struct_refines_witness :
  ascending [(key_a, 1); (key_b, 2)] /\
  sorted_struct_get [(key_a, 1); (key_b, 2)] key_b = Some 2 /\
  sorted_struct_insert [(key_b, 2)] key_a 5 = sm_put (key_a, 5) [(key_b, 2)].
Proof.
  assert (A : ascending [(key_b, 2)]) by (repeat constructor).
  assert (A2 : ascending [(key_a, 1); (key_b, 2)]) by (repeat constructor).
  split; [exact A2|]. split.
  - exact (proj1 (sorted_struct_refines _ key_b 0 A2)).
  - exact (proj1 (proj2 (proj2 (sorted_struct_refines _ key_a 5 A)))).
Defined.

(** ** Where the code departs *)

(** Past 2^53 the order over values is no order: 2^53 and the float that
    equals it are equal, that float and 2^53 + 1 are equal, and 2^53 is less
    than 2^53 + 1, since two integers compare exactly and an integer compares
    with a float after rounding.  The module says the order is total, and the
    nodes of a set are searched by it. *)
Theorem value_order_intransitive :
  val_cmp (int_val (2 ^ 53)) (float_val 4845873199050653696) = Eq /\
  val_cmp (float_val 4845873199050653696) (int_val (2 ^ 53 + 1)) = Eq /\
  val_cmp (int_val (2 ^ 53)) (int_val (2 ^ 53 + 1)) = Lt.
Proof. vm_compute. done. Qed.

(** C40: Two immutable sets of the same members are equal, identical and
    Ord-equal, and hash apart: no arm of [Hash for Value] takes an immutable
    set, so its address is hashed. *)
Theorem equal_sets_hash_apart :
  let s1 := Heap 64 (O_LSet [int_val 1]) in
  let s2 := Heap 128 (O_LSet [int_val 1]) in
  eq_with Numeric s1 s2 = true /\ eq_with Identity s1 s2 = true /\ val_cmp s1 s2 = Eq /\
  val_hash s1 <> val_hash s2.
Proof. vm_compute. done. Qed.

(** An array and an @array of the same elements are equal under both
    relations and hash apart: the hash begins with the heap tag. *)
Theorem mutable_twin_hashes_apart :
  let a := Heap 64 (O_LArray [int_val 1; int_val 2]) in
  let b := Heap 128 (O_LArrayMut [int_val 1; int_val 2]) in
  eq_with Numeric a b = true /\ eq_with Identity a b = true /\ val_hash a <> val_hash b.
Proof. vm_compute. done. Qed.
