(* ===== verification/Scalar.v ===== *)
(** * Scalar opcodes

    [arithmetic.rs]: the checked arithmetic the primitives use.
    [vm/arithmetic.rs], [vm/comparison.rs], [vm/types/predicate.rs],
    [vm/dispatch/interp/scalar.rs]: the opcodes whose whole effect is on the
    operand stack, as functions of the operands they pop; the container
    intrinsics are not among them.

    Doubles are their bits.  An operation decodes them, computes with the
    IEEE 754 specification of the Standard Library and encodes the result; a
    NaN result is the quiet one, whose payload Rust leaves open. *)

From Stdlib Require Import SpecFloat.
From stdpp Require Import base numbers option list.
From S2P Require Import Prelude LirRecord Bytecode Names ValueTree ValueEq.

(** ** Double arithmetic *)

Definition sf_of_bits (bits : N) : spec_float :=
  let s := (2 ^ 63 <=? bits)%N in
  let e := Z.of_N ((bits / 2 ^ 52) mod 2048) in
  let f := (bits mod 2 ^ 52)%N in
  if (e =? 0)%Z then match f with N0 => S754_zero s | Npos m => S754_finite s m (-1074) end
  else if (e =? 2047)%Z then (if (f =? 0)%N then S754_infinity s else S754_nan)
  else match (f + 2 ^ 52)%N with N0 => S754_nan | Npos m => S754_finite s m (e - 1075) end.

Definition bits_of_sf (x : spec_float) : N :=
  let sign (s : bool) := if s then (2 ^ 63)%N else 0%N in
  match x with
  | S754_zero s => sign s
  | S754_infinity s => (sign s + 2047 * 2 ^ 52)%N
  | S754_nan => (2047 * 2 ^ 52 + 2 ^ 51)%N
  | S754_finite s m e =>
    if (Npos m <? 2 ^ 52)%N then (sign s + Npos m)%N
    else (sign s + Z.to_N (e + 1075) * 2 ^ 52 + (Npos m - 2 ^ 52))%N
  end.

Definition f64_op (f : spec_float -> spec_float -> spec_float) (a b : N) : N :=
  bits_of_sf (f (sf_of_bits a) (sf_of_bits b)).

Definition f64_add : N -> N -> N := f64_op (SFadd 53 1024).
Definition f64_sub : N -> N -> N := f64_op (SFsub 53 1024).
Definition f64_mul : N -> N -> N := f64_op (SFmul 53 1024).
Definition f64_div : N -> N -> N := f64_op (SFdiv 53 1024).

(** [%]: exact, with the dividend's sign. *)
Definition SFrem (x y : spec_float) : spec_float :=
  match x, y with
  | S754_nan, _ | _, S754_nan | S754_infinity _, _ | _, S754_zero _ => S754_nan
  | S754_zero _, _ | _, S754_infinity _ => x
  | S754_finite sx mx ex, S754_finite _ my ey =>
    let e := Z.min ex ey in
    let r := ((Zpos mx * 2 ^ (ex - e)) mod (Zpos my * 2 ^ (ey - e)))%Z in
    if (r =? 0)%Z then S754_zero sx
    else binary_normalize 53 1024 (if sx then - r else r)%Z e sx
  end.

Definition f64_rem : N -> N -> N := f64_op SFrem.

Definition I64_MIN : Z := (- 2 ^ 63)%Z.
Definition I64_MAX : Z := (2 ^ 63 - 1)%Z.

(** [f as i64]: toward zero, saturating, a NaN to 0. *)
Definition f64_as_i64 (bits : N) : Z :=
  match sf_of_bits bits with
  | S754_zero _ | S754_nan => 0
  | S754_infinity s => if s then I64_MIN else I64_MAX
  | S754_finite s m e =>
    let n := (if e <? 0 then Zpos m / 2 ^ (- e) else Zpos m * 2 ^ e)%Z in
    Z.max I64_MIN (Z.min I64_MAX (if s then - n else n)%Z)
  end.

(** ** Integer arithmetic *)

(** The 64 bits of a result, as a signed integer. *)
Definition wrap64 (z : Z) : Z := u64_as_i64 (i64_as_u64 z).

Definition wrapping_add (a b : Z) : Z := wrap64 (a + b).
Definition wrapping_sub (a b : Z) : Z := wrap64 (a - b).
Definition wrapping_mul (a b : Z) : Z := wrap64 (a * b).
Definition wrapping_div (a b : Z) : Z := wrap64 (Z.quot a b).
Definition wrapping_rem (a b : Z) : Z := wrap64 (Z.rem a b).

Definition VNil : Val := Imm V_NIL.
Definition VBool (b : bool) : Val := Imm (V_bool b).
Definition VInt (n : Z) : Val := Imm (V_int n).
Definition VFloat (bits : N) : Val := Imm (V_float bits).

(** ** The checked operations *)

Inductive ArithError := TypeError | DivisionByZero.

(** Two numbers, both integers or as doubles. *)
Definition num_op (int_op : Z -> Z -> Z) (float_op : N -> N -> N) (a b : Val) : ArithError + Val :=
  match as_int a, as_int b with
  | Some x, Some y => inr (VInt (int_op x y))
  | _, _ =>
    match as_number a, as_number b with
    | Some x, Some y => inr (VFloat (float_op x y))
    | _, _ => inl TypeError
    end
  end.

Definition add_values : Val -> Val -> ArithError + Val := num_op wrapping_add f64_add.
Definition sub_values : Val -> Val -> ArithError + Val := num_op wrapping_sub f64_sub.
Definition mul_values : Val -> Val -> ArithError + Val := num_op wrapping_mul f64_mul.

Definition div_values (a b : Val) : ArithError + Val :=
  match as_int a, as_int b with
  | Some x, Some y => if (y =? 0)%Z then inl DivisionByZero else inr (VInt (wrapping_div x y))
  | _, _ =>
    match as_number a, as_number b with
    | Some x, Some y => inr (VFloat (f64_div x y))
    | _, _ => inl TypeError
    end
  end.

Definition remainder_values (a b : Val) : ArithError + Val :=
  match as_int a, as_float a, as_int b, as_float b with
  | Some x, _, Some y, _ => if (y =? 0)%Z then inl DivisionByZero else inr (VInt (wrapping_rem x y))
  | Some x, _, _, Some y => inr (VFloat (f64_rem (f64_of_i64 x) y))
  | _, Some x, Some y, _ => inr (VFloat (f64_rem x (f64_of_i64 y)))
  | _, Some x, _, Some y => inr (VFloat (f64_rem x y))
  | _, _, _, _ => inl TypeError
  end.

(** ** The handlers *)

(** The operand stack, its top first; an underflow panics. *)
Abbreviation Stack := (list Val).

Definition unary (f : Val -> Val) (st : Stack) : option Stack :=
  match st with a :: st => Some (f a :: st) | [] => None end.

Definition binary (f : Val -> Val -> Val) (st : Stack) : option Stack :=
  match st with b :: a :: st => Some (f a b :: st) | _ => None end.

(** [int_binop!] *)
Definition int_binop (op : Z -> Z -> Z) (a b : Val) : Val :=
  VInt (op (default 0%Z (as_int a)) (default 0%Z (as_int b))).

(** [generic_binop!] *)
Definition generic_binop (arith : Val -> Val -> ArithError + Val) (int_op : Z -> Z -> Z) (a b : Val) : Val :=
  match as_int a, as_int b with
  | Some x, Some y => VInt (int_op x y)
  | _, _ => match arith a b with inr r => r | inl _ => VNil end
  end.

Definition handle_div_int (a b : Val) : Val :=
  let x := default 0%Z (as_int a) in
  let y := default 1%Z (as_int b) in
  if (y =? 0)%Z then VInt 0 else VInt (wrapping_div x y).

Definition handle_div (a b : Val) : Val :=
  match as_int a, as_int b with
  | Some _, Some 0%Z => VInt 0
  | _, _ => match div_values a b with inr r => r | inl _ => VNil end
  end.

(** A shift count, clamped to the width. *)
Definition shift_count (b : Z) : Z := Z.max 0 (Z.min b 63).

Definition shl (a b : Z) : Z := wrap64 (Z.shiftl a (shift_count b)).
Definition shr (a b : Z) : Z := Z.shiftr a (shift_count b).

Definition handle_int_to_float (v : Val) : Val :=
  match as_int v with
  | Some n => VFloat (f64_of_i64 n)
  | None => match as_float v with Some _ => v | None => VFloat 0 end
  end.

Definition handle_float_to_int (v : Val) : Val :=
  match as_float v with
  | Some f => VInt (f64_as_i64 f)
  | None => match as_int v with Some _ => v | None => VInt 0 end
  end.

(** [cmp_handler!]: integers, numbers, strings, keywords, else false. *)
Definition cmp_handler (int_cmp : Z -> Z -> bool) (float_cmp : N -> N -> bool)
    (ord : comparison -> bool) (a b : Val) : Val :=
  match as_int a, as_int b with
  | Some x, Some y => VBool (int_cmp x y)
  | _, _ =>
    match as_number a, as_number b with
    | Some x, Some y => VBool (float_cmp x y)
    | _, _ =>
      match as_str a, as_str b with
      | Some s, Some t => VBool (ord (lex N.compare s t))
      | _, _ =>
        match keyword_hash a, keyword_hash b with
        | Some x, Some y => VBool (ord (x ?= y)%N)
        | _, _ => Imm V_FALSE
        end
      end
    end
  end.

Definition handle_eq (a b : Val) : Val := VBool (eq_with Numeric a b).

Definition handle_ne (a b : Val) : Val :=
  if eq_with Identity a b then Imm V_FALSE
  else if is_number a && is_number b then
    match as_int a, as_int b with
    | Some x, Some y => VBool (negb (x =? y)%Z)
    | _, _ =>
      match as_number a, as_number b with
      | Some x, Some y => VBool (negb (f64_eq x y))
      | _, _ => Imm V_TRUE
      end
    end
  else Imm V_TRUE.

Definition handle_identical (a b : Val) : Val := VBool (bit_identical a b).
Definition handle_not (v : Val) : Val := VBool (negb (is_truthy (repr v))).

(** The tag test a type predicate makes. *)
Definition heap_is (t : N) (v : Val) : bool := match v with Heap _ o => (value_tag o =? t)%N | _ => false end.

Definition handle_array_len (v : Val) : Val :=
  match v with
  | Heap _ (O_LArrayMut l) | Heap _ (O_LArray l) => VInt (Z.of_nat (length l))
  | _ => VInt 0
  end.

(** [dispatch_scalar], the container intrinsics apart. *)
Definition dispatch_scalar (i : Instruction) : option (Stack -> option Stack) :=
  match i with
  | B_AddInt => Some (binary (int_binop wrapping_add))
  | B_SubInt => Some (binary (int_binop wrapping_sub))
  | B_MulInt => Some (binary (int_binop wrapping_mul))
  | B_DivInt => Some (binary handle_div_int)
  | B_Add => Some (binary (generic_binop add_values wrapping_add))
  | B_Sub => Some (binary (generic_binop sub_values wrapping_sub))
  | B_Mul => Some (binary (generic_binop mul_values wrapping_mul))
  | B_Div => Some (binary handle_div)
  | B_Rem => Some (binary (generic_binop remainder_values
                     (fun x y => if (y =? 0)%Z then 0%Z else wrapping_rem x y)))
  | B_BitAnd => Some (binary (int_binop Z.land))
  | B_BitOr => Some (binary (int_binop Z.lor))
  | B_BitXor => Some (binary (int_binop Z.lxor))
  | B_BitNot => Some (unary (fun v => VInt (Z.lnot (default 0%Z (as_int v)))))
  | B_BitNotIntr => Some (fun st =>
      match st with v :: st => n ← as_int v; Some (VInt (Z.lnot n) :: st) | [] => None end)
  | B_Shl => Some (binary (int_binop shl))
  | B_Shr => Some (binary (int_binop shr))
  | B_IntToFloat => Some (unary handle_int_to_float)
  | B_FloatToInt => Some (unary handle_float_to_int)
  | B_Eq => Some (binary handle_eq)
  | B_Ne => Some (binary handle_ne)
  | B_Lt => Some (binary (cmp_handler Z.ltb f64_lt (fun c => match c with Lt => true | _ => false end)))
  | B_Gt => Some (binary (cmp_handler Z.gtb (fun x y => f64_lt y x) (fun c => match c with Gt => true | _ => false end)))
  | B_Le => Some (binary (cmp_handler Z.leb f64_le (fun c => match c with Gt => false | _ => true end)))
  | B_Ge => Some (binary (cmp_handler Z.geb (fun x y => f64_le y x) (fun c => match c with Lt => false | _ => true end)))
  | B_Identical => Some (binary handle_identical)
  | B_IsNil => Some (unary (fun v => VBool (is_nil v)))
  | B_IsEmptyList => Some (unary (fun v => VBool (is_empty_list v)))
  | B_IsPair => Some (unary (fun v => VBool (heap_is 16 v)))
  | B_IsArray => Some (unary (fun v => VBool (heap_is 12 v)))
  | B_IsArrayMut => Some (unary (fun v => VBool (heap_is 13 v)))
  | B_IsStruct => Some (unary (fun v => VBool (heap_is 14 v)))
  | B_IsStructMut => Some (unary (fun v => VBool (heap_is 15 v)))
  | B_IsSet => Some (unary (fun v => VBool (heap_is 20 v)))
  | B_IsSetMut => Some (unary (fun v => VBool (heap_is 21 v)))
  | B_IsBool => Some (unary (fun v => VBool (imm_is TAG_TRUE v || imm_is TAG_FALSE v)))
  | B_IsInt => Some (unary (fun v => VBool (imm_is TAG_INT v)))
  | B_IsFloat => Some (unary (fun v => VBool (imm_is TAG_FLOAT v)))
  | B_IsString => Some (unary (fun v => VBool (heap_is 26 v || heap_is 11 v)))
  | B_IsKeyword => Some (unary (fun v => VBool (imm_is TAG_KEYWORD v)))
  | B_IsBytes => Some (unary (fun v => VBool (heap_is 18 v || heap_is 19 v)))
  | B_IsBox => Some (unary (fun v => VBool (heap_is 22 v)))
  | B_IsClosure => Some (unary (fun v => VBool (heap_is 17 v)))
  | B_IsFiber => Some (unary (fun v => VBool (heap_is 23 v)))
  | B_IsNumber => Some (unary (fun v => VBool (is_number v)))
  | B_IsSymbol => Some (unary (fun v => VBool (imm_is TAG_SYMBOL v)))
  | B_Not => Some (unary handle_not)
  | B_ArrayMutLen => Some (unary handle_array_len)
  | _ => None
  end.
