(* ===== verification/ScalarProps.v ===== *)
(** * The scalar opcodes agree

    The opcode the emitter picks when it has proved its operands integers
    computes what the general opcode computes; the general opcode computes
    what the checked primitive does wherever that succeeds; and integer
    results are the exact ones modulo 2^64. *)

From stdpp Require Import base numbers option list.
From S2P Require Import Prelude LirRecord LirInstr Bytecode ValueTree ValueEq Emit Scalar.

Definition run_scalar (i : Instruction) (st : Stack) : option Stack :=
  h ← dispatch_scalar i; h st.

(** The checked operation behind a binary one, where there is one. *)
Definition checked_of (op : BinOp) : option (Val -> Val -> ArithError + Val) :=
  match op with
  | Add => Some add_values | Sub => Some sub_values | Mul => Some mul_values
  | Div => Some div_values | Rem => Some remainder_values
  | _ => None
  end.

(** C30: The proof of integer operands changes no result: over two integers the
    specialised opcode the emitter picks for a binary operation leaves the
    stack the general one leaves, division by zero and overflow included. *)
Theorem proven_int_opcode_agrees op a b x y st :
  as_int a = Some x -> as_int b = Some y ->
  run_scalar (binop_instr op true) (b :: a :: st) = run_scalar (binop_instr op false) (b :: a :: st) /\
  is_Some (run_scalar (binop_instr op true) (b :: a :: st)).
Proof.
  intros Ea Eb. destruct op; cbn [binop_instr]; unfold run_scalar;
    cbn [dispatch_scalar mbind option_bind binary]; (split; [|by eexists]); try done;
    unfold int_binop, generic_binop, handle_div_int, handle_div, div_values; rewrite Ea, Eb; cbn [default]; try done.
  by destruct y.
Qed.

(** The general opcodes are the checked operations made total: where the
    primitive answers a value the opcode leaves that value; where it reports a
    division by zero the opcode leaves the integer 0; where it reports operands
    that are no numbers the opcode leaves nil.  None of them panics. *)
Theorem opcode_totalises_checked op checked a b st :
  checked_of op = Some checked ->
  run_scalar (binop_instr op false) (b :: a :: st)
  = Some (match checked a b with
          | inr r => r
          | inl DivisionByZero => VInt 0
          | inl TypeError => VNil
          end :: st).
Proof.
  intros Hc. destruct op; try discriminate; injection Hc as <-; unfold run_scalar;
    cbn [binop_instr dispatch_scalar mbind option_bind binary]; do 2 f_equal;
    unfold generic_binop, handle_div, add_values, sub_values, mul_values, num_op, div_values, remainder_values.
  - destruct (as_int a), (as_int b); try done; by destruct (as_number a), (as_number b).
  - destruct (as_int a), (as_int b); try done; by destruct (as_number a), (as_number b).
  - destruct (as_int a), (as_int b); try done; by destruct (as_number a), (as_number b).
  - destruct (as_int a) as [x|], (as_int b) as [[| |]|]; try done; by destruct (as_number a), (as_number b).
  - destruct (as_int a) as [x|], (as_int b) as [y|]; [cbn beta; by destruct (as_float a), (y =? 0)%Z|..];
      by destruct (as_float a), (as_float b).
Qed.

(** ** Wrapping *)

Lemma wrap64_range z : i64_range (wrap64 z).
Proof.
  unfold wrap64, u64_as_i64, i64_as_u64, i64_range. cbv zeta.
  pose proof (Z.mod_pos_bound z (2 ^ 64) eq_refl). rewrite Z2N.id by lia.
  destruct (Z.ltb_spec (z mod 2 ^ 64) (2 ^ 63)); lia.
Qed.

Lemma wrap64_congr z : ((wrap64 z - z) mod 2 ^ 64 = 0)%Z.
Proof.
  unfold wrap64, u64_as_i64, i64_as_u64. cbv zeta.
  pose proof (Z.mod_pos_bound z (2 ^ 64) eq_refl). rewrite Z2N.id by lia.
  pose proof (Z.div_mod z (2 ^ 64) ltac:(lia)) as E. destruct (Z.ltb_spec (z mod 2 ^ 64) (2 ^ 63)).
  - replace (z mod 2 ^ 64 - z)%Z with ((- (z / 2 ^ 64)) * 2 ^ 64)%Z by lia. apply Z.mod_mul. lia.
  - replace (z mod 2 ^ 64 - 2 ^ 64 - z)%Z with ((- (z / 2 ^ 64) - 1) * 2 ^ 64)%Z by lia. apply Z.mod_mul. lia.
Qed.

Lemma wrap64_id z : i64_range z -> wrap64 z = z.
Proof. apply i64_roundtrip. Qed.

Lemma as_int_VInt z : as_int (VInt z) = Some (wrap64 z).
Proof. reflexivity. Qed.

(** What an operation means on integers, without a width. *)
Definition exact_of (op : BinOp) (x y : Z) : option Z :=
  match op with
  | Add => Some (x + y)%Z | Sub => Some (x - y)%Z | Mul => Some (x * y)%Z
  | Div => Some (if (y =? 0)%Z then 0 else Z.quot x y)%Z
  | Rem => Some (if (y =? 0)%Z then 0 else Z.rem x y)%Z
  | _ => None
  end.

(** C31: Integer arithmetic is arithmetic modulo 2^64: over two integers an
    addition, subtraction, multiplication, division or remainder leaves one
    64-bit integer congruent to the exact result, which is the exact result
    itself whenever that fits; a division by zero counts as 0, and the one
    quotient that does not fit, -2^63 over -1, is -2^63. *)
Theorem integer_arithmetic_wraps op proven a b x y st exact :
  as_int a = Some x -> as_int b = Some y -> exact_of op x y = Some exact ->
  exists r z, run_scalar (binop_instr op proven) (b :: a :: st) = Some (r :: st) /\
    as_int r = Some z /\ i64_range z /\ ((z - exact) mod 2 ^ 64 = 0)%Z /\ (i64_range exact -> z = exact).
Proof.
  intros Ea Eb He.
  assert (W : run_scalar (binop_instr op proven) (b :: a :: st) = Some (VInt (wrap64 exact) :: st)).
  { destruct op; try discriminate; injection He as <-; destruct proven; unfold run_scalar;
      cbn [binop_instr dispatch_scalar mbind option_bind binary];
      unfold int_binop, generic_binop, handle_div_int, handle_div, div_values;
      rewrite ?Ea, ?Eb; try reflexivity; cbn [default id from_option].
    - by destruct (y =? 0)%Z.
    - by destruct y.
    - by destruct (y =? 0)%Z.
    - by destruct (y =? 0)%Z. }
  exists (VInt (wrap64 exact)), (wrap64 exact). split; [done|]. rewrite as_int_VInt.
  rewrite (wrap64_id (wrap64 exact)) by apply wrap64_range.
  split; [done|]. split; [apply wrap64_range|]. split; [apply wrap64_congr | apply wrap64_id].
Qed.

(** *** Witnesses *)

Lemma proven_int_opcode_agrees_witness :
  run_scalar B_DivInt [VInt (-1); VInt (- 2 ^ 63)] = run_scalar B_Div [VInt (-1); VInt (- 2 ^ 63)] /\
  run_scalar B_DivInt [VInt (-1); VInt (- 2 ^ 63)] = Some [VInt (- 2 ^ 63)].
Proof.
  split; [|vm_compute; reflexivity].
  apply (proven_int_opcode_agrees Div (VInt (- 2 ^ 63)) (VInt (-1)) (- 2 ^ 63) (-1) []); vm_compute; reflexivity.
Defined.

(** One and a half less than a string. *)
Lemma opcode_totalises_checked_witness :
  run_scalar B_Sub [Heap 8 (O_LString []); VFloat 4609434218613702656] = Some [VNil] /\
  run_scalar B_Add [VInt 1; VFloat 4609434218613702656] = Some [VFloat 4612811918334230528].
Proof.
  split.
  - rewrite (opcode_totalises_checked Sub sub_values _ _ [] eq_refl). vm_compute. reflexivity.
  - rewrite (opcode_totalises_checked Add add_values _ _ [] eq_refl). vm_compute. reflexivity.
Defined.

Lemma integer_arithmetic_wraps_witness :
  exists r z, run_scalar B_AddInt [VInt 1; VInt (2 ^ 63 - 1)] = Some [r] /\
    as_int r = Some z /\ i64_range z /\ ((z - 2 ^ 63) mod 2 ^ 64 = 0)%Z /\ (i64_range (2 ^ 63) -> z = 2 ^ 63)%Z.
Proof.
  apply (integer_arithmetic_wraps Add true (VInt (2 ^ 63 - 1)) (VInt 1) (2 ^ 63 - 1) 1 [] (2 ^ 63));
    vm_compute; reflexivity.
Defined.

(** ** The two ways to ask whether values differ *)

(** The opcode [Ne] calls a NaN no different from itself, where the code the
    emitter writes for a not-equal comparison, [Eq] then [Not], calls it
    different, as [=] does; on [[1]] and [[1.0]] the two disagree the other way. *)
Lemma ne_opcode_departs :
  let nan := VFloat 9221120237041090560 in
  let a := Heap 8 (O_LArray [VInt 1]) in
  let b := Heap 16 (O_LArray [VFloat 4607182418800017408]) in
  run_scalar B_Ne [nan; nan] = Some [Imm V_FALSE] /\
  run_scalar B_Eq [nan; nan] ≫= run_scalar B_Not = Some [Imm V_TRUE] /\
  run_scalar B_Ne [b; a] = Some [Imm V_TRUE] /\
  run_scalar B_Eq [b; a] ≫= run_scalar B_Not = Some [Imm V_FALSE].
Proof. vm_compute. done. Qed.
