(* ===== verification/EmitRun.v ===== *)
(** * The emitter's operand stack is the machine's

    The emitter keeps no registers at run time: it simulates which register's
    value each cell of the operand stack holds, copies operands to the top with
    [DupN] and lets every opcode consume its own.  Here the machine runs what an
    instruction's emission wrote.

    [arity] is how many cells each opcode's handler takes off the operand stack
    and how many it puts back ([vm/dispatch/interp/opcodes.rs] and the handlers
    it routes to); what it computes is an argument ([eval]), of its operands,
    the cells it takes and the rest of the machine [W]: heap, locals, fiber.
    The locals reserved at the bottom of the frame are part of [W]. *)

From stdpp Require Import base numbers option list gmap.
From S2P Require Import Prelude SignalBits Signal LirRecord LirInstr LirCodec LirBuild LirView LirSpec LirCodecProps Bytes Files Template Live Bytecode EmitStack Emit Disasm DisasmProps EmitCode.

(** ** The machine *)

(** Cells taken and cells put back; jumps, returns, tail calls and [Emit] leave
    the straight line and have none. *)
Definition arity (i : Instruction) (os : list Operand) : option (nat * nat) :=
  match i, os with
  | (B_LoadConst | B_LoadLocal | B_LoadUpvalue | B_LoadUpvalueRaw | B_LoadSelf | B_Nil | B_EmptyList
     | B_True | B_False | B_MaterializeConst), _ => Some (0, 1)
  | (B_StoreLocal | B_StoreUpvalue | B_IncrefValueRegion | B_AssertRegionMatches), _ => Some (1, 1)
  | (B_Call | B_CallChecked), U16 n :: _ => Some (S (N.to_nat n), 1)
  | B_CallArrayMut, _ => Some (2, 1)
  | B_MakeClosure, [_; _; U16 n] => Some (N.to_nat n, 1)
  | B_MakeArrayMut, [_; U8 n] => Some (N.to_nat n, 1)
  | B_FreeRegionGroup, [U8 n] => Some (N.to_nat n, 0)
  | B_PushParamFrame, [U8 n] => Some (2 * N.to_nat n, 0)
  | (B_AddInt | B_SubInt | B_MulInt | B_DivInt | B_Add | B_Sub | B_Mul | B_Div | B_Rem | B_BitAnd | B_BitOr
     | B_BitXor | B_Shl | B_Shr | B_Eq | B_Lt | B_Gt | B_Le | B_Ge | B_Identical | B_Pair | B_Eval
     | B_ArrayMutExtend | B_ArrayMutPush | B_UpdateCapture | B_IntrGet | B_IntrDel | B_IntrHas | B_IntrPush
     | B_IntrStringPush | B_IntrBytesPush), _ => Some (2, 1)
  | B_IntrPut, _ => Some (3, 1)
  | (B_AdoptRegion | B_AdoptCellRegion), _ => Some (2, 0)
  | (B_DecrefValueRegion | B_DecrefCellRegion | B_AdoptIntoActivation | B_CheckSignalBound), _ => Some (1, 0)
  | (B_IncrefRegion | B_DecrefRegion | B_PopParamFrame), _ => Some (0, 0)
  | (B_Not | B_BitNot | B_IntToFloat | B_FloatToInt | B_IsNil | B_IsEmptyList | B_IsPair | B_IsArray
     | B_IsArrayMut | B_IsStruct | B_IsStructMut | B_IsSet | B_IsSetMut | B_IsBool | B_IsInt | B_IsFloat
     | B_IsString | B_IsKeyword | B_IsSymbol | B_IsBytes | B_IsBox | B_IsClosure | B_IsFiber | B_TypeOf
     | B_Length | B_IntrPop | B_IntrFreeze | B_IntrThaw | B_ArrayMutLen | B_MakeCapture | B_UnwrapCapture
     | B_First | B_Rest | B_MatchFail | B_FirstDestructure | B_RestDestructure | B_ArrayMutRefDestructure
     | B_ArrayMutSliceFrom | B_StructGetOrNil | B_StructGetDestructure | B_StructRest | B_FirstOrNil
     | B_RestOrNil | B_ArrayMutRefOrNil), _ => Some (1, 1)
  | _, _ => None
  end.

Section Machine.
Context {V W : Type} (eval : Instruction -> list Operand -> W -> list V -> option (list V * W)).

(** One opcode.  The top of the stack is its last element. *)
Definition op_step (x : Instruction * list Operand) (s : W * list V) : option (W * list V) :=
  let '(w, st) := s in
  match x with
  | (B_DupN, [U8 offset]) =>
    if decide (N.to_nat offset < length st) then
      v ← st !! (length st - 1 - N.to_nat offset); Some (w, st ++ [v])
    else None
  | (B_Pop, []) => if decide (0 < length st) then Some (w, take (length st - 1) st) else None
  | (i, os) =>
    '(p, q) ← arity i os;
    if decide (p <= length st) then
      '(rs, w) ← eval i os w (drop (length st - p) st);
      if decide (length rs = q) then Some (w, take (length st - p) st ++ rs) else None
    else None
  end.

Fixpoint run (c : list (Instruction * list Operand)) (s : W * list V) : option (W * list V) :=
  match c with [] => Some s | x :: c => op_step x s ≫= run c end.

Lemma run_app c1 c2 s : run (c1 ++ c2) s = run c1 s ≫= run c2.
Proof. revert s. induction c1 as [|x c1 IH]; intros s; cbn; [done|]. destruct (op_step x s); cbn; auto. Qed.

(** An opcode sees nothing below the cells it takes. *)
Lemma op_step_frame x w st w' st' b :
  op_step x (w, st) = Some (w', st') -> op_step x (w, b ++ st) = Some (w', b ++ st').
Proof.
  assert (G : forall i os,
    (('(p, q) ← arity i os;
      if decide (p <= length st) then
        '(rs, w) ← eval i os w (drop (length st - p) st);
        if decide (length rs = q) then Some (w, take (length st - p) st ++ rs) else None
      else None) = Some (w', st')) ->
    (('(p, q) ← arity i os;
      if decide (p <= length (b ++ st)) then
        '(rs, w) ← eval i os w (drop (length (b ++ st) - p) (b ++ st));
        if decide (length rs = q) then Some (w, take (length (b ++ st) - p) (b ++ st) ++ rs) else None
      else None) = Some (w', b ++ st'))).
  { intros i os H. destruct (arity i os) as [[p q]|]; [|done]. cbn in *. destruct (decide _) as [Hp|]; [|done].
    rewrite length_app. rewrite decide_True by lia.
    replace (length b + length st - p) with (length b + (length st - p)) by lia.
    rewrite take_app_add, drop_app_add. destruct (eval _ _ _ _) as [[rs w1]|]; [|done]. cbn in *.
    destruct (decide _); [|done]. injection H as <- <-. by rewrite app_assoc. }
  destruct x as [i os]. destruct i; try exact (G _ os).
  - destruct os; [|exact (G _ _)]. cbn. destruct (decide _); [|done]. intros [= <- <-].
    rewrite length_app. rewrite decide_True by lia.
    replace (length b + length st - 1) with (length b + (length st - 1)) by lia. by rewrite take_app_add.
  - destruct os as [|[n|n|n|n|n|n] [|]]; try exact (G _ _). cbn. destruct (decide _); [|done].
    destruct (st !! _) as [v|] eqn:Ev; [|done]. cbn. intros [= <- <-]. rewrite length_app.
    rewrite decide_True by lia.
    replace (length b + length st - 1 - N.to_nat n) with (length b + (length st - 1 - N.to_nat n)) by lia.
    rewrite lookup_app_r by lia. replace (length b + _ - length b) with (length st - 1 - N.to_nat n) by lia.
    rewrite Ev. cbn. by rewrite app_assoc.
Qed.

Lemma run_frame c : forall w st w' st' b,
  run c (w, st) = Some (w', st') -> run c (w, b ++ st) = Some (w', b ++ st').
Proof.
  induction c as [|x c IH]; intros w st w' st' b; cbn [run]; [by intros [= <- <-]|].
  intros ([w1 st1] & E1 & E2)%bind_Some. rewrite (op_step_frame _ _ _ _ _ _ E1). by apply IH.
Qed.
End Machine.

(** ** What an instruction reads and writes *)

(** The operand registers, in the order their values lie on the stack: a callee
    above its arguments, the expression of an [Eval] above its environment. *)
Definition operands (i : InstrRef) : list Reg :=
  match i with
  | I_Call _ func args _ _ | I_SuspendingCall _ func args _ _ => args ++ [func]
  | I_Eval _ expr env => [env; expr]
  | i => expected_uses i
  end.

(** The register whose value is on top afterwards: the destination, or the
    operand an opcode leaves or puts back. *)
Definition leaves (i : InstrRef) : option Reg :=
  match i with
  | I_StoreCaptureCell _ value => Some value
  | I_IncrefValueRegion src | I_AssertRegionMatches _ src => Some src
  | i => expected_def i
  end.

(** A tail call leaves the frame, and a resume delivers a value no opcode
    pushed; a parameter frame is pushed from pairs. *)
Definition straight (i : InstrRef) : bool :=
  match i with
  | I_TailCall _ _ _ _ _ _ _ _ | I_TailCallArrayMut _ _ _ _ | I_LoadResumeValue _ => false
  | I_PushParamFrame pairs => Nat.even (length pairs)
  | _ => true
  end.

Lemma straight_operands_uses i : straight i = true -> operands i ≡ₚ expected_uses i.
Proof.
  destruct i; intros _; try reflexivity; cbn; try apply Permutation_swap; symmetry; apply Permutation_cons_append.
Qed.

(** ** Registers at run time

    A register file holds the registers' values.  An instruction means its own
    opcodes run on the values of its operands and nothing else. *)

(** The depth [c] leaves of [n] cells, whatever the opcodes compute. *)
Fixpoint depth (c : list (Instruction * list Operand)) (n : nat) : option nat :=
  match c with
  | [] => Some n
  | (B_DupN, [U8 offset]) :: c => if decide (N.to_nat offset < n) then depth c (S n) else None
  | (B_Pop, []) :: c => match n with O => None | S n => depth c n end
  | (i, os) :: c =>
    '(p, q) ← arity i os;
    if decide (p <= n) then depth c (n - p + q) else None
  end.

Section Registers.
Context {V W : Type} (eval : Instruction -> list Operand -> W -> list V -> option (list V * W)).

(** One opcode of a code whose depth is known. *)
Lemma op_step_depth x c w st m b :
  depth (x :: c) (length st) = Some m ->
  match op_step eval x (w, st) with
  | Some (_, st') => depth c (length st') = Some m
  | None => op_step eval x (w, b ++ st) = None
  end.
Proof.
  assert (G : forall i os,
    ('(p, q) ← arity i os; if decide (p <= length st) then depth c (length st - p + q) else None) = Some m ->
    match ('(p, q) ← arity i os;
           if decide (p <= length st) then
             '(rs, w) ← eval i os w (drop (length st - p) st);
             if decide (length rs = q) then Some (w, take (length st - p) st ++ rs) else None
           else None) with
    | Some (_, st') => depth c (length st') = Some m
    | None => ('(p, q) ← arity i os;
        if decide (p <= length (b ++ st)) then
          '(rs, w) ← eval i os w (drop (length (b ++ st) - p) (b ++ st));
          if decide (length rs = q) then Some (w, take (length (b ++ st) - p) (b ++ st) ++ rs) else None
        else None) = None
    end).
  { intros i os H. destruct (arity i os) as [[p q]|]; [|done]. cbn in *. destruct (decide _) as [Hp|]; [|done].
    rewrite length_app. rewrite (decide_True (P := p <= _)) by lia.
    replace (length b + length st - p) with (length b + (length st - p)) by lia. rewrite drop_app_add.
    destruct (eval _ _ _ _) as [[rs w1]|]; [|done]. cbn. destruct (decide (length rs = q)) as [<-|]; [|done].
    rewrite length_app, length_take. by replace (_ `min` _) with (length st - p) by lia. }
  destruct x as [i os]. destruct i; try exact (G _ os).
  - destruct os; [|exact (G _ _)]. cbn. destruct st as [|v st]; [done|]. rewrite decide_True by (cbn; lia). cbn.
    rewrite Nat.sub_0_r, length_take. cbn. by rewrite (Nat.min_l (length st)) by lia.
  - destruct os as [|[n|n|n|n|n|n] [|]]; try exact (G _ _). cbn. destruct (decide _); [|done].
    destruct (st !! _) as [v|] eqn:Ev; [|apply lookup_ge_None in Ev; lia]. cbn. by rewrite length_app, Nat.add_1_r.
Qed.

Lemma run_depth c : forall w st m b,
  depth c (length st) = Some m ->
  match run eval c (w, st) with
  | Some (_, st') => length st' = m
  | None => run eval c (w, b ++ st) = None
  end.
Proof.
  induction c as [|x c IH]; intros w st m b Hd; cbn [run]; [by injection Hd|].
  pose proof (op_step_depth x c w st m b Hd) as H. destruct (op_step eval x (w, st)) as [[w1 st1]|] eqn:E; [|by rewrite H].
  rewrite (op_step_frame _ _ _ _ _ _ b E). cbn [mbind option_bind]. by apply IH.
Qed.

Definition lir_step (x : InstrRef * list (Instruction * list Operand)) (s : gmap Reg V * W)
    : option (gmap Reg V * W) :=
  let '(i, body) := x in
  let '(R, w) := s in
  vs ← mapM (R !!.) (operands i);
  '(w, rs) ← run eval body (w, vs);
  match leaves i, rs with
  | Some d, [v] => Some (<[d := v]> R, w)
  | None, [] => Some (R, w)
  | _, _ => None
  end.

Fixpoint lir_run (l : list (InstrRef * list (Instruction * list Operand))) (s : gmap Reg V * W)
    : option (gmap Reg V * W) :=
  match l with [] => Some s | x :: l => lir_step x s ≫= lir_run l end.
End Registers.

(** ** What the emitter must find

    Every operand is named by the map, no operand repeats the one before it, and
    the stack stays within what a [DupN] offset and a count byte can say. *)

Fixpoint no_repeat (l : list Reg) : bool :=
  match l with
  | r :: (r' :: _) as l' => negb (r =? r')%N && no_repeat l'
  | _ => true
  end.

Definition ready {Arena} (i : InstrRef) (e : Emitter Arena) : bool :=
  straight i &&
  forallb (fun r => bool_decide (is_Some (e_map e !! r))) (operands i) &&
  no_repeat (operands i) &&
  (length (e_stack e) + length (operands i) <=? 255).
