(* ===== verification/EmitSim.v ===== *)
(** * The simulation, step by step

    What the emitter's simulated stack says of the machine's ([agree]), and that
    every action of the emitter keeps saying it: copying operands to the top,
    then the opcodes, then the simulated pops and the push of the result. *)

From stdpp Require Import base numbers option list gmap.
From S2P Require Import Prelude SignalBits Signal LirRecord LirInstr LirCodec LirCodecProps LirBuild LirView LirSpec Bytes Files Template Live Bytecode EmitStack Emit Disasm DisasmProps EmitCode EmitRun.

(** The top of a stack. *)
Lemma last_split {A} (l : list A) x : l !! (length l - 1) = Some x -> exists l', l = l' ++ [x].
Proof.
  intros H. exists (take (length l - 1) l). pose proof (lookup_lt_Some _ _ _ H).
  rewrite <- (take_drop (length l - 1) l) at 1. f_equal.
  rewrite (drop_S _ _ _ H), drop_ge; [done|lia].
Qed.

Section Sim.
Context {Arena : Type} {V W : Type} (eval : Instruction -> list Operand -> W -> list V -> option (list V * W)).
Implicit Types (e : Emitter Arena) (R : gmap Reg V) (st vs : list V) (rs : list Reg).

(** The map names only cells that are there. *)
Definition sim_ok e : Prop := forall r p, e_map e !! r = Some p -> e_stack e !! p = Some r.

(** A named cell holds its register's value. *)
Definition agree R e st : Prop :=
  length st = length (e_stack e) /\ forall r p, e_map e !! r = Some p -> st !! p = R !! r.

Definition wrote e e' (c : list (Instruction * list Operand)) : Prop :=
  instructions (e_bc e') = instructions (e_bc e) ++ codes c.

Lemma wrote_nil e e' : instructions (e_bc e') = instructions (e_bc e) -> wrote e e' [].
Proof. unfold wrote. intros ->. cbn. by rewrite app_nil_r. Qed.

Lemma wrote_app e1 e2 e3 c1 c2 : wrote e1 e2 c1 -> wrote e2 e3 c2 -> wrote e1 e3 (c1 ++ c2).
Proof. unfold wrote. intros -> ->. by rewrite codes_app, app_assoc. Qed.

Lemma wrote_put e i os : wrote e (set_bc e (bc_put (e_bc e) i os)) [(i, os)].
Proof. unfold wrote. cbn [e_bc set_bc]. rewrite bc_put_bytes. cbn. by rewrite app_nil_r. Qed.

(** The pools an operand indexes only grow: constants and closure prototypes
    are appended, a closure's header is made once. *)
Record grows e e' : Prop := mk_grows {
  gr_consts : constants (e_bc e) `prefix_of` constants (e_bc e');
  gr_children : children (e_bc e) `prefix_of` children (e_bc e');
  gr_headers : e_headers e ⊆ e_headers e';
  gr_fit : (N.of_nat (length (constants (e_bc e))) <= 2 ^ 16)%N -> (N.of_nat (length (constants (e_bc e'))) <= 2 ^ 16)%N }.

#[export] Instance grows_preorder : PreOrder grows.
Proof.
  split; [by intros e; split|]. intros e1 e2 e3 [A1 B1 C1 D1] [A2 B2 C2 D2].
  split; [by trans (constants (e_bc e2))|by trans (children (e_bc e2))|by trans (e_headers e2)|auto].
Qed.

Lemma grows_same e e' :
  constants (e_bc e') = constants (e_bc e) -> children (e_bc e') = children (e_bc e) ->
  e_headers e' = e_headers e -> grows e e'.
Proof. intros H1 H2 H3. split; by rewrite ?H1, ?H2, ?H3. Qed.

Lemma bc_put_pools b i os :
  constants (bc_put b i os) = constants b /\ children (bc_put b i os) = children b.
Proof.
  unfold bc_put. change (constants b) with (constants (bc_emit b i)). change (children b) with (children (bc_emit b i)).
  generalize (bc_emit b i). induction os as [|o os IH]; intros b'; cbn [foldl]; [done|].
  destruct (IH (bc_operand b' o)) as [-> ->]. by destruct o.
Qed.

Lemma put_grows e i os : grows e (set_bc e (bc_put (e_bc e) i os)).
Proof. destruct (bc_put_pools (e_bc e) i os). by apply grows_same. Qed.

(** A fact about the pools that later growth keeps. *)
Definition stable (P : Emitter Arena -> Prop) : Prop := forall e e', grows e e' -> P e -> P e'.

Lemma stable_and (P Q : Emitter Arena -> Prop) : stable P -> stable Q -> stable (fun e => P e /\ Q e).
Proof. intros HP HQ e e' Hg [? ?]. eauto. Qed.

(** Same simulation, same code. *)
Definition quiet e e' : Prop :=
  e_stack e' = e_stack e /\ e_map e' = e_map e /\ instructions (e_bc e') = instructions (e_bc e) /\ grows e e'.

(** A copy to the top. *)
Definition is_dup (x : Instruction * list Operand) : bool :=
  match x with (B_DupN, [U8 _]) => true | _ => false end.

(** From [e0] on, copies were written and then [body]. *)
Definition begun e0 e (pre body : list (Instruction * list Operand)) : Prop :=
  wrote e0 e (pre ++ body) /\ Forall is_dup pre /\ grows e0 e.

(** ** Copying to the top *)

(** [rs] lie on top, the last of them named there. *)
Definition on_top e rs : Prop :=
  (exists s, e_stack e = s ++ rs) /\
  (forall r, last rs = Some r -> e_map e !! r = Some (length (e_stack e) - 1)).

Lemma ensure_step e e' r :
  sim_ok e -> is_Some (e_map e !! r) -> length (e_stack e) <= 256 -> ensure_on_top r e = Some e' ->
  (e' = e /\ e_map e !! r = Some (length (e_stack e) - 1) /\ e_stack e !! (length (e_stack e) - 1) = Some r) \/
  exists k, wrote e e' [(B_DupN, [U8 k])] /\ grows e e' /\ sim_ok e' /\
    e_stack e' = e_stack e ++ [r] /\ e_map e' = <[r := length (e_stack e)]> (e_map e) /\
    forall R st, agree R e st -> exists v, agree R e' (st ++ [v]) /\ R !! r = Some v /\
      forall w, run eval [(B_DupN, [U8 k])] (w, st) = Some (w, st ++ [v]).
Proof.
  intros Hok [p Hp] Hd. unfold ensure_on_top. rewrite Hp. pose proof (Hok _ _ Hp) as Hs.
  assert (Hpl := lookup_lt_Some _ _ _ Hs).
  destruct (decide _) as [->|Hne]; [intros [= <-]; by left|]. rewrite decide_True by lia.
  intros [= <-]. right. set (off := length (e_stack e) - 1 - p).
  assert (Hk : N.to_nat (as_u8 (N.of_nat off)) = off).
  { unfold as_u8. rewrite N.mod_small by (unfold off; lia). lia. }
  exists (as_u8 (N.of_nat off)). split_and!; [apply (wrote_put e B_DupN) | etrans; [apply put_grows|by apply grows_same] | | done | |].
  - intros r' p'. cbn. rewrite length_app. cbn. rewrite Nat.add_sub.
    destruct (decide (r' = r)) as [->|]; [rewrite lookup_insert_eq; intros [= <-]; by rewrite list_lookup_middle|].
    rewrite lookup_insert_ne by done. intros H'. apply lookup_app_l_Some. by apply Hok.
  - cbn. by rewrite length_app, Nat.add_sub.
  - intros R st [Hlen Hag]. destruct (st !! p) as [v|] eqn:Ev; [|apply lookup_ge_None in Ev; lia].
    exists v. split_and!.
    + split; cbn; [rewrite !length_app; cbn; lia|]. intros r' p'. rewrite length_app. cbn. rewrite Nat.add_sub.
      destruct (decide (r' = r)) as [->|].
      * rewrite lookup_insert_eq. intros [= <-]. by rewrite list_lookup_middle, <- (Hag _ _ Hp).
      * rewrite lookup_insert_ne by done. intros H'. rewrite <- (Hag _ _ H'). apply lookup_app_l.
        rewrite Hlen. eapply lookup_lt_Some. by apply Hok.
    + by rewrite <- (Hag _ _ Hp).
    + intros w. cbn. rewrite Hk. rewrite decide_True by (unfold off; lia).
      replace (length st - 1 - off) with p by (unfold off; lia). by rewrite Ev.
Qed.

(** Whatever the registers hold, after [pre] the values of [done] are on top of
    the machine's stack, in order. *)
Definition holds e0 e pre (done : list Reg) : Prop := forall R st0, agree R e0 st0 ->
  exists b vs, agree R e (b ++ vs) /\ mapM (R !!.) done = Some vs /\
    forall w, run eval pre (w, st0) = Some (w, b ++ vs).

Definition arranged (done : list Reg) e0 e : Prop :=
  exists pre, begun e0 e pre [] /\ sim_ok e /\ on_top e done /\ holds e0 e pre done.

Lemma arranged_nil e : sim_ok e -> arranged [] e e.
Proof.
  intros Hok. exists []. split_and!; [split_and!; [by apply wrote_nil | constructor | done] | done | |].
  - split; [|done]. exists (e_stack e). by rewrite app_nil_r.
  - intros R st Ha. exists st, []. by rewrite app_nil_r.
Qed.

Lemma arranged_ensure done e0 e e' r :
  arranged done e0 e -> is_Some (e_map e !! r) -> last done <> Some r -> length (e_stack e) <= 256 ->
  ensure_on_top r e = Some e' ->
  arranged (done ++ [r]) e0 e' /\ length (e_stack e') <= S (length (e_stack e)) /\
  forall r', is_Some (e_map e !! r') -> is_Some (e_map e' !! r').
Proof.
  intros (pre & Hw & Hok & [[s Hs] Hn] & Hh) Hp Hl Hd He.
  destruct (ensure_step _ _ _ Hok Hp Hd He) as [(-> & Hm & Ht)|(k & Hw' & Hg & Hok' & Hs' & Hm' & Hk)].
  - split; [|split; [lia | done]]. destruct done as [|x done _] using rev_ind.
    2:{ exfalso. rewrite Hs, app_assoc, length_app in Ht. cbn in Ht. rewrite Nat.add_sub, list_lookup_middle in Ht by done.
        rewrite last_snoc in Hl. congruence. }
    pose proof (lookup_lt_Some _ _ _ Ht) as Hlt. destruct (last_split _ _ Ht) as [l El].
    exists pre. split_and!; [done | done | split; [by exists l | by intros r' [= <-]]|].
    intros R st0 Ha0. destruct (Hh R st0 Ha0) as (b & vs & [Hlen Ha] & [= <-] & Hr). rewrite app_nil_r in *.
    destruct (lookup_lt_is_Some_2 b (length (e_stack e) - 1)) as [v Ev]; [lia|].
    pose proof (Ha _ _ Hm) as Hv. rewrite <- Hlen in Ev. destruct (last_split _ _ Ev) as [b' ->].
    exists b', [v]. split_and!; [done | | done]. cbn. by rewrite <- Hv, <- Hlen, Ev.
  - split; [|split; [rewrite Hs', length_app; cbn; lia |]].
    + exists (pre ++ [(B_DupN, [U8 k])]). split_and!; [| done | |].
      * destruct Hw as (Hw & Hd' & Hg'). rewrite app_nil_r in Hw. split_and!; [|by apply Forall_app; split; [|repeat constructor]|by etrans].
        rewrite app_nil_r. by eapply wrote_app.
      * split; [exists s; by rewrite Hs', Hs, app_assoc|]. intros r'. rewrite last_snoc. intros [= <-].
        rewrite Hm', lookup_insert_eq, Hs', length_app. cbn. by rewrite Nat.add_sub.
      * intros R st0 Ha0. destruct (Hh R st0 Ha0) as (b & vs & Ha & Hvs & Hr).
        destruct (Hk R _ Ha) as (v & Ha' & Hv & Hr'). exists b, (vs ++ [v]). rewrite app_assoc. split_and!; [done | |].
        { apply mapM_Some, Forall2_app; [by apply mapM_Some | by repeat constructor]. }
        intros w. rewrite run_app, Hr. apply Hr'.
    + intros r' H'. rewrite Hm'. destruct (decide (r' = r)) as [->|]; [by rewrite lookup_insert_eq | by rewrite lookup_insert_ne].
Qed.

(** Operands not yet arranged. *)
Definition waiting (done todo : list Reg) e : Prop :=
  Forall (fun r => is_Some (e_map e !! r)) todo /\ no_repeat (done ++ todo) = true /\
  length (e_stack e) + length todo <= 255.

Lemma no_repeat_next done r todo : no_repeat (done ++ r :: todo) = true -> last done <> Some r.
Proof.
  induction done as [|x done IH]; [done|]. destruct done as [|y done].
  - cbn. rewrite andb_true_iff, negb_true_iff, N.eqb_neq. intros [H _] [= ?]. done.
  - cbn [app no_repeat]. intros [_ H]%andb_true_iff. rewrite last_cons_cons. by apply IH.
Qed.

Lemma waiting_ensure done e0 e e' r todo :
  arranged done e0 e -> waiting done (r :: todo) e -> ensure_on_top r e = Some e' ->
  arranged (done ++ [r]) e0 e' /\ waiting (done ++ [r]) todo e'.
Proof.
  intros Ha ([Hr Ht]%Forall_cons & Hn & Hl) He. cbn in Hl.
  destruct (arranged_ensure _ _ _ _ _ Ha Hr (no_repeat_next _ _ _ Hn) ltac:(lia) He) as (Ha' & Hl' & Hm).
  split; [done|]. split_and!; [|by rewrite <- app_assoc|lia]. eapply Forall_impl; [exact Ht|]. auto.
Qed.

Lemma waiting_each todo : forall done e0 e e',
  arranged done e0 e -> waiting done todo e -> for_each todo ensure_on_top e = Some e' ->
  arranged (done ++ todo) e0 e' /\ waiting (done ++ todo) [] e'.
Proof.
  induction todo as [|r todo IH]; intros done e0 e e' Ha Hw He; cbn in He.
  - injection He as <-. rewrite app_nil_r. by split.
  - apply bind_Some in He as (e1 & E1 & E2). destruct (waiting_ensure _ _ _ _ _ _ Ha Hw E1) as [Ha1 Hw1].
    replace (done ++ r :: todo) with ((done ++ [r]) ++ todo) by (by rewrite <- app_assoc). by eapply IH.
Qed.

(** Operands that already lie on top, in order. *)
Lemma arranged_in_place e0 e rs :
  arranged [] e0 e -> length rs <= length (e_stack e) ->
  (forall k r, rs !! k = Some r -> e_map e !! r = Some (length (e_stack e) - length rs + k)) ->
  arranged rs e0 e.
Proof.
  intros (pre & Hw & Hok & _ & Hh) Hl Hp. set (base := length (e_stack e) - length rs) in *.
  exists pre. split_and!; [done | done | split |].
  - exists (take base (e_stack e)). rewrite <- (take_drop base (e_stack e)) at 1. f_equal.
    apply list_eq_same_length with (length rs); [done | rewrite length_drop; lia|].
    intros k x y _ Ex Ey. rewrite lookup_drop in Ex. rewrite (Hok _ _ (Hp _ _ Ey)) in Ex. congruence.
  - intros r Hr'. rewrite last_lookup in Hr'. pose proof (lookup_lt_Some _ _ _ Hr').
    rewrite (Hp _ _ Hr'). f_equal. lia.
  - intros R st0 Ha0. destruct (Hh R st0 Ha0) as (b & vs & [Hlen Ha] & [= <-] & Hr). rewrite app_nil_r in *.
    exists (take base b), (drop base b). rewrite take_drop. split_and!; [done | | done].
    apply mapM_Some, Forall2_same_length_lookup_2; [rewrite length_drop; lia|].
    intros k r v Er Ev. rewrite lookup_drop in Ev. by rewrite <- (Ha _ _ (Hp _ _ Er)).
Qed.

Lemma arranged_binary e0 e e' l r :
  arranged [] e0 e -> waiting [] [l; r] e -> ensure_binary_on_top l r e = Some e' ->
  arranged [l; r] e0 e' /\ waiting [l; r] [] e'.
Proof.
  intros Ha Hw. unfold ensure_binary_on_top. destruct (decide _) as [(H2 & Hl & Hr)|_].
  - intros [= <-]. split.
    + apply arranged_in_place; [done | done|]. intros [|[|k]] x; cbn; intros [= <-]; rewrite ?Hl, ?Hr; f_equal; lia.
    + destruct Hw as (_ & Hn & Hd). cbn in Hd. split_and!; [constructor | done | cbn; lia].
  - intros He. eapply (waiting_each [l; r] []); [exact Ha | exact Hw|]. cbn. unfold act_seq in *.
    destruct (ensure_on_top l e); [|done]. cbn in *. rewrite He. done.
Qed.

Lemma arranged_arrange e0 e e' rs :
  arranged [] e0 e -> waiting [] rs e -> arrange rs e = Some e' ->
  arranged rs e0 e' /\ waiting rs [] e'.
Proof.
  intros Ha Hw. unfold arrange. destruct (all_in_place e rs) eqn:Ei; [|by eapply (waiting_each rs [])].
  intros [= <-]. unfold all_in_place in Ei. apply andb_true_iff in Ei as [Hl%bool_decide_eq_true Hp].
  split.
  - apply arranged_in_place; [done | done|]. intros k r Er. rewrite forallb_forall in Hp.
    specialize (Hp (k, r)). rewrite bool_decide_eq_true in Hp. apply Hp.
    apply list_elem_of_In, list_elem_of_lookup. exists k. by rewrite list_lookup_imap, Er.
  - destruct Hw as (_ & Hn & Hd). split_and!; [constructor | by rewrite app_nil_r | cbn; lia].
Qed.

(** ** The simulated pops and push *)

Lemma pop_map e x s :
  sim_ok e -> e_stack e = s ++ [x] ->
  forall r p, delete x (e_map e) !! r = Some p -> e_map e !! r = Some p /\ p < length s.
Proof.
  intros Hok Es r p [Hne Hp]%lookup_delete_Some. split; [done|]. pose proof (Hok _ _ Hp) as H. rewrite Es in H.
  pose proof (lookup_lt_Some _ _ _ H) as Hlt. rewrite length_app in Hlt. cbn in Hlt.
  destruct (decide (p = length s)) as [->|]; [|lia]. rewrite list_lookup_middle in H by done. congruence.
Qed.

Lemma pop_step e x s : e_stack e = s ++ [x] -> pop e = Some (set_sim e s (delete x (e_map e))).
Proof.
  intros Es. unfold pop. rewrite Es, last_snoc, length_app. cbn. by rewrite Nat.add_sub, take_app_length.
Qed.

Lemma pop_sim e e' : sim_ok e -> pop e = Some e' -> sim_ok e' /\ wrote e e' [] /\ grows e e'.
Proof.
  intros Hok. destruct (last (e_stack e)) as [x|] eqn:El.
  - apply last_Some in El as [s Es]. rewrite (pop_step _ _ _ Es). intros [= <-]. split; [|by split; [apply wrote_nil|apply grows_same]].
    intros r p Hp. destruct (pop_map _ _ _ Hok Es _ _ Hp) as [Hp' Hlt]. cbn. pose proof (Hok _ _ Hp') as H.
    rewrite Es in H. by rewrite lookup_app_l in H.
  - unfold pop. rewrite El. intros [= <-]. by split_and!; [|apply wrote_nil|].
Qed.

Lemma pop_agree R e e' st v : sim_ok e -> agree R e (st ++ [v]) -> pop e = Some e' -> agree R e' st.
Proof.
  intros Hok [Hlen Ha]. rewrite length_app in Hlen. cbn in Hlen.
  destruct (last (e_stack e)) as [x|] eqn:El; [|apply last_None in El; rewrite El in Hlen; cbn in Hlen; lia].
  apply last_Some in El as [s Es]. rewrite (pop_step _ _ _ Es). intros [= <-]. rewrite Es, length_app in Hlen. cbn in Hlen.
  split; cbn; [lia|]. intros r p Hp. destruct (pop_map _ _ _ Hok Es _ _ Hp) as [Hp' Hlt].
  rewrite <- (Ha _ _ Hp'). by rewrite lookup_app_l by lia.
Qed.

Lemma push_sim e e' d : sim_ok e -> push_reg d e = Some e' -> sim_ok e' /\ wrote e e' [] /\ grows e e'.
Proof.
  intros Hok [= <-]. split; [|by split; [apply wrote_nil|apply grows_same]]. intros r p. cbn. destruct (decide (r = d)) as [->|Hne].
  - rewrite lookup_insert_eq. intros [= <-]. by apply list_lookup_middle.
  - rewrite lookup_insert_ne by done. intros Hp. apply lookup_app_l_Some. by apply Hok.
Qed.

Lemma push_agree R e e' st d v :
  sim_ok e -> agree R e st -> push_reg d e = Some e' -> agree (<[d := v]> R) e' (st ++ [v]).
Proof.
  intros Hok [Hlen Ha] [= <-]. split; cbn; [rewrite !length_app; cbn; lia|].
  intros r p. destruct (decide (r = d)) as [->|Hne].
  - rewrite !lookup_insert_eq. intros [= <-]. by apply list_lookup_middle.
  - rewrite !lookup_insert_ne by done. intros Hp. rewrite <- (Ha _ _ Hp). apply lookup_app_l.
    rewrite Hlen. eapply lookup_lt_Some. by apply Hok.
Qed.

(** ** One instruction

    From the emitter [e0] to [e'], whatever the registers hold; [P] is what its
    own opcodes have to be. *)

Context (P : InstrRef -> Emitter Arena -> list (Instruction * list Operand) -> Prop).
Context (P_stable : forall i body, stable (fun e => P i e body)).

Definition delivers (i : InstrRef) e0 e' : Prop :=
  exists pre body, begun e0 e' pre body /\ P i e' body /\ sim_ok e' /\
    depth body (length (operands i)) = Some (length (option_list (leaves i))) /\
    forall R st0 w, agree R e0 st0 ->
      match lir_step eval (i, body) (R, w) with
      | Some (R', w') => exists st', run eval (pre ++ body) (w, st0) = Some (w', st') /\ agree R' e' st'
      | None => run eval (pre ++ body) (w, st0) = None
      end.

(** What the operands leave, above [b]. *)
Definition left_above i R st0 b code body : Prop :=
  forall w, match lir_step eval (i, body) (R, w) with
    | Some (R', w') => exists out, run eval code (w, st0) = Some (w', b ++ out) /\
        match leaves i with Some d => exists v, out = [v] /\ R' = <[d := v]> R | None => out = [] /\ R' = R end
    | None => run eval code (w, st0) = None
    end.

(** While operands are brought to the top. *)
Definition arranging i done (k : Act Arena) : Prop := forall e0 e e' todo,
  operands i = done ++ todo -> arranged done e0 e -> waiting done todo e -> k e = Some e' -> delivers i e0 e'.

(** While opcodes are written, [K] being known of the pools. *)
Definition writing (K : Emitter Arena -> Prop) i body (k : Act Arena) : Prop := stable K -> forall e0 e e' pre,
  begun e0 e pre body -> K e -> sim_ok e -> on_top e (operands i) -> holds e0 e pre (operands i) ->
  length (e_stack e) <= 255 -> k e = Some e' -> delivers i e0 e'.

(** While the simulation pops: [n] operands are left in it. *)
Definition settling i (n : nat) (k : Act Arena) : Prop := forall e0 e e' pre body,
  begun e0 e pre body -> P i e body -> sim_ok e ->
  depth body (length (operands i)) = Some (length (option_list (leaves i))) ->
  (forall R st0, agree R e0 st0 ->
     exists b vs, agree R e (b ++ vs) /\ length vs = n /\ left_above i R st0 b (pre ++ body) body) ->
  k e = Some e' -> delivers i e0 e'.

(** *** Arranging *)

Lemma arranging_ensure i done r k :
  prefix (done ++ [r]) (operands i) -> arranging i (done ++ [r]) k -> arranging i done (act_seq (ensure_on_top r) k).
Proof.
  intros [todo' Hp] Hk e0 e e' todo Ho Ha Hw (e1 & E1 & E2)%bind_Some.
  rewrite Hp, <- app_assoc in Ho. apply app_inv_head in Ho as <-.
  destruct (waiting_ensure _ _ _ _ _ _ Ha Hw E1) as [Ha1 Hw1]. by eapply Hk.
Qed.

Lemma arranging_whole i (a k : Act Arena) :
  (forall e0 e e', arranged [] e0 e -> waiting [] (operands i) e -> a e = Some e' ->
     arranged (operands i) e0 e' /\ waiting (operands i) [] e') ->
  arranging i (operands i) k -> arranging i [] (act_seq a k).
Proof.
  intros Ha Hk e0 e e' todo Ho Ha0 Hw (e1 & E1 & E2)%bind_Some. cbn in Ho. subst todo.
  destruct (Ha _ _ _ Ha0 Hw E1) as [Ha1 Hw1]. eapply Hk; [|done..]. by rewrite app_nil_r.
Qed.

Lemma arranging_binary i l r k :
  operands i = [l; r] -> arranging i [l; r] k -> arranging i [] (act_seq (ensure_binary_on_top l r) k).
Proof. intros Ho Hk. apply arranging_whole; rewrite Ho; [|done]. intros *. apply arranged_binary. Qed.

Lemma arranging_arrange i rs k :
  operands i = rs -> arranging i rs k -> arranging i [] (act_seq (arrange rs) k).
Proof. intros <- Hk. apply arranging_whole; [|done]. intros *. apply arranged_arrange. Qed.

Lemma arranging_each i rs k :
  operands i = rs -> arranging i rs k -> arranging i [] (act_seq (for_each rs ensure_on_top) k).
Proof. intros <- Hk. apply arranging_whole; [|done]. intros *. apply waiting_each. Qed.

Lemma arranging_done i k done : operands i = done -> writing (fun _ => True) i [] k -> arranging i done k.
Proof.
  intros Ho Hk e0 e e' todo Ho' (pre & Hw & Hok & Ht & Hh) (_ & _ & Hd) E.
  rewrite <- Ho in *. apply (Hk ltac:(done) e0 e e' pre); try done. lia.
Qed.

(** *** Writing *)

(** ** What an index operand names *)

Definition const_at (heap_eq : Value -> Value -> bool) (v : Value) (idx : N) e : Prop :=
  (N.of_nat (length (constants (e_bc e))) <= 2 ^ 16)%N ->
  exists c, constants (e_bc e) !! N.to_nat idx = Some c /\ (c = v \/ value_eq heap_eq c v = true).

Definition consts_at heap_eq (vs : list Value) (idxs : list N) e : Prop :=
  Forall2 (fun v idx => const_at heap_eq v idx e) vs idxs.

(** The prototype of closure [id]. *)
Definition proto_at (id : ClosureId) (idx : N) e : Prop :=
  (N.of_nat (length (children (e_bc e))) <= 2 ^ 16)%N ->
  exists header, e_headers e !! id = Some header /\ children (e_bc e) !! N.to_nat idx = Some header.

Lemma const_at_stable heap_eq v idx : stable (const_at heap_eq v idx).
Proof.
  intros e e' [[l Hl] _ _ _] Hc Hlen. destruct Hc as (c & Hc & Hv); [rewrite Hl, length_app in Hlen; lia|].
  exists c. split; [|done]. rewrite Hl. by apply lookup_app_l_Some.
Qed.

Lemma consts_at_stable heap_eq cs idxs : stable (consts_at heap_eq cs idxs).
Proof. intros e e' Hg Hc. eapply Forall2_impl; [exact Hc|]. intros v idx. by apply const_at_stable. Qed.

Lemma proto_at_stable id idx : stable (proto_at id idx).
Proof.
  intros e e' [_ [l Hl] Hh _] Hp Hlen. destruct Hp as (v & Hv & Hc); [rewrite Hl, length_app in Hlen; lia|].
  exists v. split; [by eapply lookup_weaken|]. rewrite Hl. by apply lookup_app_l_Some.
Qed.

Lemma as_u16_nat n : (N.of_nat n < 2 ^ 16)%N -> N.to_nat (as_u16 (N.of_nat n)) = n.
Proof. intros Hn. unfold as_u16. rewrite N.mod_small by lia. lia. Qed.

Lemma find_const_Some heap_eq v l n :
  find_const heap_eq v l = Some n -> exists c, l !! n = Some c /\ value_eq heap_eq c v = true.
Proof.
  revert n. induction l as [|c l IH]; intros n; cbn; [done|].
  destruct (value_eq heap_eq c v) eqn:E; [intros [= <-]; eauto|].
  destruct (find_const heap_eq v l) as [m|] eqn:Ef; [|done]. intros [= <-]. by apply IH.
Qed.

(** Knowing less is enough. *)
Lemma writing_know (K K' : Emitter Arena -> Prop) i body k :
  (forall e, K e -> K' e) -> stable K' -> writing K' i body k -> writing K i body k.
Proof. intros HK Hst' Hk Hst e0 e e' pre Hw He. apply Hk; auto. Qed.

Lemma begun_same e0 e e' pre body : wrote e e' [] -> grows e e' -> begun e0 e pre body -> begun e0 e' pre body.
Proof.
  intros Hw' Hg' (Hw & Hd & Hg). split_and!; [|done|by etrans]. eapply wrote_app in Hw'; [|exact Hw].
  by rewrite app_nil_r in Hw'.
Qed.

Lemma begun_put e0 e pre body x os :
  begun e0 e pre body -> begun e0 (set_bc e (bc_put (e_bc e) x os)) pre (body ++ [(x, os)]).
Proof.
  intros (Hw & Hd & Hg). split_and!; [|done|etrans; [exact Hg|apply put_grows]].
  rewrite app_assoc. eapply wrote_app; [exact Hw | apply wrote_put].
Qed.

Lemma writing_put K i body x os k : writing K i (body ++ [(x, os)]) k -> writing K i body (act_seq (put x os) k).
Proof.
  intros Hk Hst e0 e e' pre Hw HK Hok Ht Hh Hl (e1 & [= <-] & E)%bind_Some.
  apply (Hk Hst e0 (set_bc e (bc_put (e_bc e) x os)) e' pre); try done; [by apply begun_put|].
  eapply Hst; [apply put_grows|exact HK].
Qed.

(** An action that writes nothing and leaves the simulation alone. *)
Definition silent_act (a : Act Arena) : Prop := forall e e', a e = Some e' -> quiet e e'.

Lemma quiet_ok e e' : quiet e e' -> sim_ok e -> sim_ok e'.
Proof. intros (Q1 & Q2 & _) Hok r p. rewrite Q1, Q2. apply Hok. Qed.

Lemma quiet_agree R e e' st : quiet e e' -> agree R e st -> agree R e' st.
Proof. intros (Q1 & Q2 & _) [H1 H2]. split; [by rewrite Q1|]. intros r p. rewrite Q2. apply H2. Qed.

Lemma quiet_begun e0 e e' pre body : quiet e e' -> begun e0 e pre body -> begun e0 e' pre body.
Proof.
  intros (_ & _ & Q & Hg) (Hw & Hd & Hg0). split_and!; [unfold wrote; by rewrite Q|done|by etrans].
Qed.

Lemma quiet_writing K K' i body (k : Act Arena) e0 e e1 e' pre :
  quiet e e1 -> writing K' i body k -> stable K' -> K' e1 -> begun e0 e pre body -> K e -> sim_ok e ->
  on_top e (operands i) -> holds e0 e pre (operands i) -> length (e_stack e) <= 255 -> k e1 = Some e' ->
  delivers i e0 e'.
Proof.
  intros Q Hk Hst HK' Hw HK Hok [Ht1 Ht2] Hh Hl E. pose proof Q as (Q1 & Q2 & _).
  apply (Hk Hst e0 e1 e' pre); [by eapply quiet_begun | done | by eapply quiet_ok | | | by rewrite Q1 | done].
  - split; [by rewrite Q1|]. intros r. rewrite Q1, Q2. apply Ht2.
  - intros R st0 Ha0. destruct (Hh R st0 Ha0) as (b & vs & Ha & Hr). exists b, vs.
    split; [by eapply quiet_agree | done].
Qed.

Lemma writing_silent K i body a k : silent_act a -> writing K i body k -> writing K i body (act_seq a k).
Proof.
  intros Hq Hk Hst e0 e e' pre Hw HK Hok Ht Hh Hl (e1 & E1%Hq & E)%bind_Some.
  eapply (quiet_writing K K); try done. eapply Hst; [apply E1|done].
Qed.

Lemma add_constant_grows heap_eq e v idx bc :
  add_constant heap_eq (e_bc e) v = Some (idx, bc) ->
  quiet e (set_bc e bc) /\ const_at heap_eq v idx (set_bc e bc).
Proof.
  unfold add_constant. destruct (find_const _ _ _) as [n|] eqn:Ef; [|destruct (N.ltb_spec 65535 (N.of_nat (length (constants (e_bc e))))) as [|Hn]; [done|]];
    intros [= <- <-].
  - split; [by split_and!; [..|apply grows_same]|]. intros Hl. cbn in *.
    destruct (find_const_Some _ _ _ _ Ef) as (c & Hc & He). pose proof (lookup_lt_Some _ _ _ Hc).
    exists c. rewrite as_u16_nat by lia. auto.
  - split.
    + split_and!; [done..|]. split; cbn; [by eexists|done|done|]. rewrite length_app. cbn. lia.
    + intros Hl. cbn in *. exists v. rewrite as_u16_nat by lia. rewrite list_lookup_middle by done. auto.
Qed.

Lemma writing_const K heap_eq i body v k :
  (forall idx, writing (fun e => K e /\ const_at heap_eq v idx e) i body (k idx)) ->
  writing K i body (with_const heap_eq v k).
Proof.
  intros Hk Hst e0 e e' pre Hw HK Hok Ht Hh Hl ([idx bc] & E1 & E)%bind_Some.
  destruct (add_constant_grows _ _ _ _ _ E1) as [Hq Hc].
  eapply (quiet_writing K _ _ _ _ _ _ _ _ _ Hq (Hk idx)); try done.
  - apply stable_and; [done|apply const_at_stable].
  - split; [|done]. eapply Hst; [apply Hq|done].
Qed.

Lemma writing_consts heap_eq i body (l : list Value) : forall K k,
  (forall idxs, writing (fun e => K e /\ consts_at heap_eq l idxs e) i body (k idxs)) ->
  writing K i body (with_consts heap_eq l k).
Proof.
  induction l as [|v l IH]; intros K k Hk Hst; cbn [with_consts];
    pose proof (fun cs idxs => stable_and _ _ Hst (consts_at_stable heap_eq cs idxs)) as Hst'.
  - refine (writing_know _ _ _ _ _ _ (Hst' [] []) (Hk []) Hst). intros e He. split; [done|constructor].
  - refine (writing_const K heap_eq i body v _ _ Hst). intros idx. apply IH. intros idxs.
    refine (writing_know _ _ _ _ _ _ (Hst' (v :: l) (idx :: idxs)) (Hk (idx :: idxs))).
    intros e [[He Hc] Hcs]. split; [done|]. by constructor.
Qed.

Lemma lir_step_run i body R vs b pre st0 :
  mapM (R !!.) (operands i) = Some vs -> (forall w, run eval pre (w, st0) = Some (w, b ++ vs)) ->
  depth body (length (operands i)) = Some (length (option_list (leaves i))) ->
  left_above i R st0 b (pre ++ body) body.
Proof.
  intros Hvs Hr Hd w. cbn [lir_step]. rewrite Hvs. cbn [mbind option_bind]. rewrite run_app, Hr. cbn [mbind option_bind].
  rewrite (length_mapM _ _ _ Hvs) in Hd. pose proof (run_depth eval body w vs _ b Hd) as H.
  destruct (run eval body (w, vs)) as [[w1 out]|] eqn:E; [|done]. rewrite (run_frame _ _ _ _ _ _ b E).
  cbn [mbind option_bind]. destruct (leaves i), out as [|v [|]]; try done; cbn; eauto.
Qed.

Lemma writing_settle (K : Emitter Arena -> Prop) i body k n :
  length (operands i) = n -> (n <= 255 -> depth body n = Some (length (option_list (leaves i)))) ->
  (n <= 255 -> forall e, K e -> P i e body) -> settling i n k -> writing K i body k.
Proof.
  intros <- Hd HP Hk Hst e0 e e' pre Hw HK Hok [[s Hs] _] Hh Hl E.
  assert (Hn : length (operands i) <= 255) by (rewrite Hs, length_app in Hl; lia).
  specialize (Hd Hn). specialize (HP Hn).
  apply (Hk e0 e e' pre body); [done|by apply HP|done|done| |done]. intros R st0 Ha0.
  destruct (Hh R st0 Ha0) as (b & vs & Ha & Hvs & Hr). exists b, vs. split_and!; [done | |].
  - symmetry. by apply length_mapM in Hvs.
  - by eapply lir_step_run.
Qed.

(** The last opcode, which leaves its operand on top. *)
Lemma writing_peek (K : Emitter Arena -> Prop) i body x os r :
  operands i = [r] -> leaves i = Some r -> depth (body ++ [(x, os)]) 1 = Some 1 ->
  (forall e, K e -> P i e (body ++ [(x, os)])) -> writing K i body (put x os).
Proof.
  intros Ho Hl Hd HP Hst e0 e e' pre Hw HK Hok [[s Hs] Hn] Hh _ [= <-].
  exists pre, (body ++ [(x, os)]). split_and!; [by apply begun_put| |exact Hok|by rewrite Ho, Hl|].
  { apply HP. eapply Hst; [apply put_grows|exact HK]. }
  intros R st0 w Ha0. destruct (Hh R st0 Ha0) as (b & vs & [Ha1 Ha2] & Hvs & Hr).
  pose proof (lir_step_run i (body ++ [(x, os)]) _ _ _ _ _ Hvs Hr ltac:(by rewrite Ho, Hl) w) as H.
  destruct (lir_step eval _ _) as [[R' w']|]; [|done]. destruct H as (out & E' & Ev).
  rewrite Hl in Ev. destruct Ev as (v & -> & ->). exists (b ++ [v]). split; [done|].
  rewrite Ho in *. apply length_mapM in Hvs. destruct vs as [|v0 [|]]; try done.
  rewrite length_app in Ha1. cbn in Ha1. split; [cbn; rewrite length_app; cbn; lia|]. cbn. intros r' p Hp.
  destruct (decide (r' = r)) as [->|Hne].
  - rewrite (Hn r) in Hp by done. injection Hp as <-. rewrite lookup_insert_eq. by apply list_lookup_middle; lia.
  - rewrite lookup_insert_ne by done. rewrite <- (Ha2 _ _ Hp). pose proof (Hok _ _ Hp) as Hp'. rewrite Hs in Hp'.
    pose proof (lookup_lt_Some _ _ _ Hp') as Hlt. rewrite Hs, !length_app in *. cbn in *.
    destruct (decide (p = length s)) as [->|]; [rewrite list_lookup_middle in Hp' by done; congruence|].
    by rewrite !lookup_app_l by lia.
Qed.

(** *** Settling *)

Lemma settling_pop i n k : settling i n k -> settling i (S n) (act_seq pop k).
Proof.
  intros Hk e0 e e' pre body Hw HP Hok Hd Hh (e1 & E1 & E)%bind_Some. destruct (pop_sim _ _ Hok E1) as (Hok1 & Hw1 & Hg1).
  apply (Hk e0 e1 e' pre body); [|by eapply P_stable|done|done| |done].
  - by eapply begun_same.
  - intros R st0 Ha0. destruct (Hh R st0 Ha0) as (b & vs & Ha & Hn & Hl).
    destruct vs as [|v vs _] using rev_ind; [done|]. rewrite length_app in Hn. cbn in Hn. rewrite app_assoc in Ha.
    exists b, vs. split_and!; [exact (pop_agree _ _ _ _ _ Hok Ha E1) | lia | done].
Qed.

Lemma settling_silent i n a k : silent_act a -> settling i n k -> settling i n (act_seq a k).
Proof.
  intros Hq Hk e0 e e' pre body Hw HP Hok Hd Hh (e1 & E1%Hq & E)%bind_Some.
  apply (Hk e0 e1 e' pre body); [by eapply quiet_begun | eapply P_stable; [apply E1|done] | by eapply quiet_ok | done | | done].
  intros R st0 Ha0. destruct (Hh R st0 Ha0) as (b & vs & Ha & H). exists b, vs. split; [by eapply quiet_agree | done].
Qed.

Lemma settling_push i d : leaves i = Some d -> settling i 0 (push_reg d).
Proof.
  intros Hl e0 e e' pre body Hw HP Hok Hd Hh E. destruct (push_sim _ _ _ Hok E) as (Hok' & Hi & Hg).
  exists pre, body. split_and!; [by eapply begun_same|by eapply P_stable|done|done|].
  intros R st0 w Ha0. destruct (Hh R st0 Ha0) as (b & vs & Ha & ->%length_zero_iff_nil & Hr). rewrite app_nil_r in Ha.
  specialize (Hr w). destruct (lir_step eval _ _) as [[R' w']|]; [|done].
  destruct Hr as (out & Er & Ev). rewrite Hl in Ev. destruct Ev as (v & -> & ->).
  exists (b ++ [v]). exact (conj Er (push_agree _ _ _ _ _ _ Hok Ha E)).
Qed.

Lemma settling_end i : leaves i = None -> settling i 0 act_skip.
Proof.
  intros Hl e0 e e' pre body Hw HP Hok Hd Hh [= <-]. exists pre, body. split_and!; try done.
  intros R st0 w Ha0. destruct (Hh R st0 Ha0) as (b & vs & Ha & ->%length_zero_iff_nil & Hr). rewrite app_nil_r in Ha.
  specialize (Hr w). destruct (lir_step eval _ _) as [[R' w']|]; [|done].
  destruct Hr as (out & Er & Ev). rewrite Hl in Ev. destruct Ev as [-> ->]. exists b. by rewrite app_nil_r in Er.
Qed.
End Sim.

(** * The opcodes of an instruction

    What each instruction stands for: opcodes of the instruction set, with the
    instruction's own fields as operands.  It is a table over the instructions,
    whatever the emitter does to the stack. *)

Section OwnCode.
Context {Arena : Type} (heap_eq : Value -> Value -> bool) (h : Head).
Implicit Types (e : Emitter Arena) (body : list (Instruction * list Operand)).

(** The value a constant of the instruction stream stands for. *)
Definition const_value (c : ConstRef) : option Value :=
  match c with
  | C_Nil => Some V_NIL
  | C_Bool b => Some (V_bool b)
  | C_Int n => Some (V_int n)
  | C_Float f => Some (V_float f)
  | C_Symbol s => Some (V_symbol s)
  | C_Keyword k => Some (V_keyword k)
  | C_EmptyList => None
  end.

(** An opcode with the index of a constant, and what follows it. *)
Definition with_value e (v : Value) (x : Instruction) (rest body : list (Instruction * list Operand)) : Prop :=
  exists idx, const_at heap_eq v idx e /\ body = (x, [U16 idx]) :: rest.

Definition with_key e (key : ConstRef) (x : Instruction) body : Prop :=
  exists v, const_value key = Some v /\ with_value e v x [] body.

(** A variable of the environment: the slots behind captures and parameters
    that no closure captures are locals of the frame. *)
Definition variable_code (index : N) (on_stack in_env : Instruction) : Instruction * list Operand :=
  let first_local := (hd_num_captures h + hd_num_params h)%N in
  if (first_local <=? index)%N && negb (mask_is_set (hd_capture_locals h) (index - first_local))
  then (on_stack, [U16 (index - hd_num_captures h)]) else (in_env, [U8 0; U16 index]).

(** The fields are [u16]s and their sum is one. *)
Definition slots_fit (index : N) : Prop :=
  (hd_num_captures h + hd_num_params h < 2 ^ 16)%N /\ (index < 2 ^ 16)%N.

(** The instructions that are one opcode. *)
Definition opcode_of (i : InstrRef) : option (Instruction * list Operand) :=
  match i with
  | I_MaterializeConst _ template region =>
      Some (B_MaterializeConst, [region_op region; U32 (len_u32 template); Raw template])
  | I_LoadLocal _ slot => Some (B_LoadLocal, [U16 slot])
  | I_LoadCaptureRaw _ index => Some (B_LoadUpvalueRaw, [U8 0; U16 index])
  | I_LoadSelf _ => Some (B_LoadSelf, [])
  | I_Call _ _ args checked region | I_SuspendingCall _ _ args checked region =>
      Some (if checked then B_CallChecked else B_Call, [U16 (N.of_nat (length args)); region_op region])
  | I_CallArrayMut _ _ _ region args_region => Some (B_CallArrayMut, [region_op region; region_op args_region])
  | I_Eval _ _ _ => Some (B_Eval, [])
  | I_List _ _ _ region => Some (B_Pair, [region_op region])
  | I_MakeArrayMut _ elements region =>
      Some (B_MakeArrayMut, [region_op region; U8 (N.of_nat (length elements))])
  | I_BinOp _ op _ _ proof =>
      Some (match op, proof_is_int proof with
            | Add, true => B_AddInt | Add, false => B_Add
            | Sub, true => B_SubInt | Sub, false => B_Sub
            | Mul, true => B_MulInt | Mul, false => B_Mul
            | Div, true => B_DivInt | Div, false => B_Div
            | Rem, _ => B_Rem | BitAnd, _ => B_BitAnd | BitOr, _ => B_BitOr | BitXor, _ => B_BitXor
            | Shl, _ => B_Shl | Shr, _ => B_Shr
            end, [])
  | I_Compare _ CmpEq _ _ _ => Some (B_Eq, [])
  | I_Compare _ CmpLt _ _ _ => Some (B_Lt, [])
  | I_Compare _ CmpGt _ _ _ => Some (B_Gt, [])
  | I_Compare _ CmpLe _ _ _ => Some (B_Le, [])
  | I_Compare _ CmpGe _ _ _ => Some (B_Ge, [])
  | I_UnaryOp _ Not _ _ => Some (B_Not, [])
  | I_UnaryOp _ BitNot _ _ => Some (B_BitNot, [])
  | I_Convert _ IntToFloat _ => Some (B_IntToFloat, [])
  | I_Convert _ FloatToInt _ => Some (B_FloatToInt, [])
  | I_Identical _ _ _ => Some (B_Identical, [])
  | I_IsNil _ _ => Some (B_IsNil, [])
  | I_IsEmpty _ _ => Some (B_IsEmptyList, [])
  | I_IsPair _ _ => Some (B_IsPair, [])
  | I_IsArray _ _ => Some (B_IsArray, [])
  | I_IsArrayMut _ _ => Some (B_IsArrayMut, [])
  | I_IsStruct _ _ => Some (B_IsStruct, [])
  | I_IsStructMut _ _ => Some (B_IsStructMut, [])
  | I_IsSet _ _ => Some (B_IsSet, [])
  | I_IsSetMut _ _ => Some (B_IsSetMut, [])
  | I_IsBool _ _ => Some (B_IsBool, [])
  | I_IsInt _ _ => Some (B_IsInt, [])
  | I_IsFloat _ _ => Some (B_IsFloat, [])
  | I_IsString _ _ => Some (B_IsString, [])
  | I_IsKeyword _ _ => Some (B_IsKeyword, [])
  | I_IsSymbolCheck _ _ => Some (B_IsSymbol, [])
  | I_IsBytes _ _ => Some (B_IsBytes, [])
  | I_IsBox _ _ => Some (B_IsBox, [])
  | I_IsClosure _ _ => Some (B_IsClosure, [])
  | I_IsFiber _ _ => Some (B_IsFiber, [])
  | I_TypeOf _ _ => Some (B_TypeOf, [])
  | I_Length _ _ => Some (B_Length, [])
  | I_ArrayMutLen _ _ => Some (B_ArrayMutLen, [])
  | I_Get _ _ _ => Some (B_IntrGet, [])
  | I_Put _ _ _ _ => Some (B_IntrPut, [])
  | I_Del _ _ _ => Some (B_IntrDel, [])
  | I_Has _ _ _ => Some (B_IntrHas, [])
  | I_IntrPush _ _ _ => Some (B_IntrPush, [])
  | I_IntrStringPush _ _ _ => Some (B_IntrStringPush, [])
  | I_IntrBytesPush _ _ _ => Some (B_IntrBytesPush, [])
  | I_Pop _ _ => Some (B_IntrPop, [])
  | I_Freeze _ _ region => Some (B_IntrFreeze, [region_op region])
  | I_Thaw _ _ region => Some (B_IntrThaw, [region_op region])
  | I_ArrayMutExtend _ _ _ => Some (B_ArrayMutExtend, [])
  | I_ArrayMutPush _ _ _ => Some (B_ArrayMutPush, [])
  | I_MakeCaptureCell _ _ region name mutated =>
      Some (B_MakeCapture, [region_op region; U8 (N.b2n mutated); U64 name])
  | I_LoadCaptureCell _ _ => Some (B_UnwrapCapture, [])
  | I_StoreCaptureCell _ _ => Some (B_UpdateCapture, [])
  | I_First _ _ => Some (B_First, [])
  | I_Rest _ _ => Some (B_Rest, [])
  | I_FirstOrNil _ _ => Some (B_FirstOrNil, [])
  | I_RestOrNil _ _ => Some (B_RestOrNil, [])
  | I_FirstDestructure _ _ => Some (B_FirstDestructure, [])
  | I_RestDestructure _ _ => Some (B_RestDestructure, [])
  | I_ArrayMutRefDestructure _ _ index => Some (B_ArrayMutRefDestructure, [U16 index])
  | I_ArrayMutRefOrNil _ _ index => Some (B_ArrayMutRefOrNil, [U16 index])
  | I_ArrayMutSliceFrom _ _ index => Some (B_ArrayMutSliceFrom, [U16 index])
  | I_MatchFail _ _ => Some (B_MatchFail, [])
  | I_IncrefRegion r => Some (B_IncrefRegion, [region_op r])
  | I_DecrefRegion r => Some (B_DecrefRegion, [region_op r])
  | I_IncrefValueRegion _ => Some (B_IncrefValueRegion, [])
  | I_DecrefValueRegion _ => Some (B_DecrefValueRegion, [])
  | I_DecrefCellRegion _ => Some (B_DecrefCellRegion, [])
  | I_AssertRegionMatches r _ => Some (B_AssertRegionMatches, [region_op r])
  | I_AdoptRegion _ _ => Some (B_AdoptRegion, [])
  | I_AdoptCellRegion _ _ => Some (B_AdoptCellRegion, [])
  | I_AdoptIntoActivation _ => Some (B_AdoptIntoActivation, [])
  | I_FreeRegionGroup members => Some (B_FreeRegionGroup, [U8 (N.of_nat (length members))])
  | I_PushParamFrame pairs => Some (B_PushParamFrame, [U8 (N.of_nat (length pairs / 2))])
  | I_PopParamFrame => Some (B_PopParamFrame, [])
  | I_CheckSignalBound _ allowed => Some (B_CheckSignalBound, [U64 (raw allowed)])
  | _ => None
  end.

Definition own_code (i : InstrRef) e body : Prop :=
  match i with
  | I_Const _ C_Nil => body = [(B_Nil, [])]
  | I_Const _ C_EmptyList => body = [(B_EmptyList, [])]
  | I_Const _ (C_Bool b) => body = [(if b then B_True else B_False, [])]
  | I_Const _ c => with_key e c B_LoadConst body
  | I_ValueConst _ v => with_value e v B_LoadConst [] body
  | I_StoreLocal slot _ | I_StoreLocalRefcounted slot _ => body = [(B_StoreLocal, [U16 slot]); (B_Pop, [])]
  | I_LoadCapture _ index => slots_fit index -> body = [variable_code index B_LoadLocal B_LoadUpvalue]
  | I_StoreCapture index _ => slots_fit index -> body = [variable_code index B_StoreLocal B_StoreUpvalue; (B_Pop, [])]
  | I_MakeClosure _ id captures region =>
      exists idx, proto_at id idx e /\
        body = [(B_MakeClosure, [region_op region; U16 idx; U16 (N.of_nat (length captures))])]
  | I_Compare _ CmpNe _ _ _ => body = [(B_Eq, []); (B_Not, [])]
  | I_UnaryOp _ Neg _ _ => with_value e (V_int (-1)) B_LoadConst [(B_Mul, [])] body
  | I_StructGetOrNil _ _ key => with_key e key B_StructGetOrNil body
  | I_StructGetDestructure _ _ key => with_key e key B_StructGetDestructure body
  | I_StructRest _ _ keys =>
      exists vs idxs, const_list_iter keys ≫= mapM const_value = Some vs /\ consts_at heap_eq vs idxs e /\
        body = [(B_StructRest, U16 (len_u16 keys) :: (U16 <$> idxs))]
  | i => match opcode_of i with Some x => body = [x] | None => False end
  end.

Lemma with_value_stable v x rest body : stable (fun e => with_value e v x rest body).
Proof. intros e e' Hg (idx & Hc & ->). exists idx. split; [by eapply const_at_stable|done]. Qed.

Lemma with_key_stable key x body : stable (fun e => with_key e key x body).
Proof. intros e e' Hg (v & Hv & Hb). exists v. split; [done|by eapply with_value_stable]. Qed.

Lemma own_code_stable i body : stable (fun e => own_code i e body).
Proof.
  intros e e' Hg. destruct i; cbn [own_code]; try done; try by apply with_key_stable.
  - destruct value; try done; by apply with_key_stable.
  - by apply with_value_stable.
  - intros (idx & Hp & ->). exists idx. split; [by eapply proto_at_stable|done].
  - destruct op; try done. by apply with_value_stable.
  - intros (vs & idxs & Hv & Hc & ->). exists vs, idxs. split_and!; [done|by eapply consts_at_stable|done].
Qed.

(** The slot the emitter computes in [u16]s. *)
Lemma variable_slot index on_stack in_env :
  slots_fit index ->
  match non_cell_local_slot index h with
  | Some slot => (on_stack, [U16 slot]) | None => (in_env, [U8 0; U16 index])
  end = variable_code index on_stack in_env.
Proof.
  intros [Hs Hi]. unfold non_cell_local_slot, variable_code, as_u16.
  rewrite (N.mod_small (hd_num_params h)), (N.mod_small (_ + _)) by lia.
  destruct (N.leb_spec (hd_num_captures h + hd_num_params h) index); [|done].
  destruct (mask_is_set _ _); [done|]. cbn [andb negb]. do 3 f_equal.
  replace (index + 2 ^ 16 - hd_num_captures h)%N with (index - hd_num_captures h + 1 * 2 ^ 16)%N by lia.
  rewrite N.Div0.mod_add. apply N.mod_small. lia.
Qed.

(** A [StructRest] excludes by keywords and symbols only. *)
Lemma rest_keys_values keys vs : mapM rest_key keys = Some vs -> mapM const_value keys = Some vs.
Proof.
  intros Hv. apply mapM_Some. apply mapM_Some in Hv. eapply Forall2_impl; [exact Hv|]. by intros [].
Qed.

Lemma struct_key_value key v : struct_key key = Some v -> const_value key = Some v.
Proof. by destruct key. Qed.
End OwnCode.

(** * Every instruction finds its operands

    The phases of [EmitSim.v] for each arm of the emitter, and the block they
    add up to. *)

Section Steps.
Context {Arena : Type} {V W : Type} (eval : Instruction -> list Operand -> W -> list V -> option (list V * W)).
Context (heap_eq : Value -> Value -> bool)
  (arena_write : Arena -> LirOwned -> nat -> ClosureCompiled -> Value * Arena) (F : Files).
Abbreviation Act := (EmitStack.Act Arena) (only parsing).
Context (P : InstrRef -> Emitter Arena -> list (Instruction * list Operand) -> Prop).
Context (P_stable : forall i body, stable (fun e => P i e body)).
Abbreviation writing := (writing (Arena := Arena) eval P) (only parsing).
Abbreviation settling := (settling (Arena := Arena) eval P) (only parsing).
Abbreviation arranging := (arranging (Arena := Arena) eval P) (only parsing).
Implicit Types (K : Emitter Arena -> Prop).
Implicit Types (e : Emitter Arena) (i : InstrRef).

(** ** Phases of the remaining actions *)

Lemma silent_skip : silent_act (act_skip (Arena := Arena)).
Proof. by intros e e' [= <-]. Qed.

Lemma silent_charge : silent_act (record_charge_site (Arena := Arena)).
Proof. intros e e'. unfold record_charge_site. by destruct (e_may_suspend e); intros [= <-]. Qed.

Lemma silent_site ip d : silent_act (Arena := Arena) (with_stack (fun stack => record_call_site ip stack d)).
Proof. intros e e'. unfold with_stack, record_call_site. by destruct (e_may_suspend e); intros [= <-]. Qed.

Lemma writing_ext K i body (a b : Act) : (forall e, a e = b e) -> writing K i body a -> writing K i body b.
Proof.
  intros Hab Ha Hst e0 e e' pre Hw HK Hok Ht Hh Hl E. rewrite <- Hab in E. exact (Ha Hst _ _ _ _ Hw HK Hok Ht Hh Hl E).
Qed.

Lemma settling_ext i n (a b : Act) : (forall e, a e = b e) -> settling i n a -> settling i n b.
Proof.
  intros Hab Ha e0 e e' pre body Hw HP Hok Hd Hh E. rewrite <- Hab in E. exact (Ha _ _ _ _ _ Hw HP Hok Hd Hh E).
Qed.

Lemma seq_skip (a : Act) e : act_seq a act_skip e = a e.
Proof. unfold act_seq, act_skip. by destruct (a e). Qed.

Lemma seq_assoc (a b c : Act) e : act_seq (act_seq a b) c e = act_seq a (act_seq b c) e.
Proof. unfold act_seq. by destruct (a e). Qed.

Lemma writing_assoc K i body (a b c : Act) :
  writing K i body (act_seq a (act_seq b c)) -> writing K i body (act_seq (act_seq a b) c).
Proof. apply writing_ext. intros e. by rewrite seq_assoc. Qed.

Lemma writing_put_last K i body x os : writing K i (body ++ [(x, os)]) act_skip -> writing K i body (put x os).
Proof. intros H. apply (writing_ext _ _ _ _ _ (seq_skip _)). by apply writing_put. Qed.

Lemma writing_at_pos K i body (k : nat -> Act) : (forall n, writing K i body (k n)) -> writing K i body (at_pos k).
Proof.
  intros Hk Hst e0 e e' pre Hw HK Hok Ht Hh Hl E. exact (Hk _ Hst _ _ _ _ Hw HK Hok Ht Hh Hl E).
Qed.

Lemma writing_const_seq K i body v (k : N -> Act) k' :
  (forall idx, writing (fun e => K e /\ const_at heap_eq v idx e) i body (act_seq (k idx) k')) ->
  writing K i body (act_seq (with_const heap_eq v k) k').
Proof.
  intros H. apply (writing_ext _ _ _ (with_const heap_eq v (fun idx => act_seq (k idx) k'))); [|by apply writing_const].
  intros e. unfold with_const, act_seq. by destruct (add_constant heap_eq (e_bc e) v) as [[]|].
Qed.

Lemma writing_panics K i body : writing K i body panics.
Proof. by intros Hst e0 e e' pre. Qed.

Lemma settling_pop_last i n : settling i n act_skip -> settling i (S n) pop.
Proof. intros H. apply (settling_ext _ _ _ _ (seq_skip _)). by apply (settling_pop eval P P_stable). Qed.

Lemma settling_pop_n i m : forall n k, settling i n k -> settling i (m + n) (act_seq (pop_n m) k).
Proof.
  unfold pop_n. generalize 0. induction m as [|m IH]; intros s n k H; cbn [seq for_each foldr].
  - apply (settling_silent eval P P_stable); [apply silent_skip | done].
  - eapply settling_ext; [intros e; symmetry; apply seq_assoc|]. apply (settling_pop eval P P_stable). by apply IH.
Qed.

Lemma settling_pop_n_last i m : settling i 0 act_skip -> settling i m (pop_n m).
Proof.
  intros H. apply (settling_ext _ _ _ _ (seq_skip _)). rewrite <- (Nat.add_0_r m) at 1. by apply settling_pop_n.
Qed.

(** A closure's header is made before its opcode is written. *)
Lemma header_quiet id n e v e' :
  lambda_header arena_write id n e = Some (v, e') ->
  quiet e e' /\ e_headers e' !! id = Some v /\ children (e_bc e') = children (e_bc e).
Proof.
  unfold lambda_header. destruct (e_headers e !! id) eqn:Eh.
  { intros [= <- <-]. split_and!; [by split_and!|done|done]. }
  intros (cs & _ & (c & _ & (fs & _ & (f & _ & E)%bind_Some)%bind_Some)%bind_Some)%bind_Some.
  destruct (arena_write _ _ _ _). injection E as <- <-. split_and!; [split_and!; [done..|]|cbn; by rewrite lookup_insert_eq|done].
  split; cbn; [done|done|by apply insert_subseteq|done].
Qed.

Lemma writing_closure K i body id captures region (k : Act) :
  (forall idx, writing (fun e => K e /\ proto_at id idx e) i
     (body ++ [(B_MakeClosure, [region_op region; U16 idx; U16 (len_u16 captures)])]) k) ->
  writing K i body (act_seq (fun e =>
    '(header, e) ← lambda_header arena_write id (length captures) e;
    let proto_idx := as_u16 (N.of_nat (length (children (e_bc e)))) in
    let e := set_bc e (set_children (e_bc e) (children (e_bc e) ++ [header])) in
    put B_MakeClosure [region_op region; U16 proto_idx; U16 (len_u16 (A := Reg) captures)] e) k).
Proof.
  intros Hk Hst e0 e e' pre Hw HK Hok Ht Hh Hl (e3 & ([v e1] & E1 & E2)%bind_Some & E)%bind_Some.
  destruct (header_quiet _ _ _ _ _ E1) as ((Q1 & Q2 & Q3 & Q4) & Hv & Hc).
  set (e2 := set_bc e1 (set_children (e_bc e1) (children (e_bc e1) ++ [v]))) in E2.
  assert (Hg : grows e e2).
  { etrans; [exact Q4|]. split; cbn; [done|by eexists|done|done]. }
  assert (Hq : quiet e e2) by done.
  set (idx := as_u16 (N.of_nat (length (children (e_bc e1))))) in *.
  assert (Hp : proto_at id idx e2).
  { intros Hlen. exists v. split; [done|]. cbn in *. rewrite length_app in Hlen. cbn in Hlen.
    unfold idx. rewrite as_u16_nat by lia. by apply list_lookup_middle. }
  refine (quiet_writing _ _ K _ _ _ _ _ _ _ _ _ Hq (writing_put _ _ _ _ _ _ _ _ (Hk idx)) _ _ Hw HK Hok Ht Hh Hl _).
  - by apply stable_and; [|apply proto_at_stable].
  - split; [by eapply Hst|done].
  - injection E2 as <-. exact E.
Qed.

(** ** The arms *)

Lemma len_u8_small {A} (l : list A) : length l <= 255 -> N.to_nat (len_u8 l) = length l.
Proof. intros H. unfold len_u8, as_u8. rewrite N.mod_small by lia. lia. Qed.

Lemma len_u16_small {A} (l : list A) : length l <= 255 -> N.to_nat (len_u16 l) = length l.
Proof. intros H. unfold len_u16, as_u16. rewrite N.mod_small by lia. lia. Qed.

Lemma depth_one x os n p q :
  arity x os = Some (p, q) -> p = n -> x <> B_DupN -> x <> B_Pop -> depth [(x, os)] n = Some q.
Proof.
  intros Ha -> H1 H2.
  assert (G : ('(p, q) ← arity x os; if decide (p <= n) then Some (n - p + q) else None) = Some q).
  { rewrite Ha. cbn. rewrite decide_True by lia. f_equal. lia. }
  destruct x; try done; exact G.
Qed.
End Steps.

(** The opcodes written are the instruction's. *)
Ltac own := cbn [own_code opcode_of app]; unfold with_key, with_value; destruct_and?;
  first
  [ reflexivity
  | match goal with H : proof_is_int _ = _ |- _ => rewrite H end; reflexivity
  | eexists; split; [eassumption | reflexivity]
  | eexists; split; [first [reflexivity | eassumption]|]; eexists; split; [eassumption | reflexivity]
  | intros ?; rewrite <- variable_slot by assumption;
    match goal with H : non_cell_local_slot _ _ = _ |- _ => rewrite H end; reflexivity ].

(** Walk an arm through its phases. *)
Ltac arm := repeat first
  [ apply arranging_binary; [reflexivity|]
  | apply arranging_arrange; [reflexivity|]
  | apply arranging_each; [reflexivity|]
  | apply arranging_ensure; [eexists; reflexivity|]; cbn [app]
  | apply arranging_done; [reflexivity|]
  | apply writing_assoc
  | apply writing_put; cbn [app]
  | apply writing_silent; [first [apply silent_skip | apply silent_charge]|]
  | apply writing_const_seq; intros ?
  | apply writing_const; intros ?
  | apply writing_at_pos; intros ?
  | eapply writing_peek; [reflexivity | reflexivity | reflexivity | intros ? ?; own]
  | apply writing_put_last; cbn [app]
  | apply writing_panics
  | apply settling_push; [apply own_code_stable|reflexivity]
  | apply settling_end; reflexivity
  | apply settling_silent; [apply own_code_stable | first [apply silent_skip | apply silent_site]|]
  | apply settling_pop; [apply own_code_stable|]
  | apply settling_pop_last; [apply own_code_stable|]
  | eapply writing_settle; [reflexivity | intros ?; reflexivity | intros ? ? ?; own |] ].

Section Instr.
Context {Arena : Type} {V W : Type} (eval : Instruction -> list Operand -> W -> list V -> option (list V * W)).
Context (heap_eq : Value -> Value -> bool)
  (arena_write : Arena -> LirOwned -> nat -> ClosureCompiled -> Value * Arena) (F : Files).

Section Counted.
Context (P : InstrRef -> Emitter Arena -> list (Instruction * list Operand) -> Prop).
Context (P_stable : forall i body, stable (fun e => P i e body)).

Lemma len_u16_eq {A} (l : list A) : length l <= 255 -> len_u16 l = N.of_nat (length l).
Proof. intros H. unfold len_u16, as_u16. apply N.mod_small. lia. Qed.

Lemma len_u8_eq {A} (l : list A) : length l <= 255 -> len_u8 l = N.of_nat (length l).
Proof. intros H. unfold len_u8, as_u8. apply N.mod_small. lia. Qed.

Lemma arranging_call i dst func (args : list Reg) (chk : bool) region :
  operands i = args ++ [func] -> leaves i = Some dst ->
  (forall e, P i e [(if chk then B_CallChecked else B_Call, [U16 (N.of_nat (length args)); region_op region])]) ->
  arranging (Arena := Arena) eval P i [] (emit_call dst func args chk region).
Proof.
  intros Ho Hl HP. unfold emit_call. apply arranging_arrange; [done|]. apply arranging_done; [done|]. arm.
  apply (writing_settle _ _ _ _ _ _ (S (length args))); [rewrite Ho, length_app; cbn; lia | | |].
  - intros Hn. rewrite Hl. apply (depth_one _ _ _ (S (length args))); [|done|by destruct chk..].
    by destruct chk; cbn; rewrite len_u16_small by lia.
  - intros Hn e _. rewrite len_u16_eq by lia. apply HP.
  - apply settling_pop; [done|]. rewrite <- (Nat.add_0_r (length args)) at 1. apply settling_pop_n; [done|].
    apply settling_silent; [done|apply silent_site|]. by apply settling_push.
Qed.

(** A run of operands counted by the opcode. *)
Lemma writing_counted (K : Emitter Arena -> Prop) i body n (k : EmitStack.Act Arena) :
  length (operands i) = n ->
  (n <= 255 -> depth body n = Some (length (option_list (leaves i)))) ->
  (n <= 255 -> forall e, K e -> P i e body) ->
  settling (Arena := Arena) eval P i 0 k -> writing eval P K i body (act_seq (pop_n n) k).
Proof.
  intros Hn Hd HP Hk. apply (writing_settle _ _ _ _ _ _ n); [done | done | done|].
  rewrite <- (Nat.add_0_r n) at 1. by apply settling_pop_n.
Qed.

Lemma writing_counted_last (K : Emitter Arena -> Prop) i body n :
  length (operands i) = n -> leaves i = None -> (n <= 255 -> depth body n = Some 0) ->
  (n <= 255 -> forall e, K e -> P i e body) ->
  writing (Arena := Arena) eval P K i body (pop_n n).
Proof.
  intros Hn Hl Hd HP. apply (writing_settle _ _ _ _ _ _ n); [done | by rewrite Hl | done|].
  apply settling_pop_n_last; [done|]. by apply settling_end.
Qed.

End Counted.

Lemma pairs_counted {A} (l : list A) :
  Nat.even (length l) = true -> length l <= 255 -> 2 * N.to_nat (as_u8 (N.of_nat (length l / 2))) = length l.
Proof.
  intros [m Hm]%Nat.even_spec Hl. rewrite Hm. rewrite (Nat.mul_comm 2 m), Nat.div_mul by lia.
  unfold as_u8. rewrite N.mod_small by lia. lia.
Qed.

Lemma arranging_instr i h :
  straight i = true -> arranging eval (own_code heap_eq h) i [] (emit_instr heap_eq arena_write i h).
Proof.
  intros Hs. destruct i; try done.
  all: cbn [emit_instr emit_instr_destructure emit_instr_ops emit_instr_intrinsics].
  all: unfold unary_op, binary_op, struct_get, emit_const.
  all: try (arm; done).
  - destruct value as [| |[]| | | |]; arm.
  - destruct (non_cell_local_slot index h) eqn:Es; arm.
  - destruct (non_cell_local_slot index h) eqn:Es; arm.
  - unfold emit_make_closure. apply arranging_arrange; [done|]. apply arranging_done; [done|].
    apply writing_closure. intros idx. apply writing_counted; [apply own_code_stable|done| | |arm].
    + intros Hn. apply (depth_one _ _ _ (length captures)); [|done..]. cbn. by rewrite len_u16_small.
    + intros Hn e [_ Hp]. exists idx. split; [done|]. by rewrite len_u16_eq.
  - by apply arranging_call; [apply own_code_stable|..].
  - by apply arranging_call; [apply own_code_stable|..].
  - apply arranging_each; [done|]. apply arranging_done; [done|]. apply writing_put.
    apply writing_counted; [apply own_code_stable|done| | |arm].
    + intros Hn. apply (depth_one _ _ _ (length elements)); [|done..]. cbn. by rewrite len_u8_small.
    + intros Hn e _. cbn. by rewrite len_u8_eq.
  - destruct op, (proof_is_int proof) eqn:Ep; arm.
  - destruct op; arm.
  - destruct op; arm.
  - destruct op; arm.
  - destruct (struct_key key) eqn:Ek; [apply struct_key_value in Ek|]; arm.
  - destruct (struct_key key) eqn:Ek; [apply struct_key_value in Ek|]; arm.
  - destruct (_ ≫= _) as [l|] eqn:Ek; [|arm]. apply arranging_ensure; [by eexists|]. apply arranging_done; [done|].
    apply writing_consts. intros idxs. apply writing_put. eapply writing_settle; [reflexivity | by intros | |arm].
    intros _ e [_ Hc]. exists l, idxs. split_and!; [|done|done].
    apply bind_Some in Ek as (ks & E1 & E2). rewrite E1. by apply rest_keys_values.
  - apply arranging_ensure; [by eexists|]. apply arranging_done; [done|]. by eapply writing_peek.
  - apply arranging_each; [done|]. apply arranging_done; [done|]. apply writing_put.
    apply writing_counted_last; [apply own_code_stable|done|done| |].
    + intros Hn. apply (depth_one _ _ _ (length members)); [|done..]. cbn. by rewrite len_u8_small.
    + intros Hn e _. cbn. by rewrite len_u8_eq.
  - apply arranging_ensure; [by eexists|]. apply arranging_done; [done|]. by eapply writing_peek.
  - apply arranging_each; [done|]. apply arranging_done; [done|]. apply writing_put.
    apply writing_counted_last; [apply own_code_stable|done|done| |].
    + intros Hn. apply (depth_one _ _ _ (length pairs)); [|done..]. cbn [arity]. by rewrite pairs_counted.
    + intros Hn e _. cbn [own_code opcode_of app]. unfold as_u8. rewrite N.mod_small; [done|].
      pose proof (Nat.Div0.div_le_upper_bound (length pairs) 2 255 ltac:(lia)). lia.
Qed.

Lemma ready_spec i (e : Emitter Arena) : ready i e = true -> straight i = true /\ waiting [] (operands i) e.
Proof.
  unfold ready. rewrite !andb_true_iff, Nat.leb_le. intros [[[Hs Hf] Hn] Hl]. split; [done|]. split_and!; try done.
  apply Forall_forall. intros r Hr. rewrite forallb_forall in Hf.
  specialize (Hf r). rewrite bool_decide_eq_true in Hf. by apply Hf, list_elem_of_In.
Qed.

Lemma instr_delivers i h (e e' : Emitter Arena) :
  sim_ok e -> ready i e = true -> emit_instr heap_eq arena_write i h e = Some e' -> delivers eval (own_code heap_eq h) i e e'.
Proof.
  intros Hok [Hs Hw]%ready_spec E.
  eapply (arranging_instr i h Hs e e e' (operands i)); [done | by apply arranged_nil | done | done].
Qed.
End Instr.
