(* ===== verification/EmitBlocks.v ===== *)
(** * A block's code runs as its registers say

    The straight code of a block, and what the edges out of it drop. *)

From stdpp Require Import base numbers option list gmap.
From S2P Require Import Prelude SignalBits Signal LirRecord LirInstr LirCodec LirBuild LirView LirSpec LirCodecProps Bytes Files Template Live LiveProps Bytecode EmitStack Emit Disasm DisasmProps EmitCode EmitRun EmitSim.

Section Blocks.
Context {Arena : Type} {V W : Type} (eval : Instruction -> list Operand -> W -> list V -> option (list V * W)).
Context (heap_eq : Value -> Value -> bool)
  (arena_write : Arena -> LirOwned -> nat -> ClosureCompiled -> Value * Arena) (F : Files).
Implicit Types (e : Emitter Arena) (R : gmap Reg V) (st : list V).
Abbreviation located := (emit_located (Arena := Arena) heap_eq arena_write F) (only parsing).

(** ** Straight code *)

(** Every instruction finds its operands when its turn comes. *)
Fixpoint block_ready (h : Head) (l : list (InstrRef * Span)) e : bool :=
  match l with
  | [] => true
  | x :: l => ready x.1 e && match located h x e with Some e => block_ready h l e | None => true end
  end.

Lemma located_delivers h x e e' :
  sim_ok e -> ready x.1 e = true -> located h x e = Some e' -> delivers eval (own_code heap_eq h) x.1 e e'.
Proof.
  destruct x as [i s]. cbn [fst]. intros Hok Hr (e1 & [= <-] & (e2 & E2 & E3)%bind_Some)%bind_Some.
  set (e1 := set_bc e _) in *.
  assert (Q1 : quiet e e1).
  { assert (exists m, record_location F (e_bc e) s = set_locations (e_bc e) m) as [m Hm].
    { unfold record_location. destruct (_ && _)%N; [exists (location_map (e_bc e)); by destruct (e_bc e)|by eexists]. }
    unfold e1. rewrite Hm. by split_and!; [..|apply grows_same]. }
  assert (Q2 : quiet e2 e').
  { destruct (may_raise i); [|by injection E3 as <-]. revert E3. unfold record_call_site.
    by destruct (e_may_suspend e2); intros [= <-]; (split_and!; [done..|]); apply grows_same. }
  assert (Hr1 : ready i e1 = true) by exact Hr.
  destruct (instr_delivers eval heap_eq arena_write i h e1 e2 (quiet_ok _ _ Q1 Hok) Hr1 E2)
    as (pre & body & Hw & HP & Hok2 & Hd & H).
  exists pre, body. split_and!; [|eapply own_code_stable; [apply Q2|done]| by eapply quiet_ok |done|].
  - apply (quiet_begun _ _ _ _ _ Q2). destruct Hw as (Hw & Hdup & Hg), Q1 as (_ & _ & Q1 & Hg1).
    split_and!; [|done|by etrans]. unfold wrote in *. by rewrite Hw, Q1.
  - intros R st0 w Ha0. specialize (H R st0 w (quiet_agree _ _ _ _ Q1 Ha0)).
    destruct (lir_step eval _ _) as [[R' w']|]; [|done]. destruct H as (st' & Er & Ha').
    exists st'. exact (conj Er (quiet_agree _ _ _ _ Q2 Ha')).
Qed.

(** ** Edges *)

Lemma wrote_pops e e1 e' n :
  wrote e e1 [(B_Pop, [])] -> wrote e1 e' (replicate n (B_Pop, [])) -> wrote e e' (replicate (S n) (B_Pop, [])).
Proof. intros H1 H2. exact (wrote_app _ _ _ _ _ H1 H2). Qed.

Lemma run_pops n : forall w st, n <= length st ->
  run eval (replicate n (B_Pop, [])) (w, st) = Some (w, take (length st - n) st).
Proof.
  induction n as [|n IH]; intros w st Hn; cbn [replicate run].
  - by rewrite Nat.sub_0_r, firstn_all.
  - cbn. rewrite decide_True by lia. cbn. rewrite IH by (rewrite length_take; lia).
    rewrite length_take, take_take. do 2 f_equal. f_equal. lia.
Qed.

(** The dead trailing cells. *)
Lemma pop_dead_spec floor target n : forall e e',
  pop_dead_loop n floor target e = Some e' ->
  exists k, wrote e e' (replicate k (B_Pop, [])) /\ k <= length (e_stack e) /\
    e_stack e' = take (length (e_stack e) - k) (e_stack e) /\ e_map e' = e_map e /\
    (0 < k -> floor <= length (e_stack e) - k) /\
    forall p r, length (e_stack e) - k <= p -> e_stack e !! p = Some r ->
      e_map e !! r <> Some p /\ live_at e target r = false.
Proof.
  assert (Z : forall e, exists k, wrote e e (replicate k (B_Pop, [])) /\ k <= length (e_stack e) /\
    e_stack e = take (length (e_stack e) - k) (e_stack e) /\ e_map e = e_map e /\
    (0 < k -> floor <= length (e_stack e) - k) /\
    forall p r, length (e_stack e) - k <= p -> e_stack e !! p = Some r ->
      e_map e !! r <> Some p /\ live_at e target r = false).
  { intros e. exists 0. split_and!; [by apply wrote_nil | lia | by rewrite Nat.sub_0_r, firstn_all | done | lia|].
    intros p r Hp H%lookup_lt_Some. lia. }
  induction n as [|n IH]; intros e e' E; cbn in E; [injection E as <-; apply Z|].
  destruct (decide _) as [Hf|]; [|injection E as <-; apply Z].
  destruct (e_stack e !! _) as [r0|] eqn:Et; [|done].
  destruct (bool_decide _ || live_at e target r0) eqn:Eb; [injection E as <-; apply Z|].
  apply orb_false_iff in Eb as [Hn%bool_decide_eq_false Hlv].
  destruct (IH _ _ E) as (k & Hw & Hk & Hs & Hm & Hfl & Hd). cbn in Hk, Hs, Hm, Hfl, Hd.
  rewrite length_take in Hk, Hs, Hfl, Hd. rewrite Nat.min_l in Hk, Hs, Hfl, Hd by lia.
  exists (S k). split_and!; [|lia| |done|lia|].
  - eapply wrote_pops; [|exact Hw]. apply (wrote_put e B_Pop []).
  - rewrite Hs, take_take. f_equal. lia.
  - intros p r Hp Hr. destruct (decide (p = length (e_stack e) - 1)) as [->|].
    + rewrite Et in Hr. injection Hr as <-. done.
    + pose proof (lookup_lt_Some _ _ _ Hr). apply Hd; [lia|]. by rewrite lookup_take_lt by lia.
Qed.

(** Everything above [floor]. *)
Lemma pop_to_spec floor n : forall e e',
  sim_ok e -> length (e_stack e) <= n -> pop_to_loop n floor e = Some e' ->
  wrote e e' (replicate (length (e_stack e) - floor) (B_Pop, [])) /\
  e_stack e' = take floor (e_stack e) /\
  forall r p, e_map e' !! r = Some p <-> e_map e !! r = Some p /\ p < floor.
Proof.
  assert (Z : forall e, sim_ok e -> length (e_stack e) <= floor ->
    wrote e e (replicate (length (e_stack e) - floor) (B_Pop, [])) /\ e_stack e = take floor (e_stack e) /\
    forall r p, e_map e !! r = Some p <-> e_map e !! r = Some p /\ p < floor).
  { intros e Hok Hl. replace (length (e_stack e) - floor) with 0 by lia.
    split_and!; [by apply wrote_nil | by rewrite take_ge by lia|].
    intros r p. split; [|tauto]. intros Hp. split; [done|]. apply Hok, lookup_lt_Some in Hp. lia. }
  induction n as [|n IH]; intros e e' Hok Hn E; cbn in E; [injection E as <-; apply Z; [done|lia]|].
  destruct (decide _) as [Hf|]; [|injection E as <-; apply Z; [done|lia]].
  destruct (e_stack e !! _) as [r0|] eqn:Et; [|done].
  set (m := if bool_decide _ then _ else _) in E. set (d := length (e_stack e) - 1) in *.
  assert (Hm : forall r p, m !! r = Some p <-> e_map e !! r = Some p /\ p < d).
  { intros r p. assert (Hlt : forall r p, e_map e !! r = Some p -> p < d \/ (p = d /\ r = r0)).
    { intros r' p' Hp'. pose proof (Hok _ _ Hp') as H. pose proof (lookup_lt_Some _ _ _ H).
      destruct (decide (p' = d)) as [->|]; [right; split; congruence | left; lia]. }
    unfold m. destruct (bool_decide _) eqn:Eb.
    - apply bool_decide_eq_true in Eb. rewrite lookup_delete_Some. split.
      + intros [Hne Hp]. split; [done|]. destruct (Hlt _ _ Hp) as [|[_ ->]]; [done|congruence].
      + intros [Hp Hpd]. split; [|done]. intros ->. rewrite Eb in Hp. injection Hp as <-. lia.
    - apply bool_decide_eq_false in Eb. split; [|tauto]. intros Hp. split; [done|].
      destruct (Hlt _ _ Hp) as [|[-> ->]]; [done | congruence]. }
  set (e1 := set_sim _ _ _) in E.
  assert (Hl1 : length (e_stack e1) = d) by (cbn; rewrite length_take; lia).
  assert (Hok1 : sim_ok e1).
  { intros r p [Hp Hlt]%Hm. cbn. rewrite lookup_take_lt by done. by apply Hok. }
  destruct (IH e1 e' Hok1 ltac:(lia) E) as (Hw & Hs & Hm'). rewrite Hl1 in Hw. split_and!.
  - replace (length (e_stack e) - floor) with (S (d - floor)) by lia.
    eapply wrote_pops; [|exact Hw]. apply (wrote_put e B_Pop []).
  - rewrite Hs. cbn. rewrite take_take. f_equal. lia.
  - intros r p. rewrite Hm'. cbn. rewrite Hm. split; [tauto|]. intros [Hp Hlt]. split_and!; [done | lia | done].
Qed.

(** ** Properties *)

(** A block's straight code, over the pieces its instructions wrote. *)
Definition pieces : Type := list (list (Instruction * list Operand) * list (Instruction * list Operand)).
Definition piece_code (l : pieces) : list (Instruction * list Operand) := concat ((fun '(pre, body) => pre ++ body) <$> l).

(** The piece of an instruction: copies, then the opcodes of the instruction,
    whose stack effect is its operands and its result. *)
Definition piece_of (h : Head) e (i : InstrRef) (p : list (Instruction * list Operand) * list (Instruction * list Operand)) : Prop :=
  Forall is_dup p.1 /\ own_code heap_eq h i e p.2 /\
  depth p.2 (length (operands i)) = Some (length (option_list (leaves i))).

Lemma block_runs h l : forall e e',
  sim_ok e -> block_ready h l e = true -> for_each l (located h) e = Some e' ->
  exists ps : pieces, wrote e e' (piece_code ps) /\ sim_ok e' /\ grows e e' /\
    Forall2 (fun i p => piece_of h e' i p) l.*1 ps /\
    forall R st w, agree R e st ->
      match lir_run eval (zip l.*1 ps.*2) (R, w) with
      | Some (R', w') => exists st', run eval (piece_code ps) (w, st) = Some (w', st') /\ agree R' e' st'
      | None => run eval (piece_code ps) (w, st) = None
      end.
Proof.
  induction l as [|x l IH]; intros e e' Hok Hr E.
  - injection E as <-. exists []. split_and!; [by apply wrote_nil | done | done | constructor|]. intros R st w Ha. by exists st.
  - apply bind_Some in E as (e1 & E1 & E). cbn [block_ready] in Hr. rewrite E1 in Hr. apply andb_true_iff in Hr as [Hr1 Hr].
    destruct (located_delivers h x e e1 Hok Hr1 E1) as (pre & body & (Hw & Hdup & Hg1) & HP & Hok1 & Hd & H).
    destruct (IH e1 e' Hok1 Hr E) as (ps & Hw' & Hok' & Hg' & Hds & Hrest).
    exists ((pre, body) :: ps). split_and!; [by eapply wrote_app | done | by etrans | |].
    { constructor; [|done]. split_and!; [done|by eapply own_code_stable|done]. }
    intros R st w Ha. specialize (H R st w Ha). cbn [fmap list_fmap zip_with snd lir_run].
    change (piece_code _) with ((pre ++ body) ++ piece_code ps). rewrite run_app.
    destruct (lir_step eval _ _) as [[R1 w1]|]; cbn [mbind option_bind]; [|by rewrite H].
    destruct H as (st1 & -> & Ha1). cbn [mbind option_bind]. by apply Hrest.
Qed.

(** The value a [Return] finds. *)
Lemma return_finds r e e' :
  sim_ok e -> is_Some (e_map e !! r) -> length (e_stack e) <= 254 ->
  emit_terminator (Return r) e = Some e' ->
  exists pre, Forall is_dup pre /\ wrote e e' (pre ++ [(B_Return, [])]) /\
    forall R st w, agree R e st -> exists b v, run eval pre (w, st) = Some (w, b ++ [v]) /\ R !! r = Some v.
Proof.
  intros Hok Hr Hl (e1 & E1 & [= <-])%bind_Some.
  destruct (waiting_ensure eval [] e e e1 r []) as [(pre & Hw & _ & _ & Hh) _].
  - by apply arranged_nil.
  - split_and!; [by constructor | done | cbn; lia].
  - done.
  - destruct Hw as (Hw & Hdup & _). rewrite app_nil_r in Hw.
    exists pre. split_and!; [done|eapply wrote_app; [exact Hw | apply (wrote_put e1 B_Return [])]|].
    intros R st w Ha. destruct (Hh R st Ha) as (b & vs & _ & Hvs & Hrun). cbn in Hvs.
    destruct (R !! r) as [v|]; [|done]. injection Hvs as <-. exists b, v. by split.
Qed.
End Blocks.

(** C7: The emitter's stack simulation is right: the stack code of a block
    computes what its registers say.  For any machine whose opcodes take and put
    back the cells their handlers do, and any straight instructions each of
    which finds its operands named, none repeated next to itself, within 255
    cells: each instruction's code is a run of [DupN] copies and then the
    opcodes the table [own_code] gives for the instruction, with its own fields
    as operands and with indices that name its constants and its closure's
    prototype in the pools the block ends with (while those hold at most 65536
    entries, which the constant pool is kept to), whose stack effect is exactly
    its operands and its result.  From any stack that holds the registers'
    values in the named cells, running the code gives each instruction's opcodes
    the values of its operands in order, ends with a stack that holds the
    registers' new values, and fails exactly when an opcode fails on those
    values.  A [Return] behind them is copies and the opcode, and finds the
    value of its register on top. *)
Theorem block_code_simulates {Arena V W} (eval : Instruction -> list Operand -> W -> list V -> option (list V * W))
    heap_eq arena_write F h code (e e1 : Emitter Arena) :
  sim_ok e -> block_ready heap_eq arena_write F h code e = true ->
  for_each code (emit_located heap_eq arena_write F h) e = Some e1 ->
  exists ps : pieces, wrote e e1 (piece_code ps) /\ sim_ok e1 /\
    Forall2 (fun i p => Forall is_dup p.1 /\ own_code heap_eq h i e1 p.2 /\
                        depth p.2 (length (operands i)) = Some (length (option_list (leaves i)))) code.*1 ps /\
    (N.of_nat (length (constants (e_bc e))) <= 2 ^ 16 -> N.of_nat (length (constants (e_bc e1))) <= 2 ^ 16)%N /\
    (forall R st w, agree R e st ->
      match lir_run eval (zip code.*1 ps.*2) (R, w) with
      | Some (R', w') => exists st', run eval (piece_code ps) (w, st) = Some (w', st') /\ agree R' e1 st'
      | None => run eval (piece_code ps) (w, st) = None
      end) /\
    forall r e2, is_Some (e_map e1 !! r) -> length (e_stack e1) <= 254 -> emit_terminator (Return r) e1 = Some e2 ->
      exists pre, Forall is_dup pre /\ wrote e e2 (piece_code ps ++ pre ++ [(B_Return, [])]) /\
      forall R st w R' w', agree R e st -> lir_run eval (zip code.*1 ps.*2) (R, w) = Some (R', w') ->
        exists b v, run eval (piece_code ps ++ pre) (w, st) = Some (w', b ++ [v]) /\ R' !! r = Some v.
Proof.
  intros Hok Hr E. destruct (block_runs eval heap_eq arena_write F h code e e1 Hok Hr E) as (ps & Hw & Hok1 & Hg & Hd & H).
  exists ps. split_and!; [done..|apply Hg|done|]. intros r e2 Hn Hl E2.
  destruct (return_finds eval r e1 e2 Hok1 Hn Hl E2) as (pre & Hdup & Hw2 & Hret). exists pre.
  split_and!; [done|by eapply wrote_app|].
  intros R st w R' w' Ha El. specialize (H R st w Ha). rewrite El in H. destruct H as (st' & Er & Ha').
  destruct (Hret R' st' w' Ha') as (b & v & Er' & Hv). exists b, v. by rewrite run_app, Er.
Qed.

(** C8: What an edge drops, nobody reads.  The trim in front of a jump writes
    only [Pop]s, and the machine's stack and the simulation shrink together.  An
    edge back to an emitted block arrives at exactly the depth the block was
    emitted at (or below, when it was there already) and keeps every named cell
    under that depth.  An edge forward keeps every named cell and drops only
    orphans above the depth already fixed, of registers that no path from the
    target reads before writing. *)
Theorem edge_trim_sound {Arena V W} (eval : Instruction -> list Operand -> W -> list V -> option (list V * W))
    v bs label (e e' : Emitter Arena) :
  mapM (read_lblock (parts v)) (v_blocks v) = Some bs -> NoDup (l_label <$> bs) -> live_in v = Some (e_live e) ->
  sim_ok e -> trim_for_edge label e = Some e' ->
  exists k, wrote e e' (replicate k (B_Pop, [])) /\ k <= length (e_stack e) /\
    e_stack e' = take (length (e_stack e) - k) (e_stack e) /\ sim_ok e' /\
    (forall R st w, agree R e st ->
       run eval (replicate k (B_Pop, [])) (w, st) = Some (w, take (length st - k) st) /\
       agree R e' (take (length st - k) st)) /\
    match e_depth e !! label with
    | Some floor =>
      length (e_stack e') = Nat.min floor (length (e_stack e)) /\
      forall r p, e_map e' !! r = Some p <-> e_map e !! r = Some p /\ p < floor
    | None =>
      e_map e' = e_map e /\ (0 < k -> default 0 (edge_depth e label) <= length (e_stack e')) /\
      forall p r, length (e_stack e') <= p -> e_stack e !! p = Some r ->
        e_map e !! r <> Some p /\ ~ live_into bs label r
    end.
Proof.
  intros Hbs Hnd Hlive Hok. unfold trim_for_edge. destruct (e_depth e !! label) as [floor|].
  - intros E. destruct (pop_to_spec floor _ e e' Hok (le_n _) E) as (Hw & Hs & Hm).
    assert (Hl : length (e_stack e) - (length (e_stack e) - floor) = Nat.min floor (length (e_stack e))) by lia.
    exists (length (e_stack e) - floor). rewrite Hl.
    assert (Hs' : e_stack e' = take (floor `min` length (e_stack e)) (e_stack e)).
    { rewrite Hs. by destruct (Nat.min_spec floor (length (e_stack e))) as [[? ->]|[? ->]]; [|rewrite take_ge, firstn_all by lia]. }
    split_and!; [done | lia | done | | | by rewrite Hs', length_take; lia | done].
    + intros r p [Hp Hlt]%Hm. rewrite Hs, lookup_take_lt by done. by apply Hok.
    + intros R st w [Ha1 Ha2]. rewrite run_pops by lia. split; [done|]. rewrite Ha1, Hl.
      split; [rewrite Hs', !length_take; lia|]. intros r p [Hp Hlt]%Hm.
      pose proof (lookup_lt_Some _ _ _ (Hok _ _ Hp)). rewrite lookup_take_lt by lia. by apply Ha2.
  - intros E. destruct (pop_dead_spec _ _ _ e e' E) as (k & Hw & Hk & Hs & Hm & Hf & Hd).
    assert (Hlen : length (e_stack e') = length (e_stack e) - k) by (rewrite Hs, length_take; lia).
    assert (Hkeep : forall r p, e_map e !! r = Some p -> p < length (e_stack e) - k).
    { intros r p Hp. destruct (decide (p < length (e_stack e) - k)) as [|Hge]; [done|].
      destruct (Hd p r ltac:(lia) (Hok _ _ Hp)) as [Hne _]. done. }
    exists k. split_and!; [done | done | done | | | done | by rewrite Hlen|].
    + intros r p. rewrite Hm. intros Hp. rewrite Hs, lookup_take_lt by eauto. by apply Hok.
    + intros R st w [Ha1 Ha2]. rewrite run_pops by lia. split; [done|]. rewrite Ha1.
      split; [rewrite Hlen, length_take; lia|]. intros r p. rewrite Hm. intros Hp.
      rewrite lookup_take_lt by eauto. by apply Ha2.
    + intros p r Hp Hr. rewrite Hlen in Hp. destruct (Hd p r Hp Hr) as [H1 H2]. split; [done|]. intros Hl.
      assert (exists b, b ∈ bs /\ l_label b = label) as (b & Hb & <-) by (inversion Hl; subst; eauto).
      apply (live_in_sets v bs _ b r Hbs Hnd Hlive Hb) in Hl as (s & Es & Hc).
      unfold live_at in H2. rewrite Es in H2. congruence.
Qed.

(** ** Witnesses *)

(** [7 - 5] with the operands loaded in the wrong order. *)
Definition sim_sample : list (InstrRef * Span) :=
  [ (I_Const 0 (C_Int 5), Span_synthetic); (I_Const 1 (C_Int 7), Span_synthetic);
    (I_BinOp 2 Sub 1 0 Unproven, Span_synthetic) ].

Definition sim_start : Emitter unit := Emitter_new tt.
Definition sim_nothing (a : unit) (_ : LirOwned) (_ : nat) (_ : ClosureCompiled) : Value * unit := (V_NIL, a).

(** A machine over integers with that constant pool. *)
Definition sim_eval (i : Instruction) (os : list Operand) (w : unit) (args : list Z) : option (list Z * unit) :=
  match i, os, args with
  | B_LoadConst, [U16 0], [] => Some ([5%Z], w)
  | B_LoadConst, [U16 1], [] => Some ([7%Z], w)
  | B_Sub, [], [a; b] => Some ([(a - b)%Z], w)
  | _, _, _ => None
  end.

Lemma block_code_simulates_witness :
  exists e1 (ps : pieces), wrote sim_start e1 (piece_code ps) /\ sim_ok e1 /\
    Forall2 (fun i p => own_code (fun _ _ => false) (v_head sample_live_view) i e1 p.2) sim_sample.*1 ps /\
    forall w, match lir_run sim_eval (zip sim_sample.*1 ps.*2) (∅, w) with
      | Some (R', w') => exists st', run sim_eval (piece_code ps) (w, []) = Some (w', st') /\ agree R' e1 st'
      | None => run sim_eval (piece_code ps) (w, []) = None
      end.
Proof.
  destruct (for_each sim_sample (emit_located (fun _ _ => false) sim_nothing FILES_init (v_head sample_live_view)) sim_start)
    as [e1|] eqn:E; [|vm_compute in E; discriminate].
  destruct (block_code_simulates sim_eval (fun _ _ => false) sim_nothing FILES_init (v_head sample_live_view)
              sim_sample sim_start e1) as (ps & H1 & H2 & H4 & _ & H3 & _).
  - by intros r p.
  - vm_compute. reflexivity.
  - exact E.
  - exists e1, ps. split; [exact H1|]. split; [exact H2|]. split; [|intros w; apply H3; split; [done|]; by intros r p].
    eapply Forall2_impl; [exact H4|]. by intros i p (_ & ? & _).
Defined.

(** Into block 2, which returns register 1: the orphan of 9 goes, that of 1
    stays. *)
Definition trim_start : Emitter unit :=
  set_sim (reset sample_live_view (default ∅ (live_in sample_live_view)) (Emitter_new tt)) [1; 9]%N ∅.

Lemma edge_trim_sound_witness :
  exists e' k, trim_for_edge 2 trim_start = Some e' /\ wrote trim_start e' (replicate k (B_Pop, [])) /\
    e_stack e' = [1]%N /\ forall p r, 1 <= p -> e_stack trim_start !! p = Some r -> ~ live_into sample_lblocks 2 r.
Proof.
  destruct (trim_for_edge 2 trim_start) as [e'|] eqn:E; [|vm_compute in E; discriminate].
  assert (Es : e_stack e' = [1]%N) by (vm_compute in E; by injection E as <-).
  destruct (edge_trim_sound (V := Z) (fun _ _ (w : unit) _ => None) sample_live_view sample_lblocks 2 trim_start e')
    as (k & H1 & _ & _ & _ & _ & H2).
  - vm_compute. reflexivity.
  - apply (bool_decide_eq_true_1 _). vm_compute. reflexivity.
  - vm_compute. reflexivity.
  - by intros r p.
  - exact E.
  - exists e', k. split; [done|]. split; [done|]. split; [done|]. intros p r Hp Hr.
    destruct H2 as (_ & _ & H2). apply (H2 p r); [by rewrite Es | done].
Defined.
