(* ===== verification/Text.v ===== *)
(** * Source text

    What the reader uses of Rust's [char] and [str]: a character is its Unicode
    scalar value, a text the list of its characters, and a byte offset the sum
    of the characters' UTF-8 lengths.  [char::is_alphabetic] above ASCII is a
    table of the standard library that no lemma looks into, so it is the one
    field of the class [Unicode]; everything else is written out.  Integers are
    parsed as [i64::from_str_radix] and [str::parse] do and printed as
    [Display] does; [parse_show_i64] is their round trip. *)

From stdpp Require Import base numbers option list strings.
From S2P Require Import Prelude.
From Stdlib Require Ascii String.

Local Open Scope N_scope.

Abbreviation Char := N (only parsing).
Abbreviation Text := (list N) (only parsing).

(** A literal of the source. *)
Definition text (s : string) : Text := map Ascii.N_of_ascii (String.list_ascii_of_string s).

(** ** Outcomes

    A [Result], with a panic and an exhausted fuel told apart from both. *)

Inductive Out (E A : Type) := Ok (a : A) | Err (e : E) | Panics | Starved.
Arguments Ok {_ _}. Arguments Err {_ _}. Arguments Panics {_ _}. Arguments Starved {_ _}.

#[export] Instance Out_bind E : MBind (Out E) := fun A B f m =>
  match m with Ok a => f a | Err e => Err e | Panics => Panics | Starved => Starved end.

(** No panic and no starvation, and [P] of a result. *)
Definition yields {E A} (m : Out E A) (P : A -> Prop) : Prop :=
  match m with Ok a => P a | Err _ => True | _ => False end.

Lemma yields_bind {E A B} (m : Out E A) (f : A -> Out E B) (P : A -> Prop) (Q : B -> Prop) :
  yields m P -> (forall a, P a -> yields (f a) Q) -> yields (m ≫= f) Q.
Proof. destruct m; cbn; auto. Qed.

Lemma yields_mono {E A} (m : Out E A) (P Q : A -> Prop) :
  yields m P -> (forall a, P a -> Q a) -> yields m Q.
Proof. destruct m; cbn; auto. Qed.

(** ** Characters *)

Definition NEWLINE : Char := 10.
Definition SPACE : Char := 32.
Definition BANG : Char := 33.
Definition QUOTE : Char := 34.
Definition HASH : Char := 35.
Definition TICK : Char := 39.
Definition LPAREN : Char := 40.
Definition RPAREN : Char := 41.
Definition PLUS : Char := 43.
Definition COMMA : Char := 44.
Definition MINUS : Char := 45.
Definition DOT : Char := 46.
Definition ZERO : Char := 48.
Definition COLON : Char := 58.
Definition SEMI : Char := 59.
Definition AT : Char := 64.
Definition LBRACKET : Char := 91.
Definition BACKSLASH : Char := 92.
Definition RBRACKET : Char := 93.
Definition UNDERSCORE : Char := 95.
Definition BACKTICK : Char := 96.
Definition LOWER_B : Char := 98.
Definition LOWER_E : Char := 101.
Definition UPPER_E : Char := 69.
Definition LBRACE : Char := 123.
Definition PIPE : Char := 124.
Definition RBRACE : Char := 125.

(** [char::len_utf8] *)
Definition len_utf8 (c : Char) : N :=
  if c <? 0x80 then 1 else if c <? 0x800 then 2 else if c <? 0x10000 then 3 else 4.

(** The bytes of a text. *)
Fixpoint blen (t : Text) : N := match t with [] => 0 | c :: t => len_utf8 c + blen t end.

(** The slices up to and from a byte offset; [None] where the offset splits a
    character or lies past the end, where Rust panics. *)
Fixpoint split_bytes (n : N) (t : Text) : option (Text * Text) :=
  if n =? 0 then Some ([], t) else
  match t with
  | [] => None
  | c :: t => if len_utf8 c <=? n
              then '(a, b) ← split_bytes (n - len_utf8 c) t; Some (c :: a, b) else None
  end.

Definition in_range (lo hi c : Char) : bool := (lo <=? c) && (c <=? hi).

Definition is_ascii_digit (c : Char) : bool := in_range 48 57 c.
Definition is_ascii_alphabetic (c : Char) : bool := in_range 65 90 c || in_range 97 122 c.
Definition is_ascii_alphanumeric (c : Char) : bool := is_ascii_digit c || is_ascii_alphabetic c.
Definition is_ascii_hexdigit (c : Char) : bool :=
  is_ascii_digit c || in_range 65 70 c || in_range 97 102 c.
Definition to_ascii_lowercase (c : Char) : Char := if in_range 65 90 c then c + 32 else c.

(** [char::is_whitespace]: the Unicode property White_Space. *)
Definition is_whitespace (c : Char) : bool :=
  in_range 9 13 c || (c =? SPACE) || (c =? 0x85) || (c =? 0xA0) || (c =? 0x1680)
  || in_range 0x2000 0x200A c || in_range 0x2028 0x2029 c || (c =? 0x202F)
  || (c =? 0x205F) || (c =? 0x3000).

(** No whitespace is alphabetic. *)
Class Unicode := wide_alphabetic : Char -> bool.

Definition is_alphabetic `{Unicode} (c : Char) : bool :=
  if c <? 128 then is_ascii_alphabetic c else wide_alphabetic c && negb (is_whitespace c).

(** [char::from_u32] *)
Definition from_u32 (n : N) : option Char :=
  if (n <? 0xD800) || in_range 0xE000 0x10FFFF n then Some n else None.

(** ** Integers as text *)

(** [char::to_digit] *)
Definition to_digit (radix : N) (c : Char) : option N :=
  let d := if is_ascii_digit c then Some (c - 48)
           else if in_range 65 90 c then Some (c - 55)
           else if in_range 97 122 c then Some (c - 87) else None in
  match d with Some d => if d <? radix then Some d else None | None => None end.

Fixpoint digits_value (radix acc : N) (t : Text) : option N :=
  match t with
  | [] => Some acc
  | c :: t => match to_digit radix c with
              | Some d => digits_value radix (acc * radix + d) t
              | None => None
              end
  end.

Definition i64_range (z : Z) : bool := ((- 2 ^ 63 <=? z) && (z <? 2 ^ 63))%Z.

(** [i64::from_str_radix]: an optional sign and at least one digit; a value
    outside the type is an error. *)
Definition from_str_radix (radix : N) (t : Text) : option Z :=
  let '(neg, digits) :=
    match t with
    | c :: r => if c =? MINUS then (true, r) else if c =? PLUS then (false, r) else (false, t)
    | [] => (false, t)
    end in
  match digits with
  | [] => None
  | _ =>
    match digits_value radix 0 digits with
    | Some n =>
      let z := if neg then (- Z.of_N n)%Z else Z.of_N n in
      if i64_range z then Some z else None
    | None => None
    end
  end.

(** [str::parse::<i64>] *)
Definition parse_i64 (t : Text) : option Z := from_str_radix 10 t.

Fixpoint show_digits (k : nat) (n : N) (acc : Text) : Text :=
  match k with
  | O => acc
  | S k => let acc := 48 + n mod 10 :: acc in
           if n / 10 =? 0 then acc else show_digits k (n / 10) acc
  end.

(** [Display] of an [i64], whose magnitude has at most nineteen digits. *)
Definition show_i64 (z : Z) : Text :=
  if (z <? 0)%Z then MINUS :: show_digits 19 (Z.abs_N z) [] else show_digits 19 (Z.abs_N z) [].

(** ** Lemmas *)

Lemma blen_app a b : blen (a ++ b) = blen a + blen b.
Proof. induction a as [|c a IH]; cbn; [lia|]. rewrite IH. lia. Qed.

Lemma len_utf8_pos c : 1 <= len_utf8 c.
Proof. unfold len_utf8. repeat case_match; lia. Qed.

Lemma len_utf8_ascii c : c < 128 -> len_utf8 c = 1.
Proof. unfold len_utf8. intros H. case_match eqn:E; [done|]. apply N.ltb_ge in E. lia. Qed.

Lemma blen_pos t : t <> [] -> 1 <= blen t.
Proof. destruct t as [|c t]; [done|]. cbn. pose proof (len_utf8_pos c). lia. Qed.

Lemma blen_ascii t : Forall (fun c => c < 128) t -> blen t = N.of_nat (length t).
Proof. induction 1 as [|c t Hc _ IH]; cbn; [done|]. rewrite len_utf8_ascii, IH by done. lia. Qed.

Lemma blen_length t : N.of_nat (length t) <= blen t.
Proof. induction t as [|c t IH]; cbn; [lia|]. pose proof (len_utf8_pos c). lia. Qed.

Lemma split_bytes_app a b : split_bytes (blen a) (a ++ b) = Some (a, b).
Proof.
  induction a as [|c a IH]; cbn; [by destruct b|].
  pose proof (len_utf8_pos c).
  destruct (N.eqb_spec (len_utf8 c + blen a) 0); [lia|].
  destruct (N.leb_spec (len_utf8 c) (len_utf8 c + blen a)); [|lia].
  replace (len_utf8 c + blen a - len_utf8 c) with (blen a) by lia. by rewrite IH.
Qed.

Lemma in_range_spec lo hi c : in_range lo hi c = true <-> lo <= c <= hi.
Proof. unfold in_range. rewrite andb_true_iff, !N.leb_le. done. Qed.

Lemma is_ascii_digit_spec c : is_ascii_digit c = true <-> 48 <= c <= 57.
Proof. apply in_range_spec. Qed.

Lemma to_digit_decimal d : d < 10 -> to_digit 10 (48 + d) = Some d.
Proof.
  intros Hd. unfold to_digit.
  assert (is_ascii_digit (48 + d) = true) as -> by (apply is_ascii_digit_spec; lia).
  replace (48 + d - 48) with d by lia. by rewrite (proj2 (N.ltb_lt d 10)).
Qed.

Lemma mod_10 n : n mod 10 < 10.
Proof. by apply N.mod_lt. Qed.

Lemma digit_of_mod n : is_ascii_digit (48 + n mod 10) = true.
Proof. apply is_ascii_digit_spec. pose proof (mod_10 n) as H. revert H. generalize (n mod 10). lia. Qed.

Lemma digits_value_app radix acc a b :
  digits_value radix acc (a ++ b) = digits_value radix acc a ≫= fun v => digits_value radix v b.
Proof. revert acc. induction a as [|c a IH]; intros acc; cbn; [done|]. case_match; auto. Qed.

(** The digits of [n], most significant first, before what was written. *)
Lemma show_digits_split k n acc : n < 10 ^ N.of_nat k -> (0 < k)%nat ->
  exists ds, show_digits k n acc = ds ++ acc /\ ds <> []
    /\ Forall (fun c => is_ascii_digit c = true) ds
    /\ forall v, digits_value 10 v ds = Some (v * 10 ^ N.of_nat (length ds) + n).
Proof.
  revert n acc. induction k as [|k IH]; intros n acc Hn Hk; [lia|]. cbn [show_digits].
  pose proof (mod_10 n) as Hm. pose proof (N.div_mod n 10 ltac:(done)) as Hdm. pose proof (digit_of_mod n) as Hd.
  destruct (N.eqb_spec (n / 10) 0) as [Hz|Hz].
  - exists [48 + n mod 10]. split; [done|]. split; [done|]. split; [by constructor|]. intros v.
    cbn [digits_value length]. rewrite to_digit_decimal by exact Hm. f_equal. clear Hn IH. change (10 ^ N.of_nat 1) with 10.
    revert Hdm. rewrite Hz. generalize (n mod 10). lia.
  - rewrite Nat2N.inj_succ, N.pow_succ_r' in Hn.
    assert (n / 10 < 10 ^ N.of_nat k) by (by apply N.Div0.div_lt_upper_bound).
    destruct k as [|k]; [exfalso; change (10 ^ N.of_nat 0) with 1 in *; lia|].
    destruct (IH (n / 10) (48 + n mod 10 :: acc)) as (ds & -> & _ & Hds & Hv); [done|lia|].
    exists (ds ++ [48 + n mod 10]). rewrite <- app_assoc. split; [done|]. split; [by destruct ds|].
    split; [apply Forall_app; auto|]. intros v. rewrite digits_value_app, Hv. cbn [mbind option_bind].
    cbn [digits_value]. rewrite to_digit_decimal, length_app by exact Hm. f_equal. cbn [length].
    rewrite Nat.add_1_r, Nat2N.inj_succ, N.pow_succ_r'. clear Hn IH Hv.
    revert Hdm. generalize (n mod 10) (n / 10). intros ? ? ->. ring.
Qed.

Lemma show_digits_spec n : n < 10 ^ 19 ->
  exists ds, show_digits 19 n [] = ds /\ ds <> []
    /\ Forall (fun c => is_ascii_digit c = true) ds /\ digits_value 10 0 ds = Some n.
Proof.
  intros Hn. destruct (show_digits_split 19 n []) as (ds & H1 & H2 & H3 & H4); [done|lia|].
  exists ds. rewrite app_nil_r in H1. repeat split; auto.
Qed.

Lemma i64_range_spec z : i64_range z = true <-> (- 2 ^ 63 <= z < 2 ^ 63)%Z.
Proof. unfold i64_range. rewrite andb_true_iff, Z.leb_le, Z.ltb_lt. done. Qed.

Lemma digit_not_sign c : is_ascii_digit c = true -> c <> MINUS /\ c <> PLUS.
Proof. rewrite is_ascii_digit_spec. unfold MINUS, PLUS. lia. Qed.

Lemma from_str_radix_digits radix ds n : ds <> [] -> Forall (fun c => c <> MINUS /\ c <> PLUS) ds ->
  digits_value radix 0 ds = Some n ->
  from_str_radix radix ds = if i64_range (Z.of_N n) then Some (Z.of_N n) else None.
Proof.
  intros Hne Hds Hn. destruct ds as [|c ds]; [done|]. apply Forall_cons in Hds as [[H1 H2] _].
  unfold from_str_radix. apply N.eqb_neq in H1, H2. rewrite H1, H2. by rewrite Hn.
Qed.

(** What [Display] writes [parse] reads, on the whole type. *)
Lemma parse_show_i64 z : i64_range z = true -> parse_i64 (show_i64 z) = Some z.
Proof.
  intros Hz. pose proof Hz as Hr. apply i64_range_spec in Hr. unfold show_i64.
  destruct (show_digits_spec (Z.abs_N z)) as (ds & -> & Hne & Hd & Hv); [lia|].
  destruct (Z.ltb_spec z 0).
  - unfold parse_i64, from_str_radix. change (MINUS =? MINUS) with true. cbn match.
    destruct ds as [|c ds]; [done|]. rewrite Hv. cbn zeta.
    replace (- Z.of_N (Z.abs_N z))%Z with z by lia. by rewrite Hz.
  - unfold parse_i64. rewrite (from_str_radix_digits 10 ds (Z.abs_N z) Hne (Forall_impl _ _ _ Hd digit_not_sign) Hv).
    replace (Z.of_N (Z.abs_N z)) with z by lia. by rewrite Hz.
Qed.
