(* ===== verification/Escape.v ===== *)
(** * String escapes

    [reader/escape.rs]: the escapes a string literal may carry under the lenient
    rules of epochs 0 to 12 and the strict rules since, the spelling of a string
    that both read back ([StringLiteral]), and the respelling of a literal from
    one set of rules to the other.  An error is its kind; the message is not
    kept.

    [spells e b s] says that the body [b] of a literal stands for [s] under the
    rules [e]: [LexerProps] shows that the lexer reads exactly that. *)

From stdpp Require Import base numbers option list sets.
From S2P Require Import Prelude Text.

Local Open Scope N_scope.

(** [SHARED] *)
Definition SHARED : list (Char * Char) :=
  [(110, 10); (116, 9); (114, 13); (BACKSLASH, BACKSLASH); (QUOTE, QUOTE)].

Inductive StringEscapes := Lenient | Strict.

#[export] Instance StringEscapes_eq_dec : EqDecision StringEscapes.
Proof. solve_decision. Defined.

Record Decoded := mkDecoded { de_ch : Char; de_len : N }.

#[export] Instance Decoded_eq_dec : EqDecision Decoded.
Proof. solve_decision. Defined.

Inductive EscapeError :=
| EE_Unterminated
| EE_HexShape
| EE_HexRange
| EE_UnicodeShape
| EE_NotScalar
| EE_Unknown (c : Char)
| EE_NotALiteral.

(** [decode_hex]: [after] starts at the [x].  Two bytes that are hex digits are
    two characters that are. *)
Definition decode_hex (after : Text) : Out EscapeError Decoded :=
  match after with
  | _ :: a :: b :: _ =>
    if is_ascii_hexdigit a && is_ascii_hexdigit b then
      match digits_value 16 0 [a; b] with
      | Some byte => if byte <=? 0x7f then Ok (mkDecoded byte 3) else Err EE_HexRange
      | None => Err EE_HexRange
      end
    else Err EE_HexShape
  | _ => Err EE_HexShape
  end.

Fixpoint take_while (p : Char -> bool) (t : Text) : Text :=
  match t with [] => [] | c :: t => if p c then c :: take_while p t else [] end.

(** [decode_unicode]: [after] starts at the [u]. *)
Definition decode_unicode (after : Text) : Out EscapeError Decoded :=
  match after with
  | _ :: c :: inner =>
    if c =? LBRACE then
      let digits := take_while is_ascii_hexdigit inner in
      let n := length digits in
      if (n =? 0)%nat || (6 <? n)%nat || negb (bool_decide (drop n inner !! 0%nat = Some RBRACE))
      then Err EE_UnicodeShape
      else match digits_value 16 0 digits ≫= from_u32 with
           | Some ch => Ok (mkDecoded ch (N.of_nat n + 3))
           | None => Err EE_NotScalar
           end
    else Err EE_UnicodeShape
  | _ => Err EE_UnicodeShape
  end.

(** [StringEscapes::decode] *)
Definition decode (self : StringEscapes) (after : Text) : Out EscapeError Decoded :=
  match after with
  | [] => Err EE_Unterminated
  | c :: _ =>
    match list_find (fun p => p.1 = c) SHARED with
    | Some (_, (_, ch)) => Ok (mkDecoded ch 1)
    | None =>
      match self with
      | Lenient => Ok (mkDecoded c (len_utf8 c))
      | Strict =>
        if c =? ZERO then Ok (mkDecoded 0 1)
        else if c =? 120 then decode_hex after
        else if c =? 117 then decode_unicode after
        else Err (EE_Unknown c)
      end
    end
  end.

(** [write_char] *)
Definition write_char (ch : Char) : Text :=
  match list_find (fun p => p.2 = ch) SHARED with
  | Some (_, (escape, _)) => [BACKSLASH; escape]
  | None => [ch]
  end.

(** [Display] for [StringLiteral] *)
Definition StringLiteral (s : Text) : Text := QUOTE :: concat (map write_char s) ++ [QUOTE].

(** The text up to the first backslash and the text after it. *)
Fixpoint find_backslash (t : Text) : option (Text * Text) :=
  match t with
  | [] => None
  | c :: t => if c =? BACKSLASH then Some ([], t)
              else '(before, after) ← find_backslash t; Some (c :: before, after)
  end.

(** The loop of [respell]. *)
Fixpoint respell_loop (n : nat) (self target : StringEscapes) (rest out : Text) (changed : bool)
    : Out EscapeError (Text * bool) :=
  match n with
  | O => Starved
  | S n =>
    match find_backslash rest with
    | None => Ok (out ++ rest, changed)
    | Some (before, after) =>
      let out := out ++ before in
      escape ← decode self after;
      match split_bytes (de_len escape) after with
      | None => Panics
      | Some (kept, rest) =>
        match decode target after with
        | Ok escape' =>
          if decide (escape' = escape)
          then respell_loop n self target rest (out ++ BACKSLASH :: kept) changed
          else respell_loop n self target rest (out ++ write_char (de_ch escape)) true
        | _ => respell_loop n self target rest (out ++ write_char (de_ch escape)) true
        end
      end
    end
  end.

(** [strip_prefix] and [strip_suffix] of the quotes. *)
Definition strip_quotes (lexeme : Text) : option Text :=
  match lexeme with
  | c :: l => if (c =? QUOTE) && bool_decide (last l = Some QUOTE)
              then Some (take (length l - 1) l) else None
  | [] => None
  end.

Definition respell (self : StringEscapes) (lexeme : Text) (target : StringEscapes)
    : Out EscapeError (option Text) :=
  match strip_quotes lexeme with
  | None => Err EE_NotALiteral
  | Some body =>
    '(out, changed) ← respell_loop (S (length body)) self target body [QUOTE] false;
    Ok (if (changed : bool) then Some (out ++ [QUOTE]) else None)
  end.

(** ** What a body stands for *)

Inductive spells (e : StringEscapes) : Text -> Text -> Prop :=
| spells_nil : spells e [] []
| spells_char c b s : c <> QUOTE -> c <> BACKSLASH -> spells e b s -> spells e (c :: b) (c :: s)
| spells_escape x ch b s : x <> [] ->
    (forall r, decode e (x ++ r) = Ok (mkDecoded ch (blen x))) ->
    spells e b s -> spells e (BACKSLASH :: x ++ b) (ch :: s).

(** ** Decoding looks no further than what it consumes *)

Lemma take_while_split p t : exists r, t = take_while p t ++ r /\ match r with [] => True | c :: _ => p c = false end.
Proof.
  induction t as [|c t [r [Ht Hr]]]; cbn; [by exists []|]. destruct (p c) eqn:E.
  - exists r. split; [cbn; by f_equal | done].
  - by exists (c :: t).
Qed.

Lemma take_while_all p t : Forall (fun c => p c = true) (take_while p t).
Proof. induction t as [|c t IH]; cbn; [constructor|]. destruct (p c) eqn:E; [by constructor | constructor]. Qed.

Lemma take_while_app p a r : Forall (fun c => p c = true) a ->
  match r with [] => True | c :: _ => p c = false end -> take_while p (a ++ r) = a.
Proof.
  induction 1 as [|c a Hc _ IH]; cbn; intros Hr.
  - destruct r; cbn; [done|]. by rewrite Hr.
  - rewrite Hc. f_equal. auto.
Qed.

Lemma hexdigit_ascii c : is_ascii_hexdigit c = true -> c < 128.
Proof.
  unfold is_ascii_hexdigit. rewrite !orb_true_iff. rewrite is_ascii_digit_spec, !in_range_spec. lia.
Qed.

(** What it consumes decides. *)
Definition decided (e : StringEscapes) (x : Text) (d : Decoded) : Prop :=
  x <> [] /\ de_len d = blen x /\ forall r, decode e (x ++ r) = Ok d.

Lemma decode_hex_prefix after d : decode_hex after = Ok d ->
  exists c a b r, after = c :: a :: b :: r /\ de_len d = 3 /\ a < 128 /\ b < 128
    /\ forall r', decode_hex (c :: a :: b :: r') = Ok d.
Proof.
  destruct after as [|c [|a [|b r]]]; [done..|]. cbn [decode_hex].
  destruct (is_ascii_hexdigit a && is_ascii_hexdigit b) eqn:Hab; [|done].
  intros H. exists c, a, b, r. rewrite Hab. pose proof Hab as [Ha Hb]%andb_true_iff.
  repeat split; auto using hexdigit_ascii. destruct (digits_value 16 0 [a; b]) as [byte|]; [|done]. destruct (byte <=? 0x7f); [|done].
  by injection H as <-.
Qed.

Lemma decode_unicode_prefix after d : decode_unicode after = Ok d ->
  exists c ds r, after = c :: LBRACE :: ds ++ RBRACE :: r /\ de_len d = N.of_nat (length ds) + 3
    /\ Forall (fun c => is_ascii_hexdigit c = true) ds
    /\ forall r', decode_unicode (c :: LBRACE :: ds ++ RBRACE :: r') = Ok d.
Proof.
  destruct after as [|c [|l inner]]; [done..|]. cbn [decode_unicode].
  destruct (N.eqb_spec l LBRACE) as [->|]; [|done].
  destruct (take_while_split is_ascii_hexdigit inner) as [r [Hin _]].
  pose proof (take_while_all is_ascii_hexdigit inner) as Hall.
  set (ds := take_while is_ascii_hexdigit inner) in *. rewrite Hin, drop_app_length.
  destruct ((length ds =? 0)%nat || (6 <? length ds)%nat
     || negb (bool_decide (r !! 0%nat = Some RBRACE))) eqn:Hc; [done|].
  apply orb_false_iff in Hc as [Hn Hr]. apply negb_false_iff, bool_decide_eq_true in Hr.
  destruct r as [|x r]; [done|]. injection Hr as ->.
  destruct (digits_value 16 0 ds ≫= from_u32) as [ch|] eqn:Hv; [|done]. intros [= <-].
  exists c, ds, r. repeat split; [exact Hall|]. intros r'. cbn [decode_unicode]. rewrite N.eqb_refl.
  rewrite (take_while_app is_ascii_hexdigit ds (RBRACE :: r')) by done. rewrite drop_app_length, Hn. cbn.
  by rewrite Hv.
Qed.

Lemma decode_prefix e t d : decode e t = Ok d -> exists x r, t = x ++ r /\ decided e x d.
Proof.
  unfold decided. destruct t as [|c t]; [done|]. cbn [decode].
  destruct (list_find (fun p => p.1 = c) SHARED) as [[i [esc ch]]|] eqn:Hf.
  - intros [= <-]. exists [c], t. repeat split; [done| |intros r; cbn [decode app]; by rewrite Hf].
    apply list_find_Some in Hf as (Hi & Hc & _). cbn in Hc. subst esc. cbn. rewrite len_utf8_ascii; [done|].
    apply list_elem_of_lookup_2 in Hi. unfold SHARED in Hi. set_unfold in Hi. unfold QUOTE, BACKSLASH in *. naive_solver.
  - destruct e.
    + intros [= <-]. exists [c], t. repeat split; [done|cbn; lia|intros r; cbn [decode app]; by rewrite Hf].
    + destruct (N.eqb_spec c ZERO) as [->|H0]; [|destruct (N.eqb_spec c 120) as [->|Hx]; [|destruct (N.eqb_spec c 117) as [->|Hu]; [|done]]].
      * intros [= <-]. exists [ZERO], t. split; [done|]. split; [done|]. split; [done|]. intros r. reflexivity.
      * intros H. destruct (decode_hex_prefix _ _ H) as (c' & a & b & r & [= <- ->] & Hl & Ha & Hb & Hr).
        exists [120; a; b], r. split; [done|]. split; [done|]. split; [|exact Hr].
        rewrite Hl. symmetry. apply (blen_ascii [120; a; b]). repeat constructor; auto; lia.
      * intros H. destruct (decode_unicode_prefix _ _ H) as (c' & ds & r & [= <- ->] & Hl & Hds & Hr).
        exists (117 :: LBRACE :: ds ++ [RBRACE]), r. split; [cbn; by rewrite <- app_assoc|]. split; [done|]. split.
        -- rewrite Hl. cbn [blen]. rewrite blen_app, (blen_ascii ds) by (exact (Forall_impl _ _ _ Hds hexdigit_ascii)).
           cbn. lia.
        -- intros r'. rewrite <- (Hr r'). cbn [app]. by rewrite <- app_assoc.
Qed.

Lemma decode_answers e t : yields (decode e t) (fun d => exists x r, t = x ++ r /\ decided e x d).
Proof.
  destruct (decode e t) as [d| | |] eqn:H; cbn; [by apply decode_prefix|done|exfalso..];
    revert H; unfold decode, decode_hex, decode_unicode; repeat case_match; done.
Qed.

Lemma spells_decided e x d b s : decided e x d -> spells e b s ->
  spells e (BACKSLASH :: x ++ b) (de_ch d :: s).
Proof. intros (Hx & Hl & Hd) Hs. apply spells_escape; [done| |done]. intros r. rewrite Hd, <- Hl. by destruct d. Qed.

(** A prefix is told by its length in bytes. *)
Lemma blen_prefix a b a' b' : a ++ b = a' ++ b' -> blen a = blen a' -> a = a' /\ b = b'.
Proof.
  revert a'. induction a as [|c a IH]; intros [|c' a'] H Hl; cbn in *; [done| | |].
  - pose proof (len_utf8_pos c'). lia.
  - pose proof (len_utf8_pos c). lia.
  - injection H as -> H. destruct (IH a' H) as [-> ->]; [lia|done].
Qed.

(** ** Printing and respelling *)

Lemma spells_write_char e ch b s : spells e b s -> spells e (write_char ch ++ b) (ch :: s).
Proof.
  intros Hs. unfold write_char. destruct (list_find (fun p => p.2 = ch) SHARED) as [[i [esc ch']]|] eqn:Hf.
  - apply list_find_Some in Hf as (Hi & Hc & _). cbn in Hc. subst ch'. change ([BACKSLASH; esc] ++ b) with (BACKSLASH :: [esc] ++ b).
    apply spells_escape; [done| |done]. intros r. apply list_elem_of_lookup_2 in Hi.
    unfold SHARED in Hi. set_unfold in Hi. naive_solver.
  - apply spells_char; [| |done]; intros ->; apply list_find_None in Hf; unfold SHARED in Hf;
      rewrite !Forall_cons in Hf; naive_solver.
Qed.

Lemma literal_spells e s : spells e (concat (map write_char s)) s.
Proof. induction s as [|ch s IH]; cbn; [constructor|]. by apply spells_write_char. Qed.

Lemma find_backslash_Some t before after : find_backslash t = Some (before, after) ->
  t = before ++ BACKSLASH :: after /\ BACKSLASH ∉ before.
Proof.
  revert before. induction t as [|c t IH]; intros before; cbn; [done|].
  destruct (N.eqb_spec c BACKSLASH) as [->|Hc].
  - intros [= <- <-]. split; [done|]. apply not_elem_of_nil.
  - destruct (find_backslash t) as [[b a]|]; [|done]. intros [= <- <-].
    destruct (IH b eq_refl) as [-> Hb]. split; [done|]. apply not_elem_of_cons. auto.
Qed.

Lemma find_backslash_None t : find_backslash t = None -> BACKSLASH ∉ t.
Proof.
  induction t as [|c t IH]; cbn; [intros _; apply not_elem_of_nil|].
  destruct (N.eqb_spec c BACKSLASH) as [->|Hc]; [done|].
  destruct (find_backslash t) as [[b a]|]; [done|]. intros _. apply not_elem_of_cons. auto.
Qed.

(** Characters other than the backslash stand for themselves under all rules. *)
Lemma spells_plain e b t s : BACKSLASH ∉ b -> spells e (b ++ t) s ->
  exists s', s = b ++ s' /\ spells e t s' /\ forall e' t' u, spells e' t' u -> spells e' (b ++ t') (b ++ u).
Proof.
  revert s. induction b as [|c b IH]; intros s Hb Hs; cbn in *; [by exists s|].
  apply not_elem_of_cons in Hb as [Hc Hb]. inversion Hs as [|c' b' u Hq Hbs Ht|]; subst; [|done].
  destruct (IH u Hb Ht) as (s' & -> & Hs' & Hk). exists s'. split; [done|]. split; [done|].
  intros e' t' u' Hu. by apply spells_char; auto.
Qed.

Lemma respell_loop_spec n self target rest s out changed : (length rest < n)%nat -> spells self rest s ->
  exists o ch, respell_loop n self target rest out changed = Ok (out ++ o, changed || ch)
    /\ spells target o s /\ (ch = false -> o = rest).
Proof.
  revert rest s out changed. induction n as [|n IH]; intros rest s out changed Hn Hs; [lia|]. cbn [respell_loop].
  destruct (find_backslash rest) as [[before after]|] eqn:Hf.
  - apply find_backslash_Some in Hf as [-> Hb]. destruct (spells_plain _ _ _ _ Hb Hs) as (s' & -> & Hs' & Hk).
    inversion Hs' as [|c b' u Hq Hbs Ht|x ch b u Hx Hd Hu]; subst; [done|].
    rewrite Hd. cbn [mbind Out_bind de_len de_ch]. rewrite split_bytes_app.
    rewrite !length_app in Hn. cbn [length] in Hn. rewrite length_app in Hn.
    assert (forall out', exists o c, respell_loop n self target b out' true = Ok (out' ++ o, true)
      /\ spells target o u /\ (c = false -> o = b)) as Hrest.
    { intros out'. destruct (IH b u out' true ltac:(lia) Hu) as (o & c & -> & Ho & Hc). by exists o, c. }
    assert (exists o c, respell_loop n self target b ((out ++ before) ++ write_char ch) true
        = Ok (out ++ o, changed || c) /\ spells target o (before ++ ch :: u)
        /\ (c = false -> o = before ++ BACKSLASH :: x ++ b)) as Hch.
    { destruct (Hrest ((out ++ before) ++ write_char ch)) as (o & _ & -> & Ho & _).
      exists (before ++ write_char ch ++ o), true. rewrite orb_true_r, <- !app_assoc. split; [done|].
      split; [|done]. by apply Hk, spells_write_char. }
    destruct (decode target (x ++ b)) as [d| | |] eqn:Ht; [|exact Hch..].
    destruct (decide (d = mkDecoded ch (blen x))) as [->|]; [|exact Hch].
    apply decode_prefix in Ht as (x' & r' & Hxr & Hdec). pose proof Hdec as (_ & Hl & _). cbn in Hl.
    apply blen_prefix in Hxr as [<- <-]; [|done].
    destruct (IH b u ((out ++ before) ++ BACKSLASH :: x) changed ltac:(lia) Hu) as (o & c & -> & Ho & Hc).
    exists (before ++ BACKSLASH :: x ++ o), c. rewrite <- !app_assoc. split; [done|]. split.
    + apply Hk. exact (spells_decided _ _ _ _ _ Hdec Ho).
    + intros H. by rewrite (Hc H).
  - apply find_backslash_None in Hf. exists rest, false. rewrite orb_false_r. split; [done|]. split; [|done].
    pose proof Hs as Hs'. rewrite <- (app_nil_r rest) in Hs'. destruct (spells_plain _ _ _ _ Hf Hs') as (s' & -> & Hnil & Hk).
    inversion Hnil; subst. rewrite <- (app_nil_r rest) at 1. apply Hk. constructor.
Qed.

Lemma strip_quotes_literal body : strip_quotes (QUOTE :: body ++ [QUOTE]) = Some body.
Proof.
  unfold strip_quotes. rewrite last_snoc, N.eqb_refl. cbn. rewrite length_app. cbn [length].
  replace (length body + 1 - 1)%nat with (length body) by lia. by rewrite take_app_length.
Qed.

Lemma respell_spec self target body s : spells self body s ->
  exists r, respell self (QUOTE :: body ++ [QUOTE]) target = Ok r
    /\ match r with
       | None => spells target body s
       | Some lit => exists body', lit = QUOTE :: body' ++ [QUOTE] /\ spells target body' s
       end.
Proof.
  intros Hs. unfold respell. rewrite strip_quotes_literal.
  destruct (respell_loop_spec (S (length body)) self target body s [QUOTE] false ltac:(lia) Hs) as (o & ch & -> & Ho & Hch).
  cbn [mbind Out_bind orb]. eexists. split; [done|]. destruct ch.
  - exists o. by rewrite <- app_assoc.
  - by rewrite <- Hch.
Qed.
