(* ===== verification/Lexer.v ===== *)
(** * The lexer

    [reader/token.rs], [reader/lexer.rs], [reader/numeric.rs], [epoch/rules.rs]
    ([Lexicon]) and the lexing half of [reader/mod.rs].

    The cursor is the text not yet consumed with the byte offset, line and
    column it starts at; a slice of the input is the text consumed between two
    cursors.  [peek(1)] is only used on an ASCII character, where the next byte
    is the next character.  Parsing and printing of doubles are the standard
    library's and are the class [FloatText].  An error carries what its message
    says apart from the text of the literal. *)

From stdpp Require Import base numbers option list strings.
From S2P Require Import Prelude Text Escape.

Local Open Scope N_scope.

(** ** Lexicons *)

Definition CURRENT_EPOCH : N := 15.

Record Lexicon := mkLexicon {
  comment_char : Char;
  semicolon_splices : bool;
  comma_semicolon_fuses : bool;
  string_escapes : StringEscapes }.

#[export] Instance Lexicon_eq_dec : EqDecision Lexicon.
Proof. solve_decision. Defined.

Definition for_epoch (epoch : N) : Lexicon :=
  mkLexicon HASH true true (if epoch <? 13 then Lenient else Strict).

Definition current_lexicon : Lexicon := for_epoch CURRENT_EPOCH.

(** The epochs from the current one down. *)
Definition epochs_down : list N := rev (N.of_nat <$> seq 0 16).

(** [Lexicon::older_reading_hint]: the epoch its message names. *)
Definition older_reading_hint (self : Lexicon) (reads : Lexicon -> bool) : option N :=
  snd <$> list_find (fun epoch => for_epoch epoch <> self /\ reads (for_epoch epoch) = true) epochs_down.

(** ** Tokens *)

Record SourceLoc := mkLoc { loc_file : list N; loc_line : N; loc_col : N }.

(** [UNKNOWN_FILE] *)
Definition UNKNOWN_FILE : list N := text "<unknown>".

Definition loc_start : SourceLoc := mkLoc UNKNOWN_FILE 1 1.
Definition is_unknown (l : SourceLoc) : bool := bool_decide (loc_file l = UNKNOWN_FILE).

Inductive Token :=
| LeftParen | RightParen | LeftBracket | RightBracket | LeftBrace | RightBrace
| Quote | Quasiquote | Unquote | UnquoteSplicing | Splice
| ListSugar | Pipe | AtPipe | BytesBracket | AtBytesBracket | Nil
| Symbol (s : Text)
| Keyword (s : Text)
| Integer (n : Z)
| Float (bits : N)
| String (s : Text)
| Bool (b : bool)
| Comment (s : Text).

#[export] Instance Token_eq_dec : EqDecision Token.
Proof. solve_decision. Defined.

Record TokenWithLoc := mkTok {
  tw_token : Token; tw_loc : SourceLoc; tw_len : N; tw_offset : N }.

(** [Token::shorthand_form] *)
Definition shorthand_form (t : Token) : option Text :=
  match t with
  | Quote => Some (text "quote")
  | Quasiquote => Some (text "quasiquote")
  | Unquote => Some (text "unquote")
  | UnquoteSplicing => Some (text "unquote-splicing")
  | Splice => Some (text "splice")
  | _ => None
  end.

(** The refusal of [Lexicon::respell]. *)
Inductive RespellError := RE_Escape (e : EscapeError) | RE_NoSpelling.

(** [Lexicon::respell] *)
Definition lexicon_respell (self : Lexicon) (t : Token) (lexeme : Text) (target : Lexicon)
    : Out RespellError (option Text) :=
  match t with
  | Comment s =>
    if decide (comment_char self = comment_char target) then Ok None
    else let body := match s with c :: b => if c =? comment_char self then b else s | [] => s end in
         Ok (Some (comment_char target :: body))
  | String _ =>
    if decide (string_escapes self = string_escapes target) then Ok None
    else match respell (string_escapes self) lexeme (string_escapes target) with
         | Ok r => Ok r | Err e => Err (RE_Escape e) | Panics => Panics | Starved => Starved
         end
  | Splice =>
    if semicolon_splices self && negb (semicolon_splices target) then Err RE_NoSpelling else Ok None
  | UnquoteSplicing =>
    if comma_semicolon_fuses self && negb (comma_semicolon_fuses target) then Err RE_NoSpelling
    else Ok None
  | _ => Ok None
  end.

(** [str::parse::<f64>] and [Debug] of an [f64], a double being its bits. *)
Class FloatText := {
  parse_f64 : Text -> option N;
  debug_f64 : N -> Text }.

(** ** The cursor *)

Record Lexer := mkLexer {
  lx_rest : Text; lx_pos : N; lx_line : N; lx_col : N;
  lx_file : list N; lx_lexicon : Lexicon }.

Definition Lexer_with_file (input : Text) (file : list N) : Lexer :=
  mkLexer input 0 1 1 file current_lexicon.

Definition in_lexicon (lx : Lexer) (l : Lexicon) : Lexer :=
  mkLexer (lx_rest lx) (lx_pos lx) (lx_line lx) (lx_col lx) (lx_file lx) l.

Definition get_loc (lx : Lexer) : SourceLoc := mkLoc (lx_file lx) (lx_line lx) (lx_col lx).

Definition current (lx : Lexer) : option Char := lx_rest lx !! 0%nat.

(** [peek(1)] *)
Definition peek1 (lx : Lexer) : option Char := lx_rest lx !! 1%nat.

Definition advance (lx : Lexer) : Lexer :=
  match lx_rest lx with
  | [] => lx
  | c :: r =>
    let '(line, col) := if c =? NEWLINE then (lx_line lx + 1, 1) else (lx_line lx, lx_col lx + 1) in
    mkLexer r (lx_pos lx + len_utf8 c) line col (lx_file lx) (lx_lexicon lx)
  end.

(** [spanned] *)
Definition spanned (lx : Lexer) (t : Token) (loc : SourceLoc) (start_pos : N) : TokenWithLoc :=
  mkTok t loc (lx_pos lx - start_pos) start_pos.

(** A loop [while let Some(c) = self.current()] that collects what it passes:
    it stops where [p] fails on the character and the one after it. *)
Fixpoint walk (p : Char -> option Char -> bool) (t : Text) (lx : Lexer) : Text * Lexer :=
  match t with
  | [] => ([], lx)
  | c :: t => if p c (t !! 0%nat) then let '(s, lx) := walk p t (advance lx) in (c :: s, lx)
              else ([], lx)
  end.

Definition advance_while (p : Char -> bool) (lx : Lexer) : Text * Lexer :=
  walk (fun c _ => p c) (lx_rest lx) lx.

Definition skip_whitespace (lx : Lexer) : Lexer := (advance_while is_whitespace lx).2.

(** [read_comment]: up to and with the line break. *)
Definition read_comment (lx : Lexer) : Text * Lexer :=
  let '(s, lx) := advance_while (fun c => negb (c =? NEWLINE)) lx in
  match current lx with Some c => (s ++ [c], advance lx) | None => (s, lx) end.

(** ** Errors *)

Inductive Radix := Binary | Octal | Decimal | Hexadecimal.

#[export] Instance Radix_eq_dec : EqDecision Radix.
Proof. solve_decision. Defined.

Inductive LexError :=
| LE_UnterminatedString
| LE_Escape (e : EscapeError) (loc : SourceLoc) (hint : option N)
| LE_Underscore
| LE_InvalidInteger (radix : Radix)
| LE_InvalidFloat
| LE_Semicolon (loc : SourceLoc)
| LE_Keyword.

(** ** Strings *)

(** [escape_error] *)
Definition escape_error (lx : Lexer) (e : EscapeError) (loc : SourceLoc) (after : Text) : LexError :=
  LE_Escape e loc (older_reading_hint (lx_lexicon lx)
    (fun older => match decode (string_escapes older) after with Ok _ => true | _ => false end)).

(** Step a character at a time to a byte offset. *)
Fixpoint advance_to (n : nat) (end_ : N) (lx : Lexer) : Lexer :=
  match n with
  | O => lx
  | S n => if lx_pos lx <? end_ then advance_to n end_ (advance lx) else lx
  end.

Fixpoint read_string_loop (n : nat) (s : Text) (lx : Lexer) : Out LexError (Text * Lexer) :=
  match n with
  | O => Starved
  | S n =>
    match current lx with
    | None => Err LE_UnterminatedString
    | Some c =>
      if c =? QUOTE then Ok (s, advance lx)
      else if c =? BACKSLASH then
        let loc := get_loc lx in
        let lx := advance lx in
        let after := lx_rest lx in
        match decode (string_escapes (lx_lexicon lx)) after with
        | Ok escape =>
          read_string_loop n (s ++ [de_ch escape])
            (advance_to (length after) (lx_pos lx + de_len escape) lx)
        | Err e => Err (escape_error lx e loc after)
        | Panics => Panics
        | Starved => Starved
        end
      else read_string_loop n (s ++ [c]) (advance lx)
    end
  end.

Definition read_string (lx : Lexer) : Out LexError (Text * Lexer) :=
  read_string_loop (S (length (lx_rest lx))) [] (advance lx).

(** ** Numbers *)

Definition from_prefix_char (c : Char) : option Radix :=
  let c := to_ascii_lowercase c in
  if c =? 120 then Some Hexadecimal else if c =? 111 then Some Octal
  else if c =? 98 then Some Binary else None.

Definition radix_value (r : Radix) : N :=
  match r with Binary => 2 | Octal => 8 | Decimal => 10 | Hexadecimal => 16 end.

Definition is_digit (r : Radix) (c : Char) : bool :=
  match r with
  | Binary => in_range 48 49 c
  | Octal => in_range 48 55 c
  | Decimal => is_ascii_digit c
  | Hexadecimal => is_ascii_hexdigit c
  end.

Definition is_prefixed (r : Radix) : bool := negb (bool_decide (r = Decimal)).

Fixpoint double_underscore (t : Text) : bool :=
  match t with
  | [] => false
  | c :: t => ((c =? UNDERSCORE) && bool_decide (t !! 0%nat = Some UNDERSCORE)) || double_underscore t
  end.

(** [validate_and_strip_underscores] *)
Definition validate_and_strip_underscores (s : Text) : Out LexError Text :=
  if bool_decide (s !! 0%nat = Some UNDERSCORE) || bool_decide (last s = Some UNDERSCORE)
     || double_underscore s
  then Err LE_Underscore
  else Ok (filter (fun c => c <> UNDERSCORE) s).

Definition digit_or_underscore (c : Char) : bool := is_ascii_digit c || (c =? UNDERSCORE).
Definition is_sign (c : Char) : bool := (c =? PLUS) || (c =? MINUS).

(** Step 1 of [read_number] *)
Definition read_sign (lx : Lexer) : Text * Lexer :=
  match current lx with
  | Some c => if is_sign c then ([c], advance lx) else ([], lx)
  | None => ([], lx)
  end.

(** Step 2 of [read_number] *)
Definition read_prefix (lx : Lexer) : Radix * Lexer :=
  if decide (current lx = Some ZERO) then
    match peek1 lx ≫= from_prefix_char with
    | Some prefixed => (prefixed, advance (advance lx))
    | None => (Decimal, lx)
    end
  else (Decimal, lx).

(** The optional fraction: the text collected, whether there was a dot, the
    cursor. *)
Definition read_fraction (body : Text) (lx : Lexer) : Out LexError (Text * bool * Lexer) :=
  if decide (current lx = Some DOT) then
    if decide (last body = Some UNDERSCORE) then Err LE_Underscore
    else if decide (peek1 lx = Some UNDERSCORE) then Err LE_Underscore
    else let '(ds, lx) := advance_while digit_or_underscore (advance lx) in
         Ok (body ++ DOT :: ds, true, lx)
  else Ok (body, false, lx).

(** The optional exponent. *)
Definition read_exponent (body : Text) (lx : Lexer) : Out LexError (Text * bool * Lexer) :=
  match current lx with
  | Some e =>
    if (e =? LOWER_E) || (e =? UPPER_E) then
      if decide (last body = Some UNDERSCORE) then Err LE_Underscore
      else
        let '(sign, lx) := read_sign (advance lx) in
        if decide (current lx = Some UNDERSCORE) then Err LE_Underscore
        else match current lx with
             | Some c =>
               if is_ascii_digit c then
                 let '(ds, lx) := advance_while digit_or_underscore lx in
                 Ok (body ++ e :: sign ++ ds, true, lx)
               else Err LE_InvalidFloat
             | None => Err LE_InvalidFloat
             end
    else Ok (body, false, lx)
  | None => Ok (body, false, lx)
  end.

Section WithStd.
Context `{Unicode, FloatText}.

(** A literal with a base prefix, from its digits on. *)
Definition read_prefixed (radix : Radix) (sign : Text) (lx : Lexer) : Out LexError (Token * Lexer) :=
  let '(body, lx) := advance_while (fun c => is_digit radix c || (c =? UNDERSCORE)) lx in
  match body with
  | [] => Err (LE_InvalidInteger radix)
  | _ =>
    if match current lx with Some c => is_ascii_alphanumeric c | None => false end
    then Err (LE_InvalidInteger radix)
    else
      stripped ← validate_and_strip_underscores body;
      match from_str_radix (radix_value radix) stripped with
      | Some n => Ok (Integer (if decide (sign = [MINUS]) then (- n)%Z else n), lx)
      | None => Err (LE_InvalidInteger radix)
      end
  end.

(** A decimal literal, from its digits on. *)
Definition read_decimal (sign : Text) (lx : Lexer) : Out LexError (Token * Lexer) :=
  let '(body, lx) := advance_while digit_or_underscore lx in
  '(body, has_dot, lx) ← read_fraction body lx;
  '(body, has_exp, lx) ← read_exponent body lx;
  stripped ← validate_and_strip_underscores body;
  let full := sign ++ stripped in
  if has_dot || has_exp then
    match parse_f64 full with Some f => Ok (Float f, lx) | None => Err LE_InvalidFloat end
  else
    match parse_i64 full with Some n => Ok (Integer n, lx) | None => Err (LE_InvalidInteger Decimal) end.

Definition read_number (lx : Lexer) : Out LexError (Token * Lexer) :=
  let '(sign, lx) := read_sign lx in
  let '(radix, lx) := read_prefix lx in
  if is_prefixed radix then read_prefixed radix sign lx else read_decimal sign lx.

(** ** Symbols *)

Definition is_delimiter (c : Char) : bool :=
  bool_decide (c ∈ [LPAREN; RPAREN; LBRACKET; RBRACKET; LBRACE; RBRACE; TICK; BACKTICK; COMMA;
                    COLON; AT; SEMI; PIPE]).

Definition is_symbol_start (c : Char) : bool :=
  is_alphabetic c || bool_decide (c ∈ text "_-+*/!?<>=").

(** The loop of [read_symbol] goes on past a character that does not end a
    symbol, and past a colon before one that can start a symbol. *)
Definition symbol_goes_on (c : Char) (next : option Char) : bool :=
  if is_whitespace c || is_delimiter c
  then (c =? COLON) && match next with Some n => is_symbol_start n | None => false end
  else true.

Definition read_symbol (lx : Lexer) : Text * Lexer := walk symbol_goes_on (lx_rest lx) lx.

(** ** One token *)

(** The arms of one character and no choice. *)
Definition unit_token (c : Char) : option Token :=
  if c =? LPAREN then Some LeftParen else if c =? RPAREN then Some RightParen
  else if c =? LBRACKET then Some LeftBracket else if c =? RBRACKET then Some RightBracket
  else if c =? LBRACE then Some LeftBrace else if c =? RBRACE then Some RightBrace
  else if c =? TICK then Some Quote else if c =? BACKTICK then Some Quasiquote
  else if c =? PIPE then Some Pipe else None.

(** The [@] arm, with the cursor after the [@]. *)
Definition lex_at (lx : Lexer) : Token * Lexer :=
  match current lx with
  | Some c =>
    if c =? PIPE then (AtPipe, advance lx)
    else if (c =? LOWER_B) && bool_decide (peek1 lx = Some LBRACKET)
    then (AtBytesBracket, advance (advance lx))
    else if is_symbol_start c then let '(s, lx) := read_symbol lx in (Symbol (AT :: s), lx)
    else (ListSugar, lx)
  | None => (ListSugar, lx)
  end.

(** The [:] arm, with the cursor after the [:]. *)
Definition lex_keyword (lx : Lexer) : Out LexError (Token * Lexer) :=
  let '(at_prefix, lx) := if decide (current lx = Some AT) then ([AT], advance lx) else ([], lx) in
  let '(s, lx) := read_symbol lx in
  match s with [] => Err LE_Keyword | _ => Ok (Keyword (at_prefix ++ s), lx) end.

(** The arm of digits and signs. *)
Definition lex_digit_or_sign (c : Char) (lx : Lexer) : Out LexError (Token * Lexer) :=
  if is_sign c && match peek1 lx with Some next => negb (is_ascii_digit next) | None => true end
  then let '(s, lx) := read_symbol lx in Ok (Symbol s, lx)
  else read_number lx.

(** The last arm. *)
Definition lex_symbol (lx : Lexer) : Token * Lexer :=
  let '(s, lx) := read_symbol lx in
  (if decide (s = text "nil") then Nil
   else if decide (s = text "true") then Bool true
   else if decide (s = text "false") then Bool false
   else Symbol s, lx).

(** The match of [next_token_with_loc]. *)
Definition lex_token (c : Char) (lx : Lexer) : Out LexError (Token * Lexer) :=
  let L := lx_lexicon lx in
  if c =? comment_char L then let '(s, lx) := read_comment lx in Ok (Comment s, lx)
  else match unit_token c with
  | Some t => Ok (t, advance lx)
  | None =>
    if c =? COMMA then
      let lx := advance lx in
      if comma_semicolon_fuses L && bool_decide (current lx = Some SEMI)
      then Ok (UnquoteSplicing, advance lx) else Ok (Unquote, lx)
    else if c =? SEMI then
      if semicolon_splices L then Ok (Splice, advance lx) else Err (LE_Semicolon (get_loc lx))
    else if c =? AT then Ok (lex_at (advance lx))
    else if c =? COLON then lex_keyword (advance lx)
    else if c =? QUOTE then '(s, lx) ← read_string lx; Ok (String s, lx)
    else if is_ascii_digit c || (c =? MINUS) || (c =? PLUS) then lex_digit_or_sign c lx
    else if (c =? LOWER_B) && bool_decide (peek1 lx = Some LBRACKET)
    then Ok (BytesBracket, advance (advance lx))
    else Ok (lex_symbol lx)
  end.

Definition next_token_with_loc (lx : Lexer) : Out LexError (option TokenWithLoc * Lexer) :=
  let lx := skip_whitespace lx in
  match current lx with
  | None => Ok (None, lx)
  | Some c => '(t, lx') ← lex_token c lx; Ok (Some (spanned lx' t (get_loc lx) (lx_pos lx)), lx')
  end.

(** ** A whole source *)

(** The loop of [lex_all_under]. *)
Fixpoint lex_loop (n : nat) (acc : list TokenWithLoc) (lx : Lexer) : Out LexError (list TokenWithLoc) :=
  match n with
  | O => Starved
  | S n =>
    '(t, lx) ← next_token_with_loc lx;
    match t with None => Ok acc | Some t => lex_loop n (acc ++ [t]) lx end
  end.

(** [shebang_len] and [strip_shebang]: the text after the first line break, or
    nothing. *)
Fixpoint after_line (t : Text) : Text :=
  match t with [] => [] | c :: t => if c =? NEWLINE then t else after_line t end.

Definition strip_shebang (input : Text) : Text :=
  match input with
  | a :: b :: _ => if (a =? HASH) && (b =? BANG) then after_line input else input
  | _ => input
  end.

Definition lex_all_under (input : Text) (source_name : list N) (l : Lexicon)
    : Out LexError (list TokenWithLoc) :=
  let input := strip_shebang input in
  lex_loop (S (length input)) [] (in_lexicon (Lexer_with_file input source_name) l).

End WithStd.
