(* ===== verification/LexerProps.v ===== *)
(** * What the lexer consumes

    [moves lx t lx'] says that the cursor went over the text [t].  Every
    operation of the lexer is such a move ([lex_token_moves]); tokens therefore
    lie in the source in order, with nothing but whitespace between, and the
    lexer ends.  The second half is what a token's lexeme looks like
    ([lexeme]). *)

From stdpp Require Import base numbers option list strings sets.
From S2P Require Import Prelude Text Escape Lexer.
From Stdlib Require Import Btauto.

Local Open Scope N_scope.

(** ** Moving over text *)

Definition moves (lx : Lexer) (t : Text) (lx' : Lexer) : Prop :=
  lx_rest lx = t ++ lx_rest lx' /\ lx' = Nat.iter (length t) advance lx.

Lemma moves_nil lx : moves lx [] lx.
Proof. done. Qed.

Lemma moves_advance lx c r : lx_rest lx = c :: r -> moves lx [c] (advance lx).
Proof. intros Hr. split; [|done]. unfold advance. rewrite Hr. by destruct (c =? NEWLINE). Qed.

Lemma moves_app lx a lx1 b lx2 : moves lx a lx1 -> moves lx1 b lx2 -> moves lx (a ++ b) lx2.
Proof.
  intros [H1 ->] [H2 ->]. split; [by rewrite <- app_assoc, <- H2|].
  by rewrite length_app, Nat.add_comm, Nat.iter_add.
Qed.

Lemma moves_cons lx c r t lx' : lx_rest lx = c :: r -> moves (advance lx) t lx' -> moves lx (c :: t) lx'.
Proof. intros Hr H. exact (moves_app _ _ _ _ _ (moves_advance _ _ _ Hr) H). Qed.

Lemma current_rest lx c : current lx = Some c -> exists r, lx_rest lx = c :: r.
Proof. unfold current. destruct (lx_rest lx) as [|d r]; [done|]. intros [= ->]. eauto. Qed.

Lemma current_None lx : current lx = None -> lx_rest lx = [].
Proof. unfold current. by destruct (lx_rest lx). Qed.

Lemma rest_current lx c r : lx_rest lx = c :: r -> current lx = Some c.
Proof. unfold current. by intros ->. Qed.

(** The text before the cursor gives its position. *)
Fixpoint lines (t : Text) : N :=
  match t with [] => 0 | c :: t => if c =? NEWLINE then 1 + lines t else lines t end.

Fixpoint columns (col : N) (t : Text) : N :=
  match t with [] => col | c :: t => columns (if c =? NEWLINE then 1 else col + 1) t end.

Lemma moves_place lx t lx' : moves lx t lx' ->
  lx_pos lx' = lx_pos lx + blen t /\ lx_line lx' = lx_line lx + lines t
  /\ lx_col lx' = columns (lx_col lx) t /\ lx_file lx' = lx_file lx /\ lx_lexicon lx' = lx_lexicon lx.
Proof.
  revert lx. induction t as [|c t IH]; intros lx [Hr Hi].
  - cbn in Hi. subst. cbn. repeat split; lia.
  - assert (moves (advance lx) t lx') as H.
    { split; [|by rewrite Hi; cbn [length]; rewrite Nat.iter_succ_r].
      unfold advance. rewrite Hr. cbn. by destruct (c =? NEWLINE). }
    apply IH in H as (-> & -> & -> & -> & ->). unfold advance. rewrite Hr. cbn.
    destruct (c =? NEWLINE); cbn; repeat split; lia.
Qed.

Lemma moves_lexicon lx t lx' : moves lx t lx' -> lx_lexicon lx' = lx_lexicon lx.
Proof. intros H. by apply moves_place in H as (_ & _ & _ & _ & ->). Qed.

(** Two moves over one text reach one cursor. *)
Lemma moves_det lx t lx1 lx2 : moves lx t lx1 -> moves lx t lx2 -> lx1 = lx2.
Proof. by intros [_ ->] [_ ->]. Qed.

(** ** The loops *)

(** [walk] passes [s] before [r]: every character goes on, and [r]'s first does
    not. *)
Fixpoint passes (p : Char -> option Char -> bool) (s r : Text) : Prop :=
  match s with
  | [] => match r with [] => True | c :: r => p c (r !! 0%nat) = false end
  | c :: s => p c ((s ++ r) !! 0%nat) = true /\ passes p s r
  end.

Lemma walk_moves p lx : exists s lx',
  walk p (lx_rest lx) lx = (s, lx') /\ moves lx s lx' /\ passes p s (lx_rest lx').
Proof.
  remember (lx_rest lx) as t eqn:Ht. revert lx Ht. induction t as [|c t IH]; intros lx Ht; cbn [walk].
  - exists [], lx. split; [done|]. split; [apply moves_nil|]. cbn. by rewrite <- Ht.
  - destruct (p c (t !! 0%nat)) eqn:Hp.
    + pose proof (moves_advance lx c t (eq_sym Ht)) as Ha.
      assert (t = lx_rest (advance lx)) as Hat by (destruct Ha as [Ha _]; rewrite <- Ht in Ha; by injection Ha).
      destruct (IH (advance lx) Hat) as (s & lx' & -> & Hm & Hs).
      exists (c :: s), lx'. split; [done|]. split; [exact (moves_app _ _ _ _ _ Ha Hm)|].
      cbn. split; [|done]. rewrite <- (proj1 Hm), <- Hat. done.
    + exists [], lx. split; [done|]. split; [apply moves_nil|]. cbn. by rewrite <- Ht.
Qed.


Lemma rest_advance lx c r : lx_rest lx = c :: r -> lx_rest (advance lx) = r.
Proof. intros Hr. unfold advance. rewrite Hr. by destruct (c =? NEWLINE). Qed.

Lemma moves_rest lx t lx' r : moves lx t lx' -> lx_rest lx = t ++ r -> lx_rest lx' = r.
Proof. intros [H _] H'. rewrite H in H'. by apply app_inv_head in H'. Qed.

Lemma passes_walk p s r lx : lx_rest lx = s ++ r -> passes p s r ->
  exists lx', walk p (lx_rest lx) lx = (s, lx') /\ moves lx s lx' /\ lx_rest lx' = r.
Proof.
  intros Ht. rewrite Ht. revert lx Ht. induction s as [|c s IH]; intros lx Ht; cbn [walk app passes].
  - intros Hr. exists lx. split; [|by split]. destruct r as [|c r]; cbn [walk]; [done|]. by rewrite Hr.
  - intros [Hc Hs]. rewrite Hc. destruct (IH (advance lx) (rest_advance _ _ _ Ht) Hs) as (lx' & -> & Hm & Hr).
    exists lx'. split; [done|]. split; [exact (moves_cons _ _ _ _ _ Ht Hm) | done].
Qed.

Lemma advance_while_moves p lx : exists s lx',
  advance_while p lx = (s, lx') /\ moves lx s lx' /\ Forall (fun c => p c = true) s
  /\ match lx_rest lx' with [] => True | c :: _ => p c = false end.
Proof.
  destruct (walk_moves (fun c _ => p c) lx) as (s & lx' & H & Hm & Hs). exists s, lx'. split; [done|]. split; [done|].
  clear H Hm. revert Hs. generalize (lx_rest lx'). intros r. induction s as [|c s IH]; cbn; intros Hs.
  - split; [constructor|]. by destruct r.
  - destruct Hs as [Hc Hs]. apply IH in Hs as [H1 H2]. split; [by constructor | done].
Qed.

Lemma advance_while_all p s r lx : lx_rest lx = s ++ r -> Forall (fun c => p c = true) s ->
  match r with [] => True | c :: _ => p c = false end ->
  exists lx', advance_while p lx = (s, lx') /\ moves lx s lx' /\ lx_rest lx' = r.
Proof.
  intros Ht Hs Hr. apply passes_walk; [done|]. clear Ht. induction Hs as [|c s Hc _ IH]; cbn; [by destruct r|]. by split.
Qed.

Lemma skip_whitespace_moves lx : exists s,
  moves lx s (skip_whitespace lx) /\ Forall (fun c => is_whitespace c = true) s
  /\ match lx_rest (skip_whitespace lx) with [] => True | c :: _ => is_whitespace c = false end.
Proof.
  unfold skip_whitespace. destruct (advance_while_moves is_whitespace lx) as (s & lx' & -> & H). by exists s.
Qed.

Lemma read_comment_moves lx c r : lx_rest lx = c :: r -> exists s lx',
  read_comment lx = (s, lx') /\ s <> [] /\ moves lx s lx'.
Proof.
  intros Hr. unfold read_comment.
  destruct (advance_while_moves (fun c => negb (c =? NEWLINE)) lx) as (s & lx1 & -> & Hm & _ & _).
  destruct (lx_rest lx1) as [|d r1] eqn:H1.
  - unfold current. rewrite H1. cbn. exists s, lx1. split; [done|]. split; [|done]. intros ->.
    destruct Hm as [Hm _]. rewrite Hr, H1 in Hm. done.
  - rewrite (rest_current _ _ _ H1). exists (s ++ [d]), (advance lx1). split; [done|].
    split; [by destruct s|]. exact (moves_app _ _ _ _ _ Hm (moves_advance _ _ _ H1)).
Qed.

(** ** Strings *)

Lemma advance_to_moves n lx x r : lx_rest lx = x ++ r -> (length x <= n)%nat ->
  exists lx', advance_to n (lx_pos lx + blen x) lx = lx' /\ moves lx x lx' /\ lx_rest lx' = r.
Proof.
  revert lx x. induction n as [|n IH]; intros lx [|c x] Ht Hn; cbn [advance_to length] in *; try lia; cbn [app blen] in *.
  - by exists lx.
  - destruct (N.ltb_spec (lx_pos lx) (lx_pos lx + 0)); [lia | by exists lx].
  - pose proof (len_utf8_pos c). destruct (N.ltb_spec (lx_pos lx) (lx_pos lx + (len_utf8 c + blen x))); [|lia].
    pose proof (moves_advance lx c (x ++ r) Ht) as Ha.
    assert (lx_pos lx + (len_utf8 c + blen x) = lx_pos (advance lx) + blen x) as ->
      by (apply moves_place in Ha as (-> & _); cbn; lia).
    destruct (IH (advance lx) x (rest_advance _ _ _ Ht)) as (lx' & -> & Hm & Hr); [lia|].
    exists lx'. split; [done|]. split; [exact (moves_app _ _ _ _ _ Ha Hm) | done].
Qed.

(** The literal's body is what the decoded text is spelled by. *)
Lemma read_string_loop_moves n s lx : (length (lx_rest lx) < n)%nat ->
  yields (read_string_loop n s lx) (fun '(s', lx') => exists b u,
    s' = s ++ u /\ spells (string_escapes (lx_lexicon lx)) b u /\ moves lx (b ++ [QUOTE]) lx').
Proof.
  revert s lx. induction n as [|n IH]; intros s lx Hn; [lia|]. cbn [read_string_loop].
  destruct (current lx) as [c|] eqn:Hc; [|done]. apply current_rest in Hc as [r Hr]. rewrite Hr in Hn. cbn in Hn.
  pose proof (moves_advance _ _ _ Hr) as Ha. pose proof (rest_advance _ _ _ Hr) as Har.
  pose proof (moves_lexicon _ _ _ Ha) as Hl.
  destruct (N.eqb_spec c QUOTE) as [->|Hq].
  { exists [], []. rewrite app_nil_r. split; [done|]. split; [constructor | done]. }
  destruct (N.eqb_spec c BACKSLASH) as [->|Hb].
  - rewrite Hl, Har. pose proof (decode_answers (string_escapes (lx_lexicon lx)) r) as Hd.
    destruct (decode _ r) as [d| | |]; [|done..].
    + destruct Hd as (x & r' & -> & Hdec). pose proof Hdec as (Hx & Hlen & _). rewrite Hlen.
      destruct (advance_to_moves (length (x ++ r')) (advance lx) x r') as (lx1 & -> & Hm & Hr1); [done|rewrite length_app; lia|].
      rewrite length_app in Hn. refine (yields_mono _ _ _ (IH _ lx1 _) _); [rewrite Hr1; lia|].
      intros [s' lx'] (b & u & -> & Hs & Hm'). rewrite (moves_lexicon _ _ _ Hm), Hl in Hs.
      exists (BACKSLASH :: x ++ b), (de_ch d :: u). rewrite <- app_assoc. split; [done|].
      split; [by apply spells_decided|]. cbn. rewrite <- app_assoc.
      exact (moves_app _ _ _ _ _ Ha (moves_app _ _ _ _ _ Hm Hm')).
  - refine (yields_mono _ _ _ (IH _ (advance lx) _) _); [rewrite Har; lia|].
    intros [s' lx'] (b & u & -> & Hs & Hm). rewrite Hl in Hs. exists (c :: b), (c :: u). rewrite <- app_assoc.
    split; [done|]. split; [by constructor|]. exact (moves_app _ _ _ _ _ Ha Hm).
Qed.

Lemma read_string_loop_spells e b u n s lx r : spells e b u -> e = string_escapes (lx_lexicon lx) ->
  lx_rest lx = b ++ QUOTE :: r -> (length b < n)%nat ->
  exists lx', read_string_loop n s lx = Ok (s ++ u, lx') /\ moves lx (b ++ [QUOTE]) lx' /\ lx_rest lx' = r.
Proof.
  intros Hs. revert n s lx. induction Hs as [|c b u Hq Hb _ IH|x ch b u Hx Hd _ IH]; intros n s lx -> Hr Hn;
    (destruct n as [|n]; [lia|]); cbn [read_string_loop app length] in *; rewrite (rest_current _ _ _ Hr).
  - rewrite N.eqb_refl, app_nil_r. exists (advance lx). split; [done|].
    split; [exact (moves_advance _ _ _ Hr) | exact (rest_advance _ _ _ Hr)].
  - apply N.eqb_neq in Hq as ->. apply N.eqb_neq in Hb as ->. pose proof (moves_advance _ _ _ Hr) as Ha.
    destruct (IH n (s ++ [c]) (advance lx)) as (lx' & -> & Hm & Hr'); [by rewrite (moves_lexicon _ _ _ Ha)|exact (rest_advance _ _ _ Hr)|lia|].
    exists lx'. rewrite <- app_assoc. split; [done|]. split; [exact (moves_app _ _ _ _ _ Ha Hm) | done].
  - change (BACKSLASH =? QUOTE) with false. rewrite N.eqb_refl. pose proof (moves_advance _ _ _ Hr) as Ha.
    pose proof (rest_advance _ _ _ Hr) as Har. rewrite <- app_assoc in Har. rewrite Har, (moves_lexicon _ _ _ Ha), Hd. cbn [de_len de_ch].
    destruct (advance_to_moves (length (x ++ b ++ QUOTE :: r)) (advance lx) x (b ++ QUOTE :: r)) as (lx1 & -> & Hm & Hr1);
      [done|rewrite length_app; lia|].
    rewrite length_app in Hn.
    destruct (IH n (s ++ [ch]) lx1) as (lx' & -> & Hm' & Hr'); [by rewrite (moves_lexicon _ _ _ Hm), (moves_lexicon _ _ _ Ha)|done|lia|].
    exists lx'. rewrite <- app_assoc. split; [done|]. split; [|done]. rewrite <- app_assoc.
    exact (moves_app _ _ _ _ _ Ha (moves_app _ _ _ _ _ Hm Hm')).
Qed.

Lemma read_string_moves lx r : lx_rest lx = QUOTE :: r ->
  yields (read_string lx) (fun '(u, lx') => exists b,
    spells (string_escapes (lx_lexicon lx)) b u /\ moves lx (QUOTE :: b ++ [QUOTE]) lx').
Proof.
  intros Hr. unfold read_string. pose proof (moves_advance _ _ _ Hr) as Ha.
  refine (yields_mono _ _ _ (read_string_loop_moves _ [] (advance lx) _) _).
  - rewrite (rest_advance _ _ _ Hr), Hr. cbn. lia.
  - intros [u lx'] (b & u' & -> & Hs & Hm). rewrite (moves_lexicon _ _ _ Ha) in Hs. exists b. split; [done|].
    exact (moves_cons _ _ _ _ _ Hr Hm).
Qed.

Lemma read_string_spells lx b u r : spells (string_escapes (lx_lexicon lx)) b u ->
  lx_rest lx = QUOTE :: b ++ QUOTE :: r ->
  exists lx', read_string lx = Ok (u, lx') /\ moves lx (QUOTE :: b ++ [QUOTE]) lx' /\ lx_rest lx' = r.
Proof.
  intros Hs Hr. unfold read_string. pose proof (moves_advance _ _ _ Hr) as Ha.
  rewrite <- (moves_lexicon _ _ _ Ha) in Hs.
  destruct (read_string_loop_spells _ b u (S (length (lx_rest lx))) [] (advance lx) r Hs eq_refl (rest_advance _ _ _ Hr))
    as (lx' & -> & Hm & Hr'); [rewrite Hr; cbn; rewrite length_app; lia|].
  exists lx'. split; [done|]. split; [exact (moves_cons _ _ _ _ _ Hr Hm) | done].
Qed.

(** ** Numbers *)

Lemma read_sign_moves lx : exists s lx', read_sign lx = (s, lx') /\ moves lx s lx'
  /\ match lx_rest lx with c :: _ => if is_sign c then s = [c] else s = [] | [] => s = [] end.
Proof.
  unfold read_sign. destruct (lx_rest lx) as [|c r] eqn:Hr.
  - unfold current. rewrite Hr. by exists [], lx.
  - rewrite (rest_current _ _ _ Hr). destruct (is_sign c) eqn:Hs.
    + exists [c], (advance lx). split; [done|]. split; [exact (moves_advance _ _ _ Hr)|done].
    + by exists [], lx.
Qed.

Lemma moves_two lx c d r : lx_rest lx = c :: d :: r -> moves lx [c; d] (advance (advance lx)).
Proof. intros Hr. eapply moves_cons; [exact Hr|]. eapply moves_advance, rest_advance, Hr. Qed.

Lemma read_prefix_moves lx : exists radix s lx', read_prefix lx = (radix, lx') /\ moves lx s lx'
  /\ (is_prefixed radix = false -> s = []) /\ (is_prefixed radix = true -> s <> []).
Proof.
  unfold read_prefix. destruct (decide (current lx = Some ZERO)) as [Hz|]; [|by exists Decimal, [], lx].
  apply current_rest in Hz as [r Hr]. unfold peek1. rewrite Hr. destruct r as [|d r]; cbn; [by exists Decimal, [], lx|].
  destruct (from_prefix_char d) as [radix|] eqn:Hd; [|by exists Decimal, [], lx].
  exists radix, [ZERO; d], (advance (advance lx)). split; [done|]. split; [exact (moves_two _ _ _ _ Hr)|].
  split; [|done]. revert Hd. unfold from_prefix_char. repeat case_match; intros [= <-]; done.
Qed.

Lemma read_fraction_moves body lx :
  yields (read_fraction body lx) (fun '(_, _, lx') => exists s, moves lx s lx').
Proof.
  unfold read_fraction. destruct (decide (current lx = Some DOT)) as [Hd|]; [|by exists []].
  apply current_rest in Hd as [r Hr]. destruct (decide _); [done|]. destruct (decide _); [done|].
  destruct (advance_while_moves digit_or_underscore (advance lx)) as (s & lx' & -> & Hm & _).
  exists (DOT :: s). exact (moves_cons _ _ _ _ _ Hr Hm).
Qed.

Lemma read_exponent_moves body lx :
  yields (read_exponent body lx) (fun '(_, _, lx') => exists s, moves lx s lx').
Proof.
  unfold read_exponent. destruct (current lx) as [e|] eqn:He; [|by exists []].
  apply current_rest in He as [r Hr]. destruct ((e =? LOWER_E) || (e =? UPPER_E)); [|by exists []].
  destruct (decide _); [done|]. destruct (read_sign_moves (advance lx)) as (sg & lx1 & -> & Hsg & _).
  destruct (decide _); [done|]. destruct (current lx1) as [c|]; [|done]. destruct (is_ascii_digit c); [|done].
  destruct (advance_while_moves digit_or_underscore lx1) as (s & lx' & -> & Hm & _).
  exists (e :: sg ++ s). exact (moves_cons _ _ _ _ _ Hr (moves_app _ _ _ _ _ Hsg Hm)).
Qed.

Lemma validate_yields s : yields (validate_and_strip_underscores s)
  (fun t => t = filter (fun c => c <> UNDERSCORE) s).
Proof. unfold validate_and_strip_underscores. by destruct (_ || _). Qed.

Lemma from_str_radix_range radix t z : from_str_radix radix t = Some z -> i64_range z = true.
Proof. unfold from_str_radix. repeat case_match; try done; intros [= <-]; done. Qed.

Lemma is_digit_not_sign radix c : is_digit radix c = true -> c <> MINUS /\ c <> PLUS.
Proof.
  unfold is_digit, is_ascii_digit, is_ascii_hexdigit, is_ascii_digit.
  destruct radix; rewrite ?orb_true_iff, !in_range_spec; unfold MINUS, PLUS; lia.
Qed.

Lemma prefixed_value radix body n :
  Forall (fun c => is_digit radix c || (c =? UNDERSCORE) = true) body ->
  from_str_radix (radix_value radix) (filter (fun c => c <> UNDERSCORE) body) = Some n -> (0 <= n)%Z.
Proof.
  intros Hb H. set (ds := filter _ body) in H.
  assert (Forall (fun c => c <> MINUS /\ c <> PLUS) ds) as Hds.
  { apply Forall_forall. intros c Hc. subst ds. apply list_elem_of_filter in Hc as [Hu Hc].
    rewrite Forall_forall in Hb. apply Hb in Hc. apply orb_true_iff in Hc as [Hc|Hc]; [by eapply is_digit_not_sign|].
    by apply N.eqb_eq in Hc. }
  clearbody ds. destruct (digits_value (radix_value radix) 0 ds) as [v|] eqn:Hv.
  - destruct ds as [|c ds]; [done|]. rewrite (from_str_radix_digits _ _ v) in H; [|done..]. case_match; [|done]. injection H as <-. lia.
  - destruct ds as [|c ds]; [done|]. apply Forall_cons in Hds as [[H1 H2] _]. apply N.eqb_neq in H1, H2.
    unfold from_str_radix in H. rewrite H1, H2, Hv in H. done.
Qed.

Section WithStd.
Context `{Unicode, FloatText}.

(** What a number token can carry. *)
Definition number (t : Token) : Prop :=
  match t with
  | Integer n => i64_range n = true
  | Float f => exists s, parse_f64 s = Some f
  | _ => False
  end.

Lemma read_prefixed_moves radix sign lx :
  yields (read_prefixed radix sign lx) (fun '(t, lx') => number t /\ exists s, moves lx s lx').
Proof.
  unfold read_prefixed.
  destruct (advance_while_moves (fun c => is_digit radix c || (c =? UNDERSCORE)) lx) as (s & lx' & -> & Hm & Hs & _).
  destruct s as [|c s]; [done|]. destruct (match current lx' with Some c => _ | None => _ end); [done|].
  apply (yields_bind _ _ _ _ (validate_yields _)). intros ds ->.
  destruct (from_str_radix _ _) as [n|] eqn:Hn; [|done]. split; [|by eexists]. cbn [number].
  pose proof (prefixed_value _ _ _ Hs Hn). apply from_str_radix_range in Hn.
  destruct (decide _); [|done]. apply i64_range_spec in Hn. apply i64_range_spec. lia.
Qed.

Lemma read_decimal_moves sign lx :
  yields (read_decimal sign lx) (fun '(t, lx') => number t /\ exists s, moves lx s lx'
    /\ match lx_rest lx with c :: _ => is_ascii_digit c = true -> s <> [] | [] => True end).
Proof.
  unfold read_decimal. destruct (advance_while_moves digit_or_underscore lx) as (s & lx1 & -> & Hm & _ & Hstop).
  apply (yields_bind _ _ _ _ (read_fraction_moves s lx1)). intros [[body dot] lx2] (s2 & Hm2).
  apply (yields_bind _ _ _ _ (read_exponent_moves body lx2)). intros [[body' ex] lx3] (s3 & Hm3).
  apply (yields_bind _ _ _ _ (validate_yields body')). intros ds _.
  assert (exists s, moves lx s lx3
    /\ match lx_rest lx with c :: _ => is_ascii_digit c = true -> s <> [] | [] => True end) as Hs.
  { exists (s ++ s2 ++ s3). split; [exact (moves_app _ _ _ _ _ Hm (moves_app _ _ _ _ _ Hm2 Hm3))|].
    destruct (lx_rest lx) as [|c r] eqn:Hr; [done|]. intros Hc. destruct s as [|d s]; [|done].
    destruct Hm as [Hm _]. rewrite Hr in Hm. cbn in Hm. rewrite <- Hm in Hstop.
    unfold digit_or_underscore in Hstop. by rewrite Hc in Hstop. }
  destruct (dot || ex).
  - destruct (parse_f64 _) as [f|] eqn:Hf; [|done]. split; [by eexists | done].
  - destruct (parse_i64 _) as [n|] eqn:Hn; [|done]. split; [exact (from_str_radix_range _ _ _ Hn) | done].
Qed.

Lemma read_number_moves lx c r : lx_rest lx = c :: r -> is_ascii_digit c || is_sign c = true ->
  yields (read_number lx) (fun '(t, lx') => number t /\ exists s, s <> [] /\ moves lx s lx').
Proof.
  intros Hr Hc. unfold read_number. destruct (read_sign_moves lx) as (sg & lx1 & -> & Hm1 & Hsg). rewrite Hr in Hsg.
  destruct (read_prefix_moves lx1) as (radix & s2 & lx2 & -> & Hm2 & Hdec & Hpre). destruct (is_prefixed radix).
  - refine (yields_mono _ _ _ (read_prefixed_moves _ _ _) _). intros [t lx'] [Ht [s Hm]]. split; [done|].
    exists (sg ++ s2 ++ s). split; [|exact (moves_app _ _ _ _ _ Hm1 (moves_app _ _ _ _ _ Hm2 Hm))].
    destruct sg; [|done]. destruct s2; [by specialize (Hpre eq_refl) | done].
  - rewrite (Hdec eq_refl) in Hm2. refine (yields_mono _ _ _ (read_decimal_moves _ _) _). intros [t lx'] (Ht & s & Hm & Hs).
    split; [done|]. exists (sg ++ [] ++ s). split; [|exact (moves_app _ _ _ _ _ Hm1 (moves_app _ _ _ _ _ Hm2 Hm))].
    destruct (is_sign c) eqn:Hsc; subst sg; [done|]. cbn. destruct Hm1 as [_ ->], Hm2 as [_ ->]. cbn in Hs. rewrite Hr in Hs.
    rewrite orb_false_r in Hc. auto.
Qed.

(** ** Symbols *)

(** The text of a symbol: the loop of [read_symbol] passes all of it. *)
Fixpoint symbol_text (s : Text) : bool :=
  match s with [] => true | c :: s => symbol_goes_on c (s !! 0%nat) && symbol_text s end.

Lemma delimiter_cases c : is_delimiter c = true ->
  c = 40 \/ c = 41 \/ c = 91 \/ c = 93 \/ c = 123 \/ c = 125 \/ c = 39 \/ c = 96 \/ c = 44
  \/ c = 58 \/ c = 64 \/ c = 59 \/ c = 124.
Proof.
  unfold is_delimiter. rewrite bool_decide_eq_true. intros Hc. set_unfold in Hc.
  unfold LPAREN, RPAREN, LBRACKET, RBRACKET, LBRACE, RBRACE, TICK, BACKTICK, COMMA, COLON, AT, SEMI, PIPE in Hc.
  lia.
Qed.

Lemma whitespace_cases c : is_whitespace c = true -> 9 <= c <= 13 \/ c = 32 \/ 128 <= c.
Proof. unfold is_whitespace, SPACE. rewrite !orb_true_iff, !in_range_spec, !N.eqb_eq. lia. Qed.

Lemma symbol_start_inside c next : is_symbol_start c = true -> symbol_goes_on c next = true.
Proof.
  intros Hc. unfold symbol_goes_on. destruct (is_whitespace c || is_delimiter c) eqn:Hw; [exfalso|done].
  unfold is_symbol_start in Hc. apply orb_true_iff in Hc as [Hc|Hc].
  - unfold is_alphabetic in Hc. destruct (N.ltb_spec c 128).
    + unfold is_ascii_alphabetic in Hc. rewrite orb_true_iff, !in_range_spec in Hc. apply orb_true_iff in Hw as [Hw|Hw].
      * apply whitespace_cases in Hw. lia.
      * apply delimiter_cases in Hw. lia.
    + apply andb_true_iff in Hc as [_ Hc]. apply orb_true_iff in Hw as [Hw|Hw]; [by rewrite Hw in Hc|].
      apply delimiter_cases in Hw. lia.
  - rewrite bool_decide_eq_true in Hc. cbn in Hc. set_unfold in Hc. repeat destruct Hc as [-> | Hc]; done.
Qed.

Lemma passes_symbol_text s r : passes symbol_goes_on s r -> symbol_text s = true.
Proof.
  induction s as [|c s IH]; [done|]. cbn. intros [Hc Hs]. rewrite (IH Hs), andb_true_r.
  destruct s as [|d s]; [|done]. cbn in *. revert Hc. unfold symbol_goes_on at 1. intros Hc.
  destruct (is_whitespace c || is_delimiter c) eqn:Hw; [exfalso|unfold symbol_goes_on; by rewrite Hw].
  apply andb_true_iff in Hc as [_ Hc]. destruct r as [|n r]; [done|]. cbn in Hc.
  rewrite symbol_start_inside in Hs by done. done.
Qed.

(** What may follow a token of a printed form. *)
Definition stops (r : Text) : Prop :=
  match r with [] => True | c :: _ => is_whitespace c = true \/ c ∈ [RPAREN; RBRACKET; RBRACE; PIPE] end.

Lemma symbol_text_passes s r : symbol_text s = true -> stops r -> passes symbol_goes_on s r.
Proof.
  intros Hs Hr. induction s as [|c s IH]; cbn in *.
  - destruct r as [|c r]; [done|]. cbn in Hr. unfold symbol_goes_on. destruct Hr as [Hr|Hr].
    + rewrite Hr. cbn. destruct (N.eqb_spec c COLON) as [->|]; done.
    + set_unfold in Hr. repeat destruct Hr as [-> | Hr]; done.
  - apply andb_true_iff in Hs as [Hc Hs]. split; [|auto]. destruct s as [|d s]; [|done]. cbn in *.
    unfold symbol_goes_on in *. destruct (is_whitespace c || is_delimiter c); [|done].
    by rewrite andb_false_r in Hc.
Qed.

Lemma read_symbol_moves lx : exists s lx', read_symbol lx = (s, lx') /\ moves lx s lx' /\ symbol_text s = true
  /\ match lx_rest lx with c :: r => symbol_goes_on c (r !! 0%nat) = true -> s <> [] | [] => True end.
Proof.
  unfold read_symbol. destruct (walk_moves symbol_goes_on lx) as (s & lx' & -> & Hm & Hs). exists s, lx'.
  split; [done|]. split; [done|]. split; [exact (passes_symbol_text _ _ Hs)|].
  destruct Hm as [Hm _]. rewrite Hm. destruct s as [|c s]; [|done]. cbn in *. destruct (lx_rest lx') as [|c r]; [done|].
  intros Hc. by rewrite Hc in Hs.
Qed.

Lemma read_symbol_text lx s r : lx_rest lx = s ++ r -> symbol_text s = true -> stops r ->
  exists lx', read_symbol lx = (s, lx') /\ moves lx s lx' /\ lx_rest lx' = r.
Proof. intros Hr Hs Hst. apply passes_walk; [done|]. by apply symbol_text_passes. Qed.

(** ** Lexemes *)

(** The characters that start no symbol: another arm of the lexer takes them. *)
Definition starts_symbol (L : Lexicon) (c : Char) : bool :=
  negb ((c =? comment_char L) || (c =? QUOTE) || (c =? COLON) || is_ascii_digit c).

Definition reserved : list Text := [text "nil"; text "true"; text "false"].

(** The texts read as one symbol. *)
Definition symbol_token (L : Lexicon) (s : Text) : Prop :=
  match s with
  | [] => False
  | c :: s' =>
    if c =? AT then
      c <> comment_char L /\ symbol_text s' = true
      /\ match s' with d :: _ => is_symbol_start d = true | [] => False end
    else
      starts_symbol L c = true /\ symbol_text s = true /\ (s ∉ reserved)
      /\ (is_sign c = true -> match s' with d :: _ => is_ascii_digit d = false | [] => True end)
  end.

(** The names of keywords. *)
Definition keyword_text (k : Text) : Prop :=
  match k with
  | [] => False
  | c :: k' => if c =? AT then symbol_text k' = true /\ k' <> [] else symbol_text k = true
  end.

(** The text of the tokens that have one. *)
Definition unit_text (t : Token) : Text :=
  match t with
  | LeftParen => [LPAREN] | RightParen => [RPAREN]
  | LeftBracket => [LBRACKET] | RightBracket => [RBRACKET]
  | LeftBrace => [LBRACE] | RightBrace => [RBRACE]
  | Quote => [TICK] | Quasiquote => [BACKTICK]
  | Unquote => [COMMA] | UnquoteSplicing => [COMMA; SEMI] | Splice => [SEMI]
  | ListSugar => [AT] | Pipe => [PIPE] | AtPipe => [AT; PIPE]
  | BytesBracket => [LOWER_B; LBRACKET] | AtBytesBracket => [AT; LOWER_B; LBRACKET]
  | Nil => text "nil" | Bool true => text "true" | Bool false => text "false"
  | _ => []
  end.

(** [lexeme L t s]: [s] is a text that the lexicon [L] reads as [t]. *)
Definition lexeme (L : Lexicon) (t : Token) (s : Text) : Prop :=
  match t with
  | Symbol x => s = x /\ symbol_token L x
  | Keyword k => s = COLON :: k /\ keyword_text k
  | Integer _ | Float _ => number t
  | String u => exists b, s = QUOTE :: b ++ [QUOTE] /\ spells (string_escapes L) b u
  | Comment x => s = x /\ x !! 0%nat = Some (comment_char L)
  | _ => s = unit_text t
  end.

(** A token, its lexeme, and the move over it. *)
Definition takes (lx : Lexer) (a : Token * Lexer) : Prop :=
  exists s, s <> [] /\ moves lx s a.2 /\ lexeme (lx_lexicon lx) a.1 s.

Lemma unit_token_text c t : unit_token c = Some t ->
  unit_text t = [c] /\ forall L, lexeme L t [c].
Proof.
  unfold unit_token.
  repeat (match goal with |- context [c =? ?k] => destruct (N.eqb_spec c k) as [->|] end; [intros [= <-]; by split|]).
  done.
Qed.

Lemma lex_at_takes lx r : lx_rest lx = AT :: r -> AT <> comment_char (lx_lexicon lx) ->
  takes lx (lex_at (advance lx)).
Proof.
  intros Hr Hcc. unfold lex_at, takes. pose proof (rest_advance _ _ _ Hr) as Har.
  destruct r as [|c r].
  { unfold current. rewrite Har. cbn. exists [AT]. split; [done|]. split; [exact (moves_advance _ _ _ Hr) | done]. }
  rewrite (rest_current _ _ _ Har).
  destruct (N.eqb_spec c PIPE) as [->|_].
  { exists [AT; PIPE]. split; [done|]. split; [exact (moves_two _ _ _ _ Hr) | done]. }
  destruct ((c =? LOWER_B) && _) eqn:Hb.
  - apply andb_true_iff in Hb as [->%N.eqb_eq Hp%bool_decide_eq_true]. unfold peek1 in Hp. rewrite Har in Hp.
    destruct r as [|d r]; [done|]. injection Hp as ->. exists [AT; LOWER_B; LBRACKET]. split; [done|].
    split; [exact (moves_cons _ _ _ _ _ Hr (moves_two _ _ _ _ Har)) | done].
  - destruct (is_symbol_start c) eqn:Hs.
    + destruct (read_symbol_moves (advance lx)) as (s & lx' & -> & Hm & Htx & Hne). rewrite Har in Hne.
      specialize (Hne (symbol_start_inside _ _ Hs)). exists (AT :: s). split; [done|].
      split; [exact (moves_cons _ _ _ _ _ Hr Hm)|]. split; [done|]. cbn. split; [done|]. split; [done|].
      destruct Hm as [Hm _]. rewrite Har in Hm. destruct s as [|d s]; [done|]. by injection Hm as <- _.
    + exists [AT]. split; [done|]. split; [exact (moves_advance _ _ _ Hr) | done].
Qed.

Lemma lex_keyword_takes lx r : lx_rest lx = COLON :: r -> yields (lex_keyword (advance lx)) (takes lx).
Proof.
  intros Hr. unfold lex_keyword. pose proof (rest_advance _ _ _ Hr) as Har.
  destruct (decide (current (advance lx) = Some AT)) as [Ha|Hna].
  - apply current_rest in Ha as [r' Hr']. destruct (read_symbol_moves (advance (advance lx))) as (s & lx' & -> & Hm & Htx & _).
    destruct s as [|c s]; [done|]. exists (COLON :: AT :: c :: s). split; [done|].
    split; [exact (moves_cons _ _ _ _ _ Hr (moves_cons _ _ _ _ _ Hr' Hm))|]. by split.
  - destruct (read_symbol_moves (advance lx)) as (s & lx' & -> & Hm & Htx & _). destruct s as [|c s]; [done|].
    exists (COLON :: c :: s). split; [done|]. split; [exact (moves_cons _ _ _ _ _ Hr Hm)|]. split; [done|].
    unfold keyword_text. cbn [app]. destruct (N.eqb_spec c AT) as [->|]; [|exact Htx]. destruct Hm as [Hm _].
    by rewrite (rest_current _ _ _ Hm) in Hna.
Qed.

(** The symbols of the last two arms. *)
Lemma plain_symbol lx c r : lx_rest lx = c :: r -> is_whitespace c || is_delimiter c = false ->
  exists s lx', read_symbol lx = (c :: s, lx') /\ moves lx (c :: s) lx' /\ symbol_text (c :: s) = true
    /\ match s, r with d :: _, d' :: _ => d = d' | _, _ => True end.
Proof.
  intros Hr Hc. destruct (read_symbol_moves lx) as (s & lx' & -> & Hm & Htx & Hne). rewrite Hr in Hne.
  unfold symbol_goes_on in Hne. rewrite Hc in Hne. specialize (Hne eq_refl). destruct s as [|d s]; [done|].
  pose proof (proj1 Hm) as He. rewrite Hr in He. injection He as <- He.
  exists s, lx'. repeat split; auto; try apply Hm. destruct s, r; try done. by injection He.
Qed.

Lemma sign_inside c : is_sign c = true -> is_whitespace c || is_delimiter c = false.
Proof. unfold is_sign. rewrite orb_true_iff, !N.eqb_eq. by intros [-> | ->]. Qed.
Lemma digit_inside c : is_ascii_digit c = true -> is_whitespace c || is_delimiter c = false.
Proof.
  rewrite is_ascii_digit_spec. intros Hc. apply orb_false_iff. split; apply not_true_iff_false; intros Hw.
  - apply whitespace_cases in Hw. lia.
  - apply delimiter_cases in Hw. lia.
Qed.

Lemma lex_digit_or_sign_takes lx c r : lx_rest lx = c :: r -> is_ascii_digit c || is_sign c = true ->
  starts_symbol (lx_lexicon lx) c = true \/ is_ascii_digit c = true ->
  yields (lex_digit_or_sign c lx) (takes lx).
Proof.
  intros Hr Hc Hst. unfold lex_digit_or_sign. destruct (is_sign c && _) eqn:Hs.
  - apply andb_true_iff in Hs as [Hsg Hn]. pose proof (sign_inside _ Hsg) as Hin.
    destruct (plain_symbol _ _ _ Hr Hin) as (s & lx' & -> & Hm & Htx & Hsr). exists (c :: s). split; [done|]. split; [done|].
    split; [done|]. unfold symbol_token. destruct (N.eqb_spec c AT) as [->|_]; [done|].
    assert (c = MINUS \/ c = PLUS) as Hmp by (unfold is_sign in Hsg; rewrite orb_true_iff, !N.eqb_eq in Hsg; tauto).
    split; [|split; [done|split]].
    + destruct Hst as [Hst|Hd]; [done|]. exfalso. apply digit_not_sign in Hd. tauto.
    + intros Hres. unfold reserved in Hres. set_unfold in Hres. destruct Hmp; subst c; naive_solver.
    + intros _. unfold peek1 in Hn. rewrite Hr in Hn. destruct s as [|d s]; [done|]. destruct r as [|d' r].
      * destruct Hm as [Hm _]. rewrite Hr in Hm. done.
      * subst d'. cbn in Hn. by apply negb_true_iff in Hn.
  - refine (yields_mono _ _ _ (read_number_moves lx c r Hr Hc) _). intros [t lx'] [Ht (s & Hs' & Hm)].
    exists s. split; [done|]. split; [done|]. by destruct t.
Qed.

Lemma lex_symbol_takes lx c r : lx_rest lx = c :: r -> is_whitespace c || is_delimiter c = false ->
  starts_symbol (lx_lexicon lx) c = true -> is_sign c = false -> takes lx (lex_symbol lx).
Proof.
  intros Hr Hin Hst Hsg. unfold lex_symbol, takes.
  destruct (plain_symbol _ _ _ Hr Hin) as (s & lx' & -> & Hm & Htx & _). exists (c :: s). split; [done|]. split; [done|].
  cbn [fst snd].
  destruct (decide (c :: s = text "nil")) as [->|H1]; [done|]. destruct (decide (c :: s = text "true")) as [->|H2]; [done|].
  destruct (decide (c :: s = text "false")) as [->|H3]; [done|]. cbn [lexeme]. split; [done|]. unfold symbol_token.
  destruct (N.eqb_spec c AT) as [->|_]; [done|]. split; [done|]. split; [done|]. split; [|by rewrite Hsg].
  unfold reserved. set_solver.
Qed.

Lemma lex_token_takes lx c r : lx_rest lx = c :: r -> is_whitespace c = false ->
  yields (lex_token c lx) (takes lx).
Proof.
  intros Hr Hw. unfold lex_token. pose proof (moves_advance _ _ _ Hr) as Ha.
  destruct (N.eqb_spec c (comment_char (lx_lexicon lx))) as [Hcc|Hcc].
  { destruct (read_comment_moves _ _ _ Hr) as (s & lx' & -> & Hne & Hm). exists s. split; [done|]. split; [done|].
    split; [done|]. destruct Hm as [Hm _]. rewrite Hr in Hm. destruct s as [|d s]; [done|]. injection Hm as <- _. cbn. by rewrite Hcc. }
  destruct (unit_token c) as [t|] eqn:Hu.
  { apply unit_token_text in Hu as [_ Hu]. exists [c]. split; [done|]. by split. }
  destruct (N.eqb_spec c COMMA) as [->|Hco].
  { destruct (comma_semicolon_fuses _ && _) eqn:Hf.
    - apply andb_true_iff in Hf as [_ Hs%bool_decide_eq_true]. apply current_rest in Hs as [r' Hr'].
      exists [COMMA; SEMI]. split; [done|]. split; [exact (moves_cons _ _ _ _ _ Hr (moves_advance _ _ _ Hr')) | done].
    - exists [COMMA]. split; [done|]. by split. }
  destruct (N.eqb_spec c SEMI) as [->|Hse].
  { destruct (semicolon_splices _); [|done]. exists [SEMI]. split; [done|]. by split. }
  destruct (N.eqb_spec c AT) as [->|Hat]; [exact (lex_at_takes _ _ Hr Hcc)|].
  destruct (N.eqb_spec c COLON) as [->|Hcl]; [exact (lex_keyword_takes _ _ Hr)|].
  destruct (N.eqb_spec c QUOTE) as [->|Hq].
  { apply (yields_bind _ _ _ _ (read_string_moves _ _ Hr)). intros [u lx'] (b & Hs & Hm). exists (QUOTE :: b ++ [QUOTE]).
    split; [done|]. split; [done|]. by exists b. }
  assert (is_ascii_digit c = false -> starts_symbol (lx_lexicon lx) c = true) as Hst.
  { intros Hd. unfold starts_symbol. apply N.eqb_neq in Hcc, Hq, Hcl. by rewrite Hcc, Hq, Hcl, Hd. }
  destruct (is_ascii_digit c || (c =? MINUS) || (c =? PLUS)) eqn:Hn.
  { apply (lex_digit_or_sign_takes _ _ _ Hr).
    - unfold is_sign. rewrite <- Hn. btauto.
    - destruct (is_ascii_digit c); auto. }
  apply orb_false_iff in Hn as [[Hd Hm]%orb_false_iff Hp].
  destruct ((c =? LOWER_B) && _) eqn:Hb.
  { apply andb_true_iff in Hb as [->%N.eqb_eq Hpk%bool_decide_eq_true]. unfold peek1 in Hpk. rewrite Hr in Hpk.
    destruct r as [|d r]; [done|]. injection Hpk as ->. exists [LOWER_B; LBRACKET]. split; [done|].
    split; [exact (moves_two _ _ _ _ Hr) | done]. }
  apply (lex_symbol_takes _ _ _ Hr); [|auto|by unfold is_sign; rewrite Hp, Hm].
  rewrite Hw. apply not_true_iff_false. cbn [orb]. intros Hde%delimiter_cases.
  revert Hu. repeat destruct Hde as [-> | Hde]; subst; done.
Qed.

End WithStd.
