(* ===== verification/LexerTiles.v ===== *)
(** * Tokens and whole sources

    The lexer on the text of one token, followed by what may follow a token of
    a printed form ([stops]): the token, and nothing more consumed
    ([word_lexes] and its companions); numbers are taken apart as a sign, digits,
    a fraction and an exponent ([number_text]).  Then over a whole source: the
    tokens tile the text ([lex_tiles]), and strings keep their meaning when they
    are printed or respelled. *)

From stdpp Require Import base numbers option list strings sets.
From S2P Require Import Prelude Text Escape Lexer LexerProps.

Local Open Scope N_scope.

(** ** The characters that stop a token *)

Lemma stops_cases c r : stops (c :: r) ->
  9 <= c <= 13 \/ c = 32 \/ 128 <= c \/ c = 41 \/ c = 93 \/ c = 125 \/ c = 124.
Proof.
  cbn. intros [H%whitespace_cases|H]; [lia|]. set_unfold in H. unfold RPAREN, RBRACKET, RBRACE, PIPE in H. lia.
Qed.

Lemma digit_or_underscore_spec c : digit_or_underscore c = true <-> 48 <= c <= 57 \/ c = 95.
Proof. unfold digit_or_underscore. rewrite orb_true_iff, is_ascii_digit_spec, N.eqb_eq. done. Qed.

Lemma prefix_char_None x : x <> 120 /\ x <> 88 /\ x <> 111 /\ x <> 79 /\ x <> 98 /\ x <> 66 -> from_prefix_char x = None.
Proof.
  intros Hx. unfold from_prefix_char, to_ascii_lowercase. destruct (in_range 65 90 x) eqn:Hr.
  - apply in_range_spec in Hr. destruct (N.eqb_spec (x + 32) 120), (N.eqb_spec (x + 32) 111), (N.eqb_spec (x + 32) 98); lia || done.
  - destruct (N.eqb_spec x 120), (N.eqb_spec x 111), (N.eqb_spec x 98); lia || done.
Qed.

(** ** Numbers *)

Definition digits (ds : Text) : Prop := ds <> [] /\ Forall (fun c => is_ascii_digit c = true) ds.
Definition minus (sg : Text) : Prop := sg = [] \/ sg = [MINUS].
Definition fraction (fr : Text) : Prop := fr = [] \/ exists ds, fr = DOT :: ds /\ digits ds.
Definition exponent (ex : Text) : Prop :=
  ex = [] \/ exists sg ds, ex = LOWER_E :: sg ++ ds /\ minus sg /\ digits ds.

Record number_text (sg ds fr ex : Text) : Prop := {
  nt_sign : minus sg; nt_digits : digits ds; nt_fraction : fraction fr; nt_exponent : exponent ex }.

(** What follows the digits is not one of them. *)
Definition past_digits (t : Text) : Prop :=
  match t with [] => True | c :: _ => digit_or_underscore c = false /\ c <> 120 /\ c <> 88 /\ c <> 111 /\ c <> 79 /\ c <> 98 /\ c <> 66 end.

Lemma stops_past r : stops r -> past_digits r.
Proof.
  destruct r as [|c r]; [done|]. intros H%stops_cases. split; [|lia].
  apply not_true_iff_false. rewrite digit_or_underscore_spec. lia.
Qed.

Lemma exponent_past ex r : exponent ex -> stops r -> past_digits (ex ++ r).
Proof. intros [-> | (sg & ds & -> & _)] Hr; [by apply stops_past|]. cbn. done. Qed.

Lemma fraction_past fr t : fraction fr -> past_digits t -> past_digits (fr ++ t).
Proof. intros [-> | (ds & -> & _)] Ht; done. Qed.

Lemma digits_read ds t lx : digits ds -> past_digits t -> lx_rest lx = ds ++ t ->
  exists lx', advance_while digit_or_underscore lx = (ds, lx') /\ lx_rest lx' = t /\ lx_lexicon lx' = lx_lexicon lx.
Proof.
  intros [_ Hd] Ht Hr. destruct (advance_while_all digit_or_underscore ds t lx Hr) as (lx' & He & Hm & Hr').
  - refine (Forall_impl _ _ _ Hd _). intros c Hc. unfold digit_or_underscore. by rewrite Hc.
  - destruct t; [done|]. apply Ht.
  - exists lx'. split; [done|]. split; [done|]. exact (moves_lexicon _ _ _ Hm).
Qed.

Lemma digits_head ds t : digits ds -> exists c q, ds ++ t = c :: q /\ is_ascii_digit c = true.
Proof. intros [Hne Hd]. destruct ds as [|c ds]; [done|]. apply Forall_cons in Hd as [Hc _]. by exists c, (ds ++ t). Qed.

Lemma digits_last ds : digits ds -> last ds <> Some UNDERSCORE.
Proof.
  intros [_ Hd] Hl. apply last_Some_elem_of in Hl. rewrite Forall_forall in Hd. by specialize (Hd _ Hl).
Qed.

Lemma digit_not_underscore c : is_ascii_digit c = true -> c <> UNDERSCORE.
Proof. rewrite is_ascii_digit_spec. unfold UNDERSCORE. lia. Qed.

Lemma read_fraction_text ds fr t lx : digits ds -> fraction fr -> past_digits t ->
  match t with c :: _ => c <> DOT | [] => True end -> lx_rest lx = fr ++ t ->
  exists lx', read_fraction ds lx = Ok (ds ++ fr, bool_decide (fr <> []), lx') /\ lx_rest lx' = t
    /\ lx_lexicon lx' = lx_lexicon lx.
Proof.
  intros Hds Hfr Ht Hdot Hr. unfold read_fraction. destruct Hfr as [-> | (d1 & -> & Hd1)].
  - rewrite decide_False; [by exists lx; rewrite app_nil_r|]. unfold current. rewrite Hr. destruct t; cbn; congruence.
  - cbn [app] in Hr. rewrite decide_True by exact (rest_current _ _ _ Hr). rewrite decide_False by (by apply digits_last).
    rewrite decide_False.
    2:{ unfold peek1. rewrite Hr. destruct (digits_head d1 t Hd1) as (c & q & Hq & Hc). cbn. rewrite Hq. cbn.
        intros [= ->]. done. }
    destruct (digits_read d1 t (advance lx) Hd1 Ht (rest_advance _ _ _ Hr)) as (lx' & -> & Hr' & Hl).
    exists lx'. split; [done|]. split; [done|]. rewrite Hl. exact (moves_lexicon _ _ _ (moves_advance _ _ _ Hr)).
Qed.

Lemma read_sign_text sg ds t lx : minus sg -> digits ds -> lx_rest lx = sg ++ ds ++ t ->
  exists lx', read_sign lx = (sg, lx') /\ lx_rest lx' = ds ++ t /\ lx_lexicon lx' = lx_lexicon lx.
Proof.
  intros Hsg Hds Hr. unfold read_sign. destruct Hsg as [-> | ->].
  - destruct (digits_head ds t Hds) as (c & q & Hq & Hc). cbn in Hr. rewrite Hq in Hr. rewrite (rest_current _ _ _ Hr).
    apply digit_not_sign in Hc as [Hm Hp]. unfold is_sign. apply N.eqb_neq in Hm, Hp. rewrite Hm, Hp. exists lx. by rewrite Hr, Hq.
  - rewrite (rest_current _ _ _ Hr). cbn. exists (advance lx). split; [done|]. split; [exact (rest_advance _ _ _ Hr)|].
    exact (moves_lexicon _ _ _ (moves_advance _ _ _ Hr)).
Qed.

Lemma last_app_digits ds fr : digits ds -> fraction fr -> last (ds ++ fr) <> Some UNDERSCORE.
Proof.
  intros Hd [-> | (d1 & -> & Hd1)]; [rewrite app_nil_r; by apply digits_last|].
  rewrite last_app_cons. change (DOT :: d1) with ([DOT] ++ d1). destruct d1 as [|c d1]; [by destruct Hd1|].
  rewrite last_app_cons. by apply digits_last.
Qed.

Lemma read_exponent_text body ex r lx : last body <> Some UNDERSCORE -> exponent ex -> stops r ->
  lx_rest lx = ex ++ r ->
  exists lx', read_exponent body lx = Ok (body ++ ex, bool_decide (ex <> []), lx') /\ lx_rest lx' = r
    /\ lx_lexicon lx' = lx_lexicon lx.
Proof.
  intros Hb Hex Hst Hr. unfold read_exponent. destruct Hex as [-> | (sg & d2 & -> & Hsg & Hd2)].
  - cbn in Hr. destruct r as [|c r]; unfold current; rewrite Hr; cbn; [by exists lx; rewrite app_nil_r|].
    apply stops_cases in Hst. destruct (N.eqb_spec c LOWER_E) as [->|_]; [unfold LOWER_E in Hst; lia|].
    destruct (N.eqb_spec c UPPER_E) as [->|_]; [unfold UPPER_E in Hst; lia|]. by exists lx; rewrite app_nil_r.
  - cbn [app] in Hr. rewrite <- app_assoc in Hr. rewrite (rest_current _ _ _ Hr). cbn [N.eqb LOWER_E Pos.eqb orb]. rewrite decide_False by done.
    pose proof (moves_lexicon _ _ _ (moves_advance _ _ _ Hr)) as Hl0.
    destruct (read_sign_text sg d2 r (advance lx) Hsg Hd2 (rest_advance _ _ _ Hr)) as (lx1 & -> & Hr1 & Hl1).
    destruct (digits_head d2 r Hd2) as (c & q & Hq & Hc). pose proof Hr1 as Hr1'. rewrite Hq in Hr1'.
    rewrite (rest_current _ _ _ Hr1'). rewrite decide_False by (intros [= ->]; done). rewrite Hc.
    destruct (digits_read d2 r lx1 Hd2 (stops_past _ Hst) Hr1) as (lx' & -> & Hr' & Hl'). exists lx'.
    split; [done|]. split; [done|]. by rewrite Hl', Hl1, Hl0.
Qed.

Lemma read_prefix_text ds t lx : digits ds -> past_digits t -> lx_rest lx = ds ++ t -> read_prefix lx = (Decimal, lx).
Proof.
  intros [Hne Hd] Ht Hr. unfold read_prefix. destruct (decide _); [|done]. unfold peek1. rewrite Hr.
  destruct ds as [|c ds]; [done|]. apply Forall_cons in Hd as [_ Hd]. cbn. destruct ds as [|d ds]; cbn.
  - destruct t as [|c' t]; [done|]. cbn. rewrite prefix_char_None; [done|]. apply Ht.
  - apply Forall_cons in Hd as [Hd _]. apply is_ascii_digit_spec in Hd. rewrite prefix_char_None; [done|]. lia.
Qed.

Definition plain (c : Char) : Prop := c <> UNDERSCORE.

Lemma double_underscore_plain t : Forall plain t -> double_underscore t = false.
Proof. induction 1 as [|c t Hc _ IH]; cbn; [done|]. apply N.eqb_neq in Hc. by rewrite Hc, IH. Qed.

Lemma validate_plain t : Forall plain t -> validate_and_strip_underscores t = Ok t.
Proof.
  intros Ht. unfold validate_and_strip_underscores. rewrite double_underscore_plain by done.
  rewrite bool_decide_false by (destruct t; [done|]; apply Forall_cons in Ht as [Hc _]; cbn; congruence).
  rewrite bool_decide_false by (intros Hl%last_Some_elem_of; rewrite Forall_forall in Ht; by apply (Ht _ Hl)). cbn.
  f_equal. clear -Ht. induction Ht as [|c t Hc _ IH]; [done|]. rewrite filter_cons, decide_True by done. by rewrite IH.
Qed.

Lemma number_plain sg ds fr ex : number_text sg ds fr ex -> Forall plain (ds ++ fr ++ ex).
Proof.
  assert (forall d, digits d -> Forall plain d) as Hd by (intros d [_ H]; exact (Forall_impl _ _ _ H digit_not_underscore)).
  intros [_ Hds Hfr Hex]. apply Forall_app. split; [by apply Hd|]. apply Forall_app. split.
  - destruct Hfr as [-> | (d & -> & Hdd)]; [done|]. constructor; [done | by apply Hd].
  - destruct Hex as [-> | (s & d & -> & Hs & Hdd)]; [done|]. constructor; [done|]. apply Forall_app. split; [|by apply Hd].
    destruct Hs as [-> | ->]; [done | by repeat constructor].
Qed.

Section WithStd.
Context `{Unicode, FloatText}.

Lemma read_number_text sg ds fr ex r lx : number_text sg ds fr ex -> stops r ->
  lx_rest lx = sg ++ ds ++ fr ++ ex ++ r ->
  exists lx', lx_rest lx' = r /\ lx_lexicon lx' = lx_lexicon lx /\
    read_number lx =
      let full := sg ++ ds ++ fr ++ ex in
      if bool_decide (fr <> []) || bool_decide (ex <> []) then
        match parse_f64 full with Some f => Ok (Float f, lx') | None => Err LE_InvalidFloat end
      else match parse_i64 full with Some n => Ok (Integer n, lx') | None => Err (LE_InvalidInteger Decimal) end.
Proof.
  intros Hnt Hst Hr. pose proof (number_plain _ _ _ _ Hnt) as Hpl. destruct Hnt as [Hsg Hds Hfr Hex]. unfold read_number.
  destruct (read_sign_text sg ds (fr ++ ex ++ r) lx Hsg Hds Hr) as (lx1 & -> & Hr1 & Hl1).
  pose proof (exponent_past ex r Hex Hst) as Hpe. pose proof (fraction_past fr _ Hfr Hpe) as Hpf.
  rewrite (read_prefix_text ds _ lx1 Hds Hpf Hr1). change (is_prefixed Decimal) with false. cbn match. unfold read_decimal.
  destruct (digits_read ds _ lx1 Hds Hpf Hr1) as (lx2 & -> & Hr2 & Hl2).
  assert (match ex ++ r with c :: _ => c <> DOT | [] => True end) as Hnd.
  { destruct Hex as [-> | (s & d & -> & _)]; [|done]. destruct r as [|c r]; [done|]. apply stops_cases in Hst. cbn. unfold DOT. lia. }
  destruct (read_fraction_text ds fr _ lx2 Hds Hfr Hpe Hnd Hr2) as (lx3 & -> & Hr3 & Hl3). cbn [mbind Out_bind].
  destruct (read_exponent_text (ds ++ fr) ex r lx3 (last_app_digits _ _ Hds Hfr) Hex Hst Hr3) as (lx4 & -> & Hr4 & Hl4). cbn [mbind Out_bind].
  rewrite <- app_assoc, (validate_plain _ Hpl). exists lx4. split; [done|]. split; [by rewrite Hl4, Hl3, Hl2, Hl1 | done].
Qed.

Lemma show_i64_text n : i64_range n = true -> exists sg ds, show_i64 n = sg ++ ds /\ number_text sg ds [] [].
Proof.
  intros Hn%i64_range_spec. unfold show_i64. destruct (show_digits_spec (Z.abs_N n)) as (ds & -> & Hne & Hd & _); [lia|].
  destruct (n <? 0)%Z; [exists [MINUS], ds|exists [], ds]; (split; [done|]; split; [unfold minus; auto|done|by left|by left]).
Qed.

(** ** One token *)

(** The lexicons of the registered epochs, but for the escapes of strings. *)
Definition sharp (L : Lexicon) : Prop :=
  comment_char L = HASH /\ semicolon_splices L = true /\ comma_semicolon_fuses L = true.

(** One token from the cursor, and where it leaves it. *)
Definition lexes_one (lx : Lexer) (t : Token) (r : Text) : Prop :=
  exists tw lx', next_token_with_loc lx = Ok (Some tw, lx') /\ tw_token tw = t /\ lx_rest lx' = r
    /\ lx_lexicon lx' = lx_lexicon lx.

Lemma lex_token_one lx c q t r lx' : lx_rest lx = c :: q -> is_whitespace c = false ->
  lex_token c lx = Ok (t, lx') -> lx_rest lx' = r -> lx_lexicon lx' = lx_lexicon lx -> lexes_one lx t r.
Proof.
  intros Hr Hw Hl Hr' Hlx. unfold lexes_one, next_token_with_loc, skip_whitespace.
  destruct (advance_while_all is_whitespace [] (c :: q) lx Hr) as (lx1 & -> & Hm & _); [constructor|done|].
  assert (lx1 = lx) as -> by (by destruct Hm). cbn [snd]. rewrite (rest_current _ _ _ Hr), Hl. by eexists _, lx'.
Qed.

(** Whitespace before a token changes nothing. *)
Lemma next_token_space lx c q : lx_rest lx = c :: q -> is_whitespace c = true ->
  next_token_with_loc lx = next_token_with_loc (advance lx).
Proof.
  intros Hr Hw. unfold next_token_with_loc. enough (skip_whitespace lx = skip_whitespace (advance lx)) as -> by done.
  unfold skip_whitespace, advance_while. rewrite Hr. cbn [walk]. rewrite Hw, (rest_advance _ _ _ Hr).
  by destruct (walk _ q (advance lx)).
Qed.

Lemma plain_chars c : is_whitespace c || is_delimiter c = false ->
  is_whitespace c = false /\ unit_token c = None /\ c <> COMMA /\ c <> SEMI /\ c <> AT /\ c <> COLON.
Proof.
  intros [Hw Hd]%orb_false_iff. split; [done|].
  assert (forall x, is_delimiter x = true -> c <> x) as Hne by (intros x Hx ->; by rewrite Hx in Hd).
  split; [|repeat split; by apply Hne]. unfold unit_token.
  repeat (match goal with |- context [c =? ?k] => rewrite (proj2 (N.eqb_neq c k)) by (by apply Hne) end). done.
Qed.

(** No symbol is [b] before a bracket. *)
Lemma no_bracket s r lx : symbol_text s = true -> s <> [] -> stops r -> lx_rest lx = s ++ r -> peek1 lx <> Some LBRACKET.
Proof.
  intros Hs Hne Hst Hr Hp. unfold peek1 in Hp. rewrite Hr in Hp. destruct s as [|c [|d s]]; [done| |]; cbn in *.
  - destruct r as [|x r]; [done|]. injection Hp as ->. apply stops_cases in Hst. unfold LBRACKET in Hst. lia.
  - injection Hp as ->. by rewrite andb_false_r in Hs.
Qed.

Lemma symbol_lexes L s r lx : lx_lexicon lx = L -> sharp L -> symbol_token L s -> stops r -> lx_rest lx = s ++ r ->
  lexes_one lx (Symbol s) r.
Proof.
  intros HL (Hcc & _ & _) Hs Hst Hr. destruct s as [|c s]; [done|]. cbn [symbol_token] in Hs.
  destruct (N.eqb_spec c AT) as [->|Hat].
  - destruct Hs as (_ & Htx & Hhd). cbn [app] in Hr.
    pose proof (moves_lexicon _ _ _ (moves_advance _ _ _ Hr)) as Hl0. pose proof (rest_advance _ _ _ Hr) as Har.
    destruct (read_symbol_text (advance lx) s r Har Htx Hst) as (lx' & Hrs & Hm & Hr').
    apply (lex_token_one lx AT (s ++ r) _ r lx' Hr); [done| |done|by rewrite (moves_lexicon _ _ _ Hm)].
    unfold lex_token. rewrite HL, Hcc. cbn. unfold lex_at.
    destruct s as [|d s]; [done|]. rewrite (rest_current _ _ _ Har).
    destruct (N.eqb_spec d PIPE) as [->|_]; [done|].
    rewrite (bool_decide_false (peek1 (advance lx) = Some LBRACKET)) by (by eapply no_bracket). rewrite andb_false_r, Hhd, Hrs. done.
  - destruct Hs as (Hst0 & Htx & Hres & Hsg). unfold starts_symbol in Hst0. apply negb_true_iff in Hst0.
    apply orb_false_iff in Hst0 as [[[Hc1 Hq]%orb_false_iff Hcol]%orb_false_iff Hd].
    pose proof Htx as Htx'. cbn in Htx'. apply andb_true_iff in Htx' as [Hgo _]. unfold symbol_goes_on in Hgo.
    destruct (is_whitespace c || is_delimiter c) eqn:Hin; [by rewrite Hcol in Hgo|].
    destruct (plain_chars c Hin) as (Hw & Hu & H1 & H2 & H3 & H4).
    destruct (read_symbol_text lx (c :: s) r Hr Htx Hst) as (lx' & Hrs & Hm & Hr').
    apply (lex_token_one lx c (s ++ r) _ r lx' Hr Hw); [|done|by rewrite (moves_lexicon _ _ _ Hm)].
    unfold lex_token. rewrite HL, Hc1, Hu. apply N.eqb_neq in H1, H2, H3. rewrite H1, H2, H3, Hcol, Hq, Hd. cbn [orb].
    destruct ((c =? MINUS) || (c =? PLUS)) eqn:Hsc.
    + unfold lex_digit_or_sign. assert (is_sign c = true) as Hsc' by (unfold is_sign; by rewrite orb_comm). rewrite Hsc'.
      assert (match peek1 lx with Some next => negb (is_ascii_digit next) | None => true end = true) as ->.
      { unfold peek1. rewrite Hr. specialize (Hsg Hsc'). destruct s as [|d s]; cbn in *; [|by rewrite Hsg].
        destruct r as [|x r]; [done|]. cbn. apply negb_true_iff, not_true_iff_false. rewrite is_ascii_digit_spec.
        apply stops_cases in Hst. lia. }
      cbn [andb]. rewrite Hrs. done.
    + rewrite (bool_decide_false (peek1 lx = Some LBRACKET)) by (by eapply (no_bracket (c :: s))). rewrite andb_false_r.
      unfold lex_symbol. rewrite Hrs. unfold reserved in Hres. do 2 f_equal.
      rewrite !decide_False; [done|intros He; rewrite He in Hres; set_solver..].
Qed.

Lemma keyword_lexes L k r lx : lx_lexicon lx = L -> sharp L -> keyword_text k -> stops r -> lx_rest lx = COLON :: k ++ r ->
  lexes_one lx (Keyword k) r.
Proof.
  intros HL (Hcc & _ & _) Hk Hst Hr. pose proof (rest_advance _ _ _ Hr) as Har.
  pose proof (moves_lexicon _ _ _ (moves_advance _ _ _ Hr)) as Hl0.
  assert (exists lx', lex_keyword (advance lx) = Ok (Keyword k, lx') /\ lx_rest lx' = r /\ lx_lexicon lx' = lx_lexicon lx) as (lx' & He & Hr' & Hl').
  { unfold lex_keyword. destruct k as [|c k]; [done|]. cbn [keyword_text] in Hk. destruct (N.eqb_spec c AT) as [->|Hc].
    - destruct Hk as [Htx Hne]. rewrite decide_True by exact (rest_current _ _ _ Har).
      destruct (read_symbol_text (advance (advance lx)) k r (rest_advance _ _ _ Har) Htx Hst) as (lx' & -> & Hm & Hr').
      destruct k as [|d k]; [done|]. exists lx'. split; [done|]. split; [done|].
      by rewrite (moves_lexicon _ _ _ Hm), (moves_lexicon _ _ _ (moves_advance _ _ _ Har)).
    - rewrite decide_False by (rewrite (rest_current _ _ _ Har); congruence).
      destruct (read_symbol_text (advance lx) (c :: k) r Har Hk Hst) as (lx' & -> & Hm & Hr').
      exists lx'. split; [done|]. split; [done|]. by rewrite (moves_lexicon _ _ _ Hm). }
  apply (lex_token_one lx COLON (k ++ r) _ r lx' Hr); [done| |done|done]. unfold lex_token. rewrite HL, Hcc. cbn. exact He.
Qed.

Lemma string_lexes L s r lx : lx_lexicon lx = L -> sharp L -> lx_rest lx = StringLiteral s ++ r ->
  lexes_one lx (String s) r.
Proof.
  intros HL (Hcc & _ & _) Hr. unfold StringLiteral in Hr. cbn [app] in Hr. rewrite <- app_assoc in Hr.
  destruct (read_string_spells lx _ s r (literal_spells _ s) Hr) as (lx' & He & Hm & Hr').
  apply (lex_token_one lx QUOTE _ _ r lx' Hr); [done| |done|exact (moves_lexicon _ _ _ Hm)].
  unfold lex_token. rewrite HL, Hcc. cbn -[read_string]. by rewrite He.
Qed.

Lemma number_head sg ds fr ex r : number_text sg ds fr ex ->
  exists c q, sg ++ ds ++ fr ++ ex ++ r = c :: q /\
    (is_ascii_digit c = true \/ c = MINUS /\ exists d q', q = d :: q' /\ is_ascii_digit d = true).
Proof.
  intros [Hsg Hds _ _]. destruct (digits_head ds (fr ++ ex ++ r) Hds) as (c & q & Hq & Hc). rewrite Hq.
  destruct Hsg as [-> | ->]; cbn; eexists _, _; (split; [done|]); eauto 10.
Qed.

Lemma number_lexes L sg ds fr ex r lx : lx_lexicon lx = L -> sharp L -> number_text sg ds fr ex -> stops r ->
  lx_rest lx = sg ++ ds ++ fr ++ ex ++ r ->
  forall t, (let full := sg ++ ds ++ fr ++ ex in
     if bool_decide (fr <> []) || bool_decide (ex <> []) then exists f, parse_f64 full = Some f /\ t = Float f
     else exists n, parse_i64 full = Some n /\ t = Integer n) ->
  lexes_one lx t r.
Proof.
  intros HL (Hcc & _ & _) Hnt Hst Hr t Ht. destruct (read_number_text _ _ _ _ _ _ Hnt Hst Hr) as (lx' & Hr' & Hl' & Hn). cbn zeta in Hn.
  assert (read_number lx = Ok (t, lx')) as Hok.
  { rewrite Hn. cbn zeta in Ht. destruct (bool_decide _ || bool_decide _); destruct Ht as (x & -> & ->); done. }
  destruct (number_head sg ds fr ex r Hnt) as (c & q & Hq & Hc). rewrite Hq in Hr.
  assert (is_ascii_digit c || is_sign c = true) as Hcs by (destruct Hc as [-> | [-> _]]; done).
  assert (is_whitespace c || is_delimiter c = false) as Hin by (destruct Hc as [Hc | [-> _]]; [by apply digit_inside | done]).
  destruct (plain_chars c Hin) as (Hw & Hu & H1 & H2 & H3 & H4).
  apply (lex_token_one lx c q _ r lx' Hr Hw); [|done|done]. unfold lex_token. rewrite HL, Hcc, Hu.
  assert (c <> HASH /\ c <> QUOTE) as [H5 H6].
  { destruct Hc as [Hc%is_ascii_digit_spec | [-> _]]; [unfold HASH, QUOTE; lia | done]. }
  apply N.eqb_neq in H1, H2, H3, H4, H5, H6. rewrite H1, H2, H3, H4, H5, H6.
  assert (is_ascii_digit c || (c =? MINUS) || (c =? PLUS) = true) as ->.
  { destruct Hc as [-> | [-> _]]; done. }
  unfold lex_digit_or_sign. rewrite Hok.
  assert (is_sign c && match peek1 lx with Some next => negb (is_ascii_digit next) | None => true end = false) as ->; [|done].
  unfold peek1. rewrite Hr. destruct Hc as [Hc | (-> & d & q' & -> & Hd)].
  - apply digit_not_sign in Hc as [Hm Hp]. apply N.eqb_neq in Hm, Hp. unfold is_sign. by rewrite Hm, Hp.
  - cbn. by rewrite Hd.
Qed.

(** A double whose [Debug] text is a float literal that parses to it. *)
Definition float_reads (f : N) : Prop := exists sg ds fr ex, debug_f64 f = sg ++ ds ++ fr ++ ex
  /\ number_text sg ds fr ex /\ (fr <> [] \/ ex <> []) /\ parse_f64 (debug_f64 f) = Some f.

Lemma integer_lexes L n r lx : lx_lexicon lx = L -> sharp L -> i64_range n = true -> stops r ->
  lx_rest lx = show_i64 n ++ r -> lexes_one lx (Integer n) r.
Proof.
  intros HL Hsh Hn Hst Hr. destruct (show_i64_text n Hn) as (sg & ds & Hs & Hnt). rewrite Hs, <- app_assoc in Hr.
  apply (number_lexes L sg ds [] [] r lx HL Hsh Hnt Hst Hr). cbn. exists n. rewrite app_nil_r, <- Hs.
  split; [by apply parse_show_i64 | done].
Qed.

Lemma float_lexes L f r lx : lx_lexicon lx = L -> sharp L -> float_reads f -> stops r ->
  lx_rest lx = debug_f64 f ++ r -> lexes_one lx (Float f) r.
Proof.
  intros HL Hsh (sg & ds & fr & ex & Hs & Hnt & Hfe & Hp) Hst Hr. rewrite Hs, <- !app_assoc in Hr.
  apply (number_lexes L sg ds fr ex r lx HL Hsh Hnt Hst Hr). cbn zeta. rewrite <- Hs.
  destruct (bool_decide (fr <> []) || bool_decide (ex <> [])) eqn:Hb; [by exists f|].
  apply orb_false_iff in Hb as [?%bool_decide_eq_false ?%bool_decide_eq_false]. tauto.
Qed.

(** The reserved words. *)
Lemma word_lexes L t s r lx : lx_lexicon lx = L -> sharp L -> stops r -> lx_rest lx = s ++ r ->
  (t = Nil /\ s = text "nil" \/ (exists b, t = Bool b) /\ s = unit_text t) -> lexes_one lx t r.
Proof.
  intros HL (Hcc & _ & _) Hst Hr Ht.
  assert (symbol_text s = true /\ exists c q, s = c :: q /\ is_whitespace c = false
    /\ forall lx', lx_lexicon lx' = L -> read_symbol lx = (s, lx') -> lex_token c lx = Ok (t, lx')) as (Htx & c & q & -> & Hw & Hlt).
  { destruct Ht as [[-> ->] | [[[] ->] ->]]; (split; [done|]; eexists _, _; split; [done|]; split; [done|]);
      intros lx' Hl Hrs; unfold lex_token; rewrite HL, Hcc; cbn; unfold lex_symbol; rewrite Hrs; done. }
  destruct (read_symbol_text lx _ r Hr Htx Hst) as (lx' & Hrs & Hm & Hr').
  apply (lex_token_one lx c _ _ r lx' Hr Hw); [|done|exact (moves_lexicon _ _ _ Hm)].
  apply Hlt; [|done]. by rewrite (moves_lexicon _ _ _ Hm).
Qed.

End WithStd.

(** * Whole sources: the tokens tile the text

    [next_token_takes]: a token is whitespace and a nonempty lexeme.  Over a
    whole source, [lex_tiles]: lexing ends on every text, and the tokens it
    answers are the text, whitespace apart, in order, each at the byte, line and
    column the text before it gives.  The two claims on strings are here too: a
    printed literal reads back under every epoch's escapes, and a respelled one
    reads as it did. *)

Section WithStd.
Context `{Unicode, FloatText}.

Definition blank (s : Text) : Prop := Forall (fun c => is_whitespace c = true) s.

(** One token: blank text, then its lexeme. *)
Definition token_at (lx : Lexer) (tw : TokenWithLoc) (lx' : Lexer) : Prop :=
  exists ws s lx1, blank ws /\ moves lx ws lx1 /\ s <> [] /\ moves lx1 s lx'
    /\ lexeme (lx_lexicon lx) (tw_token tw) s
    /\ tw_loc tw = get_loc lx1 /\ tw_offset tw = lx_pos lx1 /\ tw_len tw = blen s.

Lemma next_token_takes lx : yields (next_token_with_loc lx) (fun '(ot, lx') =>
  match ot with Some tw => token_at lx tw lx' | None => blank (lx_rest lx) end).
Proof.
  unfold next_token_with_loc. destruct (skip_whitespace_moves lx) as (ws & Hm & Hws & Hstop).
  set (lx1 := skip_whitespace lx) in *. destruct (lx_rest lx1) as [|c r] eqn:Hr.
  - unfold current. rewrite Hr. cbn. destruct Hm as [Hm _]. by rewrite Hm, Hr, app_nil_r.
  - rewrite (rest_current _ _ _ Hr). apply (yields_bind _ _ _ _ (lex_token_takes lx1 c r Hr Hstop)).
    intros [t lx'] (s & Hne & Hm' & Hl). cbn in *. exists ws, s, lx1. repeat split; try done; try apply Hm; try apply Hm'.
    + by rewrite <- (moves_lexicon _ _ _ Hm).
    + unfold spanned. cbn. apply moves_place in Hm' as (-> & _). lia.
Qed.

(** The tokens from a point of the source on: [before] is the text up to it. *)
Fixpoint tiling (name : list N) (L : Lexicon) (before rest : Text) (ts : list TokenWithLoc) : Prop :=
  match ts with
  | [] => blank rest
  | tw :: ts => exists ws s rest', rest = ws ++ s ++ rest' /\ blank ws /\ s <> []
      /\ lexeme L (tw_token tw) s
      /\ tw_offset tw = blen (before ++ ws) /\ tw_len tw = blen s
      /\ tw_loc tw = mkLoc name (1 + lines (before ++ ws)) (columns 1 (before ++ ws))
      /\ tiling name L (before ++ ws ++ s) rest' ts
  end.

(** The cursor after a text. *)
Definition after (name : list N) (L : Lexicon) (before : Text) (lx : Lexer) : Prop :=
  lx_pos lx = blen before /\ lx_line lx = 1 + lines before /\ lx_col lx = columns 1 before
  /\ lx_file lx = name /\ lx_lexicon lx = L.

Lemma lines_app a b : lines (a ++ b) = lines a + lines b.
Proof. induction a as [|c a IH]; cbn; [done|]. destruct (c =? NEWLINE); rewrite IH; lia. Qed.

Lemma columns_app col a b : columns col (a ++ b) = columns (columns col a) b.
Proof. revert col. induction a as [|c a IH]; intros col; cbn; [done|]. by rewrite IH. Qed.

Lemma after_moves name L before lx t lx' : after name L before lx -> moves lx t lx' -> after name L (before ++ t) lx'.
Proof.
  intros (H1 & H2 & H3 & H4 & H5) (Hp & Hli & Hc & Hf & Hl)%moves_place. unfold after.
  rewrite Hp, Hli, Hc, Hf, Hl, blen_app, lines_app, columns_app, H1, H2, H3. repeat split; lia || done.
Qed.

Lemma lex_loop_tiles name L n lx before acc : after name L before lx -> (length (lx_rest lx) < n)%nat ->
  yields (lex_loop n acc lx) (fun ts => exists us, ts = acc ++ us /\ tiling name L before (lx_rest lx) us).
Proof.
  revert lx before acc. induction n as [|n IH]; intros lx before acc Ha Hn; [lia|]. cbn [lex_loop].
  apply (yields_bind _ _ _ _ (next_token_takes lx)). intros [[tw|] lx'] Ht.
  2:{ exists []. rewrite app_nil_r. by split. }
  destruct Ht as (ws & s & lx1 & Hws & Hm1 & Hne & Hm2 & Hl & Hloc & Hoff & Hlen).
  pose proof (after_moves _ _ _ _ _ _ Ha Hm1) as Ha1. pose proof (after_moves _ _ _ _ _ _ Ha1 Hm2) as Ha2.
  pose proof (proj1 Hm1) as Hr1. pose proof (proj1 Hm2) as Hr2. rewrite Hr2 in Hr1.
  assert (length (lx_rest lx') < n)%nat as Hn'.
  { rewrite Hr1 in Hn. rewrite !length_app in Hn. destruct s; [done|]. cbn in Hn. lia. }
  refine (yields_mono _ _ _ (IH lx' _ (acc ++ [tw]) Ha2 Hn') _). intros ts (us & -> & Hus).
  exists (tw :: us). rewrite <- app_assoc. split; [done|]. cbn. exists ws, s, (lx_rest lx').
  destruct Ha as (_ & _ & _ & Hf & HL). destruct Ha1 as (Hp & Hli & Hco & Hfi & _).
  rewrite <- app_assoc in Hus. rewrite HL in Hl. repeat split; try done.
  - by rewrite Hoff.
  - rewrite Hloc. unfold get_loc. by rewrite Hli, Hco, Hfi.
Qed.

(** C11: lexing ends on every source text under every lexicon, and when it
    answers, its tokens are the text in order: between two of them there is
    only whitespace, each has the text of its lexeme (a symbol, keyword or
    comment its own characters, a string a literal that spells it), and carries
    the byte offset, byte length, line and column of that text. *)
Theorem lex_tiles (input : Text) (name : list N) (L : Lexicon) :
  yields (lex_all_under input name L) (tiling name L [] (strip_shebang input)).
Proof.
  unfold lex_all_under. set (t := strip_shebang input).
  set (lx := in_lexicon (Lexer_with_file t name) L).
  assert (after name L [] lx) as Ha by done.
  refine (yields_mono _ _ _ (lex_loop_tiles name L (S (length t)) lx [] [] Ha _) _); [cbn; lia|].
  by intros ts (us & -> & Hus).
Qed.

(** A string printed as a literal reads back, under the escapes of every
    epoch and whatever follows it, as a string token that holds it. *)
Theorem string_literal_reads_back (epoch : N) (s r : Text) (lx : Lexer) :
  lx_lexicon lx = for_epoch epoch -> lx_rest lx = StringLiteral s ++ r ->
  exists tw lx', next_token_with_loc lx = Ok (Some tw, lx') /\ tw_token tw = String s /\ lx_rest lx' = r.
Proof.
  intros HL Hr. destruct (string_lexes _ s r lx HL ltac:(done) Hr) as (tw & lx' & H1 & H2 & H3 & _). by exists tw, lx'.
Qed.

(** C13: a string literal moved between epochs keeps its meaning: when the
    lexicon of one epoch reads [s] from a lexeme, respelling it for another
    epoch never fails, and the text it answers (or the old one, when it answers
    none) reads as [s] there, whatever follows. *)
Theorem respell_preserves (e1 e2 : N) (lx lx1 : Lexer) (s lex : Text) :
  lx_lexicon lx = for_epoch e1 -> current lx = Some QUOTE -> read_string lx = Ok (s, lx1) -> moves lx lex lx1 ->
  exists out, lexicon_respell (for_epoch e1) (String s) lex (for_epoch e2) = Ok out /\
    forall lx2 r, lx_lexicon lx2 = for_epoch e2 -> lx_rest lx2 = default lex out ++ r ->
      exists lx', read_string lx2 = Ok (s, lx') /\ lx_rest lx' = r.
Proof.
  intros HL Hc Hrd Hlex. apply current_rest in Hc as [q Hq]. pose proof (read_string_moves lx q Hq) as Hy. rewrite Hrd in Hy.
  destruct Hy as (b & Hs & Hm). rewrite HL in Hs.
  assert (lex = QUOTE :: b ++ [QUOTE]) as ->.
  { destruct Hlex as [Hlex _], Hm as [Hm _]. rewrite Hlex in Hm. by apply app_inv_tail in Hm. }
  assert (forall b', spells (string_escapes (for_epoch e2)) b' s -> forall lx2 r,
    lx_lexicon lx2 = for_epoch e2 -> lx_rest lx2 = (QUOTE :: b' ++ [QUOTE]) ++ r ->
    exists lx', read_string lx2 = Ok (s, lx') /\ lx_rest lx' = r) as Hread.
  { intros b' Hb' lx2 r HL2 Hr2. rewrite <- HL2 in Hb'. cbn in Hr2. rewrite <- app_assoc in Hr2.
    destruct (read_string_spells lx2 b' s r Hb' Hr2) as (lx' & H1 & _ & H2). by exists lx'. }
  unfold lexicon_respell. destruct (decide _) as [He|He].
  - exists None. split; [done|]. rewrite He in Hs. exact (Hread b Hs).
  - destruct (respell_spec _ (string_escapes (for_epoch e2)) b s Hs) as ([lit|] & -> & Hr).
    + exists (Some lit). split; [done|]. destruct Hr as (b' & -> & Hb'). exact (Hread b' Hb').
    + exists None. split; [done|]. exact (Hread b Hr).
Qed.

End WithStd.

(** ** On concrete text *)

(** No character above ASCII is alphabetic. *)
#[export] Instance ascii_only : Unicode := fun _ => false.

(** The doubles of two texts, as the standard library reads and prints them. *)
Definition one_and_a_half : N := 0x3FF8000000000000.
Definition infinity : N := 0x7FF0000000000000.

#[export] Instance two_floats : FloatText :=
  {| parse_f64 := fun t => if decide (t = text "1.5") then Some one_and_a_half
                           else if decide (t = text "1e999") then Some infinity else None;
     debug_f64 := fun f => if decide (f = one_and_a_half) then text "1.5" else text "inf" |}.

Definition at_start (t : Text) (epoch : N) : Lexer := in_lexicon (Lexer_with_file t UNKNOWN_FILE) (for_epoch epoch).

(** Two characters, the first one that must be escaped. *)
Lemma string_literal_reads_back_witness :
  StringLiteral [QUOTE; 97] = [QUOTE; BACKSLASH; QUOTE; 97; QUOTE] /\
  exists tw lx', next_token_with_loc (at_start (StringLiteral [QUOTE; 97] ++ [RPAREN]) 15) = Ok (Some tw, lx')
    /\ tw_token tw = String [QUOTE; 97] /\ lx_rest lx' = [RPAREN].
Proof. split; [reflexivity|]. apply (string_literal_reads_back 15 [QUOTE; 97] [RPAREN]); reflexivity. Defined.

(** The literal of epoch 12 whose escape the strict rules do not know. *)
Lemma respell_preserves_witness :
  lexicon_respell (for_epoch 12) (String [113]) [QUOTE; BACKSLASH; 113; QUOTE] (for_epoch 13)
    = Ok (Some [QUOTE; 113; QUOTE]) /\
  exists out, lexicon_respell (for_epoch 12) (String [113]) [QUOTE; BACKSLASH; 113; QUOTE] (for_epoch 13) = Ok out /\
    forall lx2 r, lx_lexicon lx2 = for_epoch 13 -> lx_rest lx2 = default [QUOTE; BACKSLASH; 113; QUOTE] out ++ r ->
      exists lx', read_string lx2 = Ok ([113], lx') /\ lx_rest lx' = r.
Proof.
  split; [reflexivity|].
  apply (respell_preserves 12 13 (at_start [QUOTE; BACKSLASH; 113; QUOTE; SPACE] 12)
    (Nat.iter 4 advance (at_start [QUOTE; BACKSLASH; 113; QUOTE; SPACE] 12))); reflexivity || (split; reflexivity).
Defined.
