(* ===== verification/SynReader.v ===== *)
(** * The syntax reader

    [syntax/kind.rs], [syntax/node.rs] (the tree), [reader/syntax.rs],
    [reader/syntax/collections.rs] and the parsing half of [reader/mod.rs].

    The nine sequence kinds and the six single-child kinds differ only in their
    constructor, so a kind names it by value, as [SeqCtor] and [WrapCtor] do in
    the code.  A node the reader builds has no scopes and no exemption
    ([Syntax::new]); [Syntax] keeps its kind and its span.  The arena is where
    nodes live and is not part of the tree.  Naming a span's file interns it, so
    the reader's state carries the file table of [Files].

    The mutual recursion of [read], [read_one] and the collections is open: the
    definitions take the reader of a sub-form, and [read] ties the knot with a
    fuel, which also bounds the loop over a collection's elements.  An error
    keeps the reader's state, as [&mut self] does. *)

From stdpp Require Import base numbers option list strings.
From S2P Require Import Prelude LirRecord Files Text Escape Lexer.

Local Open Scope N_scope.

(** ** The tree *)

Inductive SeqCtor :=
| SK_List | SK_Array | SK_ArrayMut | SK_Struct | SK_StructMut | SK_Set | SK_SetMut
| SK_Bytes | SK_BytesMut.

Inductive WrapCtor :=
| SK_Quote | SK_Quasiquote | SK_Unquote | SK_UnquoteSplicing | SK_Splice | SK_SyntaxLiteral.

#[export] Instance SeqCtor_eq_dec : EqDecision SeqCtor.
Proof. solve_decision. Defined.
#[export] Instance WrapCtor_eq_dec : EqDecision WrapCtor.
Proof. solve_decision. Defined.

Inductive Syntax := mkSyntax (kind : SyntaxKind) (span : Span)
with SyntaxKind :=
| SK_Nil
| SK_Bool (b : bool)
| SK_Int (n : Z)
| SK_Float (bits : N)
| SK_Symbol (s : Text)
| SK_Keyword (s : Text)
| SK_String (s : Text)
| SK_StringMut (s : Text)
| SK_Seq (make : SeqCtor) (items : list Syntax)
| SK_Wrap (make : WrapCtor) (inner : Syntax).

Definition syn_kind (s : Syntax) : SyntaxKind := let '(mkSyntax k _) := s in k.
Definition syn_span (s : Syntax) : Span := let '(mkSyntax _ p) := s in p.

(** ** State *)

(** [LexedTokens], the columns the lexer fills. *)
Record LexedTokens := mkColumns {
  lt_tokens : list Token; lt_locations : list SourceLoc;
  lt_lengths : list N; lt_offsets : list N }.

(** The pushes of [lex_all_under]. *)
Definition columns_of (ts : list TokenWithLoc) : LexedTokens :=
  mkColumns (tw_token <$> ts) (tw_loc <$> ts) (tw_len <$> ts) (tw_offset <$> ts).

Definition DEFAULT_TOKEN_LEN : N := 1.

Inductive OpenFormKind := OF_List | OF_Array | OF_Struct | OF_Set | OF_Bytes.

#[export] Instance OpenFormKind_eq_dec : EqDecision OpenFormKind.
Proof. solve_decision. Defined.

(** [OpenFormKind::delimiter], as the text it names. *)
Inductive Delimiter := D_Paren | D_Bracket | D_Brace | D_Pipe.

#[export] Instance Delimiter_eq_dec : EqDecision Delimiter.
Proof. solve_decision. Defined.

Definition delimiter (k : OpenFormKind) : Delimiter :=
  match k with
  | OF_List => D_Paren
  | OF_Array | OF_Bytes => D_Bracket
  | OF_Struct => D_Brace
  | OF_Set => D_Pipe
  end.

Record OpenForm := mkOpen { of_kind : OpenFormKind; of_loc : SourceLoc }.

Record SyntaxReader := mkReader {
  sr_tokens : list TokenWithLoc; sr_pos : nat; sr_open : list OpenForm; sr_files : Files }.

(** [from_columns]: a position a column lacks falls back. *)
Definition from_columns (c : LexedTokens) (F : Files) : SyntaxReader :=
  mkReader
    (imap (fun i t => mkTok t (default loc_start (lt_locations c !! i))
                        (default DEFAULT_TOKEN_LEN (lt_lengths c !! i))
                        (default 0 (lt_offsets c !! i))) (lt_tokens c))
    0 [] F.

Definition with_pos (s : SyntaxReader) (p : nat) : SyntaxReader :=
  mkReader (sr_tokens s) p (sr_open s) (sr_files s).
Definition with_open (s : SyntaxReader) (o : list OpenForm) : SyntaxReader :=
  mkReader (sr_tokens s) (sr_pos s) o (sr_files s).
Definition with_files (s : SyntaxReader) (F : Files) : SyntaxReader :=
  mkReader (sr_tokens s) (sr_pos s) (sr_open s) F.

Definition sr_at (s : SyntaxReader) : option TokenWithLoc := sr_tokens s !! sr_pos s.

Definition current_token (s : SyntaxReader) : option Token := tw_token <$> sr_at s.

Definition current_location (s : SyntaxReader) : SourceLoc :=
  default loc_start (tw_loc <$> (match sr_at s with Some t => Some t | None => last (sr_tokens s) end)).

Definition current_length (s : SyntaxReader) : N := default DEFAULT_TOKEN_LEN (tw_len <$> sr_at s).
Definition current_byte_offset (s : SyntaxReader) : N := default 0 (tw_offset <$> sr_at s).

Definition sr_advance (s : SyntaxReader) : SyntaxReader := with_pos s (S (sr_pos s)).

(** ** Errors *)

(** The parenthesis of the unterminated message. *)
Inductive Missing :=
| M_Delimiters (depth : nat)             (* n closing delimiters needed *)
| M_Parens (depth : nat)                 (* n closing parens needed *)
| M_One (d : Delimiter)                  (* missing closing d *)
| M_Many (depth : nat) (d : Delimiter).  (* n closing ds needed *)

Inductive ReadError :=
| R_NoInput
| R_UnexpectedEnd (loc : SourceLoc)
| R_UnexpectedClosing (t : Token) (loc : SourceLoc)
| R_Unterminated (loc : SourceLoc) (kind : OpenFormKind) (missing : Missing)
| R_Sugar (loc : SourceLoc)
| R_AfterExpression (loc : SourceLoc) (t : Token)
| R_Lex (e : LexError)
| R_Epoch (digits : Text).

(** [unterminated_collection]; [None] is its [expect]. *)
Definition unterminated_collection (s : SyntaxReader) : option ReadError :=
  match sr_open s with
  | [] => None
  | first :: _ =>
    let depth := length (sr_open s) in
    let d := delimiter (of_kind first) in
    let same_delimiter := forallb (fun f => bool_decide (delimiter (of_kind f) = d)) (sr_open s) in
    Some (R_Unterminated (of_loc first) (of_kind first)
      (if negb same_delimiter then M_Delimiters depth
       else if decide (of_kind first = OF_List) then M_Parens depth
       else if (depth =? 1)%nat then M_One d else M_Many depth d))
  end.

Definition open_form (s : SyntaxReader) (k : OpenFormKind) (loc : SourceLoc) : SyntaxReader :=
  with_open s (sr_open s ++ [mkOpen k loc]).

(** [make_span] *)
Definition make_span (byte_start byte_end : N) (loc : SourceLoc) (s : SyntaxReader) : Span * SyntaxReader :=
  let span := Span_new byte_start byte_end (as_u32 (loc_line loc)) (as_u32 (loc_col loc)) in
  if is_unknown loc then (span, s)
  else let '(span, F) := with_file (sr_files s) span (loc_file loc) in (span, with_files s F).

(** ** Reading *)

(** What a read leaves behind: its answer and the reader, whether it answers a
    form or an error. *)
Inductive Read (A : Type) :=
| RdOk (a : A) (s : SyntaxReader)
| RdErr (e : ReadError) (s : SyntaxReader)
| RdPanics
| RdStarved.
Arguments RdOk {_}. Arguments RdErr {_}. Arguments RdPanics {_}. Arguments RdStarved {_}.

Definition rd_bind {A B} (m : Read A) (f : A -> SyntaxReader -> Read B) : Read B :=
  match m with
  | RdOk a s => f a s | RdErr e s => RdErr e s | RdPanics => RdPanics | RdStarved => RdStarved
  end.

Definition rd_with {A} (f : SyntaxReader -> SyntaxReader) (m : Read A) : Read A :=
  match m with
  | RdOk a s => RdOk a (f s) | RdErr e s => RdErr e (f s) | RdPanics => RdPanics | RdStarved => RdStarved
  end.

(** The node of [kind] from [start] to [end_]. *)
Definition node (kind : SyntaxKind) (start end_ : N) (loc : SourceLoc) (s : SyntaxReader) : Read Syntax :=
  let '(span, s) := make_span start end_ loc s in RdOk (mkSyntax kind span) s.

(** The arms of one token. *)
Definition read_atom (kind : SyntaxKind) (loc : SourceLoc) (boff : N) (s : SyntaxReader) : Read Syntax :=
  node kind boff (boff + current_length s) loc (sr_advance s).

Fixpoint skip_comments (n : nat) (s : SyntaxReader) : SyntaxReader :=
  match n with
  | O => s
  | S n => match current_token s with
           | Some (Comment _) => skip_comments n (sr_advance s)
           | _ => s
           end
  end.

Section Open.
Variable read : SyntaxReader -> Read Syntax.
Variable fuel : nat.

(** The arms of a prefix. *)
Definition read_wrapped (make : WrapCtor) (loc : SourceLoc) (boff : N) (s : SyntaxReader) : Read Syntax :=
  rd_bind (read (sr_advance s)) (fun inner s =>
  node (SK_Wrap make inner) boff (sp_end (syn_span inner)) loc s).

(** [read_elements] *)
Fixpoint read_elements (n : nat) (close : Token) (make : SeqCtor) (loc : SourceLoc) (boff : N)
    (elements : list Syntax) (s : SyntaxReader) : Read Syntax :=
  match n with
  | O => RdStarved
  | S n =>
    match current_token s with
    | None => match unterminated_collection s with Some e => RdErr e s | None => RdPanics end
    | Some t =>
      if decide (t = close) then
        let end_ := current_byte_offset s + current_length s in
        node (SK_Seq make elements) boff end_ loc (sr_advance s)
      else match t with
      | Comment _ => read_elements n close make loc boff elements (sr_advance s)
      | _ => rd_bind (read s) (fun e s => read_elements n close make loc boff (elements ++ [e]) s)
      end
    end
  end.

(** [read_delimited] *)
Definition read_delimited (kind : OpenFormKind) (close : Token) (make : SeqCtor) (loc : SourceLoc)
    (boff : N) (s : SyntaxReader) : Read Syntax :=
  let depth := length (sr_open s) in
  rd_with (fun s => with_open s (take depth (sr_open s)))
    (read_elements fuel close make loc boff [] (sr_advance (open_form s kind loc))).

(** [read_list_sugar] *)
Definition read_list_sugar (loc : SourceLoc) (boff : N) (s : SyntaxReader) : Read Syntax :=
  let s := sr_advance s in
  match current_token s with
  | Some LeftBracket => read_delimited OF_Array RightBracket SK_ArrayMut loc boff s
  | Some LeftBrace => read_delimited OF_Struct RightBrace SK_StructMut loc boff s
  | Some (String t) =>
    node (SK_StringMut t) boff (current_byte_offset s + current_length s) loc (sr_advance s)
  | _ => RdErr (R_Sugar loc) s
  end.

(** [read_one] *)
Definition read_one (t : Token) (loc : SourceLoc) (boff : N) (s : SyntaxReader) : Read Syntax :=
  match t with
  | Comment _ => read (sr_advance s)
  | LeftParen => read_delimited OF_List RightParen SK_List loc boff s
  | LeftBracket => read_delimited OF_Array RightBracket SK_Array loc boff s
  | LeftBrace => read_delimited OF_Struct RightBrace SK_Struct loc boff s
  | ListSugar => read_list_sugar loc boff s
  | Pipe => read_delimited OF_Set Pipe SK_Set loc boff s
  | AtPipe => read_delimited OF_Set Pipe SK_SetMut loc boff s
  | BytesBracket => read_delimited OF_Bytes RightBracket SK_Bytes loc boff s
  | AtBytesBracket => read_delimited OF_Bytes RightBracket SK_BytesMut loc boff s
  | Quote => read_wrapped SK_Quote loc boff s
  | Quasiquote => read_wrapped SK_Quasiquote loc boff s
  | Unquote => read_wrapped SK_Unquote loc boff s
  | UnquoteSplicing => read_wrapped SK_UnquoteSplicing loc boff s
  | Splice => read_wrapped SK_Splice loc boff s
  | Integer n => read_atom (SK_Int n) loc boff s
  | Float f => read_atom (SK_Float f) loc boff s
  | String x => read_atom (SK_String x) loc boff s
  | Bool b => read_atom (SK_Bool b) loc boff s
  | Nil => read_atom SK_Nil loc boff s
  | Symbol x => read_atom (SK_Symbol x) loc boff s
  | Keyword x => read_atom (SK_Keyword x) loc boff s
  | RightParen | RightBracket | RightBrace => RdErr (R_UnexpectedClosing t loc) s
  end.

(** [try_read]: nothing at the end of input. *)
Definition try_read (s : SyntaxReader) : Read (option Syntax) :=
  let s := skip_comments (length (sr_tokens s)) s in
  match current_token s with
  | None => RdOk None s
  | Some t =>
    rd_bind (read_one t (current_location s) (current_byte_offset s) s) (fun e s => RdOk (Some e) s)
  end.

End Open.

(** [read] *)
Fixpoint read (n : nat) (s : SyntaxReader) : Read Syntax :=
  match n with
  | O => RdStarved
  | S n =>
    rd_bind (try_read (read n) n s) (fun e s =>
    match e with
    | Some e => RdOk e s
    | None => RdErr (R_UnexpectedEnd (current_location s)) s
    end)
  end.

(** Each form takes a token, and so does each element; one more round sees the
    end. *)
Definition read_fuel (s : SyntaxReader) : nat := S (length (sr_tokens s)).

Fixpoint read_all_loop (n : nat) (fuel : nat) (results : list Syntax) (s : SyntaxReader) : Read (list Syntax) :=
  match n with
  | O => RdStarved
  | S n =>
    rd_bind (try_read (read fuel) fuel s) (fun e s =>
    match e with
    | Some e => read_all_loop n fuel (results ++ [e]) s
    | None => RdOk results s
    end)
  end.

(** [read_all] *)
Definition read_all (s : SyntaxReader) : Read (list Syntax) :=
  read_all_loop (read_fuel s) (read_fuel s) [] s.

(** ** Entry points *)

Definition to_out {A} (m : Read A) : Out ReadError (A * Files) :=
  match m with
  | RdOk a s => Ok (a, sr_files s) | RdErr e _ => Err e | RdPanics => Panics | RdStarved => Starved
  end.

(** [parse_all] *)
Definition parse_all (lex : LexedTokens) (F : Files) : Out ReadError (list Syntax * Files) :=
  match lt_tokens lex with
  | [] => Ok ([], F)
  | _ => to_out (read_all (from_columns lex F))
  end.

Section WithStd.
Context `{Unicode, FloatText}.

Definition lex_columns (input : Text) (name : list N) (l : Lexicon) : Out ReadError LexedTokens :=
  match lex_all_under input name l with
  | Ok ts => Ok (columns_of ts) | Err e => Err (R_Lex e) | Panics => Panics | Starved => Starved
  end.

(** [read_syntax_all] under an explicit lexicon, as [read_syntax_all_current]
    reads under the current one. *)
Definition read_syntax_under (input : Text) (name : list N) (l : Lexicon) (F : Files)
    : Out ReadError (list Syntax * Files) :=
  lex ← lex_columns input name l; parse_all lex F.

(** [read_syntax], after the choice of the lexicon: one form, and nothing after
    it. *)
Definition read_one_under (input : Text) (name : list N) (l : Lexicon) (F : Files)
    : Out ReadError (Syntax * Files) :=
  lex ← lex_columns input name l;
  match lt_tokens lex with
  | [] => Err R_NoInput
  | _ =>
    let s := from_columns lex F in
    to_out (rd_bind (read (read_fuel s) s) (fun e s =>
      match current_token s with
      | Some t => RdErr (R_AfterExpression (current_location s) t) s
      | None => RdOk e s
      end))
  end.

End WithStd.
