(* ===== verification/SynGrammar.v ===== *)
(** * What the syntax reader reads

    The grammar of the token stream as relations on token indices: [located T i
    j e] says that the tokens [i] up to [j] of [T] spell the form [e] with the
    spans they give, [elements] the same for the inside of a collection.
    [read_located] shows that the reader answers only what the grammar allows,
    ends, and leaves its stack of open forms as it was; [tree_tokens] is the
    token sequence of a form. *)

From stdpp Require Import base numbers option list strings.
From S2P Require Import Prelude LirRecord Files Text Escape Lexer SynReader.

Local Open Scope N_scope.

(** ** The tokens of each kind *)

Definition is_comment (t : Token) : bool := match t with Comment _ => true | _ => false end.

Definition atom_kind (t : Token) : option SyntaxKind :=
  match t with
  | Nil => Some SK_Nil
  | Bool b => Some (SK_Bool b)
  | Integer n => Some (SK_Int n)
  | Float f => Some (SK_Float f)
  | Symbol s => Some (SK_Symbol s)
  | Keyword s => Some (SK_Keyword s)
  | String s => Some (SK_String s)
  | _ => None
  end.

Definition wrap_kind (t : Token) : option WrapCtor :=
  match t with
  | Quote => Some SK_Quote
  | Quasiquote => Some SK_Quasiquote
  | Unquote => Some SK_Unquote
  | UnquoteSplicing => Some SK_UnquoteSplicing
  | Splice => Some SK_Splice
  | _ => None
  end.

(** The collection a token opens, what closes it and how it is counted. *)
Definition seq_kind (t : Token) : option (SeqCtor * Token * OpenFormKind) :=
  match t with
  | LeftParen => Some (SK_List, RightParen, OF_List)
  | LeftBracket => Some (SK_Array, RightBracket, OF_Array)
  | LeftBrace => Some (SK_Struct, RightBrace, OF_Struct)
  | Pipe => Some (SK_Set, Pipe, OF_Set)
  | AtPipe => Some (SK_SetMut, Pipe, OF_Set)
  | BytesBracket => Some (SK_Bytes, RightBracket, OF_Bytes)
  | AtBytesBracket => Some (SK_BytesMut, RightBracket, OF_Bytes)
  | _ => None
  end.

(** The same after the list sugar. *)
Definition sugar_kind (t : Token) : option (SeqCtor * Token * OpenFormKind) :=
  match t with
  | LeftBracket => Some (SK_ArrayMut, RightBracket, OF_Array)
  | LeftBrace => Some (SK_StructMut, RightBrace, OF_Struct)
  | _ => None
  end.

(** ** The grammar *)

Section Grammar.
Variable T : list TokenWithLoc.

Definition comments (i j : nat) : Prop :=
  (i <= j)%nat /\ forall k, (i <= k < j)%nat -> exists tw, T !! k = Some tw /\ is_comment (tw_token tw) = true.

(** A span from the start of a token to a byte offset. *)
Definition covers (tw : TokenWithLoc) (end_ : N) (sp : Span) : Prop :=
  sp_start sp = as_u32 (tw_offset tw) /\ sp_end sp = as_u32 end_
  /\ sp_line sp = as_u32 (loc_line (tw_loc tw)) /\ sp_col sp = as_u32 (loc_col (tw_loc tw)).

Definition tw_end (tw : TokenWithLoc) : N := tw_offset tw + tw_len tw.

Inductive located : nat -> nat -> Syntax -> Prop :=
| loc_atom i tw k sp : T !! i = Some tw -> atom_kind (tw_token tw) = Some k ->
    covers tw (tw_end tw) sp -> located i (S i) (mkSyntax k sp)
| loc_wrap i tw make j k inner sp : T !! i = Some tw -> wrap_kind (tw_token tw) = Some make ->
    comments (S i) j -> located j k inner -> covers tw (sp_end (syn_span inner)) sp ->
    located i k (mkSyntax (SK_Wrap make inner) sp)
| loc_seq i tw make close kd j twc items sp : T !! i = Some tw ->
    seq_kind (tw_token tw) = Some (make, close, kd) -> elements close (S i) j items ->
    T !! j = Some twc -> tw_token twc = close -> covers tw (tw_end twc) sp ->
    located i (S j) (mkSyntax (SK_Seq make items) sp)
| loc_sugar i tw tw1 make close kd j twc items sp : T !! i = Some tw -> tw_token tw = ListSugar ->
    T !! S i = Some tw1 -> sugar_kind (tw_token tw1) = Some (make, close, kd) ->
    elements close (S (S i)) j items ->
    T !! j = Some twc -> tw_token twc = close -> covers tw (tw_end twc) sp ->
    located i (S j) (mkSyntax (SK_Seq make items) sp)
| loc_string_mut i tw tw1 x sp : T !! i = Some tw -> tw_token tw = ListSugar ->
    T !! S i = Some tw1 -> tw_token tw1 = String x -> covers tw (tw_end tw1) sp ->
    located i (S (S i)) (mkSyntax (SK_StringMut x) sp)
with elements : Token -> nat -> nat -> list Syntax -> Prop :=
| el_nil close i j : comments i j -> elements close i j []
| el_cons close i k tw j m e es : comments i k -> T !! k = Some tw -> tw_token tw <> close ->
    located k j e -> elements close j m es -> elements close i m (e :: es).

Scheme located_mut := Minimality for located Sort Prop
  with elements_mut := Minimality for elements Sort Prop.
Combined Scheme grammar_ind from located_mut, elements_mut.

Lemma grammar_lt :
  (forall i j e, located i j e -> (i < j)%nat) /\ (forall close i j es, elements close i j es -> (i <= j)%nat).
Proof. apply grammar_ind; unfold comments; intros; lia. Qed.

Lemma comments_refl i : comments i i.
Proof. split; [done|]. lia. Qed.

Lemma comments_app i j k : comments i j -> comments j k -> comments i k.
Proof.
  intros [H1 H2] [H3 H4]. split; [lia|]. intros m Hm. destruct (decide (m < j)%nat); [apply H2|apply H4]; lia.
Qed.

Lemma comments_step i tw : T !! i = Some tw -> is_comment (tw_token tw) = true -> comments i (S i).
Proof. intros Ht Hc. split; [lia|]. intros k Hk. replace k with i by lia. eauto. Qed.

Lemma elements_after close i j m es : comments i j -> elements close j m es -> elements close i m es.
Proof.
  intros Hc He. destruct He as [close j m H|close j k tw l m e es H Ht Hne Hl Hes].
  - apply el_nil. exact (comments_app _ _ _ Hc H).
  - exact (el_cons _ _ _ _ _ _ _ _ (comments_app _ _ _ Hc H) Ht Hne Hl Hes).
Qed.

(** The elements in the order the reader collects them. *)
Lemma elements_snoc close i j k tw m e es : elements close i j es -> comments j k -> T !! k = Some tw ->
  tw_token tw <> close -> located k m e -> elements close i m (es ++ [e]).
Proof.
  intros H Hc Ht Hne He. induction H as [close i j H|close i k' tw' j' m' e' es' H H1 H2 H3 H4 IH]; cbn.
  - exact (el_cons _ _ _ _ _ _ _ _ (comments_app _ _ _ H Hc) Ht Hne He (el_nil _ _ _ (comments_refl _))).
  - econstructor; eauto.
Qed.

(** ** The reader stays within the grammar *)

(** The states of one source. *)
Definition on_source (s : SyntaxReader) : Prop := sr_tokens s = T /\ (sr_pos s <= length T)%nat.

(** A good end of a read begun at [s]: one form, its tokens consumed. *)
Definition reads (s : SyntaxReader) (m : Read Syntax) : Prop :=
  match m with
  | RdOk e s' => on_source s' /\ sr_open s' = sr_open s
      /\ exists i, comments (sr_pos s) i /\ located i (sr_pos s') e
  | RdErr _ s' => on_source s' /\ sr_open s' = sr_open s
  | RdPanics | RdStarved => False
  end.

Lemma at_lookup s tw : on_source s -> sr_at s = Some tw -> T !! sr_pos s = Some tw /\ (sr_pos s < length T)%nat.
Proof. intros [<- _] H. split; [done|]. by apply lookup_lt_Some in H. Qed.

Lemma on_source_advance s tw : on_source s -> sr_at s = Some tw -> on_source (sr_advance s).
Proof. intros Hs Ht. destruct (at_lookup _ _ Hs Ht) as [_ Hl]. destruct Hs. split; [done|]. cbn. lia. Qed.

Lemma form_node_reads kind start end_ loc s : exists sp s',
  node kind start end_ loc s = RdOk (mkSyntax kind sp) s'
  /\ sr_tokens s' = sr_tokens s /\ sr_pos s' = sr_pos s /\ sr_open s' = sr_open s
  /\ sp_start sp = as_u32 start /\ sp_end sp = as_u32 end_
  /\ sp_line sp = as_u32 (loc_line loc) /\ sp_col sp = as_u32 (loc_col loc).
Proof.
  unfold node, make_span. destruct (is_unknown loc); [by eexists _, _|].
  unfold with_file. destruct (files_intern _ _) as [id F]. by eexists _, _.
Qed.

Lemma skip_comments_spec s n : on_source s -> (length T - sr_pos s <= n)%nat ->
  exists s', skip_comments n s = s' /\ on_source s' /\ sr_open s' = sr_open s /\ comments (sr_pos s) (sr_pos s')
    /\ match sr_at s' with Some tw => is_comment (tw_token tw) = false | None => True end.
Proof.
  revert s. induction n as [|n IH]; intros s Hs Hn; cbn [skip_comments].
  - exists s. repeat split; auto; try apply Hs; try lia. destruct (sr_at s) as [tw|] eqn:Ht; [|done].
    apply (at_lookup _ _ Hs) in Ht. lia.
  - unfold current_token. destruct (sr_at s) as [tw|] eqn:Ht; cbn.
    2:{ exists s. rewrite Ht. repeat split; auto; try apply Hs; lia. }
    destruct (is_comment (tw_token tw)) eqn:Hc.
    + destruct (at_lookup _ _ Hs Ht) as [Hl Hp].
      destruct (IH (sr_advance s) (on_source_advance _ _ Hs Ht)) as (s' & He & H1 & H2 & H3 & H4); [cbn; lia|].
      exists s'. split; [by destruct (tw_token tw)|]. repeat split; auto; try apply H1; try apply H3.
      * destruct H3 as [H3 _]. cbn in H3. lia.
      * exact (proj2 (comments_app _ _ _ (comments_step _ _ Hl Hc) H3)).
    + exists s. rewrite Ht. split; [by destruct (tw_token tw)|]. repeat split; auto; try apply Hs; lia.
Qed.

Lemma elements_end close i j k es : elements close i j es -> comments j k -> elements close i k es.
Proof.
  intros H Hc. induction H as [close i j H|close i k' tw j m e es H Ht Hne Hl _ IH].
  - apply el_nil. exact (comments_app _ _ _ H Hc).
  - exact (el_cons _ _ _ _ _ _ _ _ H Ht Hne Hl (IH Hc)).
Qed.

Section Step.
Variable rd : SyntaxReader -> Read Syntax.
Variable n : nat.
Hypothesis Hrd : forall s, on_source s -> (length T - sr_pos s < n)%nat -> reads s (rd s).

(** A collection: its elements up to the token that closes it. *)
Definition closes (close : Token) (make : SeqCtor) (loc : SourceLoc) (boff : N) (i0 : nat)
    (s : SyntaxReader) (m : Read Syntax) : Prop :=
  match m with
  | RdOk (mkSyntax k sp) s' => on_source s' /\ sr_open s' = sr_open s
      /\ exists j twc items, k = SK_Seq make items /\ elements close i0 j items /\ T !! j = Some twc
         /\ tw_token twc = close /\ sr_pos s' = S j /\ sp_start sp = as_u32 boff
         /\ sp_end sp = as_u32 (tw_end twc) /\ sp_line sp = as_u32 (loc_line loc)
         /\ sp_col sp = as_u32 (loc_col loc)
  | RdErr _ s' => on_source s' /\ sr_open s' = sr_open s
  | RdPanics | RdStarved => False
  end.

Lemma read_elements_closes close make loc boff i0 m es s : on_source s ->
  (length T - sr_pos s < m)%nat -> (length T - sr_pos s < n)%nat -> sr_open s <> [] ->
  elements close i0 (sr_pos s) es ->
  closes close make loc boff i0 s (read_elements rd m close make loc boff es s).
Proof.
  revert es s. induction m as [|m IH]; intros es s Hs Hm Hn Ho He; [lia|]. cbn [read_elements]. unfold current_token.
  destruct (sr_at s) as [tw|] eqn:Ht; cbn [fmap option_fmap option_map].
  2:{ unfold unterminated_collection. by destruct (sr_open s). }
  destruct (at_lookup _ _ Hs Ht) as [Hl Hp]. destruct (decide (tw_token tw = close)) as [Hc|Hc].
  - unfold current_byte_offset, current_length. rewrite Ht. cbn [fmap option_fmap option_map from_option id].
    destruct (form_node_reads (SK_Seq make es) boff (tw_offset tw + tw_len tw) loc (sr_advance s))
      as (sp & s' & -> & H1 & H2 & H3 & H4). cbn in H2.
    split; [split; [rewrite H1; apply Hs | rewrite H2; lia]|]. split; [done|]. exists (sr_pos s), tw, es. tauto.
  - destruct (is_comment (tw_token tw)) eqn:Hcm.
    + assert (closes close make loc boff i0 s (read_elements rd m close make loc boff es (sr_advance s))) as H.
      { apply (IH es (sr_advance s)); [exact (on_source_advance _ _ Hs Ht)|cbn; lia|cbn; lia|done|].
        exact (elements_end _ _ _ _ _ He (comments_step _ _ Hl Hcm)). }
      by destruct (tw_token tw).
    + assert (closes close make loc boff i0 s
        (rd_bind (rd s) (fun e s => read_elements rd m close make loc boff (es ++ [e]) s))) as H;
        [|by destruct (tw_token tw)].
      pose proof (Hrd s Hs Hn) as Hr. destruct (rd s) as [e s'|e s'| |]; [|done..]. cbn.
      destruct Hr as (Hs' & Ho' & i & Hci & Hle).
      assert (i = sr_pos s) as ->.
      { destruct Hci as [Hge Hall]. destruct (decide (i = sr_pos s)); [done|].
        destruct (Hall (sr_pos s)) as (tw' & Ht' & Hcm'); [lia|]. rewrite Hl in Ht'. injection Ht' as <-. by rewrite Hcm in Hcm'. }
      pose proof (proj1 grammar_lt _ _ _ Hle) as Hlt.
      assert (closes close make loc boff i0 s' (read_elements rd m close make loc boff (es ++ [e]) s')) as Hm'.
      { apply IH; [done|lia|lia|by rewrite Ho'|]. exact (elements_snoc _ _ _ _ _ _ _ _ He (comments_refl _) Hl Hc Hle). }
      unfold closes in *. by rewrite Ho' in Hm'.
Qed.

Lemma read_delimited_closes kind close make loc boff s tw : on_source s -> sr_at s = Some tw ->
  (length T - sr_pos s <= n)%nat ->
  closes close make loc boff (S (sr_pos s)) s (read_delimited rd n kind close make loc boff s).
Proof.
  intros Hs Ht Hn. unfold read_delimited. destruct (at_lookup _ _ Hs Ht) as [_ Hp].
  set (s1 := sr_advance (open_form s kind loc)).
  assert (closes close make loc boff (S (sr_pos s)) s1 (read_elements rd n close make loc boff [] s1)) as H.
  { apply read_elements_closes; [exact (on_source_advance _ _ Hs Ht)|cbn; lia|cbn; lia| |apply el_nil, comments_refl].
    cbn. by destruct (sr_open s). }
  assert (forall s', sr_open s' = sr_open s1 -> take (length (sr_open s)) (sr_open s') = sr_open s) as Hopen
    by (intros s' ->; apply take_app_length).
  destruct (read_elements rd n close make loc boff [] s1) as [[k sp] s'|e s'| |]; [| |done..].
  - destruct H as (Hs' & Ho & H). split; [exact Hs'|]. split; [by apply Hopen | exact H].
  - destruct H as [Hs' Ho]. split; [exact Hs' | by apply Hopen].
Qed.

(** From a collection to its form. *)
Lemma closes_reads close make i0 s0 s tw (m : Read Syntax) : sr_open s = sr_open s0 ->
  closes close make (tw_loc tw) (tw_offset tw) i0 s m ->
  (forall j twc items sp, elements close i0 j items -> T !! j = Some twc -> tw_token twc = close ->
     covers tw (tw_end twc) sp -> located (sr_pos s0) (S j) (mkSyntax (SK_Seq make items) sp)) ->
  reads s0 m.
Proof.
  intros Ho H Hl. destruct m as [[k sp] s'|e s'| |]; [| |done..]; cbn in *.
  - destruct H as (Hs' & Ho' & j & twc & items & -> & He & Hj & Hc & Hp & Hsp). split; [done|]. split; [congruence|].
    exists (sr_pos s0). split; [apply comments_refl|]. rewrite Hp. by eapply Hl.
  - destruct H as [Hs' Ho']. split; [done | congruence].
Qed.

Lemma seq_reads s tw make close kd : on_source s -> sr_at s = Some tw -> (length T - sr_pos s <= n)%nat ->
  seq_kind (tw_token tw) = Some (make, close, kd) ->
  reads s (read_delimited rd n kd close make (tw_loc tw) (tw_offset tw) s).
Proof.
  intros Hs Ht Hn Hk. eapply closes_reads; [done|exact (read_delimited_closes _ _ _ _ _ _ _ Hs Ht Hn)|].
  intros j twc items sp He Hj Hc Hsp. destruct (at_lookup _ _ Hs Ht) as [Hl _].
  exact (loc_seq _ _ _ _ _ _ _ _ _ Hl Hk He Hj Hc Hsp).
Qed.

Lemma atom_reads s tw k : on_source s -> sr_at s = Some tw -> atom_kind (tw_token tw) = Some k ->
  reads s (read_atom k (tw_loc tw) (tw_offset tw) s).
Proof.
  intros Hs Ht Hk. unfold read_atom, current_length. rewrite Ht. cbn [fmap option_fmap option_map from_option id].
  destruct (form_node_reads k (tw_offset tw) (tw_offset tw + tw_len tw) (tw_loc tw) (sr_advance s)) as (sp & s' & -> & H1 & H2 & H3 & H4).
  destruct (at_lookup _ _ Hs Ht) as [Hl Hp]. cbn in *. split; [split; [rewrite H1; apply Hs|lia]|]. split; [done|].
  exists (sr_pos s). split; [apply comments_refl|]. rewrite H2. exact (loc_atom _ _ _ _ Hl Hk H4).
Qed.

Lemma wrap_reads s tw make : on_source s -> sr_at s = Some tw -> (length T - sr_pos s <= n)%nat ->
  wrap_kind (tw_token tw) = Some make -> reads s (read_wrapped rd make (tw_loc tw) (tw_offset tw) s).
Proof.
  intros Hs Ht Hn Hk. unfold read_wrapped. destruct (at_lookup _ _ Hs Ht) as [Hl Hp].
  pose proof (Hrd (sr_advance s) (on_source_advance _ _ Hs Ht)) as Hr. cbn in Hr. specialize (Hr ltac:(lia)).
  destruct (rd (sr_advance s)) as [e s1|e s1| |]; [|exact Hr|done..]. cbn in Hr. destruct Hr as (Hs1 & Ho1 & i & Hc & He). cbn [rd_bind].
  destruct (form_node_reads (SK_Wrap make e) (tw_offset tw) (sp_end (syn_span e)) (tw_loc tw) s1) as (sp & s' & -> & H1 & H2 & H3 & H4).
  split; [split; [rewrite H1; apply Hs1|rewrite H2; apply Hs1]|]. split; [by rewrite H3|].
  exists (sr_pos s). split; [apply comments_refl|]. rewrite H2. exact (loc_wrap _ _ _ _ _ _ _ Hl Hk Hc He H4).
Qed.

Lemma sugar_reads s tw : on_source s -> sr_at s = Some tw -> (length T - sr_pos s <= n)%nat ->
  tw_token tw = ListSugar -> reads s (read_list_sugar rd n (tw_loc tw) (tw_offset tw) s).
Proof.
  intros Hs Ht Hn Hk. unfold read_list_sugar, current_token. destruct (at_lookup _ _ Hs Ht) as [Hl Hp].
  pose proof (on_source_advance _ _ Hs Ht) as Hs1.
  destruct (sr_at (sr_advance s)) as [tw1|] eqn:Ht1; cbn [fmap option_fmap option_map]; [|done].
  destruct (at_lookup _ _ Hs1 Ht1) as [Hl1 Hp1]. cbn in Hl1, Hp1.
  assert (forall make close kd, sugar_kind (tw_token tw1) = Some (make, close, kd) ->
    reads s (read_delimited rd n kd close make (tw_loc tw) (tw_offset tw) (sr_advance s))) as Hseq.
  { intros make close kd Hsk. eapply closes_reads; [done|apply (read_delimited_closes _ _ _ _ _ _ _ Hs1 Ht1); cbn; lia|].
    intros j twc items sp He Hj Hc Hsp. exact (loc_sugar _ _ _ _ _ _ _ _ _ _ Hl Hk Hl1 Hsk He Hj Hc Hsp). }
  destruct (tw_token tw1) as [| | | | | | | | | | | | | | | | | | | | | x| | ] eqn:Htk; try done.
  - by apply Hseq.
  - by apply Hseq.
  - unfold current_byte_offset, current_length. rewrite Ht1. cbn [fmap option_fmap option_map from_option id].
    destruct (form_node_reads (SK_StringMut x) (tw_offset tw) (tw_offset tw1 + tw_len tw1) (tw_loc tw) (sr_advance (sr_advance s)))
      as (sp & s' & -> & H1 & H2 & H3 & H4). cbn in H1, H2, H3.
    split; [split; [rewrite H1; apply Hs|rewrite H2; lia]|]. split; [done|]. exists (sr_pos s). split; [apply comments_refl|].
    rewrite H2. exact (loc_string_mut _ _ _ _ _ Hl Hk Hl1 Htk H4).
Qed.

Lemma read_one_reads s tw : on_source s -> sr_at s = Some tw -> (length T - sr_pos s <= n)%nat ->
  is_comment (tw_token tw) = false ->
  reads s (read_one rd n (tw_token tw) (tw_loc tw) (tw_offset tw) s).
Proof.
  intros Hs Ht Hn Hc. pose proof (atom_reads s tw) as Ha. pose proof (wrap_reads s tw) as Hw.
  pose proof (seq_reads s tw) as Hq. pose proof (sugar_reads s tw) as Hg.
  destruct (tw_token tw); cbn in *; try done; try (by eapply Hq); try (by apply Hw); try (by apply Ha); by apply Hg.
Qed.

(** [try_read]: a form, or the end. *)
Definition reads_some (s : SyntaxReader) (m : Read (option Syntax)) : Prop :=
  match m with
  | RdOk (Some e) s' => reads s (RdOk e s')
  | RdOk None s' => on_source s' /\ sr_open s' = sr_open s /\ comments (sr_pos s) (length T)
  | RdErr e s' => reads s (RdErr e s')
  | RdPanics | RdStarved => False
  end.

Lemma try_read_reads s : on_source s -> (length T - sr_pos s <= n)%nat -> reads_some s (try_read rd n s).
Proof.
  intros Hs Hn. unfold try_read. destruct (skip_comments_spec s (length (sr_tokens s)) Hs) as (s1 & -> & Hs1 & Ho & Hc & Hat);
    [destruct Hs as [-> _]; lia|].
  unfold current_token, current_location, current_byte_offset.
  destruct (sr_at s1) as [tw|] eqn:Ht; cbn [fmap option_fmap option_map from_option id].
  - pose proof (read_one_reads s1 tw Hs1 Ht) as Hr. destruct Hc as [Hle Hc]. specialize (Hr ltac:(lia) Hat).
    destruct (read_one rd n _ _ _ s1) as [e s2|e s2| |]; cbn in *; [| |done..].
    + destruct Hr as (H1 & H2 & i & H3 & H4). split; [done|]. split; [congruence|]. exists i. split; [|done].
      exact (comments_app _ _ _ (conj Hle Hc) H3).
    + destruct Hr as [H1 H2]. split; [done | congruence].
  - cbn. split; [done|]. split; [done|]. replace (length T) with (sr_pos s1); [done|].
    destruct Hs1 as [<- Hle]. unfold sr_at in Ht. apply lookup_ge_None in Ht. lia.
Qed.

End Step.

(** The reader ends, within the grammar. *)
Lemma read_reads n s : on_source s -> (length T - sr_pos s < n)%nat -> reads s (read n s).
Proof.
  revert s. induction n as [|n IH]; intros s Hs Hn; [lia|]. cbn [read].
  pose proof (try_read_reads (read n) n IH s Hs) as H. specialize (H ltac:(lia)).
  destruct (try_read (read n) n s) as [[e|] s'|e s'| |]; try done. cbn. destruct H as (H1 & H2 & _). by split.
Qed.

End Grammar.

(** * The tokens of a form

    [tree_tokens] is the token sequence of a form, [shaped] what the forms the
    reader builds have in common: no syntax literal, and no set literal as a
    direct element of one.  A located form's tokens are those it was read from,
    comments apart ([located_tokens]); a stream of the tokens of shaped forms is
    read to those forms ([read_all_complete]). *)

(** ** Forms as tokens *)

Definition open_tokens (make : SeqCtor) : list Token :=
  match make with
  | SK_List => [LeftParen] | SK_Array => [LeftBracket] | SK_ArrayMut => [ListSugar; LeftBracket]
  | SK_Struct => [LeftBrace] | SK_StructMut => [ListSugar; LeftBrace]
  | SK_Set => [Pipe] | SK_SetMut => [AtPipe] | SK_Bytes => [BytesBracket] | SK_BytesMut => [AtBytesBracket]
  end.

Definition close_token (make : SeqCtor) : Token :=
  match make with
  | SK_List => RightParen
  | SK_Array | SK_ArrayMut | SK_Bytes | SK_BytesMut => RightBracket
  | SK_Struct | SK_StructMut => RightBrace
  | SK_Set | SK_SetMut => Pipe
  end.

Definition wrap_token (make : WrapCtor) : list Token :=
  match make with
  | SK_Quote => [Quote] | SK_Quasiquote => [Quasiquote] | SK_Unquote => [Unquote]
  | SK_UnquoteSplicing => [UnquoteSplicing] | SK_Splice => [Splice] | SK_SyntaxLiteral => []
  end.

Fixpoint tree_tokens (e : Syntax) : list Token :=
  let '(mkSyntax k _) := e in
  match k with
  | SK_Nil => [Nil]
  | SK_Bool b => [Bool b]
  | SK_Int n => [Integer n]
  | SK_Float f => [Float f]
  | SK_Symbol s => [Symbol s]
  | SK_Keyword s => [Keyword s]
  | SK_String s => [String s]
  | SK_StringMut s => [ListSugar; String s]
  | SK_Seq make items => open_tokens make ++ concat (map tree_tokens items) ++ [close_token make]
  | SK_Wrap make inner => wrap_token make ++ tree_tokens inner
  end.

(** Equality of forms up to spans. *)
Fixpoint erase (e : Syntax) : Syntax :=
  let '(mkSyntax k _) := e in
  mkSyntax match k with
           | SK_Seq make items => SK_Seq make (map erase items)
           | SK_Wrap make inner => SK_Wrap make (erase inner)
           | k => k
           end Span_synthetic.

Definition is_set (e : Syntax) : bool := match syn_kind e with SK_Seq SK_Set _ => true | _ => false end.

Definition set_like (make : SeqCtor) : bool := match make with SK_Set | SK_SetMut => true | _ => false end.

Fixpoint shaped (e : Syntax) : bool :=
  let '(mkSyntax k _) := e in
  match k with
  | SK_Seq make items =>
    forallb shaped items && (negb (set_like make) || forallb (fun e => negb (is_set e)) items)
  | SK_Wrap make inner => negb (bool_decide (make = SK_SyntaxLiteral)) && shaped inner
  | _ => true
  end.

(** Induction over a form and its elements. *)
Lemma syntax_rect (P : Syntax -> Prop)
    (Hseq : forall make items sp, Forall P items -> P (mkSyntax (SK_Seq make items) sp))
    (Hwrap : forall make inner sp, P inner -> P (mkSyntax (SK_Wrap make inner) sp))
    (Hatom : forall k sp, match k with SK_Seq _ _ | SK_Wrap _ _ => False | _ => True end -> P (mkSyntax k sp)) :
  forall e, P e.
Proof.
  fix IH 1. intros [k sp]. destruct k as [| | | | | | | |make items|make inner].
  1-8: by apply Hatom.
  - apply Hseq. induction items as [|e es IHes]; constructor; [apply IH | exact IHes].
  - apply Hwrap, IH.
Qed.

(** ** Slices of the stream *)

Section Stream.
Variable T : list TokenWithLoc.

(** The tokens of a range, comments left out. *)
Definition live (i j : nat) : list Token :=
  filter (fun t => is_comment t = false) (tw_token <$> drop i (take j T)).

Lemma live_app i j k : (i <= j <= k)%nat -> live i k = live i j ++ live j k.
Proof.
  intros H. unfold live. rewrite <- filter_app, <- fmap_app. do 2 f_equal.
  rewrite <- (take_drop j (take k T)) at 1. rewrite drop_app, take_take, (Nat.min_l j k) by lia.
  f_equal. rewrite length_take. destruct (decide (j <= length T)%nat).
  - by replace (i - j `min` length T)%nat with 0%nat by lia.
  - rewrite !drop_ge; [done|rewrite length_take; lia|rewrite length_drop, length_take; lia].
Qed.

Lemma live_one i tw : T !! i = Some tw ->
  live i (S i) = if is_comment (tw_token tw) then [] else [tw_token tw].
Proof.
  intros Ht. unfold live. pose proof (lookup_lt_Some _ _ _ Ht). rewrite (take_S_r _ _ tw Ht).
  rewrite drop_app_length'; [|rewrite length_take; lia]. rewrite list_fmap_singleton.
  cbn. by destruct (is_comment (tw_token tw)).
Qed.

Lemma live_empty i : live i i = [].
Proof. unfold live. rewrite drop_ge; [done|]. rewrite length_take. lia. Qed.

Lemma live_step i j tw : T !! i = Some tw -> (S i <= j)%nat ->
  live i j = (if is_comment (tw_token tw) then [] else [tw_token tw]) ++ live (S i) j.
Proof. intros Ht Hj. rewrite (live_app i (S i) j), (live_one _ _ Ht) by lia. done. Qed.

Lemma live_comments i j : comments T i j -> live i j = [].
Proof.
  intros [Hle Hc]. induction Hle as [|j Hle IH]; [apply live_empty|].
  rewrite (live_app i j (S j)), IH by (try lia; intros k Hk; apply Hc; lia).
  destruct (Hc j) as (tw & Ht & Hcm); [lia|]. rewrite (live_one _ _ Ht), Hcm. done.
Qed.

(** ** A located form's tokens are its own *)

Lemma atom_tokens t k sp : atom_kind t = Some k -> tree_tokens (mkSyntax k sp) = [t] /\ is_comment t = false.
Proof. destruct t; cbn; try done; by intros [= <-]. Qed.

Lemma wrap_tokens t make : wrap_kind t = Some make -> wrap_token make = [t] /\ is_comment t = false /\ make <> SK_SyntaxLiteral.
Proof. destruct t; cbn; try done; by intros [= <-]. Qed.

Lemma seq_tokens t make close kd : seq_kind t = Some (make, close, kd) ->
  open_tokens make = [t] /\ close_token make = close /\ is_comment t = false /\ is_comment close = false.
Proof. destruct t; cbn; try done; by intros [= <- <- <-]. Qed.

Lemma sugar_tokens t make close kd : sugar_kind t = Some (make, close, kd) ->
  open_tokens make = [ListSugar; t] /\ close_token make = close /\ is_comment t = false /\ is_comment close = false.
Proof. destruct t; cbn; try done; by intros [= <- <- <-]. Qed.

Lemma grammar_tokens :
  (forall i j e, located T i j e -> live i j = tree_tokens e)
  /\ (forall close i j es, elements T close i j es -> live i j = concat (map tree_tokens es)).
Proof.
  apply grammar_ind.
  - intros i tw k sp Ht Hk _. rewrite (live_one _ _ Ht). apply (atom_tokens _ _ sp) in Hk as [-> ->]. done.
  - intros i tw make j k inner sp Ht Hk Hc Hl IH _. pose proof (proj1 (grammar_lt T) _ _ _ Hl). destruct Hc as [Hij Hc].
    rewrite (live_step _ _ _ Ht), (live_app (S i) j k), IH by lia. cbn [tree_tokens].
    apply wrap_tokens in Hk as (-> & -> & _). rewrite (live_comments (S i) j (conj Hij Hc)). done.
  - intros i tw make close kd j twc items sp Ht Hk He IH Hj Hc _. pose proof (proj2 (grammar_lt T) _ _ _ _ He).
    rewrite (live_step _ _ _ Ht), (live_app (S i) j (S j)), IH, (live_one _ _ Hj) by lia. cbn [tree_tokens].
    apply seq_tokens in Hk as (-> & -> & -> & Hcc). rewrite Hc, Hcc. done.
  - intros i tw tw1 make close kd j twc items sp Ht Htk Ht1 Hk He IH Hj Hc _. pose proof (proj2 (grammar_lt T) _ _ _ _ He).
    rewrite (live_step _ _ _ Ht), (live_step _ _ _ Ht1), (live_app (S (S i)) j (S j)), IH, (live_one _ _ Hj) by lia.
    cbn [tree_tokens]. apply sugar_tokens in Hk as (-> & -> & -> & Hcc). rewrite Htk, Hc, Hcc. done.
  - intros i tw tw1 x sp Ht Htk Ht1 Hk _. rewrite (live_step _ _ _ Ht), (live_one _ _ Ht1) by lia. by rewrite Htk, Hk.
  - intros close i j Hc. by apply live_comments.
  - intros close i k tw j m e es Hc Ht Hne Hl IH1 He IH2. pose proof (proj1 (grammar_lt T) _ _ _ Hl).
    pose proof (proj2 (grammar_lt T) _ _ _ _ He). pose proof (proj1 Hc).
    rewrite (live_app i k m), (live_app k j m), (live_comments _ _ Hc), IH1, IH2 by lia. done.
Qed.

Lemma located_set i j e tw : located T i j e -> T !! i = Some tw -> tw_token tw <> Pipe -> is_set e = false.
Proof.
  intros H Ht Hp. destruct H as [i tw' k sp Hi Hk|i tw' make j k inner sp Hi Hk|i tw' make close kd j twc items sp Hi Hk
    |i tw' tw1 make close kd j twc items sp Hi Hs Hi1 Hk|i tw' tw1 x sp Hi]; rewrite Ht in Hi; injection Hi as <-; try done.
  - by destruct (tw_token tw); try done; injection Hk as <-.
  - by destruct (tw_token tw); try done; injection Hk as <- _ _.
  - by destruct (tw_token tw1); try done; injection Hk as <- _ _.
Qed.

Lemma grammar_shaped :
  (forall i j e, located T i j e -> shaped e = true)
  /\ (forall close i j es, elements T close i j es ->
       forallb shaped es = true /\ (close = Pipe -> forallb (fun e => negb (is_set e)) es = true)).
Proof.
  assert (forall make close items, close_token make = close ->
    forallb shaped items = true /\ (close = Pipe -> forallb (fun e => negb (is_set e)) items = true) ->
    forall sp, shaped (mkSyntax (SK_Seq make items) sp) = true) as Hseq.
  { intros make close items Hcl [H1 H2] sp. cbn. rewrite H1. destruct (set_like make) eqn:Hm; [cbn|done].
    apply H2. rewrite <- Hcl. by destruct make. }
  apply grammar_ind.
  - intros i tw k sp _ Hk _. by destruct (tw_token tw); try done; injection Hk as <-.
  - intros i tw make j k inner sp _ Hk _ _ IH _. apply wrap_tokens in Hk as (_ & _ & Hm). cbn [shaped].
    by rewrite bool_decide_false.
  - intros i tw make close kd j twc items sp _ Hk _ IH _ _ _. apply seq_tokens in Hk as (_ & Hcl & _).
    exact (Hseq _ _ _ Hcl IH sp).
  - intros i tw tw1 make close kd j twc items sp _ _ _ Hk _ IH _ _ _. apply sugar_tokens in Hk as (_ & Hcl & _).
    exact (Hseq _ _ _ Hcl IH sp).
  - done.
  - done.
  - intros close i k tw j m e es _ Ht Hne Hl IH1 _ [IH2 IH3]. cbn [forallb]. rewrite IH1, IH2. split; [done|].
    intros ->. rewrite (IH3 eq_refl), (located_set _ _ _ _ Hl Ht Hne). done.
Qed.

End Stream.

(** * Whole streams: sound and complete

    A stream is read to the forms whose tokens it holds, or refused
    ([parse_all_sound]); a stream that holds the tokens of shaped forms, with no
    comment right after an [@], is read to those forms up to spans
    ([parse_all_complete]). *)

Section Stream.
Variable T : list TokenWithLoc.

(** ** Soundness of [read_all] *)

(** The forms of a stream from a token on. *)
Inductive forms : nat -> list Syntax -> Prop :=
| forms_end i : comments T i (length T) -> forms i []
| forms_next i k j e es : comments T i k -> located T k j e -> forms j es -> forms i (e :: es).

Lemma read_all_loop_sound n fuel s : on_source T s -> (length T - sr_pos s < n)%nat ->
  (length T - sr_pos s < fuel)%nat -> forall res,
  match read_all_loop n fuel res s with
  | RdOk fs _ => exists es, fs = res ++ es /\ forms (sr_pos s) es
  | RdErr _ _ => True
  | RdPanics | RdStarved => False
  end.
Proof.
  revert s. induction n as [|n IH]; intros s Hs Hn Hf res; [lia|]. cbn [read_all_loop].
  pose proof (try_read_reads T (read fuel) fuel (read_reads T fuel) s Hs) as H. specialize (H ltac:(lia)).
  destruct (try_read (read fuel) fuel s) as [[e|] s'|e s'| |]; cbn in *; [| |done..].
  - destruct H as (Hs' & _ & i & Hc & Hl). pose proof (proj1 (grammar_lt T) _ _ _ Hl). pose proof (proj1 Hc). pose proof (proj2 Hs').
    specialize (IH s' Hs' ltac:(lia) ltac:(lia) (res ++ [e])).
    destruct (read_all_loop n fuel (res ++ [e]) s') as [fs s2|e' s2| |]; [|done..].
    destruct IH as (es & -> & He). exists (e :: es). rewrite <- app_assoc. split; [done|]. by eapply forms_next.
  - destruct H as (_ & _ & Hc). exists []. rewrite app_nil_r. split; [done|]. by constructor.
Qed.

Lemma located_le i j e : located T i j e -> (j <= length T)%nat.
Proof.
  intros H. induction H as [i tw k sp H| |i tw make close kd j twc items sp _ _ _ H
    |i tw tw1 make close kd j twc items sp _ _ _ _ _ H|i tw tw1 x sp _ _ H]; try (apply lookup_lt_Some in H); lia.
Qed.

Lemma forms_tokens i es : forms i es -> (i <= length T)%nat ->
  live T i (length T) = concat (map tree_tokens es) /\ forallb shaped es = true.
Proof.
  induction 1 as [i Hc|i k j e es Hc Hl He IH]; intros Hi; cbn.
  - by rewrite live_comments.
  - pose proof (proj1 (grammar_lt T) _ _ _ Hl). pose proof (proj1 Hc).
    pose proof (located_le _ _ _ Hl) as Hj.
    destruct (IH Hj) as [Ht Hs]. rewrite (proj1 (grammar_shaped T) _ _ _ Hl), Hs. split; [|done].
    rewrite (live_app T i k), (live_app T k j), (live_comments _ _ _ Hc), (proj1 (grammar_tokens T) _ _ _ Hl), Ht by lia. done.
Qed.

(** ** Completeness *)

(** The reader looks at the very next token after an [@]. *)
Definition sugar_clear : Prop := forall i tw tw', T !! i = Some tw -> tw_token tw = ListSugar ->
  T !! S i = Some tw' -> is_comment (tw_token tw') = false.

Hypothesis Hclear : sugar_clear.

(** The tokens left to read. *)
Definition rest (s : SyntaxReader) : list Token := live T (sr_pos s) (length T).

Lemma rest_at s tw : on_source T s -> sr_at s = Some tw ->
  rest s = (if is_comment (tw_token tw) then [] else [tw_token tw]) ++ rest (sr_advance s).
Proof. intros Hs Ht. destruct (at_lookup _ _ _ Hs Ht) as [Hl Hp]. exact (live_step _ _ _ _ Hl Hp). Qed.

Lemma rest_none s : on_source T s -> sr_at s = None -> rest s = [].
Proof.
  intros [HT Hle] Hn. unfold rest. unfold sr_at in Hn. rewrite HT in Hn. apply lookup_ge_None in Hn.
  replace (sr_pos s) with (length T) by lia. apply live_empty.
Qed.

(** A read at a token that is left. *)
Lemma read_next n s t q : on_source T s -> rest s = t :: q ->
  exists s1 tw, sr_at s1 = Some tw /\ tw_token tw = t /\ on_source T s1 /\ (sr_pos s <= sr_pos s1)%nat
    /\ rest (sr_advance s1) = q
    /\ read (S n) s = read_one (read n) n t (tw_loc tw) (tw_offset tw) s1.
Proof.
  intros Hs Hr. destruct (skip_comments_spec T s (length (sr_tokens s)) Hs) as (s1 & He & Hs1 & _ & Hc & Hat);
    [destruct Hs as [-> _]; lia|].
  assert (rest s1 = t :: q) as Hr1.
  { rewrite <- Hr. unfold rest. rewrite (live_app T (sr_pos s) (sr_pos s1)), (live_comments _ _ _ Hc); [done|].
    split; [apply Hc | apply Hs1]. }
  destruct (sr_at s1) as [tw|] eqn:Ht; [|by rewrite rest_none in Hr1]. rewrite (rest_at _ _ Hs1 Ht), Hat in Hr1.
  injection Hr1 as Ht1 Hq. exists s1, tw. split; [done|]. split; [done|]. split; [done|]. split; [apply Hc|]. split; [done|].
  cbn [read]. unfold try_read, current_token, current_location, current_byte_offset. rewrite He, Ht.
  cbn [fmap option_fmap option_map from_option id]. rewrite Ht1. by destruct (read_one _ _ _ _ _ s1).
Qed.

Definition completes (e : Syntax) : Prop := forall n s r, on_source T s -> (length T - sr_pos s < n)%nat ->
  rest s = tree_tokens e ++ r ->
  exists e' s', read n s = RdOk e' s' /\ erase e' = erase e /\ rest s' = r.

(** The first token of a form closes nothing, but for a set's. *)
Lemma head_token e : shaped e = true ->
  exists t q, tree_tokens e = t :: q /\ t <> RightParen /\ t <> RightBracket /\ t <> RightBrace
    /\ (is_set e = false -> t <> Pipe).
Proof.
  destruct e as [k sp]. destruct k as [| | | | | | | |make items|make inner]; cbn; intros H; try (by eexists _, _).
  - destruct make; cbn; by eexists _, _.
  - destruct make; [| | | | |discriminate H]; cbn; by eexists _, _.
Qed.

Lemma node_complete kind start end_ loc s : exists sp s',
  node kind start end_ loc s = RdOk (mkSyntax kind sp) s' /\ rest s' = rest s.
Proof.
  destruct (form_node_reads kind start end_ loc s) as (sp & s' & -> & _ & Hp & _). exists sp, s'. split; [done|].
  unfold rest. by rewrite Hp.
Qed.

Lemma read_elements_complete n close make loc boff m items es s r : Forall completes items ->
  Forall (fun e => exists t q, tree_tokens e = t :: q /\ t <> close) items -> is_comment close = false ->
  on_source T s -> (length T - sr_pos s < m)%nat -> (length T - sr_pos s < n)%nat ->
  rest s = concat (map tree_tokens items) ++ close :: r ->
  exists items' sp s', read_elements (read n) m close make loc boff es s = RdOk (mkSyntax (SK_Seq make (es ++ items')) sp) s'
    /\ map erase items' = map erase items /\ rest s' = r.
Proof.
  intros Hit Hhd Hcc. revert items es s Hit Hhd. induction m as [|m IH]; intros items es s Hit Hhd Hs Hm Hn Hr; [lia|].
  cbn [read_elements]. unfold current_token. destruct (sr_at s) as [tw|] eqn:Ht.
  2:{ rewrite (rest_none _ Hs Ht) in Hr. by destruct (concat _). }
  cbn [fmap option_fmap option_map]. destruct (at_lookup _ _ _ Hs Ht) as [Hl Hp]. pose proof (on_source_advance _ _ _ Hs Ht) as Hs1.
  pose proof Hr as Hr1. rewrite (rest_at _ _ Hs Ht) in Hr1. destruct (is_comment (tw_token tw)) eqn:Hcm.
  - rewrite decide_False by (intros Hd; by rewrite Hd, Hcc in Hcm). cbn [app] in Hr1.
    destruct (IH items es (sr_advance s) Hit Hhd Hs1 ltac:(cbn; lia) ltac:(cbn; lia) Hr1) as (items' & sp & s' & He & H).
    exists items', sp, s'. split; [|done]. rewrite <- He. by destruct (tw_token tw).
  - destruct items as [|e items].
    + cbn [map concat app] in Hr1. injection Hr1 as Hc Hr1. rewrite decide_True by done.
      destruct (node_complete (SK_Seq make es) boff (current_byte_offset s + current_length s) loc (sr_advance s)) as (sp & s' & -> & Hs').
      exists [], sp, s'. rewrite app_nil_r. split; [done|]. split; [done|]. by rewrite Hs'.
    + apply Forall_cons in Hit as [He Hit], Hhd as [(t & q & Htt & Htc) Hhd]. cbn [map concat] in Hr1, Hr. rewrite <- app_assoc, Htt in Hr1.
      injection Hr1 as Hc Hr1. rewrite decide_False by congruence. rewrite <- app_assoc in Hr.
      destruct (He n s _ Hs Hn Hr) as (e' & s' & Hrd & Her & Hr'). pose proof (read_reads T n s Hs Hn) as Hreads.
      rewrite Hrd in Hreads. destruct Hreads as (Hs' & _ & i & Hci & Hle). pose proof (proj1 (grammar_lt T) _ _ _ Hle).
      pose proof (proj1 Hci).
      destruct (IH items (es ++ [e']) s' Hit Hhd Hs' ltac:(lia) ltac:(lia) Hr') as (items' & sp & s2 & He2 & Hm2 & Hr2).
      exists (e' :: items'), sp, s2. split; [|cbn; by rewrite Her, Hm2].
      rewrite <- app_assoc in He2. cbn [app] in He2. rewrite <- He2. destruct (tw_token tw); try done; cbn; by rewrite Hrd.
Qed.

Lemma read_delimited_complete n kd make loc boff items s tw r : Forall completes items ->
  forallb shaped items && (negb (set_like make) || forallb (fun e => negb (is_set e)) items) = true ->
  on_source T s -> sr_at s = Some tw -> (length T - sr_pos s <= n)%nat ->
  rest (sr_advance s) = concat (map tree_tokens items) ++ close_token make :: r ->
  exists items' sp s', read_delimited (read n) n kd (close_token make) make loc boff s = RdOk (mkSyntax (SK_Seq make items') sp) s'
    /\ map erase items' = map erase items /\ rest s' = r.
Proof.
  intros Hit [Hsh Hset]%andb_true_iff Hs Ht Hn Hr. unfold read_delimited. destruct (at_lookup _ _ _ Hs Ht) as [_ Hp].
  set (s1 := sr_advance (open_form s kd loc)).
  assert (Forall (fun e => exists t q, tree_tokens e = t :: q /\ t <> close_token make) items) as Hhd.
  { apply Forall_forall. intros e He. rewrite forallb_forall in Hsh. apply list_elem_of_In in He.
    destruct (head_token e (Hsh e He)) as (t & q & Htt & H1 & H2 & H3 & H4). exists t, q. split; [done|].
    assert (set_like make = true -> t <> Pipe) as H5.
    { intros Hm. rewrite Hm in Hset. cbn in Hset. rewrite forallb_forall in Hset. apply H4. by apply negb_true_iff, Hset. }
    destruct make; cbn; auto. }
  assert (is_comment (close_token make) = false) as Hcc by (by destruct make).
  assert (on_source T s1) as Hs1 by exact (on_source_advance _ _ _ Hs Ht).
  destruct (read_elements_complete n (close_token make) make loc boff n items [] s1 r Hit Hhd Hcc Hs1
    ltac:(cbn; lia) ltac:(cbn; lia) Hr) as (items' & sp & s' & -> & H).
  by exists items', sp, (with_open s' (take (length (sr_open s)) (sr_open s'))).
Qed.

(** The token after an [@]. *)
Lemma sugar_next s tw t q : on_source T s -> sr_at s = Some tw -> tw_token tw = ListSugar ->
  rest (sr_advance s) = t :: q ->
  exists tw1, sr_at (sr_advance s) = Some tw1 /\ tw_token tw1 = t /\ rest (sr_advance (sr_advance s)) = q.
Proof.
  intros Hs Ht Hk Hr. pose proof (on_source_advance _ _ _ Hs Ht) as Hs1.
  destruct (sr_at (sr_advance s)) as [tw1|] eqn:Ht1; [|by rewrite rest_none in Hr].
  rewrite (rest_at _ _ Hs1 Ht1) in Hr. rewrite (Hclear (sr_pos s) tw tw1) in Hr;
    [|apply (at_lookup _ _ _ Hs Ht)|done|apply (at_lookup _ _ _ Hs1 Ht1)].
  injection Hr as H1 H2. by exists tw1.
Qed.

Lemma seq_complete make items sp : Forall completes items -> shaped (mkSyntax (SK_Seq make items) sp) = true ->
  completes (mkSyntax (SK_Seq make items) sp).
Proof.
  intros Hit Hsh n s r Hs Hn Hr. destruct n as [|n]; [lia|]. cbn [tree_tokens] in Hr. rewrite <- !app_assoc in Hr.
  assert (exists t q, open_tokens make = t :: q) as (t & q & Ho) by (destruct make; by eexists _, _).
  rewrite Ho in Hr. destruct (read_next n s t _ Hs Hr) as (s1 & tw & Ht & Htk & Hs1 & Hp & Hr1 & ->).
  destruct (at_lookup _ _ _ Hs1 Ht) as [_ Hlt]. pose proof (on_source_advance _ _ _ Hs1 Ht) as Hs2.
  assert (exists kd s2 tw2, sr_at s2 = Some tw2 /\ on_source T s2 /\ (sr_pos s1 <= sr_pos s2)%nat
    /\ rest (sr_advance s2) = concat (map tree_tokens items) ++ close_token make :: r
    /\ read_one (read n) n t (tw_loc tw) (tw_offset tw) s1
       = read_delimited (read n) n kd (close_token make) make (tw_loc tw) (tw_offset tw) s2)
    as (kd & s2 & tw2 & Ht2 & Hs2' & Hp2 & Hr2 & ->).
  { destruct q as [|t2 q].
    - cbn [app] in Hr1. destruct make; try discriminate Ho; injection Ho as <-; eexists _, s1, tw; (split; [done|]; split; [done|]; split; [lia|]; split; [exact Hr1|reflexivity]).
    - assert (t = ListSugar /\ q = []) as [-> ->] by (destruct make; injection Ho; congruence || done).
      destruct (sugar_next _ _ _ _ Hs1 Ht Htk Hr1) as (tw1 & Ht1 & Htk1 & Hq). cbn [app] in Hq.
      destruct make; try discriminate Ho; injection Ho as <-; eexists _, (sr_advance s1), tw1;
        (split; [done|]; split; [done|]; split; [cbn; lia|]; split; [exact Hq|]);
        cbn [read_one]; unfold read_list_sugar, current_token; rewrite Ht1; cbn [fmap option_fmap option_map]; by rewrite Htk1. }
  destruct (read_delimited_complete n kd make (tw_loc tw) (tw_offset tw) items s2 tw2 r Hit Hsh Hs2' Ht2) as (items' & sp' & s' & -> & Hm & Hr');
    [destruct (at_lookup _ _ _ Hs2' Ht2); lia|done|].
  exists (mkSyntax (SK_Seq make items') sp'), s'. cbn. by rewrite Hm.
Qed.

Lemma wrap_complete make inner sp : completes inner -> shaped (mkSyntax (SK_Wrap make inner) sp) = true ->
  completes (mkSyntax (SK_Wrap make inner) sp).
Proof.
  intros Hin Hsh n s r Hs Hn Hr. destruct n as [|n]; [lia|]. cbn [tree_tokens] in Hr. rewrite <- !app_assoc in Hr.
  assert (exists t, wrap_token make = [t] /\ wrap_kind t = Some make) as (t & Ho & Hk).
  { cbn in Hsh. destruct make; [| | | | |discriminate Hsh]; by eexists. }
  rewrite Ho in Hr. destruct (read_next n s t _ Hs Hr) as (s1 & tw & Ht & Htk & Hs1 & Hp & Hr1 & ->).
  destruct (at_lookup _ _ _ Hs1 Ht) as [_ Hlt]. pose proof (on_source_advance _ _ _ Hs1 Ht) as Hs2.
  destruct (Hin n (sr_advance s1) r Hs2 ltac:(cbn; lia) Hr1) as (e' & s' & He & Her & Hr').
  assert (read_one (read n) n t (tw_loc tw) (tw_offset tw) s1
    = read_wrapped (read n) make (tw_loc tw) (tw_offset tw) s1) as -> by (destruct t; try done; by injection Hk as <-).
  unfold read_wrapped. rewrite He. cbn [rd_bind].
  destruct (node_complete (SK_Wrap make e') (tw_offset tw) (sp_end (syn_span e')) (tw_loc tw) s') as (sp' & s2 & -> & Hr2).
  eexists _, s2. split; [done|]. cbn. by rewrite Her, Hr2.
Qed.

Lemma atom_complete k sp : match k with SK_Seq _ _ | SK_Wrap _ _ => False | _ => True end ->
  completes (mkSyntax k sp).
Proof.
  intros Hk n s r Hs Hn Hr. destruct n as [|n]; [lia|].
  assert (exists t q, tree_tokens (mkSyntax k sp) = t :: q) as (t & q & Ho) by (destruct k; try done; by eexists _, _).
  rewrite Ho in Hr. destruct (read_next n s t _ Hs Hr) as (s1 & tw & Ht & Htk & Hs1 & Hp & Hr1 & ->).
  pose proof (node_complete k (tw_offset tw) (tw_offset tw + current_length s1) (tw_loc tw) (sr_advance s1)) as (sp1 & s2 & H1 & H2).
  destruct k as [|b|z|f|x|x|x|x| |]; try done; injection Ho as <- <-; cbn [read_one];
    try (eexists _, s2; split; [exact H1|]; split; [done|]; by rewrite H2).
  destruct (sugar_next _ _ _ _ Hs1 Ht Htk Hr1) as (tw1 & Ht1 & Htk1 & Hq).
  unfold read_list_sugar, current_token. rewrite Ht1. cbn [fmap option_fmap option_map]. rewrite Htk1.
  destruct (node_complete (SK_StringMut x) (tw_offset tw)
    (current_byte_offset (sr_advance s1) + current_length (sr_advance s1)) (tw_loc tw) (sr_advance (sr_advance s1)))
    as (sp2 & s3 & -> & H3).
  eexists _, s3. split; [done|]. split; [done|]. by rewrite H3.
Qed.

Lemma shaped_completes e : shaped e = true -> completes e.
Proof.
  induction e as [make items sp IH|make inner sp IH|k sp Hk] using syntax_rect; intros Hsh.
  - apply seq_complete; [|done]. cbn in Hsh. apply andb_true_iff in Hsh as [Hsh _].
    rewrite Forall_forall in *. intros e He. apply IH; [done|]. rewrite forallb_forall in Hsh. by apply Hsh, list_elem_of_In.
  - apply wrap_complete; [|done]. apply IH. cbn in Hsh. by apply andb_true_iff in Hsh as [_ Hsh].
  - by apply atom_complete.
Qed.

Lemma read_all_loop_complete n fuel res fs s : forallb shaped fs = true -> on_source T s ->
  (length T - sr_pos s < n)%nat -> (length T - sr_pos s < fuel)%nat -> rest s = concat (map tree_tokens fs) ->
  exists fs' s', read_all_loop n fuel res s = RdOk (res ++ fs') s' /\ map erase fs' = map erase fs.
Proof.
  revert res fs s. induction n as [|n IH]; intros res fs s Hsh Hs Hn Hf Hr; [lia|]. cbn [read_all_loop].
  pose proof (try_read_reads T (read fuel) fuel (read_reads T fuel) s Hs) as Hrd. specialize (Hrd ltac:(lia)).
  destruct fs as [|e fs]; cbn in Hr, Hsh.
  - destruct (try_read (read fuel) fuel s) as [[e|] s'|e s'| |] eqn:Htr; cbn in *; [| | |done..].
    + destruct Hrd as (Hs' & _ & i & Hc & Hl). exfalso. revert Hr. unfold rest.
      pose proof (proj1 (grammar_lt T) _ _ _ Hl). pose proof (proj1 Hc). pose proof (proj2 Hs').
      rewrite (live_app T (sr_pos s) (sr_pos s')), (live_app T (sr_pos s) i), (proj1 (grammar_tokens T) _ _ _ Hl) by lia.
      destruct (head_token e (proj1 (grammar_shaped T) _ _ _ Hl)) as (t & q & -> & _).
      by destruct (live T (sr_pos s) i).
    + exists [], s'. by rewrite app_nil_r.
    + exfalso. clear Hrd. revert Htr. unfold try_read.
      destruct (skip_comments_spec T s (length (sr_tokens s)) Hs) as (s1 & -> & Hs1 & _ & Hc & Hat); [destruct Hs as [-> _]; lia|].
      assert (rest s1 = []) as Hr1.
      { unfold rest in *. rewrite (live_app T _ (sr_pos s1)) in Hr by (split; [apply Hc|apply Hs1]). by apply app_eq_nil in Hr as [_ ->]. }
      unfold current_token. destruct (sr_at s1) as [tw|] eqn:Ht; [|done].
      by rewrite (rest_at _ _ Hs1 Ht), Hat in Hr1.
  - apply andb_true_iff in Hsh as [He Hsh].
    destruct (shaped_completes e He (S fuel) s _ Hs ltac:(lia) Hr) as (e' & s' & Hrd' & Her & Hr').
    cbn [read] in Hrd'. destruct (try_read (read fuel) fuel s) as [[e2|] s2|e2 s2| |]; cbn in *; try done.
    injection Hrd' as -> ->. destruct Hrd as (Hs' & _ & i & Hc & Hl).
    pose proof (proj1 (grammar_lt T) _ _ _ Hl). pose proof (proj1 Hc). pose proof (proj2 Hs').
    destruct (IH (res ++ [e']) fs s' Hsh Hs' ltac:(lia) ltac:(lia) Hr') as (fs' & s3 & -> & Hm).
    exists (e' :: fs'), s3. rewrite <- app_assoc. cbn. by rewrite Her, Hm.
Qed.

End Stream.

(** ** [parse_all] *)

(** The columns of the lexer's tokens zip back to them. *)
Lemma from_columns_of ts F : from_columns (columns_of ts) F = mkReader ts 0 [] F.
Proof.
  unfold from_columns, columns_of. cbn. f_equal. apply list_eq. intros i.
  rewrite list_lookup_imap, !list_lookup_fmap. destruct (ts !! i) as [[t l n o]|] eqn:Ht; cbn; [|done].
  repeat (rewrite list_lookup_fmap || rewrite Ht); done.
Qed.

Definition live_tokens (ts : list TokenWithLoc) : list Token :=
  filter (fun t => is_comment t = false) (tw_token <$> ts).

Lemma live_all ts : live ts 0 (length ts) = live_tokens ts.
Proof. unfold live, live_tokens. by rewrite drop_0, firstn_all. Qed.

Lemma parse_all_sound ts F : yields (parse_all (columns_of ts) F) (fun '(fs, _) => forms ts 0 fs).
Proof.
  unfold parse_all. destruct ts as [|t ts]; [cbn; constructor; apply comments_refl|].
  cbn [columns_of lt_tokens fmap list_fmap]. rewrite from_columns_of. set (T := t :: ts).
  set (s := mkReader T 0 [] F). assert (on_source T s) as Hs by (split; [done|cbn; lia]).
  pose proof (read_all_loop_sound T (read_fuel s) (read_fuel s) s Hs) as H. unfold read_fuel in H at 1 3. cbn [sr_tokens s sr_pos] in H.
  specialize (H ltac:(lia) ltac:(unfold read_fuel; cbn [sr_tokens s]; lia) []). unfold read_all.
  destruct (read_all_loop _ _ [] s) as [fs s'|e s'| |]; cbn; [|done..]. by destruct H as (es & -> & Hf).
Qed.

Lemma parse_all_complete ts F fs : sugar_clear ts -> forallb shaped fs = true ->
  live_tokens ts = concat (map tree_tokens fs) ->
  exists fs' F', parse_all (columns_of ts) F = Ok (fs', F') /\ map erase fs' = map erase fs.
Proof.
  intros Hcl Hsh Ht. unfold parse_all. destruct ts as [|t ts].
  { destruct fs as [|e fs]; [by exists [], F|]. cbn in Ht, Hsh. apply andb_true_iff in Hsh as [He _].
    destruct (head_token e He) as (t & q & Hq & _). by rewrite Hq in Ht. }
  cbn [columns_of lt_tokens fmap list_fmap]. rewrite from_columns_of. set (T := t :: ts) in *.
  set (s := mkReader T 0 [] F). assert (on_source T s) as Hs by (split; [done|cbn; lia]).
  destruct (read_all_loop_complete T Hcl (read_fuel s) (read_fuel s) [] fs s Hsh Hs) as (fs' & s' & He & Hm);
    [unfold read_fuel; cbn [sr_tokens s sr_pos]; lia..|rewrite <- Ht; exact (live_all T)|].
  exists fs', (sr_files s'). unfold read_all. by rewrite He.
Qed.
