(* ===== verification/SynPrint.v ===== *)
(** * Printing forms and reading them back

    [syntax/display.rs], whose text the pipeline reads again (included files are
    spliced through it).  [show] is that text.  A form read from any source
    prints as text that reads back to the same form under every epoch, except
    where it unquotes a splice or holds a double whose [Debug] text is not a
    float literal ([printed_form_reads_back]); the exceptions are real
    ([unquoted_splice_fuses], [infinite_literal_reads_as_symbol]). *)

From stdpp Require Import base numbers option list strings sets.
From S2P Require Import Prelude LirRecord Files Text Escape Lexer LexerProps LexerTiles.
From S2P Require Import SynReader SynGrammar.

Local Open Scope N_scope.

Definition open_text (make : SeqCtor) : Text :=
  match make with
  | SK_List => [LPAREN] | SK_Array => [LBRACKET] | SK_ArrayMut => [AT; LBRACKET]
  | SK_Struct => [LBRACE] | SK_StructMut => [AT; LBRACE]
  | SK_Set => [PIPE] | SK_SetMut => [AT; PIPE]
  | SK_Bytes => [LOWER_B; LBRACKET] | SK_BytesMut => [AT; LOWER_B; LBRACKET]
  end.

Definition close_text (make : SeqCtor) : Text :=
  match make with
  | SK_List => [RPAREN]
  | SK_Array | SK_ArrayMut | SK_Bytes | SK_BytesMut => [RBRACKET]
  | SK_Struct | SK_StructMut => [RBRACE]
  | SK_Set | SK_SetMut => [PIPE]
  end.

(** [delimited]: items with a space between two. *)
Definition delimited (open : Text) (items : list Text) (close : Text) : Text :=
  open ++ match items with [] => [] | t :: ts => t ++ concat (map (cons SPACE) ts) end ++ close.

Section Show.
Context `{FloatText}.
(** The derived [Debug] of a node, inside a syntax literal's text. *)
Variable debug_syntax : Syntax -> Text.

(** [Display] for [SyntaxKind] *)
Fixpoint show (e : Syntax) : Text :=
  let '(mkSyntax k _) := e in
  match k with
  | SK_Nil => text "nil"
  | SK_Bool b => if b then text "true" else text "false"
  | SK_Int n => show_i64 n
  | SK_Float f => debug_f64 f
  | SK_Symbol s => s
  | SK_Keyword s => COLON :: s
  | SK_String s => StringLiteral s
  | SK_StringMut s => AT :: StringLiteral s
  | SK_Seq make items => delimited (open_text make) (map show items) (close_text make)
  | SK_Wrap SK_Quote inner => TICK :: show inner
  | SK_Wrap SK_Quasiquote inner => BACKTICK :: show inner
  | SK_Wrap SK_Unquote inner => COMMA :: show inner
  | SK_Wrap SK_UnquoteSplicing inner => COMMA :: SEMI :: show inner
  | SK_Wrap SK_Splice inner => SEMI :: show inner
  | SK_Wrap SK_SyntaxLiteral inner => text "#<syntax-literal:" ++ debug_syntax inner ++ text ">"
  end.
End Show.

(** No unquote of a splice. *)
Fixpoint unfused (e : Syntax) : bool :=
  let '(mkSyntax k _) := e in
  match k with
  | SK_Seq _ items => forallb unfused items
  | SK_Wrap make inner =>
    unfused inner && negb (bool_decide (make = SK_Unquote)
      && match syn_kind inner with SK_Wrap SK_Splice _ => true | _ => false end)
  | _ => true
  end.

Section WithStd.
Context `{Unicode, FloatText} (debug_syntax : Syntax -> Text).
Abbreviation show := (show debug_syntax).

(** Atoms that read back. *)
Definition atom_reads_back (L : Lexicon) (t : Token) : Prop :=
  match t with
  | Symbol s => symbol_token L s
  | Keyword k => keyword_text k
  | Integer n => i64_range n = true
  | Float f => float_reads f
  | _ => True
  end.

(** ** Lexing several tokens *)

Fixpoint lexes (lx : Lexer) (ts : list Token) (r : Text) : Prop :=
  match ts with
  | [] => lx_rest lx = r
  | t :: ts => exists tw lx', next_token_with_loc lx = Ok (Some tw, lx') /\ tw_token tw = t
      /\ lx_lexicon lx' = lx_lexicon lx /\ lexes lx' ts r
  end.

Lemma lexes_cons lx t ts r r1 : lexes_one lx t r1 ->
  (forall lx', lx_rest lx' = r1 -> lx_lexicon lx' = lx_lexicon lx -> lexes lx' ts r) -> lexes lx (t :: ts) r.
Proof. intros (tw & lx' & H1 & H2 & H3 & H4) Hk. exists tw, lx'. auto. Qed.

Lemma lexes_app lx a b r r1 : lexes lx a r1 ->
  (forall lx', lx_rest lx' = r1 -> lx_lexicon lx' = lx_lexicon lx -> lexes lx' b r) -> lexes lx (a ++ b) r.
Proof.
  revert lx. induction a as [|t a IH]; intros lx Ha Hk; cbn in *; [auto|].
  destruct Ha as (tw & lx' & H1 & H2 & H3 & H4). exists tw, lx'. repeat split; auto. apply IH; [done|].
  intros lx2 Hr Hl. apply Hk; congruence.
Qed.

Lemma lexes_space lx q t ts r : lx_rest lx = SPACE :: q -> lexes (advance lx) (t :: ts) r -> lexes lx (t :: ts) r.
Proof.
  intros Hr (tw & lx' & H1 & H2 & H3 & H4). exists tw, lx'. rewrite (next_token_space lx SPACE q Hr) by done.
  rewrite H3, (moves_lexicon _ _ _ (moves_advance _ _ _ Hr)). done.
Qed.

(** The tokens of punctuation that need no look ahead. *)
Definition punctuation (t : Token) : bool :=
  match t with
  | LeftParen | RightParen | LeftBracket | RightBracket | LeftBrace | RightBrace
  | Quote | Quasiquote | UnquoteSplicing | Splice | Pipe | AtPipe | BytesBracket | AtBytesBracket => true
  | _ => false
  end.

Lemma unit_lexes L t q lx : lx_lexicon lx = L -> sharp L -> lx_rest lx = unit_text t ++ q ->
  punctuation t = true \/ t = ListSugar /\ (exists c q', q = c :: q' /\ c ∈ [LBRACKET; LBRACE; QUOTE])
  \/ t = Unquote /\ q !! 0%nat <> Some SEMI ->
  lexes_one lx t q.
Proof.
  intros HL (Hcc & Hsp & Hfu) Hr Ht.
  assert (exists c u lx', unit_text t ++ q = c :: u /\ is_whitespace c = false /\ lex_token c lx = Ok (t, lx')
    /\ moves lx (unit_text t) lx') as (c & u & lx' & Hc & Hw & Hlt & Hm).
  2:{ rewrite Hc in Hr. apply (lex_token_one lx c u t q lx' Hr Hw Hlt); [|exact (moves_lexicon _ _ _ Hm)].
      rewrite <- Hc in Hr. exact (moves_rest _ _ _ _ Hm Hr). }
  assert (forall c, lx_rest lx = c :: q -> unit_token c = Some t -> c <> HASH ->
    lex_token c lx = Ok (t, advance lx) /\ moves lx [c] (advance lx)) as Hunit.
  { intros c Hrc Hu Hh. unfold lex_token. rewrite HL, Hcc. apply N.eqb_neq in Hh. rewrite Hh, Hu. split; [done|].
    exact (moves_advance _ _ _ Hrc). }
  destruct Ht as [Ht | [[-> (c & q' & -> & Hin)] | [-> Hq]]].
  - destruct t; try discriminate Ht; cbn [unit_text app] in *;
      try (eexists _, _, (advance lx); split; [done|]; split; [done|]; apply Hunit; done).
    + exists COMMA, (SEMI :: q), (advance (advance lx)). split; [done|]. split; [done|].
      split; [|exact (moves_two _ _ _ _ Hr)]. unfold lex_token. rewrite HL, Hcc. cbn. rewrite Hfu.
      by rewrite bool_decide_true by exact (rest_current _ _ _ (rest_advance _ _ _ Hr)).
    + exists SEMI, q, (advance lx). split; [done|]. split; [done|]. split; [|exact (moves_advance _ _ _ Hr)].
      unfold lex_token. rewrite HL, Hcc. cbn. by rewrite Hsp.
    + exists AT, (PIPE :: q), (advance (advance lx)). split; [done|]. split; [done|].
      split; [|exact (moves_two _ _ _ _ Hr)]. unfold lex_token. rewrite HL, Hcc. cbn -[lex_at]. unfold lex_at.
      by rewrite (rest_current _ _ _ (rest_advance _ _ _ Hr)).
    + exists LOWER_B, (LBRACKET :: q), (advance (advance lx)). split; [done|]. split; [done|].
      split; [|exact (moves_two _ _ _ _ Hr)]. unfold lex_token, peek1. rewrite HL, Hcc, Hr. done.
    + exists AT, (LOWER_B :: LBRACKET :: q), (advance (advance (advance lx))). split; [done|]. split; [done|].
      pose proof (rest_advance _ _ _ Hr) as Har. split; [|exact (moves_cons _ _ _ _ _ Hr (moves_two _ _ _ _ Har))].
      unfold lex_token. rewrite HL, Hcc. cbn -[lex_at]. unfold lex_at, peek1. rewrite (rest_current _ _ _ Har), Har. done.
  - exists AT, (c :: q'), (advance lx). split; [done|]. split; [done|]. split; [|exact (moves_advance _ _ _ Hr)].
    unfold lex_token. rewrite HL, Hcc. cbn -[lex_at]. unfold lex_at. rewrite (rest_current _ _ _ (rest_advance _ _ _ Hr)).
    set_unfold in Hin. repeat destruct Hin as [-> | Hin]; done.
  - exists COMMA, q, (advance lx). split; [done|]. split; [done|]. split; [|exact (moves_advance _ _ _ Hr)].
    unfold lex_token. rewrite HL, Hcc. cbn. rewrite (bool_decide_false (current (advance lx) = Some SEMI)); [by rewrite andb_false_r|].
    unfold current. by rewrite (rest_advance _ _ _ Hr).
Qed.

(** ** Lexing a printed form *)

Lemma token_stop_head t q : stops q -> t = [] \/ (exists u, t = SPACE :: u) -> stops (t ++ q).
Proof. intros Hq [-> | [u ->]]; [done|]. cbn. by left. Qed.

Lemma spaced_tail (ts : list Text) : concat (map (cons SPACE) ts) = [] \/ exists u, concat (map (cons SPACE) ts) = SPACE :: u.
Proof. destruct ts; cbn; eauto. Qed.

Lemma close_stops make r : stops (close_text make ++ r).
Proof. destruct make; cbn; right; set_solver. Qed.

(** A form prints as text that lexes to its tokens. *)
Definition lexes_back (L : Lexicon) (e : Syntax) : Prop := forall lx r, lx_lexicon lx = L ->
  lx_rest lx = show e ++ r -> stops r -> lexes lx (tree_tokens e) r.

Lemma items_lex_back L items : Forall (lexes_back L) items -> Forall (fun e => tree_tokens e <> []) items ->
  forall lx q, lx_lexicon lx = L -> lx_rest lx = concat (map (cons SPACE) (map show items)) ++ q -> stops q ->
  lexes lx (concat (map tree_tokens items)) q.
Proof.
  induction 1 as [|e items He _ IH]; intros Hne lx q HL Hr Hq; [done|]. apply Forall_cons in Hne as [Hn Hne].
  cbn in Hr. rewrite <- app_assoc in Hr. pose proof (rest_advance _ _ _ Hr) as Har.
  assert (lx_lexicon (advance lx) = L) as HL1 by (by rewrite (moves_lexicon _ _ _ (moves_advance _ _ _ Hr))).
  assert (lexes (advance lx) (tree_tokens e ++ concat (map tree_tokens items)) q) as Hl.
  { eapply lexes_app; [apply (He _ _ HL1 Har); apply token_stop_head; [done|apply spaced_tail]|].
    intros lx' Hr' HL'. apply IH; [done|congruence|done|done]. }
  cbn [map concat]. destruct (tree_tokens e) as [|t ts]; [done|]. exact (lexes_space _ _ _ _ _ Hr Hl).
Qed.

Lemma seq_lex_back L make items sp : sharp L -> Forall (lexes_back L) items -> Forall (fun e => tree_tokens e <> []) items ->
  lexes_back L (mkSyntax (SK_Seq make items) sp).
Proof.
  intros Hsh Hit Hne lx r HL Hr Hst. cbn [tree_tokens]. cbn in Hr. unfold delimited in Hr. rewrite <- !app_assoc in Hr.
  set (inside := match map show items with [] => [] | t :: ts => t ++ concat (map (cons SPACE) ts) end) in Hr.
  assert (forall lx, lx_lexicon lx = L -> lx_rest lx = inside ++ close_text make ++ r ->
    lexes lx (concat (map tree_tokens items) ++ [close_token make]) r) as Hin.
  { clear lx HL Hr. intros lx HL Hr. eapply lexes_app with (r1 := close_text make ++ r).
    - subst inside. destruct items as [|e items]; [done|]. apply Forall_cons in Hit as [He Hit], Hne as [_ Hne].
      cbn in Hr. rewrite <- app_assoc in Hr. cbn [map concat]. eapply lexes_app.
      + apply (He _ _ HL Hr). apply token_stop_head; [apply close_stops|apply spaced_tail].
      + intros lx' Hr' HL'. apply (items_lex_back L); [done|done|congruence|done|apply close_stops].
    - intros lx' Hr' HL'. apply lexes_cons with (r1 := r); [|done].
      apply (unit_lexes L); [congruence|done|rewrite Hr'; by destruct make|left; by destruct make]. }
  assert (open_text make = concat (map unit_text (open_tokens make))) as Hop by (by destruct make).
  destruct (open_tokens make) as [|t [|t2 [|]]] eqn:Ho; try (by destruct make).
  - apply lexes_cons with (r1 := inside ++ close_text make ++ r).
    + apply (unit_lexes L); [done|done|rewrite Hr, Hop; cbn; by rewrite app_nil_r|left; destruct make; try discriminate Ho; by injection Ho as <-].
    + intros lx' Hr' HL'. apply Hin; [congruence|done].
  - assert (t = ListSugar /\ (t2 = LeftBracket \/ t2 = LeftBrace)) as [-> Ht2] by (destruct make; try discriminate Ho; injection Ho as <- <-; auto).
    apply lexes_cons with (r1 := unit_text t2 ++ inside ++ close_text make ++ r).
    + apply (unit_lexes L); [done|done|rewrite Hr, Hop; cbn; by rewrite app_nil_r|].
      right. left. split; [done|]. destruct Ht2 as [-> | ->]; eexists _, _; (split; [done|]); set_solver.
    + intros lx' Hr' HL'. apply lexes_cons with (r1 := inside ++ close_text make ++ r).
      * apply (unit_lexes L); [congruence|done|done|left; by destruct Ht2 as [-> | ->]].
      * intros lx2 Hr2 HL2. apply Hin; congruence.
Qed.

(** What a printed form starts with. *)
Lemma show_head L e : sharp L -> shaped e = true -> Forall (atom_reads_back L) (tree_tokens e) ->
  show e !! 0%nat = Some SEMI -> exists inner, syn_kind e = SK_Wrap SK_Splice inner.
Proof.
  intros (Hcc & _) Hsh Hat Hhd. destruct e as [k sp]. destruct k as [| [] |n|f|x|x|x|x|make items|make inner]; cbn in *; try done.
  - destruct (show_i64_text n) as (sg & ds & Hs & Hnt); [by apply Forall_cons in Hat as [Hn _]|].
    destruct (number_head _ _ _ _ [] Hnt) as (c & q & Hq & Hc). rewrite !app_nil_r, <- Hs in Hq. rewrite Hq in Hhd. injection Hhd as ->.
    by destruct Hc as [Hc | [Hc _]].
  - apply Forall_cons in Hat as [(sg & ds & fr & ex & Hs & Hnt & _) _].
    destruct (number_head _ _ _ _ [] Hnt) as (c & q & Hq & Hc). rewrite app_nil_r, <- Hs in Hq. rewrite Hq in Hhd. injection Hhd as ->.
    by destruct Hc as [Hc | [Hc _]].
  - apply Forall_cons in Hat as [Hx _]. destruct x as [|c x]; [done|]. injection Hhd as ->. cbn in Hx.
    destruct Hx as (_ & Hx & _). by destruct x.
  - by destruct make.
  - destruct make; try done. by exists inner.
Qed.

Lemma wrap_lex_back L make inner sp : sharp L -> lexes_back L inner ->
  shaped (mkSyntax (SK_Wrap make inner) sp) = true -> unfused (mkSyntax (SK_Wrap make inner) sp) = true ->
  Forall (atom_reads_back L) (tree_tokens inner) -> lexes_back L (mkSyntax (SK_Wrap make inner) sp).
Proof.
  intros Hsh Hin Hs Hu Hat lx r HL Hr Hst. cbn in Hs, Hu. apply andb_true_iff in Hs as [Hm Hs], Hu as [_ Hu].
  cbn [tree_tokens]. assert (exists t, wrap_token make = [t]
    /\ show (mkSyntax (SK_Wrap make inner) sp) = unit_text t ++ show inner
    /\ (punctuation t = true \/ t = Unquote /\ (show inner ++ r) !! 0%nat <> Some SEMI)) as (t & -> & Hsw & Hp).
  { destruct make; try (by eexists; split; [reflexivity|]; split; [reflexivity|]; left); [|done].
    eexists. split; [reflexivity|]. split; [reflexivity|]. right. split; [done|]. intros Hhd.
    destruct (show inner) as [|c q] eqn:Hq.
    - cbn in Hhd. destruct r as [|c r]; [done|]. injection Hhd as ->. apply stops_cases in Hst. unfold SEMI in Hst. lia.
    - destruct (show_head L inner Hsh Hs Hat) as (i & Hi); [by rewrite Hq|]. rewrite Hi in Hu. done. }
  apply lexes_cons with (r1 := show inner ++ r).
  - apply (unit_lexes L); [done|done|by rewrite Hr, Hsw, <- app_assoc|tauto].
  - intros lx' Hr' HL'. apply Hin; congruence.
Qed.

Lemma atom_lex_back L k sp : sharp L -> match k with SK_Seq _ _ | SK_Wrap _ _ => False | _ => True end ->
  Forall (atom_reads_back L) (tree_tokens (mkSyntax k sp)) -> lexes_back L (mkSyntax k sp).
Proof.
  intros Hsh Hk Hat lx r HL Hr Hst. destruct k as [|b|n|f|x|x|x|x| |]; try done; cbn [tree_tokens SynPrint.show] in Hat, Hr |- *;
    try (apply lexes_cons with (r1 := r); [|done]).
  - apply (word_lexes L _ (text "nil")); auto.
  - apply (word_lexes L _ (unit_text (Bool b))); [done|done|done|by destruct b|right; eauto].
  - apply (integer_lexes L); auto. by apply Forall_cons in Hat as [Hn _].
  - apply (float_lexes L); auto. by apply Forall_cons in Hat as [Hf _].
  - apply (symbol_lexes L); auto. by apply Forall_cons in Hat as [Hx _].
  - apply (keyword_lexes L); auto. by apply Forall_cons in Hat as [Hx _].
  - by apply (string_lexes L).
  - apply lexes_cons with (r1 := StringLiteral x ++ r).
    + apply (unit_lexes L); [done|done|done|]. right. left. split; [done|]. eexists _, _. split; [reflexivity|]. set_solver.
    + intros lx' Hr' HL'. apply lexes_cons with (r1 := r); [|done]. apply (string_lexes L); [congruence|done|done].
Qed.

Lemma show_lexes L e : sharp L -> shaped e = true -> unfused e = true ->
  Forall (atom_reads_back L) (tree_tokens e) -> lexes_back L e.
Proof.
  intros Hsh. induction e as [make items sp IH|make inner sp IH|k sp Hk] using syntax_rect; intros Hs Hu Hat.
  - cbn in Hs, Hu. apply andb_true_iff in Hs as [Hs _]. rewrite forallb_forall in Hs, Hu.
    apply seq_lex_back; [done| |]; apply Forall_forall; intros e He; pose proof (proj1 (list_elem_of_In _ _) He) as Hi.
    + rewrite Forall_forall in IH. apply (IH _ He); [by apply Hs|by apply Hu|].
      cbn [tree_tokens] in Hat. apply Forall_app in Hat as [_ Hat]. apply Forall_app in Hat as [Hat _].
      rewrite Forall_forall in Hat |- *. intros t Ht. apply Hat. apply list_elem_of_In, in_concat. exists (tree_tokens e).
      split; [by apply in_map | by apply list_elem_of_In].
    + destruct (head_token e (Hs _ Hi)) as (t & q & -> & _). done.
  - assert (Forall (atom_reads_back L) (tree_tokens inner)) as Hat' by (cbn in Hat; by apply Forall_app in Hat as [_ Hat]).
    apply wrap_lex_back; [done| |done|done|done]. cbn in Hs, Hu. apply andb_true_iff in Hs as [_ Hs], Hu as [Hu _]. auto.
  - by apply atom_lex_back.
Qed.

(** ** A whole printed form *)

Lemma lexes_loop n lx ts acc : (length (lx_rest lx) < n)%nat -> lexes lx ts [] ->
  exists us, lex_loop n acc lx = Ok (acc ++ us) /\ tw_token <$> us = ts.
Proof.
  revert n lx acc. induction ts as [|t ts IH]; intros n lx acc Hn Hl; (destruct n as [|n]; [lia|]); cbn [lex_loop].
  - cbn in Hl. exists []. rewrite app_nil_r. split; [|done]. unfold next_token_with_loc, skip_whitespace, advance_while.
    rewrite Hl. cbn. unfold current. by rewrite Hl.
  - destruct Hl as (tw & lx' & Hnt & Ht & HL & Hl). pose proof (next_token_takes lx) as Hy. rewrite Hnt in Hy |- *.
    destruct Hy as (ws & s & lx1 & _ & Hm1 & Hne & Hm2 & _).
    assert (length (lx_rest lx') < n)%nat as Hn'.
    { destruct Hm1 as [Hr1 _], Hm2 as [Hr2 _]. rewrite Hr1, Hr2, !length_app in Hn. destruct s; [done|]. cbn in Hn. lia. }
    destruct (IH n lx' (acc ++ [tw]) Hn' Hl) as (us & He & Hus). exists (tw :: us). cbn [mbind Out_bind]. rewrite He, <- app_assoc.
    split; [done|]. cbn. by rewrite Ht, Hus.
Qed.

Lemma no_shebang e : forall L, sharp L -> shaped e = true -> Forall (atom_reads_back L) (tree_tokens e) ->
  strip_shebang (show e) = show e.
Proof.
  intros L Hsh Hs Hat. unfold strip_shebang. destruct (show e) as [|a [|b q]] eqn:He; try done.
  destruct (N.eqb_spec a HASH) as [->|]; [|done]. exfalso. pose proof Hsh as (Hcc & _).
  destruct e as [k sp]. destruct k as [| [] |n|f|x|x|x|x|make items|make inner]; cbn in *; try done.
  - apply Forall_cons in Hat as [Hn _]. destruct (show_i64_text n Hn) as (sg & ds & Hsn & Hnt).
    destruct (number_head _ _ _ _ [] Hnt) as (c & q' & Hq & Hc). rewrite !app_nil_r, <- Hsn, He in Hq. injection Hq as <- _.
    by destruct Hc as [Hc | [Hc _]].
  - apply Forall_cons in Hat as [(sg & ds & fr & ex & Hsf & Hnt & _) _].
    destruct (number_head _ _ _ _ [] Hnt) as (c & q' & Hq & Hc). rewrite app_nil_r, <- Hsf, He in Hq. injection Hq as <- _.
    by destruct Hc as [Hc | [Hc _]].
  - apply Forall_cons in Hat as [Hx _]. subst x. cbn in Hx. destruct Hx as (Hst & _). unfold starts_symbol in Hst.
    by rewrite Hcc in Hst.
  - by destruct make.
  - by destruct make.
Qed.

Lemma tree_no_comments e : Forall (fun t => is_comment t = false) (tree_tokens e).
Proof.
  induction e as [make items sp IH|make inner sp IH|k sp Hk] using syntax_rect; cbn.
  - apply Forall_app. split; [by destruct make; repeat constructor|]. apply Forall_app. split; [|destruct make; by repeat constructor].
    induction IH as [|e es He _ IHes]; cbn; [constructor|]. by apply Forall_app.
  - apply Forall_app. split; [by destruct make; repeat constructor | done].
  - destruct k; try done; by repeat constructor.
Qed.

Lemma filter_no_comments ts : Forall (fun t => is_comment t = false) ts -> filter (fun t => is_comment t = false) ts = ts.
Proof. induction 1 as [|t ts Ht _ IH]; [done|]. rewrite filter_cons, decide_True by done. by rewrite IH. Qed.

(** The tokens of a printed form. *)
Lemma printed_lexes L e name : sharp L -> shaped e = true -> unfused e = true ->
  Forall (atom_reads_back L) (tree_tokens e) ->
  exists us, lex_all_under (show e) name L = Ok us /\ tw_token <$> us = tree_tokens e
    /\ live_tokens us = tree_tokens e /\ sugar_clear us.
Proof.
  intros Hsh Hs Hu Hat. unfold lex_all_under. rewrite (no_shebang e L Hsh Hs Hat).
  set (lx := in_lexicon (Lexer_with_file (show e) name) L).
  assert (lexes lx (tree_tokens e) []) as Hl.
  { apply (show_lexes L e Hsh Hs Hu Hat); [done|by rewrite app_nil_r|done]. }
  destruct (lexes_loop (S (length (show e))) lx (tree_tokens e) [] ltac:(cbn; lia) Hl) as (us & -> & Hus).
  pose proof (tree_no_comments e) as Hnc. exists us. split; [done|]. split; [done|]. split.
  - unfold live_tokens. by rewrite Hus, filter_no_comments.
  - intros i tw tw' _ _ Ht. rewrite Forall_forall in Hnc. apply Hnc. rewrite <- Hus. apply list_elem_of_lookup. exists (S i).
    by rewrite list_lookup_fmap, Ht.
Qed.

Lemma printed_reads L e name F : sharp L -> shaped e = true -> unfused e = true ->
  Forall (atom_reads_back L) (tree_tokens e) ->
  exists e' F', read_syntax_under (show e) name L F = Ok ([e'], F') /\ erase e' = erase e.
Proof.
  intros Hsh Hs Hu Hat. destruct (printed_lexes L e name Hsh Hs Hu Hat) as (us & Hl & _ & Hlt & Hcl).
  unfold read_syntax_under, lex_columns. rewrite Hl. cbn [mbind Out_bind].
  destruct (parse_all_complete us F [e] Hcl) as (fs' & F' & Hp & Hm); [cbn; by rewrite Hs|cbn; by rewrite app_nil_r|].
  destruct fs' as [|e' [|]]; try done. injection Hm as Hm. exists e', F'. by rewrite Hp.
Qed.

(** The same for [read_syntax], which refuses anything after the form. *)
Lemma printed_reads_one L e name F : sharp L -> shaped e = true -> unfused e = true ->
  Forall (atom_reads_back L) (tree_tokens e) ->
  exists e' F', read_one_under (show e) name L F = Ok (e', F') /\ erase e' = erase e.
Proof.
  intros Hsh Hs Hu Hat. destruct (printed_lexes L e name Hsh Hs Hu Hat) as (us & Hl & Hus & Hlt & Hcl).
  unfold read_one_under, lex_columns. rewrite Hl. cbn [mbind Out_bind].
  destruct us as [|t us]; [by destruct (head_token e Hs) as (? & ? & He & _); rewrite <- Hus in He|].
  cbn [columns_of lt_tokens fmap list_fmap]. change (mkColumns _ _ _ _) with (columns_of (t :: us)).
  rewrite from_columns_of. set (T := t :: us) in *. set (s := mkReader T 0 [] F).
  assert (on_source T s) as Hos by (split; [done|cbn; lia]).
  destruct (shaped_completes T Hcl e Hs (read_fuel s) s []) as (e' & s' & Hr & He & Hrest); [done|unfold read_fuel; cbn; lia| |].
  { unfold rest. cbn [sr_pos s]. by rewrite live_all, app_nil_r. }
  pose proof (read_reads T (read_fuel s) s Hos ltac:(unfold read_fuel; cbn; lia)) as Hrd. rewrite Hr in Hrd |- *. cbn [rd_bind].
  destruct Hrd as (Hos' & _). unfold current_token. destruct (sr_at s') as [tw|] eqn:Ht; [|cbn; by eexists _, _].
  exfalso. rewrite (rest_at T s' tw Hos' Ht) in Hrest. pose proof (tree_no_comments e) as Hnc. rewrite <- Hus in Hnc.
  destruct (at_lookup T s' tw Hos' Ht) as [Hlk _]. rewrite Forall_lookup in Hnc.
  rewrite (Hnc (sr_pos s') (tw_token tw)) in Hrest; [done|by rewrite list_lookup_fmap, Hlk].
Qed.

End WithStd.
