(* ===== verification/ReaderProps.v ===== *)
(** * The reader's guarantees

    Lexer, syntax reader and printer together: the reader answers exactly the
    forms a stream spells ([parse_exact]), its spans nest as the forms do
    ([spans_nest]), and a printed form reads back ([printed_form_reads_back]),
    with the cases in which it does not. *)

From stdpp Require Import base numbers option list strings sets.
From S2P Require Import Prelude LirRecord Files Text Escape Lexer LexerProps LexerTiles.
From S2P Require Import SynReader SynGrammar SynPrint.

Local Open Scope N_scope.

(** ** Forms up to spans *)

Lemma erase_tokens e : tree_tokens (erase e) = tree_tokens e.
Proof.
  induction e as [make items sp IH|make inner sp IH|k sp Hk] using syntax_rect; cbn.
  - rewrite map_map. do 2 f_equal. f_equal. apply map_ext_in. intros e He. rewrite Forall_forall in IH. apply IH. by apply list_elem_of_In.
  - by rewrite IH.
  - by destruct k.
Qed.

Lemma erase_is_set e : is_set (erase e) = is_set e.
Proof. destruct e as [[] sp]; try done. Qed.

Lemma forallb_map {A B} (f : A -> B) (p : B -> bool) l : forallb p (map f l) = forallb (fun x => p (f x)) l.
Proof. induction l as [|x l IH]; cbn; [done|]. by rewrite IH. Qed.

Lemma forallb_ext_in {A} (p q : A -> bool) l : (forall x, x ∈ l -> p x = q x) -> forallb p l = forallb q l.
Proof.
  induction l as [|x l IH]; intros Hpq; cbn; [done|]. rewrite (Hpq x), IH; [done| |constructor].
  intros y Hy. apply Hpq. by constructor.
Qed.

Lemma erase_shaped e : shaped (erase e) = shaped e.
Proof.
  induction e as [make items sp IH|make inner sp IH|k sp Hk] using syntax_rect; cbn.
  - rewrite !forallb_map. f_equal; [|f_equal]; apply forallb_ext_in; intros e He.
    + rewrite Forall_forall in IH. by apply IH.
    + by rewrite erase_is_set.
  - by rewrite IH.
  - by destruct k.
Qed.

Lemma erased_alike fs gs : map erase fs = map erase gs ->
  concat (map tree_tokens fs) = concat (map tree_tokens gs) /\ forallb shaped fs = forallb shaped gs.
Proof.
  revert gs. induction fs as [|f fs IH]; intros [|g gs] H; try done. injection H as Hf H. apply IH in H as [Ht Hs]. cbn.
  rewrite Ht, Hs, <- (erase_tokens f), <- (erase_shaped f), Hf, erase_tokens, erase_shaped. done.
Qed.

(** C10: the syntax reader reads exactly its grammar.  On a token stream with no
    comment right after an [@], it answers forms equal to [gs] up to spans if
    and only if the stream, comments left out, is the tokens of [gs] and [gs]
    are well-shaped: no syntax literal, no set as a direct element of a set.
    Every other stream it refuses. *)
Theorem parse_exact (ts : list TokenWithLoc) (F : Files) (gs : list Syntax) :
  sugar_clear ts ->
  (exists fs F', parse_all (columns_of ts) F = Ok (fs, F') /\ map erase fs = map erase gs)
  <-> forallb shaped gs = true /\ live_tokens ts = concat (map tree_tokens gs).
Proof.
  intros Hcl. split.
  - intros (fs & F' & Hp & He). pose proof (parse_all_sound ts F) as Hs. rewrite Hp in Hs. cbn in Hs.
    destruct (forms_tokens ts 0 fs Hs ltac:(lia)) as [Ht Hsh]. rewrite live_all in Ht.
    apply erased_alike in He as [<- <-]. done.
  - intros [Hsh Ht]. exact (parse_all_complete ts F gs Hcl Hsh Ht).
Qed.

(** ** Spans *)

(** The span of a form holds those of its parts, in order. *)
Definition within (p q : Span) : Prop := sp_start p <= sp_start q /\ sp_end q <= sp_end p.

Fixpoint in_order (es : list Syntax) : Prop :=
  match es with
  | e1 :: ((e2 :: _) as es') => sp_end (syn_span e1) <= sp_start (syn_span e2) /\ in_order es'
  | _ => True
  end.

Fixpoint nested (e : Syntax) : Prop :=
  let '(mkSyntax k sp) := e in
  sp_start sp < sp_end sp /\
  match k with
  | SK_Seq _ items => in_order items /\ fold_right (fun e P => within sp (syn_span e) /\ nested e /\ P) True items
  | SK_Wrap _ inner => within sp (syn_span inner) /\ nested inner
  | _ => True
  end.

(** A stream whose tokens follow each other, inside four gigabytes. *)
Definition laid_out (T : list TokenWithLoc) : Prop :=
  (forall i tw, T !! i = Some tw -> 0 < tw_len tw /\ tw_end tw < 2 ^ 32)
  /\ forall i j a b, (i < j)%nat -> T !! i = Some a -> T !! j = Some b -> tw_end a <= tw_offset b.

Section Laid.
Context (T : list TokenWithLoc) (HT : laid_out T).

(** The bytes of the tokens [i] up to [j]. *)
Definition extent (i j : nat) (sp : Span) : Prop := exists a b, T !! i = Some a /\ T !! (j - 1)%nat = Some b
  /\ sp_start sp = tw_offset a /\ sp_end sp = tw_end b.

Lemma small i tw : T !! i = Some tw -> as_u32 (tw_offset tw) = tw_offset tw /\ as_u32 (tw_end tw) = tw_end tw.
Proof.
  intros Ht. apply (proj1 HT) in Ht as [_ Ht]. unfold tw_end in *. split; apply as_u32_small; lia.
Qed.

Lemma covers_extent i j a b sp : T !! i = Some a -> T !! (j - 1)%nat = Some b -> covers a (tw_end b) sp -> extent i j sp.
Proof.
  intros Ha Hb (H1 & H2 & _). exists a, b. rewrite H1, H2. apply small in Ha as Ha', Hb as Hb'. repeat split; auto; tauto.
Qed.

Lemma extents_order i j k l p q : (i < j)%nat -> (j <= k)%nat -> (k < l)%nat -> extent i j p -> extent k l q ->
  sp_end p <= sp_start q.
Proof.
  intros H1 H2 H3 (a & b & Ha & Hb & _ & ->) (c & d & Hc & Hd & -> & _). apply (proj2 HT (j - 1) k b c)%nat; [lia|done|done].
Qed.

Lemma extent_within i j k l p q : (i <= k)%nat -> (k < l)%nat -> (l <= j)%nat -> extent i j p -> extent k l q -> within p q.
Proof.
  intros H1 H2 H3 (a & b & Ha & Hb & Hp1 & Hp2) (c & d & Hc & Hd & Hq1 & Hq2). unfold within. rewrite Hp1, Hp2, Hq1, Hq2. split.
  - destruct (decide (i = k)) as [->|]; [rewrite Ha in Hc; injection Hc as ->; lia|].
    pose proof (proj2 HT i k a c ltac:(lia) Ha Hc). unfold tw_end in *. lia.
  - destruct (decide (l = j)) as [->|]; [rewrite Hb in Hd; injection Hd as ->; lia|].
    pose proof (proj2 HT (l - 1) (j - 1) d b ltac:(lia) Hd Hb)%nat. unfold tw_end in *. lia.
Qed.

Lemma extent_nonempty i j p : (i < j)%nat -> extent i j p -> sp_start p < sp_end p.
Proof.
  intros Hij (a & b & Ha & Hb & -> & ->). pose proof (proj1 HT _ _ Ha). pose proof (proj1 HT _ _ Hb).
  destruct (decide (i = j - 1)%nat) as [->|].
  - rewrite Ha in Hb. injection Hb as ->. unfold tw_end. lia.
  - pose proof (proj2 HT i (j - 1)%nat a b ltac:(lia) Ha Hb). unfold tw_end in *. lia.
Qed.

(** The elements of a collection between two tokens. *)
Definition laid_items (i j : nat) (es : list Syntax) : Prop :=
  in_order es /\ (forall k l p, (k <= i)%nat -> (j <= l)%nat -> extent k l p ->
    fold_right (fun e P => within p (syn_span e) /\ nested e /\ P) True es)
  /\ match es with [] => True | e :: _ => exists k l, (i <= k)%nat /\ (k < l <= j)%nat /\ extent k l (syn_span e) end.

Lemma grammar_nested :
  (forall i j e, located T i j e -> extent i j (syn_span e) /\ nested e)
  /\ (forall close i j es, elements T close i j es -> laid_items i j es).
Proof.
  apply grammar_ind.
  - intros i tw k sp Ht Hk Hc. assert (extent i (S i) sp) as He.
    { apply (covers_extent _ _ tw tw); [done|by replace (S i - 1)%nat with i by lia|done]. }
    split; [done|]. cbn. split; [apply (extent_nonempty i (S i)); [lia|done]|]. destruct (tw_token tw); try done; by injection Hk as <-.
  - intros i tw make j k inner sp Ht Hk Hc Hl [IH1 IH2] Hcov. pose proof (proj1 (grammar_lt T) _ _ _ Hl). destruct Hc as [Hij _].
    assert (extent i k sp) as He.
    { destruct IH1 as (a & b & Ha & Hb & _ & Hend). apply (covers_extent _ _ tw b); [done|done|]. by rewrite <- Hend. }
    split; [done|]. cbn. split; [apply (extent_nonempty i k); [lia|done]|]. split; [|done].
    apply (extent_within i k j k); [lia|lia|lia|done|done].
  - intros i tw make close kd j twc items sp Ht Hk Hel (IH1 & IH2 & _) Hj Hc Hcov. pose proof (proj2 (grammar_lt T) _ _ _ _ Hel).
    assert (extent i (S j) sp) as He.
    { apply (covers_extent _ _ tw twc); [done|by replace (S j - 1)%nat with j by lia|done]. }
    split; [done|]. cbn. split; [apply (extent_nonempty i (S j)); [lia|done]|]. split; [done|]. apply (IH2 i (S j)); [lia|lia|done].
  - intros i tw tw1 make close kd j twc items sp Ht Htk Ht1 Hk Hel (IH1 & IH2 & _) Hj Hc Hcov. pose proof (proj2 (grammar_lt T) _ _ _ _ Hel).
    assert (extent i (S j) sp) as He.
    { apply (covers_extent _ _ tw twc); [done|by replace (S j - 1)%nat with j by lia|done]. }
    split; [done|]. cbn. split; [apply (extent_nonempty i (S j)); [lia|done]|]. split; [done|]. apply (IH2 i (S j)); [lia|lia|done].
  - intros i tw tw1 x sp Ht Htk Ht1 Hk Hcov. assert (extent i (S (S i)) sp) as He.
    { apply (covers_extent _ _ tw tw1); [done|by replace (S (S i) - 1)%nat with (S i) by lia|done]. }
    split; [done|]. cbn. split; [|done]. apply (extent_nonempty i (S (S i))); [lia|done].
  - intros close i j Hc. by repeat split.
  - intros close i k tw j m e es Hc Ht Hne Hl [IH1 IH2] Hel (IH3 & IH4 & IH5). pose proof (proj1 (grammar_lt T) _ _ _ Hl).
    pose proof (proj2 (grammar_lt T) _ _ _ _ Hel). destruct Hc as [Hik _]. split; [|split].
    + destruct es as [|e2 es]; [done|]. destruct IH5 as (k2 & l2 & H1 & H2 & H3). split; [|done].
      apply (extents_order k j k2 l2); [lia|lia|lia|done|done].
    + intros a b p Ha Hb Hp. cbn. split; [apply (extent_within a b k j); [lia|lia|lia|done|done]|]. split; [done|].
      apply (IH4 a b); [lia|lia|done].
    + exists k, j. split; [lia|]. split; [lia|done].
Qed.

Lemma forms_order i es : forms T i es -> in_order es /\ Forall nested es
  /\ match es with [] => True | e :: _ => exists k l, (i <= k < l)%nat /\ extent k l (syn_span e) end.
Proof.
  induction 1 as [i Hc|i k j e es Hc Hl He (IH1 & IH2 & IH3)]; [by repeat split|].
  destruct (proj1 grammar_nested _ _ _ Hl) as [Hex Hn]. pose proof (proj1 (grammar_lt T) _ _ _ Hl). pose proof (proj1 Hc).
  split; [|split; [by constructor|exists k, j; split; [lia|done]]].
  destruct es as [|e2 es]; [done|]. destruct IH3 as (k2 & l2 & H1 & H2). split; [|done].
  apply (extents_order k j k2 l2); [lia|lia|lia|done|done].
Qed.

End Laid.

Section WithStd.
Context `{Unicode, FloatText}.

(** Tokens of one text are laid out. *)
Lemma tiling_bounds name L before rest ts : tiling name L before rest ts ->
  (forall i tw, ts !! i = Some tw -> 0 < tw_len tw /\ blen before <= tw_offset tw /\ tw_end tw <= blen before + blen rest)
  /\ (forall i j a b, (i < j)%nat -> ts !! i = Some a -> ts !! j = Some b -> tw_end a <= tw_offset b)
  /\ (forall tw, tw ∈ ts -> exists s, lexeme L (tw_token tw) s).
Proof.
  revert before rest. induction ts as [|t ts IH]; intros before rest Ht.
  { split; [done|]. split; [done|]. by intros tw Htw%not_elem_of_nil. }
  destruct Ht as (ws & s & rest' & -> & _ & Hne & Hl & Ho & Hlen & _ & Ht). destruct (IH _ _ Ht) as (IH1 & IH2 & IH3).
  rewrite !blen_app in *. pose proof (blen_pos s Hne). split; [|split].
  - intros [|i] tw Hi; cbn in Hi.
    + injection Hi as <-. unfold tw_end. lia.
    + apply IH1 in Hi as (Hx1 & Hx2 & Hx3). lia.
  - intros [|i] [|j] a b Hij Ha Hb; cbn in *; try lia.
    + injection Ha as <-. apply IH1 in Hb as (_ & Hb & _). unfold tw_end. lia.
    + apply (IH2 i j); [lia|done|done].
  - intros tw Htw. apply elem_of_cons in Htw as [-> | Htw]; [by exists s | by apply IH3].
Qed.

(** What a successful read of a source gives. *)
Lemma read_syntax_sound src name L F fs F' : read_syntax_under src name L F = Ok (fs, F') ->
  exists ts, tiling name L [] (strip_shebang src) ts /\ forms ts 0 fs.
Proof.
  unfold read_syntax_under, lex_columns. pose proof (lex_loop_tiles name L (S (length (strip_shebang src)))
    (in_lexicon (Lexer_with_file (strip_shebang src) name) L) [] [] ltac:(done) ltac:(cbn; lia)) as Hl.
  unfold lex_all_under. destruct (lex_loop _ _ _) as [ts| | |]; try done. destruct Hl as (us & -> & Hus).
  cbn [mbind Out_bind app]. intros Hp. exists us. split; [done|].
  pose proof (parse_all_sound us F) as Hs. by rewrite Hp in Hs.
Qed.

(** C12: the spans of what is read from a source below four gigabytes nest as the
    forms do: every span is nonempty and holds the spans of the form's parts,
    and of two parts, or two forms of the file, the first ends before the
    second starts. *)
Theorem spans_nest (src : Text) (name : list N) (L : Lexicon) (F : Files) (fs : list Syntax) (F' : Files) :
  read_syntax_under src name L F = Ok (fs, F') -> blen (strip_shebang src) < 2 ^ 32 ->
  in_order fs /\ Forall nested fs.
Proof.
  intros Hr Hsz. destruct (read_syntax_sound _ _ _ _ _ _ Hr) as (ts & Ht & Hf).
  destruct (tiling_bounds _ _ _ _ _ Ht) as (H1 & H2 & _).
  assert (laid_out ts) as Hlaid.
  { split; [|done]. intros i tw Hi. apply H1 in Hi as (Ha & _ & Hb). cbn in Hb. lia. }
  by destruct (forms_order ts Hlaid 0 fs Hf) as (Ho & Hn & _).
Qed.

(** ** Printing *)

(** What is read from a source prints back, but for its doubles. *)
Lemma lexeme_reads_back e1 e2 t s : lexeme (for_epoch e1) t s -> (forall f, t = Float f -> float_reads f) ->
  atom_reads_back (for_epoch e2) t.
Proof. destruct t; cbn; try done; try tauto. intros _ Hf. by apply Hf. Qed.

(** C9: printing a form and reading the text again gives the form back.  Any
    form read from any source of any epoch, printed by [Display], is read under
    any epoch to a single form equal to it up to spans, provided it unquotes no
    splice and each double in it prints as a float literal that parses to it. *)
Theorem printed_form_reads_back (debug_syntax : Syntax -> Text) (e1 e2 : N) (src : Text) (name : list N)
    (F F1 F2 : Files) (fs : list Syntax) (e : Syntax) :
  read_syntax_under src name (for_epoch e1) F = Ok (fs, F1) -> e ∈ fs ->
  unfused e = true -> (forall f, Float f ∈ tree_tokens e -> float_reads f) ->
  exists e' F3, read_syntax_under (show debug_syntax e) name (for_epoch e2) F2 = Ok ([e'], F3)
    /\ erase e' = erase e.
Proof.
  intros Hr He Hu Hfl. destruct (read_syntax_sound _ _ _ _ _ _ Hr) as (ts & Ht & Hf).
  destruct (tiling_bounds _ _ _ _ _ Ht) as (_ & _ & Hlex). destruct (forms_tokens ts 0 fs Hf ltac:(lia)) as [Htk Hsh].
  pose proof (proj1 (list_elem_of_In _ _) He) as Hi. rewrite forallb_forall in Hsh.
  apply printed_reads; [done|by apply Hsh|done|]. apply Forall_forall. intros t Hte.
  assert (t ∈ live_tokens ts) as Hlt.
  { rewrite <- live_all, Htk. apply list_elem_of_In, in_concat. exists (tree_tokens e). split; [by apply in_map | by apply list_elem_of_In]. }
  unfold live_tokens in Hlt. apply list_elem_of_filter in Hlt as [_ Hlt]. apply list_elem_of_fmap in Hlt as (tw & -> & Htw).
  destruct (Hlex _ Htw) as [s Hs]. apply (lexeme_reads_back e1 e2 _ s Hs). intros f Hf'. apply Hfl. by rewrite <- Hf'.
Qed.

End WithStd.

(** ** On concrete text *)

Definition read_text (s : string) : Out ReadError (list Syntax * Files) :=
  read_syntax_under (text s) UNKNOWN_FILE current_lexicon FILES_init.

Definition no_debug (_ : Syntax) : Text := [].

(** The forms of a text, without their spans. *)
Definition forms_of (m : Out ReadError (list Syntax * Files)) : option (list Syntax) :=
  match m with Ok (fs, _) => Some (map erase fs) | _ => None end.

Definition plain_form (k : SyntaxKind) : Syntax := mkSyntax k Span_synthetic.

(** The tokens of a list that holds a comment. *)
Definition commented : list TokenWithLoc :=
  [mkTok LeftParen loc_start 1 0; mkTok (Integer 1) loc_start 1 1; mkTok (Comment [HASH]) loc_start 1 3;
   mkTok RightParen loc_start 1 5].

Lemma parse_exact_witness :
  sugar_clear commented /\
  ((exists fs F', parse_all (columns_of commented) FILES_init = Ok (fs, F')
      /\ map erase fs = map erase [plain_form (SK_Seq SK_List [plain_form (SK_Int 1)])])
   <-> forallb shaped [plain_form (SK_Seq SK_List [plain_form (SK_Int 1)])] = true
       /\ live_tokens commented = concat (map tree_tokens [plain_form (SK_Seq SK_List [plain_form (SK_Int 1)])])).
Proof.
  assert (sugar_clear commented) as Hc.
  { intros [|[|[|[|i]]]] tw tw' H1 H2 H3; cbn in *; try done; injection H1 as <-; done. }
  split; [exact Hc|]. apply (parse_exact commented FILES_init _ Hc).
Defined.

(** A form with an array, a keyword and a double inside, and one after it. *)
Lemma spans_nest_witness : exists fs F', read_text "(a [1.5 :k]) b" = Ok (fs, F') /\ length fs = 2%nat
  /\ in_order fs /\ Forall nested fs.
Proof.
  eexists _, _. split; [vm_compute; reflexivity|]. split; [reflexivity|].
  eapply (spans_nest (text "(a [1.5 :k]) b") UNKNOWN_FILE current_lexicon FILES_init); vm_compute; reflexivity.
Defined.

Lemma half_reads : float_reads one_and_a_half.
Proof.
  exists [], [49], [DOT; 53], []. split; [reflexivity|]. split; [|split; [by left|reflexivity]].
  split; [by left| | |by left].
  - split; [done|]. by repeat constructor.
  - right. exists [53]. split; [done|]. split; [done|]. by repeat constructor.
Qed.

Definition sample : Syntax :=
  Eval vm_compute in match read_text "@{:a `(1.5 , x)}" with Ok (e :: _, _) => e | _ => plain_form SK_Nil end.

Lemma sample_floats :
  Forall (fun t => match t with Float f => f = one_and_a_half | _ => True end) (tree_tokens sample).
Proof. repeat constructor. Qed.

Lemma sample_read :
  read_syntax_under (text "@{:a `(1.5 , x)}") UNKNOWN_FILE (for_epoch 15) FILES_init = Ok ([sample], FILES_init).
Proof. vm_compute. reflexivity. Qed.

Lemma sample_unfused : unfused sample = true.
Proof. vm_compute. reflexivity. Qed.

Lemma printed_form_reads_back_witness :
  read_syntax_under (text "@{:a `(1.5 , x)}") UNKNOWN_FILE (for_epoch 15) FILES_init = Ok ([sample], FILES_init)
  /\ exists e' F3, read_syntax_under (show no_debug sample) UNKNOWN_FILE (for_epoch 0) FILES_init = Ok ([e'], F3)
    /\ erase e' = erase sample.
Proof.
  split; [exact sample_read|].
  apply (printed_form_reads_back no_debug 15 0 (text "@{:a `(1.5 , x)}") UNKNOWN_FILE FILES_init FILES_init FILES_init [sample] sample
    sample_read (list_elem_of_here _ _) sample_unfused).
  intros f Hf. pose proof sample_floats as Hs. rewrite Forall_forall in Hs. apply Hs in Hf. cbn in Hf. subst f. exact half_reads.
Defined.

(** An unquoted splice does not survive printing: [, ;x] reads as the
    unquote of a splice, which prints as [,;x], which reads as an
    unquote-splicing. *)
Theorem unquoted_splice_fuses :
  let x := plain_form (SK_Symbol (text "x")) in
  let e := plain_form (SK_Wrap SK_Unquote (plain_form (SK_Wrap SK_Splice x))) in
  forms_of (read_text ", ;x") = Some [e]
  /\ show no_debug e = text ",;x"
  /\ forms_of (read_syntax_under (show no_debug e) UNKNOWN_FILE current_lexicon FILES_init)
     = Some [plain_form (SK_Wrap SK_UnquoteSplicing x)].
Proof. vm_compute. repeat split. Qed.

(** A literal too large for a double is the infinity, whose [Debug] text is the
    symbol [inf]. *)
Lemma infinite_literal_reads_as_symbol :
  let e := plain_form (SK_Float infinity) in
  forms_of (read_text "1e999") = Some [e]
  /\ forms_of (read_syntax_under (show no_debug e) UNKNOWN_FILE current_lexicon FILES_init)
     = Some [plain_form (SK_Symbol (text "inf"))].
Proof. vm_compute. repeat split. Qed.

(** A comment after the only form of a text is refused by [read_syntax], and so
    is one between an [@] and its collection. *)
Lemma comment_refused :
  (exists l, read_one_under (text "1 # one") UNKNOWN_FILE current_lexicon FILES_init
     = Err (R_AfterExpression l (Comment (text "# one"))))
  /\ exists l, read_syntax_under (text "@#" ++ [NEWLINE] ++ text "[1]") UNKNOWN_FILE current_lexicon FILES_init = Err (R_Sugar l).
Proof. split; eexists; vm_compute; reflexivity. Qed.
