(* ===== verification/EpochRules.v ===== *)
(** * Epoch rules

    [epoch/rules.rs], [epoch/rules/migrations.rs] and [epoch/seconds.rs]: what
    each epoch changed, the tables a range of epochs collapses to, and what a
    duration in milliseconds becomes.

    A [HashMap] is an association list with one entry per key; the order its
    iteration visits them in is the class [HashOrder].  Summaries, which nothing
    computes with, are left out; a lexical change is its name.  The lexicons of
    [rules.rs] are in [Lexer]. *)

From stdpp Require Import base numbers option list strings.
From S2P Require Import Prelude LirRecord ValueTree Scalar Text Escape Lexer.

Local Open Scope N_scope.

(** ** Rules *)

(** Where a call gave its duration. *)
Inductive TimeArg := TA_Keyword | TA_Last (arity : nat) (negative_unbounded : bool).

#[export] Instance TimeArg_eq_dec : EqDecision TimeArg.
Proof. solve_decision. Defined.

Inductive MigrationRule :=
| MR_Rename (old new : Text)
| MR_Remove (symbol message : Text)
| MR_Unwrap (symbol message : Text)
| MR_Replace (symbol : Text) (arity : nat) (template : Text)
| MR_FlattenBindings (symbols : list Text)
| MR_FlattenClauses (symbols : list Text) (skip : nat)
| MR_Desugar (shorthand : Token)
| MR_MillisToSeconds (symbols : list Text) (arg : TimeArg).

Record Migration := mkMigration {
  mg_epoch : N; mg_rules : list MigrationRule; mg_lexical : list Text }.

(** [static MIGRATIONS] *)
Definition MIGRATIONS : list Migration :=
  [
   mkMigration 1
     [MR_Replace (text "assert-true") 2
           (text "(assert $1 $2)");
      MR_Replace (text "assert-false") 2
           (text "(assert (not $1) $2)");
      MR_Replace (text "assert-eq") 3
           (text "(assert (= $1 $2) $3)");
      MR_Replace (text "assert-equal") 3
           (text "(assert (= $1 $2) $3)");
      MR_Replace (text "assert-string-eq") 3
           (text "(assert (= $1 $2) $3)");
      MR_Replace (text "assert-list-eq") 3
           (text "(assert (= $1 $2) $3)");
      MR_Replace (text "assert-not-nil") 2
           (text "(assert (not (nil? $1)) $2)");
      MR_Replace (text "assert-err") 2
           (text "(let [[ok? _] (protect ($1))] (assert (not ok?) $2))");
      MR_Replace (text "assert-err-kind") 3
           (text "(let [[ok? err] (protect ($1))] (assert (not ok?) $3) (assert (= (get err :error) $2) $3))")]
     [];
   mkMigration 2
     [MR_Rename (text "print") (text "println");
      MR_Rename (text "newline") (text "println");
      MR_Remove (text "write")
           (text "use (pp ...) for literal form or (port/write port data) for port I/O")]
     [];
   mkMigration 3
     [MR_Rename (text "display") (text "print")]
     [];
   mkMigration 4
     [MR_Rename (text "stream/read-line") (text "port/read-line");
      MR_Rename (text "stream/read") (text "port/read");
      MR_Rename (text "stream/read-all") (text "port/read-all");
      MR_Rename (text "stream/write") (text "port/write");
      MR_Rename (text "stream/flush") (text "port/flush")]
     [];
   mkMigration 5
     [MR_Replace (text "add") 2
           (text "(put $1 $2)");
      MR_Rename (text "string-contains?") (text "has?");
      MR_Rename (text "string/contains?") (text "has?")]
     [];
   mkMigration 6
     [MR_Unwrap (text "ev/run")
           (text "user code already runs in the async scheduler; remove the ev/run wrapper")]
     [];
   mkMigration 7
     [MR_FlattenBindings [text "let"; text "letrec"; text "let*"; text "if-let"; text "when-let";
         text "when-ok"]]
     [];
   mkMigration 8
     [MR_Replace (text "var") 2
           (text "(def @$1 $2)")]
     [];
   mkMigration 9
     [MR_FlattenClauses [text "cond"] 0;
      MR_FlattenClauses [text "match"] 1]
     [];
   mkMigration 10
     [MR_Rename (text "cons") (text "pair");
      MR_Rename (text "car") (text "first");
      MR_Rename (text "cdr") (text "rest")]
     [];
   mkMigration 11
     [MR_Rename (text "sys/spawn") (text "sys/spawn-vm");
      MR_Rename (text "os/spawn") (text "os/spawn-vm")]
     [];
   mkMigration 12
     [MR_Replace (text "coro/new") 1
           (text "(fiber/new $1 |:yield|)");
      MR_Replace (text "make-coroutine") 1
           (text "(fiber/new $1 |:yield|)");
      MR_Rename (text "coro/resume") (text "fiber/resume");
      MR_Rename (text "coro/status") (text "fiber/status");
      MR_Rename (text "coro/done?") (text "fiber/done?");
      MR_Rename (text "coro/value") (text "fiber/value");
      MR_Rename (text "coroutine-resume") (text "fiber/resume");
      MR_Rename (text "coroutine-status") (text "fiber/status");
      MR_Rename (text "coroutine-done?") (text "fiber/done?");
      MR_Rename (text "coroutine-value") (text "fiber/value");
      MR_Rename (text "coroutine?") (text "fiber?");
      MR_Rename (text "coro?") (text "fiber?");
      MR_Rename (text "yield-from") (text "yield*");
      MR_Remove (text "coro/>iterator")
           (text "fibers are natively iterable; remove the coro/>iterator call");
      MR_Remove (text "coroutine->iterator")
           (text "fibers are natively iterable; remove the coroutine->iterator call");
      MR_Remove (text "coroutine-next")
           (text "use (fiber/resume f) instead of (coroutine-next f)")]
     [];
   mkMigration 13
     []
     [text "string-escapes"];
   mkMigration 14
     [MR_MillisToSeconds [text "port/read"; text "port/read-line"; text "port/read-exact";
         text "port/read-all"; text "port/write"; text "port/flush"; text "port/open";
         text "port/open-bytes"; text "port/set-options"; text "stream/read"; text "stream/write";
         text "stream/flush"; text "tcp/accept"; text "tcp/connect"; text "tcp/connect-ip";
         text "unix/accept"; text "unix/connect"; text "udp/send-to";
         text "udp/recv-from"] TA_Keyword;
      MR_MillisToSeconds [text "sys/join"; text "os/join"; text "chan/select";
         text "chan/wait-ready"] (TA_Last 2 false);
      MR_MillisToSeconds [text "io/wait"] (TA_Last 2 true);
      MR_MillisToSeconds [text "ev/step"] (TA_Last 1 true);
      MR_MillisToSeconds [text "ev/shutdown"] (TA_Last 1 false);
      MR_Replace (text "ev/step") 0
           (text "(ev/step :timeout 0)")]
     [];
   mkMigration 15
     [MR_Replace (text "silence") 0
           (text "(silent!)");
      MR_Replace (text "silence") 1
           (text "(bound $1 ||)");
      MR_Replace (text "squelch") 2
           (text "(squelch $2 $1)");
      MR_Remove (text "muffle")
           (text "a boundary belongs to the caller; wrap the closure with (squelch spec f) where it is called")]
     []
  ].

(** ** Hash maps *)

(** The order a [HashMap] is iterated in. *)
Class HashOrder := {
  hash_order : list (Text * Text) -> list (Text * Text);
  hash_order_perm : forall l, hash_order l ≡ₚ l }.

(** [HashMap::get] *)
Fixpoint table_get {A} (t : list (Text * A)) (k : Text) : option A :=
  match t with [] => None | (k', v) :: t => if decide (k' = k) then Some v else table_get t k end.

(** [HashMap::insert] *)
Fixpoint table_insert {A} (k : Text) (v : A) (t : list (Text * A)) : list (Text * A) :=
  match t with
  | [] => [(k, v)]
  | (k', v') :: t => if decide (k' = k) then (k, v) :: t else (k', v') :: table_insert k v t
  end.

(** ** Ranges *)

(** The migrations of the epochs in (from, to]. *)
Definition migrations_in_range (from to : N) : list Migration :=
  filter (fun m => from < mg_epoch m /\ mg_epoch m <= to) MIGRATIONS.

(** The rules of a range, in order: the two loops every collector nests. *)
Definition rules_in_range (from to : N) : list MigrationRule :=
  concat (map mg_rules (migrations_in_range from to)).

Definition lexical_changes_in_range (from to : N) : list Text :=
  concat (map mg_lexical (migrations_in_range from to)).

Section Collapse.
Context `{HashOrder}.

(** One round of [collapsed_renames]: what already maps to [old] is followed,
    and otherwise [old] is entered. *)
Definition collapse_rename (table : list (Text * Text)) (old new : Text) : list (Text * Text) :=
  match list_find (fun kv => kv.2 = old) (hash_order table) with
  | Some (_, (original, _)) => table_insert original new table
  | None => table_insert old new table
  end.

Definition collapse_rule (table : list (Text * Text)) (r : MigrationRule) : list (Text * Text) :=
  match r with MR_Rename old new => collapse_rename table old new | _ => table end.

Definition collapsed_renames (from to : N) : list (Text * Text) :=
  fold_left collapse_rule (rules_in_range from to) [].

(** A head some epoch of the range renamed is keyed by its old name too. *)
Definition millis_symbol (renames : list (Text * Text)) (arg : TimeArg)
    (t : list (Text * TimeArg)) (sym : Text) : list (Text * TimeArg) :=
  fold_left (fun t kv => table_insert kv.1 arg t)
    (filter (fun kv => kv.2 = sym) (hash_order renames)) (table_insert sym arg t).

Definition millis_rules_in_range (from to : N) : list (Text * TimeArg) :=
  let renames := collapsed_renames from to in
  fold_left (fun t r => match r with
    | MR_MillisToSeconds symbols arg => fold_left (millis_symbol renames arg) symbols t
    | _ => t
    end) (rules_in_range from to) [].
End Collapse.

Definition replace_rules_in_range (from to : N) : list (Text * nat * Text) :=
  omap (fun r => match r with
    | MR_Replace symbol arity template => Some (symbol, arity, template) | _ => None end)
    (rules_in_range from to).

Definition unwrap_rules_in_range (from to : N) : list (Text * Text) :=
  fold_left (fun t r => match r with MR_Unwrap s m => table_insert s m t | _ => t end)
    (rules_in_range from to) [].

Definition removals_in_range (from to : N) : list (Text * Text) :=
  fold_left (fun t r => match r with MR_Remove s m => table_insert s m t | _ => t end)
    (rules_in_range from to) [].

Definition flatten_rules_in_range (from to : N) : list Text :=
  fold_left (fun acc r => match r with
    | MR_FlattenBindings symbols =>
      fold_left (fun acc s => if decide (s ∈ acc) then acc else acc ++ [s]) symbols acc
    | _ => acc
    end) (rules_in_range from to) [].

Definition flatten_clause_rules_in_range (from to : N) : list (Text * nat) :=
  fold_left (fun acc r => match r with
    | MR_FlattenClauses symbols skip =>
      fold_left (fun acc s => if decide (s ∈ acc.*1) then acc else acc ++ [(s, skip)]) symbols acc
    | _ => acc
    end) (rules_in_range from to) [].

Definition desugar_rules_in_range (from to : N) : list Token :=
  omap (fun r => match r with MR_Desugar t => Some t | _ => None end) (rules_in_range from to).

(** ** Seconds *)

Definition DIVIDE : Text := text "(if-let [ms $1] (/ ms 1000.0) nil)".
Definition DIVIDE_OR_UNBOUNDED : Text := text "(if-let [ms $1] (if (< ms 0) nil (/ ms 1000.0)) nil)".

Inductive Millis := Ms_Int (n : Z) | Ms_Float (x : N) | Ms_Nil | Ms_Expr.
Inductive SecondsLiteral := SL_Int (n : Z) | SL_Float (x : N).
Inductive Written := W_Literal (s : SecondsLiteral) | W_Wrap (template : Text).
Inductive Seconds := Sec_Keep | Sec_Drop | Sec_Write (w : Written).

(** [1000.0] *)
Definition THOUSAND : N := f64_of_i64 1000.

(** [Seconds::of], whose arms are tried in order. *)
Definition Seconds_of (ms : Millis) (place : TimeArg) : Seconds :=
  let unbounded_below := match place with TA_Last _ true => true | _ => false end in
  let literal s := Sec_Write (W_Literal s) in
  match ms with
  | Ms_Nil => if decide (place = TA_Keyword) then Sec_Keep else Sec_Drop
  | Ms_Int n =>
    if unbounded_below && (n <? 0)%Z then Sec_Drop
    else if (Z.rem n 1000 =? 0)%Z then literal (SL_Int (Z.quot n 1000))
    else literal (SL_Float (f64_div (f64_of_i64 n) THOUSAND))
  | Ms_Float x =>
    if unbounded_below && f64_lt x 0 then Sec_Drop else literal (SL_Float (f64_div x THOUSAND))
  | Ms_Expr => Sec_Write (W_Wrap (if unbounded_below then DIVIDE_OR_UNBOUNDED else DIVIDE))
  end.

(** [str::starts_with] and [str::strip_prefix] *)
Fixpoint strip_text (p t : Text) : option Text :=
  match p, t with
  | [], _ => Some t
  | a :: p, b :: t => if a =? b then strip_text p t else None
  | _ :: _, [] => None
  end.

(** [str::split_once] *)
Fixpoint split_once (p t : Text) : option (Text * Text) :=
  match strip_text p t with
  | Some after => Some ([], after)
  | None => match t with
            | [] => None
            | c :: t => '(a, b) ← split_once p t; Some (c :: a, b)
            end
  end.

(** [wrap_ends]; [None] is its [expect]. *)
Definition wrap_ends (template : Text) : option (Text * Text) := split_once (text "$1") template.
