(* ===== verification/Epoch.v ===== *)
(** * Epochs: declarations and the migration of trees

    [epoch/mod.rs], [epoch/transform.rs] and the parts of [reader/mod.rs] that
    choose a source's lexicon.

    [rewrite_node] writes through the tree; here it answers the tree it leaves,
    the number of rewrites and the file table, which reading a template extends.
    Where the code recurses on a node it has rebuilt, [rewrite_node] takes a
    fuel.  A failed migration's tree is not looked at again.  An error carries
    what its message names. *)

From stdpp Require Import base numbers option list strings.
From S2P Require Import Prelude LirRecord ValueTree Scalar Files Text Escape Lexer.
From S2P Require Import SynReader SynPrint EpochRules.

Local Open Scope N_scope.

(** ** Text *)

(** [str::trim_start] *)
Fixpoint trim_start (t : Text) : Text :=
  match t with [] => [] | c :: t' => if is_whitespace c then trim_start t' else t end.

Definition trim (t : Text) : Text := rev (trim_start (rev (trim_start t))).

(** The longest run of ASCII digits at the front, and the rest. *)
Fixpoint span_digits (t : Text) : Text * Text :=
  match t with
  | [] => ([], [])
  | c :: t' => if is_ascii_digit c then let '(a, b) := span_digits t' in (c :: a, b) else ([], t)
  end.

(** [str::parse::<u64>] of digits *)
Definition parse_u64 (ds : Text) : option N :=
  match ds with
  | [] => None
  | _ => n ← digits_value 10 0 ds; if n <? 2 ^ 64 then Some n else None
  end.

(** [str::lines]: the text between line breaks, without a carriage return
    before one; a final line break ends no further line. *)
Definition drop_cr (line : Text) : Text :=
  match rev line with c :: r => if c =? 13 then rev r else line | [] => line end.

Fixpoint lines_from (line t : Text) : list Text :=
  match t with
  | [] => match line with [] => [] | _ => [line] end
  | c :: t => if c =? NEWLINE then drop_cr line :: lines_from [] t else lines_from (line ++ [c]) t
  end.

Definition str_lines (t : Text) : list Text := lines_from [] t.

(** [str::ends_with] *)
Definition ends_with (t suffix : Text) : bool :=
  match strip_text (rev suffix) (rev t) with Some _ => true | None => false end.

(** [str::replace]; [skip] characters of a match are still to pass. *)
Fixpoint replace_from (skip : nat) (pat by_ t : Text) : Text :=
  match t with
  | [] => []
  | c :: t' =>
    match skip with
    | S k => replace_from k pat by_ t'
    | O => match strip_text pat t with
           | Some _ => by_ ++ replace_from (length pat - 1) pat by_ t'
           | None => c :: replace_from 0 pat by_ t'
           end
    end
  end.

Definition str_replace (t pat by_ : Text) : Text := replace_from 0 pat by_ t.

(** ** The prescan *)

Definition EPOCH_NAME : Text := text "elle/epoch".

(** [prescan_epoch] *)
Definition prescan_epoch (source : Text) : Out ReadError N :=
  match strip_text [LPAREN] (trim_start (strip_shebang source)) with
  | None => Ok CURRENT_EPOCH
  | Some rest =>
    match strip_text EPOCH_NAME (trim_start rest) with
    | None => Ok CURRENT_EPOCH
    | Some rest =>
      if negb (match rest with c :: _ => is_whitespace c | [] => false end) then Ok CURRENT_EPOCH
      else
        let '(digits, after) := span_digits (trim_start rest) in
        if bool_decide (digits = []) || negb (bool_decide (is_Some (strip_text [RPAREN] (trim_start after))))
        then Ok CURRENT_EPOCH
        else match parse_u64 digits with
             | Some epoch => if epoch <=? CURRENT_EPOCH then Ok epoch else Err (R_Epoch digits)
             | None => Err (R_Epoch digits)
             end
    end
  end.

Definition lexicon_for (input : Text) : Out ReadError Lexicon :=
  epoch ← prescan_epoch input; Ok (for_epoch epoch).

(** The loop of [strip_markdown]. *)
Fixpoint markdown_lines (in_code : bool) (ls : list Text) : Text :=
  match ls with
  | [] => []
  | l :: ls =>
    let trimmed := trim l in
    let fence := match strip_text (text "```") trimmed with Some _ => true | None => false end in
    if negb in_code && (bool_decide (trimmed = text "```lisp") || bool_decide (trimmed = text "```elle"))
    then NEWLINE :: markdown_lines true ls
    else if in_code && fence then NEWLINE :: markdown_lines false ls
    else if in_code then l ++ NEWLINE :: markdown_lines in_code ls
    else NEWLINE :: markdown_lines in_code ls
  end.

Definition strip_markdown (source : Text) : Text := markdown_lines false (str_lines source).

Definition sexp_text (input : Text) (source_name : list N) : Text :=
  if ends_with source_name (text ".md") then strip_markdown input else input.

Definition prescanned_epoch_for (input : Text) (source_name : list N) : Out ReadError N :=
  prescan_epoch (sexp_text input source_name).

(** ** Nodes *)

Definition as_symbol (s : Syntax) : option Text :=
  match syn_kind s with SK_Symbol x => Some x | _ => None end.

Definition is_symbol (s : Syntax) (name : Text) : bool := bool_decide (as_symbol s = Some name).

Definition as_list_or_tuple (s : Syntax) : option (list Syntax) :=
  match syn_kind s with
  | SK_Seq SK_List items | SK_Seq SK_Array items => Some items
  | _ => None
  end.

Definition as_list (s : Syntax) : option (list Syntax) :=
  match syn_kind s with SK_Seq SK_List items => Some items | _ => None end.

(** The head a rule is matched by. *)
Definition head_symbol (items : list Syntax) : option Text :=
  match items with s :: _ => as_symbol s | [] => None end.

(** [Syntax::children]: a syntax literal reports none. *)
Definition children (k : SyntaxKind) : list Syntax :=
  match k with
  | SK_Seq _ items => items
  | SK_Wrap SK_SyntaxLiteral _ => []
  | SK_Wrap _ inner => [inner]
  | _ => []
  end.

(** A kind whose children, as [children_mut] lends them, were written over. *)
Definition with_children (k : SyntaxKind) (items : list Syntax) : SyntaxKind :=
  match k, items with
  | SK_Seq make _, _ => SK_Seq make items
  | SK_Wrap SK_SyntaxLiteral _, _ => k
  | SK_Wrap make _, inner :: _ => SK_Wrap make inner
  | _, _ => k
  end.

(** [set_span_recursive] *)
Fixpoint set_span_recursive (span : Span) (s : Syntax) : Syntax :=
  let '(mkSyntax k _) := s in
  mkSyntax match k with
           | SK_Seq make items => SK_Seq make (map (set_span_recursive span) items)
           | SK_Wrap SK_SyntaxLiteral _ => k
           | SK_Wrap make inner => SK_Wrap make (set_span_recursive span inner)
           | _ => k
           end span.

(** ** Declarations *)

Inductive EpochError :=
| EE_Negative (n : Z)
| EE_TooNew (epoch : N)
| EE_Duplicate (span : Span)
| EE_Mismatch (declared prescanned : N)
| EE_Read (e : ReadError).

(** [epoch_declaration] *)
Definition epoch_declaration (form : Syntax) : option Z :=
  match as_list form with
  | Some [head; n] =>
    if is_symbol head EPOCH_NAME then match syn_kind n with SK_Int n => Some n | _ => None end else None
  | _ => None
  end.

(** The shape the duplicate check matches. *)
Definition declares (form : Syntax) : bool :=
  match as_list form with Some [head; _] => is_symbol head EPOCH_NAME | _ => false end.

(** [extract_epoch]: the epoch, and the forms without the declaration. *)
Definition extract_epoch (forms : list Syntax) : Out EpochError (option N * list Syntax) :=
  match forms with
  | [] => Ok (None, [])
  | first :: rest =>
    match epoch_declaration first with
    | None => Ok (None, forms)
    | Some n =>
      if (n <? 0)%Z then Err (EE_Negative n)
      else
        let epoch := Z.to_N n in
        if CURRENT_EPOCH <? epoch then Err (EE_TooNew epoch)
        else match list_find (fun f => declares f = true) rest with
             | Some (_, f) => Err (EE_Duplicate (syn_span f))
             | None => Ok (Some epoch, rest)
             end
    end
  end.

(** [EpochLexicon] and [EpochLexicon::of] *)
Record EpochLexicon := mkEpochLexicon { el_epoch : N; el_lexicon : Lexicon }.

Definition EpochLexicon_of (epoch : N) : EpochLexicon := mkEpochLexicon epoch (for_epoch epoch).

Definition refuse_mismatch (declared prescanned : EpochLexicon) : Out EpochError () :=
  if decide (el_lexicon declared = el_lexicon prescanned) then Ok ()
  else Err (EE_Mismatch (el_epoch declared) (el_epoch prescanned)).

(** [declared_epoch] *)
Definition declared_epoch (forms : list Syntax) : option N :=
  match forms with
  | [] => None
  | first :: _ =>
    n ← epoch_declaration first;
    if (0 <=? n)%Z && (Z.to_N n <=? CURRENT_EPOCH) then Some (Z.to_N n) else None
  end.

Definition read_error {A} (m : Out ReadError A) : Out EpochError A :=
  match m with Ok a => Ok a | Err e => Err (EE_Read e) | Panics => Panics | Starved => Starved end.

(** [check_declared_lexicon] *)
Definition check_declared_lexicon (declared : N) (source : Text) (source_name : list N) : Out EpochError () :=
  prescanned ← read_error (prescanned_epoch_for source source_name);
  refuse_mismatch (EpochLexicon_of declared) (EpochLexicon_of prescanned).

(** [check_lexicon_agreement] *)
Definition check_lexicon_agreement (forms : list Syntax) (source : Text) (source_name : list N)
    : Out EpochError () :=
  match declared_epoch forms with
  | Some declared => check_declared_lexicon declared source source_name
  | None => Ok ()
  end.

(** ** The rules of a range *)

Record Rules := mkRules {
  ru_renames : list (Text * Text);
  ru_removals : list (Text * Text);
  ru_replaces : list (Text * nat * Text);
  ru_unwraps : list (Text * Text);
  ru_flattens : list Text;
  ru_flatten_clauses : list (Text * nat);
  ru_millis : list (Text * TimeArg) }.

(** [Rules::for_range] *)
Definition Rules_for_range `{HashOrder} (from to : N) : Rules :=
  mkRules (collapsed_renames from to) (removals_in_range from to) (replace_rules_in_range from to)
    (unwrap_rules_in_range from to) (flatten_rules_in_range from to)
    (flatten_clause_rules_in_range from to) (millis_rules_in_range from to).

Definition is_nil {A} (l : list A) : bool := match l with [] => true | _ => false end.

(** [Rules::is_empty] *)
Definition Rules_is_empty (r : Rules) : bool :=
  is_nil (ru_renames r) && is_nil (ru_removals r) && is_nil (ru_replaces r) && is_nil (ru_unwraps r)
  && is_nil (ru_flattens r) && is_nil (ru_flatten_clauses r) && is_nil (ru_millis r).

(** ** Restructuring *)

Inductive MigrateError :=
| ME_Unwrap (span : Span) (head message : Text)
| ME_Removed (span : Span) (name message : Text)
| ME_Template (e : ReadError).

(** [begin_form] *)
Definition begin_form (span : Span) (body : list Syntax) : Syntax :=
  mkSyntax (SK_Seq SK_List (mkSyntax (SK_Symbol (text "begin")) span :: body)) span.

(** What one clause becomes, and whether it counts as a change. *)
Definition flatten_clause (clause : Syntax) : list Syntax * bool :=
  match as_list_or_tuple clause with
  | None => ([clause], false)
  | Some [] => ([], false)
  | Some (p0 :: ps) =>
    if is_symbol p0 (text "else") then
      match ps with
      | [] => ([], true)
      | [body] => ([body], true)
      | _ => ([begin_form (syn_span clause) ps], true)
      end
    else match ps with
    | [] => ([clause], false)
    | [body] => ([p0; body], true)
    | p1 :: _ =>
      if is_symbol p1 (text "when") then (p0 :: ps, true)
      else ([p0; begin_form (syn_span clause) ps], true)
    end
  end.

(** The first check of [rewrite_node]: the new items, when a clause changed. *)
Definition flatten_clauses_of (rules : Rules) (items : list Syntax) : option (list Syntax) :=
  head ← head_symbol items;
  '(_, (_, skip)) ← list_find (fun r => r.1 = head) (ru_flatten_clauses rules);
  let clause_start := (1 + skip)%nat in
  if (clause_start <? length items)%nat then
    let parts := map flatten_clause (drop clause_start items) in
    if existsb snd parts then Some (take clause_start items ++ concat (map fst parts)) else None
  else None.

Definition is_pair (s : Syntax) : bool :=
  match as_list_or_tuple s with Some [_; _] => true | _ => false end.

(** The second check: the bindings, flat. *)
Definition flatten_bindings_of (rules : Rules) (items : list Syntax) : option (list Syntax) :=
  head ← head_symbol items;
  if bool_decide (head ∈ ru_flattens rules) then
    match items with
    | h :: (mkSyntax (SK_Seq make bindings) sp) :: body =>
      if bool_decide (make = SK_Array \/ make = SK_List) && negb (is_nil bindings) && forallb is_pair bindings
      then Some (h :: mkSyntax (SK_Seq make (concat (map (fun b => children (syn_kind b)) bindings))) sp :: body)
      else None
    | _ => None
    end
  else None.

(** The first two checks, and how many of them rewrote the node. *)
Definition flatten_node (rules : Rules) (k : SyntaxKind) : SyntaxKind * nat :=
  match k with
  | SK_Seq SK_List items =>
    let '(items, n1) := match flatten_clauses_of rules items with Some new => (new, 1%nat) | None => (items, 0%nat) end in
    let '(items, n2) := match flatten_bindings_of rules items with Some new => (new, 1%nat) | None => (items, 0%nat) end in
    (SK_Seq SK_List items, (n1 + n2)%nat)
  | _ => (k, 0%nat)
  end.

(** [(fn [] body...)] or [(fn () body...)], with a body. *)
Definition thunk_body (s : Syntax) : option (list Syntax) :=
  match as_list s with
  | Some (f :: params :: body) =>
    if is_symbol f (text "fn")
       && match as_list_or_tuple params with Some [] => true | _ => false end
       && negb (is_nil body)
    then Some body else None
  | _ => None
  end.

(** ** Templates *)

Definition DOLLAR : Char := 36.

(** [format!("${}", i + 1)] *)
Definition placeholder (i : nat) : Text := DOLLAR :: show_digits 20 (N.of_nat (S i)) [].

Definition TEMPLATE_NAME : list N := text "<epoch-template>".

Definition millis_of (value : Syntax) : Millis :=
  match syn_kind value with
  | SK_Int n => Ms_Int n
  | SK_Float x => Ms_Float x
  | SK_Nil => Ms_Nil
  | _ => Ms_Expr
  end.

Section WithStd.
Context `{Unicode, FloatText, HashOrder}.
Variable debug_syntax : Syntax -> Text.

(** [read_syntax] and [read_syntax_all]: the lexicon is the prescan's. *)
Definition read_syntax (input : Text) (name : list N) (F : Files) : Out ReadError (Syntax * Files) :=
  l ← lexicon_for input; read_one_under input name l F.

Definition read_syntax_all (input : Text) (name : list N) (F : Files) : Out ReadError (list Syntax * Files) :=
  l ← lexicon_for input; read_syntax_under input name l F.

(** [detect_epoch_in_source]: the epoch and where its declaration lies. *)
Definition detect_epoch_in_source (source : Text) (F : Files) : Out EpochError (option (N * N * N)) :=
  let shebang_offset := blen source - blen (strip_shebang source) in
  '(forms, _) ← read_error (read_syntax_all source (text "<detect-epoch>") F);
  match forms with
  | [] => Ok None
  | first :: _ =>
    match epoch_declaration first with
    | None => Ok None
    | Some n =>
      if (n <? 0)%Z then Err (EE_Negative n)
      else if CURRENT_EPOCH <? Z.to_N n then Err (EE_TooNew (Z.to_N n))
      else Ok (Some (Z.to_N n, sp_start (syn_span first) + shebang_offset,
                     sp_end (syn_span first) + shebang_offset))
    end
  end.

(** The text of [instantiate_template]: the last argument first. *)
Definition substitute (template : Text) (args : list Syntax) : Text :=
  fold_left (fun source '(i, arg) => str_replace source (placeholder i) (show debug_syntax arg))
    (rev (imap pair args)) template.

(** [instantiate_template] *)
Definition instantiate_template (template : Text) (args : list Syntax) (span : Span) (F : Files)
    : Out MigrateError (Syntax * Files) :=
  match read_syntax (substitute template args) TEMPLATE_NAME F with
  | Ok (parsed, F) => Ok (set_span_recursive span parsed, F)
  | Err e => Err (ME_Template e)
  | Panics => Panics
  | Starved => Starved
  end.

(** [written_node] *)
Definition written_node (w : Written) (value : Syntax) (span : Span) (F : Files)
    : Out MigrateError (Syntax * Files) :=
  match w with
  | W_Literal (SL_Int n) => Ok (mkSyntax (SK_Int n) (syn_span value), F)
  | W_Literal (SL_Float x) => Ok (mkSyntax (SK_Float x) (syn_span value), F)
  | W_Wrap template => instantiate_template template [value] span F
  end.

Definition is_timeout (s : Syntax) : Prop := syn_kind s = SK_Keyword (text "timeout").
#[local] Instance is_timeout_dec s : Decision (is_timeout s).
Proof. unfold is_timeout. destruct (syn_kind s); try (right; congruence). destruct (decide (s0 = text "timeout")); [left|right]; congruence. Defined.

(** [to_seconds]: the call with its duration rewritten, and the count. *)
Definition to_seconds (s : Syntax) (place : TimeArg) (F : Files) : Out MigrateError (Syntax * nat * Files) :=
  match as_list s with
  | None => Ok (s, 0%nat, F)
  | Some items =>
    let span := syn_span s in
    match place with
    | TA_Keyword =>
      match list_find is_timeout (drop 1 (take (length items - 1) items)) with
      | None => Ok (s, 0%nat, F)
      | Some (i, _) =>
        let at_ := S i in
        match items !! S at_ with
        | None => Ok (s, 0%nat, F)
        | Some value =>
          match Seconds_of (millis_of value) place with
          | Sec_Write written =>
            '(new, F) ← written_node written value span F;
            Ok (mkSyntax (SK_Seq SK_List (<[S at_ := new]> items)) span, 1%nat, F)
          | _ => Ok (s, 0%nat, F)
          end
        end
      end
    | TA_Last arity _ =>
      if negb (length items =? arity + 1)%nat then Ok (s, 0%nat, F)
      else match last items with
      | None => Panics
      | Some value =>
        let items := take arity items in
        match Seconds_of (millis_of value) place with
        | Sec_Keep => Ok (s, 0%nat, F)
        | Sec_Drop => Ok (mkSyntax (SK_Seq SK_List items) span, 1%nat, F)
        | Sec_Write written =>
          '(new, F) ← written_node written value span F;
          Ok (mkSyntax (SK_Seq SK_List
            (items ++ [mkSyntax (SK_Keyword (text "timeout")) (syn_span value); new])) span, 1%nat, F)
        end
      end
    end
  end.

(** ** The walk *)

(** The loop over children: the rewritten children, their count. *)
Fixpoint rewrite_all (rewrite : Syntax -> Files -> Out MigrateError (Syntax * nat * Files))
    (items : list Syntax) (F : Files) : Out MigrateError (list Syntax * nat * Files) :=
  match items with
  | [] => Ok ([], 0%nat, F)
  | s :: items =>
    '(s, n, F) ← rewrite s F;
    '(items, m, F) ← rewrite_all rewrite items F;
    Ok (s :: items, (n + m)%nat, F)
  end.

(** The rule that a list's head and arity name. *)
Definition replace_rule (rules : Rules) (items : list Syntax) : option Text :=
  head ← head_symbol items;
  '(_, (_, template)) ← list_find (fun r => r.1 = (head, (length items - 1)%nat)) (ru_replaces rules);
  Some template.

(** The last match of [rewrite_node] and the duration rule around it. *)
Definition rewrite_plain (rewrite : Syntax -> Files -> Out MigrateError (Syntax * nat * Files))
    (rules : Rules) (s : Syntax) (count : nat) (F : Files) : Out MigrateError (Syntax * nat * Files) :=
  let '(mkSyntax k span) := s in
  let duration := items ← as_list s; head ← head_symbol items; table_get (ru_millis rules) head in
  '(s, count, F) ←
    match k with
    | SK_Symbol name =>
      match table_get (ru_removals rules) name with
      | Some msg => Err (ME_Removed span name msg)
      | None => match table_get (ru_renames rules) name with
                | Some new => Ok (mkSyntax (SK_Symbol new) span, S count, F)
                | None => Ok (s, count, F)
                end
      end
    | SK_Wrap SK_Quote _ => Ok (s, count, F)
    | _ =>
      '(items, m, F) ← rewrite_all rewrite (children k) F;
      Ok (mkSyntax (with_children k items) span, (count + m)%nat, F)
    end;
  match duration with
  | Some place => '(s, m, F) ← to_seconds s place F; Ok (s, (count + m)%nat, F)
  | None => Ok (s, count, F)
  end.

(** [rewrite_node] *)
Fixpoint rewrite_node (n : nat) (rules : Rules) (s : Syntax) (F : Files)
    : Out MigrateError (Syntax * nat * Files) :=
  match n with
  | O => Starved
  | S n =>
    let span := syn_span s in
    let '(k, count) := flatten_node rules (syn_kind s) in
    let s := mkSyntax k span in
    let items := default [] (as_list s) in
    match head ← head_symbol items; message ← table_get (ru_unwraps rules) head; Some (head, message) with
    | Some (head, message) =>
      match items with
      | [_; lambda] =>
        match thunk_body lambda with
        | Some body =>
          let k := match body with [b] => syn_kind b | _ => syn_kind (begin_form span body) end in
          '(s, m, F) ← rewrite_node n rules (mkSyntax k span) F;
          Ok (s, (S count + m)%nat, F)
        | None => Err (ME_Unwrap span head message)
        end
      | _ => Err (ME_Unwrap span head message)
      end
    | None =>
      match replace_rule rules items with
      | Some template =>
        '(new, F) ← instantiate_template template (drop 1 items) span F;
        '(items, m, F) ← rewrite_all (rewrite_node n rules) (children (syn_kind new)) F;
        Ok (mkSyntax (with_children (syn_kind new) items) span, (S count + m)%nat, F)
      | None => rewrite_plain (rewrite_node n rules) rules s count F
      end
    end
  end.

(** [migrate] *)
Definition migrate (n : nat) (forms : list Syntax) (from to : N) (F : Files)
    : Out MigrateError (list Syntax * nat * Files) :=
  let rules := Rules_for_range from to in
  if Rules_is_empty rules then Ok (forms, 0%nat, F) else rewrite_all (rewrite_node n rules) forms F.

(** [migrate_forms] *)
Definition migrate_forms (n : nat) (forms : list Syntax) (from_epoch : N) (F : Files)
    : Out MigrateError (list Syntax * nat * Files) :=
  if CURRENT_EPOCH <=? from_epoch then Ok (forms, 0%nat, F) else migrate n forms from_epoch CURRENT_EPOCH F.

End WithStd.
