(* ===== verification/EpochTemplate.v ===== *)
(** * Templates are filled

    [instantiate_template] substitutes in the text of a template and reads the
    result.  [fill] puts the arguments in the template's tree.  The two agree
    when no argument's text holds a dollar sign ([instantiate_fills]): the text
    substituted is the text of the filled tree ([substitute_fill]), and that
    text reads back ([SynPrint.printed_reads_one]). *)

From stdpp Require Import base numbers option list strings sets.
From S2P Require Import Prelude LirRecord ValueTree Scalar Files Text Escape Lexer LexerProps LexerTiles.
From S2P Require Import SynReader SynGrammar SynPrint EpochRules Epoch.

Local Open Scope N_scope.

(** ** Spans do not matter *)

Fixpoint respan (sp : Span) (e : Syntax) : Syntax :=
  let '(mkSyntax k _) := e in
  mkSyntax match k with
           | SK_Seq make items => SK_Seq make (map (respan sp) items)
           | SK_Wrap make inner => SK_Wrap make (respan sp inner)
           | k => k
           end sp.

Lemma map_Forall_eq {A B} (f g : A -> B) l : Forall (fun x => f x = g x) l -> map f l = map g l.
Proof. induction 1; cbn; congruence. Qed.

Lemma respan_erase sp e : respan sp (erase e) = respan sp e.
Proof.
  induction e as [make items p IH|make inner p IH|k p Hk] using syntax_rect; cbn.
  - rewrite map_map. do 2 f_equal. by apply map_Forall_eq.
  - by rewrite IH.
  - by destruct k.
Qed.

Lemma forallb_map_Forall {A B} (p : B -> bool) (q : A -> bool) (f : A -> B) l :
  Forall (fun x => p (f x) = q x) l -> forallb p (map f l) = forallb q l.
Proof. induction 1; cbn; congruence. Qed.

Lemma is_set_erase e : is_set (erase e) = is_set e.
Proof. destruct e as [k sp]. by destruct k. Qed.

Lemma shaped_erase e : shaped (erase e) = shaped e.
Proof.
  induction e as [make items p IH|make inner p IH|k p Hk] using syntax_rect; cbn.
  - rewrite (forallb_map_Forall _ shaped) by done. do 2 f_equal. apply forallb_map_Forall, Forall_forall.
    intros e _. by rewrite is_set_erase.
  - by rewrite IH.
  - by destruct k.
Qed.

Lemma shaped_items make items sp : shaped (mkSyntax (SK_Seq make items) sp) = true -> Forall (fun e => shaped e = true) items.
Proof. cbn. intros [Hs _]%andb_true_iff. rewrite forallb_forall in Hs. apply Forall_forall. intros e He. by apply Hs, list_elem_of_In. Qed.

Lemma set_span_respan sp e : shaped e = true -> set_span_recursive sp e = respan sp e.
Proof.
  induction e as [make items p IH|make inner p IH|k p Hk] using syntax_rect; intros Hs.
  - apply shaped_items in Hs. cbn. do 2 f_equal. apply map_Forall_eq. rewrite Forall_forall in *. eauto.
  - cbn in Hs. apply andb_true_iff in Hs as [Hm Hs]. cbn. destruct make; try (by rewrite IH). done.
  - by destruct k.
Qed.

Lemma set_span_erase sp e e' : shaped e = true -> erase e' = erase e -> set_span_recursive sp e' = set_span_recursive sp e.
Proof.
  intros Hs He. assert (shaped e' = true) as Hs' by (by rewrite <- shaped_erase, He, shaped_erase).
  rewrite !set_span_respan by done. by rewrite <- (respan_erase sp e), <- He, respan_erase.
Qed.

(** ** Replacing in text *)

Definition clean (t : Text) : Prop := DOLLAR ∉ t.

#[export] Instance clean_dec t : Decision (clean t) := _.

Ltac solve_clean := apply (bool_decide_eq_true_1 (clean _)); vm_compute; reflexivity.

Lemma clean_app a b : clean (a ++ b) <-> clean a /\ clean b.
Proof. unfold clean. set_solver. Qed.

Lemma clean_concat ts : clean (concat ts) <-> Forall clean ts.
Proof.
  induction ts as [|t ts IH]; cbn; [split; [constructor|intros _; apply not_elem_of_nil]|].
  by rewrite clean_app, Forall_cons, IH.
Qed.

Lemma placeholder_text j : (j < 9)%nat -> exists d, placeholder j = [DOLLAR; d] /\ d = 49 + N.of_nat j.
Proof. intros Hj. do 9 (destruct j as [|j]; [by eexists|]). lia. Qed.

(** Replacing in [t] gives [t'], whatever follows it. *)
Definition replaces (pat by_ t t' : Text) : Prop :=
  forall r, str_replace (t ++ r) pat by_ = t' ++ str_replace r pat by_.

Lemma replaces_nil pat by_ : replaces pat by_ [] [].
Proof. done. Qed.

Lemma replaces_whole pat by_ t t' : replaces pat by_ t t' -> str_replace t pat by_ = t'.
Proof. intros Hr. specialize (Hr []). rewrite !app_nil_r in Hr. exact Hr. Qed.

Lemma replaces_app pat by_ a a' b b' : replaces pat by_ a a' -> replaces pat by_ b b' -> replaces pat by_ (a ++ b) (a' ++ b').
Proof. intros Ha Hb r. by rewrite <- !app_assoc, Ha, Hb. Qed.

Lemma replaces_clean k by_ t : clean t -> replaces (placeholder k) by_ t t.
Proof.
  unfold replaces, str_replace. intros Hc r. induction t as [|c t IH]; [done|]. apply not_elem_of_cons in Hc as [Hc Ht].
  assert (strip_text (placeholder k) (c :: t ++ r) = None) as Hn.
  { unfold placeholder. cbn [strip_text]. destruct (N.eqb_spec DOLLAR c); [congruence|done]. }
  cbn [app replace_from]. by rewrite Hn, IH.
Qed.

Lemma replaces_hole k by_ : (k < 9)%nat -> replaces (placeholder k) by_ (placeholder k) by_.
Proof. intros Hk r. unfold str_replace. destruct (placeholder_text k Hk) as (d & -> & _). cbn. by rewrite !N.eqb_refl. Qed.

Lemma replaces_other j k by_ : (j < 9)%nat -> (k < 9)%nat -> j <> k -> replaces (placeholder k) by_ (placeholder j) (placeholder j).
Proof.
  intros Hj Hk Hne r. unfold str_replace. destruct (placeholder_text k Hk) as (d & -> & Hd).
  destruct (placeholder_text j Hj) as (d' & -> & Hd'). cbn [app replace_from strip_text]. rewrite N.eqb_refl.
  destruct (N.eqb_spec d d'); [lia|]. destruct (N.eqb_spec DOLLAR d') as [E|]; [unfold DOLLAR in E; lia|]. done.
Qed.

Lemma replaces_concat pat by_ ts ts' : Forall2 (replaces pat by_) ts ts' -> replaces pat by_ (concat ts) (concat ts').
Proof. induction 1; cbn; [apply replaces_nil | by apply replaces_app]. Qed.

(** ** Filling a tree *)

(** The argument a symbol of a template with [n] arguments stands for, and
    whether an [@] comes before it. *)
Definition hole_of (n : nat) (s : Text) : option (bool * nat) :=
  match list_find (fun j => s = placeholder j) (seq 0 n), list_find (fun j => s = AT :: placeholder j) (seq 0 n) with
  | Some (_, j), _ => Some (false, j)
  | None, Some (_, j) => Some (true, j)
  | None, None => None
  end.

Definition is_hole (n : nat) (e : Syntax) : bool :=
  match syn_kind e with SK_Symbol s => bool_decide (is_Some (hole_of n s)) | _ => false end.

Lemma hole_of_spec n s at_ j : hole_of n s = Some (at_, j) ->
  (j < n)%nat /\ s = if at_ then AT :: placeholder j else placeholder j.
Proof.
  unfold hole_of. destruct (list_find _ (seq 0 n)) as [[i k]|] eqn:E1.
  - intros [= <- <-]. apply list_find_Some in E1 as (Hl & Hs & _). apply lookup_seq in Hl as [-> Hlt]. split; [lia|done].
  - destruct (list_find (fun j => s = AT :: _) (seq 0 n)) as [[i k]|] eqn:E2; [|done]. intros [= <- <-].
    apply list_find_Some in E2 as (Hl & Hs & _). apply lookup_seq in Hl as [-> Hlt]. split; [lia|done].
Qed.

Section Fill.
Context `{Unicode, FloatText} (debug_syntax : Syntax -> Text).
Abbreviation show := (SynPrint.show debug_syntax).

(** What an [@] before a form makes of it. *)
Definition at_node (a : Syntax) : Syntax :=
  mkSyntax match syn_kind a with
           | SK_Seq SK_Array items => SK_Seq SK_ArrayMut items
           | SK_Seq SK_Struct items => SK_Seq SK_StructMut items
           | SK_Seq SK_Set items => SK_Seq SK_SetMut items
           | SK_Seq SK_Bytes items => SK_Seq SK_BytesMut items
           | SK_String s => SK_StringMut s
           | _ => SK_Symbol (AT :: show a)
           end (syn_span a).

Definition at_ready (a : Syntax) : bool :=
  match syn_kind a with
  | SK_Seq make _ => bool_decide (make ∈ [SK_Array; SK_Struct; SK_Set; SK_Bytes])
  | SK_String _ => true
  | _ => match show a with c :: _ => is_symbol_start c | [] => false end
  end.

(** [e] with the arguments from the [k]th on in their places. *)
Fixpoint fill (k : nat) (args : list Syntax) (e : Syntax) : Syntax :=
  let '(mkSyntax kd sp) := e in
  match kd with
  | SK_Symbol s =>
    match hole_of (length args) s with
    | Some (at_, j) =>
      if (k <=? j)%nat then match args !! j with Some a => if at_ then at_node a else a | None => e end else e
    | None => e
    end
  | SK_Seq make items => mkSyntax (SK_Seq make (map (fill k args) items)) sp
  | _ => e
  end.

(** The trees of templates: no prefix, no dollar sign but in the name of an
    argument, no argument directly in a set. *)
Fixpoint fits (args : list Syntax) (e : Syntax) : bool :=
  let '(mkSyntax kd _) := e in
  match kd with
  | SK_Symbol s =>
    match hole_of (length args) s with
    | Some (at_, j) => match args !! j with Some a => negb at_ || at_ready a | None => false end
    | None => bool_decide (clean s)
    end
  | SK_Seq make items =>
    forallb (fits args) items && (negb (set_like make) || forallb (fun e => negb (is_hole (length args) e)) items)
  | SK_Wrap _ _ => false
  | SK_Float _ => true
  | _ => bool_decide (clean (show e))
  end.

Lemma show_at_node a : at_ready a = true -> show (at_node a) = AT :: show a.
Proof. destruct a as [k sp]. destruct k as [| | | | | | | |[] items|[] inner]; done. Qed.

(** The characters of numbers. *)
Definition number_char (c : Char) : Prop := is_ascii_digit c = true \/ c ∈ [MINUS; DOT; LOWER_E].

Lemma number_chars sg ds fr ex : number_text sg ds fr ex -> Forall number_char (sg ++ ds ++ fr ++ ex).
Proof.
  assert (forall ds, digits ds -> Forall number_char ds) as Hd.
  { intros ? [_ Hx]. eapply Forall_impl; [exact Hx|]. intros c Hc. by left. }
  assert (forall sg, minus sg -> Forall number_char sg) as Hm.
  { intros ? [-> | ->]; [constructor|]. constructor; [right; set_solver|constructor]. }
  intros [H1 H2 H3 H4]. rewrite !Forall_app. split; [auto|]. split; [auto|]. split.
  - destruct H3 as [-> | (fs & -> & Hf)]; constructor; [right; set_solver|auto].
  - destruct H4 as [-> | (sg' & es & -> & Hs & He)]; constructor; [right; set_solver|]. apply Forall_app. auto.
Qed.

Lemma number_clean t : Forall number_char t -> clean t.
Proof. intros Hn Hin. rewrite Forall_forall in Hn. destruct (Hn _ Hin) as [Hd | Hd]; [done|set_solver]. Qed.

(** Replacing the [k]th argument in the text of a tree fills it in. *)
Lemma fill_replaces k args a e : (length args <= 9)%nat -> args !! k = Some a -> Forall (fun a => clean (show a)) args ->
  (forall f, Float f ∈ tree_tokens e -> float_reads f) -> fits args e = true ->
  replaces (placeholder k) (show a) (show (fill (S k) args e)) (show (fill k args e)).
Proof.
  intros Hlen Hk Hcl. pose proof (lookup_lt_Some _ _ _ Hk) as Hkl.
  assert (forall j b, args !! j = Some b -> replaces (placeholder k) (show a) (show b) (show b)) as Hcb.
  { intros j b Hj. apply replaces_clean. by apply (Forall_lookup_1 _ _ _ _ Hcl Hj). }
  induction e as [make items sp IH|make inner sp IH|kd sp Hkd] using syntax_rect; intros Hfl Hf; cbn in Hf; [|done|].
  - apply andb_true_iff in Hf as [Hf _]. cbn [fill SynPrint.show]. unfold delimited.
    assert (Forall2 (replaces (placeholder k) (show a)) (map show (map (fill (S k) args) items)) (map show (map (fill k args) items))) as H2.
    { rewrite !map_map. rewrite forallb_forall in Hf. rewrite Forall_forall in IH. apply Forall2_fmap_2, Forall_Forall2_diag, Forall_forall.
      intros e He. apply IH; [done| |by apply Hf, list_elem_of_In].
      intros f Hin. apply Hfl. cbn [tree_tokens]. rewrite !elem_of_app. right. left. apply list_elem_of_In, in_concat.
      exists (tree_tokens e). split; [by apply in_map, list_elem_of_In | by apply list_elem_of_In]. }
    apply replaces_app; [apply replaces_clean; destruct make; solve_clean|].
    apply replaces_app; [|apply replaces_clean; destruct make; solve_clean].
    destruct H2 as [|t t' ts ts' Ht Hts]; [apply replaces_nil|]. apply replaces_app; [done|]. apply replaces_concat.
    apply Forall2_fmap_2. eapply Forall2_impl; [exact Hts|]. intros u u' Hu. apply (replaces_app _ _ [SPACE] [SPACE]); [apply replaces_clean; solve_clean|done].
  - destruct kd as [| | |f|s| | | | |]; try done; cbn [fill];
      try (apply replaces_clean; by apply bool_decide_eq_true in Hf).
    + apply replaces_clean. cbn. destruct (Hfl f) as (sg & ds & fr & ex & -> & Hn & _); [by left|]. by apply number_clean, number_chars.
    + destruct (hole_of (length args) s) as [[at_ j]|] eqn:Hh; [|apply replaces_clean; by apply bool_decide_eq_true in Hf].
      destruct (hole_of_spec _ _ _ _ Hh) as [Hj ->]. destruct (args !! j) as [b|] eqn:Hb; [|done].
      destruct (Nat.leb_spec (S k) j) as [H1|H1], (Nat.leb_spec k j) as [H2|H2]; try lia.
      * destruct at_; [|by apply (Hcb j)]. cbn in Hf. rewrite show_at_node by done.
        apply (replaces_app _ _ [AT] [AT]); [apply replaces_clean; solve_clean|by apply (Hcb j)].
      * assert (j = k) as -> by lia. rewrite Hb in Hk. injection Hk as ->. destruct at_; cbn in Hf.
        -- rewrite show_at_node by done. apply (replaces_app _ _ [AT] [AT]); [apply replaces_clean; solve_clean|]. cbn. apply replaces_hole. lia.
        -- cbn. apply replaces_hole. lia.
      * destruct at_; [apply (replaces_app _ _ [AT] [AT]); [apply replaces_clean; solve_clean|]|]; cbn; apply replaces_other; lia.
Qed.

Lemma fill_none args e : fill (length args) args e = e.
Proof.
  induction e as [make items sp IH|make inner sp IH|kd sp Hkd] using syntax_rect; cbn; [|done|].
  - do 2 f_equal. rewrite <- (map_id items) at 2. by apply map_Forall_eq.
  - destruct kd; try done. destruct (hole_of _ _) as [[at_ j]|] eqn:Hh; [|done]. apply hole_of_spec in Hh as [Hj _].
    destruct (Nat.leb_spec (length args) j); [lia|done].
Qed.

(** The text substituted is the text of the filled tree. *)
Lemma substitute_fill args e : (length args <= 9)%nat -> Forall (fun a => clean (show a)) args ->
  (forall f, Float f ∈ tree_tokens e -> float_reads f) -> fits args e = true ->
  substitute debug_syntax (show e) args = show (fill 0 args e).
Proof.
  intros Hlen Hcl Hfl Hf. unfold substitute.
  assert (forall d, (d <= length args)%nat -> fold_left (fun source '(i, arg) => str_replace source (placeholder i) (show arg))
    (rev (drop (length args - d) (imap pair args))) (show e) = show (fill (length args - d) args e)) as Hall.
  { induction d as [|d IH]; intros Hd.
    - rewrite Nat.sub_0_r, drop_ge by (by rewrite length_imap). by rewrite fill_none.
    - set (k := (length args - S d)%nat). destruct (lookup_lt_is_Some_2 args k) as [a Ha]; [lia|].
      rewrite (drop_S (imap pair args) (k, a) k) by (by rewrite list_lookup_imap, Ha). cbn [rev]. rewrite fold_left_app.
      replace (S k) with (length args - d)%nat by lia. rewrite IH by lia. cbn [fold_left].
      replace (length args - d)%nat with (S k) by lia.
      exact (replaces_whole _ _ _ _ (fill_replaces k args a e Hlen Ha Hcl Hfl Hf)). }
  specialize (Hall (length args) ltac:(lia)). rewrite Nat.sub_diag in Hall. exact Hall.
Qed.

(** ** Filled trees read back *)

Definition printable_by (P : Token -> Prop) (e : Syntax) : Prop :=
  shaped e = true /\ unfused e = true /\ Forall P (tree_tokens e).

(** The trees that print as text the reader reads to them. *)
Abbreviation reads_back := (atom_reads_back current_lexicon).
Definition printable (e : Syntax) : Prop := printable_by reads_back e.

(** The same, the names of [n] arguments apart. *)
Definition hole_token (n : nat) (t : Token) : Prop := exists s, t = Symbol s /\ is_Some (hole_of n s).
Definition solid (n : nat) (e : Syntax) : Prop := printable_by (fun t => reads_back t \/ hole_token n t) e.

Lemma current_sharp : sharp current_lexicon.
Proof. done. Qed.

Lemma Forall_concat_map {A B} (P : B -> Prop) (f : A -> list B) l :
  Forall P (concat (map f l)) <-> Forall (fun x => Forall P (f x)) l.
Proof. induction l as [|x l IH]; cbn; [split; constructor|]. by rewrite Forall_app, Forall_cons, IH. Qed.

Lemma forallb_Forall {A} (p : A -> bool) l : forallb p l = true <-> Forall (fun x => p x = true) l.
Proof. induction l as [|x l IH]; cbn; [split; constructor|]. by rewrite andb_true_iff, Forall_cons, IH. Qed.

Lemma printable_by_seq (P : Token -> Prop) make items sp : (forall t, reads_back t -> P t) ->
  printable_by P (mkSyntax (SK_Seq make items) sp) <->
  Forall (printable_by P) items /\ (set_like make = true -> Forall (fun e => is_set e = false) items).
Proof.
  intros HP. unfold printable_by. cbn.
  rewrite andb_true_iff, !Forall_app, Forall_concat_map, orb_true_iff, negb_true_iff, !forallb_Forall.
  assert (Forall P (open_tokens make) /\ Forall P [close_token make]) as [Ho Hc]
    by (split; destruct make; repeat (constructor; try by apply HP)).
  rewrite Forall_forall in Ho, Hc. rewrite !Forall_forall. split.
  - intros ((Hs & Hset) & Hu & _ & Hat & _). split; [intros e He; repeat split; by auto|].
    intros Hm e He. destruct Hset as [Hset | Hset]; [congruence|]. apply negb_true_iff. by apply Hset.
  - intros [Hp Hset]. repeat split; try done; try (intros e He; by apply Hp).
    destruct (set_like make); [right|by left]. intros e He. rewrite (Hset eq_refl e He). done.
Qed.

Lemma printable_seq make items sp : printable (mkSyntax (SK_Seq make items) sp) <->
  Forall printable items /\ (set_like make = true -> Forall (fun e => is_set e = false) items).
Proof. by apply printable_by_seq. Qed.

Lemma symbol_text_number t : Forall number_char t -> symbol_text t = true.
Proof.
  induction 1 as [|c t Hc _ IH]; [done|]. cbn. rewrite IH, andb_true_r. unfold symbol_goes_on.
  destruct Hc as [Hc | Hc].
  - apply is_ascii_digit_spec in Hc. assert (is_whitespace c || is_delimiter c = false) as ->; [|done].
    assert (exists d, c = 48 + d /\ d < 10) as (d & -> & Hd) by (exists (c - 48); lia).
    destruct d as [|p]; [done|]. do 4 (destruct p as [p|p|]; try done; try lia).
  - set_unfold in Hc. repeat destruct Hc as [-> | Hc]; done.
Qed.

(** The text an [@] reads with the form it stands before. *)
Lemma at_text k sp : match k with SK_Seq _ _ | SK_Wrap _ _ | SK_String _ => False | _ => True end ->
  Forall (atom_reads_back current_lexicon) (tree_tokens (mkSyntax k sp)) -> at_ready (mkSyntax k sp) = true ->
  symbol_text (show (mkSyntax k sp)) = true.
Proof.
  intros Hk Hat Hr. destruct k as [| [] |n|f|x|x| |x| |]; try done; cbn in Hat |- *.
  - apply Forall_cons in Hat as [Hn _]. destruct (show_i64_text n Hn) as (sg & ds & -> & Hnt).
    apply number_chars in Hnt. rewrite !app_nil_r in Hnt. by apply symbol_text_number.
  - apply Forall_cons in Hat as [(sg & ds & fr & ex & -> & Hnt & _) _]. by apply symbol_text_number, number_chars.
  - apply Forall_cons in Hat as [Hx _]. cbn in Hx. destruct x as [|c x]; [done|]. cbn in Hx.
    destruct (N.eqb_spec c AT) as [->|]; [done|]. apply Hx.
Qed.

Lemma at_node_printable a : printable a -> at_ready a = true -> printable (at_node a) /\ is_set (at_node a) = false.
Proof.
  intros Hp Hr. destruct a as [k sp].
  assert (forall make make' items, k = SK_Seq make items -> set_like make' = set_like make ->
    printable (mkSyntax (SK_Seq make' items) sp)) as Hseq.
  { intros make make' items -> Hs. apply printable_seq in Hp as [H1 H2]. apply printable_seq. rewrite Hs. auto. }
  assert (match k with SK_Seq _ _ | SK_Wrap _ _ | SK_String _ => False | _ => True end ->
    printable (mkSyntax (SK_Symbol (AT :: show (mkSyntax k sp))) sp)) as Hsym.
  { intros Hk. pose proof (at_text k sp Hk (proj2 (proj2 Hp)) Hr) as Ht. split; [done|]. split; [done|]. constructor; [|constructor].
    cbn. rewrite <- N.eqb_eq in *. split; [done|]. split; [done|]. destruct k; try done; cbn in Hr |- *; by case_match. }
  destruct k as [| | | | | | | |[] items|[] inner]; try done;
    try (split; [apply Hsym; exact I|done]); try (split; [by eapply Hseq|done]).
  split; [|done]. split; [done|]. split; [done|]. by repeat constructor.
Qed.

Lemma fill_keeps_kind k args e : is_hole (length args) e = false -> is_set (fill k args e) = is_set e.
Proof.
  destruct e as [kd sp]. destruct kd; cbn; try done. intros Hh%bool_decide_eq_false.
  destruct (hole_of _ _); [by destruct Hh|done].
Qed.

Lemma fill_printable args e : Forall printable args -> solid (length args) e -> fits args e = true -> printable (fill 0 args e).
Proof.
  intros Ha. induction e as [make items sp IH|make inner sp IH|kd sp Hkd] using syntax_rect; intros Hp Hf; cbn in Hf; [|done|].
  - apply printable_by_seq in Hp as [Hp Hset]; [|by left]. apply andb_true_iff in Hf as [Hf Hh]. apply forallb_Forall in Hf.
    cbn. apply printable_seq. rewrite !Forall_fmap. split.
    + rewrite Forall_forall in *. intros e He. by apply IH; [|apply Hp|apply Hf].
    + intros Hm. specialize (Hset Hm). rewrite Hm in Hh. cbn in Hh. apply forallb_Forall in Hh.
      rewrite Forall_forall in *. intros e He. cbn. rewrite fill_keeps_kind; [by apply Hset|]. by apply negb_true_iff, Hh.
  - assert ((forall s, kd = SK_Symbol s -> hole_of (length args) s = None) -> printable (mkSyntax kd sp)) as Hplain.
    { intros Hn. destruct Hp as (Hs & Hu & Hat). split; [done|]. split; [done|]. rewrite Forall_forall in Hat |- *.
      intros t Hin. destruct (Hat t Hin) as [Ht | (s & -> & [x Hx])]; [done|]. exfalso. assert (kd = SK_Symbol s) as ->.
      { destruct kd; try done; cbn in Hin; repeat (apply elem_of_cons in Hin as [Hin|Hin]; [congruence|]); by apply elem_of_nil in Hin. }
      by rewrite Hn in Hx. }
    destruct kd as [| | | |s| | | | |]; try done; try (by apply Hplain). cbn.
    destruct (hole_of (length args) s) as [[at_ j]|] eqn:Hh; [|apply Hplain; congruence]. cbn.
    destruct (args !! j) as [a|] eqn:Hj; [|done]. rewrite Forall_lookup in Ha. specialize (Ha _ _ Hj). destruct at_; [|done].
    by apply at_node_printable.
Qed.

(** The text differs from [p] before either ends. *)
Fixpoint mismatch (p t : Text) : bool :=
  match p, t with a :: p, b :: t => if a =? b then mismatch p t else true | _, _ => false end.

Lemma mismatch_strip p t r : mismatch p t = true -> strip_text p (t ++ r) = None.
Proof.
  revert t. induction p as [|a p IH]; intros t Hm; [by destruct t|]. destruct t as [|b t]; [done|]. cbn in *.
  destruct (a =? b); [by apply IH|done].
Qed.

(** A call whose text cannot be taken for a declaration. *)
Definition calls_safely (n : nat) (e : Syntax) : bool :=
  match as_list e with
  | Some (mkSyntax (SK_Symbol h) _ :: _) =>
    match h with c :: _ => negb (is_whitespace c) | [] => false end
    && mismatch EPOCH_NAME h && bool_decide (hole_of n h = None)
  | _ => false
  end.

Lemma prescan_call t h r : t = LPAREN :: h ++ r -> match h with c :: _ => negb (is_whitespace c) | [] => false end = true ->
  mismatch EPOCH_NAME h = true -> prescan_epoch t = Ok CURRENT_EPOCH.
Proof.
  intros -> Hw Hm. destruct h as [|c h]; [done|]. unfold prescan_epoch.
  assert (strip_shebang (LPAREN :: (c :: h) ++ r) = LPAREN :: (c :: h) ++ r) as -> by done.
  assert (trim_start (LPAREN :: (c :: h) ++ r) = LPAREN :: (c :: h) ++ r) as -> by done.
  assert (strip_text [LPAREN] (LPAREN :: (c :: h) ++ r) = Some ((c :: h) ++ r)) as -> by done.
  assert (trim_start ((c :: h) ++ r) = (c :: h) ++ r) as ->.
  { apply negb_true_iff in Hw. cbn. by rewrite Hw. }
  by rewrite mismatch_strip.
Qed.

Lemma prescan_filled args e : calls_safely (length args) e = true ->
  prescan_epoch (show (fill 0 args e)) = Ok CURRENT_EPOCH.
Proof.
  destruct e as [k sp]. destruct k as [| | | | | | | |make items|]; try done. destruct make; try done.
  destruct items as [|[[| | | |h| | | | |] sp'] items]; try done. cbn [calls_safely as_list syn_kind].
  intros [[Hw Hm]%andb_true_iff Hh%bool_decide_eq_true]%andb_true_iff. cbn. rewrite Hh. cbn.
  eapply prescan_call; [|exact Hw|exact Hm]. rewrite <- app_assoc. reflexivity.
Qed.

(** Instantiating a template fills its tree. *)
Lemma instantiate_fills e args span F : (length args <= 9)%nat -> solid (length args) e -> fits args e = true ->
  calls_safely (length args) e = true -> Forall printable args -> Forall (fun a => clean (show a)) args ->
  exists F', instantiate_template debug_syntax (show e) args span F = Ok (set_span_recursive span (fill 0 args e), F').
Proof.
  intros Hlen Hp Hf Hc Ha Hcl. unfold instantiate_template, read_syntax, lexicon_for.
  rewrite substitute_fill; [|done|done| |done].
  2:{ destruct Hp as (_ & _ & Hat). rewrite Forall_forall in Hat. intros f Hin.
      destruct (Hat _ Hin) as [Hr | (s & [=] & _)]. exact Hr. }
  rewrite prescan_filled by done. cbn [mbind Out_bind].
  destruct (fill_printable args e Ha Hp Hf) as (Hs & Hu & Hat).
  destruct (printed_reads_one debug_syntax current_lexicon (fill 0 args e) TEMPLATE_NAME F current_sharp Hs Hu Hat) as (e' & F' & Hr & He).
  change (for_epoch CURRENT_EPOCH) with current_lexicon. rewrite Hr. exists F'. by rewrite (set_span_erase span _ _ Hs He).
Qed.

(** ** Reading one form *)

(** [read_syntax] ends, and the form it answers has the tokens of the text. *)
Lemma read_one_sound input name L F : yields (read_one_under input name L F) (fun '(e, _) =>
  exists ts, lex_all_under input name L = Ok ts /\ live_tokens ts = tree_tokens e).
Proof.
  unfold read_one_under, lex_columns. pose proof (lex_loop_tiles name L (S (length (strip_shebang input)))
    (in_lexicon (Lexer_with_file (strip_shebang input) name) L) [] [] ltac:(done) ltac:(cbn; lia)) as Hl.
  unfold lex_all_under. destruct (lex_loop _ _ _) as [ts|?| |]; try done. cbn [mbind Out_bind].
  destruct ts as [|t ts]; [done|]. cbn [columns_of lt_tokens fmap list_fmap]. change (mkColumns _ _ _ _) with (columns_of (t :: ts)).
  rewrite from_columns_of. set (T := t :: ts). set (s := mkReader T 0 [] F).
  assert (on_source T s) as Hos by (split; [done|cbn; lia]).
  pose proof (read_reads T (read_fuel s) s Hos ltac:(unfold read_fuel; cbn; lia)) as Hr.
  destruct (read (read_fuel s) s) as [e s'|? ?| |]; try done. destruct Hr as (Hos' & _ & i & Hc & Hloc). cbn [rd_bind].
  unfold current_token. destruct (sr_at s') as [tw|] eqn:Ht; [done|]. cbn. exists T. split; [done|].
  pose proof (proj1 (grammar_lt T) _ _ _ Hloc). pose proof (proj1 Hc). pose proof (rest_none T s' Hos' Ht) as Hn. unfold rest in Hn.
  rewrite <- live_all, (live_app T 0 i), (live_app T i (sr_pos s')), Hn, (proj1 (grammar_tokens T) _ _ _ Hloc), app_nil_r
    by (pose proof (proj2 Hos'); lia).
  by rewrite (live_comments T 0 i Hc).
Qed.

Lemma prescan_yields t : yields (prescan_epoch t) (fun _ => True).
Proof. unfold prescan_epoch. by repeat case_match. Qed.

Lemma instantiate_yields template args span F :
  yields (instantiate_template debug_syntax template args span F) (fun _ => True).
Proof.
  unfold instantiate_template, read_syntax, lexicon_for. pose proof (prescan_yields (substitute debug_syntax template args)) as Hp.
  destruct (prescan_epoch _) as [n|?| |]; try done. cbn [mbind Out_bind].
  pose proof (read_one_sound (substitute debug_syntax template args) TEMPLATE_NAME (for_epoch n) F) as Hr.
  by destruct (read_one_under _ _ _ _) as [[e F']|?| |].
Qed.

(** ** An [@] before something it does not combine with *)

(** The tokens an [@] stands before. *)
Definition sugared (t : Token) : bool :=
  match t with LeftBracket | LeftBrace | String _ => true | _ => false end.

Fixpoint sugar_ok (ts : list Token) : bool :=
  match ts with
  | ListSugar :: ts => match ts with t :: _ => sugared t | [] => false end && sugar_ok ts
  | _ :: ts => sugar_ok ts
  | [] => true
  end.

Lemma sugar_ok_app a b : sugar_ok a = true -> sugar_ok b = true -> sugar_ok (a ++ b) = true.
Proof.
  intros Ha Hb. induction a as [|t a IH]; [done|]. cbn in Ha |- *. destruct t; auto.
  apply andb_true_iff in Ha as [Hh Ha]. destruct a as [|u a]; [done|]. apply andb_true_iff. auto.
Qed.

Lemma sugar_ok_after a t b : sugar_ok (a ++ ListSugar :: t :: b) = true -> sugared t = true.
Proof.
  induction a as [|u a IH]; cbn; [by intros [H1 _]%andb_true_iff|]. destruct u; auto. intros [_ H1]%andb_true_iff. auto.
Qed.

Lemma tree_sugar_ok e : sugar_ok (tree_tokens e) = true.
Proof.
  induction e as [make items sp IH|make inner sp IH|k sp Hk] using syntax_rect.
  - cbn [tree_tokens]. assert (sugar_ok (concat (map tree_tokens items) ++ [close_token make]) = true) as Hc.
    { induction IH as [|e es He _ IHes]; cbn; [by destruct make|]. rewrite <- app_assoc. by apply sugar_ok_app. }
    destruct make; try (by apply sugar_ok_app); done.
  - cbn [tree_tokens]. by destruct make.
  - by destruct k.
Qed.

(** What the text of such an argument starts with. *)
Lemma unready_head a : printable a -> at_ready a = false -> exists c r t ts, show a = c :: r /\ tree_tokens a = t :: ts
  /\ is_symbol_start c = false /\ c <> PIPE /\ c <> LOWER_B /\ sugared t = false.
Proof.
  intros (Hs & _ & Hat) Hr. destruct a as [k sp]. destruct k as [| [] |n|f|x|x| |x|make items|make inner]; try done; cbn in Hat, Hr |- *.
  - apply Forall_cons in Hat as [Hn _]. destruct (show_i64_text n Hn) as (sg & ds & He & Hnt). rewrite He in *.
    destruct (number_head _ _ _ _ [] Hnt) as (c & q & Hq & Hc). rewrite !app_nil_r in Hq. rewrite Hq in *.
    exists c, q, (Integer n), []. repeat split; try done; (intros ->; by destruct Hc as [Hc | [Hc _]]).
  - apply Forall_cons in Hat as [(sg & ds & fr & ex & He & Hnt & _) _]. rewrite He in *.
    destruct (number_head _ _ _ _ [] Hnt) as (c & q & Hq & Hc). rewrite !app_nil_r in Hq. rewrite Hq in *.
    exists c, q, (Float f), []. repeat split; try done; (intros ->; by destruct Hc as [Hc | [Hc _]]).
  - apply Forall_cons in Hat as [Hx _]. destruct x as [|c x]; [done|]. exists c, x, (Symbol (c :: x)), []. repeat split; try done; intros ->; [|done].
    cbn in Hx. destruct Hx as (_ & Hx & _). by destruct x.
  - by eexists _, _, _, _.
  - by eexists _, _, _, _.
  - destruct make; try done; by eexists _, _, _, _.
  - destruct make; try done; by eexists _, _, _, _.
Qed.

Lemma at_lexes lx c q : lx_lexicon lx = current_lexicon -> lx_rest lx = AT :: c :: q ->
  is_symbol_start c = false -> c <> PIPE -> c <> LOWER_B -> lexes_one lx ListSugar (c :: q).
Proof.
  intros HL Hr Hs Hp Hb. apply (lex_token_one lx AT (c :: q) ListSugar _ (advance lx) Hr); [done| | |].
  - unfold lex_token. rewrite HL. cbn -[lex_at]. unfold lex_at. rewrite (rest_current _ _ _ (rest_advance _ _ _ Hr)).
    apply N.eqb_neq in Hp, Hb. by rewrite Hp, Hb, Hs.
  - exact (rest_advance _ _ _ Hr).
  - exact (moves_lexicon _ _ _ (moves_advance _ _ _ Hr)).
Qed.

Lemma printable_lexes a : printable a -> lexes_back debug_syntax current_lexicon a /\ tree_tokens a <> [].
Proof.
  intros (Hs & Hu & Hat). split; [by apply (show_lexes debug_syntax current_lexicon a current_sharp)|].
  by destruct (head_token a Hs) as (t & q & -> & _).
Qed.

(** The template of [var] before an argument that takes no [@]. *)
Definition VAR_TEMPLATE : Text := text "(def @$1 $2)".

Definition unready_text (a b : Syntax) : Text := text "(def @" ++ show a ++ SPACE :: show b ++ [RPAREN].

Lemma unready_lexes a b name : printable a -> printable b -> at_ready a = false ->
  exists us, lex_all_under (unready_text a b) name current_lexicon = Ok us
    /\ tw_token <$> us = [LeftParen; Symbol (text "def"); ListSugar] ++ tree_tokens a ++ tree_tokens b ++ [RightParen].
Proof.
  intros Ha Hb Hr. destruct (unready_head a Ha Hr) as (c & r & _ & _ & Hsh & _ & Hc & Hp & Hlb & _).
  destruct (printable_lexes a Ha) as [Hla _], (printable_lexes b Hb) as [Hlb' Hnb].
  unfold lex_all_under. assert (strip_shebang (unready_text a b) = unready_text a b) as -> by done.
  apply (lexes_loop (S (length (unready_text a b)))); [cbn; lia|].
  set (lx := in_lexicon _ _). assert (lx_lexicon lx = current_lexicon) as HL by done.
  assert (lx_rest lx = unready_text a b) as Hrest by done. unfold unready_text in Hrest. clearbody lx.
  eapply lexes_cons; [apply (unit_lexes current_lexicon LeftParen (text "def @" ++ show a ++ SPACE :: show b ++ [RPAREN])); [done|done|done|by left]|].
  intros lx1 Hr1 HL1. eapply lexes_cons.
  { apply (symbol_lexes current_lexicon (text "def") (text " @" ++ show a ++ SPACE :: show b ++ [RPAREN])); [congruence|done| |cbn; by left|done].
    repeat split; try done. set_solver. }
  intros lx2 Hr2 HL2. apply (lexes_space _ _ _ _ _ Hr2). pose proof (rest_advance _ _ _ Hr2) as Hr3.
  assert (lx_lexicon (advance lx2) = current_lexicon) as HL3 by (rewrite (moves_lexicon _ _ _ (moves_advance _ _ _ Hr2)); congruence).
  eapply lexes_cons; [apply (at_lexes _ c (r ++ SPACE :: show b ++ [RPAREN]) HL3); [rewrite Hr3, Hsh; done|done|done|done]|].
  intros lx4 Hr4 HL4. eapply lexes_app; [apply (Hla lx4 (SPACE :: show b ++ [RPAREN])); [congruence|by rewrite Hr4, Hsh|by left]|].
  intros lx5 Hr5 HL5. eapply lexes_app.
  - rewrite <- (app_nil_r (tree_tokens b)). change (tree_tokens b ++ []) with (concat (map tree_tokens [b])).
    apply (items_lex_back debug_syntax current_lexicon [b]) with (q := [RPAREN]); [by repeat constructor|by repeat constructor|congruence| |right; set_solver].
    rewrite Hr5. cbn. by rewrite app_nil_r.
  - intros lx6 Hr6 HL6. eapply lexes_cons; [|intros lx7 Hr7 _; exact Hr7].
    apply (unit_lexes current_lexicon RightParen []); [congruence|done|by rewrite Hr6|by left].
Qed.

Lemma unready_substitute a b : clean (show a) -> clean (show b) ->
  substitute debug_syntax VAR_TEMPLATE [a; b] = unready_text a b.
Proof.
  intros Ha Hb. change (substitute debug_syntax VAR_TEMPLATE [a; b])
    with (str_replace (str_replace VAR_TEMPLATE (placeholder 1) (show b)) (placeholder 0) (show a)).
  assert (replaces (placeholder 1) (show b) VAR_TEMPLATE (text "(def @" ++ placeholder 0 ++ SPACE :: show b ++ [RPAREN])) as H1.
  { change VAR_TEMPLATE with (text "(def @" ++ placeholder 0 ++ [SPACE] ++ placeholder 1 ++ [RPAREN]).
    apply replaces_app; [apply replaces_clean; solve_clean|]. apply replaces_app; [apply replaces_other; lia|].
    apply (replaces_app _ _ [SPACE] [SPACE]); [apply replaces_clean; solve_clean|]. apply replaces_app; [apply replaces_hole; lia|].
    apply replaces_clean. solve_clean. }
  assert (replaces (placeholder 0) (show a) (text "(def @" ++ placeholder 0 ++ SPACE :: show b ++ [RPAREN]) (unready_text a b)) as H2.
  { unfold unready_text. apply replaces_app; [apply replaces_clean; solve_clean|]. apply replaces_app; [apply replaces_hole; lia|].
    apply (replaces_app _ _ [SPACE] [SPACE]); [apply replaces_clean; solve_clean|]. apply replaces_app; apply replaces_clean; [done|solve_clean]. }
  by rewrite (replaces_whole _ _ _ _ H1), (replaces_whole _ _ _ _ H2).
Qed.

(** [var] of something that is no binder is refused. *)
Lemma unready_refused a b span F : printable a -> printable b -> clean (show a) -> clean (show b) -> at_ready a = false ->
  exists e, instantiate_template debug_syntax VAR_TEMPLATE [a; b] span F = Err e.
Proof.
  intros Ha Hb Hca Hcb Hr. pose proof (instantiate_yields VAR_TEMPLATE [a; b] span F) as Hy. revert Hy.
  unfold instantiate_template, read_syntax, lexicon_for. rewrite unready_substitute by done.
  rewrite (prescan_call (unready_text a b) (text "def") (text " @" ++ show a ++ SPACE :: show b ++ [RPAREN])) by done.
  cbn [mbind Out_bind]. change (for_epoch CURRENT_EPOCH) with current_lexicon.
  pose proof (read_one_sound (unready_text a b) TEMPLATE_NAME current_lexicon F) as Hro.
  destruct (read_one_under _ _ _ _) as [[e F']|?| |]; try done; [|intros _; by eexists].
  destruct Hro as (ts & Hl & Ht). exfalso. destruct (unready_lexes a b TEMPLATE_NAME Ha Hb Hr) as (us & Hl' & Hus).
  rewrite Hl in Hl'. injection Hl' as ->. unfold live_tokens in Ht. rewrite Hus, filter_no_comments in Ht.
  - destruct (unready_head a Ha Hr) as (_ & _ & t & q & _ & Hta & _ & _ & _ & Hsg). pose proof (tree_sugar_ok e) as Hok.
    rewrite <- Ht, Hta in Hok. apply (sugar_ok_after [LeftParen; Symbol (text "def")]) in Hok. congruence.
  - rewrite !Forall_app. repeat split; try apply tree_no_comments; by repeat constructor.
Qed.

(** ** The registered templates *)

(** [fits], before the arguments are known. *)
Fixpoint skeleton (n : nat) (e : Syntax) : bool :=
  let '(mkSyntax kd _) := e in
  match kd with
  | SK_Symbol s => bool_decide (is_Some (hole_of n s) \/ clean s)
  | SK_Seq make items =>
    forallb (skeleton n) items && (negb (set_like make) || forallb (fun e => negb (is_hole n e)) items)
  | SK_Wrap _ _ => false
  | SK_Float _ => true
  | _ => bool_decide (clean (show e))
  end.

(** The arguments an [@] stands before. *)
Fixpoint at_holes (n : nat) (e : Syntax) : list nat :=
  let '(mkSyntax kd _) := e in
  match kd with
  | SK_Symbol s => match hole_of n s with Some (true, j) => [j] | _ => [] end
  | SK_Seq _ items => concat (map (at_holes n) items)
  | _ => []
  end.

Definition all_ready (args : list Syntax) (e : Syntax) : Prop :=
  Forall (fun j => forall a, args !! j = Some a -> at_ready a = true) (at_holes (length args) e).

Lemma skeleton_fits args e : skeleton (length args) e = true -> all_ready args e -> fits args e = true.
Proof.
  unfold all_ready. induction e as [make items sp IH|make inner sp IH|kd sp Hkd] using syntax_rect; cbn; [|done|].
  - intros [Hs Hh]%andb_true_iff Hr. rewrite Hh, andb_true_r. apply forallb_Forall in Hs. apply forallb_Forall.
    rewrite Forall_concat_map in Hr. rewrite Forall_forall in *. intros e He. by apply IH; [|apply Hs|apply Hr].
  - destruct kd; try done. intros Hs%bool_decide_eq_true Hr. destruct (hole_of _ _) as [[at_ j]|] eqn:Hh.
    + apply hole_of_spec in Hh as [Hj _]. destruct (lookup_lt_is_Some_2 args j Hj) as [a Ha]. rewrite Ha.
      destruct at_; [|done]. cbn. rewrite Forall_singleton in Hr. by apply Hr.
    + apply bool_decide_eq_true. destruct Hs as [[? Hs] | Hs]; done.
Qed.

(** What a template's tree [e] needs, for calls of [n] arguments. *)
Definition template_tree (n : nat) (template : Text) (e : Syntax) : Prop :=
  show e = template /\ solid n e /\ skeleton n e = true /\ calls_safely n e = true /\ (n <= 9)%nat.

Lemma template_tree_fills n template e args span F : template_tree n template e -> length args = n ->
  Forall printable args -> Forall (fun a => clean (show a)) args -> all_ready args e ->
  exists F', instantiate_template debug_syntax template args span F = Ok (set_span_recursive span (fill 0 args e), F').
Proof.
  intros (<- & Hp & Hs & Hc & Hn) <- Ha Hcl Hr. apply instantiate_fills; try done. by apply skeleton_fits.
Qed.

(** [atom_reads_back], decided. *)
Definition atom_checks (t : Token) : bool :=
  match t with
  | Symbol (c :: s) =>
    if c =? AT then symbol_text s && match s with d :: _ => is_symbol_start d | [] => false end
    else starts_symbol current_lexicon c && symbol_text (c :: s) && bool_decide (c :: s ∉ reserved)
         && (negb (is_sign c) || match s with d :: _ => negb (is_ascii_digit d) | [] => true end)
  | Symbol [] => false
  | Keyword k => bool_decide (k <> []) && bool_decide (k !! 0%nat <> Some AT) && symbol_text k
  | Integer n => i64_range n
  | Float _ => false
  | _ => true
  end.

Lemma atom_checks_reads ts : forallb atom_checks ts = true -> Forall (atom_reads_back current_lexicon) ts.
Proof.
  intros Hc%forallb_Forall. eapply Forall_impl; [exact Hc|]. clear. intros t Hc. destruct t as [| | | | | | | | | | | | | | | | |s|k| | | | |]; try done; cbn [atom_reads_back].
  - destruct s as [|c s]; [done|]. cbn [atom_checks symbol_token] in *. destruct (N.eqb_spec c AT) as [->|].
    + apply andb_true_iff in Hc as [H1 H2]. split; [done|]. split; [done|]. by destruct s.
    + rewrite !andb_true_iff in Hc. destruct Hc as [[[H1 H2] H3%bool_decide_eq_true] H4]. split; [done|]. split; [done|]. split; [done|].
      intros Hs. rewrite Hs in H4. cbn in H4. destruct s; [done|]. by apply negb_true_iff.
  - cbn [atom_checks] in Hc. rewrite !andb_true_iff in Hc. destruct Hc as [[H1%bool_decide_eq_true H2%bool_decide_eq_true] H3]. destruct k as [|c k]; [done|].
    cbn in *. destruct (N.eqb_spec c AT) as [->|]; [done|done].
Qed.

(** The templates read to their trees, but for the one that puts an [@] before an
    argument: [@$1] is not a symbol until the argument is in it. *)
Definition tree_of (template : Text) : Syntax :=
  let sym s := mkSyntax (SK_Symbol (text s)) Span_synthetic in
  if decide (template = VAR_TEMPLATE) then mkSyntax (SK_Seq SK_List [sym "def"; sym "@$1"; sym "$2"]) Span_synthetic
  else match read_syntax template TEMPLATE_NAME FILES_init with
       | Ok (e, _) => e | _ => mkSyntax SK_Nil Span_synthetic end.

Lemma registered_templates :
  Forall (fun '(_, n, template) => template_tree n template (tree_of template)) (replace_rules_in_range 0 15).
Proof.
  assert (forall n t e, tree_of t = e -> show e = t ->
    shaped e && unfused e && forallb (fun t => atom_checks t || match t with Symbol s => bool_decide (is_Some (hole_of n s)) | _ => false end) (tree_tokens e)
      && skeleton n e && calls_safely n e && (n <=? 9)%nat = true -> template_tree n t (tree_of t)) as Hgo.
  { intros n t e -> Hs Hb. rewrite !andb_true_iff in Hb.
    destruct Hb as [[[[[H1 H2] H3%forallb_Forall] H4] H5] H6%Nat.leb_le]. repeat split; try done. eapply Forall_impl; [exact H3|].
    intros u [Hu | Hu]%orb_true_iff; [left|right].
    - apply (Forall_inv (P := reads_back) (l := [])), atom_checks_reads. cbn. by rewrite Hu.
    - destruct u as [| | | | | | | | | | | | | | | | |s| | | | | |]; try done. apply bool_decide_eq_true in Hu. by exists s. }
  set (rules := replace_rules_in_range 0 15). vm_compute in rules. subst rules.
  assert (forall (s : Text) (n : nat) (t : Text) l (P : Text * nat * Text -> Prop),
    P (s, n, t) -> Forall P l -> Forall P ((s, n, t) :: l)) as Hcons by (intros; by constructor).
  repeat (apply Hcons; cbv beta iota; [eapply Hgo; [vm_compute; reflexivity..]|]). by apply Forall_nil.
Qed.

Lemma replace_rules_registered from to r : r ∈ replace_rules_in_range from to -> r ∈ replace_rules_in_range 0 15.
Proof.
  unfold replace_rules_in_range. rewrite !list_elem_of_omap. intros (x & Hx & Hr). exists x. split; [|done].
  revert Hx. unfold rules_in_range. rewrite !list_elem_of_In, !in_concat. intros (l & Hl & Hx). exists l. split; [|done].
  apply in_map_iff in Hl as (m & <- & Hm). apply in_map. apply list_elem_of_In in Hm. apply list_elem_of_filter in Hm as [_ Hm].
  apply list_elem_of_In, list_elem_of_filter. split; [|done].
  assert (Forall (fun m => 0 < mg_epoch m /\ mg_epoch m <= 15) MIGRATIONS) as Hall
    by (apply (bool_decide_eq_true_1 _); vm_compute; reflexivity).
  rewrite Forall_forall in Hall. by apply Hall.
Qed.

End Fill.
