(* ===== verification/EpochProps.v ===== *)
(** * What migration guarantees

    The migration of a tree from any epoch ends, when the tree's text holds no
    dollar sign ([migration_ends]): a rewrite recurses on forms smaller than the
    one it rewrote, and a template's own forms match no rule.  With a dollar
    sign in an argument the text substitution can feed a template its own call
    ([template_feeds_itself]).  Renames collapsed over a range act as the epochs
    one after the other ([renames_collapse]), and the epoch the prescan sees is
    the one the tree declares ([visible_declaration_governs]). *)

From stdpp Require Import base numbers option list strings sets.
From S2P Require Import Prelude LirRecord ValueTree Scalar Files Text Escape Lexer LexerProps LexerTiles.
From S2P Require Import SynReader SynGrammar SynPrint ReaderProps EpochRules Epoch EpochTemplate.

Local Open Scope N_scope.

#[local] Arguments text : simpl never.
#[local] Arguments hole_of : simpl never.

(** [Forall] of a list written out. *)
Ltac each := repeat (apply Forall_cons_2; [done|]); apply Forall_nil_2.

(** ** Size *)

Fixpoint size (e : Syntax) : nat :=
  let '(mkSyntax k _) := e in
  match k with
  | SK_Seq _ items => S (sum_list_with size items)
  | SK_Wrap _ inner => S (size inner)
  | _ => 1%nat
  end.

Lemma size_pos e : (0 < size e)%nat.
Proof. destruct e as [k sp]. destruct k; cbn; lia. Qed.

Lemma size_in e items : e ∈ items -> (size e <= sum_list_with size items)%nat.
Proof. induction 1; cbn; lia. Qed.

Lemma size_children k sp e : e ∈ children k -> (size e < size (mkSyntax k sp))%nat.
Proof.
  destruct k as [| | | | | | | |make items|make inner]; cbn; try (by intros ?%elem_of_nil).
  - intros He%size_in. lia.
  - destruct make; cbn; try (intros ->%list_elem_of_singleton; lia). by intros ?%elem_of_nil.
Qed.

(** ** Respanned trees *)

Lemma concat_map_Forall {A B} (f g : A -> list B) l : Forall (fun x => f x = g x) l -> concat (map f l) = concat (map g l).
Proof. intros Hl. by rewrite (map_Forall_eq f g l Hl). Qed.

Lemma size_respan sp e : size (respan sp e) = size e.
Proof.
  induction e as [make items p IH|make inner p IH|k p Hk] using syntax_rect; cbn; [f_equal|by rewrite IH|by destruct k].
  induction IH as [|e es He _ IHes]; cbn; [done|]. by rewrite He, IHes.
Qed.

Lemma tree_tokens_respan sp e : tree_tokens (respan sp e) = tree_tokens e.
Proof.
  induction e as [make items p IH|make inner p IH|k p Hk] using syntax_rect; cbn; [|by rewrite IH|by destruct k].
  rewrite map_map. do 2 f_equal. by apply concat_map_Forall.
Qed.

Lemma erase_respan sp e : erase (respan sp e) = erase e.
Proof.
  induction e as [make items p IH|make inner p IH|k p Hk] using syntax_rect; cbn; [|by rewrite IH|by destruct k].
  rewrite map_map. do 2 f_equal. by apply map_Forall_eq.
Qed.

Lemma unfused_respan sp e : unfused (respan sp e) = unfused e.
Proof.
  induction e as [make items p IH|make inner p IH|k p Hk] using syntax_rect; cbn; [| |by destruct k].
  - by apply forallb_map_Forall.
  - rewrite IH. f_equal. f_equal. destruct inner as [k q]. by destruct k.
Qed.

(** Forms read from a source print as text that reads back. *)
Lemma read_printable `{Unicode, FloatText} e1 src name F1 F2 fs :
  read_syntax_under src name (for_epoch e1) F1 = Ok (fs, F2) -> Forall (fun e => unfused e = true) fs ->
  Forall (fun e => forall f, Float f ∈ tree_tokens e -> float_reads f) fs -> Forall printable fs.
Proof.
  intros Hr Hu Hfl. destruct (read_syntax_sound _ _ _ _ _ _ Hr) as (ts & Ht & Hf).
  destruct (tiling_bounds _ _ _ _ _ Ht) as (_ & _ & Hlex). destruct (forms_tokens ts 0 fs Hf ltac:(lia)) as [Htk Hsh].
  apply forallb_Forall in Hsh. rewrite Forall_forall in Hsh, Hu, Hfl |- *. intros e He.
  split; [by apply Hsh|]. split; [by apply Hu|]. apply Forall_forall. intros t Hte.
  assert (t ∈ live_tokens ts) as Hlt.
  { rewrite <- live_all, Htk. apply list_elem_of_In, in_concat. exists (tree_tokens e). split; [by apply in_map, list_elem_of_In | by apply list_elem_of_In]. }
  unfold live_tokens in Hlt. apply list_elem_of_filter in Hlt as [_ Hlt]. apply list_elem_of_fmap in Hlt as (tw & -> & Htw).
  destruct (Hlex _ Htw) as [s Hs]. apply (lexeme_reads_back e1 CURRENT_EPOCH _ s Hs). intros f Hf'. apply (Hfl e He). by rewrite <- Hf'.
Qed.

Section Walk.
Context `{HU : Unicode, HF : FloatText, HO : HashOrder} (debug_syntax : Syntax -> Text).
Abbreviation show := (SynPrint.show debug_syntax).

Lemma show_respan sp e : shaped e = true -> show (respan sp e) = show e.
Proof.
  induction e as [make items p IH|make inner p IH|k p Hk] using syntax_rect; intros Hs; [| |by destruct k].
  - apply shaped_items in Hs. cbn. f_equal. rewrite map_map. apply map_Forall_eq. rewrite Forall_forall in *. auto.
  - cbn in Hs. apply andb_true_iff in Hs as [Hm Hs]. destruct make; cbn; try (by rewrite IH). done.
Qed.

(** ** Good trees *)

(** The trees a rewrite may be given. *)
Definition good (e : Syntax) : Prop := printable e /\ clean (show e).

Lemma good_set_span sp e : good e -> good (set_span_recursive sp e) /\ size (set_span_recursive sp e) = size e.
Proof.
  intros ((Hs & Hu & Hat) & Hc). rewrite set_span_respan by done. split; [|apply size_respan]. split; [|by rewrite show_respan].
  split; [|split].
  - by rewrite <- shaped_erase, erase_respan, shaped_erase.
  - by rewrite unfused_respan.
  - by rewrite tree_tokens_respan.
Qed.

Lemma good_respan k sp sp' : good (mkSyntax k sp) -> good (mkSyntax k sp').
Proof. done. Qed.

Lemma clean_delimited open items close : clean (delimited open items close) <-> clean open /\ Forall clean items /\ clean close.
Proof.
  unfold delimited. rewrite !clean_app. destruct items as [|t ts].
  - split; intros (H1 & H2 & H3); repeat split; auto. by intros ?%elem_of_nil.
  - rewrite clean_app, clean_concat, Forall_cons, Forall_fmap.
    assert (Forall (clean ∘ cons SPACE) ts <-> Forall clean ts) as ->; [|tauto].
    apply Forall_iff. intros u. unfold clean. cbn. set_unfold. split; [tauto|]. intros Hu [Hd | Hd]; [discriminate Hd|tauto].
Qed.

Lemma good_seq make items sp : good (mkSyntax (SK_Seq make items) sp) <->
  Forall good items /\ (set_like make = true -> Forall (fun e => is_set e = false) items).
Proof.
  unfold good. rewrite printable_seq. cbn. rewrite clean_delimited, Forall_fmap.
  assert (clean (open_text make) /\ clean (close_text make)) by (split; destruct make; solve_clean).
  pose proof (Forall_and printable (Q := fun e => clean (show e)) items) as Hand. unfold compose. tauto.
Qed.

Lemma good_list_form items sp : good (mkSyntax (SK_Seq SK_List items) sp) <-> Forall good items.
Proof. rewrite good_seq. split; [by intros [H1 _]|]. intros H1. by split. Qed.

Lemma good_children k sp e : good (mkSyntax k sp) -> e ∈ children k -> good e.
Proof.
  intros Hg. destruct k as [| | | | | | | |make items|make inner]; cbn; try (by intros ?%elem_of_nil).
  - apply good_seq in Hg as [Hg _]. rewrite Forall_forall in Hg. auto.
  - destruct Hg as ((Hs & Hu & Hat) & Hc). cbn in Hs, Hu, Hat. apply andb_true_iff in Hs as [Hm Hs], Hu as [Hu _].
    apply Forall_app in Hat as [_ Hat].
    assert (clean (show inner) -> good inner) as Hgo by (intros Hp; split; [by repeat split|done]).
    destruct make; cbn in Hc |- *; try (intros ->%list_elem_of_singleton); [| | | | |done];
      apply Hgo; apply not_elem_of_cons in Hc as [_ Hc]; try done. by apply not_elem_of_cons in Hc as [_ Hc].
Qed.

Lemma good_symbol s sp : symbol_token current_lexicon s -> clean s -> good (mkSyntax (SK_Symbol s) sp).
Proof. intros Hs Hc. split; [|done]. split; [done|]. split; [done|]. by repeat constructor. Qed.

Lemma good_begin sp body : Forall good body -> good (begin_form sp body).
Proof.
  intros Hb. apply good_list_form. constructor; [|done]. apply good_symbol; [|solve_clean].
  cbn. repeat split; try done. set_solver.
Qed.

Lemma size_begin sp body : size (begin_form sp body) = S (S (sum_list_with size body)).
Proof. done. Qed.

(** ** Flattening *)

(** A good tree below a size. *)
Definition below (N : nat) (e : Syntax) : Prop := good e /\ (size e < N)%nat.

Lemma below_seq N make items sp : below N (mkSyntax (SK_Seq make items) sp) ->
  Forall good items /\ (S (sum_list_with size items) < N)%nat.
Proof. intros [Hg Hs]. apply good_seq in Hg as [Hg _]. by split. Qed.

Lemma as_list_or_tuple_below N e parts : below N e -> as_list_or_tuple e = Some parts ->
  Forall good parts /\ (S (sum_list_with size parts) < N)%nat.
Proof.
  destruct e as [k sp]. destruct k as [| | | | | | | |make items|]; try done. cbn. intros Hb Hp.
  apply below_seq in Hb. by destruct make; try done; injection Hp as <-.
Qed.

Lemma below_all N es : Forall good es -> (sum_list_with size es < N)%nat -> Forall (below N) es.
Proof.
  intros Hg Hs. rewrite Forall_forall in *. intros e He. split; [auto|]. apply size_in in He. lia.
Qed.

Lemma flatten_clause_below N clause : below N clause -> Forall (below N) (flatten_clause clause).1.
Proof.
  intros Hb. unfold flatten_clause. destruct (as_list_or_tuple clause) as [parts|] eqn:Hp; [|each].
  destruct (as_list_or_tuple_below _ _ _ Hb Hp) as [Hg Hs]. destruct parts as [|p0 ps]; [each|].
  apply Forall_cons in Hg as [Hg0 Hg]. pose proof (size_pos p0) as Hp0. cbn in Hs.
  assert (below N (begin_form (syn_span clause) ps)) as Hbg.
  { split; [by apply good_begin|]. rewrite size_begin. lia. }
  assert (Forall (below N) (p0 :: ps)) as Hall by (apply below_all; [by constructor|cbn; lia]).
  pose proof (Forall_inv Hall) as Hh. pose proof (Forall_inv_tail Hall) as Ht.
  destruct (is_symbol p0 (text "else")); [destruct ps as [|b [|]]; cbn; try done; each|].
  destruct ps as [|p1 [|p2 ps]]; cbn; [each|done|].
  destruct (is_symbol p1 (text "when")); cbn; [exact Hall|each].
Qed.

Lemma flatten_clauses_below rules N items new : flatten_clauses_of rules items = Some new ->
  Forall (below N) items -> Forall (below N) new.
Proof.
  unfold flatten_clauses_of. intros Hf Hb. destruct (head_symbol items) as [head|]; [|done]. cbn in Hf.
  destruct (list_find _ _) as [[i [s skip]]|]; [|done]. cbn in Hf. case_match; [|done].
  destruct (existsb _ _); [|done]. injection Hf as <-. apply Forall_app. split; [by apply Forall_take|].
  rewrite Forall_concat_map, Forall_fmap. apply (Forall_drop _ (1 + skip)) in Hb. eapply Forall_impl; [exact Hb|].
  intros c Hc. by apply flatten_clause_below.
Qed.

Lemma flatten_bindings_below rules N items new : flatten_bindings_of rules items = Some new ->
  Forall (below N) items -> Forall (below N) new.
Proof.
  unfold flatten_bindings_of. intros Hf Hb. destruct (head_symbol items) as [head|]; [|done]. cbn in Hf.
  destruct (bool_decide _); [|done]. destruct items as [|h [|[k sp] body]]; try done.
  destruct k as [| | | | | | | |make bindings|]; try done. destruct (bool_decide (make = SK_Array \/ make = SK_List)) eqn:Hm; [|done].
  destruct (negb (is_nil bindings) && forallb is_pair bindings) eqn:Hp; cbn [andb] in Hf; rewrite Hp in Hf; [|done].
  injection Hf as <-. apply Forall_cons in Hb as [Hh Hb]. apply Forall_cons in Hb as [Hl Hb]. constructor; [done|]. constructor; [|done].
  apply below_seq in Hl as [Hg Hs]. split.
  - apply good_seq. apply bool_decide_eq_true in Hm. split; [|by destruct Hm as [-> | ->]].
    apply Forall_concat_map. eapply Forall_impl; [exact Hg|]. intros [k p] Hk. apply Forall_forall. intros e He. by apply (good_children k p).
  - eapply Nat.le_lt_trans; [|exact Hs]. cbn. apply le_n_S. clear. induction bindings as [|[k p] bs IH]; [done|].
    cbn [map concat sum_list_with syn_kind]. rewrite sum_list_with_app.
    enough (sum_list_with size (children k) <= size (mkSyntax k p))%nat by lia.
    destruct k as [| | | | | | | |make items|make inner]; cbn; try lia. destruct make; cbn; lia.
Qed.

Lemma flatten_node_below rules N k : Forall (below N) (children k) -> Forall (below N) (children (flatten_node rules k).1).
Proof.
  intros Hb. destruct k as [| | | | | | | |make items|]; try done. destruct make; try done. cbn in *.
  destruct (flatten_clauses_of rules items) as [new|] eqn:H1.
  - pose proof (flatten_clauses_below _ _ _ _ H1 Hb) as Hb'. destruct (flatten_bindings_of rules new) as [new'|] eqn:H2; cbn; [|done].
    by apply (flatten_bindings_below _ _ _ _ H2).
  - destruct (flatten_bindings_of rules items) as [new'|] eqn:H2; cbn; [|done]. by apply (flatten_bindings_below _ _ _ _ H2).
Qed.

(** ** Walks that end *)

(** Enough fuel gives an answer or an error. *)
Definition settles (rules : Rules) (e : Syntax) : Prop :=
  exists n, forall m, (n <= m)%nat -> forall F, yields (rewrite_node debug_syntax m rules e F) (fun _ => True).

Lemma all_settle rules items : Forall (settles rules) items -> exists n, forall m, (n <= m)%nat -> forall F,
  yields (rewrite_all (rewrite_node debug_syntax m rules) items F) (fun _ => True).
Proof.
  induction 1 as [|e es [n1 H1] _ [n2 H2]]; [by exists 0%nat|]. exists (Nat.max n1 n2). intros m Hm F. cbn.
  apply (yields_bind _ _ (fun _ => True)); [apply H1; lia|]. intros [[e' c] F1] _.
  apply (yields_bind _ _ (fun _ => True)); [apply H2; lia|]. by intros [[es' c'] F2] _.
Qed.

Lemma written_yields w value span F : yields (written_node debug_syntax w value span F) (fun _ => True).
Proof. destruct w as [[]|]; cbn; try done. apply instantiate_yields. Qed.

Lemma to_seconds_yields s place F : yields (to_seconds debug_syntax s place F) (fun _ => True).
Proof.
  unfold to_seconds. destruct (as_list s) as [items|]; [|done]. destruct place as [|arity neg].
  - destruct (list_find _ _) as [[i x]|]; [|done]. destruct (items !! _) as [v|]; [|done]. destruct (Seconds_of _ _) as [| |w]; [done|done|].
    apply (yields_bind _ _ (fun _ => True)); [apply written_yields|]. by intros [new F1] _.
  - destruct (Nat.eqb_spec (length items) (arity + 1)) as [Hl|]; [|done]. cbn [negb].
    destruct (last items) as [v|] eqn:Hv; [|apply last_None in Hv; subst items; cbn in Hl; lia].
    destruct (Seconds_of _ _) as [| |w]; [done|done|].
    apply (yields_bind _ _ (fun _ => True)); [apply written_yields|]. by intros [new F1] _.
Qed.

Lemma plain_yields rules k sp : Forall (settles rules) (children k) -> exists n, forall m, (n <= m)%nat -> forall count F,
  yields (rewrite_plain debug_syntax (rewrite_node debug_syntax m rules) rules (mkSyntax k sp) count F) (fun _ => True).
Proof.
  intros [n Hn]%all_settle. exists n. intros m Hm count F. unfold rewrite_plain.
  apply (yields_bind _ _ (fun _ => True)).
  - assert (forall (k' : SyntaxKind), yields (rewrite_all (rewrite_node debug_syntax m rules) (children k) F ≫= fun '(items, m, F) =>
      Ok (mkSyntax (with_children k' items) sp, (count + m)%nat, F)) (fun _ => True)) as Hgo.
    { intros k'. apply (yields_bind _ _ (fun _ => True)); [by apply Hn|]. by intros [[items c] F1] _. }
    destruct k as [| | | |s| | | |make items|make inner]; try apply Hgo; [|by destruct make; try apply Hgo].
    destruct (table_get (ru_removals rules) s); [done|]. by destruct (table_get (ru_renames rules) s).
  - intros [[s c] F1] _. destruct (_ ≫= _) as [place|]; [|done].
    apply (yields_bind _ _ (fun _ => True)); [apply to_seconds_yields|]. by intros [[s' c'] F2] _.
Qed.

(** ** Forms no rule matches *)

Definition heads (rules : Rules) : list Text :=
  (ru_unwraps rules).*1 ++ (ru_flatten_clauses rules).*1 ++ ru_flattens rules ++ map (fun r => r.1.1) (ru_replaces rules).

Lemma table_get_None {A} (t : list (Text * A)) k : k ∉ t.*1 -> table_get t k = None.
Proof.
  induction t as [|[k' v] t IH]; [done|]. cbn. intros [H1 H2]%not_elem_of_cons. destruct (decide (k' = k)); [congruence|auto].
Qed.

Lemma list_find_key_None {A B} `{EqDecision B} (f : A -> B) (l : list A) k : k ∉ f <$> l -> list_find (fun x => f x = k) l = None.
Proof.
  intros Hk. apply list_find_None, Forall_forall. intros x Hx <-. apply Hk. by apply list_elem_of_fmap_2.
Qed.

Definition unmatched (rules : Rules) (k : SyntaxKind) : Prop :=
  forall items h, k = SK_Seq SK_List items -> head_symbol items = Some h -> h ∉ heads rules.

Lemma unmatched_step rules k sp m F : unmatched rules k ->
  rewrite_node debug_syntax (S m) rules (mkSyntax k sp) F
  = rewrite_plain debug_syntax (rewrite_node debug_syntax m rules) rules (mkSyntax k sp) 0 F.
Proof.
  intros Hu. cbn [rewrite_node syn_kind syn_span].
  assert (flatten_node rules k = (k, 0%nat) /\ (head_symbol (default [] (as_list (mkSyntax k sp))) ≫= fun head =>
    message ← table_get (ru_unwraps rules) head; Some (head, message)) = None
    /\ replace_rule rules (default [] (as_list (mkSyntax k sp))) = None) as (Hx1 & Hx2 & Hx3);
    [|rewrite Hx1; cbv beta iota zeta; rewrite Hx2, Hx3; reflexivity].
  destruct k as [| | | | | | | |make items|]; try done. destruct make; try done. cbn [flatten_node as_list syn_kind default].
  assert (flatten_clauses_of rules items = None /\ flatten_bindings_of rules items = None /\ (head_symbol items ≫= fun head =>
    message ← table_get (ru_unwraps rules) head; Some (head, message)) = None /\ replace_rule rules items = None) as (-> & Hx & H3 & H4);
    [|by rewrite Hx].
  unfold flatten_clauses_of, flatten_bindings_of, replace_rule. destruct (head_symbol items) as [h|] eqn:Hh; [|done]. cbn [mbind option_bind].
  specialize (Hu items h eq_refl Hh). unfold heads in Hu. rewrite !not_elem_of_app in Hu. destruct Hu as (H1 & H2 & H3 & H4).
  rewrite (list_find_key_None fst _ h H2), bool_decide_false, table_get_None by done. split; [done|]. split; [done|]. split; [done|].
  destruct (list_find _ (ru_replaces rules)) as [[i [[s n] t]]|] eqn:Hf; [|done]. exfalso. apply list_find_Some in Hf as (Hl & [= -> _] & _).
  apply H4. apply list_elem_of_lookup_2 in Hl. by apply (list_elem_of_fmap_2 (fun r => r.1.1)) in Hl.
Qed.

Lemma settles_unmatched rules k sp : unmatched rules k -> Forall (settles rules) (children k) -> settles rules (mkSyntax k sp).
Proof.
  intros Hu [n Hn]%(plain_yields rules k sp). exists (S n). intros m Hm F. destruct m as [|m]; [lia|].
  rewrite unmatched_step by done. apply Hn. lia.
Qed.

(** ** Templates, once filled *)

(** No form of a template matches a rule; a call of an argument stands alone. *)
Fixpoint inert (rules : Rules) (n : nat) (e : Syntax) : bool :=
  let '(mkSyntax k _) := e in
  match k with
  | SK_Seq make items =>
    forallb (inert rules n) items &&
    match make, items with
    | SK_List, [mkSyntax (SK_Symbol h) _] =>
      match hole_of n h with Some (at_, _) => negb at_ | None => bool_decide (h ∉ heads rules) end
    | SK_List, mkSyntax (SK_Symbol h) _ :: _ => bool_decide (hole_of n h = None) && bool_decide (h ∉ heads rules)
    | SK_List, _ => false
    | _, _ => true
    end
  | SK_Wrap _ _ => false
  | _ => true
  end.

Section Filled.
Variables (rules : Rules) (args : list Syntax) (sp : Span) (N : nat).
Hypothesis Hargs : Forall (below N) args.
Hypothesis Hbelow : forall e, below N e -> settles rules e.
Hypothesis Hsingle : forall e, below N e -> settles rules (mkSyntax (SK_Seq SK_List [e]) sp).

Lemma argument_below j a : args !! j = Some a -> below N (set_span_recursive sp a).
Proof.
  intros Hj. rewrite Forall_lookup in Hargs. destruct (Hargs j a Hj) as [Hg Hs].
  destruct (good_set_span sp a Hg) as [Hg' Hs']. split; [done|]. by rewrite Hs'.
Qed.

Lemma at_argument_below j a : args !! j = Some a -> at_ready debug_syntax a = true ->
  below N (set_span_recursive sp (at_node debug_syntax a)).
Proof.
  intros Hj Hr. rewrite Forall_lookup in Hargs. destruct (Hargs j a Hj) as [[Hp Hc] Hs].
  destruct (at_node_printable debug_syntax a Hp Hr) as [Hp' _].
  assert (good (at_node debug_syntax a)) as Hg.
  { split; [done|]. rewrite show_at_node by done. apply (clean_app [AT]). split; [solve_clean|done]. }
  destruct (good_set_span sp _ Hg) as [Hg' Hs']. split; [done|]. rewrite Hs'. eapply Nat.le_lt_trans; [|exact Hs].
  destruct a as [k p]. destruct k as [| | | | | | | |[] items|]; cbn; lia.
Qed.

Lemma filled_settles e : inert rules (length args) e = true -> fits debug_syntax args e = true ->
  settles rules (set_span_recursive sp (fill debug_syntax 0 args e)).
Proof.
  induction e as [make items p IH|make inner p IH|k p Hk] using syntax_rect; intros Hi Hf; [|done|].
  - cbn in Hi, Hf. apply andb_true_iff in Hi as [Hi Hm], Hf as [Hf _]. apply forallb_Forall in Hi, Hf.
    assert (Forall (settles rules) (map (set_span_recursive sp) (map (fill debug_syntax 0 args) items))) as Hall.
    { rewrite map_map, Forall_fmap. rewrite Forall_forall in IH, Hi, Hf |- *. intros e He. by apply IH; [|apply Hi|apply Hf]. }
    cbn [fill set_span_recursive]. destruct (decide (make = SK_List)) as [->|Hne].
    2:{ apply settles_unmatched; [|done]. intros its h [= -> _]. done. }
    destruct items as [|[[| | | |h| | | | |] q] rest]; try done.
    destruct (hole_of (length args) h) as [[at_ j]|] eqn:Hh.
    + destruct rest as [|? ?]; [|done]. cbn in Hm. destruct at_; [done|]. cbn. rewrite Hh. cbn.
      apply Forall_inv in Hf. cbn in Hf. rewrite Hh in Hf. destruct (args !! j) as [a|] eqn:Hj; [|done].
      apply Hsingle. by apply (argument_below j).
    + apply settles_unmatched; [|done]. intros its h' [= <-]. cbn. rewrite Hh. cbn. intros [= <-].
      destruct rest; cbn in Hm; by apply bool_decide_eq_true in Hm.
  - destruct k as [| | | |s| | | | |]; try done; try (apply settles_unmatched; [intros its h [=]|by apply Forall_nil_2]).
    cbn in Hf |- *. destruct (hole_of (length args) s) as [[at_ j]|] eqn:Hh.
    + cbn. destruct (args !! j) as [a|] eqn:Hj; [|done]. destruct at_; cbn in Hf; apply Hbelow; [by apply (at_argument_below j)|by apply (argument_below j)].
    + apply settles_unmatched; [intros its h [=]|by apply Forall_nil_2].
Qed.

(** The elements of a filled template. *)
Lemma filled_elements e : forallb (inert rules (length args)) (children (syn_kind e)) = true -> fits debug_syntax args e = true ->
  (exists items, as_list e = Some items) ->
  Forall (settles rules) (children (syn_kind (set_span_recursive sp (fill debug_syntax 0 args e)))).
Proof.
  intros Hi Hf [items Hit]. destruct e as [k p]. destruct k as [| | | | | | | |[] its|]; try done. injection Hit as ->.
  cbn in *. apply andb_true_iff in Hf as [Hf _]. apply forallb_Forall in Hi, Hf. rewrite map_map, Forall_fmap.
  rewrite Forall_forall in Hi, Hf |- *. intros e He. apply filled_settles; auto.
Qed.
End Filled.

(** ** Every rewrite ends *)

(** What the proof needs of the replacement rules of a range. *)
Definition checked_rule (rules : Rules) (r : Text * nat * Text) : Prop :=
  let '(_, n, template) := r in
  template_tree debug_syntax n template (tree_of template)
  /\ forallb (inert rules n) (children (syn_kind (tree_of template))) = true
  /\ (at_holes n (tree_of template) = [] \/ template = VAR_TEMPLATE /\ n = 2%nat).

Lemma calls_safely_list n e : calls_safely n e = true -> exists items, as_list e = Some items.
Proof. unfold calls_safely. destruct (as_list e) as [items|]; [by exists items|done]. Qed.

(** A template's instance is refused, or its elements settle. *)
Lemma instance_settles rules args sp N s n template : checked_rule rules (s, n, template) -> length args = n -> Forall (below N) args ->
  (forall e, below N e -> settles rules e) -> (forall e, below N e -> settles rules (mkSyntax (SK_Seq SK_List [e]) sp)) ->
  (forall F, exists e, instantiate_template debug_syntax template args sp F = Err e)
  \/ exists new, Forall (settles rules) (children (syn_kind new))
     /\ forall F, exists F', instantiate_template debug_syntax template args sp F = Ok (new, F').
Proof.
  intros (Ht & Hi & Hat) Hn Ha Hb Hs.
  assert (Forall printable args /\ Forall (fun a => clean (show a)) args) as [Hp Hc].
  { split; eapply Forall_impl; try exact Ha; by intros a [[H1 H2] _]. }
  assert (all_ready debug_syntax args (tree_of template) -> exists new, Forall (settles rules) (children (syn_kind new))
    /\ forall F, exists F', instantiate_template debug_syntax template args sp F = Ok (new, F')) as Hgo.
  { intros Hr. exists (set_span_recursive sp (fill debug_syntax 0 args (tree_of template))). split.
    - pose proof Ht as (_ & _ & Hsk & Hcs & _). subst n. apply (filled_elements rules args sp N); try done.
      + by apply skeleton_fits.
      + by apply (calls_safely_list (length args)).
    - intros F. by apply (template_tree_fills debug_syntax n). }
  destruct Hat as [Hat | [-> ->]].
  - right. apply Hgo. unfold all_ready. rewrite Hn, Hat. by apply Forall_nil_2.
  - destruct args as [|a [|b [|]]]; try done. rewrite !Forall_cons in Hp, Hc. destruct Hp as (Hpa & Hpb & _), Hc as (Hca & Hcb & _).
    destruct (at_ready debug_syntax a) eqn:Hr; [right; apply Hgo|left; intros F; by apply unready_refused].
    unfold all_ready. change (at_holes _ _) with [0%nat]. apply Forall_cons_2; [|by apply Forall_nil_2]. intros x [= <-]. done.
Qed.

Lemma replace_rule_Some rules items template : replace_rule rules items = Some template -> exists s,
  (s, length (drop 1 items), template) ∈ ru_replaces rules.
Proof.
  unfold replace_rule. destruct (head_symbol items) as [h|] eqn:Hh; [|done]. cbn [mbind option_bind].
  destruct (list_find _ _) as [[i [[s n] t]]|] eqn:Hf; [|done]. cbn. intros [= ->]. apply list_find_Some in Hf as (Hl & [= -> ->] & _).
  exists h. apply list_elem_of_lookup_2 in Hl. by rewrite length_drop.
Qed.

(** The part of a rewrite after flattening and unwrapping. *)
Lemma replaced_or_plain rules k sp N : Forall (checked_rule rules) (ru_replaces rules) -> Forall (below N) (children k) ->
  (forall e, below N e -> settles rules e) -> (forall e, below N e -> settles rules (mkSyntax (SK_Seq SK_List [e]) sp)) ->
  let items := default [] (as_list (mkSyntax k sp)) in
  exists n, forall m, (n <= m)%nat -> forall count F, yields
    match replace_rule rules items with
    | Some template =>
      '(new, F) ← instantiate_template debug_syntax template (drop 1 items) sp F;
      '(items, c, F) ← rewrite_all (rewrite_node debug_syntax m rules) (children (syn_kind new)) F;
      Ok (mkSyntax (with_children (syn_kind new) items) sp, (S count + c)%nat, F)
    | None => rewrite_plain debug_syntax (rewrite_node debug_syntax m rules) rules (mkSyntax k sp) count F
    end (fun _ => True).
Proof.
  intros Hch Hk Hb Hs. cbv zeta. destruct (replace_rule _ _) as [template|] eqn:Hr.
  - destruct (replace_rule_Some _ _ _ Hr) as [s Hin]. rewrite Forall_forall in Hch. specialize (Hch _ Hin).
    assert (Forall (below N) (drop 1 (default [] (as_list (mkSyntax k sp))))) as Ha.
    { apply Forall_drop. destruct k as [| | | | | | | |[] items|]; try (by apply Forall_nil_2). done. }
    destruct (instance_settles rules _ sp N _ _ _ Hch eq_refl Ha Hb Hs) as [Herr | (new & Hnew & Hok)].
    + exists 0%nat. intros m _ count F. destruct (Herr F) as [e ->]. done.
    + apply all_settle in Hnew as [n Hn]. exists n. intros m Hm count F. destruct (Hok F) as [F' ->]. cbn [mbind Out_bind].
      apply (yields_bind _ _ (fun _ => True)); [by apply Hn|]. by intros [[its c] F2] _.
  - apply plain_yields. eapply Forall_impl; [exact Hk|]. done.
Qed.

(** A call without arguments. *)
Lemma single_settles rules e sp : Forall (checked_rule rules) (ru_replaces rules) -> settles rules e ->
  settles rules (mkSyntax (SK_Seq SK_List [e]) sp).
Proof.
  intros Hch He. assert (flatten_node rules (SK_Seq SK_List [e]) = (SK_Seq SK_List [e], 0%nat)) as Hfl.
  { cbn [flatten_node]. assert (flatten_clauses_of rules [e] = None) as ->.
    { unfold flatten_clauses_of. destruct (head_symbol [e]); [|done]. cbn [mbind option_bind]. by destruct (list_find _ _) as [[? [? ?]]|]. }
    assert (flatten_bindings_of rules [e] = None) as ->; [|done].
    unfold flatten_bindings_of. destruct (head_symbol [e]); [|done]. cbn [mbind option_bind]. by case_bool_decide. }
  assert (exists n, forall m, (n <= m)%nat -> forall F, yields
    match replace_rule rules [e] with
    | Some template =>
      '(new, F) ← instantiate_template debug_syntax template [] sp F;
      '(items, c, F) ← rewrite_all (rewrite_node debug_syntax m rules) (children (syn_kind new)) F;
      Ok (mkSyntax (with_children (syn_kind new) items) sp, (1 + c)%nat, F)
    | None => rewrite_plain debug_syntax (rewrite_node debug_syntax m rules) rules (mkSyntax (SK_Seq SK_List [e]) sp) 0 F
    end (fun _ => True)) as [n Hn].
  { destruct (replace_rule rules [e]) as [template|] eqn:Hr.
    - destruct (replace_rule_Some _ _ _ Hr) as [s Hin]. rewrite Forall_forall in Hch. specialize (Hch _ Hin).
      assert (forall e, ~ below 0 e) as Hno by (intros ? [_ ?]; lia).
      destruct (instance_settles rules [] sp 0 _ _ _ Hch eq_refl ltac:(by apply Forall_nil_2)) as [Herr | (new & Hnew & Hok)];
        [by intros x ?%Hno|by intros x ?%Hno|exists 0%nat; intros m _ F; by destruct (Herr F) as [x ->]|].
      apply all_settle in Hnew as [n Hn]. exists n. intros m Hm F. destruct (Hok F) as [F' ->]. cbn [mbind Out_bind].
      apply (yields_bind _ _ (fun _ => True)); [by apply Hn|]. by intros [[its c] F2] _.
    - destruct (plain_yields rules (SK_Seq SK_List [e]) sp) as [n Hn]; [cbn; by each|]. exists n. auto. }
  exists (S n). intros m Hm F. destruct m as [|m]; [lia|]. cbn [rewrite_node syn_kind syn_span]. rewrite Hfl.
  cbv beta iota zeta. cbn [as_list syn_kind default drop]. destruct (_ ≫= _) as [[h msg]|]; [done|]. apply Hn. lia.
Qed.

(** The body an unwrapped thunk leaves in its place. *)
Lemma unwrapped_below N k sp lambda body : lambda ∈ children k -> Forall (below N) (children k) -> thunk_body lambda = Some body ->
  below N (mkSyntax match body with [b] => syn_kind b | _ => syn_kind (begin_form sp body) end sp).
Proof.
  intros Hin Hk Hth. rewrite Forall_forall in Hk. specialize (Hk _ Hin) as Hl. destruct lambda as [kl pl].
  unfold thunk_body in Hth. destruct kl as [| | | | | | | |[] its|]; try done. cbn in Hth. destruct its as [|f [|ps its]]; try done.
  destruct (_ && _); [|done]. injection Hth as ->. apply below_seq in Hl as [Hg Hs]. rewrite !Forall_cons in Hg. destruct Hg as (_ & _ & Hg).
  cbn in Hs. pose proof (size_pos f). pose proof (size_pos ps).
  assert (below N (mkSyntax (syn_kind (begin_form sp body)) sp)) as Hbg.
  { split; [by apply (good_begin sp)|]. change (mkSyntax _ sp) with (begin_form sp body). rewrite size_begin. lia. }
  destruct body as [|b [|]]; [done| |done]. apply Forall_inv in Hg as Hgb. destruct b as [kb pb]. split; [exact Hgb|]. cbn in Hs |- *. lia.
Qed.

(** The unwrapping of a call. *)
Lemma unwrap_yields rules k sp N (err : MigrateError) count : Forall (below N) (children k) ->
  (forall e, below N e -> settles rules e) ->
  exists n, forall m, (n <= m)%nat -> forall F, yields
    match default [] (as_list (mkSyntax k sp)) with
    | [_; lambda] =>
      match thunk_body lambda with
      | Some body =>
        '(s, c, F) ← rewrite_node debug_syntax m rules
          (mkSyntax match body with [b] => syn_kind b | _ => syn_kind (begin_form sp body) end sp) F;
        Ok (s, (S count + c)%nat, F)
      | None => Err err
      end
    | _ => Err err
    end (fun _ => True).
Proof.
  intros Hk Hb. destruct (default [] _) as [|x [|lambda [|]]] eqn:Hit; try (by exists 0%nat).
  destruct (thunk_body lambda) as [body|] eqn:Hth; [|by exists 0%nat].
  assert (lambda ∈ children k) as Hin.
  { destruct k as [| | | | | | | |[] its|]; try done. cbn in Hit |- *. subst its. set_solver. }
  destruct (Hb _ (unwrapped_below N k sp lambda body Hin Hk Hth)) as [n Hn]. exists n. intros m Hm F.
  apply (yields_bind _ _ (fun _ => True)); [by apply Hn|]. by intros [[s c] F1] _.
Qed.

Lemma good_settles rules e : Forall (checked_rule rules) (ru_replaces rules) -> good e -> settles rules e.
Proof.
  intros Hch. induction e as [e IH] using (induction_ltof1 _ size). unfold ltof in IH. intros Hg. destruct e as [k sp].
  set (N := size (mkSyntax k sp)) in *.
  assert (forall e, below N e -> settles rules e) as Hb by (intros x [Hx Hsz]; by apply IH).
  assert (Forall (below N) (children k)) as Hk.
  { apply Forall_forall. intros x Hx. split; [by apply (good_children k sp)|by apply size_children]. }
  apply (flatten_node_below rules) in Hk. destruct (flatten_node rules k) as [k' count] eqn:Hfl. cbn in Hk.
  destruct (replaced_or_plain rules k' sp N Hch Hk Hb) as [n Hn]; [intros x Hx; apply single_settles; auto|]. cbv zeta in Hn.
  destruct (head_symbol (default [] (as_list (mkSyntax k' sp))) ≫= fun head =>
    message ← table_get (ru_unwraps rules) head; Some (head, message)) as [[head message]|] eqn:Hun.
  - destruct (unwrap_yields rules k' sp N (ME_Unwrap sp head message) count Hk Hb) as [n1 H1].
    exists (S n1). intros m Hm F. destruct m as [|m]; [lia|].
    cbn [rewrite_node syn_kind syn_span]. rewrite Hfl. cbv beta iota zeta. rewrite Hun. apply H1. lia.
  - exists (S n). intros m Hm F. destruct m as [|m]; [lia|].
    cbn [rewrite_node syn_kind syn_span]. rewrite Hfl. cbv beta iota zeta. rewrite Hun. apply Hn. lia.
Qed.

(** ** The registered rules *)

Definition range_check (from : N) : bool :=
  forallb (fun '(_, n, template) => forallb (inert (Rules_for_range from CURRENT_EPOCH) n) (children (syn_kind (tree_of template)))
    && (is_nil (at_holes n (tree_of template)) || bool_decide (template = VAR_TEMPLATE /\ n = 2%nat)))
    (replace_rules_in_range from CURRENT_EPOCH).

Definition old_epochs : list N := [0; 1; 2; 3; 4; 5; 6; 7; 8; 9; 10; 11; 12; 13; 14].

Lemma ranges_check : forallb range_check old_epochs = true.
Proof. vm_compute. reflexivity. Qed.

Lemma old_epoch from : from < CURRENT_EPOCH -> from ∈ old_epochs.
Proof.
  intros Hf. unfold CURRENT_EPOCH in Hf. assert (from = N.of_nat (N.to_nat from)) as -> by lia.
  assert (N.to_nat from < 15)%nat as Hn by lia. revert Hn. generalize (N.to_nat from). intros n Hn.
  do 15 (destruct n as [|n]; [by apply (bool_decide_eq_true_1 (_ ∈ old_epochs))|]). lia.
Qed.

Lemma range_checked from : from < CURRENT_EPOCH ->
  Forall (checked_rule (Rules_for_range from CURRENT_EPOCH)) (ru_replaces (Rules_for_range from CURRENT_EPOCH)).
Proof.
  intros Hf%old_epoch. pose proof ranges_check as Hc. rewrite forallb_forall in Hc.
  specialize (Hc from (proj1 (list_elem_of_In _ _) Hf)). unfold range_check in Hc. rewrite forallb_forall in Hc.
  apply Forall_forall. intros [[s n] template] Hin. specialize (Hc _ (proj1 (list_elem_of_In _ _) Hin)). cbv beta iota in Hc.
  apply andb_true_iff in Hc as [Hi Ha]. pose proof (registered_templates debug_syntax) as Hreg. rewrite Forall_forall in Hreg.
  split; [by apply (Hreg (s, n, template)), (replace_rules_registered from CURRENT_EPOCH)|]. split; [done|].
  apply orb_true_iff in Ha as [Ha | Ha]; [left; by destruct (at_holes _ _)|right; by apply bool_decide_eq_true in Ha].
Qed.

(** C14: the migration of a file ends.  For forms read from any source of any epoch,
    with no dollar sign in their text, no unquoted splice and no double that
    does not print as a float literal, the rewrite from any epoch to the
    current one, given enough fuel, answers the migrated forms or an error: it
    neither runs on nor panics. *)
Theorem migration_ends (e1 from : N) (src : Text) (name : list N) (F1 F2 : Files) (fs : list Syntax) :
  read_syntax_under src name (for_epoch e1) F1 = Ok (fs, F2) ->
  Forall (fun e => DOLLAR ∉ show e) fs -> Forall (fun e => unfused e = true) fs ->
  Forall (fun e => forall f, Float f ∈ tree_tokens e -> float_reads f) fs ->
  exists n, forall m F, (n <= m)%nat -> (exists fs' c F', migrate_forms debug_syntax m fs from F = Ok (fs', c, F'))
    \/ exists e, migrate_forms debug_syntax m fs from F = Err e.
Proof.
  intros Hr Hd Hu Hfl.
  assert (exists n, forall m, (n <= m)%nat -> forall F, yields (migrate_forms debug_syntax m fs from F) (fun _ => True)) as [n Hn].
  2:{ exists n. intros m F Hm. specialize (Hn m Hm F). destruct (migrate_forms _ _ _ _ _) as [[[fs' c] F']|e| |]; eauto 10; done. }
  unfold migrate_forms. destruct (N.leb_spec CURRENT_EPOCH from) as [|Hlt]; [by exists 0%nat|]. unfold migrate.
  destruct (Rules_is_empty _); [by exists 0%nat|]. apply all_settle. pose proof (range_checked from Hlt) as Hch.
  pose proof (read_printable e1 src name F1 F2 fs Hr Hu Hfl) as Hp. rewrite Forall_forall in Hp, Hd |- *. intros e He.
  apply good_settles; [done|]. split; [by apply Hp|by apply Hd].
Qed.

(** C15: a replacement template is filled as a tree is.  [instantiate_template]
    substitutes in text and reads the result; for every registered rule, and
    arguments that print and read back, whose text holds no dollar sign and
    which take an [@] where the template puts one, the answer is the template's
    tree with the arguments in their places, every span the call's. *)
Theorem template_fills (from : N) (symbol : Text) (arity : nat) (template : Text) (args : list Syntax) (span : Span) (F : Files) :
  (symbol, arity, template) ∈ replace_rules_in_range from CURRENT_EPOCH -> length args = arity ->
  Forall printable args -> Forall (fun a => DOLLAR ∉ show a) args -> all_ready debug_syntax args (tree_of template) ->
  show (tree_of template) = template /\
  exists F', instantiate_template debug_syntax template args span F
    = Ok (set_span_recursive span (fill debug_syntax 0 args (tree_of template)), F').
Proof.
  intros Hin Hn Hp Hc Hr. pose proof (registered_templates debug_syntax) as Hreg. rewrite Forall_forall in Hreg.
  specialize (Hreg _ (replace_rules_registered _ _ _ Hin)). split; [apply Hreg|]. by apply (template_tree_fills debug_syntax arity).
Qed.

End Walk.

(** ** Renames *)

Section Renames.
Context `{HO : HashOrder}.

Definition renames_of (rules : list MigrationRule) : list (Text * Text) :=
  omap (fun r => match r with MR_Rename old new => Some (old, new) | _ => None end) rules.

(** No rename takes up what an earlier one answered, and none comes twice. *)
Fixpoint chain_free (rs : list (Text * Text)) : bool :=
  match rs with
  | [] => true
  | (old, new) :: rs => bool_decide (new ∉ rs.*1) && bool_decide (old ∉ rs.*1) && chain_free rs
  end.

Lemma chain_free_app a b : chain_free (a ++ b) = true ->
  chain_free b = true /\ Forall (fun r => (r.1 ∉ b.*1) /\ (r.2 ∉ b.*1)) a.
Proof.
  induction a as [|[old new] a IH]; cbn; [by split|]. rewrite !andb_true_iff, !bool_decide_eq_true, fmap_app, !not_elem_of_app.
  intros [[[_ H1] [_ H2]] H3]. destruct (IH H3) as [H4 H5]. split; [done|]. by constructor.
Qed.

Lemma table_insert_fresh {A} k (v : A) t : k ∉ t.*1 -> table_insert k v t = t ++ [(k, v)].
Proof.
  induction t as [|[k' v'] t IH]; [done|]. cbn. intros [H1 H2]%not_elem_of_cons. destruct (decide (k' = k)); [congruence|by rewrite IH].
Qed.

Lemma collapse_chain_free rules t : chain_free (t ++ renames_of rules) = true ->
  fold_left collapse_rule rules t = t ++ renames_of rules.
Proof.
  revert t. induction rules as [|r rules IH]; intros t Hc; [by rewrite app_nil_r|]. cbn [fold_left].
  destruct r as [old new| | | | | | |]; try (by apply IH). cbn in Hc |- *.
  apply chain_free_app in Hc as Hx. destruct Hx as [_ Hf].
  assert (collapse_rename t old new = t ++ [(old, new)]) as ->.
  { unfold collapse_rename. assert (list_find (fun kv => kv.2 = old) (hash_order t) = None) as ->.
    - apply list_find_None. rewrite hash_order_perm. eapply Forall_impl; [exact Hf|]. intros kv [_ Hkv] <-. apply Hkv. cbn. by left.
    - apply table_insert_fresh. intros Hin. apply list_elem_of_fmap in Hin as (kv & -> & Hkv). rewrite Forall_forall in Hf.
      destruct (Hf _ Hkv) as [Hk _]. apply Hk. cbn. by left. }
  rewrite IH; rewrite <- app_assoc; done.
Qed.

Lemma table_get_app {A} (a b : list (Text * A)) k : table_get (a ++ b) k = match table_get a k with Some v => Some v | None => table_get b k end.
Proof. induction a as [|[k' v] a IH]; [done|]. cbn. by destruct (decide (k' = k)). Qed.

Lemma table_get_Some {A} (t : list (Text * A)) k v : table_get t k = Some v -> (k, v) ∈ t.
Proof. induction t as [|[k' v'] t IH]; [done|]. cbn. destruct (decide (k' = k)) as [->|]; [intros [= ->]; by left|intros Hx; right; auto]. Qed.

Lemma ranges_chain_free : forallb (fun from => chain_free (renames_of (rules_in_range from CURRENT_EPOCH))) old_epochs = true.
Proof. vm_compute. reflexivity. Qed.

(** *** Chains

    A table of renames with chains: a name one rename answers may be renamed by
    a later one. *)

(** A symbol after the renames, one after the other. *)
Definition rename_step (s : Text) (r : MigrationRule) : Text :=
  match r with MR_Rename old new => if decide (s = old) then new else s | _ => s end.

(** No name is renamed twice, and one that is renamed was answered at most once before. *)
Definition chains_ok (rs : list (Text * Text)) : Prop := forall p old new q, rs = p ++ (old, new) :: q ->
  (old ∉ p.*1) /\ (length (filter (fun r => r.2 = old) p) <= 1)%nat.

(** A rename answers [s] and a later one takes it up. *)
Definition taken_up (rs : list (Text * Text)) (s : Text) : Prop := exists p new q, rs = p ++ (s, new) :: q /\ s ∈ p.*2.

Lemma renames_of_app a b : renames_of (a ++ b) = renames_of a ++ renames_of b.
Proof. apply omap_app. Qed.

Lemma table_get_insert {A} k (v : A) t s : table_get (table_insert k v t) s = if decide (k = s) then Some v else table_get t s.
Proof.
  induction t as [|[k' v'] t IH]; cbn; [done|]. destruct (decide (k' = k)) as [->|]; cbn; [by destruct (decide (k = s))|].
  rewrite IH. destruct (decide (k' = s)), (decide (k = s)); congruence.
Qed.

Lemma table_insert_keys {A} k (v : A) t x : x ∈ (table_insert k v t).*1 -> x = k \/ x ∈ t.*1.
Proof.
  induction t as [|[k' v'] t IH]; cbn; [set_solver|]. destruct (decide (k' = k)) as [->|]; cbn; [set_solver|].
  intros [->|Hx]%elem_of_cons; [set_solver|]. destruct (IH Hx); set_solver.
Qed.

Lemma table_insert_NoDup {A} k (v : A) t : NoDup t.*1 -> NoDup (table_insert k v t).*1.
Proof.
  induction t as [|[k' v'] t IH]; cbn; intros Hn; [by apply NoDup_singleton|]. destruct (decide (k' = k)) as [->|]; cbn; [done|].
  apply NoDup_cons in Hn as [H1 H2]. apply NoDup_cons. split; [|auto]. intros [->|]%table_insert_keys; done.
Qed.

Lemma table_insert_count (k v w : Text) t :
  (length (filter (fun r => r.2 = w) (table_insert k v t)) <= length (filter (fun r => r.2 = w) t) + (if decide (v = w) then 1 else 0))%nat.
Proof.
  induction t as [|[k' v'] t IH]; cbn [table_insert].
  - rewrite filter_cons. cbn. destruct (decide (v = w)); cbn; lia.
  - destruct (decide (k' = k)) as [->|]; rewrite !filter_cons; cbn [snd].
    + destruct (decide (v = w)), (decide (v' = w)); cbn; lia.
    + destruct (decide (v' = w)); cbn; lia.
Qed.

Lemma table_get_elem {A} k (v : A) t : NoDup t.*1 -> (k, v) ∈ t -> table_get t k = Some v.
Proof.
  induction t as [|[k' v'] t IH]; cbn; intros Hn Hin; [by apply elem_of_nil in Hin|]. apply NoDup_cons in Hn as [H1 H2].
  apply elem_of_cons in Hin as [[= -> ->]|Hin]; [by rewrite decide_True|].
  rewrite decide_False; [auto|]. intros ->. apply H1, list_elem_of_fmap. by exists (k, v).
Qed.

(** What a table collapsed from renames holds. *)
Record collapsed (rs t : list (Text * Text)) : Prop := {
  co_keys : NoDup t.*1;
  co_olds k : k ∈ t.*1 -> k ∈ rs.*1;
  co_count w : (length (filter (fun r => r.2 = w) t) <= length (filter (fun r => r.2 = w) rs))%nat }.

Lemma collapsed_insert rs t old new k : collapsed rs t -> k = old \/ k ∈ t.*1 -> collapsed (rs ++ [(old, new)]) (table_insert k new t).
Proof.
  intros [H1 H2 H3] Hk. split.
  - by apply table_insert_NoDup.
  - intros x Hx. rewrite fmap_app. apply table_insert_keys in Hx as [->|Hx]; [destruct Hk as [->|Hk]|]; set_solver.
  - intros w. etrans; [apply table_insert_count|]. rewrite filter_app, length_app, filter_cons. cbn [snd].
    specialize (H3 w). destruct (decide (new = w)); cbn; lia.
Qed.

Lemma collapsed_value rs t k w : collapsed rs t -> (k, w) ∈ t -> w ∈ rs.*2.
Proof.
  intros Hc Hin. pose proof (co_count _ _ Hc w) as Hle.
  assert ((k, w) ∈ filter (fun r => r.2 = w) t) as Hf by by apply list_elem_of_filter.
  destruct (filter (fun r => r.2 = w) rs) as [|[o n] l] eqn:E; [destruct (filter _ t); [by apply elem_of_nil in Hf|cbn in Hle; lia]|].
  assert ((o, n) ∈ filter (fun r => r.2 = w) rs) as [Hn Hr]%list_elem_of_filter by (rewrite E; by left).
  cbn in Hn. subst n. apply list_elem_of_fmap. by exists (o, w).
Qed.

Lemma collapsed_once rs t w a b : collapsed rs t -> (length (filter (fun r => r.2 = w) rs) <= 1)%nat ->
  (a, w) ∈ t -> (b, w) ∈ t -> a = b.
Proof.
  intros Hc H1 Ha Hb. pose proof (co_count _ _ Hc w) as Hle.
  assert ((a, w) ∈ filter (fun r => r.2 = w) t) as Ha' by by apply list_elem_of_filter.
  assert ((b, w) ∈ filter (fun r => r.2 = w) t) as Hb' by by apply list_elem_of_filter.
  destruct (filter _ t) as [|x [|y l]]; [by apply elem_of_nil in Ha'| |cbn in Hle; lia].
  apply list_elem_of_singleton in Ha', Hb'. congruence.
Qed.

Lemma collapse_follows rules : chains_ok (renames_of rules) ->
  collapsed (renames_of rules) (fold_left collapse_rule rules []) /\
  forall s, ~ taken_up (renames_of rules) s ->
    default s (table_get (fold_left collapse_rule rules []) s) = fold_left rename_step rules s.
Proof.
  induction rules as [|r rules IH] using rev_ind; intros Hok.
  { split; [|done]. split; [apply NoDup_nil_2|set_solver|done]. }
  rewrite renames_of_app in Hok |- *. setoid_rewrite fold_left_app. cbn [fold_left].
  assert (chains_ok (renames_of rules)) as Hok1.
  { intros p old new q Hq. apply (Hok p old new (q ++ renames_of [r])). by rewrite Hq, <- app_assoc. }
  destruct (IH Hok1) as [Hc Hs]. clear IH. set (t := fold_left collapse_rule rules []) in *.
  destruct r as [old new| | | | | | |]; cbn [collapse_rule rename_step];
    try (change (renames_of [_]) with (@nil (Text * Text)); rewrite app_nil_r; by split).
  change (renames_of [MR_Rename old new]) with [(old, new)] in *. set (rs := renames_of rules) in *.
  destruct (Hok rs old new []) as [Hold H1]; [done|].
  assert (forall s, ~ taken_up (rs ++ [(old, new)]) s -> default s (table_get t s) = fold_left rename_step rules s) as Hs'.
  { intros s Hn. apply Hs. intros (p & n & q & Hq & Hin). apply Hn. exists p, n, (q ++ [(old, new)]). by rewrite Hq, <- app_assoc. }
  unfold collapse_rename. destruct (list_find _ (hash_order t)) as [[i [k w]]|] eqn:Ef.
  - apply list_find_Some in Ef as (Hi & Hw & _). cbn in Hw. subst w. apply list_elem_of_lookup_2 in Hi. rewrite hash_order_perm in Hi.
    split; [apply collapsed_insert; [done|]; right; apply list_elem_of_fmap; by exists (k, old)|].
    intros s Hn. rewrite table_get_insert. specialize (Hs' s Hn). destruct (decide (k = s)) as [->|Hne]; cbn [default from_option id].
    + rewrite <- Hs', (table_get_elem s old) by (done || apply Hc). cbn. by rewrite decide_True.
    + rewrite <- Hs'. destruct (decide (default s (table_get t s) = old)) as [He|]; [exfalso|done].
      destruct (table_get t s) as [w|] eqn:Eg; cbn in He; subst.
      * apply table_get_Some in Eg. apply Hne. by eapply collapsed_once.
      * apply Hn. exists rs, new, []. split; [done|]. by eapply collapsed_value.
  - apply list_find_None in Ef. rewrite hash_order_perm, Forall_forall in Ef.
    split; [apply collapsed_insert; [done|by left]|].
    intros s Hn. rewrite table_get_insert. specialize (Hs' s Hn). destruct (decide (old = s)) as [->|Hne]; cbn [default from_option id].
    + rewrite <- Hs', table_get_None by (intros Hk; by apply Hold, (co_olds _ _ Hc)). cbn. by rewrite decide_True.
    + rewrite <- Hs'. destruct (decide (default s (table_get t s) = old)) as [He|]; [exfalso|done].
      destruct (table_get t s) as [w|] eqn:Eg; cbn in He; [subst w|congruence].
      apply table_get_Some in Eg. by apply (Ef _ Eg).
Qed.

(** Without chains every name qualifies. *)
Lemma chain_free_ok rs : chain_free rs = true -> chains_ok rs /\ forall s, ~ taken_up rs s.
Proof.
  intros Hc. assert (forall p old new q, rs = p ++ (old, new) :: q -> (old ∉ p.*1) /\ (old ∉ p.*2)) as Hp.
  { intros p old new q ->. apply chain_free_app in Hc as [_ Hf]. rewrite Forall_forall in Hf.
    split; intros (r & -> & Hr)%list_elem_of_fmap; destruct (Hf r Hr) as [F1 F2]; [apply F1|apply F2]; cbn; by left. }
  split.
  - intros p old new q Hq. destruct (Hp p old new q Hq) as [H1 H2]. split; [done|].
    destruct (filter _ p) as [|[a b] l] eqn:E; [cbn; lia|]. exfalso. apply H2.
    assert ((a, b) ∈ filter (fun r => r.2 = old) p) as [Hb Ha]%list_elem_of_filter by (rewrite E; by left).
    cbn in Hb. subst b. apply list_elem_of_fmap. by exists (a, old).
  - intros s (p & new & q & Hq & Hin). by destruct (Hp p s new q Hq).
Qed.

Lemma chain_free_sublist a b : sublist a b -> chain_free b = true -> chain_free a = true.
Proof.
  induction 1 as [|[o n] a b Hs IH|[o n] a b Hs IH]; cbn; [done| |]; rewrite !andb_true_iff, !bool_decide_eq_true; [|naive_solver].
  intros [[H1 H2] H3]. split_and!; [| |auto]; intros Hin; [apply H1|apply H2];
    (eapply elem_of_sublist; [exact Hin|]; by apply fmap_sublist).
Qed.

Lemma range_sublist from to ms :
  sublist (renames_of (concat (map mg_rules (filter (fun m => from < mg_epoch m /\ mg_epoch m <= to) ms))))
          (renames_of (concat (map mg_rules ms))).
Proof.
  induction ms as [|m ms IH]; [done|]. rewrite filter_cons. cbn [map concat]. destruct (decide _); cbn [map concat];
    rewrite ?renames_of_app; [by apply sublist_app|by apply sublist_inserts_l].
Qed.

Lemma registry_chain_free : chain_free (renames_of (concat (map mg_rules MIGRATIONS))) = true.
Proof. vm_compute. reflexivity. Qed.

Lemma in_range_fold from to ms s :
  fold_left rename_step (concat (map mg_rules (filter (fun m => from < mg_epoch m /\ mg_epoch m <= to) ms))) s =
  fold_left (fun s m => if (from <? mg_epoch m) && (mg_epoch m <=? to) then fold_left rename_step (mg_rules m) s else s) ms s.
Proof.
  revert s. induction ms as [|m ms IH]; intros s; [done|]. rewrite filter_cons. cbn [fold_left].
  destruct (decide _) as [[H1 H2]|Hn]; cbn [map concat].
  - by rewrite fold_left_app, IH, (proj2 (N.ltb_lt _ _) H1), (proj2 (N.leb_le _ _) H2).
  - rewrite IH. destruct (N.ltb_spec from (mg_epoch m)), (N.leb_spec (mg_epoch m) to); cbn [andb]; [by destruct Hn|done..].
Qed.

(** C17: the table of collapsed renames acts on a symbol as the renames do one
    after the other.  Over any rules, whatever the order of the hash table, a
    chain is followed to its end, when no name is renamed twice and a name that
    is renamed was answered by at most one rename before it; this is so for
    every symbol but a name that one rename answers and a later one takes up.
    Over the registered epochs it is so for every range (from, to] and for every
    symbol: the table does what the migrations with an epoch above [from] and up
    to [to] do one after the other, although epoch 2 renames [print] and epoch 3
    renames [display] to [print]. *)
Theorem renames_collapse (rules : list MigrationRule) (from to : N) (s : Text) :
  (chains_ok (renames_of rules) -> ~ taken_up (renames_of rules) s ->
     default s (table_get (fold_left collapse_rule rules []) s) = fold_left rename_step rules s)
  /\ default s (table_get (collapsed_renames from to) s)
     = fold_left (fun s m => if (from <? mg_epoch m) && (mg_epoch m <=? to) then fold_left rename_step (mg_rules m) s else s)
         MIGRATIONS s.
Proof.
  split; [intros Hok; by apply collapse_follows|]. rewrite <- in_range_fold.
  destruct (chain_free_ok (renames_of (rules_in_range from to))) as [Hok Hn].
  { eapply chain_free_sublist; [apply range_sublist|apply registry_chain_free]. }
  by apply collapse_follows.
Qed.
End Renames.

(** ** A template that feeds itself *)

(** The order of insertion. *)
#[export] Instance insertion_order : HashOrder := {| hash_order l := l; hash_order_perm l := Permutation_refl l |}.

Definition sym (s : string) (sp : Span) : Syntax := mkSyntax (SK_Symbol (text s)) sp.
Definition call (sp : Span) (items : list Syntax) : Syntax := mkSyntax (SK_Seq SK_List items) sp.

(** [(add $1 $1)], and the call of [add] on two of them. *)
Definition seed (sp : Span) : Syntax := call sp [sym "add" sp; sym "$1" sp; sym "$1" sp].
Definition feeder (sp : Span) : Syntax := call sp [sym "add" sp; seed sp; seed sp].

Definition rules4 : Rules := Rules_for_range 4 CURRENT_EPOCH.
Definition add_template : Text := text "(put $1 $2)".

(** The files once a template was read. *)
Definition template_files : Files :=
  Eval vm_compute in match read_syntax add_template TEMPLATE_NAME FILES_init with Ok (_, F) => F | _ => FILES_init end.

Lemma add_step n items sp sp' F : (length items = 2)%nat -> rewrite_node no_debug (S n) rules4 (call sp (sym "add" sp' :: items)) F
  = ('(new, F) ← instantiate_template no_debug add_template items sp F;
     '(items, m, F) ← rewrite_all (rewrite_node no_debug n rules4) (children (syn_kind new)) F;
     Ok (mkSyntax (with_children (syn_kind new) items) sp, (1 + m)%nat, F)).
Proof. intros Hl. destruct items as [|a [|b [|]]]; try done. Qed.

Lemma seed_instance sp : instantiate_template no_debug add_template [sym "$1" sp; sym "$1" sp] sp template_files
  = Ok (call sp [sym "put" sp; sym "$1" sp; sym "$1" sp], template_files).
Proof. vm_compute. reflexivity. Qed.

Lemma feeder_instance sp : instantiate_template no_debug add_template [seed sp; seed sp] sp template_files
  = Ok (call sp [sym "put" sp; seed sp; feeder sp], template_files).
Proof. vm_compute. reflexivity. Qed.

(** What a file of epoch 4 or older may hold. *)
Definition feeding_source : Text := text "(add (add $1 $1) (add $1 $1))".

Definition feeding_form : Syntax :=
  Eval vm_compute in match read_syntax_all feeding_source UNKNOWN_FILE FILES_init with Ok (e :: _, _) => e | _ => seed Span_synthetic end.

Lemma feeding_first n : rewrite_node no_debug (S n) rules4 feeding_form FILES_init
  = ('(items, m, F) ← rewrite_all (rewrite_node no_debug n rules4)
       [sym "put" (syn_span feeding_form); seed (syn_span feeding_form); feeder (syn_span feeding_form)] template_files;
     Ok (call (syn_span feeding_form) items, (1 + m)%nat, F)).
Proof.
  assert (exists sp sp' a b, feeding_form = call sp [sym "add" sp'; a; b] /\ instantiate_template no_debug add_template [a; b] sp FILES_init
    = Ok (call sp [sym "put" sp; seed sp; feeder sp], template_files)) as (sp & sp' & a & b & Hf & Hi).
  { eexists _, _, _, _. split; [reflexivity|]. vm_compute. reflexivity. }
  rewrite Hf, add_step, Hi by done. reflexivity.
Qed.

Lemma put_rewrites n sp F : rewrite_node no_debug n rules4 (sym "put" sp) F = Starved
  \/ rewrite_node no_debug n rules4 (sym "put" sp) F = Ok (sym "put" sp, 0%nat, F).
Proof. destruct n; [by left|right]. reflexivity. Qed.

Lemma hole_rewrites n sp F : rewrite_node no_debug n rules4 (sym "$1" sp) F = Starved
  \/ rewrite_node no_debug n rules4 (sym "$1" sp) F = Ok (sym "$1" sp, 0%nat, F).
Proof. destruct n; [by left|right]. reflexivity. Qed.

Lemma seed_rewrites n sp : rewrite_node no_debug n rules4 (seed sp) template_files = Starved
  \/ exists s c, rewrite_node no_debug n rules4 (seed sp) template_files = Ok (s, c, template_files).
Proof.
  destruct n as [|n]; [by left|]. unfold seed. rewrite add_step by done. rewrite seed_instance.
  cbn [mbind Out_bind syn_kind call children rewrite_all].
  destruct (put_rewrites n sp template_files) as [-> | ->]; [by left|]. cbn [mbind Out_bind].
  destruct (hole_rewrites n sp template_files) as [-> | Hh]; [by left|]. right. rewrite Hh. cbn [mbind Out_bind]. rewrite Hh.
  eexists _, _. reflexivity.
Qed.

Lemma elements_starve n sp : rewrite_node no_debug n rules4 (feeder sp) template_files = Starved ->
  rewrite_all (rewrite_node no_debug n rules4) [sym "put" sp; seed sp; feeder sp] template_files = Starved.
Proof.
  intros Hf. cbn [rewrite_all]. destruct (put_rewrites n sp template_files) as [-> | ->]; [done|]. cbn [mbind Out_bind].
  destruct (seed_rewrites n sp) as [-> | (s & c & ->)]; [done|]. cbn [mbind Out_bind]. by rewrite Hf.
Qed.

Lemma feeder_starves n sp : rewrite_node no_debug n rules4 (feeder sp) template_files = Starved.
Proof.
  induction n as [|n IH]; [done|]. unfold feeder. rewrite add_step by done. rewrite feeder_instance.
  cbn [mbind Out_bind syn_kind call children]. by rewrite elements_starve.
Qed.

(** C37: a migration can run on without end.  The text of an argument is
    substituted into a template before the placeholders of the arguments before
    it are, so a [$1] the program wrote is taken for the template's: in a file
    of epoch 4 the form [(add (add $1 $1) (add $1 $1))] reads, and its rewrite
    exhausts every amount of fuel. *)
Theorem template_feeds_itself :
  read_syntax_all feeding_source UNKNOWN_FILE FILES_init = Ok ([feeding_form], FILES_init)
  /\ forall n, migrate_forms no_debug n [feeding_form] 4 FILES_init = Starved.
Proof.
  split; [vm_compute; reflexivity|]. intros n. change (migrate_forms no_debug n [feeding_form] 4 FILES_init)
    with (rewrite_all (rewrite_node no_debug n rules4) [feeding_form] FILES_init).
  cbn [rewrite_all]. destruct n as [|n]; [done|]. rewrite feeding_first, elements_starve; [done|apply feeder_starves].
Qed.

(** The same capture, where it ends: the message of an assertion that quotes a
    dollar sign is rewritten. *)
Lemma template_rewrites_message : exists fs F fs' c F',
  read_syntax_all (text "(assert-true x " ++ [QUOTE] ++ text "costs $1" ++ [QUOTE; RPAREN]) UNKNOWN_FILE FILES_init = Ok (fs, F)
  /\ migrate_forms no_debug 9 fs 0 F = Ok (fs', c, F')
  /\ map (show no_debug) fs' = [text "(assert x " ++ [QUOTE] ++ text "costs x" ++ [QUOTE; RPAREN]].
Proof. eexists _, _, _, _, _. do 2 (split; [vm_compute; reflexivity|]). vm_compute. reflexivity. Qed.

(** A removed symbol is refused wherever it stands, not only as the head of a
    call. *)
Lemma removed_anywhere : exists fs F sp msg,
  read_syntax_all (text "(f write)") UNKNOWN_FILE FILES_init = Ok (fs, F)
  /\ migrate_forms no_debug 9 fs 1 F = Err (ME_Removed sp (text "write") msg).
Proof. eexists _, _, _, _. split; [vm_compute; reflexivity|]. vm_compute. reflexivity. Qed.

(** ** The prescan and the reader agree *)

(** The shape the prescan looks for, with the digits [ds] of [n]: a shebang
    line, white space, and the declaration. *)
Definition visible (source ds : Text) (n : N) : Prop :=
  exists w1 w2 w3 w4 rest, strip_shebang source = w1 ++ LPAREN :: w2 ++ EPOCH_NAME ++ w3 ++ ds ++ w4 ++ RPAREN :: rest
    /\ blank w1 /\ blank w2 /\ blank w3 /\ blank w4 /\ w3 <> [] /\ digits ds /\ digits_value 10 0 ds = Some n.

Lemma trim_blank w c t : blank w -> is_whitespace c = false -> trim_start (w ++ c :: t) = c :: t.
Proof. intros Hw Hc. induction Hw as [|d w Hd _ IH]; cbn; [by rewrite Hc|by rewrite Hd]. Qed.

Lemma strip_text_app p t : strip_text p (p ++ t) = Some t.
Proof. induction p as [|c p IH]; cbn; [done|]. by rewrite N.eqb_refl. Qed.

Lemma span_digits_app ds c t : Forall (fun c => is_ascii_digit c = true) ds -> is_ascii_digit c = false ->
  span_digits (ds ++ c :: t) = (ds, c :: t).
Proof. intros Hd Hc. induction Hd as [|d ds Hd _ IH]; cbn; [by rewrite Hc|by rewrite Hd, IH]. Qed.

Lemma digit_not_space c : is_ascii_digit c = true -> is_whitespace c = false.
Proof.
  intros Hc%is_ascii_digit_spec. assert (exists d, c = 48 + d /\ d < 10) as (d & -> & Hd) by (exists (c - 48); lia).
  destruct d as [|p]; [done|]. do 4 (destruct p as [p|p|]; try done; try lia).
Qed.

Lemma space_not_digit c : is_whitespace c = true -> is_ascii_digit c = false.
Proof. intros Hw. destruct (is_ascii_digit c) eqn:Hd; [|done]. apply digit_not_space in Hd. congruence. Qed.

(** What comes after the digits. *)
Lemma closing_head w rest : blank w -> exists c t, w ++ RPAREN :: rest = c :: t /\ is_ascii_digit c = false
  /\ stops (w ++ RPAREN :: rest).
Proof.
  destruct w as [|c w]; intros Hw; [by eexists _, _; repeat split; right; set_solver|].
  apply Forall_inv in Hw as Hc. eexists _, _. split; [done|]. split; [by apply space_not_digit|by left].
Qed.

Lemma visible_prescan source ds n : visible source ds n ->
  prescan_epoch source = if n <=? CURRENT_EPOCH then Ok n else Err (R_Epoch ds).
Proof.
  intros (w1 & w2 & w3 & w4 & rest & Hs & H1 & H2 & H3 & H4 & Hne & [Hd Hds] & Hv). unfold prescan_epoch. rewrite Hs.
  rewrite trim_blank by done. change (LPAREN :: w2 ++ ?r) with ([LPAREN] ++ w2 ++ r). rewrite strip_text_app.
  change (EPOCH_NAME ++ ?r) with (101 :: text "lle/epoch" ++ r). rewrite trim_blank by done.
  change (101 :: text "lle/epoch" ++ ?r) with (EPOCH_NAME ++ r). rewrite strip_text_app.
  destruct w3 as [|c w3]; [done|]. apply Forall_cons in H3 as [Hc H3]. cbn [app]. rewrite Hc. cbn [negb].
  destruct ds as [|d ds]; [done|]. apply Forall_cons in Hds as [Hd0 Hds0].
  assert (trim_start (c :: w3 ++ (d :: ds) ++ w4 ++ RPAREN :: rest) = (d :: ds) ++ w4 ++ RPAREN :: rest) as ->.
  { cbn [trim_start]. rewrite Hc. cbn [app]. apply trim_blank; [done|by apply digit_not_space]. }
  destruct (closing_head w4 rest H4) as (x & t & Hx & Hxd & _). rewrite Hx, span_digits_app by (done || by constructor).
  rewrite <- Hx, trim_blank by done. change (RPAREN :: rest) with ([RPAREN] ++ rest). rewrite strip_text_app.
  rewrite bool_decide_false, (bool_decide_true (is_Some _)) by done. cbn [orb negb].
  unfold parse_u64. rewrite Hv. cbn [mbind option_bind]. destruct (N.ltb_spec n (2 ^ 64)) as [|Hbig]; [done|].
  destruct (N.leb_spec n CURRENT_EPOCH) as [Hle|]; [|done]. unfold CURRENT_EPOCH in Hle. lia.
Qed.

Section Declared.
Context `{HU : Unicode, HF : FloatText}.

Lemma blank_lexes w r t r' lx : blank w -> lx_rest lx = w ++ r ->
  (forall lx1, lx_rest lx1 = r -> lx_lexicon lx1 = lx_lexicon lx -> lexes_one lx1 t r') -> lexes_one lx t r'.
Proof.
  intros Hw. revert lx. induction Hw as [|c w Hc _ IH]; intros lx Hr Hk; [by apply Hk|].
  pose proof (moves_lexicon _ _ _ (moves_advance _ _ _ Hr)) as HL.
  destruct (IH (advance lx) (rest_advance _ _ _ Hr)) as (tw & lx' & H1 & H2 & H3 & H4); [intros lx1 Hr1 HL1; apply Hk; congruence|].
  exists tw, lx'. rewrite (next_token_space lx c _ Hr Hc), <- HL. done.
Qed.

(** One token of a successful lex. *)
Lemma lex_loop_next n acc lx ts t r : lex_loop n acc lx = Ok ts -> lexes_one lx t r -> exists tw lx' n',
  tw_token tw = t /\ lx_rest lx' = r /\ lx_lexicon lx' = lx_lexicon lx /\ lex_loop n' (acc ++ [tw]) lx' = Ok ts.
Proof.
  intros Hl (tw & lx' & H1 & H2 & H3 & H4). destruct n as [|n]; [done|]. cbn in Hl. rewrite H1 in Hl. cbn in Hl.
  by exists tw, lx', n.
Qed.

Lemma lex_loop_prefix n acc lx ts : lex_loop n acc lx = Ok ts -> exists us, ts = acc ++ us.
Proof.
  revert acc lx. induction n as [|n IH]; intros acc lx Hl; [done|]. cbn in Hl.
  destruct (next_token_with_loc lx) as [[[tw|] lx']|?| |]; try done; cbn in Hl; [|injection Hl as <-; exists []; by rewrite app_nil_r].
  destruct (IH _ _ Hl) as [us ->]. exists (tw :: us). by rewrite <- app_assoc.
Qed.

Definition declaration_tokens (n : N) : list Token := [LeftParen; Symbol EPOCH_NAME; Integer (Z.of_N n); RightParen].

Lemma digits_i64 ds n : digits ds -> digits_value 10 0 ds = Some n -> n < 2 ^ 63 -> parse_i64 ds = Some (Z.of_N n).
Proof.
  intros [Hne Hd] Hv Hn. unfold parse_i64, from_str_radix. destruct ds as [|c ds]; [done|]. apply Forall_inv in Hd as Hc.
  destruct (N.eqb_spec c MINUS) as [->|]; [done|]. destruct (N.eqb_spec c PLUS) as [->|]; [done|]. rewrite Hv.
  assert (i64_range (Z.of_N n) = true) as ->; [|done]. unfold i64_range. apply andb_true_iff. rewrite Z.leb_le, Z.ltb_lt. lia.
Qed.

Lemma visible_lexes source ds n name L ts : visible source ds n -> n <= CURRENT_EPOCH -> sharp L ->
  lex_all_under source name L = Ok ts -> exists us, tw_token <$> ts = declaration_tokens n ++ us.
Proof.
  intros (w1 & w2 & w3 & w4 & rest & Hs & H1 & H2 & H3 & H4 & Hne & Hds & Hv) Hn Hsh. unfold lex_all_under. rewrite Hs.
  match goal with |- lex_loop ?k _ ?l = _ -> _ => generalize k; set (lx := l) end. intros k Hl.
  assert (lx_lexicon lx = L) as HL by done. assert (lx_rest lx = w1 ++ LPAREN :: w2 ++ EPOCH_NAME ++ w3 ++ ds ++ w4 ++ RPAREN :: rest) as Hr by done.
  clearbody lx. destruct (closing_head w4 rest H4) as (x & t & Hx & _ & Hst).
  eapply (lex_loop_next _ _ _ _ LeftParen (w2 ++ EPOCH_NAME ++ w3 ++ ds ++ w4 ++ RPAREN :: rest)) in Hl as (t1 & lx1 & k1 & Ht1 & Hr1 & HL1 & Hl).
  2:{ apply (blank_lexes w1 _ _ _ lx H1 Hr). intros l Hrl HLl. apply (unit_lexes L); [congruence|done|done|by left]. }
  eapply (lex_loop_next _ _ _ _ (Symbol EPOCH_NAME) (w3 ++ ds ++ w4 ++ RPAREN :: rest)) in Hl as (t2 & lx2 & k2 & Ht2 & Hr2 & HL2 & Hl).
  2:{ apply (blank_lexes w2 _ _ _ lx1 H2 Hr1). intros l Hrl HLl. apply (symbol_lexes L); [congruence|done| | |done].
      - split; [|split; [done|split; [set_solver|done]]]. unfold starts_symbol. by rewrite (proj1 Hsh).
      - destruct w3 as [|c w3]; [done|]. apply Forall_inv in H3. by left. }
  eapply (lex_loop_next _ _ _ _ (Integer (Z.of_N n)) (w4 ++ RPAREN :: rest)) in Hl as (t3 & lx3 & k3 & Ht3 & Hr3 & HL3 & Hl).
  2:{ apply (blank_lexes w3 _ _ _ lx2 H3 Hr2). intros l Hrl HLl.
      apply (number_lexes L [] ds [] [] (w4 ++ RPAREN :: rest)); [congruence|done| |done|done|].
      - split; [by left|done|by left|by left].
      - cbn. exists (Z.of_N n). rewrite app_nil_r. split; [|done]. apply digits_i64; [done|done|]. unfold CURRENT_EPOCH in Hn. lia. }
  eapply (lex_loop_next _ _ _ _ RightParen rest) in Hl as (t4 & lx4 & k4 & Ht4 & Hr4 & HL4 & Hl).
  2:{ apply (blank_lexes w4 _ _ _ lx3 H4 Hr3). intros l Hrl HLl. apply (unit_lexes L); [congruence|done|done|by left]. }
  apply lex_loop_prefix in Hl as [us ->]. exists (tw_token <$> us). rewrite fmap_app. cbn. by rewrite Ht1, Ht2, Ht3, Ht4.
Qed.

(** A form that starts with the token of an atom is the atom, and one that starts
    with a parenthesis a list. *)
Lemma symbol_first e s q : shaped e = true -> tree_tokens e = Symbol s :: q -> syn_kind e = SK_Symbol s /\ q = [].
Proof. destruct e as [k sp]. destruct k as [| | | | | | | |[] items|[] inner]; cbn; try done. by intros _ [= <- <-]. Qed.

Lemma integer_first e n q : shaped e = true -> tree_tokens e = Integer n :: q -> syn_kind e = SK_Int n /\ q = [].
Proof. destruct e as [k sp]. destruct k as [| | | | | | | |[] items|[] inner]; cbn; try done. by intros _ [= <- <-]. Qed.

Lemma paren_first e q : shaped e = true -> tree_tokens e = LeftParen :: q ->
  exists items, syn_kind e = SK_Seq SK_List items /\ q = concat (map tree_tokens items) ++ [RightParen] /\ Forall (fun e => shaped e = true) items.
Proof.
  intros Hs Ht. pose proof Hs as Hs'. destruct e as [k sp]. destruct k as [| | | | | | | |[] items|[] inner]; try done.
  injection Ht as <-. exists items. split; [done|]. split; [done|]. by apply shaped_items in Hs'.
Qed.

(** The first form of a stream of tokens. *)
Lemma first_item (items : list Syntax) t q : Forall (fun e => shaped e = true) items -> concat (map tree_tokens items) = t :: q ->
  exists e es u, items = e :: es /\ tree_tokens e = t :: u /\ shaped e = true /\ Forall (fun e => shaped e = true) es
    /\ q = u ++ concat (map tree_tokens es).
Proof.
  intros Hs Ht. destruct items as [|e es]; [done|]. apply Forall_cons in Hs as [He Hs]. destruct (head_token e He) as (t' & u & Hu & _).
  cbn in Ht. rewrite Hu in Ht. injection Ht as -> <-. by exists e, es, u.
Qed.

Lemma declaration_parsed fs us n : Forall (fun e => shaped e = true) fs -> concat (map tree_tokens fs) = declaration_tokens n ++ us ->
  exists e rest, fs = e :: rest /\ epoch_declaration e = Some (Z.of_N n).
Proof.
  intros Hs Ht. destruct (first_item _ _ _ Hs Ht) as (e & es & u & -> & He & Hse & _ & Hq). exists e, es. split; [done|].
  destruct (paren_first e u Hse He) as (items & Hk & -> & Hit).
  assert (exists r, concat (map tree_tokens items) ++ RightParen :: r = [Symbol EPOCH_NAME; Integer (Z.of_N n); RightParen] ++ us) as [r Hr].
  { exists (concat (map tree_tokens es)). rewrite <- app_assoc in Hq. exact (eq_sym Hq). }
  clear Hq He Ht Hs. destruct items as [|e1 items]; [done|]. cbn [map concat] in Hr. apply Forall_cons in Hit as [Hs1 Hit].
  destruct (head_token e1 Hs1) as (t1 & u1 & Hu1 & _). rewrite Hu1 in Hr. injection Hr as -> Hr.
  destruct (symbol_first e1 _ _ Hs1 Hu1) as [Hk1 ->]. cbn in Hr. destruct items as [|e2 items]; [done|]. cbn [map concat] in Hr.
  apply Forall_cons in Hit as [Hs2 Hit]. destruct (head_token e2 Hs2) as (t2 & u2 & Hu2 & _). rewrite Hu2 in Hr. injection Hr as -> Hr.
  destruct (integer_first e2 _ _ Hs2 Hu2) as [Hk2 ->]. cbn in Hr. destruct items as [|e3 items].
  - unfold epoch_declaration, as_list. rewrite Hk. unfold is_symbol, as_symbol. rewrite Hk1, bool_decide_true by done. by rewrite Hk2.
  - exfalso. apply Forall_inv in Hit. cbn in Hr. destruct (head_token e3 Hit) as (t3 & u3 & Hu3 & Hne & _). rewrite Hu3 in Hr. by injection Hr as ->.
Qed.

(** C16: the epoch that chooses a source's lexicon is the epoch its tree declares.
    The text read under a name is the source, or the fenced code of a [.md]
    document.  A declaration the prescan can see there, below a shebang line and
    white space, answers its number or is refused as too new, whatever follows;
    and when the text then reads, the first form is that declaration, so the
    tree migrates from the epoch it was lexed under and passes the lexicon
    check the pipeline makes of the source and the name. *)
Theorem visible_declaration_governs (source ds : Text) (n : N) (name : list N) (F : Files) :
  visible (sexp_text source name) ds n ->
  prescan_epoch (sexp_text source name) = (if n <=? CURRENT_EPOCH then Ok n else Err (R_Epoch ds))
  /\ (forall fs F', read_syntax_all (sexp_text source name) name F = Ok (fs, F') ->
       declared_epoch fs = Some n /\ check_lexicon_agreement fs source name = Ok ()).
Proof.
  intros Hv. pose proof (visible_prescan _ ds n Hv) as Hp. split; [done|]. intros fs F'.
  unfold read_syntax_all, lexicon_for. rewrite Hp. destruct (N.leb_spec n CURRENT_EPOCH) as [Hn|]; [|done]. cbn [mbind Out_bind].
  unfold read_syntax_under, lex_columns. destruct (lex_all_under _ name (for_epoch n)) as [ts|?| |] eqn:Hl; try done. cbn [mbind Out_bind].
  intros Hr. pose proof (parse_all_sound ts F) as Hs. rewrite Hr in Hs. destruct (forms_tokens ts 0 fs Hs ltac:(lia)) as [Htk Hsh].
  destruct (visible_lexes _ ds n name (for_epoch n) ts Hv Hn ltac:(done) Hl) as [us Hus].
  apply forallb_Forall in Hsh. rewrite live_all in Htk. unfold live_tokens in Htk. rewrite Hus, filter_app in Htk. symmetry in Htk.
  destruct (declaration_parsed fs _ n Hsh Htk) as (e & rest & -> & He).
  assert (declared_epoch (e :: rest) = Some n) as Hde.
  { cbn. rewrite He. cbn [mbind option_bind]. rewrite N2Z.id, (proj2 (Z.leb_le 0 _)), (proj2 (N.leb_le _ _) Hn) by lia. done. }
  split; [done|]. unfold check_lexicon_agreement, check_declared_lexicon, prescanned_epoch_for. rewrite Hde, Hp.
  cbn [read_error mbind Out_bind]. unfold refuse_mismatch. by rewrite decide_True.
Qed.
End Declared.

(** ** On concrete sources *)

Definition old_source : Text := text "(assert-eq (var x [1 2]) (ev/run (fn [] (print a))) b)".

Definition old_form : Syntax :=
  Eval vm_compute in match read_syntax_under old_source UNKNOWN_FILE (for_epoch 0) FILES_init with Ok (e :: _, _) => e | _ => seed Span_synthetic end.

Lemma old_source_reads : read_syntax_under old_source UNKNOWN_FILE (for_epoch 0) FILES_init = Ok ([old_form], FILES_init).
Proof. vm_compute. reflexivity. Qed.

Lemma old_form_clean : Forall (fun e => DOLLAR ∉ show no_debug e) [old_form].
Proof. apply Forall_cons_2; [|apply Forall_nil_2]. apply (bool_decide_eq_true_1 (clean _)). vm_compute. reflexivity. Qed.

Lemma old_form_no_floats : Forall (fun e => forall f, Float f ∈ tree_tokens e -> float_reads f) [old_form].
Proof.
  apply Forall_cons_2; [|apply Forall_nil_2]. intros f Hin. exfalso. revert Hin. enough (Forall (fun t => t <> Float f) (tree_tokens old_form)) as Hall.
  { intros Hin. rewrite Forall_forall in Hall. by apply (Hall _ Hin). }
  repeat (apply Forall_cons_2; [discriminate|]). apply Forall_nil_2.
Qed.

Lemma old_form_unfused : Forall (fun e => unfused e = true) [old_form].
Proof. apply Forall_cons_2; [|apply Forall_nil_2]. vm_compute. reflexivity. Qed.

Lemma migration_ends_witness :
  read_syntax_under old_source UNKNOWN_FILE (for_epoch 0) FILES_init = Ok ([old_form], FILES_init)
  /\ exists n, forall m F, (n <= m)%nat -> (exists fs' c F', migrate_forms no_debug m [old_form] 0 F = Ok (fs', c, F'))
    \/ exists e, migrate_forms no_debug m [old_form] 0 F = Err e.
Proof.
  split; [exact old_source_reads|].
  exact (migration_ends no_debug 0 0 old_source UNKNOWN_FILE FILES_init FILES_init [old_form] old_source_reads
    old_form_clean old_form_unfused old_form_no_floats).
Defined.

(** What it migrates to. *)
Lemma old_form_migrates : exists fs c F, migrate_forms no_debug 9 [old_form] 0 FILES_init = Ok (fs, c, F)
  /\ map (show no_debug) fs = [text "(assert (= (def @x [1 2]) (println a)) b)"].
Proof. eexists _, _, _. split; [vm_compute; reflexivity|]. vm_compute. reflexivity. Qed.

Definition var_args : list Syntax := [sym "x" Span_synthetic; mkSyntax (SK_Int 1) Span_synthetic].

Lemma var_registered : (text "var", 2%nat, text "(def @$1 $2)") ∈ replace_rules_in_range 7 CURRENT_EPOCH.
Proof. apply (bool_decide_eq_true_1 (_ ∈ _)). vm_compute. reflexivity. Qed.

Lemma var_args_printable : Forall printable var_args /\ Forall (fun a => DOLLAR ∉ show no_debug a) var_args
  /\ all_ready no_debug var_args (tree_of (text "(def @$1 $2)")).
Proof.
  split; [|split].
  - apply Forall_cons_2; [|apply Forall_cons_2; [|apply Forall_nil_2]]; (split; [done|]; split; [done|]; by apply atom_checks_reads).
  - apply Forall_cons_2; [|apply Forall_cons_2; [|apply Forall_nil_2]]; apply (bool_decide_eq_true_1 (clean _)); vm_compute; reflexivity.
  - apply Forall_cons_2; [|apply Forall_nil_2]. intros a [= <-]. reflexivity.
Qed.

Lemma template_fills_witness :
  (text "var", 2%nat, text "(def @$1 $2)") ∈ replace_rules_in_range 7 CURRENT_EPOCH
  /\ show no_debug (tree_of (text "(def @$1 $2)")) = text "(def @$1 $2)"
  /\ exists F', instantiate_template no_debug (text "(def @$1 $2)") var_args Span_synthetic FILES_init
    = Ok (set_span_recursive Span_synthetic (fill no_debug 0 var_args (tree_of (text "(def @$1 $2)"))), F').
Proof.
  split; [exact var_registered|].
  exact (template_fills no_debug 7 (text "var") 2 (text "(def @$1 $2)") var_args Span_synthetic FILES_init var_registered eq_refl
    (proj1 var_args_printable) (proj1 (proj2 var_args_printable)) (proj2 (proj2 var_args_printable))).
Defined.

(** A chain: the name the program wrote is renamed twice. *)
Definition chained_rules : list MigrationRule := [MR_Rename (text "a") (text "b"); MR_Rename (text "b") (text "c")].

Lemma chained_rules_ok : chains_ok (renames_of chained_rules) /\ ~ taken_up (renames_of chained_rules) (text "a").
Proof.
  split.
  - intros [|x1 [|x2 [|x3 p]]] old new q Hq; cbn in Hq; simplify_eq/=; [split; [set_solver|lia]|].
    split; [|cbn; lia]. apply (bool_decide_eq_true_1 (_ ∉ _)). vm_compute. reflexivity.
  - intros ([|x1 [|x2 [|x3 p]]] & new & q & Hq & Hin); cbn in Hq; simplify_eq/=. set_solver.
Qed.

Lemma renames_collapse_witness :
  table_get (fold_left collapse_rule chained_rules []) (text "a") = Some (text "c") /\
  default (text "a") (table_get (fold_left collapse_rule chained_rules []) (text "a")) = fold_left rename_step chained_rules (text "a").
Proof.
  split; [vm_compute; reflexivity|].
  exact (proj1 (renames_collapse chained_rules 0 CURRENT_EPOCH (text "a")) (proj1 chained_rules_ok) (proj2 chained_rules_ok)).
Defined.

Definition declared_source : Text := text "#!elle" ++ [NEWLINE] ++ text " ( elle/epoch 012 ) (f)".

Lemma declared_source_visible : visible declared_source (text "012") 12.
Proof.
  exists [SPACE], [SPACE], [SPACE], [SPACE], (text " (f)"). split; [reflexivity|].
  repeat (split; [by apply Forall_cons_2; [|apply Forall_nil_2]|]). split; [done|]. split; [|reflexivity]. split; [done|].
  repeat (apply Forall_cons_2; [reflexivity|]). apply Forall_nil_2.
Qed.

Lemma visible_declaration_governs_witness :
  visible (sexp_text declared_source UNKNOWN_FILE) (text "012") 12
  /\ prescan_epoch declared_source = (if 12 <=? CURRENT_EPOCH then Ok 12 else Err (R_Epoch (text "012")))
  /\ (forall fs F', read_syntax_all declared_source UNKNOWN_FILE FILES_init = Ok (fs, F') ->
       declared_epoch fs = Some 12 /\ check_lexicon_agreement fs declared_source UNKNOWN_FILE = Ok ()).
Proof.
  split; [exact declared_source_visible|].
  exact (visible_declaration_governs declared_source (text "012") 12 UNKNOWN_FILE FILES_init declared_source_visible).
Defined.

(** It does read. *)
Lemma declared_source_reads : exists fs F, read_syntax_all declared_source UNKNOWN_FILE FILES_init = Ok (fs, F)
  /\ exists rest, extract_epoch fs = Ok (Some 12, rest) /\ length rest = 1%nat.
Proof. eexists _, _. split; [vm_compute; reflexivity|]. eexists. split; [vm_compute; reflexivity|]. reflexivity. Qed.
