(* ===== verification/Rewrite.v ===== *)
(** * The token rewriter

    [rewrite/]: a source is lexed, rules turn tokens and spans of tokens into
    edits of its bytes, and the edits are applied together.

    Offsets are [N] and indices of tokens [nat].  The length of an edit is a
    [usize] difference, which wraps below zero, and so does the end of an edit;
    an index past the end, and a range that is not one of the text, is [Panics].
    The depth of [skip_balanced_form], an [i32], is a [Z]: it is bounded by the
    number of tokens.  A loop that is
    not structural takes the number of tokens as its fuel.  An error carries
    what its message names. *)

From stdpp Require Import base numbers option list strings.
From S2P Require Import Prelude LirRecord ValueTree Scalar Files Text Escape Lexer.
From S2P Require Import SynReader SynPrint EpochRules Epoch.

Local Open Scope N_scope.

(** ** Edits *)

Record Edit := mkEdit { ed_offset : N; ed_len : N; ed_text : Text }.

(** [byte_offset + byte_len] *)
Definition USIZE : N := 2 ^ 64.
Definition ed_end (e : Edit) : N := (ed_offset e + ed_len e) mod USIZE.

Inductive RewriteError :=
| RW_Overlap (earlier later : Edit)
| RW_Lex (e : LexError)
| RW_Epoch (e : EpochError)
| RW_Removed (found : list (Text * Text))
| RW_Unwrap (name message : Text)
| RW_NoForm (t : Token)
| RW_Respell (loc : SourceLoc) (e : RespellError)
| RW_Diverges.

Abbreviation Rewrites := (Out RewriteError).

Definition rw_lex {A} (m : Out LexError A) : Rewrites A :=
  match m with Ok a => Ok a | Err e => Err (RW_Lex e) | Panics => Panics | Starved => Starved end.
Definition rw_epoch {A} (m : Out EpochError A) : Rewrites A :=
  match m with Ok a => Ok a | Err e => Err (RW_Epoch e) | Panics => Panics | Starved => Starved end.
Definition or_panics {A} (m : option A) : Rewrites A := match m with Some a => Ok a | None => Panics end.

(** The length of a range, which must not end before it starts, and the slice of
    a text between two offsets. *)
Definition range_len (to from : N) : Rewrites N := if to <? from then Panics else Ok (to - from).

Definition slice (t : Text) (from to : N) : Rewrites Text :=
  len ← range_len to from;
  '(_, r) ← or_panics (split_bytes from t);
  '(m, _) ← or_panics (split_bytes len r);
  Ok m.

(** The order of [sort_by_key] with [Reverse((byte_offset, byte_len))]. *)
Definition key_below (a b : Edit) : bool :=
  (ed_offset a <? ed_offset b) || ((ed_offset a =? ed_offset b) && (ed_len a <? ed_len b)).

Fixpoint sort_insert (e : Edit) (es : list Edit) : list Edit :=
  match es with
  | [] => [e]
  | e' :: es => if key_below e e' then e' :: sort_insert e es else e :: e' :: es
  end.

(** The stable sort, the last edit of the text first. *)
Fixpoint sort_edits (es : list Edit) : list Edit :=
  match es with [] => [] | e :: es => sort_insert e (sort_edits es) end.

(** The first pair of neighbours that overlap. *)
Fixpoint overlapping (es : list Edit) : option (Edit * Edit) :=
  match es with
  | later :: (earlier :: _) as es =>
    if ed_offset later <? ed_end earlier then Some (earlier, later) else overlapping es
  | _ => None
  end.

(** [String::replace_range] *)
Definition replace_range (t : Text) (from to : N) (by_ : Text) : Rewrites Text :=
  len ← range_len to from;
  '(a, r) ← or_panics (split_bytes from t);
  '(_, b) ← or_panics (split_bytes len r);
  Ok (a ++ by_ ++ b).

Fixpoint apply_sorted (es : list Edit) (t : Text) : Rewrites Text :=
  match es with
  | [] => Ok t
  | e :: es => t ← replace_range t (ed_offset e) (ed_end e) (ed_text e); apply_sorted es t
  end.

Definition apply_edits (source : Text) (edits : list Edit) : Rewrites Text :=
  let edits := sort_edits edits in
  match overlapping edits with
  | Some (earlier, later) => Err (RW_Overlap earlier later)
  | None => apply_sorted edits source
  end.

(** [edit] lies within the span of [outer]. *)
Definition edit_within (lo hi : N) (e : Edit) : bool := (lo <=? ed_offset e) && (ed_end e <=? hi).
Definition within_edit (outer e : Edit) : bool := edit_within (ed_offset outer) (ed_end outer) e.

(** The [retain] that keeps the edits outside every one of [outer]. *)
Definition retain_outside (outer : list Edit) (es : list Edit) : list Edit :=
  filter (fun e => existsb (fun o => within_edit o e) outer = false) es.

(** ** The text of a rewrite *)

Record SourceText := mkSource { st_text : Text; st_name : list N; st_lexicon : Lexicon }.

(** [shebang_len] *)
Definition shebang_len (t : Text) : N := blen t - blen (strip_shebang t).

Definition in_shebang (src : SourceText) (tw : TokenWithLoc) : bool :=
  tw_offset tw <? shebang_len (st_text src).

Abbreviation CodeToken := (Token * N * N)%type.
Definition ct_token (t : CodeToken) : Token := t.1.1.
Definition ct_start (t : CodeToken) : N := t.1.2.
Definition ct_end (t : CodeToken) : N := t.1.2 + t.2.

Definition code_token (tw : TokenWithLoc) : CodeToken := (tw_token tw, tw_offset tw, tw_len tw).

Definition not_comment (t : Token) : bool := match t with Comment _ => false | _ => true end.

Section WithStd.
Context `{Unicode, FloatText}.

(** [SourceText::tokens]: the shebang line is lexed too. *)
Definition tokens (src : SourceText) : Rewrites (list TokenWithLoc) :=
  rw_lex (lex_loop (S (length (st_text src))) []
    (in_lexicon (Lexer_with_file (st_text src) (st_name src)) (st_lexicon src))).

Definition code_tokens (src : SourceText) : Rewrites (list CodeToken) :=
  ts ← tokens src; Ok (map code_token (filter (fun tw => not_comment (tw_token tw) = true) (ts : list TokenWithLoc))).

(** ** Renames *)

(** [RenameSymbol::apply] *)
Definition rename_apply (renames : list (Text * Text)) (tw : TokenWithLoc) : option Edit :=
  match tw_token tw with
  | Symbol name => new ← table_get renames name; Some (mkEdit (tw_offset tw) (tw_len tw) new)
  | _ => None
  end.

(** [collect_edits]: a rule is its [apply]; the first that answers wins. *)
Fixpoint first_edit (rules : list (TokenWithLoc -> option Edit)) (tw : TokenWithLoc) : option Edit :=
  match rules with
  | [] => None
  | rule :: rules => match rule tw with Some e => Some e | None => first_edit rules tw end
  end.

Definition collect_edits (src : SourceText) (rules : list (TokenWithLoc -> option Edit)) : Rewrites (list Edit) :=
  ts ← tokens src; Ok (omap (first_edit rules) (ts : list TokenWithLoc)).

(** [collect_lexical_edits] *)
Fixpoint lexical_loop (src : SourceText) (target : Lexicon) (desugared : list Token)
    (ts : list TokenWithLoc) : Rewrites (list Edit) :=
  match ts with
  | [] => Ok []
  | tw :: ts =>
    if in_shebang src tw || bool_decide (tw_token tw ∈ desugared) then lexical_loop src target desugared ts
    else
      lexeme ← slice (st_text src) (tw_offset tw) (tw_offset tw + tw_len tw);
      match lexicon_respell (st_lexicon src) (tw_token tw) lexeme target with
      | Ok replacement =>
        es ← lexical_loop src target desugared ts;
        Ok (match replacement with Some r => mkEdit (tw_offset tw) (tw_len tw) r :: es | None => es end)
      | Err e => Err (RW_Respell (tw_loc tw) e)
      | Panics => Panics
      | Starved => Starved
      end
  end.

Definition collect_lexical_edits (src : SourceText) (target : Lexicon) (desugared : list Token) : Rewrites (list Edit) :=
  ts ← tokens src; lexical_loop src target desugared ts.

(** [check_removals] *)
Definition check_removals (src : SourceText) (removals : list (Text * Text)) : Rewrites () :=
  ts ← code_tokens src;
  match omap (fun t => match ct_token t with
                       | Symbol name => pair name <$> table_get removals name
                       | _ => None end) (ts : list CodeToken) with
  | [] => Ok ()
  | found => Err (RW_Removed found)
  end.
End WithStd.

(** ** Walking forms by their tokens *)

Definition opens_form (t : Token) : bool :=
  match t with LeftParen | LeftBracket | LeftBrace => true | _ => false end.
Definition closes_form (t : Token) : bool :=
  match t with RightParen | RightBracket | RightBrace => true | _ => false end.

Fixpoint balanced_loop (ts : list CodeToken) (pos : nat) (depth : Z) : nat :=
  match ts with
  | [] => pos
  | t :: ts =>
    if opens_form (ct_token t) then balanced_loop ts (S pos) (depth + 1)
    else if closes_form (ct_token t) then
      if (depth - 1 =? 0)%Z then S pos else balanced_loop ts (S pos) (depth - 1)
    else balanced_loop ts (S pos) depth
  end.

(** [skip_balanced_form] *)
Definition skip_balanced_form (ts : list CodeToken) (start : nat) : nat :=
  balanced_loop (drop start ts) start 0.

(** The loop of [skip_pipe_form]; [one] is [skip_one_form]. *)
Fixpoint skip_pipe_loop (one : nat -> Rewrites nat) (m : nat) (ts : list CodeToken) (pos : nat) : Rewrites nat :=
  match m with
  | O => Starved
  | S m =>
    match ts !! pos with
    | None => Ok pos
    | Some t => if decide (ct_token t = Pipe) then Ok (S pos)
                else pos ← one pos; skip_pipe_loop one m ts pos
    end
  end.

Fixpoint skip_one_from (n : nat) (ts : list CodeToken) (pos : nat) : Rewrites nat :=
  match n with
  | O => Starved
  | S n =>
    match ts !! pos with
    | None => Panics
    | Some t =>
      match ct_token t with
      | LeftParen | LeftBracket | LeftBrace => Ok (skip_balanced_form ts pos)
      | Pipe | AtPipe => skip_pipe_loop (skip_one_from n ts) (S (length ts)) ts (S pos)
      | Quote | Quasiquote | Unquote | UnquoteSplicing | Splice | ListSugar => skip_one_from n ts (S pos)
      | _ => Ok (S pos)
      end
    end
  end.

(** [skip_one_form] *)
Definition skip_one_form (ts : list CodeToken) (pos : nat) : Rewrites nat := skip_one_from (S (length ts)) ts pos.

(** A loop over the forms from [pos] on while [go] holds of the position: where
    each begins and where it is past. *)
Fixpoint forms_while (m : nat) (go : nat -> bool) (ts : list CodeToken) (pos : nat) : Rewrites (list (nat * nat) * nat) :=
  match m with
  | O => Starved
  | S m =>
    if go pos then
      past ← skip_one_form ts pos;
      '(forms, stop) ← forms_while m go ts past;
      Ok ((pos, past) :: forms, stop)
    else Ok ([], pos)
  end.

Definition token_is (ts : list CodeToken) (i : nat) (t : Token) : bool := bool_decide (ct_token <$> ts !! i = Some t).

Definition symbol_at (ts : list CodeToken) (i : nat) : option Text :=
  match ct_token <$> ts !! i with Some (Symbol s) => Some s | _ => None end.

(** Where the token [i] starts, and where it ends. *)
Definition start_at (ts : list CodeToken) (i : nat) : Rewrites N := t ← or_panics (ts !! i); Ok (ct_start t).
Definition end_at (ts : list CodeToken) (i : nat) : Rewrites N := t ← or_panics (ts !! i); Ok (ct_end t).

(** An edit from one offset up to another. *)
Definition edit_between (from to : N) (by_ : Text) : Rewrites Edit := Ok (mkEdit from ((to + USIZE - from) mod USIZE) by_).

(** ** Unwraps *)

(** The end of an empty parameter list at [i]: [[]] or [()]. *)
Definition empty_params (ts : list CodeToken) (i : nat) : option nat :=
  if token_is ts i LeftBracket then if token_is ts (S i) RightBracket then Some (i + 2)%nat else None
  else if token_is ts i LeftParen then if token_is ts (S i) RightParen then Some (i + 2)%nat else None
  else None.

(** [try_match_unwrap]: [(symbol (fn [] body...))] *)
Definition try_match_unwrap (source : Text) (ts : list CodeToken) (i : nat) (unwraps : list (Text * Text))
    : Rewrites (option Edit) :=
  if negb (token_is ts i LeftParen) then Ok None else
  match symbol_at ts (i + 1) ≫= table_get unwraps with
  | None => Ok None
  | Some _ =>
    if negb (token_is ts (i + 2) LeftParen && token_is ts (i + 3) (Symbol (text "fn"))) then Ok None else
    match empty_params ts (i + 4) with
    | None => Ok None
    | Some params_end =>
      match ts !! params_end with
      | None => Ok None
      | Some body_first =>
        let inner_close := skip_balanced_form ts (i + 2) in
        if (inner_close =? 0)%nat then Ok None else
        match ts !! (inner_close - 1)%nat with
        | None => Ok None
        | Some inner_paren =>
          let outer_close := skip_balanced_form ts i in
          form_start ← start_at ts i;
          match ts !! (outer_close - 1)%nat with
          | None => Ok None
          | Some outer_paren =>
            body ← slice source (ct_start body_first) (ct_start inner_paren);
            e ← edit_between form_start (ct_end outer_paren) (trim body);
            Ok (Some e)
          end
        end
      end
    end
  end.

(** The loop of [collect_unwrap_edits]. *)
Fixpoint unwrap_loop (m : nat) (source : Text) (ts : list CodeToken) (unwraps : list (Text * Text)) (i : nat)
    : Rewrites (list Edit) :=
  match m with
  | O => Starved
  | S m =>
    match ts !! i with
    | None => Ok []
    | Some t =>
      o ← try_match_unwrap source ts i unwraps;
      match o with
      | Some e => es ← unwrap_loop m source ts unwraps (skip_balanced_form ts i); Ok (e :: es)
      | None =>
        match ct_token t with
        | Symbol name =>
          match table_get unwraps name with
          | Some msg =>
            if (0 <? i)%nat && token_is ts (i - 1) LeftParen then Err (RW_Unwrap name msg)
            else unwrap_loop m source ts unwraps (S i)
          | None => unwrap_loop m source ts unwraps (S i)
          end
        | _ => unwrap_loop m source ts unwraps (S i)
        end
      end
    end
  end.

(** ** Shorthands *)

(** One round of [collect_desugar_edits]. *)
Definition desugar_at (shorthands : list Token) (shebang : N) (ts : list CodeToken) (i : nat) : Rewrites (list Edit) :=
  match ts !! i with
  | None => Ok []
  | Some t =>
    if negb (bool_decide (ct_token t ∈ shorthands)) || (ct_start t <? shebang) then Ok []
    else match shorthand_form (ct_token t) with
    | None => Err (RW_NoForm (ct_token t))
    | Some form =>
      match ts !! S i with
      | None => Ok []
      | Some next =>
        if closes_form (ct_token next) then Ok [] else
        past ← skip_one_form ts i;
        if (past <=? i + 1)%nat || (length ts <? past)%nat then Ok [] else
        form_end ← end_at ts (past - 1);
        e ← edit_between (ct_start t) (ct_start next) (LPAREN :: form ++ [SPACE]);
        Ok [e; mkEdit form_end 0 [RPAREN]]
      end
    end
  end.

(** A loop that collects the edits of each index. *)
Fixpoint collect_at (f : nat -> Rewrites (list Edit)) (idx : list nat) : Rewrites (list Edit) :=
  match idx with
  | [] => Ok []
  | i :: idx => a ← f i; b ← collect_at f idx; Ok (a ++ b)
  end.

(** ** Flattening *)

(** The two edits that delete the delimiters of a form between its first child
    and the end of its last. *)
Definition strip_edits (open first last_end close : N) : Rewrites (list Edit) :=
  a ← edit_between open first [];
  b ← edit_between last_end close [];
  Ok [a; b].

(** The children of the bindings, which must be pairs: their delimiters. *)
Fixpoint pairs_loop (m : nat) (ts : list CodeToken) (close_idx pos : nat) : Rewrites (option (list (nat * nat))) :=
  match m with
  | O => Starved
  | S m =>
    if negb (pos <? close_idx)%nat then Ok (Some []) else
    t ← or_panics (ts !! pos);
    if decide (ct_token t = LeftBracket \/ ct_token t = LeftParen) then
      let pair_close_next := skip_balanced_form ts pos in
      if (pair_close_next =? 0)%nat then Ok None else
      let pair_close := (pair_close_next - 1)%nat in
      '(children, _) ← forms_while (S (length ts)) (fun p => p <? pair_close)%nat ts (S pos);
      if negb (length (children : list (nat * nat)) =? 2)%nat then Ok None else
      rest ← pairs_loop m ts close_idx pair_close_next;
      Ok (option_map (cons (pos, pair_close)) rest)
    else Ok None
  end.

(** [try_match_flatten] *)
Definition try_match_flatten (ts : list CodeToken) (i : nat) : Rewrites (option (list Edit)) :=
  let bindings_open := (i + 2)%nat in
  if negb (token_is ts bindings_open LeftBracket || token_is ts bindings_open LeftParen) then Ok None else
  let bindings_close := skip_balanced_form ts bindings_open in
  if (bindings_close =? 0)%nat then Ok None else
  pairs ← pairs_loop (S (length ts)) ts (bindings_close - 1) (S bindings_open);
  match pairs with
  | None | Some [] => Ok None
  | Some pairs =>
    es ← collect_at (fun k => '(open_idx, close_idx) ← or_panics (pairs !! k);
           open ← start_at ts open_idx; first ← start_at ts (S open_idx);
           last_end ← end_at ts (close_idx - 1); close ← end_at ts close_idx;
           strip_edits open first last_end close) (seq 0 (length pairs));
    Ok (Some es)
  end.

(** The walk the flatten collectors share: at a call that [at_head] names, the
    edits [f] answers and a step past the head; otherwise a step. *)
Fixpoint flatten_loop {A} (m : nat) (at_head : Text -> option A) (f : nat -> A -> Rewrites (option (list Edit)))
    (ts : list CodeToken) (i : nat) : Rewrites (list Edit) :=
  match m with
  | O => Starved
  | S m =>
    if negb (i <? length ts)%nat then Ok [] else
    match (if token_is ts i LeftParen then symbol_at ts (i + 1) ≫= at_head else None) with
    | None => flatten_loop m at_head f ts (S i)
    | Some a =>
      o ← f i a;
      match o with
      | Some es => es' ← flatten_loop m at_head f ts (i + 2); Ok (es ++ es')
      | None => flatten_loop m at_head f ts (S i)
      end
    end
  end.

(** One round of [collect_bracket_edits]. *)
Definition bracket_at (binding_forms : list Text) (ts : list CodeToken) (i : nat) : Rewrites (list Edit) :=
  match symbol_at ts (i + 1) with
  | Some s =>
    if token_is ts i LeftParen && bool_decide (s ∈ binding_forms) && token_is ts (i + 2) LeftParen then
      open ← or_panics (ts !! (i + 2)%nat);
      let close_next := skip_balanced_form ts (i + 2) in
      if (0 <? close_next)%nat then
        close ← or_panics (ts !! (close_next - 1)%nat);
        Ok [mkEdit (ct_start open) (open : CodeToken).2 [LBRACKET]; mkEdit (ct_start close) (close : CodeToken).2 [RBRACKET]]
      else Ok []
    else Ok []
  | None => Ok []
  end.

(** ** Clauses *)

(** The texts between offsets, and their [join] with spaces. *)
Fixpoint slices (source : Text) (spans : list (N * N)) : Rewrites (list Text) :=
  match spans with
  | [] => Ok []
  | (a, b) :: spans => t ← slice source a b; ts ← slices source spans; Ok (t :: ts)
  end.

Fixpoint join_spaced (ts : list Text) : Text :=
  match ts with [] => [] | [t] => t | t :: ts => t ++ SPACE :: join_spaced ts end.

(** The offsets of forms given by their tokens. *)
Fixpoint form_spans (ts : list CodeToken) (forms : list (nat * nat)) : Rewrites (list (N * N)) :=
  match forms with
  | [] => Ok []
  | (first, past) :: forms =>
    a ← start_at ts first; b ← end_at ts (past - 1);
    rest ← form_spans ts forms; Ok ((a, b) :: rest)
  end.

Definition begin_text (parts : list Text) : Text := text "(begin " ++ join_spaced parts ++ [RPAREN].

(** The edits of one clause from [open] to [close], with its children; [None]
    for the clause passed through. *)
Definition clause_edits (source : Text) (open close : N) (children : list (N * N)) : Rewrites (option (list Edit)) :=
  match children with
  | [] => Ok None
  | first :: rest =>
    let strip := es ← strip_edits open first.1 (default first (last children)).2 close; Ok (Some es) in
    first_text ← slice source first.1 first.2;
    if bool_decide (first_text = text "else") && (2 <=? length children)%nat then
      parts ← slices source rest;
      e ← edit_between open close (if (length children =? 2)%nat then join_spaced parts else begin_text parts);
      Ok (Some [e])
    else if (length children =? 2)%nat then strip
    else if (3 <=? length children)%nat then
      second ← or_panics (children !! 1%nat);
      second_text ← slice source (second : N * N).1 second.2;
      if bool_decide (second_text = text "when") && (4 <=? length children)%nat then strip
      else
        parts ← slices source rest;
        e ← edit_between open close (first_text ++ SPACE :: begin_text parts);
        Ok (Some [e])
    else Ok None
  end.

(** The loop over the clauses: the edits, and whether there was a clause. *)
Fixpoint clauses_loop (m : nat) (source : Text) (ts : list CodeToken) (outer_close_idx pos : nat)
    : Rewrites (option (list Edit * bool)) :=
  match m with
  | O => Starved
  | S m =>
    if negb (pos <? outer_close_idx)%nat then Ok (Some ([], false)) else
    t ← or_panics (ts !! pos);
    if decide (ct_token t = LeftParen \/ ct_token t = LeftBracket) then
      let clause_close_next := skip_balanced_form ts pos in
      if (clause_close_next =? 0)%nat then Ok None else
      let clause_close := (clause_close_next - 1)%nat in
      '(forms, _) ← forms_while (S (length ts)) (fun p => p <? clause_close)%nat ts (S pos);
      children ← form_spans ts forms;
      close ← end_at ts clause_close;
      o ← clause_edits source (ct_start t) close children;
      rest ← clauses_loop m source ts outer_close_idx clause_close_next;
      Ok (option_map (fun '(es', any) =>
        match o with Some es => (es ++ es', true) | None => (es', any) end) rest)
    else Ok None
  end.

Fixpoint skip_forms (k : nat) (ts : list CodeToken) (pos : nat) : Rewrites (option nat) :=
  match k with
  | O => Ok (Some pos)
  | S k => if (length ts <=? pos)%nat then Ok None else pos ← skip_one_form ts pos; skip_forms k ts pos
  end.

(** [try_match_flatten_clauses] *)
Definition try_match_flatten_clauses (source : Text) (ts : list CodeToken) (i skip : nat)
    : Rewrites (option (list Edit)) :=
  o ← skip_forms skip ts (i + 2);
  match o with
  | None => Ok None
  | Some pos =>
    let outer_close := skip_balanced_form ts i in
    if (outer_close =? 0)%nat then Ok None else
    r ← clauses_loop (S (length ts)) source ts (outer_close - 1) pos;
    Ok (match r with Some (es, true) => Some es | _ => None end)
  end.

(** ** Replacements *)

(** [instantiate]: each [$N] of the template by the [N]th text, in one pass. *)
Fixpoint instantiate_from (m : nat) (template : Text) (args : list Text) : Text :=
  match m with
  | O => template
  | S m =>
    match template with
    | [] => []
    | c :: rest =>
      if c =? DOLLAR then
        let '(digits, rest) := span_digits rest in
        match parse_u64 digits ≫= (fun n => if 1 <=? n then args !! (N.to_nat n - 1)%nat else None) with
        | Some arg => arg ++ instantiate_from m rest args
        | None => DOLLAR :: digits ++ instantiate_from m rest args
        end
      else c :: instantiate_from m rest args
    end
  end.

Definition instantiate (template : Text) (args : list Text) : Text :=
  instantiate_from (length template) template args.

Section Replace.
Variables (source : Text) (ts : list CodeToken).
Variables (replaces : list (Text * nat * Text)) (inner : list Edit).

(** The text of the tokens from [first] up to [past] with the rewrite applied
    inside; [nested] are the replacements found there. *)
Definition rewritten_text (nested : list Edit) (first past : nat) : Rewrites Text :=
  start ← start_at ts first;
  end_ ← end_at ts (past - 1);
  let outside_nested := retain_outside nested (filter (fun e => edit_within start end_ e = true) inner) in
  t ← slice source start end_;
  apply_edits t (map (fun e => mkEdit (ed_offset e - start) (ed_len e) (ed_text e)) (outside_nested ++ nested)).

(** The arguments' texts; [edits_within] is [replace_edits_within]. *)
Fixpoint argument_texts (edits_within : nat -> nat -> Rewrites (list Edit)) (args : list (nat * nat))
    : Rewrites (list Text) :=
  match args with
  | [] => Ok []
  | (first, past) :: args =>
    nested ← edits_within first past;
    t ← rewritten_text nested first past;
    rest ← argument_texts edits_within args;
    Ok (t :: rest)
  end.

(** [try_match_replace] *)
Definition try_match_replace (edits_within : nat -> nat -> Rewrites (list Edit)) (i : nat) : Rewrites (option Edit) :=
  if negb (token_is ts i LeftParen) then Ok None else
  match symbol_at ts (i + 1) with
  | None => Ok None
  | Some head =>
    if negb (existsb (fun '(s, _, _) => bool_decide (s = head)) replaces) then Ok None else
    '(args, pos) ← forms_while (S (length ts))
      (fun p => (p <? length ts)%nat && negb (token_is ts p RightParen)) ts (i + 2);
    if (length ts <=? pos)%nat then Ok None else
    match list_find (fun r : Text * nat * Text => r.1.1 = head /\ r.1.2 = length (args : list (nat * nat))) replaces with
    | None => Ok None
    | Some (_, (_, _, template)) =>
      form_start ← start_at ts i;
      form_end ← end_at ts pos;
      texts ← argument_texts edits_within args;
      e ← edit_between form_start form_end (instantiate template texts);
      Ok (Some e)
    end
  end.

(** [replace_edits_within], outermost first. *)
Fixpoint replace_edits_within (m : nat) (lo hi : nat) : Rewrites (list Edit) :=
  match m with
  | O => Starved
  | S m =>
    if negb (lo <? hi)%nat then Ok [] else
    o ← try_match_replace (replace_edits_within m) lo;
    match o with
    | Some e => es ← replace_edits_within m (skip_balanced_form ts lo) hi; Ok (e :: es)
    | None => replace_edits_within m (S lo) hi
    end
  end.
End Replace.

(** ** Durations *)

Section Millis.
Context `{FloatText}.

(** [Display] of a literal *)
Definition show_seconds (s : SecondsLiteral) : Text :=
  match s with SL_Int n => show_i64 n | SL_Float x => debug_f64 x end.

(** The argument from [first] up to [past]: its shape. *)
Definition millis_shape (ts : list CodeToken) (arg : nat * nat) : Millis :=
  if negb (arg.2 =? S arg.1)%nat then Ms_Expr
  else match ct_token <$> ts !! arg.1 with
  | Some (Integer n) => Ms_Int n
  | Some (Float x) => Ms_Float x
  | Some Nil => Ms_Nil
  | _ => Ms_Expr
  end.

(** The edits that write a value anew, with [keyword] before it. *)
Definition write_edits (ts : list CodeToken) (arg : nat * nat) (w : Written) (keyword : Text) : Rewrites (list Edit) :=
  start ← start_at ts arg.1;
  end_ ← end_at ts (arg.2 - 1);
  match w with
  | W_Literal s => e ← edit_between start end_ (keyword ++ show_seconds s); Ok [e]
  | W_Wrap template =>
    '(before, after) ← or_panics (wrap_ends template);
    Ok [mkEdit start 0 (keyword ++ before); mkEdit end_ 0 after]
  end.

(** [millis_call_edits] *)
Definition millis_call_edits (ts : list CodeToken) (open : nat) (place : TimeArg) : Rewrites (list Edit) :=
  '(args, pos) ← forms_while (S (length ts))
    (fun p => (p <? length ts)%nat && negb (token_is ts p RightParen)) ts (open + 2);
  if (length ts <=? pos)%nat then Ok [] else
  let args : list (nat * nat) := args in
  match place with
  | TA_Keyword =>
    match list_find (fun a : nat * nat => token_is ts a.1 (Keyword (text "timeout")) = true /\ a.2 = S a.1) args with
    | None => Ok []
    | Some (at_, _) =>
      match args !! S at_ with
      | None => Ok []
      | Some value =>
        match Seconds_of (millis_shape ts value) place with
        | Sec_Write w => write_edits ts value w []
        | _ => Ok []
        end
      end
    end
  | TA_Last arity _ =>
    if negb (length args =? arity)%nat then Ok [] else
    value ← or_panics (args !! (arity - 1)%nat);
    match Seconds_of (millis_shape ts value) place with
    | Sec_Keep => Ok []
    | Sec_Drop =>
      before ← end_at ts (value.1 - 1);
      end_ ← end_at ts (value.2 - 1);
      e ← edit_between before end_ [];
      Ok [e]
    | Sec_Write w => write_edits ts value w (text ":timeout ")
    end
  end.

(** The loop of [collect_millis_edits]. *)
Fixpoint millis_loop (m : nat) (millis : list (Text * TimeArg)) (ts : list CodeToken) (i : nat) : Rewrites (list Edit) :=
  match m with
  | O => Starved
  | S m =>
    match ts !! i with
    | None => Ok []
    | Some t =>
      if bool_decide (ct_token t = Quote) && (S i <? length ts)%nat then
        past ← skip_one_form ts i; millis_loop m millis ts past
      else
        es ← match (if token_is ts i LeftParen then symbol_at ts (i + 1) ≫= table_get millis else None) with
             | Some place => millis_call_edits ts i place
             | None => Ok []
             end;
        es' ← millis_loop m millis ts (S i);
        Ok (es ++ es')
    end
  end.
End Millis.

(** ** A file *)

Section File.
Context `{Unicode, FloatText, HashOrder}.

(** The collectors, over the tokens of a source. *)
Definition collect_unwrap_edits (src : SourceText) (unwraps : list (Text * Text)) : Rewrites (list Edit) :=
  ts ← code_tokens src; unwrap_loop (S (length (ts : list CodeToken))) (st_text src) ts unwraps 0.

Definition collect_desugar_edits (src : SourceText) (shorthands : list Token) : Rewrites (list Edit) :=
  match shorthands with
  | [] => Ok []
  | _ => ts ← code_tokens src;
         collect_at (desugar_at shorthands (shebang_len (st_text src)) ts) (seq 0 (length (ts : list CodeToken)))
  end.

Definition collect_flatten_edits (src : SourceText) (flatten_syms : list Text) : Rewrites (list Edit) :=
  ts ← code_tokens src;
  flatten_loop (S (length (ts : list CodeToken))) (fun s => if decide (s ∈ flatten_syms) then Some () else None)
    (fun i _ => try_match_flatten ts i) ts 0.

(** Comments stay in this stream. *)
Definition collect_flatten_clause_edits (src : SourceText) (clauses : list (Text * nat)) : Rewrites (list Edit) :=
  tws ← tokens src;
  let ts := map code_token tws in
  flatten_loop (S (length ts)) (table_get clauses) (try_match_flatten_clauses (st_text src) ts) ts 0.

Definition collect_bracket_edits (src : SourceText) (binding_forms : list Text) : Rewrites (list Edit) :=
  ts ← code_tokens src; collect_at (bracket_at binding_forms ts) (seq 0 (length (ts : list CodeToken))).

Definition collect_millis_edits (src : SourceText) (millis : list (Text * TimeArg)) : Rewrites (list Edit) :=
  match millis with
  | [] => Ok []
  | _ => ts ← code_tokens src; millis_loop (S (length (ts : list CodeToken))) millis ts 0
  end.

Definition collect_replace_edits (src : SourceText) (replaces : list (Text * nat * Text)) (inner : list Edit)
    : Rewrites (list Edit) :=
  ts ← code_tokens src;
  replace_edits_within (st_text src) ts replaces inner (S (length (ts : list CodeToken))) 0 (length ts).

Definition binding_forms : list Text :=
  [text "let"; text "letrec"; text "let*"; text "if-let"; text "when-let"; text "when-ok"].

(** The edits that move the declaration to the current epoch. *)
Fixpoint skip_spaces (t : Text) (at_ : N) : Text * N :=
  match t with c :: t' => if c =? SPACE then skip_spaces t' (at_ + 1) else (t, at_) | [] => (t, at_) end.

Definition declaration_end (source : Text) (byte_end : N) : Rewrites N :=
  '(_, after) ← or_panics (split_bytes byte_end source);
  let '(rest, end_) := skip_spaces after byte_end in
  Ok (match rest with c :: _ => if c =? NEWLINE then end_ + 1 else end_ | [] => end_ end).

Definition epoch_edits (source : Text) (info : option (N * N * N)) : Rewrites (list Edit) :=
  let insert := mkEdit (shebang_len source) 0 (text "(elle/epoch " ++ show_i64 (Z.of_N CURRENT_EPOCH) ++ [RPAREN; NEWLINE]) in
  match info with
  | Some (epoch, byte_start, byte_end) =>
    if epoch =? CURRENT_EPOCH then Ok []
    else end_ ← declaration_end source byte_end; e ← edit_between byte_start end_ []; Ok [e; insert]
  | None => Ok [insert]
  end.

(** [rewrite_file]: a table that is empty runs no collector. *)
Definition rewrite_file (source : Text) (file_path : list N) (F : Files) : Rewrites (option (Text * nat)) :=
  epoch_info ← rw_epoch (detect_epoch_in_source source F);
  let file_epoch := (fun info : N * N * N => info.1.1) <$> (epoch_info : option (N * N * N)) in
  _ ← match file_epoch with
      | Some epoch => rw_epoch (check_declared_lexicon epoch source file_path)
      | None => Ok ()
      end;
  let src := mkSource source file_path (for_epoch (default CURRENT_EPOCH file_epoch)) in
  let from_epoch {A} (table : N -> list A) : list A := match file_epoch with Some epoch => table epoch | None => [] end in
  let collect {A} (f : list A -> Rewrites (list Edit)) (table : list A) : Rewrites (list Edit) :=
    match table with [] => Ok [] | _ => f table end in
  _ ← match from_epoch (fun epoch => removals_in_range epoch CURRENT_EPOCH) with
      | [] => Ok () | removals => check_removals src removals end;
  unwraps ← collect (collect_unwrap_edits src) (from_epoch (fun epoch => unwrap_rules_in_range epoch CURRENT_EPOCH));
  flattens ← collect (collect_flatten_edits src) (from_epoch (fun epoch => flatten_rules_in_range epoch CURRENT_EPOCH));
  clauses ← collect (collect_flatten_clause_edits src)
    (from_epoch (fun epoch => flatten_clause_rules_in_range epoch CURRENT_EPOCH));
  brackets ← collect_bracket_edits src binding_forms;
  let renames := from_epoch (fun epoch => collapsed_renames epoch CURRENT_EPOCH) in
  renamed ← collect_edits src (match renames with [] => [] | _ => [rename_apply renames] end);
  millis ← collect_millis_edits src (from_epoch (fun epoch => millis_rules_in_range epoch CURRENT_EPOCH));
  let shorthands := from_epoch (fun epoch => desugar_rules_in_range epoch CURRENT_EPOCH) in
  desugared ← collect_desugar_edits src shorthands;
  lexical ← collect_lexical_edits src current_lexicon shorthands;
  let edits := renamed ++ millis ++ lexical ++ desugared in
  let structural := unwraps ++ flattens ++ clauses ++ brackets in
  let edits := match structural with [] => edits | _ => retain_outside structural edits ++ structural end in
  let replaces := from_epoch (fun epoch => replace_rules_in_range epoch CURRENT_EPOCH) in
  edits ← match replaces with
          | [] => Ok edits
          | _ => replacements ← collect_replace_edits src replaces edits;
                 Ok (retain_outside replacements edits ++ replacements)
          end;
  tag ← epoch_edits source epoch_info;
  let edits := edits ++ tag in
  match edits with
  | [] => Ok None
  | _ => result ← apply_edits source edits; Ok (Some (result, length edits))
  end.

(** ** Library rules *)

Record LibraryRules := mkLibraryRules {
  lr_renames : list (Text * Text);
  lr_replaces : list (Text * nat * Text);
  lr_reports : list (Text * Text) }.

Record Occurrence := mkOccurrence { oc_name : Text; oc_message : Text; oc_line : N }.

Record Applied := mkApplied { ap_source : Text; ap_count : nat; ap_reports : list Occurrence }.

Definition MAX_PASSES : nat := 10.

(** [source_text] *)
Definition source_text (t : Text) (name : list N) (F : Files) : Rewrites SourceText :=
  info ← rw_epoch (detect_epoch_in_source t F);
  Ok (mkSource t name (for_epoch (match info with Some (epoch, _, _) => epoch | None => CURRENT_EPOCH end))).

Definition one_pass (t : Text) (name : list N) (rules : LibraryRules) (F : Files) : Rewrites (list Edit) :=
  st ← source_text t name F;
  replacements ← match lr_replaces rules with [] => Ok [] | rs => collect_replace_edits st rs [] end;
  edits ← match lr_renames rules with [] => Ok [] | rs => collect_edits st [rename_apply rs] end;
  Ok (retain_outside replacements edits ++ replacements).

Definition token_reports (wanted : list (Text * Text)) (tw : TokenWithLoc) : list Occurrence :=
  match tw_token tw with
  | Symbol s => omap (fun '(n, msg) => if decide (n = s) then Some (mkOccurrence n msg (loc_line (tw_loc tw))) else None) wanted
  | _ => []
  end.

Definition collect_reports (t : Text) (name : list N) (wanted : list (Text * Text)) (F : Files) : Rewrites (list Occurrence) :=
  match wanted with
  | [] => Ok []
  | _ => st ← source_text t name F; ts ← tokens st; Ok (concat (map (token_reports wanted) ts))
  end.

(** The loop over the passes left. *)
Fixpoint library_passes (passes : nat) (name : list N) (rules : LibraryRules) (F : Files)
    (t : Text) (count : nat) : Rewrites (Text * nat) :=
  match passes with
  | O => Err RW_Diverges
  | S passes =>
    edits ← one_pass t name rules F;
    match edits with
    | [] => Ok (t, count)
    | _ => t ← apply_edits t edits; library_passes passes name rules F t (count + length edits)
    end
  end.

Definition apply_library_rules (source : Text) (name : list N) (rules : LibraryRules) (F : Files) : Rewrites Applied :=
  reports ← collect_reports source name (lr_reports rules) F;
  '(t, count) ← library_passes MAX_PASSES name rules F source 0;
  Ok (mkApplied t count reports).
End File.
