(* ===== verification/RewriteProps.v ===== *)
(** * What a rewrite promises

    [apply_edits_exact]: edits applied from the back of the text give the text
    in which every span is replaced at once, unless two of them overlap.
    [skip_one_form_exact]: the walk over tokens finds the end of a form that has
    no byte literal in it; two theorems show what the rewriter does with a form
    that has one, and with an unwrapped body.  [rewrite_ends]: no fuel of the
    rewriter is ever short. *)

From stdpp Require Import base numbers option list strings sorting.
From S2P Require Import Prelude LirRecord Files ValueTree Scalar Text Escape Lexer LexerProps LexerTiles SynReader SynGrammar SynPrint ReaderProps EpochRules Epoch EpochTemplate EpochProps Rewrite.

Local Open Scope N_scope.

(** ** A text cut at its edits *)

(** What an edit takes out, what it puts there, and the text up to the next. *)
Record Piece := mkPiece { pc_old : Text; pc_new : Text; pc_gap : Text }.

Definition pieces_text (part : Piece -> Text) (ps : list Piece) : Text :=
  concat (map (fun p => part p ++ pc_gap p) ps).

(** The edits of a text cut so, [at_] bytes into it. *)
Fixpoint edits_of (at_ : N) (ps : list Piece) : list Edit :=
  match ps with
  | [] => []
  | p :: ps => mkEdit at_ (blen (pc_old p)) (pc_new p) :: edits_of (at_ + blen (pc_old p ++ pc_gap p)) ps
  end.

Lemma split_bytes_Some n t a b : split_bytes n t = Some (a, b) -> t = a ++ b /\ blen a = n.
Proof.
  revert n a. induction t as [|c t IH]; intros n a; cbn; destruct (N.eqb_spec n 0) as [->|Hn]; try (intros [= <- <-]; done); try done.
  destruct (N.leb_spec (len_utf8 c) n) as [Hl|]; [|done].
  destruct (split_bytes (n - len_utf8 c) t) as [[a' b']|] eqn:Hs; [|done]. cbn. intros [= <- <-].
  apply IH in Hs as [-> Ha]. split; [done|]. cbn. lia.
Qed.

Lemma replace_range_app a old b by_ :
  replace_range (a ++ old ++ b) (blen a) (blen a + blen old) by_ = Ok (a ++ by_ ++ b).
Proof.
  unfold replace_range, range_len. rewrite (proj2 (N.ltb_ge _ _)) by lia. cbn.
  rewrite split_bytes_app. cbn. replace (blen a + blen old - blen a) with (blen old) by lia. by rewrite split_bytes_app.
Qed.

(** An edit whose ends are no inside of a character. *)
Definition on_boundaries (t : Text) (e : Edit) : Prop :=
  is_Some (split_bytes (ed_offset e) t) /\ is_Some (split_bytes (ed_offset e + ed_len e) t).

(** Where the end of an edit has not wrapped. *)
Definition unwrapped (e : Edit) : Prop := ed_end e = ed_offset e + ed_len e.

Lemma boundaries_unwrapped t e : blen t < USIZE -> on_boundaries t e -> unwrapped e.
Proof.
  intros Ht [_ [[b r] Hs]]. apply split_bytes_Some in Hs as [-> Hb]. rewrite blen_app in Ht. apply N.mod_small. lia.
Qed.

(** A prefix of [a ++ b] no longer than [a]. *)
Lemma prefix_within (a b x y : Text) : a ++ b = x ++ y -> blen x <= blen a -> exists g, a = x ++ g /\ y = g ++ b.
Proof.
  revert x. induction a as [|c a IH]; intros [|d x] Heq Hle.
  - by exists [].
  - cbn in Hle. pose proof (len_utf8_pos d). lia.
  - by exists (c :: a).
  - injection Heq as -> Heq. cbn in Hle. destruct (IH x Heq) as (g & -> & ->); [lia|]. by exists g.
Qed.

Lemma boundary_pieces t p r e : t = p ++ r -> on_boundaries t e -> unwrapped e -> ed_end e <= blen p ->
  exists q old g, p = q ++ old ++ g /\ ed_offset e = blen q /\ ed_len e = blen old.
Proof.
  intros -> [[[a a'] Ha] [[b b'] Hb]] Hun He. rewrite Hun in He. apply split_bytes_Some in Ha as [Ha Hal], Hb as [Hb Hbl].
  destruct (prefix_within p r b b' Hb ltac:(lia)) as (g & -> & _). rewrite <- app_assoc in Ha.
  destruct (prefix_within b (g ++ r) a a' Ha) as (old & -> & _).
  { rewrite Hal, Hbl. lia. }
  exists a, old, g. rewrite <- app_assoc. split; [done|]. rewrite blen_app in Hbl. lia.
Qed.

Lemma overlapping_tail e es : overlapping (e :: es) = None -> overlapping es = None /\ match es with e' :: _ => ed_end e' <= ed_offset e | [] => True end.
Proof. destruct es as [|e' es]; [done|]. cbn. destruct (N.ltb_spec (ed_offset e) (ed_end e')); [done|]. by split. Qed.

(** Edits from the back of [p], none over another: they cut it. *)
Lemma sorted_applies es p ps : overlapping es = None -> Forall unwrapped es -> Forall (on_boundaries (p ++ pieces_text pc_old ps)) es ->
  match es with e :: _ => ed_end e <= blen p | [] => True end ->
  exists q ps', apply_sorted es (p ++ pieces_text pc_new ps) = Ok (q ++ pieces_text pc_new ps')
    /\ q ++ pieces_text pc_old ps' = p ++ pieces_text pc_old ps
    /\ edits_of (blen q) ps' = rev es ++ edits_of (blen p) ps.
Proof.
  revert p ps. induction es as [|e es IH]; intros p ps Hno Hun Hb Hend; [by exists p, ps|].
  apply Forall_cons in Hun as [Hu Hun]. apply overlapping_tail in Hno as [Hno Hnext]. apply Forall_cons in Hb as [He Hb].
  destruct (boundary_pieces _ p _ e eq_refl He Hu Hend) as (q & old & g & -> & Hoff & Hlen).
  set (ps1 := mkPiece old (ed_text e) g :: ps).
  assert ((q ++ old ++ g) ++ pieces_text pc_old ps = q ++ pieces_text pc_old ps1) as Hold.
  { unfold ps1, pieces_text. cbn. by rewrite <- !app_assoc. }
  rewrite Hold in Hb. destruct (IH q ps1 Hno Hun Hb) as (q' & ps' & Hap & Ho & Hed).
  { destruct es; [done|]. by rewrite <- Hoff. }
  exists q', ps'. split; [|split].
  - cbn [apply_sorted]. rewrite Hu, Hoff, Hlen, <- !app_assoc, replace_range_app. cbn.
    rewrite <- Hap. f_equal. unfold ps1, pieces_text. cbn. by rewrite <- !app_assoc.
  - by rewrite Ho, Hold.
  - rewrite Hed. cbn. rewrite <- app_assoc. cbn. rewrite <- Hlen, <- Hoff, (blen_app q), Hoff. destruct e; cbn in *. subst. done.
Qed.

(** ** The sort *)

Definition key_le (a b : Edit) : Prop := key_below b a = false.

Lemma key_below_spec a b : key_below a b = true <-> ed_offset a < ed_offset b \/ (ed_offset a = ed_offset b /\ ed_len a < ed_len b).
Proof. unfold key_below. rewrite orb_true_iff, andb_true_iff, !N.ltb_lt, N.eqb_eq. done. Qed.

Lemma key_le_spec a b : key_le a b <-> ed_offset a < ed_offset b \/ (ed_offset a = ed_offset b /\ ed_len a <= ed_len b).
Proof.
  unfold key_le. pose proof (key_below_spec b a). destruct (key_below b a).
  - split; [done|]. intros. destruct H as [H _]. specialize (H eq_refl). lia.
  - split; [|done]. intros _. destruct H as [_ H].
    destruct (decide (ed_offset a < ed_offset b \/ (ed_offset a = ed_offset b /\ ed_len a <= ed_len b))) as [|Hn]; [done|].
    exfalso. assert (false = true) by (apply H; lia). done.
Qed.

Lemma sort_insert_perm e es : sort_insert e es ≡ₚ e :: es.
Proof. induction es as [|e' es IH]; cbn; [done|]. destruct (key_below e e'); [|done]. rewrite IH. apply perm_swap. Qed.

Lemma sort_edits_perm es : sort_edits es ≡ₚ es.
Proof. induction es as [|e es IH]; cbn; [done|]. by rewrite sort_insert_perm, IH. Qed.

(** Sorted from the back. *)
Definition descends : list Edit -> Prop := StronglySorted (fun a b => key_le b a).

Lemma sort_insert_descends e es : descends es -> descends (sort_insert e es).
Proof.
  intros Hs. induction Hs as [|e' es Hs IH Hf]; cbn; [repeat constructor|]. destruct (key_below e e') eqn:Hk.
  - constructor; [done|]. rewrite sort_insert_perm. constructor; [|done]. apply key_le_spec. apply key_below_spec in Hk. lia.
  - constructor; [by constructor|]. constructor; [done|]. rewrite Forall_forall in Hf |- *. intros x Hx. apply Hf in Hx.
    apply key_le_spec in Hk. rewrite key_le_spec in *. lia.
Qed.

Lemma sort_edits_descends es : descends (sort_edits es).
Proof. induction es; cbn; [constructor|]. by apply sort_insert_descends. Qed.

(** The second of two edits starts inside the first, or at its start with both
    replacing text. *)
Definition overlap (a b : Edit) : Prop :=
  ed_offset a <= ed_offset b /\ ed_offset b < ed_end a /\ (ed_offset a = ed_offset b -> ed_len a <= ed_len b).

Lemma overlapping_Some es a b : descends es -> overlapping es = Some (a, b) -> overlap a b /\ exists rest, es ≡ₚ a :: b :: rest.
Proof.
  intros Hs. induction Hs as [|later es Hs IH Hf]; [done|]. destruct es as [|earlier es]; [done|]. cbn [overlapping].
  destruct (N.ltb_spec (ed_offset later) (ed_end earlier)) as [Ho|Ho].
  - intros [= <- <-]. split; [|exists es; apply perm_swap]. apply Forall_cons in Hf as [Hk%key_le_spec _]. unfold overlap. lia.
  - intros H. destruct (IH H) as [Hov [rest Hp]]. split; [done|]. exists (later :: rest).
    rewrite Hp. change (a :: b :: later :: rest) with ([a; b] ++ later :: rest). by rewrite <- Permutation_middle.
Qed.

(** C19: edits on character boundaries are either applied all at once or refused.
    When [apply_edits] answers a text, the source is cut at exactly the spans of
    the edits, in order, and the answer is the same text with each span's bytes
    replaced and every byte outside a span kept; when it answers an error, two
    of the edits overlap.  It never splits a character and never goes past the
    end. *)
Theorem apply_edits_exact (source : Text) (edits : list Edit) : blen source < USIZE -> Forall (on_boundaries source) edits ->
  match apply_edits source edits with
  | Ok out => exists lead ps, source = lead ++ pieces_text pc_old ps /\ edits ≡ₚ edits_of (blen lead) ps
                /\ out = lead ++ pieces_text pc_new ps
  | Err (RW_Overlap a b) => overlap a b /\ exists rest, edits ≡ₚ a :: b :: rest
  | _ => False
  end.
Proof.
  intros Hlen Hb. unfold apply_edits. pose proof (sort_edits_perm edits) as Hp. pose proof (sort_edits_descends edits) as Hs.
  set (es := sort_edits edits) in *. destruct (overlapping es) as [[a b]|] eqn:Ho.
  - destruct (overlapping_Some _ _ _ Hs Ho) as [Hov [rest Hr]]. split; [done|]. exists rest. by rewrite <- Hp.
  - destruct (sorted_applies es source [] Ho) as (q & ps & Hap & Hold & Hed).
    + rewrite Hp. eapply Forall_impl; [exact Hb|]. intros e He. exact (boundaries_unwrapped _ _ Hlen He).
    + unfold pieces_text. cbn. rewrite app_nil_r. by rewrite Hp.
    + destruct es as [|e es]; [done|]. rewrite <- Hp in Hb. apply Forall_cons in Hb as [He _].
      rewrite (boundaries_unwrapped _ _ Hlen He). destruct He as [_ [[b r] Hsp]]. apply split_bytes_Some in Hsp as [-> <-]. rewrite blen_app. lia.
    + unfold pieces_text in Hap, Hold at 2. cbn in Hap, Hold. rewrite app_nil_r in Hap, Hold. rewrite Hap.
      exists q, ps. split; [done|]. split; [|done]. rewrite Hed. cbn. rewrite app_nil_r, <- Permutation_rev. by rewrite Hp.
Qed.

(** ** Edits in the order of the text *)

Lemma edits_of_after at_ ps : Forall (fun e => at_ <= ed_offset e) (edits_of at_ ps).
Proof.
  revert at_. induction ps as [|p ps IH]; intros at_; cbn; constructor; [cbn; lia|].
  eapply Forall_impl; [apply IH|]. intros e He. cbn in He. lia.
Qed.

Lemma sort_insert_last e es : Forall (fun e' => key_below e e' = true) es -> sort_insert e es = es ++ [e].
Proof. induction 1 as [|e' es He _ IH]; cbn; [done|]. by rewrite He, IH. Qed.

Lemma sort_edits_of at_ ps : Forall (fun p => pc_old p <> []) ps -> sort_edits (edits_of at_ ps) = rev (edits_of at_ ps).
Proof.
  intros Hne. revert at_. induction Hne as [|p ps Hp _ IH]; intros at_; cbn; [done|]. rewrite IH. apply sort_insert_last.
  rewrite <- Permutation_rev. eapply Forall_impl; [apply edits_of_after|]. intros e He. apply key_below_spec. cbn in He |- *.
  pose proof (blen_pos _ Hp). rewrite blen_app in He. lia.
Qed.

Lemma overlapping_snoc es e : overlapping es = None -> Forall (fun e' => ed_end e <= ed_offset e') es -> overlapping (es ++ [e]) = None.
Proof.
  intros Ho Hf. induction es as [|a es IH]; [done|]. apply Forall_cons in Hf as [Ha Hf]. destruct es as [|b es].
  - cbn. by rewrite (proj2 (N.ltb_ge _ _)).
  - cbn in *. destruct (ed_offset a <? ed_end b); [done|]. by apply IH.
Qed.

Lemma edits_of_apart at_ ps : at_ + blen (pieces_text pc_old ps) < USIZE -> overlapping (rev (edits_of at_ ps)) = None.
Proof.
  revert at_. induction ps as [|p ps IH]; intros at_ Hl; [done|]. unfold pieces_text in Hl. cbn in Hl. rewrite blen_app, blen_app in Hl.
  cbn [edits_of rev]. apply overlapping_snoc; [apply IH; unfold pieces_text; rewrite blen_app; lia|].
  rewrite <- Permutation_rev. eapply Forall_impl; [apply edits_of_after|]. intros e He. cbn in He. unfold ed_end. cbn. rewrite blen_app in He.
  rewrite N.mod_small; lia.
Qed.

Lemma apply_sorted_app es es' t : apply_sorted (es ++ es') t = apply_sorted es t ≫= apply_sorted es'.
Proof.
  revert t. induction es as [|e es IH]; intros t; cbn; [done|]. destruct (replace_range _ _ _ _); try done. cbn. apply IH.
Qed.

(** Edits taken from a cut text apply to what the cut says. *)
Lemma apply_pieces lead ps : blen (lead ++ pieces_text pc_old ps) < USIZE -> Forall (fun p => pc_old p <> []) ps ->
  apply_edits (lead ++ pieces_text pc_old ps) (edits_of (blen lead) ps) = Ok (lead ++ pieces_text pc_new ps).
Proof.
  intros Hl Hne. unfold apply_edits. rewrite (sort_edits_of _ _ Hne), edits_of_apart by (by rewrite <- blen_app). clear Hne.
  revert lead Hl. induction ps as [|[old new gap] ps IH]; intros lead Hl; [done|]. cbn. rewrite apply_sorted_app.
  specialize (IH (lead ++ old ++ gap)). rewrite (blen_app lead (old ++ gap)) in IH. unfold pieces_text in *. cbn in *.
  rewrite <- !app_assoc in IH |- *. rewrite <- !app_assoc in Hl. rewrite (IH Hl). cbn [mbind Out_bind apply_sorted]. unfold ed_end. cbn [ed_offset ed_len ed_text].
  rewrite N.mod_small by (rewrite !blen_app in Hl; lia). by rewrite <- !app_assoc, replace_range_app.
Qed.

(** ** Walking forms *)

(** No byte literal in the form. *)
Fixpoint byteless (e : Syntax) : bool :=
  let '(mkSyntax k _) := e in
  match k with
  | SK_Seq make items => negb (bool_decide (make ∈ [SK_Bytes; SK_BytesMut])) && forallb byteless items
  | SK_Wrap _ inner => byteless inner
  | _ => true
  end.

(** Tokens that leave the depth as it was, and are not the end of the form
    around them. *)
Definition neutral (u : list Token) : Prop := forall cs rest pos d, map ct_token cs = u -> (1 <= d)%Z ->
  balanced_loop (cs ++ rest) pos d = balanced_loop rest (pos + length cs) d.

Lemma neutral_nil : neutral [].
Proof. intros [|] rest pos d; [|done]. intros _ _. cbn. by rewrite Nat.add_0_r. Qed.

Lemma neutral_app u v : neutral u -> neutral v -> neutral (u ++ v).
Proof.
  intros Hu Hv cs rest pos d Hc Hd. apply map_eq_app in Hc as (a & b & -> & Ha & Hb).
  rewrite <- app_assoc, (Hu a _ _ _ Ha Hd), (Hv b _ _ _ Hb Hd), length_app. f_equal. lia.
Qed.

Lemma neutral_one t : opens_form t = false -> closes_form t = false -> neutral [t].
Proof. intros Ho Hc [|c [|]] rest pos d [= <-] Hd. cbn. rewrite Ho, Hc. f_equal. lia. Qed.

Lemma neutral_cons t u : opens_form t = false -> closes_form t = false -> neutral u -> neutral (t :: u).
Proof. intros Ho Hc Hu. apply (neutral_app [t] u); [by apply neutral_one | done]. Qed.

Lemma neutral_pair o u c : opens_form o = true -> closes_form c = true -> neutral u -> neutral (o :: u ++ [c]).
Proof.
  intros Ho Hc Hu cs rest pos d Hm Hd. destruct cs as [|co cs]; [done|]. injection Hm as Hco Hm.
  apply map_eq_app in Hm as (a & [|cc [|]] & -> & Ha & [= Hcc]). cbn. rewrite Hco, Ho, <- app_assoc, (Hu a _ _ _ Ha) by lia.
  cbn. rewrite Hcc, Hc. rewrite length_app. cbn. assert (opens_form c = false) as -> by (by destruct c).
  destruct (Z.eqb_spec (d + 1 - 1) 0); [lia|]. f_equal; lia.
Qed.

Lemma neutral_concat us : Forall neutral us -> neutral (concat us).
Proof. induction 1; cbn; [apply neutral_nil | by apply neutral_app]. Qed.

Lemma byteless_items items (P : Syntax -> Prop) : Forall (fun e => byteless e = true -> shaped e = true -> P e) items ->
  forallb byteless items = true -> forallb shaped items = true -> Forall P items.
Proof.
  intros Hf Hb Hs. rewrite forallb_forall in Hb, Hs. rewrite Forall_forall in Hf |- *. intros e He.
  apply Hf; [done|apply Hb|apply Hs]; by apply list_elem_of_In.
Qed.

Lemma tree_neutral e : byteless e = true -> shaped e = true -> neutral (tree_tokens e).
Proof.
  induction e as [make items sp IH|make inner sp IH|k sp Hk] using syntax_rect; cbn; intros Hb Hs.
  - apply andb_true_iff in Hb as [Hm Hb], Hs as [Hs _].
    assert (neutral (concat (map tree_tokens items))) as Hn.
    { apply neutral_concat, Forall_map. exact (byteless_items _ _ IH Hb Hs). }
    destruct make; try discriminate Hm; cbn;
      first [by apply neutral_pair | apply neutral_cons; [done..|]; by apply neutral_pair
            | apply neutral_cons; [done..|]; apply neutral_app; [done | by apply neutral_one]].
  - apply andb_true_iff in Hs as [_ Hs]. apply neutral_app; [|by apply IH]. destruct make; [by apply neutral_one..|apply neutral_nil].
  - destruct k; try done; try by apply neutral_one. by apply neutral_cons, neutral_one.
Qed.

(** The walk from an opening delimiter to its closing one. *)
Lemma skip_balanced_exact pre o cs c post : opens_form (ct_token o) = true -> closes_form (ct_token c) = true ->
  neutral (map ct_token cs) -> skip_balanced_form (pre ++ (o :: cs ++ [c]) ++ post) (length pre) = (length pre + (length cs + 2))%nat.
Proof.
  intros Ho Hc Hn. unfold skip_balanced_form. rewrite drop_app_length. cbn. rewrite Ho. rewrite <- app_assoc, (Hn cs) by done.
  cbn. assert (opens_form (ct_token c) = false) as -> by (by destruct (ct_token c)). rewrite Hc. change (0 + 1 - 1 =? 0)%Z with true. cbn. lia.
Qed.

(** The walk over one form answers where it ends. *)
Definition walks (e : Syntax) : Prop := forall n pre cs post, map ct_token cs = tree_tokens e -> (length cs <= n)%nat ->
  skip_one_from n (pre ++ cs ++ post) (length pre) = Ok (length pre + length cs)%nat.

Lemma lookup_mid {A} (pre post : list A) x : (pre ++ x :: post) !! length pre = Some x.
Proof. by rewrite lookup_app_r, Nat.sub_diag by lia. Qed.

(** One step of the walk, on the token it stands at. *)
Lemma skip_one_at n pre t post : skip_one_from (S n) (pre ++ t :: post) (length pre) =
  match ct_token t with
  | LeftParen | LeftBracket | LeftBrace => Ok (skip_balanced_form (pre ++ t :: post) (length pre))
  | Pipe | AtPipe => skip_pipe_loop (skip_one_from n (pre ++ t :: post)) (S (length (pre ++ t :: post))) (pre ++ t :: post) (S (length pre))
  | Quote | Quasiquote | Unquote | UnquoteSplicing | Splice | ListSugar => skip_one_from n (pre ++ t :: post) (S (length pre))
  | _ => Ok (S (length pre))
  end.
Proof. cbn [skip_one_from]. by rewrite lookup_mid. Qed.

Lemma snoc_pre {A} (pre : list A) x cs : pre ++ x :: cs = (pre ++ [x]) ++ cs.
Proof. by rewrite <- app_assoc. Qed.

Lemma length_snoc {A} (pre : list A) x : length (pre ++ [x]) = S (length pre).
Proof. rewrite length_app. cbn. lia. Qed.

(** The walk over the elements of a set, up to the closing bar. *)
Lemma pipe_walk n m items pre cs c post : Forall walks items -> Forall (fun e => shaped e = true /\ is_set e = false) items ->
  map ct_token cs = concat (map tree_tokens items) -> ct_token c = Pipe -> (length cs <= n)%nat -> (length cs < m)%nat ->
  skip_pipe_loop (skip_one_from n (pre ++ cs ++ c :: post)) m (pre ++ cs ++ c :: post) (length pre) = Ok (length pre + (length cs + 1))%nat.
Proof.
  intros Hw. revert m pre cs. induction Hw as [|e items He _ IH]; intros m pre cs Hsh Hm Hc Hn Hlm; (destruct m as [|m]; [lia|]).
  - cbn in Hm. apply map_eq_nil in Hm as ->. cbn [skip_pipe_loop app]. rewrite lookup_mid.
    rewrite decide_True by done. cbn. f_equal. lia.
  - apply Forall_cons in Hsh as [[Hse Hset] Hsh]. cbn in Hm. apply map_eq_app in Hm as (a & b & -> & Ha & Hb).
    destruct (head_token e Hse) as (t & q & Ht & _ & _ & _ & Hnp). specialize (Hnp Hset). rewrite Ht in Ha.
    destruct a as [|ca a]; [done|]. rewrite length_app in Hn, Hlm. cbn in Hn, Hlm.
    pose proof (He n pre (ca :: a) (b ++ c :: post)) as Hstep. rewrite Ht in Hstep. specialize (Hstep Ha ltac:(cbn; lia)).
    rewrite <- (app_assoc (ca :: a)). cbn [skip_pipe_loop]. injection Ha as Hca Ha. cbn [app] in *. rewrite lookup_mid.
    rewrite decide_False by congruence. rewrite Hstep. cbn [mbind Out_bind].
    specialize (IH m (pre ++ ca :: a) b Hsh Hb Hc ltac:(lia) ltac:(lia)). rewrite length_app, <- app_assoc in IH. cbn [app length] in IH.
    cbn [length]. rewrite IH. f_equal. rewrite length_app. cbn. lia.
Qed.

(** The tokens of a delimited form. *)
Lemma delimited_tokens {A} (f : A -> Token) cs o u c : map f cs = o :: u ++ [c] ->
  exists x a y, cs = x :: a ++ [y] /\ f x = o /\ map f a = u /\ f y = c.
Proof.
  destruct cs as [|x cs]; [done|]. intros [= Hx Hcs]. apply map_eq_app in Hcs as (a & [|y [|]] & -> & Ha & [= Hy]).
  by exists x, a, y.
Qed.

Lemma bracket_walks n pre o a c post : opens_form (ct_token o) = true -> closes_form (ct_token c) = true ->
  neutral (map ct_token a) ->
  skip_one_from (S n) (pre ++ (o :: a ++ [c]) ++ post) (length pre) = Ok (length pre + length (o :: a ++ [c]))%nat.
Proof.
  intros Ho Hc Hn. cbn [app]. rewrite skip_one_at. pose proof (skip_balanced_exact pre o a c post Ho Hc Hn) as Hb.
  cbn [app] in Hb. rewrite Hb.
  destruct (ct_token o); try discriminate Ho; cbn; rewrite length_app; cbn; f_equal; lia.
Qed.

Lemma set_walks n items pre o a c post : ct_token o = Pipe \/ ct_token o = AtPipe -> ct_token c = Pipe ->
  Forall walks items -> Forall (fun e => shaped e = true /\ is_set e = false) items ->
  map ct_token a = concat (map tree_tokens items) -> (length a <= n)%nat ->
  skip_one_from (S n) (pre ++ (o :: a ++ [c]) ++ post) (length pre) = Ok (length pre + length (o :: a ++ [c]))%nat.
Proof.
  intros Ho Hc Hw Hs Ha Hn. cbn [app]. rewrite skip_one_at, snoc_pre, <- (app_assoc a), <- (length_snoc pre o). cbn [app].
  rewrite (pipe_walk n _ items (pre ++ [o]) a c post Hw Hs Ha Hc Hn) by (rewrite !length_app; cbn; lia).
  rewrite length_snoc. destruct Ho as [-> | ->]; cbn; rewrite length_app; cbn; f_equal; lia.
Qed.

(** The walk passes a prefix token. *)
Lemma prefix_walks n pre o cs post k : ct_token o ∈ [Quote; Quasiquote; Unquote; UnquoteSplicing; Splice; ListSugar] ->
  skip_one_from n ((pre ++ [o]) ++ cs ++ post) (length (pre ++ [o])) = Ok (length (pre ++ [o]) + k)%nat ->
  skip_one_from (S n) (pre ++ (o :: cs) ++ post) (length pre) = Ok (length pre + S k)%nat.
Proof.
  intros Ho H. rewrite <- app_assoc in H. cbn [app] in *. rewrite skip_one_at. rewrite length_snoc in H.
  rewrite !elem_of_cons in Ho. repeat destruct Ho as [-> | Ho]; [..|by apply elem_of_nil in Ho]; rewrite H; f_equal; lia.
Qed.

Lemma form_walks e : byteless e = true -> shaped e = true -> walks e.
Proof.
  induction e as [make items sp IH|make inner sp IH|k sp Hk] using syntax_rect; cbn [byteless shaped]; intros Hb Hs n pre cs post Hc Hn.
  - apply andb_true_iff in Hb as [Hm Hb], Hs as [Hs Hset].
    pose proof (byteless_items _ _ IH Hb Hs) as Hw.
    assert (neutral (concat (map tree_tokens items))) as Hne.
    { apply neutral_concat, Forall_map, (byteless_items _ (fun e => neutral (tree_tokens e))); [|done..].
      apply Forall_forall. intros e _. apply tree_neutral. }
    assert (set_like make = true -> Forall (fun e => shaped e = true /\ is_set e = false) items) as Hsi.
    { intros Hl. rewrite Hl in Hset. cbn in Hset. rewrite forallb_forall in Hs, Hset. apply Forall_forall. intros e He.
      apply list_elem_of_In in He. split; [by apply Hs|]. apply negb_true_iff. by apply Hset. }
    destruct make; try discriminate Hm; cbn [tree_tokens open_tokens close_token app] in Hc.
    all: try (apply delimited_tokens in Hc as (o & a & c & -> & Ho & Ha & Hcl); destruct n as [|n]; [cbn in Hn; lia|];
      first [ apply bracket_walks; [by rewrite Ho|by rewrite Hcl|by rewrite Ha]
            | apply (set_walks n items); auto; cbn in Hn; rewrite length_app in Hn; lia ]).
    all: destruct cs as [|s cs]; [done|]; injection Hc as Hs1 Hc; apply delimited_tokens in Hc as (o & a & c & -> & Ho & Ha & Hcl);
      destruct n as [|[|n]]; [cbn in Hn; lia..|]; apply prefix_walks; [rewrite Hs1, !elem_of_cons; tauto|];
      apply bracket_walks; [by rewrite Ho|by rewrite Hcl|by rewrite Ha].
  - apply andb_true_iff in Hs as [Hm Hs]. destruct make; try discriminate Hm; cbn in Hc;
      (destruct cs as [|o cs]; [done|]); injection Hc as Ho Hc; (destruct n as [|n]; [cbn in Hn; lia|]);
      (apply prefix_walks; [rewrite Ho, !elem_of_cons; tauto|]); apply IH; try done; cbn in Hn; lia.
  - destruct cs as [|o cs]; [by destruct k|]. destruct n as [|n]; [cbn in Hn; lia|].
    destruct k as [| | | | | | |x| |]; try done; injection Hc as Ho Hc.
    8:{ destruct cs as [|o' [|]]; try done. injection Hc as Ho'. destruct n as [|n]; [cbn in Hn; lia|].
        apply prefix_walks; [rewrite Ho, !elem_of_cons; tauto|]. cbn [app]. rewrite skip_one_at, Ho'. cbn. f_equal. lia. }
    all: apply map_eq_nil in Hc as ->; cbn [app]; rewrite skip_one_at, Ho; cbn; f_equal; lia.
Qed.

(** C20: over the tokens of a form that holds no byte literal, whatever stands
    before and after it, [skip_one_form] answers exactly where the form ends. *)
Theorem skip_one_form_exact (e : Syntax) (pre cs post : list CodeToken) : shaped e = true -> byteless e = true ->
  map ct_token cs = tree_tokens e ->
  skip_one_form (pre ++ cs ++ post) (length pre) = Ok (length pre + length cs)%nat.
Proof. intros Hs Hb Hc. apply (form_walks e Hb Hs (S _) pre cs post Hc). rewrite !length_app. lia. Qed.

(** ** On concrete sources *)

Definition script_name : list N := text "script.lisp".

Definition reads_forms (source : Text) : Prop := exists fs F, read_syntax_all source script_name FILES_init = Ok (fs, F).

(** C38: a byte literal's closing bracket ends the form around it for the
    rewriter, so that rewriting a source that reads can answer a text that does
    not, or panic: the bindings of [(let ((x b[1])) x)] get one delimiter of
    their own and one of the pair inside them; the clause of
    [(cond (x |b[1] (y b[2])|))] is taken to end inside its second form. *)
Theorem byte_literal_breaks_rewrite :
  (reads_forms (text "(let ((x b[1])) x)") /\
   exists out n, rewrite_file (text "(let ((x b[1])) x)") script_name FILES_init = Ok (Some (out, n))
     /\ out = text "(elle/epoch 15)" ++ NEWLINE :: text "(let [(x b[1]]) x)" /\ ~ reads_forms out) /\
  (reads_forms (text "(elle/epoch 8) (cond (x |b[1] (y b[2])|))") /\
   rewrite_file (text "(elle/epoch 8) (cond (x |b[1] (y b[2])|))") script_name FILES_init = Panics).
Proof.
  split; split.
  - eexists _, _. vm_compute. reflexivity.
  - eexists _, _. split; [vm_compute; reflexivity|]. split; [vm_compute; reflexivity|]. intros (fs & F & H). vm_compute in H. discriminate H.
  - eexists _, _. vm_compute. reflexivity.
  - vm_compute. reflexivity.
Qed.

(** C39: the body an unwrap takes out of its thunk is copied as it was written,
    and the edits inside it are dropped: the file that [elle rewrite] marks as
    of the current epoch still calls the old [car], where the migration of the
    tree, from the same declaration, calls [first]. *)
Theorem unwrapped_body_keeps_names :
  let source := text "(elle/epoch 5) (ev/run (fn [] (car x)))" in
  rewrite_file source script_name FILES_init = Ok (Some (text "(elle/epoch 15)" ++ NEWLINE :: text "(car x)", 3%nat)) /\
  exists fs rest F fs' c F', read_syntax_all source script_name FILES_init = Ok (fs, F)
    /\ extract_epoch fs = Ok (Some 5, rest) /\ migrate_forms no_debug 9 rest 5 F = Ok (fs', c, F')
    /\ map (show no_debug) fs' = [text "(first x)"].
Proof.
  split; [vm_compute; reflexivity|]. eexists _, _, _, _, _, _.
  split; [vm_compute; reflexivity|]. split; [vm_compute; reflexivity|]. split; vm_compute; reflexivity.
Qed.

Definition two_edits : list Edit := [mkEdit 1 3 (text "first"); mkEdit 5 0 (text "(f ")].

Lemma apply_edits_exact_witness : blen (text "(car x)") < USIZE /\ Forall (on_boundaries (text "(car x)")) two_edits /\
  match apply_edits (text "(car x)") two_edits with
  | Ok out => exists lead ps, text "(car x)" = lead ++ pieces_text pc_old ps /\ two_edits ≡ₚ edits_of (blen lead) ps
                /\ out = lead ++ pieces_text pc_new ps
  | Err (RW_Overlap a b) => overlap a b /\ exists rest, two_edits ≡ₚ a :: b :: rest
  | _ => False
  end.
Proof.
  assert (Forall (on_boundaries (text "(car x)")) two_edits) as Hb by (repeat constructor; eexists; vm_compute; reflexivity).
  split; [reflexivity|]. split; [exact Hb|]. exact (apply_edits_exact (text "(car x)") two_edits eq_refl Hb).
Defined.

(** The tokens of ['(f |a|)] in [(g '(f |a|) y)]. *)
Definition quoted_call : Syntax :=
  mkSyntax (SK_Wrap SK_Quote (mkSyntax (SK_Seq SK_List
    [sym "f" Span_synthetic; mkSyntax (SK_Seq SK_Set [sym "a" Span_synthetic]) Span_synthetic]) Span_synthetic)) Span_synthetic.

Definition tokens_of (ts : list Token) : list CodeToken := imap (fun i t => (t, N.of_nat i, 1)) ts.

Lemma skip_one_form_exact_witness : shaped quoted_call = true /\
  skip_one_form (tokens_of [LeftParen; Symbol (text "g")] ++ tokens_of (tree_tokens quoted_call) ++ tokens_of [Symbol (text "y"); RightParen]) 2 = Ok 9%nat.
Proof.
  split; [reflexivity|].
  apply (skip_one_form_exact quoted_call (tokens_of [LeftParen; Symbol (text "g")]) (tokens_of (tree_tokens quoted_call))); reflexivity.
Defined.

(** ** Ending

    No fuel of the rewriter is ever short: [rewrite_ends]. *)

(** Not out of fuel, and [P] of a result. *)
Definition ends {E A} (m : Out E A) (P : A -> Prop) : Prop :=
  match m with Ok a => P a | Starved => False | _ => True end.

Abbreviation ends_at_all m := (ends m (fun _ => True)).

Lemma ends_after {E A B} (m : Out E A) (f : A -> Out E B) (P : A -> Prop) (Q : B -> Prop) :
  ends m P -> (forall a, P a -> ends (f a) Q) -> ends (m ≫= f) Q.
Proof. destruct m; cbn; auto. Qed.

Lemma ends_then {E A B} (m : Out E A) (f : A -> Out E B) (Q : B -> Prop) :
  ends_at_all m -> (forall a, ends (f a) Q) -> ends (m ≫= f) Q.
Proof. destruct m; cbn; auto. Qed.

Lemma ends_mono {E A} (m : Out E A) (P Q : A -> Prop) : ends m P -> (forall a, P a -> Q a) -> ends m Q.
Proof. destruct m; cbn; auto. Qed.

Lemma ends_panics {A} (o : option A) : ends_at_all (or_panics o).
Proof. by destruct o. Qed.

Lemma ends_range a b : ends_at_all (range_len a b).
Proof. unfold range_len. by destruct (a <? b). Qed.

Lemma ends_yields {E A} (m : Out E A) P : yields m P -> ends m P.
Proof. by destruct m. Qed.

Create HintDb ends.
#[export] Hint Resolve ends_panics ends_range : ends.

(** Goes through the steps of a body that has no loop. *)
Ltac ends :=
  repeat match goal with
  | |- forall _, _ => intro
  | |- ends (_ ≫= _) _ => apply ends_then; [solve [auto with ends]|]
  | |- ends (let _ := _ in _) _ => cbv zeta
  | |- ends (match ?x with _ => _ end) _ => destruct x
  | |- ends (Ok _) _ => cbn
  | |- ends (Err _) _ => exact I
  | |- ends Panics _ => exact I
  | _ => progress auto with ends
  end.

Lemma slice_ends t a b : ends_at_all (slice t a b).
Proof. unfold slice. ends. Qed.

Lemma replace_range_ends t a b by_ : ends_at_all (replace_range t a b by_).
Proof. unfold replace_range. ends. Qed.
#[export] Hint Resolve slice_ends replace_range_ends : ends.

Lemma apply_sorted_ends es t : ends_at_all (apply_sorted es t).
Proof. revert t. induction es; intros t; cbn; ends. Qed.
#[export] Hint Resolve apply_sorted_ends : ends.

Lemma apply_edits_ends t es : ends_at_all (apply_edits t es).
Proof. unfold apply_edits. ends. Qed.

Lemma start_at_ends ts i : ends_at_all (start_at ts i).
Proof. unfold start_at. ends. Qed.
Lemma end_at_ends ts i : ends_at_all (end_at ts i).
Proof. unfold end_at. ends. Qed.
Lemma edit_between_ends a b t : ends_at_all (edit_between a b t).
Proof. unfold edit_between. ends. Qed.
#[export] Hint Resolve apply_edits_ends start_at_ends end_at_ends edit_between_ends : ends.

(** *** The walk *)

Lemma balanced_after ts pos d : (pos <= balanced_loop ts pos d <= pos + length ts)%nat.
Proof.
  revert pos d. induction ts as [|t ts IH]; intros pos d; cbn; [lia|].
  pose proof (IH (S pos) (d + 1)%Z). pose proof (IH (S pos) (d - 1)%Z). pose proof (IH (S pos) d).
  repeat case_match; lia.
Qed.

Lemma skip_balanced_after ts pos : (pos < length ts)%nat -> (pos < skip_balanced_form ts pos <= length ts)%nat.
Proof.
  intros Hp. unfold skip_balanced_form. destruct (drop pos ts) as [|t r] eqn:Hd.
  - apply (f_equal length) in Hd. rewrite length_drop in Hd. cbn in Hd. lia.
  - apply (f_equal length) in Hd. rewrite length_drop in Hd. cbn in Hd. cbn.
    pose proof (balanced_after r (S pos) (0 + 1)). pose proof (balanced_after r (S pos) (0 - 1)). pose proof (balanced_after r (S pos) 0).
    repeat case_match; lia.
Qed.

Lemma skip_pipe_ends one m ts pos : (pos <= length ts)%nat -> (length ts - pos < m)%nat ->
  (forall p, (pos <= p)%nat -> (p < length ts)%nat -> ends (one p) (fun q => p < q <= length ts)%nat) ->
  ends (skip_pipe_loop one m ts pos) (fun q => pos <= q <= length ts)%nat.
Proof.
  revert pos. induction m as [|m IH]; intros pos Hp Hm Hone; [lia|]. cbn.
  destruct (ts !! pos) as [t|] eqn:Ht; [|cbn; lia]. apply lookup_lt_Some in Ht.
  destruct (decide _); [cbn; lia|]. apply (ends_after _ _ _ _ (Hone pos ltac:(lia) Ht)). intros q Hq.
  refine (ends_mono _ _ _ (IH q _ _ _) _); [lia|lia| |cbn; lia]. intros p Hpq. apply Hone. lia.
Qed.

Lemma skip_one_ends n ts pos : (length ts - pos < n)%nat -> ends (skip_one_from n ts pos) (fun q => pos < q <= length ts)%nat.
Proof.
  revert pos. induction n as [|n IH]; intros pos Hn; [lia|]. cbn.
  destruct (ts !! pos) as [t|] eqn:Ht; [|done]. apply lookup_lt_Some in Ht.
  assert (ends (skip_one_from n ts (S pos)) (fun q => pos < q <= length ts)%nat) as Hpre.
  { refine (ends_mono _ _ _ (IH (S pos) ltac:(lia)) _). cbn. lia. }
  assert (ends (skip_pipe_loop (skip_one_from n ts) (S (length ts)) ts (S pos)) (fun q => pos < q <= length ts)%nat) as Hpipe.
  { refine (ends_mono _ _ _ (skip_pipe_ends _ _ _ _ _ _ _) _); [lia|lia| |cbn; lia]. intros p Hp1 Hp2. apply IH. lia. }
  destruct (ct_token t); try done; try (cbn; lia); apply skip_balanced_after, Ht.
Qed.

Lemma skip_one_form_ends ts pos : ends (skip_one_form ts pos) (fun q => pos < q <= length ts)%nat.
Proof. apply skip_one_ends. lia. Qed.

Lemma skip_form_ends ts pos : ends_at_all (skip_one_form ts pos).
Proof. exact (ends_mono _ _ _ (skip_one_form_ends ts pos) (fun _ _ => I)). Qed.
#[export] Hint Resolve skip_form_ends : ends.

(** Each form of a run lies after where the run began. *)
Lemma forms_while_ends m go ts pos : (length ts - pos < m)%nat ->
  ends (forms_while m go ts pos) (fun '(fs, _) => Forall (fun f => pos <= f.1 < f.2 /\ f.2 <= length ts)%nat fs).
Proof.
  revert pos. induction m as [|m IH]; intros pos Hm; [lia|]. cbn. destruct (go pos); [|cbn; constructor].
  apply (ends_after _ _ _ _ (skip_one_form_ends ts pos)). intros past Hp.
  apply (ends_after _ _ _ _ (IH past ltac:(lia))). intros [fs stop] Hf. cbn. constructor; [cbn; lia|].
  eapply Forall_impl; [exact Hf|]. cbn. lia.
Qed.

Lemma forms_end go ts pos : ends_at_all (forms_while (S (length ts)) go ts pos).
Proof. exact (ends_mono _ _ _ (forms_while_ends (S (length ts)) go ts pos ltac:(lia)) (fun _ _ => I)). Qed.
#[export] Hint Resolve forms_end : ends.

(** *** The collectors *)

Lemma try_match_unwrap_ends source ts i unwraps : ends_at_all (try_match_unwrap source ts i unwraps).
Proof. unfold try_match_unwrap. ends. Qed.
#[export] Hint Resolve try_match_unwrap_ends : ends.

Lemma unwrap_loop_ends m source ts unwraps i : (length ts - i < m)%nat -> ends_at_all (unwrap_loop m source ts unwraps i).
Proof.
  revert i. induction m as [|m IH]; intros i Hm; [lia|]. cbn. destruct (ts !! i) as [t|] eqn:Ht; [|done].
  apply lookup_lt_Some in Ht. pose proof (skip_balanced_after ts i Ht).
  assert (ends_at_all (unwrap_loop m source ts unwraps (S i))) by (apply IH; lia).
  assert (ends_at_all (unwrap_loop m source ts unwraps (skip_balanced_form ts i))) by (apply IH; lia). ends.
Qed.

Lemma collect_at_ends f idx : (forall i, ends_at_all (f i)) -> ends_at_all (collect_at f idx).
Proof. intros Hf. induction idx; cbn; ends. Qed.

Lemma desugar_at_ends shorthands shebang ts i : ends_at_all (desugar_at shorthands shebang ts i).
Proof. unfold desugar_at. ends. Qed.

Lemma strip_edits_ends a b c d : ends_at_all (strip_edits a b c d).
Proof. unfold strip_edits. ends. Qed.
#[export] Hint Resolve desugar_at_ends strip_edits_ends collect_at_ends : ends.

Lemma pairs_loop_ends m ts close pos : (length ts - pos < m)%nat -> ends_at_all (pairs_loop m ts close pos).
Proof.
  revert pos. induction m as [|m IH]; intros pos Hm; [lia|]. cbn [pairs_loop]. destruct (negb _); [done|].
  destruct (ts !! pos) as [t|] eqn:Ht; [|done]. apply lookup_lt_Some in Ht. pose proof (skip_balanced_after ts pos Ht).
  assert (ends_at_all (pairs_loop m ts close (skip_balanced_form ts pos))) by (apply IH; lia). cbn [or_panics mbind Out_bind]. ends.
Qed.

Lemma try_match_flatten_ends ts i : ends_at_all (try_match_flatten ts i).
Proof.
  unfold try_match_flatten. destruct (negb _); [done|]. destruct (_ =? 0)%nat; [done|].
  apply ends_then; [apply pairs_loop_ends; lia|]. intros [[|p ps]|]; [done| |done].
  apply ends_then; [apply collect_at_ends; intros k|]; ends.
Qed.

Lemma flatten_loop_ends {A} m (at_head : Text -> option A) f ts i : (forall i a, ends_at_all (f i a)) -> (length ts - i < m)%nat ->
  ends_at_all (flatten_loop m at_head f ts i).
Proof.
  intros Hf. revert i. induction m as [|m IH]; intros i Hm; [lia|]. cbn [flatten_loop]. destruct (Nat.ltb_spec i (length ts)) as [Hi|]; [|exact I]. cbn [negb].
  assert (ends_at_all (flatten_loop m at_head f ts (S i))) by (apply IH; lia).
  assert (ends_at_all (flatten_loop m at_head f ts (i + 2))) by (apply IH; lia). ends.
Qed.

Lemma bracket_at_ends forms ts i : ends_at_all (bracket_at forms ts i).
Proof. unfold bracket_at. ends. Qed.

Lemma slices_ends source spans : ends_at_all (slices source spans).
Proof. induction spans as [|[a b] spans IH]; cbn; ends. Qed.
Lemma form_spans_ends ts forms : ends_at_all (form_spans ts forms).
Proof. induction forms as [|[a b] forms IH]; cbn; ends. Qed.
#[export] Hint Resolve try_match_flatten_ends bracket_at_ends slices_ends form_spans_ends : ends.

Lemma clause_edits_ends source open close children : ends_at_all (clause_edits source open close children).
Proof. unfold clause_edits. ends. Qed.
#[export] Hint Resolve clause_edits_ends : ends.

Lemma clauses_loop_ends m source ts close pos : (length ts - pos < m)%nat -> ends_at_all (clauses_loop m source ts close pos).
Proof.
  revert pos. induction m as [|m IH]; intros pos Hm; [lia|]. cbn [clauses_loop]. destruct (negb _); [done|].
  destruct (ts !! pos) as [t|] eqn:Ht; [|done]. apply lookup_lt_Some in Ht. pose proof (skip_balanced_after ts pos Ht).
  assert (ends_at_all (clauses_loop m source ts close (skip_balanced_form ts pos))) by (apply IH; lia). cbn [or_panics mbind Out_bind]. ends.
Qed.

Lemma skip_forms_ends k ts pos : ends_at_all (skip_forms k ts pos).
Proof. revert pos. induction k; intros pos; cbn [skip_forms]; ends. Qed.
#[export] Hint Resolve skip_forms_ends : ends.

Lemma flatten_clauses_ends source ts i skip : ends_at_all (try_match_flatten_clauses source ts i skip).
Proof.
  unfold try_match_flatten_clauses. apply ends_then; [auto with ends|]. intros [pos|]; [|done].
  destruct (_ =? 0)%nat; [done|]. apply ends_then; [apply clauses_loop_ends; lia|]. done.
Qed.
#[export] Hint Resolve flatten_clauses_ends : ends.

Lemma rewritten_text_ends source ts inner nested first past : ends_at_all (rewritten_text source ts inner nested first past).
Proof. unfold rewritten_text. ends. Qed.
#[export] Hint Resolve rewritten_text_ends : ends.

Lemma argument_texts_ends source ts inner f args : Forall (fun a => ends_at_all (f a.1 a.2)) args ->
  ends_at_all (argument_texts source ts inner f args).
Proof. induction 1 as [|[a b] args Ha _ IH]; cbn in *; ends. Qed.

Lemma try_match_replace_ends source ts replaces inner f i :
  (forall lo hi, (i < lo)%nat -> (hi <= length ts)%nat -> ends_at_all (f lo hi)) ->
  ends_at_all (try_match_replace source ts replaces inner f i).
Proof.
  intros Hf. unfold try_match_replace. destruct (negb _); [done|]. destruct (symbol_at _ _) as [head|]; [|done].
  destruct (negb _); [done|].
  apply (ends_after _ _ _ _ (forms_while_ends (S (length ts)) _ ts (i + 2) ltac:(lia))). intros [args pos] Ha.
  destruct (_ <=? _)%nat; [done|]. destruct (list_find _ _) as [[k [[s n] template]]|]; [|done].
  apply ends_then; [auto with ends|]. intros form_start. apply ends_then; [auto with ends|]. intros form_end.
  apply ends_then; [|ends]. apply argument_texts_ends. eapply Forall_impl; [exact Ha|]. intros [lo hi] Hl. cbn in *. apply Hf; lia.
Qed.

Lemma replace_edits_end source ts replaces inner m lo hi : (hi <= length ts)%nat -> (length ts - lo < m)%nat ->
  ends_at_all (replace_edits_within source ts replaces inner m lo hi).
Proof.
  revert lo hi. induction m as [|m IH]; intros lo hi Hh Hm; [lia|]. cbn [replace_edits_within].
  destruct (Nat.ltb_spec lo hi) as [Hl|]; [|exact I]. cbn [negb]. pose proof (skip_balanced_after ts lo ltac:(lia)).
  apply ends_then.
  - apply try_match_replace_ends. intros lo' hi' H1 H2. apply IH; lia.
  - intros [e|]; [|apply IH; lia]. apply ends_then; [apply IH; lia|done].
Qed.

Section WithStd.
Context `{Unicode, FloatText, HashOrder}.

Lemma write_edits_end ts arg w keyword : ends_at_all (write_edits ts arg w keyword).
Proof. unfold write_edits. ends. Qed.
#[local] Hint Resolve write_edits_end : ends.

Lemma millis_call_ends ts open place : ends_at_all (millis_call_edits ts open place).
Proof. unfold millis_call_edits. ends. Qed.

#[local] Hint Resolve millis_call_ends : ends.

Lemma millis_loop_ends m millis ts i : (length ts - i < m)%nat -> ends_at_all (millis_loop m millis ts i).
Proof.
  revert i. induction m as [|m IH]; intros i Hm; [lia|]. cbn [millis_loop]. destruct (ts !! i) as [t|] eqn:Ht; [|done].
  apply lookup_lt_Some in Ht. destruct (_ && _).
  - apply (ends_after _ _ _ _ (skip_one_form_ends ts i)). intros past Hp. apply IH. lia.
  - assert (ends_at_all (millis_loop m millis ts (S i))) by (apply IH; lia). apply ends_then; [ends|]. intros es. by apply ends_then.
Qed.

Lemma tokens_tile src : yields (tokens src) (tiling (st_name src) (st_lexicon src) [] (st_text src)).
Proof.
  unfold tokens. set (lx := in_lexicon _ _).
  pose proof (lex_loop_tiles (st_name src) (st_lexicon src) (S (length (st_text src))) lx [] [] ltac:(done) ltac:(cbn; lia)) as Hl.
  destruct (lex_loop _ _ _) as [ts|?| |]; try done. by destruct Hl as (us & -> & Hus).
Qed.

Lemma tokens_end src : ends_at_all (tokens src).
Proof. eapply ends_mono; [apply ends_yields, tokens_tile|done]. Qed.

Lemma code_tokens_end src : ends_at_all (code_tokens src).
Proof. unfold code_tokens. apply ends_then; [apply tokens_end|done]. Qed.
#[local] Hint Resolve tokens_end code_tokens_end : ends.

Lemma respell_ends self lex target : ends_at_all (respell self lex target).
Proof.
  unfold respell. destruct (strip_quotes lex) as [body|]; [|done]. apply ends_then; [|by intros [? []]].
  generalize [QUOTE] false. assert (length body < S (length body))%nat as Hn by lia. revert Hn. generalize (S (length body)). intros n.
  revert body. induction n as [|n IH]; intros body Hn out changed; [lia|]. cbn [respell_loop].
  destruct (find_backslash body) as [[before after]|] eqn:Hf; [|done].
  apply find_backslash_Some in Hf as [-> _]. rewrite length_app in Hn. cbn in Hn.
  apply ends_then; [eapply ends_mono; [apply ends_yields, decode_answers|done]|]. intros d.
  destruct (split_bytes _ _) as [[kept rest]|] eqn:Hs; [|done]. apply split_bytes_Some in Hs as [-> _]. rewrite length_app in Hn.
  destruct (decode target _) as [d'|?| |]; try destruct (decide _); apply IH; lia.
Qed.

Lemma lexicon_respell_ends self t lex target : ends_at_all (lexicon_respell self t lex target).
Proof.
  unfold lexicon_respell. destruct t; try done; repeat case_match; try done.
  pose proof (respell_ends (string_escapes self) lex (string_escapes target)) as Hr. by destruct (respell _ _ _).
Qed.

Lemma lexical_loop_ends src target desugared ts : ends_at_all (lexical_loop src target desugared ts).
Proof.
  induction ts as [|tw ts IH]; cbn; [done|]. destruct (_ || _); [done|]. apply ends_then; [auto with ends|]. intros lex.
  pose proof (lexicon_respell_ends (st_lexicon src) (tw_token tw) lex target) as Hr.
  destruct (lexicon_respell _ _ _ _) as [r|?| |]; try done. by apply ends_then.
Qed.

Lemma detect_ends source F : ends_at_all (rw_epoch (detect_epoch_in_source source F)).
Proof.
  unfold detect_epoch_in_source, read_syntax_all, lexicon_for. pose proof (prescan_yields source) as Hp.
  destruct (prescan_epoch source) as [n|?| |]; try done. cbn [mbind Out_bind].
  unfold read_syntax_under, lex_columns, lex_all_under.
  pose proof (lex_tiles source (text "<detect-epoch>") (for_epoch n)) as Hl. unfold lex_all_under in Hl.
  destruct (lex_loop _ _ _) as [ts|?| |]; try done. cbn [mbind Out_bind].
  pose proof (parse_all_sound ts F) as Hs. destruct (parse_all _ _) as [[fs F']|?| |]; try done. cbn.
  destruct fs as [|f fs]; [done|]. destruct (epoch_declaration f); [|done]. by repeat case_match.
Qed.

Lemma check_declared_ends n source name : ends_at_all (rw_epoch (check_declared_lexicon n source name)).
Proof.
  unfold check_declared_lexicon, prescanned_epoch_for. pose proof (prescan_yields (sexp_text source name)) as Hp.
  destruct (prescan_epoch _); try done. cbn. unfold refuse_mismatch. by destruct (decide _).
Qed.

Lemma epoch_edits_end source info : ends_at_all (epoch_edits source info).
Proof. unfold epoch_edits, declaration_end. ends. apply ends_then; ends. Qed.

Lemma collect_unwrap_ends src t : ends_at_all (collect_unwrap_edits src t).
Proof. unfold collect_unwrap_edits. apply ends_then; [apply code_tokens_end|]. intros ts. apply unwrap_loop_ends. lia. Qed.

Lemma collect_desugar_ends src t : ends_at_all (collect_desugar_edits src t).
Proof. unfold collect_desugar_edits. destruct t; [done|]. apply ends_then; [apply code_tokens_end|]. intros ts. apply collect_at_ends. auto with ends. Qed.

Lemma collect_flatten_ends src t : ends_at_all (collect_flatten_edits src t).
Proof. unfold collect_flatten_edits. apply ends_then; [apply code_tokens_end|]. intros ts. apply flatten_loop_ends; [auto with ends|lia]. Qed.

Lemma collect_clauses_ends src t : ends_at_all (collect_flatten_clause_edits src t).
Proof. unfold collect_flatten_clause_edits. apply ends_then; [apply tokens_end|]. intros ts. apply flatten_loop_ends; [auto with ends|lia]. Qed.

Lemma collect_bracket_ends src t : ends_at_all (collect_bracket_edits src t).
Proof. unfold collect_bracket_edits. apply ends_then; [apply code_tokens_end|]. intros ts. apply collect_at_ends. auto with ends. Qed.

Lemma collect_millis_ends src t : ends_at_all (collect_millis_edits src t).
Proof. unfold collect_millis_edits. destruct t; [done|]. apply ends_then; [apply code_tokens_end|]. intros ts. apply millis_loop_ends. lia. Qed.

Lemma collect_replace_ends src t inner : ends_at_all (collect_replace_edits src t inner).
Proof. unfold collect_replace_edits. apply ends_then; [apply code_tokens_end|]. intros ts. apply replace_edits_end; lia. Qed.

Lemma collect_edits_end src rules : ends_at_all (collect_edits src rules).
Proof. unfold collect_edits. apply ends_then; [apply tokens_end|done]. Qed.

Lemma collect_lexical_ends src target desugared : ends_at_all (collect_lexical_edits src target desugared).
Proof. unfold collect_lexical_edits. apply ends_then; [apply tokens_end|]. intros. apply lexical_loop_ends. Qed.

Lemma check_removals_ends src t : ends_at_all (check_removals src t).
Proof. unfold check_removals. apply ends_then; [apply code_tokens_end|]. intros ts. by destruct (omap _ _). Qed.

#[local] Hint Resolve collect_unwrap_ends collect_desugar_ends collect_flatten_ends collect_clauses_ends collect_bracket_ends : ends.
#[local] Hint Resolve collect_millis_ends collect_replace_ends collect_edits_end collect_lexical_ends check_removals_ends : ends.
#[local] Hint Resolve detect_ends check_declared_ends epoch_edits_end : ends.

(** A collector that an empty table turns off. *)
Lemma table_ends {A} (f : list A -> Rewrites (list Edit)) t : (forall t, ends_at_all (f t)) ->
  ends_at_all (match t with [] => Ok [] | _ => f t end).
Proof. by destruct t. Qed.

Lemma rewrite_file_ends source path F : ends_at_all (rewrite_file source path F).
Proof.
  unfold rewrite_file. apply ends_then; [apply detect_ends|]. intros info. cbv zeta.
  apply ends_then; [ends|]. intros _. set (src := mkSource _ _ _).
  apply ends_then; [ends|]. intros _.
  do 3 (apply ends_then; [apply table_ends; auto with ends|]; intros ?).
  do 5 (apply ends_then; [auto with ends|]; intros ?).
  apply ends_then.
  { destruct (match _ with Some _ => _ | None => _ end); [done|]. apply ends_then; [auto with ends|done]. }
  intros es. apply ends_then; [auto with ends|]. intros tag. destruct (es ++ tag); [done|]. apply ends_then; [auto with ends|done].
Qed.

Lemma one_pass_ends t name rules F : ends_at_all (one_pass t name rules F).
Proof.
  unfold one_pass, source_text. apply ends_then; [apply ends_then; [auto with ends|done]|]. intros st.
  apply ends_then; [destruct (lr_replaces rules); [done|auto with ends]|]. intros rs.
  apply ends_then; [destruct (lr_renames rules); [done|auto with ends]|done].
Qed.

Lemma passes_end n name rules F t count : ends_at_all (library_passes n name rules F t count).
Proof.
  revert t count. induction n as [|n IH]; intros t count; [done|]. cbn [library_passes].
  apply ends_then; [apply one_pass_ends|]. intros [|e es]; [done|]. apply ends_then; [auto with ends|]. intros t'. apply IH.
Qed.

Lemma reports_end t name wanted F : ends_at_all (collect_reports t name wanted F).
Proof.
  unfold collect_reports, source_text. destruct wanted; [done|]. apply ends_then; [apply ends_then; [auto with ends|done]|].
  intros st. apply ends_then; [auto with ends|done].
Qed.

(** C21: rewriting ends.  On every source, path and file table, the rewriter that
    migrates a file and the one that applies a library's rules answer a text,
    an error or a panic: each of their loops over tokens makes progress, also
    where the forms it walks are not those the reader reads. *)
Theorem rewrite_ends (source : Text) (path : list N) (F : Files) (rules : LibraryRules) :
  rewrite_file source path F <> Starved /\ apply_library_rules source path rules F <> Starved.
Proof.
  split; intros Heq.
  - pose proof (rewrite_file_ends source path F) as He. by rewrite Heq in He.
  - assert (ends_at_all (apply_library_rules source path rules F)) as He; [|by rewrite Heq in He].
    unfold apply_library_rules. apply ends_then; [apply reports_end|]. intros reports.
    apply ends_then; [apply passes_end|]. by intros [t count].
Qed.

End WithStd.
