(* ===== verification/RewriteLex.v ===== *)
(** * Renaming and lexing

    What a token reads beyond its own text: the character after it, and the one
    after a colon.  So a text in which symbols are respelled lexes to the tokens
    it did ([lex_token_local]), and the text that a rename leaves lexes to the
    renamed tokens ([rename_reads]). *)

From stdpp Require Import base numbers option list strings sets.
From S2P Require Import Prelude LirRecord ValueTree Scalar Files Text Escape Lexer LexerProps LexerTiles.
From S2P Require Import SynReader SynGrammar SynPrint ReaderProps EpochRules Epoch EpochTemplate EpochProps Rewrite RewriteProps.

Local Open Scope N_scope.

(** ** Numbers look one character ahead *)

Section Numbers.
Variables r r' : Text.
Hypothesis same_head : r !! 0%nat = r' !! 0%nat.

(** Two cursors with the same text before [r] and before [r']. *)
Definition sees (u : Text) (lx lx2 : Lexer) : Prop := lx_rest lx = u ++ r /\ lx_rest lx2 = u ++ r'.

Lemma sees_current u lx lx2 : sees u lx lx2 -> current lx = current lx2.
Proof. unfold current. intros [-> ->]. by destruct u. Qed.

Lemma sees_peek u lx lx2 : sees u lx lx2 -> u <> [] -> peek1 lx = peek1 lx2.
Proof. unfold peek1. intros [-> ->] Hu. destruct u as [|c [|d u]]; [done|exact same_head|done]. Qed.

Lemma sees_advance c u lx lx2 : sees (c :: u) lx lx2 -> sees u (advance lx) (advance lx2).
Proof. intros [H1 H2]. split; eapply rest_advance; [exact H1|exact H2]. Qed.

(** A read that ends before [r] has not touched it. *)
Lemma untouched u v w : u ++ r = w ++ v ++ r -> u = w ++ v.
Proof. rewrite app_assoc. apply app_inv_tail. Qed.

Lemma sees_while p u v lx lx2 a lx1 : sees u lx lx2 -> advance_while p lx = (a, lx1) -> lx_rest lx1 = v ++ r ->
  exists lx3, advance_while p lx2 = (a, lx3) /\ sees v lx1 lx3.
Proof.
  intros [H1 H2] Ha Hv. destruct (advance_while_moves p lx) as (s & lx' & Heq & [Hm _] & Hf & Hst). rewrite Ha in Heq. injection Heq as <- <-.
  rewrite H1, Hv in Hm. apply untouched in Hm as ->. rewrite <- app_assoc in H2.
  destruct (advance_while_all p a (v ++ r') lx2 H2 Hf) as (lx3 & -> & _ & Hr3).
  { rewrite Hv in Hst. destruct v as [|c v]; cbn in *; [|done]. destruct r, r'; cbn in *; try done. by injection same_head as ->. }
  exists lx3. by split.
Qed.

Lemma sees_sign u v lx lx2 sg lx1 : sees u lx lx2 -> read_sign lx = (sg, lx1) -> lx_rest lx1 = v ++ r ->
  exists lx3, read_sign lx2 = (sg, lx3) /\ sees v lx1 lx3.
Proof.
  intros Hs Hr Hv. destruct (read_sign_moves lx) as (s & lx' & Heq & [Hm _] & _). rewrite Hr in Heq. injection Heq as <- <-.
  unfold read_sign in *. rewrite <- (sees_current _ _ _ Hs). pose proof (proj1 Hs) as H1. rewrite Hv, H1 in Hm. apply untouched in Hm as ->.
  destruct (current lx) as [c|]; [destruct (is_sign c)|]; injection Hr as <- <-.
  - exists (advance lx2). split; [done|]. by apply (sees_advance c).
  - by exists lx2.
  - by exists lx2.
Qed.

Lemma sees_prefix u v lx lx2 radix lx1 : sees u lx lx2 -> u <> [] -> read_prefix lx = (radix, lx1) -> lx_rest lx1 = v ++ r ->
  exists lx3, read_prefix lx2 = (radix, lx3) /\ sees v lx1 lx3.
Proof.
  intros Hs Hu Hr Hv. unfold read_prefix in *. rewrite <- (sees_current _ _ _ Hs), <- (sees_peek _ _ _ Hs Hu).
  assert (lx1 = lx -> sees v lx1 lx2) as Hstay.
  { intros ->. destruct Hs as [H1 H2]. split; [done|]. rewrite H1 in Hv. by apply app_inv_tail in Hv as ->. }
  destruct (decide _) as [Hz|]; [|injection Hr as <- <-; exists lx2; auto].
  destruct (peek1 lx ≫= from_prefix_char) as [rd|] eqn:Hp; injection Hr as <- <-; [|exists lx2; auto].
  exists (advance (advance lx2)). split; [done|]. destruct Hs as [H1 H2]. unfold peek1 in Hp.
  destruct u as [|c [|d u]]; [done| |].
  - cbn in H1. rewrite H1 in Hp. cbn in Hp. destruct r as [|d q] eqn:Hrr; [done|].
    rewrite (rest_advance _ d q) in Hv by (by eapply rest_advance). apply (f_equal length) in Hv. rewrite length_app in Hv. cbn in Hv. lia.
  - assert (sees u (advance (advance lx)) (advance (advance lx2))) as Hs by (by do 2 eapply sees_advance).
    destruct Hs as [H3 H4]. split; [done|]. rewrite H3 in Hv. by apply app_inv_tail in Hv as <-.
Qed.

Lemma sees_fraction u v body lx lx2 b d lx1 : sees u lx lx2 -> read_fraction body lx = Ok (b, d, lx1) -> lx_rest lx1 = v ++ r ->
  exists lx3, read_fraction body lx2 = Ok (b, d, lx3) /\ sees v lx1 lx3.
Proof.
  intros Hs Hr Hv. pose proof (read_fraction_moves body lx) as Hy. rewrite Hr in Hy. destruct Hy as [w [Hm _]].
  unfold read_fraction in *. rewrite <- (sees_current _ _ _ Hs). pose proof (proj1 Hs) as H1. rewrite Hv, H1 in Hm. apply untouched in Hm as ->.
  destruct (decide (current lx = Some DOT)) as [Hd|].
  - destruct (decide _); [done|]. destruct w as [|c w].
    { destruct (decide (peek1 lx = Some UNDERSCORE)); [done|].
      destruct (advance_while_moves digit_or_underscore (advance lx)) as (s & lx' & Heq & [Hm' _] & _). rewrite Heq in Hr. injection Hr as <- <- <-.
      apply current_rest in Hd as [q Hq]. rewrite (rest_advance _ _ _ Hq), Hv in Hm'. cbn in H1. rewrite H1, Hm' in Hq.
      apply (f_equal length) in Hq. cbn in Hq. rewrite !length_app in Hq. lia. }
    rewrite <- (sees_peek _ _ _ Hs) by done. destruct (decide (peek1 lx = Some UNDERSCORE)); [done|].
    destruct (advance_while digit_or_underscore (advance lx)) as [ds lx4] eqn:Ha. injection Hr as <- <- <-.
    destruct (sees_while _ _ _ _ _ _ _ (sees_advance _ _ _ _ Hs) Ha Hv) as (lx3 & -> & Hs3). by exists lx3.
  - injection Hr as <- <- <-. exists lx2. split; [done|]. destruct Hs as [H3 H4]. split; [done|].
    rewrite H3 in Hv. apply app_inv_tail in Hv. by rewrite <- Hv.
Qed.

Lemma sees_exponent u v body lx lx2 b d lx1 : sees u lx lx2 -> read_exponent body lx = Ok (b, d, lx1) -> lx_rest lx1 = v ++ r ->
  exists lx3, read_exponent body lx2 = Ok (b, d, lx3) /\ sees v lx1 lx3.
Proof.
  intros Hs Hr Hv. unfold read_exponent in *. rewrite <- (sees_current _ _ _ Hs). pose proof (proj1 Hs) as H1.
  assert (lx1 = lx -> sees v lx1 lx2) as Hstay.
  { intros ->. destruct Hs as [H3 H4]. split; [done|]. rewrite H3 in Hv. apply app_inv_tail in Hv. by rewrite <- Hv. }
  destruct (current lx) as [e|] eqn:He; [|injection Hr as <- <- <-; exists lx2; auto].
  destruct ((e =? LOWER_E) || (e =? UPPER_E)); [|injection Hr as <- <- <-; exists lx2; auto].
  destruct (decide _); [done|]. destruct (read_sign (advance lx)) as [sg lx4] eqn:Hsg.
  destruct (decide (current lx4 = Some UNDERSCORE)) as [|Hnu]; [done|]. destruct (current lx4) as [c|] eqn:Hc; [|done].
  destruct (is_ascii_digit c) eqn:Hdig; [|done].
  destruct (advance_while digit_or_underscore lx4) as [ds lx5] eqn:Ha. injection Hr as <- <- <-.
  destruct (advance_while_moves digit_or_underscore lx4) as (ds' & lx' & Heq & [Hm _] & _). rewrite Ha in Heq. injection Heq as <- <-.
  destruct (read_sign_moves (advance lx)) as (sg' & lx'' & Heq & [Hm' _] & _). rewrite Hsg in Heq. injection Heq as <- <-.
  apply current_rest in He as [q Hq]. rewrite (rest_advance _ _ _ Hq), Hm, Hv in Hm'.
  assert (u = e :: sg ++ ds ++ v) as ->.
  { rewrite H1, Hm' in Hq. rewrite !app_assoc, app_comm_cons in Hq. apply app_inv_tail in Hq. by rewrite <- !app_assoc in Hq. }
  rewrite Hv, app_assoc in Hm.
  destruct (sees_sign _ _ _ _ _ _ (sees_advance _ _ _ _ Hs) Hsg Hm) as (lx6 & -> & Hs6).
  rewrite <- (sees_current _ _ _ Hs6), Hc. rewrite decide_False by done. rewrite Hdig.
  destruct (sees_while _ _ _ _ _ _ _ Hs6 Ha Hv) as (lx3 & -> & Hs3). by exists lx3.
Qed.

Context `{Unicode, FloatText}.

Lemma sees_decimal u sign lx lx2 t lx1 : sees u lx lx2 -> read_decimal sign lx = Ok (t, lx1) -> lx_rest lx1 = r ->
  exists lx3, read_decimal sign lx2 = Ok (t, lx3) /\ lx_rest lx3 = r'.
Proof.
  intros Hs Hr Hend. unfold read_decimal in *. destruct (advance_while _ lx) as [body lxa] eqn:Ha.
  pose proof (read_fraction_moves body lxa) as Hf. destruct (read_fraction body lxa) as [[[bf df] lxf]|?| |] eqn:Hfr; try done.
  destruct Hf as [wf [Hmf _]]. cbn [mbind Out_bind] in Hr.
  pose proof (read_exponent_moves bf lxf) as He. destruct (read_exponent bf lxf) as [[[be de] lxe]|?| |] eqn:Her; try done.
  destruct He as [we [Hme _]]. cbn [mbind Out_bind] in Hr.
  destruct (validate_and_strip_underscores be) as [stripped|?| |] eqn:Hst; try done. cbn [mbind Out_bind] in Hr.
  assert (lxe = lx1) as ->.
  { destruct (df || de); [destruct (parse_f64 _)|destruct (parse_i64 _)]; try done; by injection Hr as _ <-. }
  assert (lx_rest lx1 = [] ++ r) as Hend' by done. rewrite Hend in Hme. rewrite Hme, app_assoc in Hmf.
  destruct (sees_while _ _ _ _ _ _ _ Hs Ha Hmf) as (lx3 & -> & Hs3).
  destruct (sees_fraction _ _ _ _ _ _ _ _ Hs3 Hfr Hme) as (lx4 & -> & Hs4). cbn [mbind Out_bind].
  destruct (sees_exponent _ _ _ _ _ _ _ _ Hs4 Her Hend') as (lx5 & -> & [_ Hs5]). cbn [mbind Out_bind]. rewrite Hst. cbn [mbind Out_bind].
  exists lx5. split; [|done]. destruct (df || de); [destruct (parse_f64 _)|destruct (parse_i64 _)]; try done; by injection Hr as <-.
Qed.

Lemma sees_prefixed u radix sign lx lx2 t lx1 : sees u lx lx2 -> read_prefixed radix sign lx = Ok (t, lx1) -> lx_rest lx1 = r ->
  exists lx3, read_prefixed radix sign lx2 = Ok (t, lx3) /\ lx_rest lx3 = r'.
Proof.
  intros Hs Hr Hend. unfold read_prefixed in *. destruct (advance_while _ lx) as [body lxa] eqn:Ha.
  assert (lxa = lx1) as ->.
  { destruct body; [done|]. case_match; [done|]. destruct (validate_and_strip_underscores _); try done. cbn in Hr.
    destruct (from_str_radix _ _); [|done]. by injection Hr as _ <-. }
  destruct (sees_while _ _ [] _ _ _ _ Hs Ha Hend) as (lx3 & -> & Hs3). rewrite <- (sees_current _ _ _ Hs3).
  exists lx3. split; [|apply Hs3]. destruct body; [done|]. case_match; [done|].
  destruct (validate_and_strip_underscores _); try done. cbn in *. destruct (from_str_radix _ _); [|done]. by injection Hr as <-.
Qed.

Lemma sees_number u lx lx2 t lx1 c : sees u lx lx2 -> read_number lx = Ok (t, lx1) -> lx_rest lx1 = r ->
  current (read_sign lx).2 = Some c -> is_ascii_digit c = true ->
  exists lx3, read_number lx2 = Ok (t, lx3) /\ lx_rest lx3 = r'.
Proof.
  intros Hs Hr Hend Hc Hd. unfold read_number in *.
  destruct (read_sign_moves lx) as (sg & lxa & Hsg & [Hma _] & _). rewrite Hsg in Hr, Hc. cbn in Hc. apply current_rest in Hc as [q Hq].
  destruct (read_prefix_moves lxa) as (radix & w & lxb & Hpr & [Hmb Hmb'] & Hdec & Hpre). rewrite Hpr in Hr.
  assert (exists x, lx_rest lxb = x ++ r /\ w ++ x <> []) as (x & Hx & Hne).
  { destruct (is_prefixed radix).
    - pose proof (read_prefixed_moves radix sg lxb) as Hy. rewrite Hr in Hy. destruct Hy as [_ (x & Hm & _)]. rewrite Hend in Hm.
      exists x. split; [done|]. specialize (Hpre eq_refl). by destruct w.
    - pose proof (read_decimal_moves sg lxb) as Hy. rewrite Hr in Hy. destruct Hy as [_ (x & [Hm _] & Hx)]. rewrite Hend in Hm.
      exists x. split; [done|]. rewrite (Hdec eq_refl) in Hmb |- *. cbn in *. rewrite <- Hmb, Hq in Hx. auto. }
  rewrite Hx, app_assoc in Hmb. destruct (sees_sign _ _ _ _ _ _ Hs Hsg Hmb) as (lx3 & -> & Hs3).
  destruct (sees_prefix _ _ _ _ _ _ Hs3 Hne Hpr Hx) as (lx4 & -> & Hs4).
  destruct (is_prefixed radix); [eapply sees_prefixed | eapply sees_decimal]; eauto.
Qed.
End Numbers.

(** ** Symbols look past a colon *)

Section Lookahead.
Context `{Unicode, FloatText}.

(** Texts that begin alike: with the same character, or both with one that
    starts a symbol. *)
Definition head_like (q q' : Text) : Prop := q !! 0%nat = q' !! 0%nat \/
  exists c c', q !! 0%nat = Some c /\ q' !! 0%nat = Some c' /\ is_symbol_start c = true /\ is_symbol_start c' = true.

(** What may stand after a token instead of [r]. *)
Definition follow (r r' : Text) : Prop :=
  match r, r' with
  | [], [] => True
  | c :: q, c' :: q' => (c = c' /\ head_like q q') \/ (is_symbol_start c = true /\ is_symbol_start c' = true)
  | _, _ => False
  end.

(** A symbol ends before the text. *)
Definition ends_symbol (r : Text) : Prop := match r with [] => True | c :: q => symbol_goes_on c (q !! 0%nat) = false end.

Lemma symbol_passes s r : symbol_text s = true -> ends_symbol r -> passes symbol_goes_on s r.
Proof.
  intros Hs Hr. induction s as [|c s IH]; cbn in *; [done|]. apply andb_true_iff in Hs as [Hc Hs]. split; [|auto].
  destruct s as [|d s]; [|done]. cbn in *. unfold symbol_goes_on in *. destruct (is_whitespace c || is_delimiter c); [|done].
  by rewrite andb_false_r in Hc.
Qed.

Lemma read_symbol_ends lx s r : lx_rest lx = s ++ r -> symbol_text s = true -> ends_symbol r ->
  exists lx', read_symbol lx = (s, lx') /\ moves lx s lx' /\ lx_rest lx' = r.
Proof. intros Hr Hs He. apply passes_walk; [done|]. by apply symbol_passes. Qed.

Lemma follow_ends r r' : follow r r' -> ends_symbol r -> ends_symbol r'.
Proof.
  destruct r as [|c q], r' as [|c' q']; try done. cbn. intros [[<- Hl]|[Hc _]] He; [|by rewrite symbol_start_inside in He].
  unfold symbol_goes_on in *. destruct (is_whitespace c || is_delimiter c); [|done]. destruct (c =? COLON); [|done]. cbn in *.
  destruct Hl as [<-|(d & d' & Hd & -> & Hsd & _)]; [done|]. rewrite Hd in He. by rewrite Hsd in He.
Qed.

Lemma ends_not_start c q : ends_symbol (c :: q) -> is_symbol_start c = false.
Proof. cbn. intros He. apply not_true_iff_false. intros Hc. by rewrite symbol_start_inside in He. Qed.

(** After the end of a symbol the next character is the same. *)
Lemma follow_head r r' : follow r r' -> ends_symbol r -> r !! 0%nat = r' !! 0%nat.
Proof.
  destruct r as [|c q], r' as [|c' q']; try done. cbn. intros [[<- _]|[Hc _]] He; [done|].
  apply ends_not_start in He. by rewrite He in Hc.
Qed.

Lemma read_symbol_local lx lx2 s r r' lx' : read_symbol lx = (s, lx') -> lx_rest lx' = r -> lx_rest lx2 = s ++ r' -> follow r r' ->
  lx_rest lx = s ++ r /\ ends_symbol r /\ symbol_text s = true
  /\ exists lx3, read_symbol lx2 = (s, lx3) /\ moves lx2 s lx3 /\ lx_rest lx3 = r'.
Proof.
  intros Hr Hend H2 Hf. unfold read_symbol in Hr. destruct (walk_moves symbol_goes_on lx) as (s0 & lx0 & Heq & [Hm _] & Hp).
  rewrite Hr in Heq. injection Heq as <- <-. rewrite Hend in Hm, Hp. pose proof (passes_symbol_text _ _ Hp) as Hs.
  assert (ends_symbol r) as He by (clear -Hp; induction s as [|c s IH]; [done|]; apply IH, Hp).
  split; [done|]. split; [done|]. split; [done|]. exact (read_symbol_ends lx2 s r' H2 Hs (follow_ends _ _ Hf He)).
Qed.

(** *** One token *)

Lemma same_rest (a b q : Text) : a ++ q = b ++ q -> a = b.
Proof. apply app_inv_tail. Qed.

Lemma comment_local lx lx2 s r r' x lx' : lx_rest lx = s ++ r -> s <> [] -> read_comment lx = (x, lx') -> lx_rest lx' = r ->
  lx_rest lx2 = s ++ r' -> follow r r' -> exists lx3, read_comment lx2 = (x, lx3) /\ lx_rest lx3 = r'.
Proof.
  intros Hr Hne Hx Hend H2 Hf. unfold read_comment in *.
  destruct (advance_while_moves (fun c => negb (c =? NEWLINE)) lx) as (a & lxa & Ha & [Hm _] & Hall & Hst). rewrite Ha in Hx.
  destruct (lx_rest lxa) as [|d q] eqn:Hq.
  - assert (x = a /\ lx' = lxa) as [-> ->] by (unfold current in Hx; rewrite Hq in Hx; cbn in Hx; by injection Hx as <- <-).
    rewrite Hq in Hend. subst r. destruct r' as [|]; [|done]. rewrite Hr in Hm. apply same_rest in Hm as ->.
    destruct (advance_while_all _ a [] lx2 H2 Hall I) as (lx3 & -> & _ & H3). exists lx3. split; [|done].
    unfold current. by rewrite H3.
  - rewrite (rest_current _ _ _ Hq) in Hx. injection Hx as <- <-. rewrite (rest_advance _ _ _ Hq) in Hend. subst q.
    rewrite Hr in Hm. change (d :: r) with ([d] ++ r) in Hm. rewrite app_assoc in Hm. apply same_rest in Hm as ->.
    rewrite <- app_assoc in H2. destruct (advance_while_all _ a ([d] ++ r') lx2 H2 Hall Hst) as (lx3 & -> & _ & H3).
    rewrite (rest_current _ _ _ H3). exists (advance lx3). split; [done|]. exact (rest_advance _ _ _ H3).
Qed.

Lemma keyword_local lx lx2 s r r' t lx' : lx_rest lx = s ++ r -> lex_keyword lx = Ok (t, lx') -> lx_rest lx' = r ->
  lx_rest lx2 = s ++ r' -> follow r r' -> exists lx3, lex_keyword lx2 = Ok (t, lx3) /\ lx_rest lx3 = r'.
Proof.
  intros Hr Hk Hend H2 Hf. unfold lex_keyword in *. destruct (decide (current lx = Some AT)) as [Ha|Hna].
  - apply current_rest in Ha as [q Hq]. destruct (read_symbol (advance lx)) as [x lx0] eqn:Hx. destruct x as [|d x]; [done|].
    injection Hk as <- <-. destruct (read_symbol_moves (advance lx)) as (x' & lx1 & Heq & [Hm _] & _). rewrite Hx in Heq. injection Heq as <- <-.
    rewrite Hend, (rest_advance _ _ _ Hq) in Hm. rewrite Hq, Hm, app_comm_cons in Hr. apply same_rest in Hr as <-. cbn [app] in H2.
    rewrite decide_True by (by eapply rest_current).
    destruct (read_symbol_local _ (advance lx2) _ _ _ _ Hx Hend (rest_advance _ _ _ H2) Hf) as (_ & _ & _ & lx3 & -> & _ & H3). by exists lx3.
  - destruct (read_symbol lx) as [x lx0] eqn:Hx. destruct x as [|d x]; [done|]. injection Hk as <- <-.
    destruct (read_symbol_moves lx) as (x' & lx1 & Heq & [Hm _] & _). rewrite Hx in Heq. injection Heq as <- <-.
    rewrite Hend in Hm. rewrite Hm in Hr. apply same_rest in Hr as <-.
    rewrite decide_False by (rewrite (rest_current _ _ _ H2); rewrite (rest_current _ _ _ Hm) in Hna; done).
    destruct (read_symbol_local _ lx2 _ _ _ _ Hx Hend H2 Hf) as (_ & _ & _ & lx3 & -> & _ & H3). by exists lx3.
Qed.

(** The peeks of the arms that end in a symbol. *)
Lemma peek_local lx lx2 d s r r' : lx_rest lx = (d :: s) ++ r -> lx_rest lx2 = (d :: s) ++ r' -> r !! 0%nat = r' !! 0%nat -> peek1 lx = peek1 lx2.
Proof. intros H1 H2 Hh. unfold peek1. rewrite H1, H2. by destruct s. Qed.

Lemma at_local lx lx2 s r r' t lx' : lx_rest lx = s ++ r -> lex_at lx = (t, lx') -> lx_rest lx' = r ->
  lx_rest lx2 = s ++ r' -> follow r r' -> exists lx3, lex_at lx2 = (t, lx3) /\ lx_rest lx3 = r'.
Proof.
  intros Hr Hk Hend H2 Hf. unfold lex_at in *. destruct s as [|c s].
  - cbn in Hr, H2. assert (lx' = lx /\ t = ListSugar /\ match r with c :: _ => c <> PIPE /\ is_symbol_start c = false | [] => True end) as (-> & -> & Hhd).
    { destruct r as [|c q]; unfold current in Hk; rewrite Hr in Hk; cbn in Hk; [by injection Hk as <- <-|].
      pose proof (rest_advance _ _ _ Hr) as Har. destruct (N.eqb_spec c PIPE) as [->|Hp].
      { injection Hk as <- <-. rewrite Har in Hend. by apply (f_equal length) in Hend; cbn in Hend; lia. }
      destruct ((c =? LOWER_B) && _) eqn:Hb.
      { injection Hk as <- <-. destruct q as [|d q]; [apply andb_true_iff in Hb as [_ Hb%bool_decide_eq_true]; unfold peek1 in Hb; by rewrite Hr in Hb|].
        rewrite (rest_advance _ _ _ Har) in Hend. apply (f_equal length) in Hend. cbn in Hend. lia. }
      destruct (is_symbol_start c) eqn:Hs; [|by injection Hk as <- <-].
      destruct (read_symbol_moves lx) as (x & lx1 & Heq & [Hm _] & _ & Hne). rewrite Heq in Hk. injection Hk as <- <-.
      rewrite Hr in Hne. specialize (Hne (symbol_start_inside _ _ Hs)). rewrite Hend, Hr in Hm.
      apply (f_equal length) in Hm. rewrite length_app in Hm. destruct x; [done|]. cbn in Hm. lia. }
    exists lx2. split; [|done]. destruct r as [|c q], r' as [|c' q']; try done; [unfold current; by rewrite H2|].
    rewrite (rest_current _ _ _ H2). destruct Hhd as [Hp Hs]. destruct Hf as [[<- _]|[Hc _]]; [|by rewrite Hs in Hc].
    rewrite (proj2 (N.eqb_neq _ _) Hp), Hs. destruct (N.eqb_spec c LOWER_B) as [->|]; [done|]. done.
  - cbn [app] in Hr, H2. rewrite (rest_current _ _ _ Hr) in Hk. rewrite (rest_current _ _ _ H2).
    pose proof (rest_advance _ _ _ Hr) as Ha1. pose proof (rest_advance _ _ _ H2) as Ha2. destruct (c =? PIPE).
    { injection Hk as <- <-. exists (advance lx2). split; [done|]. rewrite Ha1 in Hend. apply (same_rest s []) in Hend as ->. done. }
    destruct ((c =? LOWER_B) && bool_decide (peek1 lx = Some LBRACKET)) eqn:Hb.
    { injection Hk as <- <-. apply andb_true_iff in Hb as [Hc Hb%bool_decide_eq_true]. rewrite Hc. unfold peek1 in *. rewrite Hr in Hb. rewrite H2.
      destruct s as [|d s].
      { cbn in *. destruct r as [|x r0]; [done|]. rewrite (rest_advance _ _ _ Ha1) in Hend. apply (f_equal length) in Hend. cbn in Hend. lia. }
      injection Hb as ->. cbn. rewrite (rest_advance _ _ _ Ha1) in Hend. apply (same_rest s []) in Hend as ->.
      exists (advance (advance lx2)). split; [done|]. exact (rest_advance _ _ _ Ha2). }
    destruct (is_symbol_start c) eqn:Hs.
    + destruct (read_symbol lx) as [x lx1] eqn:Hx. injection Hk as <- <-.
      destruct (read_symbol_moves lx) as (x' & lx0 & Heq & [Hm _] & _). rewrite Hx in Heq. injection Heq as <- <-.
      rewrite Hend, Hr, app_comm_cons in Hm. apply same_rest in Hm as <-.
      destruct (read_symbol_local _ lx2 _ _ _ _ Hx Hend H2 Hf) as (_ & He & _ & lx3 & -> & _ & H3).
      rewrite <- (peek_local lx lx2 c s r r' Hr H2 (follow_head _ _ Hf He)), Hb. by exists lx3.
    + injection Hk as <- <-. rewrite Hr in Hend. apply (f_equal length) in Hend. cbn in Hend. rewrite length_app in Hend. lia.
Qed.

Definition is_number (t : Token) : bool := match t with Integer _ | Float _ => true | _ => false end.

(** A symbol whose first character is [c]. *)
Lemma plain_local lx lx2 c s r r' x lx' : lx_rest lx = (c :: s) ++ r -> read_symbol lx = (x, lx') -> lx_rest lx' = r ->
  lx_rest lx2 = (c :: s) ++ r' -> follow r r' ->
  peek1 lx = peek1 lx2 /\ exists lx3, read_symbol lx2 = (x, lx3) /\ lx_rest lx3 = r'.
Proof.
  intros Hr Hx Hend H2 Hf. destruct (read_symbol_moves lx) as (x' & lx0 & Heq & [Hm _] & _). rewrite Hx in Heq. injection Heq as <- <-.
  rewrite Hend, Hr in Hm. apply same_rest in Hm as <-.
  destruct (read_symbol_local _ lx2 _ _ _ _ Hx Hend H2 Hf) as (_ & He & _ & lx3 & -> & _ & H3).
  split; [|by exists lx3]. exact (peek_local lx lx2 c s r r' Hr H2 (follow_head _ _ Hf He)).
Qed.

Lemma digit_or_sign_local lx lx2 c s r r' t lx' : lx_rest lx = (c :: s) ++ r -> is_ascii_digit c || is_sign c = true ->
  lex_digit_or_sign c lx = Ok (t, lx') -> lx_rest lx' = r -> lx_rest lx2 = (c :: s) ++ r' -> follow r r' ->
  (is_number t = true -> r !! 0%nat = r' !! 0%nat) -> exists lx3, lex_digit_or_sign c lx2 = Ok (t, lx3) /\ lx_rest lx3 = r'.
Proof.
  intros Hr Hc Hk Hend H2 Hf Hnum. unfold lex_digit_or_sign in *.
  destruct (is_sign c && match peek1 lx with Some next => negb (is_ascii_digit next) | None => true end) eqn:Hs.
  - destruct (read_symbol lx) as [x lx1] eqn:Hx. injection Hk as <- <-.
    destruct (plain_local _ lx2 _ _ _ _ _ _ Hr Hx Hend H2 Hf) as (<- & lx3 & -> & H3). rewrite Hs. by exists lx3.
  - pose proof (read_number_moves lx c (s ++ r) Hr Hc) as Hy. rewrite Hk in Hy. destruct Hy as [Hn _].
    assert (r !! 0%nat = r' !! 0%nat) as Hh by (apply Hnum; by destruct t).
    rewrite <- (peek_local lx lx2 c s r r' Hr H2 Hh), Hs.
    assert (exists d, current (read_sign lx).2 = Some d /\ is_ascii_digit d = true) as (d & Hd1 & Hd2).
    { unfold read_sign. rewrite (rest_current _ _ _ Hr). destruct (is_sign c) eqn:Hsg; cbn in Hs |- *.
      - unfold peek1 in Hs. rewrite Hr in Hs. unfold current. rewrite (rest_advance _ _ _ Hr). cbn in Hs.
        destruct ((s ++ r) !! 0%nat) as [d|] eqn:Hsr; [|done]. exists d. split; [exact Hsr|]. by apply negb_false_iff.
      - exists c. split; [exact (rest_current _ _ _ Hr)|]. by rewrite orb_false_r in Hc. }
    exact (sees_number r r' Hh (c :: s) lx lx2 t lx' d (conj Hr H2) Hk Hend Hd1 Hd2).
Qed.

Lemma symbol_local lx lx2 c s r r' t lx' : lx_rest lx = (c :: s) ++ r -> lex_symbol lx = (t, lx') -> lx_rest lx' = r ->
  lx_rest lx2 = (c :: s) ++ r' -> follow r r' -> peek1 lx = peek1 lx2 /\ exists lx3, lex_symbol lx2 = (t, lx3) /\ lx_rest lx3 = r'.
Proof.
  intros Hr Hk Hend H2 Hf. unfold lex_symbol in *. destruct (read_symbol lx) as [x lx1] eqn:Hx. injection Hk as <- <-.
  destruct (plain_local _ lx2 _ _ _ _ _ _ Hr Hx Hend H2 Hf) as (Hp & lx3 & -> & H3). split; [done|]. by exists lx3.
Qed.

(** The token at the front of [s ++ r] that ends before [r] is read from
    [s ++ r'] too. *)
Lemma lex_token_local lx lx2 c s r r' t lx' : lx_rest lx = (c :: s) ++ r -> lex_token c lx = Ok (t, lx') -> lx_rest lx' = r ->
  lx_rest lx2 = (c :: s) ++ r' -> lx_lexicon lx2 = lx_lexicon lx -> follow r r' ->
  (is_number t = true -> r !! 0%nat = r' !! 0%nat) -> exists lx3, lex_token c lx2 = Ok (t, lx3) /\ lx_rest lx3 = r'.
Proof.
  intros Hr Hk Hend H2 HL Hf Hnum. unfold lex_token in *. rewrite HL.
  pose proof (rest_advance _ _ _ Hr) as Ha1. pose proof (rest_advance _ _ _ H2) as Ha2.
  assert (lx_rest (advance lx) = r -> lx_rest (advance lx2) = r') as Hone.
  { rewrite Ha1, Ha2. intros ->%(same_rest s []). done. }
  destruct (c =? comment_char (lx_lexicon lx)).
  { destruct (read_comment lx) as [x lx1] eqn:Hx. injection Hk as <- <-.
    destruct (comment_local _ _ _ _ _ _ _ Hr ltac:(done) Hx Hend H2 Hf) as (lx3 & -> & H3). by exists lx3. }
  destruct (unit_token c); [injection Hk as <- <-; eauto|].
  destruct (c =? COMMA).
  { destruct (comma_semicolon_fuses (lx_lexicon lx)); cbn [andb] in *; [|injection Hk as <- <-; eauto].
    destruct (bool_decide (current (advance lx) = Some SEMI)) eqn:Hb; injection Hk as <- <-.
    - apply bool_decide_eq_true in Hb. apply current_rest in Hb as [q Hq]. rewrite (rest_advance _ _ _ Hq) in Hend. subst q.
      rewrite Ha1 in Hq. apply (same_rest s [SEMI]) in Hq as ->. exists (advance (advance lx2)).
      rewrite bool_decide_true by (by eapply rest_current). split; [done|]. by eapply rest_advance.
    - exists (advance lx2). split; [|by apply Hone]. rewrite bool_decide_false; [done|]. intros Hq. apply bool_decide_eq_false in Hb. apply Hb.
      rewrite Ha1 in Hend. apply (same_rest s []) in Hend as ->. cbn in Ha1, Ha2. unfold current in *. rewrite Ha2 in Hq. rewrite Ha1.
      destruct r as [|d q], r' as [|d' q']; try done. injection Hq as ->. destruct Hf as [[-> _]|[_ Hc]]; [done|]. vm_compute in Hc. discriminate Hc. }
  destruct (c =? SEMI); [destruct (semicolon_splices _); [injection Hk as <- <-; eauto|done]|].
  destruct (c =? AT).
  { injection Hk as Hk. destruct (lex_at (advance lx)) as [t0 lx0] eqn:Hx. injection Hk as <- <-.
    destruct (at_local _ (advance lx2) _ _ _ _ _ Ha1 Hx Hend Ha2 Hf) as (lx3 & -> & H3). by exists lx3. }
  destruct (c =? COLON); [exact (keyword_local _ (advance lx2) _ _ _ _ _ Ha1 Hk Hend Ha2 Hf)|].
  destruct (N.eqb_spec c QUOTE) as [->|].
  { pose proof (read_string_moves lx _ Hr) as Hy. destruct (read_string lx) as [[u lx1]|?| |]; try done. cbn in Hk. injection Hk as <- <-.
    destruct Hy as (b & Hb & [Hm _]). rewrite Hend, Hr in Hm. apply same_rest in Hm. injection Hm as ->. rewrite <- HL in Hb.
    cbn [app] in H2. rewrite <- app_assoc in H2. destruct (read_string_spells lx2 b u r' Hb H2) as (lx3 & -> & _ & H3). by exists lx3. }
  destruct (is_ascii_digit c || (c =? MINUS) || (c =? PLUS)) eqn:Hd.
  { apply (digit_or_sign_local lx lx2 c s r r' t lx'); try done. unfold is_sign. rewrite <- Hd. by destruct (is_ascii_digit c), (c =? MINUS), (c =? PLUS). }
  destruct ((c =? LOWER_B) && bool_decide (peek1 lx = Some LBRACKET)) eqn:Hb.
  - injection Hk as <- <-. apply andb_true_iff in Hb as [-> Hb%bool_decide_eq_true]. unfold peek1 in *. rewrite Hr in Hb. rewrite H2.
    destruct s as [|d s]; cbn in *.
    { destruct r as [|x q]; [done|]. rewrite (rest_advance _ _ _ Ha1) in Hend. apply (f_equal length) in Hend. cbn in Hend. lia. }
    injection Hb as ->. rewrite (rest_advance _ _ _ Ha1) in Hend. apply (same_rest s []) in Hend as ->.
    exists (advance (advance lx2)). split; [done|]. exact (rest_advance _ _ _ Ha2).
  - injection Hk as Hk. destruct (lex_symbol lx) as [t0 lx0] eqn:Hx. injection Hk as <- <-.
    destruct (symbol_local _ lx2 _ _ _ _ _ _ Hr Hx Hend H2 Hf) as (<- & lx3 & -> & H3). rewrite Hb. by exists lx3.
Qed.

(** *** A new name *)

Definition starts_name (s : Text) : Prop := match s with c :: _ => is_symbol_start c = true | [] => False end.

(** A name that reads as one symbol before anything that ends a symbol. *)
Definition name_ok (L : Lexicon) (s : Text) : Prop := symbol_token L s /\ starts_name s /\ s <> [LOWER_B].

Lemma ends_head_not_inside c q : ends_symbol (c :: q) -> is_whitespace c || is_delimiter c = true.
Proof. cbn. unfold symbol_goes_on. by destruct (is_whitespace c || is_delimiter c). Qed.

Lemma start_inside c : is_symbol_start c = true -> is_whitespace c || is_delimiter c = false.
Proof.
  intros Hc%(symbol_start_inside c None). unfold symbol_goes_on in Hc. destruct (_ || _); [|done]. by rewrite andb_false_r in Hc.
Qed.

Lemma name_lexes L c y r lx : lx_lexicon lx = L -> sharp L -> name_ok L (c :: y) -> ends_symbol r -> lx_rest lx = (c :: y) ++ r ->
  exists lx', lex_token c lx = Ok (Symbol (c :: y), lx') /\ lx_rest lx' = r.
Proof.
  intros HL (Hcc & _ & _) (Hs & Hst & Hnb) He Hr. cbn in Hst. pose proof (start_inside _ Hst) as Hin. cbn [symbol_token] in Hs.
  destruct (plain_chars c Hin) as (Hw & Hu & H1 & H2 & H3 & H4). rewrite (proj2 (N.eqb_neq _ _) H3) in Hs.
  destruct Hs as (Hst0 & Htx & Hres & Hsg). unfold starts_symbol in Hst0. apply negb_true_iff in Hst0.
  apply orb_false_iff in Hst0 as [[[Hc1 Hq]%orb_false_iff Hcol]%orb_false_iff Hd].
  destruct (read_symbol_ends lx (c :: y) r Hr Htx He) as (lx' & Hrs & _ & Hr').
  unfold lex_token. rewrite HL, Hc1, Hu. apply N.eqb_neq in H1, H2, H3. rewrite H1, H2, H3, Hcol, Hq, Hd. cbn [orb].
  exists lx'. split; [|done]. destruct ((c =? MINUS) || (c =? PLUS)) eqn:Hsc.
  - unfold lex_digit_or_sign. assert (is_sign c = true) as Hsc' by (unfold is_sign; by rewrite orb_comm). rewrite Hsc'.
    assert (match peek1 lx with Some next => negb (is_ascii_digit next) | None => true end = true) as ->.
    { unfold peek1. rewrite Hr. specialize (Hsg Hsc'). destruct y as [|d y]; cbn in *; [|by rewrite Hsg].
      destruct r as [|x r]; [done|]. cbn. apply negb_true_iff, not_true_iff_false. intros Hx%digit_inside.
      apply ends_head_not_inside in He. by rewrite Hx in He. }
    cbn [andb]. by rewrite Hrs.
  - assert ((c =? LOWER_B) && bool_decide (peek1 lx = Some LBRACKET) = false) as ->.
    { destruct (N.eqb_spec c LOWER_B) as [->|]; [|done]. cbn [andb]. apply bool_decide_eq_false. unfold peek1. rewrite Hr.
      destruct y as [|d y]; [done|]. cbn. intros [= ->]. cbn in Htx. by rewrite andb_false_r in Htx. }
    unfold lex_symbol. rewrite Hrs. unfold reserved in Hres. do 2 f_equal.
    rewrite !decide_False; [done|intros Heq; rewrite Heq in Hres; set_solver..].
Qed.

Lemma digit_starts_none c : is_ascii_digit c = true -> is_symbol_start c = false.
Proof.
  rewrite is_ascii_digit_spec. intros Hc. assert (c ∈ (fun k => 48 + N.of_nat k) <$> seq 0 10) as Hin.
  { apply list_elem_of_fmap. exists (N.to_nat (c - 48)). split; [lia|]. apply elem_of_seq. lia. }
  revert Hin. clear Hc. cbn. rewrite !elem_of_cons, elem_of_nil. intros Hin. repeat destruct Hin as [-> | Hin]; done.
Qed.

Lemma read_symbol_stops lx s lx' : read_symbol lx = (s, lx') -> ends_symbol (lx_rest lx').
Proof.
  unfold read_symbol. destruct (walk_moves symbol_goes_on lx) as (s0 & lx0 & -> & _ & Hp). intros [= <- <-].
  induction s0 as [|c s0 IH]; [done|]. apply IH, Hp.
Qed.

(** A symbol token ends where a symbol ends. *)
Lemma symbol_token_stops c q lx x lx' : lx_rest lx = c :: q -> is_ascii_digit c = false -> lex_token c lx = Ok (Symbol x, lx') ->
  ends_symbol (lx_rest lx').
Proof.
  intros Hr Hd. unfold lex_token. destruct (c =? comment_char _); [by destruct (read_comment lx)|].
  destruct (unit_token c) as [t|] eqn:Hu; [intros [= -> <-]; by apply unit_token_text in Hu as [? _]|].
  destruct (c =? COMMA); [by destruct (_ && _)|]. destruct (c =? SEMI); [by destruct (semicolon_splices _)|].
  destruct (c =? AT).
  { unfold lex_at. destruct (current (advance lx)) as [d|]; [|done]. destruct (d =? PIPE); [done|]. destruct (_ && _); [done|].
    destruct (is_symbol_start d); [|done]. destruct (read_symbol (advance lx)) as [y lx0] eqn:Hy. intros [= _ <-]. by eapply read_symbol_stops. }
  destruct (c =? COLON); [unfold lex_keyword; destruct (if decide _ then _ else _); destruct (read_symbol _) as [[] ?]; done|].
  destruct (c =? QUOTE); [by destruct (read_string lx) as [[]|?| |]|]. rewrite Hd. cbn [orb].
  destruct ((c =? MINUS) || (c =? PLUS)) eqn:Hs.
  - unfold lex_digit_or_sign. destruct (is_sign c && _).
    + destruct (read_symbol lx) as [y lx0] eqn:Hy. intros [= _ <-]. by eapply read_symbol_stops.
    + intros Hn. pose proof (read_number_moves lx c q Hr) as Hy. rewrite Hn in Hy.
      destruct Hy as [[] _]. unfold is_sign. rewrite Hd, orb_comm. cbn. by rewrite orb_false_r, orb_comm.
  - destruct (_ && _); [done|]. unfold lex_symbol. destruct (read_symbol lx) as [y lx0] eqn:Hy. intros [= _ <-]. by eapply read_symbol_stops.
Qed.

Lemma rename_edits_cons renames tw us : omap (first_edit [rename_apply renames]) (tw :: us) =
  match rename_apply renames tw with Some e => e :: omap (first_edit [rename_apply renames]) us | None => omap (first_edit [rename_apply renames]) us end.
Proof. cbn. by destruct (rename_apply renames tw). Qed.

(** ** Renaming a source *)

Section Renames.
Variables (L : Lexicon) (renames : list (Text * Text)).
Hypothesis L_sharp : sharp L.
Hypothesis renames_ok : forall old new, table_get renames old = Some new -> starts_name old /\ name_ok L new.

Definition rename_token (t : Token) : Token :=
  match t with Symbol s => Symbol (default s (table_get renames s)) | _ => t end.

(** The new name of a token that is renamed. *)
Definition renamed (t : Token) : option Text := match t with Symbol s => table_get renames s | _ => None end.

(** No number stands right before a renamed symbol. *)
Fixpoint spaced (ts : list TokenWithLoc) : bool :=
  match ts with
  | tw :: (tw' :: _) as ts' =>
    (negb (is_number (tw_token tw)) || negb (bool_decide (is_Some (renamed (tw_token tw')))) || (tw_end tw <? tw_offset tw'))
    && spaced ts'
  | _ => true
  end.

(** The text [out] is the text at [lx] with the lexemes of [ts], which are read
    there, renamed. *)
Fixpoint respelled (lx : Lexer) (ts : list TokenWithLoc) (out : Text) : Prop :=
  match ts with
  | [] => blank (lx_rest lx) /\ out = lx_rest lx
  | tw :: ts => exists ws c s lx1 lx' out', blank ws /\ moves lx ws lx1 /\ is_whitespace c = false /\ moves lx1 (c :: s) lx'
      /\ lex_token c lx1 = Ok (tw_token tw, lx') /\ lexeme L (tw_token tw) (c :: s)
      /\ tw_offset tw = lx_pos lx1 /\ tw_end tw = lx_pos lx'
      /\ out = ws ++ default (c :: s) (renamed (tw_token tw)) ++ out' /\ respelled lx' ts out'
  end.

Lemma renamed_starts tw c s new : lexeme L (tw_token tw) (c :: s) -> renamed (tw_token tw) = Some new ->
  is_symbol_start c = true /\ exists c' s', new = c' :: s' /\ is_symbol_start c' = true.
Proof.
  intros Hl Hr. unfold renamed in Hr. destruct (tw_token tw); try done. destruct Hl as [<- _]. apply renames_ok in Hr as [Hold (_ & Hnew & _)].
  split; [exact Hold|]. destruct new as [|c' s']; [done|]. by exists c', s'.
Qed.

Lemma head_like_refl q : head_like q q.
Proof. by left. Qed.

Lemma respelled_head lx ts out : respelled lx ts out -> head_like (lx_rest lx) out.
Proof.
  destruct ts as [|tw ts]; cbn; [intros [_ ->]; apply head_like_refl|].
  intros (ws & c & s & lx1 & lx' & out' & _ & [Hm _] & _ & [Hm1 _] & _ & Hl & _ & _ & -> & _). rewrite Hm, Hm1.
  destruct ws as [|w ws]; [|by left]. destruct (renamed (tw_token tw)) as [new|] eqn:Hr; [|by left].
  destruct (renamed_starts _ _ _ _ Hl Hr) as (Hc & c' & s' & -> & Hc'). right. exists c, c'. done.
Qed.

Lemma respelled_follow lx ts out : respelled lx ts out -> follow (lx_rest lx) out.
Proof.
  destruct ts as [|tw ts]; cbn.
  - intros [_ ->]. destruct (lx_rest lx) as [|c q]; [done|]. left. split; [done|apply head_like_refl].
  - intros (ws & c & s & lx1 & lx' & out' & _ & [Hm _] & _ & [Hm1 _] & _ & Hl & _ & _ & -> & Hrest). rewrite Hm, Hm1.
    destruct (renamed (tw_token tw)) as [new|] eqn:Hr.
    + destruct (renamed_starts _ _ _ _ Hl Hr) as (Hc & c' & s' & -> & Hc'). destruct ws as [|w ws]; cbn; [by right|].
      left. split; [done|]. destruct ws; [right; by exists c, c'|by left].
    + destruct ws as [|w ws]; cbn; left; (split; [done|]); [|by destruct ws; left].
      destruct s as [|d s]; [exact (respelled_head _ _ _ Hrest)|by left].
Qed.

(** The head is the same where no renamed symbol starts. *)
Lemma respelled_same_head lx ts out : respelled lx ts out ->
  match ts with tw :: _ => renamed (tw_token tw) = None \/ lx_pos lx < tw_offset tw | [] => True end ->
  lx_rest lx !! 0%nat = out !! 0%nat.
Proof.
  destruct ts as [|tw ts]; cbn; [by intros [_ ->]|].
  intros (ws & c & s & lx1 & lx' & out' & _ & Hm & _ & [Hm1 _] & _ & _ & Ho & _ & -> & _) Hc. pose proof (proj1 Hm) as Hm0. rewrite Hm0, Hm1.
  destruct ws as [|w ws]; [|done]. destruct Hc as [->|Hlt]; [done|]. rewrite Ho in Hlt. apply moves_place in Hm as (Hp & _). cbn in Hp. lia.
Qed.

(** The next token after blank text, from what the lexer reads at its start. *)
Lemma next_token_after ws c q r t lx : blank ws -> lx_rest lx = ws ++ c :: q -> is_whitespace c = false ->
  (forall lx1, lx_rest lx1 = c :: q -> lx_lexicon lx1 = lx_lexicon lx -> exists lx', lex_token c lx1 = Ok (t, lx') /\ lx_rest lx' = r) ->
  exists tw lx', next_token_with_loc lx = Ok (Some tw, lx') /\ tw_token tw = t /\ lx_rest lx' = r /\ lx_lexicon lx' = lx_lexicon lx.
Proof.
  intros Hws Hr Hc Hlex. pose proof (next_token_takes lx) as Hy. unfold next_token_with_loc, skip_whitespace in *.
  destruct (advance_while_all is_whitespace ws (c :: q) lx Hr Hws Hc) as (lx1 & Ha & Hm & Hr1). rewrite Ha in *. cbn [snd] in *.
  rewrite (rest_current _ _ _ Hr1) in *. destruct (Hlex lx1 Hr1 (moves_lexicon _ _ _ Hm)) as (lx' & Hl & Hr'). rewrite Hl in *. cbn in *.
  eexists _, lx'. split; [done|]. split; [done|]. split; [done|].
  destruct Hy as (ws' & s & lx2 & _ & Hm1 & _ & Hm2 & _). by rewrite (moves_lexicon _ _ _ Hm2), (moves_lexicon _ _ _ Hm1).
Qed.

(** The renamed text lexes to the renamed tokens. *)
Lemma respelled_lexes n acc lx lx2 ts out : respelled lx ts out -> spaced ts = true -> lx_lexicon lx = L -> lx_lexicon lx2 = L ->
  lx_rest lx2 = out -> (length out < n)%nat ->
  exists vs, lex_loop n acc lx2 = Ok (acc ++ vs) /\ map tw_token vs = map (fun tw => rename_token (tw_token tw)) ts.
Proof.
  revert n acc lx lx2 out. induction ts as [|tw ts IH]; intros n acc lx lx2 out Hre Hsp HL HL2 Hr2 Hn; (destruct n as [|n]; [lia|]); cbn [lex_loop].
  - destruct Hre as [Hb ->]. exists []. rewrite app_nil_r. split; [|done]. rewrite <- Hr2, <- (app_nil_r (lx_rest lx2)) in Hb.
    unfold next_token_with_loc, skip_whitespace. rewrite app_nil_r in Hb.
    destruct (advance_while_all is_whitespace (lx_rest lx2) [] lx2 (eq_sym (app_nil_r _)) Hb I) as (lx3 & -> & _ & Hr3).
    cbn [snd]. unfold current. by rewrite Hr3.
  - destruct Hre as (ws & c & s & lx1 & lx' & out' & Hws & Hm & Hcw & Hm1 & Hlt & Hl & Ho & He & -> & Hrest).
    pose proof (respelled_follow _ _ _ Hrest) as Hf. pose proof (proj1 Hm1) as Hr1.
    assert (lx_lexicon lx1 = L) as HL1 by (by rewrite (moves_lexicon _ _ _ Hm)).
    assert (exists c' s', default (c :: s) (renamed (tw_token tw)) = c' :: s' /\ is_whitespace c' = false
      /\ forall lxa, lx_rest lxa = c' :: s' ++ out' -> lx_lexicon lxa = lx_lexicon lx2 ->
        exists lxb, lex_token c' lxa = Ok (rename_token (tw_token tw), lxb) /\ lx_rest lxb = out') as (c' & s' & Hdef & Hcw' & Hlex).
    { destruct (renamed (tw_token tw)) as [new|] eqn:Hrn; cbn [default].
      - destruct (tw_token tw) eqn:Ht; try done. cbn in Hrn, Hl |- *. destruct Hl as [<- _]. rewrite Hrn. cbn.
        destruct (renames_ok _ _ Hrn) as [Hold Hnew]. destruct new as [|c' s']; [by destruct Hnew as (_ & [] & _)|]. exists c', s'.
        split; [done|]. split; [apply orb_false_iff with (b2 := is_delimiter c'), start_inside, Hnew|].
        intros lxa Hra HLa. apply (name_lexes L); [by rewrite HLa|done|done| |done].
        apply (follow_ends (lx_rest lx')); [done|].
        apply (symbol_token_stops c _ lx1 (c :: s) lx' Hr1); [|exact Hlt]. apply not_true_iff_false. intros Hd%digit_starts_none.
        cbn in Hold. by rewrite Hd in Hold.
      - exists c, s. split; [done|]. split; [done|]. intros lxa Hra HLa.
        assert (rename_token (tw_token tw) = tw_token tw) as ->.
        { unfold rename_token, renamed in *. destruct (tw_token tw); try done. by rewrite Hrn. }
        apply (lex_token_local lx1 lxa c s (lx_rest lx') out' _ lx' Hr1 Hlt eq_refl Hra); [by rewrite HLa, HL2, HL1|done|].
        intros Hnum. apply (respelled_same_head _ _ _ Hrest). destruct ts as [|tw' ts]; [done|].
        cbn [spaced] in Hsp. apply andb_true_iff in Hsp as [Hsp _]. rewrite Hnum in Hsp. cbn in Hsp.
        apply orb_true_iff in Hsp as [Hsp|Hsp]; [left|right].
        + apply negb_true_iff, bool_decide_eq_false in Hsp. by apply eq_None_not_Some.
        + apply N.ltb_lt in Hsp. by rewrite <- He. }
    rewrite Hdef in Hr2, Hn. cbn [app] in Hr2.
    destruct (next_token_after ws c' (s' ++ out') out' (rename_token (tw_token tw)) lx2 Hws Hr2 Hcw' Hlex) as (tw2 & lx3 & -> & Ht2 & Hr3 & HL3).
    cbn [mbind Out_bind].
    destruct (IH n (acc ++ [tw2]) lx' lx3 out' Hrest) as (vs & Hlp & Hmap).
    + cbn in Hsp. destruct ts; [done|]. by apply andb_true_iff in Hsp as [_ Hsp].
    + by rewrite (moves_lexicon _ _ _ Hm1).
    + by rewrite HL3.
    + done.
    + rewrite !length_app in Hn. cbn in Hn. lia.
    + exists (tw2 :: vs). rewrite Hlp, <- app_assoc. split; [done|]. cbn. by rewrite Ht2, Hmap.
Qed.

(** One token of a run, with the text it is read from. *)
Lemma next_token_read lx tw lx' : lx_lexicon lx = L -> next_token_with_loc lx = Ok (Some tw, lx') ->
  exists ws c s lx1, blank ws /\ moves lx ws lx1 /\ is_whitespace c = false /\ moves lx1 (c :: s) lx'
    /\ lex_token c lx1 = Ok (tw_token tw, lx') /\ lexeme L (tw_token tw) (c :: s) /\ tw_offset tw = lx_pos lx1 /\ tw_len tw = blen (c :: s).
Proof.
  intros HL. unfold next_token_with_loc. destruct (skip_whitespace_moves lx) as (ws & Hm & Hws & Hstop). set (lx1 := skip_whitespace lx) in *.
  destruct (lx_rest lx1) as [|c q] eqn:Hr; [unfold current; by rewrite Hr|]. rewrite (rest_current _ _ _ Hr).
  pose proof (lex_token_takes lx1 c q Hr Hstop) as Hy. destruct (lex_token c lx1) as [[t lx2]|?| |] eqn:Hl; try done. cbn.
  intros [= <- ->]. destruct Hy as (s & Hne & Hm1 & Hlx). cbn in Hm1, Hlx. destruct s as [|d s]; [done|].
  pose proof (proj1 Hm1) as Hr1. rewrite Hr in Hr1. injection Hr1 as <- _. exists ws, c, s, lx1.
  rewrite (moves_lexicon _ _ _ Hm), HL in Hlx. repeat split; try done; try apply Hm; try apply Hm1.
  apply moves_place in Hm1 as (Hp & _). cbn in Hp |- *. lia.
Qed.

Lemma run_respelled n acc lx us : lx_lexicon lx = L -> lex_loop n acc lx = Ok (acc ++ us) -> exists lead ps,
  respelled lx us (lead ++ pieces_text pc_new ps) /\ lx_rest lx = lead ++ pieces_text pc_old ps /\ Forall (fun p => pc_old p <> []) ps
  /\ omap (first_edit [rename_apply renames]) us = edits_of (lx_pos lx + blen lead) ps.
Proof.
  revert acc lx us. induction n as [|n IH]; intros acc lx us HL; cbn [lex_loop]; [done|].
  destruct (next_token_with_loc lx) as [[[tw|] lx']|?| |] eqn:Hn; try done; cbn [mbind Out_bind]; intros Hrun.
  - destruct (next_token_read _ _ _ HL Hn) as (ws & c & s & lx1 & Hws & Hm & Hcw & Hm1 & Hlt & Hl & Ho & Hlen).
    destruct (lex_loop_prefix _ _ _ _ Hrun) as [us' Hus]. rewrite <- app_assoc in Hus. apply app_inv_head in Hus as ->. cbn [app] in Hrun |- *.
    change (tw :: us') with ([tw] ++ us') in Hrun. rewrite app_assoc in Hrun.
    assert (lx_lexicon lx' = L) as HL' by (by rewrite (moves_lexicon _ _ _ Hm1), (moves_lexicon _ _ _ Hm)).
    destruct (IH _ lx' us' HL' Hrun) as (lead & ps & Hre & Hold & Hne & Hed).
    pose proof (proj1 (moves_place _ _ _ Hm)) as Hp. pose proof (proj1 (moves_place _ _ _ Hm1)) as Hp1.
    assert (tw_end tw = lx_pos lx') as Hend by (unfold tw_end; lia).
    assert (rename_apply renames tw = (fun new => mkEdit (tw_offset tw) (tw_len tw) new) <$> renamed (tw_token tw)) as Hra.
    { unfold rename_apply, renamed. by destruct (tw_token tw). }
    destruct (renamed (tw_token tw)) as [new|] eqn:Hrn.
    + exists ws, (mkPiece (c :: s) new lead :: ps). split; [|split; [|split]].
      * cbn. exists ws, c, s, lx1, lx', (lead ++ pieces_text pc_new ps). rewrite Hrn. cbn. repeat split; try done; try apply Hm; try apply Hm1.
        unfold pieces_text. cbn. by rewrite <- app_assoc.
      * rewrite (proj1 Hm), (proj1 Hm1), Hold. unfold pieces_text. cbn. by rewrite <- !app_assoc.
      * by constructor.
      * rewrite rename_edits_cons, Hra. cbn [fmap option_fmap option_map]. cbn [edits_of pc_old pc_new pc_gap]. rewrite Ho, Hlen, Hp. f_equal.
        etransitivity; [exact Hed|]. apply (f_equal (fun at_ => edits_of at_ ps)). rewrite blen_app. lia.
    + exists (ws ++ (c :: s) ++ lead), ps. split; [|split; [|split]].
      * cbn. exists ws, c, s, lx1, lx', (lead ++ pieces_text pc_new ps). rewrite Hrn. cbn. repeat split; try done; try apply Hm; try apply Hm1.
        rewrite <- app_assoc. cbn. by rewrite <- app_assoc.
      * by rewrite (proj1 Hm), (proj1 Hm1), Hold, <- !app_assoc.
      * done.
      * rewrite rename_edits_cons, Hra. cbn [fmap option_fmap option_map]. etransitivity; [exact Hed|]. apply (f_equal (fun at_ => edits_of at_ ps)). rewrite !blen_app. lia.
  - injection Hrun as Hrun. assert (us = []) as -> by (rewrite <- (app_nil_r acc) in Hrun at 1; by apply app_inv_head in Hrun as <-).
    pose proof (next_token_takes lx) as Hy. rewrite Hn in Hy. cbn in Hy. exists (lx_rest lx), []. unfold pieces_text. cbn.
    rewrite app_nil_r. split; [done|]. split; [done|]. split; [constructor|done].
Qed.
End Renames.

(** C18: renaming keeps what the source is.  Over a source shorter than 2^64
    bytes that lexes under an epoch's rules, with a table of renames whose old
    and new names begin with a character a symbol can start with, whose new
    names read back as one symbol and are not [b] (which would open a byte
    literal before a bracket), and with no number right before a renamed
    symbol, the rename collector's edits apply, and the text they leave lexes,
    comments, strings and all, to the tokens it had with the symbols renamed.
    Where no new name is itself renamed, a second pass over that text finds
    nothing to edit. *)
Theorem rename_reads (epoch : N) (source : Text) (name : list N) (renames : list (Text * Text)) (ts : list TokenWithLoc) :
  blen source < USIZE -> tokens (mkSource source name (for_epoch epoch)) = Ok ts ->
  (forall old new, table_get renames old = Some new -> starts_name old /\ name_ok (for_epoch epoch) new) ->
  spaced renames ts = true ->
  exists edits out ts',
    collect_edits (mkSource source name (for_epoch epoch)) [rename_apply renames] = Ok edits
    /\ apply_edits source edits = Ok out
    /\ tokens (mkSource out name (for_epoch epoch)) = Ok ts'
    /\ map tw_token ts' = map (fun tw => rename_token renames (tw_token tw)) ts
    /\ ((forall old new, table_get renames old = Some new -> table_get renames new = None) ->
        collect_edits (mkSource out name (for_epoch epoch)) [rename_apply renames] = Ok []).
Proof.
  intros Hlen Hts Hok Hsp. set (L := for_epoch epoch) in *. assert (sharp L) as HL by done.
  unfold collect_edits. rewrite Hts. cbn [mbind Out_bind]. unfold tokens in Hts. cbn [st_text st_name st_lexicon] in Hts.
  set (lx := in_lexicon (Lexer_with_file source name) L) in Hts.
  destruct (lex_loop _ _ lx) as [ts0|?| |] eqn:Hrun; try done. cbn in Hts. injection Hts as ->.
  destruct (run_respelled L renames (S (length source)) [] lx ts eq_refl Hrun) as (lead & ps & Hre & Hold & Hne & Hed).
  cbn in Hold. set (out := lead ++ pieces_text pc_new ps) in *.
  destruct (respelled_lexes L renames HL Hok (S (length out)) [] lx (in_lexicon (Lexer_with_file out name) L) ts out Hre Hsp
    eq_refl eq_refl eq_refl ltac:(lia)) as (vs & Hvs & Hmap).
  eexists _, out, vs. split; [reflexivity|]. split.
  { rewrite Hed. cbn. rewrite Hold in Hlen |- *. by apply apply_pieces. }
  assert (tokens (mkSource out name L) = Ok vs) as Htk by (unfold tokens; cbn [st_text st_name st_lexicon]; by rewrite Hvs).
  split; [done|]. split; [done|]. intros Hidem. rewrite Htk. cbn [mbind Out_bind]. f_equal.
  assert (Forall (fun t => exists t0, t = rename_token renames t0) (map tw_token vs)) as Hall.
  { rewrite Hmap. apply Forall_map, Forall_forall. intros tw _. by exists (tw_token tw). }
  clear -Hall Hidem. induction vs as [|tw vs IH]; [done|]. apply Forall_cons in Hall as [[t0 Ht0] Hall].
  assert (rename_apply renames tw = None) as Hn.
  { unfold rename_apply. rewrite Ht0. unfold rename_token. destruct t0; try done.
    destruct (table_get renames s) as [new|] eqn:Hg; cbn; [by rewrite (Hidem _ _ Hg)|by rewrite Hg]. }
  rewrite rename_edits_cons, Hn. by apply IH.
Qed.
End Lookahead.

(** ** The registered renames *)

Section Registered.
Context `{Unicode, HashOrder}.

Definition name_check (s : Text) : bool :=
  match s with
  | c :: _ => is_symbol_start c && symbol_text s && negb (bool_decide (s ∈ reserved)) && negb (is_sign c)
              && starts_symbol current_lexicon c && negb (bool_decide (s = [LOWER_B])) && negb (c =? AT)
  | [] => false
  end.

Lemma name_checked e s : name_check s = true -> name_ok (for_epoch e) s.
Proof.
  destruct s as [|c s]; [done|]. unfold name_check. rewrite !andb_true_iff, !negb_true_iff, !bool_decide_eq_false.
  intros [[[[[[H1 H2] H3] H4] H5] H6] H7]. split; [|by split]. cbn [symbol_token]. rewrite H7. by rewrite H4.
Qed.

Lemma ranges_name_checked : forallb (fun from =>
  forallb (fun '(old, new) => name_check old && name_check new) (renames_of (rules_in_range from CURRENT_EPOCH))) old_epochs = true.
Proof. vm_compute. reflexivity. Qed.

(** The renames of every range of epochs are fit for [rename_reads]. *)
Lemma registered_names from e old new : from < CURRENT_EPOCH -> table_get (collapsed_renames from CURRENT_EPOCH) old = Some new ->
  starts_name old /\ name_ok (for_epoch e) new.
Proof.
  intros Hf%old_epoch Hg. apply list_elem_of_In in Hf. pose proof ranges_chain_free as Hc. rewrite forallb_forall in Hc. specialize (Hc from Hf).
  pose proof ranges_name_checked as Hn. rewrite forallb_forall in Hn. specialize (Hn from Hf).
  unfold collapsed_renames in Hg. rewrite (collapse_chain_free _ []) in Hg by done. apply table_get_Some, list_elem_of_In in Hg.
  rewrite forallb_forall in Hn. specialize (Hn _ Hg). cbv beta iota in Hn. apply andb_true_iff in Hn as [Ho Hn].
  split; [apply (name_checked 0 old Ho) | by apply name_checked].
Qed.
End Registered.

Definition old_calls : Text := text "(car '(f car)) # car" ++ NEWLINE :: text "12 cdr"  ++ [NEWLINE].

Lemma rename_reads_witness : exists ts edits out ts', tokens (mkSource old_calls script_name (for_epoch 9)) = Ok ts
  /\ collect_edits (mkSource old_calls script_name (for_epoch 9)) [rename_apply (collapsed_renames 9 CURRENT_EPOCH)] = Ok edits
  /\ apply_edits old_calls edits = Ok out
  /\ tokens (mkSource out script_name (for_epoch 9)) = Ok ts'
  /\ map tw_token ts' = map (fun tw => rename_token (collapsed_renames 9 CURRENT_EPOCH) (tw_token tw)) ts.
Proof.
  destruct (tokens (mkSource old_calls script_name (for_epoch 9))) as [ts|?| |] eqn:Hts; [|vm_compute in Hts; discriminate Hts..].
  exists ts. destruct (rename_reads 9 old_calls script_name (collapsed_renames 9 CURRENT_EPOCH) ts eq_refl Hts) as (edits & out & ts' & H1 & H2 & H3 & H4 & _).
  - intros old new. apply registered_names. reflexivity.
  - vm_compute in Hts. injection Hts as <-. vm_compute. reflexivity.
  - exists edits, out, ts'. split; [reflexivity|]. split; [exact H1|]. split; [exact H2|]. split; [exact H3|exact H4].
Defined.

(** What the rename makes of it. *)
Lemma old_calls_renamed : exists edits, collect_edits (mkSource old_calls script_name (for_epoch 9)) [rename_apply (collapsed_renames 9 CURRENT_EPOCH)] = Ok edits
  /\ apply_edits old_calls edits = Ok (text "(first '(f first)) # car" ++ NEWLINE :: text "12 rest" ++ [NEWLINE]).
Proof. eexists. split; vm_compute; reflexivity. Qed.
